(* ===== verification/_CoqProject ===== *)
-Q . S2P
Prelude.v
Float64.v
Decimal.v
Disk.v
Sequence.v
Schema.v
Key.v
RowCodec.v
WalBatch.v
WalLog.v
WalManager.v
Mvcc.v
Memtable.v
LsmVersion.v
DeletionVector.v
Manifest.v
ManifestPb.v
Catalog.v
Commit.v
CommitRun.v
Compaction.v
Picker.v
Bloom.v
KvIndex.v
Arrow.v
Codec.v
FileReader.v
FileWriter.v
Cache.v
ReadPath.v
DvResolve.v
Engine.v
Gc.v
Flush.v
ChangeFeed.v
Replica.v
EngineOpen.v
Recovery.v
FlushFile.v
StoreInv.v
FlushRun.v
CompactionJob.v
Rewrite.v
CompactionFile.v
CompactionRun.v
ObjectStore.v
Mirror.v
AwaitMirror.v
Iceberg.v
Export.v
Sql.v
Refinement.v
Db.v
