(* ===== verification/Prelude.v ===== *)
(** * merutable: a verification library for the LSM table engine

    merutable ([src/crates/merutable]) is an embedded, single-table LSM engine.
    A write is encoded under an order-preserving key, appended to a write-ahead
    log and inserted into a skip-list memtable; full memtables are flushed to
    Parquet data files listed in a manifest, which the catalog replaces
    atomically; compaction merges the files of two levels; a read consults the
    memtables, the row cache, then the files, newest first.

    ** Files, and the code they model (paths under [src/crates/merutable/src])

    Foundations:
    - [Prelude]: results ([Ok], [Err], [Panic]), byte strings and their
      order, little-endian fields, lists, sorting, ordered pairs.  The three
      outcomes of [res] separate a returned error from a panic (an index out of
      range, an overflow check, an unwrap), so a theorem [... = Ok x] or
      [... <> Panic] also says that the code does not panic.
    - [Float64]: no code of its own; bounds on the results of [f64] operations.
    - [Decimal]: the standard library's printing and parsing of integers in
      base ten, which file names and the version hint use.
    - [Disk]: the file system as [std::fs] shows it, with injected faults, a
      stop at any system call, and the loss of data that was not synced.
    - [Sequence]: [types/sequence.rs], the atomic counter of sequence numbers.
    - [Schema]: [types/schema.rs], [types/value.rs] and the file format of
      [types/level.rs].
    - [Key]: [types/key.rs], the encoding of primary keys and its decoder.
    - [RowCodec]: [engine/codec.rs], row bytes in log and memtable.
    Write-ahead log and memory:
    - [WalBatch]: [wal/batch.rs], the wire format of a batch.
    - [WalLog]: [wal/format.rs], [wal/writer.rs], [wal/reader.rs].
    - [WalManager]: [wal/manager.rs], with the recovery part of
      [MeruEngine::open] of [engine/engine.rs].
    - [Mvcc]: no code of its own; the abstract meaning of a snapshot read
      ([newest]) against which memtables, files, compaction and the read path
      are specified.
    - [Memtable]: [memtable/skiplist.rs], [iterator.rs], [memtable.rs],
      [manager.rs].
    Metadata:
    - [LsmVersion]: [iceberg/version.rs], [ParquetFileMeta] and [ColumnStats].
    - [DeletionVector]: [iceberg/deletion_vector.rs].
    - [Manifest]: [iceberg/manifest.rs], [iceberg/snapshot.rs].
    - [ManifestPb]: the protobuf form, [iceberg/manifest_pb.rs] and the
      conversions of [iceberg/manifest.rs].
    - [Catalog]: [iceberg/catalog.rs]: open, refresh and commit, system call by
      system call; [Commit]: its theorems; [CommitRun]: commits that run to
      the end, and the files a commit leaves alone.
    Compaction:
    - [Compaction]: [engine/compaction/iterator.rs] and the pure parts of
      [engine/compaction/job.rs].
    - [Picker]: [engine/compaction/picker.rs], [engine/config.rs].
    Data files:
    - [Bloom]: [parquet/bloom.rs].
    - [KvIndex]: [parquet/kv_index.rs].
    - [Arrow]: no code of its own; the interfaces of the arrow and parquet
      crates the next three files call.
    - [Codec]: [parquet/codec.rs], rows to record batches and back.
    - [FileReader]: [parquet/reader.rs], [parquet/footer.rs].
    - [FileWriter]: [parquet/writer.rs].
    Reading:
    - [Cache]: [engine/cache.rs], the row cache and its generations.
    - [ReadPath]: [engine/read_path.rs], point lookups and range scans over
      memtables, cache and levels.
    The engine:
    - [DvResolve]: [engine/dv_resolve.rs], the rows a flush supersedes.
    - [Engine]: the engine's state and its writes, [engine/engine.rs] and
      [engine/write_path.rs].
    - [Gc]: pinned snapshots, deferred deletion and the end of a compaction
      job, [engine/engine.rs] and [engine/compaction/job.rs].
    - [Flush]: [engine/flush.rs], with [flush] and [close] of
      [engine/engine.rs]; [FlushFile]: the file and the deletion vectors a
      flush writes.
    - [StoreInv]: the invariant that memtables, manifest, data files and
      deletion vectors on disk satisfy between operations; [FlushRun]: flushes
      keep it.
    - [ChangeFeed]: the change feed of [engine/engine.rs] and the cursor of
      [sql/mod.rs].
    - [Replica]: [replica/mod.rs], the log sources, the tail and the rebases.
    - [EngineOpen]: [open], [refresh] and [stats] of [engine/engine.rs],
      [engine/stats.rs]; [Recovery]: opening after a crash.
    - [CompactionJob]: the rest of [engine/compaction/job.rs] and the turns of
      the workers of [engine/background.rs]; [Rewrite]: replacing files of two
      levels as readers see it; [CompactionFile]: the files a job writes;
      [CompactionRun]: compaction jobs keep the invariant of [StoreInv].
    - [Refinement]: no code of its own; the engine as a map.
    Beyond the engine:
    - [ObjectStore]: [store/traits.rs], [store/local.rs], [store/cached.rs],
      over the file system of [Disk].
    - [Mirror]: [mirror.rs], the worker that copies snapshots to an object
      store; [AwaitMirror]: [await_mirror] of [db.rs] against that worker.
    - [Iceberg]: [iceberg/translate.rs], the table metadata for external
      readers, and the contents of the data files of an export; [Export]:
      [export_to_iceberg] of [iceberg/catalog.rs], system call by system call.
    - [Sql]: [sql/datafusion_provider.rs] and [sql/arrow.rs], the change feed
      as a table.
    - [Db]: [db.rs] and [options.rs], the facade.

    A struct is a record with the code's fields, a method with [&mut self] a
    function that returns the new record, a fallible method a function to
    [res].  Machine integers are [Z] with their widths as hypotheses or
    checks where the code's behaviour depends on them; bytes are [Byte.byte].

    ** What the theorems show

    - The engine: every run of lookups, scans, puts, deletes, batches, flushes
      and compaction jobs, under any failing system calls, gives the answers of
      a map from primary keys to rows.  The side conditions of a run are that
      file names are fresh, counters do not run out, compaction jobs start on
      stores whose rows fit an output file, and after each call memtables are
      within what one file can hold and have distinct first sequence numbers.
      The last condition is not kept by the engine, and where it fails rows can
      be lost ([empty_flush_drops_row]).
    - Keys: byte order of encoded keys is the order of the primary key values,
      newest version first; user keys are prefix free; decoding inverts
      encoding except for float columns, where it provably never does.
    - Write-ahead log: the directory of logs, under appends, rotations, flush
      marks and crashes in the middle of an append, refines an abstract list of
      batches; a log cut at any byte recovers exactly the records finished
      before the cut; recovery of arbitrary bytes terminates without a panic.
    - Memtable: after any history of batches, rotations and dropped tables a
      read returns the newest visible version.
    - Files: a file written from sorted rows, with at most [i32::MAX] bytes in
      a column, opens again under any extension of its schema and holds the
      same rows; index lookup is a search for the
      largest key not above the target; the filter has no false negatives; a
      point read of a file through filter, range gates and index equals a scan
      of all its rows.
    - Reads: a point lookup through memtable, cache and levels returns the
      newest visible version of the whole store; a range scan returns exactly
      the rows point lookups return.
    - Manifest and catalog: what a commit adds, keeps and removes, level by
      level; row identifiers stay disjoint; when a commit is refused; the
      protobuf form reads back but for the statistics of columns; under any failing call, a stop at any point and
      any loss of unsynced data a commit leaves the old or the new manifest.
    - Compaction: what a reader at any sequence number sees after a merge, as a
      function of what it saw before; the output level stays ordered and
      disjoint after the commit; what the picker may pick; whatever system call
      fails, a job that returns leaves an engine that answers every lookup as
      before, on stores with no file below the configured levels and rows that
      fit an output file.
    - Deletion vectors: the Puffin file reads back; decoding never panics; the
      positions a flush masks are exactly those of the rows it supersedes.
    - Writes: what put and delete return is what the next lookup sees, batches
      are atomic, the delays of flow control are bounded.
    - Flushes: whatever system call fails, a flush that returns leaves an
      engine that answers every lookup as before, if each memtable fits a file
      and no two share their first sequence number, on an invariant that relates
      memtables, manifest, data files and deletion vectors on disk.
    - Recovery: after any sequence of puts, deletes and batches, opening an engine on the log and
      catalog gives one that answers every lookup as before.
    - Change feed: a drained cursor returns exactly the visible changes above
      its start that memtables and level 0 hold; a replica fed by a complete log
      answers as the primary, its stream ends, and a hot swap is all or nothing,
      with a frontier that is what the new base and the log deliver.
    - Facade: rows shorter than the schema are stored with their defaults.
    - Mirror: a put of the local store is atomic and durable; over a store whose
      conditional put is atomic, under any schedule of the upload tasks, any
      failures and restarts, a manifest on the mirror never names a missing
      file; a turn without failures catches up, whatever
      the parallelism; what [await_mirror] returns has been mirrored.
    - Export: the table metadata is valid Iceberg v2 metadata exactly when
      column names are distinct and no key column is a float; the copy of a data
      file has one row per stored version; whatever fails, an export changes
      only files below its target, and what it returns for is complete, with
      names and sizes that match.
    - SQL: filters on sequence numbers that the table provider takes over give
      the rows that filtering its full scan gives, as long as the changes fit
      Arrow's arrays.
    - Deferred deletion: files of the current version stay, under any
      interleaving, and so do those of a pinned version unless a job that had
      read an older one queued them.
    - Defects and divergences are theorems too: [float_key_decodes_wrong],
      [failed_append_loses_later_record], [watermark_reader_loses_row],
      [range_keys_skip_versions], [failed_commit_drops_dv],
      [first_commit_crash_blocks_open], [extended_schema_not_persisted],
      [long_key_cannot_be_written], [repeated_column_name_corrupts_row],
      [flush_discards_unflushed_log], [empty_flush_drops_row],
      [pinned_file_collected], [flush_hides_changes], [compacted_changes_lost],
      [refresh_serves_stale_row], [failed_rebase_forgets_tail],
      [add_column_not_persisted], [fewer_levels_resurrect],
      [torn_upload_published], [cached_get_torn], [await_mirror_lost_wakeup],
      [reexport_tears_earlier_export], [exported_copy_not_durable].

    ** Parameters

    Code outside the repository is an argument: [crc32fast] and [xxh3_64] as
    functions; [crossbeam_skiplist::SkipMap] as the class [SkipMap] with the
    laws of an ordered map; log sinks and the log directory as the classes
    [WalSink] and [FileSystem]; the order of [read_dir] as a function; the
    roaring bitmap as [Roaring]; the JSON form of the Puffin footer as
    [FooterJson]; the prost messages as [Prost]; JSON forms of schema, manifest
    and footer as [SchemaJson], [ManifestJson] and [FooterCodec]; postcard and
    serde_json of rows as [RowSerde]; the lru crate as [LruCache]; arrow
    arrays and batches as [Arrow]; Parquet files, their writer and their
    reader as [ParquetFile], their bytes as [FileBytes]; a log source of a
    replica as [LogSource], its base database as [BaseDb]; the target of a mirror
    as a record [MeruStore] with the laws [StoreLaws]; the disk cache's index as
    [PathLru]; the arrays and plans of DataFusion as [FeedArrow]; the Avro
    encoders of the iceberg crate as functions; tokio's notifications as
    [Notify]; clocks and fresh
    UUIDs as values.  Each class of laws has an instance, which the witnesses
    use.  The laws are those the crates document, with their limits: JSON is
    assumed to bring back schemas without floating-point defaults (a non-finite
    one is written as [null]); Arrow builds an array of at most [i32::MAX] bytes;
    [StoreLaws] has the atomic conditional put of an object store such as S3,
    which the repository's [LocalFileStore] does not provide
    ([torn_upload_published]).

    ** Fuel

    The loops of the WAL reader take fuel bounded by the length of the file
    (each physical record consumes at least a header), and
    [read_log_never_panics] shows that this bound is always enough.  The loop
    of a full flush has the number of sealed memtables as its fuel: every flush
    drops at least one.  The stream of the in-process log source has a fuel that
    [in_process_stream_ends] shows to be enough.  A worker's flush attempts are
    bounded by an argument, since failing flushes are tried again for ever; a
    compaction loops at most [MAX_ITERATIONS] times, as the code does.  All
    other recursion is structural on the data.

    ** What is not modelled

    Task scheduling: operations are the sequential steps their locks
    serialise, a writer that waits is an outcome of its own, and spawning,
    joining and aborting the background workers are left out.  The exceptions
    are the upload tasks of the mirror and the caller of [await_mirror], whose
    steps interleave.  The S3 client and the Avro encodings, which are calls into
    the object_store and iceberg crates; the listing of a store; the evaluation
    of queries, which is DataFusion's; metrics and the Python bindings, which
    are glue.  Directories are not objects of the file system: a directory
    created is there after a crash.  Where the code uses plain arithmetic that a
    debug build checks, an overflow is [Panic]; a release build wraps (row
    identifiers in [Manifest.advance], for instance). *)

From Stdlib Require Export ZArith Lia String Bool Permutation Sorted.
From coqutil Require Export Byte Word.LittleEndianList.
From stdpp Require Export base list strings gmap sorting relations.

Global Open Scope Z_scope.

(** ** Errors and panics

    [src/crates/merutable/src/types/error.rs].  The payload of a variant is
    the literal text of the message the code formats, without the values it
    interpolates. *)
Inductive MeruError : Type :=
  | Io
  | Corruption (msg : string)
  | SchemaMismatch (msg : string)
  | NotFound
  | ObjectStore (msg : string)
  | Parquet (msg : string)
  | Iceberg (msg : string)
  | Wal (msg : string)
  | Compaction (msg : string)
  | InvalidArgument (msg : string)
  | ReadOnly
  | Closed
  | AlreadyExists (msg : string)
  | ChangeFeedBelowRetention (requested low_water : Z).

(** The outcome of a Rust call: [Ok], [Err], or a panic (an index out of
    range, a failed [assert!] or [unwrap], a debug-checked overflow). *)
Inductive res (A : Type) : Type :=
  | Ok (a : A)
  | Err (e : MeruError)
  | Panic.
Arguments Ok {A} _.
Arguments Err {A} _.
Arguments Panic {A}.

#[global] Instance MeruError_eq_dec : EqDecision MeruError.
Proof. solve_decision. Defined.
#[global] Instance res_eq_dec `{EqDecision A} : EqDecision (res A).
Proof. solve_decision. Defined.

#[global] Instance res_ret : MRet res := fun _ a => Ok a.
#[global] Instance res_bind : MBind res := fun _ _ f m =>
  match m with Ok a => f a | Err e => Err e | Panic => Panic end.
#[global] Instance res_fmap : FMap res := fun _ _ f m =>
  match m with Ok a => Ok (f a) | Err e => Err e | Panic => Panic end.

Definition is_ok {A} (r : res A) : Prop := exists a, r = Ok a.

(** [slice\[i\]] with Rust's bounds check. *)
Definition index {A} (l : list A) (i : nat) : res A :=
  match l !! i with Some a => Ok a | None => Panic end.

(** [?] on an [Option] turned into an error with [ok_or_else]. *)
Definition ok_or {A} (o : option A) (e : MeruError) : res A :=
  match o with Some a => Ok a | None => Err e end.

Lemma bind_Ok {A B} (f : A -> res B) (m : res A) (b : B) :
  m ≫= f = Ok b -> exists a, m = Ok a /\ f a = Ok b.
Proof. destruct m; simpl; intros H; try discriminate; eauto. Qed.

Lemma Ok_bind {A B} (a : A) (f : A -> res B) : Ok a ≫= f = f a.
Proof. done. Qed.

(** Invert every [_ ≫= _ = Ok _] hypothesis, naming the intermediate values. *)
Ltac inv_ok :=
  repeat match goal with
  | H : (_ ≫= _) = Ok _ |- _ =>
      let x := fresh "x" in let Hx := fresh "Hx" in
      apply bind_Ok in H as (x & Hx & H)
  | H : Ok _ = Ok _ |- _ => injection H as H; subst
  | H1 : ?m = Ok ?a, H2 : ?m = Ok ?b |- _ =>
      rewrite H1 in H2; injection H2 as H2; subst
  | H : Err _ = Ok _ |- _ => discriminate H
  | H : Panic = Ok _ |- _ => discriminate H
  end.

(** Case split on the first [if]/[match] scrutinee of the goal or hypothesis. *)
Ltac case_res :=
  match goal with
  | H : context [if ?b then _ else _] |- _ => destruct b eqn:?
  | |- context [if ?b then _ else _] => destruct b eqn:?
  end.

(** ** Machine integers

    Unsigned machine integers are [Z] values in range; the width is written
    out where an operation can wrap. *)
Definition u8_max : Z := 2 ^ 8 - 1.
Definition u16_max : Z := 2 ^ 16 - 1.
Definition u32_max : Z := 2 ^ 32 - 1.
Definition u64_max : Z := 2 ^ 64 - 1.

Definition wrap (w z : Z) : Z := z mod 2 ^ w.

(** Two's complement reading of a [w]-bit pattern ([as iN]). *)
Definition to_signed (w z : Z) : Z :=
  if z <? 2 ^ (w - 1) then z else z - 2 ^ w.

(** [saturating_add] / [saturating_sub] at width [w]. *)
Definition sat_add (w a b : Z) : Z := Z.min (a + b) (2 ^ w - 1).
Definition sat_sub (a b : Z) : Z := Z.max (a - b) 0.

Definition in_u (w z : Z) : Prop := 0 <= z < 2 ^ w.
Definition in_i (w z : Z) : Prop := - 2 ^ (w - 1) <= z < 2 ^ (w - 1).

(** ** Bytes *)
Abbreviation bytes := (list byte).

#[global] Instance byte_eq_dec : EqDecision byte := Byte.byte_eq_dec.
#[global] Instance byte_countable : Countable byte.
Proof.
  refine (inj_countable' (fun b => Byte.to_N b)
            (fun n => byte.of_Z (Z.of_N n)) _).
  intros b. apply (byte.of_Z_unsigned b).
Defined.

Definition b0 : byte := Byte.x00.
Definition bFF : byte := Byte.xff.

(** [to_le_bytes] / [from_le_bytes] and the big-endian pair. *)
Definition be_split (n : nat) (z : Z) : bytes := reverse (le_split n z).
Definition be_combine (l : bytes) : Z := le_combine (reverse l).

Lemma le_split_length n z : length (le_split n z) = n.
Proof. apply length_le_split. Qed.

Lemma be_split_length n z : length (be_split n z) = n.
Proof. unfold be_split. by rewrite length_reverse, le_split_length. Qed.

Lemma le_combine_split_id n z :
  0 <= z < 2 ^ (Z.of_nat n * 8) -> le_combine (le_split n z) = z.
Proof. intros H. rewrite le_combine_split. by apply Z.mod_small. Qed.

Lemma be_combine_split_id n z :
  0 <= z < 2 ^ (Z.of_nat n * 8) -> be_combine (be_split n z) = z.
Proof.
  intros H. unfold be_combine, be_split. rewrite reverse_involutive.
  by apply le_combine_split_id.
Qed.

Lemma be_split_combine l : be_split (length l) (be_combine l) = l.
Proof.
  unfold be_combine, be_split.
  rewrite <- (length_reverse l), split_le_combine. apply reverse_involutive.
Qed.

Lemma be_combine_bound l : 0 <= be_combine l < 2 ^ (8 * Z.of_nat (length l)).
Proof.
  unfold be_combine. rewrite <- (length_reverse l). apply le_combine_bound.
Qed.

#[global] Opaque le_split le_combine.
#[global] Arguments be_split : simpl never.
#[global] Arguments be_combine : simpl never.
#[global] Arguments wrap : simpl never.
#[global] Arguments to_signed : simpl never.

(** ** Lexicographic byte order ([Ord for \[u8\]], i.e. memcmp) *)
Fixpoint bytes_cmp (a b : bytes) : comparison :=
  match a, b with
  | [], [] => Eq
  | [], _ :: _ => Lt
  | _ :: _, [] => Gt
  | x :: a', y :: b' =>
      match byte.compare x y with
      | Eq => bytes_cmp a' b'
      | c => c
      end
  end.

Definition bytes_ltb (a b : bytes) : bool :=
  match bytes_cmp a b with Lt => true | _ => false end.
Definition bytes_leb (a b : bytes) : bool :=
  match bytes_cmp a b with Gt => false | _ => true end.
Definition bytes_eqb (a b : bytes) : bool := bool_decide (a = b).
Definition bytes_lt (a b : bytes) : Prop := bytes_cmp a b = Lt.

(** [Ordering::then]: the second comparison decides ties of the first. *)
Definition cmp_then (c d : comparison) : comparison :=
  match c with Eq => d | _ => c end.

Lemma byte_compare_refl x : byte.compare x x = Eq.
Proof. apply Z.compare_refl. Qed.

Lemma byte_compare_eq x y : byte.compare x y = Eq -> x = y.
Proof. intros H%Z.compare_eq. by apply byte.unsigned_inj. Qed.

Lemma byte_compare_antisym x y : byte.compare y x = CompOpp (byte.compare x y).
Proof. apply Z.compare_antisym. Qed.

Lemma bytes_cmp_refl a : bytes_cmp a a = Eq.
Proof. induction a; simpl; by rewrite ?byte_compare_refl. Qed.

Lemma bytes_cmp_eq a b : bytes_cmp a b = Eq <-> a = b.
Proof.
  split; [|intros ->; apply bytes_cmp_refl].
  revert b. induction a as [|x a IH]; intros [|y b]; simpl; try done.
  destruct (byte.compare x y) eqn:E; try done.
  intros H. apply byte_compare_eq in E as ->. f_equal. by apply IH.
Qed.

Lemma bytes_cmp_antisym a b : bytes_cmp b a = CompOpp (bytes_cmp a b).
Proof.
  revert b. induction a as [|x a IH]; intros [|y b]; simpl; try done.
  rewrite (byte_compare_antisym x y). destruct (byte.compare x y); simpl; auto.
Qed.

Lemma bytes_lt_trans a b c : bytes_lt a b -> bytes_lt b c -> bytes_lt a c.
Proof.
  unfold bytes_lt. revert b c.
  induction a as [|x a IH]; intros [|y b] [|z c]; simpl; try done.
  unfold byte.compare.
  destruct (Z.compare_spec (byte.unsigned x) (byte.unsigned y)),
           (Z.compare_spec (byte.unsigned y) (byte.unsigned z)),
           (Z.compare_spec (byte.unsigned x) (byte.unsigned z));
    try done; try lia; eauto.
Qed.

Lemma bytes_lt_irrefl a : ~ bytes_lt a a.
Proof. unfold bytes_lt. by rewrite bytes_cmp_refl. Qed.

#[global] Instance bytes_lt_strict : StrictOrder bytes_lt.
Proof.
  split; [intros a; apply bytes_lt_irrefl | intros a b c; apply bytes_lt_trans].
Qed.

#[global] Instance bytes_lt_dec a b : Decision (bytes_lt a b).
Proof. unfold bytes_lt. apply _. Defined.

Lemma bytes_cmp_spec a b :
  CompareSpec (a = b) (bytes_lt a b) (bytes_lt b a) (bytes_cmp a b).
Proof.
  destruct (bytes_cmp a b) eqn:E; constructor.
  - by apply bytes_cmp_eq.
  - done.
  - unfold bytes_lt. by rewrite bytes_cmp_antisym, E.
Qed.

Lemma bytes_cmp_gt a b : bytes_cmp a b = Gt <-> bytes_lt b a.
Proof.
  unfold bytes_lt. rewrite bytes_cmp_antisym. destruct (bytes_cmp b a); by simpl.
Qed.

Lemma bytes_ltb_spec a b : bytes_ltb a b = true <-> bytes_lt a b.
Proof. unfold bytes_ltb, bytes_lt. by destruct (bytes_cmp a b). Qed.

Lemma bytes_leb_spec a b : bytes_leb a b = true <-> ~ bytes_lt b a.
Proof.
  unfold bytes_leb. rewrite <- bytes_cmp_gt.
  destruct (bytes_cmp a b); split; by auto.
Qed.

Lemma bytes_nlt_le_trans a b c : ~ bytes_lt b a -> bytes_lt b c -> bytes_lt a c.
Proof.
  intros Hn Hl. destruct (bytes_cmp_spec a b) as [->| |]; [done| |done].
  by etransitivity.
Qed.

Lemma bytes_leb_negb a b : bytes_leb a b = negb (bytes_ltb b a).
Proof.
  apply eq_true_iff_eq. rewrite negb_true_iff, <- not_true_iff_false.
  by rewrite bytes_leb_spec, bytes_ltb_spec.
Qed.

Lemma bytes_lt_nlt_trans a b c : bytes_lt a b -> ~ bytes_lt c b -> bytes_lt a c.
Proof.
  intros Hl Hn. destruct (bytes_cmp_spec b c) as [<-| |]; [done| |done].
  by etransitivity.
Qed.

Lemma bytes_eqb_spec a b : bytes_eqb a b = true <-> a = b.
Proof. apply bool_decide_eq_true. Qed.

(** A common prefix does not change a comparison. *)
Lemma bytes_cmp_app_same p a b : bytes_cmp (p ++ a) (p ++ b) = bytes_cmp a b.
Proof. induction p; simpl; by rewrite ?byte_compare_refl. Qed.

(** Two equally long blocks decide first, the tails break ties. *)
Lemma bytes_cmp_app_len a b t u :
  length a = length b ->
  bytes_cmp (a ++ t) (b ++ u) = cmp_then (bytes_cmp a b) (bytes_cmp t u).
Proof.
  revert b. induction a as [|x a IH]; intros [|y b] Hl; simpl in *; try done.
  injection Hl as Hl. destruct (byte.compare x y); simpl; auto.
Qed.

Lemma byte_land_shift x z : Z.land (byte.unsigned x) (Z.shiftl z 8) = 0.
Proof.
  apply Z.bits_inj'. intros n Hn. rewrite Z.land_spec, Z.bits_0.
  destruct (decide (n < 8)).
  - rewrite Z.shiftl_spec_low by lia. by rewrite andb_false_r.
  - rewrite <- (byte.wrap_unsigned x). unfold byte.wrap.
    by rewrite Z.mod_pow2_bits_high by lia.
Qed.

Lemma le_combine_cons x l :
  le_combine (x :: l) = byte.unsigned x + 2 ^ 8 * le_combine l.
Proof.
  change (le_combine (x :: l))
    with (Z.lor (byte.unsigned x) (Z.shiftl (le_combine l) 8)).
  rewrite <- Z.lxor_lor, <- Z.add_nocarry_lxor by apply byte_land_shift.
  rewrite Z.shiftl_mul_pow2 by lia. lia.
Qed.

Lemma be_combine_snoc l x :
  be_combine (l ++ [x]) = 2 ^ 8 * be_combine l + byte.unsigned x.
Proof. unfold be_combine. rewrite reverse_snoc, le_combine_cons. lia. Qed.

Lemma be_combine_cons x l :
  be_combine (x :: l) = byte.unsigned x * 2 ^ (8 * Z.of_nat (length l)) + be_combine l.
Proof.
  induction l as [|y l IH] using rev_ind.
  - change [x] with ([] ++ [x]). rewrite be_combine_snoc.
    change (be_combine []) with 0. simpl length. lia.
  - rewrite app_comm_cons, !be_combine_snoc, IH, length_app. simpl length.
    replace (8 * Z.of_nat (length l + 1)) with (8 + 8 * Z.of_nat (length l)) by lia.
    rewrite (Z.pow_add_r 2 8) by lia. lia.
Qed.

(** memcmp of two equally long big-endian integers is their numeric order. *)
Lemma bytes_cmp_be a b :
  length a = length b -> bytes_cmp a b = Z.compare (be_combine a) (be_combine b).
Proof.
  revert b. induction a as [|x a IH]; intros [|y b] Hl; try done.
  injection Hl as Hl. rewrite !be_combine_cons. simpl.
  pose proof (be_combine_bound a). pose proof (be_combine_bound b).
  rewrite Hl in *. set (p := 2 ^ (8 * Z.of_nat (length b))) in *.
  unfold byte.compare.
  destruct (Z.compare_spec (byte.unsigned x) (byte.unsigned y)) as [->|?|?].
  - rewrite IH by done.
    destruct (Z.compare_spec (be_combine a) (be_combine b));
      symmetry; [apply Z.compare_eq_iff | apply Z.compare_lt_iff
                | apply Z.compare_gt_iff]; lia.
  - symmetry. apply Z.compare_lt_iff. nia.
  - symmetry. apply Z.compare_gt_iff. nia.
Qed.

Lemma bytes_cmp_be_split n x y :
  0 <= x < 2 ^ (Z.of_nat n * 8) -> 0 <= y < 2 ^ (Z.of_nat n * 8) ->
  bytes_cmp (be_split n x) (be_split n y) = Z.compare x y.
Proof.
  intros Hx Hy. rewrite bytes_cmp_be by (by rewrite !be_split_length).
  by rewrite !be_combine_split_id.
Qed.

(** ** Lists *)
(** [buf[pos .. pos + n]]; out-of-range slicing panics. *)
Definition slice (buf : bytes) (pos n : nat) : res bytes :=
  if (pos + n <=? length buf)%nat then Ok (take n (drop pos buf)) else Panic.

Lemma slice_app a b c pos n :
  pos = length a -> n = length b -> slice (a ++ b ++ c) pos n = Ok b.
Proof.
  intros -> ->. unfold slice. rewrite !length_app.
  destruct (Nat.leb_spec (length a + length b)%nat (length a + (length b + length c))%nat); [|lia].
  by rewrite drop_app_length, take_app_length.
Qed.

Lemma slice_at (buf a b c : bytes) pos n :
  buf = a ++ b ++ c -> pos = length a -> n = length b -> slice buf pos n = Ok b.
Proof. intros ->. apply slice_app. Qed.

Lemma split_len {A} (n : nat) (l : list A) :
  (n <= length l)%nat -> exists a b, l = a ++ b /\ length a = n.
Proof.
  intros H. exists (take n l), (drop n l). split; [by rewrite take_drop|].
  rewrite length_take. lia.
Qed.

Lemma list_filter_all {A} (P : A -> Prop) `{!forall x, Decision (P x)} (l : list A) :
  (forall x, x ∈ l -> P x) -> filter P l = l.
Proof.
  induction l as [|x l IH]; intros Hall; [done|]. rewrite filter_cons, decide_True.
  - f_equal. apply IH. intros y Hy. apply Hall. by right.
  - apply Hall. by left.
Qed.

Lemma ordpairs_perm {A} (R : A -> A -> Prop) l k :
  (forall x y, R x y -> R y x) -> l ≡ₚ k -> ForallOrdPairs R l -> ForallOrdPairs R k.
Proof.
  intros Hsym. induction 1 as [|x l k P IH|x y l|l k m _ IH1 _ IH2]; intros H; auto.
  - inversion H as [|? ? Hx Hl]; subst. constructor; [|auto]. by rewrite <- P.
  - inversion H as [|? ? Hy H']; subst. inversion H' as [|? ? Hx Hl]; subst.
    apply Forall_cons in Hy as [Hyx Hy]. constructor; [constructor; auto|].
    by constructor.
Qed.

Lemma ordpairs_app {A} (R : A -> A -> Prop) l k :
  ForallOrdPairs R l -> ForallOrdPairs R k ->
  (forall x y, x ∈ l -> y ∈ k -> R x y) -> ForallOrdPairs R (l ++ k).
Proof.
  induction 1 as [|x l Hx Hl IH]; intros Hk Hc; simpl; [done|]. constructor.
  - apply Forall_app_2; [done|]. apply Forall_forall. intros y Hy. apply Hc; [by left|done].
  - apply IH; [done|]. intros a b Ha Hb. apply Hc; [by right|done].
Qed.

Lemma ordpairs_filter {A} (R : A -> A -> Prop) (p : A -> bool) l :
  ForallOrdPairs R l -> ForallOrdPairs R (List.filter p l).
Proof.
  induction 1 as [|x l Hx _ IH]; [constructor|]. cbn [List.filter]. destruct (p x); [|done].
  constructor; [|done]. apply Forall_forall. intros y Hy. rewrite Forall_forall in Hx. apply Hx.
  apply list_elem_of_In in Hy. apply filter_In in Hy as [Hy _]. by apply list_elem_of_In.
Qed.

Lemma ordpairs_map {A} (R : A -> A -> Prop) (f : A -> A) l :
  (forall x y, R x y -> R (f x) (f y)) -> ForallOrdPairs R l -> ForallOrdPairs R (map f l).
Proof.
  intros Hf. induction 1 as [|x l Hx _ IH]; [constructor|]. cbn [map]. constructor; [|done].
  apply Forall_forall. intros y Hy. apply list_elem_of_In, in_map_iff in Hy as (z & <- & Hz).
  apply list_elem_of_In in Hz. rewrite Forall_forall in Hx. auto.
Qed.

Lemma StronglySorted_lookup {A} (R : A -> A -> Prop) (l : list A) i j x y :
  StronglySorted R l -> (i < j)%nat -> l !! i = Some x -> l !! j = Some y -> R x y.
Proof.
  intros Hs. revert i j. induction Hs as [|z l _ IH Hz]; intros i j Hij Hx Hy; [done|].
  destruct i as [|i], j as [|j]; [lia| |lia|].
  - simplify_eq/=. rewrite Forall_forall in Hz. apply Hz. by eapply list_elem_of_lookup_2.
  - simplify_eq/=. apply (IH i j); [lia|done..].
Qed.

Lemma StronglySorted_of_lookup {A} (R : A -> A -> Prop) (l : list A) :
  (forall i j x y, (i < j)%nat -> l !! i = Some x -> l !! j = Some y -> R x y) -> StronglySorted R l.
Proof.
  induction l as [|z l IH]; intros H; constructor.
  - apply IH. intros i j x y Hij Hx Hy. apply (H (S i) (S j)); [lia|done..].
  - apply Forall_forall. intros y Hy. apply list_elem_of_lookup in Hy as [j Hj].
    apply (H 0%nat (S j)); [lia|done..].
Qed.

Lemma StronglySorted_impl {A} (R S : A -> A -> Prop) (l : list A) :
  (forall x y, R x y -> S x y) -> StronglySorted R l -> StronglySorted S l.
Proof.
  intros H. induction 1 as [|x l _ IH Hx]; constructor; [done|].
  eapply Forall_impl; [exact Hx|]. auto.
Qed.

Lemma filter_all_true {A} (p : A -> bool) (l : list A) :
  (forall x, x ∈ l -> p x = true) -> List.filter p l = l.
Proof.
  induction l as [|x l IH]; intros H; [done|]. cbn. rewrite H by (by left). f_equal.
  apply IH. intros y Hy. apply H. by right.
Qed.

Lemma filter_all_false {A} (p : A -> bool) (l : list A) :
  (forall x, x ∈ l -> p x = false) -> List.filter p l = [].
Proof.
  induction l as [|x l IH]; intros H; [done|]. cbn. rewrite H by (by left).
  apply IH. intros y Hy. apply H. by right.
Qed.

Lemma list_filter_none {A} (P : A -> Prop) `{!forall x, Decision (P x)} (l : list A) :
  Forall (fun x => ~ P x) l -> filter P l = [].
Proof.
  induction 1 as [|x l Hx Hl IH]; [done|]. by rewrite filter_cons, decide_False.
Qed.

Lemma elem_of_concat {A} (x : A) ls : x ∈ concat ls <-> exists l, l ∈ ls /\ x ∈ l.
Proof.
  rewrite list_elem_of_In, in_concat. by setoid_rewrite <- list_elem_of_In.
Qed.

(** ** Stable sorting ([slice::sort_by], [sort_by_key])

    [leb x y] is [cmp(x, y) != Greater]; equal elements keep their order. *)
Section sort.
Context {A : Type} (leb : A -> A -> bool).

Fixpoint insert_by (x : A) (l : list A) : list A :=
  match l with
  | [] => [x]
  | y :: l' => if leb x y then x :: l else y :: insert_by x l'
  end.

Definition sort_by (l : list A) : list A := foldr insert_by [] l.

Lemma insert_by_perm x l : insert_by x l ≡ₚ x :: l.
Proof.
  induction l as [|y l IH]; simpl; [done|]. destruct (leb x y); [done|].
  rewrite IH. constructor.
Qed.

Lemma sort_by_perm l : sort_by l ≡ₚ l.
Proof. induction l as [|x l IH]; simpl; [done|]. by rewrite insert_by_perm, IH. Qed.

Context (leb_total : forall x y, leb x y = false -> leb y x = true).
Context (leb_trans : forall x y z, leb x y = true -> leb y z = true -> leb x z = true).

Lemma insert_by_sorted x l :
  StronglySorted leb l -> StronglySorted leb (insert_by x l).
Proof.
  induction 1 as [|y l Hs IH Hy]; simpl; [repeat constructor|].
  destruct (leb x y) eqn:E.
  - repeat constructor; [done..|by apply Is_true_true|].
    eapply Forall_impl; [exact Hy|]. intros z Hz%Is_true_true.
    apply Is_true_true. by eapply leb_trans.
  - constructor; [done|]. rewrite insert_by_perm. constructor; [|done].
    apply Is_true_true. auto.
Qed.

Lemma sort_by_sorted l : StronglySorted leb (sort_by l).
Proof. induction l; simpl; [constructor|]. by apply insert_by_sorted. Qed.

(** A strictly sorted list is the result of sorting any permutation of it. *)
Lemma sort_by_unique l l' :
  StronglySorted (fun x y => leb y x = false) l' -> l ≡ₚ l' -> sort_by l = l'.
Proof.
  intros Hs Hp. assert (Hp' : sort_by l ≡ₚ l') by (by rewrite sort_by_perm).
  pose proof (sort_by_sorted l) as Hsort. clear Hp. revert Hsort Hp'.
  generalize (sort_by l). clear l. intros l. revert l.
  induction Hs as [|x t Ht IH Hx]; intros l Hl Hp.
  { by apply Permutation_nil_r. }
  destruct l as [|y t2]; [by apply Permutation_nil_l in Hp|].
  inversion Hl as [|? ? Hl2 Hy]; subst.
  assert (x = y) as ->.
  { assert (Hin : y ∈ x :: t) by (rewrite <- Hp; apply list_elem_of_here).
    apply elem_of_cons in Hin as [->|Hin]; [done|].
    rewrite Forall_forall in Hx. specialize (Hx y Hin).
    assert (Hin2 : x ∈ y :: t2) by (rewrite Hp; apply list_elem_of_here).
    apply elem_of_cons in Hin2 as [->|Hin2]; [done|].
    rewrite Forall_forall in Hy. specialize (Hy x Hin2).
    apply Is_true_true in Hy. congruence. }
  f_equal. apply IH; [done|]. by apply Permutation_cons_inv in Hp.
Qed.

Lemma sort_by_id l : StronglySorted (fun x y => leb y x = false) l -> sort_by l = l.
Proof. intros. by apply sort_by_unique. Qed.
End sort.

(** ** Hint databases

    [meru] closes the routine length, range and order side conditions. *)
Create HintDb meru.
Create Rewrite HintDb meru.
#[export] Hint Rewrite le_split_length be_split_length @length_app
  @length_nil @length_cons : meru.
#[export] Hint Resolve bytes_cmp_refl bytes_lt_trans : meru.

(** ** [mapM] on results *)
Lemma mapM_Ok {A B} (f : A -> res B) l ys :
  Forall2 (fun x y => f x = Ok y) l ys -> mapM f l = Ok ys.
Proof. induction 1 as [|x y l ys Hx _ IH]; [done|]. cbn. by rewrite Hx, IH. Qed.

Lemma mapM_Ok_inv {A B} (f : A -> res B) l ys :
  mapM f l = Ok ys -> Forall2 (fun x y => f x = Ok y) l ys.
Proof.
  revert ys. induction l as [|x l IH]; cbn; intros ys H.
  - injection H as <-. constructor.
  - inv_ok. injection H as <-. constructor; [done|]. by apply IH.
Qed.

Lemma mapM_fun {A B} (f : A -> res B) (g : A -> B) l :
  Forall (fun x => f x = Ok (g x)) l -> mapM f l = Ok (map g l).
Proof. intros H. apply mapM_Ok. induction H; constructor; auto. Qed.

(** ** Codes as bytes

    One byte per bit of a positive number: with [countable.encode], a
    serialisation of any countable type. *)
Fixpoint bits_of (p : positive) : bytes :=
  match p with
  | xH => []
  | xO p => Byte.x00 :: bits_of p
  | xI p => Byte.x01 :: bits_of p
  end.

Fixpoint of_bits (l : bytes) : positive :=
  match l with
  | [] => xH
  | b :: l => if bool_decide (b = Byte.x01) then xI (of_bits l) else xO (of_bits l)
  end.

Lemma of_bits_of p : of_bits (bits_of p) = p.
Proof. induction p as [p IH|p IH|]; [..|done]; simpl; by rewrite IH. Qed.
