(* ===== verification/Float64.v ===== *)
(** * Bounds on floating-point results

    The [f64] arithmetic of the engine is that of [SpecFloat] with 53 digits
    and the largest exponent 1024.  A result is at most [p * 2 ^ b] when its
    exact value is below it and [p] has at most 53 digits: rounding does not
    cross a number of that form.  Values are compared at a common exponent, so
    that all of it is arithmetic of integers. *)

From Stdlib Require Import Floats.SpecFloat.
From S2P Require Import Prelude.
Local Open Scope Z_scope.

(** ** Order of [m * 2 ^ e] and [p * 2 ^ b] *)
Definition lt_pow (m e p b : Z) : Prop := forall k, 0 <= e + k -> 0 <= b + k -> m * 2 ^ (e + k) < p * 2 ^ (b + k).
Definition le_pow (m e p b : Z) : Prop := forall k, 0 <= e + k -> 0 <= b + k -> m * 2 ^ (e + k) <= p * 2 ^ (b + k).

Lemma pow2_pos k : 0 <= k -> 0 < 2 ^ k.
Proof. intros. by apply Z.pow_pos_nonneg. Qed.

Lemma pow2_add a k : 0 <= a -> 0 <= k -> 2 ^ (a + k) = 2 ^ a * 2 ^ k.
Proof. apply Z.pow_add_r. Qed.

(** One common exponent is enough. *)
Lemma lt_pow_at m e p b k : 0 <= e + k -> 0 <= b + k -> m * 2 ^ (e + k) < p * 2 ^ (b + k) -> lt_pow m e p b.
Proof.
  intros He Hb H j Hej Hbj. destruct (Z.le_ge_cases k j).
  - replace (e + j) with (e + k + (j - k)) by lia. replace (b + j) with (b + k + (j - k)) by lia.
    rewrite (pow2_add (e + k)), (pow2_add (b + k)), !Z.mul_assoc by lia. apply Z.mul_lt_mono_pos_r; [apply pow2_pos; lia|done].
  - replace (e + k) with (e + j + (k - j)) in H by lia. replace (b + k) with (b + j + (k - j)) in H by lia.
    rewrite (pow2_add (e + j)), (pow2_add (b + j)), !Z.mul_assoc in H by lia. apply Z.mul_lt_mono_pos_r in H; [done|apply pow2_pos; lia].
Qed.

Lemma le_pow_at m e p b k : 0 <= e + k -> 0 <= b + k -> m * 2 ^ (e + k) <= p * 2 ^ (b + k) -> le_pow m e p b.
Proof.
  intros He Hb H j Hej Hbj. destruct (Z.le_ge_cases k j).
  - replace (e + j) with (e + k + (j - k)) by lia. replace (b + j) with (b + k + (j - k)) by lia.
    rewrite (pow2_add (e + k)), (pow2_add (b + k)), !Z.mul_assoc by lia. apply Z.mul_le_mono_pos_r; [apply pow2_pos; lia|done].
  - replace (e + k) with (e + j + (k - j)) in H by lia. replace (b + k) with (b + j + (k - j)) in H by lia.
    rewrite (pow2_add (e + j)), (pow2_add (b + j)), !Z.mul_assoc in H by lia. apply Z.mul_le_mono_pos_r in H; [done|apply pow2_pos; lia].
Qed.

(** ** Digits *)
Lemma digits_pos_bound m : 2 ^ (Zpos (digits2_pos m) - 1) <= Zpos m < 2 ^ Zpos (digits2_pos m).
Proof.
  assert (Hs : forall d, 2 ^ Zpos (Pos.succ d) = 2 * 2 ^ Zpos d /\ 2 ^ (Zpos (Pos.succ d) - 1) = 2 * 2 ^ (Zpos d - 1)).
  { intros d. rewrite Pos2Z.inj_succ, Z.pow_succ_r by lia. split; [done|]. rewrite <- Z.pow_succ_r by lia. by replace (Z.succ (Zpos d) - 1) with (Z.succ (Zpos d - 1)) by lia. }
  induction m as [m [IH1 IH2]|m [IH1 IH2]|]; cbn [digits2_pos]; [| |split; reflexivity || done].
  - destruct (Hs (digits2_pos m)) as [-> ->]. rewrite (Pos2Z.inj_xI m). lia.
  - destruct (Hs (digits2_pos m)) as [-> ->]. rewrite (Pos2Z.inj_xO m). lia.
Qed.

Lemma digits_bound m : 0 < m -> 2 ^ (Zdigits2 m - 1) <= m < 2 ^ Zdigits2 m.
Proof. destruct m as [|m|m]; [lia| |lia]. intros _. apply digits_pos_bound. Qed.

Lemma digits_nonneg m : 0 <= Zdigits2 m.
Proof. by destruct m. Qed.

Lemma digits_unique m d : 0 < m -> 0 < d -> 2 ^ (d - 1) <= m < 2 ^ d -> Zdigits2 m = d.
Proof.
  intros Hm Hd [H1 H2]. pose proof (digits_bound m Hm) as [D1 D2]. pose proof (digits_nonneg m).
  apply Z.le_antisymm.
  - apply Z.nlt_ge. intros Hlt. assert (2 ^ d <= 2 ^ (Zdigits2 m - 1)) by (apply Z.pow_le_mono_r; lia). lia.
  - apply Z.nlt_ge. intros Hlt. assert (2 ^ Zdigits2 m <= 2 ^ (d - 1)) by (apply Z.pow_le_mono_r; lia). lia.
Qed.

Lemma digits_mono n m : 0 < n <= m -> Zdigits2 n <= Zdigits2 m.
Proof.
  intros Hn. apply Z.nlt_ge. intros Hlt. pose proof (digits_bound n ltac:(lia)) as [H1 _]. pose proof (digits_bound m ltac:(lia)) as [_ H2].
  assert (2 ^ Zdigits2 m <= 2 ^ (Zdigits2 n - 1)); [|lia]. apply Z.pow_le_mono_r; lia.
Qed.

(** ** Shifting and rounding *)
Lemma iter_shr p r : 0 <= shr_m r -> shr_m (SpecFloat.iter_pos shr_1 p r) = shr_m r / 2 ^ Zpos p.
Proof.
  assert (H1 : forall r, 0 <= shr_m r -> shr_m (shr_1 r) = shr_m r / 2).
  { intros [[|[p'|p'|]|p'] ? ?] Hr; cbn in *; try done.
    - rewrite (Pos2Z.inj_xI p'). apply (Z.div_unique _ _ _ 1); lia.
    - rewrite (Pos2Z.inj_xO p'). apply (Z.div_unique _ _ _ 0); lia. }
  assert (Hpos : forall x k, 0 <= x -> 0 <= k -> 0 <= x / 2 ^ k) by (intros; apply Z.div_pos; [done|by apply pow2_pos]).
  assert (Hdiv : forall x a b, 0 <= a -> 0 <= b -> x / 2 ^ a / 2 ^ b = x / 2 ^ (a + b)).
  { intros x a b Ha Hb. rewrite pow2_add by done. apply Z.div_div; [by apply Z.neq_sym, Z.lt_neq, pow2_pos|by apply pow2_pos]. }
  revert r. induction p as [p IH|p IH|]; intros r Hr; cbn [SpecFloat.iter_pos].
  - pose proof (H1 r Hr) as E1. change 2 with (2 ^ 1) in E1.
    assert (0 <= shr_m (shr_1 r)) by (rewrite E1; by apply Hpos).
    rewrite IH, IH, E1 by (rewrite ?IH by done; try done; by apply Hpos). rewrite !Hdiv by lia.
    by replace (1 + (Zpos p + Zpos p)) with (Zpos p~1) by (rewrite (Pos2Z.inj_xI p); lia).
  - rewrite IH, IH by (rewrite ?IH by done; try done; by apply Hpos). rewrite Hdiv by lia.
    by replace (Zpos p + Zpos p) with (Zpos p~0) by (rewrite (Pos2Z.inj_xO p); lia).
  - by apply H1.
Qed.

Lemma shr_spec r e n : 0 <= shr_m r ->
  exists r', shr r e n = (r', e + Z.max 0 n) /\ shr_m r' = shr_m r / 2 ^ Z.max 0 n /\ (n <= 0 -> r' = r).
Proof.
  intros Hr. destruct n as [|p|p]; cbn [shr].
  - exists r. by rewrite Z.add_0_r, Z.div_1_r.
  - eexists. split; [reflexivity|]. split; [by apply iter_shr|lia].
  - exists r. by rewrite Z.max_l, Z.add_0_r, Z.div_1_r by lia.
Qed.

(** Dropping low bits does not make the value larger. *)
Lemma shift_le m e n k : 0 <= m -> 0 <= e + k -> 0 <= n -> m / 2 ^ n * 2 ^ (e + n + k) <= m * 2 ^ (e + k).
Proof.
  intros Hm He Hn. replace (e + n + k) with (n + (e + k)) by lia. rewrite pow2_add, Z.mul_assoc by lia.
  apply Z.mul_le_mono_nonneg_r; [by apply Z.lt_le_incl, pow2_pos|]. rewrite Z.mul_comm. apply Z.mul_div_le. by apply pow2_pos.
Qed.

Lemma record_m m l : shr_m (shr_record_of_loc m l) = m.
Proof. by destruct l as [|[]]. Qed.

Lemma record_loc m l : loc_of_shr_record (shr_record_of_loc m l) = l.
Proof. by destruct l as [|[]]. Qed.

Lemma round_even_bounds m l : m <= round_nearest_even m l <= m + 1.
Proof. unfold round_nearest_even. destruct l as [|[]]; [lia|destruct (Z.even m); lia|lia..]. Qed.

(** A value below a number of [d] digits has its leading bit below it. *)
Lemma leading_bit m e p b : 0 < m -> 0 < p -> le_pow m e p b -> Zdigits2 m + e <= Zdigits2 p + b.
Proof.
  intros Hm Hp Hle. pose proof (digits_bound m Hm) as [Hm1 _]. pose proof (digits_bound p Hp) as [_ Hp2].
  pose proof (digits_nonneg p). apply Z.nlt_ge. intros Hlt.
  set (k := Z.max (- e) (- b)). specialize (Hle k ltac:(lia) ltac:(lia)).
  assert (p * 2 ^ (b + k) < 2 ^ (Zdigits2 p + (b + k))).
  { rewrite (pow2_add (Zdigits2 p)) by lia. apply Z.mul_lt_mono_pos_r; [apply pow2_pos; lia|done]. }
  assert (2 ^ (Zdigits2 p + (b + k)) <= 2 ^ (Zdigits2 m - 1 + (e + k))) by (apply Z.pow_le_mono_r; lia).
  assert (1 <= Zdigits2 m) by (destruct m as [|q|q]; [lia| |lia]; cbn [Zdigits2]; lia).
  assert (2 ^ (Zdigits2 m - 1 + (e + k)) <= m * 2 ^ (e + k)); [|lia].

  rewrite (pow2_add (Zdigits2 m - 1)) by lia. apply Z.mul_le_mono_nonneg_r; [|done]. apply Z.lt_le_incl, pow2_pos. lia.
Qed.

Lemma lt_le_pow m e p b : lt_pow m e p b -> le_pow m e p b.
Proof. intros H k ??. by apply Z.lt_le_incl, H. Qed.

(** The first shift of a rounding, and the rounding at the last place. *)
Lemma shift_round_le m e l p b n r e1 :
  0 <= m -> 0 < p -> lt_pow m e p b -> e + Z.max 0 n <= b \/ (n <= 0 /\ l = loc_Exact) ->
  shr (shr_record_of_loc m l) e n = (r, e1) ->
  e1 = e + Z.max 0 n /\ 0 <= round_nearest_even (shr_m r) (loc_of_shr_record r) /\
  le_pow (round_nearest_even (shr_m r) (loc_of_shr_record r)) e1 p b.
Proof.
  intros Hm Hp Hlt Hcase E. destruct (shr_spec (shr_record_of_loc m l) e n) as (r' & E' & Em & Hsame); [by rewrite record_m|].
  rewrite E in E'. injection E' as <- ->. rewrite record_m in Em. pose proof (round_even_bounds (shr_m r) (loc_of_shr_record r)) as Hr.
  assert (H0 : 0 <= shr_m r) by (rewrite Em; apply Z.div_pos; [done|apply pow2_pos; lia]).
  split; [done|]. split; [lia|]. destruct Hcase as [Hb|[Hn ->]].
  - apply (le_pow_at _ _ _ _ (- (e + Z.max 0 n))); [lia..|]. rewrite Z.add_opp_diag_r, Z.mul_1_r.
    assert (shr_m r < p * 2 ^ (b + - (e + Z.max 0 n))); [|lia].
    assert (Hl1 : lt_pow (shr_m r) (e + Z.max 0 n) p b).
    { set (k := Z.max (- e) (- b)). apply (lt_pow_at _ _ _ _ k); [lia..|].
      eapply Z.le_lt_trans; [|apply (Hlt k); lia]. rewrite Em. apply shift_le; lia. }
    specialize (Hl1 (- (e + Z.max 0 n)) ltac:(lia) ltac:(lia)). by rewrite Z.add_opp_diag_r, Z.mul_1_r in Hl1.
  - rewrite Hsame by done. rewrite record_m, record_loc, Z.max_l, Z.add_0_r by done. cbn [round_nearest_even]. by apply lt_le_pow.
Qed.

Lemma fexp_eq x : fexp 53 1024 x = Z.max (x - 53) (-1074).
Proof. done. Qed.

(** A number of at most 53 digits is not crossed. *)
Lemma round_le s mx ex lx p b :
  0 <= mx -> 0 < p -> Zdigits2 p <= 53 -> -1074 <= b -> Zdigits2 p + b <= 972 ->
  lt_pow mx ex p b -> ex <= b \/ (lx = loc_Exact /\ 0 < mx) ->
  match binary_round_aux 53 1024 s mx ex lx with
  | S754_finite s' m e => s' = s /\ le_pow (Zpos m) e p b
  | S754_zero _ => True
  | _ => False
  end.
Proof.
  intros Hmx Hp Hdp Hb Htop Hlt Hex.
  assert (Hfexp : 0 < mx -> fexp 53 1024 (Zdigits2 mx + ex) <= b).
  { intros H. rewrite fexp_eq. pose proof (leading_bit mx ex p b H Hp (lt_le_pow _ _ _ _ Hlt)). lia. }
  assert (Hf0 : mx = 0 -> ex <= b -> fexp 53 1024 (Zdigits2 mx + ex) <= b) by (intros ->; rewrite fexp_eq; cbn; lia).
  unfold binary_round_aux. unfold shr_fexp at 1.
  destruct (shr _ ex _) as [r1 e1] eqn:E1.
  apply (shift_round_le _ _ _ p b) in E1; [|done..|].
  2:{ destruct (Z.le_gt_cases (fexp 53 1024 (Zdigits2 mx + ex) - ex) 0); [|left; destruct (Z.eq_dec mx 0); lia].
      destruct Hex as [?|[? ?]]; [left; lia|by right]. }
  destruct E1 as (-> & H0 & Hle). set (m2 := round_nearest_even _ _) in *. set (e1 := ex + _) in *. clearbody m2 e1.
  unfold shr_fexp.
  destruct (shr_spec (shr_record_of_loc m2 loc_Exact) e1 (fexp 53 1024 (Zdigits2 m2 + e1) - e1)) as (r2 & -> & Em & _); [by rewrite record_m|].
  rewrite record_m in Em. set (n := Z.max 0 _) in *. destruct (shr_m r2) as [|m|m]; [done| |].
  2:{ assert (0 <= m2 / 2 ^ n) by (apply Z.div_pos; [done|apply pow2_pos; lia]). lia. }
  assert (Hle2 : le_pow (Zpos m) (e1 + n) p b).
  { set (k := Z.max (- e1) (- b)). apply (le_pow_at _ _ _ _ k); [lia..|]. etrans; [|apply (Hle k); lia].
    rewrite Em. apply shift_le; lia. }
  pose proof (leading_bit (Zpos m) (e1 + n) p b ltac:(lia) Hp Hle2) as Htop2.
  assert (1 <= Zdigits2 (Zpos m)) by (cbn [Zdigits2]; lia).
  destruct (Z.leb_spec (e1 + n) (1024 - 53)); [done|lia].
Qed.

(** ** Bounded results *)
Definition abs_le (x : spec_float) (p b : Z) : Prop :=
  match x with
  | S754_zero _ => True
  | S754_finite _ m e => le_pow (Zpos m) e p b
  | _ => False
  end.

(** The numbers of at most 53 digits in range. *)
Definition exact_bound (p b : Z) : Prop := 0 < p /\ Zdigits2 p <= 53 /\ -1074 <= b /\ Zdigits2 p + b <= 972.

Lemma round_abs_le s mx ex lx p b :
  exact_bound p b -> 0 <= mx -> lt_pow mx ex p b -> ex <= b \/ (lx = loc_Exact /\ 0 < mx) ->
  abs_le (binary_round_aux 53 1024 s mx ex lx) p b.
Proof.
  intros (Hp & Hd & Hb & Ht) Hmx Hlt Hex. pose proof (round_le s mx ex lx p b Hmx Hp Hd Hb Ht Hlt Hex).
  destruct (binary_round_aux _ _ _ _ _ _); naive_solver.
Qed.

Lemma iter_xO m d : Zpos (Pos.iter xO m d) = Zpos m * 2 ^ Zpos d.
Proof.
  induction d as [|d IH] using Pos.peano_ind; [by rewrite Z.mul_comm|].
  rewrite Pos.iter_succ, Pos2Z.inj_xO, IH, Pos2Z.inj_succ, Z.pow_succ_r by done. ring.
Qed.

Lemma shl_align_spec m e e' :
  exists mz, shl_align m e e' = (mz, Z.min e e') /\ Zpos mz = Zpos m * 2 ^ (e - Z.min e e').
Proof.
  unfold shl_align. destruct (e' - e) as [|q|q] eqn:E.
  - exists m. rewrite Z.min_l, Z.sub_diag, Z.mul_1_r by lia. done.
  - exists m. rewrite Z.min_l, Z.sub_diag, Z.mul_1_r by lia. done.
  - eexists. rewrite Z.min_r by lia. split; [reflexivity|]. rewrite iter_xO. do 2 f_equal. lia.
Qed.

Lemma normalize_abs_le z e p b :
  exact_bound p b -> lt_pow (Z.abs z) e p b -> abs_le (binary_normalize 53 1024 z e false) p b.
Proof.
  intros Hp Hlt.
  assert (H : forall s m, Z.abs z = Zpos m -> abs_le (binary_round 53 1024 s m e) p b).
  { intros s m E. unfold binary_round. destruct (shl_align_spec m e (fexp 53 1024 (Zpos (digits2_pos m) + e))) as (mz & -> & Em).
    set (e' := Z.min e _) in *. apply round_abs_le; [done..| |right; split; [done|lia]].
    set (k := Z.max (- e') (- b)). apply (lt_pow_at _ _ _ _ k); [lia..|]. rewrite Em, <- Z.mul_assoc, <- pow2_add by lia.
    replace (e - e' + (e' + k)) with (e + k) by lia. rewrite <- E. apply Hlt; lia. }
  destruct z as [|m|m]; cbn [binary_normalize]; [done|by apply H..].
Qed.

Lemma mul_abs_le x p b sy my ey p' b' :
  exact_bound p' b' -> abs_le x p b -> lt_pow (p * Zpos my) (b + ey) p' b' ->
  abs_le (SFmul 53 1024 x (S754_finite sy my ey)) p' b'.
Proof.
  intros Hp Hx Hlt. destruct x as [|?|?|sx mx ex]; [done..|]. cbn [abs_le] in Hx. cbn [SFmul].
  apply round_abs_le; [done|lia| |right; split; [done|lia]].
  set (k := Z.max (Z.max (- (ex + ey)) (- b')) (- (b + ey))). apply (lt_pow_at _ _ _ _ k); [lia..|].
  eapply Z.le_lt_trans; [|apply (Hlt k); lia].
  specialize (Hx (ey + k) ltac:(lia) ltac:(lia)). rewrite Pos2Z.inj_mul.
  replace (ex + ey + k) with (ex + (ey + k)) by lia. replace (b + ey + k) with (b + (ey + k)) by lia. nia.
Qed.

(** ** Integers as floats *)

Lemma digits_shift m k : 0 < m -> 0 <= k -> Zdigits2 (m * 2 ^ k) = Zdigits2 m + k.
Proof.
  intros Hm Hk. pose proof (digits_bound m Hm) as [H1 H2]. assert (1 <= Zdigits2 m) by (destruct m as [|q|q]; [lia| |lia]; cbn [Zdigits2]; lia).
  pose proof (pow2_pos k Hk). apply digits_unique; [lia..|].
  replace (Zdigits2 m + k - 1) with (Zdigits2 m - 1 + k) by lia. rewrite !pow2_add by lia. split; nia.
Qed.

Lemma digits_upto n k : 0 < n < 2 ^ k -> 0 <= k -> 1 <= Zdigits2 n <= k.
Proof.
  intros Hn Hk. assert (1 <= Zdigits2 n) by (destruct n as [|q|q]; [lia| |lia]; cbn [Zdigits2]; lia). split; [done|].
  apply Z.nlt_ge. intros Hlt. pose proof (digits_bound n ltac:(lia)) as [H1 _].
  assert (2 ^ k <= 2 ^ (Zdigits2 n - 1)) by (apply Z.pow_le_mono_r; lia). lia.
Qed.

(** A mantissa of 53 digits is left as it is. *)
Lemma round_exact s m e : Zdigits2 (Zpos m) = 53 -> -1074 <= e <= 971 ->
  binary_round_aux 53 1024 s (Zpos m) e loc_Exact = S754_finite s m e.
Proof.
  intros Hd He.
  assert (E : shr_fexp 53 1024 (Zpos m) e loc_Exact = (shr_record_of_loc (Zpos m) loc_Exact, e)).
  { unfold shr_fexp. rewrite Hd, fexp_eq. by replace (Z.max (53 + e - 53) (-1074) - e) with 0 by lia. }
  unfold binary_round_aux. rewrite E. cbn [shr_m shr_record_of_loc loc_of_shr_record round_nearest_even]. rewrite E.
  cbn [shr_m shr_record_of_loc]. destruct (Z.leb_spec e (1024 - 53)); [done|lia].
Qed.

(** More digits lose their lowest ones. *)
Lemma round_wide s m : 53 < Zdigits2 (Zpos m) <= 64 ->
  exists m' e, binary_round_aux 53 1024 s (Zpos m) 0 loc_Exact = S754_finite s m' e /\ Zdigits2 (Zpos m') = 53 /\ 1 <= e <= 12.
Proof.
  intros Hd. unfold binary_round_aux. unfold shr_fexp at 1. set (d := Zdigits2 (Zpos m)) in *.
  pose proof (digits_bound (Zpos m) ltac:(lia)) as [Hm1 Hm2]. fold d in Hm1, Hm2.
  rewrite fexp_eq, Z.add_0_r, Z.sub_0_r, Z.max_l by lia.
  destruct (shr_spec (shr_record_of_loc (Zpos m) loc_Exact) 0 (d - 53)) as (r & -> & Em & _); [by rewrite record_m|].
  rewrite record_m, Z.max_r in Em by lia. rewrite Z.max_r, Z.add_0_l by lia. pose proof (round_even_bounds (shr_m r) (loc_of_shr_record r)) as Hr.
  set (m2 := round_nearest_even _ _) in *. assert (Hlo : 2 ^ 52 <= shr_m r).
  { rewrite Em. apply Z.div_le_lower_bound; [apply pow2_pos; lia|]. rewrite <- pow2_add by lia. by replace (d - 53 + 52) with (d - 1) by lia. }
  assert (Hhi : shr_m r < 2 ^ 53).
  { rewrite Em. apply Z.div_lt_upper_bound; [apply pow2_pos; lia|]. rewrite <- pow2_add by lia. by replace (d - 53 + 53) with d by lia. }
  assert (Hd2 : Zdigits2 m2 = 53 \/ m2 = 2 ^ 53).
  { destruct (Z.eq_dec m2 (2 ^ 53)); [by right|left]. apply digits_unique; [lia|done|]. cbn [Z.sub Z.pos_sub]. lia. }
  clearbody m2. unfold shr_fexp. rewrite fexp_eq. destruct Hd2 as [Hd2| ->].
  - rewrite Hd2. replace (Z.max (53 + (d - 53) - 53) (-1074) - (d - 53)) with 0 by lia. cbn [shr].
    rewrite record_m. destruct m2 as [|m'|m']; [lia| |lia]. destruct (Z.leb_spec (d - 53) (1024 - 53)); [|lia].
    exists m', (d - 53). split_and!; [done..|lia|lia].
  - change (Zdigits2 (2 ^ 53)) with 54. replace (Z.max (54 + (d - 53) - 53) (-1074) - (d - 53)) with 1 by lia.
    cbn [shr]. change (shr_m _) with (2 ^ 52) at 1. cbn [Z.pow Z.pow_pos Pos.iter]. 
    destruct (Z.leb_spec (d - 53 + 1) (1024 - 53)); [|lia].
    eexists _, (d - 53 + 1). split_and!; [reflexivity|reflexivity|lia|lia].
Qed.

(** Of 53 digits: exact below [2 ^ 53], not below it above. *)
Lemma normalize_int n : 0 < n < 2 ^ 64 ->
  exists m e, binary_normalize 53 1024 n 0 false = S754_finite false m e /\ Zdigits2 (Zpos m) = 53 /\ -53 <= e <= 12 /\
    (n < 2 ^ 53 -> forall k, 0 <= e + k -> 0 <= k -> Zpos m * 2 ^ (e + k) = n * 2 ^ k) /\ (2 ^ 53 <= n -> 1 <= e).
Proof.
  intros [Hn0 Hn]. destruct n as [|n|n]; [lia| |lia]. cbn [binary_normalize]. unfold binary_round. rewrite Z.add_0_r, fexp_eq.
  change (Zpos (digits2_pos n)) with (Zdigits2 (Zpos n)). set (d := Zdigits2 (Zpos n)).
  assert (Hd : 1 <= d <= 64) by (apply digits_upto; lia). pose proof (digits_bound (Zpos n) ltac:(lia)) as [_ Hup]. fold d in Hup.
  destruct (shl_align_spec n 0 (Z.max (d - 53) (-1074))) as (mz & -> & Em).
  destruct (Z.le_gt_cases d 53) as [Hs|Hs].
  - replace (Z.min 0 (Z.max (d - 53) (-1074))) with (d - 53) in * by lia.
    assert (Zdigits2 (Zpos mz) = 53) by (rewrite Em, digits_shift by lia; fold d; lia).
    rewrite round_exact by (done || lia). exists mz, (d - 53). split_and!; [done..|lia|lia| |].
    + intros _ k Hk1 Hk2. rewrite Em, <- Z.mul_assoc, <- pow2_add by lia. do 2 f_equal. lia.
    + intros Hge. assert (2 ^ d <= 2 ^ 53) by (apply Z.pow_le_mono_r; lia). lia.
  - replace (Z.min 0 (Z.max (d - 53) (-1074))) with 0 in * by lia. rewrite Z.sub_0_r, Z.mul_1_r in Em. injection Em as ->.
    destruct (round_wide false n) as (m' & e & -> & Hm & He); [fold d; lia|]. exists m', e. split_and!; [done..|lia|lia| |lia].
    intros Hlt. pose proof (digits_upto (Zpos n) 53 ltac:(lia) ltac:(lia)). fold d in H. lia.
Qed.

(** The quotient of a smaller by a larger number is at most one. *)
Lemma div_abs_le m1 e1 m2 e2 :
  Zdigits2 (Zpos m1) = 53 -> Zdigits2 (Zpos m2) = 53 -> -53 <= e1 -> e2 <= 12 ->
  lt_pow (Zpos m1) e1 (Zpos m2) e2 ->
  abs_le (SFdiv 53 1024 (S754_finite false m1 e1) (S754_finite false m2 e2)) 1 0.
Proof.
  intros Hd1 Hd2 He1 He2 Hlt. cbn [SFdiv]. unfold SFdiv_core_binary. rewrite Hd1, Hd2, fexp_eq.
  assert (He : e1 <= e2) by (pose proof (leading_bit (Zpos m1) e1 (Zpos m2) e2 ltac:(lia) ltac:(lia) (lt_le_pow _ _ _ _ Hlt)); lia).
  replace (Z.min (Z.max (53 + e1 - (53 + e2) - 53) (-1074)) (e1 - e2)) with (e1 - e2 - 53) by lia.
  replace (e1 - e2 - (e1 - e2 - 53)) with 53 by lia. rewrite Z.shiftl_mul_pow2 by done.
  pose proof (Z_div_mod (Zpos m1 * 2 ^ 53) (Zpos m2) ltac:(done)) as Hdm. destruct (Z.div_eucl _ _) as [q r]. destruct Hdm as [Eq Hr].
  assert (Hm1 : Zpos m1 < Zpos m2 * 2 ^ (e2 - e1)).
  { specialize (Hlt (- e1) ltac:(lia) ltac:(lia)). by rewrite Z.add_opp_diag_r, Z.mul_1_r in Hlt. }
  assert (0 <= q) by nia. apply round_abs_le; [split_and!; done|done| |left; lia].
  apply (lt_pow_at _ _ _ _ (- (e1 - e2 - 53))); [lia..|]. rewrite Z.add_opp_diag_r, Z.mul_1_r, Z.mul_1_l, Z.add_0_l.
  replace (- (e1 - e2 - 53)) with (53 + (e2 - e1)) by lia. rewrite pow2_add by lia.
  pose proof (pow2_pos (e2 - e1) ltac:(lia)). set (x := 2 ^ (e2 - e1)) in *. clearbody x. nia.
Qed.

(** [a / b] for [0 < a < b]. *)
Lemma ratio_abs_le n mx : 0 < n < mx -> n < 2 ^ 53 -> mx < 2 ^ 64 ->
  abs_le (SFdiv 53 1024 (binary_normalize 53 1024 n 0 false) (binary_normalize 53 1024 mx 0 false)) 1 0.
Proof.
  intros Hn Hs Hm. destruct (normalize_int n) as (m1 & e1 & -> & Hd1 & He1 & Hx1 & _); [lia|].
  destruct (normalize_int mx) as (m2 & e2 & -> & Hd2 & He2 & Hx2 & Hbig); [lia|]. specialize (Hx1 Hs).
  apply div_abs_le; [done..|lia|lia|]. set (k := 53). apply (lt_pow_at _ _ _ _ k); [lia..|]. rewrite Hx1 by lia.
  destruct (Z.lt_ge_cases mx (2 ^ 53)) as [Hlt|Hge].
  - rewrite Hx2 by lia. subst k. lia.
  - specialize (Hbig Hge). pose proof (digits_bound (Zpos m2) ltac:(lia)) as [Hlo _]. rewrite Hd2 in Hlo.
    rewrite pow2_add by lia. assert (2 ^ 1 <= 2 ^ e2) by (apply Z.pow_le_mono_r; lia). subst k. cbn [Z.sub Z.pos_sub] in Hlo. nia.
Qed.

(** Less one half, which is exact or rounds below nine sixteenths. *)
Lemma sub_half_abs_le x : abs_le x 1 0 ->
  SFltb (S754_finite false (2 ^ 52) (-53)) x = true -> abs_le (SFsub 53 1024 x (S754_finite false (2 ^ 52) (-53))) 9 (-4).
Proof.
  intros Hx Hlt. destruct x as [s|s| |s m e]; try done. destruct s; [done|]. cbn [abs_le] in Hx.
  assert (He : -53 <= e).
  { unfold SFltb, SFcompare in Hlt. destruct (Z.compare_spec (-53) e); [lia|lia|done]. }
  cbn [SFsub]. rewrite Z.min_r by done.
  destruct (shl_align_spec m e (-53)) as (mz & -> & Em). destruct (shl_align_spec (2 ^ 52) (-53) (-53)) as (hz & -> & Eh).
  cbn [fst cond_Zopp]. rewrite Em, Eh, Z.min_r, Z.min_id by done. apply normalize_abs_le; [split_and!; done|].
  specialize (Hx 53 ltac:(lia) ltac:(lia)).
  apply (lt_pow_at _ _ _ _ 53); [done..|]. replace (e - -53) with (e + 53) by lia.
  assert (0 < Zpos m * 2 ^ (e + 53)) by (apply Z.mul_pos_pos; [done|apply pow2_pos; lia]).
  set (y := Zpos m * 2 ^ (e + 53)) in *. clearbody y. change (Zpos (2 ^ 52)) with (2 ^ 52).
  change (2 ^ (-53 - -53)) with 1. change (2 ^ (-53 + 53)) with 1. change (-4 + 53) with 49. change (0 + 53) with 53 in Hx. lia.
Qed.
