(* ===== verification/Decimal.v ===== *)
(** * Decimal numbers as text

    The parts of Rust's formatting and parsing of integers that file names,
    the version hint and manifest properties go through: [to_string],
    [from_str] for unsigned and signed types, and [str::trim]. *)

From Stdlib Require Import Ascii.
From S2P Require Import Prelude.
Local Open Scope Z_scope.

Definition digit_char (d : Z) : ascii := ascii_of_nat (48 + Z.to_nat d).

Definition char_digit (c : ascii) : option Z :=
  let n := Z.of_nat (nat_of_ascii c) in
  if (48 <=? n) && (n <=? 57) then Some (n - 48) else None.

(** The decimal digits of [n] in front of [acc]; 20 digits hold a [u64]. *)
Fixpoint dec_digits (fuel : nat) (n : Z) (acc : list Z) : list Z :=
  match fuel with
  | O => acc
  | S fuel =>
      if n <? 10 then n :: acc else dec_digits fuel (n / 10) (n mod 10 :: acc)
  end.

Definition string_of_digits (ds : list Z) : list ascii := map digit_char ds.

(** [i64::to_string]. *)
Definition show_int (n : Z) : list ascii :=
  if n <? 0 then "-"%char :: string_of_digits (dec_digits 20 (- n) [])
  else string_of_digits (dec_digits 20 n []).

(** Digits up to the value [limit]. *)
Fixpoint parse_digits (limit acc : Z) (cs : list ascii) : option Z :=
  match cs with
  | [] => Some acc
  | c :: cs =>
      match char_digit c with
      | None => None
      | Some d =>
          if limit <? acc * 10 + d then None else parse_digits limit (acc * 10 + d) cs
      end
  end.

Definition parse_nonempty (limit : Z) (cs : list ascii) : option Z :=
  match cs with [] => None | _ => parse_digits limit 0 cs end.

(** [u64::from_str]: an optional [+], then at least one digit, no overflow. *)
Definition parse_u64 (cs : list ascii) : option Z :=
  match cs with
  | [] => None
  | c :: cs' => parse_nonempty u64_max (if Ascii.eqb c "+"%char then cs' else cs)
  end.

(** [from_str] of a [w]-bit signed integer. *)
Definition parse_int (w : Z) (cs : list ascii) : option Z :=
  match cs with
  | [] => None
  | c :: cs' =>
      if Ascii.eqb c "-"%char then Z.opp <$> parse_nonempty (2 ^ (w - 1)) cs'
      else parse_nonempty (2 ^ (w - 1) - 1) (if Ascii.eqb c "+"%char then cs' else cs)
  end.

(** ** [str::trim]: the UTF-8 forms of the characters with property
    [White_Space]. *)
Definition byte_seq (l : list Z) : bytes := map byte.of_Z l.

Definition whitespace : list bytes :=
  map (fun z => byte_seq [z]) [9; 10; 11; 12; 13; 32] ++
  map byte_seq [[0xC2; 0x85]; [0xC2; 0xA0]; [0xE1; 0x9A; 0x80];
                [0xE2; 0x80; 0xA8]; [0xE2; 0x80; 0xA9]; [0xE2; 0x80; 0xAF];
                [0xE2; 0x81; 0x9F]; [0xE3; 0x80; 0x80]] ++
  map (fun z => byte_seq [0xE2; 0x80; z]) [0x80; 0x81; 0x82; 0x83; 0x84; 0x85; 0x86; 0x87; 0x88; 0x89; 0x8A].

Definition starts_with (p s : bytes) : bool := bytes_eqb (take (length p) s) p.

Fixpoint trim_start (fuel : nat) (ws : list bytes) (s : bytes) : bytes :=
  match fuel with
  | O => s
  | S fuel =>
      match List.find (fun p => starts_with p s) ws with
      | Some p => trim_start fuel ws (drop (length p) s)
      | None => s
      end
  end.

Definition trim (s : bytes) : bytes :=
  let s := trim_start (length s) whitespace s in
  rev (trim_start (length s) (map (@rev byte) whitespace) (rev s)).

Definition bytes_of_chars (cs : list ascii) : bytes := map byte_of_ascii cs.
Definition chars_of_bytes (bs : bytes) : list ascii := map ascii_of_byte bs.

(** ** Printed numbers parse back *)
#[local] Arguments digit_char : simpl never.

Definition dec_value (ds : list Z) : Z := foldl (fun a d => a * 10 + d) 0 ds.
#[local] Arguments dec_value : simpl never.

Definition is_digit (d : Z) : Prop := 0 <= d < 10.

Lemma dec_digits_spec fuel n acc :
  0 <= n < 10 ^ Z.of_nat fuel -> (0 < fuel)%nat ->
  exists ds, dec_digits fuel n acc = ds ++ acc /\ ds <> [] /\ Forall is_digit ds /\
             dec_value ds = n.
Proof.
  revert n acc. induction fuel as [|fuel IH]; intros n acc Hn Hf; [lia|]. simpl.
  destruct (Z.ltb_spec n 10).
  { exists [n]. split; [done|]. split; [done|].
    split; [apply Forall_singleton; unfold is_digit; lia|]. unfold dec_value. simpl. lia. }
  rewrite Nat2Z.inj_succ, Z.pow_succ_r in Hn by lia.
  destruct fuel as [|fuel].
  { simpl in Hn. lia. }
  assert (0 <= n / 10 < 10 ^ Z.of_nat (S fuel)).
  { split; [apply Z.div_pos; lia|]. apply Z.div_lt_upper_bound; lia. }
  destruct (IH (n / 10) (n mod 10 :: acc)) as (ds & -> & Hne & Hd & Hv); [done|lia|].
  exists (ds ++ [n mod 10]). rewrite <- app_assoc. split; [done|].
  split; [by destruct ds|]. split.
  - apply Forall_app_2; [done|]. constructor; [apply Z.mod_pos_bound; lia|constructor].
  - unfold dec_value in *. rewrite foldl_app. simpl. rewrite Hv.
    pose proof (Z.div_mod n 10). lia.
Qed.

Lemma char_digit_char d : is_digit d -> char_digit (digit_char d) = Some d.
Proof.
  unfold is_digit. intros Hd.
  assert (d = 0 \/ d = 1 \/ d = 2 \/ d = 3 \/ d = 4 \/ d = 5 \/ d = 6 \/ d = 7 \/
          d = 8 \/ d = 9) as H by lia.
  by repeat destruct H as [->|H]; [..|rewrite H].
Qed.

Lemma foldl_dec_mono acc ds :
  0 <= acc -> Forall is_digit ds -> acc <= foldl (fun a d => a * 10 + d) acc ds.
Proof.
  intros Ha Hd. revert acc Ha. induction Hd as [|d ds H _ IH]; intros acc Ha; simpl; [lia|].
  unfold is_digit in H. specialize (IH (acc * 10 + d)). lia.
Qed.

Lemma parse_digits_spec limit acc ds :
  0 <= acc -> Forall is_digit ds -> foldl (fun a d => a * 10 + d) acc ds <= limit ->
  parse_digits limit acc (string_of_digits ds) = Some (foldl (fun a d => a * 10 + d) acc ds).
Proof.
  intros Ha Hd. revert acc Ha.
  induction Hd as [|d ds H Hds IH]; intros acc Ha Hb; [done|].
  cbn [foldl string_of_digits map parse_digits] in *.
  rewrite char_digit_char by done. unfold is_digit in H.
  pose proof (foldl_dec_mono (acc * 10 + d) ds ltac:(lia) Hds).
  destruct (Z.ltb_spec limit (acc * 10 + d)); [lia|]. apply IH; lia.
Qed.

Lemma digit_char_neq d c : is_digit d -> char_digit c = None -> Ascii.eqb (digit_char d) c = false.
Proof.
  intros Hd Hc. destruct (Ascii.eqb_spec (digit_char d) c) as [E|]; [|done].
  apply char_digit_char in Hd. rewrite E in Hd. congruence.
Qed.

Lemma dec_digits_nonempty n :
  0 <= n <= u64_max -> exists d ds, dec_digits 20 n [] = d :: ds /\ Forall is_digit (d :: ds) /\
    dec_value (d :: ds) = n.
Proof.
  intros Hn. destruct (dec_digits_spec 20 n []) as (ds & -> & Hne & HF & Hv); [unfold u64_max in Hn; lia|lia|].
  rewrite app_nil_r. destruct ds as [|d ds]; [done|]. by exists d, ds.
Qed.

Lemma parse_nonempty_digits limit d ds :
  Forall is_digit (d :: ds) -> dec_value (d :: ds) <= limit ->
  parse_nonempty limit (string_of_digits (d :: ds)) = Some (dec_value (d :: ds)).
Proof.
  intros HF Hl. unfold parse_nonempty. cbn [string_of_digits map].
  change (digit_char d :: map digit_char ds) with (string_of_digits (d :: ds)).
  apply parse_digits_spec; [lia|done|done].
Qed.

(** Formatting a [w]-bit signed integer and parsing it. *)
Lemma parse_show_int w n :
  0 < w <= 64 -> in_i w n -> parse_int w (show_int n) = Some n.
Proof.
  intros Hw Hn. unfold in_i in Hn.
  assert (2 ^ (w - 1) <= 2 ^ 63) by (apply Z.pow_le_mono_r; lia).
  unfold show_int, parse_int. destruct (Z.ltb_spec n 0).
  - destruct (dec_digits_nonempty (- n)) as (d & ds & -> & HF & Hv); [unfold u64_max; lia|].
    rewrite (proj2 (Ascii.eqb_eq _ _)) by done.
    rewrite parse_nonempty_digits by (done || lia). rewrite Hv. cbn. f_equal. lia.
  - destruct (dec_digits_nonempty n) as (d & ds & -> & HF & Hv); [unfold u64_max; lia|].
    cbn [string_of_digits map]. pose proof (Forall_inv HF) as Hd.
    rewrite (digit_char_neq d "-"), (digit_char_neq d "+") by done.
    change (digit_char d :: map digit_char ds) with (string_of_digits (d :: ds)).
    rewrite parse_nonempty_digits by (done || lia). by rewrite Hv.
Qed.

Lemma chars_of_bytes_of_chars cs : chars_of_bytes (bytes_of_chars cs) = cs.
Proof.
  unfold chars_of_bytes, bytes_of_chars. rewrite map_map. rewrite <- (map_id cs) at 2.
  apply map_ext. apply ascii_of_byte_of_ascii.
Qed.

(** Text without whitespace is not trimmed. *)
Definition plain (b : byte) : Prop := 33 <= byte.unsigned b <= 126.

Lemma trim_start_plain fuel ws s :
  Forall (fun p => match p with [] => False | x :: _ => ~ plain x end) ws ->
  match s with [] => True | b :: _ => plain b end ->
  trim_start fuel ws s = s.
Proof.
  intros Hws Hs. destruct fuel as [|fuel]; [done|]. cbn [trim_start].
  replace (List.find _ ws) with (@None bytes); [done|]. symmetry.
  induction Hws as [|p ws Hp _ IH]; [done|]. cbn [List.find].
  unfold starts_with at 1. destruct p as [|x p]; [done|].
  destruct (bytes_eqb (take (length (x :: p)) s) (x :: p)) eqn:E; [|done].
  apply bytes_eqb_spec in E. destruct s as [|b s]; [done|]. cbn in E. by simplify_eq.
Qed.

Lemma trim_plain s : Forall plain s -> trim s = s.
Proof.
  intros Hs. unfold trim.
  rewrite (trim_start_plain (length s) whitespace s).
  - rewrite trim_start_plain.
    + apply rev_involutive.
    + repeat (apply Forall_cons; split; [vm_compute; intros [? ?]; congruence|]). constructor.
    + destruct (rev s) as [|b l] eqn:E; [done|]. rewrite Forall_forall in Hs. apply Hs.
      apply list_elem_of_In, in_rev. rewrite E. by left.
  - repeat (apply Forall_cons; split; [vm_compute; intros [? ?]; congruence|]). constructor.
  - destruct s; [done|]. by apply Forall_inv in Hs.
Qed.

Lemma plain_digit d : is_digit d -> plain (byte_of_ascii (digit_char d)).
Proof.
  unfold is_digit. intros Hd.
  assert (d = 0 \/ d = 1 \/ d = 2 \/ d = 3 \/ d = 4 \/ d = 5 \/ d = 6 \/ d = 7 \/
          d = 8 \/ d = 9) as H by lia.
  repeat destruct H as [->|H]; [..|rewrite H]; vm_compute; split; discriminate.
Qed.

Lemma show_int_plain n : in_i 64 n -> Forall plain (bytes_of_chars (show_int n)).
Proof.
  intros Hn. unfold in_i in Hn.
  assert (HF : forall ds, Forall is_digit ds -> Forall plain (bytes_of_chars (string_of_digits ds))).
  { induction 1; constructor; [by apply plain_digit|done]. }
  unfold show_int. destruct (Z.ltb_spec n 0).
  - destruct (dec_digits_nonempty (- n)) as (d & ds & -> & Hds & _); [unfold u64_max; lia|].
    constructor; [vm_compute; split; discriminate|by apply HF].
  - destruct (dec_digits_nonempty n) as (d & ds & -> & Hds & _); [unfold u64_max; lia|]. by apply HF.
Qed.
