(* ===== verification/Disk.v ===== *)
(** * A file system that crashes

    The part of [std::fs] and [tokio::fs] the catalog and the flush path use,
    with what a crash may lose.  A file's content is lost unless it was
    synced; an entry of a directory (a new name, a removed name, a rename) may
    or may not survive unless the directory was synced, each entry on its own,
    a rename as a whole.  Any call may fail with an I/O error, and the process
    may stop at any call.

    Programs are state-passing functions over the disk and a schedule of
    faults; [triple] is their Hoare logic, with a condition that holds
    wherever the program may stop.  Directories are not objects of the model:
    [create_dir_all] only may fail. *)

From S2P Require Import Prelude.
Local Open Scope Z_scope.

(** ** State *)

(** A path is its directory and its last component. *)
Abbreviation path_t := (string * string)%type.

Record Inode : Type := { i_data : bytes; i_synced : bool }.

(** A change of the entries of one directory. *)
Inductive dent : Type :=
  | Link (name : string) (i : nat)
  | Unlink (name : string)
  | Rename (from to : string) (i : nat).

Record Dir : Type := { dur : gmap string nat; pend : list dent }.

Record Disk : Type := { inodes : gmap nat Inode; dirs : gmap string Dir; next_ino : nat }.

Definition apply_dent (c : dent) (m : gmap string nat) : gmap string nat :=
  match c with
  | Link n i => <[n := i]> m
  | Unlink n => base.delete n m
  | Rename a b i => <[b := i]> (base.delete a m)
  end.

Definition apply_dents (cs : list dent) (m : gmap string nat) : gmap string nat :=
  foldl (fun m c => apply_dent c m) m cs.

Definition dir_at (d : Disk) (n : string) : Dir := default {| dur := ∅; pend := [] |} (dirs d !! n).

Definition names (d : Disk) (dn : string) : gmap string nat :=
  apply_dents (pend (dir_at d dn)) (dur (dir_at d dn)).

Definition lookup_path (d : Disk) (p : path_t) : option nat := names d p.1 !! p.2.

Definition read_file (d : Disk) (p : path_t) : option bytes :=
  i ← lookup_path d p; f ← inodes d !! i; Some (i_data f).

(** ** Changes *)
Definition set_inode (i : nat) (f : Inode) (d : Disk) : Disk :=
  {| inodes := <[i := f]> (inodes d); dirs := dirs d; next_ino := next_ino d |}.

Definition set_dir (dn : string) (x : Dir) (d : Disk) : Disk :=
  {| inodes := inodes d; dirs := <[dn := x]> (dirs d); next_ino := next_ino d |}.

Definition change (dn : string) (c : dent) (d : Disk) : Disk :=
  let x := dir_at d dn in set_dir dn {| dur := dur x; pend := pend x ++ [c] |} d.

(** Creating or truncating a file, and writing it. *)
Definition write_file (p : path_t) (b : bytes) (d : Disk) : Disk :=
  match lookup_path d p with
  | Some i => set_inode i {| i_data := b; i_synced := false |} d
  | None =>
      let i := next_ino d in
      change p.1 (Link p.2 i)
        {| inodes := <[i := {| i_data := b; i_synced := false |}]> (inodes d);
           dirs := dirs d; next_ino := S i |}
  end.

Definition sync_file (p : path_t) (d : Disk) : Disk :=
  match lookup_path d p with
  | Some i =>
      match inodes d !! i with
      | Some f => set_inode i {| i_data := i_data f; i_synced := true |} d
      | None => d
      end
  | None => d
  end.

Definition sync_dir (dn : string) (d : Disk) : Disk :=
  set_dir dn {| dur := names d dn; pend := [] |} d.

Definition rename_file (dn a b : string) (d : Disk) : Disk :=
  match lookup_path d (dn, a) with
  | Some i => change dn (Rename a b i) d
  | None => d
  end.

Definition remove_path (p : path_t) (d : Disk) : Disk :=
  match lookup_path d p with
  | Some _ => change p.1 (Unlink p.2) d
  | None => d
  end.

(** ** Crashes *)
Definition inode_after (f f' : Inode) : Prop :=
  i_synced f' = true /\ (i_synced f = true -> i_data f' = i_data f).

(** Some of the pending changes of each directory are lost; what was written
    and not synced is anything. *)
Record crash (d d' : Disk) : Prop := {
  crash_dirs dn : exists l, sublist l (pend (dir_at d dn)) /\
    dir_at d' dn = {| dur := apply_dents l (dur (dir_at d dn)); pend := [] |};
  crash_inodes i f : inodes d !! i = Some f -> exists f', inodes d' !! i = Some f' /\ inode_after f f';
  crash_next : next_ino d' = next_ino d;
  crash_dom i : (next_ino d <= i)%nat -> inodes d' !! i = None;
}.

(** ** Programs *)
Inductive fault : Type := NoFault | Fails (junk : bytes) | Stops.

Record world : Type := { w_disk : Disk; w_tick : nat }.

Inductive outcome (A : Type) : Type := Val (a : A) | Stopped.
Arguments Val {A} a.
Arguments Stopped {A}.

Definition io (A : Type) : Type := (nat -> fault) -> world -> world * outcome A.

#[global] Instance io_ret : MRet io := fun A a sched w => (w, Val a).
#[global] Instance io_bind : MBind io := fun A B k m sched w =>
  match m sched w with
  | (w, Val a) => k a sched w
  | (w, Stopped) => (w, Stopped)
  end.

(** [m?]: continue on success, return the error otherwise. *)
Definition io_try {A B} (k : A -> io (res B)) (m : io (res A)) : io (res B) :=
  r ← m;
  match r with
  | Ok a => k a
  | Err e => mret (Err e)
  | Panic => mret Panic
  end.

Lemma io_try_ok {A B} (k : A -> io (res B)) a : io_try k (mret (Ok a)) = k a.
Proof. done. Qed.

Declare Scope io_scope.
Delimit Scope io_scope with io.
Notation "x <-? m ; k" := (io_try (fun x => k) m)
  (at level 20, m at level 100, k at level 200, right associativity) : io_scope.
Notation "m ;? k" := (io_try (fun _ : unit => k) m)
  (at level 100, k at level 200, right associativity) : io_scope.
Open Scope io_scope.

(** One system call. *)
Definition syscall {A} (ok : Disk -> Disk * A) (fail : bytes -> Disk -> Disk * A) : io A :=
  fun sched w =>
    match sched (w_tick w) with
    | NoFault => let '(d, a) := ok (w_disk w) in ({| w_disk := d; w_tick := S (w_tick w) |}, Val a)
    | Fails junk =>
        let '(d, a) := fail junk (w_disk w) in ({| w_disk := d; w_tick := S (w_tick w) |}, Val a)
    | Stops => (w, Stopped)
    end.

(** A failed write may leave part of the data behind. *)
Definition io_write (p : path_t) (b : bytes) : io (res unit) :=
  syscall (fun d => (write_file p b d, Ok tt)) (fun junk d => (write_file p junk d, Err Io)).

Definition io_sync (p : path_t) : io (res unit) :=
  syscall (fun d => match lookup_path d p with
                    | Some _ => (sync_file p d, Ok tt)
                    | None => (d, Err Io)
                    end) (fun _ d => (d, Err Io)).

Definition io_sync_dir (dn : string) : io (res unit) :=
  syscall (fun d => (sync_dir dn d, Ok tt)) (fun _ d => (d, Err Io)).

Definition io_rename (dn a b : string) : io (res unit) :=
  syscall (fun d => match lookup_path d (dn, a) with
                    | Some _ => (rename_file dn a b d, Ok tt)
                    | None => (d, Err Io)
                    end) (fun _ d => (d, Err Io)).

Definition io_remove (p : path_t) : io (res unit) :=
  syscall (fun d => match lookup_path d p with
                    | Some _ => (remove_path p d, Ok tt)
                    | None => (d, Err Io)
                    end) (fun _ d => (d, Err Io)).

Definition io_create_dir_all (dn : string) : io (res unit) :=
  syscall (fun d => (d, Ok tt)) (fun _ d => (d, Err Io)).

(** [Path::exists], which is also false on an error. *)
Definition io_exists (p : path_t) : io bool :=
  syscall (fun d => (d, bool_decide (is_Some (lookup_path d p)))) (fun _ d => (d, false)).

(** Reading a whole file; [None] for [ErrorKind::NotFound]. *)
Definition io_read_opt (p : path_t) : io (res (option bytes)) :=
  syscall (fun d => (d, Ok (read_file d p))) (fun _ d => (d, Err Io)).

Definition io_read (p : path_t) : io (res bytes) :=
  b <-? io_read_opt p; mret (ok_or b Io).

Definition io_names (dn : string) : io (option (list string)) :=
  syscall (fun d => (d, Some (map fst (map_to_list (names d dn))))) (fun _ d => (d, None)).

(** The run without faults. *)
Definition run {A} (m : io A) (d : Disk) : Disk * outcome A :=
  let '(w, o) := m (fun _ => NoFault) {| w_disk := d; w_tick := 0 |} in (w_disk w, o).

Definition runs {A} (m : io A) (d d' : Disk) (a : A) : Prop :=
  forall n, exists n', m (fun _ => NoFault) {| w_disk := d; w_tick := n |}
                       = ({| w_disk := d'; w_tick := n' |}, Val a).

Lemma runs_run {A} (m : io A) d d' a : runs m d d' a -> run m d = (d', Val a).
Proof. intros H. unfold run. by destruct (H 0%nat) as [n' ->]. Qed.

Lemma runs_ret {A} (a : A) d : runs (mret a) d d a.
Proof. intros n. by exists n. Qed.

Lemma runs_bind {A B} (m : io A) (k : A -> io B) d d1 d2 a b :
  runs m d d1 a -> runs (k a) d1 d2 b -> runs (m ≫= k) d d2 b.
Proof.
  intros Hm Hk n. destruct (Hm n) as [n1 E1], (Hk n1) as [n2 E2]. exists n2.
  unfold mbind, io_bind. by rewrite E1.
Qed.

Lemma runs_try {A B} (m : io (res A)) (k : A -> io (res B)) d d1 d2 a b :
  runs m d d1 (Ok a) -> runs (k a) d1 d2 b -> runs (io_try k m) d d2 b.
Proof. intros. eapply runs_bind; [done|]. done. Qed.

Lemma runs_syscall {A} (ok : Disk -> Disk * A) fail d d' a :
  ok d = (d', a) -> runs (syscall ok fail) d d' a.
Proof. intros E n. exists (S n). unfold syscall. cbn [w_disk w_tick]. by rewrite E. Qed.

Lemma runs_read p b d : read_file d p = Some b -> runs (io_read p) d d (Ok b).
Proof.
  intros E. eapply runs_try; [by apply runs_syscall; rewrite E|]. apply runs_ret.
Qed.

(** ** Hoare triples with a crash condition *)
Definition triple {A} (P : Disk -> Prop) (m : io A) (Q : A -> Disk -> Prop) (C : Disk -> Prop) : Prop :=
  forall sched w, P (w_disk w) ->
    match m sched w with
    | (w', Val a) => Q a (w_disk w')
    | (w', Stopped) => C (w_disk w')
    end.

Lemma triple_ret {A} (P : Disk -> Prop) (a : A) (Q : A -> Disk -> Prop) C :
  (forall d, P d -> Q a d) -> triple P (mret a) Q C.
Proof. intros H sched w HP. by apply H. Qed.

Lemma triple_bind {A B} P (m : io A) (k : A -> io B) R Q C :
  triple P m R C -> (forall a, triple (R a) (k a) Q C) -> triple P (m ≫= k) Q C.
Proof.
  intros Hm Hk sched w HP. specialize (Hm sched w HP). unfold mbind, io_bind.
  destruct (m sched w) as [w' [a|]]; [by apply Hk|done].
Qed.

Lemma triple_conseq {A} P P' (m : io A) Q Q' C C' :
  triple P' m Q' C' -> (forall d, P d -> P' d) -> (forall a d, Q' a d -> Q a d) ->
  (forall d, C' d -> C d) -> triple P m Q C.
Proof.
  intros H HP HQ HC sched w Hw. specialize (H sched w (HP _ Hw)).
  destruct (m sched w) as [w' [a|]]; auto.
Qed.

(** A call that must succeed for the program to go on: [E] is what holds
    after an error. *)
Lemma triple_try {A B} P (m : io (res A)) (k : A -> io (res B)) R Q C :
  triple P m (fun r d => match r with
                         | Ok a => R a d
                         | Err e => Q (Err e) d
                         | Panic => Q Panic d
                         end) C ->
  (forall a, triple (R a) (k a) Q C) -> triple P (io_try k m) Q C.
Proof.
  intros Hm Hk. eapply triple_bind; [exact Hm|]. intros [a|e|]; [apply Hk|..]; by apply triple_ret.
Qed.

Lemma triple_syscall {A} (P : Disk -> Prop) ok fail (Q : A -> Disk -> Prop) (C : Disk -> Prop) :
  (forall d, P d -> C d) ->
  (forall d, P d -> Q (ok d).2 (ok d).1) ->
  (forall d junk, P d -> Q (fail junk d).2 (fail junk d).1) ->
  triple P (syscall ok fail) Q C.
Proof.
  intros HC Hok Hf sched w HP. unfold syscall.
  destruct (sched (w_tick w)) as [|junk|]; [|..|by apply HC].
  - specialize (Hok _ HP). by destruct (ok (w_disk w)).
  - specialize (Hf _ junk HP). by destruct (fail junk (w_disk w)).
Qed.

Lemma triple_pure {A} (F : Prop) P (m : io A) Q C :
  (F -> triple P m Q C) -> triple (fun d => F /\ P d) m Q C.
Proof. intros H sched w [HF HP]. by apply H. Qed.

Lemma triple_exists {A X} P (m : io A) Q C :
  (forall x : X, triple (P x) m Q C) -> triple (fun d => exists x, P x d) m Q C.
Proof. intros H sched w [x HP]. by apply (H x). Qed.

Lemma triple_read (P : Disk -> Prop) p Q (C : Disk -> Prop) :
  (forall d, P d -> C d) ->
  (forall d data, P d -> read_file d p = Some data -> Q (Ok data) d) ->
  (forall d, P d -> Q (Err Io) d) ->
  triple P (io_read p) Q C.
Proof.
  intros HC Hok He. apply triple_try with (R := fun b d => P d /\ read_file d p = b).
  - apply triple_syscall; [done|done|]. intros d _ HP. by apply He.
  - intros b. apply triple_ret. intros d [HP Hr]. destruct b; [by apply Hok|by apply He].
Qed.

Lemma triple_any {A} P (m : io A) (Q : A -> Disk -> Prop) (C : Disk -> Prop) :
  (forall a d, Q a d) -> (forall d, C d) -> triple P m Q C.
Proof. intros HQ HC sched w _. destruct (m sched w) as [? [a|]]; auto. Qed.

(** Two postconditions of one program. *)
Lemma triple_and {A} P P' (m : io A) Q Q' C C' :
  triple P m Q C -> triple P' m Q' C' ->
  triple (fun d => P d /\ P' d) m (fun a d => Q a d /\ Q' a d) (fun d => C d /\ C' d).
Proof.
  intros H H' sched w [HP HP']. specialize (H sched w HP). specialize (H' sched w HP').
  destruct (m sched w) as [w' [a|]]; done.
Qed.

(** What holds before any call and is kept by the changes a program makes. *)
Definition invariant {A} (I : Disk -> Prop) (m : io A) : Prop := triple I m (fun _ => I) I.

Lemma invariant_ret {A} I (a : A) : invariant I (mret a).
Proof. by apply triple_ret. Qed.

Lemma invariant_bind {A B} I (m : io A) (k : A -> io B) :
  invariant I m -> (forall a, invariant I (k a)) -> invariant I (m ≫= k).
Proof. intros. by eapply triple_bind. Qed.

Lemma invariant_try {A B} I (m : io (res A)) (k : A -> io (res B)) :
  invariant I m -> (forall a, invariant I (k a)) -> invariant I (io_try k m).
Proof. intros Hm Hk. apply invariant_bind; [done|]. intros [a|e|]; [apply Hk|apply invariant_ret..]. Qed.

Lemma invariant_syscall {A} (I : Disk -> Prop) (ok : Disk -> Disk * A) fail :
  (forall d, I d -> I (ok d).1) -> (forall d junk, I d -> I (fail junk d).1) -> invariant I (syscall ok fail).
Proof. intros. by apply triple_syscall. Qed.

(** ** Runs without faults *)
Definition total {A} (P : Disk -> Prop) (m : io A) (Q : A -> Disk -> Prop) : Prop :=
  forall d, P d -> exists d' a, runs m d d' a /\ Q a d'.

Lemma total_ret {A} (P : Disk -> Prop) (a : A) (Q : A -> Disk -> Prop) :
  (forall d, P d -> Q a d) -> total P (mret a) Q.
Proof. intros H d HP. exists d, a. split; [apply runs_ret|auto]. Qed.

Lemma total_bind {A B} P (m : io A) (k : A -> io B) R Q :
  total P m R -> (forall a, total (R a) (k a) Q) -> total P (m ≫= k) Q.
Proof.
  intros Hm Hk d HP. destruct (Hm d HP) as (d1 & a & R1 & HR). destruct (Hk a d1 HR) as (d2 & b & R2 & HQ).
  exists d2, b. split; [by eapply runs_bind|done].
Qed.

Lemma total_try {A B} P (m : io (res A)) (k : A -> io (res B)) R Q :
  total P m (fun r d => exists a, r = Ok a /\ R a d) -> (forall a, total (R a) (k a) Q) -> total P (io_try k m) Q.
Proof.
  intros Hm Hk. eapply total_bind; [exact Hm|]. intros r d (a & -> & HR). by apply Hk.
Qed.

Lemma total_syscall {A} (P : Disk -> Prop) ok fail (Q : A -> Disk -> Prop) :
  (forall d, P d -> Q (ok d).2 (ok d).1) -> total P (syscall ok fail) Q.
Proof. intros H d HP. exists (ok d).1, (ok d).2. split; [by apply runs_syscall; destruct (ok d)|by apply H]. Qed.

Lemma total_conseq {A} P P' (m : io A) Q Q' :
  total P' m Q' -> (forall d, P d -> P' d) -> (forall a d, Q' a d -> Q a d) -> total P m Q.
Proof. intros H HP HQ d Hd. destruct (H d (HP d Hd)) as (d' & a & ? & ?). exists d', a. auto. Qed.

(** A run without faults also has what holds after any run. *)
Lemma total_and {A} P P' (m : io A) Q Q' C :
  total P m Q -> triple P' m Q' C -> total (fun d => P d /\ P' d) m (fun a d => Q a d /\ Q' a d).
Proof.
  intros H H' d [HP HP']. destruct (H d HP) as (d' & a & R & HQ). exists d', a. split; [done|]. split; [done|].
  destruct (R 0%nat) as [n' E]. specialize (H' (fun _ => NoFault) {| w_disk := d; w_tick := 0 |} HP').
  by rewrite E in H'.
Qed.

(** ** What a name may denote after a crash *)
Definition poss (d : Disk) (p : path_t) (o : option nat) : Prop :=
  exists l, sublist l (pend (dir_at d p.1)) /\ apply_dents l (dur (dir_at d p.1)) !! p.2 = o.

Definition effect (c : dent) (n : string) : option (option nat) :=
  match c with
  | Link m i => if bool_decide (n = m) then Some (Some i) else None
  | Unlink m => if bool_decide (n = m) then Some None else None
  | Rename a b i =>
      if bool_decide (n = b) then Some (Some i)
      else if bool_decide (n = a) then Some None else None
  end.

Lemma apply_dent_lookup c m n :
  apply_dent c m !! n = match effect c n with Some o => o | None => m !! n end.
Proof.
  destruct c as [x i|x|a b i]; cbn; repeat case_bool_decide; subst;
    by rewrite ?lookup_insert_eq, ?lookup_delete_eq, ?lookup_insert_ne, ?lookup_delete_eq, ?lookup_delete_ne.
Qed.

Lemma apply_dents_snoc l c m : apply_dents (l ++ [c]) m = apply_dent c (apply_dents l m).
Proof. unfold apply_dents. by rewrite foldl_app. Qed.

Lemma poss_current d p : poss d p (lookup_path d p).
Proof. by exists (pend (dir_at d p.1)). Qed.

Lemma dir_at_set dn x d e : dir_at (set_dir dn x d) e = if bool_decide (e = dn) then x else dir_at d e.
Proof.
  unfold dir_at, set_dir. cbn. case_bool_decide; subst; [by rewrite lookup_insert_eq|].
  by rewrite lookup_insert_ne.
Qed.

Lemma poss_change dn c d p o :
  poss (change dn c d) p o <-> poss d p o \/ (p.1 = dn /\ effect c p.2 = Some o).
Proof.
  unfold poss, change. rewrite dir_at_set. case_bool_decide as E; [|naive_solver].
  cbn [pend dur]. split.
  - intros (l & Hl & Ho). apply sublist_app_r in Hl as (l1 & l2 & -> & H1 & H2).
    rewrite <- E in *. destruct l2 as [|c2 l2].
    { left. exists l1. by rewrite app_nil_r in Ho. }
    assert (l2 = [] /\ c2 = c) as [-> ->].
    { pose proof (sublist_length _ _ H2) as Hlen. cbn in Hlen. destruct l2; [|cbn in Hlen; lia].
      split; [done|]. inversion H2 as [|? ? ? H3|? ? ? H3]; subst; [done|]. by apply sublist_nil_r in H3. }
    rewrite apply_dents_snoc, apply_dent_lookup in Ho.
    destruct (effect c p.2); [right; naive_solver|left; eauto].
  - rewrite <- E. intros [(l & Hl & Ho)|[_ He]].
    + exists l. split; [|done]. by apply sublist_inserts_r.
    + exists (pend (dir_at d p.1) ++ [c]). split; [done|].
      by rewrite apply_dents_snoc, apply_dent_lookup, He.
Qed.

Lemma lookup_path_change dn c d p :
  lookup_path (change dn c d) p
  = if bool_decide (p.1 = dn) then match effect c p.2 with Some o => o | None => lookup_path d p end
    else lookup_path d p.
Proof.
  unfold lookup_path, names, change. rewrite dir_at_set. case_bool_decide as E; [|done].
  cbn [pend dur]. by rewrite <- E, apply_dents_snoc, apply_dent_lookup.
Qed.

Lemma poss_sync_dir dn d p o :
  poss (sync_dir dn d) p o <-> (p.1 = dn /\ o = lookup_path d p) \/ (p.1 <> dn /\ poss d p o).
Proof.
  unfold poss, sync_dir. rewrite dir_at_set. case_bool_decide as E; [|naive_solver].
  cbn [pend dur]. rewrite <- E. split.
  - intros (l & ->%sublist_nil_r & <-). by left.
  - intros [[_ ->]|[? _]]; [|done]. by exists [].
Qed.

Lemma lookup_path_sync_dir dn d p : lookup_path (sync_dir dn d) p = lookup_path d p.
Proof.
  unfold lookup_path, names, sync_dir. rewrite dir_at_set. case_bool_decide as E; [|done].
  by rewrite E.
Qed.

Lemma poss_crash d d' p o : crash d d' -> poss d' p o -> poss d p o.
Proof.
  intros H (l & Hl & Ho). destruct (crash_dirs _ _ H p.1) as (l' & Hl' & E). rewrite E in *.
  cbn [pend dur] in *. apply sublist_nil_r in Hl as ->. by exists l'.
Qed.

(** After a crash nothing is pending. *)
Lemma poss_crashed d d' p o : crash d d' -> poss d' p o -> o = lookup_path d' p.
Proof.
  intros H (l & Hl & Ho). unfold lookup_path, names.
  destruct (crash_dirs _ _ H p.1) as (l' & _ & E). rewrite E in *. cbn [pend dur] in *.
  by apply sublist_nil_r in Hl as ->.
Qed.

(** ** The effect of each change *)
Lemma write_file_spec p b d :
  exists i, lookup_path (write_file p b d) p = Some i /\
    inodes (write_file p b d) = <[i := {| i_data := b; i_synced := false |}]> (inodes d) /\
    ((lookup_path d p = Some i /\ next_ino (write_file p b d) = next_ino d /\
      forall q o, poss (write_file p b d) q o <-> poss d q o) \/
     (lookup_path d p = None /\ i = next_ino d /\ next_ino (write_file p b d) = S (next_ino d) /\
      forall q o, poss (write_file p b d) q o <-> poss d q o \/ (q = p /\ o = Some i))).
Proof.
  unfold write_file. destruct (lookup_path d p) as [i|] eqn:E.
  - exists i. split; [exact E|]. split; [done|]. left. split; [done|]. by split.
  - exists (next_ino d). rewrite lookup_path_change. cbn [effect]. rewrite !bool_decide_true by done.
    split; [done|]. split; [done|]. right. split; [done|]. split; [done|]. split; [done|].
    intros q o. rewrite poss_change. destruct q as [q1 q2], p as [p1 p2]. cbn [effect fst snd].
    case_bool_decide; naive_solver.
Qed.

Lemma lookup_write_other p q b d : q <> p -> lookup_path (write_file p b d) q = lookup_path d q.
Proof.
  intros H. unfold write_file. destruct (lookup_path d p); [done|]. rewrite lookup_path_change.
  destruct q as [q1 q2], p as [p1 p2]. cbn [effect fst snd]. repeat case_bool_decide; by subst.
Qed.

Lemma sync_file_inodes p d i :
  inodes (sync_file p d) !! i
  = if bool_decide (lookup_path d p = Some i)
    then (fun f => {| i_data := i_data f; i_synced := true |}) <$> inodes d !! i else inodes d !! i.
Proof.
  unfold sync_file. destruct (lookup_path d p) as [j|]; [|done].
  destruct (decide (j = i)) as [->|Hne].
  - rewrite bool_decide_true by done. destruct (inodes d !! i) eqn:E; [|by rewrite E].
    cbn. by rewrite lookup_insert_eq.
  - rewrite bool_decide_false by congruence. destruct (inodes d !! j); [|done]. cbn.
    by rewrite lookup_insert_ne.
Qed.

Lemma sync_file_dirs p d : dirs (sync_file p d) = dirs d /\ next_ino (sync_file p d) = next_ino d.
Proof. unfold sync_file. destruct (lookup_path d p) as [i|]; [|done]. by destruct (inodes d !! i). Qed.

Lemma poss_dirs d d' p o : dirs d' = dirs d -> (poss d' p o <-> poss d p o).
Proof. unfold poss, dir_at. by intros ->. Qed.

Lemma lookup_path_dirs d d' p : dirs d' = dirs d -> lookup_path d' p = lookup_path d p.
Proof. unfold lookup_path, names, dir_at. by intros ->. Qed.

(** ** Files that survive *)

(** [p] denotes [o] whatever a crash loses. *)
Definition surely (d : Disk) (p : path_t) (o : option nat) : Prop := forall o', poss d p o' -> o' = o.
Definition holds (d : Disk) (i : nat) (b : bytes) : Prop :=
  inodes d !! i = Some {| i_data := b; i_synced := true |}.

(** The file [i] with content [b], under the only name [p]. *)
Record pinned (d : Disk) (p : path_t) (i : nat) (b : bytes) : Prop := {
  pin_name : surely d p (Some i);
  pin_data : holds d i b;
  pin_only q : poss d q (Some i) -> q = p;
  pin_ino : (i < next_ino d)%nat;
}.

Definition durable (d : Disk) (p : path_t) (b : bytes) : Prop := exists i, pinned d p i b.
Definition absent (d : Disk) (p : path_t) : Prop := surely d p None.

Lemma surely_lookup d p o : surely d p o -> lookup_path d p = o.
Proof. intros H. apply H, poss_current. Qed.

Lemma durable_read d p b : durable d p b -> read_file d p = Some b.
Proof.
  intros (i & [Hs Hh _ _]). unfold read_file. rewrite (surely_lookup _ _ _ Hs). cbn.
  unfold holds in Hh. by rewrite Hh.
Qed.

Lemma absent_read d p : absent d p -> read_file d p = None.
Proof. intros H. unfold read_file. by rewrite (surely_lookup _ _ _ H). Qed.

Lemma pinned_write d p i b q c : q <> p -> pinned d p i b -> pinned (write_file q c d) p i b.
Proof.
  intros Hq [H1 H2 H3 H4].
  destruct (write_file_spec q c d) as (j & Hl & Hi & [(El & En & Hp)|(El & Ej & En & Hp)]).
  - assert (j <> i). { intros ->. apply Hq, H3. rewrite <- El. apply poss_current. }
    split; [intros o Ho%Hp; auto| |intros r Hr%Hp; auto|by rewrite En].
    unfold holds. by rewrite Hi, lookup_insert_ne.
  - split; [| | |lia].
    + intros o [Ho|[-> _]]%Hp; [auto|done].
    + unfold holds. rewrite Hi, lookup_insert_ne by lia. done.
    + intros r [Hr|[_ [= <-]]]%Hp; [auto|lia].
Qed.

Lemma pinned_sub d d' p i b :
  pinned d p i b -> (forall q o, poss d' q o -> poss d q o) -> holds d' i b ->
  next_ino d' = next_ino d -> pinned d' p i b.
Proof. intros [H1 H2 H3 H4] Hp Hh En. split; [intros o ?; eauto|done|eauto|lia]. Qed.

Lemma pinned_sync_file d p i b q : pinned d p i b -> pinned (sync_file q d) p i b.
Proof.
  intros H. destruct (sync_file_dirs q d) as [Ed En].
  eapply pinned_sub; [exact H|intros r o; by rewrite (poss_dirs d)| |done].
  pose proof (pin_data _ _ _ _ H) as Hd. unfold holds in *. rewrite sync_file_inodes, Hd.
  by destruct (bool_decide _).
Qed.

Lemma pinned_sync_dir d p i b dn : pinned d p i b -> pinned (sync_dir dn d) p i b.
Proof.
  intros H. eapply pinned_sub; [exact H| |apply H|done].
  intros q o. rewrite poss_sync_dir. intros [[_ ->]|[_ ?]]; [apply poss_current|done].
Qed.

Lemma poss_remove p d q o : poss (remove_path p d) q o -> poss d q o \/ (q = p /\ o = None).
Proof.
  unfold remove_path. destruct (lookup_path d p); [|by left]. rewrite poss_change. cbn [effect].
  intros [?|[E H]]; [by left|right]. destruct q, p; cbn in *. case_bool_decide; naive_solver.
Qed.

Lemma remove_inodes p d :
  inodes (remove_path p d) = inodes d /\ next_ino (remove_path p d) = next_ino d.
Proof. unfold remove_path. by destruct (lookup_path d p). Qed.

Lemma pinned_remove d p i b q : q <> p -> pinned d p i b -> pinned (remove_path q d) p i b.
Proof.
  intros Hq [H1 H2 H3 H4]. destruct (remove_inodes q d) as [Hi Hn].
  split; [|unfold holds; by rewrite Hi| |by rewrite Hn].
  - intros o [Ho|[-> _]]%poss_remove; [auto|done].
  - intros r [Hr|[_ ?]]%poss_remove; [auto|done].
Qed.

Lemma poss_rename dn a b d q o :
  poss (rename_file dn a b d) q o ->
  poss d q o \/ (q = (dn, b) /\ o = lookup_path d (dn, a)) \/ (q = (dn, a) /\ o = None).
Proof.
  unfold rename_file. destruct (lookup_path d (dn, a)) as [i|]; [|by left]. rewrite poss_change.
  cbn [effect]. intros [?|[E H]]; [by left|right]. destruct q as [q1 q2]. cbn in *. subst.
  repeat case_bool_decide; naive_solver.
Qed.

Lemma rename_inodes dn a b d :
  inodes (rename_file dn a b d) = inodes d /\ next_ino (rename_file dn a b d) = next_ino d.
Proof. unfold rename_file. by destruct (lookup_path d (dn, a)). Qed.

Lemma pinned_rename d p i b dn x y :
  p <> (dn, x) -> p <> (dn, y) -> pinned d p i b -> pinned (rename_file dn x y d) p i b.
Proof.
  intros Hx Hy [H1 H2 H3 H4]. destruct (rename_inodes dn x y d) as [Hi Hn].
  split; [|unfold holds; by rewrite Hi| |by rewrite Hn].
  - intros o [Ho|[[-> _]|[-> _]]]%poss_rename; [auto|done..].
  - intros r [Hr|[[-> E]|[_ ?]]]%poss_rename; [auto| |done].
    exfalso. apply Hx. symmetry. apply H3. rewrite E. apply poss_current.
Qed.

Lemma pinned_crash d d' p i b : crash d d' -> pinned d p i b -> pinned d' p i b.
Proof.
  intros H HP. eapply pinned_sub; [exact HP|intros; by eapply poss_crash| |by apply crash_next].
  destruct (crash_inodes _ _ H i _ (pin_data _ _ _ _ HP)) as ([c sy] & Hf & Hs & Hd).
  cbn in *. unfold holds. rewrite Hf. by rewrite Hs, Hd.
Qed.

Lemma absent_write d p q c : q <> p -> absent d p -> absent (write_file q c d) p.
Proof.
  intros Hq H o. destruct (write_file_spec q c d) as (j & _ & _ & [(_ & _ & Hp)|(_ & _ & _ & Hp)]).
  - intros ?%Hp. auto.
  - intros [?|[-> _]]%Hp; [auto|done].
Qed.

Lemma absent_sub d d' p : absent d p -> (forall q o, poss d' q o -> poss d q o) -> absent d' p.
Proof. intros H Hp o Ho. eauto. Qed.

Lemma absent_rename d p dn x y : p <> (dn, y) -> absent d p -> absent (rename_file dn x y d) p.
Proof. intros Hy H o [Ho|[[-> _]|[_ ->]]]%poss_rename; [auto|done..]. Qed.

Lemma absent_remove d p q : absent d p -> absent (remove_path q d) p.
Proof. intros H o [Ho|[_ ->]]%poss_remove; [auto|done]. Qed.

(** ** Disks where names do not share files

    Only names of the group [G] (a file and the temporary name it is renamed
    from) may denote the same file. *)
Section tidy.
Context (G : path_t -> Prop).

Record tidy (d : Disk) : Prop := {
  tidy_ino p i : poss d p (Some i) -> (i < next_ino d)%nat /\ is_Some (inodes d !! i);
  tidy_share p q i : poss d p (Some i) -> poss d q (Some i) -> p = q \/ (G p /\ G q);
}.

Lemma tidy_write p b d : tidy d -> tidy (write_file p b d).
Proof.
  intros [T1 T2]. destruct (write_file_spec p b d) as (i & Hl & Hi & [(El & En & Hp)|(El & Ei & En & Hp)]).
  - split.
    + intros q j Hq%Hp. rewrite En, Hi. destruct (T1 q j Hq) as [? [f Hf]]. split; [done|].
      destruct (decide (i = j)) as [->|]; [by rewrite lookup_insert_eq|].
      rewrite lookup_insert_ne by done. by eexists.
    + intros q r j Hq%Hp Hr%Hp. by eapply T2.
  - split.
    + intros q j [Hq|[-> [= ->]]]%Hp; rewrite En, Hi.
      * destruct (T1 q j Hq) as [? [f Hf]]. split; [lia|]. rewrite lookup_insert_ne by lia. by eexists.
      * split; [lia|]. by rewrite lookup_insert_eq.
    + intros q r j [Hq|[-> [= ->]]]%Hp [Hr|[-> E]]%Hp; [by eapply T2| | |by left].
      * injection E as ->. destruct (T1 q _ Hq). lia.
      * destruct (T1 r _ Hr). lia.
Qed.

Lemma tidy_sync_file p d : tidy d -> tidy (sync_file p d).
Proof.
  intros [T1 T2]. destruct (sync_file_dirs p d) as [Ed En].
  split; [intros q j Hq|intros q r j Hq Hr]; rewrite (poss_dirs d) in * by done; [|by eapply T2].
  rewrite En, sync_file_inodes. destruct (T1 q j Hq) as [? [f Hf]]. split; [done|].
  rewrite Hf. case_bool_decide; by eexists.
Qed.

Lemma tidy_sub d d' :
  tidy d -> (forall p i, poss d' p (Some i) -> poss d p (Some i)) ->
  next_ino d' = next_ino d -> (forall i, is_Some (inodes d !! i) -> is_Some (inodes d' !! i)) ->
  tidy d'.
Proof.
  intros [T1 T2] Hp En Hi. split.
  - intros p i Hpi. rewrite En. destruct (T1 p i); eauto.
  - intros p q i H1 H2. eapply T2; eauto.
Qed.

Lemma tidy_sync_dir dn d : tidy d -> tidy (sync_dir dn d).
Proof.
  intros T. eapply tidy_sub; [exact T| |done|done].
  intros p i. rewrite poss_sync_dir. intros [[_ ->]|[_ ?]]; [apply poss_current|done].
Qed.

Lemma tidy_crash d d' : tidy d -> crash d d' -> tidy d'.
Proof.
  intros T H. eapply tidy_sub; [exact T|intros; by eapply poss_crash|by apply crash_next|].
  intros i [f Hf]. destruct (crash_inodes _ _ H i f Hf) as (f' & -> & _). by eexists.
Qed.

Lemma tidy_remove p d : tidy d -> tidy (remove_path p d).
Proof.
  intros T. destruct (remove_inodes p d) as [Hi Hn].
  eapply tidy_sub; [exact T|by intros q i [?|[_ ?]]%poss_remove|done|by rewrite Hi].
Qed.

Lemma tidy_rename dn a b d : G (dn, a) -> G (dn, b) -> tidy d -> tidy (rename_file dn a b d).
Proof.
  intros Ga Gb [T1 T2].
  destruct (rename_inodes dn a b d) as [Hi Hn].
  assert (Hp : forall q i, poss (rename_file dn a b d) q (Some i) ->
            poss d q (Some i) \/ (q = (dn, b) /\ poss d (dn, a) (Some i))).
  { intros q i [?|[[-> E]|[_ ?]]]%poss_rename; [by left|right|done]. split; [done|].
    rewrite E. apply poss_current. }
  split.
  - intros q i [H|[_ H]]%Hp; rewrite Hi, Hn; by eapply T1.
  - intros q r i Hq Hr. apply Hp in Hq as [Hq|[-> Hq]]; apply Hp in Hr as [Hr|[-> Hr]].
    + by eapply T2.
    + destruct (T2 _ _ _ Hq Hr) as [->|[? _]]; auto.
    + destruct (T2 _ _ _ Hq Hr) as [<-|[_ ?]]; auto.
    + by left.
Qed.

Lemma tidy_pinned d p i b : tidy d -> ~ G p -> surely d p (Some i) -> holds d i b -> pinned d p i b.
Proof.
  intros T Hg Hs Hh.
  assert (Hi : poss d p (Some i)).
  { pose proof (poss_current d p) as H. by rewrite (Hs _ H) in H. }
  split; [done|done| |by apply (tidy_ino _ T p i)].
  intros q Hq. destruct (tidy_share _ T p q i Hi Hq) as [->|[? _]]; done.
Qed.

(** Writing a file, syncing it, and then its directory, makes it durable. *)
Definition written (d : Disk) (p : path_t) (b : bytes) (synced : bool) : Prop :=
  exists i, lookup_path d p = Some i /\ inodes d !! i = Some {| i_data := b; i_synced := synced |}.

Lemma written_write p b d : written (write_file p b d) p b false.
Proof.
  destruct (write_file_spec p b d) as (i & Hl & Hi & _). exists i. split; [done|].
  by rewrite Hi, lookup_insert_eq.
Qed.

Lemma written_sync p b s d : written d p b s -> written (sync_file p d) p b true.
Proof.
  intros (i & Hl & Hi). exists i. destruct (sync_file_dirs p d) as [Ed _].
  split; [by rewrite (lookup_path_dirs d)|]. by rewrite sync_file_inodes, bool_decide_true, Hi.
Qed.

Lemma written_sync_dir p b d : tidy d -> ~ G p -> written d p b true -> durable (sync_dir p.1 d) p b.
Proof.
  intros T Hg (i & Hl & Hi). exists i. apply tidy_pinned; [by apply tidy_sync_dir|done| |done].
  intros o. rewrite poss_sync_dir. intros [[_ ->]|[? _]]; [done|congruence].
Qed.
End tidy.

(** ** A crash after one more change *)
Definition settled (d : Disk) (dn : string) (m : gmap string nat) : Prop :=
  dir_at d dn = {| dur := m; pend := [] |}.

Lemma crash_change dn c d d' :
  crash (change dn c d) d' ->
  crash d d' \/
  exists d0 m, crash d d0 /\ settled d0 dn m /\ settled d' dn (apply_dent c m) /\
    inodes d' = inodes d0 /\ next_ino d' = next_ino d0 /\
    forall e, e <> dn -> dir_at d' e = dir_at d0 e.
Proof.
  intros [Hd Hi Hn Hm]. pose proof (Hd dn) as (l & Hl & El). unfold change in Hl, El.
  rewrite dir_at_set, bool_decide_true in Hl, El by done. cbn [pend dur] in Hl, El.
  assert (Hother : forall e, e <> dn -> exists l, sublist l (pend (dir_at d e)) /\
            dir_at d' e = {| dur := apply_dents l (dur (dir_at d e)); pend := [] |}).
  { intros e He. specialize (Hd e). unfold change in Hd. by rewrite dir_at_set, bool_decide_false in Hd. }
  apply sublist_app_r in Hl as (l1 & l2 & -> & H1 & H2).
  assert (l2 = [] \/ l2 = [c]) as [-> | ->].
  { destruct l2 as [|x l2]; [by left|right]. pose proof (sublist_length _ _ H2) as Hlen.
    destruct l2; [|cbn in Hlen; lia]. inversion H2 as [|? ? ? H3|? ? ? H3]; subst; [done|].
    by apply sublist_nil_r in H3. }
  - left. split; [|done..]. intros e. destruct (decide (e = dn)) as [->|He]; [|by apply Hother].
    rewrite app_nil_r in El. eauto.
  - right. exists (set_dir dn {| dur := apply_dents l1 (dur (dir_at d dn)); pend := [] |} d'),
      (apply_dents l1 (dur (dir_at d dn))). split.
    { split; [|done..]. intros e. rewrite dir_at_set.
      case_bool_decide as He; [subst; eauto|by apply Hother]. }
    split; [by unfold settled; rewrite dir_at_set, bool_decide_true|].
    rewrite apply_dents_snoc in El. split; [done|]. split; [done|]. split; [done|].
    intros e He. by rewrite dir_at_set, bool_decide_false.
Qed.

Lemma poss_settled d p m o : settled d p.1 m -> (poss d p o <-> m !! p.2 = o).
Proof.
  unfold settled, poss. intros ->. cbn [pend dur]. split.
  - by intros (l & ->%sublist_nil_r & H).
  - intros H. by exists [].
Qed.

Lemma poss_same_dir d d' p o : dir_at d' p.1 = dir_at d p.1 -> (poss d' p o <-> poss d p o).
Proof. unfold poss. by intros ->. Qed.

(** Removing a file and crashing, and crashing and removing it. *)
Lemma crash_remove q d d' :
  crash (remove_path q d) d' ->
  exists d0, crash d d0 /\ inodes d' = inodes d0 /\ next_ino d' = next_ino d0 /\
    forall r o, poss d' r o -> poss d0 r o \/ (r = q /\ o = None).
Proof.
  unfold remove_path. destruct (lookup_path d q); [|intros H; exists d'; naive_solver].
  intros [H|(d0 & m & H & S0 & S1 & Hi & Hn & He)]%crash_change; [exists d'; naive_solver|].
  exists d0. split_and!; [done..|]. intros r o. destruct (decide (r.1 = q.1)) as [E|E].
  - rewrite (poss_settled d' r (base.delete q.2 m)), (poss_settled d0 r m) by (by rewrite E).
    destruct (decide (r.2 = q.2)) as [E2|E2].
    + rewrite E2, lookup_delete_eq. intros <-. right. by destruct r, q; cbn in *; subst.
    + rewrite lookup_delete_ne by done. by left.
  - rewrite (poss_same_dir d0 d') by auto. by left.
Qed.
