(* ===== verification/Sequence.v ===== *)
(** * Sequence numbers

    [src/crates/merutable/src/types/sequence.rs]: the monotone sequence
    number, the operation tag and the atomic [GlobalSeq] counter that hands
    out sequence numbers to writers.  Atomic operations are single steps on
    the counter's value; the compare-exchange loop of [set_at_least] is a
    step relation that interleaves with other threads. *)

From S2P Require Import Prelude.
Local Open Scope Z_scope.

Abbreviation SeqNum := Z.

Inductive OpType : Type := Delete | Put.

#[global] Instance OpType_eq_dec : EqDecision OpType.
Proof. solve_decision. Defined.

(** [op_type as u8] / [op_type as u64]. *)
Definition op_code (op : OpType) : Z :=
  match op with Delete => 0 | Put => 1 end.

(** The inverse match, shared by every decoder of an op byte. *)
Definition op_of_code (z : Z) : option OpType :=
  if z =? 0 then Some Delete else if z =? 1 then Some Put else None.

Definition SEQNUM_MAX : Z := 2 ^ 56 - 1.

(** [SeqNum::next]: [u64] addition (wrapping in release builds). *)
Definition SeqNum_next (s : SeqNum) : SeqNum := wrap 64 (s + 1).

Lemma op_of_code_op_code op : op_of_code (op_code op) = Some op.
Proof. by destruct op. Qed.

Lemma op_code_bound op : 0 <= op_code op <= 1.
Proof. destruct op; simpl; lia. Qed.

Lemma SeqNum_next_small s : 0 <= s < u64_max -> SeqNum_next s = s + 1.
Proof.
  unfold SeqNum_next, wrap, u64_max. intros. apply Z.mod_small. lia.
Qed.

Lemma SEQNUM_MAX_u64 : 0 <= SEQNUM_MAX < u64_max.
Proof. unfold SEQNUM_MAX, u64_max. lia. Qed.

#[export] Hint Resolve op_code_bound op_of_code_op_code : meru.
#[global] Opaque SEQNUM_MAX.

Module GlobalSeq.

(** The value of the [AtomicU64]. *)
Record GlobalSeq : Type := { counter : Z }.

Definition new (initial : Z) : GlobalSeq := {| counter := initial |}.

Definition current (g : GlobalSeq) : SeqNum := counter g.

(** [fetch_add(n)]: returns the old value, the counter wraps at 64 bits. *)
Definition allocate_n (n : Z) (g : GlobalSeq) : SeqNum * GlobalSeq :=
  (counter g, {| counter := wrap 64 (counter g + n) |}).

Definition allocate (g : GlobalSeq) : SeqNum * GlobalSeq :=
  (counter g, {| counter := wrap 64 (counter g + 1) |}).

(** [set_at_least] run without interference: the loop body once. *)
Definition set_at_least (val : Z) (g : GlobalSeq) : GlobalSeq :=
  if val <=? counter g then g else {| counter := val |}.

(** ** The compare-exchange loop under interference

    [Looping cur] is the loop with its local [current]; the weak exchange
    may fail spuriously, and between two steps any other thread may move
    the counter forward. *)
Inductive cas_pc : Type := Looping (cur : Z) | Finished.

Inductive cas_step (val : Z) : Z * cas_pc -> Z * cas_pc -> Prop :=
  | cas_break g cur :
      val <= cur -> cas_step val (g, Looping cur) (g, Finished)
  | cas_exchange_ok g :
      g < val -> cas_step val (g, Looping g) (val, Finished)
  | cas_exchange_fail g cur :
      cur < val -> cas_step val (g, Looping cur) (g, Looping g)
  | cas_interference g g' pc :
      g <= g' -> cas_step val (g, pc) (g', pc).

Definition cas_inv (val g0 : Z) (s : Z * cas_pc) : Prop :=
  g0 <= s.1 /\
  match s.2 with Looping cur => cur <= s.1 | Finished => val <= s.1 end.

Lemma cas_inv_step val g0 s s' :
  cas_inv val g0 s -> cas_step val s s' -> cas_inv val g0 s'.
Proof.
  unfold cas_inv. intros [H1 H2] Hs. destruct Hs; simpl in *; try lia.
  split; [lia|]. destruct pc; lia.
Qed.

(** [allocate_n] sequences, as issued by any interleaving of writers. *)
Fixpoint allocations (ns : list Z) (g : GlobalSeq) : list (Z * Z) * GlobalSeq :=
  match ns with
  | [] => ([], g)
  | n :: ns =>
      let '(b, g1) := allocate_n n g in
      let '(l, g2) := allocations ns g1 in
      ((b, n) :: l, g2)
  end.

Definition disjoint_ranges (r1 r2 : Z * Z) : Prop :=
  r1.1 + r1.2 <= r2.1 \/ r2.1 + r2.2 <= r1.1.

Lemma allocations_lower ns g :
  Forall (fun n => 0 <= n) ns -> 0 <= counter g ->
  counter g + foldr Z.add 0 ns <= u64_max ->
  Forall (fun r => counter g <= r.1 /\ 0 <= r.2) (allocations ns g).1 /\
  counter (allocations ns g).2 = counter g + foldr Z.add 0 ns.
Proof.
  revert g. induction ns as [|n ns IH]; intros g Hn Hg Hb; simpl in *.
  { split; [constructor | lia]. }
  inversion Hn as [|? ? Hn1 Hns]; subst.
  assert (Hs : 0 <= foldr Z.add 0 ns).
  { clear -Hns. induction Hns; simpl; lia. }
  unfold u64_max in *.
  set (g1 := {| counter := wrap 64 (counter g + n) |}).
  assert (Hw : counter g1 = counter g + n).
  { simpl. unfold wrap. apply Z.mod_small. lia. }
  destruct (IH g1 Hns ltac:(lia) ltac:(lia)) as [H1 H2].
  destruct (allocations ns g1) as [l g2] eqn:E. simpl in *.
  split; [|lia]. constructor; [simpl; lia|].
  eapply Forall_impl; [exact H1|]. intros r [? ?]. lia.
Qed.

End GlobalSeq.

(** Every batch of [n] sequence numbers reserved from the shared counter is
    disjoint from every other batch, whatever the order in which writers
    reach it, as long as the 64-bit counter does not overflow. *)
Theorem allocations_disjoint ns g :
  Forall (fun n => 0 <= n) ns -> 0 <= GlobalSeq.counter g ->
  GlobalSeq.counter g + foldr Z.add 0 ns <= u64_max ->
  ForallOrdPairs GlobalSeq.disjoint_ranges (GlobalSeq.allocations ns g).1.
Proof.
  revert g. induction ns as [|n ns IH]; intros g Hn Hg Hb; simpl in *.
  { constructor. }
  inversion Hn as [|? ? Hn1 Hns]; subst.
  assert (Hs : 0 <= foldr Z.add 0 ns).
  { clear -Hns. induction Hns; simpl; lia. }
  unfold u64_max in *.
  set (g1 := {| GlobalSeq.counter := wrap 64 (GlobalSeq.counter g + n) |}).
  assert (Hw : GlobalSeq.counter g1 = GlobalSeq.counter g + n).
  { simpl. unfold wrap. apply Z.mod_small. lia. }
  destruct (GlobalSeq.allocations_lower ns g1 Hns ltac:(lia)
              ltac:(unfold u64_max; lia)) as [H1 _].
  specialize (IH g1 Hns ltac:(lia) ltac:(lia)).
  destruct (GlobalSeq.allocations ns g1) as [l g2] eqn:E. simpl in *.
  constructor; [|exact IH].
  eapply Forall_impl; [exact H1|]. intros r [? ?]. left. simpl. lia.
Qed.

Lemma allocations_disjoint_witness :
  ForallOrdPairs GlobalSeq.disjoint_ranges
    (GlobalSeq.allocations [3; 1; 5] (GlobalSeq.new 10)).1.
Proof.
  apply allocations_disjoint; [repeat constructor; lia| |]; vm_compute; discriminate.
Defined.

(** [set_at_least] racing with any number of other threads never moves the
    counter backwards, and once its loop has finished the counter is at
    least the requested value. *)
Theorem set_at_least_concurrent val g0 g pc :
  rtc (GlobalSeq.cas_step val) (g0, GlobalSeq.Looping g0) (g, pc) ->
  g0 <= g /\ (pc = GlobalSeq.Finished -> val <= g).
Proof.
  intros Hr.
  assert (Hi : GlobalSeq.cas_inv val g0 (g, pc)).
  { remember (g0, GlobalSeq.Looping g0) as s0. remember (g, pc) as s1.
    assert (H0 : GlobalSeq.cas_inv val g0 s0) by (subst; split; simpl; lia).
    clear Heqs0 Heqs1. induction Hr; eauto using GlobalSeq.cas_inv_step. }
  destruct Hi as [H1 H2]. simpl in *. split; [done|]. by intros ->.
Qed.

Lemma set_at_least_concurrent_witness : 4 <= 9 /\ (GlobalSeq.Finished = GlobalSeq.Finished -> 9 <= 9).
Proof.
  apply (set_at_least_concurrent 9 4 9 GlobalSeq.Finished).
  eapply rtc_l; [apply (GlobalSeq.cas_interference 9 4 7); lia|].
  eapply rtc_l; [apply GlobalSeq.cas_exchange_fail; lia|].
  eapply rtc_l; [apply GlobalSeq.cas_exchange_ok; lia|]. apply rtc_refl.
Defined.
