(* ===== verification/Schema.v ===== *)
(** * Schemas, values and rows

    [src/crates/merutable/src/types/schema.rs], [value.rs] and the file
    format stamp of [level.rs]: column types, column and table schemas with
    their validation and field-id assignment, field values and the row
    operations every write goes through. *)

From S2P Require Import Prelude.
Local Open Scope Z_scope.

(** ** Column types and values *)
Inductive ColumnType : Type :=
  | CBoolean
  | CInt32
  | CInt64
  | CFloat
  | CDouble
  | CByteArray
  | CFixedLenByteArray (n : Z).

(** Floats are their IEEE 754 bit patterns ([to_bits]). *)
Inductive FieldValue : Type :=
  | Boolean (b : bool)
  | Int32 (v : Z)
  | Int64 (v : Z)
  | Float (bits : Z)
  | Double (bits : Z)
  | Bytes (b : bytes).

#[global] Instance ColumnType_eq_dec : EqDecision ColumnType.
Proof. solve_decision. Defined.
#[global] Instance FieldValue_eq_dec : EqDecision FieldValue.
Proof. solve_decision. Defined.

(** A value of its Rust type: the integers and bit patterns are in range. *)
Definition FieldValue_wf (v : FieldValue) : Prop :=
  match v with
  | Boolean _ | Bytes _ => True
  | Int32 z => in_i 32 z
  | Int64 z => in_i 64 z
  | Float z => in_u 32 z
  | Double z => in_u 64 z
  end.

Record ColumnDef : Type := {
  name : string;
  col_type : ColumnType;
  nullable : bool;
  field_id : option Z;
  initial_default : option FieldValue;
  write_default : option FieldValue;
}.

Record TableSchema : Type := {
  table_name : string;
  columns : list ColumnDef;
  primary_key : list nat;
  schema_id : Z;
  last_column_id : Z;
}.

(** Encodings of schemas as lists of codes, one per field. *)
#[global] Instance ColumnType_countable : Countable ColumnType.
Proof.
  refine (inj_countable'
    (fun t => match t with
       | CBoolean => inl 0%nat | CInt32 => inl 1%nat | CInt64 => inl 2%nat | CFloat => inl 3%nat
       | CDouble => inl 4%nat | CByteArray => inl 5%nat | CFixedLenByteArray n => inr n end)
    (fun c => match c with
       | inl 0%nat => CBoolean | inl 1%nat => CInt32 | inl 2%nat => CInt64 | inl 3%nat => CFloat
       | inl 4%nat => CDouble | inl _ => CByteArray | inr n => CFixedLenByteArray n end) _).
  by intros [].
Defined.

#[global] Instance FieldValue_countable : Countable FieldValue.
Proof.
  refine (inj_countable'
    (fun v => match v with
       | Boolean b => [1%positive; encode b] | Int32 z => [2%positive; encode z]
       | Int64 z => [3%positive; encode z] | Float z => [4%positive; encode z]
       | Double z => [5%positive; encode z] | Bytes b => [6%positive; encode b] end)
    (fun c => match c with
       | [1%positive; p] => Boolean (default false (decode p))
       | [2%positive; p] => Int32 (default 0 (decode p))
       | [3%positive; p] => Int64 (default 0 (decode p))
       | [4%positive; p] => Float (default 0 (decode p))
       | [5%positive; p] => Double (default 0 (decode p))
       | [_; p] => Bytes (default [] (decode p))
       | _ => Boolean false end) _).
  by intros []; rewrite decode_encode.
Defined.

#[global] Instance ColumnDef_eq_dec : EqDecision ColumnDef.
Proof. solve_decision. Defined.
#[global] Instance ColumnDef_countable : Countable ColumnDef.
Proof.
  refine (inj_countable
    (fun c => [encode (name c); encode (col_type c); encode (nullable c); encode (field_id c);
               encode (initial_default c); encode (write_default c)])
    (fun l => match l with
       | [a; b; c; d; e; f] =>
           a ← decode a; b ← decode b; c ← decode c; d ← decode d; e ← decode e; f ← decode f;
           Some {| name := a; col_type := b; nullable := c; field_id := d;
                   initial_default := e; write_default := f |}
       | _ => None end) _).
  by intros []; rewrite !decode_encode.
Defined.

#[global] Instance TableSchema_eq_dec : EqDecision TableSchema.
Proof. solve_decision. Defined.
#[global] Instance TableSchema_countable : Countable TableSchema.
Proof.
  refine (inj_countable
    (fun s => [encode (table_name s); encode (columns s); encode (primary_key s);
               encode (schema_id s); encode (last_column_id s)])
    (fun l => match l with
       | [a; b; c; d; e] =>
           a ← decode a; b ← decode b; c ← decode c; d ← decode d; e ← decode e;
           Some {| table_name := a; columns := b; primary_key := c; schema_id := d;
                   last_column_id := e |}
       | _ => None end) _).
  by intros []; rewrite !decode_encode.
Defined.

(** [serde_json] on table schemas. *)
Class SchemaJson := {
  schema_to_json : TableSchema -> option string;
  schema_from_json : string -> option TableSchema;
}.

(** Defaults that JSON carries exactly.  A float that is not finite is printed
    as [null], which is not read back as a float, and a finite one is read back
    to within a unit in the last place. *)
Definition json_exact (d : option FieldValue) : bool :=
  match d with Some (Float _ | Double _) => false | _ => true end.

Definition json_schema (s : TableSchema) : Prop :=
  Forall (fun c => json_exact (initial_default c) = true /\ json_exact (write_default c) = true) (columns s).

Class SchemaJsonLaws `{!SchemaJson} := {
  schema_to_json_total s : is_Some (schema_to_json s);
  schema_json_roundtrip s j : json_schema s -> schema_to_json s = Some j -> schema_from_json j = Some s;
}.

(** An instance. *)
#[export] Instance bits_schema_json : SchemaJson := {
  schema_to_json s := Some (string_of_list_byte (bits_of (encode s)));
  schema_from_json j := decode (of_bits (list_byte_of_string j));
}.
#[export] Instance bits_schema_json_laws : SchemaJsonLaws.
Proof.
  split; [by eexists|]. intros s j _ [= <-]. cbn.
  by rewrite list_byte_of_string_of_list_byte, of_bits_of, decode_encode.
Qed.

Definition ColumnDef_default : ColumnDef := {|
  name := ""; col_type := CInt64; nullable := false; field_id := None;
  initial_default := None; write_default := None |}.

(** [n as usize] for the [i32] length of a fixed-length column. *)
Definition fixed_len (n : Z) : Z := wrap 64 n.

(** ** Schema validation *)

(** The loop over [primary_key] with its [seen] set. *)
Fixpoint validate_pk (cols : list ColumnDef) (seen : gset nat) (pk : list nat)
    : res unit :=
  match pk with
  | [] => Ok tt
  | idx :: pk =>
      match cols !! idx with
      | None => Err (InvalidArgument "primary_key index out of bounds")
      | Some c =>
          if bool_decide (idx ∈ seen) then
            Err (InvalidArgument "duplicate primary_key column index")
          else if nullable c then
            Err (InvalidArgument "primary key column must be non-nullable")
          else validate_pk cols ({[idx]} ∪ seen) pk
      end
  end.

(** The loop over [columns] with its [field_ids_seen] set. *)
Fixpoint validate_field_ids (last : Z) (seen : gset Z) (cols : list ColumnDef)
    : res unit :=
  match cols with
  | [] => Ok tt
  | c :: cols =>
      match field_id c with
      | None => validate_field_ids last seen cols
      | Some id =>
          if bool_decide (id ∈ seen) then
            Err (InvalidArgument "duplicate field_id")
          else if last <? id then
            Err (InvalidArgument "field_id exceeds last_column_id")
          else validate_field_ids last ({[id]} ∪ seen) cols
      end
  end.

Definition validate_readonly (s : TableSchema) : res unit :=
  if bool_decide (columns s = []) then
    Err (InvalidArgument "schema must have at least one column")
  else if bool_decide (primary_key s = []) then
    Err (InvalidArgument "primary key must have at least one column")
  else
    _ ← validate_pk (columns s) ∅ (primary_key s);
    validate_field_ids (last_column_id s) ∅ (columns s).

Definition has_field_id (c : ColumnDef) : bool :=
  match field_id c with Some _ => true | None => false end.

Definition with_field_id (id : Z) (c : ColumnDef) : ColumnDef := {|
  name := name c; col_type := col_type c; nullable := nullable c;
  field_id := Some id; initial_default := initial_default c;
  write_default := write_default c |}.

(** The loop of [normalize_field_ids]: the new columns and the final [next_id]. *)
Fixpoint assign_field_ids (next_id : Z) (cols : list ColumnDef)
    : list ColumnDef * Z :=
  match cols with
  | [] => ([], next_id)
  | c :: cols =>
      if has_field_id c then
        let '(l, n) := assign_field_ids next_id cols in (c :: l, n)
      else
        let '(l, n) := assign_field_ids (sat_add 32 next_id 1) cols in
        (with_field_id next_id c :: l, n)
  end.

Definition normalize_field_ids (s : TableSchema) : TableSchema :=
  if forallb has_field_id (columns s) then s
  else
    let '(cols, next_id) :=
      assign_field_ids (sat_add 32 (last_column_id s) 1) (columns s) in
    {| table_name := table_name s; columns := cols;
       primary_key := primary_key s; schema_id := schema_id s;
       last_column_id := sat_sub next_id 1 |}.

(** [validate(&mut self)]: the schema after the call and the result. *)
Definition validate (s : TableSchema) : TableSchema * res unit :=
  let s' := normalize_field_ids s in (s', validate_readonly s').

(** [column_by_name]: first match in column order. *)
Fixpoint column_by_name_from (i : nat) (n : string) (cols : list ColumnDef)
    : option (nat * ColumnDef) :=
  match cols with
  | [] => None
  | c :: cols =>
      if String.eqb (name c) n then Some (i, c)
      else column_by_name_from (S i) n cols
  end.
Definition column_by_name (s : TableSchema) (n : string) :=
  column_by_name_from 0 n (columns s).

Definition pk_len (s : TableSchema) : nat := length (primary_key s).

(** ** Builders *)
Definition ColumnDef_builder (n : string) (t : ColumnType) : ColumnDef := {|
  name := n; col_type := t; nullable := false; field_id := None;
  initial_default := None; write_default := None |}.

Definition TableSchema_builder (n : string) : TableSchema := {|
  table_name := n; columns := []; primary_key := []; schema_id := 0;
  last_column_id := 0 |}.

Definition add_column (c : ColumnDef) (s : TableSchema) : TableSchema := {|
  table_name := table_name s; columns := columns s ++ [c];
  primary_key := primary_key s; schema_id := schema_id s;
  last_column_id := last_column_id s |}.

Definition set_primary_key (pk : list nat) (s : TableSchema) : TableSchema := {|
  table_name := table_name s; columns := columns s; primary_key := pk;
  schema_id := schema_id s; last_column_id := last_column_id s |}.

(** ** Well-formed schemas *)
Definition field_ids (cols : list ColumnDef) : list Z :=
  omap field_id cols.

(** The primary key part of validation as a proposition. *)
Definition pk_ok (s : TableSchema) : Prop :=
  primary_key s <> [] /\ NoDup (primary_key s) /\
  Forall (fun i => exists c, columns s !! i = Some c /\ nullable c = false)
    (primary_key s).

Definition schema_wf (s : TableSchema) : Prop :=
  columns s <> [] /\ pk_ok s /\
  NoDup (field_ids (columns s)) /\
  Forall (fun id => id <= last_column_id s) (field_ids (columns s)).

Lemma validate_pk_Ok cols seen pk :
  validate_pk cols seen pk = Ok tt <->
  NoDup pk /\ Forall (fun i => i ∉ seen) pk /\
  Forall (fun i => exists c, cols !! i = Some c /\ nullable c = false) pk.
Proof.
  revert seen. induction pk as [|i pk IH]; intros seen; simpl.
  { split; [|done]. repeat split; constructor. }
  rewrite NoDup_cons, !Forall_cons.
  destruct (cols !! i) as [c|] eqn:Ei.
  2:{ split; [done|]. by intros (_ & _ & (c & ? & _) & _). }
  case_bool_decide as Hs; [split; [done|]; by intros (_ & [? _] & _)|].
  destruct (nullable c) eqn:En.
  { split; [done|]. intros (_ & _ & (c' & [= <-] & ?) & _). congruence. }
  rewrite IH, !Forall_forall. set_solver.
Qed.

Lemma validate_field_ids_Ok last seen cols :
  validate_field_ids last seen cols = Ok tt <->
  NoDup (field_ids cols) /\ Forall (fun i => i ∉ seen) (field_ids cols) /\
  Forall (fun id => id <= last) (field_ids cols).
Proof.
  revert seen. unfold field_ids.
  induction cols as [|c cols IH]; intros seen; simpl.
  { split; [|done]. repeat split; constructor. }
  destruct (field_id c) as [id|]; simpl; [|apply IH].
  rewrite NoDup_cons, !Forall_cons.
  case_bool_decide; [split; [done|]; by intros (_ & [? _] & _)|].
  destruct (Z.ltb_spec last id); [split; [done|]; intros (_ & _ & ?); decompose_Forall; lia|].
  rewrite IH, !Forall_forall. set_solver.
Qed.

Lemma validate_pk_empty_Ok cols pk :
  validate_pk cols ∅ pk = Ok tt <->
  NoDup pk /\
  Forall (fun i => exists c, cols !! i = Some c /\ nullable c = false) pk.
Proof.
  rewrite validate_pk_Ok. split; [naive_solver|]. intros [H1 H2].
  split; [done|]. split; [|done]. apply Forall_forall. set_solver.
Qed.

Lemma validate_readonly_Ok s : validate_readonly s = Ok tt <-> schema_wf s.
Proof.
  unfold validate_readonly, schema_wf, pk_ok.
  case_bool_decide; [split; [done|]; naive_solver|].
  case_bool_decide; [split; [done|]; naive_solver|].
  pose proof (validate_pk_empty_Ok (columns s) (primary_key s)) as Hpk.
  destruct (validate_pk (columns s) ∅ (primary_key s)) as [[]|e|];
    simpl; [|split; [done|]; intros (_ & (_ & Hok) & _);
             by apply Hpk in Hok..].
  rewrite validate_field_ids_Ok. destruct Hpk as [Hpk _].
  specialize (Hpk eq_refl). split; [naive_solver|].
  intros (_ & _ & H1 & H2). split; [done|]. split; [|done].
  apply Forall_forall. set_solver.
Qed.

Lemma assign_all_ids next cols :
  forallb has_field_id (assign_field_ids next cols).1 = true.
Proof.
  revert next. induction cols as [|c cols IH]; intros next; simpl; [done|].
  destruct (has_field_id c) eqn:E.
  - specialize (IH next). destruct (assign_field_ids next cols). simpl in *.
    by rewrite E.
  - specialize (IH (sat_add 32 next 1)).
    destruct (assign_field_ids (sat_add 32 next 1) cols). done.
Qed.

Lemma normalize_all_ids s :
  forallb has_field_id (columns (normalize_field_ids s)) = true.
Proof.
  unfold normalize_field_ids. destruct (forallb has_field_id (columns s)) eqn:E;
    [done|].
  pose proof (assign_all_ids (sat_add 32 (last_column_id s) 1) (columns s)).
  by destruct (assign_field_ids _ _).
Qed.

Lemma normalize_idem s :
  normalize_field_ids (normalize_field_ids s) = normalize_field_ids s.
Proof.
  unfold normalize_field_ids at 1. by rewrite normalize_all_ids.
Qed.

(** The fresh ids are [last+1, last+2, ...] when they fit in 32 bits. *)
Lemma assign_field_ids_spec next cols :
  0 <= next ->
  next + Z.of_nat (length (List.filter (fun c => negb (has_field_id c)) cols)) <= u32_max ->
  (assign_field_ids next cols).2 =
    next + Z.of_nat (length (List.filter (fun c => negb (has_field_id c)) cols)) /\
  forall id, id ∈ field_ids (assign_field_ids next cols).1 ->
    id ∈ field_ids cols \/ next <= id < (assign_field_ids next cols).2.
Proof.
  revert next. induction cols as [|c cols IH]; intros next Hn Hb; simpl in *.
  { split; [lia|]. by intros id ?%not_elem_of_nil. }
  unfold field_ids in *. destruct (has_field_id c) eqn:E; simpl in *.
  - destruct (IH next Hn Hb) as [H1 H2].
    destruct (assign_field_ids next cols) as [l n]. simpl in *.
    split; [done|]. intros id.
    unfold has_field_id in E. destruct (field_id c); [|done]. set_solver.
  - assert (Hs : sat_add 32 next 1 = next + 1).
    { unfold sat_add, u32_max in *. lia. }
    rewrite Hs. destruct (IH (next + 1)) as [H1 H2]; [lia|lia|].
    destruct (assign_field_ids (next + 1) cols) as [l n]. simpl in *.
    split; [lia|]. intros id Hid.
    apply elem_of_cons in Hid as [->|Hid]; [right; lia|].
    destruct (H2 id Hid) as [?|?]; [left|right; lia].
    unfold has_field_id in E. by destruct (field_id c).
Qed.

(** ** Rows *)
Record Row : Type := { fields : list (option FieldValue) }.

Definition Row_default : Row := {| fields := [] |}.

(** [Row::get]: [None] for a NULL field and for an index out of range. *)
Definition Row_get (r : Row) (col_idx : nat) : option FieldValue :=
  mjoin (fields r !! col_idx).

Fixpoint pk_values (r : Row) (primary_key : list nat) : res (list FieldValue) :=
  match primary_key with
  | [] => Ok []
  | idx :: pk =>
      v ← ok_or (Row_get r idx) (InvalidArgument "PK column is NULL");
      vs ← pk_values r pk;
      Ok (v :: vs)
  end.

(** Whether a value's variant fits a column type (the [matches!] of
    [Row::validate]). *)
Definition type_matches (v : FieldValue) (t : ColumnType) : bool :=
  match v, t with
  | Boolean _, CBoolean | Int32 _, CInt32 | Int64 _, CInt64
  | Float _, CFloat | Double _, CDouble
  | Bytes _, CByteArray | Bytes _, CFixedLenByteArray _ => true
  | _, _ => false
  end.

Definition fixed_len_matches (v : FieldValue) (t : ColumnType) : bool :=
  match v, t with
  | Bytes b, CFixedLenByteArray n => Z.of_nat (length b) =? fixed_len n
  | _, _ => true
  end.

(** The per-column checks of [Row::validate], over the zip of fields and
    columns (which stops at the shorter list). *)
Fixpoint validate_fields (fs : list (option FieldValue)) (cols : list ColumnDef)
    : res unit :=
  match fs, cols with
  | f :: fs, c :: cols =>
      match f with
      | None =>
          if negb (nullable c) then
            Err (SchemaMismatch "column is NOT NULL but row field is None")
          else validate_fields fs cols
      | Some v =>
          if negb (type_matches v (col_type c)) then
            Err (SchemaMismatch "field value type incompatible with column type")
          else if negb (fixed_len_matches v (col_type c)) then
            Err (SchemaMismatch "FixedLenByteArray length mismatch")
          else validate_fields fs cols
      end
  | _, _ => Ok tt
  end.

Definition Row_validate (r : Row) (s : TableSchema) : res unit :=
  if negb (Nat.eqb (length (fields r)) (length (columns s))) then
    Err (SchemaMismatch "row arity mismatch")
  else validate_fields (fields r) (columns s).

(** The loop of [pad_with_defaults] over the missing tail columns: the fields
    pushed so far and the result.  On an error the earlier pushes remain. *)
Definition default_fill (c : ColumnDef) : option FieldValue :=
  match write_default c with
  | Some v => Some v
  | None => initial_default c
  end.

Fixpoint pad_loop (fs : list (option FieldValue)) (missing : list ColumnDef)
    : list (option FieldValue) * res unit :=
  match missing with
  | [] => (fs, Ok tt)
  | c :: missing =>
      let fill := default_fill c in
      if bool_decide (fill = None) && negb (nullable c) then
        (fs, Err (SchemaMismatch "row omits NOT NULL column without default"))
      else pad_loop (fs ++ [fill]) missing
  end.

(** [pad_with_defaults(&mut self)]: the row after the call and the result. *)
Definition pad_with_defaults (r : Row) (s : TableSchema) : Row * res unit :=
  if Nat.leb (length (columns s)) (length (fields r)) then (r, Ok tt)
  else
    let '(fs, o) := pad_loop (fields r) (drop (length (fields r)) (columns s)) in
    ({| fields := fs |}, o).

(** One field against one column: what validation accepts. *)
Definition field_ok (f : option FieldValue) (c : ColumnDef) : Prop :=
  match f with
  | None => nullable c = true
  | Some v => type_matches v (col_type c) = true /\
              fixed_len_matches v (col_type c) = true
  end.

(** Columns whose declared defaults fit the column. *)
Definition defaults_ok (c : ColumnDef) : Prop :=
  match default_fill c with None => True | Some v => field_ok (Some v) c end.

Lemma validate_fields_Ok fs cols :
  length fs = length cols ->
  validate_fields fs cols = Ok tt <-> Forall2 field_ok fs cols.
Proof.
  revert cols. induction fs as [|f fs IH]; intros [|c cols] Hl; try done.
  injection Hl as Hl. specialize (IH cols Hl). simpl.
  rewrite Forall2_cons. destruct f as [v|]; simpl.
  - destruct (type_matches v (col_type c)), (fixed_len_matches v (col_type c));
      simpl; naive_solver.
  - destruct (nullable c); simpl; naive_solver.
Qed.

Lemma Row_validate_Ok r s :
  Row_validate r s = Ok tt <-> Forall2 field_ok (fields r) (columns s).
Proof.
  unfold Row_validate. destruct (Nat.eqb_spec (length (fields r)) (length (columns s))).
  - simpl. by apply validate_fields_Ok.
  - simpl. split; [done|]. intros H%Forall2_length. done.
Qed.

Lemma validate_fields_no_panic fs cols : validate_fields fs cols <> Panic.
Proof.
  revert cols. induction fs as [|[v|] fs IH]; intros [|c cols]; simpl; try done.
  - by repeat case_res.
  - by case_res.
Qed.

Lemma pad_loop_Ok fs missing fs' :
  pad_loop fs missing = (fs', Ok tt) -> fs' = fs ++ map default_fill missing.
Proof.
  revert fs. induction missing as [|c m IH]; intros fs; simpl.
  { intros [= <-]. by rewrite app_nil_r. }
  case_res; [done|]. intros ->%IH. by rewrite <- app_assoc.
Qed.

Lemma pad_loop_total fs missing :
  Forall (fun c => default_fill c <> None \/ nullable c = true) missing ->
  pad_loop fs missing = (fs ++ map default_fill missing, Ok tt).
Proof.
  intros H. revert fs. induction H as [|c m Hc Hm IH]; intros fs; simpl.
  { by rewrite app_nil_r. }
  case_bool_decide as Hf; destruct (nullable c) eqn:En; simpl; try naive_solver;
    by rewrite IH, <- app_assoc.
Qed.

Lemma field_ok_default c :
  defaults_ok c -> default_fill c <> None \/ nullable c = true ->
  field_ok (default_fill c) c.
Proof. unfold defaults_ok. destruct (default_fill c); naive_solver. Qed.

Lemma pk_values_Ok r s :
  pk_ok s -> Forall2 field_ok (fields r) (columns s) ->
  exists vs, pk_values r (primary_key s) = Ok vs /\
    Forall2 (fun v i => exists c, columns s !! i = Some c /\
               Row_get r i = Some v /\ field_ok (Some v) c) vs (primary_key s).
Proof.
  intros (_ & _ & Hpk) Hf. induction Hpk as [|i pk (c & Hc & Hn) _ IH]; simpl.
  { eexists. split; [done|constructor]. }
  destruct IH as (vs & Hvs & Hall).
  destruct (Forall2_lookup_r _ _ _ _ _ Hf Hc) as (f & Hf1 & Hf2).
  unfold Row_get at 1. rewrite Hf1. simpl. destruct f as [v|]; simpl in *.
  - rewrite Hvs. simpl. eexists. split; [done|]. constructor; [|done].
    exists c. split; [done|]. split; [|done]. unfold Row_get. by rewrite Hf1.
  - congruence.
Qed.

(** ** Levels and file formats ([types/level.rs]) *)
Inductive FileFormat : Type := Columnar | Dual.

#[global] Instance FileFormat_eq_dec : EqDecision FileFormat.
Proof. solve_decision. Defined.

Definition default_for_level (level : Z) : FileFormat :=
  if level =? 0 then Dual else Columnar.

Definition has_value_blob (f : FileFormat) : bool :=
  match f with Dual => true | Columnar => false end.

(** [Level::next] on the [u8]. *)
Definition Level_next (l : Z) : Z := wrap 8 (l + 1).

(** ** Properties *)

(** [TableSchema::validate] accepts exactly the well-formed schemas: after the
    call every column has a field id, and the result is [Ok] if and only if the
    normalised schema has columns, a non-empty duplicate-free primary key of
    existing non-nullable columns, and distinct field ids not above
    [last_column_id].  A second call changes nothing. *)
Theorem validate_characterised s :
  let s' := (validate s).1 in
  ((validate s).2 = Ok tt <-> schema_wf s') /\
  forallb has_field_id (columns s') = true /\
  validate s' = (s', (validate s).2).
Proof.
  simpl. split; [apply validate_readonly_Ok|]. split; [apply normalize_all_ids|].
  unfold validate. by rewrite normalize_idem.
Qed.

(** A row written under an older, shorter schema is padded to a valid row: if
    the fields it has fit their columns and every missing column has a fitting
    default or is nullable, [pad_with_defaults] succeeds and [validate] then
    accepts the padded row, whose given fields are unchanged. *)
Theorem pad_then_validate r s :
  Forall2 field_ok (fields r) (take (length (fields r)) (columns s)) ->
  Forall (fun c => defaults_ok c /\ (default_fill c <> None \/ nullable c = true))
    (drop (length (fields r)) (columns s)) ->
  let '(r', o) := pad_with_defaults r s in
  o = Ok tt /\ Row_validate r' s = Ok tt /\
  take (length (fields r)) (fields r') = fields r.
Proof.
  intros Hf Hd. unfold pad_with_defaults.
  destruct (Nat.leb_spec (length (columns s)) (length (fields r))) as [Hle|Hlt].
  - split; [done|]. rewrite Row_validate_Ok. rewrite take_ge in Hf by done.
    split; [done|]. by rewrite take_ge.
  - rewrite pad_loop_total by (eapply Forall_impl; [exact Hd|]; naive_solver).
    split; [done|]. rewrite Row_validate_Ok. simpl. split; [|apply take_app_length].
    rewrite <- (take_drop (length (fields r)) (columns s)) at 2.
    apply Forall2_app; [done|]. induction Hd as [|c m [H1 H2] _ IH]; constructor;
      auto using field_ok_default.
Qed.

Lemma pad_then_validate_witness :
  let c1 := ColumnDef_builder "id" CInt64 in
  let c2 := {| name := "note"; col_type := CBoolean; nullable := true; field_id := Some 2;
               initial_default := None; write_default := Some (Boolean true) |} in
  let s := add_column c2 (add_column c1 (TableSchema_builder "t")) in
  let '(r', o) := pad_with_defaults {| fields := [Some (Int64 7)] |} s in
  o = Ok tt /\ Row_validate r' s = Ok tt /\ take 1 (fields r') = [Some (Int64 7)].
Proof.
  intros c1 c2 s. apply (pad_then_validate {| fields := [Some (Int64 7)] |} s).
  - repeat constructor.
  - constructor; [|constructor]. split; [split; reflexivity|left; discriminate].
Defined.
