(* ===== verification/Key.v ===== *)
(** * Internal keys

    [src/crates/merutable/src/types/key.rs]: the order-preserving encoding of
    primary keys, the sequence/operation tag and the decoder.  The theorems
    show that memcmp on encoded keys is the order of the primary key values,
    newest sequence number first, that no user key is a proper prefix of
    another, and when decoding inverts encoding. *)

From S2P Require Import Prelude Sequence Schema.
From Stdlib Require SpecFloat.
Local Open Scope Z_scope.

(** ** Encoding *)

(** [escape_byte_array]: [0x00] becomes [0x00 0xFF], terminator [0x00 0x00]. *)
Fixpoint escape_byte_array (bs : bytes) : bytes :=
  match bs with
  | [] => [b0; b0]
  | b :: bs =>
      if bool_decide (b = b0) then b0 :: bFF :: escape_byte_array bs
      else b :: escape_byte_array bs
  end.

(** [f32::is_nan] / [f64::is_nan] on the bit pattern. *)
Definition is_nan32 (bits : Z) : bool := 0x7f800000 <? Z.land bits 0x7fffffff.
Definition is_nan64 (bits : Z) : bool :=
  0x7ff0000000000000 <? Z.land bits 0x7fffffffffffffff.

Definition order_preserving_f32 (bits : Z) : bytes :=
  be_split 4 (if Z.shiftr bits 31 =? 1 then Z.lxor bits u32_max
              else Z.lxor bits 0x80000000).

Definition order_preserving_f64 (bits : Z) : bytes :=
  be_split 8 (if Z.shiftr bits 63 =? 1 then Z.lxor bits u64_max
              else Z.lxor bits 0x8000000000000000).

(** The bytes [encode_field] appends to the buffer. *)
Definition encode_field (val : FieldValue) (t : ColumnType) : res bytes :=
  match val, t with
  | Boolean b, CBoolean => Ok [if b then Byte.x01 else b0]
  | Int32 v, CInt32 => Ok (be_split 4 (Z.lxor (wrap 32 v) 0x80000000))
  | Int64 v, CInt64 => Ok (be_split 8 (Z.lxor (wrap 64 v) 0x8000000000000000))
  | Float v, CFloat =>
      if is_nan32 v then
        Err (InvalidArgument "NaN is not allowed in primary key columns (Float)")
      else Ok (order_preserving_f32 v)
  | Double v, CDouble =>
      if is_nan64 v then
        Err (InvalidArgument "NaN is not allowed in primary key columns (Double)")
      else Ok (order_preserving_f64 v)
  | Bytes b, CFixedLenByteArray n =>
      if negb (Z.of_nat (length b) =? fixed_len n) then
        Err (SchemaMismatch "FixedLenByteArray: wrong number of bytes")
      else Ok b
  | Bytes b, CByteArray => Ok (escape_byte_array b)
  | _, _ => Err (SchemaMismatch "field value type mismatch with column type")
  end.

(** The loop over the zip of values and primary key columns. *)
Fixpoint encode_fields (values : list FieldValue) (cols : list ColumnDef)
    (pk : list nat) : res bytes :=
  match values, pk with
  | v :: values, i :: pk =>
      c ← index cols i;
      b ← encode_field v (col_type c);
      rest ← encode_fields values cols pk;
      Ok (b ++ rest)
  | _, _ => Ok []
  end.

Definition encode_pk_fields (values : list FieldValue) (s : TableSchema) : res bytes :=
  if negb (Nat.eqb (length values) (length (primary_key s))) then
    Err (InvalidArgument "expected {} PK values, got {}")
  else encode_fields values (columns s) (primary_key s).

(** The 64-bit tag word and its big-endian bytes. *)
Definition tag_word (seq : SeqNum) (op : OpType) : Z :=
  Z.lor (wrap 64 (Z.shiftl (SEQNUM_MAX - seq) 8)) (op_code op).

Definition encode_tag (seq : SeqNum) (op : OpType) : res bytes :=
  if SEQNUM_MAX <? seq then
    Err (InvalidArgument "sequence number {} exceeds SEQNUM_MAX ({})")
  else Ok (be_split 8 (tag_word seq op)).

(** [pk_vals] is the Rust field [pk_values]. *)
Record InternalKey : Type := {
  encoded : bytes;
  seq : SeqNum;
  op_type : OpType;
  pk_vals : list FieldValue;
}.

Definition encode (pk : list FieldValue) (sq : SeqNum) (op : OpType)
    (s : TableSchema) : res InternalKey :=
  b ← encode_pk_fields pk s;
  t ← encode_tag sq op;
  Ok {| encoded := b ++ t; seq := sq; op_type := op; pk_vals := pk |}.

Definition seek_latest (pk : list FieldValue) (s : TableSchema) : res InternalKey :=
  encode pk SEQNUM_MAX Put s.

Definition encode_user_key (pk : list FieldValue) (s : TableSchema) : res bytes :=
  encode_pk_fields pk s.

(** [&encoded\[..len - 8\]]. *)
Definition user_key_bytes (k : InternalKey) : bytes :=
  take (length (encoded k) - 8) (encoded k).

(** [Ord for InternalKey]. *)
Definition InternalKey_cmp (a b : InternalKey) : comparison :=
  bytes_cmp (encoded a) (encoded b).

(** ** Decoding *)
Definition ensure_len (bs : bytes) (required : Z) (field : string) : res unit :=
  if Z.of_nat (length bs) <? required then
    Err (Corruption (String.append "truncated field: " field))
  else Ok tt.

(** [unescape_byte_array]: [i] counts consumed bytes, [result] accumulates. *)
Fixpoint unescape_loop (bs result : bytes) (i : nat) : res (bytes * nat) :=
  match bs with
  | [] => Err (Corruption "unterminated escaped byte array")
  | x :: bs =>
      if bool_decide (x = b0) then
        match bs with
        | [] => Err (Corruption "truncated escape/terminator sequence")
        | y :: bs' =>
            if bool_decide (y = bFF) then unescape_loop bs' (result ++ [b0]) (i + 2)
            else if bool_decide (y = b0) then Ok (result, (i + 2)%nat)
            else Err (Corruption "invalid byte sequence 0x00 followed by another byte")
        end
      else unescape_loop bs (result ++ [x]) (i + 1)
  end.

Definition unescape_byte_array (bs : bytes) : res (bytes * nat) :=
  unescape_loop bs [] 0.

Definition decode_field (bs : bytes) (t : ColumnType) : res (FieldValue * nat) :=
  match t with
  | CBoolean =>
      _ ← ensure_len bs 1 "boolean";
      b ← index bs 0;
      Ok (Boolean (negb (bool_decide (b = b0))), 1%nat)
  | CInt32 =>
      _ ← ensure_len bs 4 "int32";
      let u := Z.lxor (be_combine (take 4 bs)) 0x80000000 in
      Ok (Int32 (to_signed 32 u), 4%nat)
  | CInt64 =>
      _ ← ensure_len bs 8 "int64";
      let u := Z.lxor (be_combine (take 8 bs)) 0x8000000000000000 in
      Ok (Int64 (to_signed 64 u), 8%nat)
  | CFloat =>
      _ ← ensure_len bs 4 "float";
      let bits := be_combine (take 4 bs) in
      let orig := if Z.shiftr bits 31 =? 0 then Z.lxor bits 0x80000000
                  else Z.lxor bits u32_max in
      Ok (Float orig, 4%nat)
  | CDouble =>
      _ ← ensure_len bs 8 "double";
      let bits := be_combine (take 8 bs) in
      let orig := if Z.shiftr bits 63 =? 0 then Z.lxor bits 0x8000000000000000
                  else Z.lxor bits u64_max in
      Ok (Double orig, 8%nat)
  | CFixedLenByteArray n =>
      _ ← ensure_len bs (fixed_len n) "fixed-len byte array";
      Ok (Bytes (take (Z.to_nat (fixed_len n)) bs), Z.to_nat (fixed_len n))
  | CByteArray =>
      '(v, consumed) ← unescape_byte_array bs;
      Ok (Bytes v, consumed)
  end.

(** The loop of [decode_pk_fields] with its position. *)
Fixpoint decode_fields (pk_bytes : bytes) (cols : list ColumnDef)
    (pk : list nat) (pos : nat) : res (list FieldValue * nat) :=
  match pk with
  | [] => Ok ([], pos)
  | i :: pk =>
      c ← index cols i;
      if Nat.ltb (length pk_bytes) pos then Panic
      else
        '(v, consumed) ← decode_field (drop pos pk_bytes) (col_type c);
        '(vs, pos') ← decode_fields pk_bytes cols pk (pos + consumed);
        Ok (v :: vs, pos')
  end.

Definition decode_pk_fields (pk_bytes : bytes) (s : TableSchema)
    : res (list FieldValue) :=
  '(values, pos) ← decode_fields pk_bytes (columns s) (primary_key s) 0;
  if negb (Nat.eqb pos (length pk_bytes)) then
    Err (Corruption "leftover bytes after decoding all PK fields")
  else Ok values.

Definition decode (raw : bytes) (s : TableSchema) : res InternalKey :=
  if Nat.ltb (length raw) 8 then Err (Corruption "internal key too short")
  else
    let pk_bytes := take (length raw - 8) raw in
    let tag := be_combine (drop (length raw - 8) raw) in
    let inverted_seq := Z.shiftr tag 8 in
    let op_byte := Z.land tag 0xFF in
    if SEQNUM_MAX <? inverted_seq then
      Err (Corruption "inverted_seq {} exceeds SEQNUM_MAX ({})")
    else
      op ← ok_or (op_of_code op_byte) (Corruption "unknown op_type");
      vals ← decode_pk_fields pk_bytes s;
      Ok {| encoded := raw; seq := SEQNUM_MAX - inverted_seq; op_type := op;
            pk_vals := vals |}.

(** ** The order of primary key values *)

(** The sign-magnitude order of a float's bit pattern: negative patterns
    descend below [-1], so that [-0.0] sorts just below [+0.0]. *)
Definition float_ord (w bits : Z) : Z :=
  if bits <? 2 ^ (w - 1) then bits else 2 ^ (w - 1) - 1 - bits.

Definition bool_cmp (a b : bool) : comparison :=
  match a, b with
  | false, true => Lt | true, false => Gt | _, _ => Eq
  end.

Definition field_cmp (a b : FieldValue) : comparison :=
  match a, b with
  | Boolean x, Boolean y => bool_cmp x y
  | Int32 x, Int32 y | Int64 x, Int64 y => Z.compare x y
  | Float x, Float y => Z.compare (float_ord 32 x) (float_ord 32 y)
  | Double x, Double y => Z.compare (float_ord 64 x) (float_ord 64 y)
  | Bytes x, Bytes y => bytes_cmp x y
  | _, _ => Eq
  end.

(** Composite keys compare column by column. *)
Fixpoint pk_cmp (a b : list FieldValue) : comparison :=
  match a, b with
  | x :: a, y :: b => cmp_then (field_cmp x y) (pk_cmp a b)
  | _, _ => Eq
  end.

Definition is_float_type (t : ColumnType) : bool :=
  match t with CFloat | CDouble => true | _ => false end.

(** No primary key column is a float. *)
Definition no_float_pk (s : TableSchema) : Prop :=
  Forall (fun i => exists c, columns s !! i = Some c /\
                     is_float_type (col_type c) = false) (primary_key s).

(** ** Bit lemmas *)
Lemma lxor_sign k u :
  0 <= k -> 0 <= u < 2 ^ (k + 1) ->
  Z.lxor u (2 ^ k) = if u <? 2 ^ k then u + 2 ^ k else u - 2 ^ k.
Proof.
  intros Hk Hu.
  assert (Hlow : forall x, 0 <= x < 2 ^ k -> Z.lxor x (2 ^ k) = x + 2 ^ k).
  { intros x Hx. symmetry. apply Z.add_nocarry_lxor. apply Z.bits_inj'.
    intros n Hn. rewrite Z.land_spec, Z.bits_0, Z.pow2_bits_eqb by lia.
    destruct (Z.eqb_spec k n) as [<-|]; [|by rewrite andb_false_r].
    rewrite <- (Z.mod_small x (2 ^ k)), Z.mod_pow2_bits_high by lia. done. }
  destruct (Z.ltb_spec u (2 ^ k)) as [H|H]; [apply Hlow; lia|].
  rewrite Z.pow_add_r in Hu by lia.
  replace u with ((u - 2 ^ k) + 2 ^ k) at 1 by lia.
  rewrite <- Hlow by lia.
  by rewrite Z.lxor_assoc, Z.lxor_nilpotent, Z.lxor_0_r.
Qed.

Lemma lxor_ones_sub w u : 0 <= w -> 0 <= u < 2 ^ w -> Z.lxor u (2 ^ w - 1) = 2 ^ w - 1 - u.
Proof.
  intros Hw Hu. rewrite <- (Z.mod_small u (2 ^ w)) at 1 by done.
  replace (2 ^ w - 1) with (Z.ones w) by (rewrite Z.ones_equiv; lia).
  rewrite Z.sub_nocarry_ldiff.
  2:{ apply Z.bits_inj'. intros n Hn.
      rewrite Z.ldiff_spec, Z.bits_0, <- (Z.mod_small u (2 ^ w)) by done.
      destruct (decide (n < w)).
      - rewrite Z.ones_spec_low by lia. by rewrite andb_false_r.
      - by rewrite Z.mod_pow2_bits_high by lia. }
  apply Z.bits_inj'. intros n Hn. rewrite Z.lxor_spec, Z.ldiff_spec.
  destruct (decide (n < w)).
  - rewrite Z.ones_spec_low, Z.mod_pow2_bits_low by lia.
    by destruct (Z.testbit u n).
  - rewrite Z.ones_spec_high, Z.mod_pow2_bits_high by lia. done.
Qed.

Lemma shiftr_top k u :
  0 <= k -> 0 <= u < 2 ^ (k + 1) -> Z.shiftr u k = if u <? 2 ^ k then 0 else 1.
Proof.
  intros Hk Hu. rewrite Z.pow_add_r in Hu by lia. rewrite Z.shiftr_div_pow2 by lia.
  destruct (Z.ltb_spec u (2 ^ k)); [apply Z.div_small; lia|].
  symmetry. apply (Z.div_unique _ _ _ (u - 2 ^ k)); lia.
Qed.

Lemma wrap_signed w z : 0 < w -> in_i w z -> wrap w z = if z <? 0 then z + 2 ^ w else z.
Proof.
  intros Hw [H1 H2]. unfold wrap.
  assert (Hp : 2 ^ w = 2 * 2 ^ (w - 1)).
  { rewrite <- Z.pow_succ_r by lia. f_equal. lia. }
  destruct (Z.ltb_spec z 0); [|apply Z.mod_small; lia].
  symmetry. apply (Z.mod_unique _ _ (-1)); lia.
Qed.

(** The encoded integer of each fixed-width column type. *)
Lemma flip32 v : in_i 32 v -> Z.lxor (wrap 32 v) 0x80000000 = v + 2 ^ 31.
Proof.
  intros H. change 0x80000000 with (2 ^ 31). rewrite wrap_signed by done.
  unfold in_i in H. rewrite (lxor_sign 31) by (repeat case_res; lia).
  repeat case_res; lia.
Qed.

Lemma flip64 v : in_i 64 v -> Z.lxor (wrap 64 v) 0x8000000000000000 = v + 2 ^ 63.
Proof.
  intros H. change 0x8000000000000000 with (2 ^ 63). rewrite wrap_signed by done.
  unfold in_i in H. rewrite (lxor_sign 63) by (repeat case_res; lia).
  repeat case_res; lia.
Qed.

Lemma float_flip k bits :
  0 <= k -> in_u (k + 1) bits ->
  (if Z.shiftr bits k =? 1 then Z.lxor bits (2 ^ (k + 1) - 1)
   else Z.lxor bits (2 ^ k)) = float_ord (k + 1) bits + 2 ^ k.
Proof.
  unfold in_u. intros Hk H. rewrite shiftr_top by done. unfold float_ord.
  replace (k + 1 - 1) with k by lia.
  pose proof (Z.pow_add_r 2 k 1 ltac:(lia) ltac:(lia)) as Hp.
  destruct (Z.ltb_spec bits (2 ^ k)); simpl.
  - rewrite lxor_sign by done. case_res; lia.
  - rewrite lxor_ones_sub by lia. lia.
Qed.

Lemma float_ord_range k bits :
  0 <= k -> in_u (k + 1) bits -> 0 <= float_ord (k + 1) bits + 2 ^ k < 2 ^ (k + 1).
Proof.
  unfold in_u, float_ord. intros Hk H. replace (k + 1 - 1) with k by lia.
  pose proof (Z.pow_add_r 2 k 1 ltac:(lia) ltac:(lia)) as Hp. case_res; lia.
Qed.

Lemma order_preserving_f32_eq bits :
  in_u 32 bits -> order_preserving_f32 bits = be_split 4 (float_ord 32 bits + 2 ^ 31).
Proof.
  intros H. unfold order_preserving_f32. f_equal.
  apply (float_flip 31 bits ltac:(lia) H).
Qed.

Lemma order_preserving_f64_eq bits :
  in_u 64 bits -> order_preserving_f64 bits = be_split 8 (float_ord 64 bits + 2 ^ 63).
Proof.
  intros H. unfold order_preserving_f64. f_equal.
  apply (float_flip 63 bits ltac:(lia) H).
Qed.

(** ** Order preservation *)
Lemma cmp_then_assoc a b c : cmp_then (cmp_then a b) c = cmp_then a (cmp_then b c).
Proof. by destruct a. Qed.

(** A big-endian block followed by a tail: the integers decide first. *)
Lemma be_block_cmp n x y t u :
  0 <= x < 2 ^ (Z.of_nat n * 8) -> 0 <= y < 2 ^ (Z.of_nat n * 8) ->
  bytes_cmp (be_split n x ++ t) (be_split n y ++ u)
  = cmp_then (Z.compare x y) (bytes_cmp t u).
Proof.
  intros Hx Hy. rewrite bytes_cmp_app_len by (by rewrite !be_split_length).
  by rewrite bytes_cmp_be_split.
Qed.

Lemma compare_add_r x y p : Z.compare (x + p) (y + p) = Z.compare x y.
Proof. rewrite !(Z.add_comm _ p). apply Zcompare_plus_compat. Qed.

Lemma byte_compare_b0_l y : y <> b0 -> byte.compare b0 y = Lt.
Proof.
  intros Hy. apply Z.compare_lt_iff. change (byte.unsigned b0) with 0.
  pose proof (byte.unsigned_range y).
  assert (byte.unsigned y <> byte.unsigned b0) by (by intros ?%byte.unsigned_inj).
  change (byte.unsigned b0) with 0 in *. lia.
Qed.

Lemma byte_compare_b0_r x : x <> b0 -> byte.compare x b0 = Gt.
Proof. intros Hx. by rewrite byte_compare_antisym, byte_compare_b0_l. Qed.

Lemma escape_cmp x y t u :
  bytes_cmp (escape_byte_array x ++ t) (escape_byte_array y ++ u)
  = cmp_then (bytes_cmp x y) (bytes_cmp t u).
Proof.
  revert y. induction x as [|a x IH]; intros [|b y]; simpl; try done.
  - case_bool_decide; simpl; [done|]. by rewrite byte_compare_b0_l.
  - case_bool_decide; simpl; [done|]. by rewrite byte_compare_b0_r.
  - repeat case_bool_decide; subst; simpl.
    + apply IH.
    + by rewrite byte_compare_b0_l.
    + by rewrite byte_compare_b0_r.
    + destruct (byte.compare a b); simpl; auto.
Qed.

(** Encoded fields compare like the values, whatever follows them; in
    particular an encoded field is never a proper prefix of another. *)
#[global] Arguments Z.lxor : simpl never.
#[global] Arguments Z.shiftr : simpl never.

Lemma encode_field_cmp v1 v2 t b1 b2 t1 t2 :
  FieldValue_wf v1 -> FieldValue_wf v2 ->
  encode_field v1 t = Ok b1 -> encode_field v2 t = Ok b2 ->
  bytes_cmp (b1 ++ t1) (b2 ++ t2) = cmp_then (field_cmp v1 v2) (bytes_cmp t1 t2).
Proof.
  intros W1 W2 H1 H2.
  destruct t, v1, v2; simpl in H1, H2; try discriminate H1; try discriminate H2;
    repeat case_res; simplify_eq; simpl in W1, W2; simpl field_cmp;
    try reflexivity.
  - rewrite !flip32 by done. unfold in_i in *.
    rewrite be_block_cmp by lia. by rewrite compare_add_r.
  - rewrite !flip64 by done. unfold in_i in *.
    rewrite be_block_cmp by lia. by rewrite compare_add_r.
  - rewrite !order_preserving_f32_eq by done.
    rewrite be_block_cmp by (by apply (float_ord_range 31)).
    by rewrite compare_add_r.
  - rewrite !order_preserving_f64_eq by done.
    rewrite be_block_cmp by (by apply (float_ord_range 63)).
    by rewrite compare_add_r.
  - apply escape_cmp.
  - apply bytes_cmp_app_len. rewrite negb_false_iff, Z.eqb_eq in *. lia.
Qed.

Lemma encode_fields_cmp vs1 vs2 cols pk b1 b2 t1 t2 :
  Forall FieldValue_wf vs1 -> Forall FieldValue_wf vs2 ->
  length vs1 = length pk -> length vs2 = length pk ->
  encode_fields vs1 cols pk = Ok b1 -> encode_fields vs2 cols pk = Ok b2 ->
  bytes_cmp (b1 ++ t1) (b2 ++ t2) = cmp_then (pk_cmp vs1 vs2) (bytes_cmp t1 t2).
Proof.
  revert vs1 vs2 b1 b2. induction pk as [|i pk IH];
    intros [|v1 vs1] [|v2 vs2] b1 b2 W1 W2 L1 L2 H1 H2; try done.
  { by simplify_eq/=. }
  simpl in *. inv_ok. simplify_eq. inversion W1; inversion W2; subst.
  rewrite <- !app_assoc.
  erewrite (encode_field_cmp v1 v2) by eassumption.
  rewrite cmp_then_assoc. f_equal. by eapply IH; eauto.
Qed.

Lemma encode_pk_fields_inv vs s b :
  encode_pk_fields vs s = Ok b ->
  length vs = length (primary_key s) /\
  encode_fields vs (columns s) (primary_key s) = Ok b.
Proof.
  unfold encode_pk_fields.
  by destruct (Nat.eqb_spec (length vs) (length (primary_key s))).
Qed.

Lemma encode_pk_cmp vs1 vs2 s b1 b2 t1 t2 :
  Forall FieldValue_wf vs1 -> Forall FieldValue_wf vs2 ->
  encode_pk_fields vs1 s = Ok b1 -> encode_pk_fields vs2 s = Ok b2 ->
  bytes_cmp (b1 ++ t1) (b2 ++ t2) = cmp_then (pk_cmp vs1 vs2) (bytes_cmp t1 t2).
Proof.
  intros W1 W2 [L1 H1]%encode_pk_fields_inv [L2 H2]%encode_pk_fields_inv.
  by eapply encode_fields_cmp.
Qed.

(** ** Tags *)
Lemma tag_word_eq sq op :
  0 <= sq <= SEQNUM_MAX -> tag_word sq op = (SEQNUM_MAX - sq) * 2 ^ 8 + op_code op.
Proof.
  Transparent SEQNUM_MAX. unfold tag_word, SEQNUM_MAX, wrap. Opaque SEQNUM_MAX.
  intros H. rewrite Z.shiftl_mul_pow2, Z.mod_small by lia.
  pose proof (op_code_bound op).
  rewrite <- Z.lxor_lor, <- Z.add_nocarry_lxor; [done|..];
    apply Z.bits_inj'; intros n Hn; rewrite Z.land_spec, Z.bits_0;
    (destruct (decide (n < 8));
     [ rewrite Z.mul_pow2_bits_low by lia; done
     | rewrite <- (Z.mod_small (op_code op) (2 ^ 8)), Z.mod_pow2_bits_high by lia;
       by rewrite andb_false_r ]).
Qed.

Lemma tag_word_range sq op :
  0 <= sq <= SEQNUM_MAX -> 0 <= tag_word sq op < 2 ^ 64.
Proof.
  intros H. rewrite tag_word_eq by done. pose proof (op_code_bound op).
  Transparent SEQNUM_MAX. unfold SEQNUM_MAX in *. Opaque SEQNUM_MAX. lia.
Qed.

(** Newer sequence numbers have smaller tags; equal ones are ordered by the
    operation. *)
Definition tag_cmp (s1 : SeqNum) (o1 : OpType) (s2 : SeqNum) (o2 : OpType) : comparison :=
  cmp_then (Z.compare s2 s1) (Z.compare (op_code o1) (op_code o2)).

Lemma tag_word_cmp s1 o1 s2 o2 :
  0 <= s1 <= SEQNUM_MAX -> 0 <= s2 <= SEQNUM_MAX ->
  Z.compare (tag_word s1 o1) (tag_word s2 o2) = tag_cmp s1 o1 s2 o2.
Proof.
  intros H1 H2. rewrite !tag_word_eq by done. unfold tag_cmp, cmp_then.
  pose proof (op_code_bound o1). pose proof (op_code_bound o2).
  destruct (Z.compare_spec s2 s1) as [->|?|?].
  - by rewrite !(Z.add_comm _ (op_code _)), compare_add_r.
  - apply Z.compare_lt_iff. lia.
  - apply Z.compare_gt_iff. lia.
Qed.

Lemma encode_tag_Ok sq op :
  sq <= SEQNUM_MAX -> encode_tag sq op = Ok (be_split 8 (tag_word sq op)).
Proof. intros H. unfold encode_tag. destruct (Z.ltb_spec SEQNUM_MAX sq); [lia|done]. Qed.

Lemma encode_inv pk sq op s k :
  encode pk sq op s = Ok k ->
  exists b, encode_pk_fields pk s = Ok b /\ sq <= SEQNUM_MAX /\
    encoded k = b ++ be_split 8 (tag_word sq op) /\ seq k = sq /\
    op_type k = op /\ pk_vals k = pk /\ user_key_bytes k = b.
Proof.
  unfold encode, encode_tag. intros H. inv_ok.
  destruct (Z.ltb_spec SEQNUM_MAX sq); [done|]. simplify_eq.
  eexists. repeat split; try done. unfold user_key_bytes. simpl.
  rewrite length_app, be_split_length.
  replace (length x + 8 - 8)%nat with (length x) by lia. apply take_app_length.
Qed.

(** ** Decoding inverts encoding *)
Lemma take_app_exact {A} n (l t : list A) : length l = n -> take n (l ++ t) = l.
Proof. intros <-. apply take_app_length. Qed.

Lemma drop_app_exact {A} n (l t : list A) : length l = n -> drop n (l ++ t) = t.
Proof. intros <-. apply drop_app_length. Qed.

Lemma ensure_len_app b t n f :
  n <= Z.of_nat (length b) -> ensure_len (b ++ t) n f = Ok tt.
Proof.
  intros H. unfold ensure_len. rewrite length_app.
  destruct (Z.ltb_spec (Z.of_nat (length b + length t)) n); [lia|done].
Qed.

Lemma unescape_escape x t acc i :
  unescape_loop (escape_byte_array x ++ t) acc i
  = Ok (acc ++ x, (i + length (escape_byte_array x))%nat).
Proof.
  revert acc i. induction x as [|a x IH]; intros acc i; simpl.
  - by rewrite app_nil_r.
  - case_bool_decide; subst; simpl.
    + rewrite IH, <- app_assoc. simpl. do 2 f_equal. lia.
    + rewrite bool_decide_false by done. rewrite IH, <- app_assoc. simpl.
      do 2 f_equal. lia.
Qed.

Lemma to_signed_flip w v :
  0 < w -> in_i w v -> to_signed w (wrap w v) = v.
Proof.
  intros Hw H. rewrite wrap_signed by done. unfold to_signed, in_i in *.
  assert (Hp : 2 ^ w = 2 * 2 ^ (w - 1)).
  { rewrite <- Z.pow_succ_r by lia. f_equal. lia. }
  repeat case_res; lia.
Qed.

Lemma lxor_cancel a b : Z.lxor (Z.lxor a b) b = a.
Proof. by rewrite Z.lxor_assoc, Z.lxor_nilpotent, Z.lxor_0_r. Qed.

Lemma decode_encode_field v t b tl :
  FieldValue_wf v -> is_float_type t = false -> encode_field v t = Ok b ->
  decode_field (b ++ tl) t = Ok (v, length b).
Proof.
  intros W F H. destruct t, v; simpl in H, F; try discriminate; simpl in W.
  - simplify_eq. unfold decode_field. rewrite ensure_len_app by done.
    by match goal with x : bool |- _ => destruct x end.
  - simplify_eq. unfold decode_field. rewrite ensure_len_app by (by rewrite be_split_length).
    simpl. rewrite take_app_exact by apply be_split_length.
    rewrite be_combine_split_id, lxor_cancel, to_signed_flip, be_split_length;
      [done|done|done|].
    rewrite flip32 by done. unfold in_i in W. lia.
  - simplify_eq. unfold decode_field. rewrite ensure_len_app by (by rewrite be_split_length).
    simpl. rewrite take_app_exact by apply be_split_length.
    rewrite be_combine_split_id, lxor_cancel, to_signed_flip, be_split_length;
      [done|done|done|].
    rewrite flip64 by done. unfold in_i in W. lia.
  - simplify_eq. unfold decode_field, unescape_byte_array.
    by rewrite unescape_escape.
  - case_res; [done|]. simplify_eq. rewrite negb_false_iff, Z.eqb_eq in *.
    unfold decode_field. rewrite ensure_len_app by lia. simpl.
    by rewrite take_app_exact by lia; do 2 f_equal; lia.
Qed.


Lemma decode_encode_fields vs cols pk b p tl :
  Forall FieldValue_wf vs -> length vs = length pk ->
  Forall (fun i => exists c, cols !! i = Some c /\ is_float_type (col_type c) = false) pk ->
  encode_fields vs cols pk = Ok b ->
  decode_fields (p ++ b ++ tl) cols pk (length p) = Ok (vs, length (p ++ b)).
Proof.
  revert vs b p. induction pk as [|i pk IH]; intros [|v vs] b p W L F H; try done.
  { simplify_eq/=. by rewrite app_nil_r. }
  inversion F as [|? ? (c & Hc & Hf) F']; inversion W; subst.
  simpl in *. unfold index in *. rewrite Hc in *. simpl in *. inv_ok.
  destruct (Nat.ltb_spec (length (p ++ (x ++ x0) ++ tl)) (length p)) as [Hlt|_].
  { rewrite length_app in Hlt. lia. }
  rewrite drop_app_length, <- app_assoc.
  rewrite (decode_encode_field v) by done. simpl.
  rewrite app_assoc, <- length_app, (IH vs x0) by (done || lia). simpl.
  by rewrite <- app_assoc.
Qed.

Lemma decode_encode_pk vs s b :
  Forall FieldValue_wf vs -> no_float_pk s -> encode_pk_fields vs s = Ok b ->
  decode_pk_fields b s = Ok vs.
Proof.
  intros W F [L H]%encode_pk_fields_inv. unfold decode_pk_fields.
  pose proof (decode_encode_fields vs _ _ b [] [] W L F H) as D.
  simpl in D. rewrite app_nil_r in D. rewrite D. simpl.
  by rewrite Nat.eqb_refl.
Qed.

(** Whatever the column types, encoded bytes decode, to values of the same
    length; appended columns do not matter. *)
Lemma decode_field_total v t b tl :
  FieldValue_wf v -> encode_field v t = Ok b -> exists v', decode_field (b ++ tl) t = Ok (v', length b).
Proof.
  intros W H. destruct (is_float_type t) eqn:F; [|eexists; by apply decode_encode_field].
  destruct t, v; try discriminate; simpl in H; case_res; try done; simplify_eq; unfold decode_field;
    rewrite ensure_len_app by (unfold order_preserving_f32, order_preserving_f64; by rewrite be_split_length);
    eexists; rewrite Ok_bind; unfold order_preserving_f32, order_preserving_f64; by rewrite be_split_length.
Qed.

Lemma decode_fields_total vs cols cols' pk b p tl :
  Forall FieldValue_wf vs -> length vs = length pk -> cols `prefix_of` cols' ->
  encode_fields vs cols pk = Ok b ->
  exists vs', decode_fields (p ++ b ++ tl) cols' pk (length p) = Ok (vs', length (p ++ b)).
Proof.
  intros W L Hp. revert vs b p W L. induction pk as [|i pk IH]; intros [|v vs] b p W L H; try done.
  { simplify_eq/=. exists []. by rewrite app_nil_r. }
  inversion W; subst. simpl in *. unfold index in *. inv_ok.
  destruct (cols !! i) as [c|] eqn:Hc; [|done]. simplify_eq.
  rewrite (prefix_lookup_Some _ _ _ _ Hc Hp), Ok_bind.
  destruct (Nat.ltb_spec (length (p ++ (x0 ++ x1) ++ tl)) (length p)) as [Hlt|_].
  { rewrite length_app in Hlt. lia. }
  rewrite drop_app_length, <- app_assoc.
  destruct (decode_field_total v (col_type x) x0 (x1 ++ tl)) as (v' & ->); [done..|]. simpl.
  destruct (IH vs x1 (p ++ x0)) as (vs' & Hvs); [done|lia|done|]. rewrite <- !app_assoc in Hvs.
  rewrite length_app in Hvs at 1. rewrite Hvs. simpl. by eexists.
Qed.

Lemma decode_pk_total vs s s' b :
  Forall FieldValue_wf vs -> columns s `prefix_of` columns s' -> primary_key s' = primary_key s ->
  encode_pk_fields vs s = Ok b -> exists vs', decode_pk_fields b s' = Ok vs'.
Proof.
  intros W Hp Hk [L H]%encode_pk_fields_inv. unfold decode_pk_fields. rewrite Hk.
  destruct (decode_fields_total vs _ (columns s') _ b [] [] W L Hp H) as (vs' & D).
  simpl in D. rewrite app_nil_r in D. rewrite D. simpl. rewrite Nat.eqb_refl. by eexists.
Qed.

(** The tag read back from its eight bytes. *)
Lemma tag_decode sq op :
  0 <= sq <= SEQNUM_MAX ->
  Z.shiftr (tag_word sq op) 8 = SEQNUM_MAX - sq /\
  op_of_code (Z.land (tag_word sq op) 0xFF) = Some op.
Proof.
  intros H. rewrite tag_word_eq by done. pose proof (op_code_bound op).
  change 0xFF with (Z.ones 8). rewrite Z.land_ones, Z.shiftr_div_pow2 by lia.
  split.
  - symmetry. apply (Z.div_unique _ _ _ (op_code op)); lia.
  - rewrite Z.add_comm, Z.mod_add, Z.mod_small by lia. apply op_of_code_op_code.
Qed.

Lemma decode_encode_raw b sq op s :
  0 <= sq <= SEQNUM_MAX ->
  decode (b ++ be_split 8 (tag_word sq op)) s =
    (vals ← decode_pk_fields b s;
     Ok {| encoded := b ++ be_split 8 (tag_word sq op); seq := sq; op_type := op;
           pk_vals := vals |}).
Proof.
  intros H. unfold decode. rewrite length_app, be_split_length.
  destruct (Nat.ltb_spec (length b + 8) 8); [lia|].
  replace (length b + 8 - 8)%nat with (length b) by lia.
  rewrite take_app_length, drop_app_length.
  rewrite be_combine_split_id by (apply tag_word_range; done).
  destruct (tag_decode sq op H) as [-> ->]. simpl.
  destruct (Z.ltb_spec SEQNUM_MAX (SEQNUM_MAX - sq)); [lia|].
  by replace (SEQNUM_MAX - (SEQNUM_MAX - sq)) with sq by lia.
Qed.

(** ** Encoding succeeds on validated rows *)
Definition is_nan_value (v : FieldValue) : bool :=
  match v with Float b => is_nan32 b | Double b => is_nan64 b | _ => false end.

Lemma encode_field_total v c :
  field_ok (Some v) c -> is_nan_value v = false -> is_ok (encode_field v (col_type c)).
Proof.
  unfold is_ok. intros [H1 H2] Hn.
  destruct v, (col_type c); simpl in *; try done; rewrite ?Hn, ?H2; eauto.
Qed.

Lemma encode_fields_total vs s r :
  Forall2 (fun v i => exists c, columns s !! i = Some c /\
             Row_get r i = Some v /\ field_ok (Some v) c) vs (primary_key s) ->
  Forall (fun v => is_nan_value v = false) vs -> is_ok (encode_pk_fields vs s).
Proof.
  intros H Hn. unfold encode_pk_fields.
  rewrite (Forall2_length _ _ _ H), Nat.eqb_refl. simpl.
  induction H as [|v i vs pk (c & Hc & _ & Hf) _ IH]; simpl; [by eexists|].
  inversion Hn; subst. unfold index at 1. rewrite Hc. simpl.
  destruct (encode_field_total v c) as [b ->]; [done..|]. simpl.
  destruct IH as [rest ->]; [done|]. by eexists.
Qed.

(** ** Comparison of primary keys *)
Lemma bool_cmp_eq x y : bool_cmp x y = Eq -> x = y.
Proof. by destruct x, y. Qed.

Lemma float_ord_inj w x y :
  0 < w -> in_u w x -> in_u w y -> float_ord w x = float_ord w y -> x = y.
Proof. unfold float_ord, in_u. intros. repeat case_res; lia. Qed.

Lemma field_cmp_eq v1 v2 t b1 b2 :
  FieldValue_wf v1 -> FieldValue_wf v2 ->
  encode_field v1 t = Ok b1 -> encode_field v2 t = Ok b2 ->
  field_cmp v1 v2 = Eq -> v1 = v2.
Proof.
  intros W1 W2 H1 H2 E.
  destruct t, v1, v2; simpl in H1, H2; try discriminate H1; try discriminate H2;
    simpl in E, W1, W2; f_equal.
  all: first [ by apply bool_cmp_eq
             | by apply bytes_cmp_eq
             | apply Z.compare_eq in E; done
             | apply Z.compare_eq in E;
               refine (float_ord_inj _ _ _ _ W1 W2 E); lia ].
Qed.

Lemma pk_cmp_eq vs1 vs2 s b1 b2 :
  Forall FieldValue_wf vs1 -> Forall FieldValue_wf vs2 ->
  encode_pk_fields vs1 s = Ok b1 -> encode_pk_fields vs2 s = Ok b2 ->
  pk_cmp vs1 vs2 = Eq -> vs1 = vs2.
Proof.
  intros W1 W2 [L1 H1]%encode_pk_fields_inv [L2 H2]%encode_pk_fields_inv.
  revert vs1 vs2 b1 b2 W1 W2 L1 L2 H1 H2.
  induction (primary_key s) as [|i pk IH];
    intros [|v1 vs1] [|v2 vs2] b1 b2 W1 W2 L1 L2 H1 H2 E; try done.
  simpl in *. inv_ok. inversion W1; inversion W2; subst.
  destruct (field_cmp v1 v2) eqn:Ef; try done. simpl in E.
  f_equal; [by eapply (field_cmp_eq v1 v2)|]. eapply IH; eauto.
Qed.

(** ** IEEE 754 comparison

    The reading of a bit pattern as a [spec_float] of the Standard Library,
    for [mw] mantissa bits and [ew] exponent bits. *)
Definition sf_of_bits (mw ew bits : Z) : SpecFloat.spec_float :=
  let s := 2 ^ (mw + ew) <=? bits in
  let e := (bits / 2 ^ mw) mod 2 ^ ew in
  let m := bits mod 2 ^ mw in
  let emin := 2 - 2 ^ (ew - 1) - mw in
  if e =? 2 ^ ew - 1 then
    if m =? 0 then SpecFloat.S754_infinity s else SpecFloat.S754_nan
  else if e =? 0 then
    if m =? 0 then SpecFloat.S754_zero s
    else SpecFloat.S754_finite s (Z.to_pos m) emin
  else SpecFloat.S754_finite s (Z.to_pos (m + 2 ^ mw)) (e - 1 + emin).

(** The fields of a bit pattern, as linear facts for [lia]. *)
Lemma float_parts mw ew bits :
  0 <= mw -> 0 <= ew -> 0 <= bits < 2 ^ (mw + ew + 1) ->
  exists s e m, bits = s * 2 ^ (mw + ew) + e * 2 ^ mw + m /\ (s = 0 \/ s = 1) /\
    0 <= e < 2 ^ ew /\ 0 <= m < 2 ^ mw /\
    (bits / 2 ^ mw) mod 2 ^ ew = e /\ bits mod 2 ^ mw = m.
Proof.
  intros Hm He Hb. rewrite !Z.pow_add_r in Hb by lia.
  exists (bits / 2 ^ mw / 2 ^ ew), ((bits / 2 ^ mw) mod 2 ^ ew), (bits mod 2 ^ mw).
  pose proof (Z.pow_pos_nonneg 2 mw). pose proof (Z.pow_pos_nonneg 2 ew).
  pose proof (Z.div_mod bits (2 ^ mw) ltac:(lia)) as D1.
  pose proof (Z.div_mod (bits / 2 ^ mw) (2 ^ ew) ltac:(lia)) as D2.
  pose proof (Z.mod_pos_bound bits (2 ^ mw) ltac:(lia)).
  pose proof (Z.mod_pos_bound (bits / 2 ^ mw) (2 ^ ew) ltac:(lia)).
  rewrite Z.pow_add_r by lia. repeat split; try lia; nia.
Qed.

Lemma pos_compare_Z a b :
  0 < a -> 0 < b -> Pos.compare_cont Eq (Z.to_pos a) (Z.to_pos b) = Z.compare a b.
Proof.
  intros Ha Hb. change (Pos.compare (Z.to_pos a) (Z.to_pos b) = Z.compare a b).
  rewrite <- (Z2Pos.id a) at 2 by done. by rewrite <- (Z2Pos.id b) at 2 by done.
Qed.

(** A strict IEEE comparison of two bit patterns is a strict comparison of
    their sign-magnitude orders. *)
Lemma float_ord_ieee mw ew a b :
  0 < mw -> 1 < ew ->
  in_u (mw + ew + 1) a -> in_u (mw + ew + 1) b ->
  SpecFloat.SFcompare (sf_of_bits mw ew a) (sf_of_bits mw ew b) = Some Lt ->
  float_ord (mw + ew + 1) a < float_ord (mw + ew + 1) b.
Proof.
  unfold in_u, sf_of_bits, float_ord. intros Hm He Ha Hb.
  replace (mw + ew + 1 - 1) with (mw + ew) by lia.
  destruct (float_parts mw ew a) as (s1 & e1 & m1 & -> & S1 & E1 & M1 & -> & ->);
    [lia..|].
  destruct (float_parts mw ew b) as (s2 & e2 & m2 & -> & S2 & E2 & M2 & -> & ->);
    [lia..|].
  rewrite !Z.pow_add_r by lia.
  set (M := 2 ^ mw) in *. set (E := 2 ^ ew) in *.
  set (emin := 2 - 2 ^ (ew - 1) - mw).
  assert (B1 : 0 <= e1 * M + m1 < M * E) by nia.
  assert (B2 : 0 <= e2 * M + m2 < M * E) by nia.
  assert (Hlt : e1 < e2 -> e1 * M + m1 < e2 * M + m2) by nia.
  assert (Hgt : e2 < e1 -> e2 * M + m2 < e1 * M + m1) by nia.
  assert (Hz : forall s e m, s = 0 \/ s = 1 -> 0 <= e * M + m < M * E ->
             (M * E <=? s * (M * E) + e * M + m) = (s =? 1) /\
             (s * (M * E) + e * M + m <? M * E) = (s =? 0)).
  { intros s e m [-> | ->] ?; split; lia. }
  destruct (Hz s1 e1 m1 S1 B1) as [-> ->]. destruct (Hz s2 e2 m2 S2 B2) as [-> ->].
  clear Hz Ha Hb. unfold SpecFloat.SFcompare.
  destruct S1 as [-> | ->], S2 as [-> | ->]; simpl;
  repeat match goal with
  | |- context [?x =? ?y] => destruct (Z.eqb_spec x y); subst
  end; simpl; try done; intros Hc; try lia; try nia;
  repeat match goal with
  | H : context [Z.compare ?x ?y] |- _ => destruct (Z.compare_spec x y)
  end; try done; try nia;
  rewrite pos_compare_Z in Hc by lia;
  repeat match goal with
  | H : context [Z.compare ?x ?y] |- _ => destruct (Z.compare_spec x y)
  end; simpl in *; try done; try nia.
Qed.

Lemma encoded_prefix_free s pk1 pk2 b1 b2 t1 t2 :
  Forall FieldValue_wf pk1 -> Forall FieldValue_wf pk2 ->
  encode_user_key pk1 s = Ok b1 -> encode_user_key pk2 s = Ok b2 ->
  b1 ++ t1 = b2 ++ t2 -> pk1 = pk2.
Proof.
  intros W1 W2 E1 E2 E.
  pose proof (encode_pk_cmp pk1 pk2 s b1 b2 t1 t2 W1 W2 E1 E2) as C.
  rewrite E, bytes_cmp_refl in C.
  apply (pk_cmp_eq pk1 pk2 s b1 b2); [done..|].
  by destruct (pk_cmp pk1 pk2).
Qed.

(** ** Properties *)

(** A two-column composite key schema, used by the worked examples. *)
Definition example_schema : TableSchema := {|
  table_name := "t";
  columns := [
    {| name := "a"; col_type := CInt32; nullable := false; field_id := None;
       initial_default := None; write_default := None |};
    {| name := "b"; col_type := CByteArray; nullable := false; field_id := None;
       initial_default := None; write_default := None |};
    {| name := "v"; col_type := CByteArray; nullable := true; field_id := None;
       initial_default := None; write_default := None |} ];
  primary_key := [0%nat; 1%nat]; schema_id := 0; last_column_id := 0 |}.

Definition example_pk (z : Z) (b : bytes) : list FieldValue := [Int32 z; Bytes b].

Definition example_key (z : Z) (b : bytes) (sq : Z) (op : OpType) : InternalKey :=
  match encode (example_pk z b) sq op example_schema with
  | Ok k => k
  | _ => {| encoded := []; seq := 0; op_type := Put; pk_vals := [] |}
  end.

(** C2. Byte comparison of two encoded internal keys is the order of the
    primary key values column by column, then the newer sequence number first,
    then the operation code. *)
Theorem encode_order s pk1 sq1 op1 k1 pk2 sq2 op2 k2 :
  Forall FieldValue_wf pk1 -> Forall FieldValue_wf pk2 ->
  0 <= sq1 -> 0 <= sq2 ->
  encode pk1 sq1 op1 s = Ok k1 -> encode pk2 sq2 op2 s = Ok k2 ->
  InternalKey_cmp k1 k2 = cmp_then (pk_cmp pk1 pk2) (tag_cmp sq1 op1 sq2 op2).
Proof.
  intros W1 W2 P1 P2 E1 E2.
  destruct (encode_inv _ _ _ _ _ E1) as (b1 & B1 & M1 & R1 & _).
  destruct (encode_inv _ _ _ _ _ E2) as (b2 & B2 & M2 & R2 & _).
  unfold InternalKey_cmp. rewrite R1, R2.
  rewrite (encode_pk_cmp pk1 pk2 s) by done. f_equal.
  rewrite bytes_cmp_be_split by (apply tag_word_range; lia).
  by apply tag_word_cmp.
Qed.

Lemma encode_order_witness :
  InternalKey_cmp (example_key (-5) [Byte.x61; b0] 7 Put)
                  (example_key (-5) [Byte.x61] 9 Delete) = Gt.
Proof.
  rewrite (encode_order example_schema (example_pk (-5) [Byte.x61; b0]) 7 Put _
             (example_pk (-5) [Byte.x61]) 9 Delete _);
    try reflexivity; try lia;
    repeat constructor; unfold in_i; lia.
Defined.

(** Decoding an encoded internal key gives back the key: the same
    bytes, sequence number, operation and primary key values, for every schema
    whose primary key has no float column. *)
Theorem decode_encode s pk sq op k :
  Forall FieldValue_wf pk -> no_float_pk s -> 0 <= sq ->
  encode pk sq op s = Ok k -> decode (encoded k) s = Ok k.
Proof.
  intros W F P E.
  destruct (encode_inv _ _ _ _ _ E) as (b & B & M & R & S & O & V & _).
  rewrite R, decode_encode_raw by lia.
  rewrite (decode_encode_pk pk s b) by done. simpl. f_equal.
  destruct k; simpl in *; by subst.
Qed.

Lemma decode_encode_witness :
  decode (encoded (example_key (-5) [Byte.x61; b0; bFF] 99 Put)) example_schema
  = Ok (example_key (-5) [Byte.x61; b0; bFF] 99 Put).
Proof.
  apply (decode_encode example_schema (example_pk (-5) [Byte.x61; b0; bFF]) 99 Put).
  - repeat constructor; unfold in_i; lia.
  - repeat constructor; eexists; split; reflexivity.
  - lia.
  - reflexivity.
Defined.

(** Decoding never recovers a [Float] primary key column: for every
    non-NaN value the decoder accepts the encoded bytes and returns a different
    bit pattern, because its two branches are swapped with respect to
    [order_preserving_f32]. *)
Theorem float_key_decodes_wrong bits :
  in_u 32 bits -> is_nan32 bits = false ->
  exists b bits', encode_field (Float bits) CFloat = Ok b /\
    decode_field b CFloat = Ok (Float bits', 4%nat) /\ bits' <> bits.
Proof.
  intros H Hn. exists (order_preserving_f32 bits).
  pose proof (float_ord_range 31 bits ltac:(lia) H) as R.
  change (31 + 1) with 32 in R.
  eexists. split; [unfold encode_field; by rewrite Hn|].
  rewrite order_preserving_f32_eq by done. unfold decode_field, ensure_len.
  rewrite be_split_length. cbn [Z.of_nat Z.ltb]. cbv beta iota.
  rewrite take_ge by (by rewrite be_split_length).
  rewrite be_combine_split_id by exact R. split; [reflexivity|].
  rewrite (shiftr_top 31) by (lia || exact R).
  unfold u32_max. change 0x80000000 with (2 ^ 31).
  rewrite (lxor_sign 31), (lxor_ones_sub 32) by (lia || exact R).
  unfold float_ord, in_u in *. repeat case_res; lia.
Qed.

Lemma float_key_decodes_wrong_witness :
  is_nan32 0x3f800000 = false /\
  exists b bits', encode_field (Float 0x3f800000) CFloat = Ok b /\
    decode_field b CFloat = Ok (Float bits', 4%nat) /\ bits' <> 0x3f800000.
Proof.
  split; [reflexivity|].
  apply (float_key_decodes_wrong 0x3f800000); [unfold in_u; lia | reflexivity].
Defined.

(** Encoded user keys form a prefix-free code: if the encoding of
    one primary key, followed by any bytes, equals the encoding of another
    followed by any bytes, the primary keys are equal.  The memtable relies on
    this when it recognises a key's versions by their prefix. *)
Theorem user_key_prefix_free s pk1 pk2 b1 b2 t1 t2 :
  Forall FieldValue_wf pk1 -> Forall FieldValue_wf pk2 ->
  encode_user_key pk1 s = Ok b1 -> encode_user_key pk2 s = Ok b2 ->
  b1 ++ t1 = b2 ++ t2 -> pk1 = pk2.
Proof. apply encoded_prefix_free. Qed.

Lemma user_key_prefix_free_witness :
  let enc := [Byte.x80; b0; b0; Byte.x01; b0; bFF; b0; b0] in
  encode_user_key (example_pk 1 [b0]) example_schema = Ok enc /\
  example_pk 1 [b0] = [Int32 1; Bytes [b0]].
Proof.
  split; [reflexivity|].
  apply (user_key_prefix_free example_schema _ _
           [Byte.x80; b0; b0; Byte.x01; b0; bFF; b0; b0]
           [Byte.x80; b0; b0; Byte.x01; b0; bFF; b0; b0] [bFF] [bFF]);
    try reflexivity; repeat constructor; unfold in_i; lia.
Defined.

(** A row that passed validation against a valid schema always has
    an encodable key: extracting its primary key never fails, and encoding it
    succeeds unless a primary key value is NaN. *)
Theorem validated_row_encodes s r sq op :
  schema_wf s -> Row_validate r s = Ok tt -> sq <= SEQNUM_MAX ->
  exists pk, pk_values r (primary_key s) = Ok pk /\
    (Forall (fun v => is_nan_value v = false) pk -> is_ok (encode pk sq op s)).
Proof.
  intros (_ & Hpk & _) Hv%Row_validate_Ok Hs.
  destruct (pk_values_Ok r s Hpk Hv) as (pk & E & F).
  exists pk. split; [done|]. intros Hn.
  destruct (encode_fields_total pk s r F Hn) as [b Hb].
  unfold encode. rewrite Hb. simpl. rewrite encode_tag_Ok by done. by eexists.
Qed.

Lemma validated_row_encodes_witness :
  let r := {| fields := [Some (Int32 3); Some (Bytes [b0]); None] |} in
  exists pk, pk_values r (primary_key example_schema) = Ok pk /\
    (Forall (fun v => is_nan_value v = false) pk ->
     is_ok (encode pk 5 Put example_schema)).
Proof.
  apply (validated_row_encodes example_schema
           {| fields := [Some (Int32 3); Some (Bytes [b0]); None] |} 5 Put).
  - apply validate_readonly_Ok. vm_compute. reflexivity.
  - reflexivity.
  - vm_compute. discriminate.
Defined.

(** The key order agrees with IEEE 754: if [a] is numerically less
    than [b] as 32-bit floats (by the Standard Library's [SFcompare]), then the
    encoded key of [a] sorts strictly before the encoded key of [b], whatever
    columns follow. *)
Theorem float_key_order a b ka kb ta tb :
  in_u 32 a -> in_u 32 b ->
  SpecFloat.SFcompare (sf_of_bits 23 8 a) (sf_of_bits 23 8 b) = Some Lt ->
  encode_field (Float a) CFloat = Ok ka -> encode_field (Float b) CFloat = Ok kb ->
  bytes_cmp (ka ++ ta) (kb ++ tb) = Lt.
Proof.
  intros Ha Hb Hlt Ea Eb.
  rewrite (encode_field_cmp (Float a) (Float b) CFloat) by done.
  pose proof (float_ord_ieee 23 8 a b ltac:(lia) ltac:(lia) Ha Hb Hlt) as H.
  apply Z.compare_lt_iff in H. change (23 + 8 + 1) with 32 in H.
  unfold field_cmp. by rewrite H.
Qed.

Lemma float_key_order_witness :
  bytes_cmp (order_preserving_f32 0xbf800000) (order_preserving_f32 0x3f800000) = Lt.
Proof.
  rewrite <- (app_nil_r (order_preserving_f32 0xbf800000)).
  rewrite <- (app_nil_r (order_preserving_f32 0x3f800000)).
  apply (float_key_order 0xbf800000 0x3f800000 _ _ [] []); try reflexivity;
    unfold in_u; lia.
Defined.
