(* ===== verification/RowCodec.v ===== *)
(** * Rows as bytes

    [src/crates/merutable/src/engine/codec.rs]: the values of the write-ahead
    log and the memtable.  postcard, and serde_json for rows of older logs,
    are the interface [RowSerde]. *)

From S2P Require Import Prelude Schema.

Class RowSerde := {
  postcard_to_vec : Row -> option bytes;
  postcard_from_bytes : bytes -> option Row;
  row_from_json : bytes -> option Row;
}.
Class RowSerdeLaws `{!RowSerde} := {
  postcard_roundtrip r bs : postcard_to_vec r = Some bs -> postcard_from_bytes bs = Some r;
}.

Definition POSTCARD_MARKER : byte := Byte.x01.

Section codec.
Context `{!RowSerde}.

Definition encode_row (r : Row) : res bytes :=
  match postcard_to_vec r with
  | Some raw => Ok (POSTCARD_MARKER :: raw)
  | None => Err (InvalidArgument "row postcard serialize failed")
  end.

Definition decode_row (bs : bytes) : res Row :=
  match bs with
  | [] => Ok Row_default
  | b :: rest =>
      if Byte.eqb b POSTCARD_MARKER then
        ok_or (postcard_from_bytes rest) (Corruption "row postcard decode failed")
      else ok_or (row_from_json bs) (Corruption "row legacy-JSON decode failed")
  end.

Lemma decode_encode_row `{!RowSerdeLaws} r bs : encode_row r = Ok bs -> bs <> [] /\ decode_row bs = Ok r.
Proof.
  unfold encode_row. destruct (postcard_to_vec r) as [raw|] eqn:E; [|done]. intros [= <-].
  split; [done|]. cbn. by rewrite (postcard_roundtrip _ _ E).
Qed.
End codec.

(** An instance. *)
#[export] Instance bits_row : RowSerde := {
  postcard_to_vec r := Some (bits_of (encode (fields r)));
  postcard_from_bytes l := Build_Row <$> decode (of_bits l);
  row_from_json _ := None;
}.

#[export] Instance bits_row_laws : RowSerdeLaws.
Proof. split. intros r bs [= <-]. cbn. rewrite of_bits_of, decode_encode. by destruct r. Qed.
