(* ===== verification/WalBatch.v ===== *)
(** * Write batches

    [src/crates/merutable/src/wal/batch.rs]: the atomic unit appended to the
    write-ahead log, its wire format (LEB128 lengths) and its decoder. *)

From S2P Require Import Prelude Sequence.
Local Open Scope Z_scope.

Record BatchRecord : Type := {
  rec_op : OpType;
  user_key : bytes;
  value : option bytes;
}.

Record WriteBatch : Type := {
  sequence : SeqNum;
  records : list BatchRecord;
}.

Definition new_batch (sq : SeqNum) : WriteBatch := {| sequence := sq; records := [] |}.

Definition push_record (r : BatchRecord) (b : WriteBatch) : WriteBatch :=
  {| sequence := sequence b; records := records b ++ [r] |}.

Definition put (key val : bytes) (b : WriteBatch) : WriteBatch :=
  push_record {| rec_op := Put; user_key := key; value := Some val |} b.

Definition delete_with_pre_image (key pre_image : bytes) (b : WriteBatch) : WriteBatch :=
  push_record {| rec_op := Delete; user_key := key; value := Some pre_image |} b.

Definition delete (key : bytes) (b : WriteBatch) : WriteBatch :=
  delete_with_pre_image key [] b.

(** ** Encoding *)

(** The loop of [put_varint]; ten rounds of seven bits cover a [u64]. *)
Fixpoint put_varint_loop (fuel : nat) (val : Z) : bytes :=
  match fuel with
  | O => []
  | S fuel =>
      let b := Z.land val 0x7F in
      let val' := Z.shiftr val 7 in
      if val' =? 0 then [byte.of_Z b]
      else byte.of_Z (Z.lor b 0x80) :: put_varint_loop fuel val'
  end.

Definition put_varint (val : Z) : bytes := put_varint_loop 10 val.

(** [value.as_ref().cloned().unwrap_or_default()]. *)
Definition value_bytes (r : BatchRecord) : bytes :=
  match value r with Some v => v | None => [] end.

(** [len() as u64]. *)
Definition len64 (b : bytes) : Z := wrap 64 (Z.of_nat (length b)).

Definition encode_record (r : BatchRecord) : bytes :=
  [byte.of_Z (op_code (rec_op r))]
  ++ (put_varint (len64 (user_key r)) ++ user_key r)
  ++ (put_varint (len64 (value_bytes r)) ++ value_bytes r).

Definition encode_records (rs : list BatchRecord) : bytes :=
  concat (map encode_record rs).

Definition encode_batch (b : WriteBatch) : bytes :=
  le_split 8 (sequence b)
  ++ le_split 4 (wrap 32 (Z.of_nat (length (records b))))
  ++ encode_records (records b).

(** ** Decoding: readers advance the remaining data *)
Definition read_byte (data : bytes) : res (byte * bytes) :=
  match data with
  | [] => Err (Corruption "unexpected end of WriteBatch")
  | b :: data => Ok (b, data)
  end.

Definition read_u64_le (data : bytes) : res (Z * bytes) :=
  if Nat.ltb (length data) 8 then Err (Corruption "truncated u64")
  else Ok (le_combine (take 8 data), drop 8 data).

Definition read_u32_le (data : bytes) : res (Z * bytes) :=
  if Nat.ltb (length data) 4 then Err (Corruption "truncated u32")
  else Ok (le_combine (take 4 data), drop 4 data).

(** The loop of [read_varint] over the data, with its [val] and [shift]. *)
Fixpoint read_varint_loop (data : bytes) (val shift : Z) : res (Z * bytes) :=
  match data with
  | [] => Err (Corruption "unexpected end of WriteBatch")
  | b :: data =>
      let b := byte.unsigned b in
      let val := Z.lor val (wrap 64 (Z.shiftl (Z.land b 0x7F) shift)) in
      if Z.land b 0x80 =? 0 then Ok (val, data)
      else
        let shift := shift + 7 in
        if 64 <=? shift then Err (Corruption "varint overflow")
        else read_varint_loop data val shift
  end.

Definition read_varint (data : bytes) : res (Z * bytes) := read_varint_loop data 0 0.

Definition read_bytes (len : Z) (data : bytes) : res (bytes * bytes) :=
  if Z.of_nat (length data) <? len then Err (Corruption "need {len} bytes")
  else Ok (take (Z.to_nat len) data, drop (Z.to_nat len) data).

(** A varint length followed by that many bytes. *)
Definition read_sized (data : bytes) : res (bytes * bytes) :=
  '(len, data) ← read_varint data;
  read_bytes len data.

Definition decode_record (data : bytes) : res (BatchRecord * bytes) :=
  '(op_byte, data) ← read_byte data;
  op ← ok_or (op_of_code (byte.unsigned op_byte)) (Corruption "unknown op_type");
  '(key, data) ← read_sized data;
  '(val, data) ← read_sized data;
  Ok ({| rec_op := op; user_key := key; value := Some val |}, data).

Fixpoint decode_records (count : nat) (data : bytes) : res (list BatchRecord * bytes) :=
  match count with
  | O => Ok ([], data)
  | S count =>
      '(r, data) ← decode_record data;
      '(rs, data) ← decode_records count data;
      Ok (r :: rs, data)
  end.

Definition decode_batch (data : bytes) : res WriteBatch :=
  if Nat.ltb (length data) 12 then Err (Corruption "WriteBatch too short")
  else
    '(sq, data) ← read_u64_le data;
    '(count, data) ← read_u32_le data;
    '(rs, _) ← decode_records (Z.to_nat count) data;
    Ok {| sequence := sq; records := rs |}.

(** [sequence.0 + records.len().saturating_sub(1) as u64]. *)
Definition last_seq (b : WriteBatch) : SeqNum :=
  wrap 64 (sequence b + Z.of_nat (length (records b) - 1)).

(** ** Readers that invert an encoding

    [Reads rd enc a]: on [enc] followed by anything, [rd] yields [a] and stops
    exactly at the end of [enc]; on every proper prefix of [enc] it fails with
    an error (never a panic, never a wrong value). *)
Definition Reads {A} (rd : bytes -> res (A * bytes)) (enc : bytes) (a : A) : Prop :=
  (forall rest, rd (enc ++ rest) = Ok (a, rest)) /\
  (forall m, (m < length enc)%nat -> exists e, rd (take m enc) = Err e).

Lemma Reads_ret {A} (a : A) : Reads (fun d => Ok (a, d)) [] a.
Proof. split; [done|]. simpl. lia. Qed.

Lemma Reads_bind {A B} (rd : bytes -> res (A * bytes))
    (k : A -> bytes -> res (B * bytes)) e1 e2 a b :
  Reads rd e1 a -> Reads (k a) e2 b ->
  Reads (fun d => '(x, d) ← rd d; k x d) (e1 ++ e2) b.
Proof.
  intros [H1 H2] [K1 K2]. split.
  - intros rest. rewrite <- app_assoc, H1. simpl. apply K1.
  - intros m Hm. rewrite length_app in Hm. rewrite take_app.
    destruct (decide (m < length e1)%nat) as [Hlt|Hge].
    + replace (m - length e1)%nat with 0%nat by lia.
      rewrite take_0, app_nil_r.
      destruct (H2 m Hlt) as [e ->]. simpl. by eexists.
    + rewrite take_ge, H1 by lia. simpl. apply K2. lia.
Qed.

Lemma Reads_byte b : Reads read_byte [b] b.
Proof. split; [done|]. intros [|m] Hm; simpl in *; [by eexists|lia]. Qed.

Lemma Reads_u64 z : in_u 64 z -> Reads read_u64_le (le_split 8 z) z.
Proof.
  intros Hz. pose proof (le_split_length 8 z) as L. split.
  - intros rest. unfold read_u64_le. rewrite length_app, L.
    destruct (Nat.ltb_spec (8 + length rest) 8); [lia|].
    rewrite (take_app_length' _ _ 8), (drop_app_length' _ _ 8) by done.
    by rewrite le_combine_split_id by exact Hz.
  - intros m Hm. unfold read_u64_le. rewrite length_take.
    destruct (Nat.ltb_spec (m `min` length (le_split 8 z)) 8); [by eexists|lia].
Qed.

Lemma Reads_u32 z : in_u 32 z -> Reads read_u32_le (le_split 4 z) z.
Proof.
  intros Hz. pose proof (le_split_length 4 z) as L. split.
  - intros rest. unfold read_u32_le. rewrite length_app, L.
    destruct (Nat.ltb_spec (4 + length rest) 4); [lia|].
    rewrite (take_app_length' _ _ 4), (drop_app_length' _ _ 4) by done.
    by rewrite le_combine_split_id by exact Hz.
  - intros m Hm. unfold read_u32_le. rewrite length_take.
    destruct (Nat.ltb_spec (m `min` length (le_split 4 z)) 4); [by eexists|lia].
Qed.

Lemma Reads_bytes bs : Reads (read_bytes (Z.of_nat (length bs))) bs bs.
Proof.
  split.
  - intros rest. unfold read_bytes. rewrite length_app, Nat2Z.id.
    destruct (Z.ltb_spec (Z.of_nat (length bs + length rest)) (Z.of_nat (length bs)));
      [lia|].
    by rewrite take_app_length, drop_app_length.
  - intros m Hm. unfold read_bytes. rewrite length_take.
    destruct (Z.ltb_spec (Z.of_nat (m `min` length bs)) (Z.of_nat (length bs)));
      [by eexists|lia].
Qed.

(** ** Varints *)
Lemma land_lt v k : 0 <= v -> 0 <= k -> Z.land v (Z.ones k) <= v.
Proof. intros. rewrite Z.land_ones by done. apply Z.mod_le; lia. Qed.

Lemma varint_byte v :
  0 <= v ->
  byte.unsigned (byte.of_Z (Z.lor (Z.land v 0x7F) 0x80)) = Z.land v 0x7F + 128 /\
  byte.unsigned (byte.of_Z (Z.land v 0x7F)) = Z.land v 0x7F /\
  0 <= Z.land v 0x7F < 128.
Proof.
  intros Hv. change 0x7F with (Z.ones 7). rewrite Z.land_ones by lia.
  pose proof (Z.mod_pos_bound v (2 ^ 7) ltac:(lia)) as B.
  rewrite !byte.unsigned_of_Z. unfold byte.wrap.
  assert (E : Z.lor (v mod 2 ^ 7) 0x80 = v mod 2 ^ 7 + 128).
  { assert (A : Z.land (v mod 2 ^ 7) 0x80 = 0).
    { apply Z.bits_inj'. intros n Hn.
      rewrite Z.land_spec, Z.bits_0. change 0x80 with (2 ^ 7).
      rewrite Z.pow2_bits_eqb by lia. destruct (Z.eqb_spec 7 n) as [<-|].
      - by rewrite Z.mod_pow2_bits_high by lia.
      - by rewrite andb_false_r. }
    rewrite <- Z.lxor_lor by exact A. by rewrite <- Z.add_nocarry_lxor. }
  rewrite E. set (x := v mod 2 ^ 7) in *.
  rewrite (Z.mod_small (x + 128)), (Z.mod_small x) by lia. lia.
Qed.

Lemma land_high_bit b : 0 <= b < 128 -> Z.land (b + 128) 0x80 = 128 /\ Z.land b 0x80 = 0
  /\ Z.land (b + 128) 0x7F = b /\ Z.land b 0x7F = b.
Proof.
  intros Hb. change 0x7F with (Z.ones 7). rewrite !Z.land_ones by lia.
  assert (A : Z.land b 0x80 = 0).
  { apply Z.bits_inj'. intros n Hn. rewrite Z.land_spec, Z.bits_0.
    change 0x80 with (2 ^ 7). rewrite Z.pow2_bits_eqb by lia.
    destruct (Z.eqb_spec 7 n) as [<-|]; [|by rewrite andb_false_r].
    rewrite <- (Z.mod_small b (2 ^ 7)), Z.mod_pow2_bits_high by lia. done. }
  repeat split; [|done|..].
  - rewrite Z.add_nocarry_lxor, Z.lxor_lor by exact A.
    change 128 with 0x80 at 1. rewrite Z.land_lor_distr_l, A. done.
  - change 128 with (1 * 2 ^ 7). rewrite Z.mod_add, Z.mod_small; lia.
  - apply Z.mod_small. lia.
Qed.

(** Gluing a seven-bit group onto the rest. *)
Lemma varint_glue acc v s :
  0 <= v -> 0 <= s ->
  Z.lor (Z.lor acc (Z.shiftl (Z.land v 0x7F) s)) (Z.shiftl (Z.shiftr v 7) (s + 7))
  = Z.lor acc (Z.shiftl v s).
Proof.
  intros Hv Hs. rewrite <- Z.lor_assoc. f_equal. apply Z.bits_inj'. intros n Hn.
  rewrite Z.lor_spec, !Z.shiftl_spec by lia.
  change 0x7F with (Z.ones 7). rewrite Z.land_spec.
  destruct (decide (n < s)).
  { by rewrite !(Z.testbit_neg_r _ (n - s)), !(Z.testbit_neg_r _ (n - (s + 7))) by lia. }
  destruct (decide (n - s < 7)).
  - rewrite (Z.testbit_neg_r _ (n - (s + 7))) by lia.
    rewrite Z.ones_spec_low by lia. by rewrite andb_true_r, orb_false_r.
  - rewrite Z.ones_spec_high, andb_false_r by lia.
    rewrite Z.shiftr_spec by lia. simpl. f_equal. lia.
Qed.

Lemma read_put_varint f v acc s rest :
  0 <= v < 2 ^ (7 * Z.of_nat f) -> 0 <= s -> v * 2 ^ s < 2 ^ 64 -> (0 < f)%nat ->
  read_varint_loop (put_varint_loop f v ++ rest) acc s
  = Ok (Z.lor acc (Z.shiftl v s), rest).
Proof.
  revert v acc s. induction f as [|f IH]; intros v acc s Hv Hs Hb Hf; [lia|].
  cbn [put_varint_loop].
  destruct (varint_byte v ltac:(lia)) as (B1 & B2 & B3).
  destruct (land_high_bit (Z.land v 0x7F) B3) as (L1 & L2 & L3 & L4).
  assert (Hw : wrap 64 (Z.shiftl (Z.land v 0x7F) s) = Z.shiftl (Z.land v 0x7F) s).
  { unfold wrap. apply Z.mod_small. rewrite Z.shiftl_mul_pow2 by lia.
    pose proof (land_lt v 7 ltac:(lia) ltac:(lia)).
    change (Z.ones 7) with 0x7F in *. pose proof (Z.pow_pos_nonneg 2 s). nia. }
  rewrite Z.shiftr_div_pow2 by lia.
  destruct (Z.eqb_spec (v / 2 ^ 7) 0) as [E|E].
  - cbn [app read_varint_loop]. cbv zeta. rewrite B2, L4, L2, Hw. simpl. do 3 f_equal.
    change 0x7F with (Z.ones 7). rewrite Z.land_ones by lia. f_equal. apply Z.mod_small.
    pose proof (Z.div_mod v (2 ^ 7)). pose proof (Z.mod_pos_bound v (2 ^ 7)). lia.
  - cbn [app read_varint_loop]. cbv zeta. rewrite B1, L1, L3, Hw.
    change (128 =? 0) with false. cbv iota.
    assert (128 <= v).
    { destruct (Z.le_gt_cases 128 v); [done|]. rewrite Z.div_small in E by lia. done. }
    assert (s + 7 < 64).
    { apply (Z.pow_lt_mono_r_iff 2); [lia|lia|].
      rewrite Z.pow_add_r by lia. pose proof (Z.pow_pos_nonneg 2 s). nia. }
    destruct (Z.leb_spec 64 (s + 7)); [lia|].
    assert (D : v / 2 ^ 7 * 2 ^ 7 <= v)
      by (pose proof (Z.div_mod v (2 ^ 7)); pose proof (Z.mod_pos_bound v (2 ^ 7)); lia).
    rewrite IH.
    + rewrite <- Z.shiftr_div_pow2 by lia. by rewrite varint_glue by lia.
    + split; [apply Z.div_pos; lia|]. apply Z.div_lt_upper_bound; [lia|].
      rewrite <- Z.pow_add_r by lia.
      replace (7 + 7 * Z.of_nat f) with (7 * Z.of_nat (S f)) by lia. lia.
    + lia.
    + rewrite Z.pow_add_r by lia. pose proof (Z.pow_pos_nonneg 2 s). nia.
    + destruct f; [|lia]. change (2 ^ (7 * Z.of_nat 1)) with 128 in Hv. lia.
Qed.

Lemma put_varint_trunc f v acc s m :
  0 <= v -> (m < length (put_varint_loop f v))%nat ->
  exists e, read_varint_loop (take m (put_varint_loop f v)) acc s = Err e.
Proof.
  revert v acc s m. induction f as [|f IH]; intros v acc s m Hv; simpl; [lia|].
  destruct (varint_byte v Hv) as (B1 & _ & B3).
  destruct (land_high_bit (Z.land v 0x7F) B3) as (L1 & _).
  case_res; simpl; intros Hm.
  { replace m with 0%nat by lia. simpl. by eexists. }
  destruct m as [|m]; simpl; [by eexists|]. rewrite B1, L1.
  change (128 =? 0) with false. cbv iota. case_res; [by eexists|].
  apply IH; [|lia]. rewrite Z.shiftr_div_pow2 by lia. apply Z.div_pos; lia.
Qed.

Lemma Reads_varint v : in_u 64 v -> Reads read_varint (put_varint v) v.
Proof.
  unfold in_u. intros Hv. split.
  - intros rest. unfold read_varint, put_varint.
    rewrite read_put_varint by (simpl; lia). by rewrite Z.shiftl_0_r.
  - intros m Hm. apply put_varint_trunc; [lia|exact Hm].
Qed.

(** ** Records and batches *)

(** Decoding returns every value as [Some]. *)
Definition canon_record (r : BatchRecord) : BatchRecord :=
  {| rec_op := rec_op r; user_key := user_key r; value := Some (value_bytes r) |}.
Definition canon_batch (b : WriteBatch) : WriteBatch :=
  {| sequence := sequence b; records := map canon_record (records b) |}.

(** Sizes that fit the machine: what the types and a 64-bit address space give. *)
Definition record_wf (r : BatchRecord) : Prop :=
  Z.of_nat (length (user_key r)) < 2 ^ 64 /\ Z.of_nat (length (value_bytes r)) < 2 ^ 64.
Definition batch_wf (b : WriteBatch) : Prop :=
  in_u 64 (sequence b) /\ Z.of_nat (length (records b)) < 2 ^ 32 /\
  Forall record_wf (records b).

Lemma len64_small b : Z.of_nat (length b) < 2 ^ 64 -> len64 b = Z.of_nat (length b).
Proof. intros. unfold len64, wrap. apply Z.mod_small. lia. Qed.

Lemma Reads_sized b :
  Z.of_nat (length b) < 2 ^ 64 -> Reads read_sized (put_varint (len64 b) ++ b) b.
Proof.
  intros H. rewrite len64_small by done.
  eapply (Reads_bind read_varint (fun n d => read_bytes n d)); [|apply Reads_bytes].
  apply Reads_varint. unfold in_u. lia.
Qed.

Lemma op_byte_code op :
  op_of_code (byte.unsigned (byte.of_Z (op_code op))) = Some op.
Proof. by destruct op. Qed.

Lemma Reads_record r :
  record_wf r -> Reads decode_record (encode_record r) (canon_record r).
Proof.
  intros [Hk Hv]. unfold encode_record.
  rewrite <- (app_nil_r (put_varint (len64 (value_bytes r)) ++ value_bytes r)).
  refine (Reads_bind read_byte _ _ _ _ _ (Reads_byte _) _).
  rewrite op_byte_code. simpl.
  refine (Reads_bind read_sized _ _ _ _ _ (Reads_sized _ Hk) _).
  refine (Reads_bind read_sized _ _ _ _ _ (Reads_sized _ Hv) _).
  apply Reads_ret.
Qed.

Lemma Reads_records rs :
  Forall record_wf rs ->
  Reads (decode_records (length rs)) (encode_records rs) (map canon_record rs).
Proof.
  induction 1 as [|r rs Hr _ IH]; [apply Reads_ret|].
  unfold encode_records in *. simpl.
  refine (Reads_bind decode_record _ _ _ _ _ (Reads_record _ Hr) _).
  rewrite <- (app_nil_r (concat (map encode_record rs))).
  refine (Reads_bind (decode_records (length rs)) _ _ _ _ _ IH _).
  apply Reads_ret.
Qed.

(** The body of [decode_batch] after its length check. *)
Lemma Reads_batch b :
  batch_wf b ->
  Reads (fun d =>
    '(sq, d) ← read_u64_le d;
    '(count, d) ← read_u32_le d;
    '(rs, d) ← decode_records (Z.to_nat count) d;
    Ok ({| sequence := sq; records := rs |}, d)) (encode_batch b) (canon_batch b).
Proof.
  intros (Hs & Hn & Hr). unfold encode_batch.
  refine (Reads_bind read_u64_le _ _ _ _ _ (Reads_u64 _ Hs) _).
  assert (E : wrap 32 (Z.of_nat (length (records b))) = Z.of_nat (length (records b))).
  { unfold wrap. apply Z.mod_small. lia. }
  rewrite E.
  refine (Reads_bind read_u32_le _ _ _ _ _ (Reads_u32 _ _) _); [unfold in_u; lia|].
  rewrite Nat2Z.id, <- (app_nil_r (encode_records (records b))).
  refine (Reads_bind (decode_records _) _ _ _ _ _ (Reads_records _ Hr) _).
  apply Reads_ret.
Qed.

Lemma decode_batch_alt d :
  decode_batch d =
  if Nat.ltb (length d) 12 then Err (Corruption "WriteBatch too short")
  else fst <$> ('(sq, d) ← read_u64_le d;
                '(count, d) ← read_u32_le d;
                '(rs, d) ← decode_records (Z.to_nat count) d;
                Ok ({| sequence := sq; records := rs |}, d)).
Proof.
  unfold decode_batch. case_res; [done|].
  destruct (read_u64_le d) as [[sq d1]| |]; simpl; [|done..].
  destruct (read_u32_le d1) as [[n d2]| |]; simpl; [|done..].
  by destruct (decode_records (Z.to_nat n) d2) as [[rs d3]| |].
Qed.

Lemma encode_batch_length b : (12 <= length (encode_batch b))%nat.
Proof. unfold encode_batch. rewrite !length_app, !le_split_length. lia. Qed.

Lemma decode_encoded_batch b rest :
  batch_wf b -> decode_batch (encode_batch b ++ rest) = Ok (canon_batch b).
Proof.
  intros Hb. destruct (Reads_batch b Hb) as [H _].
  rewrite decode_batch_alt, H. pose proof (encode_batch_length b).
  destruct (Nat.ltb_spec (length (encode_batch b ++ rest)) 12) as [Hl|_]; [|done].
  rewrite length_app in Hl. lia.
Qed.

Lemma last_seq_canon b : last_seq (canon_batch b) = last_seq b.
Proof. unfold last_seq. simpl. by rewrite length_map. Qed.

(** ** Properties *)

(** Decoding an encoded write batch, followed by any further bytes,
    gives back the batch (a missing value is read as the empty value). *)
Theorem decode_encode_batch b rest :
  batch_wf b -> decode_batch (encode_batch b ++ rest) = Ok (canon_batch b).
Proof. apply decode_encoded_batch. Qed.

Definition example_batch : WriteBatch :=
  delete [Byte.x6b] (put [Byte.x6b; b0] [bFF] (new_batch 42)).

Lemma decode_encode_batch_witness :
  decode_batch (encode_batch example_batch ++ [b0]) = Ok example_batch.
Proof.
  apply (decode_encode_batch example_batch [b0]).
  split; [unfold in_u; simpl; lia|]. split; [simpl; lia|].
  repeat constructor; simpl; lia.
Defined.

(** A torn write batch is always detected: decoding any proper
    prefix of an encoded batch fails with an error, never with a panic and
    never with a wrong batch. *)
Theorem decode_truncated_batch b m :
  batch_wf b -> (m < length (encode_batch b))%nat ->
  exists e, decode_batch (take m (encode_batch b)) = Err e.
Proof.
  intros Hb Hm. destruct (Reads_batch b Hb) as [_ H].
  rewrite decode_batch_alt. case_res; [by eexists|].
  destruct (H m Hm) as [e ->]. by eexists.
Qed.

Lemma decode_truncated_batch_witness :
  exists e, decode_batch (take 14 (encode_batch example_batch)) = Err e.
Proof.
  apply (decode_truncated_batch example_batch 14).
  - split; [unfold in_u; simpl; lia|]. split; [simpl; lia|].
    repeat constructor; simpl; lia.
  - vm_compute. lia.
Defined.
