(* ===== verification/WalLog.v ===== *)
(** * The write-ahead log file

    [src/crates/merutable/src/wal/format.rs], [writer.rs] and [reader.rs]:
    payloads are fragmented into checksummed physical records inside 32 KiB
    blocks, and recovery reassembles them.  The sink is an interface
    ([WalSink]); the checksum [crc32fast] is a parameter of the model. *)

From S2P Require Import Prelude.
Local Open Scope Z_scope.
Local Open Scope nat_scope.

(** ** Format *)
Definition BLOCK_SIZE : nat := Z.to_nat 32768.
Definition HEADER_SIZE : nat := 7.
Definition RECYCLABLE_HEADER_SIZE : nat := 11.

Lemma BLOCK_SIZE_eq : (32768 <= Z.of_nat BLOCK_SIZE <= 32768)%Z.
Proof. unfold BLOCK_SIZE. rewrite Z2Nat.id; lia. Qed.
#[global] Opaque BLOCK_SIZE.

Inductive RecordType : Type :=
  | Full | First | Middle | Last
  | RecyclableFull | RecyclableFirst | RecyclableMiddle | RecyclableLast.

(** [self as u8]. *)
Definition type_code (t : RecordType) : byte :=
  match t with
  | Full => Byte.x01 | First => Byte.x02 | Middle => Byte.x03 | Last => Byte.x04
  | RecyclableFull => Byte.x05 | RecyclableFirst => Byte.x06
  | RecyclableMiddle => Byte.x07 | RecyclableLast => Byte.x08
  end.

Definition from_byte (b : byte) : option RecordType :=
  match b with
  | Byte.x01 => Some Full | Byte.x02 => Some First
  | Byte.x03 => Some Middle | Byte.x04 => Some Last
  | Byte.x05 => Some RecyclableFull | Byte.x06 => Some RecyclableFirst
  | Byte.x07 => Some RecyclableMiddle | Byte.x08 => Some RecyclableLast
  | _ => None
  end.

Definition is_recyclable (t : RecordType) : bool :=
  (5 <=? byte.unsigned (type_code t))%Z.

Definition header_size (t : RecordType) : nat :=
  if is_recyclable t then RECYCLABLE_HEADER_SIZE else HEADER_SIZE.

Lemma from_byte_type_code t : from_byte (type_code t) = Some t.
Proof. by destruct t. Qed.

(** ** Sinks *)

(** What the writer asks of a sink: [append] and [sync] return the sink after
    the call and a result; [content] is the bytes the file holds. *)
Class WalSink (S : Type) := {
  append : bytes -> S -> S * res unit;
  sync : S -> S * res unit;
  content : S -> bytes;
}.

(** A sink whose operations succeed and append exactly the given bytes. *)
Class ReliableSink (S : Type) `{!WalSink S} := {
  append_ok d s : exists s', append d s = (s', Ok tt) /\ content s' = content s ++ d;
  sync_ok s : exists s', sync s = (s', Ok tt) /\ content s' = content s;
}.

(** The in-memory sink of the tests, and a file without I/O errors. *)
#[global] Instance VecSink : WalSink bytes := {|
  append d s := (s ++ d, Ok tt); sync s := (s, Ok tt); content s := s |}.
#[global] Instance VecSink_reliable : ReliableSink bytes.
Proof. split; intros; simpl; eauto. Qed.

(** ** Writer *)
Record WalWriter : Type := {
  block_offset : nat;
  log_number : Z;
  recyclable : bool;
}.

Definition new_writer (log : Z) (rec : bool) : WalWriter :=
  {| block_offset := 0; log_number := log; recyclable := rec |}.

Definition available_in_block (w : WalWriter) : nat := BLOCK_SIZE - block_offset w.

Definition hsize (rec : bool) : nat := if rec then RECYCLABLE_HEADER_SIZE else HEADER_SIZE.

Definition effective_header_size (w : WalWriter) : nat := hsize (recyclable w).

Definition with_offset (w : WalWriter) (o : nat) : WalWriter :=
  {| block_offset := o; log_number := log_number w; recyclable := recyclable w |}.

(** The record type chosen by [add_record]. *)
Definition choose_type (is_first is_last rec : bool) : RecordType :=
  if is_first && is_last then if rec then RecyclableFull else Full
  else if is_first then if rec then RecyclableFirst else First
  else if is_last then if rec then RecyclableLast else Last
  else if rec then RecyclableMiddle else Middle.

Section with_crc.

(** [crc32fast::Hasher] over the concatenated updates. *)
Context (crc32 : bytes -> Z).

(** The header bytes of one physical record. *)
Definition record_header (w : WalWriter) (t : RecordType) (payload : bytes) : bytes :=
  le_split 4 (crc32 (type_code t :: payload))
  ++ le_split 2 (wrap 16 (Z.of_nat (length payload)))
  ++ [type_code t]
  ++ (if recyclable w then le_split 4 (wrap 32 (log_number w)) else []).

Section with_sink.
Context {S : Type} `{!WalSink S}.

Definition emit_physical_record (w : WalWriter) (s : S) (t : RecordType)
    (payload : bytes) : WalWriter * S * res unit :=
  match append (record_header w t payload) s with
  | (s, Ok _) =>
      match append payload s with
      | (s, Ok _) =>
          (with_offset w (block_offset w + (effective_header_size w + length payload)),
           s, Ok tt)
      | (s, e) => (w, s, e)
      end
  | (s, e) => (w, s, e)
  end.

(** The zero padding of a block that cannot hold a header. *)
Definition pad_block (w : WalWriter) (s : S) : WalWriter * S * res unit :=
  if available_in_block w <? effective_header_size w then
    match append (repeat b0 (available_in_block w)) s with
    | (s, Ok _) => (with_offset w 0, s, Ok tt)
    | (s, e) => (w, s, e)
    end
  else (w, s, Ok tt).

(** The [while !remaining.is_empty()] loop of [add_record]. *)
Fixpoint add_loop (fuel : nat) (w : WalWriter) (s : S) (remaining : bytes)
    (is_first : bool) : WalWriter * S * res unit :=
  match remaining with
  | [] => (w, s, Ok tt)
  | _ =>
      match fuel with
      | O => (w, s, Panic)
      | Datatypes.S fuel =>
          match pad_block w s with
          | (w, s, Ok _) =>
              if available_in_block w <? effective_header_size w then (w, s, Panic)
              else
                let capacity := available_in_block w - effective_header_size w in
                let n := min (length remaining) capacity in
                let fragment := take n remaining in
                let remaining := drop n remaining in
                let t := choose_type is_first (bool_decide (remaining = []))
                           (recyclable w) in
                match emit_physical_record w s t fragment with
                | (w, s, Ok _) => add_loop fuel w s remaining false
                | r => r
                end
          | r => r
          end
      end
  end.

(** [add_record]: a payload of [n] bytes takes at most [n + 1] rounds. *)
Definition add_record (w : WalWriter) (s : S) (payload : bytes) : WalWriter * S * res unit :=
  add_loop (length payload + 1) w s payload true.

End with_sink.

(** ** Reader *)
Record WalReader : Type := {
  file_offset : nat;
  block_off : nat;
  rd_recyclable : bool;
  expected_log_number : Z;
  eof : bool;
}.

Definition new_reader : WalReader :=
  {| file_offset := 0; block_off := 0; rd_recyclable := false;
     expected_log_number := 0; eof := false |}.

Definition new_recyclable (expected : Z) : WalReader :=
  {| file_offset := 0; block_off := 0; rd_recyclable := true;
     expected_log_number := expected; eof := false |}.

(** The reader that matches a log's format. *)
Definition reader_for (rec : bool) (log : Z) : WalReader :=
  if rec then new_recyclable (wrap 32 log) else new_reader.

Definition move_to (r : WalReader) (fo bo : nat) : WalReader :=
  {| file_offset := fo; block_off := bo; rd_recyclable := rd_recyclable r;
     expected_log_number := expected_log_number r; eof := eof r |}.

Definition set_eof (r : WalReader) : WalReader :=
  {| file_offset := file_offset r; block_off := block_off r;
     rd_recyclable := rd_recyclable r;
     expected_log_number := expected_log_number r; eof := true |}.

(** [read_at]: up to [n] bytes from [offset]. *)
Definition read_at (data : bytes) (offset n : nat) : bytes := take n (drop offset data).

(** Moving past the rest of the current block. *)
Definition skip_block (r : WalReader) : WalReader :=
  move_to r (file_offset r + (BLOCK_SIZE - block_off r)) 0.

(** Skip a block tail too short for a header. *)
Definition skip_tail (r : WalReader) : WalReader :=
  if BLOCK_SIZE - block_off r <? hsize (rd_recyclable r) then skip_block r else r.

(** The log-generation checks on a parsed type byte: [None] continues. *)
Definition check_generation (r : WalReader) (t : RecordType) (header : bytes)
    : option (res (option (RecordType * bytes))) :=
  if rd_recyclable r then
    if negb (is_recyclable t) then
      Some (Err (Corruption "non-recyclable record type in recyclable log"))
    else if negb (le_combine (take 4 (drop 7 header)) =? expected_log_number r)%Z then
      Some (Ok None)
    else None
  else if is_recyclable t then
    Some (Err (Corruption "recyclable record type in non-recyclable log"))
  else None.

(** The loop of [read_physical_record]. *)
Fixpoint read_physical (fuel : nat) (data : bytes) (r : WalReader)
    : WalReader * res (option (RecordType * bytes)) :=
  match fuel with
  | O => (r, Panic)
  | Datatypes.S fuel =>
      let r := skip_tail r in
      let hs := hsize (rd_recyclable r) in
      let header := read_at data (file_offset r) hs in
      if length header =? 0 then (r, Ok None)
      else if length header <? hs then (r, Err (Corruption "truncated WAL header"))
      else
        let stored_crc := le_combine (take 4 header) in
        let len := Z.to_nat (le_combine (take 2 (drop 4 header))) in
        match header !! 6 with
        | None => (r, Panic)
        | Some type_byte =>
            if (stored_crc =? 0)%Z && (len =? 0) && bool_decide (type_byte = b0) then
              read_physical fuel data (skip_block r)
            else
              match from_byte type_byte with
              | None => (r, Err (Corruption "unknown record type"))
              | Some t =>
                  match check_generation r t header with
                  | Some out => (r, out)
                  | None =>
                      let payload := read_at data (file_offset r + hs) len in
                      if length payload <? len then
                        (r, Err (Corruption "truncated WAL payload"))
                      else if negb (crc32 (type_byte :: payload) =? stored_crc)%Z then
                        (r, Err (Corruption "WAL CRC mismatch"))
                      else
                        let total := hs + len in
                        (move_to r (file_offset r + total)
                           ((block_off r + total) mod BLOCK_SIZE),
                         Ok (Some (t, payload)))
                  end
              end
        end
  end.

Definition read_physical_record (data : bytes) (r : WalReader) :=
  read_physical (length data + 2) data r.

(** The loop of [next_record] with [assembled] and [in_fragment]. *)
Fixpoint next_loop (fuel : nat) (data : bytes) (r : WalReader)
    (assembled : bytes) (in_fragment : bool) : WalReader * option (res bytes) :=
  match fuel with
  | O => (r, Some Panic)
  | Datatypes.S fuel =>
      match read_physical_record data r with
      | (r, Ok None) => (set_eof r, None)
      | (r, Ok (Some (t, payload))) =>
          match t with
          | Full | RecyclableFull =>
              if in_fragment then
                (r, Some (Err (Corruption "Full record while assembling fragment")))
              else (r, Some (Ok payload))
          | First | RecyclableFirst =>
              if in_fragment then
                (r, Some (Err (Corruption "First record while already in fragment")))
              else next_loop fuel data r payload true
          | Middle | RecyclableMiddle =>
              if in_fragment then next_loop fuel data r (assembled ++ payload) true
              else (r, Some (Err (Corruption "Middle record without First")))
          | Last | RecyclableLast =>
              if in_fragment then (r, Some (Ok (assembled ++ payload)))
              else (r, Some (Err (Corruption "Last record without First")))
          end
      | (r, Err _) => (set_eof r, None)
      | (r, Panic) => (r, Some Panic)
      end
  end.

Definition next_record (data : bytes) (r : WalReader) : WalReader * option (res bytes) :=
  if eof r then (r, None) else next_loop (length data + 2) data r [] false.

(** Iterating [records()] until it ends or yields an error, as recovery does:
    the payloads read, and whether the iteration ended cleanly. *)
Fixpoint read_records (fuel : nat) (data : bytes) (r : WalReader) : list bytes * res unit :=
  match fuel with
  | O => ([], Panic)
  | Datatypes.S fuel =>
      match next_record data r with
      | (_, None) => ([], Ok tt)
      | (r, Some (Ok p)) =>
          let '(l, o) := read_records fuel data r in (p :: l, o)
      | (_, Some (Err e)) => ([], Err e)
      | (_, Some Panic) => ([], Panic)
      end
  end.

Definition read_log (data : bytes) (r : WalReader) : list bytes * res unit :=
  read_records (length data + 2) data r.

End with_crc.

(** ** Reading back what was written *)
Section roundtrip.
Context (crc32 : bytes -> Z).
Context (crc_range : forall l, (0 <= crc32 l < 2 ^ 32)%Z).
Context (rec : bool) (log : Z).

Local Abbreviation hs := (hsize rec).

Definition wr (bo : nat) : WalWriter :=
  {| block_offset := bo; log_number := log; recyclable := rec |}.

(** A reader of this log positioned at file offset [fo], block offset [bo]. *)
Definition rd (fo bo : nat) : WalReader :=
  {| file_offset := fo; block_off := bo; rd_recyclable := rec;
     expected_log_number := if rec then wrap 32 log else 0%Z; eof := false |}.

(** Padding before the next header, and the offset after it. *)
Definition pad (bo : nat) : bytes :=
  if BLOCK_SIZE - bo <? hs then repeat b0 (BLOCK_SIZE - bo) else [].
Definition start (bo : nat) : nat := if BLOCK_SIZE - bo <? hs then 0 else bo.
Definition capacity (bo : nat) : nat := BLOCK_SIZE - start bo - hs.

(** Whether a record type belongs to this log's format. *)
Definition type_ok (t : RecordType) : Prop := is_recyclable t = rec.

(** One physical record as it lies in the file, padding included. *)
Definition phys (bo : nat) (t : RecordType) (frag : bytes) : bytes :=
  pad bo ++ record_header crc32 (wr (start bo)) t frag ++ frag.

Lemma hs_bounds : 7 <= hs <= 11.
Proof. destruct rec; cbv; lia. Qed.

Ltac sizes := pose proof hs_bounds; pose proof BLOCK_SIZE_eq.

Lemma start_room bo : hs <= BLOCK_SIZE - start bo.
Proof. sizes. unfold start. destruct (Nat.ltb_spec (BLOCK_SIZE - bo) hs); lia. Qed.

Lemma choose_type_ok f l : type_ok (choose_type f l rec).
Proof. unfold type_ok. by destruct f, l, rec. Qed.

Lemma record_header_length bo t p : length (record_header crc32 (wr bo) t p) = hs.
Proof.
  unfold record_header. simpl recyclable.
  destruct rec; autorewrite with meru; reflexivity.
Qed.

Lemma phys_length bo t p : length (phys bo t p) = length (pad bo) + hs + length p.
Proof. unfold phys. rewrite !length_app, record_header_length. lia. Qed.

Lemma skip_tail_start n bo :
  bo <= BLOCK_SIZE ->
  skip_tail (rd n (bo mod BLOCK_SIZE)) = rd (n + length (pad bo)) (start bo).
Proof.
  sizes. intros Hb. unfold skip_tail, pad, start. simpl.
  destruct (decide (bo = BLOCK_SIZE)) as [->|Hne].
  - rewrite Nat.Div0.mod_same, Nat.sub_0_r, Nat.sub_diag.
    destruct (Nat.ltb_spec BLOCK_SIZE hs); [lia|].
    destruct (Nat.ltb_spec 0 hs); [|lia]. simpl. by rewrite Nat.add_0_r.
  - rewrite (Nat.mod_small bo) by lia.
    destruct (Nat.ltb_spec (BLOCK_SIZE - bo) hs); simpl.
    + unfold skip_block. simpl. by rewrite repeat_length.
    + by rewrite Nat.add_0_r.
Qed.

(** What the reader extracts from a header followed by anything. *)
Lemma header_fields bo t p :
  (Z.of_nat (length p) < 2 ^ 16)%Z ->
  let h := record_header crc32 (wr bo) t p in
  le_combine (take 4 h) = crc32 (type_code t :: p) /\
  Z.to_nat (le_combine (take 2 (drop 4 h))) = length p /\
  h !! 6 = Some (type_code t) /\
  (rec = true -> le_combine (take 4 (drop 7 h)) = wrap 32 log).
Proof.
  intros Hp h. subst h. unfold record_header. simpl recyclable. simpl log_number.
  set (c := le_split 4 (crc32 (type_code t :: p))).
  set (l := le_split 2 (wrap 16 (Z.of_nat (length p)))).
  assert (Lc : length c = 4) by apply le_split_length.
  assert (Ll : length l = 2) by apply le_split_length.
  rewrite (take_app_length' c) by done. rewrite (drop_app_length' c) by done.
  rewrite (take_app_length' l) by done. repeat split.
  - apply le_combine_split_id, crc_range.
  - subst l. unfold wrap. rewrite Z.mod_small by lia.
    rewrite le_combine_split_id by lia. by rewrite Nat2Z.id.

  - intros Hr.
    assert (Hd : drop 7 (c ++ l ++ [type_code t]
                   ++ (if rec then le_split 4 (wrap 32 log) else []))
                 = le_split 4 (wrap 32 log)).
    { rewrite Hr, !app_assoc. apply drop_app_length'.
      rewrite !length_app, Lc, Ll. done. }
    rewrite Hd. rewrite take_ge by (by rewrite le_split_length).
    apply le_combine_split_id. apply Z.mod_pos_bound. lia.
Qed.

Lemma from_byte_nonzero t : bool_decide (type_code t = b0) = false.
Proof. by destruct t. Qed.

Lemma check_generation_ok fo bo t h :
  type_ok t -> (rec = true -> le_combine (take 4 (drop 7 h)) = wrap 32 log) ->
  check_generation (rd fo bo) t h = None.
Proof.
  unfold check_generation, type_ok. simpl. intros Ht Hl. rewrite Ht.
  destruct rec; [|done]. cbn [negb]. by rewrite Hl, Z.eqb_refl by done.
Qed.

Lemma read_at_app pre l t n :
  length l = n -> read_at (pre ++ l ++ t) (length pre) n = l.
Proof.
  intros Hn. unfold read_at. rewrite drop_app_length. by apply take_app_length'.
Qed.

(** A physical record in place is read back, whatever follows. *)
Lemma read_phys fuel pre bo t frag suf :
  bo <= BLOCK_SIZE -> type_ok t -> (Z.of_nat (length frag) < 2 ^ 16)%Z ->
  read_physical crc32 (S fuel) (pre ++ phys bo t frag ++ suf)
    (rd (length pre) (bo mod BLOCK_SIZE))
  = (rd (length pre + length (phys bo t frag))
        ((start bo + hs + length frag) mod BLOCK_SIZE),
     Ok (Some (t, frag))).
Proof.
  intros Hb Ht Hf. cbn [read_physical]. rewrite skip_tail_start by done.
  cbv zeta. cbn [rd rd_recyclable file_offset block_off].
  unfold phys. rewrite <- !app_assoc, (app_assoc pre), <- length_app.
  set (h := record_header crc32 (wr (start bo)) t frag).
  assert (Lh : length h = hs) by apply record_header_length.
  rewrite (read_at_app (pre ++ pad bo) h (frag ++ suf)) by done. rewrite Lh.
  sizes. destruct (Nat.eqb_spec hs 0); [lia|]. rewrite Nat.ltb_irrefl.
  destruct (header_fields (start bo) t frag Hf) as (E1 & E2 & E3 & E4).
  fold h in E1, E2, E3, E4. rewrite E1, E2, E3, from_byte_nonzero, andb_false_r.
  rewrite from_byte_type_code, check_generation_ok by done.
  rewrite <- Lh, <- length_app.
  rewrite app_assoc, (app_assoc _ frag), <- (app_assoc _ frag).
  rewrite read_at_app by done. rewrite Nat.ltb_irrefl, Z.eqb_refl. simpl.
  unfold move_to, rd. simpl. f_equal. rewrite !length_app, !Nat.add_assoc. done.
Qed.

Ltac stops := do 2 eexists; split; [reflexivity | eauto].

(** A physical record cut short is never returned. *)
Lemma read_phys_cut fuel pre bo t frag k :
  bo <= BLOCK_SIZE -> type_ok t -> (Z.of_nat (length frag) < 2 ^ 16)%Z ->
  k < length (phys bo t frag) ->
  exists r o, read_physical crc32 (S fuel) (pre ++ take k (phys bo t frag))
    (rd (length pre) (bo mod BLOCK_SIZE)) = (r, o) /\
  (o = Ok None \/ exists e, o = Err e).
Proof.
  intros Hb Ht Hf Hk. cbn [read_physical]. rewrite skip_tail_start by done.
  cbv zeta. cbn [rd rd_recyclable file_offset block_off].
  rewrite phys_length in Hk. unfold phys.
  set (h := record_header crc32 (wr (start bo)) t frag).
  assert (Lh : length h = hs) by apply record_header_length.
  sizes. destruct (Nat.le_gt_cases k (length (pad bo))) as [H1|H1].
  { unfold read_at. rewrite take_app_le by lia. rewrite drop_ge.
    2:{ rewrite length_app, length_take. lia. }
    rewrite take_nil. simpl. stops. }
  rewrite take_app_ge by lia. rewrite app_assoc, <- length_app.
  unfold read_at at 1. rewrite drop_app_length.
  destruct (Nat.lt_ge_cases (k - length (pad bo)) hs) as [H2|H2].
  { unfold read_at. rewrite drop_app_length, take_app_le by lia.
    rewrite take_take, !length_take.
    destruct (Nat.eqb_spec (hs `min` (k - length (pad bo)) `min` length h) 0); [lia|].
    destruct (Nat.ltb_spec (hs `min` (k - length (pad bo)) `min` length h) hs); [|lia].
    stops. }
  rewrite take_app_ge by lia. rewrite Lh.
  rewrite (read_at_app _ h) by done.
  rewrite (take_app_length' h) by done. rewrite Lh.
  destruct (Nat.eqb_spec hs 0); [lia|]. rewrite Nat.ltb_irrefl.
  destruct (header_fields (start bo) t frag Hf) as (E1 & E2 & E3 & E4).
  fold h in E1, E2, E3, E4. rewrite E1, E2, E3, from_byte_nonzero, andb_false_r.
  rewrite from_byte_type_code, check_generation_ok by done.
  replace (length (pre ++ pad bo) + hs) with (length ((pre ++ pad bo) ++ h))
    by (rewrite length_app; lia).
  unfold read_at. rewrite app_assoc, drop_app_length.
  destruct (Nat.ltb_spec (length (take (length frag)
              (take (k - length (pad bo) - hs) frag))) (length frag)) as [_|Hge];
    [stops|].
  rewrite !length_take in Hge. lia.
Qed.

(** ** Fragmentation *)

(** [Frags first bo p out bo']: a payload [p] (or its rest, when not [first])
    written from block offset [bo] occupies the bytes [out] and leaves the
    writer at [bo']. *)
Inductive Frags : bool -> nat -> bytes -> bytes -> nat -> Prop :=
  | Frags_last f bo p :
      p <> [] -> length p <= capacity bo ->
      Frags f bo p (phys bo (choose_type f true rec) p) (start bo + hs + length p)
  | Frags_more f bo p q out bo' :
      length p = capacity bo -> q <> [] -> Frags false BLOCK_SIZE q out bo' ->
      Frags f bo (p ++ q) (phys bo (choose_type f false rec) p ++ out) bo'.

Lemma capacity_u16 bo : (Z.of_nat (capacity bo) < 2 ^ 16)%Z.
Proof. sizes. unfold capacity. lia. Qed.

Lemma Frags_offset f bo p out bo' : Frags f bo p out bo' -> bo' <= BLOCK_SIZE.
Proof.
  induction 1 as [f bo p Hp Hc|]; [|done].
  sizes. pose proof (start_room bo). unfold capacity in Hc. lia.
Qed.

Lemma Frags_length f bo p out bo' : Frags f bo p out bo' -> 7 <= length out.
Proof.
  sizes. destruct 1; rewrite ?length_app, ?phys_length; lia.
Qed.

Lemma more_offset bo : start bo + hs + capacity bo = BLOCK_SIZE.
Proof. sizes. pose proof (start_room bo). unfold capacity. lia. Qed.

Lemma read_phys_at pre bo t frag suf :
  bo <= BLOCK_SIZE -> type_ok t -> length frag <= capacity bo ->
  read_physical_record crc32 (pre ++ phys bo t frag ++ suf)
    (rd (length pre) (bo mod BLOCK_SIZE))
  = (rd (length (pre ++ phys bo t frag))
        ((start bo + hs + length frag) mod BLOCK_SIZE),
     Ok (Some (t, frag))).
Proof.
  intros. unfold read_physical_record. rewrite Nat.add_succ_r.
  rewrite read_phys by (done || (pose proof (capacity_u16 bo); lia)).
  by rewrite length_app.
Qed.

(** The reader reassembles a fragmented payload, whatever follows it. *)
Lemma next_loop_full f bo p out bo' pre suf asm fuel :
  Frags f bo p out bo' -> bo <= BLOCK_SIZE -> length out <= fuel ->
  next_loop crc32 fuel (pre ++ out ++ suf) (rd (length pre) (bo mod BLOCK_SIZE))
    asm (negb f)
  = (rd (length (pre ++ out)) (bo' mod BLOCK_SIZE),
     Some (Ok ((if f then [] else asm) ++ p))).
Proof.
  intros HF. revert pre asm fuel.
  induction HF as [f bo p Hp Hc|f bo p q out bo' Hc Hq HF IH];
    intros pre asm fuel Hb Hfuel.
  - rewrite phys_length in Hfuel. sizes. destruct fuel as [|fuel]; [lia|].
    cbn [next_loop]. rewrite read_phys_at by (done || apply choose_type_ok).
    by destruct f, rec.
  - rewrite length_app, phys_length in Hfuel. sizes. destruct fuel as [|fuel]; [lia|].
    cbn [next_loop]. rewrite <- app_assoc.
    rewrite read_phys_at by (apply choose_type_ok || lia).
    rewrite Hc, more_offset, app_assoc.
    assert (G : forall asm', next_loop crc32 fuel
               ((pre ++ phys bo (choose_type f false rec) p) ++ out ++ suf)
               (rd (length (pre ++ phys bo (choose_type f false rec) p))
                  (BLOCK_SIZE mod BLOCK_SIZE)) asm' true
             = (rd (length ((pre ++ phys bo (choose_type f false rec) p) ++ out))
                   (bo' mod BLOCK_SIZE), Some (Ok (asm' ++ q)))).
    { intros asm'. apply IH; lia. }
    rewrite app_assoc.
    destruct f; [specialize (G p)|specialize (G (asm ++ p))];
      rewrite <- ?app_assoc in *; by destruct rec.
Qed.

(** A payload cut anywhere is dropped: the iteration ends cleanly. *)
Lemma next_loop_cut f bo p out bo' pre asm fuel k :
  Frags f bo p out bo' -> bo <= BLOCK_SIZE -> k < length out -> k < fuel ->
  exists r, next_loop crc32 fuel (pre ++ take k out)
              (rd (length pre) (bo mod BLOCK_SIZE)) asm (negb f) = (set_eof r, None).
Proof.
  intros HF. revert pre asm fuel k.
  induction HF as [f bo p Hp Hc|f bo p q out bo' Hc Hq HF IH];
    intros pre asm [|fuel] k Hb Hk Hfuel; [lia| |lia|]; cbn [next_loop].
  - destruct (read_phys_cut (length (pre ++ take k (phys bo (choose_type f true rec) p)) + 1)
                pre bo (choose_type f true rec) p k) as (r & o & E & Ho);
      [done|apply choose_type_ok|pose proof (capacity_u16 bo); lia|done|].
    unfold read_physical_record. rewrite Nat.add_succ_r, E.
    destruct Ho as [->|[e ->]]; eauto.
  - set (ph := phys bo (choose_type f false rec) p).
    assert (Lph : length ph = length (pad bo) + hs + length p) by apply phys_length.
    destruct (Nat.lt_ge_cases k (length ph)) as [H1|H1].
    + rewrite take_app_le by lia.
      destruct (read_phys_cut (length (pre ++ take k ph) + 1)
                pre bo (choose_type f false rec) p k) as (r & o & E & Ho);
        [done|apply choose_type_ok|pose proof (capacity_u16 bo); lia|done|].
      fold ph in E. unfold read_physical_record. rewrite Nat.add_succ_r, E.
      destruct Ho as [->|[e ->]]; eauto.
    + rewrite take_app_ge by lia. subst ph.
      rewrite read_phys_at by (apply choose_type_ok || lia).
      rewrite Hc, more_offset, app_assoc. rewrite length_app in Hk. sizes.
      assert (G : forall asm', exists r, next_loop crc32 fuel
               ((pre ++ phys bo (choose_type f false rec) p) ++
                  take (k - length (phys bo (choose_type f false rec) p)) out)
               (rd (length (pre ++ phys bo (choose_type f false rec) p))
                  (BLOCK_SIZE mod BLOCK_SIZE)) asm' true = (set_eof r, None)).
      { intros asm'. apply (IH _ asm' fuel); lia. }
      destruct f; [destruct (G p) as [r E]|destruct (G (asm ++ p)) as [r E]];
        exists r; by destruct rec.
Qed.

(** ** The writer produces that layout *)
Section writer.
Context {S : Type} `{!WalSink S} `{!ReliableSink S}.

Lemma pad_block_spec bo (s : S) :
  exists s', pad_block (wr bo) s = (wr (start bo), s', Ok tt) /\
             content s' = content s ++ pad bo.
Proof.
  unfold pad_block, available_in_block, effective_header_size, pad, start. simpl.
  destruct (Nat.ltb_spec (BLOCK_SIZE - bo) hs).
  - destruct (append_ok (repeat b0 (BLOCK_SIZE - bo)) s) as (s' & -> & ?).
    by exists s'.
  - exists s. by rewrite app_nil_r.
Qed.

Lemma emit_spec bo t frag (s : S) :
  exists s', emit_physical_record crc32 (wr bo) s t frag
             = (wr (bo + hs + length frag), s', Ok tt) /\
    content s' = content s ++ record_header crc32 (wr bo) t frag ++ frag.
Proof.
  unfold emit_physical_record.
  destruct (append_ok (record_header crc32 (wr bo) t frag) s) as (s1 & -> & E1).
  destruct (append_ok frag s1) as (s2 & -> & E2).
  exists s2. rewrite E2, E1, <- app_assoc. split; [|done].
  unfold with_offset, wr, effective_header_size. simpl. by rewrite Nat.add_assoc.
Qed.

Lemma add_loop_spec fuel bo (s : S) p f :
  p <> [] -> length p + (if decide (capacity bo = 0) then 1 else 0) <= fuel ->
  exists s' out bo', add_loop crc32 fuel (wr bo) s p f = (wr bo', s', Ok tt) /\
    content s' = content s ++ out /\ Frags f bo p out bo'.
Proof.
  revert bo s p f. induction fuel as [|fuel IH]; intros bo s p f Hp Hfuel.
  { destruct p; simpl in *; [done|lia]. }
  assert (U : add_loop crc32 (Datatypes.S fuel) (wr bo) s p f =
    match pad_block (wr bo) s with
    | (w, s, Ok _) =>
        if available_in_block w <? effective_header_size w then (w, s, Panic)
        else
          let n := min (length p) (available_in_block w - effective_header_size w) in
          match emit_physical_record crc32 w s
                  (choose_type f (bool_decide (drop n p = [])) (recyclable w)) (take n p) with
          | (w, s, Ok _) => add_loop crc32 fuel w s (drop n p) false
          | r => r
          end
    | r => r
    end) by (destruct p; [done|reflexivity]).
  rewrite U. clear U.
  destruct (pad_block_spec bo s) as (s1 & -> & E1).
  unfold available_in_block, effective_header_size. simpl.
  pose proof (start_room bo) as Hroom. sizes.
  destruct (Nat.ltb_spec (BLOCK_SIZE - start bo) hs); [lia|].
  fold (capacity bo). set (n := length p `min` capacity bo).
  destruct (emit_spec (start bo) (choose_type f (bool_decide (drop n p = [])) rec)
              (take n p) s1) as (s2 & -> & E2).
  destruct (Nat.le_gt_cases (length p) (capacity bo)) as [Hle|Hgt].
  - assert (n = length p) as -> by (unfold n; lia).
    rewrite drop_all, take_ge by lia. exists s2.
    eexists _, _. split; [by destruct fuel|].
    rewrite E2, E1, drop_all, bool_decide_true, take_ge, <- app_assoc by (done || lia).
    split; [reflexivity|]. by apply Frags_last.
  - assert (Hn : n = capacity bo) by (unfold n; lia). rewrite Hn in *.
    assert (Hd : drop (capacity bo) p <> []).
    { intros Hd%(f_equal length). rewrite length_drop in Hd. simpl in Hd. lia. }
    assert (Lt : length (take (capacity bo) p) = capacity bo)
      by (rewrite length_take; lia).
    rewrite bool_decide_false in * by done. rewrite Lt, more_offset.
    assert (Hc : capacity BLOCK_SIZE <> 0).
    { unfold capacity, start. destruct (Nat.ltb_spec (BLOCK_SIZE - BLOCK_SIZE) hs); lia. }
    destruct (IH BLOCK_SIZE s2 (drop (capacity bo) p) false)
      as (s3 & out & bo' & -> & E3 & HF); [done| |].
    { rewrite length_drop, decide_False by done. case_decide; lia. }
    exists s3. eexists _, bo'. split; [reflexivity|].
    rewrite E3, E2, E1, <- !app_assoc. split.
    + rewrite (app_assoc (record_header _ _ _ _)), (app_assoc (pad bo)). reflexivity.
    + rewrite <- (take_drop (capacity bo) p) at 1. by apply Frags_more.
Qed.

Lemma add_record_spec bo (s : S) p :
  p <> [] ->
  exists s' out bo', add_record crc32 (wr bo) s p = (wr bo', s', Ok tt) /\
    content s' = content s ++ out /\ Frags true bo p out bo'.
Proof. intros Hp. apply add_loop_spec; [done|]. case_decide; lia. Qed.

(** Appending a sequence of payloads, stopping at the first failure. *)
Fixpoint add_records (w : WalWriter) (s : S) (ps : list bytes) : WalWriter * S * res unit :=
  match ps with
  | [] => (w, s, Ok tt)
  | p :: ps =>
      match add_record crc32 w s p with
      | (w, s, Ok _) => add_records w s ps
      | r => r
      end
  end.

(** The bytes of each record of a log, in order. *)
Inductive Layout : nat -> list bytes -> list bytes -> nat -> Prop :=
  | Layout_nil bo : Layout bo [] [] bo
  | Layout_cons bo p out bo1 ps outs bo' :
      Frags true bo p out bo1 -> Layout bo1 ps outs bo' ->
      Layout bo (p :: ps) (out :: outs) bo'.

Lemma add_records_spec bo (s : S) ps :
  Forall (fun p => p <> []) ps ->
  exists outs bo', Layout bo ps outs bo' /\
    forall i, exists w s', add_records (wr bo) s (take i ps) = (w, s', Ok tt) /\
      content s' = content s ++ concat (take i outs).
Proof.
  intros H. revert bo s. induction H as [|p ps Hp _ IH]; intros bo s; simpl.
  { exists [], bo. split; [constructor|]. intros i. exists (wr bo), s.
    rewrite !take_nil, app_nil_r. done. }
  destruct (add_record_spec bo s p Hp) as (s1 & out & bo1 & E0 & E1 & HF).
  destruct (IH bo1 s1) as (outs & bo' & HL & Hi).
  exists (out :: outs), bo'. split; [by econstructor|].
  intros [|i]; simpl; [exists (wr bo), s; by rewrite app_nil_r|].
  rewrite E0. destruct (Hi i) as (w & s2 & -> & E2). exists w, s2.
  by rewrite E2, E1, <- app_assoc.
Qed.
End writer.

(** How many records lie completely within the first [k] bytes. *)
Fixpoint complete (k : nat) (outs : list bytes) : nat :=
  match outs with
  | [] => 0
  | o :: outs => if length o <=? k then S (complete (k - length o) outs) else 0
  end.

Lemma complete_spec k outs i :
  i <= length outs -> (i <= complete k outs <-> length (concat (take i outs)) <= k).
Proof.
  revert k i. induction outs as [|o outs IH]; intros k [|i] Hi; simpl in *; try lia.
  rewrite length_app. destruct (Nat.leb_spec (length o) k).
  - rewrite <- Nat.succ_le_mono, IH by lia. lia.
  - lia.
Qed.

Lemma complete_le k outs : complete k outs <= length outs.
Proof.
  revert k. induction outs as [|o outs IH]; intros k; simpl; [lia|].
  case_res; [|lia]. specialize (IH (k - length o)). lia.
Qed.

Lemma next_record_eof data r : next_record crc32 data (set_eof r) = (set_eof r, None).
Proof. done. Qed.

(** Nothing follows the last complete record. *)
Lemma read_records_end fuel pre bo :
  bo <= BLOCK_SIZE -> 0 < fuel ->
  read_records crc32 fuel pre (rd (length pre) (bo mod BLOCK_SIZE)) = ([], Ok tt).
Proof.
  intros Hb Hf. destruct fuel as [|fuel]; [lia|]. cbn [read_records].
  unfold next_record. simpl eof. cbv iota.
  rewrite Nat.add_succ_r. cbn [next_loop]. unfold read_physical_record.
  rewrite Nat.add_succ_r. cbn [read_physical]. rewrite skip_tail_start by done.
  cbv zeta. cbn [rd file_offset]. unfold read_at. rewrite drop_ge by lia.
  by rewrite take_nil.
Qed.

Lemma read_records_prefix bo ps outs bo' pre fuel k :
  Layout bo ps outs bo' -> bo <= BLOCK_SIZE -> length (take k (concat outs)) < fuel ->
  read_records crc32 fuel (pre ++ take k (concat outs)) (rd (length pre) (bo mod BLOCK_SIZE))
  = (take (complete k outs) ps, Ok tt).
Proof.
  intros HL. revert pre fuel k.
  induction HL as [bo|bo p out bo1 ps outs bo' HF HL IH]; intros pre fuel k Hb Hf; simpl.
  { rewrite take_nil, app_nil_r. apply read_records_end; lia. }
  pose proof (Frags_length _ _ _ _ _ HF) as Hlen.
  destruct fuel as [|fuel]; [lia|]. cbn [read_records]. unfold next_record.
  simpl eof. cbv iota.
  destruct (Nat.leb_spec (length out) k) as [Hle|Hgt].
  - rewrite take_app_ge by lia.
    change false with (negb true) at 1.
    rewrite (next_loop_full true bo p out bo1) by
      (done || (rewrite !length_app; lia)).
    cbn [concat] in Hf. rewrite take_app_ge, length_app in Hf by lia.
    rewrite app_assoc, IH by (lia || by eapply Frags_offset). done.
  - rewrite take_app_le by lia. change false with (negb true) at 1.
    destruct (next_loop_cut true bo p out bo1 pre [] (length (pre ++ take k out) + 2) k)
      as [r E]; [done..| |].
    { rewrite length_app, length_take. lia. }
    by rewrite E.
Qed.

Lemma reader_for_rd : reader_for rec log = rd 0 (0 mod BLOCK_SIZE).
Proof.
  unfold reader_for, rd, new_reader, new_recyclable. pose proof BLOCK_SIZE_eq.
  rewrite Nat.mod_small by lia. by destruct rec.
Qed.

Lemma read_log_prefix ps outs bo' k :
  Layout 0 ps outs bo' ->
  read_log crc32 (take k (concat outs)) (reader_for rec log)
  = (take (complete k outs) ps, Ok tt).
Proof.
  intros HL. rewrite reader_for_rd.
  apply (read_records_prefix 0 ps outs bo' [] (length (take k (concat outs)) + 2) k HL);
    lia.
Qed.

Lemma Layout_length bo ps outs bo' : Layout bo ps outs bo' -> length outs = length ps.
Proof. induction 1; simpl; congruence. Qed.
End roundtrip.

(** ** The reader on arbitrary bytes *)
Section arbitrary.
Context (crc32 : bytes -> Z) (data : bytes).

Definition reader_ok (r : WalReader) : Prop := block_off r < BLOCK_SIZE.

Lemma hsize_bounds rec : 7 <= hsize rec <= 11.
Proof. destruct rec; cbv; lia. Qed.

Lemma skip_tail_ok r :
  reader_ok r -> reader_ok (skip_tail r) /\ file_offset r <= file_offset (skip_tail r) /\
  rd_recyclable (skip_tail r) = rd_recyclable r.
Proof.
  unfold reader_ok, skip_tail, skip_block, move_to. intros H. pose proof BLOCK_SIZE_eq.
  case_res; simpl; repeat split; lia.
Qed.

Lemma check_generation_out r t h o :
  check_generation r t h = Some o -> (exists e, o = Err e) \/ o = Ok None.
Proof.
  unfold check_generation.
  destruct (rd_recyclable r), (is_recyclable t); cbn [negb];
    [destruct (negb _)| | |]; intros [= <-]; eauto.
Qed.

(** Reading a physical record never panics, and a returned record advances
    the reader inside the file. *)
Lemma read_physical_total fuel r :
  reader_ok r -> length data - file_offset r < fuel ->
  let '(r', o) := read_physical crc32 fuel data r in
  o <> Panic /\
  (forall x, o = Ok (Some x) -> reader_ok r' /\ file_offset r < length data /\
             file_offset r < file_offset r').
Proof.
  revert r. induction fuel as [|fuel IH]; intros r Hr Hf; [lia|].
  cbn [read_physical]. cbv zeta.
  destruct (skip_tail_ok r Hr) as (Hr1 & Hle & _). set (r1 := skip_tail r) in *.
  pose proof (hsize_bounds (rd_recyclable r1)) as Hh. pose proof BLOCK_SIZE_eq.
  set (h := read_at data (file_offset r1) (hsize (rd_recyclable r1))) in *.
  assert (Lh : length h = hsize (rd_recyclable r1) `min` (length data - file_offset r1)).
  { unfold h, read_at. by rewrite length_take, length_drop. }
  destruct (Nat.eqb_spec (length h) 0); [done|].
  destruct (Nat.ltb_spec (length h) (hsize (rd_recyclable r1))); [done|].
  assert (Hin : file_offset r1 < length data) by lia.
  destruct (h !! 6) as [b|] eqn:E6.
  2:{ apply lookup_ge_None in E6. lia. }
  case_res.
  { assert (Hs : reader_ok (skip_block r1)) by (unfold reader_ok; simpl; lia).
    specialize (IH (skip_block r1) Hs). unfold skip_block, move_to in *. simpl in *.
    specialize (IH ltac:(unfold reader_ok in *; lia)).
    destruct (read_physical crc32 fuel data _) as [r2 o]. destruct IH as [I1 I2].
    split; [done|]. intros x Hx. destruct (I2 x Hx) as (? & ? & ?).
    repeat split; [done|lia|lia]. }
  destruct (from_byte b) as [t|]; [|done].
  destruct (check_generation r1 t h) as [o|] eqn:Eg.
  { apply check_generation_out in Eg as [[e ->]| ->]; done. }
  destruct (length (read_at _ _ _) <? _); [done|].
  destruct (negb _); [done|]. split; [done|]. intros x [= <-].
  unfold reader_ok, move_to. cbn [block_off file_offset]. repeat split; [|lia|lia].
  apply Nat.mod_upper_bound. lia.
Qed.

Lemma next_loop_total fuel r asm inf :
  reader_ok r -> length data - file_offset r < fuel ->
  let '(r', o) := next_loop crc32 fuel data r asm inf in
  o <> Some Panic /\
  (forall p, o = Some (Ok p) -> reader_ok r' /\ file_offset r < length data /\
             file_offset r < file_offset r').
Proof.
  revert r asm inf. induction fuel as [|fuel IH]; intros r asm inf Hr Hf; [lia|].
  cbn [next_loop]. unfold read_physical_record.
  pose proof (read_physical_total (length data + 2) r Hr ltac:(lia)) as HT.
  destruct (read_physical crc32 (length data + 2) data r) as [r1 o].
  destruct HT as [Hp Hadv]. destruct o as [[[t payload]|]|e|]; [|done..].
  destruct (Hadv _ eq_refl) as (A1 & A2 & A3).
  assert (G : forall asm', let '(r', o) := next_loop crc32 fuel data r1 asm' true in
    o <> Some Panic /\
    (forall p, o = Some (Ok p) -> reader_ok r' /\ file_offset r < length data /\
               file_offset r < file_offset r')).
  { intros asm'. specialize (IH r1 asm' true A1 ltac:(lia)).
    destruct (next_loop crc32 fuel data r1 asm' true) as [r2 o2].
    destruct IH as [I1 I2]. split; [done|]. intros p Hp'.
    destruct (I2 p Hp') as (? & ? & ?). repeat split; [done|lia|lia]. }
  destruct t, inf; try apply G; (split; [done|]); intros p Hpp; simplify_eq; auto.
Qed.

Lemma read_records_total fuel r :
  reader_ok r -> length data - file_offset r < fuel -> (read_records crc32 fuel data r).2 <> Panic.
Proof.
  revert r. induction fuel as [|fuel IH]; intros r Hr Hf; [lia|].
  cbn [read_records]. unfold next_record. destruct (eof r); [done|].
  pose proof (next_loop_total (length data + 2) r [] false Hr ltac:(lia)) as HT.
  destruct (next_loop crc32 (length data + 2) data r [] false) as [r1 o].
  destruct HT as [H1 H2]. destruct o as [[p|e|]|]; [|done..].
  destruct (H2 p eq_refl) as (A1 & A2 & A3).
  specialize (IH r1 A1 ltac:(lia)). by destruct (read_records crc32 fuel data r1).
Qed.
End arbitrary.

(** ** A sink that fails

    Each append consumes one entry of the plan: [None] writes everything,
    [Some n] writes [n] bytes and returns an I/O error. *)
Record FaultySink : Type := { written : bytes; plan : list (option nat) }.

#[global] Instance FaultySink_sink : WalSink FaultySink := {|
  append d s :=
    match plan s with
    | Some n :: ps => ({| written := written s ++ take n d; plan := ps |}, Err Io)
    | None :: ps => ({| written := written s ++ d; plan := ps |}, Ok tt)
    | [] => ({| written := written s ++ d; plan := [] |}, Ok tt)
    end;
  sync s := (s, Ok tt);
  content s := written s |}.

(** A checksum used by the worked examples: the wrapped sum of the bytes. *)
Definition example_crc (l : bytes) : Z :=
  wrap 32 (foldr (fun b acc => byte.unsigned b + 1 + 3 * acc) 7 l)%Z.

Lemma example_crc_range l : (0 <= example_crc l < 2 ^ 32)%Z.
Proof. apply Z.mod_pos_bound. lia. Qed.

(** ** Properties *)

(** C26. Crash safety of the log file: after appending a sequence of
    non-empty payloads to a sink that does not fail, cutting the file at an
    arbitrary byte [k] and recovering yields exactly the payloads whose append
    had completed within the first [k] bytes, in order, and stops cleanly. *)
Theorem recover_torn_log (crc32 : bytes -> Z) rec log {S : Type}
    `{!WalSink S, !ReliableSink S} (s0 : S) ps k :
  (forall l, (0 <= crc32 l < 2 ^ 32)%Z) -> content s0 = [] ->
  Forall (fun p => p <> []) ps ->
  let run n := add_records crc32 (new_writer log rec) s0 (take n ps) in
  exists j, j <= length ps /\
    read_log crc32 (take k (content (run (length ps)).1.2))
      (reader_for rec log) = (take j ps, Ok tt) /\
    forall i, i <= length ps ->
      (run i).2 = Ok tt /\ (i <= j <-> length (content (run i).1.2) <= k).
Proof.
  intros Hcrc Hs0 Hps run.
  destruct (add_records_spec crc32 rec log 0 s0 ps Hps) as (outs & bo' & HL & Hi).
  pose proof (Layout_length crc32 rec log _ _ _ _ HL) as Hlen.
  exists (complete k outs). pose proof (complete_le k outs). split; [lia|]. split.
  - destruct (Hi (length ps)) as (w & s' & E & C). subst run. cbv beta.
    change (new_writer log rec) with (wr rec log 0). rewrite E. simpl.
    rewrite C, Hs0, (take_ge outs) by lia. by eapply read_log_prefix.
  - intros i Hle. destruct (Hi i) as (w & s' & E & C). subst run. cbv beta.
    change (new_writer log rec) with (wr rec log 0). rewrite E. simpl.
    split; [done|]. rewrite C, Hs0. simpl. apply complete_spec. lia.
Qed.

(** Two short records, cut in the middle of the second. *)
Lemma recover_torn_log_witness :
  exists j, j <= 2 /\
    read_log example_crc
      (take 20 (content (add_records example_crc (new_writer 3 false) ([] : bytes)
                  (take 2 [[bFF; b0; bFF]; [b0; b0; b0; b0]])).1.2))
      (reader_for false 3) = (take j [[bFF; b0; bFF]; [b0; b0; b0; b0]], Ok tt).
Proof.
  destruct (recover_torn_log example_crc false 3 ([] : bytes)
              [[bFF; b0; bFF]; [b0; b0; b0; b0]] 20) as (j & Hj & E & _).
  - exact example_crc_range.
  - reflexivity.
  - repeat constructor; discriminate.
  - exists j. split; [exact Hj|exact E].
Defined.

(** C28. Recovery terminates without panicking on every input: whatever bytes
    the file holds, reading it until the reader stops ends cleanly or with an
    error value, for both header formats and any expected log number. *)
Theorem read_log_never_panics (crc32 : bytes -> Z) data r :
  (r = new_reader \/ exists expected, r = new_recyclable expected) ->
  (read_log crc32 data r).2 = Ok tt \/ exists e, (read_log crc32 data r).2 = Err e.
Proof.
  intros Hinit.
  assert (Hr : reader_ok r /\ file_offset r = 0).
  { pose proof BLOCK_SIZE_eq. unfold reader_ok.
    destruct Hinit as [->|[? ->]]; cbn [block_off new_reader new_recyclable]; split;
      [lia|done|lia|done]. }
  destruct Hr as [Hr H0].
  pose proof (read_records_total crc32 data (length data + 2) _ Hr ltac:(lia)) as HT.
  fold (read_log crc32 data r) in HT.
  destruct (read_log crc32 data r) as [l [[]|e|]];
    simpl in *; [by left|right; by exists e|done].
Qed.

Lemma read_log_never_panics_witness :
  (read_log example_crc [b0; bFF; b0; b0; bFF; bFF; bFF; bFF] new_reader).2 = Ok tt \/
  exists e, (read_log example_crc [b0; bFF; b0; b0; bFF; bFF; bFF; bFF] new_reader).2 = Err e.
Proof. apply read_log_never_panics. left. reflexivity. Defined.

(** An append that fails part-way leaves its bytes in the file and the
    writer's block offset unchanged; a later append is acknowledged, but the
    recovery of the whole, uncut file stops at the torn record and loses the
    acknowledged payload. *)
Theorem failed_append_loses_later_record :
  let s0 := {| written := []; plan := [None; Some 1%nat] |} in
  let '(w1, s1, r1) := add_record example_crc (new_writer 1 false) s0 [bFF; bFF; bFF] in
  let '(w2, s2, r2) := add_record example_crc w1 s1 [b0; bFF] in
  r1 = Err Io /\ w1 = new_writer 1 false /\ r2 = Ok tt /\
  read_log example_crc (content s2) new_reader = ([], Ok tt).
Proof. vm_compute. done. Qed.
