(* ===== verification/WalManager.v ===== *)
(** * The write-ahead log directory

    [src/crates/merutable/src/wal/manager.rs]: log files named by number,
    rotation, garbage collection of flushed logs and recovery of a directory,
    with the recovery and registration steps of [MeruEngine::open]
    ([src/crates/merutable/src/engine/engine.rs]).

    The file system is an interface ([FileSystem]); the order in which
    [read_dir] lists a directory is a parameter. *)

From Stdlib Require Import Ascii.
From S2P Require Import Prelude Decimal Sequence WalBatch WalLog.
Local Open Scope Z_scope.

(** ** File names *)

(** [format!("{n:06}")]. *)
Definition fmt06 (n : Z) : list Z :=
  let ds := dec_digits 20 n [] in repeat 0 (6 - length ds) ++ ds.

Definition log_path (log : Z) : string :=
  string_of_list_ascii (string_of_digits (fmt06 log) ++ list_ascii_of_string ".wal").

(** [name.strip_suffix(".wal")]. *)
Definition strip_suffix (cs : list ascii) : option (list ascii) :=
  let n := (length cs - 4)%nat in
  if (4 <=? length cs)%nat && bool_decide (drop n cs = list_ascii_of_string ".wal")
  then Some (take n cs) else None.

Definition parse_log_number (name : string) : option Z :=
  cs ← strip_suffix (list_ascii_of_string name); parse_u64 cs.

(** ** The file system *)

Inductive rm_result : Type := Removed | Missing | RmFailed.

(** Opening in create-and-append mode, given the existing file if any, and
    removing a file. *)
Class FileSystem (S : Type) := {
  create : string -> option S -> res S;
  remove_file : string -> rm_result;
}.

Class ReliableFs (S : Type) `{!WalSink S, !FileSystem S} := {
  create_new p : exists s, create p None = Ok s /\ content s = [];
  create_existing p s : exists s', create p (Some s) = Ok s' /\ content s' = content s;
  remove_ok p : remove_file p = Removed;
}.

#[global] Instance VecFs : FileSystem bytes := {|
  create p f := Ok (default [] f); remove_file p := Removed |}.
#[global] Instance VecFs_reliable : ReliableFs bytes.
Proof. split; intros; simpl; eauto. Qed.

(** ** The manager *)

Record ClosedLog : Type := { cl_number : Z; cl_max_seq : SeqNum }.

Record WalManager (S : Type) : Type := {
  dir : gmap string S;
  current : WalWriter;
  log_no : Z;
  next_log : Z;
  current_log_max_seq : Z;
  closed_logs : list ClosedLog;
  flushed_seq : Z;
}.
Arguments dir {S} _.
Arguments current {S} _.
Arguments log_no {S} _.
Arguments next_log {S} _.
Arguments current_log_max_seq {S} _.
Arguments closed_logs {S} _.
Arguments flushed_seq {S} _.

Section manager.
Context (crc32 : bytes -> Z).
Context {S : Type} `{!WalSink S, !FileSystem S}.

(** [WalManager::open]. *)
Definition wal_open (d : gmap string S) (initial : Z) : res (WalManager S) :=
  f ← create (log_path initial) (d !! log_path initial);
  Ok {| dir := <[log_path initial := f]> d;
        current := new_writer initial false; log_no := initial;
        next_log := wrap 64 (initial + 1); current_log_max_seq := 0;
        closed_logs := []; flushed_seq := 0 |}.

(** The manager after its current file and writer changed. *)
Definition with_current (m : WalManager S) (f : S) (w : WalWriter) (mx : Z) : WalManager S :=
  {| dir := <[log_path (log_no m) := f]> (dir m); current := w; log_no := log_no m;
     next_log := next_log m; current_log_max_seq := mx;
     closed_logs := closed_logs m; flushed_seq := flushed_seq m |}.

(** [append]: add the record, sync, then raise the log's maximum sequence.
    The open file exists in the directory for as long as it is open. *)
Definition wal_append (b : WriteBatch) (m : WalManager S) : WalManager S * res unit :=
  match dir m !! log_path (log_no m) with
  | None => (m, Panic)
  | Some f =>
      match add_record crc32 (current m) f (encode_batch b) with
      | (w, f, Ok _) =>
          match sync f with
          | (f, Ok _) =>
              (with_current m f w (Z.max (last_seq b) (current_log_max_seq m)), Ok tt)
          | (f, e) => (with_current m f w (current_log_max_seq m), e)
          end
      | (w, f, e) => (with_current m f w (current_log_max_seq m), e)
      end
  end.

Definition wal_sync (m : WalManager S) : WalManager S * res unit :=
  match dir m !! log_path (log_no m) with
  | None => (m, Panic)
  | Some f =>
      let '(f, r) := sync f in
      (with_current m f (current m) (current_log_max_seq m), r)
  end.

(** [rotate]: the new number is taken first; a failure to sync or create
    leaves the old log current. *)
Definition rotate (m : WalManager S) : WalManager S * res Z :=
  let old := log_no m in
  let new := next_log m in
  let m := {| dir := dir m; current := current m; log_no := old;
              next_log := wrap 64 (new + 1);
              current_log_max_seq := current_log_max_seq m;
              closed_logs := closed_logs m; flushed_seq := flushed_seq m |} in
  match wal_sync m with
  | (m, Ok _) =>
      match create (log_path new) (dir m !! log_path new) with
      | Ok f =>
          ({| dir := <[log_path new := f]> (dir m);
              current := new_writer new false; log_no := new; next_log := next_log m;
              current_log_max_seq := 0;
              closed_logs := closed_logs m ++
                [{| cl_number := old; cl_max_seq := current_log_max_seq m |}];
              flushed_seq := flushed_seq m |}, Ok old)
      | Err e => (m, Err e)
      | Panic => (m, Panic)
      end
  | (m, Err e) => (m, Err e)
  | (m, Panic) => (m, Panic)
  end.

(** Deleting the collected logs: a failed removal is queued again. *)
Fixpoint gc_delete (del : list ClosedLog) (d : gmap string S) (closed : list ClosedLog)
    : gmap string S * list ClosedLog :=
  match del with
  | [] => (d, closed)
  | c :: del =>
      match remove_file (log_path (cl_number c)) with
      | Removed => gc_delete del (base.delete (log_path (cl_number c)) d) closed
      | Missing => gc_delete del d closed
      | RmFailed => gc_delete del d (closed ++ [c])
      end
  end.

Definition mark_flushed_seq (seq : SeqNum) (m : WalManager S) : WalManager S :=
  let '(d, closed) :=
    gc_delete (base.filter (fun c => cl_max_seq c <= seq) (closed_logs m)) (dir m)
      (base.filter (fun c => ~ (cl_max_seq c <= seq)) (closed_logs m)) in
  {| dir := d; current := current m; log_no := log_no m; next_log := next_log m;
     current_log_max_seq := current_log_max_seq m; closed_logs := closed;
     flushed_seq := Z.max (flushed_seq m) seq |}.

Definition register_closed_log (n : Z) (mx : SeqNum) (m : WalManager S) : WalManager S :=
  {| dir := dir m; current := current m; log_no := log_no m; next_log := next_log m;
     current_log_max_seq := current_log_max_seq m;
     closed_logs := closed_logs m ++ [{| cl_number := n; cl_max_seq := mx |}];
     flushed_seq := flushed_seq m |}.

(** ** Listing and recovery *)

(** [std::fs::read_dir]: the entries of a directory, in some order. *)
Context (read_dir : gmap string S -> list (string * S)).

Definition wal_files_in_dir (d : gmap string S) : list (Z * S) :=
  omap (fun e => n ← parse_log_number e.1; Some (n, e.2)) (read_dir d).

Definition gc_logs_before (before : Z) (m : WalManager S) : WalManager S :=
  {| dir := foldl (fun d e =>
        match parse_log_number e.1 with
        | Some n =>
            if n <? before then
              match remove_file e.1 with Removed => base.delete e.1 d | _ => d end
            else d
        | None => d
        end) (dir m) (read_dir (dir m));
     current := current m; log_no := log_no m; next_log := next_log m;
     current_log_max_seq := current_log_max_seq m; closed_logs := closed_logs m;
     flushed_seq := flushed_seq m |}.

(** The records of one file, each decoded as it is read; a corrupt batch or a
    read error ends the file. *)
Fixpoint recover_records (fuel : nat) (data : bytes) (r : WalReader) : res (list WriteBatch) :=
  match fuel with
  | O => Panic
  | Datatypes.S fuel =>
      match next_record crc32 data r with
      | (_, None) => Ok []
      | (r, Some (Ok payload)) =>
          match decode_batch payload with
          | Ok b => bs ← recover_records fuel data r; Ok (b :: bs)
          | Err _ => Ok []
          | Panic => Panic
          end
      | (_, Some (Err _)) => Ok []
      | (_, Some Panic) => Panic
      end
  end.

Definition recover_file (data : bytes) : res (list WriteBatch) :=
  recover_records (length data + 2) data new_reader.

Fixpoint recover_files (files : list (Z * S)) (acc : list WriteBatch * SeqNum * Z)
    : res (list WriteBatch * SeqNum * Z) :=
  match files with
  | [] => Ok acc
  | (n, f) :: files =>
      let '(batches, max_seq, max_log) := acc in
      let max_log := if max_log <? n then n else max_log in
      bs ← recover_file (content f);
      recover_files files
        (batches ++ bs,
         foldl (fun mx b => if mx <? last_seq b then last_seq b else mx) max_seq bs,
         max_log)
  end.

Definition recover_from_dir (d : gmap string S) : res (list WriteBatch * SeqNum * Z) :=
  recover_files (sort_by (fun a b => a.1 <=? b.1) (wal_files_in_dir d)) ([], 0, 0).

(** The write-ahead log part of [MeruEngine::open]: recover, open the next
    log, register every older file for collection. *)
Definition engine_reopen (d : gmap string S) : res (list WriteBatch * WalManager S) :=
  '(batches, max_seq, max_log) ← recover_from_dir d;
  let next := wrap 64 (max_log + 1) in
  m ← wal_open d next;
  Ok (batches,
      foldl (fun m e => if e.1 <? next then register_closed_log e.1 max_seq m else m)
        m (wal_files_in_dir (dir m))).

End manager.

(** ** File names parse back *)

#[local] Arguments digit_char : simpl never.
#[local] Arguments dec_value : simpl never.

Lemma fmt06_spec n :
  in_u 64 n -> exists d ds, fmt06 n = d :: ds /\ Forall is_digit (d :: ds) /\
                            dec_value (d :: ds) = n.
Proof.
  intros Hn. unfold in_u in Hn. unfold fmt06.
  destruct (dec_digits_spec 20 n []) as (ds & -> & Hne & Hd & Hv); [lia..|].
  rewrite app_nil_r. generalize (6 - length ds)%nat. intros k.
  assert (Hz : forall k, dec_value (repeat 0 k ++ ds) = n).
  { intros k'. rewrite <- Hv. unfold dec_value. induction k'; simpl; auto. }
  assert (HF : Forall is_digit (repeat 0 k ++ ds)).
  { apply Forall_app_2; [|done]. clear. induction k; constructor; [|done].
    unfold is_digit. lia. }
  specialize (Hz k). destruct (repeat 0 k ++ ds) as [|d l] eqn:E.
  { apply app_eq_nil in E as [_ ->]. done. }
  by exists d, l.
Qed.

Lemma parse_log_path n : in_u 64 n -> parse_log_number (log_path n) = Some n.
Proof.
  intros Hn. unfold parse_log_number, log_path.
  rewrite list_ascii_of_string_of_list_ascii. unfold strip_suffix.
  rewrite length_app. simpl (length (list_ascii_of_string ".wal")).
  rewrite Nat.add_sub, drop_app_length, take_app_length.
  rewrite bool_decide_true by done.
  destruct (Nat.leb_spec 4 (length (string_of_digits (fmt06 n)) + 4)); [|lia].
  cbn [andb mbind option_bind].
  destruct (fmt06_spec n Hn) as (d & ds & -> & HF & Hv).
  inversion HF as [|? ? Hd Hds]; subst.
  cbn [string_of_digits map parse_u64].
  rewrite digit_char_neq by done.
  change (digit_char d :: map digit_char ds) with (string_of_digits (d :: ds)).
  apply parse_nonempty_digits; [done|]. unfold in_u, u64_max in *. lia.
Qed.

Lemma log_path_inj n1 n2 :
  in_u 64 n1 -> in_u 64 n2 -> log_path n1 = log_path n2 -> n1 = n2.
Proof.
  intros H1%parse_log_path H2%parse_log_path E. rewrite E in H1. congruence.
Qed.

(** ** The abstract log

    A closed generation is a log number, the sequence bound recorded for it
    and the batches its file yields; the open generation is its number and
    the batches appended so far. *)
Record Gen : Type := { g_num : Z; g_max : Z; g_batches : list WriteBatch }.
Record AWal : Type := { a_closed : list Gen; a_num : Z; a_cur : list WriteBatch }.

Definition max_last (bs : list WriteBatch) : Z := foldr (fun b m => Z.max (last_seq b) m) 0 bs.

(** Everything a recovery of the directory yields, in order. *)
Definition a_batches (a : AWal) : list WriteBatch :=
  concat (map g_batches (a_closed a)) ++ map canon_batch (a_cur a).

Definition a_append (b : WriteBatch) (a : AWal) : AWal :=
  {| a_closed := a_closed a; a_num := a_num a; a_cur := a_cur a ++ [b] |}.

Definition cur_gen (a : AWal) : Gen :=
  {| g_num := a_num a; g_max := max_last (a_cur a); g_batches := map canon_batch (a_cur a) |}.

Definition a_rotate (a : AWal) : AWal :=
  {| a_closed := a_closed a ++ [cur_gen a]; a_num := a_num a + 1; a_cur := [] |}.

Definition a_flush (seq : Z) (a : AWal) : AWal :=
  {| a_closed := base.filter (fun g => ~ (g_max g <= seq)) (a_closed a);
     a_num := a_num a; a_cur := a_cur a |}.

(** Reopening: every generation is closed under one common bound. *)
Definition rebound (mx : Z) (g : Gen) : Gen :=
  {| g_num := g_num g; g_max := mx; g_batches := g_batches g |}.

Definition a_reopen (a : AWal) : AWal :=
  {| a_closed := map (rebound (max_last (a_batches a))) (a_closed a ++ [cur_gen a]);
     a_num := a_num a + 1; a_cur := [] |}.

Lemma max_last_app l1 l2 : max_last (l1 ++ l2) = Z.max (max_last l1) (max_last l2).
Proof.
  induction l1 as [|b l1 IH]; simpl; [|lia].
  assert (0 <= max_last l2) by (clear; induction l2; simpl; lia). lia.
Qed.

Lemma max_last_canon bs : max_last (map canon_batch bs) = max_last bs.
Proof. induction bs as [|b bs IH]; simpl; [done|]. by rewrite IH, last_seq_canon. Qed.

Lemma max_last_ge bs : Forall (fun b => last_seq b <= max_last bs) bs.
Proof.
  apply Forall_forall. intros b Hb. induction Hb; simpl; lia.
Qed.

Lemma foldl_max_seq mx bs :
  0 <= mx ->
  foldl (fun mx b => if mx <? last_seq b then last_seq b else mx) mx bs
  = Z.max mx (max_last bs).
Proof.
  revert mx. induction bs as [|b bs IH]; intros mx Hmx; simpl; [lia|].
  destruct (Z.ltb_spec mx (last_seq b)); rewrite IH by lia; lia.
Qed.

(** ** The directory holds the abstract log *)
Section refinement.
Context (crc32 : bytes -> Z).
Context (crc_range : forall l, (0 <= crc32 l < 2 ^ 32)).
Context {S : Type} `{!WalSink S, !FileSystem S, !ReliableSink S, !ReliableFs S}.
Context (read_dir : gmap string S -> list (string * S)).
Context (read_dir_perm : forall d, read_dir d ≡ₚ map_to_list d).

(** The directory consists of exactly these numbered files. *)
Definition Holds (d : gmap string S) (fs : list (Z * S)) : Prop :=
  Forall (in_u 64) fs.*1 /\ StronglySorted Z.lt fs.*1 /\
  forall name f, d !! name = Some f <-> exists n, name = log_path n /\ (n, f) ∈ fs.

Lemma sorted_lt_NoDup l : StronglySorted Z.lt l -> NoDup l.
Proof.
  induction 1 as [|x l _ IH Hx]; constructor; [|done].
  intros Hin. rewrite Forall_forall in Hx. specialize (Hx x Hin). lia.
Qed.

Lemma elem_fst {A B} (l : list (A * B)) n f : (n, f) ∈ l -> n ∈ l.*1.
Proof. intros H. apply list_elem_of_fmap. by exists (n, f). Qed.

Lemma NoDup_fst_unique {A B} (l : list (A * B)) n f1 f2 :
  NoDup l.*1 -> (n, f1) ∈ l -> (n, f2) ∈ l -> f1 = f2.
Proof.
  induction l as [|[m g] l IH]; simpl; [by rewrite elem_of_nil|].
  rewrite NoDup_cons, !elem_of_cons. intros [Hm Hd] [[= -> ->]|H1] [[= ->]|H2]; auto.
  - by apply elem_fst in H2.
  - subst. by apply elem_fst in H1.
Qed.

Lemma Holds_lookup d fs n f : Holds d fs -> (n, f) ∈ fs -> d !! log_path n = Some f.
Proof. intros (_ & _ & H) Hin. apply H. by exists n. Qed.

Lemma Holds_fresh d fs n : Holds d fs -> in_u 64 n -> n ∉ fs.*1 -> d !! log_path n = None.
Proof.
  intros (Hu & _ & H) Hn Hnin. destruct (d !! log_path n) as [f|] eqn:E; [|done].
  apply H in E as (m & Hp & Hin). pose proof (elem_fst _ _ _ Hin) as Hm.
  rewrite Forall_forall in Hu. apply log_path_inj in Hp; [by subst|done|by apply Hu].
Qed.

Lemma Holds_files d fs : Holds d fs -> wal_files_in_dir read_dir d ≡ₚ fs.
Proof.
  intros (Hu & Hs & H). unfold wal_files_in_dir.
  assert (Hp : read_dir d ≡ₚ map (fun e => (log_path e.1, e.2)) fs).
  { rewrite read_dir_perm. apply NoDup_Permutation.
    - apply NoDup_map_to_list.
    - apply (NoDup_fmap_1 fst). rewrite <- list_fmap_compose.
      change (NoDup ((log_path ∘ fst) <$> fs)). rewrite list_fmap_compose.
      apply NoDup_fmap_2_strong; [|by apply sorted_lt_NoDup].
      rewrite Forall_forall in Hu. intros x y Hx Hy. apply log_path_inj; auto.
    - intros [name f]. rewrite elem_of_map_to_list, H, list_elem_of_fmap. split.
      + intros (n & -> & Hin). by exists (n, f).
      + intros ([n g] & [= -> ->] & Hin). by exists n. }
  rewrite Hp. clear Hp H Hs. induction fs as [|[n f] fs IH]; simpl; [done|].
  simpl in Hu. apply Forall_cons in Hu as [Hn Hu]. rewrite parse_log_path by done.
  simpl. by rewrite IH.
Qed.

Lemma Holds_sorted_files d fs :
  Holds d fs -> sort_by (fun a b => a.1 <=? b.1) (wal_files_in_dir read_dir d) = fs.
Proof.
  intros HH. apply sort_by_unique.
  - intros x y H. apply Z.leb_gt in H. apply Z.leb_le. lia.
  - intros x y z H1%Z.leb_le H2%Z.leb_le. apply Z.leb_le. lia.
  - destruct HH as (_ & Hs & _). clear -Hs.
    induction fs as [|x fs IH]; [constructor|]. simpl in Hs.
    inversion Hs as [|? ? Hs' Hx]; subst. constructor; [by apply IH|].
    rewrite Forall_fmap in Hx. eapply Forall_impl; [exact Hx|].
    intros y. simpl. intros. apply Z.leb_gt. lia.
  - by apply Holds_files.
Qed.

Lemma sorted_snoc l x : StronglySorted Z.lt l -> Forall (fun y => y < x) l ->
  StronglySorted Z.lt (l ++ [x]).
Proof.
  induction 1 as [|y l Hs IH Hy]; intros Hx; simpl; [repeat constructor|].
  apply Forall_cons in Hx as [? Hx]. constructor; [auto|].
  apply Forall_app_2; [done|]. by constructor.
Qed.

Lemma sorted_snoc_inv l x : StronglySorted Z.lt (l ++ [x]) -> Forall (fun y => y < x) l.
Proof.
  induction l as [|y l IH]; simpl; intros Hs; [constructor|].
  inversion Hs as [|? ? Hs' Hy]; subst. constructor; [|auto].
  apply Forall_app in Hy as [_ Hy]. by inversion Hy.
Qed.

Lemma Holds_empty : Holds ∅ [].
Proof.
  split; [constructor|]. split; [constructor|]. intros name f.
  rewrite lookup_empty. split; [done|]. intros (n & _ & H). by apply elem_of_nil in H.
Qed.

Lemma Holds_extend d fs n f :
  Holds d fs -> in_u 64 n -> Forall (fun y => y < n) fs.*1 ->
  Holds (<[log_path n := f]> d) (fs ++ [(n, f)]).
Proof.
  intros (Hu & Hs & H) Hn Hlt. unfold Holds. rewrite fmap_app.
  split; [by apply Forall_app_2; [|constructor]|]. split; [by apply sorted_snoc|].
  intros name g. destruct (decide (name = log_path n)) as [->|Hne].
  - rewrite lookup_insert_eq. split.
    + intros [= ->]. exists n. split; [done|]. apply elem_of_app. right. by left.
    + intros (m & Hp & Hin). apply elem_of_app in Hin as [Hin|Hin].
      * apply elem_fst in Hin. rewrite Forall_forall in Hu, Hlt.
        apply log_path_inj in Hp; [|done|by apply Hu]. subst.
        specialize (Hlt m Hin). lia.
      * apply list_elem_of_singleton in Hin. by simplify_eq.
  - rewrite lookup_insert_ne by done. rewrite H. split.
    + intros (m & -> & Hin). exists m. split; [done|]. apply elem_of_app. by left.
    + intros (m & -> & Hin). exists m. split; [done|].
      apply elem_of_app in Hin as [Hin|Hin]; [done|].
      apply list_elem_of_singleton in Hin. by simplify_eq.
Qed.

Lemma Holds_delete d fs n :
  Holds d fs -> in_u 64 n ->
  Holds (base.delete (log_path n) d) (base.filter (fun e => e.1 <> n) fs).
Proof.
  intros (Hu & Hs & H) Hn. unfold Holds. split; [|split].
  - rewrite Forall_fmap in *. apply Forall_forall. intros e [_ He]%list_elem_of_filter.
    rewrite Forall_forall in Hu. by apply Hu.
  - clear -Hs. induction fs as [|e fs IH]; [constructor|]. simpl in Hs.
    inversion Hs as [|? ? Hs' He]; subst. rewrite filter_cons.
    case_decide; [|by apply IH]. simpl. constructor; [by apply IH|].
    rewrite Forall_fmap in *. apply Forall_forall. intros x [_ Hx]%list_elem_of_filter.
    rewrite Forall_forall in He. by apply He.
  - intros name f. rewrite lookup_delete_Some, H. split.
    + intros (Hne & m & -> & Hin). exists m. split; [done|].
      apply list_elem_of_filter. split; [|done]. simpl. by intros ->.
    + intros (m & -> & [Hne Hin]%list_elem_of_filter). simpl in Hne. split; [|by exists m].
      intros Hp. rewrite Forall_forall in Hu.
      apply log_path_inj in Hp; [by subst|done|]. by eapply Hu, elem_fst.
Qed.

Lemma Holds_update d fs n f f' :
  Holds d (fs ++ [(n, f)]) -> Holds (<[log_path n := f']> d) (fs ++ [(n, f')]).
Proof.
  intros HH. pose proof HH as (Hu & Hs & _). rewrite fmap_app in Hu, Hs.
  apply Forall_app in Hu as [Hu Hn]. apply Forall_cons in Hn as [Hn _].
  pose proof (sorted_snoc_inv _ _ Hs) as Hlt. cbn [fst] in Hlt.
  rewrite <- insert_delete_eq. apply Holds_extend; [|done|done].
  assert (Hfs : base.filter (fun e => e.1 <> n) (fs ++ [(n, f)]) = fs).
  { rewrite filter_app, filter_cons, decide_False by (simpl; tauto).
    rewrite filter_nil, app_nil_r. apply list_filter_all. intros e He.
    rewrite Forall_forall in Hlt.
    assert (e.1 < n) by (apply Hlt; by apply list_elem_of_fmap_2). lia. }
  rewrite <- Hfs at 1. by apply Holds_delete.
Qed.

(** ** Recovering one file *)
Lemma recover_of_read fuel data r ps bs :
  read_records crc32 fuel data r = (ps, Ok tt) ->
  Forall2 (fun p b => decode_batch p = Ok b) ps bs ->
  recover_records crc32 fuel data r = Ok bs.
Proof.
  revert r ps bs. induction fuel as [|fuel IH]; intros r ps bs Hr Hd; simpl in *; [done|].
  destruct (next_record crc32 data r) as [r' [[p|e|]|]]; simplify_eq.
  - destruct (read_records crc32 fuel data r') as [l o] eqn:E. simplify_eq.
    inversion Hd as [|? b ? bs' Hb Hbs]; subst. rewrite Hb.
    by rewrite (IH _ _ _ E Hbs).
  - by inversion Hd.
Qed.

Lemma recover_file_prefix n bs outs bo k :
  Layout crc32 false n 0 (map encode_batch bs) outs bo -> Forall batch_wf bs ->
  recover_file crc32 (take k (concat outs))
  = Ok (take (complete k outs) (map canon_batch bs)).
Proof.
  intros HL Hwf. pose proof (read_log_prefix crc32 crc_range false n _ _ _ k HL) as HR.
  unfold recover_file. eapply recover_of_read; [exact HR|].
  clear -Hwf. generalize (complete k outs). intros i. revert i.
  induction Hwf as [|b bs Hb _ IH]; intros [|i]; simpl; constructor; [|apply IH].
  by rewrite <- (app_nil_r (encode_batch b)), decode_encoded_batch.
Qed.

Lemma recover_file_full n bs outs bo :
  Layout crc32 false n 0 (map encode_batch bs) outs bo -> Forall batch_wf bs ->
  recover_file crc32 (concat outs) = Ok (map canon_batch bs).
Proof.
  intros HL Hwf.
  pose proof (recover_file_prefix n bs outs bo (length (concat outs)) HL Hwf) as H.
  rewrite take_ge in H by done. rewrite H. f_equal. apply take_ge.
  pose proof (Layout_length _ _ _ _ _ _ _ HL) as Hl. rewrite length_map in *.
  rewrite <- Hl. apply complete_spec; [done|]. by rewrite take_ge.
Qed.

(** ** The simulation relation *)
Definition gen_file (g : Gen) (e : Z * S) : Prop :=
  g_num g = e.1 /\ recover_file crc32 (content e.2) = Ok (g_batches g) /\
  Forall (fun b => last_seq b <= g_max g) (g_batches g).

Definition closed_of (g : Gen) : ClosedLog :=
  {| cl_number := g_num g; cl_max_seq := g_max g |}.

Definition Refines (m : WalManager S) (a : AWal) : Prop :=
  exists cfs f outs bo,
    Holds (dir m) (cfs ++ [(a_num a, f)]) /\
    Forall2 gen_file (a_closed a) cfs /\
    Layout crc32 false (a_num a) 0 (map encode_batch (a_cur a)) outs bo /\
    content f = concat outs /\ Forall batch_wf (a_cur a) /\
    current m = wr false (a_num a) bo /\ log_no m = a_num a /\
    next_log m = wrap 64 (a_num a + 1) /\
    current_log_max_seq m = max_last (a_cur a) /\
    closed_logs m ≡ₚ map closed_of (a_closed a).

Lemma cur_gen_file a f outs bo :
  Layout crc32 false (a_num a) 0 (map encode_batch (a_cur a)) outs bo ->
  content f = concat outs -> Forall batch_wf (a_cur a) ->
  gen_file (cur_gen a) (a_num a, f).
Proof.
  intros HL Hc Hwf. split; [done|]. simpl. split.
  - rewrite Hc. by eapply recover_file_full.
  - rewrite <- (max_last_canon (a_cur a)). apply max_last_ge.
Qed.

Lemma Layout_snoc n bo ps outs bo1 p out bo' :
  Layout crc32 false n bo ps outs bo1 -> Frags crc32 false n true bo1 p out bo' ->
  Layout crc32 false n bo (ps ++ [p]) (outs ++ [out]) bo'.
Proof.
  induction 1; intros HF; simpl; econstructor; eauto. constructor.
Qed.

Lemma Holds_last d cfs n f : Holds d (cfs ++ [(n, f)]) -> d !! log_path n = Some f.
Proof. intros HH. eapply Holds_lookup; [exact HH|]. apply elem_of_app. right. by left. Qed.

Lemma append_refines b m a :
  Refines m a -> batch_wf b ->
  exists m', wal_append crc32 b m = (m', Ok tt) /\ Refines m' (a_append b a).
Proof.
  intros (cfs & f & outs & bo & HH & HG & HL & Hc & Hwf & Ew & El & En & Em & Ecl) Hb.
  unfold wal_append. rewrite El, (Holds_last _ _ _ _ HH), Ew.
  destruct (add_record_spec crc32 false (a_num a) bo f (encode_batch b))
    as (f1 & out & bo' & -> & C1 & HF).
  { pose proof (encode_batch_length b). destruct (encode_batch b); simpl in *; [lia|done]. }
  destruct (sync_ok f1) as (f2 & -> & C2).
  eexists. split; [reflexivity|].
  exists cfs, f2, (outs ++ [out]), bo'. unfold with_current. simpl. rewrite El.
  split; [by eapply Holds_update|]. split; [done|]. split.
  { rewrite map_app. by eapply Layout_snoc. }
  split; [by rewrite C2, C1, Hc, concat_app; simpl; rewrite app_nil_r|].
  split; [by apply Forall_app_2; [|constructor]|].
  do 3 (split; [done|]). split; [|done].
  rewrite Em, max_last_app. simpl.
  assert (0 <= max_last (a_cur a)) by (clear; induction (a_cur a); simpl; lia). lia.
Qed.

Lemma rotate_refines m a :
  Refines m a -> a_num a + 1 < 2 ^ 64 ->
  exists m', rotate m = (m', Ok (a_num a)) /\ Refines m' (a_rotate a).
Proof.
  intros (cfs & f & outs & bo & HH & HG & HL & Hc & Hwf & Ew & El & En & Em & Ecl) Hn.
  assert (Ha : in_u 64 (a_num a)).
  { destruct HH as (Hu & _). rewrite fmap_app in Hu.
    apply Forall_app in Hu as [_ Hu]. by apply Forall_cons in Hu as [? _]. }
  assert (Hw : next_log m = a_num a + 1).
  { rewrite En. unfold wrap, in_u in *. apply Z.mod_small. lia. }
  unfold rotate, wal_sync. simpl. rewrite El, (Holds_last _ _ _ _ HH).
  destruct (sync_ok f) as (f1 & -> & C1). unfold with_current. simpl.
  pose proof (Holds_update _ _ _ _ f1 HH) as HH1.
  assert (Hlt : Forall (fun y => y < a_num a + 1) (cfs ++ [(a_num a, f1)]).*1).
  { destruct HH1 as (_ & Hs & _). rewrite fmap_app in *.
    pose proof (sorted_snoc_inv _ _ Hs) as Hlt. simpl in Hlt.
    apply Forall_app_2; [|repeat constructor; simpl; lia].
    eapply Forall_impl; [exact Hlt|]. simpl. lia. }
  rewrite Hw. rewrite (Holds_fresh _ _ (a_num a + 1) HH1).
  2:{ unfold in_u in *. lia. }
  2:{ intros Hin. rewrite Forall_forall in Hlt. specialize (Hlt _ Hin). lia. }
  destruct (create_new (log_path (a_num a + 1))) as (s & -> & Cs).
  eexists. split; [reflexivity|].
  exists (cfs ++ [(a_num a, f1)]), s, [], 0%nat. simpl.
  split. { apply Holds_extend; [done| |done]. unfold in_u in *. lia. }
  split.
  { apply Forall2_app; [done|]. constructor; [|constructor].
    eapply cur_gen_file; [done| |done]. by rewrite C1. }
  split; [constructor|]. do 5 (split; [done|]). split; [done|].
  rewrite map_app. simpl. unfold closed_of at 2. simpl. rewrite Em. by f_equiv.
Qed.

(** ** Garbage collection *)
Lemma gc_delete_ok del d closed :
  gc_delete del d closed
  = (foldl (fun d c => base.delete (log_path (cl_number c)) d) d del, closed).
Proof.
  revert d. induction del as [|c del IH]; intros d; simpl; [done|].
  by rewrite remove_ok, IH.
Qed.

Lemma Holds_deletes del d fs :
  Holds d fs -> Forall (fun c => in_u 64 (cl_number c)) del ->
  Holds (foldl (fun d c => base.delete (log_path (cl_number c)) d) d del)
    (base.filter (fun e => e.1 ∉ map cl_number del) fs).
Proof.
  intros HH Hd. revert d fs HH. induction Hd as [|c del Hc _ IH]; intros d fs HH; simpl.
  { rewrite list_filter_all; [done|]. intros x _. apply not_elem_of_nil. }
  specialize (IH _ _ (Holds_delete _ _ _ HH Hc)).
  rewrite list_filter_filter in IH. erewrite list_filter_iff; [exact IH|].
  intros e. simpl. rewrite not_elem_of_cons. tauto.
Qed.

Lemma Forall2_filter {A B} (R : A -> B -> Prop) (P : A -> Prop) (Q : B -> Prop)
    `{!forall x, Decision (P x)} `{!forall x, Decision (Q x)} l k :
  Forall2 R l k -> (forall x y, x ∈ l -> R x y -> (P x <-> Q y)) ->
  Forall2 R (base.filter P l) (base.filter Q k).
Proof.
  induction 1 as [|x y l k Hxy _ IH]; intros HPQ; [constructor|].
  rewrite !filter_cons. assert (P x <-> Q y) as HQ by (apply HPQ; [by left|done]).
  assert (Forall2 R (base.filter P l) (base.filter Q k)).
  { apply IH. intros x' y' Hx'. apply HPQ. by right. }
  do 2 case_decide; try tauto. by constructor.
Qed.

Lemma gen_nums gs fs : Forall2 gen_file gs fs -> map g_num gs = fs.*1.
Proof. induction 1 as [|g e gs fs (Hn & _) _ IH]; simpl; [done|]. by rewrite Hn, IH. Qed.

Lemma flush_refines seq m a :
  Refines m a -> Refines (mark_flushed_seq seq m) (a_flush seq a).
Proof.
  intros (cfs & f & outs & bo & HH & HG & HL & Hc & Hwf & Ew & El & En & Em & Ecl).
  unfold mark_flushed_seq. rewrite gc_delete_ok.
  set (del := base.filter (fun c => cl_max_seq c <= seq) (closed_logs m)).
  pose proof (gen_nums _ _ HG) as Hnums.
  pose proof HH as (Hu & Hs & _). rewrite fmap_app in Hu, Hs.
  apply Forall_app in Hu as [Hu _]. pose proof (sorted_snoc_inv _ _ Hs) as Hlt.
  simpl in Hlt. pose proof (sorted_lt_NoDup _ Hs) as Hnd.
  apply NoDup_app in Hnd as (Hnd & _ & _).
  assert (Hin : forall g, g ∈ a_closed a -> (g_num g ∈ map cl_number del <-> g_max g <= seq)).
  { intros g Hg. rewrite list_elem_of_fmap. split.
    - intros (c & Hcg & [Hle Hcl]%list_elem_of_filter). rewrite Ecl in Hcl.
      apply list_elem_of_fmap in Hcl as (g' & -> & Hg'). simpl in *.
      rewrite <- Hnums in Hnd.
      assert (g = g') as ->; [|done].
      clear -Hnd Hg Hg' Hcg. induction (a_closed a) as [|x l IH]; [by apply elem_of_nil in Hg|].
      simpl in Hnd. apply NoDup_cons in Hnd as [Hx Hnd].
      apply elem_of_cons in Hg as [->|Hg], Hg' as [->|Hg']; auto; exfalso; apply Hx.
      + rewrite Hcg. by apply list_elem_of_fmap_2.
      + rewrite <- Hcg. by apply list_elem_of_fmap_2.
    - intros Hle. exists (closed_of g). split; [done|].
      apply list_elem_of_filter. split; [done|]. rewrite Ecl. by apply list_elem_of_fmap_2. }
  assert (Hdel : forall n, n ∈ map cl_number del -> n ∈ cfs.*1).
  { intros n (c & -> & [_ Hcl]%list_elem_of_filter)%list_elem_of_fmap.
    rewrite Ecl in Hcl. apply list_elem_of_fmap in Hcl as (g & -> & Hg).
    rewrite <- Hnums. by apply (list_elem_of_fmap_2 g_num). }
  exists (base.filter (fun e => e.1 ∉ map cl_number del) cfs), f, outs, bo. simpl.
  split.
  { assert (HD := Holds_deletes del _ _ HH). rewrite filter_app, filter_cons in HD.
    rewrite decide_True, filter_nil in HD.
    - apply HD. apply Forall_forall. intros c Hcd. rewrite Forall_forall in Hu.
      by apply Hu, Hdel, list_elem_of_fmap_2.
    - simpl. intros Hn%Hdel. rewrite Forall_forall in Hlt. specialize (Hlt _ Hn). lia. }
  split.
  { apply Forall2_filter; [done|]. intros g e Hg (Hn & _). rewrite <- Hn, Hin by done.
    done. }
  do 7 (split; [done|]).
  rewrite Ecl. clear. induction (a_closed a) as [|g l IH]; [done|]. simpl.
  rewrite !filter_cons. simpl. case_decide; simpl; by rewrite IH.
Qed.

(** ** Recovering the directory *)
Lemma recover_files_spec gs fs bs mx ml :
  Forall2 gen_file gs fs -> 0 <= mx ->
  recover_files crc32 fs (bs, mx, ml)
  = Ok (bs ++ concat (map g_batches gs), Z.max mx (max_last (concat (map g_batches gs))),
        foldl Z.max ml fs.*1).
Proof.
  intros HG. revert bs mx ml.
  induction HG as [|g [n f] gs fs (Hn & Hr & _) _ IH]; intros bs mx ml Hmx; simpl.
  { rewrite app_nil_r. do 2 f_equal. f_equal. lia. }
  simpl in Hr. rewrite Hr. simpl. rewrite IH.
  - rewrite foldl_max_seq, <- app_assoc, max_last_app by done. do 2 f_equal; [f_equal; lia|].
    f_equal. destruct (Z.ltb_spec ml n); lia.
  - rewrite foldl_max_seq; lia.
Qed.

Lemma foldl_max_last l x : 0 <= x -> Forall (fun y => y < x) l -> foldl Z.max 0 (l ++ [x]) = x.
Proof.
  intros Hx Hl. rewrite foldl_app. simpl.
  assert (foldl Z.max 0 l <= x); [|lia].
  assert (H0 : 0 <= x) by done. revert H0. generalize 0.
  induction Hl as [|y l Hy _ IH]; intros z Hz; simpl; [done|]. apply IH. lia.
Qed.

Lemma a_batches_gens a :
  a_batches a = concat (map g_batches (a_closed a ++ [cur_gen a])).
Proof. unfold a_batches. rewrite map_app, concat_app. simpl. by rewrite app_nil_r. Qed.

Lemma recover_dir d gs cfs n f :
  Holds d (cfs ++ [(n, f)]) -> Forall2 gen_file gs (cfs ++ [(n, f)]) ->
  recover_from_dir crc32 read_dir d
  = Ok (concat (map g_batches gs), max_last (concat (map g_batches gs)), n).
Proof.
  intros HH HG. unfold recover_from_dir. rewrite (Holds_sorted_files _ _ HH).
  rewrite (recover_files_spec gs) by done. simpl.
  destruct HH as (Hu & Hs & _). rewrite fmap_app in *. simpl in *.
  apply Forall_app in Hu as [_ Hu]. apply Forall_cons in Hu as [Hn _]. unfold in_u in Hn.
  rewrite foldl_max_last; [|lia|by apply sorted_snoc_inv].
  assert (0 <= max_last (concat (map g_batches gs))).
  { generalize (concat (map g_batches gs)). intros l. induction l; simpl; lia. }
  by rewrite Z.max_r.
Qed.

Lemma recover_refines m a :
  Refines m a ->
  recover_from_dir crc32 read_dir (dir m)
  = Ok (a_batches a, max_last (a_batches a), a_num a).
Proof.
  intros (cfs & f & outs & bo & HH & HG & HL & Hc & Hwf & _).
  rewrite a_batches_gens. eapply recover_dir; [exact HH|].
  apply Forall2_app; [done|]. constructor; [|constructor]. by eapply cur_gen_file.
Qed.

(** ** Reopening *)
Lemma register_fields (next mx : Z) fs (m : WalManager S) :
  let m' := foldl (fun m e => if e.1 <? next then register_closed_log e.1 mx m else m)
              m (fs : list (Z * S)) in
  dir m' = dir m /\ current m' = current m /\ log_no m' = log_no m /\
  next_log m' = next_log m /\ current_log_max_seq m' = current_log_max_seq m /\
  closed_logs m' = closed_logs m ++
    map (fun e => {| cl_number := e.1; cl_max_seq := mx |})
      (base.filter (fun e => e.1 < next) fs).
Proof.
  revert m. induction fs as [|e fs IH]; intros m; simpl; [by rewrite app_nil_r|].
  destruct (Z.ltb_spec e.1 next) as [Hlt|Hge].
  - destruct (IH (register_closed_log e.1 mx m)) as (? & ? & ? & ? & ? & ->).
    rewrite filter_cons, decide_True by done. simpl. by rewrite <- app_assoc.
  - rewrite filter_cons, decide_False by lia. apply IH.
Qed.

Lemma gens_rebound mx gs fs :
  Forall2 gen_file gs fs -> max_last (concat (map g_batches gs)) <= mx ->
  Forall2 gen_file (map (rebound mx) gs) fs.
Proof.
  induction 1 as [|g e gs fs (Hn & Hr & _) _ IH]; simpl; intros Hmx; [constructor|].
  rewrite max_last_app in Hmx. constructor; [|apply IH; lia].
  split; [done|]. split; [done|]. simpl.
  eapply Forall_impl; [apply max_last_ge|]. simpl. lia.
Qed.

Lemma reopen_dir d gs cfs n f :
  Holds d (cfs ++ [(n, f)]) -> Forall2 gen_file gs (cfs ++ [(n, f)]) -> n + 1 < 2 ^ 64 ->
  exists m', engine_reopen crc32 read_dir d = Ok (concat (map g_batches gs), m') /\
    Refines m' {| a_closed := map (rebound (max_last (concat (map g_batches gs)))) gs;
                  a_num := n + 1; a_cur := [] |}.
Proof.
  intros HH HG Hn. unfold engine_reopen. rewrite (recover_dir _ _ _ _ _ HH HG). simpl.
  set (mx := max_last _).
  assert (Hlt : Forall (fun y => y < n + 1) (cfs ++ [(n, f)]).*1 /\ 0 <= n).
  { destruct HH as (Hu & Hs & _). rewrite fmap_app in *.
    apply Forall_app in Hu as [_ Hu]. apply Forall_cons in Hu as [H0 _]. unfold in_u in H0.
    simpl in H0. pose proof (sorted_snoc_inv _ _ Hs) as Hl. simpl in Hl. split; [|lia].
    apply Forall_app_2; [|repeat constructor; simpl; lia].
    eapply Forall_impl; [exact Hl|]. simpl. lia. }
  destruct Hlt as [Hlt H0].
  assert (Hw : wrap 64 (n + 1) = n + 1) by (unfold wrap; apply Z.mod_small; lia).
  rewrite Hw. unfold wal_open.
  rewrite (Holds_fresh _ _ (n + 1) HH).
  2:{ unfold in_u. lia. }
  2:{ intros Hin. rewrite Forall_forall in Hlt. specialize (Hlt _ Hin). lia. }
  destruct (create_new (log_path (n + 1))) as (s & -> & Cs). simpl.
  eexists. split; [reflexivity|].
  assert (HH' : Holds (<[log_path (n + 1) := s]> d) ((cfs ++ [(n, f)]) ++ [(n + 1, s)])).
  { apply Holds_extend; [done| |done]. unfold in_u. lia. }
  match goal with |- Refines (foldl _ ?m0 ?fs) _ =>
    destruct (register_fields (n + 1) mx fs m0) as (E1 & E2 & E3 & E4 & E5 & E6) end.
  exists (cfs ++ [(n, f)]), s, [], 0%nat. rewrite E1, E2, E3, E4, E5, E6. simpl.
  split; [done|]. split; [by apply gens_rebound|]. split; [constructor|].
  do 6 (split; [done|]).
  rewrite (Holds_files _ _ HH'), filter_app, filter_cons, decide_False, filter_nil, app_nil_r
    by (simpl; lia).
  rewrite list_filter_all.
  - generalize mx. clear -HG. intros mx. rewrite map_map. induction HG as [|g e gs fs (Hn & _) _ IH]; [done|].
    simpl. unfold closed_of at 1. simpl. by rewrite IH, Hn.
  - intros e He. rewrite Forall_forall in Hlt. apply Hlt. by apply list_elem_of_fmap_2.
Qed.

(** A crash that keeps [k] of the bytes of an append: what the torn file
    yields is the log without or with that batch. *)
Lemma torn_gen a f f1 f' b k outs bo bo' out :
  Layout crc32 false (a_num a) 0 (map encode_batch (a_cur a)) outs bo ->
  Frags crc32 false (a_num a) true bo (encode_batch b) out bo' ->
  Forall batch_wf (a_cur a) -> batch_wf b ->
  content f = concat outs -> content f1 = content f ++ out ->
  content f' = take (length (content f) + k) (content f1) ->
  exists a1, (a1 = a \/ a1 = a_append b a) /\ gen_file (cur_gen a1) (a_num a, f').
Proof.
  intros HL HF Hwf Hb Hc C1 C'.
  pose proof (Layout_snoc _ _ _ _ _ _ _ _ HL HF) as HL'.
  assert (Em : map encode_batch (a_cur a) ++ [encode_batch b]
               = map encode_batch (a_cur a ++ [b])) by by rewrite map_app.
  rewrite Em in HL'.
  pose proof (recover_file_prefix _ _ _ _ (length (content f) + k) HL'
                ltac:(apply Forall_app_2; [done|by constructor])) as HR.
  rewrite concat_app in HR. simpl in HR. rewrite app_nil_r, <- Hc, <- C1, <- C' in HR.
  pose proof (Layout_length _ _ _ _ _ _ _ HL) as Hl. rewrite length_map in Hl.
  set (j := complete (length (content f) + k) (outs ++ [out])) in *.
  assert (Hj : (length outs <= j)%nat).
  { apply complete_spec; [rewrite length_app; lia|].
    rewrite take_app_length. rewrite Hc. lia. }
  rewrite map_app in HR. simpl in HR.
  destruct (Nat.eq_dec j (length outs)) as [E|Hne].
  - exists a. split; [by left|]. split; [done|]. simpl. split.
    + rewrite HR, E, Hl. f_equal. rewrite <- (length_map canon_batch). apply take_app_length.
    + rewrite <- (max_last_canon (a_cur a)). apply max_last_ge.
  - exists (a_append b a). split; [by right|]. split; [done|]. simpl. rewrite map_app. split.
    + rewrite HR. f_equal. apply take_ge. rewrite length_app, length_map. simpl. lia.
    + rewrite <- (max_last_canon (a_cur a ++ [b])), map_app. apply max_last_ge.
Qed.

(** ** Histories

    Appends, rotations and flush marks that succeed, and crashes in the
    middle of appending a batch followed by a reopen, which returns the
    batches it recovered. *)
Inductive wal_event : Type :=
  | EAppend (b : WriteBatch)
  | ERotate
  | EFlush (seq : SeqNum)
  | ECrash (b : WriteBatch) (recovered : list WriteBatch).

Inductive wal_step : WalManager S -> wal_event -> WalManager S -> Prop :=
  | step_append b m m' :
      batch_wf b -> wal_append crc32 b m = (m', Ok tt) -> wal_step m (EAppend b) m'
  | step_rotate m m' n : rotate m = (m', Ok n) -> wal_step m ERotate m'
  | step_flush seq m : wal_step m (EFlush seq) (mark_flushed_seq seq m)
  | step_crash b k m f w1 f1 r1 f' bs m' :
      batch_wf b -> dir m !! log_path (log_no m) = Some f ->
      add_record crc32 (current m) f (encode_batch b) = (w1, f1, r1) ->
      content f' = take (length (content f) + k) (content f1) ->
      engine_reopen crc32 read_dir (<[log_path (log_no m) := f']> (dir m)) = Ok (bs, m') ->
      wal_step m (ECrash b bs) m'.

Inductive wal_trace : WalManager S -> list wal_event -> WalManager S -> Prop :=
  | trace_nil m : wal_trace m [] m
  | trace_cons m e m1 es m' :
      wal_step m e m1 -> wal_trace m1 es m' -> wal_trace m (e :: es) m'.

(** What the log promises: nothing acknowledged is lost by a crash. *)
Inductive spec_step : AWal -> wal_event -> AWal -> Prop :=
  | spec_append b a : spec_step a (EAppend b) (a_append b a)
  | spec_rotate a : spec_step a ERotate (a_rotate a)
  | spec_flush seq a : spec_step a (EFlush seq) (a_flush seq a)
  | spec_crash_lost b a : spec_step a (ECrash b (a_batches a)) (a_reopen a)
  | spec_crash_kept b a :
      spec_step a (ECrash b (a_batches (a_append b a))) (a_reopen (a_append b a)).

Inductive spec_trace : AWal -> list wal_event -> AWal -> Prop :=
  | spec_nil a : spec_trace a [] a
  | spec_cons a e a1 es a' :
      spec_step a e a1 -> spec_trace a1 es a' -> spec_trace a (e :: es) a'.

Lemma spec_step_num a e a' : spec_step a e a' -> a_num a <= a_num a' <= a_num a + 1.
Proof. destruct 1; simpl; lia. Qed.

Lemma spec_trace_num a es a' :
  spec_trace a es a' -> a_num a' <= a_num a + Z.of_nat (length es).
Proof.
  induction 1 as [|a e a1 es a' H1%spec_step_num _ IH]; simpl length; lia.
Qed.

Lemma step_simulated m a e m' :
  Refines m a -> a_num a + 1 < 2 ^ 64 -> wal_step m e m' ->
  exists a', spec_step a e a' /\ Refines m' a'.
Proof.
  intros HR Hn Hs. destruct Hs as [b m m' Hb E|m m' n E|seq m|b k m f w1 f1 r1 f' bs m' Hb Hf E C' Ho].
  - destruct (append_refines b m a HR Hb) as (m1 & E1 & HR1).
    rewrite E in E1. simplify_eq. exists (a_append b a). by split; [constructor|].
  - destruct (rotate_refines m a HR Hn) as (m1 & E1 & HR1).
    rewrite E in E1. simplify_eq. exists (a_rotate a). by split; [constructor|].
  - exists (a_flush seq a). split; [constructor|by apply flush_refines].
  - destruct HR as (cfs & f0 & outs & bo & HH & HG & HL & Hc & Hwf & Ew & El & _).
    rewrite El in *. rewrite (Holds_last _ _ _ _ HH) in Hf. simplify_eq. rewrite Ew in E.
    destruct (add_record_spec crc32 false (a_num a) bo f (encode_batch b))
      as (f2 & out & bo' & E2 & C1 & HF).
    { pose proof (encode_batch_length b). destruct (encode_batch b); simpl in *; [lia|done]. }
    rewrite E in E2. simplify_eq.
    destruct (torn_gen a f f2 f' b k outs bo bo' out) as (a1 & Ha1 & Hg); [done..|].
    destruct (reopen_dir _ (a_closed a ++ [cur_gen a1]) cfs _ f' (Holds_update _ _ _ _ f' HH))
      as (m1 & E1 & HR1); [by apply Forall2_app; [|constructor]|done|].
    rewrite Ho in E1. simplify_eq.
    assert (Ea : a_closed a = a_closed a1 /\ a_num a = a_num a1) by by destruct Ha1 as [-> | ->].
    destruct Ea as [Ec En]. rewrite Ec, En, <- a_batches_gens in HR1.
    rewrite Ec, <- a_batches_gens. exists (a_reopen a1).
    split; [destruct Ha1 as [-> | ->]; constructor|exact HR1].
Qed.

Lemma trace_simulated m a es m' :
  Refines m a -> a_num a + Z.of_nat (length es) < 2 ^ 64 -> wal_trace m es m' ->
  exists a', spec_trace a es a' /\ Refines m' a'.
Proof.
  intros HR Hn Ht. revert a HR Hn. induction Ht as [m|m e m1 es m' Hs _ IH]; intros a HR Hn.
  { exists a. split; [constructor|done]. }
  simpl in Hn. destruct (step_simulated _ _ _ _ HR ltac:(lia) Hs) as (a1 & Hs1 & HR1).
  pose proof (spec_step_num _ _ _ Hs1).
  destruct (IH a1 HR1 ltac:(lia)) as (a' & ? & ?).
  exists a'. split; [by econstructor|done].
Qed.

Definition a_init (n : Z) : AWal := {| a_closed := []; a_num := n; a_cur := [] |}.

Lemma open_refines n :
  in_u 64 n -> exists m, wal_open ∅ n = Ok m /\ Refines m (a_init n).
Proof.
  intros Hn. unfold wal_open. rewrite lookup_empty.
  destruct (create_new (log_path n)) as (s & -> & Cs). eexists. split; [reflexivity|].
  exists [], s, [], 0%nat. simpl.
  split. { apply (Holds_extend _ [] n s Holds_empty); [done|constructor]. }
  split; [constructor|]. split; [constructor|]. done.
Qed.

(** A batch that is in the log under a bound that protects it. *)
Definition protects (a : AWal) (b : WriteBatch) : Prop :=
  b ∈ a_cur a \/
  exists g, g ∈ a_closed a /\ canon_batch b ∈ g_batches g /\ last_seq b <= g_max g.

Lemma protects_batches a b : protects a b -> canon_batch b ∈ a_batches a.
Proof.
  unfold a_batches. rewrite elem_of_app. intros [Hc|(g & Hg & Hb & _)].
  - right. by apply list_elem_of_fmap_2.
  - left. apply elem_of_concat. exists (g_batches g). split; [|done].
    by apply (list_elem_of_fmap_2 g_batches).
Qed.

Lemma max_last_elem b bs : canon_batch b ∈ bs -> last_seq b <= max_last bs.
Proof.
  intros Hb. pose proof (max_last_ge bs) as HF. rewrite Forall_forall in HF.
  specialize (HF _ Hb). by rewrite last_seq_canon in HF.
Qed.

Lemma protects_cur_gen a b : protects a b ->
  exists g, g ∈ a_closed a ++ [cur_gen a] /\ canon_batch b ∈ g_batches g /\ last_seq b <= g_max g.
Proof.
  intros [Hc|(g & Hg & Hb & Hm)].
  - exists (cur_gen a). split; [apply elem_of_app; right; by left|]. simpl.
    split; [by apply list_elem_of_fmap_2|]. rewrite <- max_last_canon.
    apply max_last_elem. by apply list_elem_of_fmap_2.
  - exists g. split; [apply elem_of_app; by left|done].
Qed.

Lemma protects_reopen a b : protects a b -> protects (a_reopen a) b.
Proof.
  intros Hp. pose proof (max_last_elem b (a_batches a) (protects_batches a b Hp)).
  destruct (protects_cur_gen a b Hp) as (g & Hg & Hb & _). right.
  exists (rebound (max_last (a_batches a)) g). split; [|done]. simpl.
  by apply (list_elem_of_fmap_2 (rebound _)).
Qed.

Lemma protects_step a e a' b :
  spec_step a e a' -> (forall s, e = EFlush s -> s < last_seq b) ->
  protects a b -> protects a' b.
Proof.
  intros Hs He Hp.
  assert (Happ : forall b', protects (a_append b' a) b).
  { intros b'. destruct Hp as [Hc|Hg]; [left|by right]. simpl. apply elem_of_app. by left. }
  destruct Hs as [b' a|a|seq a|b' a|b' a]; [done| | |by apply protects_reopen..].
  - right. by apply protects_cur_gen.
  - destruct Hp as [Hc|(g & Hg & Hb & Hm)]; [by left|right].
    exists g. split; [|done]. simpl. apply list_elem_of_filter. split; [|done].
    specialize (He seq eq_refl). lia.
Qed.

Lemma protects_trace a es a' b :
  spec_trace a es a' -> (forall s, EFlush s ∈ es -> s < last_seq b) ->
  protects a b -> protects a' b.
Proof.
  induction 1 as [a|a e a1 es a' Hs _ IH]; intros He Hp; [done|].
  apply IH; [intros s Hin; apply He; by right|].
  eapply protects_step; [exact Hs| |exact Hp]. intros s ->. apply He. by left.
Qed.

Lemma spec_trace_app a es1 es2 a' :
  spec_trace a (es1 ++ es2) a' -> exists a1, spec_trace a es1 a1 /\ spec_trace a1 es2 a'.
Proof.
  revert a. induction es1 as [|e es1 IH]; intros a Ht; simpl in *.
  { exists a. split; [constructor|done]. }
  inversion Ht as [|? ? a2 ? ? Hs Ht']; subst. destruct (IH _ Ht') as (a1 & ? & ?).
  exists a1. split; [by econstructor|done].
Qed.

End refinement.

(** ** Properties *)

(** C3. The log directory implements the abstract log: in every history of
    successful appends, rotations, flush marks and crashes (each in the middle
    of an append that keeps any number of its bytes, followed by a reopen), the
    batches each recovery returns are those the abstract log allows (all the
    acknowledged ones that were not collected, in order, with or without the
    torn one), a recovery of the final directory returns exactly the abstract
    log with its highest sequence and log number, and the next append and
    rotation succeed.  The order in which the directory is listed is
    arbitrary. *)
Theorem wal_refines_log (crc32 : bytes -> Z) {S : Type}
    `{!WalSink S, !FileSystem S, !ReliableSink S, !ReliableFs S}
    (read_dir : gmap string S -> list (string * S)) n m0 es m :
  (forall l, 0 <= crc32 l < 2 ^ 32) -> (forall d, read_dir d ≡ₚ map_to_list d) ->
  0 <= n -> n + Z.of_nat (length es) + 1 < 2 ^ 64 ->
  wal_open ∅ n = Ok m0 -> wal_trace crc32 read_dir m0 es m ->
  exists a, spec_trace (a_init n) es a /\
    recover_from_dir crc32 read_dir (dir m)
      = Ok (a_batches a, max_last (a_batches a), a_num a) /\
    (forall b, batch_wf b -> (wal_append crc32 b m).2 = Ok tt) /\
    (rotate m).2 = Ok (a_num a).
Proof.
  intros Hcrc Hperm H0 Hn Ho Ht.
  destruct (open_refines crc32 n) as (m1 & E1 & HR); [unfold in_u; lia|].
  rewrite Ho in E1. simplify_eq.
  destruct (trace_simulated crc32 Hcrc read_dir Hperm m1 _ es m HR ltac:(simpl; lia) Ht)
    as (a & Hs & HR').
  exists a. split; [done|]. split; [by apply recover_refines|].
  assert (Hb : a_num a <= n + Z.of_nat (length es)).
  { by apply spec_trace_num in Hs. }
  split.
  - intros b Hwf. by destruct (append_refines crc32 b m a HR' Hwf) as (m' & -> & _).
  - by destruct (rotate_refines crc32 Hcrc m a HR' ltac:(lia)) as (m' & -> & _).
Qed.

Lemma triple_eta {A B C} (p : A * B * C) : p = (p.1.1, p.1.2, p.2).
Proof. by destruct p as [[? ?] ?]. Qed.

(** A history with a rotation, a flush mark and a crash that tears a batch. *)
Definition ex_dir (d : gmap string bytes) : list (string * bytes) := map_to_list d.
Definition ex_batch (seq : Z) : WriteBatch := put [Byte.x6b] [bFF; b0] (new_batch seq).

Definition ex_m0 : WalManager bytes :=
  {| dir := {[ log_path 1 := [] ]}; current := new_writer 1 false; log_no := 1;
     next_log := 2; current_log_max_seq := 0; closed_logs := []; flushed_seq := 0 |}.
Definition ex_m1 := (wal_append example_crc (ex_batch 5) ex_m0).1.
Definition ex_m2 := (rotate ex_m1).1.
Definition ex_m3 := mark_flushed_seq 4 ex_m2.
Definition ex_m4 := (wal_append example_crc (ex_batch 6) ex_m3).1.
Definition ex_torn : bytes :=
  take 30 (default [] (dir (wal_append example_crc (ex_batch 7) ex_m4).1 !! log_path 2)).
Definition ex_m5 :=
  match engine_reopen example_crc ex_dir (<[log_path 2 := ex_torn]> (dir ex_m4)) with
  | Ok (_, m) => m
  | _ => ex_m0
  end.

Definition ex_events : list wal_event :=
  [EAppend (ex_batch 5); ERotate; EFlush 4; EAppend (ex_batch 6);
   ECrash (ex_batch 7) [ex_batch 5; ex_batch 6]].

Lemma ex_batch_wf seq : in_u 64 seq -> batch_wf (ex_batch seq).
Proof.
  intros H. split; [done|]. split; [simpl; lia|]. constructor; [|constructor].
  split; simpl; lia.
Qed.

Lemma ex_trace : wal_trace example_crc ex_dir ex_m0 ex_events ex_m5.
Proof.
  eapply (trace_cons _ _ _ _ ex_m1).
  { apply step_append; [apply ex_batch_wf; unfold in_u; lia|vm_compute; reflexivity]. }
  eapply (trace_cons _ _ _ _ ex_m2).
  { eapply (step_rotate _ _ _ _ 1). vm_compute. reflexivity. }
  eapply (trace_cons _ _ _ _ ex_m3); [apply step_flush|].
  eapply (trace_cons _ _ _ _ ex_m4).
  { apply step_append; [apply ex_batch_wf; unfold in_u; lia|vm_compute; reflexivity]. }
  eapply (trace_cons _ _ _ _ ex_m5); [|apply trace_nil].
  eapply (step_crash _ _ (ex_batch 7) 5 ex_m4 (default [] (dir ex_m4 !! log_path 2))
            _ _ _ ex_torn).
  - apply ex_batch_wf. unfold in_u. lia.
  - vm_compute. reflexivity.
  - apply triple_eta.
  - vm_compute. reflexivity.
  - vm_compute. reflexivity.
Qed.

Lemma wal_refines_log_witness :
  exists a, spec_trace (a_init 1) ex_events a /\
    recover_from_dir example_crc ex_dir (dir ex_m5)
      = Ok (a_batches a, max_last (a_batches a), a_num a) /\
    (forall b, batch_wf b -> (wal_append example_crc b ex_m5).2 = Ok tt) /\
    (rotate ex_m5).2 = Ok (a_num a).
Proof.
  apply (wal_refines_log example_crc ex_dir 1 ex_m0 ex_events ex_m5).
  - exact example_crc_range.
  - intros d. reflexivity.
  - lia.
  - simpl. lia.
  - vm_compute. reflexivity.
  - exact ex_trace.
Defined.


