(* ===== verification/Mvcc.v ===== *)
(** * Versions

    The multi-version vocabulary shared by the memtable, compaction and the
    read path: a version is one operation on a user key at a sequence number;
    its internal key is the user key followed by the eight tag bytes of
    [src/crates/merutable/src/types/key.rs].  [newest] is the abstract
    meaning of a snapshot read. *)

From S2P Require Import Prelude Sequence Schema Key.
Local Open Scope Z_scope.

(** A version whose payload is a [V] (row bytes in a memtable, a row with its
    position in compaction). *)
Record VersionOf (V : Type) : Type := {
  v_key : bytes;
  v_seq : SeqNum;
  v_op : OpType;
  v_val : V;
}.
Arguments v_key {V} _.
Arguments v_seq {V} _.
Arguments v_op {V} _.
Arguments v_val {V} _.

#[global] Instance OpType_eq_dec : EqDecision OpType.
Proof. solve_decision. Defined.

Section versions.
Context {V : Type}.
Local Abbreviation Version := (VersionOf V).

(** The internal key of a version. *)
Definition ikey (v : Version) : bytes :=
  v_key v ++ be_split 8 (tag_word (v_seq v) (v_op v)).

Definition seq_ok (v : Version) : Prop := 0 <= v_seq v <= SEQNUM_MAX.

(** [visible k r v]: [v] is a version of [k] that a reader at [r] may see. *)
Definition visible (k : bytes) (r : SeqNum) (v : Version) : bool :=
  bytes_eqb (v_key v) k && (v_seq v <=? r).

(** The version of [k] a reader at [r] sees: the visible one with the highest
    sequence number. *)
Fixpoint newest (vs : list Version) (k : bytes) (r : SeqNum) : option Version :=
  match vs with
  | [] => None
  | v :: vs =>
      if visible k r v then
        match newest vs k r with
        | Some w => if v_seq v <? v_seq w then Some w else Some v
        | None => Some v
        end
      else newest vs k r
  end.

Definition is_newest (vs : list Version) (k : bytes) (r : SeqNum) (v : Version) : Prop :=
  v ∈ vs /\ visible k r v = true /\
  forall w, w ∈ vs -> visible k r w = true -> v_seq w <= v_seq v.

(** No two versions of a key share a sequence number. *)
Definition unique_seqs (vs : list Version) : Prop :=
  NoDup (map (fun v => (v_key v, v_seq v)) vs).

Lemma visible_spec k r v : visible k r v = true <-> v_key v = k /\ v_seq v <= r.
Proof. unfold visible. by rewrite andb_true_iff, bytes_eqb_spec, Z.leb_le. Qed.

Lemma newest_is_newest vs k r v : newest vs k r = Some v -> is_newest vs k r v.
Proof.
  revert v. induction vs as [|x vs IH]; intros v H; simpl in H; [done|].
  assert (Hskip : visible k r x = false -> newest vs k r = Some v ->
                  is_newest (x :: vs) k r v).
  { intros Hx Hn. destruct (IH v Hn) as (H1 & H2 & H3). split; [by right|].
    split; [done|]. intros w [->|Hw]%elem_of_cons Hv; [congruence|auto]. }
  destruct (visible k r x) eqn:Ex; [|auto].
  destruct (newest vs k r) as [w|] eqn:En.
  - destruct (IH w eq_refl) as (H1 & H2 & H3).
    destruct (Z.ltb_spec (v_seq x) (v_seq w)); simplify_eq.
    + split; [by right|]. split; [done|].
      intros y [->|Hy]%elem_of_cons Hv; [lia|auto].
    + split; [by left|]. split; [done|].
      intros y [->|Hy]%elem_of_cons Hv; [lia|]. specialize (H3 y Hy Hv). lia.
  - simplify_eq. split; [by left|]. split; [done|].
    intros y [->|Hy]%elem_of_cons Hv; [lia|]. exfalso. clear -En Hy Hv.
    induction Hy as [y vs|y z vs Hy IH]; simpl in En.
    + rewrite Hv in En. destruct (newest vs k r); [case_match|]; done.
    + destruct (visible k r z); [|auto]. destruct (newest vs k r); [case_match|]; done.
Qed.

Lemma newest_None vs k r :
  newest vs k r = None <-> forall v, v ∈ vs -> visible k r v = false.
Proof.
  split.
  - intros En v Hv. induction Hv as [v vs|v z vs Hv IH]; simpl in En.
    + destruct (visible k r v); [|done]. destruct (newest vs k r); [case_match|]; done.
    + destruct (visible k r z); [|auto]. destruct (newest vs k r); [case_match|]; done.
  - induction vs as [|x vs IH]; intros H; [done|]. simpl.
    rewrite (H x) by (by left). apply IH. intros v Hv. apply H. by right.
Qed.

Lemma unique_seqs_inj vs v w :
  unique_seqs vs -> v ∈ vs -> w ∈ vs -> v_key v = v_key w -> v_seq v = v_seq w -> v = w.
Proof.
  unfold unique_seqs. induction vs as [|x vs IH]; simpl; [by intros _ ?%elem_of_nil|].
  rewrite NoDup_cons, !elem_of_cons. intros [Hx Hd] [->|Hv] [->|Hw] Ek Es; auto.
  - exfalso. apply Hx. apply list_elem_of_fmap. exists w. by rewrite Ek, Es.
  - exfalso. apply Hx. apply list_elem_of_fmap. exists v. by rewrite <- Ek, <- Es.
Qed.

Lemma newest_iff vs k r v :
  unique_seqs vs -> (newest vs k r = Some v <-> is_newest vs k r v).
Proof.
  intros Hu. split; [apply newest_is_newest|]. intros (H1 & H2 & H3).
  destruct (newest vs k r) as [w|] eqn:En.
  - apply newest_is_newest in En as (W1 & W2 & W3). f_equal.
    apply (unique_seqs_inj vs); [done..| |].
    + apply visible_spec in H2, W2. destruct H2, W2. congruence.
    + specialize (H3 w W1 W2). specialize (W3 v H1 H2). lia.
  - rewrite newest_None in En. rewrite (En v H1) in H2. done.
Qed.

#[export] Instance unique_seqs_perm : Proper ((≡ₚ) ==> iff) unique_seqs.
Proof. intros vs ws E. unfold unique_seqs. by rewrite E. Qed.

Lemma newest_perm vs ws k r : unique_seqs vs -> vs ≡ₚ ws -> newest vs k r = newest ws k r.
Proof.
  intros Hu E. assert (Hu' : unique_seqs ws) by by rewrite <- E.
  destruct (newest vs k r) as [v|] eqn:En; symmetry.
  - apply newest_iff; [done|]. apply newest_is_newest in En as (H1 & H2 & H3).
    split; [by rewrite <- E|]. split; [done|]. intros w Hw. apply H3. by rewrite E.
  - rewrite newest_None in *. intros v Hv. apply En. by rewrite E.
Qed.

Lemma newest_app vs ws k r :
  newest (vs ++ ws) k r =
  match newest vs k r, newest ws k r with
  | Some v, Some w => if v_seq v <? v_seq w then Some w else Some v
  | Some v, None => Some v
  | None, o => o
  end.
Proof.
  induction vs as [|x vs IH]; simpl; [done|]. rewrite IH.
  destruct (visible k r x); [|done].
  destruct (newest vs k r) as [v|], (newest ws k r) as [w|];
    repeat match goal with |- context [?a <? ?b] => destruct (Z.ltb_spec a b) end;
    try done; lia.
Qed.

(** If everything in [vs] is newer than everything in [ws], a hit in [vs]
    settles the lookup. *)
Lemma newest_app_newer vs ws k r :
  (forall v w, v ∈ vs -> w ∈ ws -> v_seq w < v_seq v) ->
  newest (vs ++ ws) k r =
  match newest vs k r with Some v => Some v | None => newest ws k r end.
Proof.
  intros H. rewrite newest_app. destruct (newest vs k r) as [v|] eqn:Ev; [|done].
  destruct (newest ws k r) as [w|] eqn:Ew; [|done].
  apply newest_is_newest in Ev as [Hv _], Ew as [Hw _].
  specialize (H v w Hv Hw). destruct (Z.ltb_spec (v_seq v) (v_seq w)); [lia|done].
Qed.

(** ** Order of internal keys

    [K] is a set of user keys none of which is a proper prefix of another, as
    the encoding of primary keys under one schema is. *)
Definition prefix_free (K : bytes -> Prop) : Prop :=
  forall k1 k2 t1 t2, K k1 -> K k2 -> k1 ++ t1 = k2 ++ t2 -> k1 = k2.

Lemma bytes_cmp_prefix_free k1 k2 t1 t2 :
  (forall u1 u2, k1 ++ u1 = k2 ++ u2 -> k1 = k2) ->
  bytes_cmp (k1 ++ t1) (k2 ++ t2) = cmp_then (bytes_cmp k1 k2) (bytes_cmp t1 t2).
Proof.
  revert k2. induction k1 as [|x k1 IH]; intros [|y k2] H; [done|..].
  - specialize (H (y :: k2) []). rewrite app_nil_r in H. by specialize (H eq_refl).
  - specialize (H [] (x :: k1)). rewrite app_nil_r in H. by specialize (H eq_refl).
  - simpl. destruct (byte.compare x y) eqn:E; [|done..].
    apply byte_compare_eq in E as ->. apply IH. intros u1 u2 Hu.
    specialize (H u1 u2). simpl in H. rewrite Hu in H. by simplify_eq (H eq_refl).
Qed.

Definition v_lt (v w : Version) : Prop := bytes_lt (ikey v) (ikey w).

Section order.
Context (K : bytes -> Prop) (K_pf : prefix_free K).

Definition v_ok (v : Version) : Prop := K (v_key v) /\ seq_ok v.

Lemma ikey_cmp v w :
  v_ok v -> v_ok w ->
  bytes_cmp (ikey v) (ikey w)
  = cmp_then (bytes_cmp (v_key v) (v_key w)) (tag_cmp (v_seq v) (v_op v) (v_seq w) (v_op w)).
Proof.
  intros [Kv Sv] [Kw Sw]. unfold ikey.
  rewrite bytes_cmp_prefix_free by (intros u1 u2; by apply K_pf). f_equal.
  rewrite bytes_cmp_be_split by (apply tag_word_range; done). by apply tag_word_cmp.
Qed.

Lemma v_lt_iff v w :
  v_ok v -> v_ok w ->
  (v_lt v w <-> bytes_lt (v_key v) (v_key w) \/
    (v_key v = v_key w /\
     (v_seq w < v_seq v \/ (v_seq v = v_seq w /\ op_code (v_op v) < op_code (v_op w))))).
Proof.
  intros Hv Hw. unfold v_lt, bytes_lt at 1. rewrite ikey_cmp by done.
  unfold tag_cmp, cmp_then.
  destruct (bytes_cmp_spec (v_key v) (v_key w)) as [E|L|L].
  - rewrite E. destruct (Z.compare_spec (v_seq w) (v_seq v)) as [Es|Ls|Ls].
    + rewrite Z.compare_lt_iff. split; [intros; right; split; [done|right; lia]|].
      intros [X|(_ & X)]; [by apply bytes_lt_irrefl in X|lia].
    + split; [intros _; right; split; [done|left; lia]|done].
    + split; [done|]. intros [X|(_ & X)]; [by apply bytes_lt_irrefl in X|lia].
  - split; [by left|done].
  - split; [done|]. intros [X|(E & _)]; exfalso.
    + by apply (bytes_lt_irrefl (v_key v)), (bytes_lt_trans _ (v_key w)).
    + rewrite E in L. by apply bytes_lt_irrefl in L.
Qed.

Lemma v_lt_same_key v w :
  v_ok v -> v_ok w -> v_lt v w -> v_key v = v_key w -> v_seq w <= v_seq v.
Proof.
  intros Hv Hw H E. apply v_lt_iff in H as [H|(_ & H)]; [|lia|done..].
  rewrite E in H. by apply bytes_lt_irrefl in H.
Qed.

Lemma v_lt_key_le v w :
  v_ok v -> v_ok w -> v_lt v w -> ~ bytes_lt (v_key w) (v_key v).
Proof.
  intros Hv Hw H Hlt. apply v_lt_iff in H as [H|[E _]]; [| |done..].
  - by apply (bytes_lt_irrefl (v_key w)), (bytes_lt_trans _ (v_key v)).
  - rewrite E in Hlt. by apply bytes_lt_irrefl in Hlt.
Qed.

Lemma ikey_inj v w : v_ok v -> v_ok w -> ikey v = ikey w -> v_key v = v_key w /\ v_seq v = v_seq w.
Proof.
  intros Hv Hw E. pose proof (ikey_cmp v w Hv Hw) as H.
  rewrite E, bytes_cmp_refl in H. unfold tag_cmp, cmp_then in H.
  destruct (bytes_cmp_spec (v_key v) (v_key w)) as [Ek| |]; [|done..].
  destruct (Z.compare_spec (v_seq w) (v_seq v)); done.
Qed.

(** In internal-key order the newest visible version comes first. *)
Lemma newest_sorted ws k r :
  StronglySorted v_lt ws -> Forall v_ok ws ->
  newest ws k r = List.find (visible k r) ws.
Proof.
  induction 1 as [|v ws Hs IH Hv]; intros HF; [done|].
  apply Forall_cons in HF as [Ov HF]. simpl. rewrite IH by done.
  destruct (visible k r v) eqn:Ev; [|done].
  destruct (List.find (visible k r) ws) as [w|] eqn:Ew; [|done].
  apply find_some in Ew as [Hin Hw]. apply list_elem_of_In in Hin.
  apply visible_spec in Ev as [Ek _], Hw as [Ek' _].
  rewrite Forall_forall in Hv, HF.
  assert (v_seq w <= v_seq v) by (apply v_lt_same_key; auto; congruence).
  destruct (Z.ltb_spec (v_seq v) (v_seq w)); [lia|done].
Qed.
End order.

(** ** One version per key

    The deduplication of scans: of consecutive versions of one key the first
    is kept; [last] is the key kept last. *)
Fixpoint firsts (last : option bytes) (vs : list Version) : list Version :=
  match vs with
  | [] => []
  | v :: vs =>
      if bool_decide (last = Some (v_key v)) then firsts last vs
      else v :: firsts (Some (v_key v)) vs
  end.

Lemma elem_of_firsts last vs v : v ∈ firsts last vs -> v ∈ vs.
Proof.
  revert last. induction vs as [|w vs IH]; intros last; cbn [firsts]; [done|].
  case_bool_decide; [intros Hv; right; eauto|].
  intros [->|Hv]%elem_of_cons; [by left|right; eauto].
Qed.

(** In key order, where versions of the key [last] may come first. *)
Definition after_key (last : option bytes) (vs : list Version) : Prop :=
  match last with
  | None => True
  | Some k => Forall (fun v => ~ bytes_lt (v_key v) k) vs
  end.

Definition key_sorted_weak (vs : list Version) : Prop :=
  StronglySorted (fun v w => ~ bytes_lt (v_key w) (v_key v)) vs.

Lemma after_key_cons last v vs :
  key_sorted_weak (v :: vs) -> after_key last (v :: vs) ->
  (last = Some (v_key v) -> after_key last vs) /\ after_key (Some (v_key v)) vs.
Proof. intros [_ H]%StronglySorted_inv Hl. split; [by intros ->|done]. Qed.

Lemma firsts_sorted last vs :
  key_sorted_weak vs -> after_key last vs ->
  StronglySorted bytes_lt (map v_key (firsts last vs)) /\
  Forall (fun v => last <> Some (v_key v)) (firsts last vs) /\
  match last with
  | None => True
  | Some k => Forall (fun v => bytes_lt k (v_key v)) (firsts last vs)
  end.
Proof.
  revert last. induction vs as [|v vs IH]; intros last Hs Ha; cbn [firsts].
  { split_and!; [constructor..|]. destruct last; [constructor|done]. }
  pose proof (after_key_cons last v vs Hs Ha) as [Hb Hc].
  apply StronglySorted_inv in Hs as [Hs _]. case_bool_decide as E; [by apply IH; auto|].
  destruct (IH (Some (v_key v)) Hs Hc) as (I1 & I2 & I3). split_and!.
  - cbn [map]. constructor; [done|]. by apply (Forall_fmap v_key).
  - constructor; [done|]. destruct last as [k|]; [|by apply Forall_true].
    apply Forall_cons in Ha as [Ha _]. eapply Forall_impl; [exact I3|].
    intros w Hw [= ->]. done.
  - destruct last as [k|]; [|done]. apply Forall_cons in Ha as [Ha _].
    assert (Hk : bytes_lt k (v_key v)) by (destruct (bytes_cmp_spec k (v_key v)); [congruence|done..]).
    constructor; [done|]. eapply Forall_impl; [exact I3|]. intros w. by apply bytes_lt_trans.
Qed.

(** Every key of the list is kept once, with its first version. *)
Lemma firsts_find vs last k :
  key_sorted_weak vs -> after_key last vs -> last <> Some k ->
  List.find (fun v => bytes_eqb (v_key v) k) (firsts last vs)
  = List.find (fun v => bytes_eqb (v_key v) k) vs.
Proof.
  revert last. induction vs as [|v vs IH]; intros last Hs Ha Hk; [done|]. cbn [firsts].
  pose proof (after_key_cons last v vs Hs Ha) as [Hb Hc].
  pose proof (proj1 (StronglySorted_inv Hs)) as Hs'.
  case_bool_decide as E; cbn [List.find].
  - destruct (bytes_eqb (v_key v) k) eqn:Ek; [apply bytes_eqb_spec in Ek; congruence|].
    by apply IH; auto.
  - destruct (bytes_eqb (v_key v) k) eqn:Ek; [done|]. apply IH; [done..|].
    intros [= E']. rewrite E' in Ek. by rewrite (proj2 (bytes_eqb_spec k k)) in Ek.
Qed.

Lemma sorted_find (vs : list Version) x :
  StronglySorted bytes_lt (map v_key vs) ->
  (x ∈ vs <-> List.find (fun v => bytes_eqb (v_key v) (v_key x)) vs = Some x).
Proof.
  intros Hs. split; [|by intros [H _]%find_some; apply list_elem_of_In].
  induction vs as [|v vs IH]; [by intros ?%elem_of_nil|]. cbn [map] in Hs.
  apply StronglySorted_inv in Hs as [Hs Hv]. cbn [List.find].
  intros [->|Hx]%elem_of_cons; [by rewrite (proj2 (bytes_eqb_spec _ _))|].
  destruct (bytes_eqb (v_key v) (v_key x)) eqn:E; [|by apply IH].
  apply bytes_eqb_spec in E. exfalso. apply (bytes_lt_irrefl (v_key x)). rewrite <- E at 1.
  apply (proj1 (List.Forall_forall _ _) Hv), in_map, list_elem_of_In. done.
Qed.

Lemma elem_of_firsts_iff vs x :
  key_sorted_weak vs ->
  (x ∈ firsts None vs <-> List.find (fun v => bytes_eqb (v_key v) (v_key x)) vs = Some x).
Proof.
  intros Hs. rewrite sorted_find by by apply firsts_sorted. by rewrite firsts_find.
Qed.

(** ** Scan ranges: [start] included, [end_] excluded. *)
Definition in_bounds (start end_ : option bytes) (k : bytes) : bool :=
  match start with Some a => negb (bytes_ltb k a) | None => true end &&
  match end_ with Some b => bytes_ltb k b | None => true end.

Definition scanned (start end_ : option bytes) (r : SeqNum) (v : Version) : bool :=
  (v_seq v <=? r) && in_bounds start end_ (v_key v).

Lemma find_scanned (vs : list Version) start end_ k r :
  in_bounds start end_ k = true ->
  List.find (fun v => bytes_eqb (v_key v) k) (List.filter (scanned start end_ r) vs)
  = List.find (visible k r) vs.
Proof.
  intros Hk. induction vs as [|v vs IH]; [done|]. cbn [List.filter List.find].
  unfold scanned at 1, visible at 1. destruct (bytes_eqb (v_key v) k) eqn:E; cbn [andb].
  - pose proof E as E'. apply bytes_eqb_spec in E' as ->. rewrite Hk, andb_true_r.
    destruct (v_seq v <=? r); [|done]. cbn [List.find]. by rewrite E.
  - destruct (_ && _); [|done]. cbn [List.find]. by rewrite E.
Qed.

(** ** Sources in order

    [A] shadows [B]: of every key [A] has a version that [B] has not
    overtaken, or the very version. *)
Definition shadows (A B : list Version) : Prop :=
  forall v w, v ∈ A -> w ∈ B -> v_key v = v_key w ->
    v_seq w <= v_seq v \/ exists v', v' ∈ A /\ v_key v' = v_key w /\ v_seq v' = v_seq w.

Lemma newest_app_shadows A B k r :
  shadows A B ->
  newest (A ++ B) k r = match newest A k r with Some v => Some v | None => newest B k r end.
Proof.
  intros H. rewrite newest_app. destruct (newest A k r) as [v|] eqn:Ev; [|done].
  destruct (newest B k r) as [w|] eqn:Ew; [|done].
  apply newest_is_newest in Ev as (Hv & [Kv _]%visible_spec & Mv).
  apply newest_is_newest in Ew as (Hw & [Kw Rw]%visible_spec & _).
  destruct (Z.ltb_spec (v_seq v) (v_seq w)) as [Hlt|]; [|done]. exfalso.
  destruct (H v w Hv Hw) as [?|(v' & Hv' & Kv' & Sv')]; [congruence|lia|].
  specialize (Mv v' Hv'). rewrite visible_spec in Mv. assert (v_seq v' <= v_seq v) by (apply Mv; split; [congruence|lia]). lia.
Qed.

(** The first source with a visible version. *)
Fixpoint first_hit (ls : list (list Version)) (k : bytes) (r : SeqNum) : option Version :=
  match ls with
  | [] => None
  | l :: ls => match newest l k r with Some v => Some v | None => first_hit ls k r end
  end.

Lemma newest_first_hit ls k r :
  ForallOrdPairs shadows ls -> newest (concat ls) k r = first_hit ls k r.
Proof.
  induction 1 as [|l ls Hl _ IH]; [done|]. cbn [concat first_hit]. rewrite newest_app_shadows, IH; [done|].
  intros v w Hv Hw. apply list_elem_of_In, in_concat in Hw as (l' & Hl' & Hw).
  rewrite List.Forall_forall in Hl. apply (Hl l' Hl'); [done|]. by apply list_elem_of_In.
Qed.

Lemma first_hit_app ls ls' k r :
  first_hit (ls ++ ls') k r = match first_hit ls k r with Some v => Some v | None => first_hit ls' k r end.
Proof. induction ls as [|l ls IH]; [done|]. cbn. by destruct (newest l k r). Qed.

Lemma newest_above vs r y :
  y ∈ vs -> v_seq y <= r ->
  exists z, newest vs (v_key y) r = Some z /\ v_key z = v_key y /\ v_seq y <= v_seq z.
Proof.
  intros Hy Hr. assert (Hvis : visible (v_key y) r y = true) by (by apply visible_spec).
  destruct (newest vs (v_key y) r) as [z|] eqn:E.
  - apply newest_is_newest in E as (_ & [Hk _]%visible_spec & Hmax). exists z. auto.
  - pose proof (proj1 (newest_None _ _ _) E y Hy). congruence.
Qed.

(** Versions of a key with the same sequence number are the same. *)
Definition consistent (vs : list Version) : Prop :=
  forall v w, v ∈ vs -> w ∈ vs -> v_key v = v_key w -> v_seq v = v_seq w -> v = w.

Lemma newest_consistent vs k r v :
  consistent vs -> (newest vs k r = Some v <-> is_newest vs k r v).
Proof.
  intros Hc. split; [apply newest_is_newest|]. intros (Hv & Hr & Hmax).
  destruct (newest vs k r) as [w|] eqn:E.
  - apply newest_is_newest in E as (Hw & Hwr & Hwmax). f_equal.
    pose proof (Hmax w Hw Hwr). pose proof (Hwmax v Hv Hr).
    apply visible_spec in Hr as [? _], Hwr as [? _]. apply Hc; [done..|congruence|lia].
  - pose proof (proj1 (newest_None _ _ _) E v Hv). congruence.
Qed.

End versions.

(** Changing the payload. *)
Definition vmap {V W} (f : VersionOf V -> W) (v : VersionOf V) : VersionOf W :=
  {| v_key := v_key v; v_seq := v_seq v; v_op := v_op v; v_val := f v |}.

Lemma newest_map {V W} (f : VersionOf V -> W) vs k r :
  newest (map (vmap f) vs) k r = vmap f <$> newest vs k r.
Proof.
  induction vs as [|v vs IH]; [done|]. cbn [map newest].
  change (visible k r (vmap f v)) with (visible k r v). destruct (visible k r v); [|done].
  rewrite IH. destruct (newest vs k r) as [w|]; [|done]. cbn. by destruct (v_seq v <? v_seq w).
Qed.

(** The user keys of one table: encodings of primary keys under its schema. *)
Definition encoded_key (s : TableSchema) (k : bytes) : Prop :=
  exists pk, Forall FieldValue_wf pk /\ encode_user_key pk s = Ok k.

Lemma encoded_key_prefix_free s : prefix_free (encoded_key s).
Proof.
  intros k1 k2 t1 t2 (pk1 & W1 & E1) (pk2 & W2 & E2) E.
  assert (pk1 = pk2) as -> by by eapply encoded_prefix_free.
  congruence.
Qed.

(** A key as [InternalKey::encode] builds it. *)
Definition key_wf (K : bytes -> Prop) (k : InternalKey) : Prop :=
  K (user_key_bytes k) /\ 0 <= seq k <= SEQNUM_MAX /\
  encoded k = user_key_bytes k ++ be_split 8 (tag_word (seq k) (op_type k)).

Lemma encode_key_wf s pk sq op k :
  Forall FieldValue_wf pk -> 0 <= sq -> encode pk sq op s = Ok k ->
  key_wf (encoded_key s) k.
Proof.
  intros W H0 E. apply encode_inv in E as (b & Eb & Hs & Ek & Es & Eo & _ & Eu).
  unfold key_wf. rewrite Eu, Ek, Es, Eo. split; [by exists pk|]. split; [lia|done].
Qed.
