(* ===== verification/Memtable.v ===== *)
(** * Memtables

    [src/crates/merutable/src/memtable/]: the skip list of internal keys
    ([skiplist.rs]), one write buffer ([memtable.rs]), its snapshot iterator
    ([iterator.rs]) and the manager of the active and immutable buffers
    ([manager.rs]).  [crossbeam_skiplist::SkipMap] is an interface with the
    laws of an ordered map ([SkipMap], [SkipMapLaws]). *)

From S2P Require Import Prelude Sequence Key WalBatch Mvcc.
Local Open Scope Z_scope.

Record EntryValue : Type := { e_op : OpType; e_value : bytes }.

(** ** The ordered map *)

(** [sm_from k]: the entries a cursor visits from [lower_bound(Included(k))];
    [sm_range a b]: the entries of [range((Included(a), end))]. *)
Class SkipMap (M : Type) := {
  sm_new : M;
  sm_insert : bytes -> EntryValue -> M -> M;
  sm_iter : M -> list (bytes * EntryValue);
  sm_from : bytes -> M -> list (bytes * EntryValue);
  sm_range : bytes -> option bytes -> M -> list (bytes * EntryValue);
}.

(** Insertion into a sorted list of entries; an equal key is replaced. *)
Fixpoint sorted_insert (k : bytes) (e : EntryValue) (l : list (bytes * EntryValue))
    : list (bytes * EntryValue) :=
  match l with
  | [] => [(k, e)]
  | (k', e') :: l' =>
      match bytes_cmp k k' with
      | Lt => (k, e) :: l
      | Eq => (k, e) :: l'
      | Gt => (k', e') :: sorted_insert k e l'
      end
  end.

Definition below (upper : option bytes) (k : bytes) : bool :=
  match upper with Some u => bytes_ltb k u | None => true end.

Class SkipMapLaws (M : Type) `{!SkipMap M} := {
  sm_iter_new : sm_iter sm_new = [];
  sm_iter_insert k e m : sm_iter (sm_insert k e m) = sorted_insert k e (sm_iter m);
  sm_from_spec k m :
    sm_from k m = List.filter (fun x => bytes_leb k x.1) (sm_iter m);
  sm_range_spec a b m :
    sm_range a b m = List.filter (fun x => bytes_leb a x.1 && below b x.1) (sm_iter m);
}.

#[global] Instance ListMap : SkipMap (list (bytes * EntryValue)) := {|
  sm_new := []; sm_insert := sorted_insert; sm_iter m := m;
  sm_from k m := List.filter (fun x => bytes_leb k x.1) m;
  sm_range a b m := List.filter (fun x => bytes_leb a x.1 && below b x.1) m |}.
#[global] Instance ListMap_laws : SkipMapLaws (list (bytes * EntryValue)).
Proof. by split. Qed.

(** ** Internal key helpers *)
Definition SEEK_TAG : bytes := [b0; b0; b0; b0; b0; b0; b0; Byte.x01].

Definition build_seek_key (user_key_bytes : bytes) : bytes := user_key_bytes ++ SEEK_TAG.

(** The slices panic on keys shorter than a tag. *)
Definition decode_seq_from_key (k : bytes) : res SeqNum :=
  if (length k <? 8)%nat then Panic
  else Ok (SEQNUM_MAX - Z.shiftr (be_combine (drop (length k - 8) k)) 8).

Definition decode_op_type_from_key (k : bytes) : res (option OpType) :=
  match last k with
  | None => Panic
  | Some b => Ok (op_of_code (byte.unsigned b))
  end.

Definition user_key_of (k : bytes) : res bytes :=
  if (length k <? 8)%nat then Panic else Ok (take (length k - 8) k).

(** ** [MemtableSkipList] *)
Section skiplist.
Context {M : Type} `{!SkipMap M}.

Record MemtableSkipList : Type := {
  sl_map : M;
  sl_entry_count : Z;
  sl_size_bytes : Z;
}.

Definition sl_new : MemtableSkipList :=
  {| sl_map := sm_new; sl_entry_count := 0; sl_size_bytes := 0 |}.

Definition sl_insert (k : bytes) (e : EntryValue) (value_size : Z) (s : MemtableSkipList)
    : MemtableSkipList :=
  {| sl_map := sm_insert k e (sl_map s);
     sl_entry_count := wrap 64 (sl_entry_count s + 1);
     sl_size_bytes := wrap 64 (sl_size_bytes s + (Z.of_nat (length k) + value_size + 64)) |}.

(** The cursor loop of [get]. *)
Fixpoint get_loop (cursor : list (bytes * EntryValue)) (uk : bytes) (read_seq : SeqNum)
    : res (option EntryValue) :=
  match cursor with
  | [] => Ok None
  | (found_key, e) :: rest =>
      if (length found_key <? length uk + 8)%nat then Ok None
      else if negb (bytes_eqb (take (length uk) found_key) uk) then Ok None
      else
        seq ← decode_seq_from_key found_key;
        if seq <=? read_seq then Ok (Some e) else get_loop rest uk read_seq
  end.

Definition sl_get (uk : bytes) (read_seq : SeqNum) (s : MemtableSkipList)
    : res (option EntryValue) :=
  get_loop (sm_from (build_seek_key uk) (sl_map s)) uk read_seq.

Definition sl_iter (s : MemtableSkipList) : list (bytes * EntryValue) := sm_iter (sl_map s).

Definition sl_range_iter (start_user_key : bytes) (end_user_key : option bytes)
    (s : MemtableSkipList) : list (bytes * EntryValue) :=
  sm_range (build_seek_key start_user_key) (build_seek_key <$> end_user_key) (sl_map s).

(** ** [MemtableIterator] *)
Record MemEntry : Type := {
  me_user_key : bytes;
  me_seq : SeqNum;
  me_entry : EntryValue;
}.

(** Draining the iterator from a state [last_user_key]. *)
Fixpoint iter_loop (inner : list (bytes * EntryValue)) (read_seq : SeqNum)
    (last_user_key : option bytes) : res (list MemEntry) :=
  match inner with
  | [] => Ok []
  | (k, e) :: inner =>
      seq ← decode_seq_from_key k;
      if read_seq <? seq then iter_loop inner read_seq last_user_key
      else
        uk ← user_key_of k;
        if bool_decide (last_user_key = Some uk) then
          iter_loop inner read_seq last_user_key
        else
          rest ← iter_loop inner read_seq (Some uk);
          Ok ({| me_user_key := uk; me_seq := seq; me_entry := e |} :: rest)
  end.

(** ** [Memtable] *)
Record Memtable : Type := {
  skiplist : MemtableSkipList;
  first_seq : SeqNum;
  m_last_seq : SeqNum;
  m_size_bytes : Z;
  sealed : bool;
  flush_threshold : Z;
}.

Definition mem_new (first threshold : Z) : Memtable :=
  {| skiplist := sl_new; first_seq := first; m_last_seq := first; m_size_bytes := 0;
     sealed := false; flush_threshold := threshold |}.

Definition should_flush (m : Memtable) : bool := flush_threshold m <=? m_size_bytes m.

(** The internal key built in place; the subtraction wraps. *)
Definition mem_ikey (uk : bytes) (seq : SeqNum) (op : OpType) : bytes :=
  uk ++ be_split 8 (Z.lor (wrap 64 (Z.shiftl (wrap 64 (SEQNUM_MAX - seq)) 8)) (op_code op)).

Definition apply_record (seq : SeqNum) (r : BatchRecord) (m : Memtable) : Memtable :=
  let value := value_bytes r in
  let value_size := Z.of_nat (length value) in
  {| skiplist := sl_insert (mem_ikey (user_key r) seq (rec_op r))
                   {| e_op := rec_op r; e_value := value |} value_size (skiplist m);
     first_seq := first_seq m;
     m_last_seq := Z.max seq (m_last_seq m);
     m_size_bytes := wrap 64 (m_size_bytes m
                       + (Z.of_nat (length (user_key r)) + 8 + value_size + 64));
     sealed := sealed m; flush_threshold := flush_threshold m |}.

Fixpoint apply_records (seq : SeqNum) (rs : list BatchRecord) (m : Memtable) : Memtable :=
  match rs with
  | [] => m
  | r :: rs => apply_records (SeqNum_next seq) rs (apply_record seq r m)
  end.

Definition apply_batch (b : WriteBatch) (m : Memtable) : Memtable * res bool :=
  if sealed m then (m, Panic)
  else
    let m := apply_records (sequence b) (records b) m in
    (m, Ok (should_flush m)).

Definition seal (m : Memtable) : Memtable :=
  {| skiplist := skiplist m; first_seq := first_seq m; m_last_seq := m_last_seq m;
     m_size_bytes := m_size_bytes m; sealed := true; flush_threshold := flush_threshold m |}.

Definition mem_get (uk : bytes) (read_seq : SeqNum) (m : Memtable) : res (option EntryValue) :=
  sl_get uk read_seq (skiplist m).

Definition mem_iter (read_seq : SeqNum) (m : Memtable) : res (list MemEntry) :=
  iter_loop (sl_iter (skiplist m)) read_seq None.

Fixpoint all_versions_loop (l : list (bytes * EntryValue)) (read_seq : SeqNum)
    : res (list MemEntry) :=
  match l with
  | [] => Ok []
  | (k, e) :: l =>
      seq ← decode_seq_from_key k;
      if read_seq <? seq then all_versions_loop l read_seq
      else
        uk ← user_key_of k;
        rest ← all_versions_loop l read_seq;
        Ok ({| me_user_key := uk; me_seq := seq; me_entry := e |} :: rest)
  end.

Definition iter_all_versions (read_seq : SeqNum) (m : Memtable) : res (list MemEntry) :=
  all_versions_loop (sl_iter (skiplist m)) read_seq.

(** ** [MemtableManager]: [immutable] is the queue, oldest first. *)
Record MemtableManager : Type := {
  active : Memtable;
  immutable : list Memtable;
  mm_flush_threshold : Z;
  max_immutable : Z;
}.

Definition mm_new (first threshold max_imm : Z) : MemtableManager :=
  {| active := mem_new first threshold; immutable := [];
     mm_flush_threshold := threshold; max_immutable := max_imm |}.

Definition mm_apply_batch (b : WriteBatch) (mm : MemtableManager) : MemtableManager * res bool :=
  let '(m, r) := apply_batch b (active mm) in
  ({| active := m; immutable := immutable mm;
      mm_flush_threshold := mm_flush_threshold mm; max_immutable := max_immutable mm |}, r).

Definition mm_rotate (new_first_seq : SeqNum) (mm : MemtableManager)
    : MemtableManager * Memtable :=
  let sealed := seal (active mm) in
  ({| active := mem_new new_first_seq (mm_flush_threshold mm);
      immutable := immutable mm ++ [sealed];
      mm_flush_threshold := mm_flush_threshold mm; max_immutable := max_immutable mm |},
   sealed).

Definition drop_flushed (first : SeqNum) (mm : MemtableManager) : MemtableManager :=
  {| active := active mm;
     immutable := base.filter (fun m => first_seq m <> first) (immutable mm);
     mm_flush_threshold := mm_flush_threshold mm; max_immutable := max_immutable mm |}.

Definition oldest_immutable (mm : MemtableManager) : option Memtable := head (immutable mm).

Definition immutable_count (mm : MemtableManager) : Z := Z.of_nat (length (immutable mm)).

Definition should_stall (mm : MemtableManager) : bool :=
  max_immutable mm <=? immutable_count mm.

Definition active_should_flush (mm : MemtableManager) : bool := should_flush (active mm).

(** Looking in a list of memtables in turn, stopping at the first hit. *)
Fixpoint get_first (uk : bytes) (read_seq : SeqNum) (ms : list Memtable)
    : res (option EntryValue) :=
  match ms with
  | [] => Ok None
  | m :: ms =>
      o ← mem_get uk read_seq m;
      match o with
      | Some e => Ok (Some e)
      | None => get_first uk read_seq ms
      end
  end.

Definition mm_get (uk : bytes) (read_seq : SeqNum) (mm : MemtableManager)
    : res (option EntryValue) :=
  get_first uk read_seq (active mm :: rev (immutable mm)).

Fixpoint collect {A} (f : Memtable -> res A) (ms : list Memtable) : res (list A) :=
  match ms with
  | [] => Ok []
  | m :: ms => x ← f m; xs ← collect f ms; Ok (x :: xs)
  end.

Definition snapshot_entries (read_seq : SeqNum) (mm : MemtableManager)
    : res (list (list MemEntry)) :=
  collect (mem_iter read_seq) (active mm :: rev (immutable mm)).

Definition snapshot_all_versions (read_seq : SeqNum) (mm : MemtableManager)
    : res (list MemEntry) :=
  l ← collect (iter_all_versions read_seq) (active mm :: rev (immutable mm));
  Ok (concat l).

End skiplist.
Arguments MemtableSkipList : clear implicits.
Arguments Memtable : clear implicits.
Arguments MemtableManager : clear implicits.

(** ** What a memtable holds *)

Abbreviation Version := (VersionOf bytes).

Definition entry_of (v : Version) : EntryValue := {| e_op := v_op v; e_value := v_val v |}.
Definition enc (v : Version) : bytes * EntryValue := (ikey v, entry_of v).
Definition mem_entry_of (v : Version) : MemEntry :=
  {| me_user_key := v_key v; me_seq := v_seq v; me_entry := entry_of v |}.

(** The versions a batch writes: consecutive sequence numbers. *)
Fixpoint record_versions (seq : SeqNum) (rs : list BatchRecord) : list Version :=
  match rs with
  | [] => []
  | r :: rs =>
      {| v_key := user_key r; v_seq := seq; v_op := rec_op r; v_val := value_bytes r |}
      :: record_versions (seq + 1) rs
  end.

Definition batch_versions (b : WriteBatch) : list Version :=
  record_versions (sequence b) (records b).

Lemma length_ikey (v : Version) : length (ikey v) = (length (v_key v) + 8)%nat.
Proof. unfold ikey. by rewrite length_app, be_split_length. Qed.

Lemma decode_seq_ikey (v : Version) : seq_ok v -> decode_seq_from_key (ikey v) = Ok (v_seq v).
Proof.
  intros Hv. unfold decode_seq_from_key. rewrite length_ikey.
  destruct (Nat.ltb_spec (length (v_key v) + 8) 8); [lia|]. rewrite Nat.add_sub.
  unfold ikey. rewrite drop_app_length, be_combine_split_id by (apply tag_word_range; done).
  destruct (tag_decode (v_seq v) (v_op v) Hv) as [-> _]. f_equal. lia.
Qed.

Lemma user_key_of_ikey (v : Version) : user_key_of (ikey v) = Ok (v_key v).
Proof.
  unfold user_key_of. rewrite length_ikey.
  destruct (Nat.ltb_spec (length (v_key v) + 8) 8); [lia|]. rewrite Nat.add_sub.
  unfold ikey. by rewrite take_app_length.
Qed.

Lemma mem_ikey_eq (v : Version) : seq_ok v -> mem_ikey (v_key v) (v_seq v) (v_op v) = ikey v.
Proof.
  intros Hv. unfold mem_ikey, ikey, tag_word. do 2 f_equal. do 2 f_equal.
  f_equal. unfold seq_ok in Hv. unfold wrap. apply Z.mod_small.
  Transparent SEQNUM_MAX. unfold SEQNUM_MAX in *. Opaque SEQNUM_MAX. lia.
Qed.

Lemma seek_key_eq uk :
  build_seek_key uk =
  ikey ({| v_key := uk; v_seq := SEQNUM_MAX; v_op := Put; v_val := [] |} : Version).
Proof.
  unfold build_seek_key, ikey. f_equal.
Qed.

Lemma find_filter {A} (P Q : A -> bool) l :
  (forall x, x ∈ l -> P x = true -> Q x = true) ->
  List.find P (List.filter Q l) = List.find P l.
Proof.
  induction l as [|x l IH]; intros H; [done|]. simpl.
  assert (IH' : List.find P (List.filter Q l) = List.find P l).
  { apply IH. intros y Hy. apply H. by right. }
  destruct (Q x) eqn:EQ; simpl; rewrite IH'; [done|].
  destruct (P x) eqn:EP; [|done]. rewrite (H x) in EQ; [done|by left|done].
Qed.

Lemma filter_map_enc (Q : bytes -> bool) ws :
  List.filter (fun x => Q x.1) (map enc ws) = map enc (List.filter (fun v => Q (ikey v)) ws).
Proof.
  induction ws as [|v ws IH]; [done|]. simpl. destruct (Q (ikey v)); simpl; by rewrite IH.
Qed.

Lemma filter_sorted {A} (R : A -> A -> Prop) (Q : A -> bool) l :
  StronglySorted R l -> StronglySorted R (List.filter Q l).
Proof.
  induction 1 as [|x l _ IH Hx]; simpl; [constructor|].
  destruct (Q x); [|done]. constructor; [done|].
  apply Forall_forall. intros y Hy%list_elem_of_In%filter_In.
  rewrite Forall_forall in Hx. apply Hx, list_elem_of_In, Hy.
Qed.

Lemma find_none_iff {A} (P : A -> bool) l :
  (forall x, x ∈ l -> P x = false) -> List.find P l = None.
Proof.
  induction l as [|x l IH]; intros H; [done|]. simpl. rewrite (H x) by (by left).
  apply IH. intros y Hy. apply H. by right.
Qed.

(** Insertion keeps the entries sorted and adds exactly one version. *)
Lemma sorted_insert_enc v ws :
  StronglySorted v_lt ws -> (forall w, w ∈ ws -> ikey w <> ikey v) ->
  exists ws', sorted_insert (ikey v) (entry_of v) (map enc ws) = map enc ws' /\
    ws' ≡ₚ v :: ws /\ StronglySorted v_lt ws'.
Proof.
  induction 1 as [|w ws Hs IH Hw]; intros Hf; simpl.
  { exists [v]. repeat split; repeat constructor. }
  destruct (bytes_cmp_spec (ikey v) (ikey w)) as [E|L|L].
  - exfalso. apply (Hf w); [by left|done].
  - exists (v :: w :: ws). split; [done|]. split; [done|].
    constructor; [by constructor|]. constructor; [done|].
    eapply Forall_impl; [exact Hw|]. intros x Hx. unfold v_lt in *.
    by eapply bytes_lt_trans.
  - destruct IH as (ws' & E & P & S); [intros x Hx; apply Hf; by right|].
    exists (w :: ws'). rewrite E. split; [done|].
    split; [rewrite P; constructor|]. constructor; [done|]. rewrite P. by constructor.
Qed.

Section holds.
Context (K : bytes -> Prop) (K_pf : prefix_free K).

(** Versions a memtable can hold and find again: the seek tag is the tag of a
    [Put] at the largest sequence number. *)
Definition storable (v : Version) : Prop := v_ok K v /\ v_seq v < SEQNUM_MAX.

Lemma seek_before (v : Version) uk :
  storable v -> v_key v = uk -> bytes_leb (build_seek_key uk) (ikey v) = true.
Proof.
  intros [Hv Hs] <-. rewrite seek_key_eq. apply bytes_leb_spec.
  set (w := {| v_key := v_key v; v_seq := SEQNUM_MAX; v_op := Put; v_val := [] |} : Version).
  assert (Hw : v_ok K w).
  { split; [apply Hv|]. unfold seq_ok. simpl. pose proof Hv as [_ ?]. unfold seq_ok in *. lia. }
  intros Hlt. apply (v_lt_same_key K K_pf) in Hlt; [|done..]. simpl in Hlt. lia.
Qed.

Lemma seek_key_order (v : Version) uk :
  storable v -> K uk -> bytes_leb (build_seek_key uk) (ikey v) = true ->
  v_key v <> uk -> bytes_lt uk (v_key v).
Proof.
  intros [[Kv Sv] Hs] Hk Hle Hne. apply bytes_leb_spec in Hle.
  destruct (bytes_cmp_spec uk (v_key v)) as [->|L|L]; [done..|].
  exfalso. apply Hle. unfold build_seek_key, ikey, bytes_lt.
  rewrite bytes_cmp_prefix_free by (intros u1 u2; by apply K_pf). by rewrite L.
Qed.

(** The cursor loop returns the first visible version of the key. *)
Lemma get_loop_spec ws uk r :
  StronglySorted v_lt ws -> Forall storable ws -> K uk ->
  Forall (fun v => bytes_leb (build_seek_key uk) (ikey v) = true) ws ->
  get_loop (map enc ws) uk r = Ok (entry_of <$> List.find (visible uk r) ws).
Proof.
  intros Hs HF Hk. induction Hs as [|v ws Hs IH Hv]; intros Hge; [done|].
  apply Forall_cons in HF as [Sv HF], Hge as [Gv Hge].
  cbn [map enc get_loop].
  destruct (decide (v_key v = uk)) as [<-|Hne].
  - cbn [List.find]. rewrite length_ikey, Nat.ltb_irrefl. unfold ikey at 1. rewrite take_app_length.
    unfold bytes_eqb. rewrite bool_decide_true by done. cbn [negb].
    rewrite decode_seq_ikey, Ok_bind by apply Sv.
    unfold visible at 1, bytes_eqb. rewrite bool_decide_true by done.
    cbn [andb].
    destruct (v_seq v <=? r); [done|]. by apply IH.
  - rewrite find_none_iff.
    2:{ intros w Hw. apply not_true_iff_false. rewrite visible_spec. intros [<- _].
      apply elem_of_cons in Hw as [->|Hw]; [done|].
      rewrite Forall_forall in Hv, HF. pose proof (Hv w Hw) as Hlt.
      apply (v_lt_key_le K K_pf) in Hlt; [|apply Sv|by apply HF].
      apply Hlt. by apply seek_key_order. }
    destruct (_ <? _)%nat; [done|]. unfold bytes_eqb.
    rewrite bool_decide_false; [done|]. intros E. apply Hne.
    apply (K_pf (v_key v) uk (be_split 8 (tag_word (v_seq v) (v_op v)))
             (drop (length uk) (ikey v))); [apply Sv|done|].
    rewrite <- E at 1. by rewrite take_drop.
Qed.

Context {M : Type} `{!SkipMap M, !SkipMapLaws M}.

(** The map holds exactly the versions [vs]. *)
Definition Holds (m : M) (vs : list Version) : Prop :=
  exists ws, sm_iter m = map enc ws /\ ws ≡ₚ vs /\ StronglySorted v_lt ws /\
             Forall storable ws /\ unique_seqs ws.

Lemma Holds_new : Holds sm_new [].
Proof.
  exists []. rewrite sm_iter_new. repeat split; constructor.
Qed.

Lemma Holds_insert m vs v :
  Holds m vs -> storable v -> unique_seqs (v :: vs) ->
  Holds (sm_insert (ikey v) (entry_of v) m) (v :: vs).
Proof.
  intros (ws & E & P & S & F & U) Hv Hu.
  destruct (sorted_insert_enc v ws S) as (ws' & E' & P' & S').
  { intros w Hw Hk. assert (Hin : w ∈ vs) by by rewrite <- P.
    rewrite Forall_forall in F. destruct (F w Hw) as [Ow _].
    apply (ikey_inj K K_pf) in Hk as [E1 E2]; [|done|apply Hv].
    apply NoDup_cons in Hu as [Hnin _]. apply Hnin. apply list_elem_of_fmap.
    exists w. by rewrite <- E1, <- E2. }
  exists ws'. rewrite sm_iter_insert, E. split; [done|].
  assert (P2 : ws' ≡ₚ v :: vs) by by rewrite P', P.
  split; [done|]. split; [done|]. split; [rewrite P'; by constructor|by rewrite P2].
Qed.

Lemma Holds_get m vs uk r :
  Holds m vs -> K uk ->
  get_loop (sm_from (build_seek_key uk) m) uk r = Ok (entry_of <$> newest vs uk r).
Proof.
  intros (ws & E & P & S & F & U) Hk.
  rewrite sm_from_spec, E, (filter_map_enc (bytes_leb (build_seek_key uk))).
  rewrite get_loop_spec; [|by apply filter_sorted| |done|].
  - rewrite find_filter.
    + rewrite <- (newest_sorted K K_pf) by
        (done || (eapply Forall_impl; [exact F|]; by intros ? [? _])).
      by rewrite (newest_perm ws vs).
    + intros v Hv [Ek _]%visible_spec. rewrite Forall_forall in F.
      by apply seek_before; [apply F|].
  - apply Forall_forall. intros v Hv%list_elem_of_In%filter_In.
    rewrite Forall_forall in F. apply F, list_elem_of_In, Hv.
  - apply Forall_forall. intros v Hv%list_elem_of_In%filter_In. apply Hv.
Qed.

(** ** Snapshot iteration *)

(** What the iterator keeps, on versions. *)
Fixpoint snap (ws : list Version) (r : SeqNum) (last : option bytes) : list Version :=
  match ws with
  | [] => []
  | v :: ws =>
      if r <? v_seq v then snap ws r last
      else if bool_decide (last = Some (v_key v)) then snap ws r last
      else v :: snap ws r (Some (v_key v))
  end.

Lemma iter_loop_spec ws r last :
  Forall storable ws -> iter_loop (map enc ws) r last = Ok (map mem_entry_of (snap ws r last)).
Proof.
  intros HF. revert last. induction HF as [|v ws [[_ Hv] _] _ IH]; intros last; [done|].
  cbn [map enc iter_loop snap]. rewrite decode_seq_ikey, Ok_bind by done.
  destruct (r <? v_seq v); [apply IH|]. rewrite user_key_of_ikey, Ok_bind.
  destruct (bool_decide _); [apply IH|]. by rewrite IH.
Qed.

Lemma newest_cons_other (v : Version) ws k r :
  visible k r v = false -> newest (v :: ws) k r = newest ws k r.
Proof. intros E. simpl. by rewrite E. Qed.

Lemma newest_cons_first v ws k r :
  StronglySorted v_lt (v :: ws) -> Forall storable (v :: ws) -> visible k r v = true ->
  newest (v :: ws) k r = Some v.
Proof.
  intros Hs HF Hv. rewrite (newest_sorted K K_pf); [simpl; by rewrite Hv|done|].
  eapply Forall_impl; [exact HF|]. by intros ? [? _].
Qed.

(** The iterator yields, in key order, exactly the newest visible version of
    every key other than the last one already yielded. *)
Lemma snap_spec ws r last :
  StronglySorted v_lt ws -> Forall storable ws ->
  (forall k, last = Some k -> Forall (fun w => ~ bytes_lt (v_key w) k) ws) ->
  StronglySorted bytes_lt (map v_key (snap ws r last)) /\
  forall x, x ∈ snap ws r last <->
            newest ws (v_key x) r = Some x /\ last <> Some (v_key x).
Proof.
  intros Hs HF. revert last. induction Hs as [|v ws Hs IH Hv]; intros last Hlast.
  { split; [constructor|]. intros x. simpl. rewrite elem_of_nil. naive_solver. }
  pose proof HF as HF0. apply Forall_cons in HF as [Sv HF]. specialize (IH HF).
  assert (Hss : StronglySorted v_lt (v :: ws)) by by constructor.
  assert (Hge : Forall (fun w => ~ bytes_lt (v_key w) (v_key v)) ws).
  { rewrite Forall_forall in *. intros w Hw. apply (v_lt_key_le K K_pf); [apply Sv|by apply HF|auto]. }
  assert (Hl2 : forall k, last = Some k -> Forall (fun w => ~ bytes_lt (v_key w) k) ws).
  { intros k Ek. specialize (Hlast k Ek). by apply Forall_cons in Hlast as [_ ?]. }
  cbn [snap]. destruct (Z.ltb_spec r (v_seq v)) as [Hr|Hr].
  { destruct (IH last Hl2) as [I1 I2]. split; [done|]. intros x. rewrite I2.
    rewrite newest_cons_other; [done|]. unfold visible.
    destruct (Z.leb_spec (v_seq v) r); [lia|]. apply andb_false_r. }
  assert (Hvis : visible (v_key v) r v = true) by (apply visible_spec; split; [done|lia]).
  assert (Hother : forall k, k <> v_key v -> newest (v :: ws) k r = newest ws k r).
  { intros k Hk. apply newest_cons_other. apply not_true_iff_false.
    rewrite visible_spec. intros [? _]. congruence. }
  case_bool_decide as El.
  { destruct (IH last Hl2) as [I1 I2]. split; [done|]. intros x. rewrite I2.
    destruct (decide (v_key x = v_key v)) as [E|Hne]; [|by rewrite Hother].
    rewrite E. naive_solver. }
  destruct (IH (Some (v_key v))) as [I1 I2]; [by intros k [= <-]|]. split.
  - simpl. constructor; [done|]. apply Forall_fmap, Forall_forall. intros x Hx.
    simpl. apply I2 in Hx as [Hn Hne]. apply newest_is_newest in Hn as [Hin _].
    rewrite Forall_forall in Hge. specialize (Hge x Hin).
    destruct (bytes_cmp_spec (v_key v) (v_key x)) as [E|L|L]; [|done..]. by rewrite E in Hne.
  - intros x. rewrite elem_of_cons, I2. split.
    + intros [->|[Hn Hne]]; [split; [by apply newest_cons_first|done]|].
      rewrite Hother by congruence. split; [done|]. intros ->.
      pose proof (Hlast _ eq_refl) as Hx. apply Forall_cons in Hx as [Hx _].
      apply newest_is_newest in Hn as [Hin _]. rewrite Forall_forall in Hge.
      specialize (Hge x Hin). apply Hne. f_equal.
      by destruct (bytes_cmp_spec (v_key v) (v_key x)).
    + intros [Hn Hne]. destruct (decide (v_key x = v_key v)) as [E|Hk].
      * left. rewrite E, newest_cons_first in Hn by done. congruence.
      * right. rewrite Hother in Hn by done. split; [done|congruence].
Qed.

Lemma Holds_iter m vs r :
  Holds m vs ->
  exists out, iter_loop (sm_iter m) r None = Ok (map mem_entry_of out) /\
    StronglySorted bytes_lt (map v_key out) /\
    forall x, x ∈ out <-> newest vs (v_key x) r = Some x.
Proof.
  intros (ws & E & P & S & F & U). exists (snap ws r None). rewrite E.
  split; [by apply iter_loop_spec|].
  destruct (snap_spec ws r None S F) as [H1 H2]; [done|]. split; [done|].
  intros x. rewrite H2, (newest_perm ws vs) by done. naive_solver.
Qed.

(** ** Applying batches *)
Abbreviation mem_holds m vs := (Holds (sl_map (skiplist m)) vs).

Lemma record_versions_seqs seq rs v :
  v ∈ record_versions seq rs -> seq <= v_seq v < seq + Z.of_nat (length rs).
Proof.
  revert seq. induction rs as [|r rs IH]; intros seq; simpl; [by intros ?%elem_of_nil|].
  intros [->|Hv]%elem_of_cons; simpl; [lia|]. apply IH in Hv. lia.
Qed.

Lemma apply_records_holds seq rs m vs :
  mem_holds m vs -> 0 <= seq -> seq + Z.of_nat (length rs) <= SEQNUM_MAX ->
  Forall (fun r => K (user_key r)) rs -> (forall v, v ∈ vs -> v_seq v < seq) ->
  mem_holds (apply_records seq rs m) (rev (record_versions seq rs) ++ vs).
Proof.
  intros HH H0 Hb HK. revert seq m vs HH H0 Hb.
  induction HK as [|r rs Kr _ IH]; intros seq m vs HH H0 Hb Hlt; [done|].
  cbn [apply_records record_versions].
  assert (Hmax : SEQNUM_MAX < 2 ^ 56).
  { Transparent SEQNUM_MAX. unfold SEQNUM_MAX. Opaque SEQNUM_MAX. lia. }
  simpl length in Hb.
  assert (En : SeqNum_next seq = seq + 1).
  { unfold SeqNum_next, wrap. apply Z.mod_small. lia. }
  rewrite En. simpl rev. rewrite <- app_assoc. simpl app.
  set (v := {| v_key := user_key r; v_seq := seq; v_op := rec_op r; v_val := value_bytes r |}).
  apply IH; [|lia|lia|].
  - unfold apply_record. cbn [skiplist sl_map sl_insert].
    change (mem_ikey (user_key r) seq (rec_op r)) with
      (mem_ikey (v_key v) (v_seq v) (v_op v)).
    assert (Hv : storable v).
    { split; [split; [done|unfold seq_ok; simpl; lia]|simpl; lia]. }
    rewrite mem_ikey_eq by apply Hv.
    change {| e_op := rec_op r; e_value := value_bytes r |} with (entry_of v).
    apply Holds_insert; [done|done|].
    apply NoDup_cons. split.
    + intros ([k s] & [= ? Es] & Hw)%list_elem_of_fmap.
      specialize (Hlt _ Hw). simpl in *. lia.
    + destruct HH as (ws & _ & P & _ & _ & U). by rewrite <- P.
  - intros w [->|Hw]%elem_of_cons; [simpl; lia|]. specialize (Hlt w Hw). lia.
Qed.

Lemma apply_batch_holds b m vs :
  mem_holds m vs -> sealed m = false -> 0 <= sequence b ->
  sequence b + Z.of_nat (length (records b)) <= SEQNUM_MAX ->
  Forall (fun r => K (user_key r)) (records b) ->
  (forall v, v ∈ vs -> v_seq v < sequence b) ->
  exists m', apply_batch b m = (m', Ok (should_flush m')) /\
    mem_holds m' (rev (batch_versions b) ++ vs) /\
    sealed m' = false /\ first_seq m' = first_seq m.
Proof.
  intros HH Hse H0 Hb HK Hlt. unfold apply_batch. rewrite Hse.
  eexists. split; [reflexivity|]. split; [by apply apply_records_holds|].
  clear -Hse. revert m Hse. generalize (sequence b). induction (records b) as [|r rs IH];
    intros seq m Hse; simpl; [done|].
  destruct (IH (SeqNum_next seq) (apply_record seq r m) Hse) as [-> ->]. done.
Qed.

(** ** The manager against a list of tables, newest first *)
Record ATable : Type := { at_first : SeqNum; at_versions : list Version }.

Definition a_apply (b : WriteBatch) (ts : list ATable) : list ATable :=
  match ts with
  | [] => []
  | t :: ts =>
      {| at_first := at_first t; at_versions := rev (batch_versions b) ++ at_versions t |} :: ts
  end.

Definition a_rotate (first : SeqNum) (ts : list ATable) : list ATable :=
  {| at_first := first; at_versions := [] |} :: ts.

Definition a_drop (first : SeqNum) (ts : list ATable) : list ATable :=
  match ts with
  | [] => []
  | t :: ts => t :: base.filter (fun t => at_first t <> first) ts
  end.

Definition a_all (ts : list ATable) : list Version := concat (map at_versions ts).

Inductive mm_op : Type :=
  | OpApply (b : WriteBatch)
  | OpRotate (first : SeqNum)
  | OpDrop (first : SeqNum).

Definition mm_exec (op : mm_op) (mm : MemtableManager M) : MemtableManager M * res unit :=
  match op with
  | OpApply b => let '(mm, r) := mm_apply_batch b mm in (mm, (fun _ => tt) <$> r)
  | OpRotate s => ((mm_rotate s mm).1, Ok tt)
  | OpDrop s => (drop_flushed s mm, Ok tt)
  end.

Fixpoint mm_run (ops : list mm_op) (mm : MemtableManager M) : MemtableManager M * res unit :=
  match ops with
  | [] => (mm, Ok tt)
  | op :: ops =>
      match mm_exec op mm with
      | (mm, Ok _) => mm_run ops mm
      | r => r
      end
  end.

Definition a_exec (op : mm_op) (ts : list ATable) : list ATable :=
  match op with
  | OpApply b => a_apply b ts
  | OpRotate s => a_rotate s ts
  | OpDrop s => a_drop s ts
  end.

Definition a_run (ops : list mm_op) (ts : list ATable) : list ATable :=
  foldl (fun ts op => a_exec op ts) ts ops.

(** Batches arrive with increasing sequence numbers above [bound], on keys of
    the table, below the largest sequence number. *)
Fixpoint ops_ok (bound : Z) (ops : list mm_op) : Prop :=
  match ops with
  | [] => True
  | OpApply b :: ops =>
      bound <= sequence b /\
      sequence b + Z.of_nat (length (records b)) <= SEQNUM_MAX /\
      Forall (fun r => K (user_key r)) (records b) /\
      ops_ok (sequence b + Z.of_nat (length (records b))) ops
  | _ :: ops => ops_ok bound ops
  end.

Definition table_holds (m : Memtable M) (t : ATable) : Prop :=
  first_seq m = at_first t /\ mem_holds m (at_versions t).

Definition newer (t1 t2 : ATable) : Prop :=
  forall v w, v ∈ at_versions t1 -> w ∈ at_versions t2 -> v_seq w < v_seq v.

Definition mm_sim (mm : MemtableManager M) (ts : list ATable) (bound : Z) : Prop :=
  Forall2 table_holds (active mm :: rev (immutable mm)) ts /\
  sealed (active mm) = false /\ StronglySorted newer ts /\
  Forall (fun t => forall v, v ∈ at_versions t -> v_seq v < bound) ts.

Lemma mm_new_sim first thr maxi bound :
  mm_sim (mm_new first thr maxi) [{| at_first := first; at_versions := [] |}] bound.
Proof.
  split; [|split; [done|split]].
  - repeat constructor. apply Holds_new.
  - repeat constructor.
  - repeat constructor. intros v Hv. by apply elem_of_nil in Hv.
Qed.

Lemma filter_rev {A} (P : A -> Prop) `{!forall x, Decision (P x)} (l : list A) :
  base.filter P (rev l) = rev (base.filter P l).
Proof.
  induction l as [|x l IH]; [done|]. simpl. rewrite filter_app, IH, !filter_cons, filter_nil.
  case_decide; [done|by rewrite app_nil_r].
Qed.

Lemma StronglySorted_filter {A} (R : A -> A -> Prop) (P : A -> Prop)
    `{!forall x, Decision (P x)} l :
  StronglySorted R l -> StronglySorted R (base.filter P l).
Proof.
  induction 1 as [|x l _ IH Hx]; [constructor|]. rewrite filter_cons.
  case_decide; [|done]. constructor; [done|]. rewrite Forall_forall in *.
  intros y [_ Hy]%list_elem_of_filter. auto.
Qed.

Lemma drop_sim first ms ts :
  Forall2 table_holds ms ts ->
  Forall2 table_holds (base.filter (fun m => first_seq m <> first) ms)
    (base.filter (fun t => at_first t <> first) ts).
Proof.
  induction 1 as [|m t ms ts Hmt _ IH]; [constructor|].
  rewrite !filter_cons. destruct Hmt as [E Hm].
  do 2 case_decide; [by constructor|congruence..|done].
Qed.

Lemma exec_sim op ops mm ts bound :
  mm_sim mm ts bound -> 0 <= bound -> ops_ok bound (op :: ops) ->
  exists mm' bound', mm_exec op mm = (mm', Ok tt) /\ bound <= bound' /\
    ops_ok bound' ops /\ mm_sim mm' (a_exec op ts) bound'.
Proof.
  intros (HF & Hse & Hn & Hlt) H0 Hok. destruct op as [b|first|first].
  - destruct Hok as (Hb & Hmax & HK & Hok).
    inversion HF as [|? t ? ts' [Hf Hm] HF']; subst.
    apply Forall_cons in Hlt as [Hlt Hlts]. inversion Hn as [|? ? Hn' Hnt]; subst.
    destruct (apply_batch_holds b (active mm) (at_versions t)) as (m' & E & Hm' & Hs' & Hf');
      [done|done|lia|done|done|intros v Hv; specialize (Hlt v Hv); lia|].
    simpl. unfold mm_apply_batch. rewrite E. eexists _, _. split; [reflexivity|].
    split; [|split; [exact Hok|]]; [lia|].
    assert (Hnew : forall v, v ∈ rev (batch_versions b) ->
              sequence b <= v_seq v < sequence b + Z.of_nat (length (records b))).
    { intros v Hv. apply record_versions_seqs. apply list_elem_of_In, in_rev, list_elem_of_In, Hv. }
    split; [|split; [done|split]]; simpl.
    + constructor; [|done]. split; [by rewrite Hf'|done].
    + constructor; [done|]. rewrite Forall_forall in Hnt, Hlts |- *. intros t' Ht' v w Hv Hw.
      simpl in Hv. apply elem_of_app in Hv as [Hv|Hv]; [|by eapply Hnt].
      specialize (Hnew v Hv). specialize (Hlts t' Ht' w Hw). lia.
    + constructor.
      * simpl. intros v [Hv|Hv]%elem_of_app; [apply Hnew in Hv; lia|].
        specialize (Hlt v Hv). lia.
      * eapply Forall_impl; [exact Hlts|]. simpl. intros t' Ht v Hv.
        specialize (Ht v Hv). lia.
  - eexists _, bound. split; [reflexivity|]. split; [lia|]. split; [exact Hok|].
    split; [|split; [done|split]]; simpl.
    + constructor; [split; [done|apply Holds_new]|]. rewrite rev_app_distr. simpl.
      inversion HF; subst. constructor; [|done]. done.
    + constructor; [done|]. apply Forall_forall. intros t _ v w Hv. by apply elem_of_nil in Hv.
    + constructor; [|done]. intros v Hv. by apply elem_of_nil in Hv.
  - eexists _, bound. split; [reflexivity|]. split; [lia|]. split; [exact Hok|].
    inversion HF as [|? t ? ts' Hm HF']; subst. simpl.
    inversion Hn as [|? ? Hn' Hnt]; subst. apply Forall_cons in Hlt as [Hlt Hlts].
    split; [|split; [done|split]]; simpl.
    + constructor; [done|]. rewrite <- filter_rev. by apply drop_sim.
    + constructor; [by apply StronglySorted_filter|]. rewrite Forall_forall in Hnt |- *.
      intros y [_ Hy]%list_elem_of_filter. auto.
    + constructor; [done|]. rewrite Forall_forall in Hlts |- *.
      intros y [_ Hy]%list_elem_of_filter. by apply Hlts.
Qed.

Lemma run_sim ops mm ts bound :
  mm_sim mm ts bound -> 0 <= bound -> ops_ok bound ops ->
  exists mm' bound', mm_run ops mm = (mm', Ok tt) /\ mm_sim mm' (a_run ops ts) bound'.
Proof.
  revert mm ts bound. induction ops as [|op ops IH]; intros mm ts bound Hs H0 Hok.
  { by exists mm, bound. }
  destruct (exec_sim op ops mm ts bound Hs H0 Hok) as (mm1 & b1 & E & Hb & Hok1 & Hs1).
  simpl. rewrite E. apply (IH _ _ b1); [done|lia|done].
Qed.

Lemma get_first_newest ms ts uk r :
  Forall2 table_holds ms ts -> StronglySorted newer ts -> K uk ->
  get_first uk r ms = Ok (entry_of <$> newest (a_all ts) uk r).
Proof.
  intros HF Hn Hk. induction HF as [|m t ms ts [_ Hm] _ IH]; [done|].
  inversion Hn as [|? ? Hn' Hnt]; subst. cbn [get_first]. unfold mem_get, sl_get.
  rewrite (Holds_get _ _ _ _ Hm Hk), Ok_bind. unfold a_all in *. simpl.
  rewrite newest_app_newer.
  - destruct (newest (at_versions t) uk r); [done|]. by apply IH.
  - intros v w Hv Hw. apply elem_of_concat in Hw as (l & Hl & Hw).
    apply list_elem_of_fmap in Hl as (t' & -> & Ht').
    rewrite Forall_forall in Hnt. by apply (Hnt t' Ht').
Qed.

Lemma collect_iter ms ts r :
  Forall2 table_holds ms ts ->
  exists outs, collect (mem_iter r) ms = Ok (map (map mem_entry_of) outs) /\
    Forall2 (fun out t => StronglySorted bytes_lt (map v_key out) /\
               forall x, x ∈ out <-> newest (at_versions t) (v_key x) r = Some x) outs ts.
Proof.
  induction 1 as [|m t ms ts [_ Hm] _ (outs & E & HO)].
  { exists []. split; [done|constructor]. }
  destruct (Holds_iter _ _ r Hm) as (out & E1 & H1 & H2).
  exists (out :: outs). split; [|by constructor]. cbn [collect].
  change (iter_loop (sm_iter (sl_map (skiplist m))) r None) with (mem_iter r m) in E1.
  by rewrite E1, Ok_bind, E.
Qed.
End holds.

(** ** Properties *)

(** C4. Snapshot reads of the memtable manager: after any sequence of
    batches with increasing sequence numbers, rotations and dropped flushed
    tables, no operation has panicked, and [get(key, read_seq)] returns the
    newest version of the key at or below [read_seq] among everything in the
    tables that were not dropped (a tombstone is returned as an entry, and
    nothing if no version is visible). *)
Theorem mm_get_newest {M : Type} `{!SkipMap M, !SkipMapLaws M} s first thr maxi ops :
  ops_ok (encoded_key s) 0 ops ->
  let '(mm, r) := mm_run ops (mm_new first thr maxi : MemtableManager M) in
  let remaining := a_all (a_run ops [{| at_first := first; at_versions := [] |}]) in
  r = Ok tt /\
  forall uk read_seq, encoded_key s uk ->
    mm_get uk read_seq mm = Ok (entry_of <$> newest remaining uk read_seq).
Proof.
  intros Hok. pose proof (encoded_key_prefix_free s) as K_pf.
  destruct (run_sim _ K_pf ops _ _ 0 (mm_new_sim (M := M) (encoded_key s) first thr maxi 0)
              ltac:(lia) Hok) as (mm & bound & -> & HF & _ & Hn & _).
  split; [done|]. intros uk r Hk. by eapply get_first_newest.
Qed.

(** A history: a put, a rotation, a delete of the same key and a put of
    another, and a flushed table dropped. *)
Definition ex_key : bytes := [Byte.x80; b0; b0; Byte.x01; b0; bFF; b0; b0].
Definition ex_key2 : bytes := [Byte.x80; b0; b0; Byte.x02; b0; bFF; b0; b0].
Definition ex_ops : list mm_op :=
  [OpApply (put ex_key [bFF] (new_batch 5)); OpRotate 6;
   OpApply (put ex_key2 [b0] (delete ex_key (new_batch 6))); OpRotate 8; OpDrop 5].

Lemma ex_ops_ok : ops_ok (encoded_key example_schema) 0 ex_ops.
Proof.
  assert (K1 : encoded_key example_schema ex_key).
  { exists (example_pk 1 [b0]). split; [|reflexivity]. repeat constructor; simpl; lia. }
  assert (K2 : encoded_key example_schema ex_key2).
  { exists (example_pk 2 [b0]). split; [|reflexivity]. repeat constructor; simpl; lia. }
  unfold ex_ops. cbn [ops_ok].
  repeat match goal with
    | |- _ /\ _ => split
    | |- True => exact I
    | |- Forall _ _ => repeat (apply Forall_cons; split; [assumption|]); apply Forall_nil_2
    | |- _ <= _ => vm_compute; discriminate
    end.
Qed.

Lemma mm_get_newest_witness :
  let '(mm, r) := mm_run ex_ops (mm_new 1 100 4 : MemtableManager (list (bytes * EntryValue))) in
  let remaining := a_all (a_run ex_ops [{| at_first := 1; at_versions := [] |}]) in
  r = Ok tt /\
  forall uk read_seq, encoded_key example_schema uk ->
    mm_get uk read_seq mm = Ok (entry_of <$> newest remaining uk read_seq).
Proof. apply (mm_get_newest example_schema 1 100 4 ex_ops). exact ex_ops_ok. Defined.

(** Snapshot scans of the memtable manager: under the same conditions
    [snapshot_entries(read_seq)] succeeds and yields, for each table from the
    newest to the oldest, its keys in strictly increasing order, each with
    exactly the newest version at or below [read_seq]. *)
Theorem mm_snapshot_newest {M : Type} `{!SkipMap M, !SkipMapLaws M} s first thr maxi ops read_seq :
  ops_ok (encoded_key s) 0 ops ->
  exists outs,
    snapshot_entries read_seq (mm_run ops (mm_new first thr maxi : MemtableManager M)).1
      = Ok (map (map mem_entry_of) outs) /\
    Forall2 (fun out t => StronglySorted bytes_lt (map v_key out) /\
        forall x, x ∈ out <-> newest (at_versions t) (v_key x) read_seq = Some x)
      outs (a_run ops [{| at_first := first; at_versions := [] |}]).
Proof.
  intros Hok. pose proof (encoded_key_prefix_free s) as K_pf.
  destruct (run_sim _ K_pf ops _ _ 0 (mm_new_sim (M := M) (encoded_key s) first thr maxi 0)
              ltac:(lia) Hok) as (mm & bound & -> & HF & _ & Hn & _).
  by eapply collect_iter.
Qed.

Lemma mm_snapshot_newest_witness :
  exists outs,
    snapshot_entries 6
      (mm_run ex_ops (mm_new 1 100 4 : MemtableManager (list (bytes * EntryValue)))).1
      = Ok (map (map mem_entry_of) outs) /\
    Forall2 (fun out t => StronglySorted bytes_lt (map v_key out) /\
        forall x, x ∈ out <-> newest (at_versions t) (v_key x) 6 = Some x)
      outs (a_run ex_ops [{| at_first := 1; at_versions := [] |}]).
Proof. apply (mm_snapshot_newest example_schema 1 100 4 ex_ops 6). exact ex_ops_ok. Defined.

(** The seek tag is the tag of a [Put] at the largest sequence number,
    not the smallest tag: a [Delete] at that number sorts before it, so a
    lookup skips the tombstone and returns the deleted value. *)
Theorem tombstone_at_max_seq_missed :
  let m0 : Memtable (list (bytes * EntryValue)) := mem_new 0 100 in
  let '(m1, _) := apply_batch (put ex_key [bFF] (new_batch 5)) m0 in
  let '(m2, r) := apply_batch (delete ex_key (new_batch SEQNUM_MAX)) m1 in
  r = Ok true /\
  mem_get ex_key SEQNUM_MAX m2 = Ok (Some {| e_op := Put; e_value := [bFF] |}).
Proof. vm_compute. done. Qed.
