(* ===== verification/LsmVersion.v ===== *)
(** * The level structure

    [src/crates/merutable/src/iceberg/version.rs] and the per-file metadata of
    [src/crates/merutable/src/types/level.rs]: an immutable view of the files
    of each level, and the binary search for the file that covers a key. *)

From S2P Require Import Prelude Sequence Schema.
Local Open Scope Z_scope.

(** Statistics of one column of a file, by Iceberg field id. *)
Record ColumnStats : Type := {
  cs_field_id : Z;
  cs_compressed_bytes : Z;
  cs_value_count : Z;
  cs_null_count : Z;
  cs_lower_bound : option bytes;
  cs_upper_bound : option bytes;
}.

Record ParquetFileMeta : Type := {
  level : Z;
  seq_min : Z;
  seq_max : Z;
  key_min : bytes;
  key_max : bytes;
  num_rows : Z;
  file_size : Z;
  fm_dv_path : option string;
  fm_dv_offset : option Z;
  fm_dv_length : option Z;
  format : option FileFormat;
  column_stats : option (list ColumnStats);
}.

(** The same file with other statistics. *)
Definition with_stats (stats : option (list ColumnStats)) (m : ParquetFileMeta) : ParquetFileMeta :=
  {| level := level m; seq_min := seq_min m; seq_max := seq_max m; key_min := key_min m; key_max := key_max m;
     num_rows := num_rows m; file_size := file_size m; fm_dv_path := fm_dv_path m; fm_dv_offset := fm_dv_offset m;
     fm_dv_length := fm_dv_length m; format := format m; column_stats := stats |}.

Record DataFileMeta : Type := {
  path : string;
  meta : ParquetFileMeta;
  dv_path : option string;
  dv_offset : option Z;
  dv_length : option Z;
}.

Definition has_dv (f : DataFileMeta) : bool := bool_decide (is_Some (dv_path f)).

Record Version : Type := {
  snapshot_id : Z;
  levels : gmap Z (list DataFileMeta);
  schema : TableSchema;
}.

Definition empty_version (s : TableSchema) : Version :=
  {| snapshot_id := 0; levels := ∅; schema := s |}.

Definition files_at (v : Version) (l : Z) : list DataFileMeta := default [] (levels v !! l).

Definition l0_file_count (v : Version) : nat := length (files_at v 0).

(** [iter().sum()] on [u64]. *)
Definition level_bytes (v : Version) (l : Z) : Z :=
  wrap 64 (foldr Z.add 0 (map (fun f => file_size (meta f)) (files_at v l))).

Definition max_level (v : Version) : Z :=
  foldr Z.max 0 (map fst (map_to_list (levels v))).

Definition total_files (v : Version) : nat :=
  foldr Nat.add 0%nat (map (fun e => length e.2) (map_to_list (levels v))).

(** A version as the messages of the manifest carry it, which have no fields
    for the statistics of columns. *)
Definition file_without_stats (f : DataFileMeta) : DataFileMeta :=
  {| path := path f; meta := with_stats None (meta f); dv_path := dv_path f; dv_offset := dv_offset f; dv_length := dv_length f |}.

Definition without_stats (v : Version) : Version :=
  {| snapshot_id := snapshot_id v; levels := map file_without_stats <$> levels v; schema := schema v |}.

(** [VersionSet]: readers load, a commit installs. *)
Record VersionSet : Type := { vs_current : Version }.
Definition vs_new (v : Version) : VersionSet := {| vs_current := v |}.
Definition vs_install (v : Version) (_ : VersionSet) : VersionSet := {| vs_current := v |}.

(** ** [slice::partition_point]: the binary search on [lo, hi). *)
Section partition_point.
Context {A : Type} (pred : A -> bool).

Fixpoint partition_search (fuel : nat) (l : list A) (lo hi : nat) : nat :=
  match fuel with
  | O => lo
  | S fuel =>
      if (lo <? hi)%nat then
        let mid := ((lo + hi) / 2)%nat in
        match l !! mid with
        | Some x =>
            if pred x then partition_search fuel l (S mid) hi
            else partition_search fuel l lo mid
        | None => lo
        end
      else lo
  end.

Definition partition_point (l : list A) : nat := partition_search (length l) l 0 (length l).

(** A slice is partitioned if what satisfies [pred] comes first. *)
Definition partitioned (l : list A) (n : nat) : Prop :=
  (n <= length l)%nat /\
  (forall i x, l !! i = Some x -> pred x = true <-> (i < n)%nat).

Lemma partition_search_spec fuel l lo hi n :
  partitioned l n -> (lo <= n <= hi)%nat -> (hi <= length l)%nat -> (hi - lo <= fuel)%nat ->
  partition_search fuel l lo hi = n.
Proof.
  intros [Hn Hp]. revert lo hi. induction fuel as [|fuel IH]; intros lo hi Hlh Hh Hf;
    cbn [partition_search]; [lia|]. cbv zeta.
  destruct (Nat.ltb_spec lo hi); [|lia].
  set (mid := ((lo + hi) / 2)%nat).
  assert (Hm : (lo <= mid < hi)%nat).
  { unfold mid. split; [apply Nat.div_le_lower_bound; lia|apply Nat.div_lt_upper_bound; lia]. }
  clearbody mid. destruct (l !! mid) as [x|] eqn:E.
  - pose proof (Hp mid x E) as Hx. destruct (pred x).
    + assert (mid < n)%nat by (by apply Hx). apply IH; lia.
    + assert (~ (mid < n)%nat) by (rewrite <- Hx; done). apply IH; lia.
  - apply lookup_ge_None in E. lia.
Qed.

Lemma partition_point_spec l n : partitioned l n -> partition_point l = n.
Proof. intros H. apply partition_search_spec; [done|..]; destruct H; lia. Qed.
End partition_point.

(** ** The covering file of a level *)
Definition find_file_for_key (v : Version) (l : Z) (k : bytes) : option DataFileMeta :=
  let files := files_at v l in
  match files with
  | [] => None
  | _ =>
      let idx := partition_point (fun f => bytes_leb (key_min (meta f)) k) files in
      if (idx =? 0)%nat then None
      else
        candidate ← files !! (idx - 1)%nat;
        if bytes_leb k (key_max (meta candidate)) then Some candidate else None
  end.

(** [k] lies in the key range of [f]. *)
Definition covers (k : bytes) (f : DataFileMeta) : bool :=
  bytes_leb (key_min (meta f)) k && bytes_leb k (key_max (meta f)).

(** Key ranges in order and apart from each other. *)
Definition range_ok (f : DataFileMeta) : Prop :=
  bytes_leb (key_min (meta f)) (key_max (meta f)) = true.
Definition before (f g : DataFileMeta) : Prop := bytes_lt (key_max (meta f)) (key_min (meta g)).

Definition level_ok (files : list DataFileMeta) : Prop :=
  Forall range_ok files /\ StronglySorted before files.

Lemma files_without_stats v l : files_at (without_stats v) l = map file_without_stats (files_at v l).
Proof. unfold files_at, without_stats. cbn [levels]. rewrite lookup_fmap. by destruct (levels v !! l). Qed.

Lemma max_level_without_stats v : max_level (without_stats v) = max_level v.
Proof.
  unfold max_level, without_stats. cbn [levels]. rewrite map_to_list_fmap. f_equal. rewrite map_map. apply map_ext. by intros [].
Qed.

Lemma level_ok_without_stats fs : level_ok fs -> level_ok (map file_without_stats fs).
Proof.
  intros [Hr Hs]. split; [by apply Forall_fmap|]. clear Hr. induction Hs as [|f fs _ IH Hf]; [constructor|].
  cbn [map]. constructor; [done|]. by apply Forall_fmap.
Qed.

Lemma bytes_leb_trans a b c :
  bytes_leb a b = true -> bytes_leb b c = true -> bytes_leb a c = true.
Proof.
  rewrite !bytes_leb_spec. intros H1 H2 H3. apply H1.
  destruct (bytes_cmp_spec b c) as [->|L|L]; [done| |done]. by etransitivity.
Qed.

Lemma bytes_leb_refl a : bytes_leb a a = true.
Proof. apply bytes_leb_spec, bytes_lt_irrefl. Qed.

Lemma bytes_lt_leb a b : bytes_lt a b -> bytes_leb a b = true.
Proof.
  intros H. apply bytes_leb_spec. intros H2.
  by apply (bytes_lt_irrefl a), (bytes_lt_trans _ b).
Qed.

Lemma bytes_leb_false a b : bytes_leb a b = false <-> bytes_lt b a.
Proof.
  destruct (bytes_leb a b) eqn:E.
  - apply bytes_leb_spec in E. naive_solver.
  - split; [|done]. intros _. destruct (bytes_cmp_spec a b) as [->|L|L]; [|..|done].
    + by rewrite bytes_leb_refl in E.
    + by rewrite (bytes_lt_leb _ _ L) in E.
Qed.

(** The split point of a level at a key. *)
Lemma level_split files k :
  level_ok files ->
  exists pre post, files = pre ++ post /\
    Forall (fun f => bytes_leb (key_min (meta f)) k = true) pre /\
    Forall (fun f => bytes_leb (key_min (meta f)) k = false) post.
Proof.
  intros [Hr Hs]. induction Hs as [|f files Hs IH Hf].
  { exists [], []. done. }
  apply Forall_cons in Hr as [Rf Hr]. destruct (bytes_leb (key_min (meta f)) k) eqn:E.
  - destruct (IH Hr) as (pre & post & -> & H1 & H2). exists (f :: pre), post.
    repeat split; [by constructor|done].
  - exists [], (f :: files). repeat split; [constructor|]. constructor; [done|].
    rewrite Forall_forall in Hf |- *. intros g Hg. apply bytes_leb_false.
    apply bytes_leb_false in E. specialize (Hf g Hg). unfold before, range_ok in *.
    apply bytes_leb_spec in Rf. eapply bytes_lt_trans; [exact E|].
    by eapply bytes_nlt_le_trans.
Qed.

Lemma partitioned_app {A} (p : A -> bool) pre post :
  Forall (fun x => p x = true) pre -> Forall (fun x => p x = false) post ->
  partitioned p (pre ++ post) (length pre).
Proof.
  intros H1 H2. split; [rewrite length_app; lia|]. intros i x.
  rewrite Forall_lookup in H1, H2. rewrite lookup_app. destruct (pre !! i) as [y|] eqn:E.
  - intros [= ->]. apply lookup_lt_Some in E as Hlt. rewrite (H1 i x E). done.
  - intros Hx. apply lookup_ge_None in E. rewrite (H2 _ x Hx). split; [done|lia].
Qed.

Lemma covers_excludes files f k :
  Forall range_ok files -> StronglySorted before (files ++ [f]) ->
  bytes_leb (key_min (meta f)) k = true -> Forall (fun g => covers k g = false) files.
Proof.
  intros Hr Hs Hk. apply Forall_forall. intros g Hg. unfold covers.
  apply andb_false_iff. right. apply bytes_leb_false.
  assert (Hb : before g f).
  { clear -Hs Hg. induction files as [|h files IH]; [by apply elem_of_nil in Hg|].
    simpl in Hs. inversion Hs as [|? ? Hs' Hh]; subst.
    apply elem_of_cons in Hg as [->|Hg]; [|auto].
    rewrite Forall_app in Hh. destruct Hh as [_ Hh]. by apply Forall_cons in Hh as [? _]. }
  unfold before in Hb. apply bytes_leb_spec in Hk. by eapply bytes_lt_nlt_trans.
Qed.

Lemma find_none_false {A} (p : A -> bool) l :
  Forall (fun x => p x = false) l -> List.find p l = None.
Proof. induction 1 as [|x l Hx _ IH]; [done|]. simpl. by rewrite Hx. Qed.

Lemma find_app {A} (p : A -> bool) l k :
  List.find p (l ++ k) = match List.find p l with Some x => Some x | None => List.find p k end.
Proof. induction l as [|x l IH]; [done|]. simpl. by destruct (p x). Qed.

Lemma find_file_linear v l k :
  level_ok (files_at v l) ->
  find_file_for_key v l k = List.find (covers k) (files_at v l).
Proof.
  intros Hok. unfold find_file_for_key.
  destruct (level_split _ k Hok) as (pre & post & E & H1 & H2). rewrite E in *.
  destruct (pre ++ post) as [|f0 files] eqn:Ef; [done|]. rewrite <- Ef in *. clear Ef f0 files.
  rewrite (partition_point_spec _ _ _ (partitioned_app _ _ _ H1 H2)).
  rewrite find_app, (find_none_false _ post).
  2:{ eapply Forall_impl; [exact H2|]. intros f Hf. unfold covers. by rewrite Hf. }
  destruct pre as [|f pre _] using rev_ind; [done|].
  rewrite length_app. simpl. rewrite Nat.add_1_r. simpl. rewrite Nat.sub_0_r.
  rewrite <- app_assoc. rewrite lookup_app_r, Nat.sub_diag by lia. simpl.
  destruct Hok as [Hr Hs]. rewrite <- app_assoc in Hr, Hs. simpl in Hr, Hs.
  apply Forall_app in Hr as [Hr _], H1 as [_ H1]. apply Forall_cons in H1 as [Hf _].
  rewrite find_app, (find_none_false _ pre).
  - simpl. unfold covers at 1. rewrite Hf. simpl.
    by destruct (bytes_leb k (key_max (meta f))).
  - apply (covers_excludes pre f k); [done| |done].
    clear -Hs. induction pre as [|h pre IH]; [repeat constructor|].
    simpl in *. inversion Hs as [|? ? Hs' Hh]; subst. constructor; [auto|].
    apply Forall_app in Hh as [Hh1 Hh2]. apply Forall_app_2; [done|].
    apply Forall_cons in Hh2 as [? _]. by constructor.
Qed.

(** ** Properties *)

(** On a level whose files have ordered, disjoint key ranges the binary
    search [find_file_for_key] returns exactly the file a linear scan for a
    covering range would return, and nothing if no file covers the key. *)
Theorem find_file_is_linear_scan v l k :
  level_ok (files_at v l) ->
  find_file_for_key v l k = List.find (covers k) (files_at v l).
Proof. apply find_file_linear. Qed.

(** Three files of one level. *)
Definition ex_file (p : string) (lv smin smax : Z) (a b : bytes) (size : Z) : DataFileMeta :=
  {| path := p;
     meta := {| level := lv; seq_min := smin; seq_max := smax; key_min := a; key_max := b;
                num_rows := 10; file_size := size; fm_dv_path := None; fm_dv_offset := None;
                fm_dv_length := None; format := None; column_stats := None |};
     dv_path := None; dv_offset := None; dv_length := None |}.

Definition ex_level : list DataFileMeta :=
  [ex_file "a" 1 1 5 [Byte.x01] [Byte.x05] 10; ex_file "b" 1 1 5 [Byte.x06] [Byte.x0a] 10;
   ex_file "c" 1 1 5 [Byte.x20] [Byte.x30; b0] 10].

Definition ex_schema : TableSchema := TableSchema_builder "t".

Definition ex_version : Version :=
  {| snapshot_id := 1; levels := {[ 1 := ex_level ]}; schema := ex_schema |}.

Lemma ex_level_ok : level_ok ex_level.
Proof. split; repeat constructor. Qed.

Lemma find_file_is_linear_scan_witness :
  find_file_for_key ex_version 1 [Byte.x07] = List.find (covers [Byte.x07]) ex_level /\
  List.find (covers [Byte.x07]) ex_level = Some (ex_file "b" 1 1 5 [Byte.x06] [Byte.x0a] 10).
Proof.
  split; [|reflexivity]. apply (find_file_is_linear_scan ex_version 1 [Byte.x07]).
  exact ex_level_ok.
Defined.
