(* ===== verification/DeletionVector.v ===== *)
(** * Deletion vectors

    [src/crates/merutable/src/iceberg/deletion_vector.rs]: sets of deleted row
    positions, their Puffin file and the checksummed blob inside it.  The
    roaring crate is the interface [Roaring], serde's JSON form of the footer
    the interface [FooterJson], and CRC-32 a parameter. *)

From S2P Require Import Prelude.
Local Open Scope Z_scope.

(** ** The roaring bitmap crate *)
Class Roaring (B : Type) := {
  rb_new : B;
  rb_insert : Z -> B -> B;
  rb_contains : Z -> B -> bool;
  rb_len : B -> Z;
  rb_is_empty : B -> bool;
  rb_or : B -> B -> B;
  rb_iter : B -> list Z;
  rb_serialize : B -> option bytes;
  rb_deserialize : bytes -> option B;
}.

(** What the code relies on: a bitmap denotes a set of positions, and the
    portable format round-trips. *)
Class RoaringLaws (B : Type) `{!Roaring B} := {
  rb_set : B -> gset Z;
  rb_set_new : rb_set rb_new = ∅;
  rb_set_insert p b : rb_set (rb_insert p b) = {[p]} ∪ rb_set b;
  rb_set_contains p b : rb_contains p b = bool_decide (p ∈ rb_set b);
  rb_set_len b : rb_len b = Z.of_nat (size (rb_set b));
  rb_set_is_empty b : rb_is_empty b = bool_decide (rb_set b = ∅);
  rb_set_or a b : rb_set (rb_or a b) = rb_set a ∪ rb_set b;
  rb_set_iter b : list_to_set (rb_iter b) = rb_set b;
  rb_serialize_total b : exists bs, rb_serialize b = Some bs;
  rb_deserialize_serialize b bs : rb_serialize b = Some bs ->
    exists b', rb_deserialize bs = Some b' /\ rb_set b' = rb_set b;
}.

(** ** The footer *)
Record PuffinBlobFields : Type := { referenced_data_file_field : string; cardinality_field : Z }.

Record PuffinBlobMeta : Type := {
  blob_type : string;
  pb_fields : PuffinBlobFields;
  pb_snapshot_id : Z;
  pb_sequence_number : Z;
  pb_offset : Z;
  pb_length : Z;
  compression_codec : option string;
}.

(** [J] is serde_json's value type. *)
Record PuffinFooter (J : Type) : Type := {
  blobs : list PuffinBlobMeta;
  footer_properties : list (string * J);
}.
Arguments blobs {J} _.
Arguments footer_properties {J} _.

(** [serde_json::to_string] and [from_str] at the footer's type. *)
Class FooterJson (J : Type) := {
  footer_to_string : PuffinFooter J -> option bytes;
  footer_from_str : bytes -> option (PuffinFooter J);
}.

(** [std::str::from_utf8]. *)
Definition cont (c : byte) : bool := (0x80 <=? byte.unsigned c) && (byte.unsigned c <=? 0xBF).
Definition between (lo hi : Z) (c : byte) : bool := (lo <=? byte.unsigned c) && (byte.unsigned c <=? hi).

Fixpoint utf8_ok (l : bytes) : bool :=
  match l with
  | [] => true
  | a :: l1 =>
      if between 0 0x7F a then utf8_ok l1
      else match l1 with
      | [] => false
      | b :: l2 =>
          if between 0xC2 0xDF a then cont b && utf8_ok l2
          else match l2 with
          | [] => false
          | c :: l3 =>
              if between 0xE0 0xEF a then
                (if between 0xE0 0xE0 a then between 0xA0 0xBF b
                 else if between 0xED 0xED a then between 0x80 0x9F b else cont b)
                && cont c && utf8_ok l3
              else match l3 with
              | [] => false
              | d :: l4 =>
                  between 0xF0 0xF4 a
                  && (if between 0xF0 0xF0 a then between 0x90 0xBF b
                      else if between 0xF4 0xF4 a then between 0x80 0x8F b else cont b)
                  && cont c && cont d && utf8_ok l4
              end
          end
      end
  end.

(** Documented of serde: a value that serialises gives UTF-8 text that parses
    back to it. *)
Class FooterJsonLaws (J : Type) `{!FooterJson J} := {
  footer_utf8 f s : footer_to_string f = Some s -> utf8_ok s = true;
  footer_from_to f s : footer_to_string f = Some s -> footer_from_str s = Some f;
}.

Definition PUFFIN_MAGIC : bytes := [Byte.x50; Byte.x46; Byte.x41; Byte.x31].
Definition DV_MAGIC : bytes := [Byte.xd1; Byte.xd3; Byte.x39; Byte.x64].
Definition PUFFIN_MIN_SIZE : nat := 12.

Section deletion_vector.
Context (crc32 : bytes -> Z) {B J : Type} `{!Roaring B, !FooterJson J}.

Record DeletionVector : Type := { bitmap : B }.

Definition dv_new : DeletionVector := {| bitmap := rb_new |}.
Definition from_bitmap (b : B) : DeletionVector := {| bitmap := b |}.
Definition mark_deleted (p : Z) (dv : DeletionVector) : DeletionVector :=
  {| bitmap := rb_insert p (bitmap dv) |}.
Definition is_deleted (p : Z) (dv : DeletionVector) : bool := rb_contains p (bitmap dv).
Definition cardinality (dv : DeletionVector) : Z := rb_len (bitmap dv).
Definition dv_is_empty (dv : DeletionVector) : bool := rb_is_empty (bitmap dv).
Definition union_with (other dv : DeletionVector) : DeletionVector :=
  {| bitmap := rb_or (bitmap dv) (bitmap other) |}.

(** ** Writing *)
Record PuffinEncoded : Type := {
  pe_bytes : bytes;
  blob_offset : Z;
  blob_length : Z;
}.

Definition encode_puffin (dv : DeletionVector) (parquet_path : string)
    (snapshot_id sequence_number : Z) : res PuffinEncoded :=
  match rb_serialize (bitmap dv) with
  | None => Err (Iceberg "DV bitmap serialize")
  | Some roaring32_bytes =>
      let roaring64_data := le_split 8 1 ++ le_split 4 0 ++ roaring32_bytes in
      let inner_len := Z.of_nat (length DV_MAGIC + length roaring64_data + 4) in
      if 2 ^ 32 - 1 <? inner_len then Err (Iceberg "DV blob too large for u32 length")
      else
        let crc := crc32 (DV_MAGIC ++ roaring64_data) in
        let blob_data := be_split 4 inner_len ++ DV_MAGIC ++ roaring64_data ++ be_split 4 crc in
        let footer := {| blobs := [{|
            blob_type := "deletion-vector-v1";
            pb_fields := {| referenced_data_file_field := parquet_path;
                            cardinality_field := rb_len (bitmap dv) |};
            pb_snapshot_id := snapshot_id;
            pb_sequence_number := sequence_number;
            pb_offset := Z.of_nat (length PUFFIN_MAGIC);
            pb_length := Z.of_nat (length blob_data);
            compression_codec := None |}];
          footer_properties := [] |} in
        match footer_to_string footer with
        | None => Err (Iceberg "Puffin footer JSON")
        | Some footer_bytes =>
            if 2 ^ 31 - 1 <? Z.of_nat (length footer_bytes) then
              Err (Iceberg "Puffin footer too large for i32")
            else
              Ok {| pe_bytes := PUFFIN_MAGIC ++ blob_data ++ footer_bytes
                      ++ le_split 4 (Z.of_nat (length footer_bytes)) ++ PUFFIN_MAGIC;
                    blob_offset := Z.of_nat (length PUFFIN_MAGIC);
                    blob_length := Z.of_nat (length blob_data) |}
        end
  end.

Definition to_puffin_bytes (dv : DeletionVector) (parquet_path : string)
    (snapshot_id sequence_number : Z) : res bytes :=
  pe_bytes <$> encode_puffin dv parquet_path snapshot_id sequence_number.

(** ** Reading *)
Definition decode_dv_blob (blob : bytes) : res B :=
  if (length blob <? 12)%nat then Err (Corruption "DV blob too short")
  else
    len4 ← slice blob 0 4;
    if negb (4 + be_combine len4 =? Z.of_nat (length blob)) then
      Err (Corruption "DV blob length field doesn't match actual remaining size")
    else
      magic ← slice blob 4 4;
      if negb (bytes_eqb magic DV_MAGIC) then Err (Corruption "DV blob magic mismatch")
      else
        let crc_offset := (length blob - 4)%nat in
        stored ← slice blob crc_offset 4;
        magic_and_data ← slice blob 4 (crc_offset - 4);
        if negb (crc32 magic_and_data =? be_combine stored) then
          Err (Corruption "DV blob CRC mismatch")
        else
          roaring64_data ← slice blob 8 (crc_offset - 8);
          if (length roaring64_data <? 8)%nat then
            Err (Corruption "DV 64-bit Roaring data too short for bitmap_count")
          else
            count8 ← slice roaring64_data 0 8;
            let bitmap_count := le_combine count8 in
            if bitmap_count =? 0 then Ok rb_new
            else if 1 <? bitmap_count then
              Err (Corruption "DV 64-bit Roaring has more than one bitmap")
            else if (length roaring64_data <? 12)%nat then
              Err (Corruption "DV 64-bit Roaring data too short for key field")
            else
              key4 ← slice roaring64_data 8 4;
              if negb (le_combine key4 =? 0) then
                Err (Corruption "DV 64-bit Roaring key is not 0")
              else
                roaring_bytes ← slice roaring64_data 12 (length roaring64_data - 12);
                match rb_deserialize roaring_bytes with
                | Some b => Ok b
                | None => Err (Corruption "DV 32-bit Roaring deserialize")
                end.

Definition from_puffin_blob (blob : bytes) : res DeletionVector :=
  b ← decode_dv_blob blob; Ok {| bitmap := b |}.

Definition is_dv_blob (b : PuffinBlobMeta) : bool :=
  String.eqb (blob_type b) "deletion-vector-v1".

Definition from_puffin_bytes (data : bytes) : res DeletionVector :=
  if (length data <? PUFFIN_MIN_SIZE)%nat then Err (Corruption "Puffin file too short")
  else
    opening ← slice data 0 4;
    if negb (bytes_eqb opening PUFFIN_MAGIC) then
      Err (Corruption "Puffin file missing opening magic")
    else
      closing ← slice data (length data - 4) 4;
      if negb (bytes_eqb closing PUFFIN_MAGIC) then
        Err (Corruption "Puffin file missing closing magic")
      else
        let fl_start := (length data - 8)%nat in
        fl4 ← slice data fl_start 4;
        let footer_len_raw := to_signed 32 (le_combine fl4) in
        if footer_len_raw <? 0 then Err (Corruption "Puffin footer length is negative")
        else
          let footer_len := Z.to_nat footer_len_raw in
          if (length data - PUFFIN_MIN_SIZE <? footer_len)%nat then
            Err (Corruption "Puffin footer length exceeds file size")
          else
            footer_json ← slice data (fl_start - footer_len) footer_len;
            if negb (utf8_ok footer_json) then Err (Corruption "Puffin footer not UTF-8")
            else
              match footer_from_str footer_json with
              | None => Err (Corruption "Puffin footer JSON parse")
              | Some footer =>
                  match List.find is_dv_blob (blobs footer) with
                  | None => Err (Corruption "Puffin file has no deletion-vector-v1 blob")
                  | Some m =>
                      if (pb_offset m <? 0) || (pb_length m <? 0) then
                        Err (Corruption "Puffin blob has negative offset or length")
                      else if Z.of_nat (length data) <? pb_offset m + pb_length m then
                        Err (Corruption "Puffin blob exceeds file size")
                      else
                        blob_bytes ← slice data (Z.to_nat (pb_offset m)) (Z.to_nat (pb_length m));
                        b ← decode_dv_blob blob_bytes;
                        Ok {| bitmap := b |}
                  end
              end.

Definition parse_puffin_footer (data : bytes) : res (PuffinFooter J) :=
  if (length data <? PUFFIN_MIN_SIZE)%nat then Err (Corruption "Puffin file too short")
  else
    opening ← slice data 0 4;
    closing ← slice data (length data - 4) 4;
    if negb (bytes_eqb opening PUFFIN_MAGIC) || negb (bytes_eqb closing PUFFIN_MAGIC) then
      Err (Corruption "Puffin magic mismatch")
    else
      let fl_start := (length data - 8)%nat in
      fl4 ← slice data fl_start 4;
      let footer_len_raw := to_signed 32 (le_combine fl4) in
      if footer_len_raw <? 0 then Err (Corruption "Puffin footer length is negative")
      else
        let footer_len := Z.to_nat footer_len_raw in
        if (fl_start - 4 <? footer_len)%nat then
          Err (Corruption "Puffin footer length exceeds available data")
        else
          json_str ← slice data (fl_start - footer_len) footer_len;
          if negb (utf8_ok json_str) then Err (Corruption "Puffin footer UTF-8")
          else
            match footer_from_str json_str with
            | Some f => Ok f
            | None => Err (Corruption "Puffin footer JSON")
            end.

Definition referenced_data_file (puffin_data : bytes) : res string :=
  footer ← parse_puffin_footer puffin_data;
  match List.find is_dv_blob (blobs footer) with
  | None => Err (Corruption "Puffin file has no deletion-vector-v1 blob")
  | Some m => Ok (referenced_data_file_field (pb_fields m))
  end.
End deletion_vector.
Arguments DeletionVector B : clear implicits.

(** ** Decoding never panics *)
Lemma slice_ok buf pos n :
  (pos + n <= length buf)%nat -> exists b, slice buf pos n = Ok b /\ length b = n.
Proof.
  intros H. unfold slice. destruct (Nat.leb_spec (pos + n) (length buf)); [|lia].
  eexists. split; [done|]. rewrite length_take, length_drop. lia.
Qed.

(** Replaces an in-range slice at the head of the goal by its result. *)
Ltac step_slice :=
  match goal with
  | |- mbind _ (slice ?b ?p ?n) <> _ =>
      let s := fresh "s" in let E := fresh "E" in let L := fresh "L" in
      destruct (slice_ok b p n) as (s & E & L); [lia|]; rewrite E, Ok_bind
  end.

Section decoding.
Context (crc32 : bytes -> Z) {B J : Type} `{!Roaring B, !FooterJson J}.

Lemma decode_dv_blob_no_panic (blob : bytes) : decode_dv_blob crc32 (B := B) blob <> Panic.
Proof.
  unfold decode_dv_blob. destruct (Nat.ltb_spec (length blob) 12); [done|].
  step_slice. destruct (negb _); [done|]. step_slice. destruct (negb _); [done|].
  step_slice. step_slice. destruct (negb _); [done|].
  destruct (slice_ok blob 8 (length blob - 4 - 8)) as (d & Ed & Ld); [lia|]. rewrite Ed, Ok_bind.
  destruct (Nat.ltb_spec (length d) 8); [done|]. step_slice.
  destruct (_ =? 0); [done|]. destruct (1 <? _); [done|].
  destruct (Nat.ltb_spec (length d) 12); [done|]. step_slice. destruct (negb _); [done|].
  step_slice. by destruct (rb_deserialize _).
Qed.

Lemma from_puffin_bytes_no_panic (data : bytes) :
  from_puffin_bytes crc32 (B := B) (J := J) data <> Panic.
Proof.
  unfold from_puffin_bytes, PUFFIN_MIN_SIZE. destruct (Nat.ltb_spec (length data) 12); [done|].
  step_slice. destruct (negb _); [done|]. step_slice. destruct (negb _); [done|]. step_slice.
  destruct (Z.ltb_spec (to_signed 32 (le_combine s1)) 0); [done|].
  destruct (Nat.ltb_spec (length data - 12) (Z.to_nat (to_signed 32 (le_combine s1)))); [done|].
  step_slice. destruct (negb _); [done|].
  destruct (footer_from_str s2) as [f|]; [|done]. destruct (List.find _ _) as [m|]; [|done].
  destruct (Z.ltb_spec (pb_offset m) 0); [done|]. destruct (Z.ltb_spec (pb_length m) 0); [done|].
  cbn [orb]. destruct (Z.ltb_spec (Z.of_nat (length data)) (pb_offset m + pb_length m)); [done|].
  step_slice. pose proof (decode_dv_blob_no_panic s3). by destruct (decode_dv_blob crc32 s3).
Qed.

Lemma parse_puffin_footer_no_panic (data : bytes) : parse_puffin_footer (J := J) data <> Panic.
Proof.
  unfold parse_puffin_footer, PUFFIN_MIN_SIZE. destruct (Nat.ltb_spec (length data) 12); [done|].
  step_slice. step_slice. destruct (_ || _); [done|]. step_slice.
  destruct (Z.ltb_spec (to_signed 32 (le_combine s1)) 0); [done|].
  destruct (Nat.ltb_spec (length data - 8 - 4) (Z.to_nat (to_signed 32 (le_combine s1)))); [done|].
  step_slice. destruct (negb _); [done|]. by destruct (footer_from_str s2).
Qed.
End decoding.

(** ** The blob round trip *)
Section roundtrip.
Context (crc32 : bytes -> Z) {B J : Type} `{!Roaring B, !RoaringLaws B, !FooterJson J, !FooterJsonLaws J}.
Context (crc_range : forall l, 0 <= crc32 l < 2 ^ 32).

Lemma bytes_eqb_refl (a : bytes) : bytes_eqb a a = true.
Proof. by apply bytes_eqb_spec. Qed.

Lemma decode_roaring64 r32 :
  let r64 := le_split 8 1 ++ le_split 4 0 ++ r32 in
  length r64 = (12 + length r32)%nat /\ slice r64 0 8 = Ok (le_split 8 1) /\
  slice r64 8 4 = Ok (le_split 4 0) /\ slice r64 12 (length r64 - 12) = Ok r32.
Proof.
  intros r64.
  assert (L64 : length r64 = (12 + length r32)%nat)
    by (unfold r64; rewrite !length_app, !le_split_length; lia).
  split; [done|]. split_and!.
  - by apply (slice_at _ [] _ (le_split 4 0 ++ r32)); rewrite ?le_split_length.
  - by apply (slice_at _ (le_split 8 1) _ r32); rewrite ?le_split_length.
  - apply (slice_at _ (le_split 8 1 ++ le_split 4 0) _ []).
    + unfold r64. by rewrite app_nil_r, <- app_assoc.
    + by rewrite length_app, !le_split_length.
    + lia.
Qed.

Lemma decode_envelope inner r64 crc :
  let blob := be_split 4 inner ++ DV_MAGIC ++ r64 ++ be_split 4 crc in
  length blob = (12 + length r64)%nat /\ slice blob 0 4 = Ok (be_split 4 inner) /\
  slice blob 4 4 = Ok DV_MAGIC /\ slice blob (length blob - 4) 4 = Ok (be_split 4 crc) /\
  slice blob 4 (length blob - 4 - 4) = Ok (DV_MAGIC ++ r64) /\
  slice blob 8 (length blob - 4 - 8) = Ok r64.
Proof.
  intros blob. assert (LM : length DV_MAGIC = 4%nat) by done.
  assert (Lb : length blob = (12 + length r64)%nat)
    by (unfold blob; rewrite !length_app, !be_split_length; lia).
  split; [done|]. split_and!.
  - by apply (slice_at _ [] _ (DV_MAGIC ++ r64 ++ be_split 4 crc)); rewrite ?be_split_length.
  - by apply (slice_at _ (be_split 4 inner) _ (r64 ++ be_split 4 crc)); rewrite ?be_split_length.
  - apply (slice_at _ (be_split 4 inner ++ DV_MAGIC ++ r64) _ []).
    + unfold blob. by rewrite app_nil_r, <- !app_assoc.
    + rewrite !length_app, be_split_length. lia.
    + by rewrite be_split_length.
  - apply (slice_at _ (be_split 4 inner) _ (be_split 4 crc)).
    + unfold blob. by rewrite <- !app_assoc.
    + by rewrite be_split_length.
    + rewrite length_app. lia.
  - apply (slice_at _ (be_split 4 inner ++ DV_MAGIC) _ (be_split 4 crc)).
    + unfold blob. by rewrite <- !app_assoc.
    + by rewrite length_app, be_split_length.
    + lia.
Qed.

Lemma decode_dv_blob_of r32 b inner :
  let r64 := le_split 8 1 ++ le_split 4 0 ++ r32 in
  inner = Z.of_nat (length DV_MAGIC + length r64 + 4) ->
  inner <= 2 ^ 32 - 1 -> rb_deserialize r32 = Some b ->
  decode_dv_blob crc32
    (be_split 4 inner ++ DV_MAGIC ++ r64 ++ be_split 4 (crc32 (DV_MAGIC ++ r64))) = Ok b.
Proof.
  intros r64 Hi H32 Hd. destruct (decode_roaring64 r32) as (L64 & T1 & T2 & T3). fold r64 in L64, T1, T2, T3.
  destruct (decode_envelope inner r64 (crc32 (DV_MAGIC ++ r64))) as (Lb & S1 & S2 & S3 & S4 & S5).
  set (blob := be_split 4 inner ++ DV_MAGIC ++ r64 ++ be_split 4 (crc32 (DV_MAGIC ++ r64))) in *.
  assert (LM : length DV_MAGIC = 4%nat) by done.
  unfold decode_dv_blob. destruct (Nat.ltb_spec (length blob) 12); [lia|].
  rewrite S1, Ok_bind, be_combine_split_id by lia.
  destruct (Z.eqb_spec (4 + inner) (Z.of_nat (length blob))); [|lia]. cbn [negb].
  rewrite S2, Ok_bind, bytes_eqb_refl. cbn [negb].
  rewrite S3, Ok_bind, S4, Ok_bind, be_combine_split_id by apply crc_range.
  rewrite Z.eqb_refl. cbn [negb]. rewrite S5, Ok_bind.
  destruct (Nat.ltb_spec (length r64) 8); [lia|].
  rewrite T1, Ok_bind, le_combine_split_id by lia.
  change (1 =? 0) with false. change (1 <? 1) with false. cbv iota.
  destruct (Nat.ltb_spec (length r64) 12); [lia|].
  rewrite T2, Ok_bind, le_combine_split_id by lia. rewrite Z.eqb_refl. cbn [negb].
  by rewrite T3, Ok_bind, Hd.
Qed.

(** The footer of an encoded file, as both readers find it. *)
Lemma puffin_parts blob fb :
  Z.of_nat (length fb) <= 2 ^ 31 - 1 ->
  let data := PUFFIN_MAGIC ++ blob ++ fb ++ le_split 4 (Z.of_nat (length fb)) ++ PUFFIN_MAGIC in
  length data = (12 + length blob + length fb)%nat /\
  slice data 0 4 = Ok PUFFIN_MAGIC /\ slice data (length data - 4) 4 = Ok PUFFIN_MAGIC /\
  slice data (length data - 8) 4 = Ok (le_split 4 (Z.of_nat (length fb))) /\
  to_signed 32 (le_combine (le_split 4 (Z.of_nat (length fb)))) = Z.of_nat (length fb) /\
  slice data (length data - 8 - length fb) (length fb) = Ok fb /\
  slice data 4 (length blob) = Ok blob.
Proof.
  intros Hf data. set (l4 := le_split 4 (Z.of_nat (length fb))).
  assert (L4 : length l4 = 4%nat) by apply le_split_length.
  assert (LM : length PUFFIN_MAGIC = 4%nat) by done.
  assert (Ld : length data = (12 + length blob + length fb)%nat)
    by (unfold data; rewrite !length_app; fold l4; lia).
  split; [done|]. split_and!.
  - by apply (slice_at _ [] _ (blob ++ fb ++ l4 ++ PUFFIN_MAGIC)).
  - apply (slice_at _ (PUFFIN_MAGIC ++ blob ++ fb ++ l4) _ []); [|rewrite !length_app; lia|done].
    unfold data. by rewrite app_nil_r, <- !app_assoc.
  - apply (slice_at _ (PUFFIN_MAGIC ++ blob ++ fb) _ PUFFIN_MAGIC); [|rewrite !length_app; lia|done].
    unfold data. by rewrite <- !app_assoc.
  - unfold l4. rewrite le_combine_split_id by lia. unfold to_signed.
    destruct (Z.ltb_spec (Z.of_nat (length fb)) (2 ^ (32 - 1))); lia.
  - apply (slice_at _ (PUFFIN_MAGIC ++ blob) _ (l4 ++ PUFFIN_MAGIC)); [|rewrite !length_app; lia|done].
    unfold data. by rewrite <- !app_assoc.
  - by apply (slice_at _ PUFFIN_MAGIC _ (fb ++ l4 ++ PUFFIN_MAGIC)).
Qed.

Lemma from_puffin_bytes_of blob fb footer m b :
  Z.of_nat (length fb) <= 2 ^ 31 - 1 -> footer_to_string footer = Some fb ->
  List.find is_dv_blob (blobs footer) = Some m -> pb_offset m = 4 ->
  pb_length m = Z.of_nat (length blob) -> decode_dv_blob crc32 blob = Ok b ->
  let data := PUFFIN_MAGIC ++ blob ++ fb ++ le_split 4 (Z.of_nat (length fb)) ++ PUFFIN_MAGIC in
  from_puffin_bytes crc32 (J := J) data = Ok {| bitmap := b |} /\
  parse_puffin_footer data = Ok footer.
Proof.
  intros Hf Hs Hm Ho Hl Hd data.
  destruct (puffin_parts blob fb Hf) as (Ld & P1 & P2 & P3 & P4 & P5 & P6). fold data in Ld, P1, P2, P3, P5, P6.
  pose proof (footer_utf8 _ _ Hs) as Hu. pose proof (footer_from_to _ _ Hs) as Hj.
  unfold from_puffin_bytes, parse_puffin_footer, PUFFIN_MIN_SIZE.
  destruct (Nat.ltb_spec (length data) 12); [lia|].
  rewrite P1, P2, !Ok_bind, !bytes_eqb_refl. cbn [negb orb].
  rewrite P3, !Ok_bind, !P4. destruct (Z.ltb_spec (Z.of_nat (length fb)) 0); [lia|].
  rewrite Nat2Z.id.
  destruct (Nat.ltb_spec (length data - 12) (length fb)); [lia|].
  destruct (Nat.ltb_spec (length data - 8 - 4) (length fb)); [lia|].
  rewrite P5, !Ok_bind, Hu. cbn [negb]. rewrite Hj. split; [|done]. rewrite Hm, Ho, Hl.
  destruct (Z.ltb_spec (Z.of_nat (length blob)) 0); [lia|]. change (4 <? 0) with false. cbn [orb].
  destruct (Z.ltb_spec (Z.of_nat (length data)) (4 + Z.of_nat (length blob))); [lia|].
  rewrite Nat2Z.id. change (Z.to_nat 4) with 4%nat. by rewrite P6, Ok_bind, Hd.
Qed.
End roundtrip.

Lemma encode_puffin_spec (crc32 : bytes -> Z) {B J : Type}
    `{!Roaring B, !RoaringLaws B, !FooterJson J, !FooterJsonLaws J}
    (dv : DeletionVector B) path sid sqn e :
  (forall l, 0 <= crc32 l < 2 ^ 32) ->
  encode_puffin crc32 (J := J) dv path sid sqn = Ok e ->
  exists dv' blob,
    from_puffin_bytes crc32 (J := J) (pe_bytes e) = Ok dv' /\
    rb_set (bitmap dv') = rb_set (bitmap dv) /\
    slice (pe_bytes e) (Z.to_nat (blob_offset e)) (Z.to_nat (blob_length e)) = Ok blob /\
    from_puffin_blob crc32 blob = Ok dv' /\
    referenced_data_file (J := J) (pe_bytes e) = Ok path.
Proof.
  intros Hcrc. unfold encode_puffin. destruct (rb_serialize (bitmap dv)) as [r32|] eqn:Es; [|done].
  set (r64 := le_split 8 1 ++ le_split 4 0 ++ r32).
  set (inner := Z.of_nat (length DV_MAGIC + length r64 + 4)).
  destruct (Z.ltb_spec (2 ^ 32 - 1) inner) as [|H32]; [done|].
  set (blob := be_split 4 inner ++ DV_MAGIC ++ r64 ++ be_split 4 (crc32 (DV_MAGIC ++ r64))).
  destruct (footer_to_string _) as [fb|] eqn:Ef; [|done].
  destruct (Z.ltb_spec (2 ^ 31 - 1) (Z.of_nat (length fb))) as [|Hfl]; [done|]. intros [= <-].
  destruct (rb_deserialize_serialize _ _ Es) as (b & Hb & Hset).
  assert (Hd : decode_dv_blob crc32 blob = Ok b) by (by apply decode_dv_blob_of).
  exists {| bitmap := b |}, blob. cbn [pe_bytes blob_offset blob_length].
  destruct (from_puffin_bytes_of crc32 blob fb _ _ b Hfl Ef eq_refl eq_refl eq_refl Hd) as [F1 F2].
  destruct (puffin_parts blob fb Hfl) as (_ & _ & _ & _ & _ & _ & P6).
  split_and!; [done|done| | |].
  - rewrite !Nat2Z.id. exact P6.
  - unfold from_puffin_blob. by rewrite Hd.
  - unfold referenced_data_file.
    match goal with |- mbind _ ?r = _ => replace r with (parse_puffin_footer (J := J)
      (PUFFIN_MAGIC ++ blob ++ fb ++ le_split 4 (Z.of_nat (length fb)) ++ PUFFIN_MAGIC)) by done end.
    by rewrite F2.
Qed.

(** ** Properties *)

(** C25. Deletion vectors survive storage on both read paths: the file
    [encode_puffin] writes parses with [from_puffin_bytes] to a vector of the
    same positions; the byte range it reports for the manifest lies inside
    the file and decodes with [from_puffin_blob] to the same vector; and
    [referenced_data_file] recovers the data file's path. *)
Theorem dv_puffin_roundtrip (crc32 : bytes -> Z) {B J : Type}
    `{!Roaring B, !RoaringLaws B, !FooterJson J, !FooterJsonLaws J}
    (dv : DeletionVector B) path sid sqn e :
  (forall l, 0 <= crc32 l < 2 ^ 32) ->
  encode_puffin crc32 (J := J) dv path sid sqn = Ok e ->
  exists dv' blob,
    from_puffin_bytes crc32 (J := J) (pe_bytes e) = Ok dv' /\
    rb_set (bitmap dv') = rb_set (bitmap dv) /\
    slice (pe_bytes e) (Z.to_nat (blob_offset e)) (Z.to_nat (blob_length e)) = Ok blob /\
    from_puffin_blob crc32 blob = Ok dv' /\
    referenced_data_file (J := J) (pe_bytes e) = Ok path.
Proof. intros. by eapply encode_puffin_spec. Qed.

(** Reading a deletion vector from arbitrary bytes never panics: every
    slice of [from_puffin_bytes], [from_puffin_blob], [decode_dv_blob] and
    [parse_puffin_footer] is in range whatever lengths, offsets and counts the
    bytes claim, and whatever the JSON parser returns. *)
Theorem dv_decode_never_panics (crc32 : bytes -> Z) {B J : Type} `{!Roaring B, !FooterJson J} data :
  from_puffin_bytes crc32 (B := B) (J := J) data <> Panic /\
  from_puffin_blob crc32 (B := B) data <> Panic /\
  referenced_data_file (J := J) data <> Panic.
Proof.
  split_and!.
  - apply from_puffin_bytes_no_panic.
  - unfold from_puffin_blob. pose proof (decode_dv_blob_no_panic crc32 (B := B) data).
    by destruct (decode_dv_blob crc32 data).
  - unfold referenced_data_file. pose proof (parse_puffin_footer_no_panic (J := J) data).
    destruct (parse_puffin_footer data) as [f|e|]; [|done|done]. simpl.
    by destruct (List.find _ _).
Qed.

(** A concrete instance: finite sets of integers, written bit by bit, and a
    footer format that writes one byte per unit of its own encoding. *)
Lemma bits_utf8 p : utf8_ok (bits_of p) = true.
Proof. induction p as [p IH|p IH|]; [..|done]; exact IH. Qed.

#[export] Instance set_roaring : Roaring (gset Z) := {
  rb_new := ∅;
  rb_insert p b := {[p]} ∪ b;
  rb_contains p b := bool_decide (p ∈ b);
  rb_len b := Z.of_nat (size b);
  rb_is_empty b := bool_decide (b = ∅);
  rb_or a b := a ∪ b;
  rb_iter b := elements b;
  rb_serialize b := Some (bits_of (encode b));
  rb_deserialize l := decode (of_bits l);
}.

#[export] Instance set_roaring_laws : RoaringLaws (gset Z).
Proof.
  refine {| rb_set := fun b : gset Z => b |}; try reflexivity.
  - intros b. apply list_to_set_elements_L.
  - intros b. by eexists.
  - intros b bs [= <-]. exists b. split; [|done]. cbn. by rewrite of_bits_of, decode_encode.
Defined.

Definition footer_tuple (f : PuffinFooter unit) :=
  (map (fun m => (blob_type m, referenced_data_file_field (pb_fields m),
         cardinality_field (pb_fields m), pb_snapshot_id m, pb_sequence_number m,
         (pb_offset m, pb_length m, compression_codec m))) (blobs f), footer_properties f).

Definition tuple_footer t : PuffinFooter unit :=
  {| blobs := map (fun '(ty, rf, ca, si, sq, (o, l, cc)) =>
       {| blob_type := ty;
          pb_fields := {| referenced_data_file_field := rf; cardinality_field := ca |};
          pb_snapshot_id := si; pb_sequence_number := sq; pb_offset := o; pb_length := l;
          compression_codec := cc |}) t.1;
     footer_properties := t.2 |}.

Lemma tuple_footer_tuple f : tuple_footer (footer_tuple f) = f.
Proof.
  destruct f as [bl pr]. unfold tuple_footer, footer_tuple. cbn [fst snd blobs footer_properties].
  f_equal. rewrite map_map. rewrite <- (map_id bl) at 2. apply map_ext. by intros [? [] ? ? ? ? ?].
Qed.

#[export] Instance bits_json : FooterJson unit := {
  footer_to_string f := Some (bits_of (encode (footer_tuple f)));
  footer_from_str l := tuple_footer <$> decode (of_bits l);
}.

#[export] Instance bits_json_laws : FooterJsonLaws unit.
Proof.
  split.
  - intros f s [= <-]. apply bits_utf8.
  - intros f s [= <-]. cbn. rewrite of_bits_of, decode_encode. cbn. by rewrite tuple_footer_tuple.
Defined.

Definition example_sum (l : bytes) : Z := Z.of_nat (length l) mod 2 ^ 32.

Lemma dv_puffin_roundtrip_witness :
  let dv := mark_deleted 7 (mark_deleted 3 (dv_new : DeletionVector (gset Z))) in
  exists e, encode_puffin example_sum (J := unit) dv "data/L0/a.parquet" 1 2 = Ok e /\
  exists dv' blob,
    from_puffin_bytes example_sum (J := unit) (pe_bytes e) = Ok dv' /\
    rb_set (bitmap dv') = rb_set (bitmap dv) /\
    slice (pe_bytes e) (Z.to_nat (blob_offset e)) (Z.to_nat (blob_length e)) = Ok blob /\
    from_puffin_blob example_sum blob = Ok dv' /\
    referenced_data_file (J := unit) (pe_bytes e) = Ok "data/L0/a.parquet"%string.
Proof.
  intros dv. destruct (encode_puffin example_sum (J := unit) dv "data/L0/a.parquet" 1 2)
    as [e|er|] eqn:E; [|vm_compute in E; discriminate..].
  exists e. split; [reflexivity|].
  apply (dv_puffin_roundtrip example_sum dv "data/L0/a.parquet" 1 2 e); [|exact E].
  intros l. apply Z.mod_pos_bound. lia.
Defined.
