(* ===== verification/Manifest.v ===== *)
(** * The manifest

    [src/crates/merutable/src/iceberg/manifest.rs] and
    [src/crates/merutable/src/iceberg/snapshot.rs]: the list of live files a
    snapshot consists of, the transactions that change it, and the level map
    built from it.  The clock and fresh UUIDs are arguments.  The JSON and
    protobuf encodings, produced by serde and prost, are not modelled. *)

From S2P Require Import Prelude Sequence Schema LsmVersion DeletionVector.
Local Open Scope Z_scope.

Record DvLocation : Type := { loc_path : string; loc_offset : Z; loc_length : Z }.

Record ManifestEntry : Type := {
  me_path : string;
  me_meta : ParquetFileMeta;
  me_dv_path : option string;
  me_dv_offset : option Z;
  me_dv_length : option Z;
  me_status : string;
  me_first_row_id : option Z;
}.

Definition to_data_file_meta (e : ManifestEntry) : DataFileMeta :=
  {| path := me_path e; meta := me_meta e; dv_path := me_dv_path e;
     dv_offset := me_dv_offset e; dv_length := me_dv_length e |}.

Record Manifest : Type := {
  format_version : Z;
  table_uuid : string;
  last_updated_ms : Z;
  m_snapshot_id : Z;
  parent_snapshot_id : option Z;
  sequence_number : Z;
  next_row_id : Z;
  m_first_row_id : Z;
  m_schema : TableSchema;
  m_entries : list ManifestEntry;
  properties : gmap string string;
}.

Definition is_live (e : ManifestEntry) : bool := negb (String.eqb (me_status e) "deleted").

Definition live_file_count (m : Manifest) : nat := length (List.filter is_live (m_entries m)).

Definition manifest_empty_with_uuid (s : TableSchema) (uuid : string) (now_ms : Z) : Manifest :=
  {| format_version := 3; table_uuid := uuid; last_updated_ms := now_ms; m_snapshot_id := 0;
     parent_snapshot_id := None; sequence_number := 0; next_row_id := 0; m_first_row_id := 0;
     m_schema := s; m_entries := []; properties := ∅ |}.

(** ** The level map *)
Definition push_level (ls : gmap Z (list DataFileMeta)) (e : ManifestEntry)
    : gmap Z (list DataFileMeta) :=
  if is_live e then
    <[level (me_meta e) := default [] (ls !! level (me_meta e)) ++ [to_data_file_meta e]]> ls
  else ls.

Definition newest_first (f g : DataFileMeta) : bool := seq_max (meta g) <=? seq_max (meta f).
Definition by_key_min (f g : DataFileMeta) : bool :=
  bytes_leb (key_min (meta f)) (key_min (meta g)).

Definition sort_level (l : Z) (fs : list DataFileMeta) : list DataFileMeta :=
  if l =? 0 then sort_by newest_first fs
  else if 1 <=? l then sort_by by_key_min fs else fs.

Definition to_version (m : Manifest) (s : TableSchema) : Version :=
  {| snapshot_id := m_snapshot_id m;
     levels := map_imap (fun l fs => Some (sort_level l fs)) (foldl push_level ∅ (m_entries m));
     schema := s |}.

(** ** Transactions *)
Record IcebergDataFile : Type := {
  df_path : string;
  df_file_size : Z;
  df_num_rows : Z;
  df_meta : ParquetFileMeta;
}.

Section transactions.
Context {B : Type} `{!Roaring B}.

Record SnapshotTransaction : Type := {
  adds : list IcebergDataFile;
  removes : list string;
  dvs : gmap string (DeletionVector B);
  props : gmap string string;
}.

Definition txn_new : SnapshotTransaction :=
  {| adds := []; removes := []; dvs := ∅; props := ∅ |}.

Definition add_file (f : IcebergDataFile) (t : SnapshotTransaction) : SnapshotTransaction :=
  {| adds := adds t ++ [f]; removes := removes t; dvs := dvs t; props := props t |}.

Definition remove_file (p : string) (t : SnapshotTransaction) : SnapshotTransaction :=
  {| adds := adds t; removes := removes t ++ [p]; dvs := dvs t; props := props t |}.

Definition add_dv (p : string) (dv : DeletionVector B) (t : SnapshotTransaction)
    : SnapshotTransaction :=
  {| adds := adds t; removes := removes t;
     dvs := <[p := match dvs t !! p with Some old => union_with dv old | None => dv end]> (dvs t);
     props := props t |}.

Definition set_prop (k v : string) (t : SnapshotTransaction) : SnapshotTransaction :=
  {| adds := adds t; removes := removes t; dvs := dvs t; props := <[k := v]> (props t) |}.

Definition txn_is_empty (t : SnapshotTransaction) : bool :=
  bool_decide (adds t = []) && bool_decide (removes t = []) && bool_decide (dvs t = ∅).

(** ** Applying a transaction *)

(** [cursor += num_rows as i64].  An overflow is a panic, as in a build with
    overflow checks; without them the sum wraps. *)
Definition advance (cursor num_rows : Z) : res Z :=
  let c := cursor + to_signed 64 num_rows in
  if (- 2 ^ 63 <=? c) && (c <? 2 ^ 63) then Ok c else Panic.

Definition set_meta_dv (m : ParquetFileMeta) (p : option string) (o l : option Z) : ParquetFileMeta :=
  {| level := level m; seq_min := seq_min m; seq_max := seq_max m; key_min := key_min m;
     key_max := key_max m; num_rows := num_rows m; file_size := file_size m;
     fm_dv_path := p; fm_dv_offset := o; fm_dv_length := l; format := format m; column_stats := column_stats m |}.

Definition stamp_dv (loc : DvLocation) (e : ManifestEntry) : ManifestEntry :=
  {| me_path := me_path e;
     me_meta := set_meta_dv (me_meta e) (Some (loc_path loc)) (Some (loc_offset loc))
                  (Some (loc_length loc));
     me_dv_path := Some (loc_path loc); me_dv_offset := Some (loc_offset loc);
     me_dv_length := Some (loc_length loc); me_status := me_status e;
     me_first_row_id := me_first_row_id e |}.

Fixpoint carry_forward (t : SnapshotTransaction) (locs : gmap string DvLocation)
    (es : list ManifestEntry) : res (list ManifestEntry) :=
  match es with
  | [] => Ok []
  | e :: es =>
      if negb (is_live e) || bool_decide (me_path e ∈ removes t) then carry_forward t locs es
      else
        e' ← match dvs t !! me_path e with
             | Some _ => match locs !! me_path e with
                         | Some loc => Ok (stamp_dv loc e)
                         | None => Panic
                         end
             | None => Ok e
             end;
        rest ← carry_forward t locs es;
        Ok (e' :: rest)
  end.

Definition with_row_id (r : Z) (e : ManifestEntry) : ManifestEntry :=
  {| me_path := me_path e; me_meta := me_meta e; me_dv_path := me_dv_path e;
     me_dv_offset := me_dv_offset e; me_dv_length := me_dv_length e;
     me_status := me_status e; me_first_row_id := Some r |}.

Fixpoint assign_row_ids (cursor : Z) (es : list ManifestEntry) : res (list ManifestEntry * Z) :=
  match es with
  | [] => Ok ([], cursor)
  | e :: es =>
      match me_first_row_id e with
      | Some _ => '(rest, c) ← assign_row_ids cursor es; Ok (e :: rest, c)
      | None =>
          c1 ← advance cursor (num_rows (me_meta e));
          '(rest, c) ← assign_row_ids c1 es;
          Ok (with_row_id cursor e :: rest, c)
      end
  end.

Definition added_entry (f : IcebergDataFile) (first_row_id : Z) : ManifestEntry :=
  {| me_path := df_path f; me_meta := df_meta f; me_dv_path := None; me_dv_offset := None;
     me_dv_length := None; me_status := "added"; me_first_row_id := Some first_row_id |}.

Fixpoint add_files (cursor : Z) (fs : list IcebergDataFile) : res (list ManifestEntry * Z) :=
  match fs with
  | [] => Ok ([], cursor)
  | f :: fs =>
      c1 ← advance cursor (df_num_rows f);
      '(rest, c) ← add_files c1 fs;
      Ok (added_entry f cursor :: rest, c)
  end.

Definition apply (now_ms : Z) (fresh_uuid : string) (self : Manifest) (t : SnapshotTransaction)
    (new_snapshot_id : Z) (dv_locations : gmap string DvLocation) : res Manifest :=
  if negb (bool_decide (dom (dvs t) ⊆ dom dv_locations)) then
    Err (Iceberg "apply: DV missing from dv_locations")
  else if bool_decide (Exists (fun p => p ∈ dom (dvs t)) (removes t)) then
    Err (Iceberg "apply: transaction both adds DV and removes file")
  else
    carried ← carry_forward t dv_locations (m_entries self);
    '(carried, cursor) ← assign_row_ids (next_row_id self) carried;
    '(added, cursor) ← add_files cursor (adds t);
    if 2 ^ 63 - 1 <=? sequence_number self then Panic
    else
      Ok {| format_version := format_version self;
            table_uuid := if String.eqb (table_uuid self) "" then fresh_uuid else table_uuid self;
            last_updated_ms := now_ms;
            m_snapshot_id := new_snapshot_id;
            parent_snapshot_id :=
              if m_snapshot_id self =? 0 then None else Some (m_snapshot_id self);
            sequence_number := sequence_number self + 1;
            next_row_id := cursor;
            m_first_row_id := next_row_id self;
            m_schema := m_schema self;
            m_entries := carried ++ added;
            properties := props t ∪ properties self |}.
End transactions.
Arguments SnapshotTransaction B : clear implicits.

(** ** The level map, level by level *)
Definition live_at (l : Z) (es : list ManifestEntry) : list DataFileMeta :=
  map to_data_file_meta
    (List.filter (fun e => is_live e && (level (me_meta e) =? l)) es).

Lemma push_levels es ls l :
  default [] (foldl push_level ls es !! l) = default [] (ls !! l) ++ live_at l es.
Proof.
  unfold live_at. revert ls. induction es as [|e es IH]; intros ls; cbn [foldl List.filter].
  { by rewrite app_nil_r. }
  rewrite IH. unfold push_level. destruct (is_live e); [|done]. cbn [andb].
  destruct (Z.eqb_spec (level (me_meta e)) l) as [->|Hne].
  - rewrite lookup_insert_eq. cbn. by rewrite <- app_assoc.
  - by rewrite lookup_insert_ne.
Qed.

Lemma sort_level_nil l : sort_level l [] = [].
Proof. unfold sort_level. destruct (l =? 0); [done|]. by destruct (1 <=? l). Qed.

Lemma files_at_to_version m s l : files_at (to_version m s) l = sort_level l (live_at l (m_entries m)).
Proof.
  unfold files_at, to_version. cbn [levels]. rewrite map_lookup_imap.
  pose proof (push_levels (m_entries m) ∅ l) as E. rewrite lookup_empty in E. cbn in E.
  rewrite <- E. destruct (foldl push_level ∅ (m_entries m) !! l); cbn; [done|].
  by rewrite sort_level_nil.
Qed.

(** ** What a commit does to the entries *)
Section commit.
Context {B : Type} `{!Roaring B}.
Implicit Types (t : SnapshotTransaction B) (e : ManifestEntry).

(** The entry as the new manifest lists it. *)
Definition committed t (locs : gmap string DvLocation) e : ManifestEntry :=
  match dvs t !! me_path e, locs !! me_path e with
  | Some _, Some loc => stamp_dv loc e
  | _, _ => e
  end.

Definition kept t e : bool := is_live e && negb (bool_decide (me_path e ∈ removes t)).

Lemma carry_forward_spec t locs es :
  dom (dvs t) ⊆ dom locs ->
  carry_forward t locs es = Ok (map (committed t locs) (List.filter (kept t) es)).
Proof.
  intros Hd. induction es as [|e es IH]; [done|]. cbn [carry_forward List.filter].
  unfold kept at 1. destruct (is_live e); [|exact IH]. cbn [negb orb andb].
  destruct (bool_decide (me_path e ∈ removes t)); [exact IH|]. cbn [negb map].
  rewrite IH. unfold committed at 2. destruct (dvs t !! me_path e) as [dv|] eqn:Ed; [|done].
  assert (Hin : me_path e ∈ dom locs) by (apply Hd, elem_of_dom; eauto).
  apply elem_of_dom in Hin as [loc ->]. done.
Qed.

Definition rows_of_entry e : Z := num_rows (me_meta e).
Definition rows_ok e : Prop := 0 <= rows_of_entry e < 2 ^ 63.

Lemma advance_Ok c n c' : 0 <= n < 2 ^ 63 -> advance c n = Ok c' -> c' = c + n.
Proof.
  intros Hn. unfold advance, to_signed. change (2 ^ (64 - 1)) with (2 ^ 63).
  destruct (Z.ltb_spec n (2 ^ 63)); [|lia]. destruct (_ && _); [|done]. by intros [= <-].
Qed.

Lemma advance_room c n : 0 <= c -> 0 <= n -> c + n < 2 ^ 63 -> advance c n = Ok (c + n).
Proof.
  intros Hc Hn Hr. unfold advance, to_signed. change (2 ^ (64 - 1)) with (2 ^ 63).
  destruct (Z.ltb_spec n (2 ^ 63)); [|lia].
  destruct (Z.leb_spec (- 2 ^ 63) (c + n)); [|lia]. destruct (Z.ltb_spec (c + n) (2 ^ 63)); [done|lia].
Qed.

(** Row identifiers: [e] owns [first_row_id .. first_row_id + num_rows). *)
Definition within (lo hi : Z) e : Prop :=
  forall r, me_first_row_id e = Some r -> lo <= r /\ r + rows_of_entry e <= hi.
Definition disjoint_ids e1 e2 : Prop :=
  forall r1 r2, me_first_row_id e1 = Some r1 -> me_first_row_id e2 = Some r2 ->
    r1 + rows_of_entry e1 <= r2 \/ r2 + rows_of_entry e2 <= r1.

Definition assigned (lo hi : Z) e e' : Prop :=
  match me_first_row_id e with
  | Some _ => e' = e
  | None => exists r, e' = with_row_id r e /\ lo <= r /\ r + rows_of_entry e <= hi
  end.

Lemma assigned_mono lo hi lo' hi' e e' :
  lo' <= lo -> hi <= hi' -> assigned lo hi e e' -> assigned lo' hi' e e'.
Proof.
  intros ? ?. unfold assigned. destruct (me_first_row_id e); [done|].
  intros (r & -> & ? & ?). exists r. split; [done|lia].
Qed.

Lemma assign_row_ids_spec c es es' c' :
  Forall rows_ok es -> assign_row_ids c es = Ok (es', c') ->
  c <= c' /\ Forall2 (assigned c c') es es' /\
  (Forall (within 0 c) es -> ForallOrdPairs disjoint_ids es -> ForallOrdPairs disjoint_ids es').
Proof.
  revert c es' c'. induction es as [|e es IH]; intros c es' c' Hr H; cbn [assign_row_ids] in H.
  { simplify_eq. split; [lia|]. split; [constructor|done]. }
  apply Forall_cons in Hr as [Hr0 Hr]. destruct (me_first_row_id e) as [r0|] eqn:Eid.
  - destruct (assign_row_ids c es) as [[rest c2]|er|] eqn:E; [|done..]. simpl in H. simplify_eq.
    destruct (IH _ _ _ Hr E) as (Hc & HF & HD). split; [done|]. split.
    + constructor; [|done]. unfold assigned. by rewrite Eid.
    + intros Hw Hd. apply Forall_cons in Hw as [Hw0 Hw].
      inversion Hd as [|? ? Hd0 Hd1]; subst. constructor; [|by apply HD].
      apply Forall_forall. intros x' Hx'. apply list_elem_of_lookup in Hx' as [i Hi].
      destruct (Forall2_lookup_r _ _ _ _ _ HF Hi) as (x & Hx & Ha). unfold assigned in Ha.
      destruct (me_first_row_id x) as [rx|] eqn:Ex.
      * subst x'. rewrite Forall_forall in Hd0. apply Hd0. by eapply list_elem_of_lookup_2.
      * destruct Ha as (r & -> & Hlo & _). intros r1 r2 H1 [= <-]. left.
        destruct (Hw0 r1 H1). lia.
  - destruct (advance c (num_rows (me_meta e))) as [c1|er|] eqn:Ea; [|done..]. simpl in H.
    apply advance_Ok in Ea; [|done]. fold (rows_of_entry e) in Ea. subst c1.
    destruct (assign_row_ids (c + rows_of_entry e) es) as [[rest c2]|er|] eqn:E; [|done..].
    simpl in H. simplify_eq. unfold rows_ok in Hr0.
    destruct (IH _ _ _ Hr E) as (Hc & HF & HD). split; [lia|]. split.
    + constructor.
      * unfold assigned. rewrite Eid. exists c. split; [done|lia].
      * eapply Forall2_impl; [exact HF|]. intros x x'. apply assigned_mono; lia.
    + intros Hw Hd. apply Forall_cons in Hw as [_ Hw].
      inversion Hd as [|? ? _ Hd1]; subst. constructor.
      * apply Forall_forall. intros x' Hx'. apply list_elem_of_lookup in Hx' as [i Hi].
        destruct (Forall2_lookup_r _ _ _ _ _ HF Hi) as (x & Hx & Ha). unfold assigned in Ha.
        destruct (me_first_row_id x) as [rx|] eqn:Ex.
        -- subst x'. intros r1 r2 [= <-] H2. right. rewrite Forall_forall in Hw.
           destruct (Hw x (list_elem_of_lookup_2 _ _ _ Hx) r2 H2). lia.
        -- destruct Ha as (r & -> & Hlo & _). intros r1 r2 [= <-] [= <-]. left.
           unfold rows_of_entry in *. cbn. lia.
      * apply HD; [|done]. eapply Forall_impl; [exact Hw|]. intros x Hx r Hr'. destruct (Hx r Hr'). lia.
Qed.

Definition add_ok (f : IcebergDataFile) : Prop :=
  df_num_rows f = num_rows (df_meta f) /\ 0 <= df_num_rows f < 2 ^ 63.

Lemma add_files_spec c fs es c' :
  Forall add_ok fs -> add_files c fs = Ok (es, c') ->
  c <= c' /\ Forall2 (fun f e => exists r, e = added_entry f r) fs es /\
  Forall (within c c') es /\ ForallOrdPairs disjoint_ids es.
Proof.
  revert c es c'. induction fs as [|f fs IH]; intros c es c' Hf H; cbn [add_files] in H.
  { simplify_eq. split; [lia|]. repeat constructor. }
  apply Forall_cons in Hf as [[Hn Hr] Hf].
  destruct (advance c (df_num_rows f)) as [c1|er|] eqn:Ea; [|done..]. simpl in H.
  apply advance_Ok in Ea; [|done]. subst c1.
  destruct (add_files (c + df_num_rows f) fs) as [[rest c2]|er|] eqn:E; [|done..].
  simpl in H. simplify_eq. destruct (IH _ _ _ Hf E) as (Hc & HF & HW & HD).
  assert (Hrow : rows_of_entry (added_entry f c) = df_num_rows f) by (unfold rows_of_entry; cbn; lia).
  split; [lia|]. split; [constructor; eauto|]. split.
  - constructor.
    + intros r [= <-]. rewrite Hrow. lia.
    + eapply Forall_impl; [exact HW|]. intros x Hx r Hr'. destruct (Hx r Hr'). lia.
  - constructor; [|done]. eapply Forall_impl; [exact HW|].
    intros x Hx r1 r2 [= <-] H2. left. rewrite Hrow. destruct (Hx r2 H2). lia.
Qed.

Lemma assigned_entries lo hi es es' :
  0 <= lo <= hi -> Forall rows_ok es -> Forall (within 0 lo) es -> Forall2 (assigned lo hi) es es' ->
  Forall (fun e => rows_ok e /\ within 0 hi e /\ is_Some (me_first_row_id e)) es'.
Proof.
  intros Hlh Hr Hw HF. induction HF as [|e e' es es' Ha _ IH]; [constructor|].
  apply Forall_cons in Hr as [Hr0 Hr]. apply Forall_cons in Hw as [Hw0 Hw].
  constructor; [|by apply IH]. unfold assigned in Ha. destruct (me_first_row_id e) as [r0|] eqn:E.
  - subst e'. split; [done|]. split; [|by rewrite E; eexists]. intros r Hr1. destruct (Hw0 r Hr1). lia.
  - destruct Ha as (r & -> & H1 & H2). split; [done|]. split; [|by eexists].
    intros r1 [= <-]. unfold rows_of_entry in *. cbn. lia.
Qed.

Lemma added_entries fs es :
  Forall add_ok fs -> Forall2 (fun f e => exists r, e = added_entry f r) fs es ->
  Forall (fun e => rows_ok e /\ is_Some (me_first_row_id e)) es.
Proof.
  intros Hf. induction 1 as [|f e fs es (r & ->) _ IH]; [constructor|].
  apply Forall_cons in Hf as [[H1 H2] Hf]. constructor; [|by apply IH].
  split; [|by eexists]. unfold rows_ok, rows_of_entry. cbn. lia.
Qed.

(** The two reasons [apply] refuses a transaction. *)
Definition refused t (locs : gmap string DvLocation) : Prop :=
  ~ dom (dvs t) ⊆ dom locs \/ exists p, p ∈ removes t /\ p ∈ dom (dvs t).

Lemma apply_Ok now uuid m t sid locs m' :
  apply now uuid m t sid locs = Ok m' ->
  ~ refused t locs /\
  exists es c1 added c2,
    assign_row_ids (next_row_id m) (map (committed t locs) (List.filter (kept t) (m_entries m)))
      = Ok (es, c1) /\
    add_files c1 (adds t) = Ok (added, c2) /\
    m_entries m' = es ++ added /\ next_row_id m' = c2 /\ m_first_row_id m' = next_row_id m /\
    m_snapshot_id m' = sid /\ sequence_number m' = sequence_number m + 1 /\
    m_schema m' = m_schema m.
Proof.
  unfold apply. destruct (bool_decide_reflect (dom (dvs t) ⊆ dom locs)) as [Hd|]; [|done]. cbn [negb].
  destruct (bool_decide_reflect (Exists (fun p => p ∈ dom (dvs t)) (removes t))) as [|Hn]; [done|].
  rewrite carry_forward_spec, Ok_bind by done.
  destruct (assign_row_ids _ _) as [[es c1]|er|] eqn:Ea; [|done..]. rewrite Ok_bind.
  destruct (add_files c1 (adds t)) as [[added c2]|er|] eqn:Ef; [|done..]. rewrite Ok_bind.
  destruct (2 ^ 63 - 1 <=? sequence_number m); [done|]. intros [= <-]. split.
  - intros [?|(p & Hp & Hq)]; [done|]. apply Hn, Exists_exists. eauto.
  - exists es, c1, added, c2. done.
Qed.

Lemma committed_fields t locs e :
  me_path (committed t locs e) = me_path e /\ me_first_row_id (committed t locs e) = me_first_row_id e /\
  rows_of_entry (committed t locs e) = rows_of_entry e /\
  me_status (committed t locs e) = me_status e /\
  level (me_meta (committed t locs e)) = level (me_meta e).
Proof. unfold committed. destruct (dvs t !! me_path e); [|done]. by destruct (locs !! me_path e). Qed.

Lemma committed_rows_ok t locs es :
  Forall rows_ok es -> Forall rows_ok (map (committed t locs) (List.filter (kept t) es)).
Proof.
  intros H. apply Forall_forall. intros x Hx. apply list_elem_of_In, in_map_iff in Hx as (e & <- & He).
  apply filter_In in He as [He _]. apply list_elem_of_In in He. rewrite Forall_forall in H.
  unfold rows_ok. destruct (committed_fields t locs e) as (_ & _ & -> & _). by apply H.
Qed.

(** ** Live files of a level after a commit *)
Definition as_file (f : IcebergDataFile) : DataFileMeta :=
  {| path := df_path f; meta := df_meta f; dv_path := None; dv_offset := None; dv_length := None |}.

(** A file of the version with the deletion vector the commit attaches. *)
Definition restamped t (locs : gmap string DvLocation) (f : DataFileMeta) : DataFileMeta :=
  match dvs t !! path f, locs !! path f with
  | Some _, Some loc =>
      {| path := path f;
         meta := set_meta_dv (meta f) (Some (loc_path loc)) (Some (loc_offset loc)) (Some (loc_length loc));
         dv_path := Some (loc_path loc); dv_offset := Some (loc_offset loc);
         dv_length := Some (loc_length loc) |}
  | _, _ => f
  end.

Lemma live_at_cons l e es :
  live_at l (e :: es)
  = (if is_live e && (level (me_meta e) =? l) then [to_data_file_meta e] else []) ++ live_at l es.
Proof. unfold live_at. cbn [List.filter]. by destruct (is_live e && _). Qed.

Lemma live_at_app l es es' : live_at l (es ++ es') = live_at l es ++ live_at l es'.
Proof. unfold live_at. by rewrite List.filter_app, map_app. Qed.

Lemma live_at_assigned lo hi l es es' :
  Forall2 (assigned lo hi) es es' -> live_at l es' = live_at l es.
Proof.
  induction 1 as [|e e' es es' Ha _ IH]; [done|]. rewrite !live_at_cons, IH.
  unfold assigned in Ha. destruct (me_first_row_id e); [by subst|]. by destruct Ha as (r & -> & _).
Qed.

Lemma live_at_committed t locs l es :
  live_at l (map (committed t locs) (List.filter (kept t) es))
  = map (restamped t locs) (base.filter (fun f => path f ∉ removes t) (live_at l es)).
Proof.
  induction es as [|e es IH]; [done|]. rewrite live_at_cons. cbn [List.filter]. unfold kept at 1.
  destruct (is_live e) eqn:El; [|exact IH]. cbn [andb].
  destruct (committed_fields t locs e) as (_ & _ & _ & Es & Ev).
  assert (El' : is_live (committed t locs e) = true) by (unfold is_live; by rewrite Es).
  assert (Er : to_data_file_meta (committed t locs e) = restamped t locs (to_data_file_meta e)).
  { unfold committed, restamped. cbn [path to_data_file_meta].
    destruct (dvs t !! me_path e); [|done]. by destruct (locs !! me_path e). }
  destruct (bool_decide_reflect (me_path e ∈ removes t)) as [Hin|Hin]; cbn [negb].
  - rewrite IH. destruct (level (me_meta e) =? l); [|done]. cbn [app].
    by rewrite filter_cons_False by (cbn; tauto).
  - cbn [map]. rewrite live_at_cons, El', Ev, IH. cbn [andb].
    destruct (level (me_meta e) =? l); [|done]. cbn [app].
    rewrite filter_cons_True by done. cbn [map]. by rewrite Er.
Qed.

Lemma live_at_added l fs es :
  Forall2 (fun f e => exists r, e = added_entry f r) fs es ->
  live_at l es = map as_file (List.filter (fun f => level (df_meta f) =? l) fs).
Proof.
  induction 1 as [|f e fs es (r & ->) _ IH]; [done|]. rewrite live_at_cons, IH. cbn [is_live added_entry List.filter].
  unfold is_live. cbn. by destruct (level (df_meta f) =? l).
Qed.
End commit.

(** ** Orders of the level lists *)
Lemma newest_first_total f g : newest_first f g = false -> newest_first g f = true.
Proof. unfold newest_first. rewrite Z.leb_gt, Z.leb_le. lia. Qed.

Lemma newest_first_trans f g h :
  newest_first f g = true -> newest_first g h = true -> newest_first f h = true.
Proof. unfold newest_first. rewrite !Z.leb_le. lia. Qed.

Lemma by_key_min_total f g : by_key_min f g = false -> by_key_min g f = true.
Proof. unfold by_key_min. rewrite bytes_leb_false. apply bytes_lt_leb. Qed.

Lemma by_key_min_trans f g h :
  by_key_min f g = true -> by_key_min g h = true -> by_key_min f h = true.
Proof. unfold by_key_min. apply bytes_leb_trans. Qed.

(** The row identifiers of a manifest: handed out once, below the counter. *)
Definition lineage_ok (m : Manifest) : Prop :=
  Forall (fun e => rows_ok e /\ within 0 (next_row_id m) e) (m_entries m) /\
  ForallOrdPairs disjoint_ids (m_entries m) /\ 0 <= next_row_id m.

Lemma committed_lineage {B : Type} `{!Roaring B} (t : SnapshotTransaction B) locs c es :
  Forall (within 0 c) es -> ForallOrdPairs disjoint_ids es ->
  let base := map (committed t locs) (List.filter (kept t) es) in
  Forall (within 0 c) base /\ ForallOrdPairs disjoint_ids base.
Proof.
  intros Hall Hdisj base. split.
  - apply Forall_forall. intros x Hx. apply list_elem_of_In, in_map_iff in Hx as (e & <- & Hx).
    apply filter_In in Hx as [Hx _]. apply list_elem_of_In in Hx.
    destruct (committed_fields t locs e) as (_ & Hid & Hro & _). intros r. rewrite Hid, Hro.
    rewrite Forall_forall in Hall. by apply Hall.
  - apply ordpairs_map; [|by apply ordpairs_filter]. intros x y Hxy r1 r2.
    destruct (committed_fields t locs x) as (_ & -> & -> & _).
    destruct (committed_fields t locs y) as (_ & -> & -> & _). apply Hxy.
Qed.

Lemma files_at_perm m s l : files_at (to_version m s) l ≡ₚ live_at l (m_entries m).
Proof.
  rewrite files_at_to_version. unfold sort_level.
  destruct (l =? 0); [apply sort_by_perm|]. destruct (1 <=? l); [apply sort_by_perm|done].
Qed.

Lemma commit_files {B : Type} `{!Roaring B} now uuid m (t : SnapshotTransaction B) sid locs m' l :
  Forall rows_ok (m_entries m) -> Forall add_ok (adds t) ->
  apply now uuid m t sid locs = Ok m' ->
  live_at l (m_entries m')
  = map (restamped t locs) (base.filter (fun f => path f ∉ removes t) (live_at l (m_entries m)))
    ++ map as_file (List.filter (fun f => level (df_meta f) =? l) (adds t)) /\
  m_snapshot_id m' = sid /\ m_schema m' = m_schema m /\
  sequence_number m' = sequence_number m + 1.
Proof.
  intros Hrows Hadds H. apply apply_Ok in H as (_ & es & c1 & added & c2 & Ea & Ef & -> & _ & _ & Hs & Hq & Hsch).
  destruct (assign_row_ids_spec _ _ _ _ (committed_rows_ok t locs _ Hrows) Ea) as (_ & HF & _).
  destruct (add_files_spec _ _ _ _ Hadds Ef) as (_ & HA & _).
  split; [|done]. rewrite live_at_app. f_equal.
  - rewrite (live_at_assigned _ _ _ _ _ HF). apply live_at_committed.
  - by apply live_at_added.
Qed.

(** ** Properties *)

(** The level map is a faithful view of the manifest: at every level it
    lists exactly the live entries of that level; L0 comes newest first (by
    highest sequence number) and every deeper level in order of smallest key,
    which the lookup of the read path relies on. *)
Theorem to_version_levels m s l :
  files_at (to_version m s) l ≡ₚ live_at l (m_entries m) /\
  (l = 0 -> StronglySorted (fun f g => seq_max (meta g) <= seq_max (meta f)) (files_at (to_version m s) l)) /\
  (1 <= l -> StronglySorted (fun f g => bytes_leb (key_min (meta f)) (key_min (meta g)) = true)
               (files_at (to_version m s) l)).
Proof.
  split; [apply files_at_perm|]. rewrite files_at_to_version. unfold sort_level. split.
  - intros ->. cbn [Z.eqb]. eapply StronglySorted_impl; [|apply sort_by_sorted;
      [apply newest_first_total|apply newest_first_trans]].
    intros f g Hfg%Is_true_true. unfold newest_first in Hfg. lia.
  - intros Hl. destruct (Z.eqb_spec l 0); [lia|]. destruct (Z.leb_spec 1 l); [|lia].
    eapply StronglySorted_impl; [|apply sort_by_sorted; [apply by_key_min_total|apply by_key_min_trans]].
    intros f g Hfg%Is_true_true. exact Hfg.
Qed.

(** What a commit changes, level by level: the new manifest lists the old
    live files that are not removed, in order, with the deletion vectors of
    the transaction attached at their recorded locations, and then the added
    files of that level; no file is duplicated, lost or moved between levels. *)
Theorem apply_commits_files {B : Type} `{!Roaring B} now uuid m (t : SnapshotTransaction B) sid locs m' l :
  Forall rows_ok (m_entries m) -> Forall add_ok (adds t) ->
  apply now uuid m t sid locs = Ok m' ->
  live_at l (m_entries m')
  = map (restamped t locs) (base.filter (fun f => path f ∉ removes t) (live_at l (m_entries m)))
    ++ map as_file (List.filter (fun f => level (df_meta f) =? l) (adds t)) /\
  m_snapshot_id m' = sid /\ m_schema m' = m_schema m /\
  sequence_number m' = sequence_number m + 1.
Proof. apply commit_files. Qed.

(** C23. Row lineage: a commit keeps every assigned row identifier, gives one
    to every entry that lacked it and to every added file, never reuses an
    identifier below the old counter, keeps the ranges of all entries
    disjoint, and moves the counter past all of them; the new snapshot's
    first row identifier is the old counter. *)
Theorem apply_keeps_lineage {B : Type} `{!Roaring B} now uuid m (t : SnapshotTransaction B) sid locs m' :
  lineage_ok m -> Forall add_ok (adds t) ->
  apply now uuid m t sid locs = Ok m' ->
  lineage_ok m' /\ next_row_id m <= next_row_id m' /\ m_first_row_id m' = next_row_id m /\
  Forall (fun e => is_Some (me_first_row_id e)) (m_entries m') /\
  (forall e r, e ∈ m_entries m -> kept t e = true -> me_first_row_id e = Some r ->
     committed t locs e ∈ m_entries m') /\
  (forall f, f ∈ adds t -> exists r, next_row_id m <= r /\ added_entry f r ∈ m_entries m').
Proof.
  intros (Hall & Hdisj & Hpos) Hadds H.
  apply apply_Ok in H as (_ & es & c1 & added & c2 & Ea & Ef & He & Hn & Hf & _).
  assert (Hrows : Forall rows_ok (m_entries m)) by (eapply Forall_impl; [exact Hall|]; by intros x [? _]).
  destruct (committed_lineage t locs (next_row_id m) (m_entries m)) as [Hwb Hdb];
    [eapply Forall_impl; [exact Hall|]; by intros x [_ ?]|done|].
  set (base := map (committed t locs) (List.filter (kept t) (m_entries m))) in *.
  destruct (assign_row_ids_spec _ _ _ _ (committed_rows_ok t locs _ Hrows) Ea) as (Hc1 & HF & HD).
  destruct (add_files_spec _ _ _ _ Hadds Ef) as (Hc2 & HA & HW & HD2).
  pose proof (assigned_entries _ _ _ _ (conj Hpos Hc1) (committed_rows_ok t locs _ Hrows) Hwb HF) as HE.
  pose proof (added_entries _ _ Hadds HA) as HE2. split; [|split_and!].
  - split; [|split; [|lia]].
    + rewrite He, Hn. apply Forall_app. split.
      * eapply Forall_impl; [exact HE|]. intros x (Hr & Hw & _). split; [done|].
        intros r Hr'. destruct (Hw r Hr'). lia.
      * apply Forall_and. split.
        -- eapply Forall_impl; [exact HE2|]. intros x Hx. apply Hx.
        -- eapply Forall_impl; [exact HW|]. intros x Hw r Hr'. destruct (Hw r Hr'). lia.
    + rewrite He. apply ordpairs_app; [by apply HD|done|]. intros x y Hx Hy r1 r2 H1 H2. left.
      rewrite Forall_forall in HE, HW. destruct (HE x Hx) as (_ & Hw & _), (Hw r1 H1), (HW y Hy r2 H2). lia.
  - lia.
  - done.
  - rewrite He. apply Forall_app. split;
      [eapply Forall_impl; [exact HE|]|eapply Forall_impl; [exact HE2|]]; intros x Hx; apply Hx.
  - intros e r Hin Hk Hid. rewrite He. apply elem_of_app. left.
    assert (Hx : committed t locs e ∈ base).
    { apply list_elem_of_In, in_map_iff. exists e. split; [done|]. apply filter_In. by rewrite <- list_elem_of_In. }
    apply list_elem_of_lookup in Hx as [i Hi].
    destruct (Forall2_lookup_l _ _ _ _ _ HF Hi) as (x' & Hx' & Ha). unfold assigned in Ha.
    destruct (committed_fields t locs e) as (_ & Hid' & _). rewrite Hid', Hid in Ha. subst x'.
    by eapply list_elem_of_lookup_2.
  - intros f Hin. apply list_elem_of_lookup in Hin as [i Hi].
    destruct (Forall2_lookup_l _ _ _ _ _ HA Hi) as (x & Hx & r & ->).
    apply list_elem_of_lookup_2 in Hx. exists r. split; [|rewrite He; apply elem_of_app; by right].
    rewrite Forall_forall in HW. destruct (HW _ Hx r eq_refl). lia.
Qed.

Definition pending_rows (es : list ManifestEntry) : Z :=
  foldr (fun e n => match me_first_row_id e with Some _ => n | None => rows_of_entry e + n end) 0 es.
Definition added_rows (fs : list IcebergDataFile) : Z := foldr (fun f n => df_num_rows f + n) 0 fs.

Lemma pending_rows_nonneg es : Forall rows_ok es -> 0 <= pending_rows es.
Proof.
  induction 1 as [|x l Hx _ IHl]; cbn; [lia|]. unfold rows_ok in Hx. fold (pending_rows l).
  destruct (me_first_row_id x); lia.
Qed.

Lemma added_rows_nonneg fs : Forall add_ok fs -> 0 <= added_rows fs.
Proof. induction 1 as [|x l [_ Hx] _ IHl]; cbn; [lia|]. fold (added_rows l). lia. Qed.

Lemma assign_row_ids_total c es :
  Forall rows_ok es -> 0 <= c -> c + pending_rows es < 2 ^ 63 ->
  exists es', assign_row_ids c es = Ok (es', c + pending_rows es).
Proof.
  revert c. induction es as [|e es IH]; intros c Hr Hc Hroom; cbn [assign_row_ids pending_rows foldr] in *.
  { exists []. by rewrite Z.add_0_r. }
  apply Forall_cons in Hr as [Hr0 Hr]. fold (pending_rows es) in *.
  pose proof (pending_rows_nonneg es Hr) as Hp.
  unfold rows_ok in Hr0. destruct (me_first_row_id e).
  - destruct (IH c Hr) as (es' & ->); [lia..|]. by eexists.
  - unfold rows_of_entry in *. rewrite advance_room by lia. rewrite Ok_bind.
    destruct (IH (c + num_rows (me_meta e)) Hr) as (es' & ->); [lia..|]. eexists. rewrite Ok_bind.
    do 2 f_equal. lia.
Qed.

Lemma add_files_total c fs :
  Forall add_ok fs -> 0 <= c -> c + added_rows fs < 2 ^ 63 ->
  exists es, add_files c fs = Ok (es, c + added_rows fs).
Proof.
  revert c. induction fs as [|f fs IH]; intros c Hr Hc Hroom; cbn [add_files added_rows foldr] in *.
  { exists []. by rewrite Z.add_0_r. }
  apply Forall_cons in Hr as [[_ Hr0] Hr]. fold (added_rows fs) in *.
  pose proof (added_rows_nonneg fs Hr) as Hp.
  rewrite advance_room by lia. rewrite Ok_bind.
  destruct (IH (c + df_num_rows f) Hr) as (es & ->); [lia..|]. eexists. rewrite Ok_bind.
  do 2 f_equal. lia.
Qed.

(** When a commit is refused: as long as the row counter and the sequence
    number stay below 2^63, [apply] never panics, and it fails with an error
    exactly if a deletion vector has no recorded location or belongs to a file
    the same transaction removes; otherwise the counter advances by exactly
    the rows of the added files and of the entries that had no identifier. *)
Theorem apply_total {B : Type} `{!Roaring B} now uuid m (t : SnapshotTransaction B) sid locs :
  let base := map (committed t locs) (List.filter (kept t) (m_entries m)) in
  Forall rows_ok (m_entries m) -> Forall add_ok (adds t) -> 0 <= next_row_id m ->
  next_row_id m + pending_rows base + added_rows (adds t) < 2 ^ 63 ->
  sequence_number m < 2 ^ 63 - 1 ->
  (refused t locs /\ exists e, apply now uuid m t sid locs = Err e) \/
  (~ refused t locs /\ exists m', apply now uuid m t sid locs = Ok m' /\
     next_row_id m' = next_row_id m + pending_rows base + added_rows (adds t)).
Proof.
  intros base Hrows Hadds Hpos Hroom Hseq. unfold apply, refused.
  destruct (bool_decide_reflect (dom (dvs t) ⊆ dom locs)) as [Hd|]; cbn [negb]; [|left; eauto].
  destruct (bool_decide_reflect (Exists (fun p => p ∈ dom (dvs t)) (removes t))) as [Hx|Hn].
  { left. apply Exists_exists in Hx. split; [|by eexists]. right. naive_solver. }
  right. split. { intros [?|(p & ? & ?)]; [done|]. apply Hn, Exists_exists. eauto. }
  rewrite carry_forward_spec, Ok_bind by done. fold base.
  pose proof (pending_rows_nonneg base (committed_rows_ok t locs _ Hrows)) as Hb1.
  pose proof (added_rows_nonneg _ Hadds) as Hb2.
  destruct (assign_row_ids_total (next_row_id m) base) as (es & ->);
    [by apply committed_rows_ok|lia..|]. rewrite Ok_bind.
  destruct (add_files_total (next_row_id m + pending_rows base) (adds t)) as (ad & ->); [done|lia..|].
  rewrite Ok_bind. destruct (Z.leb_spec (2 ^ 63 - 1) (sequence_number m)); [lia|]. by eexists.
Qed.

(** ** A concrete commit *)
Definition ex_entry (f : DataFileMeta) (status : string) (id : option Z) : ManifestEntry :=
  {| me_path := path f; me_meta := meta f; me_dv_path := None; me_dv_offset := None;
     me_dv_length := None; me_status := status; me_first_row_id := id |}.

Definition ex_manifest : Manifest :=
  {| format_version := 3; table_uuid := "u"; last_updated_ms := 5; m_snapshot_id := 4;
     parent_snapshot_id := Some 3; sequence_number := 4; next_row_id := 20; m_first_row_id := 0;
     m_schema := ex_schema;
     m_entries := [ex_entry (ex_file "a" 1 1 3 [b0] [bFF] 10) "existing" None;
                   ex_entry (ex_file "b" 0 4 5 [b0] [bFF] 10) "added" (Some 0);
                   ex_entry (ex_file "gone" 0 4 5 [b0] [bFF] 10) "deleted" (Some 10)];
     properties := ∅ |}.

Definition ex_added : IcebergDataFile :=
  {| df_path := "c"; df_file_size := 10; df_num_rows := num_rows (meta (ex_file "c" 1 4 5 [b0] [bFF] 10));
     df_meta := meta (ex_file "c" 1 4 5 [b0] [bFF] 10) |}.

Definition ex_txn : SnapshotTransaction (gset Z) :=
  add_dv "a" (mark_deleted 0 dv_new) (remove_file "b" (add_file ex_added txn_new)).

Definition ex_locs : gmap string DvLocation :=
  {["a" := {| loc_path := "a.puffin"; loc_offset := 4; loc_length := 40 |}]}.

Definition ex_committed : Manifest :=
  match apply 9 "fresh" ex_manifest ex_txn 5 ex_locs with Ok m => m | _ => ex_manifest end.

Lemma ex_apply : apply 9 "fresh" ex_manifest ex_txn 5 ex_locs = Ok ex_committed.
Proof. vm_compute. reflexivity. Qed.

Lemma ex_rows_ok : Forall rows_ok (m_entries ex_manifest).
Proof. unfold rows_ok. repeat (apply Forall_cons; split; [vm_compute; split; [discriminate|reflexivity]|]). constructor. Qed.

Lemma ex_add_ok : Forall add_ok (adds ex_txn).
Proof.
  apply Forall_cons. split; [|constructor]. split; [reflexivity|].
  vm_compute. split; [discriminate|reflexivity].
Qed.

Lemma ex_lineage : lineage_ok ex_manifest.
Proof.
  split; [|split; [|cbn; lia]].
  - apply Forall_and. split; [apply ex_rows_ok|].
    repeat (apply Forall_cons; split; [intros r [= <-]; vm_compute; split; discriminate|]). constructor.
  - unfold ex_manifest, disjoint_ids. cbn [m_entries].
    repeat first [apply FOP_nil | apply FOP_cons | apply List.Forall_nil | apply List.Forall_cons];
      intros r1 r2; cbn; intros [=] [=]; subst; left; vm_compute; discriminate.
Qed.

Lemma apply_commits_files_witness :
  live_at 1 (m_entries ex_committed)
  = map (restamped ex_txn ex_locs)
      (base.filter (fun f => path f ∉ removes ex_txn) (live_at 1 (m_entries ex_manifest)))
    ++ map as_file (List.filter (fun f => level (df_meta f) =? 1) (adds ex_txn)) /\
  m_snapshot_id ex_committed = 5 /\ m_schema ex_committed = m_schema ex_manifest /\
  sequence_number ex_committed = sequence_number ex_manifest + 1.
Proof.
  exact (apply_commits_files 9 "fresh" ex_manifest ex_txn 5 ex_locs ex_committed 1
           ex_rows_ok ex_add_ok ex_apply).
Defined.

Lemma apply_keeps_lineage_witness :
  lineage_ok ex_committed /\ next_row_id ex_committed = 40.
Proof.
  split; [|vm_compute; reflexivity].
  exact (proj1 (apply_keeps_lineage 9 "fresh" ex_manifest ex_txn 5 ex_locs ex_committed
           ex_lineage ex_add_ok ex_apply)).
Defined.

Lemma apply_total_witness :
  let base := map (committed ex_txn ex_locs) (List.filter (kept ex_txn) (m_entries ex_manifest)) in
  (refused ex_txn ex_locs /\ exists e, apply 9 "fresh" ex_manifest ex_txn 5 ex_locs = Err e) \/
  (~ refused ex_txn ex_locs /\ exists m', apply 9 "fresh" ex_manifest ex_txn 5 ex_locs = Ok m' /\
     next_row_id m' = next_row_id ex_manifest + pending_rows base + added_rows (adds ex_txn)).
Proof.
  apply (apply_total 9 "fresh" ex_manifest ex_txn 5 ex_locs ex_rows_ok ex_add_ok);
    vm_compute; first [discriminate|reflexivity].
Defined.

Lemma to_version_levels_witness :
  StronglySorted (fun f g => seq_max (meta g) <= seq_max (meta f))
    (files_at (to_version ex_manifest ex_schema) 0) /\
  StronglySorted (fun f g => bytes_leb (key_min (meta f)) (key_min (meta g)) = true)
    (files_at (to_version ex_manifest ex_schema) 1) /\
  length (files_at (to_version ex_manifest ex_schema) 0) = 1%nat.
Proof.
  split; [|split; [|vm_compute; reflexivity]].
  - exact (proj1 (proj2 (to_version_levels ex_manifest ex_schema 0)) eq_refl).
  - apply (proj2 (proj2 (to_version_levels ex_manifest ex_schema 1))). lia.
Defined.
