(* ===== verification/ManifestPb.v ===== *)
(** * Manifests on disk

    [src/crates/merutable/src/iceberg/manifest_pb.rs] (the framing header) and
    the protobuf conversions of
    [src/crates/merutable/src/iceberg/manifest.rs].  The message encoder and
    decoder generated by prost are the interface [Prost]; serde's JSON for
    manifests of older catalogs is [ManifestJson]. *)

From Stdlib Require Import Ascii.
From S2P Require Import Prelude Decimal Sequence Schema LsmVersion DeletionVector Manifest.
Local Open Scope Z_scope.

(** ** The messages of [catalog.proto] *)
Record DataFileRef : Type := {
  pb_path : string;
  pb_file_size : Z;
  pb_num_rows : Z;
  pb_level : Z;
  pb_seq_min : Z;
  pb_seq_max : Z;
  pb_key_min : bytes;
  pb_key_max : bytes;
  pb_dv_path : option string;
  pb_dv_offset : option Z;
  pb_dv_length : option Z;
  pb_status : Z;
  pb_format : option Z;
  pb_first_row_id : option Z;
}.

(** [delete_files] is always empty and left out. *)
Record PbManifest : Type := {
  pbm_snapshot_id : Z;
  pbm_sequence_number : Z;
  pbm_schema_id : Z;
  pbm_partition_spec_id : Z;
  pbm_data_files : list DataFileRef;
  pbm_previous_snapshot_id : option Z;
  pbm_table_uuid : string;
  pbm_last_updated_ms : Z;
  pbm_properties : gmap string string;
  pbm_last_column_id : Z;
  pbm_next_row_id : Z;
  pbm_first_row_id : Z;
}.

Class Prost := {
  pb_encode : PbManifest -> bytes;
  pb_decode : bytes -> option PbManifest;
}.
Class ProstLaws `{!Prost} := { pb_roundtrip m : pb_decode (pb_encode m) = Some m }.

Class ManifestJson := { manifest_from_json : bytes -> option Manifest }.

(** ** The frame *)
Definition MAGIC : bytes := list_byte_of_string "MRUB".
Definition FORMAT_VERSION : byte := Byte.x01.
Definition HEADER_LEN : nat := 9.

Definition pb_frame `{!Prost} (m : PbManifest) : bytes :=
  let body := pb_encode m in
  MAGIC ++ [FORMAT_VERSION] ++ le_split 4 (wrap 32 (Z.of_nat (length body))) ++ body.

Definition pb_unframe `{!Prost} (bs : bytes) : res PbManifest :=
  if (length bs <? HEADER_LEN)%nat then Err (Corruption "manifest wire frame too short")
  else if negb (bytes_eqb (take 4 bs) MAGIC) then Err (Corruption "manifest magic mismatch")
  else
    version ← index bs 4;
    if negb (bool_decide (version = FORMAT_VERSION)) then
      Err (Corruption "manifest format version not supported by this binary")
    else
      len_bytes ← slice bs 5 4;
      let len := Z.to_nat (le_combine len_bytes) in
      if (length bs <? HEADER_LEN + len)%nat then Err (Corruption "manifest frame truncated")
      else
        payload ← slice bs HEADER_LEN len;
        ok_or (pb_decode payload) (Corruption "manifest protobuf decode failed").

(** ** Native manifests as messages *)
Definition as_i64 (u : Z) : Z := to_signed 64 (wrap 64 u).
Definition as_i32 (u : Z) : Z := to_signed 32 (wrap 32 u).

Definition status_code (s : string) : Z :=
  if String.eqb s "added" then 1 else if String.eqb s "deleted" then 2 else 0.
Definition status_name (c : Z) : string :=
  if c =? 1 then "added" else if c =? 2 then "deleted" else "existing".
Definition format_code (f : FileFormat) : Z := match f with Columnar => 0 | Dual => 1 end.
Definition format_of_code (c : Z) : FileFormat := if c =? 1 then Dual else Columnar.

Definition to_ref (e : ManifestEntry) : DataFileRef :=
  {| pb_path := me_path e; pb_file_size := as_i64 (file_size (me_meta e));
     pb_num_rows := as_i64 (num_rows (me_meta e)); pb_level := level (me_meta e);
     pb_seq_min := as_i64 (seq_min (me_meta e)); pb_seq_max := as_i64 (seq_max (me_meta e));
     pb_key_min := key_min (me_meta e); pb_key_max := key_max (me_meta e);
     pb_dv_path := me_dv_path e; pb_dv_offset := me_dv_offset e; pb_dv_length := me_dv_length e;
     pb_status := status_code (me_status e); pb_format := format_code <$> format (me_meta e);
     pb_first_row_id := me_first_row_id e |}.

Definition of_ref (d : DataFileRef) : ManifestEntry :=
  {| me_path := pb_path d;
     me_meta := {| level := wrap 8 (pb_level d); seq_min := wrap 64 (pb_seq_min d);
                   seq_max := wrap 64 (pb_seq_max d); key_min := pb_key_min d;
                   key_max := pb_key_max d; num_rows := wrap 64 (pb_num_rows d);
                   file_size := wrap 64 (pb_file_size d); fm_dv_path := pb_dv_path d;
                   fm_dv_offset := pb_dv_offset d; fm_dv_length := pb_dv_length d;
                   format := format_of_code <$> pb_format d; column_stats := None |};
     me_dv_path := pb_dv_path d; me_dv_offset := pb_dv_offset d; me_dv_length := pb_dv_length d;
     me_status := status_name (pb_status d); me_first_row_id := pb_first_row_id d |}.

Definition SCHEMA_PROP : string := "merutable.schema.json".
Definition FORMAT_PROP : string := "merutable.format_version".

Definition show_string (n : Z) : string := string_of_list_ascii (show_int n).

Definition to_pb `{!SchemaJson} (m : Manifest) : res PbManifest :=
  schema_json ← ok_or (schema_to_json (m_schema m)) (Iceberg "manifest.schema json");
  Ok {| pbm_snapshot_id := m_snapshot_id m; pbm_sequence_number := sequence_number m;
        pbm_schema_id := as_i32 (schema_id (m_schema m)); pbm_partition_spec_id := 0;
        pbm_data_files := map to_ref (m_entries m);
        pbm_previous_snapshot_id := parent_snapshot_id m; pbm_table_uuid := table_uuid m;
        pbm_last_updated_ms := last_updated_ms m;
        pbm_properties := <[FORMAT_PROP := show_string (format_version m)]>
                            (<[SCHEMA_PROP := schema_json]> (properties m));
        pbm_last_column_id := as_i32 (last_column_id (m_schema m));
        pbm_next_row_id := next_row_id m; pbm_first_row_id := m_first_row_id m |}.

Definition from_pb `{!SchemaJson} (p : PbManifest) : res Manifest :=
  schema_json ← ok_or (pbm_properties p !! SCHEMA_PROP)
    (Iceberg "protobuf manifest missing 'merutable.schema.json' property");
  s ← ok_or (schema_from_json schema_json) (Iceberg "schema.json parse");
  let props := delete SCHEMA_PROP (pbm_properties p) in
  let version := default 3 (t ← props !! FORMAT_PROP; parse_int 32 (list_ascii_of_string t)) in
  Ok {| format_version := version; table_uuid := pbm_table_uuid p;
        last_updated_ms := pbm_last_updated_ms p; m_snapshot_id := pbm_snapshot_id p;
        parent_snapshot_id := pbm_previous_snapshot_id p;
        sequence_number := pbm_sequence_number p; next_row_id := pbm_next_row_id p;
        m_first_row_id := pbm_first_row_id p; m_schema := s;
        m_entries := map of_ref (pbm_data_files p); properties := delete FORMAT_PROP props |}.

Definition to_protobuf `{!Prost, !SchemaJson} (m : Manifest) : res bytes :=
  p ← to_pb m; Ok (pb_frame p).

Definition from_protobuf `{!Prost, !SchemaJson} (bs : bytes) : res Manifest :=
  p ← pb_unframe bs; from_pb p.

(** [decode_manifest] of [catalog.rs]: the format is told by the first bytes. *)
Definition decode_manifest `{!Prost, !SchemaJson, !ManifestJson} (data : bytes) : res Manifest :=
  if (4 <=? length data)%nat && bytes_eqb (take 4 data) MAGIC then from_protobuf data
  else if bool_decide (head data = Some Byte.x7b) then
    ok_or (manifest_from_json data) (Iceberg "manifest deserialize")
  else Err (Corruption "manifest payload has neither magic nor leading brace").

(** ** Manifests that survive the round trip

    Entries within the widths of the code's fields, whose embedded metadata
    names the same deletion vector as the entry, with one of the three
    statuses, and properties outside the two reserved keys. *)
Definition entry_wf (e : ManifestEntry) : Prop :=
  let m := me_meta e in
  in_u 8 (level m) /\ in_u 64 (seq_min m) /\ in_u 64 (seq_max m) /\ in_u 64 (num_rows m) /\
  in_u 64 (file_size m) /\ fm_dv_path m = me_dv_path e /\ fm_dv_offset m = me_dv_offset e /\
  fm_dv_length m = me_dv_length e /\
  (me_status e = "existing" \/ me_status e = "added" \/ me_status e = "deleted").

Definition props_wf (ps : gmap string string) : Prop :=
  ps !! SCHEMA_PROP = None /\ ps !! FORMAT_PROP = None.

(** What the messages carry of an entry and of a manifest: everything but the
    statistics of the columns, for which they have no fields. *)
Definition stored_entry (e : ManifestEntry) : ManifestEntry :=
  {| me_path := me_path e; me_meta := with_stats None (me_meta e); me_dv_path := me_dv_path e;
     me_dv_offset := me_dv_offset e; me_dv_length := me_dv_length e; me_status := me_status e;
     me_first_row_id := me_first_row_id e |}.

Definition stored_manifest (m : Manifest) : Manifest :=
  {| format_version := format_version m; table_uuid := table_uuid m; last_updated_ms := last_updated_ms m;
     m_snapshot_id := m_snapshot_id m; parent_snapshot_id := parent_snapshot_id m; sequence_number := sequence_number m;
     next_row_id := next_row_id m; m_first_row_id := m_first_row_id m; m_schema := m_schema m;
     m_entries := map stored_entry (m_entries m); properties := properties m |}.

Lemma stored_stored m : stored_manifest (stored_manifest m) = stored_manifest m.
Proof. unfold stored_manifest. cbn. f_equal. rewrite map_map. by apply map_ext. Qed.

Lemma sort_by_map {A} (leb : A -> A -> bool) g xs :
  (forall x y, leb (g x) (g y) = leb x y) -> sort_by leb (map g xs) = map g (sort_by leb xs).
Proof.
  intros H. assert (Hi : forall x l, insert_by leb (g x) (map g l) = map g (insert_by leb x l)).
  { intros x l. induction l as [|y l IH]; [done|]. cbn. rewrite H. destruct (leb x y); [done|]. cbn. by rewrite IH. }
  induction xs as [|x xs IH]; [done|]. unfold sort_by in *. cbn. by rewrite IH, Hi.
Qed.

(** A version read back from the messages is the one written, without the
    statistics of its columns. *)
Lemma to_version_stored m s : to_version (stored_manifest m) s = without_stats (to_version m s).
Proof.
  assert (Hs : forall l fs, sort_level l (map file_without_stats fs) = map file_without_stats (sort_level l fs)).
  { intros l fs. unfold sort_level. destruct (l =? 0); [|destruct (1 <=? l); [|done]]; by apply sort_by_map. }
  unfold to_version, without_stats. cbn [stored_manifest m_snapshot_id m_entries levels snapshot_id schema]. f_equal.
  assert (Hp : forall es ls, foldl push_level (map file_without_stats <$> ls) (map stored_entry es)
    = map file_without_stats <$> foldl push_level ls es).
  { induction es as [|e es IH]; intros ls; [done|]. cbn [map foldl]. rewrite <- IH. f_equal. unfold push_level.
    change (is_live (stored_entry e)) with (is_live e). change (level (me_meta (stored_entry e))) with (level (me_meta e)).
    destruct (is_live e); [|done]. rewrite fmap_insert. f_equal. rewrite lookup_fmap.
    destruct (ls !! level (me_meta e)); cbn; [by rewrite map_app|done]. }
  specialize (Hp (m_entries m) ∅). rewrite fmap_empty in Hp. rewrite Hp. apply map_eq. intros l.
  rewrite map_lookup_imap, !lookup_fmap, map_lookup_imap. destruct (foldl push_level ∅ (m_entries m) !! l); cbn; [by rewrite Hs|done].
Qed.

Record manifest_wf (m : Manifest) : Prop := {
  mw_version : in_i 32 (format_version m);
  mw_schema : json_schema (m_schema m);
  mw_entries : Forall entry_wf (m_entries m);
  mw_props : props_wf (properties m);
}.

Lemma wrap_as_i64 u : in_u 64 u -> wrap 64 (as_i64 u) = u.
Proof.
  unfold in_u, as_i64, to_signed, wrap. intros H. rewrite (Z.mod_small u) by done.
  destruct (Z.ltb_spec u (2 ^ (64 - 1))); [by apply Z.mod_small|].
  rewrite <- (Z.mod_add (u - 2 ^ 64) 1) by lia. replace (u - 2 ^ 64 + 1 * 2 ^ 64) with u by lia.
  by apply Z.mod_small.
Qed.

Lemma of_to_ref e : entry_wf e -> of_ref (to_ref e) = stored_entry e.
Proof.
  destruct e as [ep m e1 e2 e3 stat frid], m as [lv s1 s2 k1 k2 nrows fsize m1 m2 m3 fmt stats].
  unfold entry_wf, of_ref, to_ref, stored_entry, with_stats. cbn.
  intros (Hl & H1 & H2 & H3 & H4 & -> & -> & -> & Hst).
  rewrite !wrap_as_i64 by done. unfold wrap, in_u in *. rewrite (Z.mod_small lv) by done.
  f_equal.
  - f_equal. by destruct fmt as [[]|].
  - by destruct Hst as [-> | [-> | ->]].
Qed.

Lemma pb_unframe_frame `{!Prost, !ProstLaws} m :
  Z.of_nat (length (pb_encode m)) < 2 ^ 32 -> pb_unframe (pb_frame m) = Ok m.
Proof.
  intros Hl. unfold pb_unframe, pb_frame. set (body := pb_encode m) in *.
  set (lb := le_split 4 (wrap 32 (Z.of_nat (length body)))).
  assert (Llb : length lb = 4%nat) by apply le_split_length.
  rewrite !length_app, Llb. cbn [length].
  destruct (Nat.ltb_spec (length MAGIC + (1 + (4 + length body))) HEADER_LEN) as [Hs|_];
    [change (length MAGIC) with 4%nat in Hs; unfold HEADER_LEN in Hs; lia|].
  rewrite take_app_length'; [|done]. rewrite (proj2 (bytes_eqb_spec _ _)) by done. cbn [negb].
  change (index (MAGIC ++ [FORMAT_VERSION] ++ lb ++ body) 4) with (Ok FORMAT_VERSION).
  rewrite Ok_bind, bool_decide_true by done. cbn [negb].
  rewrite (slice_at _ (MAGIC ++ [FORMAT_VERSION]) lb body) by (by rewrite ?Llb, <- ?app_assoc).
  rewrite Ok_bind. assert (Z.to_nat (le_combine lb) = length body) as ->.
  { unfold lb, wrap. rewrite Z.mod_small, le_combine_split_id by lia. apply Nat2Z.id. }
  destruct (Nat.ltb_spec (length MAGIC + (1 + (4 + length body))) (HEADER_LEN + length body)) as [Hs|_];
    [change (length MAGIC) with 4%nat in Hs; unfold HEADER_LEN in Hs; lia|].
  rewrite (slice_at _ (MAGIC ++ [FORMAT_VERSION] ++ lb) body []).
  - rewrite Ok_bind. unfold body. by rewrite pb_roundtrip.
  - by rewrite app_nil_r, <- !app_assoc.
  - rewrite !length_app, Llb. done.
  - done.
Qed.

Lemma from_to_pb `{!SchemaJson, !SchemaJsonLaws} m p :
  manifest_wf m -> to_pb m = Ok p -> from_pb p = Ok (stored_manifest m).
Proof.
  intros [Hv Hs He [Hp1 Hp2]]. unfold to_pb.
  destruct (schema_to_json (m_schema m)) as [j|] eqn:Ej; [|done]. cbn [ok_or]. rewrite Ok_bind.
  intros [= <-]. unfold from_pb. cbn [pbm_properties].
  rewrite lookup_insert_ne by done. rewrite lookup_insert_eq. cbn [ok_or]. rewrite Ok_bind.
  rewrite (schema_json_roundtrip _ _ Hs Ej). cbn [ok_or]. rewrite Ok_bind.
  rewrite delete_insert_ne by done. rewrite lookup_insert_eq. cbn [mbind option_bind default].
  unfold show_string. rewrite list_ascii_of_string_of_list_ascii.
  rewrite parse_show_int by (done || lia). cbn.
  rewrite delete_insert_eq, delete_insert_id by (by rewrite lookup_delete_eq || done).
  destruct m as [fv uu lu si pa sn nri fri sch es ps]. unfold stored_manifest. cbn in *. do 2 f_equal;
    [|by apply delete_id]. rewrite map_map. apply map_ext_in. intros e Hin.
  apply of_to_ref. rewrite Forall_forall in He. by apply He, list_elem_of_In.
Qed.

Lemma pb_frame_head `{!Prost} p : exists rest, pb_frame p = MAGIC ++ rest.
Proof. by eexists. Qed.

(** Decoding what [to_protobuf] wrote, by the catalog's sniffing decoder. *)
Lemma decode_to_protobuf `{!Prost, !ProstLaws, !SchemaJson, !SchemaJsonLaws, !ManifestJson} m p :
  manifest_wf m -> to_pb m = Ok p -> Z.of_nat (length (pb_encode p)) < 2 ^ 32 ->
  to_protobuf m = Ok (pb_frame p) /\ from_protobuf (pb_frame p) = Ok (stored_manifest m) /\
  decode_manifest (pb_frame p) = Ok (stored_manifest m).
Proof.
  intros Hwf Hp Hl.
  assert (Hf : from_protobuf (pb_frame p) = Ok (stored_manifest m)).
  { unfold from_protobuf. rewrite pb_unframe_frame by done. by apply from_to_pb. }
  split; [unfold to_protobuf; by rewrite Hp|]. split; [done|].
  unfold decode_manifest. destruct (pb_frame_head p) as (rest & E).
  replace ((4 <=? length (pb_frame p))%nat && bytes_eqb (take 4 (pb_frame p)) MAGIC) with true; [done|].
  rewrite E, length_app. change (length MAGIC) with 4%nat. rewrite take_app_length' by done.
  by rewrite (proj2 (bytes_eqb_spec _ _)).
Qed.

(** ** Commits keep manifests serialisable *)
Section commit.
Context {B : Type} `{!Roaring B}.
Implicit Type t : SnapshotTransaction B.

Definition txn_wf t : Prop :=
  Forall (fun f => entry_wf (added_entry f 0)) (adds t) /\ props_wf (props t).

Lemma entry_wf_committed t locs e : entry_wf e -> entry_wf (committed t locs e).
Proof.
  unfold committed. destruct (dvs t !! me_path e); [|done].
  destruct (locs !! me_path e); [|done]. unfold entry_wf. cbn. naive_solver.
Qed.

Lemma assign_row_ids_wf c es es' c' :
  Forall entry_wf es -> assign_row_ids c es = Ok (es', c') -> Forall entry_wf es'.
Proof.
  intros H. revert c es' c'. induction H as [|e es He _ IH]; intros c es' c' E; cbn in E.
  { by simplify_eq. }
  destruct (me_first_row_id e).
  - destruct (assign_row_ids c es) as [[rest c2]|er|] eqn:E2; cbn in E; [|done..]. simplify_eq.
    constructor; eauto.
  - destruct (advance c _) as [c1|er|]; cbn in E; [|done..].
    destruct (assign_row_ids c1 es) as [[rest c2]|er|] eqn:E2; cbn in E; [|done..]. simplify_eq.
    constructor; [exact He|eauto].
Qed.

Lemma add_files_wf c fs es c' :
  Forall (fun f => entry_wf (added_entry f 0)) fs -> add_files c fs = Ok (es, c') ->
  Forall entry_wf es.
Proof.
  intros H. revert c es c'. induction H as [|f fs Hf _ IH]; intros c es c' E; cbn in E.
  { by simplify_eq. }
  destruct (advance c _) as [c1|er|]; cbn in E; [|done..].
  destruct (add_files c1 fs) as [[rest c2]|er|] eqn:E2; cbn in E; [|done..]. simplify_eq.
  constructor; [exact Hf|eauto].
Qed.

Lemma props_wf_union ps qs : props_wf ps -> props_wf qs -> props_wf (ps ∪ qs).
Proof. intros [H1 H2] [H3 H4]. split; by apply lookup_union_None. Qed.

Lemma apply_wf now uuid m t sid locs m' :
  manifest_wf m -> txn_wf t -> apply now uuid m t sid locs = Ok m' -> manifest_wf m'.
Proof.
  intros [Hv Hs He Hp] [Ha Hq]. unfold apply.
  destruct (bool_decide_reflect (dom (dvs t) ⊆ dom locs)) as [Hd|]; [|done]. cbn [negb].
  destruct (bool_decide _); [done|]. rewrite carry_forward_spec, Ok_bind by done.
  destruct (assign_row_ids _ _) as [[es c1]|er|] eqn:E1; [|done..]. rewrite Ok_bind.
  destruct (add_files c1 (adds t)) as [[added c2]|er|] eqn:E2; [|done..]. rewrite Ok_bind.
  destruct (_ <=? _); [done|]. intros [= <-]. split; cbn; [done|done| |by apply props_wf_union].
  apply Forall_app. split; [|by eapply add_files_wf]. eapply assign_row_ids_wf; [|exact E1].
  apply Forall_forall. intros x Hx. apply list_elem_of_In, in_map_iff in Hx as (e & <- & Hx).
  apply filter_In in Hx as [Hx%list_elem_of_In _]. apply entry_wf_committed.
  rewrite Forall_forall in He. by apply He.
Qed.
End commit.

(** ** Properties *)

(** C24. Manifests survive being written, but for their column statistics.
    For any manifest within the field widths, whose schema has no
    floating-point defaults, whose entries mirror their deletion vector in the
    embedded metadata and whose properties avoid the two reserved keys,
    [to_protobuf] succeeds and both [from_protobuf] and the catalog's
    [decode_manifest] return the manifest with every field as it was, except
    that no entry has column statistics any more; and a commit ([apply]) of
    such a manifest and a well-formed transaction is again such a manifest, so
    the property holds along every chain of snapshots. *)
Theorem manifest_protobuf_roundtrip `{!Prost, !ProstLaws, !SchemaJson, !SchemaJsonLaws, !ManifestJson}
    {B : Type} `{!Roaring B} m :
  manifest_wf m ->
  (exists p, to_pb m = Ok p /\
     (Z.of_nat (length (pb_encode p)) < 2 ^ 32 ->
      exists data, to_protobuf m = Ok data /\ from_protobuf data = Ok (stored_manifest m) /\
        decode_manifest data = Ok (stored_manifest m))) /\
  (forall now uuid (t : SnapshotTransaction B) sid locs m',
     txn_wf t -> apply now uuid m t sid locs = Ok m' -> manifest_wf m').
Proof.
  intros Hwf. split; [|intros; by eapply apply_wf].
  destruct (schema_to_json_total (m_schema m)) as [j Hj].
  eexists. split; [unfold to_pb; rewrite Hj; reflexivity|].
  intros Hl. eexists. apply decode_to_protobuf; [done| |exact Hl]. unfold to_pb. by rewrite Hj.
Qed.

(** ** Instances: messages and schemas written bit by bit *)
#[global] Instance FileFormat_countable : Countable FileFormat.
Proof.
  refine (inj_countable' (fun f => match f with Columnar => true | Dual => false end)
            (fun b => if b then Columnar else Dual) _). by intros [].
Defined.

#[global] Instance DataFileRef_eq_dec : EqDecision DataFileRef.
Proof. solve_decision. Defined.
#[global] Instance DataFileRef_countable : Countable DataFileRef.
Proof.
  refine (inj_countable
    (fun r => [encode (pb_path r); encode (pb_file_size r); encode (pb_num_rows r);
               encode (pb_level r); encode (pb_seq_min r); encode (pb_seq_max r);
               encode (pb_key_min r); encode (pb_key_max r); encode (pb_dv_path r);
               encode (pb_dv_offset r); encode (pb_dv_length r); encode (pb_status r);
               encode (pb_format r); encode (pb_first_row_id r)])
    (fun l => match l with
       | [a; b; c; d; e; f; g; h; i; j; k; m; n; o] =>
           a ← decode a; b ← decode b; c ← decode c; d ← decode d; e ← decode e; f ← decode f;
           g ← decode g; h ← decode h; i ← decode i; j ← decode j; k ← decode k; m ← decode m;
           n ← decode n; o ← decode o;
           Some {| pb_path := a; pb_file_size := b; pb_num_rows := c; pb_level := d;
                   pb_seq_min := e; pb_seq_max := f; pb_key_min := g; pb_key_max := h;
                   pb_dv_path := i; pb_dv_offset := j; pb_dv_length := k; pb_status := m;
                   pb_format := n; pb_first_row_id := o |}
       | _ => None end) _).
  by intros []; rewrite !decode_encode.
Defined.

Definition pb_codes (m : PbManifest) : list positive :=
  [encode (pbm_snapshot_id m); encode (pbm_sequence_number m); encode (pbm_schema_id m);
   encode (pbm_partition_spec_id m); encode (pbm_data_files m);
   encode (pbm_previous_snapshot_id m); encode (pbm_table_uuid m);
   encode (pbm_last_updated_ms m); encode (pbm_properties m); encode (pbm_last_column_id m);
   encode (pbm_next_row_id m); encode (pbm_first_row_id m)].

Definition codes_pb (l : list positive) : option PbManifest :=
  match l with
  | [a; b; c; d; e; f; g; h; i; j; k; m] =>
      a ← decode a; b ← decode b; c ← decode c; d ← decode d; e ← decode e; f ← decode f;
      g ← decode g; h ← decode h; i ← decode i; j ← decode j; k ← decode k; m ← decode m;
      Some {| pbm_snapshot_id := a; pbm_sequence_number := b; pbm_schema_id := c;
              pbm_partition_spec_id := d; pbm_data_files := e; pbm_previous_snapshot_id := f;
              pbm_table_uuid := g; pbm_last_updated_ms := h; pbm_properties := i;
              pbm_last_column_id := j; pbm_next_row_id := k; pbm_first_row_id := m |}
  | _ => None
  end.

#[export] Instance bits_prost : Prost := {
  pb_encode m := bits_of (encode (pb_codes m));
  pb_decode l := c ← decode (of_bits l); codes_pb c;
}.
#[export] Instance bits_prost_laws : ProstLaws.
Proof.
  split. intros m. cbn. rewrite of_bits_of, decode_encode. cbn [mbind option_bind].
  unfold codes_pb, pb_codes. rewrite !decode_encode. by destruct m.
Qed.

#[export] Instance no_manifest_json : ManifestJson := { manifest_from_json _ := None }.

Lemma ex_manifest_wf : manifest_wf ex_manifest.
Proof.
  split; [unfold in_i; cbn; lia|repeat constructor| |split; reflexivity].
  repeat (apply Forall_cons; split;
    [unfold entry_wf, in_u; cbn; split_and!; try lia; try reflexivity; tauto|]). constructor.
Qed.

Lemma ex_txn_wf : txn_wf ex_txn.
Proof.
  split; [|split; reflexivity].
  apply Forall_cons. split; [|constructor].
  unfold entry_wf, in_u; cbn; split_and!; try lia; try reflexivity; tauto.
Qed.

Lemma manifest_protobuf_roundtrip_witness :
  (exists data, to_protobuf ex_manifest = Ok data /\ from_protobuf data = Ok (stored_manifest ex_manifest) /\
     decode_manifest data = Ok (stored_manifest ex_manifest)) /\
  manifest_wf ex_committed.
Proof.
  destruct (manifest_protobuf_roundtrip (B := gset Z) ex_manifest ex_manifest_wf) as [(p & Hp & H) Ha].
  split; [|exact (Ha 9 "fresh"%string ex_txn 5 ex_locs ex_committed ex_txn_wf ex_apply)].
  apply H. vm_compute in Hp. injection Hp as <-. vm_compute. reflexivity.
Defined.
