(* ===== verification/Catalog.v ===== *)
(** * The catalog

    [src/crates/merutable/src/iceberg/catalog.rs]: the manifest snapshots of a
    table on disk, the version hint that names the current one, opening and
    refreshing a catalog, and the commit that is the linearization point of
    flushes and compactions.

    The disk is that of [Disk]; a path is relative to the catalog's base
    directory.  The clock and fresh UUIDs are arguments.  What an export
    to an Iceberg table writes is in [Iceberg] and [Export]. *)

From Stdlib Require Import Ascii.
From S2P Require Import Prelude Decimal Disk Sequence Schema LsmVersion DeletionVector Manifest ManifestPb.
Local Open Scope Z_scope.

(** ** Schema compatibility on reopen *)
Fixpoint check_columns (persisted provided : list ColumnDef) : res unit :=
  match persisted, provided with
  | pc :: persisted, vc :: provided =>
      if negb (String.eqb (name pc) (name vc)) then
        Err (SchemaMismatch "columns are positional and cannot be renamed or reordered")
      else if negb (bool_decide (col_type pc = col_type vc)) then
        Err (SchemaMismatch "column has another type persisted")
      else if negb (Bool.eqb (nullable pc) (nullable vc)) then
        Err (SchemaMismatch "column has another nullability persisted")
      else check_columns persisted provided
  | _, _ => Ok tt
  end.

Definition back_fillable (c : ColumnDef) : bool :=
  nullable c || bool_decide (is_Some (write_default c)) || bool_decide (is_Some (initial_default c)).

Definition check_schema_compatible (persisted provided : TableSchema) : res unit :=
  if negb (String.eqb (table_name persisted) (table_name provided)) then
    Err (SchemaMismatch "catalog at this path was created for another table")
  else if (length (columns provided) <? length (columns persisted))%nat then
    Err (SchemaMismatch "column removal is not supported")
  else
    _ ← check_columns (columns persisted) (columns provided);
    if negb (forallb back_fillable (drop (length (columns persisted)) (columns provided))) then
      Err (SchemaMismatch "new column is non-nullable and has no default")
    else if negb (bool_decide (primary_key persisted = primary_key provided)) then
      Err (SchemaMismatch "primary key cannot change")
    else Ok tt.

(** ** Paths *)
Definition slash : ascii := "/"%char.

(** The text after the last occurrence of [c], and the text before it. *)
Fixpoint rsplit (c : ascii) (cs : list ascii) : option (list ascii * list ascii) :=
  match cs with
  | [] => None
  | x :: cs' =>
      match rsplit c cs' with
      | Some (a, b) => Some (x :: a, b)
      | None => if Ascii.eqb x c then Some ([], cs') else None
      end
  end.

(** [Path::parent] and [Path::file_name] of a relative path. *)
Definition split_path (p : string) : path_t :=
  match rsplit slash (list_ascii_of_string p) with
  | Some (a, b) => (string_of_list_ascii a, string_of_list_ascii b)
  | None => (""%string, p)
  end.

Definition join_path (p : path_t) : string :=
  if String.eqb p.1 "" then p.2 else String.append p.1 (String.append "/" p.2).

(** [Path::file_stem]; [unknown] without a file name. *)
Definition file_stem (n : string) : string :=
  if String.eqb n "" || String.eqb n ".." then "unknown"
  else match rsplit "."%char (list_ascii_of_string n) with
       | Some (a :: l, _) => string_of_list_ascii (a :: l)
       | _ => n
       end.

Definition HINT : path_t := ("", "version-hint.text")%string.
Definition TMP_HINT : path_t := ("", "version-hint.text.tmp")%string.

Definition meta_pb (ver : Z) : path_t :=
  ("metadata"%string, String.append "v" (String.append (show_string ver) ".metadata.pb")).
Definition meta_json (ver : Z) : path_t :=
  ("metadata"%string, String.append "v" (String.append (show_string ver) ".metadata.json")).

Definition puffin_path (parquet_path : string) (snapshot_id : Z) : path_t :=
  let '(dir, file) := split_path parquet_path in
  (if String.eqb parquet_path "" then "data/L0"%string else dir,
   String.append (file_stem file)
     (String.append ".dv-" (String.append (show_string snapshot_id) ".puffin"))).

Definition hint_bytes (ver : Z) : bytes := bytes_of_chars (show_int ver).

(** ** The catalog *)
Record IcebergCatalog : Type := { cat_current : Manifest; cat_next_version : Z }.

Section catalog.
Context (crc32 : bytes -> Z) {B J : Type} `{!Roaring B, !FooterJson J}.
Context `{!Prost, !SchemaJson, !ManifestJson}.

(** [read_to_string], [trim] and [parse]. *)
Definition parse_hint (b : bytes) : option Z := parse_int 64 (chars_of_bytes (trim b)).

Definition read_hint : io (res Z) :=
  b <-? io_read HINT;
  if negb (utf8_ok b) then mret (Err Io)
  else mret (ok_or (parse_hint b) (Corruption "bad version-hint")).

Definition read_manifest_payload (ver : Z) : io (res bytes) :=
  b <-? io_read_opt (meta_pb ver);
  match b with
  | Some data => mret (Ok data)
  | None => io_read (meta_json ver)
  end.

Definition read_manifest (ver : Z) : io (res Manifest) :=
  data <-? read_manifest_payload ver; mret (decode_manifest data).

Definition load_persisted_schema : io (res (option TableSchema)) :=
  e ← io_exists HINT;
  if negb e then mret (Ok None)
  else ver <-? read_hint; m <-? read_manifest ver; mret (Ok (Some (m_schema m))).

Definition with_uuid (uuid : string) (m : Manifest) : Manifest :=
  if String.eqb (table_uuid m) "" then
    {| format_version := format_version m; table_uuid := uuid;
       last_updated_ms := last_updated_ms m; m_snapshot_id := m_snapshot_id m;
       parent_snapshot_id := parent_snapshot_id m; sequence_number := sequence_number m;
       next_row_id := next_row_id m; m_first_row_id := m_first_row_id m; m_schema := m_schema m;
       m_entries := m_entries m; properties := properties m |}
  else m.

Definition has_suffix (s : string) (n : string) : bool :=
  let a := list_ascii_of_string n in
  let b := list_ascii_of_string s in
  (length b <=? length a)%nat && bool_decide (drop (length a - length b) a = b).

Definition is_metadata_name (n : string) : bool :=
  bool_decide (head (list_ascii_of_string n) = Some "v"%char)
  && (has_suffix ".metadata.json" n || has_suffix ".metadata.pb" n).

Definition catalog_open (s : TableSchema) (uuid : string) (now_ms : Z) : io (res IcebergCatalog) :=
  io_create_dir_all "metadata" ;? io_create_dir_all "data" ;?
  t ← io_exists TMP_HINT;
  _ ← (if (t : bool) then io_remove TMP_HINT else mret (Ok tt));
  e ← io_exists HINT;
  if (e : bool) then
    ver <-? read_hint;
    m <-? read_manifest ver;
    let m := with_uuid uuid m in
    mret (check_schema_compatible (m_schema m) s) ;?
    mret (if 2 ^ 63 - 1 <=? ver then Panic
          else Ok {| cat_current := m; cat_next_version := ver + 1 |})
  else
    names ← io_names "metadata";
    if existsb is_metadata_name (default [] names) then
      mret (Err (Corruption "version-hint.text is missing but metadata contains snapshot files"))
    else mret (Ok {| cat_current := manifest_empty_with_uuid s uuid now_ms; cat_next_version := 1 |}).

Definition refresh (s : TableSchema) : io (res (IcebergCatalog * Version)) :=
  ver <-? read_hint;
  m <-? read_manifest ver;
  mret (if 2 ^ 63 - 1 <=? ver then Panic
        else Ok ({| cat_current := m; cat_next_version := ver + 1 |}, to_version m s)).

(** ** Commit *)

(** The deletion vector to write for a file: the one it has, if any, with the
    new positions added. *)
Definition merge_dv (cur : Manifest) (parquet_path : string) (new_dv : DeletionVector B)
    : io (res (DeletionVector B)) :=
  match List.find (fun e => is_live e && String.eqb (me_path e) parquet_path) (m_entries cur) with
  | Some e =>
      match me_dv_path e, me_dv_offset e, me_dv_length e with
      | Some p, Some offset, Some len =>
          data <-? io_read (split_path p);
          if (offset <? 0) || (len <? 0) then
            mret (Err (Corruption "existing DV has negative offset or length"))
          else if u64_max <? offset + len then
            mret (Err (Corruption "existing DV offset + length overflows usize"))
          else if Z.of_nat (length data) <? offset + len then
            mret (Err (Corruption "existing DV blob exceeds puffin file size"))
          else
            existing <-? mret (blob ← slice data (Z.to_nat offset) (Z.to_nat len);
                               from_puffin_blob crc32 blob);
            let merged := union_with new_dv existing in
            if cardinality merged <? Z.max (cardinality existing) (cardinality new_dv) then
              mret (Err (Corruption "DV union shrank"))
            else mret (Ok merged)
      | _, _, _ => mret (Ok new_dv)
      end
  | None => mret (Ok new_dv)
  end.

Fixpoint upload_dvs (cur : Manifest) (sid : Z) (dvs : list (string * DeletionVector B))
    (locs : gmap string DvLocation) (pending : list path_t)
    : io (res (gmap string DvLocation * list path_t)) :=
  match dvs with
  | [] => mret (Ok (locs, pending))
  | (parquet_path, new_dv) :: dvs =>
      merged <-? merge_dv cur parquet_path new_dv;
      encoded <-? mret (encode_puffin crc32 (J := J) merged parquet_path sid sid);
      let p := puffin_path parquet_path sid in
      io_create_dir_all p.1 ;?
      io_write p (pe_bytes encoded) ;?
      io_sync p ;?
      io_sync_dir p.1 ;?
      upload_dvs cur sid dvs
        (<[parquet_path := {| loc_path := join_path p; loc_offset := blob_offset encoded;
                              loc_length := blob_length encoded |}]> locs)
        (pending ++ [p])
  end.

(** The part of [commit] whose failure removes the uploaded files again. *)
Definition publish (m : Manifest) (sid : Z) : io (res unit) :=
  data <-? mret (to_protobuf m);
  io_write (meta_pb sid) data ;?
  io_sync (meta_pb sid) ;?
  io_sync_dir "metadata" ;?
  io_write TMP_HINT (hint_bytes sid) ;?
  io_sync TMP_HINT ;?
  io_rename "" TMP_HINT.2 HINT.2 ;?
  io_sync_dir "".

Fixpoint remove_all (ps : list path_t) : io unit :=
  match ps with
  | [] => mret tt
  | p :: ps => _ ← io_remove p; remove_all ps
  end.

(** [dv_order] is the order in which the deletion vectors of the transaction,
    a [HashMap], are visited. *)
Definition commit (dv_order : list (string * DeletionVector B)) (cat : IcebergCatalog)
    (t : SnapshotTransaction B) (s : TableSchema) (uuid : string) (now_ms : Z)
    : io (IcebergCatalog * res Version) :=
  let sid := cat_next_version cat in
  up ← upload_dvs (cat_current cat) sid dv_order ∅ [];
  match up with
  | Err e => mret (cat, Err e)
  | Panic => mret (cat, Panic)
  | Ok (locs, pending) =>
      result ← (m <-? mret (apply now_ms uuid (cat_current cat) t sid locs);
                publish m sid ;? mret (Ok m));
      match result with
      | Ok m =>
          if 2 ^ 63 - 1 <=? sid then mret (cat, Panic)
          else mret ({| cat_current := m; cat_next_version := sid + 1 |}, Ok (to_version m s))
      | Err e => _ ← remove_all pending; mret (cat, Err e)
      | Panic => mret (cat, Panic)
      end
  end.
End catalog.

(** ** Names of the catalog's files differ *)
Lemma append_ascii a b :
  list_ascii_of_string (String.append a b) = list_ascii_of_string a ++ list_ascii_of_string b.
Proof. induction a as [|x a IH]; [done|]. exact (f_equal (cons x) IH). Qed.

Lemma string_ascii_inj a b : list_ascii_of_string a = list_ascii_of_string b -> a = b.
Proof.
  intros H. rewrite <- (string_of_list_ascii_of_string a), H. apply string_of_list_ascii_of_string.
Qed.

Lemma append_inj_l a b c : String.append a b = String.append a c -> b = c.
Proof. induction a as [|x a IH]; [done|]. intros E. apply IH. by injection E. Qed.

(** Texts with different ends of the same length. *)
Lemma suffix_neq a b s t :
  String.length s = String.length t -> s <> t -> String.append a s <> String.append b t.
Proof.
  intros Hl Hn E. apply (f_equal list_ascii_of_string) in E.
  rewrite !append_ascii in E.
  apply app_inj_2 in E as [_ E]; [by apply Hn, string_ascii_inj|].
  assert (L : forall s, length (list_ascii_of_string s) = String.length s)
    by (induction s0 as [|? ? IH]; cbn; congruence).
  by rewrite !L.
Qed.

Lemma append_inj_r a b s : String.append a s = String.append b s -> a = b.
Proof.
  intros E. apply (f_equal list_ascii_of_string) in E. rewrite !append_ascii in E.
  apply app_inv_tail in E. by apply string_ascii_inj.
Qed.

Lemma append_assoc a b c : String.append (String.append a b) c = String.append a (String.append b c).
Proof. induction a as [|x a IH]; [done|]. exact (f_equal (String x) IH). Qed.

Lemma show_string_inj a b : in_i 64 a -> in_i 64 b -> show_string a = show_string b -> a = b.
Proof.
  intros Ha Hb E. apply (f_equal list_ascii_of_string) in E. unfold show_string in E.
  rewrite !list_ascii_of_string_of_list_ascii in E.
  pose proof (parse_show_int 64 a ltac:(lia) Ha) as Pa.
  rewrite E, (parse_show_int 64 b ltac:(lia) Hb) in Pa. congruence.
Qed.

Lemma meta_pb_inj a b : in_i 64 a -> in_i 64 b -> meta_pb a = meta_pb b -> a = b.
Proof.
  intros Ha Hb [= E]. apply show_string_inj; [done..|]. exact (append_inj_r (show_string a) (show_string b) _ E).
Qed.

(** A name by its last seven characters. *)
Definition ends (n s : string) : Prop := exists a, n = String.append a s.

Lemma ends_neq n m s t : ends n s -> ends m t -> String.length s = String.length t -> s <> t -> n <> m.
Proof. intros [a ->] [b ->] Hl Hn. by apply suffix_neq. Qed.

Lemma ends_pb v : ends (meta_pb v).2 "data.pb".
Proof.
  exists (String.append "v" (String.append (show_string v) ".meta")). cbn [meta_pb snd].
  by rewrite !append_assoc.
Qed.
Lemma ends_json v : ends (meta_json v).2 "ta.json".
Proof.
  exists (String.append "v" (String.append (show_string v) ".metada")). cbn [meta_json snd].
  by rewrite !append_assoc.
Qed.
Lemma ends_hint : ends HINT.2 "nt.text".
Proof. by exists "version-hi"%string. Qed.
Lemma ends_tmp : ends TMP_HINT.2 "ext.tmp".
Proof. by exists "version-hint.t"%string. Qed.
Lemma ends_puffin p v : ends (puffin_path p v).2 ".puffin".
Proof.
  unfold puffin_path. destruct (split_path p) as [dir file]. cbn [snd].
  exists (String.append (file_stem file) (String.append ".dv-" (show_string v))).
  by rewrite !append_assoc.
Qed.

Lemma path_neq (p q : path_t) s t :
  ends p.2 s -> ends q.2 t -> String.length s = String.length t -> s <> t -> p <> q.
Proof. intros Hp Hq Hl Hn ->. by apply (ends_neq q.2 q.2 s t). Qed.

Create HintDb paths.
#[export] Hint Resolve ends_pb ends_json ends_hint ends_tmp ends_puffin : paths.
Ltac solve_paths := eapply path_neq; [solve [eauto with paths]..|reflexivity|discriminate].

(** ** The state of a catalog on disk *)

(** The version hint is renamed from its temporary name. *)
Definition GH (p : path_t) : Prop := p = HINT \/ p = TMP_HINT.

(** What a change that leaves the files named by [S] alone keeps. *)
Definition keeps (S : path_t -> Prop) (d d' : Disk) : Prop :=
  (tidy GH d -> tidy GH d') /\
  forall p, S p -> (forall b, durable d p b -> durable d' p b) /\ (absent d p -> absent d' p).

Lemma keeps_trans S d1 d2 d3 : keeps S d1 d2 -> keeps S d2 d3 -> keeps S d1 d3.
Proof. intros [T1 K1] [T2 K2]. split; [auto|]. intros p Hp. destruct (K1 p Hp), (K2 p Hp). auto. Qed.

Lemma keeps_mono (S S' : path_t -> Prop) d d' : (forall p, S' p -> S p) -> keeps S d d' -> keeps S' d d'.
Proof. intros H [T K]. split; auto. Qed.

Lemma keeps_write (S : path_t -> Prop) q c d : ~ S q -> keeps S d (write_file q c d).
Proof.
  intros Hq. split; [apply tidy_write|]. intros p Hp. assert (q <> p) as Hqp by (by intros ->).
  split; [intros b [i H]; exists i; by apply pinned_write|by apply absent_write].
Qed.

Lemma keeps_sync_file S q d : keeps S d (sync_file q d).
Proof.
  split; [apply tidy_sync_file|]. intros p _.
  split; [intros b [i H]; exists i; by apply pinned_sync_file|].
  intros H. eapply absent_sub; [exact H|]. intros r o. by rewrite (poss_dirs d) by apply sync_file_dirs.
Qed.

Lemma keeps_sync_dir S dn d : keeps S d (sync_dir dn d).
Proof.
  split; [apply tidy_sync_dir|]. intros p _.
  split; [intros b [i H]; exists i; by apply pinned_sync_dir|].
  intros H. eapply absent_sub; [exact H|]. intros r o. rewrite poss_sync_dir.
  intros [[_ ->]|[_ ?]]; [apply poss_current|done].
Qed.

Lemma keeps_remove (S : path_t -> Prop) q d : ~ S q -> keeps S d (remove_path q d).
Proof.
  intros Hq. split; [apply tidy_remove|]. intros p Hp. assert (q <> p) as Hqp by (by intros ->).
  split; [intros b [i H]; exists i; by apply pinned_remove|apply absent_remove].
Qed.

Lemma keeps_sub (S : path_t -> Prop) d d' :
  (forall r o, poss d' r o -> poss d r o \/ (~ S r /\ o = None)) ->
  inodes d' = inodes d -> next_ino d' = next_ino d -> keeps S d d'.
Proof.
  intros Hp Hi Hn. split.
  - intros T. eapply tidy_sub; [exact T| |done|by rewrite Hi].
    by intros p i [?|[_ ?]]%Hp.
  - intros p HS. split.
    + intros b [i [H1 H2 H3 H4]]. exists i. split; [|unfold holds; by rewrite Hi| |by rewrite Hn].
      * intros o [?|[? _]]%Hp; [auto|done].
      * intros q [?|[_ ?]]%Hp; [auto|done].
    + intros Ha o [?|[_ ?]]%Hp; auto.
Qed.

Lemma keeps_crash S d d' : crash d d' -> keeps S d d'.
Proof.
  intros H. split; [intros; by eapply tidy_crash|]. intros p _.
  split; [intros b [i Hi]; exists i; by eapply pinned_crash|].
  intros Ha. eapply absent_sub; [exact Ha|]. intros; by eapply poss_crash.
Qed.

Lemma keeps_rename (S : path_t -> Prop) d :
  ~ S HINT -> ~ S TMP_HINT -> keeps S d (rename_file "" TMP_HINT.2 HINT.2 d).
Proof.
  intros H1 H2. split; [apply tidy_rename; [by right|by left]|]. intros p Hp.
  assert (p <> HINT /\ p <> TMP_HINT) as [E1 E2] by (split; by intros ->).
  split; [intros b [i H]; exists i; by apply pinned_rename|by apply absent_rename].
Qed.

Definition meta_of (ver : Z) (p : path_t) : Prop := p = meta_pb ver \/ p = meta_json ver.
Definition cat_path (ver : Z) (p : path_t) : Prop := p = HINT \/ meta_of ver p.

Section durability.
Context `{PR : !Prost, SJ : !SchemaJson, MJ : !ManifestJson}.

(** The manifest [m] is stored as version [ver]: what was written decodes to it,
    without its column statistics. *)
Definition payload (d : Disk) (ver : Z) (m : Manifest) : Prop :=
  exists data, decode_manifest data = Ok (stored_manifest m) /\
    (durable d (meta_pb ver) data \/ (absent d (meta_pb ver) /\ durable d (meta_json ver) data)).

(** The catalog is at version [ver], with manifest [m], and stays so whatever
    a crash loses. *)
Record CatInv (d : Disk) (ver : Z) (m : Manifest) : Prop := {
  ci_tidy : tidy GH d;
  ci_hint : durable d HINT (hint_bytes ver);
  ci_payload : payload d ver m;
  ci_ver : in_i 64 ver;
}.

Lemma payload_keeps S d d' ver m :
  (forall p, meta_of ver p -> S p) -> keeps S d d' -> payload d ver m -> payload d' ver m.
Proof.
  intros HS [_ K] (data & Hd & Hm). exists data. split; [done|].
  destruct (K (meta_pb ver)) as [Kd Ka]; [apply HS; by left|].
  destruct (K (meta_json ver)) as [Kj _]; [apply HS; by right|].
  destruct Hm as [Hm|[Ha Hm]]; [left|right]; auto.
Qed.

Lemma CatInv_keeps S d d' ver m :
  (forall p, cat_path ver p -> S p) -> keeps S d d' -> CatInv d ver m -> CatInv d' ver m.
Proof.
  intros HS K [T Hh P V]. split; [by apply K|by apply K; [apply HS; left|]| |done].
  eapply payload_keeps; [|exact K|done]. intros p Hp. apply HS. by right.
Qed.

(** What a commit must not disturb: a condition on the files named by
    [old_path]. *)
Record Kept : Type := {
  Old : Disk -> Prop;
  old_path : path_t -> Prop;
  old_keeps d d' : keeps old_path d d' -> Old d -> Old d';
  Old_tidy d : Old d -> tidy GH d;
}.

Lemma Old_keeps (S : path_t -> Prop) old d d' :
  (forall p, old_path old p -> S p) -> keeps S d d' -> Old old d -> Old old d'.
Proof. intros HS K. apply old_keeps. by eapply keeps_mono. Qed.

(** After a crash the catalog is at the old version or at the new one. *)
Definition Either old (sid : Z) (m' : Manifest) (d : Disk) : Prop :=
  forall d', crash d d' -> Old old d' \/ CatInv d' sid m'.

Lemma Old_Either old sid m' d : Old old d -> Either old sid m' d.
Proof. intros HO d' Hc. left. eapply Old_keeps; [intros p Hp; exact Hp|by apply keeps_crash|done]. Qed.

Lemma Either_remove old sid m' q d :
  ~ old_path old q -> ~ cat_path sid q -> Either old sid m' d -> Either old sid m' (remove_path q d).
Proof.
  intros H1 H2 HE d' (d0 & Hc & Hi & Hn & Hp)%crash_remove.
  destruct (HE d0 Hc) as [HO|HC]; [left|right].
  - eapply Old_keeps; [intros p Hp'; exact Hp'| |exact HO]. apply keeps_sub; [|done..].
    intros r o [?|[-> ->]]%Hp; [by left|by right].
  - eapply CatInv_keeps; [intros p Hp'; exact Hp'| |exact HC]. apply keeps_sub; [|done..].
    intros r o [?|[-> ->]]%Hp; [by left|by right].
Qed.

(** *** The rename of the version hint *)

(** Everything is in place but the hint. *)
Record Staged (old : Kept) (sid : Z) (m' : Manifest) (d : Disk) : Prop := {
  st_old : Old old d;
  st_payload : payload d sid m';
  st_tmp : written d TMP_HINT (hint_bytes sid) true;
}.

Lemma Staged_renamed old sid m' d d' :
  in_i 64 sid -> Staged old sid m' d ->
  keeps (meta_of sid) (rename_file "" TMP_HINT.2 HINT.2 d) d' ->
  (forall r o, poss d' r o -> poss (rename_file "" TMP_HINT.2 HINT.2 d) r o) ->
  (forall i b, holds d i b -> holds d' i b) -> next_ino d' = next_ino d ->
  (forall i, lookup_path d TMP_HINT = Some i -> surely d' HINT (Some i)) ->
  surely d' TMP_HINT None ->
  CatInv d' sid m'.
Proof.
  intros Hs [HO HP (j & Hj & Hd)] K Hp Hh Hn Hsure Htmp.
  assert (T : tidy GH (rename_file "" TMP_HINT.2 HINT.2 d)).
  { apply tidy_rename; [by right|by left|by eapply Old_tidy]. }
  split; [by apply K| | |done].
  - exists j. split; [by apply Hsure|by apply Hh| |].
    + intros q Hq. destruct (decide (q = HINT)) as [|Hqh]; [done|].
      assert (q <> TMP_HINT). { intros ->. by apply Htmp in Hq. }
      apply Hp in Hq. pose proof (poss_rename _ _ _ _ _ _ Hq) as [Hq'|[[-> _]|[_ ?]]]; [|done..].
      assert (HT : poss d TMP_HINT (Some j)) by (rewrite <- Hj; apply poss_current).
      destruct (tidy_share _ _ (Old_tidy _ _ HO) _ _ _ HT Hq') as [<-|[_ [?|?]]]; done.
    + rewrite Hn. assert (HT : poss d TMP_HINT (Some j)) by (rewrite <- Hj; apply poss_current).
      by apply (tidy_ino _ _ (Old_tidy _ _ HO) _ _ HT).
  - eapply payload_keeps; [intros p Hp'; exact Hp'|exact K|].
    eapply payload_keeps; [intros p Hp'; exact Hp'| |exact HP].
    apply keeps_rename; intros [E|E]; discriminate (f_equal fst E).
Qed.

Lemma rename_synced old sid m' d :
  in_i 64 sid -> Staged old sid m' d ->
  CatInv (sync_dir "" (rename_file "" TMP_HINT.2 HINT.2 d)) sid m'.
Proof.
  intros Hs HS. pose proof HS as [HO HP (j & Hj & Hd)].
  assert (El : forall p, lookup_path (rename_file "" TMP_HINT.2 HINT.2 d) p
             = if bool_decide (p = HINT) then Some j else if bool_decide (p = TMP_HINT) then None
               else lookup_path d p).
  { intros [p1 p2]. unfold rename_file. change ("", TMP_HINT.2)%string with TMP_HINT. rewrite Hj.
    rewrite lookup_path_change. cbn [effect fst snd]. unfold HINT, TMP_HINT in *. cbn [snd].
    repeat case_bool_decide; naive_solver. }
  assert (Hsub : forall r o, poss (sync_dir "" (rename_file "" TMP_HINT.2 HINT.2 d)) r o ->
            poss (rename_file "" TMP_HINT.2 HINT.2 d) r o).
  { intros r o. rewrite poss_sync_dir. intros [[_ ->]|[_ ?]]; [apply poss_current|done]. }
  destruct (rename_inodes "" TMP_HINT.2 HINT.2 d) as [Ei En].
  eapply Staged_renamed; [done|exact HS|apply keeps_sync_dir|done|..].
  - intros i b. unfold holds, sync_dir, set_dir. cbn [inodes]. by rewrite Ei.
  - done.
  - intros i [= <-]%(eq_trans (eq_sym Hj)) o. rewrite poss_sync_dir. intros [[_ ->]|[? _]]; [|done].
    by rewrite El.
  - intros o. rewrite poss_sync_dir. intros [[_ ->]|[? _]]; [|done]. by rewrite El.
Qed.

Lemma rename_crashed old sid m' d :
  in_i 64 sid -> Staged old sid m' d ->
  Either old sid m' (rename_file "" TMP_HINT.2 HINT.2 d).
Proof.
  intros Hs HS d' Hc. pose proof HS as [HO HP (j & Hj & Hd)].
  pose proof Hc as Hc'. unfold rename_file in Hc'. change ("", TMP_HINT.2)%string with TMP_HINT in Hc'.
  rewrite Hj in Hc'.
  apply crash_change in Hc' as [Hc'|(d0 & m & H & S0 & S1 & Hi & Hn & He)].
  { left. eapply Old_keeps; [intros p Hp; exact Hp|by apply keeps_crash|done]. }
  right. eapply Staged_renamed; [done|exact HS|by apply keeps_crash|intros; by eapply poss_crash| | | |].
  - intros i b Hb. destruct (crash_inodes _ _ Hc i {| i_data := b; i_synced := true |})
      as ([c sy] & Hf & Hsy & Hda).
    { destruct (rename_inodes "" TMP_HINT.2 HINT.2 d) as [-> _]. exact Hb. }
    cbn in *. unfold holds. by rewrite Hf, Hsy, Hda.
  - rewrite (crash_next _ _ Hc). apply rename_inodes.
  - intros i [= <-]%(eq_trans (eq_sym Hj)) o. rewrite (poss_settled _ HINT _ _ S1). cbn.
    by rewrite lookup_insert_eq.
  - intros o. rewrite (poss_settled _ TMP_HINT _ _ S1). cbn.
    by rewrite lookup_insert_ne, lookup_delete_eq.
Qed.
End durability.

Lemma tmp_not_cat ver : ~ cat_path ver TMP_HINT.
Proof. intros [E|[E|E]]; [discriminate (f_equal snd E)|discriminate (f_equal fst E)..]. Qed.
Lemma puffin_not_cat ver p sid : ~ cat_path ver (puffin_path p sid).
Proof. intros [E|[E|E]]; revert E; solve_paths. Qed.
Lemma hint_not_meta ver : ~ meta_of ver HINT.
Proof. intros [E|E]; discriminate (f_equal fst E). Qed.

(** *** Opening finds the stored version *)
Lemma parse_hint_bytes ver : in_i 64 ver -> parse_hint (hint_bytes ver) = Some ver.
Proof.
  intros Hv. unfold parse_hint, hint_bytes. rewrite trim_plain by (by apply show_int_plain).
  rewrite chars_of_bytes_of_chars. apply parse_show_int; [lia|done].
Qed.

Lemma utf8_plain l : Forall plain l -> utf8_ok l = true.
Proof.
  induction 1 as [|x l Hx _ IH]; [done|]. cbn [utf8_ok]. unfold plain in Hx.
  destruct (between 0 0x7F x) eqn:Eb; [exact IH|]. unfold between in Eb. lia.
Qed.

Section opening.
Context `{PR : !Prost, SJ : !SchemaJson, MJ : !ManifestJson}.

Lemma runs_read_hint d ver : in_i 64 ver -> durable d HINT (hint_bytes ver) -> runs read_hint d d (Ok ver).
Proof.
  intros Hv Hd. eapply runs_try; [by apply runs_read, durable_read|].
  rewrite utf8_plain by (by apply show_int_plain). cbn [negb]. rewrite parse_hint_bytes by done.
  apply runs_ret.
Qed.

Lemma runs_read_manifest d ver m : payload d ver m -> runs (read_manifest ver) d d (Ok (stored_manifest m)).
Proof.
  intros (data & Hdec & Hd). eapply runs_try; [|rewrite Hdec; apply runs_ret].
  destruct Hd as [Hd|[Ha Hd]].
  - eapply runs_try; [apply runs_syscall; by rewrite (durable_read _ _ _ Hd)|apply runs_ret].
  - eapply runs_try; [apply runs_syscall; by rewrite (absent_read _ _ Ha)|].
    by apply runs_read, durable_read.
Qed.

(** What [open] makes of a catalog at a version: the manifest without its
    column statistics. *)
Definition reopens (s : TableSchema) (d : Disk) (ver : Z) (m : Manifest) : Prop :=
  forall uuid now_ms, exists d',
    run (catalog_open s uuid now_ms) d
    = (d', Val (Ok {| cat_current := with_uuid uuid (stored_manifest m); cat_next_version := ver + 1 |})) /\
    CatInv d' ver m.

Lemma schema_with_uuid uuid m : m_schema (with_uuid uuid m) = m_schema m.
Proof. unfold with_uuid. by destruct (String.eqb _ _). Qed.

Lemma CatInv_reopens s d ver m :
  CatInv d ver m -> ver < 2 ^ 63 - 1 -> check_schema_compatible (m_schema m) s = Ok tt ->
  reopens s d ver m.
Proof.
  intros HC Hv Hs uuid now_ms.
  assert (exists d1, CatInv d1 ver m /\
    runs (t ← io_exists TMP_HINT; if (t : bool) then io_remove TMP_HINT else mret (Ok tt)) d d1 (Ok tt))
    as (d1 & HC1 & R1).
  { destruct (lookup_path d TMP_HINT) as [i|] eqn:E.
    - exists (remove_path TMP_HINT d). split.
      + eapply CatInv_keeps; [intros p Hp; exact Hp| |done]. apply keeps_remove, tmp_not_cat.
      + eapply runs_bind; [by apply runs_syscall; rewrite E|]. apply runs_syscall. by rewrite E.
    - exists d. split; [done|]. eapply runs_bind; [by apply runs_syscall; rewrite E|]. apply runs_ret. }
  exists d1. split; [|done]. apply runs_run. unfold catalog_open.
  eapply runs_try; [by apply runs_syscall|]. eapply runs_try; [by apply runs_syscall|].
  intros n. destruct (R1 n) as [n1 E1]. revert E1.
  pose proof HC1 as [_ [i Hh] Hp Hver].
  assert (R2 : runs (e ← io_exists HINT;
    if (e : bool) then
      ver <-? read_hint; m <-? read_manifest ver; let m := with_uuid uuid m in
      mret (check_schema_compatible (m_schema m) s) ;?
      mret (if 2 ^ 63 - 1 <=? ver then Panic
            else Ok {| cat_current := m; cat_next_version := ver + 1 |})
    else
      names ← io_names "metadata";
      if existsb is_metadata_name (default [] names) then
        mret (Err (Corruption "version-hint.text is missing but metadata contains snapshot files"))
      else mret (Ok {| cat_current := manifest_empty_with_uuid s uuid now_ms; cat_next_version := 1 |}))
    d1 d1 (Ok {| cat_current := with_uuid uuid (stored_manifest m); cat_next_version := ver + 1 |})).
  { eapply runs_bind; [apply runs_syscall; by rewrite (surely_lookup _ _ _ (pin_name _ _ _ _ Hh))|].
    rewrite bool_decide_true by eauto.
    eapply runs_try; [apply runs_read_hint; [done|by exists i]|].
    eapply runs_try; [by apply runs_read_manifest|]. cbv zeta.
    rewrite schema_with_uuid. cbn [m_schema stored_manifest]. rewrite Hs, io_try_ok. destruct (Z.leb_spec (2 ^ 63 - 1) ver); [lia|].
    apply runs_ret. }
  destruct (R2 n1) as [n2 E2]. intros E1. exists n2. rewrite <- E2.
  unfold mbind, io_bind in *. destruct (io_exists TMP_HINT _ _) as [w [b|]]; [|done]. by rewrite E1.
Qed.
End opening.

Section publish.
Context `{PR : !Prost, SJ : !SchemaJson, MJ : !ManifestJson}.
Context (old : Kept) (sid : Z) (m' : Manifest).
Context (Hsid : in_i 64 sid) (Hnew : ~ old_path old (meta_pb sid)).
Context (Htmp : ~ old_path old TMP_HINT).
Context (Henc : forall data, to_protobuf m' = Ok data -> decode_manifest data = Ok (stored_manifest m')).

(** Files the commit must not disturb. *)
Context (P0 : path_t -> Prop) (F : Disk -> Prop).
Context (HF : forall d d', keeps P0 d d' -> F d -> F d').
Context (P0_meta : ~ P0 (meta_pb sid)) (P0_hint : ~ P0 HINT) (P0_tmp : ~ P0 TMP_HINT).

Definition base d : Prop := Old old d /\ F d.

Lemma base_keeps d d' : keeps (fun p => old_path old p \/ P0 p) d d' -> base d -> base d'.
Proof.
  intros K [HO Hf]. split.
  - eapply Old_keeps; [|exact K|done]. by left.
  - eapply HF; [|exact Hf]. eapply keeps_mono; [|exact K]. by right.
Qed.

Lemma base_Either d : base d -> Either old sid m' d.
Proof. intros [HO _]. by apply Old_Either. Qed.

Definition done_or_either (r : res unit) (d : Disk) : Prop :=
  match r with
  | Ok _ => CatInv d sid m' /\ F d
  | _ => Either old sid m' d
  end.

(** A step that keeps what must be kept, with [P] before and [Q] after. *)
Lemma keep_step (P Q : Disk -> Prop) (ok : Disk -> Disk * res unit) fail k :
  (forall d, P d -> base d) ->
  (forall d, base d -> P d -> (exists e, ok d = (d, Err e)) \/ (exists d', ok d = (d', Ok tt) /\ Q d')) ->
  (forall d junk, base d -> P d -> exists d' e, fail junk d = (d', Err e) /\ base d') ->
  triple Q k done_or_either (Either old sid m') ->
  triple P (io_try (fun _ : unit => k) (syscall ok fail)) done_or_either (Either old sid m').
Proof.
  intros HP Hok Hf Hk. eapply triple_try; [|intros []; exact Hk]. apply triple_syscall.
  - intros d Hd. by apply base_Either, HP.
  - intros d Hd. destruct (Hok d (HP d Hd) Hd) as [[e ->]|(d' & -> & HQ)]; cbn; [|done].
    by apply base_Either, HP.
  - intros d junk Hd. destruct (Hf d junk (HP d Hd) Hd) as (d' & e & -> & Hb). cbn. by apply base_Either.
Qed.

Lemma meta_not_GH ver : ~ GH (meta_pb ver).
Proof. intros [E|E]; discriminate (f_equal fst E). Qed.

Lemma publish_spec : triple base (publish m' sid) done_or_either (Either old sid m').
Proof.
  unfold publish. destruct (to_protobuf m') as [data|e|] eqn:E;
    [|intros sched w Hb; by apply base_Either..].
  specialize (Henc data eq_refl). change (triple base (io_write (meta_pb sid) data ;?
    io_sync (meta_pb sid) ;? io_sync_dir "metadata" ;? io_write TMP_HINT (hint_bytes sid) ;?
    io_sync TMP_HINT ;? io_rename "" TMP_HINT.2 HINT.2 ;? io_sync_dir "")
    done_or_either (Either old sid m')).
  assert (Km : forall c d, base d -> base (write_file (meta_pb sid) c d)).
  { intros c d. apply base_keeps, keeps_write. by intros [?|?]. }
  assert (Kt : forall c d, base d -> base (write_file TMP_HINT c d)).
  { intros c d. apply base_keeps, keeps_write. by intros [?|?]. }
  assert (Ks : forall q d, base d -> base (sync_file q d)).
  { intros q d. apply base_keeps, keeps_sync_file. }
  assert (Kd : forall q d, base d -> base (sync_dir q d)).
  { intros q d. apply base_keeps, keeps_sync_dir. }
  apply (keep_step _ (fun d => base d /\ written d (meta_pb sid) data false)); [done| |eauto|].
  { intros d Hb _. right. eexists. split; [done|]. split; [auto|apply written_write]. }
  apply (keep_step _ (fun d => base d /\ written d (meta_pb sid) data true)); [by intros d []| |eauto|].
  { intros d Hb [_ Hw]. right. destruct (Hw) as (i & -> & _). eexists. split; [done|].
    split; [auto|by eapply written_sync]. }
  apply (keep_step _ (fun d => base d /\ durable d (meta_pb sid) data)); [by intros d []| |eauto|].
  { intros d Hb [_ Hw]. right. eexists. split; [done|]. split; [auto|].
    apply (written_sync_dir GH (meta_pb sid)); [eapply Old_tidy, Hb|apply meta_not_GH|done]. }
  apply (keep_step _ (fun d => base d /\ durable d (meta_pb sid) data /\
           written d TMP_HINT (hint_bytes sid) false)); [by intros d []| |eauto|].
  { intros d Hb [_ [i Hw]]. right. eexists. split; [done|].
    split; [auto|split; [exists i; by apply pinned_write|apply written_write]]. }
  apply (keep_step _ (fun d => base d /\ Staged old sid m' d)); [by intros d []| |eauto|].
  { intros d Hb (_ & [i Hd] & Hw). right. destruct (Hw) as (j & -> & _). eexists. split; [done|].
    split; [auto|]. split; [by apply Ks| |by eapply written_sync].
    exists data. split; [done|]. left. exists i. by apply pinned_sync_file. }
  apply triple_try with (R := fun _ d => exists d0, base d0 /\ Staged old sid m' d0 /\
                                 d = rename_file "" TMP_HINT.2 HINT.2 d0).
  - apply triple_syscall.
    + intros d [Hb _]. by apply base_Either.
    + intros d [Hb HS]. destruct (st_tmp _ _ _ _ HS) as (i & Hl & _).
      change (""%string, TMP_HINT.2) with TMP_HINT. rewrite Hl. cbn. eauto.
    + intros d junk [Hb _]. by apply base_Either.
  - intros []. apply triple_syscall.
    + intros d (d0 & _ & HS & ->). by apply rename_crashed.
    + intros d (d0 & [_ Hf] & HS & ->). split; [by eapply rename_synced|].
      eapply HF; [apply keeps_sync_dir|]. eapply HF; [by apply keeps_rename|done].
    + intros d junk (d0 & _ & HS & ->). by apply rename_crashed.
Qed.
End publish.
