(* ===== verification/Commit.v ===== *)
(** * Commits survive crashes

    What [IcebergCatalog::commit] of
    [src/crates/merutable/src/iceberg/catalog.rs] guarantees when any of its
    system calls may fail and the process may stop at any of them: the
    manifest on disk is the old one or the new one, and a commit that returned
    has the new one and every deletion vector it names on stable storage. *)

From Stdlib Require Import Ascii.
From S2P Require Import Prelude Decimal Disk Sequence Schema LsmVersion DeletionVector Manifest ManifestPb Catalog.
Local Open Scope Z_scope.

(** ** The names of deletion-vector files *)
Lemma rsplit_app c a b : c ∉ b -> rsplit c (a ++ c :: b) = Some (a, b).
Proof.
  intros Hb. assert (N : rsplit c b = None).
  { induction b as [|x b IH]; [done|]. apply not_elem_of_cons in Hb as [H1 H2]. cbn.
    rewrite IH by done. destruct (Ascii.eqb_spec x c); congruence. }
  induction a as [|x a IH]; cbn.
  - rewrite N. by destruct (Ascii.eqb_spec c c).
  - by rewrite IH.
Qed.

Lemma rsplit_None c a : c ∉ a -> rsplit c a = None.
Proof.
  induction a as [|x a IH]; [done|]. intros [H1 H2]%not_elem_of_cons. cbn. rewrite IH by done.
  destruct (Ascii.eqb_spec x c); congruence.
Qed.

Lemma rsplit_elem c a : match rsplit c a with Some (x, y) => a = x ++ c :: y /\ c ∉ y | None => c ∉ a end.
Proof.
  induction a as [|x a IH]; [apply not_elem_of_nil|]. cbn. destruct (rsplit c a) as [[u v]|].
  - destruct IH as [-> ?]. done.
  - destruct (Ascii.eqb_spec x c) as [->|]; [done|]. by apply not_elem_of_cons.
Qed.


Lemma show_int_no c n : 0 <= n -> in_i 64 n -> char_digit c = None -> c ∉ show_int n.
Proof.
  intros Hn Hi Hc. unfold show_int. destruct (Z.ltb_spec n 0); [lia|].
  destruct (dec_digits_nonempty n) as (d & ds & -> & HF & _); [unfold in_i, u64_max in *; lia|].
  rewrite list_elem_of_In. unfold string_of_digits. rewrite in_map_iff. intros (x & <- & Hx).
  rewrite List.Forall_forall in HF. apply HF in Hx. apply char_digit_char in Hx. congruence.
Qed.

Lemma show_string_no c n :
  0 <= n -> in_i 64 n -> char_digit c = None -> c ∉ list_ascii_of_string (show_string n).
Proof.
  intros. unfold show_string. rewrite list_ascii_of_string_of_list_ascii. by apply show_int_no.
Qed.

Lemma split_file_no_slash p : slash ∉ list_ascii_of_string (split_path p).2.
Proof.
  unfold split_path. pose proof (rsplit_elem slash (list_ascii_of_string p)) as H.
  destruct (rsplit slash _) as [[x y]|]; cbn [snd]; [|done].
  rewrite list_ascii_of_string_of_list_ascii. apply H.
Qed.

Lemma file_stem_no_slash n : slash ∉ list_ascii_of_string n -> slash ∉ list_ascii_of_string (file_stem n).
Proof.
  intros Hn. unfold file_stem. destruct (String.eqb n "" || String.eqb n "..").
  { cbn. rewrite !not_elem_of_cons. split_and!; try discriminate. apply not_elem_of_nil. }
  pose proof (rsplit_elem "." (list_ascii_of_string n)) as H.
  destruct (rsplit "." (list_ascii_of_string n)) as [[[|a l] y]|]; [done| |done].
  rewrite list_ascii_of_string_of_list_ascii. destruct H as [E _]. rewrite E in Hn.
  by apply not_elem_of_app in Hn as [? _].
Qed.

Lemma split_join p : slash ∉ list_ascii_of_string p.2 -> split_path (join_path p) = p.
Proof.
  intros Hp. destruct p as [dir f]. unfold join_path, split_path. cbn [fst snd] in *.
  destruct (String.eqb_spec dir "") as [->|Hd].
  - by rewrite rsplit_None.
  - rewrite !append_ascii. change (list_ascii_of_string "/") with [slash]. cbn [app].
    by rewrite rsplit_app, !string_of_list_ascii_of_string.
Qed.

Lemma puffin_no_slash p s : 0 <= s -> in_i 64 s -> slash ∉ list_ascii_of_string (puffin_path p s).2.
Proof.
  intros Hs Hi. unfold puffin_path. pose proof (split_file_no_slash p) as H.
  destruct (split_path p) as [dir f]. cbn [snd] in *. rewrite !append_ascii, !not_elem_of_app.
  split_and!; [by apply file_stem_no_slash| |by apply show_string_no|];
    cbn; rewrite !not_elem_of_cons; split_and!; try discriminate; apply not_elem_of_nil.
Qed.

Lemma split_puffin p s : 0 <= s -> in_i 64 s -> split_path (join_path (puffin_path p s)) = puffin_path p s.
Proof. intros. by apply split_join, puffin_no_slash. Qed.

Lemma puffin_path_sid p q s s' :
  0 <= s -> in_i 64 s -> 0 <= s' -> in_i 64 s' -> puffin_path p s = puffin_path q s' -> s = s'.
Proof.
  intros Hs Hi Hs' Hi'. unfold puffin_path. destruct (split_path p) as [dp fp], (split_path q) as [dq fq].
  intros [= _ E]. apply (f_equal list_ascii_of_string) in E. rewrite !append_ascii in E.
  rewrite !app_assoc in E. apply app_inv_tail in E. change (list_ascii_of_string ".dv-") with
    (list_ascii_of_string ".dv" ++ ["-"%char]) in E. rewrite !app_assoc, <- !(app_assoc _ ["-"%char]) in E.
  cbn [app] in E. apply (f_equal (rsplit "-")) in E. rewrite !rsplit_app in E by (by apply show_string_no).
  injection E as _ E. apply string_ascii_inj in E. by apply show_string_inj.
Qed.

(** ** Deletion vectors on disk *)
Section upload.
Context (crc32 : bytes -> Z) {B J : Type}.
Context `{RB : !Roaring B, RL : !RoaringLaws B, FJ : !FooterJson J, FL : !FooterJsonLaws J}.
Context `{PR : !Prost, SJ : !SchemaJson, MJ : !ManifestJson}.
Context (Hcrc : forall l, 0 <= crc32 l < 2 ^ 32).

Definition stored_dv (d : Disk) (p : path_t) (o l : Z) (X : gset Z) : Prop :=
  exists data blob (dv : DeletionVector B),
    durable d p data /\ 0 <= o /\ 0 <= l /\ o + l <= u64_max /\ o + l <= Z.of_nat (length data) /\
    slice data (Z.to_nat o) (Z.to_nat l) = Ok blob /\ from_puffin_blob crc32 blob = Ok dv /\
    rb_set (bitmap dv) = X.

(** The entry's deletion vector, written for its file by an earlier snapshot,
    holds the deleted positions [S] gives for the file. *)
Definition dv_entry (d : Disk) (sid : Z) (S : string -> gset Z) (e : ManifestEntry) : Prop :=
  match me_dv_path e, me_dv_offset e, me_dv_length e with
  | Some p, Some o, Some l => exists s, p = join_path (puffin_path (me_path e) s) /\ 0 <= s < sid /\
      stored_dv d (puffin_path (me_path e) s) o l (S (me_path e))
  | None, None, None => S (me_path e) = ∅
  | _, _, _ => False
  end.

Definition DvState (d : Disk) (m : Manifest) (sid : Z) (S : string -> gset Z) : Prop :=
  forall e, e ∈ m_entries m -> is_live e = true -> dv_entry d sid S e.

(** Deletion-vector files of snapshots before [sid]. *)
Definition puffin_before (sid : Z) (p : path_t) : Prop := exists q s, 0 <= s < sid /\ p = puffin_path q s.

Lemma stored_dv_keeps (T : path_t -> Prop) d d' p o l X :
  T p -> keeps T d d' -> stored_dv d p o l X -> stored_dv d' p o l X.
Proof.
  intros Hp [_ K] (data & blob & dv & Hd & H). exists data, blob, dv. split; [|done]. by apply K.
Qed.

Lemma DvState_keeps (T : path_t -> Prop) d d' m sid S :
  (forall p, puffin_before sid p -> T p) -> keeps T d d' -> DvState d m sid S -> DvState d' m sid S.
Proof.
  intros HT K HD e He Hl. specialize (HD e He Hl). unfold dv_entry in *.
  destruct (me_dv_path e) as [pe|], (me_dv_offset e), (me_dv_length e); try done.
  destruct HD as (s & Hp & Hs & HD). exists s. split; [done|]. split; [done|].
  eapply stored_dv_keeps; [|exact K|done]. apply HT. by exists (me_path e), s.
Qed.

Lemma encode_puffin_bounds (dv : DeletionVector B) path sid sqn e :
  encode_puffin crc32 (J := J) dv path sid sqn = Ok e ->
  blob_offset e = 4 /\ 0 <= blob_length e /\ blob_offset e + blob_length e <= u64_max /\
  blob_offset e + blob_length e <= Z.of_nat (length (pe_bytes e)).
Proof.
  unfold encode_puffin. destruct (rb_serialize (bitmap dv)) as [r32|]; [|done].
  set (r64 := le_split 8 1 ++ le_split 4 0 ++ r32).
  set (inner := Z.of_nat (length DV_MAGIC + length r64 + 4)).
  destruct (Z.ltb_spec (2 ^ 32 - 1) inner) as [|H32]; [done|].
  destruct (footer_to_string _) as [fb|]; [|done]. destruct (_ <? _); [done|]. intros [= <-].
  cbn [pe_bytes blob_offset blob_length]. unfold u64_max.
  do 3 (rewrite ?length_app, ?be_split_length; cbn [length]).
  change (length PUFFIN_MAGIC) with 4%nat.
  change (length DV_MAGIC) with 4%nat in *. subst inner. clearbody r64. lia.
Qed.

Lemma encode_stored d (dv : DeletionVector B) path sid e p :
  encode_puffin crc32 (J := J) dv path sid sid = Ok e -> durable d p (pe_bytes e) ->
  stored_dv d p (blob_offset e) (blob_length e) (rb_set (bitmap dv)).
Proof.
  intros He Hd. destruct (encode_puffin_bounds _ _ _ _ _ He) as (Ho & Hl & H1 & H2).
  destruct (encode_puffin_spec crc32 dv path sid sid e Hcrc He) as (dv' & blob & _ & Hs & Hb & Hf & _).
  exists (pe_bytes e), blob, dv'. split_and!; [done|lia|done..].
Qed.

(** *** Merging with the deletion vector a file already has *)
Context (cur : Manifest) (sid : Z) (S : string -> gset Z) (Hsid : 0 <= sid) (Hsid' : in_i 64 sid).

Definition live_path (f : string) : Prop :=
  exists e, e ∈ m_entries cur /\ is_live e = true /\ me_path e = f.

Definition merged_ok (f : string) (new dv : DeletionVector B) : Prop :=
  (live_path f /\ rb_set (bitmap dv) = S f ∪ rb_set (bitmap new)) \/ (~ live_path f /\ dv = new).

Lemma merge_dv_spec (I C : Disk -> Prop) f new :
  (forall d, I d -> DvState d cur sid S) -> (forall d, I d -> C d) ->
  triple I (merge_dv crc32 cur f new)
    (fun r d => I d /\ match r with Ok dv => merged_ok f new dv | _ => True end) C.
Proof.
  intros HI HC. unfold merge_dv. destruct (List.find _ _) as [e|] eqn:Ef.
  2:{ apply triple_ret. intros d Hd. split; [done|]. right. split; [|done]. intros (e & He & Hl & Hp).
      apply list_elem_of_In in He. pose proof (List.find_none _ _ Ef e He) as N. cbn in N.
      by rewrite Hl, Hp, String.eqb_refl in N. }
  apply List.find_some in Ef as [He Hf]. apply andb_true_iff in Hf as [Hl Hp%String.eqb_eq].
  apply list_elem_of_In in He. subst f.
  assert (Hlive : live_path (me_path e)) by (by exists e).
  assert (Hent : forall d, I d -> dv_entry d sid S e) by (intros d Hd; by apply (HI d Hd)).
  unfold dv_entry in Hent.
  destruct (me_dv_path e) as [p|], (me_dv_offset e) as [o|], (me_dv_length e) as [l|];
    try (apply triple_ret; intros d Hd; exfalso; by apply (Hent d Hd)).
  2:{ apply triple_ret. intros d Hd. split; [done|]. left. split; [done|]. rewrite (Hent d Hd). set_solver. }
  apply triple_try with (R := fun data d => I d /\ read_file d (split_path p) = Some data).
  { apply triple_read; [done|done|]. by split. }
  intros data sched w [Hd Hr].
  destruct (Hent _ Hd) as (s & -> & Hs & (data' & blob & dv & Hdur & Ho & Hlen & H64 & Hb & Hsl & Hf & HS)).
  rewrite split_puffin in Hr by (unfold in_i in *; lia). rewrite (durable_read _ _ _ Hdur) in Hr.
  injection Hr as ->.
  destruct (Z.ltb_spec o 0); [lia|]. destruct (Z.ltb_spec l 0); [lia|]. cbn [orb].
  destruct (Z.ltb_spec u64_max (o + l)); [lia|].
  destruct (Z.ltb_spec (Z.of_nat (length data)) (o + l)); [lia|].
  rewrite Hsl, Ok_bind, Hf, io_try_ok.
  assert (HU : rb_set (bitmap (union_with new dv)) = S (me_path e) ∪ rb_set (bitmap new)).
  { cbn. by rewrite rb_set_or, HS. }
  destruct (Z.ltb_spec (cardinality (union_with new dv)) (Z.max (cardinality dv) (cardinality new)));
    [by split|]. split; [done|]. by left.
Qed.

(** *** The upload loop *)
Context (old : Kept) (all : list (string * DeletionVector B)).
Context (Hpuffin : forall f, ~ old_path old (puffin_path f sid)).

(** The location [commit] records for a file's deletion vector. *)
Definition loc_ok (f : string) (loc : DvLocation) : Prop :=
  exists new dv enc, (f, new) ∈ all /\ merged_ok f new dv /\
    encode_puffin crc32 (J := J) dv f sid sid = Ok enc /\
    loc = {| loc_path := join_path (puffin_path f sid); loc_offset := blob_offset enc;
             loc_length := blob_length enc |}.

Definition new_dv_ok (d : Disk) (f : string) (loc : DvLocation) : Prop :=
  loc_ok f loc /\ exists new X, (f, new) ∈ all /\
    stored_dv d (puffin_path f sid) (loc_offset loc) (loc_length loc) X /\
    (live_path f -> X = S f ∪ rb_set (bitmap new)).

Record Uploaded (locs : gmap string DvLocation) (d : Disk) : Prop := {
  up_old : Old old d;
  up_state : DvState d cur sid S;
  up_new : forall f loc, locs !! f = Some loc -> new_dv_ok d f loc;
}.

Definition guarded (locs : gmap string DvLocation) (p : path_t) : Prop :=
  old_path old p \/ puffin_before sid p \/ exists g, g ∈ dom locs /\ p = puffin_path g sid.

Lemma Uploaded_keeps (T : path_t -> Prop) locs d d' :
  (forall p, guarded locs p -> T p) -> keeps T d d' -> Uploaded locs d -> Uploaded locs d'.
Proof.
  intros HT K [HO HD HN]. split.
  - eapply Old_keeps; [|exact K|done]. intros p Hp. apply HT. by left.
  - eapply DvState_keeps; [|exact K|done]. intros p Hp. apply HT. by right; left.
  - intros f loc Hf. destruct (HN f loc Hf) as (Hloc & new & X & Ha & Hs & HX). split; [done|].
    exists new, X. split_and!; [done..| |done]. eapply stored_dv_keeps; [|exact K|done].
    apply HT. right; right. exists f. split; [|done]. apply elem_of_dom. by eexists.
Qed.

(** A file written under a new name. *)
Definition fresh_for (locs : gmap string DvLocation) (f : string) : Prop :=
  forall g, g ∈ dom locs -> puffin_path g sid <> puffin_path f sid.

Lemma fresh_guarded locs f : fresh_for locs f -> ~ guarded locs (puffin_path f sid).
Proof.
  intros Hf [H|[(q & s & Hs & E)|(g & Hg & E)]].
  - by apply Hpuffin in H.
  - apply puffin_path_sid in E; [lia|unfold in_i in *; lia..].
  - by apply (Hf g Hg).
Qed.

Lemma puffin_not_GH f s : ~ GH (puffin_path f s).
Proof. intros [E|E]; revert E; solve_paths. Qed.

Definition up_result (f : string) (locs : gmap string DvLocation) (enc : PuffinEncoded) :=
  <[f := {| loc_path := join_path (puffin_path f sid); loc_offset := blob_offset enc;
            loc_length := blob_length enc |}]> locs.

Lemma upload_one {A} locs f new merged enc (k : io (res A)) Q :
  (f, new) ∈ all -> fresh_for locs f -> merged_ok f new merged ->
  encode_puffin crc32 (J := J) merged f sid sid = Ok enc ->
  (forall e d, Old old d -> Q (Err e) d) ->
  triple (Uploaded (up_result f locs enc)) k Q (Old old) ->
  triple (Uploaded locs)
    (io_create_dir_all (puffin_path f sid).1 ;? io_write (puffin_path f sid) (pe_bytes enc) ;?
     io_sync (puffin_path f sid) ;? io_sync_dir (puffin_path f sid).1 ;? k) Q (Old old).
Proof.
  intros Ha Hf Hm He HQ Hk. set (p := puffin_path f sid).
  assert (Kw : forall c d, Uploaded locs d -> Uploaded locs (write_file p c d)).
  { intros c d. eapply Uploaded_keeps; [intros q Hq; exact Hq|]. by apply keeps_write, fresh_guarded. }
  assert (Ks : forall d, Uploaded locs d -> Uploaded locs (sync_file p d)).
  { intros d. eapply Uploaded_keeps; [intros q Hq; exact Hq|]. apply keeps_sync_file. }
  assert (Kd : forall q d, Uploaded locs d -> Uploaded locs (sync_dir q d)).
  { intros q d. eapply Uploaded_keeps; [intros r Hr; exact Hr|]. apply keeps_sync_dir. }
  assert (HO : forall d, Uploaded locs d -> Old old d) by (by intros d []).
  apply triple_try with (R := fun _ => Uploaded locs).
  { apply triple_syscall; [done|done|]. intros d _ Hd. by apply HQ, HO. }
  intros _. apply triple_try with (R := fun _ d => Uploaded locs d /\ written d p (pe_bytes enc) false).
  { apply triple_syscall; [done| |].
    - intros d Hd. split; [by apply Kw|apply written_write].
    - intros d junk Hd. by apply HQ, HO, Kw. }
  intros _. apply triple_try with (R := fun _ d => Uploaded locs d /\ written d p (pe_bytes enc) true).
  { apply triple_syscall; [by intros d [? _]; apply HO| |].
    - intros d [Hd Hw]. destruct (Hw) as (i & -> & _). cbn. split; [by apply Ks|by eapply written_sync].
    - intros d junk [Hd _]. by apply HQ, HO. }
  intros _. apply triple_try with (R := fun _ => Uploaded (up_result f locs enc)); [|by intros _]. apply triple_syscall.
  - intros d [Hd _]. by apply HO.
  - intros d [Hd Hw]. cbn. pose proof (Kd p.1 d Hd) as [H1 H2 H3]. split; [done|done|].
    intros g loc. unfold up_result. rewrite lookup_insert_Some. intros [[<- <-]|[_ Hg]]; [|by apply H3].
    split; [by exists new, merged, enc|].
    exists new, (rb_set (bitmap merged)). split_and!; [done| |by destruct Hm as [[]|[]]].
    eapply encode_stored; [exact He|]. apply (written_sync_dir GH); [by eapply Old_tidy, HO|apply puffin_not_GH|done].
  - intros d junk [Hd _]. by apply HQ, HO.
Qed.

Definition upload_ok (r : res (gmap string DvLocation * list path_t)) (d : Disk) : Prop :=
  match r with
  | Ok (locs, pending) => Uploaded locs d /\ (forall f, f ∈ all.*1 -> f ∈ dom locs) /\
      Forall (fun q => exists f, q = puffin_path f sid) pending
  | _ => Old old d
  end.

Lemma upload_dvs_spec dvs locs pending :
  (forall x, x ∈ dvs -> x ∈ all) -> (forall f, f ∈ all.*1 -> f ∈ dvs.*1 \/ f ∈ dom locs) ->
  NoDup (map (fun x => puffin_path x.1 sid) dvs) -> (forall x, x ∈ dvs -> fresh_for locs x.1) ->
  Forall (fun q => exists f, q = puffin_path f sid) pending ->
  triple (Uploaded locs) (upload_dvs crc32 (J := J) cur sid dvs locs pending) upload_ok (Old old).
Proof.
  revert locs pending. induction dvs as [|[f new] dvs IH]; intros locs pending Hall Hdom Hnd Hfr Hp.
  { apply triple_ret. intros d Hd. split; [done|]. split; [|done].
    intros f Hf. destruct (Hdom f Hf) as [E|]; [by apply not_elem_of_nil in E|done]. }
  apply NoDup_cons in Hnd as [Hn Hnd]. cbn [upload_dvs].
  eapply triple_try.
  { eapply triple_conseq; [apply (merge_dv_spec (Uploaded locs) (Old old) f new); [by intros d []|by intros d []]| | |];
      [done| |done]. intros [dv|e|] d [Hd Hm]; [|by destruct Hd..]. exact (conj Hm Hd). }
  intros merged. cbn beta. apply triple_pure. intros Hm.
  destruct (encode_puffin crc32 (J := J) merged f sid sid) as [enc|e|] eqn:He;
    [|intros sched w Hd; exact (up_old _ _ Hd)..].
  rewrite io_try_ok. eapply upload_one; [apply Hall; left|apply (Hfr (f, new)); left|exact Hm|exact He|done|].
  apply IH; [|..|done| |].
  - intros x Hx. apply Hall. by right.
  - intros g Hg. rewrite dom_insert. destruct (Hdom g Hg) as [E|E]; [|set_solver].
    cbn in E. apply elem_of_cons in E as [->|E]; set_solver.
  - intros x Hx g. rewrite dom_insert. intros [->%elem_of_singleton|Hg]%elem_of_union.
    + intros E. apply Hn. cbn [fst]. rewrite E. apply list_elem_of_In.
      apply (in_map (fun x => puffin_path x.1 sid)). by apply list_elem_of_In.
    + apply (Hfr x); [by right|done].
  - apply Forall_app. split; [done|]. apply Forall_singleton. eauto.
Qed.
End upload.

(** ** The entries of a committed manifest *)
Lemma assign_row_ids_entries c es es' c' e' :
  assign_row_ids c es = Ok (es', c') -> e' ∈ es' ->
  exists e, e ∈ es /\ (e' = e \/ exists r, e' = with_row_id r e).
Proof.
  revert c es' c'. induction es as [|e es IH]; intros c es' c' H He; cbn [assign_row_ids] in H.
  { simplify_eq. by apply not_elem_of_nil in He. }
  destruct (me_first_row_id e) as [r0|].
  - destruct (assign_row_ids c es) as [[rest c2]|er|] eqn:E; [|done..]. cbn in H. simplify_eq.
    apply elem_of_cons in He as [->|He]; [exists e; split; [left|by left]|].
    destruct (IH _ _ _ E He) as (x & Hx & Hxe). exists x. split; [by right|done].
  - destruct (advance c (num_rows (me_meta e))) as [c1|er|]; [|done..]. cbn in H.
    destruct (assign_row_ids c1 es) as [[rest c2]|er|] eqn:E; [|done..]. cbn in H. simplify_eq.
    apply elem_of_cons in He as [->|He]; [exists e; split; [left|right; by eexists]|].
    destruct (IH _ _ _ E He) as (x & Hx & Hxe). exists x. split; [by right|done].
Qed.

Lemma add_files_entries c fs es c' e :
  add_files c fs = Ok (es, c') -> e ∈ es -> exists f r, f ∈ fs /\ e = added_entry f r.
Proof.
  revert c es c'. induction fs as [|f fs IH]; intros c es c' H He; cbn [add_files] in H.
  { simplify_eq. by apply not_elem_of_nil in He. }
  destruct (advance c (df_num_rows f)) as [c1|er|]; [|done..]. cbn in H.
  destruct (add_files c1 fs) as [[rest c2]|er|] eqn:E; [|done..]. cbn in H. simplify_eq.
  apply elem_of_cons in He as [->|He]; [exists f, c; split; [left|done]|].
  destruct (IH _ _ _ E He) as (g & r & Hg & ->). exists g, r. split; [by right|done].
Qed.

(** Each entry is a kept one, stamped, or an added one. *)
Lemma apply_entries {B : Type} `{!Roaring B} now uuid m (t : SnapshotTransaction B) sid locs m' e' :
  apply now uuid m t sid locs = Ok m' -> e' ∈ m_entries m' ->
  (exists e, e ∈ m_entries m /\ kept t e = true /\
     (e' = committed t locs e \/ exists r, e' = with_row_id r (committed t locs e))) \/
  (exists f r, f ∈ adds t /\ e' = added_entry f r).
Proof.
  intros (_ & es & c1 & added & c2 & E1 & E2 & -> & _)%apply_Ok [He|He]%elem_of_app; [left|right].
  - destruct (assign_row_ids_entries _ _ _ _ _ E1 He) as (x & Hx & Hxe).
    apply list_elem_of_In, in_map_iff in Hx as (e & <- & [Hin Hk]%filter_In).
    exists e. split; [by apply list_elem_of_In|done].
  - by eapply add_files_entries.
Qed.

(** ** Commit *)
Section commit.
Context (crc32 : bytes -> Z) {B J : Type}.
Context `{RB : !Roaring B, RL : !RoaringLaws B, FJ : !FooterJson J, FL : !FooterJsonLaws J}.
Context `{PR : !Prost, PL : !ProstLaws, SJ : !SchemaJson, SL : !SchemaJsonLaws, MJ : !ManifestJson}.
Context (Hcrc : forall l, 0 <= crc32 l < 2 ^ 32).

(** The positions deleted in each file after the transaction. *)
Definition deleted_after (t : SnapshotTransaction B) (S : string -> gset Z) (f : string) : gset Z :=
  if bool_decide (f ∈ map df_path (adds t)) then ∅
  else S f ∪ from_option (fun dv => rb_set (bitmap dv)) ∅ (dvs t !! f).

Lemma DvState_committed d now uuid cur (t : SnapshotTransaction B) sid locs m' S old all :
  0 <= sid -> all ≡ₚ map_to_list (dvs t) ->
  (forall f, f ∈ adds t -> ~ live_path cur (df_path f)) ->
  Uploaded crc32 (J := J) cur sid S old all locs d ->
  apply now uuid cur t sid locs = Ok m' ->
  DvState crc32 d m' (sid + 1) (deleted_after t S).
Proof.
  intros Hs Hall Hfresh [_ HD HN] Hap e' He' Hl'.
  destruct (apply_entries _ _ _ _ _ _ _ _ Hap He') as [(e & He & Hk & Hx)|(f & r & Hf & ->)].
  2:{ unfold dv_entry. cbn. unfold deleted_after. rewrite bool_decide_true; [done|].
      apply list_elem_of_In, in_map, list_elem_of_In, Hf. }
  apply andb_true_iff in Hk as [Hl Hr].
  assert (Hsame : dv_entry crc32 d (sid + 1) (deleted_after t S) (committed t locs e)).
  { assert (Hd : deleted_after t S (me_path e)
                 = S (me_path e) ∪ from_option (fun dv => rb_set (bitmap dv)) ∅ (dvs t !! me_path e)).
    { unfold deleted_after. rewrite bool_decide_false; [done|].
      intros (f & Ef & Hf)%list_elem_of_In%in_map_iff. apply (Hfresh f); [by apply list_elem_of_In|].
      by exists e. }
    pose proof (HD e He Hl) as HE. unfold committed.
    destruct (dvs t !! me_path e) as [new|] eqn:Ed.
    - destruct (apply_Ok _ _ _ _ _ _ _ Hap) as [Hnr _].
      destruct (locs !! me_path e) as [loc|] eqn:El.
      2:{ exfalso. apply Hnr. left. intros Hsub. apply elem_of_dom_2, Hsub, elem_of_dom in Ed.
          rewrite El in Ed. by destruct Ed. }
      destruct (HN _ _ El) as ((? & ? & ? & _ & _ & _ & ->) & new' & X & Hin & Hst & HX).
      rewrite Hall in Hin. apply elem_of_map_to_list in Hin. assert (new' = new) as -> by congruence.
      unfold dv_entry. cbn. exists sid. split; [done|]. split; [lia|].
      rewrite Hd. cbn. rewrite <- HX; [done|]. by exists e.
    - unfold dv_entry in *. rewrite Hd. cbn [from_option]. rewrite union_empty_r_L.
      destruct (me_dv_path e), (me_dv_offset e), (me_dv_length e); try done.
      destruct HE as (s0 & ? & ? & ?). exists s0. split; [done|]. split; [lia|done]. }
  destruct Hx as [->|[r ->]]; [done|]. exact Hsame.
Qed.

Lemma remove_all_spec sid (I : Disk -> Prop) ps :
  (forall f d, I d -> I (remove_path (puffin_path f sid) d)) ->
  Forall (fun q => exists f, q = puffin_path f sid) ps ->
  triple I (remove_all ps) (fun _ => I) I.
Proof.
  intros HI. induction 1 as [|q ps [f ->] _ IH]; [by apply triple_ret|].
  apply triple_bind with (R := fun _ => I); [|by intros _]. apply triple_syscall; [done| |done].
  intros d Hd. destruct (lookup_path d (puffin_path f sid)); [|done]. by apply HI.
Qed.

(** *** The whole commit *)
Context (cat : IcebergCatalog) (t : SnapshotTransaction B) (order : list (string * DeletionVector B)).
Context (s : TableSchema) (uuid : string) (now_ms : Z) (S : string -> gset Z) (old : Kept).

(** The manifest the commit makes, with the locations it records. *)
Definition next_manifest (m' : Manifest) : Prop :=
  exists locs,
    (forall f loc, locs !! f = Some loc ->
       loc_ok crc32 (J := J) (cat_current cat) (cat_next_version cat) S order f loc) /\
    apply now_ms uuid (cat_current cat) t (cat_next_version cat) locs = Ok m'.

(** The transaction's files and manifests are within the formats' limits. *)
Record commit_pre : Prop := {
  cp_sid : 0 <= cat_next_version cat < 2 ^ 63 - 1;
  cp_manifest : manifest_wf (cat_current cat);
  cp_txn : txn_wf t;
  cp_size m' p : next_manifest m' -> to_pb m' = Ok p -> Z.of_nat (length (pb_encode p)) < 2 ^ 32;
  cp_order : order ≡ₚ map_to_list (dvs t);
  cp_names : NoDup (map (fun x => puffin_path x.1 (cat_next_version cat)) order);
  cp_fresh f : f ∈ adds t -> ~ live_path (cat_current cat) (df_path f);
}.

Record kept_pre : Prop := {
  kp_puffin f : ~ old_path old (puffin_path f (cat_next_version cat));
  kp_meta : ~ old_path old (meta_pb (cat_next_version cat));
  kp_tmp : ~ old_path old TMP_HINT;
}.

Definition old_or_new (d : Disk) : Prop :=
  forall d', crash d d' -> Old old d' \/ exists m', next_manifest m' /\ CatInv d' (cat_next_version cat) m'.

Definition commit_post (r : IcebergCatalog * res Version) (d : Disk) : Prop :=
  match r with
  | (cat', Ok v) => exists m', next_manifest m' /\
      cat' = {| cat_current := m'; cat_next_version := cat_next_version cat + 1 |} /\
      v = to_version m' s /\ CatInv d (cat_next_version cat) m' /\
      DvState crc32 d m' (cat_next_version cat + 1) (deleted_after t S)
  | (cat', _) => cat' = cat /\ old_or_new d
  end.

Lemma Either_old_or_new m' d :
  next_manifest m' -> Either old (cat_next_version cat) m' d -> old_or_new d.
Proof. intros Hm HE d' Hc. destruct (HE d' Hc); eauto. Qed.

Lemma Old_old_or_new d : Old old d -> old_or_new d.
Proof. intros HO d' Hc. left. eapply Old_keeps; [intros p Hp; exact Hp|by apply keeps_crash|done]. Qed.

(** Where a failed commit leaves the disk. *)
Definition failed (d : Disk) : Prop :=
  Old old d \/ exists m', next_manifest m' /\ Either old (cat_next_version cat) m' d.

Lemma failed_old_or_new d : failed d -> old_or_new d.
Proof. intros [HO|(m' & Hm & HE)]; [by apply Old_old_or_new|by eapply Either_old_or_new]. Qed.

Lemma failed_remove f d :
  kept_pre -> failed d -> failed (remove_path (puffin_path f (cat_next_version cat)) d).
Proof.
  intros [Kp _ _] [HO|(m' & Hm & HE)]; [left|right; exists m'; split; [done|]].
  - eapply Old_keeps; [intros p Hp; exact Hp|by apply keeps_remove|done].
  - apply Either_remove; [apply Kp|apply puffin_not_cat|done].
Qed.

Definition publish_post (r : res Manifest) (d : Disk) : Prop :=
  match r with
  | Ok m' => next_manifest m' /\ CatInv d (cat_next_version cat) m' /\
      DvState crc32 d m' (cat_next_version cat + 1) (deleted_after t S)
  | _ => failed d
  end.

Lemma apply_publish_spec locs :
  commit_pre -> kept_pre ->
  triple (Uploaded crc32 (J := J) (cat_current cat) (cat_next_version cat) S old order locs)
    (m <-? mret (apply now_ms uuid (cat_current cat) t (cat_next_version cat) locs);
     publish m (cat_next_version cat) ;? mret (Ok m)) publish_post old_or_new.
Proof.
  intros [Hsid Hwf Htx Hsz Hord Hnm Hfr] [Kp Km Kt]. set (sid := cat_next_version cat) in *.
  destruct (apply now_ms uuid (cat_current cat) t sid locs) as [m'|e|] eqn:Ea;
    [|apply triple_ret; intros d Hd; left; apply Hd..].
  rewrite io_try_ok. apply triple_conseq with
    (P' := fun d => next_manifest m' /\ Uploaded crc32 (J := J) (cat_current cat) sid S old order locs d)
    (Q' := publish_post) (C' := old_or_new); [|intros d Hd; split; [|done]|done..].
  2:{ exists locs. split; [|done]. intros f loc Hf. by apply (up_new _ _ _ _ _ _ _ _ Hd). }
  apply triple_pure. intros Hnext.
  set (F := fun d => DvState crc32 d m' (sid + 1) (deleted_after t S)).
  apply triple_try with (R := fun _ d => CatInv d sid m' /\ F d).
  - eapply triple_conseq; [apply (publish_spec old sid m' ltac:(unfold in_i; lia) Km Kt) with
      (P0 := puffin_before (sid + 1)) (F := F)| | |].
    + intros data Hdata. pose proof Hdata as Hp. unfold to_protobuf in Hp.
      destruct (to_pb m') as [p|?|] eqn:Ep; [|done..]. injection Hp as <-.
      apply (decode_to_protobuf m' p); [by eapply apply_wf|done|by eapply Hsz].
    + intros d d' K. by eapply DvState_keeps.
    + intros (q & s0 & _ & E). revert E. solve_paths.
    + intros (q & s0 & _ & E). revert E. solve_paths.
    + intros (q & s0 & _ & E). revert E. solve_paths.
    + intros d Hd. split; [apply Hd|]. eapply DvState_committed; [|done..]. lia.
    + intros [[]|e|] d; cbn; [done|right..]; eauto.
    + intros d HE. by eapply Either_old_or_new.
  - intros []. apply triple_ret. intros d [HC HF]. done.
Qed.

Lemma commit_spec :
  commit_pre -> kept_pre ->
  triple (fun d => Old old d /\ DvState crc32 d (cat_current cat) (cat_next_version cat) S)
    (commit crc32 (J := J) order cat t s uuid now_ms) commit_post old_or_new.
Proof.
  intros HP HK. pose proof HP as [Hsid Hwf Htx Hsz Hord Hnm Hfr]. pose proof HK as [Kp Km Kt].
  unfold commit. set (sid := cat_next_version cat) in *.
  assert (Hi : in_i 64 sid) by (unfold in_i; lia).
  eapply triple_bind.
  { eapply triple_conseq; [apply (upload_dvs_spec crc32 Hcrc (cat_current cat) sid S ltac:(lia) Hi old order Kp)| | |];
      [done|by left|done|intros x _ g; by rewrite dom_empty_L|constructor| |intros r d H; exact H|].
    - intros d [HO HD]. split; [done|done|]. intros f loc. by rewrite lookup_empty.
    - apply Old_old_or_new. }
  intros [[locs pending]|e|]; [|by apply triple_ret; intros d Hd; split; [|apply Old_old_or_new]..].
  apply triple_conseq with
    (P' := fun d => Forall (fun q => exists f, q = puffin_path f sid) pending /\
                    Uploaded crc32 (J := J) (cat_current cat) sid S old order locs d)
    (Q' := commit_post) (C' := old_or_new); [|by intros d (? & _ & ?)|done|done].
  apply triple_pure. intros Hpend.
  eapply triple_bind; [by apply apply_publish_spec|].
  intros [m'|e|]; cbn [publish_post].
  - destruct (Z.leb_spec (2 ^ 63 - 1) sid); [lia|]. apply triple_ret. intros d (H1 & H2 & H3).
    by exists m'.
  - apply triple_bind with (R := fun _ => failed).
    + eapply triple_conseq; [apply (remove_all_spec sid failed); [intros; by apply failed_remove|done]|..];
        [done|done|apply failed_old_or_new].
    + intros _. apply triple_ret. intros d Hf. split; [done|by apply failed_old_or_new].
  - apply triple_ret. intros d Hf. split; [done|by apply failed_old_or_new].
Qed.
End commit.

(** ** Properties *)
Section kept.
Context (crc32 : bytes -> Z) {B : Type} `{RB : !Roaring B, RL : !RoaringLaws B}.
Context `{PR : !Prost, SJ : !SchemaJson, MJ : !ManifestJson}.

(** The version a commit starts from, with its deletion vectors. *)
Program Definition at_version (ver : Z) (m : Manifest) (S : string -> gset Z) : Kept := {|
  Old d := CatInv d ver m /\ DvState crc32 (B := B) d m (ver + 1) S;
  old_path p := cat_path ver p \/ puffin_before (ver + 1) p;
|}.
Next Obligation.
  intros ver m S d d' K [HC HD]. split.
  - eapply CatInv_keeps; [|exact K|done]. by left.
  - eapply DvState_keeps; [|exact K|done]. by right.
Qed.
Next Obligation. by intros ver m S d [[] _]. Qed.

Lemma meta_not_kept ver : in_i 64 ver -> in_i 64 (ver + 1) ->
  ~ (cat_path ver (meta_pb (ver + 1)) \/ puffin_before (ver + 1) (meta_pb (ver + 1))).
Proof.
  intros H1 H2 [[E|[E|E]]|(q & s & _ & E)].
  - by apply (hint_not_meta (ver + 1)); left.
  - apply meta_pb_inj in E; [lia|done..].
  - revert E. solve_paths.
  - revert E. solve_paths.
Qed.

Lemma at_version_pre cat ver m S :
  cat_next_version cat = ver + 1 -> 0 <= ver -> in_i 64 (ver + 1) ->
  kept_pre cat (at_version ver m S).
Proof.
  intros E Hv Hi. assert (in_i 64 ver) by (unfold in_i in *; lia). split; rewrite ?E; cbn.
  - intros f [H1|(q & s & Hs & E1)]; [by apply puffin_not_cat in H1|].
    apply puffin_path_sid in E1; [lia|unfold in_i in *; lia..].
  - by apply meta_not_kept.
  - intros [H1|(q & s & _ & E1)]; [by apply tmp_not_cat in H1|]. revert E1. solve_paths.
Qed.

(** No version yet. *)
Program Definition at_start : Kept := {| Old := tidy GH; old_path p := False |}.
Next Obligation. by intros d d' [T _]. Qed.
Next Obligation. done. Qed.

Lemma at_start_pre cat : kept_pre cat at_start.
Proof. split; [intros f []|intros []..]. Qed.
End kept.

(** C5. Commits are atomic under crashes and I/O errors.  From a catalog at
    version [ver] on disk, whose schema has no floating-point defaults, run [commit] with any schedule of failing system
    calls and with the process stopping at any of them, then lose whatever
    unsynced data and directory entries a crash may lose.  If [commit] had
    returned [Ok], opening the catalog finds the manifest it returned (without
    column statistics, which are not stored), as version [ver + 1], and every
    file's deletion vector on disk holds the positions deleted before together
    with those of the transaction.  Otherwise opening succeeds too and finds either the old manifest, with
    its deletion vectors intact, or the complete new manifest; the catalog in
    memory is unchanged. *)
Theorem commit_crash_atomic (crc32 : bytes -> Z) {B J : Type}
    `{!Roaring B, !RoaringLaws B, !FooterJson J, !FooterJsonLaws J}
    `{!Prost, !ProstLaws, !SchemaJson, !SchemaJsonLaws, !ManifestJson}
    cat (t : SnapshotTransaction B) order s uuid now_ms S ver sched w :
  (forall l, 0 <= crc32 l < 2 ^ 32) ->
  commit_pre crc32 (J := J) cat t order uuid now_ms S ->
  cat_next_version cat = ver + 1 -> 0 <= ver ->
  check_schema_compatible (m_schema (cat_current cat)) s = Ok tt ->
  CatInv (w_disk w) ver (cat_current cat) ->
  DvState crc32 (w_disk w) (cat_current cat) (ver + 1) S ->
  match commit crc32 (J := J) order cat t s uuid now_ms sched w with
  | (w', Val (cat', Ok v)) => exists m',
      next_manifest crc32 (J := J) cat t order uuid now_ms S m' /\
      cat' = {| cat_current := m'; cat_next_version := ver + 2 |} /\ v = to_version m' s /\
      forall d', crash (w_disk w') d' ->
        reopens s d' (ver + 1) m' /\ DvState crc32 d' m' (ver + 2) (deleted_after t S)
  | (w', o) =>
      (forall cat' r, o = Val (cat', r) -> cat' = cat) /\
      forall d', crash (w_disk w') d' ->
        (reopens s d' ver (cat_current cat) /\ DvState crc32 d' (cat_current cat) (ver + 1) S) \/
        exists m', next_manifest crc32 (J := J) cat t order uuid now_ms S m' /\ reopens s d' (ver + 1) m'
  end.
Proof.
  intros Hcrc HP Hver Hpos Hsch HC HD. pose proof (cp_sid _ _ _ _ _ _ _ HP) as Hs. rewrite Hver in Hs.
  assert (Hi : in_i 64 (ver + 1)) by (unfold in_i; lia).
  assert (Hnew : forall m', next_manifest crc32 (J := J) cat t order uuid now_ms S m' ->
            check_schema_compatible (m_schema m') s = Ok tt).
  { intros m' (locs & _ & (_ & ? & ? & ? & ? & _ & _ & _ & _ & _ & _ & _ & ->)%apply_Ok). done. }
  assert (Hold : forall d, old_or_new crc32 (J := J) cat t order uuid now_ms S (at_version crc32 ver (cat_current cat) S) d ->
    forall d', crash d d' ->
      (reopens s d' ver (cat_current cat) /\ DvState crc32 d' (cat_current cat) (ver + 1) S) \/
      exists m', next_manifest crc32 (J := J) cat t order uuid now_ms S m' /\ reopens s d' (ver + 1) m').
  { intros d Hd d' Hc. destruct (Hd d' Hc) as [[HC' HD']|(m' & Hm & HC')]; [left|right].
    - split; [|done]. by apply CatInv_reopens; [|lia|].
    - exists m'. split; [done|]. rewrite Hver in HC'. apply CatInv_reopens; [done|lia|by apply Hnew]. }
  pose proof (commit_spec crc32 Hcrc cat t order s uuid now_ms S
    (at_version crc32 ver (cat_current cat) S) HP (at_version_pre crc32 _ _ _ _ Hver Hpos Hi) sched w) as HR.
  rewrite Hver in HR. specialize (HR (conj (conj HC HD) HD)).
  destruct (commit _ _ _ _ _ _ _ _ _) as [w' [[cat' [v|e|]]|]]; cbn in HR.
  - destruct HR as (m' & Hm & -> & -> & HC' & HD'). rewrite Hver in *.
    replace (ver + 1 + 1) with (ver + 2) in * by lia. exists m'. split_and!; [done..|].
    intros d' Hc. split.
    + apply CatInv_reopens; [|lia|by apply Hnew].
      eapply CatInv_keeps; [intros p Hp; exact Hp|by apply keeps_crash|done].
    + eapply DvState_keeps; [intros p Hp; exact Hp|by apply keeps_crash|done].
  - destruct HR as [-> HR]. split; [by intros ? ? [= <-]|by apply Hold].
  - destruct HR as [-> HR]. split; [by intros ? ? [= <-]|by apply Hold].
  - split; [done|by apply Hold].
Qed.

(** ** Schemas on reopen *)
Definition same_column (p q : ColumnDef) : Prop :=
  name p = name q /\ col_type p = col_type q /\ nullable p = nullable q.

Lemma check_columns_spec ps qs :
  (length ps <= length qs)%nat ->
  (check_columns ps qs = Ok tt <-> Forall2 same_column ps (take (length ps) qs)).
Proof.
  revert qs. induction ps as [|p ps IH]; intros [|q qs] Hl; cbn [length take check_columns] in *;
    [by split; [constructor|]..|lia|].
  destruct (String.eqb_spec (name p) (name q)) as [E1|E1]; cbn [negb].
  2:{ split; [done|]. intros H. inversion H as [|? ? ? ? [? _]]; subst; congruence. }
  case_bool_decide as E2; cbn [negb].
  2:{ split; [done|]. intros H. inversion H as [|? ? ? ? (_ & ? & _)]; subst; congruence. }
  destruct (Bool.eqb_spec (nullable p) (nullable q)) as [E3|E3]; cbn [negb].
  2:{ split; [done|]. intros H. inversion H as [|? ? ? ? (_ & _ & ?)]; subst; congruence. }
  rewrite IH by lia. split; [by constructor|]. by inversion 1.
Qed.

(** A schema is accepted on reopen exactly when it is for the same table
    and primary key and its columns are the persisted ones, compared by name,
    type and nullability, followed by columns that are nullable or have a
    default. *)
Theorem schema_compatible_iff persisted provided :
  check_schema_compatible persisted provided = Ok tt <->
  table_name persisted = table_name provided /\ primary_key persisted = primary_key provided /\
  exists kept extra, columns provided = kept ++ extra /\
    Forall2 same_column (columns persisted) kept /\ Forall (fun c => back_fillable c = true) extra.
Proof.
  unfold check_schema_compatible.
  destruct (String.eqb_spec (table_name persisted) (table_name provided)) as [Et|Et]; cbn [negb];
    [|by split; [|intros [? _]]].
  destruct (Nat.ltb_spec (length (columns provided)) (length (columns persisted))) as [Hl|Hl].
  { split; [done|]. intros (_ & _ & kept & extra & E & HF & _). apply Forall2_length in HF.
    rewrite E, length_app in Hl. lia. }
  pose proof (check_columns_spec (columns persisted) (columns provided) Hl) as HC.
  set (n := length (columns persisted)) in *.
  assert (HX : forall kept extra, columns provided = kept ++ extra ->
    Forall2 same_column (columns persisted) kept -> kept = take n (columns provided) /\
    extra = drop n (columns provided)).
  { intros kept extra E HF. apply Forall2_length in HF. fold n in HF. rewrite E.
    by rewrite take_app_length', drop_app_length'. }
  destruct (check_columns _ _) as [[]|e|].
  2,3: split; [done|]; intros (_ & _ & kept & extra & E & HF & _);
       destruct (HX _ _ E HF) as [-> _]; apply HC in HF; discriminate.
  rewrite Ok_bind. destruct (forallb back_fillable (drop n (columns provided))) eqn:Ef; cbn [negb].
  2:{ split; [done|]. intros (_ & _ & kept & extra & E & HF & HB).
      destruct (HX _ _ E HF) as [_ ->]. rewrite (proj2 (forallb_forall _ _)) in Ef; [done|].
      intros c Hc. rewrite Forall_forall in HB. by apply HB, list_elem_of_In. }
  case_bool_decide as Ep; cbn [negb]; [|by split; [|intros (_ & ? & _)]].
  split; [|done]. intros _. split; [done|]. split; [done|].
  exists (take n (columns provided)), (drop n (columns provided)).
  split; [by rewrite take_drop|]. split; [by apply HC|].
  apply Forall_forall. intros c Hc%list_elem_of_In. by apply (proj1 (forallb_forall _ _) Ef).
Qed.

(** ** Two commits on an empty disk *)
Definition ex_disk0 : Disk := {| inodes := ∅; dirs := ∅; next_ino := 0 |}.
Definition ex_cat0 : IcebergCatalog :=
  {| cat_current := manifest_empty_with_uuid ex_schema "u" 5; cat_next_version := 1 |}.

Definition ex_path : string := "data/L0/a.parquet".
Definition ex_data : IcebergDataFile :=
  let f := ex_file ex_path 0 1 3 [b0] [bFF] 10 in
  {| df_path := path f; df_file_size := 10; df_num_rows := num_rows (meta f); df_meta := meta f |}.
Definition ex_txn1 : SnapshotTransaction (gset Z) := add_file ex_data txn_new.
Definition ex_dv : DeletionVector (gset Z) := mark_deleted 2 dv_new.
Definition ex_txn2 : SnapshotTransaction (gset Z) := add_dv ex_path ex_dv txn_new.

Definition ex_commit1 : io (IcebergCatalog * res Version) :=
  commit example_sum (J := unit) [] ex_cat0 ex_txn1 ex_schema "x" 6.
Definition ex_disk1 : Disk := (run ex_commit1 ex_disk0).1.
Definition ex_cat1 : IcebergCatalog :=
  match (run ex_commit1 ex_disk0).2 with Val (c, Ok _) => c | _ => ex_cat0 end.

Definition ex_commit2 : io (IcebergCatalog * res Version) :=
  commit example_sum (J := unit) [(ex_path, ex_dv)] ex_cat1 ex_txn2 ex_schema "x" 7.

Definition no_deletes (f : string) : gset Z := ∅.

Lemma example_sum_range l : 0 <= example_sum l < 2 ^ 32.
Proof. apply Z.mod_pos_bound. lia. Qed.

Lemma ex_pre1 : commit_pre example_sum (J := unit) ex_cat0 ex_txn1 [] "x" 6 no_deletes.
Proof.
  split.
  - cbn. lia.
  - split; [unfold in_i; cbn; lia|repeat constructor|constructor|split; reflexivity].
  - split; [|split; reflexivity]. apply Forall_singleton.
    unfold entry_wf, in_u; cbn; split_and!; try lia; try reflexivity; tauto.
  - intros m' p (locs & Hl & Ha). assert (locs = ∅) as ->.
    { apply map_empty. intros f. destruct (locs !! f) eqn:E; [|done].
      destruct (Hl _ _ E) as (? & ? & ? & H & _). by apply not_elem_of_nil in H. }
    vm_compute in Ha. injection Ha as <-. intros Hp. vm_compute in Hp. injection Hp as <-.
    vm_compute. reflexivity.
  - reflexivity.
  - constructor.
  - intros f _ (e & He & _). by apply not_elem_of_nil in He.
Qed.

Lemma ex_disk0_ok : tidy GH ex_disk0.
Proof.
  assert (N : forall p i, ~ poss ex_disk0 p (Some i)).
  { intros p i (l & Hl & E). unfold dir_at in *. cbn in *. apply sublist_nil_r in Hl as ->. done. }
  split; intros; exfalso; by eapply N.
Qed.

Lemma ex_at1 :
  exists v, run ex_commit1 ex_disk0 = (ex_disk1, Val (ex_cat1, Ok v)) /\
    cat_next_version ex_cat1 = 2 /\ CatInv ex_disk1 1 (cat_current ex_cat1) /\
    DvState example_sum (B := gset Z) ex_disk1 (cat_current ex_cat1) 2 (deleted_after ex_txn1 no_deletes).
Proof.
  assert (HD : DvState example_sum (B := gset Z) ex_disk0 (cat_current ex_cat0) 1 no_deletes).
  { intros e He. by apply not_elem_of_nil in He. }
  pose proof (commit_spec example_sum example_sum_range ex_cat0 ex_txn1 [] ex_schema "x" 6 no_deletes
    at_start ex_pre1 (at_start_pre _) (fun _ => NoFault) {| w_disk := ex_disk0; w_tick := 0 |}
    (conj ex_disk0_ok HD)) as H. fold ex_commit1 in H.
  assert (E : match (run ex_commit1 ex_disk0).2 with Val (_, Ok _) => true | _ => false end = true)
    by (vm_compute; reflexivity).
  unfold ex_disk1, ex_cat1. unfold run in *.
  destruct (ex_commit1 _ _) as [w [[c [v|e|]]|]]; try discriminate E. cbn [fst snd] in *.
  destruct H as (m' & _ & -> & _ & HC & HD'). exists v. done.
Qed.

Definition ex_loc2 : DvLocation :=
  match encode_puffin example_sum (J := unit) ex_dv ex_path 2 2 with
  | Ok enc => {| loc_path := join_path (puffin_path ex_path 2); loc_offset := blob_offset enc;
                 loc_length := blob_length enc |}
  | _ => {| loc_path := ""; loc_offset := 0; loc_length := 0 |}
  end.

Lemma ex_locs2 (locs : gmap string DvLocation) :
  (forall f loc, locs !! f = Some loc ->
     loc_ok example_sum (J := unit) (cat_current ex_cat1) 2 no_deletes [(ex_path, ex_dv)] f loc) ->
  locs = ∅ \/ locs = {[ex_path := ex_loc2]}.
Proof.
  intros Hl. destruct (locs !! ex_path) as [loc|] eqn:E; [right|left]; apply map_eq; intros f.
  - destruct (decide (f = ex_path)) as [->|Hf].
    + rewrite lookup_singleton_eq, E. f_equal.
      destruct (Hl _ _ E) as (new & [b] & enc & Hin & Hm & He & ->).
      apply list_elem_of_singleton in Hin. injection Hin as ->.
      assert (b = bitmap ex_dv) as ->.
      { destruct Hm as [[_ Hm]|[_ Hm]]; [|by rewrite <- Hm]. cbn in Hm. rewrite Hm. vm_compute. reflexivity. }
      change {| bitmap := bitmap ex_dv |} with ex_dv in He. unfold ex_loc2. by rewrite He.
    + rewrite lookup_singleton_ne by done. destruct (locs !! f) eqn:E'; [|done].
      destruct (Hl _ _ E') as (? & ? & ? & Hin & _). apply list_elem_of_singleton in Hin. congruence.
  - rewrite lookup_empty. destruct (locs !! f) eqn:E'; [|done].
    destruct (Hl _ _ E') as (? & ? & ? & Hin & _). apply list_elem_of_singleton in Hin. congruence.
Qed.

Lemma ex_next2 : cat_next_version ex_cat1 = 2.
Proof. vm_compute. reflexivity. Qed.

Lemma ex_pre2 S :
  (forall f, S f = ∅) ->
  commit_pre example_sum (J := unit) ex_cat1 ex_txn2 [(ex_path, ex_dv)] "x" 7 S.
Proof.
  intros HS. split.
  - vm_compute. split; [discriminate|reflexivity].
  - split; [vm_compute; split; [discriminate|reflexivity]|vm_compute; repeat constructor| |split; reflexivity].
    vm_compute m_entries. apply Forall_singleton.
    unfold entry_wf, in_u; cbn; split_and!; try lia; try reflexivity; tauto.
  - split; [constructor|split; reflexivity].
  - intros m' p (locs & Hl & Ha). rewrite ex_next2 in Hl, Ha. destruct (ex_locs2 locs) as [-> | ->].
    + intros f loc Hf. destruct (Hl f loc Hf) as (new & dv & enc & H1 & H2 & H3).
      exists new, dv, enc. split; [done|]. split; [|done]. destruct H2 as [[HL HE]|HN]; [left|by right].
      split; [done|]. rewrite HE, HS. done.
    + vm_compute in Ha. discriminate.
    + vm_compute in Ha. injection Ha as <-. intros Hp. vm_compute in Hp. injection Hp as <-.
      vm_compute. reflexivity.
  - reflexivity.
  - apply NoDup_singleton.
  - intros f Hf. by apply not_elem_of_nil in Hf.
Qed.

Lemma commit_crash_atomic_witness :
  match ex_commit2 (fun n => if (n =? 9)%nat then Stops else NoFault) {| w_disk := ex_disk1; w_tick := 0 |} with
  | (w', Stopped) => forall d', crash (w_disk w') d' ->
        (reopens ex_schema d' 1 (cat_current ex_cat1) /\
         DvState example_sum d' (cat_current ex_cat1) 2 (deleted_after ex_txn1 no_deletes)) \/
        exists m', next_manifest example_sum (J := unit) ex_cat1 ex_txn2 [(ex_path, ex_dv)] "x" 7
                     (deleted_after ex_txn1 no_deletes) m' /\ reopens ex_schema d' 2 m'
  | _ => False
  end.
Proof.
  destruct ex_at1 as (v & _ & Hn & HC & HD).
  pose proof (commit_crash_atomic example_sum (J := unit) ex_cat1 ex_txn2 [(ex_path, ex_dv)] ex_schema "x" 7
    (deleted_after ex_txn1 no_deletes) 1 (fun n => if (n =? 9)%nat then Stops else NoFault)
    {| w_disk := ex_disk1; w_tick := 0 |} example_sum_range) as H.
  fold ex_commit2 in H.
  assert (E : match ex_commit2 (fun n => if (n =? 9)%nat then Stops else NoFault)
      {| w_disk := ex_disk1; w_tick := 0 |} with (_, Stopped) => true | _ => false end = true)
    by (vm_compute; reflexivity).
  destruct (ex_commit2 _ _) as [w' [?|]]; [discriminate E|].
  apply H; [|done|lia|vm_compute; reflexivity|done|done].
  apply ex_pre2. intros f. unfold deleted_after, no_deletes. destruct (bool_decide _); [done|]. cbn.
  by rewrite lookup_empty.
Defined.

(** ** Where commits fall short *)
Definition fails_at (k : nat) (n : nat) : fault := if (n =? k)%nat then Fails [] else NoFault.
Definition stops_at (k : nat) (n : nat) : fault := if (n =? k)%nat then Stops else NoFault.

Definition after {A} (m : io A) (sched : nat -> fault) (d : Disk) : Disk * outcome A :=
  let '(w, o) := m sched {| w_disk := d; w_tick := 0 |} in (w_disk w, o).

(** A commit whose very last step fails, the sync of the base directory
    after the rename, reports an error and removes the deletion-vector files
    it wrote; but the version hint already names the new manifest, so opening
    the catalog returns a manifest with a file whose deletion vector is
    gone. *)
Theorem failed_commit_drops_dv :
  let d := (after ex_commit2 (fails_at 10) ex_disk1).1 in
  (after ex_commit2 (fails_at 10) ex_disk1).2 = Val (ex_cat1, Err Io) /\
  match (run (catalog_open ex_schema "y" 8) d).2 with
  | Val (Ok cat) => cat_next_version cat = 3 /\
      exists e p, e ∈ m_entries (cat_current cat) /\ is_live e = true /\ me_dv_path e = Some p /\
        read_file d (split_path p) = None
  | _ => False
  end.
Proof.
  split; [vm_compute; reflexivity|].
  destruct (run _ _) as [d' o] eqn:E. vm_compute in E. injection E as _ <-. cbn [snd].
  split; [reflexivity|]. eexists _, _. split; [left|]. split; [reflexivity|]. split; [reflexivity|].
  vm_compute. reflexivity.
Qed.

(** A process that stops during the first commit of a table, once the
    manifest is written and before the version hint is renamed into place,
    leaves a directory [open] refuses, although nothing was committed. *)
Theorem first_commit_crash_blocks_open :
  let d := (after ex_commit1 (stops_at 3) ex_disk0).1 in
  (after ex_commit1 (stops_at 3) ex_disk0).2 = Stopped /\
  exists why, (run (catalog_open ex_schema "y" 8) d).2 = Val (Err (Corruption why)).
Proof. split; [vm_compute; reflexivity|]. eexists. vm_compute. reflexivity. Qed.

Definition ex_column : ColumnDef :=
  {| name := "added"; col_type := CInt64; nullable := true; field_id := None;
     initial_default := None; write_default := None |}.
Definition ex_extended : TableSchema :=
  {| table_name := table_name ex_schema; columns := columns ex_schema ++ [ex_column];
     primary_key := primary_key ex_schema; schema_id := 1; last_column_id := 1 |}.

(** A schema extended on reopen is not recorded: after a catalog was
    opened with an added column and a file was committed under that schema,
    the catalog can be opened with the schema without the column. *)
Theorem extended_schema_not_persisted :
  let opened := run (catalog_open ex_extended "y" 8) ex_disk1 in
  match opened.2 with
  | Val (Ok cat) =>
      let d := run (commit example_sum (J := unit) [] cat ex_txn1 ex_extended "y" 9) opened.1 in
      match d.2 with
      | Val (_, Ok v) =>
          exists cat', (run (catalog_open ex_schema "z" 10) d.1).2 = Val (Ok cat') /\
            cat_next_version cat' = 3
      | _ => False
      end
  | _ => False
  end.
Proof. vm_compute. eexists. split; reflexivity. Qed.
