(* ===== verification/CommitRun.v ===== *)
(** * Commits that run to the end

    [IcebergCatalog::commit] of [src/crates/merutable/src/iceberg/catalog.rs]
    when no system call fails: it returns [Ok], under the limits of the
    formats; and, whatever fails, it touches only the files it names itself. *)

From Stdlib Require Import Ascii.
From S2P Require Import Prelude Decimal Disk Sequence Schema LsmVersion DeletionVector Manifest ManifestPb Catalog Commit.
Local Open Scope Z_scope.

(** A change that leaves the files named by [T] alone: they are as durable as
    before, and read the same. *)
Definition stays (T : path_t -> Prop) (d d' : Disk) : Prop :=
  keeps T d d' /\ (tidy GH d -> forall p, T p -> ~ GH p -> read_file d' p = read_file d p).

Lemma stays_refl T d : stays T d d.
Proof. split; [split; [done|]; by intros p _; split|done]. Qed.

Lemma stays_trans T d1 d2 d3 : stays T d1 d2 -> stays T d2 d3 -> stays T d1 d3.
Proof.
  intros [K1 R1] [K2 R2]. split; [by eapply keeps_trans|]. intros Ht p Hp Hg.
  rewrite R2; [by apply R1|by apply K1|done..].
Qed.

Lemma stays_mono (T T' : path_t -> Prop) d d' : (forall p, T' p -> T p) -> stays T d d' -> stays T' d d'.
Proof. intros H [K R]. split; [by eapply keeps_mono|]. intros Ht p Hp. by apply R, H. Qed.

(** Reading depends on the name and on the file it denotes. *)
Lemma read_file_same d d' p :
  lookup_path d' p = lookup_path d p ->
  (forall i, lookup_path d p = Some i -> i_data <$> inodes d' !! i = i_data <$> inodes d !! i) ->
  read_file d' p = read_file d p.
Proof.
  intros El Hi. unfold read_file. rewrite El. destruct (lookup_path d p) as [i|]; [|done]. cbn.
  specialize (Hi i eq_refl). destruct (inodes d !! i), (inodes d' !! i); cbn in *; congruence.
Qed.

Lemma stays_write (T : path_t -> Prop) q b d : ~ T q -> stays T d (write_file q b d).
Proof.
  intros Hq. split; [by apply keeps_write|]. intros [Hino Hsh] p Hp Hg. assert (p <> q) as Hpq by (by intros ->).
  apply read_file_same; [by apply lookup_write_other|]. intros i Hi.
  destruct (write_file_spec q b d) as (j & _ & -> & [(Hj & _)|(_ & -> & _)]).
  - destruct (decide (j = i)) as [->|]; [|by rewrite lookup_insert_ne].
    destruct (Hsh p q i) as [|[? _]]; [rewrite <- Hi; apply poss_current|rewrite <- Hj; apply poss_current|done..].
  - destruct (Hino p i) as [Hlt _]; [rewrite <- Hi; apply poss_current|]. rewrite lookup_insert_ne by lia. done.
Qed.

Lemma read_sync_file q d p : read_file (sync_file q d) p = read_file d p.
Proof.
  apply read_file_same; [by apply lookup_path_dirs, sync_file_dirs|].
  intros i _. rewrite sync_file_inodes. case_bool_decide; [|done]. by destruct (inodes d !! i).
Qed.

Lemma read_sync_dir dn d p : read_file (sync_dir dn d) p = read_file d p.
Proof. apply read_file_same; [apply lookup_path_sync_dir|done]. Qed.

Lemma read_written p b d : read_file (write_file p b d) p = Some b.
Proof. destruct (written_write p b d) as (i & Hl & Hi). unfold read_file. rewrite Hl. cbn. by rewrite Hi. Qed.

Lemma stays_sync_file T q d : stays T d (sync_file q d).
Proof. split; [apply keeps_sync_file|]. intros _ p _ _. apply read_sync_file. Qed.

Lemma stays_sync_dir T dn d : stays T d (sync_dir dn d).
Proof. split; [apply keeps_sync_dir|]. intros _ p _ _. apply read_sync_dir. Qed.

Lemma stays_remove (T : path_t -> Prop) q d : ~ T q -> stays T d (remove_path q d).
Proof.
  intros Hq. split; [by apply keeps_remove|]. intros _ p Hp _. assert (p <> q) as Hpq by (by intros ->).
  apply read_file_same; [|by rewrite (proj1 (remove_inodes q d))].
  unfold remove_path. destruct (lookup_path d q); [|done]. rewrite lookup_path_change. cbn [effect].
  destruct p as [p1 p2], q as [q1 q2]; cbn. repeat case_bool_decide; naive_solver.
Qed.

Lemma stays_rename (T : path_t -> Prop) d :
  ~ T HINT -> ~ T TMP_HINT -> stays T d (rename_file "" TMP_HINT.2 HINT.2 d).
Proof.
  intros H1 H2. split; [by apply keeps_rename|]. intros _ p Hp Hg.
  apply read_file_same; [|by rewrite (proj1 (rename_inodes _ _ _ d))].
  unfold rename_file. destruct (lookup_path d _); [|done]. rewrite lookup_path_change. cbn [effect].
  destruct p as [p1 p2]. cbn [fst snd]. case_bool_decide as E1; [|done]. subst p1.
  case_bool_decide as E2; [subst; destruct Hg; by left|]. case_bool_decide as E3; [subst; destruct Hg; by right|done].
Qed.

Section frame.
Context (crc32 : bytes -> Z) {B J : Type} `{RB : !Roaring B, FJ : !FooterJson J}.
Context `{PR : !Prost, SJ : !SchemaJson, MJ : !ManifestJson}.
Context (T : path_t -> Prop) (d0 : Disk) (sid : Z).
Context (Tp : forall f, ~ T (puffin_path f sid)) (Tm : ~ T (meta_pb sid)) (Th : ~ T HINT) (Tt : ~ T TMP_HINT).
Local Abbreviation I := (stays T d0).

Lemma stays_step d d' : I d -> stays T d d' -> I d'.
Proof. apply stays_trans. Qed.

Lemma inv_write p b : ~ T p -> invariant I (io_write p b).
Proof. intros Hp. apply invariant_syscall; intros; by eapply stays_step, stays_write. Qed.

Lemma inv_sync p : invariant I (io_sync p).
Proof.
  apply invariant_syscall; [|done]. intros d Hd. destruct (lookup_path d p); [|done].
  by eapply stays_step, stays_sync_file.
Qed.

Lemma inv_sync_dir dn : invariant I (io_sync_dir dn).
Proof. apply invariant_syscall; [|done]. intros d Hd. by eapply stays_step, stays_sync_dir. Qed.

Lemma inv_create_dir dn : invariant I (io_create_dir_all dn).
Proof. by apply invariant_syscall. Qed.

Lemma inv_read p : invariant I (io_read p).
Proof. apply invariant_try; [by apply invariant_syscall|]. intros b. apply invariant_ret. Qed.

Lemma inv_merge cur f (new : DeletionVector B) : invariant I (merge_dv crc32 cur f new).
Proof.
  unfold merge_dv. destruct (List.find _ _) as [e|]; [|apply invariant_ret].
  destruct (me_dv_path e), (me_dv_offset e) as [o|], (me_dv_length e) as [l|]; try apply invariant_ret.
  apply invariant_try; [apply inv_read|]. intros data. destruct (_ || _); [apply invariant_ret|].
  do 2 (destruct (_ <? _); [apply invariant_ret|]). apply invariant_try; [apply invariant_ret|].
  intros x. destruct (_ <? _); apply invariant_ret.
Qed.

Lemma inv_upload cur (dvs : list (string * DeletionVector B)) locs pending :
  invariant I (upload_dvs crc32 (J := J) cur sid dvs locs pending).
Proof.
  revert locs pending. induction dvs as [|[f new] dvs IH]; intros locs pending; [apply invariant_ret|].
  cbn [upload_dvs]. apply invariant_try; [apply inv_merge|]. intros merged.
  apply invariant_try; [apply invariant_ret|]. intros enc.
  apply invariant_try; [apply inv_create_dir|]. intros _. apply invariant_try; [by apply inv_write|]. intros _.
  apply invariant_try; [apply inv_sync|]. intros _. apply invariant_try; [apply inv_sync_dir|]. intros _. apply IH.
Qed.

Lemma inv_publish m : invariant I (publish m sid).
Proof.
  unfold publish. apply invariant_try; [apply invariant_ret|]. intros data.
  apply invariant_try; [by apply inv_write|]. intros _. apply invariant_try; [apply inv_sync|]. intros _.
  apply invariant_try; [apply inv_sync_dir|]. intros _. apply invariant_try; [by apply inv_write|]. intros _.
  apply invariant_try; [apply inv_sync|]. intros _. apply invariant_try; [|intros _; apply inv_sync_dir].
  apply invariant_syscall; [|done]. intros d Hd. destruct (lookup_path d _); [|done].
  by eapply stays_step, stays_rename.
Qed.

Lemma inv_remove_all ps : Forall (fun q => exists f, q = puffin_path f sid) ps -> invariant I (remove_all ps).
Proof.
  induction 1 as [|q ps [f ->] _ IH]; [apply invariant_ret|]. apply invariant_bind; [|by intros _].
  apply invariant_syscall; [|done]. intros d Hd. destruct (lookup_path d _); [|done].
  by eapply stays_step, stays_remove.
Qed.
End frame.

Section run.
Context (crc32 : bytes -> Z) {B J : Type}.
Context `{RB : !Roaring B, RL : !RoaringLaws B, FJ : !FooterJson J, FL : !FooterJsonLaws J}.
Context `{PR : !Prost, SJ : !SchemaJson, MJ : !ManifestJson}.
Context (Hcrc : forall l, 0 <= crc32 l < 2 ^ 32).

(** The paths the upload loop reports are those it wrote. *)
Lemma upload_pending cur sid (dvs : list (string * DeletionVector B)) locs pending :
  Forall (fun q => exists f, q = puffin_path f sid) pending ->
  triple (fun _ => True) (upload_dvs crc32 (J := J) cur sid dvs locs pending)
    (fun r _ => match r with
                | Ok (_, ps) => Forall (fun q => exists f, q = puffin_path f sid) ps
                | _ => True
                end) (fun _ => True).
Proof.
  revert locs pending. induction dvs as [|[f new] dvs IH]; intros locs pending HF; [by apply triple_ret|].
  cbn [upload_dvs].
  do 6 (apply triple_try with (R := fun _ _ => True);
    [by apply triple_any; [intros []|]|intros ?]).
  apply IH. apply Forall_app. split; [done|]. apply Forall_singleton. by exists f.
Qed.

(** A commit keeps every file that is not the manifest it writes, the hint or
    a deletion vector of its own snapshot. *)
Lemma commit_frame T d0 order cat (t : SnapshotTransaction B) s uuid now_ms :
  let sid := cat_next_version cat in
  (forall f, ~ T (puffin_path f sid)) -> ~ T (meta_pb sid) -> ~ T HINT -> ~ T TMP_HINT ->
  invariant (stays T d0) (commit crc32 (J := J) order cat t s uuid now_ms).
Proof.
  intros sid Tp Tm Th Tt. unfold commit, invariant. fold sid.
  eapply triple_bind.
  { eapply triple_conseq; [apply triple_and;
      [by apply (inv_upload crc32 T d0 sid Tp)|by apply (upload_pending _ sid order ∅ [])]| | |];
      [by split|intros a d H; exact H|by intros d [? _]]. }
  intros [[locs pending]|e|]; cbn beta iota; [|apply triple_ret; by intros d [? _]..].
  apply triple_conseq with (P' := fun d => Forall (fun q => exists f, q = puffin_path f sid) pending /\ stays T d0 d)
    (Q' := fun _ => stays T d0) (C' := stays T d0); [|by intros d []|done|done].
  apply triple_pure. intros Hp. eapply (invariant_bind (stays T d0)).
  - apply invariant_try; [apply invariant_ret|]. intros m. apply invariant_try; [by apply inv_publish|].
    intros _. apply invariant_ret.
  - intros [m|e|]; [destruct (_ <=? _); apply invariant_ret| |apply invariant_ret].
    apply invariant_bind; [by apply (inv_remove_all T d0 sid)|]. intros _. apply invariant_ret.
Qed.

(** ** What a commit leaves in memory and in the deletion vectors

    [commit_pre] without what only the manifest file needs. *)
Lemma commit_memory cat (t : SnapshotTransaction B) order s uuid now_ms S :
  let sid := cat_next_version cat in
  0 <= sid < 2 ^ 63 - 1 -> order ≡ₚ map_to_list (dvs t) -> NoDup (map (fun x => puffin_path x.1 sid) order) ->
  (forall f, f ∈ adds t -> ~ live_path (cat_current cat) (df_path f)) ->
  triple (fun d => tidy GH d /\ DvState crc32 d (cat_current cat) sid S)
    (commit crc32 (J := J) order cat t s uuid now_ms)
    (fun r d => match r with
       | (cat', Ok v) => exists locs m', apply now_ms uuid (cat_current cat) t sid locs = Ok m' /\
           (forall f loc, locs !! f = Some loc -> loc_ok crc32 (J := J) (cat_current cat) sid S order f loc) /\
           cat' = {| cat_current := m'; cat_next_version := sid + 1 |} /\ v = to_version m' s /\
           DvState crc32 d m' (sid + 1) (deleted_after t S)
       | (cat', _) => cat' = cat
       end) (fun _ => True).
Proof.
  intros sid Hs Hord Hnd Hfr. unfold commit. fold sid. eapply triple_bind.
  { eapply triple_conseq; [apply (upload_dvs_spec crc32 Hcrc (cat_current cat) sid S ltac:(lia) ltac:(unfold in_i; lia)
      at_start order ltac:(by intros f []) order ∅ [])| | |];
      [done|by left|done|intros x _ g; by rewrite dom_empty_L|constructor| |intros r d H; exact H|done].
    intros d [HO HD]. split; [done|done|]. intros f loc. by rewrite lookup_empty. }
  intros [[locs pending]|e|]; [|by apply triple_ret..]. cbn [upload_ok].
  destruct (apply now_ms uuid (cat_current cat) t sid locs) as [m'|e|] eqn:Ea.
  2,3: eapply triple_bind with (R := fun r _ => match r with Ok _ => False | _ => True end); [by apply triple_ret|].
  2,3: intros [m|e'|]; [by intros sched w []| |by apply triple_ret].
  2,3: apply triple_bind with (R := fun _ _ => True); [by apply triple_any; [|]|intros _; by apply triple_ret].
  apply triple_conseq with
    (P' := fun d => (forall f loc, locs !! f = Some loc -> loc_ok crc32 (J := J) (cat_current cat) sid S order f loc) /\
                    DvState crc32 (B := B) d m' (sid + 1) (deleted_after t S))
    (Q' := fun r d => match r with
       | (cat', Ok v) => exists locs m', apply now_ms uuid (cat_current cat) t sid locs = Ok m' /\
           (forall f loc, locs !! f = Some loc -> loc_ok crc32 (J := J) (cat_current cat) sid S order f loc) /\
           cat' = {| cat_current := m'; cat_next_version := sid + 1 |} /\ v = to_version m' s /\
           DvState crc32 d m' (sid + 1) (deleted_after t S)
       | (cat', _) => cat' = cat
       end) (C' := fun _ => True); [| |done|done].
  2:{ intros d (Hup & _ & _). split; [intros f loc Hf; by apply (up_new _ _ _ _ _ _ _ _ Hup)|].
      eapply DvState_committed; [lia|done..]. }
  apply triple_pure. intros Hlocs. rewrite io_try_ok.
  apply triple_bind with (R := fun r d => match r with
    | Ok m => m = m' /\ DvState crc32 (B := B) d m' (sid + 1) (deleted_after t S) | _ => True end).
  - apply triple_try with (R := fun _ d => DvState crc32 (B := B) d m' (sid + 1) (deleted_after t S)).
    + intros sched w HD. pose proof (inv_publish (puffin_before (sid + 1)) (w_disk w) sid) as HI.
      specialize (HI ltac:(intros (q & s0 & _ & E); revert E; solve_paths) ltac:(intros (q & s0 & _ & E); revert E; solve_paths)
        ltac:(intros (q & s0 & _ & E); revert E; solve_paths) m' sched w (stays_refl _ _)).
      destruct (publish m' sid sched w) as [w' [[u|e|]|]]; [|done..].
      eapply DvState_keeps; [|apply HI|done]. done.
    + intros []. by apply triple_ret.
  - intros [m|e|].
    + apply triple_pure. intros ->. destruct (Z.leb_spec (2 ^ 63 - 1) sid); [lia|]. apply triple_ret. intros d HD.
      by exists locs, m'.
    + apply triple_bind with (R := fun _ _ => True); [by apply triple_any; [|]|intros _; by apply triple_ret].
    + by apply triple_ret.
Qed.

(** ** Without faults *)
Lemma total_read p (P : Disk -> Prop) (R : bytes -> Disk -> Prop) :
  (forall d, P d -> exists b, read_file d p = Some b /\ R b d) ->
  total P (io_read p) (fun r d => exists b, r = Ok b /\ R b d).
Proof.
  intros H. apply total_try with (R := fun o d => exists b, o = Some b /\ R b d).
  - apply total_syscall. intros d Hd. cbn. destruct (H d Hd) as (b & -> & HR). eauto.
  - intros o. apply total_ret. intros d (b & -> & HR). by exists b.
Qed.

Lemma rb_len_le (a b : B) : rb_set a ⊆ rb_set b -> rb_len a <= rb_len b.
Proof. intros H. rewrite !rb_set_len. apply Nat2Z.inj_le. by apply subseteq_size. Qed.

Lemma merge_total cur sid S f new :
  0 <= sid -> in_i 64 sid ->
  total (fun d => DvState crc32 (B := B) d cur sid S) (merge_dv crc32 cur f new)
    (fun r d => exists dv, r = Ok dv /\ merged_ok cur S f new dv /\ DvState crc32 (B := B) d cur sid S).
Proof.
  intros H0 Hi. eapply total_conseq with
    (P' := fun d => DvState crc32 (B := B) d cur sid S /\ DvState crc32 (B := B) d cur sid S)
    (Q' := fun r d => (exists dv, r = Ok dv) /\ DvState crc32 (B := B) d cur sid S /\
             match r with Ok dv => merged_ok cur S f new dv | _ => True end);
    [|by intros d Hd|by intros r d ((dv & ->) & Hd & Hm); exists dv].
  eapply total_and; [|by eapply (merge_dv_spec crc32 Hcrc cur sid S H0 Hi (fun d => DvState crc32 d cur sid S) (fun _ => True))].
  unfold merge_dv. destruct (List.find _ _) as [e|] eqn:Ef; [|apply total_ret; eauto].
  apply List.find_some in Ef as [He%list_elem_of_In [Hl _]%andb_true_iff].
  destruct (me_dv_path e) as [p|] eqn:E1, (me_dv_offset e) as [o|] eqn:E2, (me_dv_length e) as [l|] eqn:E3;
    try (apply total_ret; eauto).
  set (R := fun (data : bytes) (_ : Disk) => exists blob (dv : DeletionVector B), 0 <= o /\ 0 <= l /\ o + l <= u64_max /\
    o + l <= Z.of_nat (length data) /\ slice data (Z.to_nat o) (Z.to_nat l) = Ok blob /\ from_puffin_blob crc32 blob = Ok dv).
  apply total_try with (R := R).
  { apply total_read. intros d HD. pose proof (HD e He Hl) as HE. unfold dv_entry in HE. rewrite E1, E2, E3 in HE.
    destruct HE as (s0 & -> & Hs0 & (data & blob & dv & Hdur & Ho & Hlen & H64 & Hb & Hsl & Hf & _)).
    rewrite split_puffin by (unfold in_i in *; lia). exists data. split; [by apply durable_read|]. by exists blob, dv. }
  intros data d (blob & dv & Ho & Hlen & H64 & Hb & Hsl & Hf).
  destruct (Z.ltb_spec o 0); [lia|]. destruct (Z.ltb_spec l 0); [lia|]. cbn [orb].
  destruct (Z.ltb_spec u64_max (o + l)); [lia|]. destruct (Z.ltb_spec (Z.of_nat (length data)) (o + l)); [lia|].
  rewrite Hsl, Ok_bind, Hf, io_try_ok. unfold cardinality.
  assert (rb_len (bitmap dv) <= rb_len (bitmap (union_with new dv))) by (apply rb_len_le; cbn; rewrite rb_set_or; set_solver).
  assert (rb_len (bitmap new) <= rb_len (bitmap (union_with new dv))) by (apply rb_len_le; cbn; rewrite rb_set_or; set_solver).
  destruct (Z.ltb_spec (rb_len (bitmap (union_with new dv))) (Z.max (rb_len (bitmap dv)) (rb_len (bitmap new)))); [lia|].
  exists d. eexists. split; [apply runs_ret|]. eauto.
Qed.

(** Writing a file, syncing it and its directory. *)
Lemma total_store {A} p b (P : Disk -> Prop) (k : io (res A)) Q :
  (forall d, P d -> P (write_file p b d)) -> (forall d, P d -> P (sync_file p d)) -> (forall d, P d -> P (sync_dir p.1 d)) ->
  total (fun d => P d /\ is_Some (lookup_path d p)) k Q ->
  total P (io_write p b ;? io_sync p ;? io_sync_dir p.1 ;? k) Q.
Proof.
  intros Hw Hs Hd Hk.
  apply total_try with (R := fun _ d => P d /\ is_Some (lookup_path d p)).
  { apply total_syscall. intros d HP. exists tt. cbn [fst snd]. split; [done|]. split; [by apply Hw|].
    destruct (written_write p b d) as (i & -> & _). by eexists. }
  intros []. apply total_try with (R := fun _ d => P d /\ is_Some (lookup_path d p)).
  { apply total_syscall. intros d [HP [i Hi]]. rewrite Hi. exists tt. cbn [fst snd]. split; [done|]. split; [by apply Hs|].
    rewrite (lookup_path_dirs d) by apply sync_file_dirs. by eexists. }
  intros []. apply total_try with (R := fun _ d => P d /\ is_Some (lookup_path d p)); [|by intros []].
  apply total_syscall. intros d [HP Hi]. exists tt. cbn [fst snd]. split; [done|]. split; [by apply Hd|].
  by rewrite lookup_path_sync_dir.
Qed.

Lemma upload_total cur sid S (dvs : list (string * DeletionVector B)) locs pending :
  0 <= sid -> in_i 64 sid ->
  (forall f new dv, (f, new) ∈ dvs -> merged_ok cur S f new dv -> is_ok (encode_puffin crc32 (J := J) dv f sid sid)) ->
  total (fun d => DvState crc32 (B := B) d cur sid S) (upload_dvs crc32 (J := J) cur sid dvs locs pending)
    (fun r _ => exists locs' ps, r = Ok (locs', ps) /\ dom locs' = dom locs ∪ list_to_set (map fst dvs)).
Proof.
  intros H0 Hi. revert locs pending. induction dvs as [|[f new] dvs IH]; intros locs pending He.
  { apply total_ret. intros d _. exists locs, pending. split; [done|]. cbn. set_solver. }
  cbn [upload_dvs]. eapply total_try; [by apply merge_total|]. intros merged.
  intros d [Hm HD]. revert d HD. change (total (fun d => DvState crc32 (B := B) d cur sid S)
    (encoded <-? mret (encode_puffin crc32 (J := J) merged f sid sid);
     let p := puffin_path f sid in io_create_dir_all p.1 ;? io_write p (pe_bytes encoded) ;? io_sync p ;? io_sync_dir p.1 ;?
      upload_dvs crc32 (J := J) cur sid dvs (<[f := {| loc_path := join_path p; loc_offset := blob_offset encoded;
                              loc_length := blob_length encoded |}]> locs) (pending ++ [p]))
    (fun r _ => exists locs' ps, r = Ok (locs', ps) /\ dom locs' = dom locs ∪ list_to_set (map fst ((f, new) :: dvs)))).
  destruct (He f new merged ltac:(left) Hm) as [enc ->]. rewrite io_try_ok. cbv zeta.
  assert (HT : ~ puffin_before sid (puffin_path f sid)).
  { intros (q & s0 & Hs0 & E). apply puffin_path_sid in E; [lia|unfold in_i in *; lia..]. }
  assert (HK : forall d d', keeps (puffin_before sid) d d' -> DvState crc32 (B := B) d cur sid S -> DvState crc32 (B := B) d' cur sid S).
  { intros d d' K. by eapply DvState_keeps; [|exact K]. }
  apply total_try with (R := fun _ d => DvState crc32 (B := B) d cur sid S).
  { apply total_syscall. intros d HD. by exists tt. }
  intros []. apply total_store.
  - intros d. by apply HK, keeps_write.
  - intros d. apply HK, keeps_sync_file.
  - intros d. apply HK, keeps_sync_dir.
  - eapply total_conseq; [apply IH|by intros d [? _]|].
    + intros g n' dv Hin. apply He. by right.
    + intros r d (locs' & ps & -> & Hd). exists locs', ps. split; [done|]. rewrite Hd, dom_insert_L. cbn. set_solver.
Qed.

Lemma publish_total m sid data :
  to_protobuf m = Ok data -> total (fun _ => True) (publish m sid) (fun r _ => r = Ok tt).
Proof.
  intros E. unfold publish. rewrite E, io_try_ok. apply (total_store (meta_pb sid)); [done..|].
  apply total_try with (R := fun _ d => is_Some (lookup_path d TMP_HINT)).
  { apply total_syscall. intros d _. exists tt. cbn [fst snd]. split; [done|].
    destruct (written_write TMP_HINT (hint_bytes sid) d) as (i & -> & _). by eexists. }
  intros []. apply total_try with (R := fun _ d => is_Some (lookup_path d TMP_HINT)).
  { apply total_syscall. intros d [i Hi]. rewrite Hi. exists tt. cbn [fst snd]. split; [done|].
    rewrite (lookup_path_dirs d) by apply sync_file_dirs. by eexists. }
  intros []. apply total_try with (R := fun _ _ => True).
  { apply total_syscall. intros d [i Hi]. change (""%string, TMP_HINT.2) with TMP_HINT. rewrite Hi. by exists tt. }
  intros []. by apply total_syscall.
Qed.

Lemma commit_total cat (t : SnapshotTransaction B) order s uuid now_ms S :
  let sid := cat_next_version cat in
  0 <= sid < 2 ^ 63 - 1 -> order ≡ₚ map_to_list (dvs t) ->
  (forall f new dv, (f, new) ∈ order -> merged_ok (cat_current cat) S f new dv ->
     is_ok (encode_puffin crc32 (J := J) dv f sid sid)) ->
  (forall locs, dom locs = dom (dvs t) -> exists m', apply now_ms uuid (cat_current cat) t sid locs = Ok m') ->
  is_Some (schema_to_json (m_schema (cat_current cat))) ->
  total (fun d => DvState crc32 (B := B) d (cat_current cat) sid S)
    (commit crc32 (J := J) order cat t s uuid now_ms) (fun r _ => exists v, r.2 = Ok v).
Proof.
  intros sid Hs Hord He Ha [j Hj]. unfold commit. fold sid. eapply total_bind.
  { apply upload_total; [lia|unfold in_i; lia|exact He]. }
  intros r d (locs & ps & -> & Hd). revert d. cbn beta iota.
  assert (Hdom : dom locs = dom (dvs t)).
  { rewrite Hd, dom_empty_L, union_empty_l_L. apply set_eq. intros x. rewrite elem_of_list_to_set, elem_of_dom.
    rewrite list_elem_of_In, in_map_iff. split.
    - intros ([f dv] & <- & Hin%list_elem_of_In). rewrite Hord in Hin. apply elem_of_map_to_list in Hin. by eexists.
    - intros [dv Hx]. exists (x, dv). split; [done|]. apply list_elem_of_In. rewrite Hord. by apply elem_of_map_to_list. }
  destruct (Ha locs Hdom) as [m' Hm']. rewrite Hm', io_try_ok.
  assert (Hp : exists data, to_protobuf m' = Ok data).
  { unfold to_protobuf, to_pb. destruct (apply_Ok _ _ _ _ _ _ _ Hm') as (_ & ? & ? & ? & ? & _ & _ & _ & _ & _ & _ & _ & ->).
    cbn [m_schema]. rewrite Hj. cbn. eauto. }
  destruct Hp as [data Hp]. intros d.
  assert (HT : total (fun _ => True) (result ← (publish m' sid ;? mret (Ok m'));
      match result with
      | Ok m => if 2 ^ 63 - 1 <=? sid then mret (cat, Panic)
                else mret ({| cat_current := m; cat_next_version := sid + 1 |}, Ok (to_version m s))
      | Err e => _ ← remove_all ps; mret (cat, Err e)
      | Panic => mret (cat, Panic)
      end) (fun r _ => exists v, r.2 = Ok v)); [|by apply HT].
  apply total_bind with (R := fun r _ => r = Ok m').
  - apply total_try with (R := fun _ _ => True); [|intros []; by apply total_ret].
    eapply total_conseq; [by eapply publish_total|done|]. intros r _ ->. by exists tt.
  - intros r d1 ->. destruct (Z.leb_spec (2 ^ 63 - 1) sid); [lia|].
    exists d1. eexists. split; [apply runs_ret|]. cbn. eauto.
Qed.
End run.
