(* ===== verification/Compaction.v ===== *)
(** * Compaction

    [src/crates/merutable/src/engine/compaction/]: the merging iterator
    ([iterator.rs]), the choice of what to compact ([picker.rs]) and, of the
    job ([job.rs]), the selection of overlapping files and the splitting of
    the output into files.  The Parquet readers and writers, the catalog
    commit and the reservation of levels are not part of this file. *)

From stdpp Require Import pretty.
From S2P Require Import Prelude Sequence Schema Key Mvcc LsmVersion DeletionVector Manifest.
Local Open Scope Z_scope.

(** ** The merging iterator *)
Record CompactionEntry : Type := {
  ce_ikey : InternalKey;
  ce_row : Row;
  source_file_idx : nat;
  row_position : Z;
}.

Record FileEntries : Type := {
  file_idx : nat;
  entries : list (InternalKey * Row * Z);
}.

Definition flatten (files : list FileEntries) : list CompactionEntry :=
  concat (map (fun fe =>
    map (fun e => {| ce_ikey := e.1.1; ce_row := e.1.2; source_file_idx := file_idx fe;
                     row_position := e.2 |}) (entries fe)) files).

(** [a.ikey.cmp(&b.ikey) != Greater]. *)
Definition entry_leb (a b : CompactionEntry) : bool :=
  match InternalKey_cmp (ce_ikey a) (ce_ikey b) with Gt => false | _ => true end.

(** The deduplication loop, from its [last_uk]. *)
Fixpoint dedup (oldest : SeqNum) (drop_tombstones : bool) (all : list CompactionEntry)
    (last_uk : option bytes) : list CompactionEntry :=
  match all with
  | [] => []
  | entry :: all =>
      let uk := user_key_bytes (ce_ikey entry) in
      if bool_decide (last_uk = Some uk) then
        if oldest <=? seq (ce_ikey entry) then
          entry :: dedup oldest drop_tombstones all last_uk
        else dedup oldest drop_tombstones all last_uk
      else if drop_tombstones && bool_decide (op_type (ce_ikey entry) = Delete)
                && (seq (ce_ikey entry) <? oldest) then
        dedup oldest drop_tombstones all (Some uk)
      else entry :: dedup oldest drop_tombstones all (Some uk)
  end.

Definition CompactionIterator_new (files : list FileEntries) (oldest : SeqNum)
    (drop_tombstones : bool) : list CompactionEntry :=
  dedup oldest drop_tombstones (sort_by entry_leb (flatten files)) None.

(** ** Splitting the output *)
Definition field_bytes (fv : FieldValue) : Z :=
  match fv with
  | Boolean _ => 1
  | Int32 _ | Float _ => 4
  | Int64 _ | Double _ => 8
  | Bytes b => Z.of_nat (length b) + 8
  end.

Definition estimate_row_bytes (row : Row) : Z :=
  wrap 64 (foldr (fun f t => match f with Some fv => field_bytes fv + t | None => t end) 0
             (fields row)).

Definition TARGET_OUTPUT_FILE_BYTES : Z := 512 * 1024 * 1024.

Record OutputChunk : Type := {
  rows : list (InternalKey * Row);
  oc_seq_min : Z;
  oc_seq_max : Z;
  oc_key_min : bytes;
  oc_key_max : bytes;
  approx_bytes : Z;
  last_user_key : bytes;
}.

Definition empty_chunk : OutputChunk :=
  {| rows := []; oc_seq_min := u64_max; oc_seq_max := 0; oc_key_min := []; oc_key_max := [];
     approx_bytes := 0; last_user_key := [] |}.

Definition push (k : InternalKey) (row : Row) (est : Z) (c : OutputChunk) : OutputChunk :=
  let uk := user_key_bytes k in
  let s := seq k in
  {| rows := rows c ++ [(k, row)];
     oc_seq_min := if s <? oc_seq_min c then s else oc_seq_min c;
     oc_seq_max := if oc_seq_max c <? s then s else oc_seq_max c;
     oc_key_min := if bytes_eqb (oc_key_min c) [] || bytes_ltb uk (oc_key_min c) then uk
                   else oc_key_min c;
     oc_key_max := if bytes_ltb (oc_key_max c) uk then uk else oc_key_max c;
     approx_bytes := sat_add 64 (approx_bytes c) est;
     last_user_key := uk |}.

Definition entry_estimate (e : CompactionEntry) : Z :=
  wrap 64 (estimate_row_bytes (ce_row e)
           + Z.of_nat (length (user_key_bytes (ce_ikey e))) + 16).

(** The chunking loop of [run_one_compaction_job]. *)
Fixpoint chunk_loop (es : list CompactionEntry) (chunks : list OutputChunk)
    (cur : OutputChunk) : list OutputChunk :=
  match es with
  | [] => if bool_decide (rows cur = []) then chunks else chunks ++ [cur]
  | e :: es =>
      let est := entry_estimate e in
      if negb (bool_decide (rows cur = []))
         && (TARGET_OUTPUT_FILE_BYTES <? sat_add 64 (approx_bytes cur) est)
         && negb (bytes_eqb (last_user_key cur) (user_key_bytes (ce_ikey e))) then
        chunk_loop es (chunks ++ [cur]) (push (ce_ikey e) (ce_row e) est empty_chunk)
      else chunk_loop es chunks (push (ce_ikey e) (ce_row e) est cur)
  end.

Definition make_chunks (es : list CompactionEntry) : list OutputChunk :=
  chunk_loop es [] empty_chunk.

(** ** Overlap with the output level *)
Definition min_opt (o : option bytes) (k : bytes) : option bytes :=
  match o with
  | None => Some k
  | Some cur => if bytes_ltb k cur then Some k else o
  end.
Definition max_opt (o : option bytes) (k : bytes) : option bytes :=
  match o with
  | None => Some k
  | Some cur => if bytes_ltb cur k then Some k else o
  end.

Definition compute_union_range (files : list DataFileMeta) : option bytes * option bytes :=
  foldl (fun u f => (min_opt u.1 (key_min (meta f)), max_opt u.2 (key_max (meta f))))
    (None, None) files.

Definition overlaps (umin umax : bytes) (f : DataFileMeta) : bool :=
  (bytes_eqb (key_min (meta f)) [] || bytes_leb (key_min (meta f)) umax)
  && (bytes_eqb (key_max (meta f)) [] || bytes_leb umin (key_max (meta f))).

Definition overlap_output (inputs outputs : list DataFileMeta) : list DataFileMeta :=
  match compute_union_range inputs with
  | (Some umin, Some umax) => List.filter (overlaps umin umax) outputs
  | _ => []
  end.

(** The file written for a chunk: its path, size and column statistics come
    from the writer. *)
Definition output_file (output_level : Z) (fmt : FileFormat) (p : string) (size : Z)
    (stats : option (list ColumnStats)) (c : OutputChunk) : IcebergDataFile :=
  {| df_path := p; df_file_size := size; df_num_rows := Z.of_nat (length (rows c));
     df_meta := {| level := output_level;
                   seq_min := if oc_seq_min c =? u64_max then 0 else oc_seq_min c;
                   seq_max := oc_seq_max c; key_min := oc_key_min c; key_max := oc_key_max c;
                   num_rows := Z.of_nat (length (rows c)); file_size := size;
                   fm_dv_path := None; fm_dv_offset := None; fm_dv_length := None;
                   format := Some fmt; column_stats := stats |} |}.

(** The transaction of the job: the new files are added, every consumed file
    is removed. *)
Definition compaction_txn {B : Type} (input_level output_level : Z)
    (inputs overlapping : list DataFileMeta) (new : list IcebergDataFile)
    : SnapshotTransaction B :=
  let t := foldl (fun t f => add_file f t) txn_new new in
  let t := foldl (fun t f => remove_file (path f) t) t inputs in
  let t := foldl (fun t f => remove_file (path f) t) t overlapping in
  set_prop "merutable.output_level" (pretty output_level)
    (set_prop "merutable.input_level" (pretty input_level)
       (set_prop "merutable.job" "compaction" t)).

(** The paths it removes. *)
Definition removed_paths (inputs outputs : list DataFileMeta) : list string :=
  map path inputs ++ map path (overlap_output inputs outputs).

(** ** The iterator and snapshot reads *)

Definition version_of (e : CompactionEntry) : VersionOf CompactionEntry :=
  {| v_key := user_key_bytes (ce_ikey e); v_seq := seq (ce_ikey e);
     v_op := op_type (ce_ikey e); v_val := e |}.

(** What survives: the latest version of a key unless it is a droppable
    tombstone, and the older versions at or above the watermark. *)
Definition survives (oldest : SeqNum) (drop_tombstones : bool)
    (vs : list (VersionOf CompactionEntry)) (v : VersionOf CompactionEntry) : bool :=
  match newest vs (v_key v) SEQNUM_MAX with
  | None => false
  | Some l =>
      if v_seq l =? v_seq v then
        negb (drop_tombstones && bool_decide (v_op v = Delete) && (v_seq v <? oldest))
      else oldest <=? v_seq v
  end.

Definition keep {A} (p : A -> bool) (o : option A) : option A :=
  match o with Some x => if p x then Some x else None | None => None end.

Section iterator.
Context (K : bytes -> Prop) (K_pf : prefix_free K).
Context (oldest : SeqNum) (drop_tombstones : bool).

Abbreviation vers l := (map version_of l).
Abbreviation dedup' := (dedup oldest drop_tombstones).

Lemma entry_leb_spec a b :
  key_wf K (ce_ikey a) -> key_wf K (ce_ikey b) ->
  entry_leb a b = true <-> ~ v_lt (version_of b) (version_of a).
Proof.
  intros (_ & _ & Ea) (_ & _ & Eb). unfold entry_leb, InternalKey_cmp, v_lt, ikey. simpl.
  rewrite <- Ea, <- Eb, <- bytes_cmp_gt.
  destruct (bytes_cmp (encoded (ce_ikey a)) (encoded (ce_ikey b))); split; auto.
Qed.

Lemma wf_ok e : key_wf K (ce_ikey e) -> v_ok K (version_of e).
Proof. intros (H1 & H2 & _). by split. Qed.

Lemma sorted_strict es :
  StronglySorted entry_leb es -> Forall (fun e => key_wf K (ce_ikey e)) es ->
  unique_seqs (vers es) -> StronglySorted v_lt (vers es).
Proof.
  induction 1 as [|e es Hs IH He]; intros HF Hu; [constructor|].
  apply Forall_cons in HF as [We HF]. unfold unique_seqs in Hu. simpl in Hu.
  apply NoDup_cons in Hu as [Hnin Hu]. constructor; [by apply IH|].
  apply Forall_fmap, Forall_forall. intros x Hx. simpl.
  rewrite Forall_forall in He, HF. pose proof (He x Hx) as Hle%Is_true_true.
  apply entry_leb_spec in Hle; [|done|by apply HF].
  unfold v_lt in *. destruct (bytes_cmp_spec (ikey (version_of e)) (ikey (version_of x)))
    as [E|L|L]; [|done..]. exfalso. apply Hnin.
  apply (ikey_inj K K_pf) in E as [E1 E2]; [|by apply wf_ok|by apply wf_ok, HF].
  simpl in E1, E2. apply list_elem_of_fmap. exists (version_of x). simpl.
  rewrite E1, E2. split; [done|]. by apply (list_elem_of_fmap_2 version_of).
Qed.

(** Beyond a larger key there is nothing visible for a smaller one. *)
Lemma find_beyond v (ws : list (VersionOf CompactionEntry)) k r :
  v_ok K v -> Forall (v_ok K) ws -> Forall (v_lt v) ws -> bytes_lt k (v_key v) ->
  List.find (visible k r) ws = None.
Proof.
  intros Hv HF Hlt Hk. apply find_none_false. rewrite Forall_forall in *. intros w Hw.
  apply not_true_iff_false. rewrite visible_spec. intros [<- _].
  pose proof (Hlt w Hw) as H. apply (v_lt_iff K K_pf) in H; [|done|by apply HF].
  destruct H as [H|[E _]].
  - by apply (bytes_lt_irrefl (v_key w)), (bytes_lt_trans _ (v_key v)).
  - rewrite E in Hk. by apply bytes_lt_irrefl in Hk.
Qed.

Lemma dedup_subset es last x : x ∈ dedup' es last -> x ∈ es.
Proof.
  revert last. induction es as [|e es IH]; intros last; simpl; [done|].
  repeat case_match; rewrite ?elem_of_cons; naive_solver.
Qed.

Lemma find_dedup_beyond e es last k r :
  StronglySorted v_lt (vers (e :: es)) -> Forall (v_ok K) (vers (e :: es)) ->
  bytes_lt k (v_key (version_of e)) ->
  List.find (visible k r) (vers (dedup' es last)) = None.
Proof.
  intros Hs HF Hk. simpl in Hs, HF. inversion Hs as [|? ? _ Hlt]; subst.
  apply Forall_cons in HF as [Ve HF]. apply (find_beyond (version_of e)); [done| | |done].
  - rewrite Forall_fmap in HF |- *. rewrite Forall_forall in HF |- *.
    intros x Hx%dedup_subset. by apply HF.
  - rewrite Forall_fmap in Hlt |- *. rewrite Forall_forall in Hlt |- *.
    intros x Hx%dedup_subset. by apply Hlt.
Qed.

Lemma invisible_key (v : VersionOf CompactionEntry) k r : v_key v <> k -> visible k r v = false.
Proof. intros H. apply not_true_iff_false. rewrite visible_spec. tauto. Qed.

(** Once the latest version of [k] has been passed, the rest of its versions
    are kept down to the watermark. *)
Lemma find_dedup_same es k r :
  StronglySorted v_lt (vers es) -> Forall (v_ok K) (vers es) ->
  Forall (fun e => ~ bytes_lt (user_key_bytes (ce_ikey e)) k) es ->
  List.find (visible k r) (vers (dedup' es (Some k)))
  = keep (fun v => oldest <=? v_seq v) (List.find (visible k r) (vers es)).
Proof.
  induction es as [|e es IH]; intros Hs HF Hge; [done|].
  pose proof Hs as Hs0. pose proof HF as HF0. simpl in Hs, HF.
  inversion Hs as [|? ? Hs' Hlt]; subst. apply Forall_cons in HF as [Ve HF].
  apply Forall_cons in Hge as [Ge Hge]. specialize (IH Hs' HF Hge).
  cbn [dedup]. destruct (decide (user_key_bytes (ce_ikey e) = k)) as [E|Hne].
  - rewrite bool_decide_true by congruence. cbn [map List.find].
    destruct (Z.leb_spec oldest (seq (ce_ikey e))) as [Ho|Ho].
    + cbn [map List.find]. rewrite IH.
      destruct (visible k r (version_of e)); [|done]. simpl.
      destruct (Z.leb_spec oldest (seq (ce_ikey e))); [done|lia].
    + rewrite IH. destruct (visible k r (version_of e)) eqn:Ev; [|done]. simpl.
      destruct (Z.leb_spec oldest (seq (ce_ikey e))); [lia|].
      destruct (List.find (visible k r) (vers es)) as [w|] eqn:Ew; [|done]. simpl.
      apply find_some in Ew as [Hin [Ek _]%visible_spec]. apply list_elem_of_In in Hin.
      rewrite Forall_forall in Hlt, HF.
      pose proof (v_lt_same_key K K_pf _ _ Ve (HF w Hin) (Hlt w Hin)) as Hle.
      simpl in Hle. rewrite Ek in Hle. specialize (Hle E).
      destruct (Z.leb_spec oldest (v_seq w)); [lia|done].
  - assert (Hk : bytes_lt k (user_key_bytes (ce_ikey e))).
    { destruct (bytes_cmp_spec k (user_key_bytes (ce_ikey e))); congruence || done. }
    rewrite bool_decide_false by congruence. cbn [map List.find].
    rewrite (invisible_key (version_of e)) by done.
    rewrite (find_beyond (version_of e) (vers es)) by done. simpl.
    pose proof (find_dedup_beyond e es (Some (user_key_bytes (ce_ikey e))) k r Hs0 HF0 Hk) as HN.
    destruct (drop_tombstones && _ && _); [done|]. cbn [map List.find].
    by rewrite (invisible_key (version_of e)).
Qed.

Lemma survives_first e es (v : VersionOf CompactionEntry) :
  StronglySorted v_lt (vers (e :: es)) -> Forall (v_ok K) (vers (e :: es)) ->
  v_key v = user_key_bytes (ce_ikey e) ->
  survives oldest drop_tombstones (vers (e :: es)) v =
  if seq (ce_ikey e) =? v_seq v then
    negb (drop_tombstones && bool_decide (v_op v = Delete) && (v_seq v <? oldest))
  else oldest <=? v_seq v.
Proof.
  intros Hs HF Ek. unfold survives. rewrite (newest_sorted K K_pf) by done.
  cbn [map List.find]. assert (Hv : visible (v_key v) SEQNUM_MAX (version_of e) = true).
  { apply visible_spec. simpl. split; [done|]. simpl in HF.
    apply Forall_cons in HF as [[_ [_ H]] _]. exact H. }
  by rewrite Hv.
Qed.

(** Before the first version of [k]. *)
Lemma find_dedup_new es last k r :
  StronglySorted v_lt (vers es) -> Forall (v_ok K) (vers es) -> unique_seqs (vers es) ->
  last <> Some k ->
  List.find (visible k r) (vers (dedup' es last))
  = keep (survives oldest drop_tombstones (vers es)) (List.find (visible k r) (vers es)).
Proof.
  revert last. induction es as [|e es IH]; intros last Hs HF Hu Hlast; [done|].
  pose proof Hs as Hs0. pose proof HF as HF0. simpl in Hs, HF.
  inversion Hs as [|? ? Hs' Hlt]; subst. apply Forall_cons in HF as [Ve HF].
  pose proof Hu as Hu0. unfold unique_seqs in Hu. cbn [map] in Hu.
  apply NoDup_cons in Hu as [Hnin Hu'].
  cbn [dedup]. destruct (decide (user_key_bytes (ce_ikey e) = k)) as [E|Hne].
  - (* the latest version of k *)
    rewrite bool_decide_false by congruence.
    assert (Hrest : List.find (visible k r) (vers (dedup' es (Some k)))
              = keep (survives oldest drop_tombstones (vers (e :: es)))
                  (List.find (visible k r) (vers es))).
    { rewrite find_dedup_same; [|done|done|].
      - destruct (List.find (visible k r) (vers es)) as [w|] eqn:Ew; [|done]. cbn [keep].
        apply find_some in Ew as [Hin [Ekw _]%visible_spec]. apply list_elem_of_In in Hin.
        rewrite survives_first by (done || congruence).
        destruct (Z.eqb_spec (seq (ce_ikey e)) (v_seq w)) as [Es|]; [|done].
        exfalso. apply Hnin. apply list_elem_of_fmap. exists w. split; [|done].
        simpl. congruence.
      - rewrite Forall_forall. intros x Hx Hxk. rewrite Forall_forall in Hlt, HF.
        assert (Hin : version_of x ∈ vers es) by by apply list_elem_of_fmap_2.
        pose proof (Hlt _ Hin) as Hlx. apply (v_lt_iff K K_pf) in Hlx; [|done|by apply HF].
        simpl in Hlx. subst k. destruct Hlx as [L|[L _]].
        + by apply (bytes_lt_irrefl (user_key_bytes (ce_ikey e))),
            (bytes_lt_trans _ (user_key_bytes (ce_ikey x))).
        + rewrite L in Hxk. by apply bytes_lt_irrefl in Hxk. }
    rewrite E. cbn [map List.find].
    assert (Hsv : survives oldest drop_tombstones (vers (e :: es)) (version_of e)
              = negb (drop_tombstones && bool_decide (op_type (ce_ikey e) = Delete)
                        && (seq (ce_ikey e) <? oldest))).
    { rewrite survives_first by done. simpl. by rewrite Z.eqb_refl. }
    cbn [map] in Hrest, Hsv.
    destruct (drop_tombstones && bool_decide (op_type (ce_ikey e) = Delete)
                && (seq (ce_ikey e) <? oldest)) eqn:Ed.
    + rewrite Hrest. destruct (visible k r (version_of e)) eqn:Ev; [|done].
      cbn [keep]. rewrite Hsv. cbn [negb].
      destruct (List.find (visible k r) (vers es)) as [w|] eqn:Ew; [|done]. cbn [keep].
      pose proof Ew as [Hin [Ekw _]%visible_spec]%find_some. apply list_elem_of_In in Hin.
      pose proof (survives_first e es w Hs0 HF0 ltac:(congruence)) as Hw.
      cbn [map] in Hw. rewrite Hw. clear Hw.
      destruct (Z.eqb_spec (seq (ce_ikey e)) (v_seq w)) as [Es|Hs2].
      { exfalso. apply Hnin. apply list_elem_of_fmap. exists w. split; [|done].
        simpl. congruence. }
      rewrite Forall_forall in Hlt, HF.
      pose proof (v_lt_same_key K K_pf _ _ Ve (HF w Hin) (Hlt w Hin) ltac:(simpl; congruence)).
      simpl in *. apply andb_true_iff in Ed as [_ Ed%Z.ltb_lt].
      destruct (Z.leb_spec oldest (v_seq w)); [lia|done].
    + cbn [map List.find]. destruct (visible k r (version_of e)); [|done].
      cbn [keep]. by rewrite Hsv.
  - assert (Hsame : keep (survives oldest drop_tombstones (vers (e :: es)))
                      (List.find (visible k r) (vers es))
              = keep (survives oldest drop_tombstones (vers es))
                  (List.find (visible k r) (vers es))).
    { destruct (List.find (visible k r) (vers es)) as [w|] eqn:Ew; [|done]. cbn [keep].
      apply find_some in Ew as [_ [Ekw _]%visible_spec]. unfold survives. cbn [map newest].
      by rewrite (invisible_key (version_of e)) by (simpl; congruence). }
    cbn [map List.find] in *. rewrite (invisible_key (version_of e)) by done.
    rewrite Hsame.
    repeat case_match; cbn [map List.find];
      rewrite ?(invisible_key (version_of e)) by done; apply IH; done || congruence.
Qed.

Lemma dedup_sorted es last :
  StronglySorted v_lt (vers es) -> StronglySorted v_lt (vers (dedup' es last)).
Proof.
  revert last. induction es as [|e es IH]; intros last Hs; [done|]. cbn [map] in Hs.
  inversion Hs as [|? ? Hs' Hlt]; subst.
  assert (Hcons : forall l, StronglySorted v_lt (vers (e :: dedup' es l))).
  { intros l. cbn [map]. constructor; [by apply IH|]. rewrite Forall_fmap in Hlt |- *.
    rewrite Forall_forall in Hlt |- *. intros x Hx%dedup_subset. by apply Hlt. }
  cbn [dedup]. repeat case_match; auto.
Qed.

Lemma iterator_spec files :
  Forall (fun e => key_wf K (ce_ikey e)) (flatten files) ->
  unique_seqs (vers (flatten files)) ->
  let out := CompactionIterator_new files oldest drop_tombstones in
  StronglySorted v_lt (vers out) /\ (forall e, e ∈ out -> e ∈ flatten files) /\
  forall k r, newest (vers out) k r
    = keep (survives oldest drop_tombstones (vers (flatten files)))
        (newest (vers (flatten files)) k r).
Proof.
  intros HF Hu out. set (all := sort_by entry_leb (flatten files)).
  assert (P : all ≡ₚ flatten files) by apply sort_by_perm.
  assert (HFa : Forall (fun e => key_wf K (ce_ikey e)) all) by by rewrite P.
  assert (Hua : unique_seqs (vers all)) by by rewrite P.
  assert (Hok : Forall (v_ok K) (vers all)).
  { apply Forall_fmap. eapply Forall_impl; [exact HFa|]. apply wf_ok. }
  assert (Hs : StronglySorted v_lt (vers all)).
  { apply sorted_strict; [|done|done]. apply sort_by_sorted.
    - intros x y. unfold entry_leb, InternalKey_cmp.
      rewrite (bytes_cmp_antisym (encoded (ce_ikey x))).
      by destruct (bytes_cmp (encoded (ce_ikey x)) (encoded (ce_ikey y))).
    - intros x y z. unfold entry_leb, InternalKey_cmp.
      change (bytes_leb (encoded (ce_ikey x)) (encoded (ce_ikey y)) = true ->
              bytes_leb (encoded (ce_ikey y)) (encoded (ce_ikey z)) = true ->
              bytes_leb (encoded (ce_ikey x)) (encoded (ce_ikey z)) = true).
      apply bytes_leb_trans. }
  pose proof (dedup_sorted all None Hs) as Hso.
  split; [exact Hso|]. split.
  - intros e He%dedup_subset. by rewrite <- P.
  - intros k r. unfold out, CompactionIterator_new. fold all.
    rewrite (newest_sorted K K_pf); [|exact Hso|].
    + rewrite find_dedup_new by done. rewrite <- (newest_sorted K K_pf) by done.
      rewrite (newest_perm (vers all) (vers (flatten files))); [|done|by rewrite P].
      destruct (newest (vers (flatten files)) k r) as [v|]; [|done]. cbn [keep].
      unfold survives. rewrite (newest_perm (vers all) (vers (flatten files)));
        [done|done|by rewrite P].
    + rewrite Forall_fmap in Hok |- *. rewrite Forall_forall in Hok |- *.
      intros x Hx%dedup_subset. by apply Hok.
Qed.

End iterator.

(** What a reader gets from a version: a deleted key reads as absent. *)
Definition live (o : option (VersionOf CompactionEntry)) : option CompactionEntry :=
  match o with
  | Some v => match v_op v with Put => Some (v_val v) | Delete => None end
  | None => None
  end.

(** ** Properties of the iterator *)

(** C14. Exact effect of the compaction merge on every snapshot: for every
    key and every read sequence, what the output shows is what the inputs
    showed, kept if that version is the latest of its key (and not a tombstone
    that is dropped) or is at or above the watermark, and nothing otherwise.
    The output is strictly sorted and contains only input entries. *)
Theorem compaction_snapshot_reads s files oldest drop_tombstones :
  Forall (fun e => key_wf (encoded_key s) (ce_ikey e)) (flatten files) ->
  unique_seqs (map version_of (flatten files)) ->
  let out := CompactionIterator_new files oldest drop_tombstones in
  StronglySorted v_lt (map version_of out) /\ (forall e, e ∈ out -> e ∈ flatten files) /\
  forall k r, newest (map version_of out) k r
    = keep (survives oldest drop_tombstones (map version_of (flatten files)))
        (newest (map version_of (flatten files)) k r).
Proof. apply iterator_spec, encoded_key_prefix_free. Qed.

(** Compaction does not change what a reader at the current sequence
    number reads: if no input version of the key is newer than the reader, the
    live row of the key before and after the merge is the same, dropped
    tombstones included. *)
Theorem compaction_preserves_current_reads s files oldest drop_tombstones k r :
  Forall (fun e => key_wf (encoded_key s) (ce_ikey e)) (flatten files) ->
  unique_seqs (map version_of (flatten files)) ->
  Forall (fun e => user_key_bytes (ce_ikey e) = k -> seq (ce_ikey e) <= r) (flatten files) ->
  live (newest (map version_of (CompactionIterator_new files oldest drop_tombstones)) k r)
  = live (newest (map version_of (flatten files)) k r).
Proof.
  intros HF Hu Hr.
  destruct (iterator_spec _ (encoded_key_prefix_free s) oldest drop_tombstones files HF Hu)
    as (_ & _ & ->).
  destruct (newest (map version_of (flatten files)) k r) as [v|] eqn:Ev; [|done].
  pose proof Ev as (Hin & [Ek _]%visible_spec & Hmax)%newest_is_newest.
  assert (El : newest (map version_of (flatten files)) (v_key v) SEQNUM_MAX = Some v).
  { apply newest_iff; [done|]. split; [done|].
    apply list_elem_of_fmap in Hin as (e & -> & He). rewrite Forall_forall in HF, Hr.
    split. { apply visible_spec. split; [done|]. apply (HF e He). }
    intros w Hw [Ekw _]%visible_spec. apply Hmax; [done|].
    apply list_elem_of_fmap in Hw as (e' & -> & He'). apply visible_spec.
    simpl in *. split; [congruence|]. apply Hr; [done|congruence]. }
  cbn [keep]. unfold survives. rewrite El, Z.eqb_refl.
  destruct (negb _) eqn:En; [done|]. simpl.
  apply negb_false_iff, andb_true_iff in En as [[_ Ed%bool_decide_eq_true]%andb_true_iff _].
  by rewrite Ed.
Qed.

(** Two versions of one key, from two files. *)
Definition ex_ikey (z : Z) (sq : Z) (op : OpType) : InternalKey := example_key z [b0] sq op.
Definition ex_row (z : Z) : Row := {| fields := [Some (Int32 1); Some (Bytes [b0]); Some (Bytes [byte.of_Z z])] |}.
Definition ex_files : list FileEntries :=
  [{| file_idx := 0; entries := [(ex_ikey 1 10 Put, ex_row 10, 0)] |};
   {| file_idx := 1; entries := [(ex_ikey 1 5 Put, ex_row 5, 0); (ex_ikey 2 6 Delete, ex_row 0, 1)] |}].

Lemma ex_files_wf :
  Forall (fun e => key_wf (encoded_key example_schema) (ce_ikey e)) (flatten ex_files).
Proof.
  assert (H : forall z sq op k, in_i 32 z -> 0 <= sq ->
    encode (example_pk z [b0]) sq op example_schema = Ok k ->
    key_wf (encoded_key example_schema) k).
  { intros z sq op k Hz Hsq. apply encode_key_wf; [|done].
    apply Forall_cons. split; [done|]. apply Forall_cons. split; [done|constructor]. }
  cbv [flatten ex_files concat map app entries file_idx].
  apply Forall_cons. split; [apply (H 1 10 Put); [unfold in_i; lia|lia|reflexivity]|].
  apply Forall_cons. split; [apply (H 1 5 Put); [unfold in_i; lia|lia|reflexivity]|].
  apply Forall_cons. split; [apply (H 2 6 Delete); [unfold in_i; lia|lia|reflexivity]|].
  constructor.
Qed.

Lemma ex_files_unique : unique_seqs (map version_of (flatten ex_files)).
Proof.
  unfold unique_seqs.
  assert (E : map (fun v => (v_key v, v_seq v)) (map version_of (flatten ex_files))
    = [(user_key_bytes (ex_ikey 1 10 Put), 10); (user_key_bytes (ex_ikey 1 5 Put), 5);
       (user_key_bytes (ex_ikey 2 6 Delete), 6)]) by reflexivity.
  rewrite E. clear E.
  repeat (apply NoDup_cons; split; [set_solver by lia|]). apply NoDup_nil_2.
Qed.

Lemma compaction_snapshot_reads_witness :
  let out := CompactionIterator_new ex_files 7 true in
  StronglySorted v_lt (map version_of out) /\ (forall e, e ∈ out -> e ∈ flatten ex_files) /\
  forall k r, newest (map version_of out) k r
    = keep (survives 7 true (map version_of (flatten ex_files)))
        (newest (map version_of (flatten ex_files)) k r).
Proof.
  apply (compaction_snapshot_reads example_schema ex_files 7 true);
    [exact ex_files_wf|exact ex_files_unique].
Defined.

Lemma compaction_preserves_current_reads_witness :
  live (newest (map version_of (CompactionIterator_new ex_files 7 true))
          (user_key_bytes (ex_ikey 1 10 Put)) 10)
  = live (newest (map version_of (flatten ex_files)) (user_key_bytes (ex_ikey 1 10 Put)) 10).
Proof.
  apply (compaction_preserves_current_reads example_schema ex_files 7 true);
    [exact ex_files_wf|exact ex_files_unique|].
  cbv [flatten ex_files concat map app entries file_idx].
  repeat (apply Forall_cons; split; [intros _; vm_compute; discriminate|]).
  apply Forall_nil_2.
Defined.

(** The watermark does not protect a reader pinned exactly at it: with
    versions 10 and 5 of a key and the oldest active reader at 7, the merge
    drops version 5, the only one that reader can see. *)
Theorem watermark_reader_loses_row :
  let k := user_key_bytes (ex_ikey 1 10 Put) in
  let out := CompactionIterator_new ex_files 7 false in
  (exists e, live (newest (map version_of (flatten ex_files)) k 7) = Some e /\
             seq (ce_ikey e) = 5) /\
  newest (map version_of out) k 7 = None.
Proof. split; [eexists; split; vm_compute; reflexivity|vm_compute; reflexivity]. Qed.

(** ** The output files *)

Abbreviation uk e := (user_key_bytes (ce_ikey e)).
Abbreviation key_le a b := (bytes_leb a b = true).

(** The chunk describes exactly the entries [g]. *)
Definition chunk_good (c : OutputChunk) (g : list CompactionEntry) : Prop :=
  rows c = map (fun e => (ce_ikey e, ce_row e)) g /\
  Forall (fun e => key_le (oc_key_min c) (uk e) /\ key_le (uk e) (oc_key_max c) /\
                   oc_seq_min c <= seq (ce_ikey e) <= oc_seq_max c) g /\
  match list.last g with
  | None => c = empty_chunk
  | Some l => last_user_key c = uk l /\ oc_key_max c = uk l /\
              exists e, e ∈ g /\ oc_key_min c = uk e
  end.

Lemma bytes_ltb_false a b : bytes_ltb a b = false <-> key_le b a.
Proof.
  rewrite bytes_leb_spec, <- bytes_ltb_spec. by destruct (bytes_ltb a b).
Qed.

Lemma bytes_lt_nil k : ~ bytes_lt k [].
Proof. by destruct k. Qed.

Lemma push_good c g e est :
  chunk_good c g -> Forall (fun x => key_le (uk x) (uk e)) g ->
  uk e <> [] -> Forall (fun x => uk x <> []) g -> 0 <= seq (ce_ikey e) <= u64_max ->
  chunk_good (push (ce_ikey e) (ce_row e) est c) (g ++ [e]).
Proof.
  intros (Er & HF & Hl) Hle Hne Hng Hsq. unfold chunk_good.
  rewrite last_snoc. cbn [push rows last_user_key oc_key_max oc_key_min oc_seq_min oc_seq_max].
  split; [by rewrite Er, map_app|].
  assert (Hmax : (if bytes_ltb (oc_key_max c) (uk e) then uk e else oc_key_max c) = uk e).
  { destruct (list.last g) as [l|] eqn:El.
    - destruct Hl as (_ & -> & _). destruct (bytes_ltb (uk l) (uk e)) eqn:E; [done|].
      apply bytes_ltb_false in E. apply last_Some_elem_of in El.
      rewrite Forall_forall in Hle. specialize (Hle l El).
      apply bytes_leb_spec in E, Hle. by destruct (bytes_cmp_spec (uk l) (uk e)).
    - rewrite Hl. cbn [empty_chunk oc_key_max]. by destruct (uk e). }
  rewrite Hmax.
  set (kmin := if bytes_eqb (oc_key_min c) [] || bytes_ltb (uk e) (oc_key_min c)
               then uk e else oc_key_min c).
  assert (Hmin : key_le kmin (uk e) /\ Forall (fun x => key_le kmin (uk x)) g /\
                 exists x, x ∈ g ++ [e] /\ kmin = uk x).
  { destruct (list.last g) as [l|] eqn:El.
    - destruct Hl as (_ & _ & x & Hx & Ex).
      assert (kmin = oc_key_min c) as ->.
      { unfold kmin. rewrite Forall_forall in Hle, Hng.
        destruct (bytes_eqb (oc_key_min c) []) eqn:E0.
        { apply bytes_eqb_spec in E0. exfalso. apply (Hng x Hx). congruence. }
        assert (bytes_ltb (uk e) (oc_key_min c) = false) as ->; [|done].
        rewrite Ex. apply bytes_ltb_false. auto. }
      rewrite Forall_forall in HF, Hle. split; [|split].
      + rewrite Ex. auto.
      + apply Forall_forall. intros y Hy. by apply HF.
      + exists x. split; [apply elem_of_app; by left|done].
    - apply last_None in El as ->. unfold kmin. rewrite Hl. simpl.
      split; [apply bytes_leb_refl|]. split; [constructor|]. exists e. split; [by left|done]. }
  destruct Hmin as (M1 & M2 & M3). split; [|by eauto].
  apply Forall_app_2.
  - rewrite Forall_forall in *. intros x Hx. destruct (HF x Hx) as (_ & _ & H3).
    split; [by apply M2|]. split; [by apply Hle|]. repeat case_res; lia.
  - constructor; [|constructor]. split; [done|]. split; [apply bytes_leb_refl|].
    assert (g = [] \/ oc_seq_min c <= oc_seq_max c) as Hg.
    { destruct g as [|x g]; [by left|right]. apply Forall_cons in HF as [(_ & _ & ?) _]. lia. }
    destruct (Z.ltb_spec (seq (ce_ikey e)) (oc_seq_min c)),
      (Z.ltb_spec (oc_seq_max c) (seq (ce_ikey e))); try lia.
Qed.

Definition chunk_before (c d : OutputChunk) : Prop := bytes_lt (oc_key_max c) (oc_key_min d).
Definition entry_ord (a b : CompactionEntry) : Prop := key_le (uk a) (uk b).
Definition entry_ok (e : CompactionEntry) : Prop := uk e <> [] /\ 0 <= seq (ce_ikey e) <= u64_max.

Lemma empty_good : chunk_good empty_chunk [].
Proof. repeat split; constructor. Qed.

Lemma sorted_app_le g e es :
  StronglySorted entry_ord (g ++ e :: es) -> Forall (fun x => key_le (uk x) (uk e)) g.
Proof.
  induction g as [|x g IH]; simpl; intros Hs; [constructor|].
  inversion Hs as [|? ? Hs' Hx]; subst. constructor; [|auto].
  apply Forall_app in Hx as [_ Hx]. by apply Forall_cons in Hx as [? _].
Qed.

Lemma sorted_suffix g es :
  StronglySorted entry_ord (g ++ es) -> StronglySorted entry_ord es.
Proof. induction g as [|x g IH]; simpl; intros Hs; [done|]. inversion Hs; auto. Qed.

Lemma sorted_head_le e es x :
  StronglySorted entry_ord (e :: es) -> x ∈ e :: es -> key_le (uk e) (uk x).
Proof.
  intros Hs [->|Hx]%elem_of_cons; [apply bytes_leb_refl|].
  inversion Hs as [|? ? _ He]; subst. rewrite Forall_forall in He. by apply He.
Qed.

Lemma rows_nil c g : chunk_good c g -> bool_decide (rows c = []) = bool_decide (g = []).
Proof.
  intros (-> & _). apply bool_decide_ext. destruct g; split; done.
Qed.

Lemma chunk_loop_spec es cs cur g :
  chunk_good cur g -> StronglySorted entry_ord (g ++ es) -> Forall entry_ok (g ++ es) ->
  exists new groups, chunk_loop es cs cur = cs ++ new /\
    Forall2 chunk_good new groups /\ Forall (fun g => g <> []) groups /\
    concat groups = g ++ es /\ StronglySorted chunk_before new.
Proof.
  revert cs cur g. induction es as [|e es IH]; intros cs cur g Hg Hs HF.
  { cbn [chunk_loop]. rewrite (rows_nil _ _ Hg). case_bool_decide as E.
    - exists [], []. subst g. rewrite app_nil_r. repeat split; constructor.
    - exists [cur], [g]. simpl. rewrite app_nil_r.
      split; [done|]. split; [by apply Forall2_cons|]. split; [by apply Forall_singleton|].
      split; [done|repeat constructor]. }
  pose proof (sorted_app_le _ _ _ Hs) as Hle. pose proof HF as HF0.
  apply Forall_app in HF as [HFg HFe]. apply Forall_cons in HFe as [[Hne Hsq] HFe].
  assert (Hgne : Forall (fun x => uk x <> []) g).
  { eapply Forall_impl; [exact HFg|]. by intros ? [? _]. }
  cbn [chunk_loop]. rewrite (rows_nil _ _ Hg).
  destruct (negb _ && _ && _) eqn:Esplit.
  - apply andb_true_iff in Esplit as [[Hgn _]%andb_true_iff Hk].
    apply negb_true_iff, bool_decide_eq_false in Hgn.
    assert (Hp : chunk_good (push (ce_ikey e) (ce_row e) (entry_estimate e) empty_chunk) [e]).
    { apply (push_good empty_chunk []); [apply empty_good|constructor|done|constructor|done]. }
    destruct (IH (cs ++ [cur]) _ [e] Hp) as (new & groups & E & H1 & H2 & H3 & H4).
    { by apply (sorted_suffix g). }
    { by apply Forall_app in HF0 as [_ ?]. }
    exists (cur :: new), (g :: groups). rewrite E, <- app_assoc. split; [done|].
    split; [by constructor|]. split; [by constructor|]. split; [simpl; by rewrite H3|].
    constructor; [done|]. apply Forall_forall. intros c Hc. unfold chunk_before.
    destruct Hg as (_ & _ & Hl). destruct (list.last g) as [l|] eqn:El;
      [|by apply last_None in El].
    destruct Hl as (El2 & -> & _). rewrite El2 in Hk.
    apply last_Some_elem_of in El. rewrite Forall_forall in Hle.
    assert (Hlt : bytes_lt (uk l) (uk e)).
    { apply negb_true_iff in Hk. specialize (Hle l El). apply bytes_leb_spec in Hle.
      destruct (bytes_cmp_spec (uk l) (uk e)) as [E1|L|L]; [|done..].
      rewrite E1 in Hk. by apply not_true_iff_false in Hk as []; apply bytes_eqb_spec. }
    apply list_elem_of_lookup in Hc as [i Hc].
    destruct (Forall2_lookup_l _ _ _ _ _ H1 Hc) as (gc & Hgc & (_ & _ & Hlc)).
    assert (Hgcne : gc <> []) by by (rewrite Forall_lookup in H2; apply (H2 i)).
    destruct (list.last gc) as [lc|] eqn:Elc; [|by apply last_None in Elc].
    destruct Hlc as (_ & _ & x & Hx & ->).
    assert (Hin : x ∈ e :: es).
    { change (e :: es) with ([e] ++ es). rewrite <- H3. apply elem_of_concat.
      exists gc. split; [by eapply list_elem_of_lookup_2|done]. }
    pose proof (sorted_head_le e es x (sorted_suffix _ _ Hs) Hin) as Hx2.
    apply bytes_leb_spec in Hx2. by eapply bytes_lt_nlt_trans.
  - destruct (IH cs _ (g ++ [e]) (push_good _ _ _ (entry_estimate e) Hg Hle Hne Hgne Hsq))
      as (new & groups & H); [by rewrite <- app_assoc..|].
    exists new, groups. by rewrite <- app_assoc in H.
Qed.

Lemma make_chunks_spec es :
  StronglySorted entry_ord es -> Forall entry_ok es ->
  exists groups, Forall2 chunk_good (make_chunks es) groups /\
    Forall (fun g => g <> []) groups /\ concat groups = es /\
    StronglySorted chunk_before (make_chunks es).
Proof.
  intros Hs HF. destruct (chunk_loop_spec es [] empty_chunk [] empty_good Hs HF)
    as (new & groups & E & H1 & H2 & H3 & H4).
  exists groups. unfold make_chunks. rewrite E. done.
Qed.

(** ** Disjointness of the output level *)
Definition disjoint (f g : DataFileMeta) : Prop := before f g \/ before g f.

Lemma disjoint_sym f g : disjoint f g -> disjoint g f.
Proof. unfold disjoint. tauto. Qed.

Lemma disjoint_sorted l :
  Forall range_ok l -> ForallOrdPairs disjoint l ->
  level_ok (sort_by (fun f g => bytes_leb (key_min (meta f)) (key_min (meta g))) l).
Proof.
  intros Hr Hd. set (leb := fun f g : DataFileMeta => bytes_leb _ _).
  pose proof (sort_by_perm leb l) as P.
  assert (Hs : StronglySorted leb (sort_by leb l)).
  { apply sort_by_sorted; unfold leb.
    - intros x y H%bytes_leb_false. by apply bytes_lt_leb.
    - intros x y z. apply bytes_leb_trans. }
  symmetry in P. pose proof (ordpairs_perm _ _ _ disjoint_sym P Hd) as Hd'.
  assert (Hr' : Forall range_ok (sort_by leb l)) by by rewrite <- P.
  split; [done|]. revert Hs Hd' Hr'. clear. generalize (sort_by leb l). clear l.
  intros l Hs Hd' Hr'. induction Hs as [|f l Hs IH Hf]; [constructor|].
  inversion Hd' as [|? ? Hx Hd]; subst. apply Forall_cons in Hr' as [Rf Hr].
  constructor; [by apply IH|]. rewrite Forall_forall in Hf, Hx, Hr |- *. intros g Hg.
  destruct (Hx g Hg) as [|Hb]; [done|]. exfalso.
  pose proof (Hf g Hg) as Hle%Is_true_true. specialize (Hr g Hg). unfold range_ok, before in *.
  apply bytes_leb_spec in Hle, Hr. apply Hle. by eapply bytes_nlt_le_trans.
Qed.

Lemma min_opt_le o k : exists m, min_opt o k = Some m /\ key_le m k /\
  (forall x, o = Some x -> key_le m x).
Proof.
  destruct o as [c|]; simpl; [|exists k; split; [done|split; [apply bytes_leb_refl|done]]].
  destruct (bytes_ltb k c) eqn:E; eexists; (split; [reflexivity|]).
  - split; [apply bytes_leb_refl|]. intros x [= <-]. by apply bytes_lt_leb, bytes_ltb_spec.
  - split; [by apply bytes_ltb_false|]. intros x [= <-]. apply bytes_leb_refl.
Qed.

Lemma max_opt_ge o k : exists m, max_opt o k = Some m /\ key_le k m /\
  (forall x, o = Some x -> key_le x m).
Proof.
  destruct o as [c|]; simpl; [|exists k; split; [done|split; [apply bytes_leb_refl|done]]].
  destruct (bytes_ltb c k) eqn:E; eexists; (split; [reflexivity|]).
  - split; [apply bytes_leb_refl|]. intros x [= <-]. by apply bytes_lt_leb, bytes_ltb_spec.
  - split; [by apply bytes_ltb_false|]. intros x [= <-]. apply bytes_leb_refl.
Qed.

Lemma union_range_spec fs :
  fs <> [] -> exists umin umax, compute_union_range fs = (Some umin, Some umax) /\
    Forall (fun f => key_le umin (key_min (meta f)) /\ key_le (key_max (meta f)) umax) fs.
Proof.
  unfold compute_union_range. induction fs as [|f fs IH] using rev_ind; [done|]. intros _.
  rewrite foldl_app. cbn [foldl].
  assert (H0 : fs = [] \/ fs <> []) by (destruct fs; auto).
  destruct H0 as [->|Hne].
  - simpl. exists (key_min (meta f)), (key_max (meta f)). split; [done|].
    constructor; [|constructor]. split; apply bytes_leb_refl.
  - destruct (IH Hne) as (umin & umax & -> & HF). cbn [fst snd].
    destruct (min_opt_le (Some umin) (key_min (meta f))) as (m1 & -> & A1 & A2).
    destruct (max_opt_ge (Some umax) (key_max (meta f))) as (m2 & -> & B1 & B2).
    exists m1, m2. split; [done|]. apply Forall_app_2; [|by constructor].
    eapply Forall_impl; [exact HF|]. intros g [G1 G2].
    specialize (A2 _ eq_refl). specialize (B2 _ eq_refl).
    split; [exact (bytes_leb_trans _ _ _ A2 G1)|exact (bytes_leb_trans _ _ _ G2 B2)].
Qed.

Lemma sorted_trichotomy {A} (R : A -> A -> Prop) l f h :
  StronglySorted R l -> f ∈ l -> h ∈ l -> f <> h -> R f h \/ R h f.
Proof.
  induction 1 as [|x l _ IH Hx]; intros Hf Hh Hne; [by apply elem_of_nil in Hf|].
  rewrite Forall_forall in Hx.
  apply elem_of_cons in Hf as [->|Hf], Hh as [->|Hh]; [done|left; auto|right; auto|auto].
Qed.

(** A key of the merge lies on one side of every file that was not pulled in. *)
Lemma key_apart inputs outputs umin umax f h k :
  level_ok outputs ->
  Forall (fun g => key_le umin (key_min (meta g)) /\ key_le (key_max (meta g)) umax) inputs ->
  f ∈ outputs -> overlaps umin umax f = false ->
  (h ∈ inputs \/ (h ∈ outputs /\ overlaps umin umax h = true)) ->
  covers k h = true -> k <> [] ->
  (bytes_lt umax (key_min (meta f)) -> bytes_lt k (key_min (meta f))) /\
  (bytes_lt (key_max (meta f)) umin -> bytes_lt (key_max (meta f)) k).
Proof.
  intros [Hr Hs] HU Hf Of Hh Hk Hk0. apply andb_true_iff in Hk as [K1 K2].
  rewrite Forall_forall in Hr, HU. pose proof (Hr f Hf) as Rf. unfold range_ok in Rf.
  apply bytes_leb_spec in K1, K2, Rf. destruct Hh as [Hh|[Hh Oh]].
  - destruct (HU h Hh) as [U1%bytes_leb_spec U2%bytes_leb_spec]. split; intros L.
    + eapply bytes_nlt_le_trans; [exact K2|]. by eapply bytes_nlt_le_trans.
    + eapply bytes_lt_nlt_trans; [|exact K1]. by eapply bytes_lt_nlt_trans.
  - assert (f <> h) as Hne by (intros ->; congruence).
    apply andb_true_iff in Oh as [O1 O2]. apply orb_true_iff in O1, O2.
    destruct (sorted_trichotomy _ _ _ _ Hs Hf Hh Hne) as [B|B]; unfold before in B; split; intros L.
    + exfalso. assert (Hlt : bytes_lt umax (key_min (meta h))).
      { eapply bytes_lt_trans; [exact L|]. by eapply bytes_nlt_le_trans. }
      destruct O1 as [O1%bytes_eqb_spec|O1%bytes_leb_spec]; [|done].
      rewrite O1 in Hlt. by apply bytes_lt_nil in Hlt.
    + exact (bytes_lt_nlt_trans _ _ _ B K1).
    + exact (bytes_nlt_le_trans _ _ _ K2 B).
    + exfalso. assert (Hlt : bytes_lt (key_max (meta h)) umin).
      { eapply bytes_lt_trans; [exact B|]. by eapply bytes_nlt_le_trans. }
      destruct O2 as [O2%bytes_eqb_spec|O2%bytes_leb_spec]; [|done].
      rewrite O2 in K2. destruct k as [|b k]; [done|]. by apply K2.
Qed.

Lemma filter_list_sorted {A} (R : A -> A -> Prop) (P : A -> Prop)
    `{!forall x, Decision (P x)} l :
  StronglySorted R l -> StronglySorted R (base.filter P l).
Proof.
  induction 1 as [|x l _ IH Hx]; [constructor|]. rewrite filter_cons.
  case_decide; [|done]. constructor; [done|]. rewrite Forall_forall in *.
  intros y [_ Hy]%list_elem_of_filter. auto.
Qed.

Lemma sorted_ordpairs {A} (R Q : A -> A -> Prop) l :
  (forall x y, R x y -> Q x y) -> StronglySorted R l -> ForallOrdPairs Q l.
Proof.
  intros H. induction 1 as [|x l _ IH Hx]; constructor; [|done].
  eapply Forall_impl; [exact Hx|]. auto.
Qed.

Lemma chunk_rows cs gs :
  Forall2 chunk_good cs gs ->
  concat (map rows cs) = map (fun e => (ce_ikey e, ce_row e)) (concat gs).
Proof.
  induction 1 as [|c g cs gs Hc _ IH]; simpl; [done|].
  destruct Hc as (Hr & _). by rewrite IH, map_app, Hr.
Qed.

(** The keys of a source file lie in its range. *)
Definition file_holds (f : DataFileMeta) (fe : FileEntries) : Prop :=
  Forall (fun x => covers (user_key_bytes x.1.1) f = true) (entries fe).

Lemma flatten_source metas fes e :
  Forall2 file_holds metas fes -> e ∈ flatten fes ->
  exists h, h ∈ metas /\ covers (uk e) h = true.
Proof.
  intros HF He. unfold flatten in He. apply elem_of_concat in He as (l & Hl & He).
  apply list_elem_of_fmap in Hl as (fe & -> & Hfe).
  apply list_elem_of_fmap in He as (x & -> & Hx).
  apply list_elem_of_lookup in Hfe as [i Hi].
  destruct (Forall2_lookup_r _ _ _ _ _ HF Hi) as (h & Hh & Hc).
  exists h. split; [by eapply list_elem_of_lookup_2|]. simpl.
  unfold file_holds in Hc. rewrite Forall_forall in Hc. by apply Hc.
Qed.

(** The chunk's bounds are keys of its group. *)
Lemma chunk_bounds c g :
  chunk_good c g -> g <> [] ->
  key_le (oc_key_min c) (oc_key_max c) /\
  (exists e, e ∈ g /\ oc_key_min c = uk e) /\ (exists e, e ∈ g /\ oc_key_max c = uk e).
Proof.
  intros (_ & HF & Hl) Hne. destruct (list.last g) as [l|] eqn:El; [|by apply last_None in El].
  apply last_Some_elem_of in El. destruct Hl as (_ & Emax & e & He & Emin).
  split; [|split; [by exists e|by exists l]].
  rewrite Forall_forall in HF. destruct (HF l El) as (H1 & H2 & _).
  by eapply bytes_leb_trans.
Qed.

(** A new file is apart from every remaining file. *)
Lemma chunk_apart inputs outputs fes f c g :
  inputs <> [] -> level_ok outputs ->
  Forall2 file_holds (inputs ++ overlap_output inputs outputs) fes ->
  Forall (fun e => uk e <> []) (flatten fes) ->
  f ∈ outputs -> path f ∉ removed_paths inputs outputs ->
  chunk_good c g -> g <> [] -> (forall e, e ∈ g -> e ∈ flatten fes) ->
  bytes_lt (key_max (meta f)) (oc_key_min c) \/ bytes_lt (oc_key_max c) (key_min (meta f)).
Proof.
  intros Hi Hok HH Hne Hf Hp Hc Hg Hsub.
  destruct (union_range_spec inputs Hi) as (umin & umax & EU & HU).
  unfold removed_paths, overlap_output in *. rewrite EU in *.
  assert (Of : overlaps umin umax f = false).
  { apply not_true_iff_false. intros Ho. apply Hp. apply elem_of_app. right.
    apply list_elem_of_fmap_2, list_elem_of_In, filter_In. split; [|done].
    by apply list_elem_of_In. }
  assert (Hap : forall e, e ∈ g ->
    (bytes_lt umax (key_min (meta f)) -> bytes_lt (uk e) (key_min (meta f))) /\
    (bytes_lt (key_max (meta f)) umin -> bytes_lt (key_max (meta f)) (uk e))).
  { intros e He%Hsub. destruct (flatten_source _ _ _ HH He) as (h & Hh & Hk).
    rewrite Forall_forall in Hne. apply (key_apart inputs outputs umin umax f h); auto.
    apply elem_of_app in Hh as [Hh|Hh]; [by left|right].
    apply list_elem_of_In, filter_In in Hh as [Hh Ho]. split; [by apply list_elem_of_In|done]. }
  destruct (chunk_bounds c g Hc Hg) as (_ & (e1 & H1 & ->) & (e2 & H2 & ->)).
  apply andb_false_iff in Of as [Of|Of]; apply orb_false_iff in Of as [_ Of%bytes_leb_false].
  - right. by apply Hap.
  - left. by apply Hap.
Qed.

Lemma merged_ordered K es :
  prefix_free K -> StronglySorted v_lt (map version_of es) ->
  Forall (fun e => key_wf K (ce_ikey e)) es -> Forall (fun e => uk e <> []) es ->
  StronglySorted entry_ord es /\ Forall entry_ok es.
Proof.
  intros K_pf Hs HF Hne.
  assert (Hmax : SEQNUM_MAX <= u64_max) by (vm_compute; discriminate). split.
  - clear Hne. induction es as [|e es IH]; [constructor|]. simpl in Hs.
    inversion Hs as [|? ? Hs' He]; subst. apply Forall_cons in HF as [We HF].
    constructor; [by apply IH|]. rewrite Forall_fmap in He.
    rewrite Forall_forall in He, HF |- *. intros x Hx. unfold entry_ord.
    apply bytes_leb_spec. apply (v_lt_key_le K K_pf (version_of e) (version_of x)).
    + by apply wf_ok.
    + by apply wf_ok, HF.
    + by apply He.
  - rewrite Forall_forall in *. intros e He. destruct (HF e He) as (_ & Hq & _).
    split; [by apply Hne|lia].
Qed.

Section new_files.
Context (lv : Z) (fmt : FileFormat) (name : nat -> string * Z * option (list ColumnStats)).
Abbreviation files_of n cs :=
  (imap (fun i c => as_file (output_file lv fmt (name (n + i)%nat).1.1 (name (n + i)%nat).1.2 (name (n + i)%nat).2 c)) cs).

Lemma files_of_cons n c cs :
  files_of n (c :: cs) = as_file (output_file lv fmt (name n).1.1 (name n).1.2 (name n).2 c) :: files_of (S n) cs.
Proof.
  simpl. rewrite Nat.add_0_r. f_equal. apply imap_ext. intros i x _. simpl.
  by rewrite Nat.add_succ_r.
Qed.

Lemma files_of_elem n cs f :
  f ∈ files_of n cs ->
  exists c, c ∈ cs /\ key_min (meta f) = oc_key_min c /\ key_max (meta f) = oc_key_max c.
Proof.
  revert n. induction cs as [|c cs IH]; intros n; [by intros ?%elem_of_nil|].
  rewrite files_of_cons. intros [->|Hf]%elem_of_cons.
  - exists c. split; [by left|done].
  - destruct (IH _ Hf) as (d & Hd & ?). exists d. split; [by right|done].
Qed.

Lemma files_of_sorted n cs :
  StronglySorted chunk_before cs -> StronglySorted before (files_of n cs).
Proof.
  intros Hs. revert n. induction Hs as [|c cs _ IH Hc]; intros n; [constructor|].
  rewrite files_of_cons. constructor; [apply IH|]. apply Forall_forall. intros f Hf.
  destruct (files_of_elem _ _ _ Hf) as (d & Hd & E1 & _). unfold before. rewrite E1. simpl.
  rewrite Forall_forall in Hc. by apply Hc.
Qed.
End new_files.

(** The files of the output level that stay, with the new ones, have proper
    and pairwise disjoint key ranges. *)
Lemma merged_level s inputs outputs fes oldest drop_tombstones lv fmt (name : nat -> string * Z * option (list ColumnStats)) :
  inputs <> [] -> level_ok outputs ->
  Forall2 file_holds (inputs ++ overlap_output inputs outputs) fes ->
  Forall (fun e => key_wf (encoded_key s) (ce_ikey e) /\ uk e <> []) (flatten fes) ->
  unique_seqs (map version_of (flatten fes)) ->
  let merged := CompactionIterator_new fes oldest drop_tombstones in
  let chunks := make_chunks merged in
  let new := imap (fun i c => as_file (output_file lv fmt (name i).1.1 (name i).1.2 (name i).2 c)) chunks in
  let rest := base.filter (fun f => path f ∉ removed_paths inputs outputs) outputs in
  Forall range_ok (rest ++ new) /\ ForallOrdPairs disjoint (rest ++ new) /\
  concat (map rows chunks) = map (fun e => (ce_ikey e, ce_row e)) merged.
Proof.
  intros Hi Hok HH Hwf Hu merged chunks new rest. pose proof (encoded_key_prefix_free s) as K_pf.
  apply Forall_and in Hwf as [Hwf Hne].
  destruct (iterator_spec _ K_pf oldest drop_tombstones fes Hwf Hu) as (Hs & Hsub & _).
  fold merged in Hs, Hsub.
  assert (Hord : StronglySorted entry_ord merged /\ Forall entry_ok merged).
  { apply (merged_ordered (encoded_key s)); [done|done|..]; 
      rewrite Forall_forall in *; intros e He; auto. }
  destruct (make_chunks_spec merged (proj1 Hord) (proj2 Hord)) as (groups & G1 & G2 & G3 & G4).
  fold chunks in G1, G4.
  assert (Hel := files_of_elem lv fmt name 0 chunks).
  change (imap _ chunks) with new in Hel.
  assert (Hgr : forall c, c ∈ chunks -> exists g, chunk_good c g /\ g <> [] /\
            forall e, e ∈ g -> e ∈ flatten fes).
  { intros c [i Hc]%list_elem_of_lookup.
    destruct (Forall2_lookup_l _ _ _ _ _ G1 Hc) as (g & Hg%list_elem_of_lookup_2 & Hcg).
    exists g. rewrite Forall_forall in G2.
    split; [done|]. split; [by apply G2|].
    intros e He. apply Hsub. rewrite <- G3. apply elem_of_concat. by exists g. }
  split_and!; [apply Forall_app_2|apply ordpairs_app|].
  - destruct Hok as [Hr _]. rewrite Forall_forall in *.
    intros f [_ Hf]%list_elem_of_filter. auto.
  - apply Forall_forall. intros f (c & Hc & E1 & E2)%Hel.
      destruct (Hgr c Hc) as (g & Hg & Hgne & _). unfold range_ok. rewrite E1, E2.
      by apply (chunk_bounds c g).
  - apply (sorted_ordpairs before); [by left|]. by apply filter_list_sorted, Hok.
  - apply (sorted_ordpairs before); [by left|].
      apply (files_of_sorted lv fmt name 0 chunks G4).
  - intros f h [Hp Hf]%list_elem_of_filter (c & Hc & E1 & E2)%Hel.
      destruct (Hgr c Hc) as (g & Hg & Hgne & Hgs). unfold disjoint, before. rewrite E1, E2.
      by apply (chunk_apart inputs outputs fes f c g).
  - rewrite (chunk_rows _ _ G1). by rewrite G3.
Qed.

(** ** The commit of the job *)
Lemma fold_add_file {B} (new : list IcebergDataFile) (t : SnapshotTransaction B) :
  let t' := foldl (fun t f => add_file f t) t new in
  adds t' = adds t ++ new /\ removes t' = removes t /\ dvs t' = dvs t.
Proof.
  revert t. induction new as [|f new IH]; intros t; cbn [foldl]; [by rewrite app_nil_r|].
  destruct (IH (add_file f t)) as (-> & -> & ->). cbn. by rewrite <- app_assoc.
Qed.

Lemma fold_remove_file {B} (fs : list DataFileMeta) (t : SnapshotTransaction B) :
  let t' := foldl (fun t f => remove_file (path f) t) t fs in
  adds t' = adds t /\ removes t' = removes t ++ map path fs /\ dvs t' = dvs t.
Proof.
  revert t. induction fs as [|f fs IH]; intros t; cbn [foldl map]; [by rewrite app_nil_r|].
  destruct (IH (remove_file (path f) t)) as (-> & -> & ->). cbn. by rewrite <- app_assoc.
Qed.

Lemma compaction_txn_fields {B} il lv inputs overlapping new :
  let t := compaction_txn (B := B) il lv inputs overlapping new in
  adds t = new /\ removes t = map path inputs ++ map path overlapping /\ dvs t = ∅.
Proof.
  unfold compaction_txn. cbn [set_prop adds removes dvs].
  destruct (fold_remove_file overlapping (foldl (fun t f => remove_file (path f) t)
    (foldl (fun t f => add_file f t) (txn_new (B := B)) new) inputs)) as (-> & -> & ->).
  destruct (fold_remove_file inputs (foldl (fun t f => add_file f t) (txn_new (B := B)) new)) as (-> & -> & ->).
  by destruct (fold_add_file new (txn_new (B := B))) as (-> & -> & ->).
Qed.

Lemma restamped_id {B} (t : SnapshotTransaction B) locs fs : dvs t = ∅ -> map (restamped t locs) fs = fs.
Proof.
  intros E. rewrite <- (map_id fs) at 2. apply map_ext. intros f. unfold restamped. by rewrite E.
Qed.

(** The same file with possibly other deletion-vector coordinates, which a
    flush may attach while the job runs. *)
Definition same_file (f g : DataFileMeta) : Prop :=
  path f = path g /\ key_min (meta f) = key_min (meta g) /\ key_max (meta f) = key_max (meta g).

Lemma same_file_filter fs gs (ps : list string) :
  Forall2 same_file fs gs ->
  Forall2 same_file (base.filter (fun f => path f ∉ ps) fs) (base.filter (fun f => path f ∉ ps) gs).
Proof.
  induction 1 as [|f g fs gs Hs _ IH]; [constructor|]. rewrite !filter_cons.
  destruct Hs as (E & ?). rewrite E. destruct (decide (path g ∉ ps)); [|done]. by constructor.
Qed.

Lemma same_file_level fs gs k :
  Forall2 same_file fs gs ->
  Forall range_ok (gs ++ k) -> ForallOrdPairs disjoint (gs ++ k) ->
  Forall range_ok (fs ++ k) /\ ForallOrdPairs disjoint (fs ++ k).
Proof.
  intros HF. assert (HF2 : Forall2 same_file (fs ++ k) (gs ++ k)).
  { apply Forall2_app; [done|]. clear. induction k; constructor; done. }
  clear HF. revert HF2. generalize (fs ++ k) (gs ++ k). clear. intros l l' HF.
  induction HF as [|f g l l' (_ & E1 & E2) HF IH]; intros Hr Hd; [by split|].
  apply Forall_cons in Hr as [Hr0 Hr]. inversion Hd as [|? ? Hd0 Hd1]; subst.
  destruct (IH Hr Hd1) as [I1 I2]. split; constructor; [|done| |done].
  - unfold range_ok in *. by rewrite E1, E2.
  - clear -Hd0 E1 E2 HF. induction HF as [|a b l l' (_ & F1 & F2) _ IHl]; [constructor|].
    apply Forall_cons in Hd0 as [H0 Hd0]. constructor; [|by apply IHl].
    unfold disjoint, before in *. by rewrite E1, E2, F1, F2.
Qed.

Lemma outputs_add_ok lv fmt (name : nat -> string * Z * option (list ColumnStats)) chunks merged :
  concat (map rows chunks) = map (fun e => (ce_ikey e, ce_row e)) merged ->
  Z.of_nat (length merged) < 2 ^ 63 ->
  Forall add_ok (imap (fun i c => output_file lv fmt (name i).1.1 (name i).1.2 (name i).2 c) chunks).
Proof.
  intros Hrows Hm. apply (f_equal length) in Hrows. rewrite length_fmap in Hrows.
  apply Forall_forall. intros f Hf. apply elem_of_lookup_imap in Hf as (i & c & -> & Hc).
  split; [done|]. cbn. apply list_elem_of_lookup_2 in Hc.
  assert (length (rows c) <= length (concat (map rows chunks)))%nat; [|lia].
  clear -Hc. induction chunks as [|d cs IH]; [by apply elem_of_nil in Hc|]. cbn.
  rewrite length_app. apply elem_of_cons in Hc as [->|Hc]; [lia|]. specialize (IH Hc). lia.
Qed.

(** The levels after the commit of a job. *)
Lemma job_levels {B : Type} `{!Roaring B} s inputs outputs fes oldest
    drop_tombstones il lv fmt (name : nat -> string * Z * option (list ColumnStats)) now uuid m sid m' :
  1 <= lv -> inputs <> [] -> level_ok outputs ->
  Forall2 same_file (files_at (to_version m s) lv) outputs ->
  Forall2 file_holds (inputs ++ overlap_output inputs outputs) fes ->
  Forall (fun e => key_wf (encoded_key s) (ce_ikey e) /\ uk e <> []) (flatten fes) ->
  unique_seqs (map version_of (flatten fes)) ->
  Forall rows_ok (m_entries m) ->
  let merged := CompactionIterator_new fes oldest drop_tombstones in
  let chunks := make_chunks merged in
  let new := imap (fun i c => output_file lv fmt (name i).1.1 (name i).1.2 (name i).2 c) chunks in
  let gone := removed_paths inputs outputs in
  Forall add_ok new ->
  apply now uuid m (compaction_txn (B := B) il lv inputs (overlap_output inputs outputs) new) sid ∅
    = Ok m' ->
  level_ok (files_at (to_version m' s) lv) /\
  files_at (to_version m' s) lv
    ≡ₚ base.filter (fun f => path f ∉ gone) (files_at (to_version m s) lv) ++ map as_file new /\
  (forall l, l <> lv -> files_at (to_version m' s) l
     ≡ₚ base.filter (fun f => path f ∉ gone) (files_at (to_version m s) l)) /\
  concat (map rows chunks) = map (fun e => (ce_ikey e, ce_row e)) merged.
Proof.
  intros Hlv Hi Hok Hsame HH Hwf Hu Hrows merged chunks new gone Hadd Happ.
  destruct (merged_level s inputs outputs fes oldest drop_tombstones lv fmt name Hi Hok HH Hwf Hu)
    as (Hr & Hd & Hm). fold merged chunks in Hr, Hd, Hm.
  assert (Enew : map as_file new = imap (fun i c => as_file (output_file lv fmt (name i).1.1 (name i).1.2 (name i).2 c)) chunks)
    by apply fmap_imap. rewrite <- Enew in Hr, Hd.
  destruct (compaction_txn_fields (B := B) il lv inputs (overlap_output inputs outputs) new) as (Ea & Er & Ed).
  set (t := compaction_txn il lv inputs (overlap_output inputs outputs) new) in *.
  assert (Hlive : forall l, live_at l (m_entries m')
      = base.filter (fun f => path f ∉ gone) (live_at l (m_entries m))
        ++ map as_file (List.filter (fun f => level (df_meta f) =? l) new)).
  { intros l. rewrite <- Ea in Hadd.
    destruct (commit_files now uuid m t sid ∅ m' l Hrows Hadd Happ) as (-> & _).
    rewrite (restamped_id t ∅ _ Ed), Er, Ea. done. }
  assert (Hlevels : forall l, files_at (to_version m s) l ≡ₚ live_at l (m_entries m)
            /\ files_at (to_version m' s) l ≡ₚ live_at l (m_entries m'))
    by (intros l; split; apply files_at_perm).
  assert (Hall : List.filter (fun f => level (df_meta f) =? lv) new = new).
  { apply filter_all_true. intros f Hf. apply elem_of_lookup_imap in Hf as (i & c & -> & _). apply Z.eqb_refl. }
  assert (Hout : files_at (to_version m' s) lv
    ≡ₚ base.filter (fun f => path f ∉ gone) (files_at (to_version m s) lv) ++ map as_file new).
  { destruct (Hlevels lv) as [-> ->]. by rewrite Hlive, Hall. }
  split_and!; [|done| |done].
  - destruct (same_file_level _ _ _ (same_file_filter _ _ gone Hsame) Hr Hd) as [Hr' Hd'].
    rewrite files_at_to_version. unfold sort_level.
    destruct (Z.eqb_spec lv 0); [lia|]. destruct (Z.leb_spec 1 lv); [|lia].
    assert (P : live_at lv (m_entries m')
      ≡ₚ base.filter (fun f => path f ∉ gone) (files_at (to_version m s) lv) ++ map as_file new)
      by (rewrite <- Hout; symmetry; apply Hlevels).
    apply disjoint_sorted; [by rewrite P|].
    by eapply ordpairs_perm; [apply disjoint_sym|symmetry; exact P|].
  - intros l Hl. destruct (Hlevels l) as [-> ->]. rewrite Hlive.
    rewrite (filter_all_false _ new), app_nil_r; [done|].
    intros f Hf. apply elem_of_lookup_imap in Hf as (i & c & -> & _). cbn. by apply Z.eqb_neq.
Qed.

(** ** Properties of the job *)

(** Compaction keeps the levels below L0 ordered and disjoint: if the
    output level was, and each source file's rows lie in its recorded key
    range, then committing the job's transaction to the current manifest
    (whose output level still has those files, though a flush may have
    attached deletion vectors to them) gives an output level that again has
    ordered disjoint key ranges, which [find_file_for_key] needs: the files
    not consumed and the new ones.  Every consumed file is gone from every
    level, all others stay, and the new files hold exactly the merged rows. *)
Theorem compaction_keeps_level_disjoint {B : Type} `{!Roaring B} s inputs outputs fes oldest
    drop_tombstones il lv fmt (name : nat -> string * Z * option (list ColumnStats)) now uuid m sid m' :
  1 <= lv -> inputs <> [] -> level_ok outputs ->
  Forall2 same_file (files_at (to_version m s) lv) outputs ->
  Forall2 file_holds (inputs ++ overlap_output inputs outputs) fes ->
  Forall (fun e => key_wf (encoded_key s) (ce_ikey e) /\ uk e <> []) (flatten fes) ->
  unique_seqs (map version_of (flatten fes)) ->
  Forall rows_ok (m_entries m) ->
  let merged := CompactionIterator_new fes oldest drop_tombstones in
  let chunks := make_chunks merged in
  let new := imap (fun i c => output_file lv fmt (name i).1.1 (name i).1.2 (name i).2 c) chunks in
  let gone := removed_paths inputs outputs in
  Z.of_nat (length merged) < 2 ^ 63 ->
  apply now uuid m (compaction_txn (B := B) il lv inputs (overlap_output inputs outputs) new) sid ∅
    = Ok m' ->
  level_ok (files_at (to_version m' s) lv) /\
  files_at (to_version m' s) lv
    ≡ₚ base.filter (fun f => path f ∉ gone) (files_at (to_version m s) lv) ++ map as_file new /\
  (forall l, l <> lv -> files_at (to_version m' s) l
     ≡ₚ base.filter (fun f => path f ∉ gone) (files_at (to_version m s) l)) /\
  concat (map rows chunks) = map (fun e => (ce_ikey e, ce_row e)) merged.
Proof.
  intros Hlv Hi Hok Hsame HH Hwf Hu Hrows merged chunks new gone Hsmall Happ.
  eapply job_levels; try done. apply (outputs_add_ok lv fmt name chunks merged); [|done].
  by apply (merged_level s inputs outputs fes oldest drop_tombstones lv fmt name).
Qed.

(** One L0 file merged into a level with one overlapping and one distant file. *)
Definition ex_uk (z : Z) : bytes := user_key_bytes (ex_ikey z 1 Put).
Definition ex_in : list DataFileMeta := [ex_file "in" 0 6 10 (ex_uk 1) (ex_uk 4) 100].
Definition ex_out : list DataFileMeta :=
  [ex_file "near" 1 1 5 (ex_uk 1) (ex_uk 2) 100; ex_file "far" 1 1 5 (ex_uk 7) (ex_uk 9) 100].
Definition ex_sources : list FileEntries :=
  [{| file_idx := 0; entries := [(ex_ikey 1 10 Put, ex_row 10, 0)] |};
   {| file_idx := 1; entries := [(ex_ikey 1 5 Put, ex_row 5, 0); (ex_ikey 2 6 Delete, ex_row 0, 1)] |}].

Definition ex_job_manifest : Manifest :=
  {| format_version := 3; table_uuid := "u"; last_updated_ms := 5; m_snapshot_id := 4;
     parent_snapshot_id := Some 3; sequence_number := 4; next_row_id := 30; m_first_row_id := 0;
     m_schema := example_schema;
     m_entries := map (fun f => ex_entry f "existing" None) (ex_in ++ ex_out);
     properties := ∅ |}.

Definition ex_new_files : list IcebergDataFile :=
  imap (fun i c => output_file 1 Columnar "new" 10 None c)
    (make_chunks (CompactionIterator_new ex_sources 20 false)).

Definition ex_job_txn : SnapshotTransaction (gset Z) :=
  compaction_txn 0 1 ex_in (overlap_output ex_in ex_out) ex_new_files.

Definition ex_job_after : Manifest :=
  match apply 9 "fresh" ex_job_manifest ex_job_txn 5 ∅ with Ok m => m | _ => ex_job_manifest end.

Lemma compaction_keeps_level_disjoint_witness :
  level_ok (files_at (to_version ex_job_after example_schema) 1) /\
  map path (files_at (to_version ex_job_after example_schema) 1) = ["new"; "far"]%string /\
  concat (map rows (make_chunks (CompactionIterator_new ex_sources 20 false)))
    = map (fun e => (ce_ikey e, ce_row e)) (CompactionIterator_new ex_sources 20 false).
Proof.
  destruct (compaction_keeps_level_disjoint (B := gset Z) example_schema ex_in ex_out ex_sources 20
    false 0 1 Columnar (fun _ => ("new"%string, 10, None)) 9 "fresh" ex_job_manifest 5 ex_job_after)
    as (H1 & _ & _ & H2).
  - lia.
  - discriminate.
  - split.
    + repeat (apply Forall_cons; split; [vm_compute; reflexivity|]). apply Forall_nil_2.
    + constructor; [repeat constructor|]. apply Forall_cons.
      split; [vm_compute; reflexivity|apply Forall_nil_2].
  - assert (E : files_at (to_version ex_job_manifest example_schema) 1 = ex_out) by (vm_compute; reflexivity).
    rewrite E. repeat (apply Forall2_cons; split; [repeat split|]). apply Forall2_nil_2.
  - assert (E : ex_in ++ overlap_output ex_in ex_out
                = ex_in ++ [ex_file "near" 1 1 5 (ex_uk 1) (ex_uk 2) 100]) by (vm_compute; reflexivity).
    rewrite E. repeat (apply Forall2_cons; split;
      [repeat (apply Forall_cons; split; [vm_compute; reflexivity|]); apply Forall_nil_2|]).
    apply Forall2_nil_2.
  - apply Forall_and. split; [exact ex_files_wf|].
    cbv [flatten ex_sources concat map app entries file_idx].
    repeat (apply Forall_cons; split; [vm_compute; discriminate|]). apply Forall_nil_2.
  - exact ex_files_unique.
  - unfold rows_ok. repeat (apply Forall_cons; split; [vm_compute; split; [discriminate|reflexivity]|]).
    apply Forall_nil_2.
  - vm_compute. reflexivity.
  - vm_compute. reflexivity.
  - split; [exact H1|]. split; [vm_compute; reflexivity|exact H2].
Defined.

(** A file with an empty [key_max] is recorded as the smallest upper
    bound, not as an unbounded one: the union range of such a file and another
    ends at the other file's [key_max]. *)
Theorem union_range_ignores_unbounded_max :
  compute_union_range [ex_file "unbounded" 0 1 1 (ex_uk 1) [] 1;
                       ex_file "bounded" 0 1 1 (ex_uk 2) (ex_uk 3) 1]
  = (Some (ex_uk 1), Some (ex_uk 3)).
Proof. vm_compute. reflexivity. Qed.
