(* ===== verification/Picker.v ===== *)
(** * Choosing a compaction

    [src/crates/merutable/src/engine/compaction/picker.rs] with the fields of
    [EngineConfig] it reads ([engine/config.rs]).  Scores are IEEE binary64
    values ([SpecFloat]), as the code computes them. *)

From Stdlib Require Import Floats.SpecFloat.
From S2P Require Import Prelude Sequence Schema LsmVersion.
Local Open Scope Z_scope.

(** The configuration, less the paths, the background workers' parameters and
    the schema. *)
Record EngineConfig : Type := {
  memtable_size_bytes : Z;
  max_immutable_count : Z;
  row_cache_capacity : Z;
  level_target_bytes : list Z;
  l0_compaction_trigger : Z;
  l0_slowdown_trigger : Z;
  l0_stop_trigger : Z;
  bloom_bits_per_key : Z;
  max_compaction_bytes : Z;
  max_compaction_input_rows : Z;
  cfg_read_only : bool;
  gc_grace_period_secs : Z;
  dual_format_max_level : option Z;
  enable_flush_dv_emission : bool;
}.

Definition default_config : EngineConfig := {|
  memtable_size_bytes := 64 * 1024 * 1024; max_immutable_count := 4; row_cache_capacity := 10000;
  level_target_bytes :=
    [256 * 1024 * 1024; 2 * 1024 * 1024 * 1024; 16 * 1024 * 1024 * 1024;
     128 * 1024 * 1024 * 1024];
  l0_compaction_trigger := 4; l0_slowdown_trigger := 20; l0_stop_trigger := 36;
  bloom_bits_per_key := 10;
  max_compaction_bytes := 256 * 1024 * 1024; max_compaction_input_rows := 0;
  cfg_read_only := false; gc_grace_period_secs := 300;
  dual_format_max_level := Some 0; enable_flush_dv_emission := true |}.

Definition file_format_for (c : EngineConfig) (output_level : Z) : FileFormat :=
  match dual_format_max_level c with
  | Some mx => if output_level <=? mx then Dual else Columnar
  | None => Columnar
  end.

(** ** binary64 *)
Definition f64 := spec_float.
Definition as_f64 (z : Z) : f64 := binary_normalize 53 1024 z 0 false.
Definition f64_div (a b : f64) : f64 := SFdiv 53 1024 a b.
Definition f64_lt (a b : f64) : bool := SFltb a b.
Definition f64_zero : f64 := S754_zero false.
Definition f64_one : f64 := as_f64 1.

(** ** Scoring *)
Record CompactionPick : Type := {
  input_level : Z;
  output_level : Z;
  score : f64;
  input_files : list string;
}.

Definition level_is_free (busy : gset Z) (lvl : Z) : bool :=
  bool_decide (lvl ∉ busy) && bool_decide (Level_next lvl ∉ busy).

(** The candidate so far: its score and level, and whether one was found. *)
Definition cand : Type := f64 * Z * bool.

Fixpoint score_levels (v : Version) (busy : gset Z) (i : Z) (targets : list Z) (best : cand)
    : cand :=
  match targets with
  | [] => best
  | target :: targets =>
      let lvl := wrap 8 (i + 1) in
      let best' :=
        if level_is_free busy lvl && (0 <? target) then
          let sc := f64_div (as_f64 (level_bytes v lvl)) (as_f64 target) in
          if f64_lt best.1.1 sc then (sc, lvl, true) else best
        else best in
      score_levels v busy (i + 1) targets best'
  end.

Definition l0_score (v : Version) (c : EngineConfig) : f64 :=
  f64_div (as_f64 (Z.of_nat (l0_file_count v))) (as_f64 (l0_compaction_trigger c)).

(** The level to compact and its score. *)
Definition choose_level (v : Version) (c : EngineConfig) (busy : gset Z) : option (Z * f64) :=
  let l0_count := Z.of_nat (l0_file_count v) in
  if (l0_slowdown_trigger c <=? l0_count) && level_is_free busy 0 then
    Some (0, l0_score v c)
  else
    let start : cand :=
      if f64_lt f64_zero (l0_score v c) && level_is_free busy 0
      then (l0_score v c, 0, true) else (f64_zero, 0, false) in
    let '(best_score, best_level, found) :=
      score_levels v busy 0 (level_target_bytes c) start in
    if negb found || f64_lt best_score f64_one then None
    else Some (best_level, best_score).

(** ** Selecting files under the caps; the first file is always taken. *)
Fixpoint select_files (c : EngineConfig) (fs : list DataFileMeta) (total_bytes total_rows : Z)
    (picked : list string) : list string :=
  match fs with
  | [] => picked
  | f :: fs =>
      if negb (bool_decide (picked = []))
         && ((max_compaction_bytes c <? sat_add 64 total_bytes (file_size (meta f)))
             || ((0 <? max_compaction_input_rows c)
                 && (max_compaction_input_rows c
                       <? sat_add 64 total_rows (num_rows (meta f)))))
      then picked
      else select_files c fs (sat_add 64 total_bytes (file_size (meta f)))
             (sat_add 64 total_rows (num_rows (meta f))) (picked ++ [path f])
  end.

(** L0 oldest first, deeper levels in their own order. *)
Definition candidate_files (v : Version) (lvl : Z) : list DataFileMeta :=
  if lvl =? 0 then
    sort_by (fun f g => seq_min (meta f) <=? seq_min (meta g)) (files_at v 0)
  else files_at v lvl.

Definition pick_compaction (v : Version) (c : EngineConfig) (busy : gset Z)
    : option CompactionPick :=
  '(lvl, sc) ← choose_level v c busy;
  let files := select_files c (candidate_files v lvl) 0 0 [] in
  if bool_decide (files = []) then None
  else Some {| input_level := lvl; output_level := Level_next lvl; score := sc;
               input_files := files |}.

Definition should_drop_tombstones (output_level : Z) (num_configured_levels : nat) : bool :=
  Z.of_nat num_configured_levels <? output_level.

(** ** What is selected *)
Definition bytes_of (fs : list DataFileMeta) : Z :=
  foldr Z.add 0 (map (fun f => file_size (meta f)) fs).
Definition rows_of (fs : list DataFileMeta) : Z :=
  foldr Z.add 0 (map (fun f => num_rows (meta f)) fs).

(** The caps, which a single file may exceed. *)
Definition within_caps (c : EngineConfig) (fs : list DataFileMeta) : Prop :=
  bytes_of fs <= max_compaction_bytes c /\
  (0 < max_compaction_input_rows c -> rows_of fs <= max_compaction_input_rows c).

Definition sizes_ok (fs : list DataFileMeta) : Prop :=
  Forall (fun f => 0 <= file_size (meta f) /\ 0 <= num_rows (meta f)) fs.

Definition caps_ok (c : EngineConfig) : Prop :=
  max_compaction_bytes c < u64_max /\ max_compaction_input_rows c < u64_max.

Lemma bytes_of_app l k : bytes_of (l ++ k) = bytes_of l + bytes_of k.
Proof. unfold bytes_of. induction l; simpl; lia. Qed.
Lemma rows_of_app l k : rows_of (l ++ k) = rows_of l + rows_of k.
Proof. unfold rows_of. induction l; simpl; lia. Qed.

Lemma sizes_nonneg l : sizes_ok l -> 0 <= bytes_of l /\ 0 <= rows_of l.
Proof. unfold bytes_of, rows_of. induction 1; simpl; lia. Qed.

(** [pre] is what was taken so far; the running totals saturate. *)
Lemma select_files_spec c fs pre :
  caps_ok c -> sizes_ok (pre ++ fs) ->
  ((length pre <= 1)%nat \/ within_caps c pre) ->
  exists n, select_files c fs (Z.min (bytes_of pre) (2 ^ 64 - 1))
              (Z.min (rows_of pre) (2 ^ 64 - 1)) (map path pre)
            = map path (pre ++ take n fs) /\
    ((length (pre ++ take n fs) <= 1)%nat \/ within_caps c (pre ++ take n fs)) /\
    (pre ++ fs <> [] -> pre ++ take n fs <> []).
Proof.
  intros [C1 C2]. unfold u64_max in *. revert pre.
  induction fs as [|f fs IH]; intros pre Hs Hc; cbn [select_files].
  { exists 0%nat. rewrite !app_nil_r. done. }
  pose proof Hs as Hs0. apply Forall_app in Hs0 as [Hp Hf]. apply sizes_nonneg in Hp as [Pb Pr].
  apply Forall_cons in Hf as [[Fb Fr] _].
  destruct (negb _ && _) eqn:Estop.
  { exists 0%nat. simpl. rewrite app_nil_r. split; [done|]. split; [done|]. intros _ ->.
    done. }
  assert (Eb : sat_add 64 (Z.min (bytes_of pre) (2 ^ 64 - 1)) (file_size (meta f))
               = Z.min (bytes_of (pre ++ [f])) (2 ^ 64 - 1)).
  { rewrite bytes_of_app. unfold sat_add. simpl bytes_of. unfold bytes_of at 3. simpl. lia. }
  assert (Er : sat_add 64 (Z.min (rows_of pre) (2 ^ 64 - 1)) (num_rows (meta f))
               = Z.min (rows_of (pre ++ [f])) (2 ^ 64 - 1)).
  { rewrite rows_of_app. unfold sat_add. unfold rows_of at 3. simpl. lia. }
  rewrite Eb, Er in *.
  destruct (IH (pre ++ [f])) as (n & E & H1 & H2); [by rewrite <- app_assoc| |].
  { destruct pre as [|g pre]; [left; simpl; lia|right].
    rewrite bool_decide_false in Estop by done. simpl negb in Estop. rewrite andb_true_l in Estop.
    apply orb_false_iff in Estop as [Sb%Z.ltb_ge Sr]. split; [lia|]. intros Hpos.
    apply andb_false_iff in Sr as [Sr%Z.ltb_ge|Sr%Z.ltb_ge]; lia. }
  exists (S n). rewrite map_app in E. simpl in E. simpl take.
  rewrite <- !app_assoc in E, H1, H2. simpl in E, H1, H2.
  split; [exact E|]. split; [exact H1|by destruct pre].
Qed.

Lemma score_levels_free v busy i targets best :
  (best.2 = true -> level_is_free busy best.1.2 = true) ->
  let b := score_levels v busy i targets best in
  b.2 = true -> level_is_free busy b.1.2 = true.
Proof.
  revert i best. induction targets as [|t ts IH]; intros i best Hb; [done|].
  cbn [score_levels]. apply IH. cbv zeta.
  destruct (level_is_free busy (wrap 8 (i + 1)) && (0 <? t)) eqn:E; [|done].
  destruct (f64_lt _ _); [|done]. intros _. by apply andb_true_iff in E as [? _].
Qed.

Lemma choose_level_spec v c busy lvl sc :
  choose_level v c busy = Some (lvl, sc) ->
  level_is_free busy lvl = true /\
  (f64_lt sc f64_one = false \/
   (lvl = 0 /\ l0_slowdown_trigger c <= Z.of_nat (l0_file_count v))).
Proof.
  unfold choose_level. destruct (_ && level_is_free busy 0) eqn:E.
  - intros [= <- <-]. apply andb_true_iff in E as [E1%Z.leb_le E2]. auto.
  - set (start := if _ && _ then _ else _).
    pose proof (score_levels_free v busy 0 (level_target_bytes c) start) as Hfree.
    destruct (score_levels v busy 0 (level_target_bytes c) start) as [[bs bl] found] eqn:Es.
    destruct found; simpl; [|done]. destruct (f64_lt bs f64_one) eqn:El; [done|].
    intros [= <- <-]. split; [|by left]. apply Hfree; [|done]. unfold start.
    destruct (f64_lt f64_zero (l0_score v c) && level_is_free busy 0) eqn:E0; [|done].
    intros _. by apply andb_true_iff in E0 as [_ ?].
Qed.

(** The scored level is one of those configured. *)
Lemma score_levels_range v busy i targets best :
  0 <= i -> 0 <= best.1.2 <= i -> i + Z.of_nat (length targets) <= 255 ->
  0 <= (score_levels v busy i targets best).1.2 <= i + Z.of_nat (length targets).
Proof.
  revert i best. induction targets as [|t ts IH]; intros i best H0 Hb Hl; cbn [length score_levels] in *; [lia|].
  assert (Hw : wrap 8 (i + 1) = i + 1) by (unfold wrap; rewrite Z.mod_small; lia). cbv zeta. rewrite Hw.
  match goal with |- context [score_levels v busy (i + 1) ts ?b] => specialize (IH (i + 1) b) end.
  replace (i + Z.of_nat (Datatypes.S (length ts))) with (i + 1 + Z.of_nat (length ts)) by lia. apply IH; [lia| |lia].
  repeat case_match; cbn; lia.
Qed.

Lemma choose_level_range v c busy lvl sc :
  choose_level v c busy = Some (lvl, sc) -> Z.of_nat (length (level_target_bytes c)) <= 253 ->
  0 <= lvl <= Z.of_nat (length (level_target_bytes c)).
Proof.
  unfold choose_level. intros H Hl. destruct (_ && level_is_free busy 0); [injection H as <- <-; lia|].
  set (start := if _ && _ then _ else _) in H.
  pose proof (score_levels_range v busy 0 (level_target_bytes c) start ltac:(lia)) as Hr.
  destruct (score_levels v busy 0 (level_target_bytes c) start) as [[bs bl] found].
  destruct (negb found || f64_lt bs f64_one); [done|]. injection H as <- <-. cbn in Hr. apply Hr; [|lia].
  unfold start. by destruct (_ && _).
Qed.

Lemma select_files_prefix c fs bytes rows pre : exists n, select_files c fs bytes rows pre = pre ++ map path (take n fs).
Proof.
  revert bytes rows pre. induction fs as [|f fs IH]; intros bytes rows pre; cbn [select_files]; [exists 0%nat; by rewrite app_nil_r|].
  destruct (negb _ && _); [exists 0%nat; by rewrite app_nil_r|].
  destruct (IH (sat_add 64 bytes (file_size (meta f))) (sat_add 64 rows (num_rows (meta f))) (pre ++ [path f])) as [n ->].
  exists (Datatypes.S n). by rewrite <- app_assoc.
Qed.

(** Two parts of the candidates of L0. *)
Lemma candidates_split v n f g : f ∈ take n (candidate_files v 0) -> g ∈ drop n (candidate_files v 0) ->
  seq_min (meta f) <= seq_min (meta g).
Proof.
  unfold candidate_files. cbn [Z.eqb]. set (l := sort_by _ _). intros Hf Hg.
  assert (Hsort : StronglySorted (fun f g => seq_min (meta f) <=? seq_min (meta g)) l).
  { apply sort_by_sorted.
    - intros x y Hxy%Z.leb_gt. apply Z.leb_le. lia.
    - intros x y z H3%Z.leb_le H4%Z.leb_le. apply Z.leb_le. lia. }
  rewrite <- (take_drop n l) in Hsort. apply StronglySorted_app in Hsort as (Hc & _). apply Z.leb_le, Is_true_true. by apply Hc.
Qed.

Lemma candidate_perm v lvl : candidate_files v lvl ≡ₚ files_at v lvl.
Proof. unfold candidate_files. destruct (Z.eqb_spec lvl 0) as [->|]; [apply sort_by_perm|done]. Qed.

(** The levels of a pick, and its files. *)
Lemma pick_spec v c busy p : pick_compaction v c busy = Some p -> Z.of_nat (length (level_target_bytes c)) <= 253 ->
  0 <= input_level p <= Z.of_nat (length (level_target_bytes c)) /\ output_level p = input_level p + 1 /\
  input_level p ∉ busy /\ output_level p ∉ busy /\
  exists n, input_files p = map path (take n (candidate_files v (input_level p))).
Proof.
  unfold pick_compaction. intros Hp Hl. destruct (choose_level v c busy) as [[lvl sc]|] eqn:Ech; [|done]. simpl in Hp.
  case_bool_decide; [done|]. injection Hp as <-. cbn [input_level output_level input_files].
  pose proof (choose_level_range v c busy lvl sc Ech Hl) as Hr. destruct (choose_level_spec _ _ _ _ _ Ech) as [Hf _].
  apply andb_true_iff in Hf as [F1%bool_decide_eq_true F2%bool_decide_eq_true].
  split; [done|]. split; [unfold Level_next, wrap; rewrite Z.mod_small; lia|]. split; [done|]. split; [done|].
  apply select_files_prefix.
Qed.

(** ** Properties *)

(** C27. What a compaction pick guarantees: neither its input nor its output
    level is being compacted; its score is at least 1.0 unless L0 is over the
    slowdown trigger; its files are a non-empty prefix of the level's
    candidates (for L0 the oldest first, so that every file left behind is
    newer); and a pick of more than one file is within the byte and row caps. *)
Theorem pick_compaction_sound v c busy p :
  caps_ok c -> sizes_ok (files_at v (input_level p)) ->
  pick_compaction v c busy = Some p ->
  output_level p = Level_next (input_level p) /\
  input_level p ∉ busy /\ output_level p ∉ busy /\
  (f64_lt (score p) f64_one = false \/
   (input_level p = 0 /\ l0_slowdown_trigger c <= Z.of_nat (l0_file_count v))) /\
  exists taken left_behind,
    taken ++ left_behind ≡ₚ files_at v (input_level p) /\ taken <> [] /\
    input_files p = map path taken /\
    ((length taken <= 1)%nat \/ within_caps c taken) /\
    (input_level p = 0 -> forall f g, f ∈ taken -> g ∈ left_behind ->
       seq_min (meta f) <= seq_min (meta g)).
Proof.
  intros Hc Hs Hp. unfold pick_compaction in Hp.
  destruct (choose_level v c busy) as [[lvl sc]|] eqn:Ech; [|done]. simpl in Hp.
  case_bool_decide as Ene; [done|]. injection Hp as <-. cbn [input_level output_level score input_files] in *.
  destruct (choose_level_spec _ _ _ _ _ Ech) as [Hf Hsc].
  apply andb_true_iff in Hf as [F1%bool_decide_eq_true F2%bool_decide_eq_true].
  do 4 (split; [done|]).
  pose proof (candidate_perm v lvl) as P.
  destruct (select_files_spec c (candidate_files v lvl) [] Hc) as (n & E & H1 & H2).
  { simpl. unfold sizes_ok. by rewrite P. }
  { left. simpl. lia. }
  change (Z.min (bytes_of []) (2 ^ 64 - 1)) with 0 in E.
  change (Z.min (rows_of []) (2 ^ 64 - 1)) with 0 in E. simpl in E, H1, H2.
  exists (take n (candidate_files v lvl)), (drop n (candidate_files v lvl)).
  rewrite take_drop. split; [done|]. split.
  { apply H2. intros Hnil. apply Ene. by rewrite E, Hnil, take_nil. }
  split; [done|]. split; [done|]. intros -> f g. apply candidates_split.
Qed.

(** L0 has more files than the trigger; the two oldest fit the cap. *)
Definition ex_pick_version : Version :=
  {| snapshot_id := 1;
     levels := {[ 0 := [ex_file "e" 0 41 50 [b0] [bFF] 60; ex_file "d" 0 31 40 [b0] [bFF] 60;
                        ex_file "c" 0 21 30 [b0] [bFF] 60; ex_file "b" 0 11 20 [b0] [bFF] 40;
                        ex_file "a" 0 1 10 [b0] [bFF] 50] ]};
     schema := ex_schema |}.
Definition ex_config : EngineConfig := {|
  memtable_size_bytes := 1000; max_immutable_count := 4; row_cache_capacity := 10;
  bloom_bits_per_key := 10; cfg_read_only := false; gc_grace_period_secs := 0; enable_flush_dv_emission := true;
  level_target_bytes := [100; 1000]; l0_compaction_trigger := 4; l0_slowdown_trigger := 20;
  l0_stop_trigger := 36; max_compaction_bytes := 100; max_compaction_input_rows := 0;
  dual_format_max_level := Some 0 |}.
Definition ex_pick : CompactionPick :=
  {| input_level := 0; output_level := 1; score := f64_div (as_f64 5) (as_f64 4);
     input_files := ["a"%string; "b"%string] |}.

Lemma pick_compaction_sound_witness :
  pick_compaction ex_pick_version ex_config {[ 3 ]} = Some ex_pick /\
  exists taken left_behind,
    taken ++ left_behind ≡ₚ files_at ex_pick_version 0 /\ taken <> [] /\
    input_files ex_pick = map path taken.
Proof.
  assert (E : pick_compaction ex_pick_version ex_config {[ 3 ]} = Some ex_pick)
    by (vm_compute; reflexivity).
  split; [exact E|].
  destruct (pick_compaction_sound ex_pick_version ex_config {[ 3 ]} ex_pick)
    as (_ & _ & _ & _ & taken & rest & P & Hne & Hf & _).
  - split; vm_compute; reflexivity.
  - vm_compute. repeat constructor; discriminate.
  - exact E.
  - exists taken, rest. split; [exact P|]. split; [exact Hne|exact Hf].
Defined.
