(* ===== verification/Bloom.v ===== *)
(** * The Bloom filter

    [src/crates/merutable/src/parquet/bloom.rs]: a filter of 64-byte lines.
    The hash [xxhash_rust::xxh3::xxh3_64] is a parameter.  The AVX2 and NEON
    entry points delegate to the scalar probe, as in the code. *)

From Stdlib Require Import Floats.SpecFloat.
From S2P Require Import Prelude.
Local Open Scope Z_scope.

Record FastLocalBloom : Type := { data : bytes; num_probes : Z }.

(** ** Number of probes: [(bits_per_key as f64 * LN_2).round() as u8], clamped. *)
Definition LN_2 : spec_float := S754_finite false 6243314768165359 (-53).

(** [f64::round] (half away from zero) of a non-negative value, as [u8]
    (saturating; NaN is 0). *)
Definition round_u8 (x : spec_float) : Z :=
  match x with
  | S754_finite false m e =>
      Z.min 255 (if 0 <=? e then Z.pos m * 2 ^ e
                 else (Z.pos m * 2 + 2 ^ (- e)) / 2 ^ (- e + 1))
  | S754_infinity false => 255
  | _ => 0
  end.

Definition choose_num_probes (bits_per_key : Z) : Z :=
  let k := round_u8 (SFmul 53 1024 (binary_normalize 53 1024 bits_per_key 0 false) LN_2) in
  Z.max 1 (Z.min 30 k).

(** [total_bits.div_ceil(512)]. *)
Definition bloom_new (num_keys bits_per_key : Z) : FastLocalBloom :=
  let total_bits := Z.max (wrap 64 (num_keys * bits_per_key)) 512 in
  let num_buckets := (total_bits + 511) / 512 in
  {| data := repeat b0 (Z.to_nat (num_buckets * 64));
     num_probes := choose_num_probes bits_per_key |}.

(** ** Bits *)
Definition num_buckets_of (d : bytes) : Z := Z.of_nat (length d) / 64.

Definition fast_range32 (hash n : Z) : Z := Z.shiftr (hash * n) 32.

(** The start of the line of a hash; slicing it panics when the filter has
    no line there. *)
Definition line_start (d : bytes) (h1 : Z) : res nat :=
  let b := fast_range32 h1 (wrap 32 (num_buckets_of d)) in
  if (b + 1) * 64 <=? Z.of_nat (length d) then Ok (Z.to_nat (b * 64)) else Panic.

Definition bitpos (h : Z) : Z := Z.land (Z.shiftr h 23) 511.
Definition next_h (h : Z) : Z := wrap 32 (h * 0x9e3779b9).
Definition byte_idx (base : nat) (h : Z) : nat := base + Z.to_nat (Z.shiftr (bitpos h) 3).
Definition mask (h : Z) : Z := Z.shiftl 1 (Z.land (bitpos h) 7).

Fixpoint add_probes (n : nat) (base : nat) (h : Z) (d : bytes) : bytes :=
  match n with
  | O => d
  | S n =>
      add_probes n base (next_h h)
        (alter (fun b => byte.of_Z (Z.lor (byte.unsigned b) (mask h))) (byte_idx base h) d)
  end.

Definition add_inner (d : bytes) (h1 h2 probes : Z) : res bytes :=
  base ← line_start d h1;
  Ok (add_probes (Z.to_nat probes) base h2 d).

Fixpoint probe_loop (n : nat) (base : nat) (h : Z) (d : bytes) : bool :=
  match n with
  | O => true
  | S n =>
      match d !! byte_idx base h with
      | None => false
      | Some b =>
          if Z.land (byte.unsigned b) (mask h) =? 0 then false
          else probe_loop n base (next_h h) d
      end
  end.

Definition probe_scalar (d : bytes) (h1 h2 probes : Z) : res bool :=
  base ← line_start d h1;
  Ok (probe_loop (Z.to_nat probes) base h2 d).

Section filter.
Context (xxh3_64 : bytes -> Z).

Definition h1_of (key : bytes) : Z := Z.shiftr (xxh3_64 key) 32.
Definition h2_of (key : bytes) : Z := wrap 32 (xxh3_64 key).

Definition bloom_add (key : bytes) (f : FastLocalBloom) : res FastLocalBloom :=
  d ← add_inner (data f) (h1_of key) (h2_of key) (num_probes f);
  Ok {| data := d; num_probes := num_probes f |}.

Definition may_contain (key : bytes) (f : FastLocalBloom) : res bool :=
  probe_scalar (data f) (h1_of key) (h2_of key) (num_probes f).

Fixpoint add_all (keys : list bytes) (f : FastLocalBloom) : res FastLocalBloom :=
  match keys with
  | [] => Ok f
  | k :: keys => f ← bloom_add k f; add_all keys f
  end.
End filter.

(** ** Serialization *)
Definition to_bytes (f : FastLocalBloom) : bytes :=
  byte.of_Z (num_probes f) :: le_split 4 (wrap 32 (num_buckets_of (data f))) ++ data f.

Definition bloom_from_bytes (raw : bytes) : res FastLocalBloom :=
  match raw with
  | p :: rest =>
      if (length rest <? 4)%nat then Err (Corruption "bloom filter bytes too short")
      else
        let probes := byte.unsigned p in
        if probes =? 0 then Err (Corruption "bloom filter num_probes must be ≥ 1")
        else
          let num_buckets := le_combine (take 4 rest) in
          if num_buckets =? 0 then Err (Corruption "bloom filter num_buckets must be ≥ 1")
          else if negb (Z.of_nat (length rest - 4) =? num_buckets * 64) then
            Err (Corruption "bloom data length mismatch")
          else Ok {| data := drop 4 rest; num_probes := probes |}
  | [] => Err (Corruption "bloom filter bytes too short")
  end.

(** ** Bits that are set stay set *)

(** What every filter has: whole lines, at least one, and some probes. *)
Definition bloom_wf (f : FastLocalBloom) : Prop :=
  (exists n, 0 < n /\ Z.of_nat (length (data f)) = n * 64) /\ 1 <= num_probes f <= 255.

Lemma line_start_ok (d : bytes) n h1 :
  0 < n -> Z.of_nat (length d) = n * 64 -> 0 <= h1 < 2 ^ 32 ->
  exists base, line_start d h1 = Ok base /\ (base + 64 <= length d)%nat.
Proof.
  intros Hn Hl Hh. unfold line_start, num_buckets_of. rewrite Hl, Z.div_mul by lia.
  set (w := wrap 32 n). assert (Hw : 0 <= w /\ w <= n /\ (w < 2 ^ 32)).
  { unfold w, wrap. pose proof (Z.mod_pos_bound n (2 ^ 32)).
    pose proof (Z.mod_le n (2 ^ 32)). lia. }
  set (b := fast_range32 h1 w).
  assert (Hb : 0 <= b /\ b < n).
  { unfold b, fast_range32. rewrite Z.shiftr_div_pow2 by lia.
    split; [apply Z.div_pos; nia|].
    destruct (decide (w = 0)) as [->|]; [rewrite Z.mul_0_r, Z.div_0_l; lia|].
    assert (h1 * w / 2 ^ 32 < w); [|lia]. apply Z.div_lt_upper_bound; nia. }
  clearbody b. destruct (Z.leb_spec ((b + 1) * 64) (n * 64)); [|lia].
  eexists. split; [reflexivity|]. lia.
Qed.

Lemma bitpos_bounds h : 0 <= bitpos h < 512.
Proof.
  unfold bitpos. change 511 with (Z.ones 9). rewrite Z.land_ones by lia.
  apply Z.mod_pos_bound. lia.
Qed.

Lemma byte_idx_bounds base h : (base <= byte_idx base h < base + 64)%nat.
Proof.
  unfold byte_idx. pose proof (bitpos_bounds h). rewrite Z.shiftr_div_pow2 by lia.
  assert (0 <= bitpos h / 2 ^ 3 < 64); [|lia].
  split; [apply Z.div_pos; lia|apply Z.div_lt_upper_bound; lia].
Qed.

Lemma mask_eq h : exists i, 0 <= i < 8 /\ mask h = 2 ^ i.
Proof.
  unfold mask. change 7 with (Z.ones 3). rewrite Z.land_ones by lia.
  exists (bitpos h mod 2 ^ 3). split; [apply Z.mod_pos_bound; lia|].
  rewrite Z.shiftl_mul_pow2 by (apply Z.mod_pos_bound; lia). lia.
Qed.

Lemma land_pow2 x i : 0 <= i -> (Z.land x (2 ^ i) =? 0) = negb (Z.testbit x i).
Proof.
  intros Hi. destruct (Z.testbit x i) eqn:E; simpl.
  - apply Z.eqb_neq. intros H0. assert (Ht : Z.testbit (Z.land x (2 ^ i)) i = false)
      by (rewrite H0; apply Z.bits_0).
    rewrite Z.land_spec, E, Z.pow2_bits_true in Ht by done. done.
  - apply Z.eqb_eq. apply Z.bits_inj'. intros n Hn. rewrite Z.land_spec, Z.bits_0.
    destruct (decide (n = i)) as [->|]; [by rewrite E|].
    rewrite Z.pow2_bits_false by done. apply andb_false_r.
Qed.

Lemma lor_byte x h :
  byte.unsigned (byte.of_Z (Z.lor (byte.unsigned x) (mask h))) = Z.lor (byte.unsigned x) (mask h).
Proof.
  destruct (mask_eq h) as (i & Hi & ->).
  rewrite byte.unsigned_of_Z. apply Z.mod_small.
  pose proof (byte.unsigned_range x) as Hx.
  split; [apply Z.lor_nonneg; split; [lia|apply Z.pow_nonneg; lia]|].
  assert (Hl : Z.log2 (Z.lor (byte.unsigned x) (2 ^ i)) < 8).
  { rewrite Z.log2_lor by (try apply Z.pow_nonneg; lia). rewrite Z.log2_pow2 by lia.
    destruct (decide (byte.unsigned x = 0)) as [->|]; [simpl; lia|].
    assert (Z.log2 (byte.unsigned x) < 8) by (apply Z.log2_lt_pow2; lia). lia. }
  assert (0 < Z.lor (byte.unsigned x) (2 ^ i)).
  { assert (0 <= Z.lor (byte.unsigned x) (2 ^ i)) by
      (apply Z.lor_nonneg; split; [lia|apply Z.pow_nonneg; lia]).
    destruct (decide (Z.lor (byte.unsigned x) (2 ^ i) = 0)) as [E|]; [|lia].
    apply Z.lor_eq_0_iff in E as [_ E]. pose proof (Z.pow_pos_nonneg 2 i). lia. }
  apply Z.log2_lt_pow2 in Hl; lia.
Qed.

(** [bit_set d base h]: the probe of [h] in the line at [base] finds its bit. *)
Definition bit_set (d : bytes) (base : nat) (h : Z) : Prop :=
  exists b, d !! byte_idx base h = Some b /\ Z.land (byte.unsigned b) (mask h) <> 0.

Definition set_bit (base : nat) (h : Z) (d : bytes) : bytes :=
  alter (fun b => byte.of_Z (Z.lor (byte.unsigned b) (mask h))) (byte_idx base h) d.

Lemma set_bit_mono base h d base' h' : bit_set d base' h' -> bit_set (set_bit base h d) base' h'.
Proof.
  intros (b & Hb & Hm). unfold bit_set, set_bit.
  destruct (decide (byte_idx base h = byte_idx base' h')) as [E|Hne].
  - rewrite E, list_lookup_alter_eq, Hb. eexists. split; [reflexivity|]. rewrite lor_byte.
    destruct (mask_eq h') as (i & Hi & Ei). rewrite Ei in *.
    apply Z.eqb_neq. apply Z.eqb_neq in Hm. rewrite land_pow2 in Hm |- * by lia.
    apply negb_false_iff in Hm. apply negb_false_iff. by rewrite Z.lor_spec, Hm.
  - rewrite list_lookup_alter_ne by done. eauto.
Qed.

Lemma set_bit_sets base h d : (byte_idx base h < length d)%nat -> bit_set (set_bit base h d) base h.
Proof.
  intros Hlt. destruct (lookup_lt_is_Some_2 d _ Hlt) as [b Hb].
  unfold bit_set, set_bit. rewrite list_lookup_alter_eq, Hb. eexists. split; [reflexivity|].
  rewrite lor_byte. destruct (mask_eq h) as (i & Hi & Ei). rewrite Ei.
  apply Z.eqb_neq. rewrite land_pow2 by lia. apply negb_false_iff.
  rewrite Z.lor_spec, Z.pow2_bits_true by lia. apply orb_true_r.
Qed.

Lemma add_probes_mono n base h d base' h' :
  bit_set d base' h' -> bit_set (add_probes n base h d) base' h'.
Proof.
  revert h d. induction n as [|n IH]; intros h d H; [done|].
  cbn [add_probes]. apply IH. by apply set_bit_mono.
Qed.

Lemma add_probes_length n base h d : length (add_probes n base h d) = length d.
Proof.
  revert h d. induction n as [|n IH]; intros h d; [done|].
  cbn [add_probes]. by rewrite IH, length_alter.
Qed.

Lemma probe_loop_spec n base h d :
  (forall i, (i < n)%nat -> bit_set d base (Nat.iter i next_h h)) -> probe_loop n base h d = true.
Proof.
  revert h. induction n as [|n IH]; intros h H; [done|]. cbn [probe_loop].
  destruct (H 0%nat) as (b & Hb & Hm); [lia|]. simpl in Hb, Hm. rewrite Hb.
  apply Z.eqb_neq in Hm. rewrite Hm. apply IH. intros i Hi.
  rewrite <- Nat.iter_succ_r. apply (H (S i)). lia.
Qed.

Lemma probe_loop_inv n base h d i :
  probe_loop n base h d = true -> (i < n)%nat -> bit_set d base (Nat.iter i next_h h).
Proof.
  revert h i. induction n as [|n IH]; intros h i H Hi; [lia|]. cbn [probe_loop] in H.
  destruct (d !! byte_idx base h) as [b|] eqn:Eb; [|done].
  destruct (Z.eqb_spec (Z.land (byte.unsigned b) (mask h)) 0) as [|Hm]; [done|].
  destruct i as [|i]; [by exists b|]. rewrite Nat.iter_succ_r. apply IH; [done|lia].
Qed.

Lemma add_then_probe n base h d :
  (base + 64 <= length d)%nat -> probe_loop n base h (add_probes n base h d) = true.
Proof.
  intros Hb. apply probe_loop_spec. revert h d Hb.
  induction n as [|n IH]; intros h d Hb i Hi; [lia|]. cbn [add_probes].
  destruct i as [|i].
  - change (Nat.iter 0 next_h h) with h. apply add_probes_mono, set_bit_sets. pose proof (byte_idx_bounds base h). lia.
  - rewrite Nat.iter_succ_r. apply IH; [|lia]. by rewrite length_alter.
Qed.

Section filter_lemmas.
Context (xxh3_64 : bytes -> Z) (hash_range : forall k, 0 <= xxh3_64 k < 2 ^ 64).

Lemma h1_range k : 0 <= h1_of xxh3_64 k < 2 ^ 32.
Proof.
  unfold h1_of. specialize (hash_range k). rewrite Z.shiftr_div_pow2 by lia.
  split; [apply Z.div_pos; lia|]. apply Z.div_lt_upper_bound; [lia|].
  change (2 ^ 32 * 2 ^ 32) with (2 ^ 64). lia.
Qed.

Lemma bloom_line f k :
  bloom_wf f -> exists base, line_start (data f) (h1_of xxh3_64 k) = Ok base /\
                             (base + 64 <= length (data f))%nat.
Proof. intros [(n & Hn & Hl) _]. eapply line_start_ok; [exact Hn|done|apply h1_range]. Qed.

Lemma bloom_add_ok k f :
  bloom_wf f -> exists f', bloom_add xxh3_64 k f = Ok f' /\ bloom_wf f' /\
    may_contain xxh3_64 k f' = Ok true /\
    forall k', may_contain xxh3_64 k' f = Ok true -> may_contain xxh3_64 k' f' = Ok true.
Proof.
  intros Hf. destruct (bloom_line f k Hf) as (base & E & Hb).
  unfold bloom_add, add_inner. rewrite E, !Ok_bind. eexists. split; [reflexivity|].
  pose proof Hf as [(n & Hn & Hl) Hp]. split.
  { split; [|done]. simpl. exists n. by rewrite add_probes_length. }
  unfold may_contain, probe_scalar. cbn [data num_probes].
  assert (Els : forall h1, line_start (add_probes (Z.to_nat (num_probes f)) base
                  (h2_of xxh3_64 k) (data f)) h1 = line_start (data f) h1).
  { intros h1. unfold line_start, num_buckets_of. by rewrite add_probes_length. }
  split.
  - rewrite Els, E, Ok_bind. f_equal. by apply add_then_probe.
  - intros k' H. rewrite Els. destruct (line_start (data f) (h1_of xxh3_64 k')) as [base'| |];
      [|done..]. rewrite Ok_bind in *. injection H as H. f_equal.
    apply probe_loop_spec. intros i Hi. apply add_probes_mono. by eapply probe_loop_inv.
Qed.

Lemma add_all_ok keys f :
  bloom_wf f -> exists f', add_all xxh3_64 keys f = Ok f' /\ bloom_wf f' /\
    (forall k, may_contain xxh3_64 k f = Ok true -> may_contain xxh3_64 k f' = Ok true) /\
    forall k, k ∈ keys -> may_contain xxh3_64 k f' = Ok true.
Proof.
  revert f. induction keys as [|k keys IH]; intros f Hf.
  { exists f. split; [done|]. split; [done|]. split; [done|]. by intros k ?%elem_of_nil. }
  destruct (bloom_add_ok k f Hf) as (f1 & E1 & W1 & M1 & P1).
  destruct (IH f1 W1) as (f2 & E2 & W2 & P2 & M2). cbn [add_all]. rewrite E1, Ok_bind.
  exists f2. split; [done|]. split; [done|]. split; [auto|].
  intros k' [->|Hk]%elem_of_cons; auto.
Qed.
End filter_lemmas.

Lemma add_all_length xxh3_64 keys f f' :
  add_all xxh3_64 keys f = Ok f' -> length (data f') = length (data f).
Proof.
  revert f. induction keys as [|k keys IH]; intros f E; [by injection E as ->|].
  cbn [add_all] in E. apply bind_Ok in E as (f1 & E1 & E). rewrite (IH _ E).
  unfold bloom_add, add_inner in E1. apply bind_Ok in E1 as (d & Ed & E1).
  apply bind_Ok in Ed as (base & _ & Ed). injection Ed as <-. injection E1 as <-.
  apply add_probes_length.
Qed.

Lemma bloom_new_wf num_keys bits : bloom_wf (bloom_new num_keys bits).
Proof.
  unfold bloom_new, choose_num_probes, bloom_wf. cbn [data num_probes]. split; [|lia].
  set (t := Z.max (wrap 64 (num_keys * bits)) 512).
  assert (Ht : 512 <= t) by (unfold t; lia). clearbody t.
  exists ((t + 511) / 512). rewrite repeat_length.
  assert (1 <= (t + 511) / 512) by (apply Z.div_le_lower_bound; lia). lia.
Qed.

Lemma from_to_bytes f :
  bloom_wf f -> Z.of_nat (length (data f)) < 2 ^ 38 -> bloom_from_bytes (to_bytes f) = Ok f.
Proof.
  intros [(n & Hn & Hl) Hp] Hb. unfold to_bytes, bloom_from_bytes.
  rewrite length_app, le_split_length, take_app_length', drop_app_length'
    by (by rewrite le_split_length).
  assert (Hnb : num_buckets_of (data f) = n) by (unfold num_buckets_of; rewrite Hl; apply Z.div_mul; lia).
  assert (Ep : byte.unsigned (byte.of_Z (num_probes f)) = num_probes f).
  { rewrite byte.unsigned_of_Z. apply Z.mod_small. lia. }
  assert (Ew : wrap 32 n = n) by (unfold wrap; apply Z.mod_small; lia).
  rewrite Ep, Hnb, Ew, le_combine_split_id by lia.
  destruct (Nat.ltb_spec (4 + length (data f)) 4); [lia|].
  destruct (Z.eqb_spec (num_probes f) 0); [lia|]. destruct (Z.eqb_spec n 0); [lia|].
  rewrite Nat.add_comm, Nat.add_sub, Hl, Z.eqb_refl. by destruct f.
Qed.

Lemma bloom_new_small num_keys bits_per_key :
  0 <= num_keys * bits_per_key < 2 ^ 40 -> Z.of_nat (length (data (bloom_new num_keys bits_per_key))) < 2 ^ 38.
Proof.
  intros Hb. unfold bloom_new. cbn [data].
  rewrite repeat_length. unfold wrap. rewrite Z.mod_small by lia.
  set (t := Z.max (num_keys * bits_per_key) 512).
  assert (Ht : 512 <= t < 2 ^ 40) by (unfold t; lia). clearbody t.
  assert (0 <= (t + 511) / 512 < 2 ^ 31 + 1); [|lia].
  split; [apply Z.div_pos; lia|]. apply Z.div_lt_upper_bound; lia.
Qed.

(** ** Properties *)

(** The filter has no false negatives: building it never panics, and
    after adding any list of keys, serialising the filter and reading it back
    (when its length fits the 32-bit bucket count), every added key is reported
    as present, whatever the hash function. *)
Theorem bloom_no_false_negatives xxh3_64 num_keys bits_per_key keys :
  (forall k, 0 <= xxh3_64 k < 2 ^ 64) -> 0 <= num_keys * bits_per_key < 2 ^ 40 ->
  exists f, add_all xxh3_64 keys (bloom_new num_keys bits_per_key) = Ok f /\
    bloom_from_bytes (to_bytes f) = Ok f /\
    forall k, k ∈ keys -> may_contain xxh3_64 k f = Ok true.
Proof.
  intros Hh Hb. pose proof (bloom_new_wf num_keys bits_per_key) as Hw.
  destruct (add_all_ok xxh3_64 Hh keys _ Hw) as (f & E & Wf & _ & M).
  exists f. split; [done|]. split; [|done]. apply from_to_bytes; [done|].
  rewrite (add_all_length xxh3_64 keys _ _ E). by apply bloom_new_small.
Qed.

(** A hash for the worked examples. *)
Definition example_hash (k : bytes) : Z :=
  wrap 64 (foldr (fun b acc => byte.unsigned b * 0x9e3779b97f4a7c15 + 31 * acc) 0x51ed27 k).

Lemma example_hash_range k : 0 <= example_hash k < 2 ^ 64.
Proof. apply Z.mod_pos_bound. lia. Qed.

Lemma bloom_no_false_negatives_witness :
  exists f, add_all example_hash [[b0]; [bFF; b0]] (bloom_new 2 10) = Ok f /\
    bloom_from_bytes (to_bytes f) = Ok f /\
    forall k, k ∈ [[b0]; [bFF; b0]] -> may_contain example_hash k f = Ok true.
Proof.
  apply (bloom_no_false_negatives example_hash 2 10 [[b0]; [bFF; b0]]);
    [exact example_hash_range|lia].
Defined.

(** A filter read from untrusted bytes is safe to use: whatever bytes
    [bloom_from_bytes] accepts, no lookup and no insertion panics, and the filter
    re-serialises to the same bytes; [bloom_from_bytes] itself never panics. *)
Theorem bloom_from_bytes_safe xxh3_64 raw :
  (forall k, 0 <= xxh3_64 k < 2 ^ 64) ->
  match bloom_from_bytes raw with
  | Ok f => to_bytes f = raw /\
      forall k, (exists b, may_contain xxh3_64 k f = Ok b) /\
                (exists f', bloom_add xxh3_64 k f = Ok f')
  | Err _ => True
  | Panic => False
  end.
Proof.
  intros Hh. destruct raw as [|p rest]; [done|]. unfold bloom_from_bytes.
  destruct (Nat.ltb_spec (length rest) 4); [done|].
  destruct (Z.eqb_spec (byte.unsigned p) 0) as [|Hp]; [done|].
  destruct (Z.eqb_spec (le_combine (take 4 rest)) 0) as [|Hn]; [done|].
  destruct (Z.eqb_spec (Z.of_nat (length rest - 4)) (le_combine (take 4 rest) * 64))
    as [El|]; [|done]. cbn [negb].
  assert (Lt : length (take 4 rest) = 4%nat) by (rewrite length_take; lia).
  pose proof (le_combine_bound (take 4 rest)) as Hb. rewrite Lt in Hb.
  pose proof (byte.unsigned_range p) as Hpr.
  set (f := {| data := drop 4 rest; num_probes := byte.unsigned p |}).
  assert (Ed : Z.of_nat (length (data f)) = le_combine (take 4 rest) * 64)
    by (simpl; rewrite length_drop; lia).
  assert (Hf : bloom_wf f).
  { split; [exists (le_combine (take 4 rest)); lia|simpl; lia]. }
  split.
  - unfold to_bytes, num_buckets_of. rewrite Ed, Z.div_mul by lia. cbn [num_probes f].
    rewrite byte.of_Z_unsigned. f_equal. unfold wrap. rewrite Z.mod_small by lia.
    rewrite <- Lt at 1. rewrite split_le_combine. cbn [data]. apply take_drop.
  - intros k. destruct (bloom_line xxh3_64 Hh f k Hf) as (base & E & _).
    split; [|destruct (bloom_add_ok xxh3_64 Hh k f Hf) as (f' & E' & _); eauto].
    unfold may_contain, probe_scalar. rewrite E. by eexists.
Qed.

Lemma bloom_from_bytes_safe_witness :
  match bloom_from_bytes (to_bytes (bloom_new 3 10)) with
  | Ok f => to_bytes f = to_bytes (bloom_new 3 10) /\
      forall k, (exists b, may_contain example_hash k f = Ok b) /\
                (exists f', bloom_add example_hash k f = Ok f')
  | Err _ => True
  | Panic => False
  end.
Proof. apply (bloom_from_bytes_safe example_hash). exact example_hash_range. Defined.
