(* ===== verification/KvIndex.v ===== *)
(** * The sparse key index of a data file

    [src/crates/merutable/src/parquet/kv_index.rs]: prefix-compressed keys
    with restart points, the validating parser and the page lookup.  Sizes are
    those of a 64-bit [usize], so the overflow checks of [kv_from_bytes] on sums
    of 32-bit fields cannot fail and are not repeated here. *)

From S2P Require Import Prelude LsmVersion.
Local Open Scope Z_scope.
Local Open Scope nat_scope.

Definition KV_INDEX_VERSION : byte := Byte.x01.
Definition KV_HEADER_SIZE : nat := 24.
Definition ENTRY_FIXED_TAIL : nat := 20.
Definition ENTRY_HEADER : nat := 4.
Definition MAX_KEY_LEN : Z := 65535.

Record PageLocation : Type := {
  page_offset : Z;
  page_size : Z;
  first_row_index : Z;
}.

(** ** Building *)
Fixpoint shared_prefix_len (a b : bytes) : nat :=
  match a, b with
  | x :: a, y :: b => if bool_decide (x = y) then S (shared_prefix_len a b) else 0
  | _, _ => 0
  end.

Definition encode_entry (shared : nat) (suffix : bytes) (loc : PageLocation) : bytes :=
  le_split 2 (wrap 16 (Z.of_nat shared)) ++ le_split 2 (wrap 16 (Z.of_nat (length suffix)))
  ++ suffix
  ++ le_split 8 (page_offset loc) ++ le_split 4 (page_size loc)
  ++ le_split 8 (first_row_index loc).

(** [(i as u32).is_multiple_of(restart_interval)]. *)
Definition is_restart (ri : Z) (i : nat) : bool := (wrap 32 (Z.of_nat i) mod ri =? 0)%Z.

(** The loop over the entries: the entries section and the restart offsets. *)
Fixpoint build_loop (ri : Z) (i : nat) (prev_key : bytes) (es : list (bytes * PageLocation))
    (buf : bytes) (restarts : list Z) : res (bytes * list Z) :=
  match es with
  | [] => Ok (buf, restarts)
  | (key, loc) :: es =>
      if (MAX_KEY_LEN <? Z.of_nat (length key))%Z then
        Err (Parquet "kv_index::build: key exceeds MAX_KEY_LEN")
      else if (0 <? i) && bytes_leb key prev_key then
        Err (Parquet "kv_index::build requires strictly ascending keys")
      else
        let restart := is_restart ri i in
        let shared := if restart then 0 else shared_prefix_len prev_key key in
        let suffix := drop shared key in
        let restarts :=
          if restart then restarts ++ [wrap 32 (Z.of_nat (length buf))] else restarts in
        build_loop ri (S i) key es (buf ++ encode_entry shared suffix loc) restarts
  end.

Definition build (es : list (bytes * PageLocation)) (restart_interval : Z) : res bytes :=
  let ri := Z.max restart_interval 1 in
  '(buf, restarts) ← build_loop ri 0 [] es [] [];
  Ok (KV_INDEX_VERSION :: [b0; b0; b0]
      ++ le_split 4 (wrap 32 (Z.of_nat (length es)))
      ++ le_split 4 ri
      ++ le_split 4 (wrap 32 (Z.of_nat (length buf)))
      ++ le_split 4 (wrap 32 (Z.of_nat (length restarts)))
      ++ le_split 4 0
      ++ buf ++ concat (map (le_split 4) restarts)).

(** ** Reading integers; out-of-range indexing panics. *)
Definition uint_at (n : nat) (buf : bytes) (pos : nat) : res Z := le_combine <$> slice buf pos n.
Definition u16_at := uint_at 2.
Definition u32_at := uint_at 4.
Definition u64_at := uint_at 8.

(** ** The validating parser *)
Record KvSparseIndex : Type := {
  kv_bytes : bytes;
  num_entries : Z;
  restart_interval : Z;
  entries_size : nat;
  restart_offsets : list Z;
}.

Fixpoint load_restarts (n : nat) (buf : bytes) (pos : nat) (esize : Z) (prev : option Z)
    : res (list Z) :=
  match n with
  | O => Ok []
  | S n =>
      ro ← u32_at buf pos;
      if (esize <? ro)%Z then Err (Corruption "kv_index: restart_offset exceeds entries_size")
      else if (match prev with Some p => ro <=? p | None => false end)%Z then
        Err (Corruption "kv_index: restart_offset is not > previous")
      else
        rest ← load_restarts n buf (pos + 4) esize (Some ro);
        Ok (ro :: rest)
  end.

Definition div_ceil (a b : Z) : Z := ((a + b - 1) / b)%Z.

Fixpoint walk (n : nat) (buf : bytes) (ri : Z) (esize : nat) (restarts : list Z)
    (i cursor prev_key_len : nat) : res unit :=
  match n with
  | O =>
      if cursor =? esize then Ok tt
      else Err (Corruption "kv_index: trailing bytes in entries section")
  | S n =>
      if esize <? cursor + ENTRY_HEADER then
        Err (Corruption "kv_index: entry header overruns entries section")
      else
        let abs := KV_HEADER_SIZE + cursor in
        shared ← u16_at buf abs;
        suffix_len ← u16_at buf (abs + 2);
        let shared := Z.to_nat shared in
        let suffix_len := Z.to_nat suffix_len in
        if is_restart ri i && negb (shared =? 0) then
          Err (Corruption "kv_index: restart entry has nonzero shared")
        else if prev_key_len <? shared then
          Err (Corruption "kv_index: shared exceeds previous key length")
        else
          let need := ENTRY_HEADER + suffix_len + ENTRY_FIXED_TAIL in
          if esize <? cursor + need then
            Err (Corruption "kv_index: entry body overruns entries section")
          else if is_restart ri i then
            ro ← index restarts (Z.to_nat (wrap 32 (Z.of_nat i) / ri));
            if negb (ro =? wrap 32 (Z.of_nat cursor))%Z then
              Err (Corruption "kv_index: restart_offset does not point at entry")
            else walk n buf ri esize restarts (S i) (cursor + need) (shared + suffix_len)
          else walk n buf ri esize restarts (S i) (cursor + need) (shared + suffix_len)
  end.

Definition kv_from_bytes (buf : bytes) : res KvSparseIndex :=
  if length buf <? KV_HEADER_SIZE then Err (Corruption "kv_index: buffer too small")
  else
    version ← index buf 0;
    if negb (bool_decide (version = KV_INDEX_VERSION)) then
      Err (Corruption "kv_index: unsupported version")
    else
      num_entries ← u32_at buf 4;
      restart_interval ← u32_at buf 8;
      esize ← u32_at buf 12;
      num_restarts ← u32_at buf 16;
      if (restart_interval =? 0)%Z then Err (Corruption "kv_index: restart_interval is 0")
      else if negb (Z.of_nat (length buf)
                    =? Z.of_nat KV_HEADER_SIZE + esize + num_restarts * 4)%Z then
        Err (Corruption "kv_index: buffer size mismatch")
      else
        let entries_size := Z.to_nat esize in
        restarts ← load_restarts (Z.to_nat num_restarts) buf (KV_HEADER_SIZE + entries_size)
                     esize None;
        if negb (num_restarts =? if (num_entries =? 0)%Z then 0
                                 else div_ceil num_entries restart_interval)%Z then
          Err (Corruption "kv_index: num_restarts inconsistent")
        else
          _ ← walk (Z.to_nat num_entries) buf restart_interval entries_size restarts 0 0 0;
          Ok {| kv_bytes := buf; num_entries := num_entries;
                restart_interval := restart_interval; entries_size := entries_size;
                restart_offsets := restarts |}.

(** ** Lookup *)
Definition read_restart_key (x : KvSparseIndex) (idx : nat) : res bytes :=
  ro ← index (restart_offsets x) idx;
  let pos := KV_HEADER_SIZE + Z.to_nat ro in
  suffix_len ← u16_at (kv_bytes x) (pos + 2);
  slice (kv_bytes x) (pos + ENTRY_HEADER) (Z.to_nat suffix_len).

Definition decode_entry_at (x : KvSparseIndex) (cursor : nat) (prev_key : bytes)
    : res (bytes * PageLocation * nat) :=
  let abs := KV_HEADER_SIZE + cursor in
  shared ← u16_at (kv_bytes x) abs;
  suffix_len ← u16_at (kv_bytes x) (abs + 2);
  let suffix_start := abs + ENTRY_HEADER in
  suffix ← slice (kv_bytes x) suffix_start (Z.to_nat suffix_len);
  pre ← slice prev_key 0 (Z.to_nat shared);
  let tail := suffix_start + Z.to_nat suffix_len in
  po ← u64_at (kv_bytes x) tail;
  ps ← u32_at (kv_bytes x) (tail + 8);
  fr ← u64_at (kv_bytes x) (tail + 12);
  Ok (pre ++ suffix,
      {| page_offset := po; page_size := ps; first_row_index := fr |},
      tail + 20 - KV_HEADER_SIZE).

(** The binary search over restart points; [lo] is -1 or a restart whose key
    is at most the target.  At most [hi - lo] rounds are needed. *)
Fixpoint search_restarts (fuel : nat) (x : KvSparseIndex) (target : bytes) (lo hi : Z) : res Z :=
  match fuel with
  | O => Panic
  | S fuel =>
      if (1 <? hi - lo)%Z then
        let mid := Z.quot (lo + hi) 2 in
        mid_key ← read_restart_key x (Z.to_nat mid);
        match bytes_cmp mid_key target with
        | Lt | Eq => search_restarts fuel x target mid hi
        | Gt => search_restarts fuel x target lo mid
        end
      else Ok lo
  end.

Fixpoint scan (fuel : nat) (x : KvSparseIndex) (target : bytes) (cursor : nat)
    (prev_key : bytes) (best : option PageLocation)
    : res (option PageLocation * option Z) :=
  match fuel with
  | O => Panic
  | S fuel =>
      if entries_size x <=? cursor then Ok (best, None)
      else
        '(entry_key, loc, next_cursor) ← decode_entry_at x cursor prev_key;
        match bytes_cmp entry_key target with
        | Gt => Ok (best, match best with Some _ => Some (first_row_index loc) | None => None end)
        | _ => scan fuel x target next_cursor entry_key (Some loc)
        end
  end.

Definition scan_start (x : KvSparseIndex) (lo : Z) : res nat :=
  if (lo <? 0)%Z then Ok 0
  else ro ← index (restart_offsets x) (Z.to_nat lo); Ok (Z.to_nat ro).

Definition find_page_with_next (x : KvSparseIndex) (target : bytes)
    : res (option (PageLocation * option Z)) :=
  if (num_entries x =? 0)%Z then Ok None
  else
    let n := length (restart_offsets x) in
    lo ← search_restarts (n + 2) x target (-1) (Z.of_nat n);
    start ← scan_start x lo;
    '(best, next) ← scan (entries_size x + 2) x target start [] None;
    Ok (match best with Some loc => Some (loc, next) | None => None end).

Definition find_page (x : KvSparseIndex) (target : bytes) : res (option PageLocation) :=
  o ← find_page_with_next x target;
  Ok (match o with Some p => Some p.1 | None => None end).

(** Draining [iter()]. *)
Fixpoint iter_entries (n : nat) (x : KvSparseIndex) (cursor : nat) (prev_key : bytes)
    : res (list (bytes * PageLocation)) :=
  match n with
  | O => Ok []
  | S n =>
      '(key, loc, next) ← decode_entry_at x cursor prev_key;
      rest ← iter_entries n x next key;
      Ok ((key, loc) :: rest)
  end.

Definition iter (x : KvSparseIndex) : res (list (bytes * PageLocation)) :=
  iter_entries (Z.to_nat (num_entries x)) x 0 [].

(** ** Entries in a buffer *)
Record Raw : Type := { r_shared : nat; r_suffix : bytes; r_loc : PageLocation }.

Definition enc (r : Raw) : bytes := encode_entry (r_shared r) (r_suffix r) (r_loc r).
Definition encs (rs : list Raw) : bytes := concat (map enc rs).

Definition raw_ok (r : Raw) : Prop :=
  (Z.of_nat (r_shared r) < 2 ^ 16)%Z /\ (Z.of_nat (length (r_suffix r)) < 2 ^ 16)%Z /\
  in_u 64 (page_offset (r_loc r)) /\ in_u 32 (page_size (r_loc r)) /\
  in_u 64 (first_row_index (r_loc r)).

(** The keys an entry list decodes to after [prev]. *)
Fixpoint keys (prev : bytes) (rs : list Raw) : list (bytes * PageLocation) :=
  match rs with
  | [] => []
  | r :: rs =>
      let k := take (r_shared r) prev ++ r_suffix r in (k, r_loc r) :: keys k rs
  end.

(** Shared prefixes never exceed the previous key. *)
Fixpoint shape (plen : nat) (rs : list Raw) : Prop :=
  match rs with
  | [] => True
  | r :: rs => r_shared r <= plen /\ shape (r_shared r + length (r_suffix r)) rs
  end.

Lemma length_enc r : length (enc r) = 24 + length (r_suffix r).
Proof. unfold enc, encode_entry. rewrite !length_app, !le_split_length. lia. Qed.

Lemma uint_at_app m z a c buf pos :
  buf = a ++ le_split m z ++ c -> pos = length a -> in_u (8 * Z.of_nat m) z ->
  uint_at m buf pos = Ok z.
Proof.
  intros -> -> Hz. unfold uint_at. rewrite slice_app by (done || by rewrite le_split_length).
  simpl. f_equal. apply le_combine_split_id. unfold in_u in Hz. by rewrite Z.mul_comm.
Qed.

Lemma wrap16_nat n : (Z.of_nat n < 2 ^ 16)%Z ->
  wrap 16 (Z.of_nat n) = Z.of_nat n /\ in_u (8 * Z.of_nat 2) (Z.of_nat n).
Proof.
  intros H. split; [unfold wrap; apply Z.mod_small; lia|].
  unfold in_u. change (8 * Z.of_nat 2)%Z with 16%Z. lia.
Qed.

(** The reads of an entry's fields at its place in a buffer. *)
Lemma entry_fields buf a r post :
  buf = a ++ enc r ++ post -> raw_ok r ->
  let t := length a + 4 + length (r_suffix r) in
  u16_at buf (length a) = Ok (Z.of_nat (r_shared r)) /\
  u16_at buf (length a + 2) = Ok (Z.of_nat (length (r_suffix r))) /\
  slice buf (length a + 4) (length (r_suffix r)) = Ok (r_suffix r) /\
  u64_at buf t = Ok (page_offset (r_loc r)) /\
  u32_at buf (t + 8) = Ok (page_size (r_loc r)) /\
  u64_at buf (t + 12) = Ok (first_row_index (r_loc r)).
Proof.
  intros -> (Hs & Hn & H1 & H2 & H3) t. unfold enc, encode_entry.
  destruct (wrap16_nat _ Hs) as [-> U1], (wrap16_nat _ Hn) as [-> U2].
  set (s2 := le_split 2 (Z.of_nat (r_shared r))).
  set (n2 := le_split 2 (Z.of_nat (length (r_suffix r)))).
  set (p8 := le_split 8 (page_offset (r_loc r))).
  set (p4 := le_split 4 (page_size (r_loc r))).
  assert (L1 : length s2 = 2) by apply le_split_length.
  assert (L2 : length n2 = 2) by apply le_split_length.
  assert (L3 : length p8 = 8) by apply le_split_length.
  assert (L4 : length p4 = 4) by apply le_split_length.
  subst t. repeat split.
  - eapply (uint_at_app 2 _ a); [by rewrite <- !app_assoc|done|done].
  - eapply (uint_at_app 2 _ (a ++ s2)); [by rewrite <- !app_assoc| |done].
    rewrite length_app. lia.
  - rewrite <- !app_assoc.
    replace (a ++ s2 ++ n2 ++ r_suffix r ++ p8 ++ p4 ++
             le_split 8 (first_row_index (r_loc r)) ++ post)
      with ((a ++ s2 ++ n2) ++ r_suffix r ++ (p8 ++ p4 ++
             le_split 8 (first_row_index (r_loc r)) ++ post)) by (by rewrite <- !app_assoc).
    apply slice_app; [|done]. rewrite !length_app. lia.
  - eapply (uint_at_app 8 _ (a ++ s2 ++ n2 ++ r_suffix r)); [by rewrite <- !app_assoc| |done].
    rewrite !length_app. lia.
  - eapply (uint_at_app 4 _ (a ++ s2 ++ n2 ++ r_suffix r ++ p8)); [by rewrite <- !app_assoc| |done].
    rewrite !length_app. lia.
  - eapply (uint_at_app 8 _ (a ++ s2 ++ n2 ++ r_suffix r ++ p8 ++ p4));
      [by rewrite <- !app_assoc| |done].
    rewrite !length_app. lia.
Qed.

Lemma decode_entry_spec x hdr pre r post prev :
  kv_bytes x = hdr ++ pre ++ enc r ++ post -> length hdr = KV_HEADER_SIZE -> raw_ok r ->
  r_shared r <= length prev ->
  decode_entry_at x (length pre) prev
  = Ok (take (r_shared r) prev ++ r_suffix r, r_loc r, length pre + length (enc r)).
Proof.
  intros Hb Hh Hr Hp. rewrite app_assoc in Hb.
  destruct (entry_fields _ _ _ _ Hb Hr) as (F1 & F2 & F3 & F4 & F5 & F6).
  rewrite length_app, Hh in *. unfold decode_entry_at, ENTRY_HEADER.
  rewrite F1, Ok_bind, F2, Ok_bind, !Nat2Z.id, F3, Ok_bind.
  unfold slice at 1. destruct (Nat.leb_spec (0 + r_shared r) (length prev)); [|lia].
  rewrite Ok_bind, drop_0, F4, Ok_bind, F5, Ok_bind, F6, Ok_bind.
  destruct (r_loc r) as [po ps fr]. cbn [page_offset page_size first_row_index].
  do 2 f_equal. rewrite length_enc. lia.
Qed.

(** ** A structurally valid index *)
Definition off (rs : list Raw) (i : nat) : nat := length (encs (take i rs)).

Record Valid (x : KvSparseIndex) (rs : list Raw) : Prop := {
  v_buf : exists hdr tail, kv_bytes x = hdr ++ encs rs ++ tail /\ length hdr = KV_HEADER_SIZE;
  v_size : entries_size x = length (encs rs);
  v_num : num_entries x = Z.of_nat (length rs);
  v_raw : Forall raw_ok rs;
  v_shape : shape 0 rs;
  v_ri : (0 < restart_interval x)%Z;
  v_restart : forall i r, rs !! i = Some r -> is_restart (restart_interval x) i = true ->
                r_shared r = 0;
  v_offsets : forall j, j < length (restart_offsets x) ->
    exists i r, rs !! i = Some r /\ is_restart (restart_interval x) i = true /\
      restart_offsets x !! j = Some (Z.of_nat (off rs i)) /\
      i = j * Z.to_nat (restart_interval x);
}.

Lemma encs_app a b : encs (a ++ b) = encs a ++ encs b.
Proof. unfold encs. by rewrite map_app, concat_app. Qed.

Lemma encs_cons r rs : encs (r :: rs) = enc r ++ encs rs.
Proof. done. Qed.

Lemma valid_at x rs i r rest :
  Valid x rs -> drop i rs = r :: rest ->
  exists hdr tail, kv_bytes x = hdr ++ encs (take i rs) ++ enc r ++ encs rest ++ tail /\
    length hdr = KV_HEADER_SIZE /\ off rs i + length (enc r) = off rs (S i) /\
    off rs i < entries_size x.
Proof.
  intros V Hd. destruct (v_buf _ _ V) as (hdr & tail & Hb & Hh).
  exists hdr, tail. rewrite Hb. rewrite <- (take_drop i rs) at 1. rewrite encs_app, Hd, encs_cons.
  rewrite <- !app_assoc. split; [done|]. split; [done|].
  assert (Hi : rs !! i = Some r).
  { rewrite <- (Nat.add_0_r i), <- lookup_drop, Hd. done. }
  split.
  - unfold off. erewrite (take_S_r _ _ r) by done. rewrite encs_app, length_app, encs_cons.
    by rewrite length_app, Nat.add_0_r.
  - rewrite (v_size _ _ V). rewrite <- (take_drop i rs) at 2.
    rewrite encs_app, length_app, Hd, encs_cons, length_app, length_enc. unfold off. lia.
Qed.

Lemma valid_raw_at x rs i r rest : Valid x rs -> drop i rs = r :: rest -> raw_ok r.
Proof.
  intros V Hd. pose proof (Forall_drop _ i _ (v_raw _ _ V)) as HF. rewrite Hd in HF.
  by apply Forall_cons in HF as [? _].
Qed.

Lemma iter_valid x rs i prev :
  Valid x rs -> shape (length prev) (drop i rs) ->
  iter_entries (length (drop i rs)) x (off rs i) prev = Ok (keys prev (drop i rs)).
Proof.
  intros V. remember (drop i rs) as l eqn:El. revert i prev El.
  induction l as [|r rest IH]; intros i prev El Hsh; [done|].
  cbn [length iter_entries keys]. destruct Hsh as [Hs Hsh].
  destruct (valid_at _ _ _ _ _ V (eq_sym El)) as (hdr & tail & Hb & Hh & Ho & _).
  pose proof (valid_raw_at _ _ _ _ _ V (eq_sym El)) as Hr.
  unfold off at 1. erewrite decode_entry_spec by done. rewrite Ok_bind.
  fold (off rs i). rewrite Ho. rewrite (IH (S i)); [done| |].
  - rewrite <- Nat.add_1_r, <- drop_drop, <- El. done.
  - rewrite length_app, length_take, Nat.min_l by done. done.
Qed.

Lemma iter_keys x rs : Valid x rs -> iter x = Ok (keys [] rs).
Proof.
  intros V. unfold iter. rewrite (v_num _ _ V), Nat2Z.id. by apply (iter_valid x rs 0 [] V), (v_shape _ _ V).
Qed.

(** ** Scanning *)
Fixpoint scan_spec (target : bytes) (best : option PageLocation)
    (es : list (bytes * PageLocation)) : option PageLocation * option Z :=
  match es with
  | [] => (best, None)
  | (k, loc) :: es =>
      if bytes_ltb target k then
        (best, match best with Some _ => Some (first_row_index loc) | None => None end)
      else scan_spec target (Some loc) es
  end.

Lemma scan_valid fuel x rs i target prev best :
  Valid x rs -> shape (length prev) (drop i rs) -> length (drop i rs) < fuel ->
  scan fuel x target (off rs i) prev best = Ok (scan_spec target best (keys prev (drop i rs))).
Proof.
  intros V. revert i prev best. induction fuel as [|fuel IH]; intros i prev best Hsh Hf; [lia|].
  cbn [scan]. destruct (drop i rs) as [|r rest] eqn:El.
  - assert (Hge : entries_size x <= off rs i).
    { rewrite (v_size _ _ V). unfold off.
      apply (f_equal length) in El. rewrite length_drop in El. simpl in El.
      rewrite take_ge by lia. done. }
    apply Nat.leb_le in Hge. by rewrite Hge.
  - destruct (valid_at _ _ _ _ _ V El) as (hdr & tail & Hb & Hh & Ho & Hlt).
    destruct (Nat.leb_spec (entries_size x) (off rs i)); [lia|].
    destruct Hsh as [Hs Hsh].
    pose proof (valid_raw_at _ _ _ _ _ V El) as Hr.
    unfold off at 1. erewrite decode_entry_spec by done. rewrite Ok_bind. fold (off rs i).
    rewrite Ho. cbn [keys scan_spec].
    set (k := take (r_shared r) prev ++ r_suffix r).
    assert (El' : drop (S i) rs = rest).
    { rewrite <- Nat.add_1_r, <- drop_drop, El. done. }
    assert (Hnext : scan fuel x target (off rs (S i)) k (Some (r_loc r))
              = Ok (scan_spec target (Some (r_loc r)) (keys k rest))).
    { rewrite <- El'. apply IH; rewrite El'; [|simpl in Hf; lia].
      unfold k. rewrite length_app, length_take, Nat.min_l by done. done. }
    destruct (bytes_cmp_spec k target) as [->|L|L].
    + assert (Hn : bytes_ltb target target = false)
        by (apply not_true_iff_false; rewrite bytes_ltb_spec; apply bytes_lt_irrefl).
      by rewrite Hn.
    + assert (Hn : bytes_ltb target k = false).
      { apply not_true_iff_false. rewrite bytes_ltb_spec. intros L2.
        by apply (bytes_lt_irrefl k), (bytes_lt_trans _ target). }
      by rewrite Hn.
    + apply bytes_ltb_spec in L. by rewrite L.
Qed.

(** ** From a restart point the decoding needs no earlier state *)
Lemma shape_from plen rs i : shape plen rs -> exists p, shape p (drop i rs).
Proof.
  revert plen i. induction rs as [|r rs IH]; intros plen [|i] H; simpl in *; eauto.
  destruct H as [_ H]. eauto.
Qed.

Lemma shape_restart plen rs i r :
  shape plen rs -> rs !! i = Some r -> r_shared r = 0 -> shape 0 (drop i rs).
Proof.
  intros H Hi H0. destruct (shape_from _ _ i H) as [p Hp].
  rewrite (drop_S _ _ _ Hi) in *. simpl in *. rewrite H0 in *. split; [lia|apply Hp].
Qed.

Lemma keys_restart prev rs i r :
  rs !! i = Some r -> r_shared r = 0 -> keys [] (drop i rs) = drop i (keys prev rs).
Proof.
  revert prev i. induction rs as [|r' rs IH]; intros prev [|i] Hi H0; simplify_eq/=.
  - by rewrite H0.
  - eauto.
Qed.

Lemma keys_lookup_restart prev rs i r :
  rs !! i = Some r -> r_shared r = 0 -> keys prev rs !! i = Some (r_suffix r, r_loc r).
Proof.
  intros Hi H0. pose proof (keys_restart prev _ _ _ Hi H0) as E.
  rewrite <- (Nat.add_0_r i), <- lookup_drop, <- E, (drop_S _ _ _ Hi). simpl.
  by rewrite H0.
Qed.

Lemma read_restart_key_valid x rs j :
  Valid x rs -> j < length (restart_offsets x) ->
  exists i r, rs !! i = Some r /\ r_shared r = 0 /\
    restart_offsets x !! j = Some (Z.of_nat (off rs i)) /\
    read_restart_key x j = Ok (r_suffix r).
Proof.
  intros V Hj. destruct (v_offsets _ _ V j Hj) as (i & r & Hi & Hre & Ho & _).
  exists i, r. pose proof (v_restart _ _ V _ _ Hi Hre) as H0. split_and!; [done..|].
  pose proof (drop_S _ _ _ Hi) as El.
  destruct (valid_at _ _ _ _ _ V El) as (hdr & tail & Hb & Hh & _ & _).
  rewrite app_assoc in Hb.
  destruct (entry_fields _ _ _ _ Hb (valid_raw_at _ _ _ _ _ V El)) as (_ & F2 & F3 & _).
  rewrite length_app, Hh in F2, F3. fold (off rs i) in F2, F3.
  unfold read_restart_key, index. rewrite Ho, Ok_bind, Nat2Z.id, F2, Ok_bind, Nat2Z.id.
  exact F3.
Qed.

Lemma search_restarts_valid fuel x rs target lo hi :
  Valid x rs -> (-1 <= lo < hi)%Z -> (hi <= Z.of_nat (length (restart_offsets x)))%Z ->
  (hi - lo < Z.of_nat fuel)%Z ->
  ((0 <= lo)%Z -> exists k, read_restart_key x (Z.to_nat lo) = Ok k /\ ~ bytes_lt target k) ->
  exists lo', search_restarts fuel x target lo hi = Ok lo' /\ (-1 <= lo' < hi)%Z /\
    ((0 <= lo')%Z -> exists k, read_restart_key x (Z.to_nat lo') = Ok k /\ ~ bytes_lt target k).
Proof.
  intros V. revert lo hi. induction fuel as [|fuel IH]; intros lo hi H1 H2 Hf Hlo; [lia|].
  cbn [search_restarts]. destruct (Z.ltb_spec 1 (hi - lo)); [|by exists lo].
  assert (Hmid : (lo < Z.quot (lo + hi) 2 < hi)%Z).
  { rewrite Z.quot_div_nonneg by lia. split; [|apply Z.div_lt_upper_bound; lia].
    apply Z.lt_le_trans with (lo + 1)%Z; [lia|]. apply Z.div_le_lower_bound; lia. }
  set (mid := Z.quot (lo + hi) 2) in *.
  destruct (read_restart_key_valid x rs (Z.to_nat mid) V) as (i & r & _ & _ & _ & Hk); [lia|].
  rewrite Hk, Ok_bind.
  destruct (bytes_cmp_spec (r_suffix r) target) as [E|L|L].
  - apply IH; [lia..|]. intros _. eexists. split; [done|]. rewrite E. apply bytes_lt_irrefl.
  - apply IH; [lia..|]. intros _. eexists. split; [done|]. intros L2.
    by apply (bytes_lt_irrefl target), (bytes_lt_trans _ (r_suffix r)).
  - destruct (IH lo mid) as (lo' & -> & ? & ?); [lia..|done|]. exists lo'. split_and!; [done|lia..|done].
Qed.

(** ** What the lookup returns *)

(** The lookup on a structurally valid index, whatever the order of its keys:
    the scan starts at some entry and never fails. *)
Lemma find_valid x rs target :
  Valid x rs -> rs <> [] ->
  exists s, s < length rs /\
    find_page_with_next x target
    = Ok (match scan_spec target None (drop s (keys [] rs)) with
          | (Some loc, next) => Some (loc, next)
          | (None, _) => None
          end) /\
    (s = 0 \/ exists k loc, keys [] rs !! s = Some (k, loc) /\ ~ bytes_lt target k).
Proof.
  intros V Hne. unfold find_page_with_next. rewrite (v_num _ _ V).
  assert (Hl : 0 < length rs) by (destruct rs; [done|simpl; lia]).
  destruct (Z.eqb_spec (Z.of_nat (length rs)) 0); [lia|].
  destruct (search_restarts_valid (length (restart_offsets x) + 2) x rs target (-1)
              (Z.of_nat (length (restart_offsets x)))) as (lo & -> & Hr & Hlo); [done|lia..|].
  rewrite Ok_bind. unfold scan_start.
  assert (Hes : length rs <= entries_size x).
  { rewrite (v_size _ _ V). clear. induction rs as [|r rs IH]; [simpl; lia|].
    rewrite encs_cons, length_app, length_enc. simpl. lia. }
  assert (Hgo : forall i, shape 0 (drop i rs) ->
      scan (entries_size x + 2) x target (off rs i) [] None
      = Ok (scan_spec target None (keys [] (drop i rs)))).
  { intros i Hs. apply scan_valid; [done|done|]. rewrite length_drop. lia. }
  destruct (Z.ltb_spec lo 0).
  - exists 0. split; [done|]. split; [|by left]. rewrite Ok_bind.
    pose proof (Hgo 0 (v_shape _ _ V)) as G. change (off rs 0) with 0 in G.
    rewrite G, Ok_bind, !drop_0.
    by destruct (scan_spec _ _ _) as [[]].
  - destruct (read_restart_key_valid x rs (Z.to_nat lo) V) as (i & r & Hi & H0 & Ho & Hk); [lia|].
    destruct Hlo as (k & Hk' & Hle); [lia|]. rewrite Hk in Hk'. simplify_eq.
    exists i. split; [by eapply lookup_lt_Some|].
    rewrite <- (keys_restart [] _ _ _ Hi H0). split.
    + unfold index. rewrite Ho, !Ok_bind, Nat2Z.id, Hgo; [|by eapply shape_restart; [apply (v_shape _ _ V)| |]].
      rewrite Ok_bind. by destruct (scan_spec _ _ _) as [[]].
    + right. exists (r_suffix r), (r_loc r). split; [by apply keys_lookup_restart|done].
Qed.

Definition page_of (target : bytes) (es : list (bytes * PageLocation))
    : option (PageLocation * option Z) :=
  match last (filter (fun e => ~ bytes_lt target e.1) es) with
  | Some e => Some (e.2, (fun f => first_row_index f.2) <$>
                           head (filter (fun e => bytes_lt target e.1) es))
  | None => None
  end.

Definition key_sorted (es : list (bytes * PageLocation)) : Prop :=
  StronglySorted bytes_lt es.*1.

Lemma scan_spec_above target best es :
  key_sorted es ->
  scan_spec target best es
  = let b := match last (filter (fun e => ~ bytes_lt target e.1) es) with
             | Some e => Some e.2 | None => best end in
    (b, match b with
        | Some _ => (fun f => first_row_index f.2) <$> head (filter (fun e => bytes_lt target e.1) es)
        | None => None
        end).
Proof.
  unfold key_sorted. revert best. induction es as [|[k loc] es IH]; intros best Hs.
  { by destruct best. }
  simpl in Hs. apply StronglySorted_inv in Hs as [Hs Hall]. cbn [scan_spec].
  rewrite !filter_cons. cbn [fst].
  destruct (bytes_ltb target k) eqn:E.
  - apply bytes_ltb_spec in E. rewrite (decide_True (P := bytes_lt target k)) by done.
    rewrite decide_False by tauto.
    assert (Hf : filter (fun e : bytes * PageLocation => ~ bytes_lt target e.1) es = []).
    { apply list_filter_none. rewrite Forall_fmap in Hall.
      eapply Forall_impl; [exact Hall|]. intros [k' l'] Hlt. simpl in *.
      intros Hn. apply Hn. by apply (bytes_lt_trans _ k). }
    rewrite Hf. simpl. by destruct best.
  - apply not_true_iff_false in E. rewrite bytes_ltb_spec in E.
    rewrite (decide_True (P := ~ bytes_lt target k)) by done. rewrite decide_False by done.
    rewrite IH by done. destruct (filter (fun e : bytes * PageLocation => ~ bytes_lt target e.1) es) as [|e0 l0] eqn:Ef.
    + done.
    + cbn zeta. change (last ((k, loc) :: e0 :: l0)) with (last (e0 :: l0)).
      destruct (last (e0 :: l0)) eqn:El; [done|by apply last_None in El].
Qed.

Lemma scan_spec_skip target a b k loc rest best :
  Forall (fun e => ~ bytes_lt target e.1) a -> b = (k, loc) :: rest -> ~ bytes_lt target k ->
  scan_spec target best (a ++ b) = scan_spec target None b.
Proof.
  intros Ha -> Hk.
  assert (Hstep : forall k' l' bst es, ~ bytes_lt target k' ->
            scan_spec target bst ((k', l') :: es) = scan_spec target (Some l') es).
  { intros k' l' bst es Hn. cbn [scan_spec]. rewrite <- bytes_ltb_spec in Hn.
    by apply not_true_iff_false in Hn as ->. }
  revert best. induction Ha as [|[k' l'] a Hh Ha IH]; intros best; cbn [app].
  - by rewrite !Hstep.
  - by rewrite Hstep.
Qed.

(** On a valid index with ascending keys the lookup is [page_of]: the page of
    the largest key not above the target and where the next page begins. *)
Lemma find_page_of x rs target :
  Valid x rs -> rs <> [] -> key_sorted (keys [] rs) ->
  find_page_with_next x target = Ok (page_of target (keys [] rs)).
Proof.
  intros V Hne Hs. destruct (find_valid x rs target V Hne) as (s & Hl & -> & Hcase). f_equal.
  assert (E : scan_spec target None (drop s (keys [] rs)) = scan_spec target None (keys [] rs)).
  { destruct Hcase as [->|(k & loc & Hk & Hle)]; [by rewrite drop_0|].
    rewrite <- (take_drop s (keys [] rs)) at 2. symmetry.
    eapply scan_spec_skip; [|by apply drop_S|done].
    unfold key_sorted in Hs. rewrite <- (take_drop s (keys [] rs)), fmap_app in Hs.
    apply StronglySorted_app in Hs as (Hlt & _).
    apply Forall_forall. intros [k' l'] Hin Hc. simpl in Hc. apply Hle.
    apply (bytes_lt_trans _ k'); [done|]. apply Hlt.
    - apply list_elem_of_fmap. by exists (k', l').
    - rewrite (drop_S _ _ _ Hk). by left. }
  rewrite E, scan_spec_above by done. unfold page_of. cbn zeta.
  by destruct (last (filter (fun e : bytes * PageLocation => ~ bytes_lt target e.1) _)).
Qed.

(** ** Reading entries from arbitrary bytes *)
Lemma uint_at_inv m buf a b c pos :
  buf = a ++ b ++ c -> pos = length a -> length b = m -> uint_at m buf pos = Ok (le_combine b).
Proof. intros -> -> <-. unfold uint_at. by rewrite slice_app. Qed.

Lemma le_combine_in_u (b : bytes) m : length b = m -> in_u (8 * Z.of_nat m) (le_combine b).
Proof. intros <-. unfold in_u. apply le_combine_bound. Qed.

Lemma le_split_combine (b : bytes) m : length b = m -> le_split m (le_combine b) = b.
Proof. intros <-. apply split_le_combine. Qed.

Lemma le_split_wrap16 (b : bytes) :
  length b = 2 ->
  le_split 2 (wrap 16 (Z.of_nat (Z.to_nat (le_combine b)))) = b /\
  (0 <= le_combine b < 2 ^ 16)%Z.
Proof.
  intros L. pose proof (le_combine_in_u b 2 L) as H. unfold in_u in H.
  change (8 * Z.of_nat 2)%Z with 16%Z in H. split; [|done].
  rewrite Z2Nat.id by lia. unfold wrap. rewrite Z.mod_small by lia. by apply le_split_combine.
Qed.

(** Any bytes long enough for their declared suffix hold an entry. *)
Lemma raw_at l b1 b2 l' :
  l = b1 ++ b2 ++ l' -> length b1 = 2 -> length b2 = 2 ->
  Z.to_nat (le_combine b2) + 20 <= length l' ->
  exists r post, l = enc r ++ post /\ raw_ok r /\
    r_shared r = Z.to_nat (le_combine b1) /\ length (r_suffix r) = Z.to_nat (le_combine b2).
Proof.
  intros -> L1 L2 Hl.
  destruct (split_len (Z.to_nat (le_combine b2)) l') as (suf & l1 & -> & Ls); [lia|].
  rewrite length_app in Hl.
  destruct (split_len 8 l1) as (p8 & l2 & -> & L3); [lia|]. rewrite length_app in Hl.
  destruct (split_len 4 l2) as (p4 & l3 & -> & L4); [lia|]. rewrite length_app in Hl.
  destruct (split_len 8 l3) as (q8 & post & -> & L5); [lia|].
  destruct (le_split_wrap16 b1 L1) as [E1 U1], (le_split_wrap16 b2 L2) as [E2 U2].
  exists {| r_shared := Z.to_nat (le_combine b1); r_suffix := suf;
            r_loc := {| page_offset := le_combine p8; page_size := le_combine p4;
                        first_row_index := le_combine q8 |} |}, post.
  unfold enc, encode_entry, raw_ok. cbn [r_shared r_suffix r_loc page_offset page_size first_row_index].
  rewrite Ls, E1, E2, !le_split_combine by done. rewrite <- !app_assoc.
  split; [done|]. split; [|done]. split; [lia|]. split; [lia|].
  split; [by apply (le_combine_in_u p8 8)|]. split; [by apply (le_combine_in_u p4 4)|].
  by apply (le_combine_in_u q8 8).
Qed.

(** What the validating walk establishes of the entries from number [i] on. *)
Fixpoint checked (ri : Z) (restarts : list Z) (i cursor plen : nat) (rs : list Raw) : Prop :=
  match rs with
  | [] => True
  | r :: rs =>
      raw_ok r /\ r_shared r <= plen /\
      (is_restart ri i = true -> r_shared r = 0 /\
        restarts !! Z.to_nat (wrap 32 (Z.of_nat i) / ri) = Some (wrap 32 (Z.of_nat cursor))) /\
      checked ri restarts (S i) (cursor + length (enc r)) (r_shared r + length (r_suffix r)) rs
  end.

Lemma walk_complete buf hdr tail ri restarts pre rs i plen :
  buf = hdr ++ pre ++ encs rs ++ tail -> length hdr = KV_HEADER_SIZE ->
  checked ri restarts i (length pre) plen rs ->
  walk (length rs) buf ri (length pre + length (encs rs)) restarts i (length pre) plen = Ok tt.
Proof.
  intros Hb Hh. revert pre i plen Hb. induction rs as [|r rs IH]; intros pre i plen Hb Hc.
  { cbn [length walk]. change (length (encs [])) with 0. by rewrite Nat.add_0_r, Nat.eqb_refl. }
  destruct Hc as (Hr & Hs & Hre & Hc). rewrite encs_cons in *.
  assert (Hb' : buf = (hdr ++ pre) ++ enc r ++ encs rs ++ tail) by (by rewrite Hb, <- !app_assoc).
  destruct (entry_fields _ _ _ _ Hb' Hr) as (F1 & F2 & _). rewrite length_app, Hh in F1, F2.
  pose proof (length_enc r) as Le. cbn [length walk]. rewrite length_app.
  unfold ENTRY_HEADER, ENTRY_FIXED_TAIL.
  destruct (Nat.ltb_spec (length pre + (length (enc r) + length (encs rs))) (length pre + 4)); [lia|].
  rewrite F1, Ok_bind, F2, Ok_bind, !Nat2Z.id.
  assert (E0 : is_restart ri i && negb (r_shared r =? 0) = false).
  { destruct (is_restart ri i); [|done]. destruct Hre as [-> _]; done. }
  rewrite E0. destruct (Nat.ltb_spec plen (r_shared r)); [lia|].
  destruct (Nat.ltb_spec (length pre + (length (enc r) + length (encs rs)))
                         (length pre + (4 + length (r_suffix r) + 20))); [lia|].
  assert (Hgo : walk (length rs) buf ri (length pre + (length (enc r) + length (encs rs))) restarts
            (S i) (length pre + (4 + length (r_suffix r) + 20))
            (r_shared r + length (r_suffix r)) = Ok tt).
  { replace (length pre + (4 + length (r_suffix r) + 20)) with (length (pre ++ enc r))
      by (rewrite length_app; lia).
    replace (length pre + (length (enc r) + length (encs rs)))
      with (length (pre ++ enc r) + length (encs rs)) by (rewrite length_app; lia).
    apply IH; [by rewrite Hb, <- !app_assoc|]. by rewrite length_app. }
  destruct (is_restart ri i); [|done]. destruct Hre as [_ Hi]; [done|].
  unfold index. rewrite Hi, Ok_bind, Z.eqb_refl. done.
Qed.

Definition walked (buf : bytes) (ri : Z) (esize : nat) (restarts : list Z)
    (n i cursor plen : nat) (o : res unit) : Prop :=
  match o with
  | Panic => False
  | Err _ => True
  | Ok _ => exists rs post, drop (KV_HEADER_SIZE + cursor) buf = encs rs ++ post /\
      length rs = n /\ cursor + length (encs rs) = esize /\ checked ri restarts i cursor plen rs
  end.

(** The two length fields the walk reads, and the entry they announce. *)
Lemma walk_header buf pos :
  pos + 4 <= length buf ->
  exists b1 b2 l, drop pos buf = b1 ++ b2 ++ l /\ length b1 = 2 /\ length b2 = 2 /\
    length l = length buf - pos - 4 /\
    u16_at buf pos = Ok (le_combine b1) /\ u16_at buf (pos + 2) = Ok (le_combine b2).
Proof.
  intros Hp. assert (Hd : length (drop pos buf) = length buf - pos) by apply length_drop.
  destruct (split_len 2 (drop pos buf)) as (b1 & l1 & E1 & L1); [lia|].
  rewrite E1, length_app in Hd. destruct (split_len 2 l1) as (b2 & l2 & -> & L2); [lia|].
  rewrite length_app in Hd.
  assert (Hbuf : buf = take pos buf ++ b1 ++ b2 ++ l2) by (by rewrite <- E1, take_drop).
  assert (Ht : length (take pos buf) = pos) by (rewrite length_take; lia).
  exists b1, b2, l2. split_and!; [done..|lia| |].
  - by apply (uint_at_inv 2 buf (take pos buf) b1 (b2 ++ l2)).
  - apply (uint_at_inv 2 buf (take pos buf ++ b1) b2 l2);
      rewrite ?length_app, <- ?app_assoc; (done || lia).
Qed.

Lemma walked_step buf ri esize restarts n i cursor plen r post o :
  drop (KV_HEADER_SIZE + cursor) buf = enc r ++ post -> raw_ok r -> r_shared r <= plen ->
  (is_restart ri i = true -> r_shared r = 0 /\
     restarts !! Z.to_nat (wrap 32 (Z.of_nat i) / ri) = Some (wrap 32 (Z.of_nat cursor))) ->
  walked buf ri esize restarts n (S i) (cursor + length (enc r))
    (r_shared r + length (r_suffix r)) o ->
  walked buf ri esize restarts (S n) i cursor plen o.
Proof.
  intros Er Hr Hs Hre. destruct o as [[]|e|]; [|done|done].
  intros (rs & post' & D & Ln & Hsz & Hck).
  exists (r :: rs), post'. rewrite encs_cons, <- app_assoc, <- D. split_and!.
  - rewrite Er. f_equal. rewrite Nat.add_assoc, <- drop_drop.
    by rewrite Er, drop_app_length.
  - simpl. lia.
  - rewrite length_app. lia.
  - done.
Qed.

Lemma walk_sound n buf ri esize restarts i cursor plen :
  KV_HEADER_SIZE + esize <= length buf -> cursor <= esize ->
  (forall m, i <= m < i + n -> is_restart ri m = true ->
     Z.to_nat (wrap 32 (Z.of_nat m) / ri) < length restarts) ->
  walked buf ri esize restarts n i cursor plen (walk n buf ri esize restarts i cursor plen).
Proof.
  intros Hlen. revert i cursor plen. induction n as [|n IH]; intros i cursor plen Hc Hidx; cbn [walk].
  { destruct (Nat.eqb_spec cursor esize); [|done].
    exists [], (drop (KV_HEADER_SIZE + cursor) buf). change (length (encs [])) with 0.
    split_and!; [done|done|lia|done]. }
  unfold ENTRY_HEADER, ENTRY_FIXED_TAIL.
  destruct (Nat.ltb_spec esize (cursor + 4)); [done|].
  destruct (walk_header buf (KV_HEADER_SIZE + cursor))
    as (b1 & b2 & l2 & E1 & L1 & L2 & Ll & -> & ->); [lia|]. rewrite !Ok_bind.
  destruct (is_restart ri i && negb (Z.to_nat (le_combine b1) =? 0)) eqn:E0; [done|].
  destruct (Nat.ltb_spec plen (Z.to_nat (le_combine b1))); [done|].
  destruct (Nat.ltb_spec esize (cursor + (4 + Z.to_nat (le_combine b2) + 20))); [done|].
  destruct (raw_at _ b1 b2 l2 E1 L1 L2) as (r & post & Er & Hr & Hsh & Hsu); [lia|].
  pose proof (length_enc r) as Le. rewrite Hsu in Le.
  replace (cursor + (4 + Z.to_nat (le_combine b2) + 20)) with (cursor + length (enc r)) in * by lia.
  rewrite <- Hsh, <- Hsu in *.
  assert (Hw : walked buf ri esize restarts n (S i) (cursor + length (enc r))
            (r_shared r + length (r_suffix r))
            (walk n buf ri esize restarts (S i) (cursor + length (enc r))
               (r_shared r + length (r_suffix r)))).
  { apply IH; [done|]. intros m Hm. apply Hidx. lia. }
  destruct (is_restart ri i) eqn:Ei; [|by eapply walked_step; [| | |rewrite Ei|]].
  assert (Hi : Z.to_nat (wrap 32 (Z.of_nat i) / ri) < length restarts) by (apply Hidx; [lia|done]).
  apply lookup_lt_is_Some in Hi as [ro Hro]. unfold index. rewrite Hro, Ok_bind.
  destruct (Z.eqb_spec ro (wrap 32 (Z.of_nat cursor))) as [->|]; [|done].
  eapply walked_step; [done..| |done]. intros _. split; [|done].
  simpl in E0. by apply negb_false_iff, Nat.eqb_eq in E0.
Qed.

Lemma off_cons r rs j : off (r :: rs) (S j) = length (enc r) + off rs j.
Proof. unfold off. cbn [take]. by rewrite encs_cons, length_app. Qed.

Lemma checked_at ri ros i c p rs j r :
  checked ri ros i c p rs -> rs !! j = Some r -> is_restart ri (i + j) = true ->
  r_shared r = 0 /\
  ros !! Z.to_nat (wrap 32 (Z.of_nat (i + j)) / ri) = Some (wrap 32 (Z.of_nat (c + off rs j))).
Proof.
  revert i c p j. induction rs as [|r' rs IH]; intros i c p j Hc Hj Hre; [done|].
  destruct Hc as (_ & _ & Hre0 & Hc). destruct j as [|j]; simplify_eq/=.
  - rewrite Nat.add_0_r in *. replace (c + off (r :: rs) 0) with c by (unfold off; simpl; lia). eauto.
  - rewrite off_cons, Nat.add_assoc. replace (i + S j) with (S i + j) in * by lia. eauto.
Qed.

Lemma checked_shape ri ros i c p rs : checked ri ros i c p rs -> shape p rs /\ Forall raw_ok rs.
Proof.
  revert i c p. induction rs as [|r rs IH]; intros i c p Hc; [by split|].
  destruct Hc as (Hr & Hs & _ & Hc). destruct (IH _ _ _ Hc). split; [done|]. by constructor.
Qed.

(** Restart numbers and entry numbers. *)
Lemma restart_index ri j n :
  (0 < ri)%Z -> (Z.of_nat n < 2 ^ 32)%Z -> (Z.of_nat j < div_ceil (Z.of_nat n) ri)%Z ->
  let i := j * Z.to_nat ri in
  i < n /\ is_restart ri i = true /\ Z.to_nat (wrap 32 (Z.of_nat i) / ri) = j.
Proof.
  intros Hri Hn Hj i. unfold div_ceil in Hj.
  pose proof (Z.mul_div_le (Z.of_nat n + ri - 1) ri Hri) as Hm.
  assert (Hi : Z.of_nat i = (Z.of_nat j * ri)%Z) by (unfold i; rewrite Nat2Z.inj_mul, Z2Nat.id; lia).
  assert (Hlt : (Z.of_nat i < Z.of_nat n)%Z) by (rewrite Hi; nia).
  split; [lia|]. unfold is_restart, wrap. rewrite (Z.mod_small (Z.of_nat i)) by lia. rewrite Hi.
  split; [by rewrite Z.mod_mul by lia|]. rewrite Z.div_mul by lia. apply Nat2Z.id.
Qed.

Lemma restart_index_bound ri m n :
  (0 < ri)%Z -> m < n -> (Z.of_nat n < 2 ^ 32)%Z ->
  (0 <= wrap 32 (Z.of_nat m) / ri < div_ceil (Z.of_nat n) ri)%Z.
Proof.
  intros Hri Hm Hn. unfold wrap, div_ceil. rewrite (Z.mod_small (Z.of_nat m)) by lia.
  split; [apply Z.div_pos; lia|].
  replace (Z.of_nat n + ri - 1)%Z with (Z.of_nat n - 1 + 1 * ri)%Z by lia.
  rewrite Z.div_add by lia.
  assert (Z.of_nat m / ri <= (Z.of_nat n - 1) / ri)%Z by (apply Z.div_le_mono; lia). lia.
Qed.

(** The checks of [kv_from_bytes] amount to structural validity. *)
Lemma checked_valid x hdr tail rs :
  kv_bytes x = hdr ++ encs rs ++ tail -> length hdr = KV_HEADER_SIZE ->
  entries_size x = length (encs rs) -> num_entries x = Z.of_nat (length rs) ->
  (Z.of_nat (length rs) < 2 ^ 32)%Z -> (Z.of_nat (length (encs rs)) < 2 ^ 32)%Z ->
  (0 < restart_interval x)%Z ->
  Z.of_nat (length (restart_offsets x)) = div_ceil (Z.of_nat (length rs)) (restart_interval x) ->
  checked (restart_interval x) (restart_offsets x) 0 0 0 rs ->
  Valid x rs.
Proof.
  intros Hb Hh Hsz Hn Hn32 Hs32 Hri Hlen Hc.
  destruct (checked_shape _ _ _ _ _ _ Hc) as [Hshape Hraw].
  split; [by eauto|done|done|done|done|done| |].
  - intros i r Hi Hre. by eapply (checked_at _ _ 0 0 0) in Hc as [? _].
  - intros j Hj. destruct (restart_index (restart_interval x) j (length rs)) as (Hi & Hre & Hx);
      [done|done|lia|].
    set (i := j * Z.to_nat (restart_interval x)) in *.
    destruct (lookup_lt_is_Some_2 rs i Hi) as [r Hr].
    exists i, r. split_and!; [done|done| |done].
    destruct (checked_at _ _ 0 0 0 _ _ _ Hc Hr Hre) as [_ Ho].
    rewrite !Nat.add_0_l, Hx in Ho. rewrite Ho. f_equal. unfold wrap. apply Z.mod_small.
    assert (off rs i <= length (encs rs)); [|lia].
    rewrite <- (take_drop i rs) at 2. rewrite encs_app, length_app. unfold off. lia.
Qed.

Lemma uint_at_ok m buf pos :
  pos + m <= length buf -> exists z, uint_at m buf pos = Ok z /\ in_u (8 * Z.of_nat m) z.
Proof.
  intros H. unfold uint_at, slice. destruct (Nat.leb_spec (pos + m) (length buf)); [|lia].
  eexists. split; [reflexivity|]. apply le_combine_in_u. rewrite length_take, length_drop. lia.
Qed.

Lemma load_restarts_sound n buf pos esize prev :
  pos + 4 * n <= length buf ->
  match load_restarts n buf pos esize prev with
  | Panic => False
  | Err _ => True
  | Ok ros => length ros = n
  end.
Proof.
  revert pos prev. induction n as [|n IH]; intros pos prev H; [done|]. cbn [load_restarts].
  destruct (uint_at_ok 4 buf pos) as (ro & E & _); [lia|]. unfold u32_at. rewrite E, Ok_bind.
  destruct (esize <? ro)%Z; [done|]. destruct (match prev with Some p => _ | None => _ end); [done|].
  specialize (IH (pos + 4) (Some ro)). destruct (load_restarts n buf (pos + 4) esize (Some ro)); simpl.
  - f_equal. apply IH. lia.
  - done.
  - apply IH. lia.
Qed.

Lemma from_bytes_sound buf :
  match kv_from_bytes buf with
  | Panic => False
  | Err _ => True
  | Ok x => exists rs, Valid x rs
  end.
Proof.
  unfold kv_from_bytes. destruct (Nat.ltb_spec (length buf) KV_HEADER_SIZE) as [|Hl]; [done|].
  unfold KV_HEADER_SIZE in Hl. destruct (lookup_lt_is_Some_2 buf 0) as [v Hv]; [lia|].
  unfold index. rewrite Hv, Ok_bind. destruct (negb _); [done|]. unfold u32_at.
  destruct (uint_at_ok 4 buf 4) as (ne & -> & Une); [lia|].
  destruct (uint_at_ok 4 buf 8) as (ri & -> & Uri); [lia|].
  destruct (uint_at_ok 4 buf 12) as (es & -> & Ues); [lia|].
  destruct (uint_at_ok 4 buf 16) as (nr & -> & Unr); [lia|].
  rewrite !Ok_bind. unfold in_u in *. change (8 * Z.of_nat 4)%Z with 32%Z in *.
  destruct (Z.eqb_spec ri 0); [done|].
  destruct (Z.eqb_spec (Z.of_nat (length buf)) (Z.of_nat KV_HEADER_SIZE + es + nr * 4)) as [Htot|]; [|done].
  cbn [negb].
  pose proof (load_restarts_sound (Z.to_nat nr) buf (KV_HEADER_SIZE + Z.to_nat es) es None) as Hld.
  destruct (load_restarts _ _ _ _ _) as [ros|e|]; [|done|by apply Hld; lia]. rewrite Ok_bind.
  destruct (Z.eqb_spec nr (if (ne =? 0)%Z then 0 else div_ceil ne ri)%Z) as [Hnr|]; [|done].
  assert (Hros : Z.of_nat (length ros) = div_ceil ne ri).
  { rewrite Hld by lia. rewrite Z2Nat.id by lia. rewrite Hnr.
    destruct (Z.eqb_spec ne 0) as [->|]; [|done]. unfold div_ceil. symmetry. apply Z.div_small. lia. }
  cbn [negb].
  pose proof (walk_sound (Z.to_nat ne) buf ri (Z.to_nat es) ros 0 0 0) as Hw.
  destruct (walk _ _ _ _ _ _ _ _) as [[]|e|]; cbn [walked] in Hw.
  - destruct Hw as (rs & post & D & Ln & Hsz & Hck); [lia..| |].
    { intros m Hm _. pose proof (restart_index_bound ri m (Z.to_nat ne)) as B.
      rewrite Z2Nat.id in B by lia. lia. }
    exists rs. eapply (checked_valid _ (take KV_HEADER_SIZE buf) post rs);
      cbn [kv_bytes num_entries restart_interval entries_size restart_offsets].
    + rewrite Nat.add_0_r in D. rewrite <- D. by rewrite take_drop.
    + rewrite length_take. unfold KV_HEADER_SIZE. lia.
    + lia.
    + lia.
    + lia.
    + lia.
    + lia.
    + rewrite Ln, Z2Nat.id by lia. done.
    + done.
  - done.
  - apply Hw; [lia..|]. intros m Hm _. pose proof (restart_index_bound ri m (Z.to_nat ne)) as B.
    rewrite Z2Nat.id in B by lia. lia.
Qed.

(** ** What [build] writes *)
Fixpoint raws (ri : Z) (i : nat) (prev : bytes) (es : list (bytes * PageLocation)) : list Raw :=
  match es with
  | [] => []
  | (key, loc) :: es =>
      let shared := if is_restart ri i then 0 else shared_prefix_len prev key in
      {| r_shared := shared; r_suffix := drop shared key; r_loc := loc |} :: raws ri (S i) key es
  end.

Fixpoint roffs (ri : Z) (i cursor : nat) (rs : list Raw) : list Z :=
  match rs with
  | [] => []
  | r :: rs =>
      (if is_restart ri i then [wrap 32 (Z.of_nat cursor)] else [])
      ++ roffs ri (S i) (cursor + length (enc r)) rs
  end.

Definition loc_ok (loc : PageLocation) : Prop :=
  in_u 64 (page_offset loc) /\ in_u 32 (page_size loc) /\ in_u 64 (first_row_index loc).

Lemma shared_prefix_spec a b :
  take (shared_prefix_len a b) a = take (shared_prefix_len a b) b /\
  shared_prefix_len a b <= length a /\ shared_prefix_len a b <= length b.
Proof.
  revert b. induction a as [|x a IH]; intros [|y b]; simpl; try (split; [done|lia]).
  case_bool_decide as E; [|split; [done|simpl; lia]]. subst. destruct (IH b) as (E & ? & ?). simpl.
  rewrite E. split; [done|lia].
Qed.

Lemma raws_keys ri i prev es : keys prev (raws ri i prev es) = es.
Proof.
  revert i prev. induction es as [|[k loc] es IH]; intros i prev; [done|]. cbn [raws keys r_shared r_suffix r_loc].
  set (s := if is_restart ri i then 0 else shared_prefix_len prev k).
  assert (E : take s prev = take s k)
    by (unfold s; destruct (is_restart ri i); [done|apply shared_prefix_spec]).
  rewrite E, take_drop. by rewrite IH.
Qed.

Lemma length_raws ri i prev es : length (raws ri i prev es) = length es.
Proof. revert i prev. induction es as [|[]]; intros; simpl; auto. Qed.

Lemma build_loop_spec ri i prev es buf ros out :
  build_loop ri i prev es buf ros = Ok out ->
  let rs := raws ri i prev es in
  out = (buf ++ encs rs, ros ++ roffs ri i (length buf) rs) /\
  Forall (fun e => (Z.of_nat (length e.1) <= MAX_KEY_LEN)%Z) es /\
  StronglySorted bytes_lt es.*1 /\ (0 < i -> Forall (fun e => bytes_lt prev e.1) es).
Proof.
  revert i prev buf ros. induction es as [|[k loc] es IH]; intros i prev buf ros H.
  { cbn [build_loop] in H. simplify_eq. cbn. rewrite !app_nil_r. split_and!; [done|constructor..|].
    intros _. constructor. }
  cbn [build_loop] in H. destruct (Z.ltb_spec MAX_KEY_LEN (Z.of_nat (length k))); [done|].
  destruct ((0 <? i) && bytes_leb k prev) eqn:Eo; [done|].
  apply IH in H as (-> & Hk & Hs & Hlt). cbn [raws roffs]. rewrite encs_cons.
  specialize (Hlt ltac:(lia)). split_and!.
  - unfold enc at 1. cbn [r_shared r_suffix r_loc]. rewrite length_app, <- !app_assoc.
    by destruct (is_restart ri i); rewrite ?app_nil_l, <- ?app_assoc.
  - by constructor.
  - cbn. constructor; [done|]. by rewrite Forall_fmap.
  - intros Hi. assert (Hpk : bytes_lt prev k).
    { destruct (Nat.ltb_spec 0 i); [|lia]. simpl in Eo. apply not_true_iff_false in Eo.
      rewrite bytes_leb_spec in Eo. destruct (decide (bytes_lt prev k)); tauto. }
    constructor; [done|]. eapply Forall_impl; [exact Hlt|]. intros e He. by apply (bytes_lt_trans _ k).
Qed.

Lemma raws_ok ri i prev es :
  Forall (fun e => (Z.of_nat (length e.1) <= MAX_KEY_LEN)%Z) es -> Forall (fun e => loc_ok e.2) es ->
  shape (length prev) (raws ri i prev es) /\ Forall raw_ok (raws ri i prev es).
Proof.
  revert i prev. induction es as [|[k loc] es IH]; intros i prev Hk Hl; [by split; constructor|].
  apply Forall_cons in Hk as [Hk0 Hk]. apply Forall_cons in Hl as [Hl0 Hl].
  unfold MAX_KEY_LEN in *. cbn [fst snd] in *.
  destruct (shared_prefix_spec prev k) as (_ & S1 & S2). destruct (IH (S i) k Hk Hl) as [I1 I2].
  set (s := if is_restart ri i then 0 else shared_prefix_len prev k).
  assert (Hs : s <= length prev /\ s <= length k) by (unfold s; destruct (is_restart ri i); lia).
  cbn [raws shape r_shared r_suffix]. fold s. rewrite length_drop.
  split; [split; [lia|]; by replace (s + (length k - s)) with (length k) by lia|].
  constructor; [|done]. unfold raw_ok. cbn [r_shared r_suffix r_loc]. rewrite length_drop.
  destruct Hl0 as (? & ? & ?). split; [lia|]. split; [lia|]. done.
Qed.

Lemma div_ceil_succ ri i :
  (0 < ri)%Z -> (Z.of_nat (S i) < 2 ^ 32)%Z ->
  if is_restart ri i then
    div_ceil (Z.of_nat i) ri = (wrap 32 (Z.of_nat i) / ri)%Z /\
    div_ceil (Z.of_nat (S i)) ri = (div_ceil (Z.of_nat i) ri + 1)%Z
  else div_ceil (Z.of_nat (S i)) ri = div_ceil (Z.of_nat i) ri.
Proof.
  intros Hri Hi. unfold is_restart, wrap, div_ceil. rewrite (Z.mod_small (Z.of_nat i)) by lia.
  rewrite Nat2Z.inj_succ. set (z := Z.of_nat i).
  pose proof (Z.div_mod z ri ltac:(lia)) as Ez. pose proof (Z.mod_pos_bound z ri Hri) as Hb.
  set (q := (z / ri)%Z) in *. set (m := (z mod ri)%Z) in *.
  assert (Hdiv : forall a t, (a = ri * q + t -> ri <= t < 2 * ri -> a / ri = q + 1)%Z).
  { intros a t -> Ht. symmetry. apply (Z.div_unique _ _ _ (t - ri)); lia. }
  destruct (Z.eqb_spec m 0) as [E|E].
  - assert (H0 : ((z + ri - 1) / ri = q)%Z).
    { symmetry. apply (Z.div_unique _ _ _ (ri - 1)); lia. }
    rewrite H0. split; [done|]. apply (Hdiv _ ri); lia.
  - rewrite (Hdiv (Z.succ z + ri - 1)%Z (m + ri)%Z) by lia.
    by rewrite (Hdiv (z + ri - 1)%Z (m + ri - 1)%Z) by lia.
Qed.

(** The restart table of [build] passes the checks of the walk. *)
Lemma roffs_checked ri i c plen rs pre :
  (0 < ri)%Z -> (Z.of_nat (i + length rs) < 2 ^ 32)%Z ->
  Forall raw_ok rs -> shape plen rs ->
  (forall j r, rs !! j = Some r -> is_restart ri (i + j) = true -> r_shared r = 0) ->
  Z.of_nat (length pre) = div_ceil (Z.of_nat i) ri ->
  checked ri (pre ++ roffs ri i c rs) i c plen rs /\
  Z.of_nat (length (pre ++ roffs ri i c rs)) = div_ceil (Z.of_nat (i + length rs)) ri.
Proof.
  intros Hri. revert i c plen pre. induction rs as [|r rs IH]; intros i c plen pre Hn Hraw Hsh Hre Hp.
  { cbn [roffs length checked]. by rewrite app_nil_r, Nat.add_0_r. }
  apply Forall_cons in Hraw as [Hr Hraw]. destruct Hsh as [Hs Hsh].
  cbn [roffs length checked] in *. pose proof (div_ceil_succ ri i Hri ltac:(lia)) as Hd.
  rewrite app_assoc. set (here := if is_restart ri i then [wrap 32 (Z.of_nat c)] else []).
  destruct (IH (S i) (c + length (enc r)) (r_shared r + length (r_suffix r)) (pre ++ here))
    as [Hck Hlen]; [lia|done|done| | |].
  - intros j r' Hj Hb. apply (Hre (S j)); [done|]. by replace (i + S j) with (S i + j) by lia.
  - rewrite length_app. unfold here. destruct (is_restart ri i).
    + destruct Hd as [_ ->]. simpl. lia.
    + rewrite Hd. simpl. lia.
  - split; [|by replace (i + S (length rs)) with (S i + length rs) by lia].
    split_and!; [done|done| |done]. intros Hb. split.
    { apply (Hre 0); [done|]. by rewrite Nat.add_0_r. }
    unfold here. rewrite Hb in *. destruct Hd as [Hd _]. rewrite <- Hd, <- Hp, Nat2Z.id.
    rewrite <- app_assoc, lookup_app_r by lia. by rewrite Nat.sub_diag.
Qed.

Lemma load_restarts_complete ri i c rs buf a t esize prev :
  (Z.of_nat (c + length (encs rs)) <= esize)%Z -> (esize < 2 ^ 32)%Z ->
  match prev with Some p => (p < Z.of_nat c)%Z | None => True end ->
  buf = a ++ concat (map (le_split 4) (roffs ri i c rs)) ++ t ->
  load_restarts (length (roffs ri i c rs)) buf (length a) esize prev = Ok (roffs ri i c rs).
Proof.
  revert i c a prev. induction rs as [|r rs IH]; intros i c a prev Hsz H32 Hp Hb; [done|].
  rewrite encs_cons, length_app in Hsz. pose proof (length_enc r) as Le. cbn [roffs] in *.
  destruct (is_restart ri i); [|apply IH; [lia|done|destruct prev; [lia|done]|done]].
  assert (Ew : wrap 32 (Z.of_nat c) = Z.of_nat c) by (unfold wrap; apply Z.mod_small; lia).
  rewrite Ew in *. cbn [app map length load_restarts] in *. rewrite concat_cons, <- app_assoc in Hb.
  unfold u32_at. erewrite uint_at_app; [|exact Hb|done|unfold in_u; change (8 * Z.of_nat 4)%Z with 32%Z; lia].
  rewrite Ok_bind. destruct (Z.ltb_spec esize (Z.of_nat c)); [lia|].
  assert (E : (match prev with Some p => Z.of_nat c <=? p | None => false end)%Z = false)
    by (destruct prev; [apply Z.leb_gt; lia|done]).
  rewrite E.
  replace (length a + 4) with (length (a ++ le_split 4 (Z.of_nat c)))
    by (rewrite length_app, le_split_length; lia).
  rewrite IH; [done|lia|done|lia|by rewrite Hb, <- app_assoc].
Qed.

Definition header (ne ri es nr : Z) : bytes :=
  KV_INDEX_VERSION :: [b0; b0; b0]
  ++ le_split 4 ne ++ le_split 4 ri ++ le_split 4 es ++ le_split 4 nr ++ le_split 4 0.

Lemma length_header ne ri es nr : length (header ne ri es nr) = KV_HEADER_SIZE.
Proof. unfold header. cbn [length app]. rewrite !length_app, !le_split_length. done. Qed.

Lemma index_header_fields ne ri es nr rest buf :
  buf = header ne ri es nr ++ rest -> in_u 32 ne -> in_u 32 ri -> in_u 32 es -> in_u 32 nr ->
  buf !! 0 = Some KV_INDEX_VERSION /\ u32_at buf 4 = Ok ne /\ u32_at buf 8 = Ok ri /\
  u32_at buf 12 = Ok es /\ u32_at buf 16 = Ok nr.
Proof.
  intros -> U1 U2 U3 U4. set (v := KV_INDEX_VERSION :: [b0; b0; b0]).
  change (header ne ri es nr) with
    (v ++ le_split 4 ne ++ le_split 4 ri ++ le_split 4 es ++ le_split 4 nr ++ le_split 4 0).
  split; [done|]. unfold u32_at. split_and!.
  - eapply (uint_at_app 4 _ v); [by rewrite <- !app_assoc|done|done].
  - eapply (uint_at_app 4 _ (v ++ le_split 4 ne)); [by rewrite <- !app_assoc| |done].
    by rewrite !length_app, !le_split_length.
  - eapply (uint_at_app 4 _ (v ++ le_split 4 ne ++ le_split 4 ri)); [by rewrite <- !app_assoc| |done].
    by rewrite !length_app, !le_split_length.
  - eapply (uint_at_app 4 _ (v ++ le_split 4 ne ++ le_split 4 ri ++ le_split 4 es));
      [by rewrite <- !app_assoc| |done].
    by rewrite !length_app, !le_split_length.
Qed.

Lemma length_encs_ge rs : 24 * length rs <= length (encs rs).
Proof.
  induction rs as [|r rs IH]; [simpl; lia|]. rewrite encs_cons, length_app, length_enc. simpl. lia.
Qed.

Lemma length_table (ros : list Z) : length (concat (map (le_split 4) ros)) = 4 * length ros.
Proof.
  induction ros as [|r ros IH]; [done|]. cbn [map]. rewrite concat_cons, length_app, le_split_length, IH.
  simpl. lia.
Qed.

(** A buffer laid out as [build] lays it out parses to a valid index. *)
Lemma from_bytes_complete ri rs buf :
  in_u 32 ri -> (0 < ri)%Z -> Forall raw_ok rs -> shape 0 rs ->
  (forall j r, rs !! j = Some r -> is_restart ri j = true -> r_shared r = 0) ->
  let ros := roffs ri 0 0 rs in
  buf = header (Z.of_nat (length rs)) ri (Z.of_nat (length (encs rs))) (Z.of_nat (length ros))
        ++ encs rs ++ concat (map (le_split 4) ros) ->
  (Z.of_nat (length buf) < 2 ^ 32)%Z ->
  exists x, kv_from_bytes buf = Ok x /\ Valid x rs.
Proof.
  intros Uri Hri Hraw Hsh Hre ros Hb H32.
  assert (Hlen : length buf = KV_HEADER_SIZE + (length (encs rs) + 4 * length ros)).
  { by rewrite Hb, !length_app, length_header, length_table. }
  pose proof (length_encs_ge rs) as Hge.
  destruct (roffs_checked ri 0 0 0 rs [] Hri ltac:(lia) Hraw Hsh Hre) as [Hck Hnr];
    [unfold div_ceil; simpl; symmetry; apply Z.div_small; lia|].
  fold ros in Hck, Hnr. cbn [app Nat.add] in Hck, Hnr.
  destruct (index_header_fields _ _ _ _ _ _ Hb) as (F0 & F1 & F2 & F3 & F4);
    [unfold in_u; lia|done|unfold in_u; lia|unfold in_u; lia|].
  exists {| kv_bytes := buf; num_entries := Z.of_nat (length rs); restart_interval := ri;
            entries_size := length (encs rs); restart_offsets := ros |}.
  split; [|by eapply checked_valid; cbn; [exact Hb|by rewrite length_header|done|done|lia|lia|..]].
  unfold kv_from_bytes. destruct (Nat.ltb_spec (length buf) KV_HEADER_SIZE); [lia|].
  unfold index. rewrite F0, Ok_bind, bool_decide_true by done. cbn [negb].
  rewrite F1, Ok_bind, F2, Ok_bind, F3, Ok_bind, F4, Ok_bind.
  destruct (Z.eqb_spec ri 0); [lia|].
  destruct (Z.eqb_spec (Z.of_nat (length buf)) (Z.of_nat KV_HEADER_SIZE +
    Z.of_nat (length (encs rs)) + Z.of_nat (length ros) * 4)); [|lia]. cbn [negb].
  rewrite !Nat2Z.id.
  replace (KV_HEADER_SIZE + length (encs rs)) with (length (header (Z.of_nat (length rs)) ri
    (Z.of_nat (length (encs rs))) (Z.of_nat (length ros)) ++ encs rs))
    by (by rewrite length_app, length_header).
  unfold ros at 1. rewrite (load_restarts_complete ri 0 0 rs _ _ []);
    [|lia|lia|done|by rewrite Hb, app_nil_r, <- app_assoc].
  rewrite Ok_bind. fold ros.
  assert (En : (if (Z.of_nat (length rs) =? 0)%Z then 0 else div_ceil (Z.of_nat (length rs)) ri)%Z
               = Z.of_nat (length ros)).
  { rewrite Hnr. destruct (Z.eqb_spec (Z.of_nat (length rs)) 0) as [->|]; [|done].
    unfold div_ceil. symmetry. apply Z.div_small. lia. }
  rewrite En, Z.eqb_refl. cbn [negb].
  pose proof (walk_complete buf _ _ ri ros [] rs 0 0 Hb) as W. cbn [app length Nat.add] in W.
  by rewrite W by (done || by rewrite length_header).
Qed.

Lemma raws_restart ri i prev es j r :
  raws ri i prev es !! j = Some r -> is_restart ri (i + j) = true -> r_shared r = 0.
Proof.
  revert i prev j. induction es as [|[k loc] es IH]; intros i prev j Hj Hb; [done|].
  destruct j as [|j]; cbn in Hj.
  - rewrite Nat.add_0_r in Hb. simplify_eq. by rewrite Hb.
  - eapply IH; [exact Hj|]. by replace (S i + j) with (i + S j) by lia.
Qed.

Lemma build_valid es ri out :
  in_u 32 ri -> Forall (fun e => loc_ok e.2) es ->
  build es ri = Ok out -> (Z.of_nat (length out) < 2 ^ 32)%Z ->
  exists x rs, kv_from_bytes out = Ok x /\ Valid x rs /\ keys [] rs = es /\ key_sorted es.
Proof.
  intros Uri Hloc Hb H32. unfold build in Hb. set (R := Z.max ri 1) in *.
  destruct (build_loop R 0 [] es [] []) as [[buf ros]|e|] eqn:El; [|done|done].
  rewrite Ok_bind in Hb. apply build_loop_spec in El as (E & Hk & Hs & _). simplify_eq.
  set (rs := raws R 0 [] es) in *. cbn [app length] in *.
  destruct (raws_ok R 0 [] es Hk Hloc) as [Hsh Hraw]. fold rs in Hsh, Hraw.
  assert (Hl : length es = length rs) by (symmetry; apply length_raws).
  pose proof (length_encs_ge rs) as Hge.
  rewrite !length_app, !le_split_length, length_table in H32.
  destruct (from_bytes_complete R rs (header (Z.of_nat (length rs)) R
     (Z.of_nat (length (encs rs))) (Z.of_nat (length (roffs R 0 0 rs))) ++
     encs rs ++ concat (map (le_split 4) (roffs R 0 0 rs)))) as (x & Hx & V);
    [unfold in_u, R in *; lia|lia|done|done|..].
  - intros j r. apply (raws_restart R 0 [] es).
  - done.
  - rewrite !length_app, length_header, length_table. unfold KV_HEADER_SIZE. lia.
  - exists x, rs. split_and!; [|done|apply raws_keys|done]. rewrite <- Hx. f_equal.
    unfold header. rewrite Hl. unfold wrap. rewrite !Z.mod_small by lia.
    cbn [app]. by rewrite <- !app_assoc.
Qed.

Definition build_rejects (es : list (bytes * PageLocation)) : Prop :=
  Exists (fun e => (MAX_KEY_LEN < Z.of_nat (length e.1))%Z) es \/ ~ key_sorted es.

Lemma build_loop_accepts ri i prev es buf ros :
  Forall (fun e => (Z.of_nat (length e.1) <= MAX_KEY_LEN)%Z) es -> key_sorted es ->
  (0 < i -> Forall (fun e => bytes_lt prev e.1) es) ->
  exists out, build_loop ri i prev es buf ros = Ok out.
Proof.
  revert i prev buf ros. induction es as [|[k loc] es IH]; intros i prev buf ros Hk Hs Hp; [by eexists|].
  apply Forall_cons in Hk as [Hk0 Hk]. apply StronglySorted_inv in Hs as [Hs Hall].
  cbn [fst] in *. cbn [build_loop].
  destruct (Z.ltb_spec MAX_KEY_LEN (Z.of_nat (length k))); [lia|].
  assert (E : (0 <? i) && bytes_leb k prev = false).
  { destruct (Nat.ltb_spec 0 i) as [Hi|]; [|done]. apply Hp, Forall_cons in Hi as [Hlt _].
    apply not_true_iff_false. simpl. rewrite bytes_leb_spec. tauto. }
  rewrite E. apply IH; [done|done|]. intros _. by apply (Forall_fmap fst (bytes_lt k)).
Qed.

Lemma build_loop_no_panic ri i prev es buf ros : build_loop ri i prev es buf ros <> Panic.
Proof.
  revert i prev buf ros. induction es as [|[k loc] es IH]; intros i prev buf ros;
    cbn [build_loop]; [done|].
  destruct (_ <? _)%Z; [done|]. destruct (_ && _); [done|]. apply IH.
Qed.

(** [build] accepts exactly the short, strictly ascending inputs, and its
    errors are returned, not panics. *)
Lemma build_total es ri :
  (exists out, build es ri = Ok out /\ ~ build_rejects es) \/
  (exists e, build es ri = Err e /\ build_rejects es).
Proof.
  unfold build. set (R := Z.max ri 1). destruct (build_loop R 0 [] es [] []) as [[buf ros]|e|] eqn:El.
  - left. eexists. split; [reflexivity|]. apply build_loop_spec in El as (_ & Hk & Hs & _).
    intros [Hex|Hn]; [|done]. apply Exists_exists in Hex as (x & Hin & Hgt).
    rewrite Forall_forall in Hk. specialize (Hk x Hin). simpl in Hk. lia.
  - right. exists e. split; [done|].
    destruct (decide (Exists (fun e => (MAX_KEY_LEN < Z.of_nat (length e.1))%Z) es)) as [|Hn]; [by left|].
    right. intros Hs. destruct (build_loop_accepts R 0 [] es [] []) as [out Ho]; [|done|lia|congruence].
    apply Forall_forall. intros x Hin. destruct (decide (Z.of_nat (length x.1) <= MAX_KEY_LEN)%Z); [done|].
    exfalso. apply Hn, Exists_exists. exists x. split; [done|lia].
  - by apply build_loop_no_panic in El.
Qed.

(** The size of a block, from its keys. *)
Lemma build_loop_length ri i prev es buf ros buf' ros' :
  build_loop ri i prev es buf ros = Ok (buf', ros') ->
  length buf' + 4 * length ros' <= length buf + 4 * length ros + foldr plus 0 (map (fun e => 28 + length e.1) es).
Proof.
  revert i prev buf ros. induction es as [|[k loc] es IH]; intros i prev buf ros Hb; cbn [build_loop] in Hb.
  { injection Hb as <- <-. cbn. lia. }
  destruct (_ <? _)%Z; [done|]. destruct (_ && _); [done|]. apply IH in Hb. unfold encode_entry in Hb.
  rewrite !length_app, !le_split_length, length_drop in Hb. cbn [map foldr fst].
  destruct (is_restart ri i); rewrite ?length_app in Hb; cbn [length] in Hb; lia.
Qed.

Lemma build_length es ri out :
  build es ri = Ok out -> length out <= 24 + foldr plus 0 (map (fun e => 28 + length e.1) es).
Proof.
  intros Hb. unfold build in Hb. destruct (build_loop _ 0 [] es [] []) as [[buf ros]|e|] eqn:El; [|done..].
  rewrite Ok_bind in Hb. injection Hb as <-. apply build_loop_length in El. cbn [app length] in *.
  rewrite !length_app, !le_split_length, length_table. lia.
Qed.

(** ** Properties *)

(** The index round-trips: [build] accepts exactly the inputs whose keys
    are strictly ascending and at most 65,535 bytes long, returning an error
    (never a panic) on every other; whatever it accepts, provided the block
    stays below 4 GiB, parses with [kv_from_bytes] and iterates back to the same
    keys and page locations, for every restart interval (0 is clamped to 1). *)
Theorem kv_index_roundtrip es ri :
  in_u 32 ri -> Forall (fun e => loc_ok e.2) es ->
  (exists out, build es ri = Ok out /\ ~ build_rejects es /\
     ((Z.of_nat (length out) < 2 ^ 32)%Z ->
      exists x, kv_from_bytes out = Ok x /\ iter x = Ok es)) \/
  (exists e, build es ri = Err e /\ build_rejects es).
Proof.
  intros Uri Hl. destruct (build_total es ri) as [(out & Hb & Hn)|]; [left|by right].
  exists out. split; [done|]. split; [done|]. intros H32.
  destruct (build_valid es ri out Uri Hl Hb H32) as (x & rs & Hx & V & Hk & _).
  exists x. split; [done|]. rewrite <- Hk. by apply iter_keys.
Qed.

(** C18. Looking a key up in a built index returns the page of the largest
    indexed key not above it together with the first row of the page after it,
    or nothing when every key is above: the binary search over restart points
    and the prefix-decoding scan compute exactly the linear specification
    [page_of]. *)
Theorem kv_index_lookup es ri out target :
  in_u 32 ri -> Forall (fun e => loc_ok e.2) es ->
  build es ri = Ok out -> (Z.of_nat (length out) < 2 ^ 32)%Z ->
  exists x, kv_from_bytes out = Ok x /\
    find_page_with_next x target = Ok (page_of target es) /\
    find_page x target = Ok (fst <$> page_of target es).
Proof.
  intros Uri Hl Hb H32.
  destruct (build_valid es ri out Uri Hl Hb H32) as (x & rs & Hx & V & Hk & Hs).
  exists x. split; [done|].
  assert (E : find_page_with_next x target = Ok (page_of target es)).
  { destruct rs as [|r rs].
    - cbn in Hk. subst es. unfold find_page_with_next. rewrite (v_num _ _ V). done.
    - subst es. by apply find_page_of. }
  split; [done|]. unfold find_page. rewrite E, Ok_bind. by destruct (page_of target es).
Qed.

(** [kv_from_bytes] never panics on any bytes, and on every index it accepts,
    however hostile the buffer, [find_page_with_next], [find_page] and [iter]
    finish without a panic: the validation makes the unchecked decode paths
    infallible. *)
Theorem kv_index_decode_infallible buf :
  kv_from_bytes buf <> Panic /\
  forall x, kv_from_bytes buf = Ok x ->
    (forall target, exists o, find_page_with_next x target = Ok o /\
                              find_page x target = Ok (fst <$> o)) /\
    exists es, iter x = Ok es /\ Z.of_nat (length es) = num_entries x.
Proof.
  pose proof (from_bytes_sound buf) as H. split; [by destruct (kv_from_bytes buf)|].
  intros x Hx. rewrite Hx in H. destruct H as [rs V]. split.
  - intros target. assert (Hf : exists o, find_page_with_next x target = Ok o).
    { destruct rs as [|r rs].
      - exists None. unfold find_page_with_next. by rewrite (v_num _ _ V).
      - destruct (find_valid x (r :: rs) target V) as (s & _ & -> & _); [done|]. by eexists. }
    destruct Hf as [o E]. exists o. split; [done|]. unfold find_page. rewrite E, Ok_bind. by destruct o.
  - exists (keys [] rs). rewrite (v_num _ _ V). split.
    + by apply iter_keys.
    + f_equal. generalize (@nil byte). clear. induction rs as [|r rs IH]; intros p; simpl; auto.
Qed.

Definition sample_pages : list (bytes * PageLocation) :=
  [([Byte.x01; Byte.x01], {| page_offset := 4; page_size := 10; first_row_index := 0 |});
   ([Byte.x01; Byte.x02], {| page_offset := 14; page_size := 10; first_row_index := 7 |});
   ([Byte.x01; Byte.x02; Byte.x03], {| page_offset := 24; page_size := 11; first_row_index := 9 |})].

Lemma sample_pages_ok : Forall (fun e => loc_ok e.2) sample_pages.
Proof.
  unfold sample_pages.
  repeat (apply Forall_cons; split; [unfold loc_ok, in_u; cbn [snd page_offset page_size first_row_index]; lia|]).
  constructor.
Qed.

Definition sample_index : bytes :=
  Eval vm_compute in match build sample_pages 2 with Ok b => b | _ => [] end.

Lemma kv_index_roundtrip_witness :
  in_u 32 2 /\ Forall (fun e => loc_ok e.2) sample_pages /\
  ((exists out, build sample_pages 2 = Ok out /\ ~ build_rejects sample_pages /\
     ((Z.of_nat (length out) < 2 ^ 32)%Z ->
      exists x, kv_from_bytes out = Ok x /\ iter x = Ok sample_pages)) \/
   (exists e, build sample_pages 2 = Err e /\ build_rejects sample_pages)).
Proof.
  assert (U : in_u 32 2) by (unfold in_u; lia). split; [exact U|]. split; [apply sample_pages_ok|].
  exact (kv_index_roundtrip sample_pages 2 U sample_pages_ok).
Defined.

Lemma kv_index_lookup_witness :
  build sample_pages 2 = Ok sample_index /\
  page_of [Byte.x01; Byte.x02; Byte.x00] sample_pages
  = Some ({| page_offset := 14; page_size := 10; first_row_index := 7 |}, Some 9%Z) /\
  exists x, kv_from_bytes sample_index = Ok x /\
    find_page_with_next x [Byte.x01; Byte.x02; Byte.x00]
    = Ok (page_of [Byte.x01; Byte.x02; Byte.x00] sample_pages) /\
    find_page x [Byte.x01; Byte.x02; Byte.x00]
    = Ok (fst <$> page_of [Byte.x01; Byte.x02; Byte.x00] sample_pages).
Proof.
  split; [vm_compute; reflexivity|]. split; [vm_compute; reflexivity|].
  apply (kv_index_lookup sample_pages 2 sample_index [Byte.x01; Byte.x02; Byte.x00]).
  - unfold in_u; lia.
  - apply sample_pages_ok.
  - vm_compute; reflexivity.
  - vm_compute; reflexivity.
Defined.

Lemma kv_index_decode_infallible_witness :
  kv_from_bytes sample_index <> Panic /\
  exists x, kv_from_bytes sample_index = Ok x /\
    exists es, iter x = Ok es /\ Z.of_nat (length es) = num_entries x.
Proof.
  destruct (kv_index_decode_infallible sample_index) as [Hp Hx]. split; [exact Hp|].
  destruct (kv_from_bytes sample_index) as [x|e|] eqn:E; [|vm_compute in E; discriminate..].
  exists x. split; [reflexivity|]. exact (proj2 (Hx x eq_refl)).
Defined.
