(* ===== verification/Arrow.v ===== *)
(** * The arrow and parquet crates

    What [src/crates/merutable/src/parquet] uses of the two crates: typed
    arrays, record batches, the Arrow writer and the projected, row-selected
    batch reader.  The operations are the classes [Arrow] and [ParquetFile]; their
    documented behaviour is [ArrowLaws] and [ParquetFileLaws].  An instance that
    keeps a file as its serialised columns closes the file. *)

From S2P Require Import Prelude Schema.
Local Open Scope Z_scope.

(** ** Arrays and batches *)
Inductive DataType : Type :=
  | DBoolean
  | DInt32
  | DInt64
  | DFloat32
  | DFloat64
  | DBinary
  | DFixedSizeBinary (n : Z).

#[global] Instance DataType_eq_dec : EqDecision DataType.
Proof. solve_decision. Defined.

Record Field : Type := { f_name : string; f_type : DataType; f_nullable : bool }.

#[global] Instance Field_eq_dec : EqDecision Field.
Proof. solve_decision. Defined.

(** A cell is a value or null. *)
Notation cell := (option FieldValue) (only parsing).

(** The native values of an array type. *)
Definition native (t : DataType) (v : FieldValue) : Prop :=
  match t, v with
  | DBoolean, Boolean _ | DInt32, Int32 _ | DInt64, Int64 _ | DFloat32, Float _
  | DFloat64, Double _ | DBinary, Bytes _ => True
  | DFixedSizeBinary n, Bytes b => Z.of_nat (length b) = n
  | _, _ => False
  end.

Definition cell_of (t : DataType) (c : cell) : Prop :=
  match c with Some v => native t v | None => True end.

(** The bytes of a column's values, each with its length: what the [i32]
    offsets of a [BinaryArray] and the [i32] sizes of a Parquet page must be
    able to address. *)
Definition cell_bytes (c : cell) : Z := match c with Some (Bytes b) => 4 + Z.of_nat (length b) | _ => 0 end.
Definition cells_bytes (l : list cell) : Z := foldr (fun c t => cell_bytes c + t) 0 l.
Definition I32_MAX : Z := 2 ^ 31 - 1.

(** [arr_from] is [XArray::from], [from_iter] and [from_iter_values], and
    panics when the values of a [BinaryArray] outgrow its offsets;
    [arr_fixed] is [FixedSizeBinaryArray::try_from_sparse_iter_with_size];
    [arr_value] and [arr_is_null] panic out of range. *)
Class Arrow := {
  ArrayRef : Type;
  RecordBatch : Type;
  arr_from : DataType -> list cell -> res ArrayRef;
  arr_fixed : Z -> list cell -> option ArrayRef;
  arr_type : ArrayRef -> DataType;
  arr_is_null : ArrayRef -> nat -> res bool;
  arr_value : ArrayRef -> nat -> res FieldValue;
  batch_empty : list Field -> RecordBatch;
  batch_new : list Field -> list ArrayRef -> option RecordBatch;
  batch_schema : RecordBatch -> list Field;
  batch_num_rows : RecordBatch -> nat;
  batch_column : RecordBatch -> nat -> res ArrayRef;
}.

Class ArrowLaws `{!Arrow} := {
  arr_cells : ArrayRef -> list cell;
  batch_cols : RecordBatch -> list ArrayRef;
  arr_from_spec t l :
    (match t with DFixedSizeBinary _ => False | _ => True end) -> Forall (cell_of t) l -> cells_bytes l <= I32_MAX ->
    exists a, arr_from t l = Ok a /\ arr_type a = t /\ arr_cells a = l;
  arr_fixed_spec n l :
    0 < n -> Forall (cell_of (DFixedSizeBinary n)) l -> cells_bytes l <= I32_MAX ->
    exists a, arr_fixed n l = Some a /\ arr_type a = DFixedSizeBinary n /\ arr_cells a = l;
  arr_is_null_spec a i c : arr_cells a !! i = Some c -> arr_is_null a i = Ok (bool_decide (c = None));
  arr_value_spec a i v : arr_cells a !! i = Some (Some v) -> arr_value a i = Ok v;
  batch_new_spec fs cols n :
    fs <> [] ->
    Forall2 (fun f a => arr_type a = f_type f /\ length (arr_cells a) = n /\
      (f_nullable f = false -> Forall (fun c => c <> None) (arr_cells a))) fs cols ->
    exists b, batch_new fs cols = Some b /\ batch_schema b = fs /\ batch_cols b = cols /\
      batch_num_rows b = n;
  batch_column_spec b i a : batch_cols b !! i = Some a -> batch_column b i = Ok a;
  batch_cols_spec b :
    Forall2 (fun f a => arr_type a = f_type f /\ length (arr_cells a) = batch_num_rows b)
      (batch_schema b) (batch_cols b);
}.

(** A batch row by row. *)
Definition batch_row `{!Arrow, !ArrowLaws} (b : RecordBatch) (i : nat) : list cell :=
  map (fun a => arr_cells a !! i ≫= id) (batch_cols b).
Definition batch_rows `{!Arrow, !ArrowLaws} (b : RecordBatch) : list (list cell) :=
  map (batch_row b) (seq 0 (batch_num_rows b)).

(** The position of the first field of that name: [Schema::index_of]. *)
Fixpoint index_of (fs : list Field) (n : string) : option nat :=
  match fs with
  | [] => None
  | f :: fs => if bool_decide (f_name f = n) then Some 0%nat else S <$> index_of fs n
  end.

(** ** Files *)
Inductive Encoding : Type := PLAIN | RLE | DELTA_BINARY_PACKED | BYTE_STREAM_SPLIT.

(** The calls on a [WriterPropertiesBuilder], in order. *)
Inductive WriterProp : Type :=
  | SetCompressionSnappy
  | SetMaxRowGroupSize (rows : Z)
  | SetDataPageSizeLimit (bytes : Z)
  | SetKeyValueMetadata (kv : list (string * option string))
  | SetColumnEncoding (col : string) (e : Encoding)
  | SetColumnDictionaryEnabled (col : string) (b : bool).

Record PqPageLocation : Type := { pp_offset : Z; pp_compressed_page_size : Z; pp_first_row_index : Z }.

(** Typed chunk statistics: the minimum and the maximum. *)
Inductive PqStatistics : Type :=
  | StBoolean (min max : option bool)
  | StInt32 (min max : option Z)
  | StInt64 (min max : option Z)
  | StFloat (min max : option Z)
  | StDouble (min max : option Z)
  | StByteArray (min max : option bytes)
  | StFixedLenByteArray (min max : option bytes)
  | StInt96.

Record PqChunk : Type := {
  ck_compressed_size : Z;
  ck_statistics : option (PqStatistics * option Z);
}.

(** Footer metadata: per row group its number of rows and its column chunks,
    the leaf columns, the key-value pairs, and the page locations per row
    group and column. *)
Record PqMetadata : Type := {
  pm_num_rows : list Z;
  pm_chunks : list (list PqChunk);
  pm_leaves : list string;
  pm_key_values : option (list (string * option string));
  pm_offset_index : option (list (list (list PqPageLocation)));
}.

(** [pq_open] is opening a reader on the source, [pq_read] the batches of a
    projection, of all rows or of the rows [n] from [skip] on of one row group;
    [pq_write] is [ArrowWriter::try_new], [write] and [into_inner]. *)
Class ParquetFile (F : Type) `{!Arrow} := {
  pq_open : F -> option PqMetadata;
  pq_read : F -> option (nat * nat * nat) -> list nat -> option (list (option RecordBatch));
  pq_write : list WriterProp -> list Field -> RecordBatch -> option F;
  pq_len : F -> Z;
}.

(** The entries at the given positions, in their order in the list. *)
Fixpoint select_from {A} (pos : nat) (mask : list nat) (l : list A) : list A :=
  match l with
  | [] => []
  | x :: l => (if bool_decide (pos ∈ mask) then [x] else []) ++ select_from (S pos) mask l
  end.
Definition select_mask {A} (mask : list nat) (l : list A) : list A := select_from 0 mask l.

(** Rows as row groups of the given sizes. *)
Fixpoint chunks {A} (sizes : list nat) (l : list A) : list (list A) :=
  match sizes with
  | [] => []
  | n :: sizes => take n l :: chunks sizes (drop n l)
  end.

Definition selected {A} (sel : option (nat * nat * nat)) (gs : list (list A)) : list A :=
  match sel with
  | None => concat gs
  | Some (rg, skip, n) => match gs !! rg with Some g => take n (drop skip g) | None => [] end
  end.

Definition sel_ok {A} (sel : option (nat * nat * nat)) (gs : list (list A)) : Prop :=
  match sel with
  | None => True
  | Some (rg, skip, n) => exists g, gs !! rg = Some g /\ (0 < n)%nat /\ (skip + n <= length g)%nat
  end.

(** Physical types an encoding can store. *)
Definition encodes (e : Encoding) (t : DataType) : Prop :=
  match e, t with
  | PLAIN, _ | RLE, DBoolean | DELTA_BINARY_PACKED, (DInt32 | DInt64)
  | BYTE_STREAM_SPLIT, (DFloat32 | DFloat64) => True
  | _, _ => False
  end.

Definition props_fit (props : list WriterProp) (fs : list Field) : Prop :=
  forall col e f, SetColumnEncoding col e ∈ props -> f ∈ fs -> f_name f = col -> encodes e (f_type f).

Definition kv_of_props (props : list WriterProp) : list (string * option string) :=
  fold_left (fun kv p => match p with SetKeyValueMetadata kv' => kv' | _ => kv end) props [].

(** The pages of a column chunk of [n] rows: they start at ascending rows, the
    first at row 0. *)
Definition pages_cover (n : Z) (ps : list PqPageLocation) : Prop :=
  (exists p ps', ps = p :: ps' /\ pp_first_row_index p = 0) /\
  StronglySorted Z.lt (map pp_first_row_index ps) /\
  Forall (fun p => 0 <= pp_first_row_index p < n /\ in_i 64 (pp_offset p) /\ 0 <= pp_offset p /\
    in_i 32 (pp_compressed_page_size p) /\ 0 <= pp_compressed_page_size p) ps.

(** The file [f] with metadata [m] holds the batch [b]. *)
Record Written `{!Arrow, !ArrowLaws} {F} `{!ParquetFile F} (props : list WriterProp) (b : RecordBatch)
    (f : F) (m : PqMetadata) : Prop := {
  wr_open : pq_open f = Some m;
  wr_leaves : pm_leaves m = map f_name (batch_schema b);
  wr_chunks : Forall (fun cs => length cs = length (batch_schema b)) (pm_chunks m);
  wr_kv : exists extra, pm_key_values m = Some (kv_of_props props ++ extra) /\
    Forall (fun e => e.1 = "ARROW:schema"%string) extra;
  wr_groups : exists sizes, pm_num_rows m = map Z.of_nat sizes /\ Forall (lt 0) sizes /\
    foldr plus 0%nat sizes = batch_num_rows b /\
    (exists oi, pm_offset_index m = Some oi /\
      Forall2 (fun rg n => length rg = length (batch_schema b) /\ Forall (pages_cover (Z.of_nat n)) rg) oi sizes) /\
    forall sel mask, sel_ok sel (chunks sizes (batch_rows b)) -> Forall (fun i => (i < length (batch_schema b))%nat) mask ->
      exists bs, pq_read f sel mask = Some (map Some bs) /\
        Forall (fun b' => batch_schema b' = select_mask mask (batch_schema b)) bs /\
        concat (map batch_rows bs) = map (select_mask mask) (selected sel (chunks sizes (batch_rows b)));
}.

Class ParquetFileLaws (F : Type) `{!Arrow, !ArrowLaws, !ParquetFile F} := {
  pq_write_total props b : (0 < batch_num_rows b)%nat -> props_fit props (batch_schema b) ->
    Forall (fun a => cells_bytes (arr_cells a) <= I32_MAX) (batch_cols b) ->
    is_Some (pq_write props (batch_schema b) b);
  pq_write_spec props b f : (0 < batch_num_rows b)%nat -> pq_write props (batch_schema b) b = Some f ->
    exists m, Written props b f m;
  pq_len_range f : in_u 64 (pq_len f);
}.

(** ** Rows of a batch *)
Section rows.
Context `{!Arrow, !ArrowLaws}.

Lemma length_batch_rows b : length (batch_rows b) = batch_num_rows b.
Proof. unfold batch_rows. by rewrite length_map, length_seq. Qed.

Lemma lookup_batch_rows b i :
  batch_rows b !! i = if decide (i < batch_num_rows b)%nat then Some (batch_row b i) else None.
Proof.
  unfold batch_rows. rewrite list_lookup_fmap. destruct (decide _) as [Hi|Hi].
  - by rewrite lookup_seq_lt.
  - by rewrite lookup_seq_ge by lia.
Qed.

(** A cell of a batch. *)
Lemma batch_cell b i j c :
  batch_rows b !! i = Some c -> (j < length (batch_schema b))%nat ->
  exists a f x, batch_cols b !! j = Some a /\ batch_schema b !! j = Some f /\ arr_type a = f_type f /\
    c !! j = Some x /\ arr_cells a !! i = Some x.
Proof.
  rewrite lookup_batch_rows. destruct (decide _) as [Hi|]; [|done]. intros [= <-] Hj.
  pose proof (batch_cols_spec b) as HF.
  destruct (lookup_lt_is_Some_2 _ _ Hj) as [f Hf].
  destruct (Forall2_lookup_l _ _ _ _ _ HF Hf) as (a & Ha & Ht & Hl).
  rewrite <- Hl in Hi. destruct (lookup_lt_is_Some_2 _ _ Hi) as [x Hx]. exists a, f, x.
  split_and!; [done..| |done]. unfold batch_row. by rewrite list_lookup_fmap, Ha; cbn; rewrite Hx.
Qed.
End rows.

(** ** Selection *)
Lemma length_select {A B} pos mask (l : list A) (l' : list B) :
  length l = length l' -> length (select_from pos mask l) = length (select_from pos mask l').
Proof.
  revert pos l'. induction l as [|x l IH]; intros pos [|y l'] H; try done. cbn in *.
  rewrite !length_app. f_equal; [by case_bool_decide|]. apply IH. lia.
Qed.

(** A selected position, and where it goes. *)
Lemma select_lookup {A B} pos mask i (l : list A) (l' : list B) x :
  (pos + i)%nat ∈ mask -> l !! i = Some x -> length l = length l' ->
  exists j, select_from pos mask l !! j = Some x /\ select_from pos mask l' !! j = l' !! i.
Proof.
  revert pos i l'. induction l as [|y l IH]; intros pos i [|y' l'] Hi Hx Hl; try done. cbn [select_from].
  destruct i as [|i]; cbn in Hx.
  - rewrite Nat.add_0_r in Hi. injection Hx as ->. rewrite bool_decide_true by done. by exists 0%nat.
  - destruct (IH (S pos) i l') as (j & H1 & H2); [by rewrite Nat.add_succ_comm|done|cbn in Hl; lia|].
    case_bool_decide; [exists (S j)|exists j]; done.
Qed.

Lemma concat_chunks {A} sizes (l : list A) :
  foldr plus 0%nat sizes = length l -> concat (chunks sizes l) = l.
Proof.
  revert l. induction sizes as [|n sizes IH]; intros l; cbn.
  - destruct l; [done|intros; cbn in *; lia].
  - intros Hn. rewrite IH, take_drop; [done|]. rewrite length_drop. lia.
Qed.

Lemma chunks_map {A B} (g : A -> B) sizes l : chunks sizes (map g l) = map (map g) (chunks sizes l).
Proof.
  revert l. induction sizes as [|n sizes IH]; intros l; [done|]. cbn.
  f_equal; [symmetry; apply (fmap_take g)|]. rewrite <- IH. f_equal. symmetry. apply (fmap_drop g).
Qed.

Lemma length_chunk {A} sizes (l : list A) i n :
  foldr plus 0%nat sizes = length l -> sizes !! i = Some n ->
  exists g, chunks sizes l !! i = Some g /\ length g = n.
Proof.
  revert l i. induction sizes as [|m sizes IH]; intros l [|i] Hl Hi; try done; cbn in *.
  - injection Hi as ->. exists (take n l). split; [done|]. rewrite length_take. lia.
  - apply IH; [|done]. rewrite length_drop. lia.
Qed.

Lemma length_chunks {A} sizes (l : list A) : length (chunks sizes l) = length sizes.
Proof. revert l. induction sizes; intros l; cbn; auto. Qed.

(** ** Batches and files as lists of columns *)
Definition shape (fs : list Field) (cols : list (DataType * list cell)) (n : nat) : Prop :=
  Forall2 (fun f a => a.1 = f_type f /\ length a.2 = n) fs cols.

#[global] Instance shape_dec fs cols n : Decision (shape fs cols n).
Proof. unfold shape. apply _. Defined.

Record ListBatch : Type := {
  lb_fields : list Field;
  lb_cols : list (DataType * list cell);
  lb_rows : nat;
  lb_shape : bool_decide (shape lb_fields lb_cols lb_rows) = true;
}.

Definition list_batch (fs : list Field) (cols : list (DataType * list cell)) (n : nat) : option ListBatch :=
  match decide (bool_decide (shape fs cols n) = true) with
  | left H => Some {| lb_fields := fs; lb_cols := cols; lb_rows := n; lb_shape := H |}
  | right _ => None
  end.

Lemma list_batch_Some fs cols n :
  shape fs cols n -> exists b, list_batch fs cols n = Some b /\ lb_fields b = fs /\ lb_cols b = cols /\ lb_rows b = n.
Proof.
  intros H. unfold list_batch. destruct (decide _) as [E|E].
  - eexists. split; [reflexivity|done].
  - exfalso. apply E. by apply bool_decide_eq_true.
Qed.

Lemma empty_shape fs : bool_decide (shape fs (map (fun f => (f_type f, [])) fs) 0) = true.
Proof. apply bool_decide_eq_true. unfold shape. induction fs; constructor; auto. Qed.

#[export] Instance list_arrow : Arrow := {
  ArrayRef := DataType * list cell;
  RecordBatch := ListBatch;
  arr_from t l := if cells_bytes l <=? I32_MAX then Ok (t, l) else Panic;
  arr_fixed n l := Some (DFixedSizeBinary n, l);
  arr_type a := a.1;
  arr_is_null a i := match a.2 !! i with Some c => Ok (bool_decide (c = None)) | None => Panic end;
  arr_value a i := match a.2 !! i with Some (Some v) => Ok v | _ => Panic end;
  batch_empty fs := {| lb_fields := fs; lb_cols := map (fun f => (f_type f, [])) fs; lb_rows := 0;
                       lb_shape := empty_shape fs |};
  batch_new fs cols := match cols with a :: _ => list_batch fs cols (length a.2) | [] => None end;
  batch_schema := lb_fields;
  batch_num_rows := lb_rows;
  batch_column b i := match lb_cols b !! i with Some a => Ok a | None => Panic end;
}.

#[export] Instance list_arrow_laws : ArrowLaws.
Proof.
  refine {| arr_cells := fun a => a.2; batch_cols := lb_cols |}.
  - intros t l _ _ Hl. exists (t, l). cbn. by rewrite (proj2 (Z.leb_le _ _) Hl).
  - intros n l _ _ _. eexists. by split_and!.
  - intros a i c H. cbn. by rewrite H.
  - intros a i v H. cbn. by rewrite H.
  - intros fs cols n Hne HF. destruct HF as [|f a fs cols Ha HF]; [done|]. cbn.
    destruct Ha as (Ht & Hl & _). cbn in Hl. rewrite Hl. apply list_batch_Some. unfold shape. constructor; [done|].
    eapply Forall2_impl; [exact HF|]. by intros f' a' (? & ? & _).
  - cbv [batch_column list_arrow ArrayRef RecordBatch]. by intros b i a ->.
  - intros [fs cols n H]. exact (proj1 (bool_decide_eq_true _) H).
Defined.

(** A file of one row group with one page per row. *)
Record ListFile : Type := { lf_kv : list (string * option string); lf_batch : ListBatch }.

Definition row_pages (n : nat) : list PqPageLocation :=
  map (fun i => {| pp_offset := 4; pp_compressed_page_size := 1; pp_first_row_index := Z.of_nat i |}) (seq 0 n).

Definition rows_batch (fs : list Field) (rows : list (list cell)) : option ListBatch :=
  list_batch fs (imap (fun j f => (f_type f, map (fun row : list cell => row !! j ≫= id) rows)) fs) (length rows).

#[export] Instance list_parquet : ParquetFile ListFile := {
  pq_open f := Some {| pm_num_rows := [Z.of_nat (lb_rows (lf_batch f))];
    pm_chunks := [map (fun _ => {| ck_compressed_size := 0; ck_statistics := None |}) (lb_fields (lf_batch f))];
    pm_leaves := map f_name (lb_fields (lf_batch f)); pm_key_values := Some (lf_kv f);
    pm_offset_index := Some [map (fun _ => row_pages (lb_rows (lf_batch f))) (lb_fields (lf_batch f))] |};
  pq_read f sel mask :=
    b ← rows_batch (select_mask mask (lb_fields (lf_batch f)))
          (map (select_mask mask) (selected sel [batch_rows (lf_batch f)]));
    Some [Some b];
  pq_write props _ b := Some {| lf_kv := kv_of_props props; lf_batch := b |};
  pq_len f := 0;
}.

Lemma rows_batch_spec fs rows :
  Forall (fun row : list cell => length row = length fs) rows ->
  exists b, rows_batch fs rows = Some b /\ batch_schema b = fs /\ batch_rows b = rows.
Proof.
  intros HR. unfold rows_batch. destruct (list_batch_Some fs
    (imap (fun j f => (f_type f, map (fun row : list cell => row !! j ≫= id) rows)) fs) (length rows)) as (b & -> & Hf & Hc & Hn).
  { apply Forall2_same_length_lookup. split; [by rewrite length_imap|].
    intros i f a Hf Ha. rewrite list_lookup_imap, Hf in Ha. injection Ha as <-. cbn. by rewrite length_map. }
  exists b. split; [done|]. split; [done|]. apply list_eq. intros i. rewrite lookup_batch_rows.
  cbn [batch_num_rows list_arrow]. rewrite Hn. destruct (decide _) as [Hi|Hi].
  2:{ symmetry. apply lookup_ge_None. lia. }
  destruct (lookup_lt_is_Some_2 _ _ Hi) as [row Hrow]. rewrite Hrow. f_equal.
  rewrite Forall_forall in HR. specialize (HR row (list_elem_of_lookup_2 _ _ _ Hrow)).
  unfold batch_row. cbn [batch_cols list_arrow_laws]. rewrite Hc. apply list_eq. intros j.
  rewrite list_lookup_fmap, list_lookup_imap.
  destruct (decide (j < length fs)%nat) as [Hj|Hj].
  - destruct (lookup_lt_is_Some_2 _ _ Hj) as [f Hfj]. rewrite Hfj. cbn.
    destruct (lookup_lt_is_Some_2 row j) as [c Hcj]; [lia|]. rewrite Hcj. f_equal.
    rewrite list_lookup_fmap, Hrow. cbn. by rewrite Hcj.
  - rewrite (lookup_ge_None_2 fs j) by lia. symmetry. apply lookup_ge_None. lia.
Qed.

Lemma row_pages_cover n : (0 < n)%nat -> pages_cover (Z.of_nat n) (row_pages n).
Proof.
  intros Hn. unfold row_pages. split_and!.
  - destruct n as [|n]; [lia|]. cbn. eauto.
  - rewrite map_map. cbn [pp_first_row_index]. generalize 0%nat. clear Hn. induction n as [|n IH]; intros k; [constructor|].
    cbn. constructor; [apply IH|]. apply List.Forall_forall. intros z Hz. apply in_map_iff in Hz as (i & <- & Hi).
    apply in_seq in Hi. lia.
  - apply List.Forall_forall. intros p Hp. apply in_map_iff in Hp as (i & <- & Hi). apply in_seq in Hi.
    cbn. unfold in_i. lia.
Qed.

Lemma select_rows_length mask (fs : list Field) (rows : list (list cell)) :
  Forall (fun row => length row = length fs) rows ->
  Forall (fun row : list cell => length row = length (select_mask mask fs)) (map (select_mask mask) rows).
Proof.
  intros HR. apply Forall_fmap. eapply Forall_impl; [exact HR|]. intros row Hr. by apply length_select.
Qed.

Lemma batch_rows_length (b : RecordBatch) :
  Forall (fun row => length row = length (batch_schema b)) (batch_rows b).
Proof.
  apply List.Forall_forall. intros row Hr. unfold batch_rows in Hr. apply in_map_iff in Hr as (i & <- & _).
  unfold batch_row. rewrite length_map. symmetry. eapply Forall2_length, batch_cols_spec.
Qed.

#[export] Instance list_parquet_laws : ParquetFileLaws ListFile.
Proof.
  split.
  - by eexists.
  - intros props b f Hn [= <-]. eexists. split.
    + reflexivity.
    + reflexivity.
    + constructor; [apply length_map|constructor].
    + exists []. cbn. rewrite app_nil_r. split; [done|constructor].
    + exists [batch_num_rows b]. cbn [chunks]. split_and!; [done|by constructor|cbn; lia| |].
      * eexists. split; [done|]. constructor; [|constructor]. split; [apply length_map|].
        apply List.Forall_forall. intros ps Hps. apply in_map_iff in Hps as (? & <- & _). by apply row_pages_cover.
      * intros sel mask. rewrite (firstn_all2 (n := batch_num_rows b)) by (by rewrite length_batch_rows). intros Hs Hm.
        destruct (rows_batch_spec (select_mask mask (batch_schema b))
          (map (select_mask mask) (selected sel [batch_rows b]))) as (b' & Hb & Hsc & Hr).
        { apply select_rows_length. pose proof (batch_rows_length b) as HL.
          destruct sel as [[[rg skip] n]|]; cbn [selected concat] in *; [|by rewrite app_nil_r].
          destruct Hs as (g & Hg & _). destruct rg; [|done]. by apply Forall_take, Forall_drop. }
        exists [b']. cbn [pq_read list_parquet lf_batch]. cbn [batch_schema list_arrow] in Hb. rewrite Hb. split; [done|].
        split; [by constructor|]. cbn [map concat]. by rewrite app_nil_r, Hr.
  - intros f. cbn. unfold in_u. lia.
Qed.
