(* ===== verification/Codec.v ===== *)
(** * Rows and record batches

    [src/crates/merutable/src/parquet/codec.rs]: the Arrow schema of a data
    file, the conversion of sorted rows into a record batch and back.  A file
    of format [Dual] carries each row a second time as a postcard blob, and
    only the blob is read back; a [Columnar] file is read from its typed
    columns, by name. *)

From S2P Require Import Prelude Sequence Schema Key Mvcc RowCodec Arrow.
Local Open Scope Z_scope.

Definition IKEY_COLUMN_NAME : string := "_merutable_ikey".
Definition VALUE_BLOB_COLUMN_NAME : string := "_merutable_value".
Definition SEQ_COLUMN_NAME : string := "_merutable_seq".
Definition OP_COLUMN_NAME : string := "_merutable_op".

Definition level_has_value_blob (level : Z) : bool := has_value_blob (default_for_level level).

Definition column_type_to_arrow (t : ColumnType) : DataType :=
  match t with
  | CBoolean => DBoolean
  | CInt32 => DInt32
  | CInt64 => DInt64
  | CFloat => DFloat32
  | CDouble => DFloat64
  | CByteArray => DBinary
  | CFixedLenByteArray n => DFixedSizeBinary n
  end.

Definition column_field (c : ColumnDef) : Field :=
  {| f_name := name c; f_type := column_type_to_arrow (col_type c); f_nullable := nullable c |}.

Definition hidden (n : string) (t : DataType) : Field := {| f_name := n; f_type := t; f_nullable := false |}.

Definition arrow_schema (s : TableSchema) (format : FileFormat) : list Field :=
  [hidden IKEY_COLUMN_NAME DBinary; hidden SEQ_COLUMN_NAME DInt64; hidden OP_COLUMN_NAME DInt32] ++
  (if has_value_blob format then [hidden VALUE_BLOB_COLUMN_NAME DBinary] else []) ++
  map column_field (columns s).

(** What [build_column] pushes for a missing field of a non-nullable column. *)
Definition column_default (t : ColumnType) : FieldValue :=
  match t with
  | CBoolean => Boolean false
  | CInt32 => Int32 0
  | CInt64 => Int64 0
  | CFloat => Float 0
  | CDouble => Double 0
  | CByteArray => Bytes []
  | CFixedLenByteArray n => Bytes (repeat b0 (Z.to_nat (fixed_len n)))
  end.

Section codec.
Context `{!Arrow, !RowSerde}.

(** ** Rows into a batch *)
Definition build_cell (row : Row) (col_idx : nat) (t : ColumnType) (is_nullable : bool) : res cell :=
  match Row_get row col_idx with
  | None => Ok (if is_nullable then None else Some (column_default t))
  | Some v =>
      if negb (type_matches v t) then Err (Parquet "codec::build_column: type mismatch")
      else if negb (fixed_len_matches v t) then Err (Parquet "codec::build_column: wrong length")
      else Ok (Some v)
  end.

Definition build_column (rows : list (InternalKey * Row)) (col_idx : nat) (t : ColumnType)
    (is_nullable : bool) : res ArrayRef :=
  vals ← mapM (fun x => build_cell x.2 col_idx t is_nullable) rows;
  match t with
  | CFixedLenByteArray n =>
      ok_or (arr_fixed n vals) (Parquet "codec::build_column: try_from_sparse_iter_with_size")
  | _ => arr_from (column_type_to_arrow t) vals
  end.

Definition rows_to_record_batch (rows : list (InternalKey * Row)) (s : TableSchema) (format : FileFormat)
    : res RecordBatch :=
  let arrow_sch := arrow_schema s format in
  match rows with
  | [] => Ok (batch_empty arrow_sch)
  | _ =>
      ikey_col ← arr_from DBinary (map (fun x => Some (Bytes (encoded x.1))) rows);
      seq_col ← arr_from DInt64 (map (fun x => Some (Int64 (to_signed 64 (seq x.1)))) rows);
      op_col ← arr_from DInt32 (map (fun x => Some (Int32 (op_code (op_type x.1)))) rows);
      blob_col ← if has_value_blob format then
                   blobs ← mapM (fun x => ok_or (postcard_to_vec x.2) (Parquet "postcard encode row")) rows;
                   blob ← arr_from DBinary (map (fun b => Some (Bytes b)) blobs); Ok [blob]
                 else Ok [];
      user_cols ← mapM (fun ic => build_column rows ic.1 (col_type ic.2) (nullable ic.2))
                    (zip (List.seq 0 (length (columns s))) (columns s));
      ok_or (batch_new arrow_sch ([ikey_col; seq_col; op_col] ++ blob_col ++ user_cols)) (Parquet "RecordBatch::try_new")
  end.

(** ** A batch into rows *)

(** [downcast_ref::<BinaryArray>()] and [value(i)] on it. *)
Definition binary_column (b : RecordBatch) (idx : nat) (e : MeruError) : res ArrayRef :=
  a ← batch_column b idx;
  if bool_decide (arr_type a = DBinary) then Ok a else Err e.

Definition binary_value (a : ArrayRef) (i : nat) : res bytes :=
  v ← arr_value a i; match v with Bytes b => Ok b | _ => Panic end.

Definition ikey_column (b : RecordBatch) : res ArrayRef :=
  idx ← ok_or (index_of (batch_schema b) IKEY_COLUMN_NAME) (Parquet "missing _merutable_ikey column");
  binary_column b idx (Parquet "_merutable_ikey not BinaryArray").

Definition record_batch_to_ikeys (b : RecordBatch) (s : TableSchema) : res (list InternalKey) :=
  let n := batch_num_rows b in
  if (n =? 0)%nat then Ok []
  else
    ikey_col ← ikey_column b;
    mapM (fun i => ikey_bytes ← binary_value ikey_col i; decode ikey_bytes s) (List.seq 0 n).

Definition downcasts (t : ColumnType) (a : DataType) : bool :=
  match t, a with
  | CFixedLenByteArray _, DFixedSizeBinary _ => true
  | CFixedLenByteArray _, _ => false
  | _, _ => bool_decide (a = column_type_to_arrow t)
  end.

Definition extract_field (a : ArrayRef) (row : nat) (t : ColumnType) : res cell :=
  null ← arr_is_null a row;
  if (null : bool) then Ok None
  else if negb (downcasts t (arr_type a)) then Err (Parquet "codec::extract_field: Arrow array type mismatch")
  else v ← arr_value a row; Ok (Some v).

(** A row of fewer fields than the schema gets the initial defaults. *)
Definition pad_initial (r : Row) (s : TableSchema) : Row :=
  {| fields := fields r ++ map initial_default (drop (length (fields r)) (columns s)) |}.

Definition blob_row (ikey_col blob_col : ArrayRef) (s : TableSchema) (i : nat) : res (InternalKey * Row) :=
  ikey_bytes ← binary_value ikey_col i;
  ikey ← decode ikey_bytes s;
  blob ← binary_value blob_col i;
  row ← ok_or (postcard_from_bytes blob) (Parquet "postcard decode row");
  Ok (ikey, pad_initial row s).

Definition typed_row (b : RecordBatch) (ikey_col : ArrayRef) (s : TableSchema) (i : nat)
    : res (InternalKey * Row) :=
  ikey_bytes ← binary_value ikey_col i;
  ikey ← decode ikey_bytes s;
  fs ← mapM (fun c => match index_of (batch_schema b) (name c) with
                      | Some idx => a ← batch_column b idx; extract_field a i (col_type c)
                      | None => Ok (initial_default c)
                      end) (columns s);
  Ok (ikey, {| fields := fs |}).

Definition record_batch_to_rows (b : RecordBatch) (s : TableSchema) : res (list (InternalKey * Row)) :=
  let n := batch_num_rows b in
  if (n =? 0)%nat then Ok []
  else
    ikey_col ← ikey_column b;
    match index_of (batch_schema b) VALUE_BLOB_COLUMN_NAME with
    | Some blob_idx =>
        blob_col ← binary_column b blob_idx (Parquet "_merutable_value not BinaryArray");
        mapM (blob_row ikey_col blob_col s) (List.seq 0 n)
    | None => mapM (typed_row b ikey_col s) (List.seq 0 n)
    end.
End codec.

(** ** What a file stores of a row *)
Definition stored_cell (row : Row) (i : nat) (c : ColumnDef) : cell :=
  match Row_get row i with
  | Some v => Some v
  | None => if nullable c then None else Some (column_default (col_type c))
  end.

(** What a reader with schema [s'] gets of a row written under [s]. *)
Definition stored_row (s s' : TableSchema) (format : FileFormat) (row : Row) : Row :=
  match format with
  | Dual => pad_initial row s'
  | Columnar => {| fields := imap (stored_cell row) (columns s) ++
                   map initial_default (drop (length (columns s)) (columns s')) |}
  end.

(** Additive evolution: columns appended, the key unchanged. *)
Definition extends (s s' : TableSchema) : Prop :=
  columns s `prefix_of` columns s' /\ primary_key s' = primary_key s /\
  Forall (fun i => (i < length (columns s))%nat) (primary_key s).

Definition column_ok (c : ColumnDef) : Prop :=
  match col_type c with CFixedLenByteArray n => 0 < n < 2 ^ 31 | _ => True end.

(** Names as the codec needs them: distinct and none of the hidden ones. *)
Definition hidden_names : list string :=
  [IKEY_COLUMN_NAME; SEQ_COLUMN_NAME; OP_COLUMN_NAME; VALUE_BLOB_COLUMN_NAME].
Definition names_ok (s : TableSchema) : Prop := NoDup (hidden_names ++ map name (columns s)).

(** The fields a row has are values of their columns. *)
Definition row_fits (s : TableSchema) (row : Row) : Prop :=
  forall i c v, columns s !! i = Some c -> Row_get row i = Some v ->
    type_matches v (col_type c) = true /\ fixed_len_matches v (col_type c) = true.

Lemma validated_fits s row : Row_validate row s = Ok tt -> row_fits s row.
Proof.
  rewrite Row_validate_Ok. intros HF i c v Hc Hv. unfold Row_get in Hv.
  destruct (Forall2_lookup_r _ _ _ _ _ HF Hc) as (f & Hf & Hok). rewrite Hf in Hv. cbn in Hv. by subst f.
Qed.

(** A validated row is read back as it was, with the defaults of the columns
    added since, from either format. *)
Lemma validated_stored s s' format row :
  Row_validate row s = Ok tt ->
  stored_row s s' format row = {| fields := fields row ++ map initial_default (drop (length (columns s)) (columns s')) |}.
Proof.
  rewrite Row_validate_Ok. intros HF. destruct row as [fs]. destruct format; cbn in *.
  - do 2 f_equal. apply list_eq. intros i. rewrite list_lookup_imap.
    destruct (columns s !! i) as [c|] eqn:Ec; cbn.
    + destruct (Forall2_lookup_r _ _ _ _ _ HF Ec) as (f & Hf & Hok). unfold stored_cell, Row_get. cbn.
      rewrite Hf. cbn. destruct f as [v|]; [done|]. cbn in Hok. by rewrite Hok.
    + symmetry. apply lookup_ge_None. rewrite (Forall2_length _ _ _ HF). by apply lookup_ge_None.
  - unfold pad_initial. cbn. by rewrite (Forall2_length _ _ _ HF).
Qed.

(** *** Looking columns up by name *)
Lemma index_of_lookup fs n i : index_of fs n = Some i -> exists f, fs !! i = Some f /\ f_name f = n.
Proof.
  revert i. induction fs as [|f fs IH]; intros i; [done|]. cbn. case_bool_decide as E.
  - intros [= <-]. by exists f.
  - destruct (index_of fs n) as [j|]; [|done]. intros [= <-]. by destruct (IH j eq_refl) as (g & Hg & Hn); exists g.
Qed.

Lemma index_of_unique fs i f : NoDup (map f_name fs) -> fs !! i = Some f -> index_of fs (f_name f) = Some i.
Proof.
  revert i. induction fs as [|g fs IH]; intros i Hnd Hi; [done|]. cbn in *. apply NoDup_cons in Hnd as [Hg Hnd].
  destruct i as [|i]; cbn in Hi.
  - injection Hi as ->. by rewrite bool_decide_true.
  - rewrite bool_decide_false; [by rewrite (IH i)|]. intros E. apply Hg. rewrite E.
    apply list_elem_of_In, in_map, list_elem_of_In. by eapply list_elem_of_lookup_2.
Qed.

Lemma index_of_None fs n : n ∉ map f_name fs -> index_of fs n = None.
Proof.
  induction fs as [|f fs IH]; intros Hn; [done|]. cbn in *. apply not_elem_of_cons in Hn as [H1 H2].
  rewrite bool_decide_false by done. by rewrite IH.
Qed.

Lemma index_of_select_from fs pos mask n i :
  index_of fs n = Some i -> (pos + i)%nat ∈ mask ->
  exists j, index_of (select_from pos mask fs) n = Some j /\ select_from pos mask fs !! j = fs !! i /\
    forall c : list cell, length c = length fs -> select_from pos mask c !! j = c !! i.
Proof.
  revert pos i. induction fs as [|f fs IH]; intros pos i Hi Hm; [done|]. cbn [index_of] in Hi. cbn [select_from].
  case_bool_decide as E.
  - injection Hi as <-. rewrite Nat.add_0_r in Hm. rewrite (bool_decide_true (pos ∈ mask)) by done.
    exists 0%nat. cbn. rewrite bool_decide_true by done. split; [done|]. split; [done|].
    intros [|x c] Hc; [done|]. cbn. by rewrite bool_decide_true.
  - destruct (index_of fs n) as [i'|] eqn:Ei; [|done]. injection Hi as <-.
    destruct (IH (S pos) i' eq_refl) as (j & H1 & H2 & H3); [by rewrite Nat.add_succ_comm|].
    case_bool_decide as Ep; cbn [app].
    + exists (S j). cbn. rewrite bool_decide_false by done. rewrite H1. split; [done|]. split; [done|].
      intros [|x c] Hc; [done|]. cbn. rewrite bool_decide_true by done. cbn. apply H3. cbn in Hc. lia.
    + exists j. split; [done|]. split; [done|]. intros [|x c] Hc; [done|]. cbn. rewrite bool_decide_false by done.
      apply H3. cbn in Hc. lia.
Qed.

Lemma index_of_select fs mask n i :
  index_of fs n = Some i -> i ∈ mask ->
  exists j, index_of (select_mask mask fs) n = Some j /\ select_mask mask fs !! j = fs !! i /\
    forall c : list cell, length c = length fs -> select_mask mask c !! j = c !! i.
Proof. intros. by apply index_of_select_from. Qed.

Lemma select_from_incl {A} pos mask (l : list A) x : x ∈ select_from pos mask l -> x ∈ l.
Proof.
  revert pos. induction l as [|y l IH]; intros pos; [done|]. cbn. intros [Hx|Hx]%elem_of_app.
  - case_bool_decide; [|by apply elem_of_nil in Hx]. apply list_elem_of_singleton in Hx as ->. left.
  - right. by eapply IH.
Qed.

(** *** The names of a file *)
Lemma file_names_eq s format :
  map f_name (arrow_schema s format)
  = (if has_value_blob format then hidden_names else [IKEY_COLUMN_NAME; SEQ_COLUMN_NAME; OP_COLUMN_NAME])
    ++ map name (columns s).
Proof. unfold arrow_schema. rewrite !map_app, map_map. by destruct format. Qed.

Lemma file_names s format : names_ok s -> NoDup (map f_name (arrow_schema s format)).
Proof.
  rewrite file_names_eq. unfold names_ok. destruct format; [|done]. cbn [has_value_blob].
  intros Hn. change hidden_names with ([IKEY_COLUMN_NAME; SEQ_COLUMN_NAME; OP_COLUMN_NAME] ++ [VALUE_BLOB_COLUMN_NAME]) in Hn.
  rewrite <- app_assoc in Hn. apply NoDup_app in Hn as (H1 & H2 & H3). apply NoDup_app. split; [done|].
  apply NoDup_app in H3 as (_ & _ & H3). split; [|done]. intros x Hx Hc. apply (H2 x Hx), elem_of_app. by right.
Qed.

Lemma extends_names s s' : extends s s' -> names_ok s' -> names_ok s.
Proof.
  intros ([extra He] & _ & _). unfold names_ok. rewrite He, map_app, app_assoc. by intros (? & _ & _)%NoDup_app.
Qed.

Section laws.
Context `{AR : !Arrow, ARL : !ArrowLaws, RS : !RowSerde, RSL : !RowSerdeLaws}.
Implicit Types (s : TableSchema) (format : FileFormat) (rows : list (InternalKey * Row)).

(** The columns of a file as functions of the row. *)
Definition column_getters s format : list (InternalKey * Row -> cell) :=
  [fun x => Some (Bytes (encoded x.1)); fun x => Some (Int64 (to_signed 64 (seq x.1)));
   fun x => Some (Int32 (op_code (op_type x.1)))] ++
  (if has_value_blob format then [fun x => Some (Bytes (default [] (postcard_to_vec x.2)))] else []) ++
  imap (fun i c x => stored_cell x.2 i c) (columns s).

Definition row_cells s format (x : InternalKey * Row) : list cell :=
  map (fun g => g x) (column_getters s format).

Lemma length_getters s format : length (column_getters s format) = length (arrow_schema s format).
Proof.
  unfold column_getters, arrow_schema. rewrite !length_app, length_imap, length_map. by destruct format.
Qed.

Lemma build_cell_spec s row i c :
  row_fits s row -> columns s !! i = Some c ->
  build_cell row i (col_type c) (nullable c) = Ok (stored_cell row i c).
Proof.
  intros Hr Hc. unfold build_cell, stored_cell. destruct (Row_get row i) as [v|] eqn:Ev; [|done].
  by destruct (Hr i c v Hc Ev) as [-> ->].
Qed.

Lemma stored_cell_native s row i c :
  row_fits s row -> columns s !! i = Some c -> column_ok c ->
  cell_of (column_type_to_arrow (col_type c)) (stored_cell row i c).
Proof.
  intros Hr Hc Hok. unfold stored_cell. destruct (Row_get row i) as [v|] eqn:Ev.
  - destruct (Hr i c v Hc Ev) as [Ht Hl]. unfold column_ok in Hok.
    destruct v, (col_type c); try discriminate Ht; cbn in *; try done.
    apply Z.eqb_eq in Hl. rewrite Hl. unfold fixed_len, wrap. apply Z.mod_small. lia.
  - destruct (nullable c); [done|]. unfold column_ok in Hok. destruct (col_type c); cbn in *; try done.
    rewrite repeat_length. unfold fixed_len, wrap. rewrite Z.mod_small by lia. lia.
Qed.

Lemma build_column_spec s rows i c :
  Forall (fun x => row_fits s x.2) rows -> columns s !! i = Some c -> column_ok c ->
  cells_bytes (map (fun x => stored_cell x.2 i c) rows) <= I32_MAX ->
  exists a, build_column rows i (col_type c) (nullable c) = Ok a /\
    arr_type a = column_type_to_arrow (col_type c) /\ arr_cells a = map (fun x => stored_cell x.2 i c) rows.
Proof.
  intros HR Hc Hok Hsize. unfold build_column.
  rewrite (mapM_fun _ (fun x => stored_cell x.2 i c)), Ok_bind.
  2:{ eapply Forall_impl; [exact HR|]. intros x Hx. exact (build_cell_spec s x.2 i c Hx Hc). }
  assert (HN : Forall (cell_of (column_type_to_arrow (col_type c))) (map (fun x => stored_cell x.2 i c) rows)).
  { apply Forall_fmap. eapply Forall_impl; [exact HR|]. intros x Hx. exact (stored_cell_native s x.2 i c Hx Hc Hok). }
  unfold column_ok in Hok. revert HN Hok. destruct (col_type c) eqn:Et; intros HN Hok;
    try (edestruct arr_from_spec as (a & -> & H1 & H2); [|exact HN|exact Hsize|]; [exact I|]; by exists a).
  destruct (arr_fixed_spec n (map (fun x => stored_cell x.2 i c) rows)) as (a & -> & H1 & H2); [lia|exact HN|done|].
  eexists. split; [reflexivity|]. by split.
Qed.

Lemma hidden_column_spec t (g : InternalKey * Row -> FieldValue) rows :
  (forall x, native t (g x)) -> match t with DFixedSizeBinary _ => False | _ => True end ->
  cells_bytes (map (fun x => Some (g x)) rows) <= I32_MAX ->
  exists a, arr_from t (map (fun x => Some (g x)) rows) = Ok a /\ arr_type a = t /\ arr_cells a = map (fun x => Some (g x)) rows.
Proof. intros Hg Ht Hs. apply arr_from_spec; [done| |done]. apply Forall_fmap, Forall_true. intros x. apply Hg. Qed.

(** A batch whose columns are functions of the rows has the rows. *)
Lemma batch_rows_getters (b : RecordBatch) (gs : list (InternalKey * Row -> cell)) rows :
  batch_num_rows b = length rows ->
  Forall2 (fun g a => arr_cells a = map g rows) gs (batch_cols b) ->
  batch_rows b = map (fun x => map (fun g => g x) gs) rows.
Proof.
  intros Hn HF. apply list_eq. intros i. rewrite lookup_batch_rows, list_lookup_fmap, Hn.
  destruct (decide _) as [Hi|Hi]; [|by rewrite (lookup_ge_None_2 rows) by lia].
  destruct (lookup_lt_is_Some_2 _ _ Hi) as [x Hx]. rewrite Hx. cbn. f_equal. unfold batch_row.
  induction HF as [|g a gs cols Hg _ IH]; [done|]. cbn. rewrite IH. f_equal.
  by rewrite Hg, list_lookup_fmap, Hx.
Qed.

Definition rows_ok s rows : Prop := Forall (fun x => row_fits s x.2 /\ is_Some (postcard_to_vec x.2)) rows.

(** A column for a field: its type, its cells, and no nulls where the schema
    forbids them. *)
Definition column_for rows (f : Field) (g : InternalKey * Row -> cell) (a : ArrayRef) : Prop :=
  arr_type a = f_type f /\ arr_cells a = map g rows /\ (f_nullable f = false -> forall x, g x <> None).

Lemma hidden_for rows n t (g : InternalKey * Row -> FieldValue) :
  (forall x, native t (g x)) -> match t with DFixedSizeBinary _ => False | _ => True end ->
  cells_bytes (map (fun x => Some (g x)) rows) <= I32_MAX ->
  exists a, arr_from t (map (fun x => Some (g x)) rows) = Ok a /\ column_for rows (hidden n t) (fun x => Some (g x)) a.
Proof. intros Hg Ht Hs. destruct (hidden_column_spec t g rows Hg Ht Hs) as (a & Ha & E1 & E2). exists a. by split_and!. Qed.

(** The columns of the rows fit their arrays. *)
Definition arrow_fits s format rows : Prop := Forall (fun g => cells_bytes (map g rows) <= I32_MAX) (column_getters s format).

Lemma arrow_fits_dual s format rows : arrow_fits s Dual rows -> arrow_fits s format rows.
Proof.
  unfold arrow_fits, column_getters. rewrite !Forall_app. intros (H1 & H2 & H3). split_and!; [done| |done].
  by destruct format.
Qed.

Lemma cells_bytes_app l k : cells_bytes (l ++ k) = cells_bytes l + cells_bytes k.
Proof. unfold cells_bytes. induction l as [|c l IH]; cbn in *; lia. Qed.

Lemma cell_bytes_nonneg c : 0 <= cell_bytes c.
Proof. destruct c as [[]|]; cbn; lia. Qed.

Lemma cells_bytes_sub (g : InternalKey * Row -> cell) l k : l ⊆+ k -> cells_bytes (map g l) <= cells_bytes (map g k).
Proof.
  unfold cells_bytes. induction 1 as [|x l1 l2 _ IH|x y l|x l1 l2 _ IH|l1 l2 l3 _ IH1 _ IH2]; cbn in *; try lia.
  pose proof (cell_bytes_nonneg (g x)). lia.
Qed.

Lemma arrow_fits_sub s format l k : l ⊆+ k -> arrow_fits s format k -> arrow_fits s format l.
Proof.
  intros Hlk. unfold arrow_fits. intros H. eapply Forall_impl; [exact H|]. intros g Hg. cbn in *.
  pose proof (cells_bytes_sub g l k Hlk). lia.
Qed.

Lemma arrow_fits_bool s format rows :
  forallb (fun g => cells_bytes (map g rows) <=? I32_MAX) (column_getters s format) = true -> arrow_fits s format rows.
Proof. intros H. unfold arrow_fits. apply List.Forall_forall. intros g Hg. by apply Z.leb_le, (proj1 (forallb_forall _ _) H g). Qed.

Lemma arrow_fits_nil s format : arrow_fits s format [].
Proof. apply Forall_true. done. Qed.

Lemma user_columns_spec s rows :
  Forall column_ok (columns s) -> Forall (fun x => row_fits s x.2) rows ->
  Forall (fun g => cells_bytes (map g rows) <= I32_MAX) (imap (fun i c x => stored_cell x.2 i c) (columns s)) ->
  exists cols, mapM (fun ic => build_column rows ic.1 (col_type ic.2) (nullable ic.2))
      (zip (List.seq 0 (length (columns s))) (columns s)) = Ok cols /\
    Forall3 (column_for rows) (map column_field (columns s)) (imap (fun i c x => stored_cell x.2 i c) (columns s)) cols.
Proof.
  intros Hc HR HS. set (cs := columns s).
  assert (HG : forall k, Forall (fun g => cells_bytes (map g rows) <= I32_MAX) (imap (fun i c x => stored_cell x.2 (k + i)%nat c) cs) -> (forall i c, cs !! i = Some c -> columns s !! (k + i)%nat = Some c) ->
    exists cols, mapM (fun ic => build_column rows ic.1 (col_type ic.2) (nullable ic.2)) (zip (List.seq k (length cs)) cs) = Ok cols /\
    Forall3 (column_for rows) (map column_field cs) (imap (fun i c x => stored_cell x.2 (k + i)%nat c) cs) cols).
  { assert (Hcs : Forall column_ok cs) by done. clearbody cs.
    induction Hcs as [|c cs Hc0 Hcs IH]; intros k HSk Hk; [exists []; split; [done|constructor]|].
    cbn [imap] in HSk. apply Forall_cons in HSk as [Hs0 HSk]. rewrite Nat.add_0_r in Hs0.
    destruct (build_column_spec s rows k c HR) as (a & Ha & Ht & Hcell); [by rewrite <- (Nat.add_0_r k); apply Hk|done|done|].
    destruct (IH (S k)) as (cols & Hm & HF).
    { erewrite imap_ext; [exact HSk|]. intros i c' _. cbn. by rewrite Nat.add_succ_r. }
    { intros i c' Hi. rewrite Nat.add_succ_comm. by apply Hk. }
    exists (a :: cols). cbn. rewrite Ha. cbn. cbn in Hm. rewrite Hm. split; [done|]. constructor.
    - rewrite Nat.add_0_r. split_and!; [done..|]. intros Hf x. cbn in Hf. unfold stored_cell. rewrite Hf.
      by destruct (Row_get _ _).
    - erewrite imap_ext; [exact HF|]. intros i c' _. cbn. by rewrite Nat.add_succ_r. }
  by apply (HG 0%nat).
Qed.

Lemma batch_of_columns rows fs gs cols :
  fs <> [] -> Forall3 (column_for rows) fs gs cols ->
  exists b, batch_new fs cols = Some b /\ batch_schema b = fs /\
    batch_num_rows b = length rows /\ batch_rows b = map (fun x => map (fun g => g x) gs) rows /\
    Forall2 (fun g a => arr_cells a = map g rows) gs (batch_cols b).
Proof.
  intros Hne HF. destruct (batch_new_spec fs cols (length rows) Hne) as (b & Hb & Hs & Hc & Hn).
  { clear Hne. induction HF as [|f g a fs gs cols (Ht & Hc & Hnull) _ IH]; constructor; [|done].
    split; [done|]. rewrite Hc. split; [by rewrite length_map|]. intros Hf. apply Forall_fmap, Forall_true. by apply Hnull. }
  assert (HG : Forall2 (fun g a => arr_cells a = map g rows) gs (batch_cols b)).
  { rewrite Hc. clear -HF. induction HF as [|f g a fs gs cols (_ & Hg & _) _ IH]; by constructor. }
  exists b. split_and!; [done..| |done]. by apply batch_rows_getters.
Qed.

Lemma Forall3_app {A B C} (P : A -> B -> C -> Prop) a1 b1 c1 a2 b2 c2 :
  Forall3 P a1 b1 c1 -> Forall3 P a2 b2 c2 -> Forall3 P (a1 ++ a2) (b1 ++ b2) (c1 ++ c2).
Proof. induction 1; [done|]. intros. constructor; auto. Qed.

Lemma blob_column_spec rows :
  Forall (fun x => is_Some (postcard_to_vec x.2)) rows ->
  mapM (fun x => ok_or (postcard_to_vec x.2) (Parquet "postcard encode row")) rows
  = Ok (map (fun x => default [] (postcard_to_vec x.2)) rows).
Proof.
  intros HR. apply mapM_fun. eapply Forall_impl; [exact HR|]. intros x [bs Hb]. by rewrite Hb.
Qed.

Lemma rows_to_record_batch_spec s format rows :
  Forall column_ok (columns s) -> rows_ok s rows -> rows <> [] -> arrow_fits s format rows ->
  exists b, rows_to_record_batch rows s format = Ok b /\ batch_schema b = arrow_schema s format /\
    batch_num_rows b = length rows /\ batch_rows b = map (row_cells s format) rows /\
    Forall (fun a => cells_bytes (arr_cells a) <= I32_MAX) (batch_cols b).
Proof.
  intros Hc HR Hne Hfit. pose proof Hfit as HS. unfold arrow_fits, column_getters in HS.
  apply Forall_app in HS as [Hh HS]. apply Forall_app in HS as [HB HU].
  repeat (apply Forall_cons in Hh as [? Hh]). clear Hh.
  destruct (user_columns_spec s rows Hc) as (ucols & Hu & Hcell); [|exact HU|].
  { eapply Forall_impl; [exact HR|]. by intros x [? _]. }
  destruct (hidden_for rows IKEY_COLUMN_NAME DBinary (fun x => Bytes (encoded x.1))) as (a1 & E1 & C1); [done..|].
  destruct (hidden_for rows SEQ_COLUMN_NAME DInt64 (fun x => Int64 (to_signed 64 (seq x.1)))) as (a2 & E2 & C2); [done..|].
  destruct (hidden_for rows OP_COLUMN_NAME DInt32 (fun x => Int32 (op_code (op_type x.1)))) as (a3 & E3 & C3); [done..|].
  assert (exists blob, (if has_value_blob format then
      blobs ← mapM (fun x => ok_or (postcard_to_vec x.2) (Parquet "postcard encode row")) rows;
      blob ← arr_from DBinary (map (fun b => Some (Bytes b)) blobs); Ok [blob] else Ok []) = Ok blob /\
    Forall3 (column_for rows) (if has_value_blob format then [hidden VALUE_BLOB_COLUMN_NAME DBinary] else [])
      (if has_value_blob format then [fun x => Some (Bytes (default [] (postcard_to_vec x.2)))] else []) blob)
    as (blob & Hblob & Cb).
  { destruct (has_value_blob format); [|eexists; split; [reflexivity|constructor]]. apply Forall_cons in HB as [HB _].
    rewrite blob_column_spec, Ok_bind, map_map; [|eapply Forall_impl; [exact HR|]; by intros x [_ ?]].
    destruct (hidden_for rows VALUE_BLOB_COLUMN_NAME DBinary (fun x => Bytes (default [] (postcard_to_vec x.2)))) as (a & -> & Ca); [done..|].
    eexists. split; [reflexivity|]. constructor; [exact Ca|constructor]. }
  destruct (batch_of_columns rows (arrow_schema s format) (column_getters s format) ([a1; a2; a3] ++ blob ++ ucols))
    as (b & Hb & Hs & Hn & Hr & Hg); [done| |].
  { unfold arrow_schema, column_getters. apply Forall3_app; [|by apply Forall3_app].
    constructor; [exact C1|]. constructor; [exact C2|]. constructor; [exact C3|constructor]. }
  exists b. split; [|split_and!; [done..|]].
  2:{ revert Hfit. unfold arrow_fits. clear -Hg. induction Hg as [|g a gs cols E _ IH]; [constructor|].
      intros [H1 H2]%Forall_cons. constructor; [by rewrite E|by apply IH]. }
  unfold rows_to_record_batch.
  assert (HM : forall A (y z : A), match rows with [] => y | _ :: _ => z end = z) by (by destruct rows).
  rewrite HM, E1, Ok_bind, E2, Ok_bind, E3, Ok_bind, Hblob, Ok_bind, Hu, Ok_bind, Hb. done.
Qed.

(** ** Decoding *)

(** The cell of a binary column. *)
Definition binary_cell (fs : list Field) (c : list cell) (n : string) (bs : bytes) : Prop :=
  exists j f, index_of fs n = Some j /\ fs !! j = Some f /\ f_type f = DBinary /\ c !! j = Some (Some (Bytes bs)).

Definition cells_ikey s (fs : list Field) (c : list cell) (ik : InternalKey) : Prop :=
  exists kb, binary_cell fs c IKEY_COLUMN_NAME kb /\ decode kb s = Ok ik.

Definition cells_field (fs : list Field) (c : list cell) (cd : ColumnDef) (v : cell) : Prop :=
  match index_of fs (name cd) with
  | Some j => c !! j = Some v /\ exists f, fs !! j = Some f /\ downcasts (col_type cd) (f_type f) = true
  | None => v = initial_default cd
  end.

(** The cells of one row of a batch with schema [fs] decode to [x]. *)
Definition cells_decode s (fs : list Field) (c : list cell) (x : InternalKey * Row) : Prop :=
  cells_ikey s fs c x.1 /\
  match index_of fs VALUE_BLOB_COLUMN_NAME with
  | Some _ => exists blob r, binary_cell fs c VALUE_BLOB_COLUMN_NAME blob /\
      postcard_from_bytes blob = Some r /\ x.2 = pad_initial r s
  | None => Forall2 (cells_field fs c) (columns s) (fields x.2)
  end.

Lemma binary_value_spec (b : RecordBatch) e n :
  (0 < batch_num_rows b)%nat ->
  (forall i c, batch_rows b !! i = Some c -> exists bs, binary_cell (batch_schema b) c n bs) ->
  exists j a, index_of (batch_schema b) n = Some j /\ binary_column b j e = Ok a /\
    forall i c bs, batch_rows b !! i = Some c -> binary_cell (batch_schema b) c n bs -> binary_value a i = Ok bs.
Proof.
  intros Hn Hb. destruct (lookup_lt_is_Some_2 (batch_rows b) 0) as [c0 Hc0]; [by rewrite length_batch_rows|].
  destruct (Hb 0%nat c0 Hc0) as (bs0 & j & f & Hj & Hf & Hty & Hcell).
  destruct (batch_cell b 0 j c0 Hc0 (lookup_lt_Some _ _ _ Hf)) as (a & f' & x & Ha & Hf' & Ht & _ & _).
  rewrite Hf in Hf'. injection Hf' as <-. exists j, a. split; [done|]. split.
  - unfold binary_column. rewrite (batch_column_spec _ _ _ Ha), Ok_bind. by rewrite bool_decide_true by congruence.
  - intros i c bs Hc (j' & f' & Hj' & _ & _ & Hx). rewrite Hj in Hj'. injection Hj' as <-.
    destruct (batch_cell b i j c Hc (lookup_lt_Some _ _ _ Hf)) as (a' & _ & x' & Ha' & _ & _ & Hx' & Hv).
    rewrite Ha in Ha'. injection Ha' as <-. rewrite Hx in Hx'. injection Hx' as <-.
    unfold binary_value. by rewrite (arr_value_spec _ _ _ Hv).
Qed.

(** Row by row over the row numbers. *)
Lemma mapM_rows {X} (b : RecordBatch) (f : nat -> res X) (P : list cell -> X -> Prop) xs :
  Forall2 P (batch_rows b) xs -> (forall i c x, batch_rows b !! i = Some c -> P c x -> f i = Ok x) ->
  mapM f (List.seq 0 (batch_num_rows b)) = Ok xs.
Proof.
  intros HF Hf. apply mapM_Ok. apply Forall2_same_length_lookup. split.
  - rewrite length_seq, <- length_batch_rows. by eapply Forall2_length.
  - intros i i' x Hi Hx. destruct (Forall2_lookup_r _ _ _ _ _ HF Hx) as (c & Hc & HP).
    apply lookup_seq in Hi as [-> _]. by eapply Hf.
Qed.

Lemma decode_nothing {X} (b : RecordBatch) (P : list cell -> X -> Prop) xs :
  Forall2 P (batch_rows b) xs -> batch_num_rows b = 0%nat -> xs = [].
Proof. intros HF%Forall2_length Hn. rewrite length_batch_rows, Hn in HF. by destruct xs. Qed.

Lemma record_batch_to_ikeys_spec (b : RecordBatch) s iks :
  Forall2 (cells_ikey s (batch_schema b)) (batch_rows b) iks -> record_batch_to_ikeys b s = Ok iks.
Proof.
  intros HF. unfold record_batch_to_ikeys. destruct (Nat.eqb_spec (batch_num_rows b) 0) as [E|E].
  { by rewrite (decode_nothing b _ iks HF E). }
  destruct (binary_value_spec b (Parquet "_merutable_ikey not BinaryArray") IKEY_COLUMN_NAME) as (j & a & Hj & Ha & Hv);
    [lia| |].
  { intros i c Hc. destruct (Forall2_lookup_l _ _ _ _ _ HF Hc) as (ik & _ & kb & Hkb & _). by exists kb. }
  unfold ikey_column. rewrite Hj. cbn [ok_or]. rewrite Ok_bind, Ha, Ok_bind.
  eapply mapM_rows; [exact HF|]. intros i c ik Hc (kb & Hkb & Hd).
  rewrite (Hv i c kb Hc Hkb), Ok_bind. done.
Qed.

Lemma extract_field_spec (b : RecordBatch) i c cd v :
  batch_rows b !! i = Some c -> cells_field (batch_schema b) c cd v ->
  match index_of (batch_schema b) (name cd) with
  | Some idx => a ← batch_column b idx; extract_field a i (col_type cd)
  | None => Ok (initial_default cd)
  end = Ok v.
Proof.
  intros Hc. unfold cells_field. destruct (index_of _ _) as [j|]; [|by intros ->].
  intros (Hv & f & Hf & Hd). destruct (batch_cell b i j c Hc (lookup_lt_Some _ _ _ Hf))
    as (a & f' & x & Ha & Hf' & Ht & Hx & Hcell).
  rewrite Hf in Hf'. injection Hf' as <-. rewrite Hv in Hx. injection Hx as <-.
  rewrite (batch_column_spec _ _ _ Ha), Ok_bind. unfold extract_field.
  rewrite (arr_is_null_spec _ _ _ Hcell), Ok_bind. destruct v as [v|]; [|done].
  rewrite bool_decide_false by done. rewrite Ht, Hd. cbn [negb]. by rewrite (arr_value_spec _ _ _ Hcell).
Qed.

Lemma record_batch_to_rows_spec (b : RecordBatch) s xs :
  Forall2 (cells_decode s (batch_schema b)) (batch_rows b) xs -> record_batch_to_rows b s = Ok xs.
Proof.
  intros HF. unfold record_batch_to_rows. destruct (Nat.eqb_spec (batch_num_rows b) 0) as [E|E].
  { by rewrite (decode_nothing b _ xs HF E). }
  destruct (binary_value_spec b (Parquet "_merutable_ikey not BinaryArray") IKEY_COLUMN_NAME) as (j & a & Hj & Ha & Hv);
    [lia| |].
  { intros i c Hc. destruct (Forall2_lookup_l _ _ _ _ _ HF Hc) as (ik & _ & (kb & Hkb & _) & _). by exists kb. }
  unfold ikey_column. rewrite Hj. cbn [ok_or]. rewrite Ok_bind, Ha, Ok_bind. unfold cells_decode in HF.
  destruct (index_of (batch_schema b) VALUE_BLOB_COLUMN_NAME) as [jv|] eqn:Ejv.
  - destruct (binary_value_spec b (Parquet "_merutable_value not BinaryArray") VALUE_BLOB_COLUMN_NAME)
      as (j' & a' & Hj' & Ha' & Hv'); [lia| |].
    { intros i c Hc. destruct (Forall2_lookup_l _ _ _ _ _ HF Hc) as (ik & _ & _ & blob & r & Hb & _). by exists blob. }
    rewrite Ejv in Hj'. injection Hj' as <-. rewrite Ha', Ok_bind.
    eapply mapM_rows; [exact HF|]. intros i c [ik row] Hc ((kb & Hkb & Hd) & blob & r & Hb & Hp & Hrow).
    unfold blob_row. rewrite (Hv i c kb Hc Hkb), Ok_bind, Hd, Ok_bind, (Hv' i c blob Hc Hb), Ok_bind, Hp.
    cbn in *. by subst.
  - eapply mapM_rows; [exact HF|]. intros i c [ik [fs]] Hc ((kb & Hkb & Hd) & Hfs).
    unfold typed_row. rewrite (Hv i c kb Hc Hkb), Ok_bind, Hd, Ok_bind.
    rewrite (mapM_Ok _ _ fs); [done|]. eapply Forall2_impl; [exact Hfs|]. intros cd v Hcv.
    by apply (extract_field_spec b i c).
Qed.

(** *** The rows of a file decode to the rows written *)
Lemma length_row_cells s format x : length (row_cells s format x) = length (arrow_schema s format).
Proof. unfold row_cells. by rewrite length_map, length_getters. Qed.

(** A column of the file, found by name through a projection. *)
Lemma projected_cell s format mask x i f c :
  names_ok s -> arrow_schema s format !! i = Some f -> row_cells s format x !! i = Some c -> i ∈ mask ->
  exists j, index_of (select_mask mask (arrow_schema s format)) (f_name f) = Some j /\
    select_mask mask (arrow_schema s format) !! j = Some f /\
    select_mask mask (row_cells s format x) !! j = Some c.
Proof.
  intros Hn Hf Hc Hm. pose proof (index_of_unique _ i f (file_names s format Hn) Hf) as Hi.
  destruct (index_of_select _ mask _ _ Hi Hm) as (j & H1 & H2 & H3). exists j. rewrite H2, H3 by apply length_row_cells. done.
Qed.

Lemma projected_binary s format mask x i n bs :
  names_ok s -> arrow_schema s format !! i = Some (hidden n DBinary) ->
  row_cells s format x !! i = Some (Some (Bytes bs)) -> i ∈ mask ->
  binary_cell (select_mask mask (arrow_schema s format)) (select_mask mask (row_cells s format x)) n bs.
Proof.
  intros Hn Hf Hc Hm. destruct (projected_cell s format mask x i _ _ Hn Hf Hc Hm) as (j & H1 & H2 & H3).
  exists j, (hidden n DBinary). by split_and!.
Qed.

Lemma ikey_cells s s' format mask x ik :
  names_ok s -> 0%nat ∈ mask -> decode (encoded x.1) s' = Ok ik ->
  cells_ikey s' (select_mask mask (arrow_schema s format)) (select_mask mask (row_cells s format x)) ik.
Proof. intros Hn Hm Hd. exists (encoded x.1). split; [|done]. by apply (projected_binary s format mask x 0). Qed.

(** A projection that has the columns the reader needs. *)
Definition mask_reads s (format : FileFormat) (mask : list nat) : Prop :=
  0%nat ∈ mask /\
  match format with
  | Dual => 3%nat ∈ mask
  | Columnar => forall i, (i < length (columns s))%nat -> (3 + i)%nat ∈ mask
  end.

Lemma downcasts_refl t : downcasts t (column_type_to_arrow t) = true.
Proof. by destruct t; cbn; rewrite ?bool_decide_true. Qed.

Lemma typed_cells s s' mask x :
  extends s s' -> names_ok s' -> (forall i, (i < length (columns s))%nat -> (3 + i)%nat ∈ mask) ->
  Forall2 (cells_field (select_mask mask (arrow_schema s Columnar)) (select_mask mask (row_cells s Columnar x)))
    (columns s') (fields (stored_row s s' Columnar x.2)).
Proof.
  intros Hext Hn Hm. pose proof (extends_names _ _ Hext Hn) as Hn0. destruct Hext as ([extra He] & _ & _).
  cbn [stored_row fields]. rewrite He, drop_app_length. apply Forall2_app.
  - apply Forall2_same_length_lookup. split; [by rewrite length_imap|]. intros i c v Hc Hv.
    rewrite list_lookup_imap, Hc in Hv. injection Hv as <-. unfold cells_field.
    destruct (projected_cell s Columnar mask x (3 + i) (column_field c) (stored_cell x.2 i c)) as (j & H1 & H2 & H3);
      [done| | |by apply Hm, (lookup_lt_Some _ _ _ Hc)|].
    + change (map column_field (columns s) !! i = Some (column_field c)). by rewrite list_lookup_fmap, Hc.
    + change (map (fun g => g x) (imap (fun i c x => stored_cell x.2 i c) (columns s)) !! i = Some (stored_cell x.2 i c)).
      by rewrite list_lookup_fmap, list_lookup_imap, Hc.
    + cbn [column_field f_name] in H1. rewrite H1. split; [done|]. exists (column_field c).
      split; [done|apply downcasts_refl].
  - apply Forall2_fmap_r, Forall_Forall2_diag, List.Forall_forall. intros c Hc%list_elem_of_In. unfold cells_field.
    rewrite index_of_None; [done|]. intros Hin.
    assert (Hin' : name c ∈ map f_name (arrow_schema s Columnar)).
    { apply list_elem_of_In, in_map_iff in Hin as (f & <- & Hf%list_elem_of_In). apply select_from_incl in Hf.
      by apply list_elem_of_In, in_map, list_elem_of_In. }
    rewrite file_names_eq in Hin'. unfold names_ok in Hn. rewrite He, map_app, app_assoc in Hn.
    apply NoDup_app in Hn as (_ & Hd & _). apply (Hd (name c)).
    + apply elem_of_app in Hin' as [Hh|Hu]; apply elem_of_app; [left|by right].
      change hidden_names with ([IKEY_COLUMN_NAME; SEQ_COLUMN_NAME; OP_COLUMN_NAME] ++ [VALUE_BLOB_COLUMN_NAME]).
      apply elem_of_app. by left.
    + by apply list_elem_of_In, in_map, list_elem_of_In.
Qed.

Lemma row_cells_decode s s' format mask x ik :
  extends s s' -> names_ok s' -> mask_reads s format mask -> decode (encoded x.1) s' = Ok ik ->
  is_Some (postcard_to_vec x.2) ->
  cells_decode s' (select_mask mask (arrow_schema s format)) (select_mask mask (row_cells s format x))
    (ik, stored_row s s' format x.2).
Proof.
  intros Hext Hn [H0 Hm] Hd [blob Hb]. pose proof (extends_names _ _ Hext Hn) as Hn0.
  split; [by apply ikey_cells|]. destruct format; cbn [snd].
  - rewrite index_of_None; [by apply typed_cells|]. intros Hin.
    apply list_elem_of_In, in_map_iff in Hin as (f & Ef & Hf%list_elem_of_In%select_from_incl).
    assert (Hin : VALUE_BLOB_COLUMN_NAME ∈ map f_name (arrow_schema s Columnar))
      by (rewrite <- Ef; by apply list_elem_of_In, in_map, list_elem_of_In).
    rewrite file_names_eq in Hin. unfold names_ok in Hn0. apply NoDup_app in Hn0 as (_ & Hd0 & _).
    apply elem_of_app in Hin as [Hin|Hin].
    + cbn in Hin. rewrite !elem_of_cons, elem_of_nil in Hin. destruct Hin as [E|[E|[E|[]]]]; discriminate E.
    + apply (Hd0 VALUE_BLOB_COLUMN_NAME); [|done]. do 3 right. left.
  - pose proof (projected_binary s Dual mask x 3 VALUE_BLOB_COLUMN_NAME blob Hn0 eq_refl) as HB.
    destruct HB as (j & f & Hj & ? & ? & ?); [unfold row_cells, column_getters; cbn; by rewrite Hb|done|].
    rewrite Hj. exists blob, x.2. split; [by exists j, f|]. split; [by apply postcard_roundtrip|done].
Qed.
End laws.
