(* ===== verification/FileReader.v ===== *)
(** * Reading data files

    [src/crates/merutable/src/parquet/reader.rs]: point lookups through the
    bloom filter and the sparse index, scans, and the stream of user keys used
    to place deletion vectors; and the footer entries of
    [src/crates/merutable/src/parquet/footer.rs]. *)

From S2P Require Import Prelude Sequence Schema Key Mvcc RowCodec LsmVersion Bloom KvIndex DeletionVector Arrow Codec.
Local Open Scope Z_scope.

(** [serde_json] on file metadata, and [hex]. *)
Class FooterCodec := {
  meta_to_json : ParquetFileMeta -> option string;
  json_meta : string -> option ParquetFileMeta;
  hex_encode : bytes -> string;
  hex_decode : string -> option bytes;
}.
Class FooterCodecLaws `{!FooterCodec} := {
  meta_to_json_total m : is_Some (meta_to_json m);
  meta_json_roundtrip m j : meta_to_json m = Some j -> json_meta j = Some m;
  hex_roundtrip b : hex_decode (hex_encode b) = Some b;
}.

(** An instance. *)
Definition stats_codes (c : ColumnStats) :=
  ((cs_field_id c, cs_compressed_bytes c, cs_value_count c), (cs_null_count c, cs_lower_bound c, cs_upper_bound c)).
Definition codes_stats (c : (Z * Z * Z) * (Z * option bytes * option bytes)) : ColumnStats :=
  match c with
  | ((a, b, d), (e, g, h)) =>
      {| cs_field_id := a; cs_compressed_bytes := b; cs_value_count := d; cs_null_count := e; cs_lower_bound := g;
         cs_upper_bound := h |}
  end.
Definition meta_codes (m : ParquetFileMeta) :=
  ((level m, seq_min m, seq_max m, key_min m), (key_max m, num_rows m, file_size m, fm_dv_path m),
   (fm_dv_offset m, fm_dv_length m, has_value_blob <$> format m, map stats_codes <$> column_stats m)).
Definition codes_meta (c : (Z * Z * Z * bytes) * (bytes * Z * Z * option string) * (option Z * option Z * option bool * option (list ((Z * Z * Z) * (Z * option bytes * option bytes)))))
    : ParquetFileMeta :=
  match c with
  | ((a, b, d, e), (g, h, i, j), (k, l, m, n)) =>
      {| level := a; seq_min := b; seq_max := d; key_min := e; key_max := g; num_rows := h; file_size := i;
         fm_dv_path := j; fm_dv_offset := k; fm_dv_length := l;
         format := (fun b : bool => if b then Dual else Columnar) <$> m; column_stats := map codes_stats <$> n |}
  end.

#[export] Instance bits_footer : FooterCodec := {
  meta_to_json m := Some (string_of_list_byte (bits_of (countable.encode (meta_codes m))));
  json_meta j := codes_meta <$> countable.decode (of_bits (list_byte_of_string j));
  hex_encode := string_of_list_byte;
  hex_decode j := Some (list_byte_of_string j);
}.
#[export] Instance bits_footer_laws : FooterCodecLaws.
Proof.
  split; [by eexists| |].
  - intros m j [= <-]. cbn [json_meta bits_footer].
    rewrite list_byte_of_string_of_list_byte, of_bits_of, countable.decode_encode. cbn.
    destruct m as [? ? ? ? ? ? ? ? ? ? fmt stats]. cbn. do 2 f_equal; [by destruct fmt as [[]|]|].
    destruct stats as [stats|]; [|done]. cbn. f_equal. rewrite map_map. rewrite <- (map_id stats) at 2. apply map_ext. by intros [].
  - intros b. cbn [hex_decode hex_encode bits_footer]. by rewrite list_byte_of_string_of_list_byte.
Qed.

(** ** The footer: [footer.rs] *)
Definition FOOTER_KEY : string := "merutable.meta".
Definition SCHEMA_KEY : string := "merutable.schema".
Definition KV_INDEX_FOOTER_KEY : string := "merutable.kv_index.v1".

Definition encode_footer_kv `{!FooterCodec, !SchemaJson} (m : ParquetFileMeta) (s : TableSchema)
    : res (list (string * string)) :=
  meta_json ← ok_or (meta_to_json m) (Corruption "serialize");
  schema_json ← ok_or (schema_to_json s) (Parquet "serde_json");
  Ok [(FOOTER_KEY, meta_json); (SCHEMA_KEY, schema_json)].

Definition decode_footer_kv `{!FooterCodec, !SchemaJson} (kv : gmap string string)
    : res (ParquetFileMeta * TableSchema) :=
  meta_json ← ok_or (kv !! FOOTER_KEY) (Corruption "missing 'merutable.meta' in Parquet KV footer");
  schema_json ← ok_or (kv !! SCHEMA_KEY) (Corruption "missing 'merutable.schema' in Parquet KV footer");
  m ← ok_or (json_meta meta_json) (Corruption "failed to parse 'merutable.meta'");
  s ← ok_or (schema_from_json schema_json) (Corruption "failed to parse 'merutable.schema'");
  Ok (m, s).

(** Collecting pairs into a [HashMap]: pairs without a value are skipped and
    the last of two equal keys stays. *)
Definition kv_map (kv : option (list (string * option string))) : gmap string string :=
  list_to_map (rev (omap (fun e => v ← e.2; Some (e.1, v)) (default [] kv))).

(** [Result::ok()]. *)
Definition res_ok {A} (r : res A) : res (option A) :=
  match r with
  | Ok x => Ok (Some x)
  | Err _ => Ok None
  | Panic => Panic
  end.

(** An optional hex-encoded footer entry, dropped when it does not parse. *)
Definition footer_entry `{!FooterCodec} {A} (parse : bytes -> res A) (kv : gmap string string)
    (key : string) : res (option A) :=
  match h ← kv !! key; hex_decode h with
  | Some raw => res_ok (parse raw)
  | None => Ok None
  end.

Section reader.
Context (xxh3_64 : bytes -> Z) {F B : Type} `{!Arrow, !ParquetFile F, !RowSerde, !Roaring B}.

Record ParquetReader : Type := {
  pr_source : F;
  pr_schema : TableSchema;
  pr_meta : ParquetFileMeta;
  pr_bloom : option FastLocalBloom;
  pr_kv_index : option KvSparseIndex;
}.

Definition open_metadata (source : F) : res PqMetadata := ok_or (pq_open source) (Parquet "open").

Definition open `{!FooterCodec, !SchemaJson} (source : F) (s : TableSchema) : res ParquetReader :=
  file_meta ← open_metadata source;
  let kv := kv_map (pm_key_values file_meta) in
  '(m, _) ← decode_footer_kv kv;
  bloom ← footer_entry bloom_from_bytes kv "merutable.bloom";
  kv_index ← footer_entry kv_from_bytes kv KV_INDEX_FOOTER_KEY;
  Ok {| pr_source := source; pr_schema := s; pr_meta := m; pr_bloom := bloom;
        pr_kv_index := kv_index |}.

(** ** Pages *)
Fixpoint locate_group (nums : list Z) (rg_idx : nat) (cum first : Z)
    : res (option (nat * Z * Z)) :=
  match nums with
  | [] => Ok None
  | n :: nums =>
      if n <? 0 then Err (Corruption "negative num_rows in row group")
      else
        let rg_end := cum + n in
        if (cum <=? first) && (first <? rg_end) then Ok (Some (rg_idx, cum, rg_end))
        else locate_group nums (S rg_idx) rg_end first
  end.

(** The row group of a page, the rows to skip in it and the rows to read; the
    unsigned subtraction panics when the next page starts before this one. *)
Definition page_span (nums : list Z) (loc : PageLocation) (next_first_row : option Z)
    : res (nat * nat * nat) :=
  found ← locate_group nums 0 0 (first_row_index loc);
  match found with
  | None => Err (Parquet "kv_index page first_row_index out of range for file row count")
  | Some (rg_idx, rg_start, rg_end) =>
      let upper := match next_first_row with
                   | Some n => if n <=? rg_end then n else rg_end
                   | None => rg_end
                   end in
      if upper <? first_row_index loc then Panic
      else Ok (rg_idx, Z.to_nat (first_row_index loc - rg_start),
               Z.to_nat (upper - first_row_index loc))
  end.

(** ** Projections *)
Fixpoint find_leaf_opt (leaves : list string) (n : string) : option nat :=
  match leaves with
  | [] => None
  | l :: leaves => if bool_decide (l = n) then Some 0%nat else S <$> find_leaf_opt leaves n
  end.

Definition find_leaf (leaves : list string) (n : string) : res nat :=
  ok_or (find_leaf_opt leaves n) (Corruption "column not found in Parquet schema").

Definition ikey_only_projection_mask (leaves : list string) : res (list nat) :=
  leaf ← find_leaf leaves IKEY_COLUMN_NAME; Ok [leaf].

Definition file_format (m : ParquetFileMeta) : FileFormat :=
  default (default_for_level (level m)) (format m).

Definition build_projection_mask (rd : ParquetReader) (leaves : list string) : res (list nat) :=
  ikey_leaf ← find_leaf leaves IKEY_COLUMN_NAME;
  if has_value_blob (file_format (pr_meta rd)) then
    blob_leaf ← find_leaf leaves VALUE_BLOB_COLUMN_NAME; Ok [ikey_leaf; blob_leaf]
  else Ok (ikey_leaf :: omap (fun c => find_leaf_opt leaves (name c)) (columns (pr_schema rd))).

(** The loop over the batches of a reader. *)
Fixpoint decode_batches {X} (decode_batch : RecordBatch -> res (list X)) (batches : list (option RecordBatch))
    : res (list X) :=
  match batches with
  | [] => Ok []
  | b :: batches =>
      batch ← ok_or b (Parquet "record batch");
      decoded ← decode_batch batch;
      rest ← decode_batches decode_batch batches;
      Ok (decoded ++ rest)
  end.

Definition read_batches {X} (decode_batch : RecordBatch -> res (list X)) (source : F)
    (sel : option (nat * nat * nat)) (mask : list nat) : res (list X) :=
  batches ← ok_or (pq_read source sel mask) (Parquet "build");
  decode_batches decode_batch batches.

Definition read_all_rows (rd : ParquetReader) : res (list (InternalKey * Row)) :=
  m ← open_metadata (pr_source rd);
  mask ← build_projection_mask rd (pm_leaves m);
  read_batches (fun b => record_batch_to_rows b (pr_schema rd)) (pr_source rd) None mask.

Definition read_rows_in_page (rd : ParquetReader) (loc : PageLocation) (next_first_row : option Z)
    : res (list (InternalKey * Row)) :=
  m ← open_metadata (pr_source rd);
  '(rg_idx, intra_rg_offset, page_row_count) ← page_span (pm_num_rows m) loc next_first_row;
  mask ← build_projection_mask rd (pm_leaves m);
  if (page_row_count =? 0)%nat then Ok []
  else read_batches (fun b => record_batch_to_rows b (pr_schema rd)) (pr_source rd)
         (Some (rg_idx, intra_rg_offset, page_row_count)) mask.

(** Pairs each element with its position from [pos] on. *)
Fixpoint number {A} (pos : Z) (l : list A) : list (A * Z) :=
  match l with
  | [] => []
  | x :: l => (x, pos) :: number (pos + 1) l
  end.

Definition read_ikeys_in_page (rd : ParquetReader) (loc : PageLocation) (next_first_row : option Z)
    : res (list (InternalKey * Z)) :=
  m ← open_metadata (pr_source rd);
  '(rg_idx, intra_rg_offset, page_row_count) ← page_span (pm_num_rows m) loc next_first_row;
  mask ← ikey_only_projection_mask (pm_leaves m);
  if (page_row_count =? 0)%nat then Ok []
  else
    iks ← read_batches (fun b => record_batch_to_ikeys b (pr_schema rd)) (pr_source rd)
            (Some (rg_idx, intra_rg_offset, page_row_count)) mask;
    Ok (number (first_row_index loc) iks).

Definition read_all_ikeys (rd : ParquetReader) : res (list (InternalKey * Z)) :=
  m ← open_metadata (pr_source rd);
  mask ← ikey_only_projection_mask (pm_leaves m);
  iks ← read_batches (fun b => record_batch_to_ikeys b (pr_schema rd)) (pr_source rd) None mask;
  Ok (number 0 iks).

(** ** Point lookup *)

(** Positions beyond [u32::MAX] cannot be in a bitmap. *)
Definition row_deleted (deleted_rows : option B) (pos : Z) : bool :=
  match deleted_rows with
  | Some dv => (pos <=? u32_max) && rb_contains pos dv
  | None => false
  end.

Fixpoint find_visible (rows : list (InternalKey * Row)) (global_pos : Z) (uk : bytes)
    (read_seq : SeqNum) (deleted_rows : option B) : option (InternalKey * Row) :=
  match rows with
  | [] => None
  | (ik, row) :: rows =>
      if row_deleted deleted_rows global_pos then
        find_visible rows (global_pos + 1) uk read_seq deleted_rows
      else if negb (bytes_eqb (user_key_bytes ik) uk) then
        find_visible rows (global_pos + 1) uk read_seq deleted_rows
      else if read_seq <? seq ik then
        find_visible rows (global_pos + 1) uk read_seq deleted_rows
      else Some (ik, row)
  end.

Definition full_scan (rd : ParquetReader) (uk : bytes) (read_seq : SeqNum)
    (deleted_rows : option B) : res (option (InternalKey * Row)) :=
  rows ← read_all_rows rd;
  Ok (find_visible rows 0 uk read_seq deleted_rows).

Definition probe_key (uk : bytes) : bytes := uk ++ repeat bFF 9.

(** The page located by the sparse index; the whole file when the page has no
    visible version or may continue versions of the key from an earlier page. *)
Definition index_lookup (rd : ParquetReader) (idx : KvSparseIndex) (uk : bytes)
    (read_seq : SeqNum) (deleted_rows : option B) : res (option (InternalKey * Row)) :=
  matched ← find_page_with_next idx (probe_key uk);
  match matched with
  | None => full_scan rd uk read_seq deleted_rows
  | Some (page_loc, next_first_row) =>
      let global_start := first_row_index page_loc in
      rows ← read_rows_in_page rd page_loc next_first_row;
      let may_have_earlier :=
        (0 <? global_start) &&
        match rows with
        | (ik, _) :: _ => bytes_eqb (user_key_bytes ik) uk
        | [] => false
        end in
      match find_visible rows global_start uk read_seq deleted_rows with
      | Some hit =>
          if may_have_earlier then full_scan rd uk read_seq deleted_rows else Ok (Some hit)
      | None => full_scan rd uk read_seq deleted_rows
      end
  end.

Definition get (rd : ParquetReader) (uk : bytes) (read_seq : SeqNum) (deleted_rows : option B)
    : res (option (InternalKey * Row)) :=
  present ← match pr_bloom rd with
            | Some bloom => may_contain xxh3_64 uk bloom
            | None => Ok true
            end;
  if negb present then Ok None
  else if negb (bytes_eqb (key_min (pr_meta rd)) []) && bytes_ltb uk (key_min (pr_meta rd)) then Ok None
  else if negb (bytes_eqb (key_max (pr_meta rd)) []) && bytes_ltb (key_max (pr_meta rd)) uk then Ok None
  else
    match pr_kv_index rd with
    | None => full_scan rd uk read_seq deleted_rows
    | Some idx => index_lookup rd idx uk read_seq deleted_rows
    end.

(** ** Scans

    The loop of [pr_scan]: [break] at the end of the range, one row per key. *)
Fixpoint scan_loop (rows : list (InternalKey * Row)) (global_pos : Z)
    (start_user_key end_user_key : option bytes) (read_seq : SeqNum) (deleted_rows : option B)
    (last_uk : option bytes) : list (InternalKey * Row) :=
  match rows with
  | [] => []
  | (ik, row) :: rows =>
      let continue := scan_loop rows (global_pos + 1) start_user_key end_user_key read_seq deleted_rows in
      if row_deleted deleted_rows global_pos then continue last_uk
      else if read_seq <? seq ik then continue last_uk
      else
        let uk := user_key_bytes ik in
        if match start_user_key with Some start => bytes_ltb uk start | None => false end
        then continue last_uk
        else if match end_user_key with Some e => bytes_leb e uk | None => false end then []
        else if bool_decide (last_uk = Some uk) then continue last_uk
        else (ik, row) :: continue (Some uk)
  end.

Definition pr_scan (rd : ParquetReader) (start_user_key end_user_key : option bytes)
    (read_seq : SeqNum) (deleted_rows : option B) : res (list (InternalKey * Row)) :=
  rows ← read_all_rows rd;
  Ok (scan_loop rows 0 start_user_key end_user_key read_seq deleted_rows None).

(** ** Physical rows, for compaction *)
Fixpoint physical_rows (rows : list (InternalKey * Row)) (pos : Z) (deleted_rows : option B)
    : res (list (InternalKey * Row * Z)) :=
  match rows with
  | [] => Ok []
  | (ik, row) :: rows =>
      if u32_max <? pos then Err (Parquet "row position exceeds u32::MAX in Parquet file")
      else
        rest ← physical_rows rows (pos + 1) deleted_rows;
        Ok (if match deleted_rows with Some dv => rb_contains pos dv | None => false end
            then rest else (ik, row, pos) :: rest)
  end.

Definition read_physical_rows_with_positions (rd : ParquetReader) (deleted_rows : option B)
    : res (list (InternalKey * Row * Z)) :=
  rows ← read_all_rows rd; physical_rows rows 0 deleted_rows.

(** ** The stream of user keys of a range *)
Definition ikey_user_key_prefix (ik : bytes) : bytes :=
  if (length ik <? 8)%nat then ik else take (length ik - 8) ik.

Fixpoint candidate_pages (entries : list (bytes * PageLocation)) (lo hi : bytes)
    : list (PageLocation * option Z) :=
  match entries with
  | [] => []
  | (entry_key, page_loc) :: rest =>
      if bytes_ltb hi (ikey_user_key_prefix entry_key) then []
      else
        let next_first_row := match rest with
                              | (_, loc) :: _ => Some (first_row_index loc)
                              | [] => None
                              end in
        let skip := match rest with
                    | (next_key, _) :: _ => bytes_leb (ikey_user_key_prefix next_key) lo
                    | [] => false
                    end in
        if skip then candidate_pages rest lo hi
        else (page_loc, next_first_row) :: candidate_pages rest lo hi
  end.

Definition in_range (lo hi : bytes) (x : InternalKey * Z) : bool :=
  bytes_leb lo (user_key_bytes x.1) && bytes_leb (user_key_bytes x.1) hi.

Definition range_items (lo hi : bytes) (rows : list (InternalKey * Z)) : list (bytes * Z) :=
  map (fun x => (user_key_bytes x.1, x.2)) (List.filter (in_range lo hi) rows).

(** What [next()] yields for one batch of decoded keys: its items in the
    range, or the error. *)
Definition yielded (lo hi : bytes) (r : res (list (InternalKey * Z))) : list (res (bytes * Z)) :=
  match r with
  | Ok rows => map Ok (range_items lo hi rows)
  | Err e => [Err e]
  | Panic => [Panic]
  end.

(** The whole stream of [RangeKeyIter::next]; pages are read when reached. *)
Definition iter_user_keys_in_range (rd : ParquetReader) (lo hi : bytes)
    : res (list (res (bytes * Z))) :=
  let m := pr_meta rd in
  if (negb (bytes_eqb (key_min m) []) && bytes_ltb hi (key_min m))
     || (negb (bytes_eqb (key_max m) []) && bytes_ltb (key_max m) lo)
     || bytes_ltb hi lo then Ok []
  else
    match pr_kv_index rd with
    | None => Ok (yielded lo hi (read_all_ikeys rd))
    | Some idx =>
        entries ← iter idx;
        Ok (concat (map (fun '(loc, next) => yielded lo hi (read_ikeys_in_page rd loc next))
                      (candidate_pages entries lo hi)))
    end.
End reader.
Arguments ParquetReader F : clear implicits.

(** ** Files as the writer lays them out *)
Definition row_version (x : InternalKey * Row) : VersionOf (InternalKey * Row) :=
  {| v_key := user_key_bytes x.1; v_seq := seq x.1; v_op := op_type x.1; v_val := x |}.

(** The versions a file shows through a deletion vector. *)
Fixpoint live_versions {B} `{!Roaring B} (rows : list (InternalKey * Row)) (pos : Z) (dv : option B)
    : list (VersionOf (InternalKey * Row)) :=
  match rows with
  | [] => []
  | x :: rows =>
      (if row_deleted dv pos then [] else [row_version x]) ++ live_versions rows (pos + 1) dv
  end.

Section file.
Context (xxh3_64 : bytes -> Z) {F B : Type} `{AR : !Arrow, PF : !ParquetFile F, RS : !RowSerde, RB : !Roaring B}.
Context (K : bytes -> Prop) (K_pf : prefix_free K).
Implicit Types (rd : ParquetReader F) (rows : list (InternalKey * Row)) (dv : option B).

Definition rows_of rd : list (InternalKey * Row) :=
  match read_all_rows rd with Ok rows => rows | _ => [] end.

(** The file's row groups are [gs]: whole or in part, as rows or as keys, that
    is what reading returns. *)
Definition Holds rd (gs : list (list (InternalKey * Row))) : Prop :=
  exists m mask kmask, pq_open (pr_source rd) = Some m /\
    pm_num_rows m = map (fun g => Z.of_nat (length g)) gs /\
    build_projection_mask rd (pm_leaves m) = Ok mask /\ ikey_only_projection_mask (pm_leaves m) = Ok kmask /\
    forall sel, sel_ok sel gs ->
      read_batches (fun b => record_batch_to_rows b (pr_schema rd)) (pr_source rd) sel mask = Ok (selected sel gs) /\
      read_batches (fun b => record_batch_to_ikeys b (pr_schema rd)) (pr_source rd) sel kmask = Ok (map fst (selected sel gs)).

Lemma holds_all rd gs : Holds rd gs -> read_all_rows rd = Ok (concat gs) /\ rows_of rd = concat gs.
Proof.
  intros (m & mask & kmask & Hm & _ & Hmask & _ & Hr). unfold rows_of, read_all_rows, open_metadata.
  rewrite Hm. cbn [ok_or]. rewrite Ok_bind, Hmask, Ok_bind. by destruct (Hr None I) as [-> _].
Qed.

(** An index entry per page: the encoded key of its first row, in order. *)
Definition pages_ok rows (es : list (bytes * PageLocation)) : Prop :=
  StronglySorted Z.lt (map (fun e => first_row_index e.2) es) /\
  Forall (fun e => 0 <= first_row_index e.2 /\
    exists x, rows !! Z.to_nat (first_row_index e.2) = Some x /\ e.1 = encoded x.1) es.

Record FileOk rd : Prop := {
  fo_holds : exists gs, Holds rd gs;
  fo_keys : Forall (fun x => key_wf K x.1) (rows_of rd);
  fo_sorted : StronglySorted v_lt (map row_version (rows_of rd));
  fo_bloom : match pr_bloom rd with
             | None => True
             | Some bl => forall k, exists b, may_contain xxh3_64 k bl = Ok b /\
                 (Exists (fun x => user_key_bytes x.1 = k) (rows_of rd) -> b = true)
             end;
  fo_min : Forall (fun x => key_min (pr_meta rd) = [] \/
             ~ bytes_lt (user_key_bytes x.1) (key_min (pr_meta rd))) (rows_of rd);
  fo_max : Forall (fun x => key_max (pr_meta rd) = [] \/
             ~ bytes_lt (key_max (pr_meta rd)) (user_key_bytes x.1)) (rows_of rd);
  fo_index : match pr_kv_index rd with
             | None => True
             | Some idx => exists raw, Valid idx raw /\ pages_ok (rows_of rd) (KvIndex.keys [] raw)
             end;
}.

(** ** Range scans *)
Lemma live_versions_in rows pos dv v :
  v ∈ live_versions rows pos dv -> exists x, x ∈ rows /\ v = row_version x.
Proof.
  revert pos. induction rows as [|x rows IH]; intros pos; [by intros ?%elem_of_nil|].
  cbn [live_versions]. intros [H|H]%elem_of_app.
  - destruct (row_deleted dv pos); [by apply elem_of_nil in H|].
    apply elem_of_cons in H as [->|H%elem_of_nil]; [|done]. exists x. split; [by left|done].
  - destruct (IH _ H) as (y & Hy & ->). exists y. split; [by right|done].
Qed.

Lemma scan_loop_spec rows pos start end_ r dv last :
  key_sorted_weak (map row_version rows) ->
  scan_loop rows pos start end_ r dv last
  = map v_val (firsts last (List.filter (scanned start end_ r) (live_versions rows pos dv))).
Proof.
  revert pos last. induction rows as [|[ik row] rows IH]; intros pos last Hs; [done|].
  apply StronglySorted_inv in Hs as [Hs Hx]. cbn [scan_loop live_versions].
  destruct (row_deleted dv pos); cbn [app]; [by apply IH|].
  unfold scanned at 1. cbn [List.filter row_version v_seq v_key fst].
  destruct (Z.ltb_spec r (seq ik)), (Z.leb_spec (seq ik) r); try lia; cbn [andb]; [by apply IH|].
  unfold in_bounds.
  destruct (match start with Some a => bytes_ltb (user_key_bytes ik) a | None => false end) eqn:Ea.
  { destruct start as [a|]; [|done]. rewrite Ea. cbn [negb andb]. by apply IH. }
  assert (match start with Some a => negb (bytes_ltb (user_key_bytes ik) a) | None => true end = true) as ->
    by (destruct start; [by rewrite Ea|done]).
  cbn [andb].
  destruct (match end_ with Some e => bytes_leb e (user_key_bytes ik) | None => false end) eqn:Eb.
  - destruct end_ as [e|]; [|done]. rewrite bytes_leb_negb in Eb. apply negb_true_iff in Eb as Eb'. rewrite Eb'.
    rewrite filter_all_false; [done|].
    intros v Hv. destruct (live_versions_in _ _ _ _ Hv) as (y & Hy & ->).
    pose proof (proj1 (List.Forall_forall _ _) Hx (row_version y) (in_map _ _ _ (proj1 (list_elem_of_In _ _) Hy))) as Hk.
    cbn [row_version v_key fst] in Hk. unfold scanned, in_bounds. cbn [row_version v_key].
    apply andb_false_intro2, andb_false_intro2.
    destruct (bytes_ltb (user_key_bytes y.1) e) eqn:El; [|done]. exfalso. apply Hk.
    apply bytes_ltb_spec in El. rewrite <- bytes_leb_negb, bytes_leb_spec in Eb. by eapply bytes_lt_nlt_trans.
  - assert (match end_ with Some b => bytes_ltb (user_key_bytes ik) b | None => true end = true) as ->.
    { destruct end_ as [e|]; [|done]. rewrite bytes_leb_negb in Eb. by apply negb_false_iff in Eb. }
    cbn [firsts]. change (v_key (row_version (ik, row))) with (user_key_bytes ik).
    case_bool_decide; [by apply IH|]. cbn [map v_val]. f_equal. by apply IH.
Qed.

(** ** The full scan *)
Lemma find_visible_app rows1 rows2 pos uk r dv :
  find_visible (rows1 ++ rows2) pos uk r dv
  = match find_visible rows1 pos uk r dv with
    | Some x => Some x
    | None => find_visible rows2 (pos + Z.of_nat (length rows1)) uk r dv
    end.
Proof.
  revert pos. induction rows1 as [|[ik row] rows1 IH]; intros pos; cbn [app find_visible length].
  { by rewrite Z.add_0_r. }
  replace (pos + Z.of_nat (S (length rows1))) with (pos + 1 + Z.of_nat (length rows1)) by lia.
  destruct (row_deleted dv pos); [apply IH|]. destruct (negb _); [apply IH|].
  destruct (r <? seq ik); [apply IH|done].
Qed.

Lemma find_visible_absent rows pos uk r dv :
  Forall (fun x => user_key_bytes x.1 <> uk) rows -> find_visible rows pos uk r dv = None.
Proof.
  intros H. revert pos. induction H as [|[ik row] rows Hx _ IH]; intros pos; [done|]. cbn [find_visible].
  destruct (row_deleted dv pos); [apply IH|].
  destruct (bytes_eqb (user_key_bytes ik) uk) eqn:E; [|apply IH].
  apply bytes_eqb_spec in E. done.
Qed.

Lemma find_visible_find rows pos uk r dv :
  find_visible rows pos uk r dv = v_val <$> List.find (visible uk r) (live_versions rows pos dv).
Proof.
  revert pos. induction rows as [|[ik row] rows IH]; intros pos; [done|].
  cbn [find_visible live_versions]. destruct (row_deleted dv pos); [apply IH|].
  cbn [app List.find]. unfold visible at 1. cbn [row_version v_key v_seq fst].
  destruct (bytes_eqb (user_key_bytes ik) uk); [|apply IH]. cbn [negb andb].
  destruct (Z.ltb_spec r (seq ik)), (Z.leb_spec (seq ik) r); try lia; [apply IH|done].
Qed.

Lemma live_versions_sorted rows pos dv :
  StronglySorted v_lt (map row_version rows) -> Forall (fun x => key_wf K x.1) rows ->
  StronglySorted v_lt (live_versions rows pos dv) /\ Forall (v_ok K) (live_versions rows pos dv) /\
  (forall v, v ∈ live_versions rows pos dv -> exists x, x ∈ rows /\ v = row_version x).
Proof.
  revert pos. induction rows as [|x rows IH]; intros pos Hs Hk.
  { split_and!; [constructor|constructor|]. by intros v ?%elem_of_nil. }
  apply StronglySorted_inv in Hs as [Hs Hx]. apply Forall_cons in Hk as [Hk0 Hk].
  destruct (IH (pos + 1) Hs Hk) as (I1 & I2 & I3). cbn [live_versions].
  assert (Hin : forall v, v ∈ live_versions rows (pos + 1) dv -> exists x0, x0 ∈ x :: rows /\ v = row_version x0).
  { intros v Hv. destruct (I3 v Hv) as (y & Hy & ->). exists y. split; [by right|done]. }
  destruct (row_deleted dv pos); [done|]. cbn [app]. split_and!.
  - constructor; [done|]. apply Forall_forall. intros v Hv. destruct (I3 v Hv) as (y & Hy & ->).
    apply (proj1 (List.Forall_forall _ _) Hx), in_map, list_elem_of_In. done.
  - constructor; [|done]. destruct Hk0 as (? & ? & _). by split.
  - intros v [->|Hv]%elem_of_cons; [|by apply Hin]. exists x. split; [by left|done].
Qed.

Lemma find_visible_newest rd uk r dv :
  FileOk rd -> find_visible (rows_of rd) 0 uk r dv = v_val <$> newest (live_versions (rows_of rd) 0 dv) uk r.
Proof.
  intros H. destruct (live_versions_sorted (rows_of rd) 0 dv (fo_sorted _ H) (fo_keys _ H)) as (H1 & H2 & _).
  rewrite (newest_sorted K K_pf _ uk r H1 H2). apply find_visible_find.
Qed.

(** ** The page the index points at *)
Lemma locate_group_spec gs first rg cum :
  Z.of_nat cum <= first < Z.of_nat (cum + length (concat gs)) ->
  exists i g start, gs !! i = Some g /\
    locate_group (map (fun g : list (InternalKey * Row) => Z.of_nat (length g)) gs) rg (Z.of_nat cum) first
    = Ok (Some ((rg + i)%nat, Z.of_nat start, Z.of_nat (start + length g))) /\
    (cum <= start)%nat /\ Z.of_nat start <= first < Z.of_nat (start + length g) /\
    drop (start - cum) (concat gs) = g ++ drop (start - cum + length g) (concat gs).
Proof.
  revert rg cum. induction gs as [|g gs IH]; intros rg cum Hf; cbn [concat length map locate_group] in *; [lia|].
  rewrite length_app in Hf. destruct (Z.ltb_spec (Z.of_nat (length g)) 0); [lia|].
  destruct (Z.leb_spec (Z.of_nat cum) first); [|lia]. cbn [andb].
  destruct (Z.ltb_spec first (Z.of_nat cum + Z.of_nat (length g))) as [Hin|Hout].
  - exists 0%nat, g, cum. rewrite Nat.add_0_r, Nat.sub_diag, Nat.add_0_l, drop_0, drop_app_length.
    split_and!; [done| |lia..|done]. do 4 f_equal. lia.
  - replace (Z.of_nat cum + Z.of_nat (length g)) with (Z.of_nat (cum + length g)) in * by lia.
    destruct (IH (S rg) (cum + length g)%nat) as (i & g' & start & Hi & E & Hs & Hb & Hd); [lia|].
    exists (S i), g', start. split; [done|]. rewrite E. replace (S rg + i)%nat with (rg + S i)%nat by lia.
    split; [done|]. split; [lia|]. split; [done|].
    replace (start - cum)%nat with (length g + (start - (cum + length g)))%nat by lia.
    replace (length g + (start - (cum + length g)) + length g')%nat
      with (length g + (start - (cum + length g) + length g'))%nat by lia.
    rewrite <- !drop_drop, !drop_app_length, drop_drop. exact Hd.
Qed.

(** A page's rows are rows of the file from its first row on. *)
Lemma read_page rd loc next :
  let first := Z.to_nat (first_row_index loc) in
  0 <= first_row_index loc -> (first < length (rows_of rd))%nat ->
  match next with Some n => first_row_index loc < n | None => True end ->
  (exists gs, Holds rd gs) ->
  exists n, (0 < n)%nat /\
    read_rows_in_page rd loc next = Ok (take n (drop first (rows_of rd))) /\
    read_ikeys_in_page rd loc next
      = Ok (number (first_row_index loc) (map fst (take n (drop first (rows_of rd))))) /\
    (first + n <= length (rows_of rd))%nat /\
    (forall m, next = Some m -> first_row_index loc + Z.of_nat n <= m).
Proof.
  intros first H0 Hf Hn [gs HG]. destruct (holds_all rd gs HG) as [_ Hrows0]. rewrite Hrows0 in *. clear Hrows0.
  destruct HG as (m & mask & kmask & Hm & Hnum & Hmask & Hkmask & Hread).
  destruct (locate_group_spec gs (first_row_index loc) 0 0) as (i & g & start & Hg & El & _ & Hb & Hd); [lia|].
  rewrite Nat.sub_0_r, Nat.add_0_l in *. change (Z.of_nat 0) with 0 in El.
  set (upper := match next with
                | Some n => if n <=? Z.of_nat (start + length g) then n else Z.of_nat (start + length g)
                | None => Z.of_nat (start + length g) end).
  assert (Hu : first_row_index loc < upper <= Z.of_nat (start + length g)).
  { unfold upper. destruct next as [nx|]; [|lia].
    destruct (Z.leb_spec nx (Z.of_nat (start + length g))); lia. }
  set (n := Z.to_nat (upper - first_row_index loc)).
  assert (Hsp : page_span (pm_num_rows m) loc next = Ok (i, (first - start)%nat, n)).
  { unfold page_span. rewrite Hnum, El, Ok_bind. cbn iota zeta. fold upper.
    destruct (Z.ltb_spec upper (first_row_index loc)); [lia|]. do 3 f_equal. lia. }
  assert (Hrows : take n (drop (first - start) g) = take n (drop first (concat gs))).
  { replace first with (start + (first - start))%nat at 2 by lia. rewrite <- drop_drop, Hd.
    rewrite drop_app_le by lia. rewrite take_app_le; [done|]. rewrite length_drop. lia. }
  assert (Hlen : (start + length g <= length (concat gs))%nat).
  { apply (f_equal length) in Hd. rewrite length_app, !length_drop in Hd. lia. }
  exists n. split; [lia|]. unfold read_rows_in_page, read_ikeys_in_page, open_metadata.
  rewrite Hm. cbn [ok_or]. rewrite !Ok_bind, Hsp, !Ok_bind, Hmask, Hkmask, !Ok_bind.
  destruct (Nat.eqb_spec n 0); [lia|].
  destruct (Hread (Some (i, (first - start)%nat, n))) as [-> ->]; [exists g; split_and!; [done|lia..]|].
  cbn [selected]. rewrite Hg, Ok_bind, Hrows. split; [done|]. split; [done|]. split; [lia|].
  intros nx ->. unfold n, upper. destruct (Z.leb_spec nx (Z.of_nat (start + length g))); lia.
Qed.

(** ** Order of the rows and of the index *)
Lemma rows_lt rd i j x y :
  FileOk rd -> rows_of rd !! i = Some x -> rows_of rd !! j = Some y -> (i < j)%nat ->
  v_lt (row_version x) (row_version y) /\ bytes_lt (encoded x.1) (encoded y.1).
Proof.
  intros H Hx Hy Hij.
  assert (L : v_lt (row_version x) (row_version y)).
  { apply (StronglySorted_lookup v_lt (map row_version (rows_of rd)) i j); [apply (fo_sorted _ H)|done|..];
      by rewrite list_lookup_fmap, ?Hx, ?Hy. }
  split; [done|]. pose proof (fo_keys _ H) as HK. rewrite Forall_forall in HK.
  destruct (HK x (list_elem_of_lookup_2 _ _ _ Hx)) as (_ & _ & ->).
  destruct (HK y (list_elem_of_lookup_2 _ _ _ Hy)) as (_ & _ & ->). exact L.
Qed.

Lemma pages_lookup rd es i j e f :
  FileOk rd -> pages_ok (rows_of rd) es -> es !! i = Some e -> es !! j = Some f -> (i < j)%nat ->
  first_row_index e.2 < first_row_index f.2 /\ bytes_lt e.1 f.1.
Proof.
  intros H [Hs HF] He Hf Hij.
  assert (L : first_row_index e.2 < first_row_index f.2).
  { apply (StronglySorted_lookup Z.lt (map (fun e => first_row_index e.2) es) i j); [done|done|..];
      by rewrite list_lookup_fmap, ?He, ?Hf. }
  split; [done|]. rewrite Forall_forall in HF.
  destruct (HF e (list_elem_of_lookup_2 _ _ _ He)) as (H0 & x & Hx & ->).
  destruct (HF f (list_elem_of_lookup_2 _ _ _ Hf)) as (_ & y & Hy & ->).
  eapply (rows_lt rd); [done..|lia].
Qed.

Lemma pages_sorted rd es : FileOk rd -> pages_ok (rows_of rd) es -> key_sorted es.
Proof.
  intros H HP. unfold key_sorted. apply StronglySorted_of_lookup. intros i j k1 k2 Hij H1 H2.
  rewrite list_lookup_fmap in H1, H2.
  destruct (es !! i) as [e|] eqn:E1; [|done]. destruct (es !! j) as [f|] eqn:E2; [|done]. simplify_eq/=.
  eapply pages_lookup; eauto.
Qed.

Lemma page_of_spec rd es target loc next :
  FileOk rd -> pages_ok (rows_of rd) es -> page_of target es = Some (loc, next) ->
  exists k, (k, loc) ∈ es /\ ~ bytes_lt target k /\
    match next with Some m => first_row_index loc < m | None => True end.
Proof.
  intros H HP Hp. unfold page_of in Hp.
  destruct (last (filter (fun e : bytes * PageLocation => ~ bytes_lt target e.1) es)) as [[k l]|] eqn:El; [|done].
  apply last_Some_elem_of, list_elem_of_filter in El as [Hk Hin]. cbn in *. simplify_eq.
  exists k. split; [done|]. split; [done|].
  destruct (head _) as [[k' l']|] eqn:Eh; [|done]. cbn.
  assert (Hf : (k', l') ∈ filter (fun e : bytes * PageLocation => bytes_lt target e.1) es).
  { destruct (filter _ es) as [|a t]; [done|]. cbn in Eh. simplify_eq. by left. }
  apply list_elem_of_filter in Hf as [Hk' Hin']. cbn in Hk'.
  apply list_elem_of_lookup in Hin as [i Hi], Hin' as [j Hj].
  destruct (lt_eq_lt_dec i j) as [[Hlt| ->]|Hgt].
  - by apply (pages_lookup rd es i j (k, loc) (k', l') H HP Hi Hj).
  - rewrite Hi in Hj. by simplify_eq.
  - destruct (pages_lookup rd es j i (k', l') (k, loc) H HP Hj Hi Hgt) as [_ Hc]. cbn in Hc.
    exfalso. apply Hk. by apply (bytes_lt_trans _ k').
Qed.

(** No row before the page has the key, unless the page starts with it. *)
Lemma nothing_before rd uk first x :
  FileOk rd -> K uk -> rows_of rd !! first = Some x -> user_key_bytes x.1 <> uk ->
  ~ bytes_lt (probe_key uk) (encoded x.1) ->
  Forall (fun y => user_key_bytes y.1 <> uk) (take first (rows_of rd)).
Proof.
  intros H Huk Hx Hne Hp. apply Forall_forall. intros y Hy Ey.
  apply list_elem_of_lookup in Hy as [j Hj]. apply lookup_take_Some in Hj as [Hj Hlt].
  destruct (rows_lt rd j first y x H Hj Hx Hlt) as [L _].
  pose proof (fo_keys _ H) as HK. rewrite Forall_forall in HK.
  destruct (HK x (list_elem_of_lookup_2 _ _ _ Hx)) as (Kx & Sx & Ex).
  destruct (HK y (list_elem_of_lookup_2 _ _ _ Hj)) as (Ky & Sy & _).
  apply (v_lt_iff K K_pf) in L as [L|[E _]]; cbn in *; [|congruence|by split..].
  apply Hp. unfold probe_key, bytes_lt. rewrite Ex.
  rewrite bytes_cmp_prefix_free by (intros u1 u2; by apply K_pf).
  rewrite Ey in L. unfold bytes_lt in L. by rewrite L.
Qed.

Lemma page_hit rd uk first n x r dv hit :
  FileOk rd -> K uk -> rows_of rd !! first = Some x -> (first + n <= length (rows_of rd))%nat ->
  (first = 0%nat \/ user_key_bytes x.1 <> uk) -> ~ bytes_lt (probe_key uk) (encoded x.1) ->
  find_visible (take n (drop first (rows_of rd))) (Z.of_nat first) uk r dv = Some hit ->
  find_visible (rows_of rd) 0 uk r dv = Some hit.
Proof.
  intros H Huk Hx Hn Hc Hp Hhit.
  rewrite <- (take_drop first (rows_of rd)), find_visible_app.
  rewrite find_visible_absent.
  - rewrite length_take, Nat.min_l by (apply lookup_lt_Some in Hx; lia). rewrite Z.add_0_l.
    rewrite <- (take_drop n (drop first (rows_of rd))), find_visible_app. by rewrite Hhit.
  - destruct Hc as [->|Hne]; [constructor|]. by eapply nothing_before.
Qed.

Lemma read_all_Ok rd : FileOk rd -> read_all_rows rd = Ok (rows_of rd).
Proof. intros [[gs Hg] _ _ _ _ _ _]. by destruct (holds_all rd gs Hg) as [-> ->]. Qed.

Lemma full_scan_Ok rd uk r dv : FileOk rd -> full_scan rd uk r dv = Ok (find_visible (rows_of rd) 0 uk r dv).
Proof. intros H. unfold full_scan. by rewrite read_all_Ok. Qed.

Lemma index_lookup_full_scan rd idx raw uk r dv :
  FileOk rd -> K uk -> Valid idx raw -> pages_ok (rows_of rd) (KvIndex.keys [] raw) ->
  index_lookup rd idx uk r dv = Ok (find_visible (rows_of rd) 0 uk r dv).
Proof.
  intros H Huk V HP. rewrite <- full_scan_Ok by done. unfold index_lookup.
  assert (Hfind : find_page_with_next idx (probe_key uk) = Ok (page_of (probe_key uk) (KvIndex.keys [] raw))).
  { destruct raw as [|r0 raw]; [|by apply find_page_of; [..|eapply pages_sorted]].
    unfold find_page_with_next. by rewrite (v_num _ _ V). }
  rewrite Hfind, Ok_bind. destruct (page_of _ _) as [[loc next]|] eqn:Ep; [|done].
  destruct (page_of_spec rd _ _ _ _ H HP Ep) as (k & Hin & Hle & Hnext).
  destruct HP as [_ HP]. rewrite Forall_forall in HP.
  destruct (HP _ Hin) as (H0 & x & Hx & Ek). cbn in H0, Hx, Ek. subst k.
  destruct (read_page rd loc next H0 (lookup_lt_Some _ _ _ Hx) Hnext (fo_holds _ H))
    as (n & Hn & -> & _ & Hbound & _). rewrite Ok_bind.
  assert (Ehd : take n (drop (Z.to_nat (first_row_index loc)) (rows_of rd))
                = x :: take (n - 1) (drop (S (Z.to_nat (first_row_index loc))) (rows_of rd))).
  { rewrite (drop_S _ _ _ Hx). destruct n; [lia|]. cbn. by rewrite Nat.sub_0_r. }
  set (page := take n (drop (Z.to_nat (first_row_index loc)) (rows_of rd))) in *.
  destruct (find_visible page (first_row_index loc) uk r dv) as [hit|] eqn:Ev; [|done].
  destruct (_ && _) eqn:Eg; [done|]. rewrite full_scan_Ok by done. f_equal. symmetry.
  eapply (page_hit rd uk (Z.to_nat (first_row_index loc)) n x);
    [done..| |done|by rewrite Z2Nat.id].
  rewrite Ehd in Eg. destruct x as [ik row]. apply andb_false_iff in Eg as [E|E].
  - left. apply Z.ltb_ge in E. lia.
  - right. intros E'. apply bytes_eqb_spec in E'. cbn in E'. congruence.
Qed.

Lemma bloom_gate rd uk r dv :
  FileOk rd ->
  exists b, match pr_bloom rd with Some bloom => may_contain xxh3_64 uk bloom | None => Ok true end = Ok b
    /\ (b = false -> find_visible (rows_of rd) 0 uk r dv = None).
Proof.
  intros H. pose proof (fo_bloom _ H) as HB. destruct (pr_bloom rd) as [bl|]; [|by exists true].
  destruct (HB uk) as (b & E & Hin). exists b. split; [done|]. intros ->.
  apply find_visible_absent. apply Forall_forall. intros x Hx Ex.
  enough (false = true) by done. apply Hin, Exists_exists. eauto.
Qed.

Lemma get_full_scan rd uk r dv :
  FileOk rd -> K uk -> get xxh3_64 rd uk r dv = Ok (find_visible (rows_of rd) 0 uk r dv).
Proof.
  intros H Huk. unfold get. destruct (bloom_gate rd uk r dv H) as (b & -> & Habs).
  rewrite Ok_bind. destruct b; [|by rewrite Habs]. cbn [negb]. clear Habs.
  destruct (negb (bytes_eqb (key_min (pr_meta rd)) []) && bytes_ltb uk (key_min (pr_meta rd))) eqn:Emin.
  { apply andb_true_iff in Emin as [E1 E2%bytes_ltb_spec]. rewrite find_visible_absent; [done|].
    eapply Forall_impl; [apply (fo_min _ H)|]. intros x [Hk|Hk] <-; [by rewrite Hk in E1|done]. }
  destruct (negb (bytes_eqb (key_max (pr_meta rd)) []) && bytes_ltb (key_max (pr_meta rd)) uk) eqn:Emax.
  { apply andb_true_iff in Emax as [E1 E2%bytes_ltb_spec]. rewrite find_visible_absent; [done|].
    eapply Forall_impl; [apply (fo_max _ H)|]. intros x [Hk|Hk] <-; [by rewrite Hk in E1|done]. }
  pose proof (fo_index _ H) as HI. destruct (pr_kv_index rd) as [idx|]; [|by apply full_scan_Ok].
  destruct HI as (raw & V & HP). by eapply index_lookup_full_scan.
Qed.
End file.

(** ** Reading what was written *)
Section written.
Context {F : Type} `{AR : !Arrow, ARL : !ArrowLaws, PF : !ParquetFile F, RS : !RowSerde, RSL : !RowSerdeLaws}.
Implicit Types (rd : ParquetReader F) (rows : list (InternalKey * Row)).

Lemma find_leaf_index fs n : find_leaf_opt (map f_name fs) n = index_of fs n.
Proof. induction fs as [|f fs IH]; [done|]. cbn. by rewrite IH. Qed.

(** [y] is how a reader with schema [s'] sees [x], written under [s]. *)
Definition read_back s s' fmt (x y : InternalKey * Row) : Prop :=
  decode (encoded x.1) s' = Ok y.1 /\ y.2 = stored_row s s' fmt x.2.

Lemma decode_batches_spec {X} (decode_batch : RecordBatch -> res (list X)) (P : list Field -> list cell -> X -> Prop) fs bs xs :
  (forall b ys, Forall2 (P (batch_schema b)) (batch_rows b) ys -> decode_batch b = Ok ys) ->
  Forall (fun b => batch_schema b = fs) bs -> Forall2 (P fs) (concat (map batch_rows bs)) xs ->
  decode_batches decode_batch (map Some bs) = Ok xs.
Proof.
  intros Hd Hfs. revert xs. induction Hfs as [|b bs Hb _ IH]; intros xs HF; cbn in *.
  { by apply Forall2_nil_inv_l in HF as ->. }
  apply Forall2_app_inv_l in HF as (ys & zs & Hy & Hz & ->).
  rewrite (Hd b ys) by (by rewrite Hb). rewrite Ok_bind, (IH zs Hz). done.
Qed.

Lemma selected_map {A A'} (g : A -> A') sel gs : selected sel (map (map g) gs) = map g (selected sel gs).
Proof.
  destruct sel as [[[rg skip] n]|]; cbn; [|by rewrite concat_map].
  rewrite list_lookup_fmap. destruct (gs !! rg) as [l|]; cbn; [|done].
  by rewrite <- (fmap_drop g), <- (fmap_take g).
Qed.

Lemma chunks_Forall2 {A A'} (P : A -> A' -> Prop) sizes l l' :
  Forall2 P l l' -> Forall2 (Forall2 P) (chunks sizes l) (chunks sizes l').
Proof.
  revert l l'. induction sizes as [|n sizes IH]; intros l l' HF; cbn; constructor.
  - by apply Forall2_take.
  - apply IH. by apply Forall2_drop.
Qed.

Lemma selected_Forall2 {A A'} (P : A -> A' -> Prop) sel gs gs' :
  Forall2 (Forall2 P) gs gs' -> sel_ok sel gs' -> Forall2 P (selected sel gs) (selected sel gs') /\ sel_ok sel gs.
Proof.
  intros HF. destruct sel as [[[rg skip] n]|]; cbn.
  - intros (g' & Hg' & Hn & Hl). destruct (Forall2_lookup_r _ _ _ _ _ HF Hg') as (g & Hg & HP). rewrite Hg, Hg'.
    split; [by apply Forall2_take, Forall2_drop|]. exists g. rewrite (Forall2_length _ _ _ HP). done.
  - intros _. split; [|done]. induction HF; cbn; [constructor|]. by apply Forall2_app.
Qed.

Lemma sel_ok_map {A A'} (g : A -> A') sel gs : sel_ok sel gs -> sel_ok sel (map (map g) gs).
Proof.
  destruct sel as [[[rg skip] n]|]; cbn; [|done]. intros (l & Hl & Hn & Hb). exists (map g l).
  rewrite list_lookup_fmap, Hl, length_map. done.
Qed.

(** The projections reach the columns they need. *)
Lemma projection_masks s s' fmt rd leaves :
  extends s s' -> names_ok s' -> pr_schema rd = s' -> file_format (pr_meta rd) = fmt ->
  leaves = map f_name (arrow_schema s fmt) ->
  ikey_only_projection_mask leaves = Ok [0%nat] /\
  exists mask, build_projection_mask rd leaves = Ok mask /\ mask_reads s fmt mask /\
    Forall (fun i => (i < length (arrow_schema s fmt))%nat) mask.
Proof.
  intros Hext Hn Hs Hf ->. pose proof (extends_names _ _ Hext Hn) as Hn0.
  assert (H0 : find_leaf (map f_name (arrow_schema s fmt)) IKEY_COLUMN_NAME = Ok 0%nat) by done.
  split; [unfold ikey_only_projection_mask; by rewrite H0|].
  unfold build_projection_mask. rewrite H0, Ok_bind, Hf. destruct fmt; cbn [has_value_blob].
  - eexists. split; [reflexivity|]. split; [split; [left|]|].
    + intros i Hi. destruct (lookup_lt_is_Some_2 _ _ Hi) as [c Hc]. right. apply list_elem_of_omap. exists c. split.
      * rewrite Hs. destruct Hext as ([extra He] & _ & _). rewrite He. apply elem_of_app. left.
        by eapply list_elem_of_lookup_2.
      * rewrite find_leaf_index. apply (index_of_unique _ _ (column_field c)); [by apply file_names|].
        change (map column_field (columns s) !! i = Some (column_field c)). by rewrite list_lookup_fmap, Hc.
    + constructor; [unfold arrow_schema; cbn; lia|]. apply Forall_forall. intros i Hi.
      apply list_elem_of_omap in Hi as (c & _ & Hc). rewrite find_leaf_index in Hc.
      apply index_of_lookup in Hc as (f & Hf' & _). by eapply lookup_lt_Some.
  - assert (H3 : find_leaf (map f_name (arrow_schema s Dual)) VALUE_BLOB_COLUMN_NAME = Ok 3%nat) by done.
    rewrite H3. eexists. split; [reflexivity|]. split; [split; [left|right; left]|].
    repeat (apply Forall_cons; split; [unfold arrow_schema; cbn; lia|]). constructor.
Qed.

Lemma written_holds s s' fmt props (b : RecordBatch) (f : F) m rd rows ys :
  extends s s' -> names_ok s' -> pr_schema rd = s' -> pr_source rd = f -> file_format (pr_meta rd) = fmt ->
  batch_schema b = arrow_schema s fmt -> batch_rows b = map (row_cells s fmt) rows -> Written props b f m ->
  Forall (fun x => is_Some (postcard_to_vec x.2)) rows -> Forall2 (read_back s s' fmt) rows ys ->
  exists sizes, pm_num_rows m = map Z.of_nat sizes /\ foldr plus 0%nat sizes = length ys /\ Holds rd (chunks sizes ys).
Proof.
  intros Hext Hn Hs Hsrc Hf Hfs Hb [Ho Hl _ _ (sizes & Hnum & _ & Hsum & _ & Hread)] Hpc HF.
  assert (Hsum' : foldr plus 0%nat sizes = length ys).
  { rewrite Hsum, <- length_batch_rows, Hb, length_map. by eapply Forall2_length. }
  exists sizes. split; [done|]. split; [done|].
  destruct (projection_masks s s' fmt rd (pm_leaves m)) as (Hk & mask & Hmask & Hmr & Hmb);
    [done..|by rewrite Hl, Hfs|]. exists m, mask, [0%nat]. rewrite Hsrc.
  split; [done|]. split.
  { rewrite Hnum. clear -Hsum'. revert ys Hsum'. induction sizes as [|n sizes IH]; intros ys Hy; [done|]. cbn in *.
    rewrite length_take. f_equal; [lia|]. apply IH. rewrite length_drop. lia. }
  split; [done|]. split; [done|]. intros sel Hsel.
  destruct (selected_Forall2 _ sel _ _ (chunks_Forall2 _ sizes _ _ HF) Hsel) as [HFs Hselr].
  assert (Hsel' : sel_ok sel (chunks sizes (batch_rows b))) by (rewrite Hb, chunks_map; by apply sel_ok_map).
  assert (Hpcs : Forall (fun x => is_Some (postcard_to_vec x.2)) (selected sel (chunks sizes rows))).
  { assert (Hc : Forall (Forall (fun x : InternalKey * Row => is_Some (postcard_to_vec x.2))) (chunks sizes rows)).
    { clear -Hpc. revert rows Hpc. induction sizes as [|n sizes IH]; intros rows Hpc; cbn; constructor;
        [by apply Forall_take|]. apply IH. by apply Forall_drop. }
    destruct sel as [[[rg skip] n]|]; cbn; [|by apply Forall_concat].
    destruct (chunks sizes rows !! rg) as [g|] eqn:Eg; [|constructor].
    apply Forall_take, Forall_drop. by eapply Forall_lookup_1. }
  unfold read_batches. split.
  - destruct (Hread sel mask Hsel') as (bs & -> & Hbs & Hrows); [by rewrite Hfs|]. cbn [ok_or]. rewrite Ok_bind.
    eapply (decode_batches_spec _ (fun fs => cells_decode s' fs)); [|exact Hbs|].
    + intros b' zs. rewrite Hs. apply record_batch_to_rows_spec.
    + rewrite Hrows, Hfs, Hb, chunks_map, selected_map, map_map. apply Forall2_fmap_l.
      clear -HFs Hpcs Hext Hn Hmr RSL. induction HFs as [|x y l l' [Hd Hy] _ IH]; constructor.
      * destruct y as [ik row]. cbn in Hy. subst row. apply Forall_cons in Hpcs as [Hp _]. by apply row_cells_decode.
      * apply IH. by apply Forall_cons in Hpcs as [_ ?].
  - destruct (Hread sel [0%nat] Hsel') as (bs & -> & Hbs & Hrows).
    { rewrite Hfs. constructor; [unfold arrow_schema; cbn; lia|constructor]. }
    cbn [ok_or]. rewrite Ok_bind. eapply (decode_batches_spec _ (fun fs => cells_ikey s' fs)); [|exact Hbs|].
    + intros b' zs. rewrite Hs. apply record_batch_to_ikeys_spec.
    + rewrite Hrows, Hfs, Hb, chunks_map, selected_map, map_map. apply Forall2_fmap_l, Forall2_fmap_r.
      eapply Forall2_impl; [exact HFs|]. intros x y [Hd _]. apply ikey_cells; [by eapply extends_names|left|done].
Qed.
End written.

(** ** Properties *)

(** C16. A point lookup in a data file returns the newest version of the key at
    or below the read sequence that the deletion vector does not mask, or
    nothing: the bloom filter, the key-range gates, the sparse-index page and
    the guard against versions on earlier pages never change the answer of a
    full scan, and the lookup does not fail.  The file is any sorted file
    whose filter knows its keys, whose recorded range covers them and whose
    index (if any) names the first key of each page. *)
Theorem reader_get_newest (xxh3_64 : bytes -> Z) {F B : Type} `{!Arrow, !ParquetFile F, !RowSerde, !Roaring B}
    s (rd : ParquetReader F) uk read_seq (dv : option B) :
  FileOk xxh3_64 (encoded_key s) rd -> encoded_key s uk ->
  get xxh3_64 rd uk read_seq dv
  = Ok (v_val <$> newest (live_versions (rows_of rd) 0 dv) uk read_seq).
Proof.
  intros HF Huk. rewrite (get_full_scan xxh3_64 (encoded_key s) (encoded_key_prefix_free s)) by done.
  by rewrite (find_visible_newest xxh3_64 (encoded_key s) (encoded_key_prefix_free s)).
Qed.

(** ** A concrete file: one row group, two pages, a key with two versions *)
Definition ex_k (z sq : Z) (op : OpType) : InternalKey := example_key z [b0] sq op.
Definition ex_r (z : Z) : Row :=
  {| fields := [Some (Int32 z); Some (Bytes [b0]); Some (Bytes [byte.of_Z z])] |}.
Definition ex_rows : list (InternalKey * Row) :=
  [(ex_k 1 9 Put, ex_r 9); (ex_k 1 5 Put, ex_r 5); (ex_k 2 7 Delete, ex_r 0)].

Definition ex_pages : list (bytes * PageLocation) :=
  [(encoded (ex_k 1 9 Put), {| page_offset := 4; page_size := 10; first_row_index := 0 |});
   (encoded (ex_k 1 5 Put), {| page_offset := 14; page_size := 20; first_row_index := 1 |})].

Definition ex_index : bytes :=
  Eval vm_compute in match build ex_pages 16 with Ok b => b | _ => [] end.

Definition ex_batch : RecordBatch :=
  match rows_to_record_batch ex_rows example_schema Dual with Ok b => b | _ => batch_empty [] end.

Definition ex_source (kv : list (string * option string)) : ListFile := {| lf_kv := kv; lf_batch := ex_batch |}.

Definition ex_reader_with (kv : list (string * option string)) (m : ParquetFileMeta)
    (idx : option KvSparseIndex) : ParquetReader ListFile :=
  {| pr_source := ex_source kv; pr_schema := example_schema; pr_meta := m; pr_bloom := None; pr_kv_index := idx |}.

Definition ex_reader : ParquetReader ListFile :=
  ex_reader_with []
    (meta (ex_file "f" 0 5 9 (user_key_bytes (ex_k 1 9 Put)) (user_key_bytes (ex_k 2 7 Delete)) 10))
    (match kv_from_bytes ex_index with Ok x => Some x | _ => None end).

Lemma ex_extends : extends example_schema example_schema.
Proof. split; [done|]. split; [done|]. cbn. repeat (apply Forall_cons; split; [lia|]). constructor. Qed.

Lemma ex_names : names_ok example_schema.
Proof. apply (bool_decide_eq_true_1 _). vm_compute. reflexivity. Qed.

Lemma ex_columns : Forall column_ok (columns example_schema).
Proof. cbn. repeat (apply Forall_cons; split; [cbn; (done || lia)|]). constructor. Qed.

Lemma ex_rows_fit : rows_ok example_schema ex_rows.
Proof.
  repeat (apply Forall_cons; split; [split; [apply validated_fits; vm_compute; reflexivity|by eexists]|]). constructor.
Qed.

Lemma ex_rows_arrow : arrow_fits example_schema Dual ex_rows.
Proof. apply arrow_fits_bool. vm_compute. reflexivity. Qed.

Lemma ex_holds kv m idx : file_format m = Dual ->
  (exists gs, Holds (ex_reader_with kv m idx) gs) /\ rows_of (ex_reader_with kv m idx) = ex_rows.
Proof.
  intros Hm. destruct (rows_to_record_batch_spec example_schema Dual ex_rows ex_columns ex_rows_fit) as (b & Hb & Hs & Hn & Hr & _);
    [done|exact ex_rows_arrow|].
  destruct (pq_write_spec (F := ListFile) [SetKeyValueMetadata kv] b {| lf_kv := kv; lf_batch := b |}) as (pm & HW); [rewrite Hn; cbn; lia|done|].
  destruct (written_holds example_schema example_schema Dual [SetKeyValueMetadata kv] b {| lf_kv := kv; lf_batch := b |} pm
    (ex_reader_with kv m idx) ex_rows ex_rows) as (sizes & _ & Hsum & HH);
    [apply ex_extends|apply ex_names|done| |done..| | |].
  - unfold ex_reader_with, ex_source, ex_batch. cbn [pr_source]. by rewrite Hb.
  - eapply Forall_impl; [exact ex_rows_fit|]. by intros x [_ ?].
  - repeat (apply Forall2_cons; split; [split; vm_compute; reflexivity|]). constructor.
  - split; [by eexists|]. destruct (holds_all _ _ HH) as [_ ->]. by apply concat_chunks.
Qed.

Lemma ex_rows_wf : Forall (fun x => key_wf (encoded_key example_schema) x.1) ex_rows.
Proof.
  assert (H : forall z sq op k, in_i 32 z -> 0 <= sq ->
    encode [Int32 z; Bytes [b0]] sq op example_schema = Ok k -> key_wf (encoded_key example_schema) k).
  { intros z sq op k Hz Hsq. apply encode_key_wf; [|done].
    apply Forall_cons. split; [done|]. apply Forall_cons. split; [done|constructor]. }
  apply Forall_cons. split; [apply (H 1 9 Put); [unfold in_i; lia|lia|reflexivity]|].
  apply Forall_cons. split; [apply (H 1 5 Put); [unfold in_i; lia|lia|reflexivity]|].
  apply Forall_cons. split; [apply (H 2 7 Delete); [unfold in_i; lia|lia|reflexivity]|].
  constructor.
Qed.

Lemma ex_sorted : StronglySorted v_lt (map row_version ex_rows).
Proof.
  cbn [map ex_rows].
  repeat (apply SSorted_cons; [|repeat (apply Forall_cons; split; [vm_compute; reflexivity|]); constructor]).
  constructor.
Qed.

Lemma ex_file_ok xxh : FileOk xxh (encoded_key example_schema) ex_reader.
Proof.
  destruct (ex_holds [] (meta (ex_file "f" 0 5 9 (user_key_bytes (ex_k 1 9 Put)) (user_key_bytes (ex_k 2 7 Delete)) 10))
    (match kv_from_bytes ex_index with Ok x => Some x | _ => None end) eq_refl) as [HH HR].
  fold ex_reader in HH, HR. split; rewrite ?HR.
  - exact HH.
  - exact ex_rows_wf.
  - exact ex_sorted.
  - exact I.
  - repeat (apply Forall_cons; split; [right; vm_compute; discriminate|]). constructor.
  - repeat (apply Forall_cons; split; [right; vm_compute; discriminate|]). constructor.
  - destruct (build_valid ex_pages 16 ex_index) as (x & raw & Hx & V & Hk & _);
      [unfold in_u; lia| |vm_compute; reflexivity|vm_compute; reflexivity|].
    { repeat (apply Forall_cons; split; [unfold loc_ok, in_u; cbn [snd page_offset page_size first_row_index]; lia|]).
      constructor. }
    unfold ex_reader, ex_reader_with. cbn [pr_kv_index]. rewrite Hx. exists raw. split; [exact V|]. rewrite Hk. split.
    + repeat constructor.
    + repeat (apply Forall_cons; split; [split; [cbn; lia|eexists; split; reflexivity]|]). constructor.
Qed.

Lemma reader_get_newest_witness :
  get (fun _ => 0) ex_reader (user_key_bytes (ex_k 1 9 Put)) 8 (None : option (gset Z))
  = Ok (v_val <$> newest (live_versions (rows_of ex_reader) 0 (None : option (gset Z)))
          (user_key_bytes (ex_k 1 9 Put)) 8).
Proof.
  apply (reader_get_newest (fun _ => 0) example_schema ex_reader); [apply ex_file_ok|].
  exists [Int32 1; Bytes [b0]]. split; [|reflexivity].
  apply Forall_cons. split; [unfold FieldValue_wf, in_i; lia|]. apply Forall_cons. split; [done|constructor].
Defined.

(** The stream of user keys misses versions: when the versions of a key
    continue from one page to the next and the range starts at that key, the
    page before is skipped (its successor starts at a key not above [lo]), so
    a row of the file inside the range is never yielded.  Deletion vectors
    placed from the stream then leave that older version unmasked. *)
Theorem range_keys_skip_versions :
  exists lo hi items,
    iter_user_keys_in_range ex_reader lo hi = Ok items /\
    lo = hi /\ Forall (fun i => match i with Ok _ => True | _ => False end) items /\
    exists x, rows_of ex_reader !! 0%nat = Some x /\ user_key_bytes x.1 = lo /\
      Ok (lo, 0) ∉ items /\ Ok (lo, 1) ∈ items.
Proof.
  exists (user_key_bytes (ex_k 1 9 Put)), (user_key_bytes (ex_k 1 9 Put)),
    [Ok (user_key_bytes (ex_k 1 9 Put), 1)].
  split; [vm_compute; reflexivity|]. split; [reflexivity|]. split; [by repeat constructor|].
  eexists. split; [reflexivity|]. split; [reflexivity|]. split; [|by left].
  intros [H|H%elem_of_nil]%elem_of_cons; [|done]. congruence.
Qed.
