(* ===== verification/FileWriter.v ===== *)
(** * Writing data files

    [src/crates/merutable/src/parquet/writer.rs]: the layout chosen per level,
    the two passes of [write_sorted_rows] (the first finds the page boundaries
    the sparse index of the second refers to), and the statistics read back
    from the written file.  The empty buffer returned for no rows is [None]. *)

From S2P Require Import Prelude Sequence Schema Key Mvcc RowCodec LsmVersion Bloom KvIndex DeletionVector Arrow Codec FileReader.
Local Open Scope Z_scope.

(** ** Layout *)
Definition ASSUMED_ROW_BYTES : Z := 256.

Definition target_row_group_bytes (level : Z) : Z :=
  if level =? 0 then 4 * 1024 * 1024
  else if level =? 1 then 32 * 1024 * 1024
  else 128 * 1024 * 1024.

Definition target_data_page_bytes (level : Z) : Z :=
  if level =? 0 then 8 * 1024
  else if level =? 1 then 32 * 1024
  else 128 * 1024.

Definition target_rows_per_row_group (level : Z) : Z :=
  Z.max (target_row_group_bytes level / ASSUMED_ROW_BYTES) 1024.

(** The typed columns of a file without a blob. *)
Definition analytics_props (c : ColumnDef) : list WriterProp :=
  match col_type c with
  | CInt32 | CInt64 =>
      [SetColumnEncoding (name c) DELTA_BINARY_PACKED; SetColumnDictionaryEnabled (name c) false]
  | CFloat | CDouble =>
      [SetColumnEncoding (name c) BYTE_STREAM_SPLIT; SetColumnDictionaryEnabled (name c) false]
  | CByteArray => [SetColumnDictionaryEnabled (name c) true]
  | CBoolean => [SetColumnEncoding (name c) RLE]
  | CFixedLenByteArray _ => [SetColumnEncoding (name c) PLAIN; SetColumnDictionaryEnabled (name c) false]
  end.

Definition build_column_encoding_props (builder : list WriterProp) (s : TableSchema) (format : FileFormat)
    : list WriterProp :=
  builder ++
  [SetColumnEncoding IKEY_COLUMN_NAME PLAIN; SetColumnDictionaryEnabled IKEY_COLUMN_NAME false;
   SetColumnEncoding SEQ_COLUMN_NAME DELTA_BINARY_PACKED; SetColumnDictionaryEnabled SEQ_COLUMN_NAME false;
   SetColumnDictionaryEnabled OP_COLUMN_NAME true] ++
  if has_value_blob format then
    [SetColumnEncoding VALUE_BLOB_COLUMN_NAME PLAIN; SetColumnDictionaryEnabled VALUE_BLOB_COLUMN_NAME false] ++
    concat (map (fun c => [SetColumnEncoding (name c) PLAIN; SetColumnDictionaryEnabled (name c) false]) (columns s))
  else concat (map analytics_props (columns s)).

(** ** Column statistics *)
(** [try_into().unwrap_or(\[0; n\])]. *)
Definition le_fixed (n : nat) (b : bytes) : Z := if (length b =? n)%nat then le_combine b else 0.

Definition bound_is_less (t : ColumnType) (a b : bytes) : bool :=
  match t with
  | CInt32 => to_signed 32 (le_fixed 4 a) <? to_signed 32 (le_fixed 4 b)
  | CInt64 => to_signed 64 (le_fixed 8 a) <? to_signed 64 (le_fixed 8 b)
  | CFloat => SpecFloat.SFltb (sf_of_bits 23 8 (le_fixed 4 a)) (sf_of_bits 23 8 (le_fixed 4 b))
  | CDouble => SpecFloat.SFltb (sf_of_bits 52 11 (le_fixed 8 a)) (sf_of_bits 52 11 (le_fixed 8 b))
  | CBoolean | CByteArray | CFixedLenByteArray _ => bytes_ltb a b
  end.

(** The bounds of a chunk as Iceberg single values. *)
Definition bounds_of (st : PqStatistics) : option bytes * option bytes :=
  let b2b (b : bool) := [if b then Byte.x01 else Byte.x00] in
  match st with
  | StBoolean lo hi => (b2b <$> lo, b2b <$> hi)
  | StInt32 lo hi => ((fun v => le_split 4 (wrap 32 v)) <$> lo, (fun v => le_split 4 (wrap 32 v)) <$> hi)
  | StInt64 lo hi => ((fun v => le_split 8 (wrap 64 v)) <$> lo, (fun v => le_split 8 (wrap 64 v)) <$> hi)
  | StFloat lo hi => (le_split 4 <$> lo, le_split 4 <$> hi)
  | StDouble lo hi => (le_split 8 <$> lo, le_split 8 <$> hi)
  | StByteArray lo hi | StFixedLenByteArray lo hi => (lo, hi)
  | StInt96 => (None, None)
  end.


(** [replaces new current]: keep the current bound unless the new one is
    better. *)
Definition better_bound (replaces : bytes -> bytes -> bool) (slot new : option bytes) : option bytes :=
  match slot, new with
  | None, Some v => Some v
  | Some cur, Some v => if replaces v cur then Some v else Some cur
  | slot, None => slot
  end.

Definition reduce_chunk (t : ColumnType) (rg_num_rows : Z) (chunk : PqChunk) (acc : ColumnStats) : ColumnStats :=
  let compressed := sat_add 64 (cs_compressed_bytes acc) (Z.max (ck_compressed_size chunk) 0) in
  match ck_statistics chunk with
  | None =>
      {| cs_field_id := cs_field_id acc; cs_compressed_bytes := compressed;
         cs_value_count := cs_value_count acc; cs_null_count := cs_null_count acc;
         cs_lower_bound := cs_lower_bound acc; cs_upper_bound := cs_upper_bound acc |}
  | Some (st, null_count_opt) =>
      let rg_rows := Z.max rg_num_rows 0 in
      let null_count := default 0 null_count_opt in
      let values := sat_sub rg_rows null_count in
      let '(min_b, max_b) := bounds_of st in
      {| cs_field_id := cs_field_id acc; cs_compressed_bytes := compressed;
         cs_value_count := sat_add 64 (cs_value_count acc) values;
         cs_null_count := sat_add 64 (cs_null_count acc) null_count;
         cs_lower_bound := better_bound (bound_is_less t) (cs_lower_bound acc) min_b;
         cs_upper_bound := better_bound (fun v cur => bound_is_less t cur v) (cs_upper_bound acc) max_b |}
  end.

(** [HashMap] of leaf names: the last leaf of a name wins. *)
Definition name_to_col (leaves : list string) : gmap string nat :=
  list_to_map (rev (zip leaves (List.seq 0 (length leaves)))).

(** The accumulators: per schema column present in the file, its leaf and its
    type; the field id is the position from 1. *)
Definition stats_accs (s : TableSchema) (leaves : list string) : list (nat * ColumnType * ColumnStats) :=
  omap (fun ic => leaf ← name_to_col leaves !! name ic.2;
          Some (leaf, col_type ic.2,
            {| cs_field_id := Z.of_nat (S ic.1); cs_compressed_bytes := 0; cs_value_count := 0;
               cs_null_count := 0; cs_lower_bound := None; cs_upper_bound := None |}))
    (zip (List.seq 0 (length (columns s))) (columns s)).

Definition reduce_group (rg : Z * list PqChunk) (accs : list (nat * ColumnType * ColumnStats))
    : res (list (nat * ColumnType * ColumnStats)) :=
  mapM (fun a => chunk ← index rg.2 a.1.1; Ok (a.1, reduce_chunk a.1.2 rg.1 chunk a.2)) accs.

Fixpoint reduce_groups (rgs : list (Z * list PqChunk)) (accs : list (nat * ColumnType * ColumnStats))
    : res (list (nat * ColumnType * ColumnStats)) :=
  match rgs with
  | [] => Ok accs
  | rg :: rgs => accs ← reduce_group rg accs; reduce_groups rgs accs
  end.

Section writer.
Context (xxh3_64 : bytes -> Z) {F : Type} `{!Arrow, !ParquetFile F, !RowSerde, !FooterCodec, !SchemaJson}.

Definition extract_column_stats (file : F) (s : TableSchema) : res (list ColumnStats) :=
  file_meta ← open_metadata file;
  accs ← reduce_groups (zip (pm_num_rows file_meta) (pm_chunks file_meta)) (stats_accs s (pm_leaves file_meta));
  Ok (map snd accs).

(** ** One pass *)
Definition arrow_write_pass (rows : list (InternalKey * Row)) (arrow_sch : list Field) (s : TableSchema)
    (level : Z) (format : FileFormat) (kv : list (string * string)) : res F :=
  let kv_meta := map (fun e => (e.1, Some e.2)) kv in
  let builder := [SetCompressionSnappy; SetMaxRowGroupSize (target_rows_per_row_group level);
                  SetDataPageSizeLimit (target_data_page_bytes level); SetKeyValueMetadata kv_meta] in
  let props := build_column_encoding_props builder s format in
  batch ← rows_to_record_batch rows s format;
  ok_or (pq_write props arrow_sch batch) (Parquet "arrow writer").

(** ** The sparse index of the first pass's pages *)
Fixpoint group_entries (rows : list (InternalKey * Row)) (row_group_start : Z) (pages : list PqPageLocation)
    : res (list (bytes * PageLocation)) :=
  match pages with
  | [] => Ok []
  | p :: pages =>
      if pp_first_row_index p <? 0 then Err (Corruption "negative first_row_index")
      else if pp_offset p <? 0 then Err (Corruption "negative page offset")
      else if pp_compressed_page_size p <? 0 then Err (Corruption "negative compressed_page_size")
      else
        let global_first_row := row_group_start + pp_first_row_index p in
        row ← ok_or (rows !! Z.to_nat global_first_row) (Parquet "OffsetIndex first_row_index out of bounds");
        rest ← group_entries rows row_group_start pages;
        Ok ((encoded row.1, {| page_offset := pp_offset p; page_size := pp_compressed_page_size p;
                               first_row_index := global_first_row |}) :: rest)
  end.

Fixpoint index_entries (rows : list (InternalKey * Row)) (row_group_start : Z) (rg_idx : nat)
    (offset_index : list (list (list PqPageLocation))) (num_rows : list Z) : res (list (bytes * PageLocation)) :=
  match offset_index with
  | [] => Ok []
  | rg :: offset_index =>
      ikey_offsets ← ok_or (rg !! 0%nat) (Parquet "OffsetIndex missing _merutable_ikey column");
      entries ← group_entries rows row_group_start ikey_offsets;
      rg_num_rows ← index num_rows rg_idx;
      if rg_num_rows <? 0 then Err (Corruption "negative num_rows")
      else
        rest ← index_entries rows (row_group_start + rg_num_rows) (S rg_idx) offset_index num_rows;
        Ok (entries ++ rest)
  end.

Definition extract_kv_index_entries (rows : list (InternalKey * Row)) (pass1 : F)
    : res (list (bytes * PageLocation)) :=
  metadata ← open_metadata pass1;
  offset_index ← ok_or (pm_offset_index metadata) (Parquet "OffsetIndex missing from pass-1 Parquet file");
  index_entries rows 0 0 offset_index (pm_num_rows metadata).

(** ** The whole file *)

(** The loop that tracks the sequence range. *)
Definition seq_range (rows : list (InternalKey * Row)) : Z * Z :=
  fold_left (fun a x => (if seq x.1 <? a.1 then seq x.1 else a.1, if a.2 <? seq x.1 then seq x.1 else a.2))
    rows (u64_max, 0).

Definition file_meta_of (rows : list (InternalKey * Row)) (lv : Z) (fmt : FileFormat) (size : Z) : ParquetFileMeta :=
  let '(smin, smax) := seq_range rows in
  {| level := lv; seq_min := if smin =? u64_max then 0 else smin; seq_max := smax;
     key_min := match head rows with Some x => user_key_bytes x.1 | None => [] end;
     key_max := match last rows with Some x => user_key_bytes x.1 | None => [] end;
     num_rows := Z.of_nat (length rows); file_size := size; fm_dv_path := None; fm_dv_offset := None;
     fm_dv_length := None; format := Some fmt; column_stats := None |}.

Definition write_sorted_rows (rows : list (InternalKey * Row)) (s : TableSchema) (lv : Z) (fmt : FileFormat)
    (bloom_bits_per_key : Z) : res (option F * bytes * ParquetFileMeta) :=
  match rows with
  | [] => Ok (None, [], file_meta_of [] lv fmt 0)
  | _ =>
      let estimated := Z.of_nat (length rows) in
      let arrow_sch := arrow_schema s fmt in
      bloom ← add_all xxh3_64 (map (fun x => user_key_bytes x.1) rows)
                (bloom_new (Z.max estimated 1000) bloom_bits_per_key);
      let m := file_meta_of rows lv fmt 0 in
      let bloom_bytes := to_bytes bloom in
      footer_kv ← encode_footer_kv m s;
      let base_kv := footer_kv ++ [("merutable.bloom"%string, hex_encode bloom_bytes)] in
      pass1 ← arrow_write_pass rows arrow_sch s lv fmt base_kv;
      kv_index_entries ← extract_kv_index_entries rows pass1;
      kv_index_bytes ← build kv_index_entries 16;
      let full_kv := base_kv ++ [(KV_INDEX_FOOTER_KEY, hex_encode kv_index_bytes)] in
      pass2 ← arrow_write_pass rows arrow_sch s lv fmt full_kv;
      let final_meta := file_meta_of rows lv fmt (pq_len pass2) in
      stats ← res_ok (extract_column_stats pass2 s);
      Ok (Some pass2, bloom_bytes, with_stats stats final_meta)
  end.
End writer.

(** The statistics recorded for a file are those of its own footer. *)
Definition footer_stats {F} `{!Arrow, !ParquetFile F} (s : TableSchema) (f : F) : option (list ColumnStats) :=
  match extract_column_stats f s with Ok stats => Some stats | _ => None end.

Lemma written_stats (xxh3_64 : bytes -> Z) {F} `{!Arrow, !ParquetFile F, !RowSerde, !FooterCodec, !SchemaJson}
    rows s lv fmt bits (f : F) bloom m :
  write_sorted_rows xxh3_64 rows s lv fmt bits = Ok (Some f, bloom, m) -> column_stats m = footer_stats s f.
Proof.
  unfold write_sorted_rows. destruct rows as [|x rows]; [done|]. intros Hw. cbv zeta in Hw.
  repeat (apply bind_Ok in Hw as (? & ? & Hw)). injection Hw as <- <- <-. cbn [with_stats column_stats]. unfold footer_stats.
  match goal with E : res_ok _ = Ok _ |- _ => revert E end. by destruct (extract_column_stats _ s); intros [= <-].
Qed.

(** ** The layout properties fit the columns *)
Lemma encoding_of_user_column c e f :
  SetColumnEncoding (name c) e ∈ analytics_props c -> f = column_field c -> encodes e (f_type f).
Proof.
  intros He ->. unfold analytics_props in He. cbn. destruct (col_type c);
    repeat (apply elem_of_cons in He as [He|He]; [first [discriminate He|injection He as ->; exact I]|]);
    by apply elem_of_nil in He.
Qed.

(** Which column an encoding is set for. *)
Lemma analytics_name c col e : SetColumnEncoding col e ∈ analytics_props c -> col = name c.
Proof.
  unfold analytics_props. intros He. destruct (col_type c);
    repeat (apply elem_of_cons in He as [He|He]; [first [discriminate He|by injection He]|]); by apply elem_of_nil in He.
Qed.

Lemma field_name_unique s fmt f g :
  names_ok s -> f ∈ arrow_schema s fmt -> g ∈ arrow_schema s fmt -> f_name f = f_name g -> f = g.
Proof.
  intros Hn [i Hi]%list_elem_of_lookup [j Hj]%list_elem_of_lookup E.
  pose proof (index_of_unique _ _ _ (file_names s fmt Hn) Hi) as H1.
  pose proof (index_of_unique _ _ _ (file_names s fmt Hn) Hj) as H2. rewrite E, H2 in H1. congruence.
Qed.

Lemma column_in_schema s fmt c : c ∈ columns s -> column_field c ∈ arrow_schema s fmt.
Proof.
  intros Hc. unfold arrow_schema. rewrite !elem_of_app. right. right. by apply list_elem_of_fmap_2.
Qed.

Lemma encoding_props_fit builder s fmt :
  names_ok s -> (forall col e, SetColumnEncoding col e ∉ builder) ->
  props_fit (build_column_encoding_props builder s fmt) (arrow_schema s fmt).
Proof.
  intros Hn Hb col e f Hin Hf Hname. unfold build_column_encoding_props in Hin.
  apply elem_of_app in Hin as [Hin|Hin]; [by apply Hb in Hin|].
  assert (Hone : forall g, g ∈ arrow_schema s fmt -> f_name g = col -> encodes e (f_type g) -> encodes e (f_type f)).
  { intros g Hg Hgn Henc. by rewrite (field_name_unique s fmt f g Hn Hf Hg (eq_trans Hname (eq_sym Hgn))). }
  apply elem_of_app in Hin as [Hin|Hin].
  - repeat (apply elem_of_cons in Hin as [Hin|Hin]; [try discriminate Hin|]); [..|by apply elem_of_nil in Hin];
      injection Hin as -> ->; [apply (Hone (hidden IKEY_COLUMN_NAME DBinary))|apply (Hone (hidden SEQ_COLUMN_NAME DInt64))];
      try done; unfold arrow_schema; set_solver.
  - destruct fmt; cbn [has_value_blob] in Hin.
    + apply list_elem_of_In, in_concat in Hin as (l & Hl & Hin). apply in_map_iff in Hl as (c & <- & Hc).
      apply list_elem_of_In in Hin, Hc. pose proof (analytics_name _ _ _ Hin) as ->.
      apply (Hone (column_field c)); [by apply column_in_schema|done|]. by eapply encoding_of_user_column.
    + apply elem_of_app in Hin as [Hin|Hin].
      * repeat (apply elem_of_cons in Hin as [Hin|Hin]; [try discriminate Hin; by injection Hin as -> ->|]).
        by apply elem_of_nil in Hin.
      * apply list_elem_of_In, in_concat in Hin as (l & Hl & Hin). apply in_map_iff in Hl as (c & <- & Hc).
        apply list_elem_of_In in Hin. repeat (apply elem_of_cons in Hin as [Hin|Hin];
          [try discriminate Hin; by injection Hin as -> ->|]). by apply elem_of_nil in Hin.
Qed.

(** ** The index names the first row of each page *)
Definition entry_of_row (rows : list (InternalKey * Row)) (e : bytes * PageLocation) : Prop :=
  0 <= first_row_index e.2 /\
  exists x, rows !! Z.to_nat (first_row_index e.2) = Some x /\ e.1 = encoded x.1.

Lemma group_entries_spec rows start n pages :
  0 <= start -> start + n <= Z.of_nat (length rows) -> Z.of_nat (length rows) < 2 ^ 64 ->
  StronglySorted Z.lt (map pp_first_row_index pages) ->
  Forall (fun p => 0 <= pp_first_row_index p < n /\ in_i 64 (pp_offset p) /\ 0 <= pp_offset p /\
    in_i 32 (pp_compressed_page_size p) /\ 0 <= pp_compressed_page_size p) pages ->
  exists es, group_entries rows start pages = Ok es /\ Forall (entry_of_row rows) es /\ Forall (fun e => loc_ok e.2) es /\
    StronglySorted Z.lt (map (fun e => first_row_index e.2) es) /\
    Forall (fun e => start <= first_row_index e.2 < start + n) es.
Proof.
  intros H0 Hn H64 Hs HF. induction HF as [|p pages (Hp & Ho1 & Ho2 & Hz1 & Hz2) HF IH].
  { exists []. split; [done|]. repeat split; constructor. }
  cbn [map] in Hs. apply StronglySorted_inv in Hs as [Hs Hlt]. destruct (IH Hs) as (es & He & H1 & H2 & H3 & H4).
  cbn [group_entries].
  destruct (Z.ltb_spec (pp_first_row_index p) 0), (Z.ltb_spec (pp_offset p) 0), (Z.ltb_spec (pp_compressed_page_size p) 0);
    try lia.
  destruct (lookup_lt_is_Some_2 rows (Z.to_nat (start + pp_first_row_index p))) as [x Hx]; [lia|].
  rewrite Hx. cbn [ok_or]. rewrite Ok_bind, He, Ok_bind. eexists. split; [reflexivity|]. split_and!.
  - constructor; [|done]. split; [cbn; lia|]. exists x. done.
  - constructor; [|done]. unfold loc_ok, in_u, in_i in *. cbn. lia.
  - cbn [map]. constructor; [done|]. cbn [snd first_row_index].
    assert (HG : Forall2 (fun q e => first_row_index e.2 = start + pp_first_row_index q) pages es).
    { clear -He. revert es He. induction pages as [|q pages IH]; cbn; intros es He; [injection He as <-; constructor|].
      destruct (_ <? 0); [done|]. destruct (_ <? 0); [done|]. destruct (_ <? 0); [done|].
      inv_ok. constructor; [done|]. by apply IH. }
    clear -Hlt HG. induction HG as [|q e pages es E _ IH]; [constructor|]. cbn [map] in *.
    apply Forall_cons in Hlt as [Hq Hlt]. constructor; [lia|auto].
  - constructor; [cbn; lia|done].
Qed.

Lemma StronglySorted_app_lt (l1 l2 : list Z) m :
  StronglySorted Z.lt l1 -> StronglySorted Z.lt l2 -> Forall (fun z => z < m) l1 -> Forall (fun z => m <= z) l2 ->
  StronglySorted Z.lt (l1 ++ l2).
Proof.
  intros H1 H2 Hm1 Hm2. induction H1 as [|z l1 Hs IH Hz]; [done|]. apply Forall_cons in Hm1 as [Hz1 Hm1]. cbn.
  constructor; [by apply IH|]. apply Forall_app. split; [done|]. eapply Forall_impl; [exact Hm2|]. cbn. lia.
Qed.

Lemma index_entries_spec rows (sizes0 : list nat) ncols oi sizes start rg :
  0 <= start -> start + Z.of_nat (foldr plus 0%nat sizes) <= Z.of_nat (length rows) -> Z.of_nat (length rows) < 2 ^ 64 ->
  drop rg sizes0 = sizes -> (0 < ncols)%nat ->
  Forall2 (fun g n => length g = ncols /\ Forall (pages_cover (Z.of_nat n)) g) oi sizes ->
  exists es, index_entries rows start rg oi (map Z.of_nat sizes0) = Ok es /\ Forall (entry_of_row rows) es /\
    Forall (fun e => loc_ok e.2) es /\ StronglySorted Z.lt (map (fun e => first_row_index e.2) es) /\
    Forall (fun e => start <= first_row_index e.2) es.
Proof.
  intros H0 Hb H64 Hd Hc HF. revert start rg H0 Hb Hd.
  induction HF as [|g n oi sizes [Hl Hg] HF IH]; intros start rg H0 Hb Hd.
  { exists []. split; [done|]. repeat split; constructor. }
  cbn [index_entries]. destruct g as [|pages g]; [cbn in Hl; lia|]. cbn [lookup list_lookup ok_or]. rewrite Ok_bind.
  apply Forall_cons in Hg as [(_ & Hs & Hp) _]. cbn [foldr] in Hb.
  destruct (group_entries_spec rows start (Z.of_nat n) pages) as (es1 & -> & A1 & A2 & A3 & A4); [lia..|done|done|].
  assert (Hn : sizes0 !! rg = Some n). { rewrite <- (Nat.add_0_r rg), <- lookup_drop, Hd. done. }
  unfold index. rewrite Ok_bind, list_lookup_fmap, Hn. cbn [fmap option_fmap option_map]. rewrite Ok_bind.
  destruct (Z.ltb_spec (Z.of_nat n) 0); [lia|].
  destruct (IH (start + Z.of_nat n) (S rg)) as (es2 & -> & B1 & B2 & B3 & B4); [lia..| |].
  { rewrite <- Nat.add_1_r, <- drop_drop, Hd. done. }
  rewrite Ok_bind. eexists. split; [reflexivity|]. rewrite map_app. split_and!.
  - by apply Forall_app.
  - by apply Forall_app.
  - apply (StronglySorted_app_lt _ _ (start + Z.of_nat n)); [done|done|..].
    + apply Forall_fmap. eapply Forall_impl; [exact A4|]. cbn. lia.
    + by apply Forall_fmap.
  - apply Forall_app. split; [eapply Forall_impl; [exact A4|]; cbn; lia|eapply Forall_impl; [exact B4|]; cbn; lia].
Qed.

(** The keys of the index are some of the rows' keys. *)
Lemma entries_sublist rows es k :
  Forall (entry_of_row rows) es -> StronglySorted Z.lt (map (fun e => first_row_index e.2) es) ->
  Forall (fun e => Z.of_nat k <= first_row_index e.2) es ->
  map fst es `sublist_of` drop k (map (fun x => encoded x.1) rows).
Proof.
  intros HF. revert k. induction HF as [|e es (H0 & x & Hx & He) _ IH]; intros k Hs Hk; [apply sublist_nil_l|].
  cbn [map] in *. apply StronglySorted_inv in Hs as [Hs Hlt]. apply Forall_cons in Hk as [Hk0 Hk].
  set (j := Z.to_nat (first_row_index e.2)) in *.
  assert (Hd : drop k (map (fun x => encoded x.1) rows)
    = take (j - k) (drop k (map (fun x => encoded x.1) rows)) ++ encoded x.1 :: drop (S j) (map (fun x => encoded x.1) rows)).
  { rewrite <- (take_drop (j - k) (drop k _)) at 1. f_equal. rewrite drop_drop.
    replace (k + (j - k))%nat with j by lia. apply drop_S. by rewrite list_lookup_fmap, Hx. }
  rewrite Hd, He. apply sublist_inserts_l, sublist_skip. apply IH; [done|].
  apply List.Forall_forall. intros e' He'. pose proof (proj1 (List.Forall_forall _ _) Hlt _ (in_map _ _ _ He')) as L.
  cbv beta in L. unfold j. lia.
Qed.

Lemma sublist_sum {A} (g : A -> nat) (l l' : list A) :
  l `sublist_of` l' -> (foldr plus 0 (map g l) <= foldr plus 0 (map g l'))%nat.
Proof. induction 1; cbn; lia. Qed.

(** Bytes an index over all rows may need. *)
Definition index_bytes (rows : list (InternalKey * Row)) : nat :=
  24 + foldr plus 0%nat (map (fun x => 28 + length (encoded x.1))%nat rows).

Lemma rows_below_index rows : (28 * length rows <= index_bytes rows)%nat.
Proof. unfold index_bytes. induction rows as [|x rows IH]; cbn in *; lia. Qed.

(** ** What is written reads back *)

(** Footer entries found among the pairs of the written file. *)
Lemma kv_map_lookup (kv : list (string * string)) extra k :
  Forall (fun e : string * option string => e.1 <> k) extra ->
  kv_map (Some (map (fun e => (e.1, Some e.2)) kv ++ extra)) !! k = list_to_map (M := gmap string string) (rev kv) !! k.
Proof.
  intros He. unfold kv_map. cbn [from_option]. unfold id. rewrite omap_app, rev_app_distr, list_to_map_app.
  assert (Hkv : omap (fun e : string * option string => v ← e.2; Some (e.1, v)) (map (fun e => (e.1, Some e.2)) kv) = kv).
  { induction kv as [|[a v] kv IH]; [done|]. cbn. by rewrite IH. }
  rewrite Hkv. apply lookup_union_r. apply not_elem_of_list_to_map_1.
  intros Hin. apply list_elem_of_fmap in Hin as ([a v] & -> & Hin). apply list_elem_of_In, in_rev, list_elem_of_In in Hin.
  apply list_elem_of_omap in Hin as ([b o] & Hb & Ho). cbn in Ho. destruct o; [|done]. injection Ho as <- <-.
  rewrite Forall_forall in He. by apply (He _ Hb).
Qed.

Section roundtrip.
Context (xxh3_64 : bytes -> Z) (Hxxh : forall k, 0 <= xxh3_64 k < 2 ^ 64) {F : Type}.
Context `{AR : !Arrow, ARL : !ArrowLaws, PF : !ParquetFile F, PFL : !ParquetFileLaws F, RS : !RowSerde, RSL : !RowSerdeLaws}.
Context `{FC : !FooterCodec, FCL : !FooterCodecLaws, SJ : !SchemaJson, SJL : !SchemaJsonLaws}.
Implicit Types (s : TableSchema) (fmt : FileFormat) (rows ys : list (InternalKey * Row)).

Lemma arrow_write_pass_spec rows s lv fmt kv :
  Forall column_ok (columns s) -> names_ok s -> rows_ok s rows -> rows <> [] -> arrow_fits s fmt rows ->
  exists (f : F) m b props, arrow_write_pass rows (arrow_schema s fmt) s lv fmt kv = Ok f /\
    Written props b f m /\ kv_of_props props = map (fun e => (e.1, Some e.2)) kv /\
    batch_schema b = arrow_schema s fmt /\ batch_rows b = map (row_cells s fmt) rows /\ batch_num_rows b = length rows.
Proof.
  intros Hc Hn Hr Hne Hsz. destruct (rows_to_record_batch_spec s fmt rows Hc Hr Hne Hsz) as (b & Hb & Hs & Hnum & Hrows & Hcols).
  unfold arrow_write_pass. rewrite Hb, Ok_bind.
  set (props := build_column_encoding_props _ s fmt).
  assert (Hpos : (0 < batch_num_rows b)%nat) by (rewrite Hnum; destruct rows; [done|cbn; lia]).
  assert (Hfit : props_fit props (batch_schema b)).
  { rewrite Hs. apply encoding_props_fit; [done|]. intros col e Hin.
    repeat (apply elem_of_cons in Hin as [Hin|Hin]; [discriminate Hin|]). by apply elem_of_nil in Hin. }
  destruct (pq_write_total props b Hpos Hfit Hcols) as [f Hf]. destruct (pq_write_spec props b f Hpos Hf) as [m HW].
  exists f, m, b, props. rewrite <- Hs at 1. rewrite Hf. split; [done|]. split; [done|]. split; [|done].
  unfold props, kv_of_props, build_column_encoding_props. rewrite !fold_left_app. cbn [fold_left].
  assert (HK : forall (ps : list WriterProp) k, (forall kv', SetKeyValueMetadata kv' ∉ ps) ->
    fold_left (fun kv p => match p with SetKeyValueMetadata kv' => kv' | _ => kv end) ps k = k).
  { induction ps as [|p ps IH]; intros k Hp; [done|]. cbn. destruct p; try (apply IH; intros kv' Hin; apply (Hp kv'); by right).
    exfalso. apply (Hp kv0). left. }
  apply HK. intros kv' Hin. destruct (has_value_blob fmt).
  - do 2 (apply elem_of_cons in Hin as [Hin|Hin]; [discriminate Hin|]).
    apply list_elem_of_In, in_concat in Hin as (l & Hl & Hin). apply in_map_iff in Hl as (c & <- & _).
    by repeat destruct Hin as [Hin|Hin].
  - apply list_elem_of_In, in_concat in Hin as (l & Hl & Hin). apply in_map_iff in Hl as (c & <- & _).
    unfold analytics_props in Hin. by destruct (col_type c); repeat destruct Hin as [Hin|Hin].
Qed.

Lemma extract_kv_index_entries_spec props (b : RecordBatch) (f : F) m rows :
  Written props b f m -> batch_num_rows b = length rows -> batch_schema b <> [] ->
  Z.of_nat (length rows) < 2 ^ 64 ->
  exists es, extract_kv_index_entries rows f = Ok es /\ Forall (fun e => loc_ok e.2) es /\
    Forall (entry_of_row rows) es /\ StronglySorted Z.lt (map (fun e => first_row_index e.2) es).
Proof.
  intros [Ho _ _ _ (sizes & Hnum & _ & Hsum & (oi & Hoi & HF) & _)] Hn Hsch H64.
  unfold extract_kv_index_entries, open_metadata. rewrite Ho. cbn [ok_or]. rewrite Ok_bind, Hoi. cbn [ok_or].
  rewrite Ok_bind, Hnum. destruct (index_entries_spec rows sizes (length (batch_schema b)) oi sizes 0 0)
    as (es & -> & H1 & H2 & H3 & _); [lia|lia|done|done| |done|by exists es].
  destruct (batch_schema b); [done|cbn; lia].
Qed.

Lemma extract_column_stats_total props (b : RecordBatch) (f : F) m s :
  Written props b f m -> exists stats, extract_column_stats f s = Ok stats.
Proof.
  intros [Ho Hl Hc _ _]. unfold extract_column_stats, open_metadata. rewrite Ho. cbn [ok_or]. rewrite Ok_bind.
  assert (Hacc : Forall (fun a => (a.1.1 < length (batch_schema b))%nat) (stats_accs s (pm_leaves m))).
  { apply Forall_forall. intros a Ha. apply list_elem_of_omap in Ha as (ic & _ & Ha). unfold name_to_col in Ha.
    destruct (_ !! name ic.2) as [leaf|] eqn:E; [|done]. cbn in Ha. injection Ha as <-. cbn.
    apply elem_of_list_to_map_2, list_elem_of_In, in_rev in E. apply in_combine_r, in_seq in E.
    rewrite Hl, length_map in E. lia. }
  revert Hacc. generalize (stats_accs s (pm_leaves m)). generalize (pm_num_rows m).
  induction Hc as [|cs chunks Hcs _ IH]; intros nums accs Hacc.
  { destruct nums; by eexists. }
  destruct nums as [|n nums]; [by eexists|]. cbn [zip zip_with reduce_groups].
  assert (Hg : exists accs', reduce_group (n, cs) accs = Ok accs' /\
    Forall (fun a => (a.1.1 < length (batch_schema b))%nat) accs').
  { unfold reduce_group. clear -Hcs Hacc. induction Hacc as [|a accs Ha _ (accs' & E & H')]; [by exists []|]. cbn in *.
    destruct (lookup_lt_is_Some_2 cs a.1.1) as [ch Hch]; [lia|]. unfold index. rewrite Hch. cbn.
    unfold index in E. rewrite E. cbn. eexists. split; [done|]. by constructor. }
  destruct Hg as (accs' & -> & Hacc'). cbn. exact (IH nums accs' Hacc').
Qed.

(** Rows the writer is given: sorted, valid for the schema, within the limits
    of the filter, of the index and of the Arrow columns, under a schema that
    its JSON carries. *)
Record Writable s fmt rows (bits : Z) : Prop := {
  wb_json : json_schema s;
  wb_arrow : arrow_fits s fmt rows;
  wb_columns : Forall column_ok (columns s);
  wb_some : rows <> [];
  wb_rows : rows_ok s rows;
  wb_keys : Forall (fun x => key_wf (encoded_key s) x.1) rows;
  wb_sorted : StronglySorted v_lt (map row_version rows);
  wb_bloom : 0 <= Z.max (Z.of_nat (length rows)) 1000 * bits < 2 ^ 40;
  wb_key_len : Forall (fun x => Z.of_nat (length (encoded x.1)) <= MAX_KEY_LEN) rows;
  wb_index : Z.of_nat (index_bytes rows) < 2 ^ 32;
}.

(** How the rows come back. *)
Lemma rows_read_back s s' fmt rows :
  extends s s' -> Forall (fun x => key_wf (encoded_key s) x.1) rows ->
  exists ys, Forall2 (read_back s s' fmt) rows ys.
Proof.
  intros (Hp & Hk & _) HF. induction HF as [|x rows (He & Hs & Henc) _ (ys & IH)]; [by exists []|].
  destruct He as (pk & W & Hpk). destruct (decode_pk_total pk s s' _ W Hp Hk Hpk) as (vals & Hv).
  eexists ((_, _) :: ys). constructor; [|done]. split; [|reflexivity]. cbn [fst].
  rewrite Henc, decode_encode_raw by done. by rewrite Hv.
Qed.

Lemma read_back_version s s' fmt x y :
  key_wf (encoded_key s) x.1 -> read_back s s' fmt x y ->
  encoded y.1 = encoded x.1 /\ seq y.1 = seq x.1 /\ op_type y.1 = op_type x.1.
Proof.
  intros (_ & Hs & He) [Hd _]. rewrite He, decode_encode_raw in Hd by done.
  destruct (decode_pk_fields _ s') as [v|e|]; [|done..]. cbn in Hd. injection Hd as <-. cbn. by rewrite He.
Qed.

Lemma read_back_ikey s s' fmt x y :
  key_wf (encoded_key s) x.1 -> read_back s s' fmt x y -> ikey (row_version y) = ikey (row_version x).
Proof.
  intros Hx Hy. destruct (read_back_version s s' fmt x y Hx Hy) as (E1 & E2 & E3).
  unfold ikey, row_version, user_key_bytes. cbn. by rewrite E1, E2, E3.
Qed.

Lemma read_back_sorted s s' fmt rows ys :
  Forall (fun x => key_wf (encoded_key s) x.1) rows -> Forall2 (read_back s s' fmt) rows ys ->
  StronglySorted v_lt (map row_version rows) -> StronglySorted v_lt (map row_version ys).
Proof.
  intros HK HF. revert HK. induction HF as [|x y rows ys Hxy HF IH]; intros HK Hs; [constructor|].
  apply Forall_cons in HK as [Hx HK]. cbn [map] in *. apply StronglySorted_inv in Hs as [Hs Hlt].
  constructor; [by apply IH|]. clear -HF HK Hlt Hx Hxy. induction HF as [|a b rows ys Hab _ IH]; [constructor|].
  apply Forall_cons in HK as [Ha HK]. apply Forall_cons in Hlt as [L Hlt]. constructor; [|by apply IH].
  unfold v_lt. by rewrite (read_back_ikey s s' fmt x y Hx Hxy), (read_back_ikey s s' fmt a b Ha Hab).
Qed.

Lemma read_back_keys s s' fmt rows ys :
  Forall (fun x => key_wf (encoded_key s) x.1) rows -> Forall2 (read_back s s' fmt) rows ys ->
  Forall (fun x => key_wf (encoded_key s) x.1) ys /\
  map (fun x => user_key_bytes x.1) ys = map (fun x => user_key_bytes x.1) rows /\
  map (fun x => encoded x.1) ys = map (fun x => encoded x.1) rows.
Proof.
  intros HK HF. induction HF as [|x y rows ys Hxy _ IH]; [done|]. apply Forall_cons in HK as [Hx HK].
  destruct (IH HK) as (I1 & I2 & I3). destruct (read_back_version s s' fmt x y Hx Hxy) as (E1 & E2 & E3).
  split; [|split].
  - constructor; [|done]. destruct Hx as (H1 & H2 & H3). unfold key_wf, user_key_bytes in *. by rewrite E1, E2, E3.
  - cbn. f_equal; [|done]. unfold user_key_bytes. by rewrite E1.
  - cbn. by f_equal.
Qed.

(** Sorted rows lie between the first key and the last. *)
Lemma sorted_bounds s rows :
  Forall (fun x => key_wf (encoded_key s) x.1) rows -> StronglySorted v_lt (map row_version rows) ->
  Forall (fun x => (forall h, head rows = Some h -> ~ bytes_lt (user_key_bytes x.1) (user_key_bytes h.1)) /\
                   (forall l, last rows = Some l -> ~ bytes_lt (user_key_bytes l.1) (user_key_bytes x.1))) rows.
Proof.
  intros HK Hs. pose proof (encoded_key_prefix_free s) as K_pf. apply Forall_forall. intros x Hx.
  assert (Hle : forall i j a b, rows !! i = Some a -> rows !! j = Some b -> (i <= j)%nat ->
    ~ bytes_lt (user_key_bytes b.1) (user_key_bytes a.1)).
  { intros i j a b Ha Hb Hij. destruct (decide (i = j)) as [->|Hne].
    { rewrite Ha in Hb. injection Hb as ->. apply bytes_lt_irrefl. }
    rewrite Forall_forall in HK.
    destruct (HK a (list_elem_of_lookup_2 _ _ _ Ha)) as (Ka & Sa & _), (HK b (list_elem_of_lookup_2 _ _ _ Hb)) as (Kb & Sb & _).
    apply (v_lt_key_le (encoded_key s) K_pf (row_version a) (row_version b)); [by split..|].
    apply (StronglySorted_lookup v_lt (map row_version rows) i j); [done|lia|..]; by rewrite list_lookup_fmap, ?Ha, ?Hb. }
  apply list_elem_of_lookup in Hx as [i Hi]. split.
  - intros h Hh. apply (Hle 0%nat i); [by rewrite <- head_lookup|done|lia].
  - intros l Hl. rewrite last_lookup in Hl. apply (Hle i (pred (length rows))); [done..|].
    apply lookup_lt_Some in Hi. lia.
Qed.

(** The page entries of the rows are those of the rows as read. *)
Lemma entries_pages_ok s s' fmt rows ys es :
  Forall (fun x => key_wf (encoded_key s) x.1) rows -> Forall2 (read_back s s' fmt) rows ys ->
  Forall (entry_of_row rows) es -> StronglySorted Z.lt (map (fun e => first_row_index e.2) es) -> pages_ok ys es.
Proof.
  intros HK HF He Hs. split; [done|]. eapply Forall_impl; [exact He|]. intros e (H0 & x & Hx & Ek). split; [done|].
  destruct (Forall2_lookup_l _ _ _ _ _ HF Hx) as (y & Hy & Hxy). exists y. split; [done|].
  rewrite Forall_forall in HK.
  destruct (read_back_version s s' fmt x y (HK x (list_elem_of_lookup_2 _ _ _ Hx)) Hxy) as [-> _]. done.
Qed.

(** Ascending rows have ascending page keys, short enough for the index. *)
Lemma entries_build s rows es :
  Forall (fun x => key_wf (encoded_key s) x.1) rows -> StronglySorted v_lt (map row_version rows) ->
  Forall (fun x => Z.of_nat (length (encoded x.1)) <= MAX_KEY_LEN) rows ->
  Z.of_nat (index_bytes rows) < 2 ^ 32 -> Forall (fun e => loc_ok e.2) es ->
  Forall (entry_of_row rows) es -> StronglySorted Z.lt (map (fun e => first_row_index e.2) es) ->
  exists raw x rs, build es 16 = Ok raw /\ kv_from_bytes raw = Ok x /\ Valid x rs /\ KvIndex.keys [] rs = es.
Proof.
  intros HK Hso Hlen Hidx Hloc He Hs.
  assert (Hks : key_sorted es).
  { unfold key_sorted. apply StronglySorted_of_lookup. intros i j k1 k2 Hij H1 H2. rewrite list_lookup_fmap in H1, H2.
    destruct (es !! i) as [e1|] eqn:E1; [|done]. destruct (es !! j) as [e2|] eqn:E2; [|done]. simplify_eq/=.
    rewrite Forall_forall in He.
    destruct (He e1 (list_elem_of_lookup_2 _ _ _ E1)) as (P1 & x1 & X1 & ->).
    destruct (He e2 (list_elem_of_lookup_2 _ _ _ E2)) as (P2 & x2 & X2 & ->).
    assert (L : first_row_index e1.2 < first_row_index e2.2).
    { apply (StronglySorted_lookup Z.lt _ i j _ _ Hs Hij); by rewrite list_lookup_fmap, ?E1, ?E2. }
    assert (V : v_lt (row_version x1) (row_version x2)).
    { apply (StronglySorted_lookup v_lt (map row_version rows) (Z.to_nat (first_row_index e1.2)) (Z.to_nat (first_row_index e2.2)));
        [done|lia|..]; by rewrite list_lookup_fmap, ?X1, ?X2. }
    rewrite Forall_forall in HK. destruct (HK x1 (list_elem_of_lookup_2 _ _ _ X1)) as (_ & _ & ->).
    destruct (HK x2 (list_elem_of_lookup_2 _ _ _ X2)) as (_ & _ & ->). exact V. }
  destruct (build_total es 16) as [(raw & Hraw & _)|(e & _ & [Hex|Hn])]; [|exfalso|done].
  - assert (Hl : Z.of_nat (length raw) < 2 ^ 32).
    { apply build_length in Hraw. pose proof (entries_sublist rows es 0 He Hs) as Hsub. rewrite drop_0 in Hsub.
      specialize (Hsub (Forall_impl _ _ _ He (fun e H => proj1 H))).
      apply (sublist_sum (fun k => 28 + length k)%nat) in Hsub. rewrite !map_map in Hsub.
      unfold index_bytes in Hidx. lia. }
    destruct (build_valid es 16 raw) as (x & rs & Hx & V & Hk & _); [unfold in_u; lia|done|done|done|].
    by exists raw, x, rs.
  - apply Exists_exists in Hex as (e' & He' & Hgt). pose proof (proj1 (Forall_forall _ _) He e' He') as (_ & x & Hx & Ek).
    rewrite Ek in Hgt. pose proof (proj1 (Forall_forall _ _) Hlen x (list_elem_of_lookup_2 _ _ _ Hx)) as Hlx. cbn in Hlx. lia.
Qed.

(** A fact on user keys holds of the rows as read. *)
Lemma bounds_transfer (P : bytes -> Prop) rows ys :
  map (fun x => user_key_bytes x.1) ys = map (fun x => user_key_bytes x.1) rows ->
  Forall (fun x => P (user_key_bytes x.1)) rows -> Forall (fun x => P (user_key_bytes x.1)) ys.
Proof.
  intros E HF. apply (Forall_fmap (fun x : InternalKey * Row => user_key_bytes x.1) P).
  change (Forall P (map (fun x => user_key_bytes x.1) ys)). rewrite E.
  by apply (Forall_fmap (fun x : InternalKey * Row => user_key_bytes x.1) P).
Qed.

(** The footer of a written file. *)
Lemma open_written s s' fmt lv rows props (b : RecordBatch) (f : F) m bl raw x mj sj :
  json_schema s -> Written props b f m ->
  kv_of_props props = map (fun e => (e.1, Some e.2))
    (([(FOOTER_KEY, mj); (SCHEMA_KEY, sj)] ++ [("merutable.bloom"%string, hex_encode (to_bytes bl))]) ++
     [(KV_INDEX_FOOTER_KEY, hex_encode raw)]) ->
  meta_to_json (file_meta_of rows lv fmt 0) = Some mj -> schema_to_json s = Some sj ->
  bloom_from_bytes (to_bytes bl) = Ok bl -> kv_from_bytes raw = Ok x ->
  open f s' = Ok {| pr_source := f; pr_schema := s'; pr_meta := file_meta_of rows lv fmt 0;
                    pr_bloom := Some bl; pr_kv_index := Some x |}.
Proof.
  intros Hjs [Ho _ _ (extra & Hkv & Hextra) _] Hp Hmj Hsj Hbl Hx. unfold open, open_metadata. rewrite Ho. cbn [ok_or].
  rewrite Ok_bind, Hkv, Hp.
  assert (HE : forall k, k <> "ARROW:schema"%string -> Forall (fun e : string * option string => e.1 <> k) extra).
  { intros k Hk. eapply Forall_impl; [exact Hextra|]. cbn. congruence. }
  set (kv := kv_map _).
  assert (L : kv !! FOOTER_KEY = Some mj /\ kv !! SCHEMA_KEY = Some sj /\
    kv !! "merutable.bloom"%string = Some (hex_encode (to_bytes bl)) /\ kv !! KV_INDEX_FOOTER_KEY = Some (hex_encode raw)).
  { unfold kv. rewrite !kv_map_lookup by (by apply HE). cbn [rev app list_to_map foldr fst snd].
    rewrite lookup_insert_eq. do 3 rewrite lookup_insert_ne by done. rewrite lookup_insert_eq.
    do 2 rewrite lookup_insert_ne by done. rewrite lookup_insert_eq.
    rewrite lookup_insert_ne by done. by rewrite lookup_insert_eq. }
  destruct L as (L1 & L2 & L3 & L4). unfold decode_footer_kv, footer_entry. rewrite L1, L2, L3, L4. cbn [ok_or].
  rewrite !Ok_bind, (meta_json_roundtrip _ _ Hmj). cbn [ok_or]. rewrite Ok_bind, (schema_json_roundtrip _ _ Hjs Hsj).
  cbn [ok_or mbind option_bind]. rewrite !hex_roundtrip, Hbl, Hx. done.
Qed.

Lemma write_sorted_rows_spec s s' fmt lv rows bits :
  Writable s fmt rows bits -> extends s s' -> names_ok s' ->
  exists (f : F) bloom stats rd,
    write_sorted_rows xxh3_64 rows s lv fmt bits = Ok (Some f, bloom, with_stats stats (file_meta_of rows lv fmt (pq_len f))) /\
    open f s' = Ok rd /\ FileOk xxh3_64 (encoded_key s) rd /\ Forall2 (read_back s s' fmt) rows (rows_of rd).
Proof.
  intros [Wj Wa Wc Wn Wr Wk Ws Wb Wl Wi] Hext Hn'. pose proof (extends_names _ _ Hext Hn') as Hn.
  pose proof (bloom_new_wf (Z.max (Z.of_nat (length rows)) 1000) bits) as Hbw.
  destruct (add_all_ok xxh3_64 Hxxh (map (fun x => user_key_bytes x.1) rows) _ Hbw) as (bl & Hadd & Hblw & _ & Hmem).
  assert (Hrt : bloom_from_bytes (to_bytes bl) = Ok bl).
  { apply from_to_bytes; [done|]. rewrite (add_all_length _ _ _ _ Hadd). by apply bloom_new_small. }
  destruct (meta_to_json_total (file_meta_of rows lv fmt 0)) as [mj Hmj]. destruct (schema_to_json_total s) as [sj Hsj].
  set (base_kv := [(FOOTER_KEY, mj); (SCHEMA_KEY, sj)] ++ [("merutable.bloom"%string, hex_encode (to_bytes bl))]).
  destruct (arrow_write_pass_spec rows s lv fmt base_kv Wc Hn Wr Wn Wa) as (f1 & m1 & b1 & p1 & Hf1 & HW1 & _ & Hs1 & _ & Hn1).
  pose proof (rows_below_index rows) as Hsmall.
  destruct (extract_kv_index_entries_spec p1 b1 f1 m1 rows HW1 Hn1) as (es & Hes & Hloc & He & Hse); [by rewrite Hs1|lia|].
  destruct (entries_build s rows es Wk Ws Wl Wi Hloc He Hse) as (raw & x & rs & Hraw & Hx & HV & Hkeys).
  set (full_kv := base_kv ++ [(KV_INDEX_FOOTER_KEY, hex_encode raw)]).
  destruct (arrow_write_pass_spec rows s lv fmt full_kv Wc Hn Wr Wn Wa) as (f & m & b & p & Hf & HW & Hkv & Hs & Hrows & _).
  destruct (extract_column_stats_total p b f m s HW) as [stats Hstats].
  destruct (rows_read_back s s' fmt rows Hext Wk) as [ys Hys].
  set (rd := {| pr_source := f; pr_schema := s'; pr_meta := file_meta_of rows lv fmt 0;
                pr_bloom := Some bl; pr_kv_index := Some x |}).
  destruct (written_holds s s' fmt p b f m rd rows ys) as (sizes & _ & Hsum & HH);
    [done..|unfold rd, file_meta_of; by destruct (seq_range rows)|done|done|done| |done|].
  { eapply Forall_impl; [exact Wr|]. intros z [_ Hz]. exact Hz. }
  assert (Hro : rows_of rd = ys) by (destruct (holds_all _ _ HH) as [_ ->]; by apply concat_chunks).
  destruct (read_back_keys s s' fmt rows ys Wk Hys) as (Yk & Yu & Ye).
  exists f, (to_bytes bl), (Some stats), rd. split; [|split; [|split]].
  - unfold write_sorted_rows. assert (HM : forall A (y z : A), match rows with [] => y | _ :: _ => z end = z) by (by destruct rows).
    rewrite HM, Hadd, Ok_bind. unfold encode_footer_kv. rewrite Hmj, Hsj. cbn [ok_or]. rewrite !Ok_bind.
    fold base_kv. rewrite Hf1, Ok_bind, Hes, Ok_bind, Hraw, Ok_bind. fold full_kv. rewrite Hf, Ok_bind, Hstats. done.
  - by eapply open_written.
  - split; rewrite ?Hro.
    + by eexists.
    + done.
    + exact (read_back_sorted s s' fmt rows ys Wk Hys Ws).
    + cbn [pr_bloom rd]. intros k. destruct (bloom_line xxh3_64 Hxxh bl k Hblw) as (base & Hbase & _).
      destruct (may_contain xxh3_64 k bl) as [r|e|] eqn:Em.
      * exists r. split; [done|]. intros Hex. apply Exists_exists in Hex as (z & Hz & <-).
        assert (Hin : user_key_bytes z.1 ∈ map (fun x => user_key_bytes x.1) rows).
        { rewrite <- Yu. apply list_elem_of_In, (in_map (fun x : InternalKey * Row => user_key_bytes x.1)). by apply list_elem_of_In. }
        rewrite (Hmem _ Hin) in Em. congruence.
      * exfalso. unfold may_contain, probe_scalar in Em. by rewrite Hbase in Em.
      * exfalso. unfold may_contain, probe_scalar in Em. by rewrite Hbase in Em.
    + pose proof (sorted_bounds s rows Wk Ws) as HB. apply (bounds_transfer (fun k => key_min (pr_meta rd) = [] \/ ~ bytes_lt k (key_min (pr_meta rd))) rows ys Yu).
      eapply Forall_impl; [exact HB|]. intros z [Hz _]. right. cbn [pr_meta rd]. unfold file_meta_of.
      destruct (seq_range rows). cbn [key_min]. destruct (head rows) as [h|] eqn:Eh; [by apply Hz|]. by destruct rows.
    + pose proof (sorted_bounds s rows Wk Ws) as HB. apply (bounds_transfer (fun k => key_max (pr_meta rd) = [] \/ ~ bytes_lt (key_max (pr_meta rd)) k) rows ys Yu).
      eapply Forall_impl; [exact HB|]. intros z [_ Hz]. right. cbn [pr_meta rd]. unfold file_meta_of.
      destruct (seq_range rows). cbn [key_max]. destruct (last rows) as [l|] eqn:El; [by apply Hz|].
      by apply last_None in El.
    + cbn [pr_kv_index rd]. exists rs. split; [done|]. rewrite Hkeys. exact (entries_pages_ok s s' fmt rows ys es Wk Hys He Hse).
  - rewrite Hro. exact Hys.
Qed.

(** The first page starts at the first row. *)
Lemma extract_first_entry props (b : RecordBatch) (f : F) m rows x es :
  Written props b f m -> batch_schema b <> [] -> rows !! 0%nat = Some x -> batch_num_rows b = length rows ->
  extract_kv_index_entries rows f = Ok es -> exists loc es', es = (encoded x.1, loc) :: es'.
Proof.
  intros [Ho _ _ _ (sizes & Hnum & _ & Hsum & (oi & Hoi & HF) & _)] Hsch Hx Hn Hes.
  unfold extract_kv_index_entries, open_metadata in Hes. rewrite Ho in Hes. cbn [ok_or] in Hes. rewrite Ok_bind, Hoi in Hes.
  cbn [ok_or] in Hes. rewrite Ok_bind, Hnum in Hes.
  destruct HF as [|rg n oi sizes [Hl Hg] _].
  { cbn in Hsum. rewrite Hn in Hsum. apply lookup_lt_Some in Hx. lia. }
  destruct rg as [|pages rg]; [destruct (batch_schema b); done|]. apply Forall_cons in Hg as [((p & ps & -> & Hp) & _ & HFp) _].
  apply Forall_cons in HFp as [(Hb & _ & Ho1 & _ & Hz1) _].
  cbn [index_entries lookup list_lookup ok_or] in Hes. rewrite Ok_bind in Hes. cbn [group_entries] in Hes. rewrite Hp in Hes.
  destruct (Z.ltb_spec 0 0); [lia|]. destruct (Z.ltb_spec (pp_offset p) 0); [lia|].
  destruct (Z.ltb_spec (pp_compressed_page_size p) 0); [lia|]. change (Z.to_nat (0 + 0)) with 0%nat in Hes. rewrite Hx in Hes.
  cbn [ok_or] in Hes. rewrite Ok_bind in Hes. apply bind_Ok in Hes as (es1 & Hge & Hes).
  apply bind_Ok in Hge as (r1 & _ & [= <-]). apply bind_Ok in Hes as (n1 & _ & Hes).
  destruct (n1 <? 0); [done|]. apply bind_Ok in Hes as (r2 & _ & [= <-]). by eexists _, _.
Qed.

Lemma long_key_fails s fmt lv rows bits x :
  Forall column_ok (columns s) -> names_ok s -> rows_ok s rows -> arrow_fits s fmt rows -> Z.of_nat (length rows) < 2 ^ 64 ->
  rows !! 0%nat = Some x -> MAX_KEY_LEN < Z.of_nat (length (encoded x.1)) ->
  write_sorted_rows xxh3_64 (F := F) rows s lv fmt bits = Err (Parquet "kv_index::build: key exceeds MAX_KEY_LEN").
Proof.
  intros Wc Hn Wr Wa H64 Hx Hlong. assert (Wn : rows <> []) by (by intros ->).
  destruct (add_all_ok xxh3_64 Hxxh (map (fun x => user_key_bytes x.1) rows) _
    (bloom_new_wf (Z.max (Z.of_nat (length rows)) 1000) bits)) as (bl & Hadd & _).
  destruct (meta_to_json_total (file_meta_of rows lv fmt 0)) as [mj Hmj]. destruct (schema_to_json_total s) as [sj Hsj].
  unfold write_sorted_rows.
  assert (HM : forall A (y z : A), match rows with [] => y | _ :: _ => z end = z) by (by destruct rows).
  rewrite HM, Hadd, Ok_bind. unfold encode_footer_kv. rewrite Hmj, Hsj. cbn [ok_or]. rewrite !Ok_bind.
  destruct (arrow_write_pass_spec rows s lv fmt
    ([(FOOTER_KEY, mj); (SCHEMA_KEY, sj)] ++ [("merutable.bloom"%string, hex_encode (to_bytes bl))]) Wc Hn Wr Wn Wa)
    as (f1 & m1 & b1 & p1 & -> & HW1 & _ & Hs1 & _ & Hn1). rewrite Ok_bind.
  destruct (extract_kv_index_entries_spec p1 b1 f1 m1 rows HW1 Hn1) as (es & Hes & _); [by rewrite Hs1|done|].
  destruct (extract_first_entry p1 b1 f1 m1 rows x es HW1) as (loc & es' & ->); [by rewrite Hs1|done|done|done|].
  rewrite Hes, Ok_bind. unfold build. cbn [build_loop].
  destruct (Z.ltb_spec MAX_KEY_LEN (Z.of_nat (length (encoded x.1)))); [done|lia].
Qed.
End roundtrip.

(** ** Properties *)


(** Long keys cannot be flushed.  No check on the write path bounds a
    primary key, but when the first row of a file has an encoded key over
    65,535 bytes, writing the file fails, for every schema, format and level:
    a flush or compaction of such a row can never succeed. *)
Theorem long_key_cannot_be_written (xxh3_64 : bytes -> Z) {F : Type}
    `{!Arrow, !ArrowLaws, !ParquetFile F, !ParquetFileLaws F, !RowSerde, !RowSerdeLaws}
    `{!FooterCodec, !FooterCodecLaws, !SchemaJson, !SchemaJsonLaws} s fmt lv rows bits x :
  (forall k, 0 <= xxh3_64 k < 2 ^ 64) ->
  Forall column_ok (columns s) -> names_ok s -> rows_ok s rows -> arrow_fits s fmt rows -> Z.of_nat (length rows) < 2 ^ 64 ->
  rows !! 0%nat = Some x -> MAX_KEY_LEN < Z.of_nat (length (encoded x.1)) ->
  write_sorted_rows xxh3_64 (F := F) rows s lv fmt bits = Err (Parquet "kv_index::build: key exceeds MAX_KEY_LEN").
Proof. intros Hx. exact (long_key_fails xxh3_64 Hx s fmt lv rows bits x). Qed.

(** *** Concrete files *)
Definition extended_schema : TableSchema :=
  add_column {| name := "w"; col_type := CInt64; nullable := true; field_id := None;
                initial_default := Some (Int64 7); write_default := None |} example_schema.

Lemma ex_writable fmt : Writable example_schema fmt ex_rows 10.
Proof.
  split; [repeat constructor|apply arrow_fits_dual, ex_rows_arrow|exact ex_columns|done|exact ex_rows_fit|exact ex_rows_wf|exact ex_sorted|cbn; lia| |].
  - apply (bool_decide_eq_true_1 _). vm_compute. reflexivity.
  - vm_compute. reflexivity.
Qed.


(** A put whose key is longer than the index allows. *)
Definition long_key : InternalKey := example_key 1 (repeat Byte.x61 70000) 3 Put.
Definition long_rows : list (InternalKey * Row) :=
  [(long_key, {| fields := [Some (Int32 1); Some (Bytes (repeat Byte.x61 70000)); None] |})].

Lemma long_key_cannot_be_written_witness :
  Forall (fun x => Row_validate x.2 example_schema = Ok tt) long_rows /\
  write_sorted_rows example_hash (F := ListFile) long_rows example_schema 0 Dual 10
  = Err (Parquet "kv_index::build: key exceeds MAX_KEY_LEN").
Proof.
  split; [apply Forall_cons; split; [vm_compute; reflexivity|constructor]|].
  apply (long_key_cannot_be_written example_hash (F := ListFile) example_schema Dual 0 long_rows 10
    (long_key, {| fields := [Some (Int32 1); Some (Bytes (repeat Byte.x61 70000)); None] |})).
  - exact example_hash_range.
  - exact ex_columns.
  - exact ex_names.
  - apply Forall_cons. split; [|constructor]. split; [apply validated_fits; vm_compute; reflexivity|by eexists].
  - unfold arrow_fits, column_getters. cbn [columns example_schema]. repeat (apply Forall_cons; split; [vm_compute; discriminate|]). constructor.
  - cbn. lia.
  - reflexivity.
  - vm_compute. reflexivity.
Defined.

(** Schemas are not checked for distinct column names. *)
Definition twin_schema : TableSchema :=
  {| table_name := "t";
     columns := [ {| name := "a"; col_type := CInt32; nullable := false; field_id := None;
                     initial_default := None; write_default := None |};
                  {| name := "v"; col_type := CInt32; nullable := true; field_id := None;
                     initial_default := None; write_default := None |};
                  {| name := "v"; col_type := CInt32; nullable := true; field_id := None;
                     initial_default := None; write_default := None |} ];
     primary_key := [0%nat]; schema_id := 0; last_column_id := 0 |}.

Definition twin_rows : list (InternalKey * Row) :=
  match encode [Int32 1] 3 Put twin_schema with
  | Ok k => [(k, {| fields := [Some (Int32 1); Some (Int32 2); Some (Int32 3)] |})]
  | _ => []
  end.

(** Columns are read back by name, and a schema may repeat a name: the
    schema validates, the row validates and the columnar file is written, but
    the second of the two columns comes back with the values of the first. *)
Theorem repeated_column_name_corrupts_row :
  (validate twin_schema).2 = Ok tt /\
  Forall (fun x => Row_validate x.2 twin_schema = Ok tt) twin_rows /\
  exists (f : ListFile) bloom m rd,
    write_sorted_rows example_hash twin_rows twin_schema 1 Columnar 10 = Ok (Some f, bloom, m) /\
    open f twin_schema = Ok rd /\
    map snd twin_rows = [{| fields := [Some (Int32 1); Some (Int32 2); Some (Int32 3)] |}] /\
    map snd (rows_of rd) = [{| fields := [Some (Int32 1); Some (Int32 2); Some (Int32 2)] |}].
Proof.
  split; [vm_compute; reflexivity|]. split; [apply Forall_cons; split; [vm_compute; reflexivity|constructor]|].
  destruct (write_sorted_rows example_hash twin_rows twin_schema 1 Columnar 10)
    as [[[[f|] bloom] m]|e|] eqn:E; try (vm_compute in E; discriminate E).
  exists f, bloom, m. destruct (open f twin_schema) as [rd|e|] eqn:Eo.
  - exists rd. split; [done|]. split; [done|]. split; [reflexivity|].
    vm_compute in E. injection E as <- _ _. vm_compute in Eo. injection Eo as <-. vm_compute. reflexivity.
  - vm_compute in E. injection E as <- _ _. vm_compute in Eo. discriminate Eo.
  - vm_compute in E. injection E as <- _ _. vm_compute in Eo. discriminate Eo.
Qed.
