(* ===== verification/Cache.v ===== *)
(** * The row cache

    [src/crates/merutable/src/engine/cache.rs]: a bounded map from user keys
    to the row last read for them from a data file, with the generation
    counter that keeps a slow reader from inserting a row that a write
    has replaced in the meantime.  The lru crate is the interface [LruCache]. *)

From S2P Require Import Prelude Sequence Schema.
Local Open Scope Z_scope.

Record CacheEntry : Type := { ce_op : OpType; ce_row : Row }.

Class LruCache (C : Type) := {
  lru_new : Z -> C;
  lru_get : bytes -> C -> option CacheEntry * C;
  lru_put : bytes -> CacheEntry -> C -> C;
  lru_pop : bytes -> C -> C;
  lru_clear : C -> C;
  lru_len : C -> nat;
}.

(** The cache as a map: reading only reorders, inserting may evict others. *)
Class LruCacheLaws (C : Type) `{!LruCache C} := {
  lru_view : C -> gmap bytes CacheEntry;
  lru_view_new n : lru_view (lru_new n) = ∅;
  lru_get_result k c : (lru_get k c).1 = lru_view c !! k;
  lru_get_view k c : lru_view (lru_get k c).2 = lru_view c;
  lru_put_view k e c : lru_view (lru_put k e c) ⊆ <[k := e]> (lru_view c);
  lru_pop_view k c : lru_view (lru_pop k c) = base.delete k (lru_view c);
  lru_clear_view c : lru_view (lru_clear c) = ∅;
}.

Section cache.
Context {C : Type} `{!LruCache C}.

Record RowCache : Type := { inner : C; generation : Z; hits : Z; misses : Z }.

Definition cache_new (capacity : Z) : res RowCache :=
  if capacity =? 0 then Panic
  else Ok {| inner := lru_new capacity; generation := 0; hits := 0; misses := 0 |}.

Definition cache_get (k : bytes) (c : RowCache) : RowCache * option CacheEntry :=
  let '(e, i) := lru_get k (inner c) in
  match e with
  | Some e => ({| inner := i; generation := generation c; hits := wrap 64 (hits c + 1);
                  misses := misses c |}, Some e)
  | None => ({| inner := i; generation := generation c; hits := hits c;
                misses := wrap 64 (misses c + 1) |}, None)
  end.

Definition snapshot_generation (c : RowCache) : Z := generation c.

Definition set_inner (i : C) (c : RowCache) : RowCache :=
  {| inner := i; generation := generation c; hits := hits c; misses := misses c |}.

Definition insert_if_fresh (k : bytes) (e : CacheEntry) (captured_gen : Z) (c : RowCache) : RowCache :=
  if negb (generation c =? captured_gen) then c else set_inner (lru_put k e (inner c)) c.

Definition cache_insert (k : bytes) (e : CacheEntry) (c : RowCache) : RowCache :=
  set_inner (lru_put k e (inner c)) c.

Definition bump (c : RowCache) : RowCache :=
  {| inner := inner c; generation := wrap 64 (generation c + 1); hits := hits c; misses := misses c |}.

Definition invalidate (k : bytes) (c : RowCache) : RowCache :=
  let c := bump c in set_inner (lru_pop k (inner c)) c.

Definition cache_clear (c : RowCache) : RowCache :=
  let c := bump c in set_inner (lru_clear (inner c)) c.
End cache.
Arguments RowCache C : clear implicits.

(** ** What the cache may hold *)
Section view.
Context {C : Type} `{!LruCache C, !LruCacheLaws C}.

Definition view (c : RowCache C) : gmap bytes CacheEntry := lru_view (inner c).

(** Every entry satisfies [P]. *)
Definition cached (P : bytes -> CacheEntry -> Prop) (c : RowCache C) : Prop := map_Forall P (view c).

Lemma cache_get_spec k c : view (cache_get k c).1 = view c /\ (cache_get k c).2 = view c !! k.
Proof.
  unfold cache_get, view. pose proof (lru_get_result k (inner c)) as Hr.
  pose proof (lru_get_view k (inner c)) as Hv. destruct (lru_get k (inner c)) as [[e|] i]; cbn in *; by rewrite Hr.
Qed.

Lemma cached_get P k c : cached P c -> cached P (cache_get k c).1.
Proof. unfold cached. by rewrite (proj1 (cache_get_spec k c)). Qed.

Lemma cached_put P k e i c : cached P c -> P k e -> view i ⊆ <[k := e]> (view c) -> cached P i.
Proof.
  intros Hc He Hs k' e' Hk. eapply lookup_weaken in Hk; [|exact Hs].
  apply lookup_insert_Some in Hk as [[<- <-]|[_ Hk]]; [done|by apply Hc].
Qed.

Lemma cached_insert_if_fresh P k e g c : cached P c -> P k e -> cached P (insert_if_fresh k e g c).
Proof.
  intros Hc He. unfold insert_if_fresh. destruct (negb _); [done|].
  eapply cached_put; [done|done|]. apply lru_put_view.
Qed.

(** Invalidating a key only leaves entries of other keys. *)
Lemma cached_invalidate (P Q : bytes -> CacheEntry -> Prop) k c :
  cached P c -> (forall k' e, k' <> k -> P k' e -> Q k' e) -> cached Q (invalidate k c).
Proof.
  intros Hc HQ k' e. unfold view, invalidate, set_inner. cbn. rewrite lru_pop_view, lookup_delete_Some.
  intros [Hk He]. apply HQ; [done|]. by apply Hc.
Qed.

Lemma cached_clear P c : cached P (cache_clear c).
Proof. intros k e. unfold view. cbn. rewrite lru_clear_view. by rewrite lookup_empty. Qed.

Lemma cached_new P n c : cache_new n = Ok c -> cached P c.
Proof.
  unfold cache_new. destruct (n =? 0); [done|]. intros [= <-] k e. unfold view. cbn.
  by rewrite lru_view_new, lookup_empty.
Qed.
End view.

(** ** A list as a cache, most recently used first *)
Record ListLru : Type := { ll_cap : nat; ll_items : list (bytes * CacheEntry) }.

Definition ll_remove (k : bytes) (l : list (bytes * CacheEntry)) : list (bytes * CacheEntry) :=
  base.filter (fun x => x.1 <> k) l.

#[export] Instance list_lru : LruCache ListLru := {
  lru_new n := {| ll_cap := Z.to_nat n; ll_items := [] |};
  lru_get k c :=
    match List.find (fun x => bool_decide (x.1 = k)) (ll_items c) with
    | Some x => (Some x.2, {| ll_cap := ll_cap c; ll_items := x :: ll_remove k (ll_items c) |})
    | None => (None, c)
    end;
  lru_put k e c := {| ll_cap := ll_cap c; ll_items := take (ll_cap c) ((k, e) :: ll_remove k (ll_items c)) |};
  lru_pop k c := {| ll_cap := ll_cap c; ll_items := ll_remove k (ll_items c) |};
  lru_clear c := {| ll_cap := ll_cap c; ll_items := [] |};
  lru_len c := length (ll_items c);
}.

Definition ll_view (c : ListLru) : gmap bytes CacheEntry := list_to_map (ll_items c).

Lemma ll_lookup l k :
  (list_to_map l : gmap bytes CacheEntry) !! k = snd <$> List.find (fun x => bool_decide (x.1 = k)) l.
Proof.
  induction l as [|[k' e] l IH]; [done|]. cbn [list_to_map foldr List.find fst snd].
  case_bool_decide as E; [subst; by rewrite lookup_insert_eq|]. by rewrite lookup_insert_ne.
Qed.

Lemma ll_view_remove k l :
  (list_to_map (ll_remove k l) : gmap bytes CacheEntry) = base.delete k (list_to_map l).
Proof.
  apply map_eq. intros k'. unfold ll_remove. induction l as [|[k1 e] l IH].
  { cbn. by rewrite delete_empty. }
  rewrite filter_cons. cbn [list_to_map foldr fst snd]. destruct (decide (k1 <> k)) as [Hn|He].
  - cbn [list_to_map foldr fst snd]. destruct (decide (k1 = k')) as [<-|Hk].
    + by rewrite lookup_insert_eq, lookup_delete_ne, lookup_insert_eq.
    + rewrite lookup_insert_ne, IH by done. destruct (decide (k = k')) as [<-|].
      * by rewrite !lookup_delete_eq.
      * by rewrite !lookup_delete_ne, lookup_insert_ne.
  - assert (k1 = k) as -> by (destruct (decide (k1 = k)); [done|contradiction]). rewrite IH.
    destruct (decide (k = k')) as [<-|]; [by rewrite !lookup_delete_eq|].
    by rewrite !lookup_delete_ne, lookup_insert_ne.
Qed.

Lemma ll_view_take n l :
  (list_to_map (take n l) : gmap bytes CacheEntry) ⊆ list_to_map l.
Proof.
  revert n. induction l as [|[k e] l IH]; intros [|n]; cbn [take list_to_map foldr]; try apply map_empty_subseteq.
  apply insert_mono, IH.
Qed.

#[export] Instance list_lru_laws : LruCacheLaws ListLru.
Proof.
  refine {| lru_view := ll_view |}.
  - done.
  - intros k c. unfold ll_view. rewrite ll_lookup. cbn. by destruct (List.find _ _).
  - intros k c. cbn. destruct (List.find _ _) as [x|] eqn:E; [|done]. unfold ll_view. cbn.
    pose proof (ll_lookup (ll_items c) k) as Hl. rewrite E in Hl. cbn in Hl.
    apply List.find_some in E as [_ Hx%bool_decide_eq_true]. rewrite Hx, ll_view_remove.
    by apply insert_delete_id.
  - intros k e c. unfold ll_view. cbn [lru_put list_lru ll_items]. etransitivity; [apply ll_view_take|].
    cbn [list_to_map foldr fst snd]. rewrite ll_view_remove, insert_delete_eq. done.
  - intros k c. apply ll_view_remove.
  - done.
Defined.
