(* ===== verification/ReadPath.v ===== *)
(** * Reading through the whole store

    [src/crates/merutable/src/engine/read_path.rs]: point lookups (memtable,
    row cache, L0 newest first, one file per lower level) and range scans.
    The state is what the read path touches of [MeruEngine]: the memtables,
    the row cache, the current version and what reading the files it names
    gives.  A lookup is
    split after its memtable stop, and a scan after it pinned the version, so
    that other operations can be put in between. *)

From S2P Require Import Prelude Sequence Schema Key RowCodec Mvcc WalBatch Memtable LsmVersion DeletionVector Bloom KvIndex Arrow Codec FileReader Cache.
Local Open Scope Z_scope.

Section read_path.
Context (xxh3_64 crc32 : bytes -> Z) {F M C B : Type}.
Context `{!Arrow, !ParquetFile F, !FooterCodec, !SchemaJson, !Roaring B}.
Context `{!SkipMap M, !LruCache C, !RowSerde}.

Record MeruEngine : Type := {
  en_schema : TableSchema;
  en_memtable : MemtableManager M;
  en_cache : option (RowCache C);
  en_version : Version;
  en_visible : SeqNum;
  en_files : string -> option F;
  en_puffins : string -> option bytes;
}.

Definition read_seq (en : MeruEngine) : SeqNum := en_visible en.

Definition set_cache (c : option (RowCache C)) (en : MeruEngine) : MeruEngine :=
  {| en_schema := en_schema en; en_memtable := en_memtable en; en_cache := c;
     en_version := en_version en; en_visible := en_visible en; en_files := en_files en;
     en_puffins := en_puffins en |}.

(** The deletion vector of a file; [as usize] on the manifest's [i64]s. *)
Definition load_dv (en : MeruEngine) (f : DataFileMeta) : res (option B) :=
  match dv_path f, dv_offset f, dv_length f with
  | Some p, Some offset, Some len =>
      puffin_bytes ← ok_or (en_puffins en p) Io;
      let start := wrap 64 offset in
      let e := start + wrap 64 len in
      if u64_max <? e then Err (Corruption "DV offset+length overflow")
      else if Z.of_nat (length puffin_bytes) <? e then Err (Corruption "DV blob out of range")
      else
        blob ← slice puffin_bytes (Z.to_nat start) (Z.to_nat (e - start));
        dv ← from_puffin_blob crc32 blob;
        Ok (Some (bitmap dv))
  | None, None, None => Ok None
  | _, _, _ => Err (Corruption "inconsistent DV coords")
  end.

Definition open_file (en : MeruEngine) (f : DataFileMeta) : res (ParquetReader F * option B) :=
  source ← ok_or (en_files en (path f)) Io;
  rd ← FileReader.open source (en_schema en);
  dv ← load_dv en f;
  Ok (rd, dv).

Definition range_contains (kmin kmax probe : bytes) : bool :=
  if negb (bytes_eqb kmin []) && bytes_ltb probe kmin then false
  else if negb (bytes_eqb kmax []) && bytes_ltb kmax probe then false
  else true.

Definition get_in_file (en : MeruEngine) (uk : bytes) (r : SeqNum) (f : DataFileMeta)
    : res (option (InternalKey * Row)) :=
  '(rd, dv) ← open_file en f; FileReader.get xxh3_64 rd uk r dv.

Fixpoint search_l0 (en : MeruEngine) (uk : bytes) (r : SeqNum) (fs : list DataFileMeta)
    : res (option (InternalKey * Row)) :=
  match fs with
  | [] => Ok None
  | f :: fs =>
      if negb (range_contains (key_min (meta f)) (key_max (meta f)) uk) then search_l0 en uk r fs
      else
        hit ← get_in_file en uk r f;
        match hit with
        | Some h => Ok (Some h)
        | None => search_l0 en uk r fs
        end
  end.

Fixpoint search_levels (en : MeruEngine) (v : Version) (uk : bytes) (r : SeqNum) (ls : list Z)
    : res (option (InternalKey * Row)) :=
  match ls with
  | [] => Ok None
  | l :: ls =>
      match find_file_for_key v l uk with
      | None => search_levels en v uk r ls
      | Some f =>
          hit ← get_in_file en uk r f;
          match hit with
          | Some h => Ok (Some h)
          | None => search_levels en v uk r ls
          end
      end
  end.

(** [1..=max_level]. *)
Definition lower_levels (v : Version) : list Z := map Z.of_nat (List.seq 1 (Z.to_nat (max_level v))).

(** Stops 2 and 3 of a lookup, in the pinned version [v]. *)
Definition disk_lookup (en : MeruEngine) (v : Version) (uk : bytes) (r : SeqNum)
    : res (option (InternalKey * Row)) :=
  hit ← search_l0 en uk r (files_at v 0);
  match hit with
  | Some h => Ok (Some h)
  | None => search_levels en v uk r (lower_levels v)
  end.

Definition row_of_hit (h : InternalKey * Row) : option Row :=
  match op_type h.1 with Delete => None | Put => Some h.2 end.

(** Stop 1: [Some None] is a tombstone. *)
Definition memtable_stop (en : MeruEngine) (uk : bytes) (r : SeqNum) : res (option (option Row)) :=
  o ← mm_get uk r (en_memtable en);
  match o with
  | None => Ok None
  | Some e =>
      match e_op e with
      | Delete => Ok (Some None)
      | Put => row ← decode_row (e_value e); Ok (Some (Some row))
      end
  end.

(** The rest of a lookup once the memtables had no version: the row cache, the
    generation, the files, and the insertion into the cache. *)
Definition after_memtable (en : MeruEngine) (uk : bytes) (r : SeqNum) : MeruEngine * res (option Row) :=
  match en_cache en with
  | Some c =>
      match cache_get uk c with
      | (c, Some e) =>
          (set_cache (Some c) en,
           Ok (match ce_op e with Delete => None | Put => Some (ce_row e) end))
      | (c, None) =>
          let en := set_cache (Some c) en in
          let gen := snapshot_generation c in
          match disk_lookup en (en_version en) uk r with
          | Ok (Some h) =>
              (set_cache (Some (insert_if_fresh uk {| ce_op := op_type h.1; ce_row := h.2 |} gen c)) en,
               Ok (row_of_hit h))
          | Ok None => (en, Ok None)
          | Err e => (en, Err e)
          | Panic => (en, Panic)
          end
      end
  | None =>
      (en, h ← disk_lookup en (en_version en) uk r; Ok (o ← h; row_of_hit o))
  end.

Definition point_lookup (en : MeruEngine) (pk_values : list FieldValue) : MeruEngine * res (option Row) :=
  let r := read_seq en in
  match encode pk_values r Put (en_schema en) with
  | Ok ik =>
      let uk := user_key_bytes ik in
      match memtable_stop en uk r with
      | Ok (Some o) => (en, Ok o)
      | Ok None => after_memtable en uk r
      | Err e => (en, Err e)
      | Panic => (en, Panic)
      end
  | Err e => (en, Err e)
  | Panic => (en, Panic)
  end.

Definition point_lookup_at_seq (en : MeruEngine) (uk : bytes) (r : SeqNum) : res (option Row) :=
  m ← memtable_stop en uk r;
  match m with
  | Some o => Ok o
  | None => h ← disk_lookup en (en_version en) uk r; Ok (o ← h; row_of_hit o)
  end.

(** ** Range scans *)
Definition encode_bound (en : MeruEngine) (pk : option (list FieldValue)) : res (option bytes) :=
  match pk with
  | None => Ok None
  | Some pk => ik ← encode pk (read_seq en) Put (en_schema en); Ok (Some (user_key_bytes ik))
  end.

(** The memtable entries of the range, with keys decoded from their wire form. *)
Fixpoint harvest_mem (en : MeruEngine) (start_bytes end_bytes : option bytes) (es : list MemEntry)
    : res (list (InternalKey * Row * OpType)) :=
  match es with
  | [] => Ok []
  | e :: es =>
      let uk := me_user_key e in
      if match start_bytes with Some start => bytes_ltb uk start | None => false end then
        harvest_mem en start_bytes end_bytes es
      else if match end_bytes with Some end_ => bytes_leb end_ uk | None => false end then
        harvest_mem en start_bytes end_bytes es
      else
        let op := e_op (me_entry e) in
        let wire := uk ++ be_split 8 (tag_word (me_seq e) op) in
        ikey ← decode wire (en_schema en);
        row ← match op, e_value (me_entry e) with
              | Put, (_ :: _) as v => decode_row v
              | _, _ => Ok Row_default
              end;
        rest ← harvest_mem en start_bytes end_bytes es;
        Ok ((ikey, row, op) :: rest)
  end.

Definition file_outside (start_bytes end_bytes : option bytes) (f : DataFileMeta) : bool :=
  match start_bytes with
  | Some start => negb (bytes_eqb (key_max (meta f)) []) && bytes_ltb (key_max (meta f)) start
  | None => false
  end ||
  match end_bytes with
  | Some end_ => negb (bytes_eqb (key_min (meta f)) []) && bytes_leb end_ (key_min (meta f))
  | None => false
  end.

Fixpoint harvest_files (en : MeruEngine) (start_bytes end_bytes : option bytes) (r : SeqNum)
    (fs : list DataFileMeta) : res (list (InternalKey * Row * OpType)) :=
  match fs with
  | [] => Ok []
  | f :: fs =>
      if file_outside start_bytes end_bytes f then harvest_files en start_bytes end_bytes r fs
      else
        '(rd, dv) ← open_file en f;
        rows ← pr_scan rd start_bytes end_bytes r dv;
        rest ← harvest_files en start_bytes end_bytes r fs;
        Ok (map (fun x => (x.1, x.2, op_type x.1)) rows ++ rest)
  end.

(** [0..=max_level], every file. *)
Definition all_files (v : Version) : list DataFileMeta :=
  concat (map (fun n => files_at v (Z.of_nat n)) (List.seq 0 (S (Z.to_nat (max_level v))))).

Definition harvest_leb (a b : InternalKey * Row * OpType) : bool :=
  match InternalKey_cmp a.1.1 b.1.1 with Gt => false | _ => true end.

Fixpoint dedup_harvest (last_uk : option bytes) (h : list (InternalKey * Row * OpType))
    : list (InternalKey * Row) :=
  match h with
  | [] => []
  | (ik, row, op) :: h =>
      let uk := user_key_bytes ik in
      if bool_decide (last_uk = Some uk) then dedup_harvest last_uk h
      else
        match op with
        | Delete => dedup_harvest (Some uk) h
        | Put => (ik, row) :: dedup_harvest (Some uk) h
        end
  end.

(** A scan over the version [v] it pinned before. *)
Definition range_scan_pinned (v : Version) (en : MeruEngine) (start_pk end_pk : option (list FieldValue))
    : res (list (InternalKey * Row)) :=
  let r := read_seq en in
  start_bytes ← encode_bound en start_pk;
  end_bytes ← encode_bound en end_pk;
  snapshots ← snapshot_entries r (en_memtable en);
  mem ← harvest_mem en start_bytes end_bytes (concat snapshots);
  files ← harvest_files en start_bytes end_bytes r (all_files v);
  Ok (dedup_harvest None (sort_by harvest_leb (mem ++ files))).

Definition range_scan (en : MeruEngine) (start_pk end_pk : option (list FieldValue))
    : res (list (InternalKey * Row)) :=
  range_scan_pinned (en_version en) en start_pk end_pk.
End read_path.
Arguments MeruEngine F M C : clear implicits.

(** ** What an engine holds *)

(** Rows of tombstones do not matter. *)
Definition live_val (op : OpType) (row : Row) : Row :=
  match op with Put => row | Delete => Row_default end.

Definition mem_row `{!RowSerde} (v : VersionOf bytes) : Row :=
  live_val (v_op v) (match decode_row (v_val v) with Ok row => row | _ => Row_default end).
Definition file_row (v : VersionOf (InternalKey * Row)) : Row := live_val (v_op v) (v_val v).2.

(** The row a reader gets from the version it sees. *)
Definition outcome (o : option (VersionOf Row)) : option Row :=
  v ← o; match v_op v with Put => Some (v_val v) | Delete => None end.

Section contents.
Context (xxh3_64 crc32 : bytes -> Z) {F M C B : Type}.
Context `{AR : !Arrow, PF : !ParquetFile F}.
Context `{FC : !FooterCodec, SJ : !SchemaJson, RB : !Roaring B}.
Context `{SM : !SkipMap M, SML : !SkipMapLaws M, LC : !LruCache C, LCL : !LruCacheLaws C, RS : !RowSerde}.
Implicit Types (en : MeruEngine F M C) (f : DataFileMeta) (v : Version).
Local Abbreviation content_t := (DataFileMeta -> list (VersionOf (InternalKey * Row))).
Local Abbreviation key_of en := (encoded_key (en_schema en)).

(** The file opens, is laid out as the writer does, and shows [vs], all in
    the key range of its metadata. *)
Record FileState en f (vs : list (VersionOf (InternalKey * Row))) : Prop := {
  fs_open : exists rd (dv : option B), open_file crc32 en f = Ok (rd, dv) /\
    FileOk xxh3_64 (key_of en) rd /\ vs = live_versions (rows_of rd) 0 dv;
  fs_range x : x ∈ vs -> range_contains (key_min (meta f)) (key_max (meta f)) (v_key x) = true;
}.

Definition level_versions v (content : content_t) (l : Z) : list (VersionOf (InternalKey * Row)) :=
  concat (map content (files_at v l)).

Definition disk_layers v (content : content_t) : list (list (VersionOf (InternalKey * Row))) :=
  map content (files_at v 0) ++ map (level_versions v content) (lower_levels v).

Definition layers en ts (content : content_t) : list (list (VersionOf Row)) :=
  map (vmap mem_row) (a_all ts) :: map (map (vmap file_row)) (disk_layers (en_version en) content).

(** Every version the engine holds. *)
Definition all_versions en ts (content : content_t) : list (VersionOf Row) := concat (layers en ts content).

Record EngineOk en ts (content : content_t) : Prop := {
  eo_mem : Forall2 (table_holds (key_of en)) (active (en_memtable en) :: rev (immutable (en_memtable en))) ts;
  eo_newer : StronglySorted newer ts;
  eo_rows x : x ∈ a_all ts -> (v_op x = Put -> exists row, decode_row (v_val x) = Ok row) /\
    exists vals, decode_pk_fields (v_key x) (en_schema en) = Ok vals;
  eo_files l f : f ∈ files_at (en_version en) l -> FileState en f (content f);
  eo_levels l : 1 <= l -> level_ok (files_at (en_version en) l) /\
    forall f x, f ∈ files_at (en_version en) l -> x ∈ content f -> covers (v_key x) f = true;
  eo_shadow : ForallOrdPairs shadows (layers en ts content);
}.

(** ** Lookups in files *)
Lemma get_in_file_spec en f vs uk r :
  FileState en f vs -> key_of en uk ->
  get_in_file xxh3_64 crc32 (B := B) en uk r f = Ok (v_val <$> newest vs uk r).
Proof.
  intros [(rd & dv & Ho & Hf & ->) _] Hk. unfold get_in_file. rewrite Ho, Ok_bind.
  rewrite (get_full_scan xxh3_64 (key_of en) (encoded_key_prefix_free _)) by done.
  by rewrite (find_visible_newest xxh3_64 (key_of en) (encoded_key_prefix_free _)).
Qed.

Lemma search_l0_spec en (content : content_t) uk r fs :
  Forall (fun f => FileState en f (content f)) fs -> key_of en uk ->
  search_l0 xxh3_64 crc32 (B := B) en uk r fs = Ok (v_val <$> first_hit (map content fs) uk r).
Proof.
  intros Hfs Hk. induction Hfs as [|f fs Hf _ IH]; [done|]. cbn [search_l0 map first_hit].
  destruct (range_contains _ _ uk) eqn:Er; cbn [negb].
  - rewrite (get_in_file_spec en f (content f)), Ok_bind by done. by destruct (newest (content f) uk r).
  - rewrite (proj2 (newest_None (content f) uk r)); [done|]. intros x Hx.
    destruct (visible uk r x) eqn:Ev; [|done]. apply visible_spec in Ev as [<- _].
    by rewrite (fs_range _ _ _ Hf x Hx) in Er.
Qed.

(** Only one file of a level may hold a key. *)
Lemma level_newest v (content : content_t) l uk r :
  level_ok (files_at v l) ->
  (forall f x, f ∈ files_at v l -> x ∈ content f -> covers (v_key x) f = true) ->
  newest (level_versions v content l) uk r
  = (f ← find_file_for_key v l uk; newest (content f) uk r).
Proof.
  intros Hok Hcov. rewrite find_file_linear by done. unfold level_versions.
  assert (HN : forall f, f ∈ files_at v l -> covers uk f = false -> newest (content f) uk r = None).
  { intros f Hf Hc. apply newest_None. intros x Hx. destruct (visible uk r x) eqn:Ev; [|done].
    apply visible_spec in Ev as [<- _]. by rewrite (Hcov f x Hf Hx) in Hc. }
  clear Hcov. destruct Hok as [_ Hs]. induction Hs as [|f fs Hs IH Hb]; [done|].
  cbn [map concat List.find]. rewrite newest_app. destruct (covers uk f) eqn:Ec.
  - assert (newest (concat (map content fs)) uk r = None) as ->.
    2:{ cbn. by destruct (newest (content f) uk r). }
    apply newest_None. intros x Hx. apply list_elem_of_In, in_concat in Hx as (l' & Hl' & Hx).
    apply in_map_iff in Hl' as (g & <- & Hg). apply list_elem_of_In in Hx, Hg.
    assert (Hg' : covers uk g = false).
    { rewrite Forall_forall in Hb. specialize (Hb g Hg). unfold before in Hb. unfold covers in *.
      apply andb_true_iff in Ec as [_ Ec]. apply andb_false_intro1, bytes_leb_false.
      rewrite bytes_leb_spec in Ec. destruct (bytes_cmp_spec uk (key_max (meta f))) as [->|L|L]; [done| |done].
      by eapply bytes_lt_trans. }
    apply (proj1 (newest_None (content g) uk r)); [|done]. apply HN; [by right|done].
  - rewrite (HN f) by (done || left). cbn. apply IH. intros g Hg. apply HN. by right.
Qed.

Lemma search_levels_spec en ts (content : content_t) uk r ls :
  EngineOk en ts content -> key_of en uk -> Forall (fun l => 1 <= l) ls ->
  search_levels xxh3_64 crc32 (B := B) en (en_version en) uk r ls
  = Ok (v_val <$> first_hit (map (level_versions (en_version en) content) ls) uk r).
Proof.
  intros HE Hk Hls. induction Hls as [|l ls Hl _ IH]; [done|]. cbn [search_levels map first_hit].
  destruct (eo_levels _ _ _ HE l Hl) as [Hok Hcov]. rewrite level_newest by done.
  destruct (find_file_for_key (en_version en) l uk) as [f|] eqn:Ef; [|done].
  rewrite find_file_linear in Ef by done. apply List.find_some in Ef as [Hf%list_elem_of_In _].
  rewrite (get_in_file_spec en f (content f)), Ok_bind by (done || by eapply eo_files).
  cbn. by destruct (newest (content f) uk r).
Qed.

Lemma lower_levels_pos v : Forall (fun l => 1 <= l) (lower_levels v).
Proof.
  apply List.Forall_forall. intros l Hl. unfold lower_levels in Hl. apply in_map_iff in Hl as (n & <- & Hn).
  apply in_seq in Hn. lia.
Qed.

Lemma disk_lookup_spec en ts (content : content_t) uk r :
  EngineOk en ts content -> key_of en uk ->
  disk_lookup xxh3_64 crc32 (B := B) en (en_version en) uk r
  = Ok (v_val <$> first_hit (disk_layers (en_version en) content) uk r).
Proof.
  intros HE Hk. unfold disk_lookup, disk_layers. rewrite (search_l0_spec en content), Ok_bind; [|..|done].
  2:{ apply Forall_forall. intros f Hf. by eapply eo_files. }
  rewrite first_hit_app. destruct (first_hit (map content (files_at (en_version en) 0)) uk r); [done|]. cbn.
  by eapply search_levels_spec; [..|apply lower_levels_pos].
Qed.

(** ** Point lookups *)
Lemma first_hit_in (ls : list (list (VersionOf (InternalKey * Row)))) k r x :
  first_hit ls k r = Some x -> exists l, l ∈ ls /\ x ∈ l.
Proof.
  induction ls as [|l ls IH]; [done|]. cbn. destruct (newest l k r) as [y|] eqn:E.
  - intros [= <-]. apply newest_is_newest in E as [? _]. exists l. split; [left|done].
  - intros H. destruct (IH H) as (l' & ? & ?). exists l'. split; [by right|done].
Qed.

Lemma first_hit_map {V W} (g : VersionOf V -> W) ls k r :
  first_hit (map (map (vmap g)) ls) k r = vmap g <$> first_hit ls k r.
Proof.
  induction ls as [|l ls IH]; [done|]. cbn [map first_hit]. rewrite newest_map, IH.
  by destruct (newest l k r).
Qed.

(** A version of a file carries its own key. *)
Lemma content_val en f vs x : FileState en f vs -> x ∈ vs -> op_type (v_val x).1 = v_op x.
Proof.
  intros [(rd & dv & _ & _ & ->) _] Hx. by destruct (live_versions_in _ _ _ _ Hx) as (y & _ & ->).
Qed.

Lemma disk_hit en ts (content : content_t) k r x :
  EngineOk en ts content -> first_hit (disk_layers (en_version en) content) k r = Some x ->
  op_type (v_val x).1 = v_op x.
Proof.
  intros HE (l & Hl & Hx)%first_hit_in. unfold disk_layers in Hl.
  apply elem_of_app in Hl as [Hl|Hl]; apply list_elem_of_In, in_map_iff in Hl as (y & <- & Hy).
  - apply list_elem_of_In in Hy. eapply content_val; [by eapply eo_files|done].
  - unfold level_versions in Hx. apply list_elem_of_In, in_concat in Hx as (l' & Hl' & Hx).
    apply in_map_iff in Hl' as (f & <- & Hf). apply list_elem_of_In in Hx, Hf.
    eapply content_val; [by eapply eo_files|done].
Qed.

(** What the files have, when the memtables have nothing. *)
Definition disk_newest en (content : content_t) uk r : option (VersionOf (InternalKey * Row)) :=
  first_hit (disk_layers (en_version en) content) uk r.

Lemma all_newest en ts (content : content_t) uk r :
  EngineOk en ts content ->
  newest (all_versions en ts content) uk r
  = match newest (a_all ts) uk r with
    | Some v => Some (vmap mem_row v)
    | None => vmap file_row <$> disk_newest en content uk r
    end.
Proof.
  intros HE. unfold all_versions. rewrite newest_first_hit by apply HE. cbn [layers first_hit].
  rewrite newest_map, first_hit_map. by destruct (newest (a_all ts) uk r).
Qed.

Lemma memtable_stop_spec en ts (content : content_t) uk r :
  EngineOk en ts content -> key_of en uk ->
  memtable_stop en uk r = Ok ((fun x => outcome (Some (vmap mem_row x))) <$> newest (a_all ts) uk r).
Proof.
  intros HE Hk. unfold memtable_stop, mm_get.
  rewrite (get_first_newest (key_of en) (encoded_key_prefix_free _) _ ts) by (done || apply HE).
  rewrite Ok_bind. destruct (newest (a_all ts) uk r) as [v|] eqn:E; [|done]. cbn [fmap option_fmap option_map].
  unfold entry_of, outcome. cbn [e_op e_value mbind option_bind vmap v_op v_val].
  apply newest_is_newest in E as [Hv _]. destruct (eo_rows _ _ _ HE v Hv) as [Hrow _].
  unfold mem_row. destruct (v_op v) eqn:Eo; [done|]. destruct (Hrow eq_refl) as [row ->]. done.
Qed.

Lemma disk_outcome en ts (content : content_t) uk r :
  EngineOk en ts content ->
  (h ← (v_val <$> disk_newest en content uk r); row_of_hit h)
  = outcome (vmap file_row <$> disk_newest en content uk r).
Proof.
  intros HE. destruct (disk_newest en content uk r) as [x|] eqn:E; [|done].
  pose proof (disk_hit en ts content uk r x HE E) as Ho. unfold row_of_hit, outcome, file_row.
  cbn [fmap option_fmap option_map mbind option_bind vmap v_op v_val]. rewrite Ho. by destruct (v_op x).
Qed.

Lemma lookup_at_seq_spec en ts (content : content_t) uk r :
  EngineOk en ts content -> key_of en uk ->
  point_lookup_at_seq xxh3_64 crc32 (B := B) en uk r
  = Ok (outcome (newest (all_versions en ts content) uk r)).
Proof.
  intros HE Hk. unfold point_lookup_at_seq. rewrite (memtable_stop_spec en ts content), Ok_bind by done.
  rewrite all_newest by done. destruct (newest (a_all ts) uk r); [done|]. cbn [fmap option_fmap option_map].
  rewrite (disk_lookup_spec en ts content), Ok_bind by done. f_equal.
  by apply (disk_outcome en ts).
Qed.

(** Reading files does not depend on the cache. *)
Lemma disk_lookup_cache c en v uk r :
  disk_lookup xxh3_64 crc32 (B := B) (set_cache c en) v uk r = disk_lookup xxh3_64 crc32 (B := B) en v uk r.
Proof.
  assert (E1 : forall fs, search_l0 xxh3_64 crc32 (B := B) (set_cache c en) uk r fs
                        = search_l0 xxh3_64 crc32 (B := B) en uk r fs).
  { induction fs as [|f fs IH]; [done|]. cbn [search_l0]. by rewrite IH. }
  assert (E2 : forall ls, search_levels xxh3_64 crc32 (B := B) (set_cache c en) v uk r ls
                        = search_levels xxh3_64 crc32 (B := B) en v uk r ls).
  { induction ls as [|l ls IH]; [done|]. cbn [search_levels]. by rewrite IH. }
  unfold disk_lookup. by rewrite E1, E2.
Qed.

(** Cached rows are the ones a reader would find. *)
Definition cache_right en (all : list (VersionOf Row)) (k : bytes) (e : CacheEntry) : Prop :=
  exists x, newest all k (read_seq en) = Some x /\ v_op x = ce_op e /\
    v_val x = live_val (ce_op e) (ce_row e).

Definition CacheOk en (all : list (VersionOf Row)) : Prop :=
  match en_cache en with
  | Some c => cached (cache_right en all) c
  | None => True
  end.

Lemma after_memtable_spec en ts (content : content_t) uk :
  EngineOk en ts content -> CacheOk en (all_versions en ts content) -> key_of en uk ->
  newest (a_all ts) uk (read_seq en) = None ->
  exists en', after_memtable xxh3_64 crc32 (B := B) en uk (read_seq en)
    = (en', Ok (outcome (newest (all_versions en ts content) uk (read_seq en)))) /\
    en' = set_cache (en_cache en') en /\ CacheOk en' (all_versions en ts content).
Proof.
  intros HE HC Hk Hmem. set (all := all_versions en ts content) in *.
  assert (HN : newest all uk (read_seq en) = vmap file_row <$> disk_newest en content uk (read_seq en)).
  { unfold all. rewrite all_newest by done. by rewrite Hmem. }
  assert (HD : forall c, disk_lookup xxh3_64 crc32 (B := B) (set_cache c en) (en_version en) uk (read_seq en)
                 = Ok (v_val <$> disk_newest en content uk (read_seq en))).
  { intros c. rewrite disk_lookup_cache. by apply (disk_lookup_spec en ts). }
  unfold after_memtable, CacheOk in *. destruct (en_cache en) as [c|] eqn:Ec.
  - pose proof (cache_get_spec uk c) as [Hv Hr]. pose proof (cached_get _ uk c HC) as HC'.
    destruct (cache_get uk c) as [c' [e|]]; cbn [fst snd] in *.
    + exists (set_cache (Some c') en). split; [|split; [reflexivity|exact HC']]. f_equal. f_equal.
      destruct (HC uk e (eq_sym Hr)) as (v & -> & Hop & Hval). unfold outcome. cbn. rewrite Hop, Hval.
      by destruct (ce_op e).
    + cbn [en_version set_cache]. rewrite HD. rewrite HN.
      destruct (disk_newest en content uk (read_seq en)) as [x|] eqn:Ex; cbn [fmap option_fmap option_map].
      * pose proof (disk_outcome en ts content uk (read_seq en) HE) as Ho. rewrite Ex in Ho.
        eexists. split; [f_equal; f_equal; exact Ho|]. split; [reflexivity|]. cbn [en_cache set_cache].
        apply cached_insert_if_fresh; [exact HC'|]. exists (vmap file_row x).
        split; [exact HN|]. pose proof (disk_hit en ts content _ _ x HE Ex) as Hop.
        cbn [ce_op ce_row]. by rewrite Hop.
      * eexists. split; [reflexivity|]. by split.
  - exists en. specialize (HD None). assert (set_cache None en = en) as E by (destruct en; cbn in *; by rewrite Ec).
    rewrite E in HD. rewrite HD, Ok_bind, HN. split; [|split; [|by rewrite Ec]].
    + f_equal. f_equal. by apply (disk_outcome en ts).
    + by rewrite Ec.
Qed.

Lemma point_lookup_spec en ts (content : content_t) pk ik :
  EngineOk en ts content -> CacheOk en (all_versions en ts content) ->
  Forall FieldValue_wf pk -> encode pk (read_seq en) Put (en_schema en) = Ok ik ->
  (exists en', point_lookup xxh3_64 crc32 (B := B) en pk
     = (en', Ok (outcome (newest (all_versions en ts content) (user_key_bytes ik) (read_seq en)))) /\
     en' = set_cache (en_cache en') en /\ CacheOk en' (all_versions en ts content)) /\
  (forall r, point_lookup_at_seq xxh3_64 crc32 (B := B) en (user_key_bytes ik) r
     = Ok (outcome (newest (all_versions en ts content) (user_key_bytes ik) r))).
Proof.
  intros HE HC Hpk Hik. assert (Hk : encoded_key (en_schema en) (user_key_bytes ik)).
  { destruct (encode_inv _ _ _ _ _ Hik) as (b & Hb & _ & _ & _ & _ & _ & ->). by exists pk. }
  split; [|intros r; by eapply lookup_at_seq_spec].
  unfold point_lookup. rewrite Hik, (memtable_stop_spec en ts content) by done.
  destruct (newest (a_all ts) (user_key_bytes ik) (read_seq en)) as [v|] eqn:Em; cbn [fmap option_fmap option_map].
  - exists en. rewrite (all_newest en ts content) by done. rewrite Em. split; [done|].
    split; [by destruct en|done].
  - by eapply after_memtable_spec.
Qed.

(** ** Range scans *)
Local Abbreviation item := (InternalKey * Row * OpType)%type.

Definition item_version (i : item) : VersionOf Row :=
  {| v_key := user_key_bytes i.1.1; v_seq := seq i.1.1; v_op := i.2; v_val := live_val i.2 i.1.2 |}.

(** Items whose key is in its wire form. *)
Definition item_ok en (i : item) : Prop := key_wf (key_of en) i.1.1 /\ op_type i.1.1 = i.2.

(** In the scanned range. *)
Definition bounded (sb eb : option bytes) {V} (x : VersionOf V) : bool := in_bounds sb eb (v_key x).

Lemma bounds_gate sb eb k :
  in_bounds sb eb k
  = negb (match sb with Some a => bytes_ltb k a | None => false end) &&
    negb (match eb with Some b => bytes_leb b k | None => false end).
Proof.
  unfold in_bounds. destruct sb, eb; cbn; rewrite ?bytes_leb_negb, ?negb_involutive; done.
Qed.

Lemma user_key_wire b sq op vals sq' op' :
  user_key_bytes {| encoded := b ++ be_split 8 (tag_word sq op); seq := sq'; op_type := op'; pk_vals := vals |} = b.
Proof.
  unfold user_key_bytes. cbn [encoded]. rewrite length_app, be_split_length.
  replace (length b + 8 - 8)%nat with (length b) by lia. apply take_app_length.
Qed.

Lemma mem_storable en ts (content : content_t) x :
  EngineOk en ts content -> x ∈ a_all ts -> storable (key_of en) x.
Proof.
  intros HE Hx. unfold a_all in Hx. apply list_elem_of_In, in_concat in Hx as (l & Hl & Hx).
  apply in_map_iff in Hl as (t & <- & Ht). apply list_elem_of_In, list_elem_of_lookup in Ht as [n Hn].
  destruct (Forall2_lookup_r _ _ _ _ _ (eo_mem _ _ _ HE) Hn) as (m & _ & _ & (ws & _ & P & _ & HF & _)).
  apply list_elem_of_In in Hx. rewrite <- P in Hx. rewrite Forall_forall in HF. by apply HF.
Qed.

Lemma harvest_mem_spec en ts (content : content_t) sb eb vs :
  EngineOk en ts content -> (forall x, x ∈ vs -> x ∈ a_all ts) ->
  exists items, harvest_mem en sb eb (map mem_entry_of vs) = Ok items /\
    map item_version items = map (vmap mem_row) (List.filter (bounded sb eb) vs) /\
    Forall (item_ok en) items.
Proof.
  intros HE. induction vs as [|x vs IH]; intros Hin; [by exists []|].
  destruct IH as (items & Hi & Hm & Hok). { intros y Hy. apply Hin. by right. }
  cbn [map harvest_mem List.filter mem_entry_of me_user_key me_entry me_seq entry_of e_op e_value].
  unfold bounded at 1. rewrite bounds_gate.
  destruct (match sb with Some a => bytes_ltb (v_key x) a | None => false end); cbn [negb andb]; [eauto|].
  destruct (match eb with Some b => bytes_leb b (v_key x) | None => false end); cbn [negb andb]; [eauto|].
  assert (Hx : x ∈ a_all ts) by (apply Hin; left).
  destruct (eo_rows _ _ _ HE x Hx) as [Hrow (vals & Hvals)].
  destruct (mem_storable en ts content x HE Hx) as [[Hkey Hseq] _].
  rewrite decode_encode_raw by exact Hseq. rewrite Hvals, !Ok_bind.
  assert (exists row, match v_op x, v_val x with
                      | Put, (_ :: _) as v => decode_row v
                      | _, _ => Ok Row_default
                      end = Ok row /\ live_val (v_op x) row = mem_row x) as (row & -> & Hr).
  { unfold mem_row. destruct (v_op x) eqn:Eo; [by exists Row_default|].
    destruct (Hrow eq_refl) as [row Hd]. rewrite Hd. exists row. split; [|done].
    destruct (v_val x); [|done]. by injection Hd as <-. }
  rewrite Ok_bind, Hi, Ok_bind. eexists. split; [reflexivity|]. split.
  - cbn [map]. rewrite Hm. f_equal. unfold item_version. cbn [fst snd].
    rewrite user_key_wire, Hr. done.
  - constructor; [|done]. split; [|done]. unfold key_wf. cbn [fst]. rewrite user_key_wire. done.
Qed.

(** What a scan takes from one file. *)
Definition taken sb eb r (vs : list (VersionOf (InternalKey * Row))) : list (VersionOf (InternalKey * Row)) :=
  firsts None (List.filter (scanned sb eb r) vs).

Lemma file_outside_taken en f vs sb eb r :
  FileState en f vs -> file_outside sb eb f = true -> taken sb eb r vs = [].
Proof.
  intros HF Ho. unfold taken. rewrite filter_all_false; [done|]. intros x Hx.
  pose proof (fs_range _ _ _ HF x Hx) as Hr. unfold range_contains in Hr. unfold scanned.
  apply andb_false_intro2. rewrite bounds_gate.
  destruct (negb (bytes_eqb (key_min (meta f)) []) && bytes_ltb (v_key x) (key_min (meta f))) eqn:E1; [done|].
  destruct (negb (bytes_eqb (key_max (meta f)) []) && bytes_ltb (key_max (meta f)) (v_key x)) eqn:E2; [done|].
  unfold file_outside in Ho. apply orb_true_iff in Ho as [Ho|Ho].
  - destruct sb as [a|]; [|done]. apply andb_true_iff in Ho as [Hn Ho%bytes_ltb_spec]. rewrite Hn in E2.
    cbn [andb] in E2. apply andb_false_intro1. destruct (bytes_ltb (v_key x) a) eqn:E3; [done|]. exfalso.
    rewrite <- not_true_iff_false, bytes_ltb_spec in E2, E3. apply E3.
    destruct (bytes_cmp_spec (v_key x) (key_max (meta f))) as [-> | L | L]; [done| |done].
    by eapply bytes_lt_trans.
  - destruct eb as [b|]; [|done]. apply andb_true_iff in Ho as [Hn Ho]. rewrite Hn in E1.
    cbn [andb] in E1. apply andb_false_intro2. rewrite bytes_leb_negb, negb_involutive.
    rewrite <- not_true_iff_false, bytes_ltb_spec in E1 |- *. rewrite bytes_leb_spec in Ho.
    intros L. apply Ho. destruct (bytes_cmp_spec (v_key x) (key_min (meta f))) as [<- | L' | L']; [done|done|].
    by eapply bytes_lt_trans.
Qed.

Lemma rows_weak en rd :
  FileOk xxh3_64 (key_of en) rd -> key_sorted_weak (map row_version (rows_of rd)).
Proof.
  intros H. pose proof (fo_sorted _ _ _ H) as Hs. pose proof (fo_keys _ _ _ H) as Hk.
  induction (rows_of rd) as [|x rows IH]; [constructor|].
  apply StronglySorted_inv in Hs as [Hs Hx]. apply Forall_cons in Hk as [Hk0 Hk].
  constructor; [by apply IH|]. apply List.Forall_forall. intros y Hy.
  apply (v_lt_key_le (key_of en) (encoded_key_prefix_free _)).
  - by destruct Hk0 as (? & ? & _).
  - apply in_map_iff in Hy as (z & <- & Hz). rewrite List.Forall_forall in Hk.
    by destruct (Hk z Hz) as (? & ? & _).
  - rewrite List.Forall_forall in Hx. by apply Hx.
Qed.

Lemma scan_file en f vs sb eb r :
  FileState en f vs ->
  exists rd (dv : option B) rows, open_file crc32 en f = Ok (rd, dv) /\ pr_scan rd sb eb r dv = Ok rows /\
    map (fun x => item_version (x.1, x.2, op_type x.1)) rows = map (vmap file_row) (taken sb eb r vs) /\
    Forall (fun x => key_wf (key_of en) x.1) rows.
Proof.
  intros [(rd & dv & Ho & HF & ->) _]. exists rd, dv.
  exists (map v_val (taken sb eb r (live_versions (rows_of rd) 0 dv))). split; [done|]. split; [|split].
  - unfold pr_scan. rewrite (read_all_Ok _ _ _ HF), Ok_bind.
    by rewrite scan_loop_spec by (by eapply rows_weak).
  - rewrite map_map. apply map_ext_in. intros x Hx%list_elem_of_In.
    apply elem_of_firsts, list_elem_of_In, filter_In in Hx as [Hx%list_elem_of_In _].
    destruct (live_versions_in _ _ _ _ Hx) as ([ik row] & _ & ->). done.
  - apply List.Forall_forall. intros x Hx. apply in_map_iff in Hx as (y & <- & Hy%list_elem_of_In).
    apply elem_of_firsts, list_elem_of_In, filter_In in Hy as [Hy%list_elem_of_In _].
    destruct (live_versions_in _ _ _ _ Hy) as (z & Hz & ->). pose proof (fo_keys _ _ _ HF) as Hk.
    rewrite Forall_forall in Hk. by apply Hk.
Qed.

Lemma harvest_files_spec en (content : content_t) sb eb r fs :
  Forall (fun f => FileState en f (content f)) fs ->
  exists items, harvest_files crc32 (B := B) en sb eb r fs = Ok items /\
    map item_version items = concat (map (fun f => map (vmap file_row) (taken sb eb r (content f))) fs) /\
    Forall (item_ok en) items.
Proof.
  induction 1 as [|f fs Hf _ (items & Hi & Hm & Hok)]; [by exists []|]. cbn [harvest_files map concat].
  destruct (file_outside sb eb f) eqn:Eo.
  { exists items. split; [done|]. split; [|done].
    rewrite (file_outside_taken en f (content f)) by done. exact Hm. }
  destruct (scan_file en f (content f) sb eb r Hf) as (rd & dv & rows & Ho & Hs & Hv & Hk).
  rewrite Ho, Ok_bind, Hs, Ok_bind, Hi, Ok_bind. eexists. split; [reflexivity|]. split.
  - by rewrite map_app, Hm, map_map, Hv.
  - apply Forall_app. split; [|done]. apply List.Forall_forall. intros i Hx.
    apply in_map_iff in Hx as (x & <- & Hx). split; [|done]. rewrite List.Forall_forall in Hk.
    exact (Hk x Hx).
Qed.

(** *** Sorting and deduplication *)
Definition weakly_sorted (vs : list (VersionOf Row)) : Prop :=
  StronglySorted (fun x y => ~ bytes_lt (ikey y) (ikey x)) vs.

Lemma harvest_sorted en items :
  Forall (item_ok en) items ->
  weakly_sorted (map item_version (sort_by harvest_leb items)).
Proof.
  intros Hok. assert (Hs : StronglySorted harvest_leb (sort_by harvest_leb items)).
  { apply sort_by_sorted.
    - intros x y. unfold harvest_leb, InternalKey_cmp. rewrite (bytes_cmp_antisym (encoded x.1.1)).
      by destruct (bytes_cmp (encoded x.1.1) (encoded y.1.1)).
    - intros x y z. apply (bytes_leb_trans (encoded x.1.1) (encoded y.1.1) (encoded z.1.1)). }
  rewrite <- (sort_by_perm harvest_leb) in Hok.
  induction Hs as [|x l _ IH Hx]; [constructor|]. apply Forall_cons in Hok as [Hx0 Hok].
  constructor; [by apply IH|]. apply List.Forall_forall. intros v Hv.
  apply in_map_iff in Hv as (y & <- & Hy). rewrite List.Forall_forall in Hx, Hok.
  specialize (Hx y Hy). apply Is_true_true in Hx. destruct Hx0 as [(_ & _ & Ex) Ox], (Hok y Hy) as [(_ & _ & Ey) Oy].
  unfold ikey, item_version. cbn [v_key v_seq v_op]. rewrite <- Ox, <- Oy, <- Ex, <- Ey.
  apply (bytes_leb_spec (encoded x.1.1) (encoded y.1.1)). exact Hx.
Qed.

Lemma weakly_sorted_keys K vs :
  prefix_free K -> Forall (v_ok K) vs -> weakly_sorted vs -> key_sorted_weak vs.
Proof.
  intros HK Hok Hs. induction Hs as [|x l _ IH Hx]; [constructor|]. apply Forall_cons in Hok as [Hx0 Hok].
  constructor; [by apply IH|]. rewrite List.Forall_forall in Hx, Hok |- *. intros y Hy L. apply (Hx y Hy).
  apply (v_lt_iff K HK); [by apply Hok|done|]. by left.
Qed.

(** The first version of a key is its newest. *)
Lemma weakly_sorted_first K vs k x :
  prefix_free K -> Forall (v_ok K) vs -> weakly_sorted vs ->
  List.find (fun y => bytes_eqb (v_key y) k) vs = Some x ->
  x ∈ vs /\ v_key x = k /\ forall y, y ∈ vs -> v_key y = k -> v_seq y <= v_seq x.
Proof.
  intros HK Hok Hs. induction Hs as [|z l _ IH Hz]; [done|]. apply Forall_cons in Hok as [Hz0 Hok].
  cbn [List.find]. destruct (bytes_eqb (v_key z) k) eqn:E.
  - intros [= ->]. apply bytes_eqb_spec in E. split; [left|]. split; [done|].
    intros y [->|Hy]%elem_of_cons Hk; [lia|]. rewrite List.Forall_forall in Hz, Hok. apply list_elem_of_In in Hy.
    destruct (Z.le_gt_cases (v_seq y) (v_seq x)) as [|Hlt]; [done|]. exfalso. apply (Hz y Hy).
    apply (v_lt_iff K HK); [by apply Hok|done|]. right. split; [congruence|]. by left.
  - intros Hf. destruct (IH Hok Hf) as (H1 & H2 & H3). split; [by right|]. split; [done|].
    intros y [->|Hy]%elem_of_cons Hk; [|auto]. rewrite Hk in E.
    rewrite (proj2 (bytes_eqb_spec _ _)) in E by done. done.
Qed.

Definition is_put {V} (x : VersionOf V) : bool := match v_op x with Put => true | Delete => false end.

Lemma dedup_harvest_spec last h :
  map (fun x => (user_key_bytes x.1, x.2)) (dedup_harvest last h)
  = map (fun y => (v_key y, v_val y)) (List.filter is_put (firsts last (map item_version h))).
Proof.
  revert last. induction h as [|[[ik row] op] h IH]; intros last; [done|].
  cbn [dedup_harvest map firsts]. change (v_key (item_version (ik, row, op))) with (user_key_bytes ik).
  case_bool_decide; [apply IH|]. cbn [List.filter]. unfold is_put at 1. cbn [item_version v_op snd].
  destruct op; [apply IH|]. cbn [map]. by rewrite IH.
Qed.

Lemma filter_keys_sorted {V} (p : VersionOf V -> bool) l :
  StronglySorted bytes_lt (map v_key l) -> StronglySorted bytes_lt (map v_key (List.filter p l)).
Proof.
  induction l as [|x l IH]; intros Hso; [constructor|].
  apply StronglySorted_inv in Hso as [Hso Hx]. cbn [List.filter].
  destruct (p x); [|by apply IH]. cbn [map]. constructor; [by apply IH|].
  rewrite List.Forall_forall in Hx |- *. intros y Hy. apply in_map_iff in Hy as (z & <- & [Hz _]%filter_In).
  apply Hx, in_map_iff. eauto.
Qed.

(** [H] has, of the versions in the range a reader at [r] may see, the newest
    of each key. *)
Record harvest_of sb eb (r : SeqNum) (all H : list (VersionOf Row)) : Prop := {
  ho_sub x : x ∈ H -> x ∈ all /\ v_seq x <= r /\ in_bounds sb eb (v_key x) = true;
  ho_sup x : x ∈ all -> v_seq x <= r -> in_bounds sb eb (v_key x) = true ->
    exists y, y ∈ H /\ v_key y = v_key x /\ v_seq x <= v_seq y;
}.

Lemma firsts_newest K sb eb r all H V x :
  prefix_free K -> consistent all -> harvest_of sb eb r all H -> V ≡ₚ H ->
  Forall (v_ok K) V -> weakly_sorted V ->
  (x ∈ firsts None V <-> in_bounds sb eb (v_key x) = true /\ newest all (v_key x) r = Some x).
Proof.
  intros HK Hc [Hsub Hsup] P Hv Hs.
  rewrite (elem_of_firsts_iff V x (weakly_sorted_keys _ V HK Hv Hs)), (newest_consistent all _ r x Hc). split.
  - intros Hf. destruct (weakly_sorted_first _ V _ x HK Hv Hs Hf) as (Hx & _ & Hmax).
    rewrite P in Hx. destruct (Hsub x Hx) as (Ha & Hr & Hb). split; [done|]. split; [done|].
    split; [by apply visible_spec|]. intros w Hw [Hkw' Hrw]%visible_spec.
    destruct (Hsup w Hw Hrw) as (y & Hy & Hky & Hyw); [by rewrite Hkw'|].
    rewrite <- P in Hy. assert (v_seq y <= v_seq x) by (apply Hmax; [done|congruence]). lia.
  - intros (Hb & Hx & Hvis & Hmax). apply visible_spec in Hvis as [_ Hr].
    destruct (Hsup x Hx Hr Hb) as (y & Hy & Hky & Hxy). rewrite <- P in Hy.
    destruct (List.find (fun y => bytes_eqb (v_key y) (v_key x)) V) as [z|] eqn:Ef.
    + destruct (weakly_sorted_first _ V _ z HK Hv Hs Ef) as (Hz & Hkz & Hzmax).
      specialize (Hzmax y Hy Hky). rewrite P in Hz. destruct (Hsub z Hz) as (Hza & Hzr & _).
      assert (v_seq z <= v_seq x) by (apply Hmax; [done|by apply visible_spec]).
      f_equal. apply Hc; [done|done|done|lia].
    + exfalso. apply list_elem_of_In in Hy. pose proof (List.find_none _ _ Ef y Hy) as N. cbn in N.
      rewrite Hky in N. by rewrite (proj2 (bytes_eqb_spec _ _)) in N.
Qed.

Lemma harvested_result all r sb eb en items :
  consistent all -> Forall (item_ok en) items -> harvest_of sb eb r all (map item_version items) ->
  let out := map (fun x => (user_key_bytes x.1, x.2)) (dedup_harvest None (sort_by harvest_leb items)) in
  StronglySorted bytes_lt (map fst out) /\
  forall k row, (k, row) ∈ out <-> in_bounds sb eb k = true /\ outcome (newest all k r) = Some row.
Proof.
  intros Hc Hok HH out. set (V := map item_version (sort_by harvest_leb items)).
  assert (P : V ≡ₚ map item_version items) by apply Permutation_map, sort_by_perm.
  assert (Hv : Forall (v_ok (key_of en)) V).
  { rewrite P. apply List.Forall_forall. intros v Hv. apply in_map_iff in Hv as (i & <- & Hi).
    rewrite List.Forall_forall in Hok. by destruct (Hok i Hi) as [(? & ? & _) _]. }
  pose proof (harvest_sorted en items Hok) as Hs. fold V in Hs.
  pose proof (encoded_key_prefix_free (en_schema en)) as HK.
  pose proof (fun x => firsts_newest _ sb eb r all _ V x HK Hc HH P Hv Hs) as Hnew.
  assert (Hout : out = map (fun y => (v_key y, v_val y)) (List.filter is_put (firsts None V)))
    by apply dedup_harvest_spec.
  rewrite Hout. split.
  - rewrite map_map. apply filter_keys_sorted.
    apply (firsts_sorted None V (weakly_sorted_keys _ V HK Hv Hs) I).
  - intros k row. rewrite list_elem_of_In, in_map_iff. split.
    + intros (x & [= <- <-] & [Hx%list_elem_of_In Hp]%filter_In). apply Hnew in Hx as [Hb Hn].
      split; [done|]. rewrite Hn. unfold outcome, is_put in *. cbn. by destruct (v_op x).
    + intros [Hb Ho]. destruct (newest all k r) as [x|] eqn:En; [|done]. unfold outcome in Ho. cbn in Ho.
      destruct (v_op x) eqn:Eop; [done|]. injection Ho as <-.
      assert (v_key x = k) as Hkx by (apply newest_is_newest in En as (_ & [? _]%visible_spec & _); done).
      exists x. split; [by rewrite Hkx|]. apply filter_In. split; [|by unfold is_put; rewrite Eop].
      apply list_elem_of_In, Hnew. by rewrite Hkx.
Qed.

(** *** What a scan harvests *)
Lemma taken_newest en f vs sb eb r x :
  FileState en f vs ->
  (x ∈ taken sb eb r vs <-> in_bounds sb eb (v_key x) = true /\ newest vs (v_key x) r = Some x).
Proof.
  intros [(rd & dv & _ & HF & ->) _]. set (vs := live_versions (rows_of rd) 0 dv).
  pose proof (encoded_key_prefix_free (en_schema en)) as HK.
  destruct (live_versions_sorted (key_of en) (rows_of rd) 0 dv (fo_sorted _ _ _ HF) (fo_keys _ _ _ HF))
    as (Hs & Hok & _). fold vs in Hs, Hok.
  assert (Hw : key_sorted_weak (List.filter (scanned sb eb r) vs)).
  { revert Hs Hok. generalize vs. clear -HK. intros l. induction l as [|y l IH]; intros Hs Hok; [constructor|].
    apply StronglySorted_inv in Hs as [Hs Hy]. apply Forall_cons in Hok as [Hy0 Hok]. cbn [List.filter].
    destruct (scanned sb eb r y); [|by apply IH]. constructor; [by apply IH|].
    rewrite List.Forall_forall in Hy, Hok |- *. intros z [Hz _]%filter_In.
    apply (v_lt_key_le _ HK); [done|by apply Hok|by apply Hy]. }
  unfold taken. rewrite (elem_of_firsts_iff _ x Hw), (newest_sorted _ HK vs _ r Hs Hok).
  destruct (in_bounds sb eb (v_key x)) eqn:Eb.
  - rewrite find_scanned by done. naive_solver.
  - split; [|by intros [? _]]. intros [Hin _]%List.find_some. apply filter_In in Hin as [_ Hsc].
    unfold scanned in Hsc. rewrite Eb, andb_false_r in Hsc. done.
Qed.

Definition mem_source (t : ATable) : list (VersionOf Row) := map (vmap mem_row) (at_versions t).
Definition file_source (content : content_t) f : list (VersionOf Row) := map (vmap file_row) (content f).

(** Versions of the sources, and nothing else. *)
Lemma elem_of_all en ts (content : content_t) x :
  x ∈ all_versions en ts content <->
  (exists t, t ∈ ts /\ x ∈ mem_source t) \/
  (exists f, f ∈ all_files (en_version en) /\ x ∈ file_source content f).
Proof.
  unfold all_versions. cbn [layers concat]. rewrite elem_of_app. unfold a_all, disk_layers.
  rewrite concat_map, map_map. apply Morphisms_Prop.or_iff_morphism.
  - rewrite list_elem_of_In, in_concat. setoid_rewrite in_map_iff. setoid_rewrite <- list_elem_of_In.
    unfold mem_source. naive_solver.
  - unfold all_files, level_versions, lower_levels. cbn [List.seq map concat].
    setoid_rewrite list_elem_of_In. split.
    + intros (l & Hl & Hx)%in_concat. apply in_map_iff in Hl as (l' & <- & Hl').
      apply in_map_iff in Hx as (y & <- & Hy). apply in_app_or in Hl' as [Hl'|Hl'].
      * apply in_map_iff in Hl' as (f & <- & Hf). exists f. split; [apply in_or_app; by left|]. by apply in_map.
      * apply in_map_iff in Hl' as (l & <- & Hl). apply in_map_iff in Hl as (n & <- & Hn).
        apply in_concat in Hy as (l2 & Hl2 & Hy). apply in_map_iff in Hl2 as (f & <- & Hf).
        exists f. split; [|by apply in_map]. apply in_or_app. right. apply in_concat.
        exists (files_at (en_version en) (Z.of_nat n)). split; [|done]. apply in_map_iff. eauto.
    + intros (f & Hf & Hx). apply in_map_iff in Hx as (y & <- & Hy). apply in_concat.
      apply in_app_or in Hf as [Hf|Hf].
      * exists (map (vmap file_row) (content f)). split; [|by apply in_map]. apply in_map, in_or_app. left. by apply in_map.
      * apply in_concat in Hf as (l & Hl & Hf). apply in_map_iff in Hl as (n & <- & Hn).
        exists (map (vmap file_row) (concat (map content (files_at (en_version en) (Z.of_nat n))))).
        split; [|apply in_map, in_concat; exists (content f); split; [by apply in_map|done]].
        apply in_map, in_or_app. right. apply in_map_iff. exists (Z.of_nat n). split; [done|]. by apply in_map.
Qed.

Lemma scan_harvest en ts (content : content_t) sb eb r outs :
  EngineOk en ts content ->
  Forall2 (fun out t => StronglySorted bytes_lt (map v_key out) /\
             forall x, x ∈ out <-> newest (at_versions t) (v_key x) r = Some x) outs ts ->
  harvest_of sb eb r (all_versions en ts content)
    (map (vmap mem_row) (List.filter (bounded sb eb) (concat outs)) ++
     concat (map (fun f => map (vmap file_row) (taken sb eb r (content f))) (all_files (en_version en)))).
Proof.
  intros HE HF.
  assert (HFS : forall f, f ∈ all_files (en_version en) -> FileState en f (content f)).
  { intros f Hf. unfold all_files in Hf. apply list_elem_of_In, in_concat in Hf as (l & Hl & Hf).
    apply in_map_iff in Hl as (n & <- & _). apply list_elem_of_In in Hf. by eapply eo_files. }
  split.
  - intros x Hx. rewrite elem_of_all. apply elem_of_app in Hx as [Hx|Hx]; apply list_elem_of_In in Hx.
    + apply in_map_iff in Hx as (y & <- & [Hy Hb]%filter_In). apply in_concat in Hy as (out & Ho & Hy).
      apply list_elem_of_In, list_elem_of_lookup in Ho as [n Hn].
      destruct (Forall2_lookup_l _ _ _ _ _ HF Hn) as (t & Ht & _ & Hiff).
      apply list_elem_of_In, Hiff, newest_is_newest in Hy as (Hy & [_ Hr]%visible_spec & _).
      split; [|done]. left. exists t. split; [by eapply list_elem_of_lookup_2|].
      by apply list_elem_of_In, in_map, list_elem_of_In.
    + apply in_concat in Hx as (l & Hl & Hx). apply in_map_iff in Hl as (f & <- & Hf%list_elem_of_In).
      apply in_map_iff in Hx as (y & <- & Hy%list_elem_of_In).
      apply (taken_newest en f _ _ _ _ _ (HFS f Hf)) in Hy as [Hb (Hy & [_ Hr]%visible_spec & _)%newest_is_newest].
      split; [|done]. right. exists f. split; [done|]. by apply list_elem_of_In, in_map, list_elem_of_In.
  - intros x Hx Hr Hb. apply elem_of_all in Hx as [(t & Ht & Hx)|(f & Hf & Hx)];
      apply list_elem_of_In, in_map_iff in Hx as (y & <- & Hy%list_elem_of_In);
      destruct (newest_above _ r y Hy Hr) as (z & Hz & Hk & Hs); rewrite <- Hk in Hz.
    + exists (vmap mem_row z). split; [|done]. apply elem_of_app. left. apply list_elem_of_In, in_map, filter_In.
      split; [|unfold bounded; by rewrite Hk]. apply list_elem_of_lookup in Ht as [n Hn].
      destruct (Forall2_lookup_r _ _ _ _ _ HF Hn) as (out & Ho & _ & Hiff).
      apply in_concat. exists out. split; [apply list_elem_of_In; by eapply list_elem_of_lookup_2|].
      by apply list_elem_of_In, Hiff.
    + exists (vmap file_row z). split; [|done]. apply elem_of_app. right. apply list_elem_of_In, in_concat.
      eexists. split; [apply in_map_iff; exists f; split; [reflexivity|by apply list_elem_of_In]|].
      apply in_map, list_elem_of_In, (taken_newest en f _ _ _ _ _ (HFS f Hf)). by rewrite Hk in *.
Qed.

Lemma range_scan_spec en ts (content : content_t) start_pk end_pk sb eb :
  EngineOk en ts content -> consistent (all_versions en ts content) ->
  encode_bound en start_pk = Ok sb -> encode_bound en end_pk = Ok eb ->
  exists out, range_scan crc32 (B := B) en start_pk end_pk = Ok out /\
    StronglySorted bytes_lt (map (fun x => user_key_bytes x.1) out) /\
    forall k row, (k, row) ∈ map (fun x => (user_key_bytes x.1, x.2)) out <->
      in_bounds sb eb k = true /\ outcome (newest (all_versions en ts content) k (read_seq en)) = Some row.
Proof.
  intros HE Hc Hs He. unfold range_scan, range_scan_pinned. rewrite Hs, He, !Ok_bind. unfold snapshot_entries.
  destruct (collect_iter (key_of en) (encoded_key_prefix_free _) _ ts (read_seq en) (eo_mem _ _ _ HE))
    as (outs & -> & HF). rewrite Ok_bind.
  replace (concat (map (map mem_entry_of) outs)) with (map mem_entry_of (concat outs)) by apply concat_map.
  destruct (harvest_mem_spec en ts content sb eb (concat outs) HE) as (mi & -> & Hmi & Hmo).
  { intros x Hx. apply list_elem_of_In, in_concat in Hx as (out & Ho & Hx%list_elem_of_In).
    apply list_elem_of_In, list_elem_of_lookup in Ho as [n Hn].
    destruct (Forall2_lookup_l _ _ _ _ _ HF Hn) as (t & Ht & _ & Hiff).
    destruct (newest_is_newest _ _ _ _ (proj1 (Hiff x) Hx)) as [Hxt _]. apply list_elem_of_In, in_concat.
    exists (at_versions t). split; [apply in_map, list_elem_of_In; by eapply list_elem_of_lookup_2|].
    by apply list_elem_of_In. }
  rewrite Ok_bind. destruct (harvest_files_spec en content sb eb (read_seq en) (all_files (en_version en)))
    as (fi & -> & Hfi & Hfo).
  { apply List.Forall_forall. intros f Hf. apply in_concat in Hf as (l & Hl & Hf%list_elem_of_In).
    apply in_map_iff in Hl as (n & <- & _). by eapply eo_files. }
  rewrite Ok_bind. eexists. split; [reflexivity|].
  pose proof (scan_harvest en ts content sb eb (read_seq en) outs HE HF) as HH.
  rewrite <- Hmi, <- Hfi, <- map_app in HH.
  destruct (harvested_result _ _ _ _ en (mi ++ fi) Hc (Forall_app_2 _ _ _ Hmo Hfo) HH) as [H1 H2].
  split; [|exact H2]. rewrite map_map in H1. exact H1.
Qed.
End contents.

(** ** Properties *)

(** C6. Point lookups return what the store holds.  For an engine whose
    memtables, files and deletion vectors hold the versions [all_versions],
    each source shadowing the later ones, and whose cached rows are current, a
    lookup of a primary key succeeds and returns the row of the newest version
    visible at the read sequence, or nothing for a tombstone or an absent key;
    it changes only the row cache, which stays current.  A lookup at an
    explicit sequence number returns the newest version at that sequence. *)
Theorem point_lookup_newest (xxh3_64 crc32 : bytes -> Z) {F M C B : Type}
    `{!Arrow, !ParquetFile F, !FooterCodec, !SchemaJson, !Roaring B}
    `{!SkipMap M, !SkipMapLaws M, !LruCache C, !LruCacheLaws C, !RowSerde}
    (en : MeruEngine F M C) ts content pk ik :
  EngineOk xxh3_64 crc32 (B := B) en ts content ->
  CacheOk en (all_versions en ts content) ->
  Forall FieldValue_wf pk -> encode pk (read_seq en) Put (en_schema en) = Ok ik ->
  (exists en', point_lookup xxh3_64 crc32 (B := B) en pk
     = (en', Ok (outcome (newest (all_versions en ts content) (user_key_bytes ik) (read_seq en)))) /\
     en' = set_cache (en_cache en') en /\ CacheOk en' (all_versions en ts content)) /\
  (forall r, point_lookup_at_seq xxh3_64 crc32 (B := B) en (user_key_bytes ik) r
     = Ok (outcome (newest (all_versions en ts content) (user_key_bytes ik) r))).
Proof. intros. by eapply point_lookup_spec. Qed.

(** C7. Range scans return exactly the live rows of the range: under the same
    hypotheses, and when versions with equal key and sequence number are
    equal, a scan succeeds, its keys are strictly ascending, and a row is in
    the result exactly when its key is in the range and it is what a lookup of
    the key at the read sequence returns. *)
Theorem range_scan_exact (xxh3_64 crc32 : bytes -> Z) {F M C B : Type}
    `{!Arrow, !ParquetFile F, !FooterCodec, !SchemaJson, !Roaring B}
    `{!SkipMap M, !SkipMapLaws M, !LruCache C, !RowSerde}
    (en : MeruEngine F M C) ts content start_pk end_pk sb eb :
  EngineOk xxh3_64 crc32 (B := B) en ts content -> consistent (all_versions en ts content) ->
  encode_bound en start_pk = Ok sb -> encode_bound en end_pk = Ok eb ->
  exists out, range_scan crc32 (B := B) en start_pk end_pk = Ok out /\
    StronglySorted bytes_lt (map (fun x => user_key_bytes x.1) out) /\
    forall k row, (k, row) ∈ map (fun x => (user_key_bytes x.1, x.2)) out <->
      in_bounds sb eb k = true /\ outcome (newest (all_versions en ts content) k (read_seq en)) = Some row.
Proof. intros. by eapply range_scan_spec. Qed.

(** ** A concrete engine: a memtable over one L0 file *)
(** Footers without a bloom filter, an index or key bounds. *)
Definition ex_meta : ParquetFileMeta := meta (ex_file "f" 0 5 9 [] [] 10).

Definition plain_kv : list (string * option string) :=
  [(FOOTER_KEY, meta_to_json ex_meta); (SCHEMA_KEY, schema_to_json example_schema)].

Definition ex_value (r : Row) : bytes := match encode_row r with Ok b => b | _ => [] end.

Definition ex_mem_ops : list mm_op := [OpApply (put (user_key_bytes (ex_k 1 9 Put)) (ex_value (ex_r 20)) (new_batch 20))].
Definition ex_tables : list ATable := a_run ex_mem_ops [{| at_first := 1; at_versions := [] |}].

Definition ex_l0 : DataFileMeta := ex_file "data/L0/f.parquet" 0 5 9 [] [] 10.
Definition ex_content (f : DataFileMeta) : list (VersionOf (InternalKey * Row)) :=
  live_versions (B := gset Z) ex_rows 0 None.

Definition ex_engine : MeruEngine ListFile (list (bytes * EntryValue)) ListLru :=
  {| en_schema := example_schema; en_memtable := (mm_run ex_mem_ops (mm_new 1 100 4)).1;
     en_cache := Some {| inner := {| ll_cap := 8; ll_items := [] |}; generation := 0; hits := 0; misses := 0 |};
     en_version := {| snapshot_id := 1; levels := {[ 0 := [ex_l0] ]}; schema := example_schema |};
     en_visible := 20; 
     en_files p := if String.eqb p "data/L0/f.parquet" then Some (ex_source plain_kv) else None;
     en_puffins _ := None |}.

Lemma ex_key_ok z : in_i 32 z -> encoded_key example_schema (user_key_bytes (ex_k z 9 Put)).
Proof.
  intros Hz. exists (example_pk z [b0]). split.
  { apply Forall_cons. split; [done|]. apply Forall_cons. split; [done|constructor]. }
  unfold ex_k, example_key. destruct (encode _ _ _ _) as [k|e|] eqn:E; [|discriminate E..].
  destruct (encode_inv _ _ _ _ _ E) as (b & Hb & _ & _ & _ & _ & _ & ->). done.
Qed.

Lemma ex_file_state f : path f = "data/L0/f.parquet"%string -> meta f = meta ex_l0 ->
  dv_path f = None -> dv_offset f = None -> dv_length f = None ->
  FileState (fun _ => 0) example_sum (B := gset Z) ex_engine f (ex_content f).
Proof.
  intros Hp Hm H1 H2 H3. split.
  - destruct (ex_holds plain_kv ex_meta None eq_refl) as [HH HR]. exists (ex_reader_with plain_kv ex_meta None), None.
    rewrite HR. split; [|split; [|done]].
    + unfold open_file, load_dv. rewrite Hp, H1, H2, H3. reflexivity.
    + split; rewrite ?HR; [exact HH|exact ex_rows_wf|exact ex_sorted|exact I| | |exact I];
        apply List.Forall_forall; by left.
  - intros x Hx. by rewrite Hm.
Qed.

Lemma ex_engine_ok : EngineOk (fun _ => 0) example_sum (B := gset Z) ex_engine ex_tables ex_content.
Proof.
  assert (Hops : ops_ok (encoded_key example_schema) 0 ex_mem_ops).
  { cbn [ops_ok ex_mem_ops]. split_and!; [vm_compute; discriminate..| |done].
    apply Forall_singleton. apply ex_key_ok. unfold in_i. lia. }
  destruct (run_sim (encoded_key example_schema) (encoded_key_prefix_free _) ex_mem_ops
    (mm_new 1 100 4 : MemtableManager (list (bytes * EntryValue))) _ 0
    (mm_new_sim (encoded_key example_schema) 1 100 4 0) ltac:(lia) Hops) as (mm & bound & E & HF & _ & Hn & _).
  assert (Hat : forall l f, f ∈ files_at (en_version ex_engine) l -> l = 0 /\ f = ex_l0).
  { intros l f. unfold files_at, ex_engine. cbn [en_version levels].
    destruct (decide (l = 0)) as [->|Hl].
    - rewrite lookup_singleton_eq. intros ->%list_elem_of_singleton. done.
    - rewrite lookup_singleton_ne by done. by intros ?%not_elem_of_nil. }
  split.
  - cbn [ex_engine en_memtable en_schema]. by rewrite E.
  - exact Hn.
  - intros x Hx. apply list_elem_of_singleton in Hx as ->. split.
    + intros _. eexists. vm_compute. reflexivity.
    + eexists. vm_compute. reflexivity.
  - intros l f Hf. destruct (Hat l f Hf) as [_ ->]. by apply ex_file_state.
  - intros l Hl. assert (files_at (en_version ex_engine) l = []) as ->.
    { destruct (files_at (en_version ex_engine) l) as [|f fs] eqn:El; [done|].
      destruct (Hat l f) as [-> _]; [rewrite El; left|lia]. }
    split; [by split; constructor|]. intros f x Hf. by apply not_elem_of_nil in Hf.
  - constructor; [|repeat constructor]. repeat (constructor; [|]); [|constructor].
    intros v w Hv Hw _. left. apply list_elem_of_singleton in Hv as ->. cbn.
    apply list_elem_of_In, in_map_iff in Hw as (y & <- & Hy).
    vm_compute in Hy. repeat (destruct Hy as [<-|Hy]; [vm_compute; discriminate|]). done.
Qed.

Lemma ex_cache_ok : CacheOk ex_engine (all_versions ex_engine ex_tables ex_content).
Proof. intros k e. cbn. by rewrite lookup_empty. Qed.

Lemma point_lookup_newest_witness :
  (point_lookup (fun _ => 0) example_sum (B := gset Z) ex_engine (example_pk 1 [b0])).2 = Ok (Some (ex_r 20)) /\
  (forall r, point_lookup_at_seq (fun _ => 0) example_sum (B := gset Z) ex_engine (user_key_bytes (ex_k 1 20 Put)) r
     = Ok (outcome (newest (all_versions ex_engine ex_tables ex_content) (user_key_bytes (ex_k 1 20 Put)) r))).
Proof.
  destruct (point_lookup_newest (fun _ => 0) example_sum (B := gset Z) ex_engine ex_tables ex_content
    (example_pk 1 [b0]) (ex_k 1 20 Put) ex_engine_ok ex_cache_ok) as [(en' & E & _) H];
    [|reflexivity|].
  { apply Forall_cons. split; [unfold FieldValue_wf, in_i; lia|]. apply Forall_cons. split; [done|constructor]. }
  split; [|exact H]. rewrite E. vm_compute. reflexivity.
Defined.

Lemma ex_consistent : consistent (all_versions ex_engine ex_tables ex_content).
Proof.
  intros v w Hv Hw Hk Hs. apply list_elem_of_In in Hv, Hw. vm_compute in Hv, Hw.
  repeat (destruct Hv as [<-|Hv]; [repeat (destruct Hw as [<-|Hw];
    [first [reflexivity|vm_compute in Hs; discriminate Hs|vm_compute in Hk; discriminate Hk]|]); destruct Hw|]).
  destruct Hv.
Qed.

Lemma range_scan_exact_witness :
  exists out, range_scan example_sum (B := gset Z) ex_engine None None = Ok out /\
    StronglySorted bytes_lt (map (fun x => user_key_bytes x.1) out) /\
    forall k row, (k, row) ∈ map (fun x => (user_key_bytes x.1, x.2)) out <->
      in_bounds None None k = true /\
      outcome (newest (all_versions ex_engine ex_tables ex_content) k 20) = Some row.
Proof.
  exact (range_scan_exact (fun _ => 0) example_sum (B := gset Z) ex_engine ex_tables ex_content None None None None
    ex_engine_ok ex_consistent eq_refl eq_refl).
Defined.
