(* ===== verification/DvResolve.v ===== *)
(** * Deletion vectors at flush

    [src/crates/merutable/src/engine/dv_resolve.rs]: for the keys a flush is
    about to write, the positions of their older versions in every data file
    of the current version, which the flush's commit then masks.

    The files are those of [ReadPath]'s engine; the cursor into the sorted
    list of memtable keys is the list from the cursor on. *)

From S2P Require Import Prelude Sequence Schema Key RowCodec Mvcc Memtable LsmVersion DeletionVector Bloom KvIndex Arrow Codec FileReader Cache ReadPath.
Local Open Scope Z_scope.

Section resolve.
Context (crc32 : bytes -> Z) {F M C B : Type}.
Context `{!Arrow, !ParquetFile F, !FooterCodec, !SchemaJson, !Roaring B, !RowSerde}.

Definition file_overlaps_memtable (f : DataFileMeta) (m_lo m_hi : bytes) : bool :=
  let f_min := key_min (meta f) in
  let f_max := key_max (meta f) in
  if bytes_eqb f_min [] || bytes_eqb f_max [] then false
  else negb (bytes_ltb f_max m_lo || bytes_ltb m_hi f_min).

Definition load_existing_dv (en : MeruEngine F M C) (f : DataFileMeta) : res (option B) :=
  match dv_path f, dv_offset f, dv_length f with
  | Some p, Some o, Some l =>
      if (o <? 0) || (l <? 0) then Err (Corruption "DV has negative offset or length")
      else
        puffin ← ok_or (en_puffins en p) Io;
        let e := o + l in
        if u64_max <? e then Err (Corruption "DV offset+length overflow")
        else if Z.of_nat (length puffin) <? e then Err (Corruption "DV blob out of range")
        else
          blob ← slice puffin (Z.to_nat o) (Z.to_nat (e - o));
          dv ← from_puffin_blob crc32 blob;
          Ok (Some (bitmap dv))
  | None, None, None => Ok None
  | _, _, _ => Err (Corruption "inconsistent DV coords")
  end.

(** The memtable cursor, moved past every key below [uk]. *)
Fixpoint advance (uk : bytes) (keys : list bytes) : list bytes :=
  match keys with
  | [] => []
  | k :: keys' => if bytes_ltb k uk then advance uk keys' else keys
  end.

(** The sorted merge of the file's stream with the memtable's keys. *)
Fixpoint merge_stream (keys : list bytes) (existing : option B) (items : list (res (bytes * Z)))
    (bm : B) : res B :=
  match items with
  | [] => Ok bm
  | item :: items =>
      '(uk_f, pos) ← item;
      match advance uk_f keys with
      | [] => Ok bm
      | k :: keys =>
          if bytes_eqb k uk_f then
            if u32_max <? pos then Err (Corruption "row position exceeds u32::MAX")
            else if match existing with Some e => rb_contains pos e | None => false end
            then merge_stream (k :: keys) existing items bm
            else merge_stream (k :: keys) existing items (rb_insert pos bm)
          else merge_stream (k :: keys) existing items bm
      end
  end.

Definition bytes_max (a b : bytes) : bytes := if bytes_ltb b a then a else b.
Definition bytes_min (a b : bytes) : bytes := if bytes_ltb b a then b else a.

(** The positions of one overlapping file; [None] when its rows are all masked
    already. *)
Definition resolve_file (en : MeruEngine F M C) (keys : list bytes) (m_lo m_hi : bytes)
    (f : DataFileMeta) : res (option B) :=
  let lo := bytes_max m_lo (key_min (meta f)) in
  let hi := bytes_min m_hi (key_max (meta f)) in
  existing ← load_existing_dv en f;
  if match existing with Some e => rb_len e =? num_rows (meta f) | None => false end then Ok None
  else
    source ← ok_or (en_files en (path f)) Io;
    rd ← FileReader.open source (en_schema en);
    let m_idx := partition_point (fun k => bytes_ltb k lo) keys in
    items ← iter_user_keys_in_range rd lo hi;
    bm ← merge_stream (drop m_idx keys) existing items rb_new;
    Ok (Some bm).

Definition add_positions (p : string) (bm : B) (out : gmap string B) : gmap string B :=
  if rb_is_empty bm then out
  else <[p := match out !! p with Some e => rb_or e bm | None => bm end]> out.

Fixpoint resolve_files (en : MeruEngine F M C) (keys : list bytes) (m_lo m_hi : bytes)
    (fs : list DataFileMeta) (out : gmap string B) : res (gmap string B) :=
  match fs with
  | [] => Ok out
  | f :: fs =>
      if negb (file_overlaps_memtable f m_lo m_hi) then resolve_files en keys m_lo m_hi fs out
      else
        bm ← resolve_file en keys m_lo m_hi f;
        resolve_files en keys m_lo m_hi fs
          (match bm with Some bm => add_positions (path f) bm out | None => out end)
  end.

Definition resolve_dv_for_flush (en : MeruEngine F M C) (v : Version) (memtable_user_keys : list bytes)
    : res (gmap string B) :=
  match head memtable_user_keys, last memtable_user_keys with
  | Some m_lo, Some m_hi => resolve_files en memtable_user_keys m_lo m_hi (all_files v) ∅
  | _, _ => Ok ∅
  end.
End resolve.

(** ** The stream of a file *)
Lemma number_app {A} pos (l l' : list A) :
  number pos (l ++ l') = number pos l ++ number (pos + Z.of_nat (length l)) l'.
Proof.
  revert pos. induction l as [|x l IH]; intros pos; cbn [number app length]; [by rewrite Z.add_0_r|].
  rewrite IH. do 3 f_equal. lia.
Qed.

Lemma elem_of_number {A} pos (l : list A) x p :
  (x, p) ∈ number pos l <-> pos <= p /\ l !! Z.to_nat (p - pos) = Some x.
Proof.
  revert pos. induction l as [|y l IH]; intros pos; cbn [number].
  { rewrite lookup_nil. split; [by intros ?%elem_of_nil|by intros []]. }
  rewrite elem_of_cons, IH. split.
  - intros [[= -> ->]|[Hp Hl]]; [by rewrite Z.sub_diag|].
    split; [lia|]. replace (Z.to_nat (p - pos)) with (S (Z.to_nat (p - (pos + 1)))) by lia. done.
  - intros [Hp Hl]. destruct (decide (p = pos)) as [->|Hne].
    + rewrite Z.sub_diag in Hl. injection Hl as ->. by left.
    + right. split; [lia|]. replace (Z.to_nat (p - pos)) with (S (Z.to_nat (p - (pos + 1)))) in Hl by lia. done.
Qed.

Section stream.
Context (xxh3_64 : bytes -> Z) {F : Type} `{AR : !Arrow, PF : !ParquetFile F, RS : !RowSerde}.
Context (K : bytes -> Prop) (K_pf : prefix_free K).
Implicit Types (rd : ParquetReader F) (es : list (bytes * PageLocation)).

(** The numbered keys of the rows from [n] on. *)
Definition keys_from rd (n : nat) : list (InternalKey * Z) :=
  number (Z.of_nat n) (map fst (drop n (rows_of rd))).

(** The versions of no user key continue from one page to the next. *)
Definition unsplit rd es : Prop :=
  Forall (fun e => forall x y, rows_of rd !! (Z.to_nat (first_row_index e.2) - 1)%nat = Some x ->
    rows_of rd !! Z.to_nat (first_row_index e.2) = Some y -> 0 < first_row_index e.2 ->
    user_key_bytes x.1 <> user_key_bytes y.1) es.

Lemma keys_from_app rd a b :
  (a <= b)%nat ->
  keys_from rd a = number (Z.of_nat a) (map fst (take (b - a) (drop a (rows_of rd)))) ++
    match decide (b <= length (rows_of rd))%nat with left _ => keys_from rd b | right _ => [] end.
Proof.
  intros H. unfold keys_from. rewrite <- (take_drop (b - a) (drop a (rows_of rd))) at 1.
  rewrite map_app, number_app, length_map, length_take, drop_drop, length_drop.
  replace (a + (b - a))%nat with b by lia. f_equal. destruct (decide _).
  - f_equal. lia.
  - rewrite drop_ge by lia. done.
Qed.

Lemma elem_of_keys_from rd n ik p :
  (ik, p) ∈ keys_from rd n <-> Z.of_nat n <= p /\ exists x, rows_of rd !! Z.to_nat p = Some x /\ ik = x.1.
Proof.
  unfold keys_from. rewrite elem_of_number, list_lookup_fmap, lookup_drop. split.
  - intros [Hp Hl]. replace (n + Z.to_nat (p - Z.of_nat n))%nat with (Z.to_nat p) in Hl by lia.
    split; [done|]. destruct (rows_of rd !! Z.to_nat p) as [x|]; [|done]. injection Hl as <-. eauto.
  - intros (Hp & x & Hx & ->). split; [done|]. replace (n + Z.to_nat (p - Z.of_nat n))%nat with (Z.to_nat p) by lia.
    by rewrite Hx.
Qed.

Lemma rows_key_le rd i j x y :
  FileOk xxh3_64 K rd -> rows_of rd !! i = Some x -> rows_of rd !! j = Some y -> (i <= j)%nat ->
  ~ bytes_lt (user_key_bytes y.1) (user_key_bytes x.1).
Proof.
  intros H Hx Hy Hij. destruct (decide (i = j)) as [<-|Hne].
  { rewrite Hx in Hy. injection Hy as ->. apply bytes_lt_irrefl. }
  destruct (rows_lt xxh3_64 K rd i j x y H Hx Hy ltac:(lia)) as [L _].
  pose proof (fo_keys _ _ _ H) as HK. rewrite Forall_forall in HK.
  destruct (HK x (list_elem_of_lookup_2 _ _ _ Hx)) as (? & ? & _), (HK y (list_elem_of_lookup_2 _ _ _ Hy)) as (? & ? & _).
  by apply (v_lt_key_le K K_pf (row_version x) (row_version y)).
Qed.

Lemma entry_prefix (k : InternalKey) : key_wf K k -> ikey_user_key_prefix (encoded k) = user_key_bytes k.
Proof.
  intros (_ & _ & E). unfold ikey_user_key_prefix. destruct (Nat.ltb_spec (length (encoded k)) 8) as [L|]; [|done].
  rewrite E, length_app, be_split_length in L. lia.
Qed.

Lemma range_items_app lo hi l l' : range_items lo hi (l ++ l') = range_items lo hi l ++ range_items lo hi l'.
Proof. unfold range_items. by rewrite List.filter_app, map_app. Qed.

Lemma range_items_none lo hi l :
  (forall ik p, (ik, p) ∈ l -> bytes_lt (user_key_bytes ik) lo \/ bytes_lt hi (user_key_bytes ik)) ->
  range_items lo hi l = [].
Proof.
  intros H. unfold range_items. rewrite filter_all_false; [done|]. intros [ik p] Hx. unfold in_range. cbn [fst].
  destruct (H ik p Hx) as [L|L].
  - apply andb_false_intro1. by rewrite bytes_leb_negb, (proj2 (bytes_ltb_spec _ _) L).
  - apply andb_false_intro2. by rewrite bytes_leb_negb, (proj2 (bytes_ltb_spec _ _) L).
Qed.

(** Each page of the list reads up to the next. *)
Definition reads_on rd es : Prop :=
  forall i e, es !! i = Some e ->
    read_ikeys_in_page rd e.2 ((fun e => first_row_index e.2) <$> es !! S i)
    = Ok (match es !! S i with
          | Some e' => number (first_row_index e.2)
              (map fst (take (Z.to_nat (first_row_index e'.2 - first_row_index e.2))
                             (drop (Z.to_nat (first_row_index e.2)) (rows_of rd))))
          | None => keys_from rd (Z.to_nat (first_row_index e.2))
          end).

(** Each page reads up to the start of the next one, the first from row 0. *)
Definition tiled rd es : Prop :=
  match es with [] => rows_of rd = [] | e :: _ => first_row_index e.2 = 0 end /\ reads_on rd es.

Definition from_first rd es : list (InternalKey * Z) :=
  match es with [] => [] | e :: _ => keys_from rd (Z.to_nat (first_row_index e.2)) end.

Lemma pages_ok_cons rd e es :
  pages_ok (rows_of rd) (e :: es) -> pages_ok (rows_of rd) es /\ 0 <= first_row_index e.2 /\
    (exists x, rows_of rd !! Z.to_nat (first_row_index e.2) = Some x /\ e.1 = encoded x.1) /\
    match es with e' :: _ => first_row_index e.2 < first_row_index e'.2 | [] => True end.
Proof.
  intros [Hs HF]. apply StronglySorted_inv in Hs as [Hs Hx]. apply Forall_cons in HF as [[H0 HX] HF].
  split; [by split|]. split; [done|]. split; [done|]. destruct es; [done|]. by apply Forall_cons in Hx as [Hx _].
Qed.

(** The keys of the page before a skipped boundary are not in the range. *)
Lemma skipped_page rd es lo hi (a b : nat) y :
  FileOk xxh3_64 K rd -> (a <= b)%nat -> rows_of rd !! b = Some y ->
  bytes_leb (user_key_bytes y.1) lo = true ->
  (forall x, rows_of rd !! (b - 1)%nat = Some x -> (0 < b)%nat -> user_key_bytes x.1 <> user_key_bytes y.1) ->
  range_items lo hi (number (Z.of_nat a) (map fst (take (b - a) (drop a (rows_of rd))))) = [].
Proof.
  intros H Hab Hy Hlo Hsplit. apply range_items_none. intros ik p Hp. left.
  apply elem_of_number in Hp as [Hp Hl]. rewrite list_lookup_fmap in Hl.
  destruct (take (b - a) (drop a (rows_of rd)) !! Z.to_nat (p - Z.of_nat a)) as [x|] eqn:Ex; [|done].
  injection Hl as <-. apply lookup_take_Some in Ex as [Ex Hlt]. rewrite lookup_drop in Ex.
  set (i := (a + Z.to_nat (p - Z.of_nat a))%nat) in *.
  destruct (lookup_lt_is_Some_2 (rows_of rd) (b - 1)) as [z Hz]; [apply lookup_lt_Some in Hy; lia|].
  pose proof (rows_key_le rd i (b - 1) x z H Ex Hz ltac:(lia)) as L1.
  pose proof (rows_key_le rd (b - 1) b z y H Hz Hy ltac:(lia)) as L2.
  specialize (Hsplit z Hz ltac:(lia)). apply bytes_leb_spec in Hlo.
  assert (L3 : bytes_lt (user_key_bytes z.1) (user_key_bytes y.1)).
  { by destruct (bytes_cmp_spec (user_key_bytes z.1) (user_key_bytes y.1)). }
  eapply bytes_nlt_le_trans; [exact L1|]. by eapply bytes_lt_nlt_trans.
Qed.

Lemma pages_stream rd es lo hi :
  FileOk xxh3_64 K rd -> pages_ok (rows_of rd) es ->
  exists items,
    concat (map (fun '(loc, next) => yielded lo hi (read_ikeys_in_page rd loc next)) (candidate_pages es lo hi))
    = map Ok items /\
    sublist items (range_items lo hi (from_first rd es)) /\
    (reads_on rd es -> unsplit rd es -> items = range_items lo hi (from_first rd es)).
Proof.
  intros H. induction es as [|e es IH]; intros HP; [by exists []|].
  destruct (pages_ok_cons rd e es HP) as (HP' & H0 & (x & Hx & He) & Hnext).
  destruct (IH HP') as (items & Ei & Hsub & Hall).
  assert (Hwf : key_wf K x.1).
  { pose proof (fo_keys _ _ _ H) as HK. rewrite Forall_forall in HK. by eapply HK, list_elem_of_lookup_2. }
  destruct e as [k loc]. cbn [fst snd] in *. subst k. cbn [candidate_pages from_first snd].
  rewrite entry_prefix by done. set (a := Z.to_nat (first_row_index loc)) in *.
  destruct (bytes_ltb hi (user_key_bytes x.1)) eqn:Ehi.
  { exists []. split; [done|]. split; [apply sublist_nil_l|]. intros _ _. symmetry. apply range_items_none.
    intros ik p (Hp & y & Hy & ->)%elem_of_keys_from. right. apply bytes_ltb_spec in Ehi.
    eapply bytes_lt_nlt_trans; [exact Ehi|]. eapply (rows_key_le rd a); [done..|lia]. }
  assert (Hrec : reads_on rd ((encoded x.1, loc) :: es) -> unsplit rd ((encoded x.1, loc) :: es) ->
                 items = range_items lo hi (from_first rd es)).
  { intros HT HU. apply Hall; [|by apply Forall_cons in HU as [_ HU]]. intros i e Hi. by apply (HT (S i)). }
  (* the rows of this page, then those from the next page on *)
  assert (Hsplit : keys_from rd a = match es with
      | e' :: _ => number (Z.of_nat a) (map fst (take (Z.to_nat (first_row_index e'.2 - first_row_index loc)) (drop a (rows_of rd))))
                   ++ from_first rd es
      | [] => keys_from rd a end).
  { destruct es as [|e' es]; [done|].
    destruct (pages_ok_cons rd e' es HP') as (_ & H0' & (y & Hy & _) & _).
    rewrite (keys_from_app rd a (Z.to_nat (first_row_index e'.2))) by lia.
    rewrite decide_True by (apply lookup_lt_Some in Hy; lia). cbn [from_first].
    by replace (Z.to_nat (first_row_index e'.2) - a)%nat with (Z.to_nat (first_row_index e'.2 - first_row_index loc)) by lia. }
  destruct (match es with (next_key, _) :: _ => bytes_leb (ikey_user_key_prefix next_key) lo | [] => false end) eqn:Esk.
  - exists items. split; [exact Ei|]. destruct es as [|e' es]; [done|]. rewrite Hsplit, range_items_app.
    split; [by apply sublist_inserts_l|]. intros HT HU. rewrite <- (Hrec HT HU).
    destruct (pages_ok_cons rd e' es HP') as (_ & H0' & (y & Hy & Ey) & _).
    destruct e' as [k' loc']. cbn [fst snd] in *. subst k'.
    assert (Hwf' : key_wf K y.1).
    { pose proof (fo_keys _ _ _ H) as HK. rewrite Forall_forall in HK. by eapply HK, list_elem_of_lookup_2. }
    rewrite entry_prefix in Esk by done.
    replace (Z.to_nat (first_row_index loc' - first_row_index loc))
      with (Z.to_nat (first_row_index loc') - a)%nat by lia.
    rewrite (skipped_page rd ((encoded x.1, loc) :: (encoded y.1, loc') :: es) lo hi a _ y); [done|done|lia|done|done|].
    intros z Hz _. apply Forall_cons in HU as [_ HU]. apply Forall_cons in HU as [HU _]. cbn [snd] in HU.
    apply (HU z y Hz Hy). lia.
  - cbn [map concat].
    assert (Hnx : match es with (_, l) :: _ => Some (first_row_index l) | [] => None end
                  = (fun e => first_row_index e.2) <$> es !! 0%nat) by (by destruct es as [|[] ?]).
    destruct (read_page rd loc (match es with (_, l) :: _ => Some (first_row_index l) | [] => None end) H0
      (lookup_lt_Some _ _ _ Hx)) as (n & Hn & _ & Hread & Hlen & Hnb); [destruct es as [|[] ?]; cbn in *; [done|lia]| |].
    { apply (fo_holds _ _ _ H). }
    rewrite Hread. cbn [yielded]. rewrite Ei.
    exists (range_items lo hi (number (first_row_index loc) (map fst (take n (drop a (rows_of rd))))) ++ items).
    split; [by rewrite map_app|]. split.
    + rewrite (keys_from_app rd a (a + n)), decide_True, range_items_app by lia.
      replace (a + n - a)%nat with n by lia. replace (Z.of_nat a) with (first_row_index loc) by lia.
      apply sublist_app; [done|]. destruct es as [|e' es].
      { destruct items; [|done]. apply sublist_nil_l. }
      destruct (pages_ok_cons rd e' es HP') as (_ & H0' & (y & Hy & _) & _).
      assert (Hnb' : first_row_index loc + Z.of_nat n <= first_row_index e'.2) by (destruct e'; by apply Hnb).
      rewrite (keys_from_app rd (a + n) (Z.to_nat (first_row_index e'.2))), decide_True, range_items_app
        by (apply lookup_lt_Some in Hy; lia). by apply sublist_inserts_l.
    + intros HT HU. pose proof (HT 0%nat _ eq_refl) as HT0. cbn [snd] in HT0.
      change (((encoded x.1, loc) :: es) !! 1%nat) with (es !! 0%nat) in HT0.
      rewrite <- Hnx, Hread in HT0. injection HT0 as HT0. fold a in HT0. rewrite HT0, (Hrec HT HU), Hsplit.
      destruct es as [|e' es]; cbn [from_first lookup list_lookup].
      * apply app_nil_r.
      * rewrite range_items_app. by replace (Z.of_nat a) with (first_row_index loc) by lia.
Qed.

Lemma read_all_ikeys_Ok rd : FileOk xxh3_64 K rd -> read_all_ikeys rd = Ok (keys_from rd 0).
Proof.
  intros H. destruct (fo_holds _ _ _ H) as [gs HG]. destruct (holds_all rd gs HG) as [_ Hr].
  destruct HG as (m & mask & kmask & Hm & _ & _ & Hk & Hread). unfold read_all_ikeys, open_metadata.
  rewrite Hm. cbn [ok_or]. rewrite Ok_bind, Hk, Ok_bind. destruct (Hread None I) as [_ ->].
  rewrite Ok_bind. unfold keys_from. by rewrite drop_0, Hr.
Qed.

(** The index's pages read back every key and split no key. *)
Definition whole_pages rd : Prop :=
  match pr_kv_index rd with
  | None => True
  | Some idx => forall es, iter idx = Ok es -> tiled rd es /\ unsplit rd es
  end.

(** The stream is part of the keys of the range, in row order, and all of them
    when no key is split over two pages. *)
Lemma iter_keys_spec rd lo hi :
  FileOk xxh3_64 K rd ->
  exists items, iter_user_keys_in_range rd lo hi = Ok (map Ok items) /\
    sublist items (range_items lo hi (keys_from rd 0)) /\
    (whole_pages rd -> items = range_items lo hi (keys_from rd 0)).
Proof.
  intros H. unfold iter_user_keys_in_range, whole_pages.
  destruct (_ || _) eqn:Eg.
  { exists []. split; [done|]. split; [apply sublist_nil_l|]. intros _. symmetry. apply range_items_none.
    intros ik p (_ & x & Hx & ->)%elem_of_keys_from. apply list_elem_of_lookup_2 in Hx.
    pose proof (fo_min _ _ _ H) as Hmin. pose proof (fo_max _ _ _ H) as Hmax.
    rewrite Forall_forall in Hmin, Hmax. specialize (Hmin x Hx). specialize (Hmax x Hx).
    rewrite !orb_true_iff, !andb_true_iff, !negb_true_iff, !bytes_ltb_spec, <- !not_true_iff_false, !bytes_eqb_spec in Eg.
    destruct Eg as [[[Hn L]|[Hn L]]|L].
    - right. destruct Hmin; [done|]. by eapply bytes_lt_nlt_trans.
    - left. destruct Hmax; [done|]. by eapply bytes_nlt_le_trans.
    - destruct (bytes_cmp_spec (user_key_bytes x.1) lo) as [->|L'|L']; [by right|by left|].
      right. by eapply bytes_lt_trans. }
  pose proof (fo_index _ _ _ H) as HI. destruct (pr_kv_index rd) as [idx|].
  - destruct HI as (raw & V & HP). rewrite (iter_keys idx raw V), Ok_bind.
    destruct (pages_stream rd (KvIndex.keys [] raw) lo hi H HP) as (items & -> & Hsub & Hall).
    exists items. split; [done|].
    split.
    + etrans; [exact Hsub|]. destruct (KvIndex.keys [] raw) as [|e es] eqn:Ek; [apply sublist_nil_l|].
      destruct (pages_ok_cons rd e es HP) as (_ & _ & (x & Hx & _) & _). cbn [from_first].
      rewrite (keys_from_app rd 0 (Z.to_nat (first_row_index e.2))) by lia.
      rewrite decide_True by (apply lookup_lt_Some in Hx; lia). rewrite range_items_app. by apply sublist_inserts_l.
    + intros HW. destruct (HW _ eq_refl) as [[H0 HR] HU]. rewrite (Hall HR HU). f_equal.
      destruct (KvIndex.keys [] raw) as [|e es]; cbn [from_first]; [|by rewrite H0].
      unfold keys_from. by rewrite H0.
  - exists (range_items lo hi (keys_from rd 0)). by rewrite read_all_ikeys_Ok.
Qed.
End stream.

(** ** The merge *)
Section merge.
Context {B : Type} `{RB : !Roaring B, RL : !RoaringLaws B}.

Lemma advance_spec uk keys :
  StronglySorted bytes_lt keys ->
  StronglySorted bytes_lt (advance uk keys) /\
  (forall k, ~ bytes_lt k uk -> k ∈ keys <-> k ∈ advance uk keys) /\
  (forall k, k ∈ advance uk keys -> ~ bytes_lt k uk).
Proof.
  induction 1 as [|k keys Hs (IH1 & IH2 & IH3) Hk]; cbn [advance].
  { split; [constructor|]. split; [done|]. by intros ? ?%elem_of_nil. }
  destruct (bytes_ltb k uk) eqn:E.
  - apply bytes_ltb_spec in E. split; [done|]. split; [|done]. intros k' Hk'. rewrite <- IH2 by done.
    rewrite elem_of_cons. split; [|by right]. intros [->|?]; done.
  - split; [by constructor|]. split; [done|]. apply not_true_iff_false in E. rewrite bytes_ltb_spec in E.
    intros k' [->|Hin]%elem_of_cons; [done|]. rewrite Forall_forall in Hk. specialize (Hk k' Hin).
    intros L. apply E. by eapply bytes_lt_trans.
Qed.

Definition marked (existing : option B) (p : Z) : bool :=
  match existing with Some e => rb_contains p e | None => false end.

Lemma merge_stream_spec existing items keys bm :
  StronglySorted bytes_lt keys ->
  StronglySorted (fun a b => ~ bytes_lt b.1 a.1) items ->
  Forall (fun i => i.2 <= u32_max) items ->
  exists bm', merge_stream keys existing (map Ok items) bm = Ok bm' /\
    forall p, p ∈ rb_set bm' <->
      p ∈ rb_set bm \/ exists uk, (uk, p) ∈ items /\ uk ∈ keys /\ marked existing p = false.
Proof.
  intros Hk Hi Hp. revert keys bm Hk. induction Hi as [|[uk pos] items Hi IH Hle]; intros keys bm Hk.
  { exists bm. split; [done|]. intros p. split; [by left|]. intros [?|(? & ?%elem_of_nil & _)]; done. }
  apply Forall_cons in Hp as [Hp0 Hp]. specialize (IH Hp). cbn [map merge_stream]. rewrite Ok_bind.
  destruct (advance_spec uk keys Hk) as (Hs & Hin & Hge).
  assert (Hall : forall uk' p, (uk', p) ∈ (uk, pos) :: items -> ~ bytes_lt uk' uk).
  { intros uk' p [[= -> ->]|Hx]%elem_of_cons; [apply bytes_lt_irrefl|]. rewrite Forall_forall in Hle.
    apply (Hle _ Hx). }
  (* the rest of the stream, from the moved cursor *)
  assert (Hrest : forall P : Prop, forall p,
    (P \/ exists uk', (uk', p) ∈ items /\ uk' ∈ advance uk keys /\ marked existing p = false)
    <-> (P \/ exists uk', (uk', p) ∈ items /\ uk' ∈ keys /\ marked existing p = false)).
  { intros P p. split; (intros [?|(uk' & Hx & Hin' & Hm)]; [by left|right; exists uk'; split; [done|]; split; [|done]]);
      apply (Hin uk'); try done; eapply Hall; by right. }
  destruct (advance uk keys) as [|k ks] eqn:Ea.
  { exists bm. split; [done|]. intros p. split; [by left|]. intros [?|(uk' & Hx & Hin' & _)]; [done|].
    apply Hin in Hin'; [by apply elem_of_nil in Hin'|]. by eapply Hall. }
  assert (Hhead : uk ∈ keys <-> k = uk).
  { rewrite (Hin uk) by apply bytes_lt_irrefl. rewrite elem_of_cons. split; [|intros ->; by left].
    intros [->|Hin']; [done|]. apply StronglySorted_inv in Hs as [_ Hks]. rewrite Forall_forall in Hks.
    exfalso. apply (Hge k); [left|]. by apply Hks. }
  destruct (bytes_eqb k uk) eqn:Eq.
  - apply bytes_eqb_spec in Eq. destruct (Z.ltb_spec u32_max pos); [cbn in Hp0; lia|].
    change (match existing with Some e => rb_contains pos e | None => false end) with (marked existing pos).
    destruct (marked existing pos) eqn:Em.
    + destruct (IH (k :: ks) bm Hs) as (bm' & -> & Hb). exists bm'. split; [done|]. intros p.
      rewrite Hb, Hrest. split; (intros [?|(uk' & Hx & Hin' & Hm)]; [by left|right]).
      * exists uk'. split; [by right|done].
      * apply elem_of_cons in Hx as [[= -> ->]|Hx]; [congruence|eauto].
    + destruct (IH (k :: ks) (rb_insert pos bm) Hs) as (bm' & -> & Hb). exists bm'. split; [done|]. intros p.
      rewrite Hb, Hrest, rb_set_insert, elem_of_union, elem_of_singleton. split.
      * intros [[->|?]|(uk' & Hx & Hin' & Hm)]; [|by left|].
        -- right. exists uk. split; [left|]. split; [by apply Hhead|done].
        -- right. exists uk'. split; [by right|done].
      * intros [?|(uk' & Hx & Hin' & Hm)]; [left; by right|].
        apply elem_of_cons in Hx as [[= -> ->]|Hx]; [by left; left|]. right. eauto.
  - destruct (IH (k :: ks) bm Hs) as (bm' & -> & Hb). exists bm'. split; [done|]. intros p.
    rewrite Hb, Hrest. split; (intros [?|(uk' & Hx & Hin' & Hm)]; [by left|right]).
    + exists uk'. split; [by right|done].
    + apply elem_of_cons in Hx as [[= -> ->]|Hx]; [|eauto]. exfalso. apply Hhead in Hin'.
      apply bytes_eqb_spec in Hin'. congruence.
Qed.
End merge.

(** ** The files of a version *)
Section resolve_spec.
Context (xxh3_64 crc32 : bytes -> Z) {F M C B : Type}.
Context `{AR : !Arrow, PF : !ParquetFile F, FC : !FooterCodec, SJ : !SchemaJson, RS : !RowSerde}.
Context `{RB : !Roaring B, RL : !RoaringLaws B}.
Implicit Types (en : MeruEngine F M C) (f : DataFileMeta) (rd : ParquetReader F) (dv : option B).
Local Abbreviation key_of en := (encoded_key (en_schema en)).

Definition coords_ok f : Prop :=
  match dv_offset f, dv_length f with
  | Some o, Some l => 0 <= o /\ in_i 64 o /\ 0 <= l /\ in_i 64 l
  | _, _ => True
  end.

(** A file as flushes and compactions leave it: it opens, its metadata counts
    and bounds its rows, and its deletion vector marks rows it has. *)
Record Resolvable en f rd dv : Prop := {
  rs_open : open_file crc32 en f = Ok (rd, dv);
  rs_ok : FileOk xxh3_64 (key_of en) rd;
  rs_coords : coords_ok f;
  rs_rows : num_rows (meta f) = Z.of_nat (length (rows_of rd));
  rs_small : num_rows (meta f) <= 2 ^ 32;
  rs_marked p : marked dv p = true -> 0 <= p < num_rows (meta f);
  rs_bounds x : x ∈ rows_of rd -> key_min (meta f) <> [] /\ key_max (meta f) <> [] /\
    ~ bytes_lt (user_key_bytes x.1) (key_min (meta f)) /\ ~ bytes_lt (key_max (meta f)) (user_key_bytes x.1);
}.

Lemma load_existing_eq en f : coords_ok f -> load_existing_dv crc32 (B := B) en f = load_dv crc32 en f.
Proof.
  intros Hc. unfold load_existing_dv, load_dv, coords_ok in *.
  destruct (dv_path f), (dv_offset f) as [o|], (dv_length f) as [l|]; try done.
  destruct Hc as (Ho & Io & Hl & Il).
  destruct (Z.ltb_spec o 0), (Z.ltb_spec l 0); try lia. cbn [orb].
  unfold wrap, in_i in *. by rewrite !Z.mod_small by lia.
Qed.

(** Every row is marked when the vector counts as many rows as the file has. *)
Lemma full_vector dv e n p :
  dv = Some e -> (forall p, marked dv p = true -> 0 <= p < n) -> rb_len e = n -> 0 <= p < n -> marked dv p = true.
Proof.
  intros -> Hm Hl Hp. cbn [marked] in *. rewrite rb_set_contains, bool_decide_eq_true.
  rewrite rb_set_len in Hl.
  assert (E : rb_set e = list_to_set (seqZ 0 n)); [|rewrite E, elem_of_list_to_set, elem_of_seqZ; lia].
  apply set_subseteq_size_eq.
  - intros q Hq. rewrite elem_of_list_to_set, elem_of_seqZ. specialize (Hm q).
    rewrite rb_set_contains, bool_decide_eq_true in Hm. specialize (Hm Hq). lia.
  - rewrite size_list_to_set by apply NoDup_seqZ. rewrite length_seqZ. lia.
Qed.

Lemma partition_advance lo keys :
  StronglySorted bytes_lt keys ->
  drop (partition_point (fun k => bytes_ltb k lo) keys) keys = advance lo keys.
Proof.
  intros Hs. assert (exists pre, keys = pre ++ advance lo keys /\ Forall (fun k => bytes_ltb k lo = true) pre)
    as (pre & E & Hpre).
  { clear Hs. induction keys as [|k keys (pre & E & IH)]; [by exists []|]. cbn [advance].
    destruct (bytes_ltb k lo) eqn:Ek; [|by exists []]. exists (k :: pre). cbn [app]. rewrite <- E. auto. }
  destruct (advance_spec lo keys Hs) as (_ & _ & Hge).
  assert (Hpost : Forall (fun k => bytes_ltb k lo = false) (advance lo keys)).
  { apply Forall_forall. intros k Hk. apply not_true_iff_false. rewrite bytes_ltb_spec. by apply Hge. }
  rewrite E at 1 2. rewrite (partition_point_spec _ _ _ (partitioned_app _ _ _ Hpre Hpost)).
  by rewrite drop_app_length.
Qed.

(** The rows a flush of [keys] supersedes. *)
Definition superseded rd dv (keys : list bytes) (p : Z) : Prop :=
  0 <= p /\ marked dv p = false /\ exists x, rows_of rd !! Z.to_nat p = Some x /\ user_key_bytes x.1 ∈ keys.

Lemma keys_from_sorted rd (K : bytes -> Prop) :
  prefix_free K -> FileOk xxh3_64 K rd ->
  StronglySorted (fun a b => ~ bytes_lt (user_key_bytes b.1) (user_key_bytes a.1)) (keys_from rd 0).
Proof.
  intros HK H. apply StronglySorted_of_lookup. intros i j [a p] [b q] Hij Ha Hb.
  unfold keys_from in *. rewrite drop_0 in *.
  assert (Hn : forall l pos n (x : InternalKey) r, number pos l !! n = Some (x, r) -> l !! n = Some x).
  { induction l as [|y l IH]; intros pos [|n] x r E; cbn in E; try done; [by injection E as -> _|].
    exact (IH _ _ _ _ E). }
  apply Hn in Ha, Hb. rewrite list_lookup_fmap in Ha, Hb. cbn [fst].
  destruct (rows_of rd !! i) as [x|] eqn:Ex; [|done]. destruct (rows_of rd !! j) as [y|] eqn:Ey; [|done].
  injection Ha as <-. injection Hb as <-. apply (rows_key_le xxh3_64 K HK rd i j x y); [done..|lia].
Qed.

Lemma stream_sorted rd (K : bytes -> Prop) lo hi items :
  prefix_free K -> FileOk xxh3_64 K rd -> sublist items (range_items lo hi (keys_from rd 0)) ->
  StronglySorted (fun a b => ~ bytes_lt b.1 a.1) items.
Proof.
  intros HK H. assert (Hs : StronglySorted (fun a b => ~ bytes_lt b.1 a.1) (range_items lo hi (keys_from rd 0))).
  { unfold range_items. eapply (StronglySorted_fmap (fun x : InternalKey * Z => (user_key_bytes x.1, x.2)));
      [|apply filter_sorted, (keys_from_sorted rd K HK H)]. done. }
  revert Hs. generalize (range_items lo hi (keys_from rd 0)). intros l Hs Hsub.
  induction Hsub as [|x l1 l2 Hsub IH|x l1 l2 Hsub IH]; [constructor|..];
    apply StronglySorted_inv in Hs as [Hs Hx]; [|by apply IH].
  constructor; [by apply IH|]. rewrite Forall_forall in Hx |- *. intros y Hy. apply Hx.
  by eapply elem_of_sublist.
Qed.

Lemma elem_of_range_items rd lo hi uk p :
  (uk, p) ∈ range_items lo hi (keys_from rd 0) <->
  0 <= p /\ (exists x, rows_of rd !! Z.to_nat p = Some x /\ user_key_bytes x.1 = uk) /\
  ~ bytes_lt uk lo /\ ~ bytes_lt hi uk.
Proof.
  unfold range_items. rewrite list_elem_of_In, in_map_iff. split.
  - intros ([ik q] & [= <- ->] & [Hin%list_elem_of_In Hr]%filter_In).
    apply elem_of_keys_from in Hin as (Hp & x & Hx & ->). unfold in_range in Hr. cbn [fst] in Hr.
    rewrite andb_true_iff, !bytes_leb_spec in Hr. split; [lia|]. split; [eauto|done].
  - intros (Hp & (x & Hx & <-) & H1 & H2). exists (x.1, p). split; [done|]. apply filter_In. split.
    + apply list_elem_of_In, elem_of_keys_from. split; [lia|eauto].
    + unfold in_range. cbn [fst]. by rewrite andb_true_iff, !bytes_leb_spec.
Qed.

(** What the stream of an overlapping file contributes. *)
Lemma resolve_file_spec en f rd dv keys m_lo m_hi :
  Resolvable en f rd dv -> StronglySorted bytes_lt keys ->
  (forall k, k ∈ keys -> ~ bytes_lt k m_lo /\ ~ bytes_lt m_hi k) ->
  exists o, resolve_file crc32 (B := B) en keys m_lo m_hi f = Ok o /\
    (forall p, p ∈ (match o with Some bm => rb_set bm | None => ∅ end) -> superseded rd dv keys p) /\
    (whole_pages rd -> forall p, superseded rd dv keys p ->
       p ∈ (match o with Some bm => rb_set bm | None => ∅ end)).
Proof.
  intros HR Hs Hb. pose proof (rs_ok _ _ _ _ HR) as HF. unfold resolve_file.
  rewrite load_existing_eq by apply HR. pose proof (rs_open _ _ _ _ HR) as Ho. unfold open_file in Ho.
  destruct (ok_or (en_files en (path f)) Io) as [source|e|]; [|done..]. cbn [mbind res_bind] in Ho.
  destruct (FileReader.open source (en_schema en)) as [rd0|e|] eqn:Er; [|done..]. cbn [mbind res_bind] in Ho.
  destruct (load_dv crc32 en f) as [dv0|e|] eqn:Ed; [|done..]. cbn [mbind res_bind] in Ho. injection Ho as -> ->.
  rewrite Ok_bind. destruct (match dv with Some e => rb_len e =? num_rows (meta f) | None => false end) eqn:Ef.
  { destruct dv as [e|]; [|done]. apply Z.eqb_eq in Ef. exists None. split; [done|].
    split; [by intros p ?%elem_of_empty|]. intros _ p (Hp & Hm & x & Hx & _). exfalso.
    rewrite (full_vector (Some e) e (num_rows (meta f))) in Hm; [done|done|apply HR|done|].
    rewrite (rs_rows _ _ _ _ HR). apply lookup_lt_Some in Hx. lia. }
  rewrite !Ok_bind, Er, Ok_bind.
  set (lo := bytes_max m_lo (key_min (meta f))). set (hi := bytes_min m_hi (key_max (meta f))).
  destruct (iter_keys_spec xxh3_64 (key_of en) (encoded_key_prefix_free _) rd lo hi HF) as (items & -> & Hsub & Hall).
  rewrite Ok_bind, partition_advance by done.
  destruct (advance_spec lo keys Hs) as (Has & Hain & _).
  assert (Hitems : forall uk p, (uk, p) ∈ items -> (uk, p) ∈ range_items lo hi (keys_from rd 0)).
  { intros uk p Hi. by eapply elem_of_sublist. }
  destruct (merge_stream_spec dv items (advance lo keys) rb_new Has) as (bm & -> & Hbm).
  { by eapply (stream_sorted rd (key_of en)); [apply encoded_key_prefix_free|..]. }
  { apply Forall_forall. intros [uk p] Hi. apply Hitems, elem_of_range_items in Hi as (_ & (x & Hx & _) & _). cbn [snd].
    apply lookup_lt_Some in Hx. pose proof (rs_rows _ _ _ _ HR). pose proof (rs_small _ _ _ _ HR).
    change u32_max with (2 ^ 32 - 1). lia. }
  exists (Some bm). split; [done|]. split.
  - intros p Hp. apply Hbm in Hp as [Hp|(uk & Hi & Hin & Hm)]; [by rewrite rb_set_new in Hp; apply elem_of_empty in Hp|].
    apply Hitems, elem_of_range_items in Hi as (H0 & (x & Hx & <-) & Hlo & _). split; [done|]. split; [done|].
    exists x. split; [done|]. by apply Hain.
  - intros HW p (H0 & Hm & x & Hx & Hin). apply Hbm. right. exists (user_key_bytes x.1).
    destruct (Hb _ Hin) as [B1 B2]. destruct (rs_bounds _ _ _ _ HR x (list_elem_of_lookup_2 _ _ _ Hx)) as (_ & _ & B3 & B4).
    assert (Hlo : ~ bytes_lt (user_key_bytes x.1) lo) by (unfold lo, bytes_max; by destruct (bytes_ltb _ _)).
    rewrite (Hall HW). split; [|split; [by apply Hain|done]]. apply elem_of_range_items.
    split; [done|]. split; [eauto|]. split; [done|]. unfold hi, bytes_min. by destruct (bytes_ltb _ _).
Qed.

Definition marks (out : gmap string B) (p : string) : gset Z :=
  match out !! p with Some bm => rb_set bm | None => ∅ end.

Lemma marks_add p bm out q :
  marks (add_positions p bm out) q = marks out q ∪ (if bool_decide (q = p) then rb_set bm else ∅).
Proof.
  unfold add_positions. rewrite rb_set_is_empty. case_bool_decide as E.
  { rewrite E. case_bool_decide; set_solver. }
  unfold marks. case_bool_decide as Eq; [subst q|].
  - rewrite lookup_insert_eq. destruct (out !! p); [apply rb_set_or|set_solver].
  - rewrite lookup_insert_ne by done. set_solver.
Qed.

Lemma resolve_files_spec en keys m_lo m_hi fs out :
  (forall f, f ∈ fs -> exists rd dv, Resolvable en f rd dv) -> StronglySorted bytes_lt keys ->
  (forall k, k ∈ keys -> ~ bytes_lt k m_lo /\ ~ bytes_lt m_hi k) ->
  exists out', resolve_files crc32 (B := B) en keys m_lo m_hi fs out = Ok out' /\
    (forall q p, p ∈ marks out' q -> p ∈ marks out q \/
       exists f rd dv, f ∈ fs /\ path f = q /\ open_file crc32 en f = Ok (rd, dv) /\ superseded rd dv keys p) /\
    (forall q, marks out q ⊆ marks out' q) /\
    (forall f rd dv p, f ∈ fs -> open_file crc32 en f = Ok (rd, dv) -> whole_pages rd ->
       superseded rd dv keys p -> p ∈ marks out' (path f)).
Proof.
  intros Hfs Hs Hb. revert out. induction fs as [|f fs IH]; intros out.
  { exists out. split; [done|]. split; [by left|]. split; [done|]. by intros ? ? ? ? ?%elem_of_nil. }
  assert (Hfs' : forall g, g ∈ fs -> exists rd dv, Resolvable en g rd dv) by (intros g Hg; apply Hfs; by right).
  destruct (Hfs f ltac:(left)) as (rd & dv & HR). cbn [resolve_files].
  destruct (file_overlaps_memtable f m_lo m_hi) eqn:Eo; cbn [negb].
  - destruct (resolve_file_spec en f rd dv keys m_lo m_hi HR Hs Hb) as (o & -> & Hsound & Hcomp). rewrite Ok_bind.
    set (out1 := match o with Some bm => add_positions (path f) bm out | None => out end).
    assert (Hm1 : forall q, marks out1 q = marks out q ∪
              (if bool_decide (q = path f) then match o with Some bm => rb_set bm | None => ∅ end else ∅)).
    { intros q. unfold out1. destruct o; [apply marks_add|]. case_bool_decide; set_solver. }
    destruct (IH Hfs' out1) as (out' & -> & H1 & H2 & H3). exists out'. split; [done|]. split; [|split].
    + intros q p Hp. destruct (H1 q p Hp) as [Hp1|(g & rd' & dv' & Hg & HX)].
      * rewrite Hm1, elem_of_union in Hp1. destruct Hp1 as [|Hp1]; [by left|]. case_bool_decide; [|by apply elem_of_empty in Hp1].
        right. exists f, rd, dv. split; [left|]. split; [done|]. split; [apply HR|by apply Hsound].
      * right. exists g, rd', dv'. split; [by right|done].
    + intros q. rewrite <- H2, Hm1. set_solver.
    + intros g rd' dv' p [->|Hg]%elem_of_cons Ho HW Hsup; [|by eapply H3].
      rewrite (rs_open _ _ _ _ HR) in Ho. injection Ho as <- <-. apply H2. rewrite Hm1, bool_decide_true by done.
      apply elem_of_union. right. by apply Hcomp.
  - destruct (IH Hfs' out) as (out' & -> & H1 & H2 & H3). exists out'. split; [done|]. split; [|split; [done|]].
    + intros q p Hp. destruct (H1 q p Hp) as [?|(g & rd' & dv' & Hg & HX)]; [by left|].
      right. exists g, rd', dv'. split; [by right|done].
    + intros g rd' dv' p [->|Hg]%elem_of_cons Ho HW Hsup; [|by eapply H3]. exfalso.
      rewrite (rs_open _ _ _ _ HR) in Ho. injection Ho as <- <-. destruct Hsup as (_ & _ & x & Hx & Hin).
      destruct (Hb _ Hin) as [B1 B2]. destruct (rs_bounds _ _ _ _ HR x (list_elem_of_lookup_2 _ _ _ Hx)) as (N1 & N2 & B3 & B4).
      unfold file_overlaps_memtable in Eo.
      destruct (bytes_eqb (key_min (meta f)) []) eqn:E1; [by apply bytes_eqb_spec in E1|].
      destruct (bytes_eqb (key_max (meta f)) []) eqn:E2; [by apply bytes_eqb_spec in E2|]. cbn [orb] in Eo.
      rewrite negb_false_iff, orb_true_iff, !bytes_ltb_spec in Eo. destruct Eo as [L|L].
      * apply B4. by eapply bytes_lt_nlt_trans.
      * apply B2. by eapply bytes_lt_nlt_trans.
Qed.

Lemma resolve_spec en v keys :
  StronglySorted bytes_lt keys -> (forall f, f ∈ all_files v -> exists rd dv, Resolvable en f rd dv) ->
  exists out, resolve_dv_for_flush crc32 (B := B) en v keys = Ok out /\
    (forall q p, p ∈ marks out q -> exists f rd dv, f ∈ all_files v /\ path f = q /\
       open_file crc32 en f = Ok (rd, dv) /\ superseded rd dv keys p) /\
    (forall f rd dv p, f ∈ all_files v -> open_file crc32 en f = Ok (rd, dv) -> whole_pages rd ->
       superseded rd dv keys p -> p ∈ marks out (path f)).
Proof.
  intros Hs Hfs. unfold resolve_dv_for_flush.
  destruct (head keys) as [m_lo|] eqn:Eh.
  2:{ assert (keys = []) as -> by (by destruct keys). exists ∅. split; [done|]. split.
      - intros q p Hp. unfold marks in Hp. by rewrite lookup_empty in Hp.
      - intros f rd dv p _ _ _ (_ & _ & x & _ & ?%elem_of_nil). done. }
  destruct (last keys) as [m_hi|] eqn:El; [|apply last_None in El; by subst].
  assert (Hb : forall k, k ∈ keys -> ~ bytes_lt k m_lo /\ ~ bytes_lt m_hi k).
  { intros k Hk. split.
    - destruct keys as [|k0 keys]; [done|]. injection Eh as ->. apply StronglySorted_inv in Hs as [_ Hx].
      apply elem_of_cons in Hk as [->|Hk]; [apply bytes_lt_irrefl|]. rewrite Forall_forall in Hx.
      intros L. eapply bytes_lt_irrefl, bytes_lt_trans; [exact L|by apply Hx].
    - apply last_Some in El as [l ->]. apply StronglySorted_app in Hs as (Hl & _ & _).
      apply elem_of_app in Hk as [Hk|Hk%list_elem_of_singleton].
      + intros L. eapply bytes_lt_irrefl, bytes_lt_trans; [exact L|]. apply Hl; [done|left].
      + subst. apply bytes_lt_irrefl. }
  destruct (resolve_files_spec en keys m_lo m_hi (all_files v) ∅ Hfs Hs Hb) as (out & -> & H1 & _ & H3).
  exists out. split; [done|]. split; [|done]. intros q p Hp. destruct (H1 q p Hp) as [Hp'|?]; [|done].
  unfold marks in Hp'. by rewrite lookup_empty in Hp'.
Qed.
End resolve_spec.

(** ** Properties *)

(** C12. Positions resolved at flush.  For the sorted keys of a memtable and a
    version whose files open, resolution succeeds, and a position it returns
    for a file is that of a row of one of the keys that no deletion vector
    masks yet; conversely every such row is found, in every file whose index
    pages keep the versions of a key together. *)
Theorem resolve_dv_exact (xxh3_64 crc32 : bytes -> Z) {F M C B : Type}
    `{!Arrow, !ParquetFile F, !FooterCodec, !SchemaJson, !RowSerde, !Roaring B, !RoaringLaws B}
    (en : MeruEngine F M C) v keys :
  StronglySorted bytes_lt keys ->
  (forall f, f ∈ all_files v -> exists rd (dv : option B), Resolvable xxh3_64 crc32 en f rd dv) ->
  exists out, resolve_dv_for_flush crc32 (B := B) en v keys = Ok out /\
    (forall q p, p ∈ marks out q -> exists f rd dv, f ∈ all_files v /\ path f = q /\
       open_file crc32 en f = Ok (rd, dv) /\ superseded rd dv keys p) /\
    (forall f rd dv p, f ∈ all_files v -> open_file crc32 en f = Ok (rd, dv) -> whole_pages rd ->
       superseded rd dv keys p -> p ∈ marks out (path f)).
Proof. intros. by eapply (resolve_spec xxh3_64). Qed.

(** The example file with its key range and row count. *)
Definition ex_counted : DataFileMeta :=
  {| path := "data/L0/f.parquet";
     meta := {| level := 0; seq_min := 5; seq_max := 9; key_min := user_key_bytes (ex_k 1 9 Put);
                key_max := user_key_bytes (ex_k 2 7 Delete); num_rows := 3; file_size := 10;
                fm_dv_path := None; fm_dv_offset := None; fm_dv_length := None; format := None; column_stats := None |};
     dv_path := None; dv_offset := None; dv_length := None |}.
Definition ex_counted_version : Version :=
  {| snapshot_id := 1; levels := {[ 0 := [ex_counted] ]}; schema := example_schema |}.

Lemma ex_resolvable :
  Resolvable (fun _ => 0) example_sum ex_engine ex_counted (ex_reader_with plain_kv ex_meta None) (None : option (gset Z)).
Proof.
  destruct (ex_holds plain_kv ex_meta None eq_refl) as [HH HR]. split.
  - reflexivity.
  - split; rewrite ?HR; [exact HH|exact ex_rows_wf|exact ex_sorted|exact I| | |exact I]; apply List.Forall_forall; by left.
  - exact I.
  - by rewrite HR.
  - cbn. lia.
  - done.
  - rewrite HR. intros x Hx%list_elem_of_In.
    repeat (destruct Hx as [<-|Hx]; [split_and!; vm_compute; discriminate|]). destruct Hx.
Qed.

(** Rewriting key 1 supersedes its two versions, at positions 0 and 1. *)
Lemma resolve_dv_exact_witness :
  exists out, resolve_dv_for_flush example_sum (B := gset Z) ex_engine ex_counted_version
      [user_key_bytes (ex_k 1 20 Put)] = Ok out /\
    0 ∈ marks out "data/L0/f.parquet" /\ 1 ∈ marks out "data/L0/f.parquet" /\ 2 ∉ marks out "data/L0/f.parquet".
Proof.
  destruct (resolve_dv_exact (fun _ => 0) example_sum (B := gset Z) ex_engine ex_counted_version
    [user_key_bytes (ex_k 1 20 Put)]) as (out & E & Hsound & Hcomp).
  { repeat constructor. }
  { intros f ->%list_elem_of_singleton. eexists _, _. apply ex_resolvable. }
  destruct (ex_holds plain_kv ex_meta None eq_refl) as [HH HR].
  assert (Hf : ex_counted ∈ all_files ex_counted_version) by (by apply list_elem_of_singleton).
  assert (HS : forall p, 0 <= p < 2 -> superseded (ex_reader_with plain_kv ex_meta None) (None : option (gset Z))
                 [user_key_bytes (ex_k 1 20 Put)] p).
  { intros p Hp. split; [lia|]. split; [done|]. rewrite HR.
    destruct (decide (p = 0)) as [->|Hn]; [|replace p with 1 by lia];
      (eexists; split; [reflexivity|]; vm_compute; left). }
  exists out. split; [exact E|].
  split; [|split]; [exact (Hcomp ex_counted _ _ 0 Hf (rs_open _ _ _ _ _ _ ex_resolvable) I (HS 0 ltac:(lia)))
    |exact (Hcomp ex_counted _ _ 1 Hf (rs_open _ _ _ _ _ _ ex_resolvable) I (HS 1 ltac:(lia)))|].
  intros H2. destruct (Hsound _ _ H2) as (f & rd & dv & ->%list_elem_of_singleton & _ & Ho & _ & _ & x & Hx & Hin).
  rewrite (rs_open _ _ _ _ _ _ ex_resolvable) in Ho. injection Ho as <- <-. rewrite HR in Hx. injection Hx as <-.
  apply list_elem_of_singleton in Hin. vm_compute in Hin. discriminate Hin.
Defined.
