(* ===== verification/Engine.v ===== *)
(** * The engine and its write path

    [MeruEngine] of [src/crates/merutable/src/engine/engine.rs] with its
    writes ([put], [delete], [write_internal]) and the batch writes of
    [src/crates/merutable/src/engine/write_path.rs].

    The write-ahead log's mutex orders the writes, so a write is one function
    of the engine.  A writer that must wait for a flush or a compaction is
    [Parked], with the engine unchanged; otherwise its answer comes with the
    time it was held back.  What reading a data file or a deletion-vector file
    gives is an argument ([files], [puffins]); log and memtable are owned by
    the engine.  Metrics are left out, and the flush task that an automatic
    rotation spawns is an operation of its own ([Flush]). *)

From Stdlib Require Import Floats.SpecFloat.
From S2P Require Import Prelude Float64 Disk Sequence Schema Key RowCodec WalBatch WalLog WalManager Mvcc Memtable LsmVersion DeletionVector Manifest Catalog Picker Bloom KvIndex Arrow Codec FileReader Cache ReadPath.
Local Open Scope Z_scope.

(** ** The engine *)

(** A file waiting to be removed, with the time it became obsolete. *)
Record PendingDelete : Type := {
  pd_path : string;
  obsoleted_at : Z;
  obsoleted_after_snapshot : Z;
}.

Record Engine (S M C : Type) : Type := {
  eg_config : EngineConfig;
  eg_schema : TableSchema;
  eg_global : GlobalSeq.GlobalSeq;
  eg_visible : GlobalSeq.GlobalSeq;
  eg_wal : WalManager S;
  eg_memtable : MemtableManager M;
  eg_version : VersionSet;
  eg_catalog : IcebergCatalog;
  eg_cache : option (RowCache C);
  eg_compacting : gset Z;
  eg_pending : list PendingDelete;
  eg_live : gmap Z Z;
  eg_read_only : bool;
  eg_closed : bool;
}.
Arguments eg_config {S M C} _.
Arguments eg_schema {S M C} _.
Arguments eg_global {S M C} _.
Arguments eg_visible {S M C} _.
Arguments eg_wal {S M C} _.
Arguments eg_memtable {S M C} _.
Arguments eg_version {S M C} _.
Arguments eg_catalog {S M C} _.
Arguments eg_cache {S M C} _.
Arguments eg_compacting {S M C} _.
Arguments eg_pending {S M C} _.
Arguments eg_live {S M C} _.
Arguments eg_read_only {S M C} _.
Arguments eg_closed {S M C} _.

Section update.
Context {S M C : Type}.
Implicit Types e : Engine S M C.

(** The engine with what writes and flushes change replaced. *)
Definition with_state (g v : GlobalSeq.GlobalSeq) (w : WalManager S) (mm : MemtableManager M)
    (c : option (RowCache C)) e : Engine S M C :=
  {| eg_config := eg_config e; eg_schema := eg_schema e; eg_global := g; eg_visible := v; eg_wal := w;
     eg_memtable := mm; eg_version := eg_version e; eg_catalog := eg_catalog e; eg_cache := c;
     eg_compacting := eg_compacting e; eg_pending := eg_pending e; eg_live := eg_live e;
     eg_read_only := eg_read_only e; eg_closed := eg_closed e |}.

Definition set_wal (w : WalManager S) e := with_state (eg_global e) (eg_visible e) w (eg_memtable e) (eg_cache e) e.
Definition set_memtable (mm : MemtableManager M) e :=
  with_state (eg_global e) (eg_visible e) (eg_wal e) mm (eg_cache e) e.
Definition set_row_cache (c : option (RowCache C)) e :=
  with_state (eg_global e) (eg_visible e) (eg_wal e) (eg_memtable e) c e.
Definition set_global (g : GlobalSeq.GlobalSeq) e :=
  with_state g (eg_visible e) (eg_wal e) (eg_memtable e) (eg_cache e) e.
Definition set_visible (v : GlobalSeq.GlobalSeq) e :=
  with_state (eg_global e) v (eg_wal e) (eg_memtable e) (eg_cache e) e.
End update.

(** ** Flow control *)

(** Microseconds a write sleeps for the number of L0 files. *)
Definition l0_delay (c : EngineConfig) (l0 : Z) : Z :=
  let slow := l0_slowdown_trigger c in
  let stop := l0_stop_trigger c in
  if (slow <=? l0) && (slow <? stop) then
    let excess := l0 - slow in
    let range := stop - slow in
    wrap 64 (1000 * Z.min excess range) / range
  else 0.

(** [as u64]: towards zero, saturating, 0 for a NaN. *)
Definition f64_to_u64 (x : f64) : Z :=
  match x with
  | S754_finite false m e => Z.min u64_max (Z.shiftl (Zpos m) e)
  | S754_infinity false => u64_max
  | _ => 0
  end.

Definition f64_half : f64 := f64_div (as_f64 1) (as_f64 2).
Definition f64_mul (a b : f64) : f64 := SFmul 53 1024 a b.
Definition f64_sub (a b : f64) : f64 := SFsub 53 1024 a b.

(** Milliseconds a write sleeps for the number of sealed memtables. *)
Definition immutable_delay (imm_count max_imm : Z) : Z :=
  let ratio := f64_div (as_f64 imm_count) (as_f64 max_imm) in
  if f64_lt f64_half ratio then
    f64_to_u64 (f64_mul (f64_mul (f64_sub ratio f64_half) (as_f64 2)) (as_f64 5))
  else 0.

(** A writer waits, or is answered after sleeping [micros]. *)
Inductive written : Type := Parked | Done (micros : Z) (r : res SeqNum).

(** A batch of mutations. *)
Record Mutation : Type := {
  mu_pk : list FieldValue;
  mu_row : option Row;
  mu_op : OpType;
}.

(** A mutation with its key and value encoded. *)
Record EncodedOp : Type := { eo_key : bytes; eo_value : bytes; eo_op : OpType }.

Section writes.
Context (xxh3_64 crc32 : bytes -> Z) {S F M C B : Type}.
Context `{!Arrow, !ParquetFile F, !FooterCodec, !SchemaJson, !Roaring B}.
Context `{!WalSink S, !FileSystem S, !SkipMap M, !LruCache C, !RowSerde}.
Context (files : string -> option F) (puffins : string -> option bytes).
Implicit Types e : Engine S M C.

(** What the read path sees of the engine. *)
Definition eview e : MeruEngine F M C :=
  {| en_schema := eg_schema e; en_memtable := eg_memtable e; en_cache := eg_cache e;
     en_version := vs_current (eg_version e); en_visible := GlobalSeq.current (eg_visible e);
     en_files := files; en_puffins := puffins |}.

(** [point_lookup] of the engine. *)
Definition lookup_row e (pk_values : list FieldValue) : Engine S M C * res (option Row) :=
  let '(en, r) := point_lookup xxh3_64 crc32 (B := B) (eview e) pk_values in
  (set_row_cache (en_cache en) e, r).

(** The row stored with a tombstone: the last live row, if any. *)
Definition pre_image e (pk_values : list FieldValue) : Engine S M C * res bytes :=
  match lookup_row e pk_values with
  | (e, Ok (Some row)) => (e, encode_row row)
  | (e, Ok None) => (e, Ok [])
  | (e, Err x) => (e, Err x)
  | (e, Panic) => (e, Panic)
  end.

(** The value bytes of a mutation. *)
Definition op_value e (m : Mutation) : Engine S M C * res bytes :=
  match mu_op m with
  | Put => (e, match mu_row m with Some row => encode_row row | None => Ok [] end)
  | Delete => pre_image e (mu_pk m)
  end.

Definition add_op (b : WriteBatch) (op : EncodedOp) : WriteBatch :=
  match eo_op op with
  | Put => put (eo_key op) (eo_value op) b
  | Delete => delete_with_pre_image (eo_key op) (eo_value op) b
  end.

(** The section under the log's mutex: allocate the sequence numbers, append
    the batch, apply it, and publish it to readers. *)
Definition log_and_apply e (ops : list EncodedOp) : Engine S M C * res (SeqNum * bool) :=
  let n := Z.of_nat (length ops) in
  let '(sq, g) := GlobalSeq.allocate_n n (eg_global e) in
  let e := set_global g e in
  let batch := fold_left add_op ops (new_batch sq) in
  match wal_append crc32 batch (eg_wal e) with
  | (w, Ok _) =>
      let e := set_wal w e in
      match mm_apply_batch batch (eg_memtable e) with
      | (mm, Ok full) =>
          let e := set_memtable mm e in
          (set_visible (GlobalSeq.set_at_least (wrap 64 (sq + n - 1)) (eg_visible e)) e, Ok (sq, full))
      | (mm, Err x) => (set_memtable mm e, Err x)
      | (mm, Panic) => (set_memtable mm e, Panic)
      end
  | (w, Err x) => (set_wal w e, Err x)
  | (w, Panic) => (set_wal w e, Panic)
  end.

Definition invalidate_all (keys : list bytes) (c : option (RowCache C)) : option (RowCache C) :=
  (fun c => fold_left (fun c k => invalidate k c) keys c) <$> c.

(** Seal the active memtable and start a new log. *)
Definition rotate_logs e : Engine S M C * res unit :=
  let next_seq := SeqNum_next (GlobalSeq.current (eg_global e)) in
  let e := set_memtable (mm_rotate next_seq (eg_memtable e)).1 e in
  match WalManager.rotate (eg_wal e) with
  | (w, Ok _) => (set_wal w e, Ok tt)
  | (w, Err x) => (set_wal w e, Err x)
  | (w, Panic) => (set_wal w e, Panic)
  end.

(** What follows the mutex: drop the cached rows, rotate a full memtable. *)
Definition finish_write e (keys : list bytes) (r : res (SeqNum * bool)) : Engine S M C * res SeqNum :=
  match r with
  | Ok (sq, full) =>
      let e := set_row_cache (invalidate_all keys (eg_cache e)) e in
      if full && active_should_flush (eg_memtable e) then
        match rotate_logs e with
        | (e, Ok _) => (e, Ok sq)
        | (e, Err x) => (e, Err x)
        | (e, Panic) => (e, Panic)
        end
      else (e, Ok sq)
  | Err x => (e, Err x)
  | Panic => (e, Panic)
  end.

Definition write_ops e (ops : list EncodedOp) : Engine S M C * res SeqNum :=
  let '(e, r) := log_and_apply e ops in finish_write e (map eo_key ops) r.

(** Whether a write has to wait: the L0 stop trigger, then the queue of
    sealed memtables. *)
Definition parks e : bool :=
  (l0_stop_trigger (eg_config e) <=? Z.of_nat (l0_file_count (vs_current (eg_version e))))
  || should_stall (eg_memtable e).

Definition write_internal e (pk_values : list FieldValue) (row : option Row) (op : OpType)
    : Engine S M C * written :=
  if eg_closed e then (e, Done 0 (Err Closed))
  else if parks e then (e, Parked)
  else
    let micros := l0_delay (eg_config e) (Z.of_nat (l0_file_count (vs_current (eg_version e))))
                  + 1000 * immutable_delay (immutable_count (eg_memtable e)) (max_immutable_count (eg_config e)) in
    let answer (x : Engine S M C * res SeqNum) := (x.1, Done micros x.2) in
    match encode_user_key pk_values (eg_schema e) with
    | Ok uk =>
        match op_value e {| mu_pk := pk_values; mu_row := row; mu_op := op |} with
        | (e, Ok v) => answer (write_ops e [{| eo_key := uk; eo_value := v; eo_op := op |}])
        | (e, Err x) => answer (e, Err x)
        | (e, Panic) => answer (e, Panic)
        end
    | Err x => answer (e, Err x)
    | Panic => answer (e, Panic)
    end.

Definition eng_put e (pk_values : list FieldValue) (row : Row) : Engine S M C * written :=
  if eg_read_only e then (e, Done 0 (Err ReadOnly))
  else match Row_validate row (eg_schema e) with
       | Ok _ => write_internal e pk_values (Some row) Put
       | Err x => (e, Done 0 (Err x))
       | Panic => (e, Done 0 Panic)
       end.

Definition eng_delete e (pk_values : list FieldValue) : Engine S M C * written :=
  if eg_read_only e then (e, Done 0 (Err ReadOnly))
  else write_internal e pk_values None Delete.

(** ** Batches *)
Fixpoint validate_batch (s : TableSchema) (ops : list Mutation) : res unit :=
  match ops with
  | [] => Ok tt
  | m :: ops =>
      match mu_op m, mu_row m with
      | Put, Some row =>
          match Row_validate row s with
          | Ok _ => validate_batch s ops
          | Err _ => Err (SchemaMismatch "batch entry {i}: {e}")
          | Panic => Panic
          end
      | _, _ => validate_batch s ops
      end
  end.

(** The mutations encoded in order, each pre-image looked up on the way. *)
Fixpoint encode_ops e (ops : list Mutation) (acc : list EncodedOp) : Engine S M C * res (list EncodedOp) :=
  match ops with
  | [] => (e, Ok acc)
  | m :: ops =>
      match encode_user_key (mu_pk m) (eg_schema e) with
      | Ok uk =>
          match op_value e m with
          | (e, Ok v) => encode_ops e ops (acc ++ [{| eo_key := uk; eo_value := v; eo_op := mu_op m |}])
          | (e, Err x) => (e, Err x)
          | (e, Panic) => (e, Panic)
          end
      | Err x => (e, Err x)
      | Panic => (e, Panic)
      end
  end.

Definition write_batch e (ops : list Mutation) : Engine S M C * written :=
  match ops with
  | [] => (e, Done 0 (Ok (GlobalSeq.current (eg_visible e))))
  | _ =>
      if eg_read_only e then (e, Done 0 (Err ReadOnly))
      else if eg_closed e then (e, Done 0 (Err Closed))
      else
        match validate_batch (eg_schema e) ops with
        | Ok _ =>
            if parks e then (e, Parked)
            else match encode_ops e ops [] with
                 | (e, Ok eops) => let '(e, r) := write_ops e eops in (e, Done 0 r)
                 | (e, Err x) => (e, Done 0 (Err x))
                 | (e, Panic) => (e, Done 0 Panic)
                 end
        | Err x => (e, Done 0 (Err x))
        | Panic => (e, Done 0 Panic)
        end
  end.
End writes.

(** ** Batches of encoded operations *)
Definition op_record (op : EncodedOp) : BatchRecord :=
  {| rec_op := eo_op op; user_key := eo_key op; value := Some (eo_value op) |}.

Definition ops_batch (sq : SeqNum) (ops : list EncodedOp) : WriteBatch :=
  {| sequence := sq; records := map op_record ops |}.

Lemma fold_add_op ops b :
  fold_left add_op ops b = {| sequence := sequence b; records := records b ++ map op_record ops |}.
Proof.
  revert b. induction ops as [|op ops IH]; intros b; cbn [fold_left map].
  - rewrite app_nil_r. by destruct b.
  - rewrite IH. unfold add_op, op_record. destruct (eo_op op); cbn; by rewrite <- app_assoc.
Qed.

Lemma fold_ops_batch sq ops : fold_left add_op ops (new_batch sq) = ops_batch sq ops.
Proof. by rewrite fold_add_op. Qed.

Lemma elem_record_versions sq rs (v : VersionOf bytes) :
  v ∈ record_versions sq rs ->
  exists i r, rs !! i = Some r /\ v_seq v = sq + Z.of_nat i /\ v_key v = user_key r /\ v_op v = rec_op r /\
    v_val v = value_bytes r.
Proof.
  revert sq. induction rs as [|r rs IH]; intros sq; cbn; [by intros ?%elem_of_nil|].
  intros [->|Hv]%elem_of_cons.
  - exists 0%nat, r. cbn. split_and!; [done|lia|done..].
  - destruct (IH _ Hv) as (i & r' & Hi & Hs & H). exists (S i), r'. split; [done|]. split; [lia|done].
Qed.

Section writer.
Context (xxh3_64 crc32 : bytes -> Z) {S F M C B : Type}.
Context `{AR : !Arrow, PF : !ParquetFile F, FC : !FooterCodec, SJ : !SchemaJson, RB : !Roaring B}.
Context `{WS : !WalSink S, FS : !FileSystem S}.
Context `{SM : !SkipMap M, SML : !SkipMapLaws M, LC : !LruCache C, LCL : !LruCacheLaws C, RS : !RowSerde}.
Context (files : string -> option F) (puffins : string -> option bytes).
Implicit Types (e : Engine S M C) (ops : list EncodedOp).
Local Abbreviation view := (eview files puffins).
Local Abbreviation content_t := (DataFileMeta -> list (VersionOf (InternalKey * Row))).
Local Abbreviation all e ts content := (all_versions (view e) ts content).
Local Abbreviation counter e := (GlobalSeq.counter (eg_global e)).
Local Abbreviation visible e := (GlobalSeq.counter (eg_visible e)).

(** The engine between operations: what it holds can be read, its cached rows
    are current, and everything it holds is visible. *)
Record WriterOk e ts (content : content_t) : Prop := {
  wo_engine : EngineOk xxh3_64 crc32 (B := B) (view e) ts content;
  wo_cache : CacheOk (view e) (all e ts content);
  wo_open : sealed (active (eg_memtable e)) = false;
  wo_seqs x : x ∈ all e ts content -> v_seq x <= visible e;
  wo_visible : 0 <= visible e < counter e;
}.

(** Operations that the table can store. *)
Definition op_ok e (op : EncodedOp) : Prop :=
  encoded_key (eg_schema e) (eo_key op) /\
  (eo_op op = Put -> exists row, decode_row (eo_value op) = Ok row).

(** What [ops] write from sequence number [sq], newest first. *)
Definition written_rows (sq : SeqNum) ops : list (VersionOf Row) :=
  map (vmap mem_row) (rev (batch_versions (ops_batch sq ops))).

Lemma written_seqs sq ops x : x ∈ written_rows sq ops -> sq <= v_seq x < sq + Z.of_nat (length ops).
Proof.
  unfold written_rows. intros (y & -> & Hy)%list_elem_of_fmap.
  apply list_elem_of_In, in_rev, list_elem_of_In in Hy. apply record_versions_seqs in Hy. cbn [ops_batch records sequence] in Hy.
  rewrite length_map in Hy. done.
Qed.

Lemma written_keys sq ops x : x ∈ written_rows sq ops -> v_key x ∈ map eo_key ops.
Proof.
  unfold written_rows. intros (y & -> & Hy)%list_elem_of_fmap. apply list_elem_of_In, in_rev, list_elem_of_In in Hy.
  apply elem_record_versions in Hy as (i & r & Hi & _ & Hk & _). cbn [vmap v_key]. rewrite Hk.
  cbn [ops_batch records] in Hi. rewrite list_lookup_fmap in Hi. destruct (ops !! i) as [op|] eqn:Eo; [|done].
  injection Hi as <-. apply list_elem_of_In, in_map_iff. exists op. split; [done|]. apply list_elem_of_In. by eapply list_elem_of_lookup_2.
Qed.

Lemma elem_mem e ts (content : content_t) x : x ∈ a_all ts -> vmap mem_row x ∈ all e ts content.
Proof. intros Hx. unfold all_versions. cbn [layers concat]. apply elem_of_app. left. by apply list_elem_of_fmap_2. Qed.

Lemma all_split e ts (content : content_t) :
  all e ts content = map (vmap mem_row) (a_all ts) ++
    concat (map (map (vmap file_row)) (disk_layers (vs_current (eg_version e)) content)).
Proof. done. Qed.

Lemma writer_sim e ts (content : content_t) :
  WriterOk e ts content -> mm_sim (encoded_key (eg_schema e)) (eg_memtable e) ts (counter e).
Proof.
  intros HW. split; [apply (eo_mem _ _ _ _ _ (wo_engine _ _ _ HW))|]. split; [apply HW|].
  split; [apply (eo_newer _ _ _ _ _ (wo_engine _ _ _ HW))|]. apply Forall_forall. intros t Ht v Hv.
  assert (Hs : v_seq (vmap mem_row v) <= visible e).
  { apply (wo_seqs _ _ _ HW), elem_mem. unfold a_all. apply elem_of_concat. exists (at_versions t).
    split; [by apply list_elem_of_fmap_2|done]. }
  pose proof (wo_visible _ _ _ HW). cbn in Hs. lia.
Qed.

(** Memtables that hold more, all of it newer. *)
Lemma grow_memtable e e' ts ts' (content : content_t) bound :
  WriterOk e ts content -> eg_schema e' = eg_schema e -> eg_version e' = eg_version e ->
  mm_sim (encoded_key (eg_schema e)) (eg_memtable e') ts' bound ->
  (forall x, x ∈ a_all ts -> x ∈ a_all ts') ->
  (forall x, x ∈ a_all ts' -> x ∈ a_all ts \/
     (visible e < v_seq x /\ encoded_key (eg_schema e) (v_key x) /\
      (v_op x = Put -> exists row, decode_row (v_val x) = Ok row))) ->
  EngineOk xxh3_64 crc32 (B := B) (view e') ts' content.
Proof.
  intros HW Hs Hv (HF & _ & Hn & _) Hsub Hnew. pose proof (wo_engine _ _ _ HW) as [E1 E2 E3 E4 E5 E6].
  cbn [eview en_schema en_memtable en_version] in *.
  assert (HFS : forall f vs, FileState xxh3_64 crc32 (B := B) (view e) f vs -> FileState xxh3_64 crc32 (B := B) (view e') f vs).
  { intros f vs [(rd & dv & Ho & H) Hr]. split; [|exact Hr]. exists rd, dv. unfold open_file, load_dv in *.
    cbn [eview en_schema en_files en_puffins] in *. by rewrite Hs. }
  split; cbn [eview en_schema en_memtable en_version]; rewrite ?Hs, ?Hv; [done|done| | |exact E5|].
  - intros x Hx. destruct (Hnew x Hx) as [Ho|(_ & (pk & Hpk & He) & Hr)]; [by apply E3|].
    split; [done|]. by eapply (decode_pk_total pk).
  - intros l f Hf. by apply HFS, (E4 l).
  - unfold layers in *. cbn [eview en_version] in *. rewrite Hv. inversion E6 as [|? ? Hh Ht]; subst.
    constructor; [|done]. rewrite List.Forall_forall in Hh |- *. intros L HL v w Hvin Hw Hk.
    apply list_elem_of_fmap in Hvin as (v0 & -> & Hv0). destruct (Hnew v0 Hv0) as [Ho|(Hlt & _)].
    + destruct (Hh L HL (vmap mem_row v0) w) as [?|(v' & Hv' & ?)]; [by apply list_elem_of_fmap_2|done|done|by left|].
      right. exists v'. split; [|done]. apply list_elem_of_fmap in Hv' as (y & -> & Hy).
      apply list_elem_of_fmap_2. by apply Hsub.
    + left. cbn [vmap v_seq]. assert (v_seq w <= visible e); [|lia]. apply (wo_seqs _ _ _ HW).
      rewrite all_split. apply elem_of_app. right. apply elem_of_concat. exists L. split; [by apply list_elem_of_In|done].
Qed.

(** Only what writes change has changed. *)
Definition evolved e e' : Prop :=
  e' = with_state (eg_global e') (eg_visible e') (eg_wal e') (eg_memtable e') (eg_cache e') e.

Lemma evolved_refl e : evolved e e.
Proof. by destruct e. Qed.

Lemma evolved_trans e e' e'' : evolved e e' -> evolved e' e'' -> evolved e e''.
Proof. unfold evolved. intros H1 H2. rewrite H1 in H2. rewrite H2. done. Qed.

Lemma evolved_fields e e' : evolved e e' ->
  eg_schema e' = eg_schema e /\ eg_version e' = eg_version e /\ eg_config e' = eg_config e /\
  eg_catalog e' = eg_catalog e /\ eg_read_only e' = eg_read_only e /\ eg_closed e' = eg_closed e.
Proof. intros ->. done. Qed.

Lemma log_and_apply_spec e ts (content : content_t) ops :
  WriterOk e ts content -> Forall (op_ok e) ops -> ops <> [] ->
  counter e + Z.of_nat (length ops) <= SEQNUM_MAX ->
  exists e' r, log_and_apply crc32 e ops = (e', r) /\ evolved e e' /\
    counter e' = counter e + Z.of_nat (length ops) /\ eg_cache e' = eg_cache e /\
    match r with
    | Ok (sq, full) => sq = counter e /\ visible e' = counter e + Z.of_nat (length ops) - 1 /\
        full = active_should_flush (eg_memtable e') /\
        exists bound, mm_sim (encoded_key (eg_schema e)) (eg_memtable e')
                        (a_apply (ops_batch (counter e) ops) ts) bound
    | _ => eg_memtable e' = eg_memtable e /\ eg_visible e' = eg_visible e
    end.
Proof.
  intros HW Hops Hne Hroom. pose proof (wo_visible _ _ _ HW) as Hvis. pose proof SEQNUM_MAX_u64 as HM.
  set (n := Z.of_nat (length ops)) in *. assert (1 <= n) by (destruct ops; [done|unfold n; cbn; lia]).
  unfold log_and_apply, GlobalSeq.allocate_n. fold n. rewrite fold_ops_batch.
  assert (Ew : wrap 64 (counter e + n) = counter e + n) by (apply Z.mod_small; unfold u64_max in HM; lia).
  rewrite Ew. set (b := ops_batch (counter e) ops). cbn [set_global with_state eg_wal].
  destruct (wal_append crc32 b (eg_wal e)) as [w [[]|x|]].
  2,3: eexists _, _; split; [reflexivity|]; done.
  cbn [set_wal set_global with_state eg_memtable].
  assert (Hlen : Z.of_nat (length (records b)) = n) by (cbn [b ops_batch records]; by rewrite length_map).
  destruct (exec_sim (encoded_key (eg_schema e)) (encoded_key_prefix_free _) (OpApply b) [] (eg_memtable e) ts (counter e))
    as (mm' & bound & E & _ & _ & Hsim).
  { by apply writer_sim with content. }
  { lia. }
  { cbn [ops_ok]. rewrite Hlen. split_and!; [done|done| |done].
    cbn [b ops_batch records]. apply Forall_fmap. eapply Forall_impl; [exact Hops|]. by intros op [? _]. }
  cbn [mm_exec a_exec] in E, Hsim. unfold mm_apply_batch in *.
  destruct (apply_batch b (active (eg_memtable e))) as [m r] eqn:Ea.
  destruct r as [full|x|]; cbn in E; [|discriminate E..]. injection E as <-.
  assert (Hfull : full = should_flush m).
  { unfold apply_batch in Ea. destruct (sealed _); [discriminate Ea|]. by injection Ea as <- <-. }
  eexists _, _. split; [reflexivity|]. split; [exact eq_refl|]. split; [done|]. split; [done|]. split; [done|].
  split; [|split; [exact Hfull|by exists bound]]. cbn [set_visible with_state eg_visible GlobalSeq.set_at_least set_memtable set_wal set_global].
  unfold GlobalSeq.set_at_least.
  assert (wrap 64 (counter e + n - 1) = counter e + n - 1) as -> by (apply Z.mod_small; unfold u64_max in HM; lia).
  destruct (Z.leb_spec (counter e + n - 1) (visible e)) as [Hle|]; [lia|done].
Qed.

Lemma a_all_apply b ts : ts <> [] -> a_all (a_apply b ts) = rev (batch_versions b) ++ a_all ts.
Proof. destruct ts as [|t ts]; [done|]. intros _. unfold a_all. cbn. by rewrite <- app_assoc. Qed.

Lemma WriterOk_tables e ts (content : content_t) : WriterOk e ts content -> ts <> [].
Proof. intros HW ->. pose proof (eo_mem _ _ _ _ _ (wo_engine _ _ _ HW)) as H. inversion H. Qed.

(** Invalidation keeps rows of other keys. *)
Lemma invalidate_all_ok (P Q : bytes -> CacheEntry -> Prop) keys (c : RowCache C) :
  cached P c -> (forall k x, k ∉ keys -> P k x -> Q k x) ->
  cached Q (fold_left (fun c k => invalidate k c) keys c).
Proof.
  revert P c. induction keys as [|k keys IH]; intros P c Hc HPQ; cbn [fold_left].
  - intros k x Hx. apply HPQ; [apply not_elem_of_nil|by apply Hc].
  - apply (IH (fun k' x => k' <> k /\ P k' x)).
    + eapply cached_invalidate; [exact Hc|]. done.
    + intros k' x Hk' [Hne HP]. apply HPQ; [|done]. rewrite not_elem_of_cons. done.
Qed.

(** The rows of other keys are the same at the new frontier. *)
Lemma newest_written e ts (content : content_t) sq ops k r :
  (forall x, x ∈ all e ts content -> v_seq x < sq) ->
  newest (written_rows sq ops ++ all e ts content) k r
  = match newest (written_rows sq ops) k r with
    | Some v => Some v
    | None => newest (all e ts content) k r
    end.
Proof.
  intros H. apply newest_app_newer. intros v w Hv Hw. apply written_seqs in Hv. specialize (H w Hw). lia.
Qed.

Lemma newest_elem {V} (vs : list (VersionOf V)) k r x : newest vs k r = Some x -> x ∈ vs /\ v_key x = k /\ v_seq x <= r.
Proof. by intros (? & [? ?]%visible_spec & _)%newest_is_newest. Qed.

Lemma newest_same_frontier {V} (vs : list (VersionOf V)) k r r' :
  (forall x, x ∈ vs -> v_seq x <= r) -> r <= r' -> newest vs k r' = newest vs k r.
Proof.
  intros H Hr. induction vs as [|v vs IH]; [done|]. cbn [newest].
  assert (v_seq v <= r) by (apply H; left). rewrite IH by (intros x Hx; apply H; by right).
  assert (Mvcc.visible k r' v = Mvcc.visible k r v) as ->; [|done].
  apply eq_true_iff_eq. rewrite !visible_spec. split; intros []; split; (done || lia).
Qed.

Lemma applied_ok e e' ts ts' (content : content_t) ops bound :
  WriterOk e ts content -> Forall (op_ok e) ops -> ops <> [] -> evolved e e' ->
  a_all ts' = rev (batch_versions (ops_batch (counter e) ops)) ++ a_all ts ->
  mm_sim (encoded_key (eg_schema e)) (eg_memtable e') ts' bound ->
  counter e' = counter e + Z.of_nat (length ops) ->
  visible e' = counter e + Z.of_nat (length ops) - 1 ->
  eg_cache e' = invalidate_all (map eo_key ops) (eg_cache e) ->
  WriterOk e' ts' content /\ all e' ts' content = written_rows (counter e) ops ++ all e ts content.
Proof.
  intros HW Hops Hne Hev Hall Hsim Hc Hv Hcache. destruct (evolved_fields _ _ Hev) as (Hs & Hver & _).
  pose proof (wo_visible _ _ _ HW) as Hvis.
  assert (Hnew : all e' ts' content = written_rows (counter e) ops ++ all e ts content).
  { rewrite !all_split, Hall, Hver. unfold written_rows. by rewrite map_app, <- app_assoc. }
  assert (Hlt : forall x, x ∈ all e ts content -> v_seq x < counter e).
  { intros x Hx. pose proof (wo_seqs _ _ _ HW x Hx). lia. }
  assert (1 <= Z.of_nat (length ops)) by (destruct ops; [done|cbn; lia]).
  split; [|done]. split.
  - eapply grow_memtable; [done..| |]; rewrite Hall.
    + intros x Hx. apply elem_of_app. by right.
    + intros x [Hx|Hx]%elem_of_app; [right|by left]. apply list_elem_of_In, in_rev, list_elem_of_In in Hx.
      pose proof (record_versions_seqs _ _ _ Hx) as Hsq. apply elem_record_versions in Hx as (i & r & Hi & _ & Hk & Ho & Hval).
      cbn [ops_batch records sequence] in Hi, Hsq. rewrite list_lookup_fmap in Hi. destruct (ops !! i) as [op|] eqn:Eo; [|done].
      injection Hi as <-. rewrite Forall_forall in Hops. destruct (Hops op (list_elem_of_lookup_2 _ _ _ Eo)) as [Hek Hrow].
      split; [lia|]. rewrite Hk, Ho, Hval. done.
  - unfold CacheOk. cbn [eview en_cache]. rewrite Hcache. pose proof (wo_cache _ _ _ HW) as HC. unfold CacheOk in HC.
    cbn [eview en_cache] in HC. destruct (eg_cache e) as [c|]; [|done]. cbn [invalidate_all fmap option_fmap option_map].
    eapply invalidate_all_ok; [exact HC|]. intros k x Hk (y & Hy & Hx). exists y. split; [|done].
    rewrite Hnew, newest_written by done. cbn [read_seq eview en_visible GlobalSeq.current] in Hy |- *.
    destruct (newest (written_rows (counter e) ops) k _) as [z|] eqn:Ez.
    { apply newest_elem in Ez as (Hz & <- & _). by apply written_keys in Hz. }
    unfold read_seq, GlobalSeq.current in *. cbn [eview en_visible] in *. rewrite <- Hy. apply newest_same_frontier; [apply HW|lia].
  - by destruct Hsim as (_ & ? & _).
  - rewrite Hnew. intros x [Hx|Hx]%elem_of_app; [apply written_seqs in Hx; lia|]. apply Hlt in Hx. lia.
  - lia.
Qed.

(** Readers see no difference. *)
Lemma WriterOk_same e e' ts (content : content_t) :
  WriterOk e ts content -> evolved e e' -> eg_memtable e' = eg_memtable e -> eg_visible e' = eg_visible e ->
  eg_cache e' = eg_cache e -> counter e <= counter e' ->
  WriterOk e' ts content /\ all e' ts content = all e ts content.
Proof.
  intros [H1 H2 H3 H4 H5] Hev Hm Hv Hc Hle. destruct (evolved_fields _ _ Hev) as (Hs & Hver & _).
  assert (Ev : view e' = view e) by (unfold eview; by rewrite Hs, Hm, Hc, Hver, Hv).
  split; [|by rewrite Ev]. split; rewrite ?Ev, ?Hm, ?Hv; [done..|lia].
Qed.

Lemma rotate_logs_spec e : exists e' r, rotate_logs e = (e', r) /\ evolved e e' /\
  eg_global e' = eg_global e /\ eg_visible e' = eg_visible e /\ eg_cache e' = eg_cache e /\
  eg_memtable e' = (mm_rotate (SeqNum_next (counter e)) (eg_memtable e)).1.
Proof.
  unfold rotate_logs. destruct (WalManager.rotate _) as [w [|x|]]; eexists _, _; (split; [reflexivity|]); done.
Qed.

(** Writing encoded operations: all of them are applied, or none; an answer
    with a sequence number is an applied one. *)
Lemma write_ops_spec e ts (content : content_t) ops :
  WriterOk e ts content -> Forall (op_ok e) ops -> ops <> [] ->
  counter e + Z.of_nat (length ops) <= SEQNUM_MAX ->
  exists e' r ts', write_ops crc32 e ops = (e', r) /\ evolved e e' /\ WriterOk e' ts' content /\
    counter e' = counter e + Z.of_nat (length ops) /\
    ((~ is_ok r /\ visible e' = visible e /\ all e' ts' content = all e ts content) \/
     ((is_ok r -> r = Ok (counter e)) /\ visible e' = counter e + Z.of_nat (length ops) - 1 /\
      all e' ts' content = written_rows (counter e) ops ++ all e ts content)).
Proof.
  intros HW Hops Hne Hroom. unfold write_ops.
  destruct (log_and_apply_spec e ts content ops HW Hops Hne Hroom) as (e1 & r & -> & Hev & Hc & Hcache & Hr).
  destruct r as [[sq full]|x|].
  2,3: destruct Hr as [Hm Hv];
    destruct (WriterOk_same e e1 ts content HW Hev Hm Hv Hcache ltac:(lia)) as [HW1 Hall];
    eexists e1, _, ts; split; [reflexivity|]; split_and!; [done..|]; left; split_and!; [by intros [? ?]|by rewrite Hv|done].
  destruct Hr as (-> & Hv & _ & bound & Hsim). cbn [finish_write].
  set (e2 := set_row_cache _ e1).
  assert (Hev2 : evolved e e2) by (eapply evolved_trans; [exact Hev|exact eq_refl]).
  destruct (applied_ok e e2 ts _ content ops bound HW Hops Hne Hev2
    (a_all_apply _ _ (WriterOk_tables _ _ _ HW)) Hsim Hc Hv) as [HW2 Hall].
  { cbn [e2 set_row_cache with_state eg_cache]. by rewrite Hcache. }
  destruct (full && _); [|eexists e2, _, _; split; [reflexivity|]; split_and!; [done..|]; right; split_and!; done].
  destruct (rotate_logs_spec e2) as (e3 & r3 & E3 & Hev3 & Hg3 & Hv3 & Hc3 & Hm3). rewrite E3.
  assert (Hev' : evolved e e3) by (by eapply evolved_trans).
  destruct (applied_ok e e3 ts (a_rotate (SeqNum_next (counter e2)) (a_apply (ops_batch (counter e) ops) ts)) content ops bound
    HW Hops Hne Hev') as [HW3 Hall3].
  { unfold a_all. cbn [a_rotate map concat at_versions app]. by apply a_all_apply, (WriterOk_tables _ _ _ HW). }
  { rewrite Hm3. destruct (exec_sim (encoded_key (eg_schema e)) (encoded_key_prefix_free _)
      (OpRotate (SeqNum_next (counter e2))) [] (eg_memtable e2) (a_apply (ops_batch (counter e) ops) ts) (Z.max 0 bound))
      as (mm' & b' & E & _ & _ & HS); [|lia|done|].
    { destruct Hsim as (? & ? & ? & HB). split_and!; [done..|]. eapply Forall_impl; [exact HB|].
      cbn. intros t Ht v Hv'. specialize (Ht v Hv'). lia. }
    injection E as <-. destruct HS as (? & ? & ? & HB). split_and!; [done..|]. destruct Hsim as (_ & _ & _ & HB0).
    unfold a_exec, a_rotate. constructor; [by intros v ?%not_elem_of_nil|done]. }
  { by rewrite Hg3. } { by rewrite Hv3. } { rewrite Hc3. cbn [e2 set_row_cache with_state eg_cache]. by rewrite Hcache. }
  assert (Hc3' : counter e3 = counter e + Z.of_nat (length ops)) by (by rewrite Hg3).
  assert (Hv3' : visible e3 = counter e + Z.of_nat (length ops) - 1) by (by rewrite Hv3).
  destruct r3 as [[]|x|]; eexists e3, _, _; (split; [reflexivity|]); split_and!; try done; right; split_and!; try done; by intros [? ?].
Qed.

Context `{RSL : !RowSerdeLaws}.

(** Looking a row up changes the cache only, and finds what the store holds. *)
Lemma lookup_row_spec e ts (content : content_t) pk uk :
  WriterOk e ts content -> Forall FieldValue_wf pk -> encode_user_key pk (eg_schema e) = Ok uk ->
  visible e <= SEQNUM_MAX ->
  exists e', lookup_row xxh3_64 crc32 (B := B) files puffins e pk
      = (e', Ok (outcome (newest (all e ts content) uk (visible e)))) /\
    evolved e e' /\ eg_memtable e' = eg_memtable e /\ eg_visible e' = eg_visible e /\ eg_global e' = eg_global e /\
    WriterOk e' ts content /\ all e' ts content = all e ts content.
Proof.
  intros HW Hpk Hk Hmax. set (ik := {| encoded := uk ++ be_split 8 (tag_word (visible e) Put); seq := visible e;
    op_type := Put; pk_vals := pk |}).
  assert (Hik : encode pk (read_seq (view e)) Put (en_schema (view e)) = Ok ik).
  { unfold encode, encode_user_key in *. cbn [eview en_schema read_seq en_visible GlobalSeq.current]. rewrite Hk, Ok_bind.
    unfold encode_tag, read_seq, GlobalSeq.current. cbn [eview en_visible]. destruct (Z.ltb_spec SEQNUM_MAX (visible e)); [lia|done]. }
  assert (Huk : user_key_bytes ik = uk).
  { destruct (encode_inv _ _ _ _ _ Hik) as (b & Hb & _ & _ & _ & _ & _ & ->). unfold encode_user_key in Hk.
    cbn [eview en_schema] in Hb. congruence. }
  destruct (point_lookup_spec xxh3_64 crc32 (B := B) (view e) ts content pk ik (wo_engine _ _ _ HW) (wo_cache _ _ _ HW) Hpk Hik)
    as [(en & E & Hen & HC) _].
  unfold lookup_row. rewrite E, Huk. eexists. split; [reflexivity|]. split; [exact eq_refl|].
  do 3 (split; [done|]). assert (Ev : view (set_row_cache (en_cache en) e) = en) by (rewrite Hen; done).
  assert (Hall : all_versions en ts content = all e ts content) by (rewrite Hen; done).
  split; [|by rewrite Ev]. destruct HW as [H1 H2 H3 H4 H5]. split; rewrite ?Ev, ?Hall; [|done..].
  rewrite Hen. destruct H1 as [E1 E2 E3 E4 E5 E6]. split; [done|done|done| |done|done].
  intros l f Hf. destruct (E4 l f Hf) as [Ho Hr]. by split.
Qed.

(** The engine after work that only readers could have done. *)
Record Looked e e' ts (content : content_t) : Prop := {
  lk_evolved : evolved e e';
  lk_memtable : eg_memtable e' = eg_memtable e;
  lk_visible : eg_visible e' = eg_visible e;
  lk_global : eg_global e' = eg_global e;
  lk_ok : WriterOk e' ts content;
  lk_all : all e' ts content = all e ts content;
}.

Lemma Looked_refl e ts (content : content_t) : WriterOk e ts content -> Looked e e ts content.
Proof. intros HW. split; try done. apply evolved_refl. Qed.

Lemma Looked_trans e1 e2 e3 ts (content : content_t) :
  Looked e1 e2 ts content -> Looked e2 e3 ts content -> Looked e1 e3 ts content.
Proof. intros [A1 A2 A3 A4 A5 A6] [B1 B2 B3 B4 B5 B6]. split; [by eapply evolved_trans|congruence..|done|congruence]. Qed.

(** The bytes stored with an operation: the row written, or the row a
    tombstone removes. *)
Definition value_ok e ts (content : content_t) (m : Mutation) (uk v : bytes) : Prop :=
  match mu_op m with
  | Put => decode_row v = Ok (default Row_default (mu_row m))
  | Delete => match outcome (newest (all e ts content) uk (visible e)) with
              | Some row => decode_row v = Ok row
              | None => v = []
              end
  end.

Lemma op_value_spec e ts (content : content_t) m uk :
  WriterOk e ts content -> Forall FieldValue_wf (mu_pk m) -> encode_user_key (mu_pk m) (eg_schema e) = Ok uk ->
  visible e <= SEQNUM_MAX ->
  exists e' r, op_value xxh3_64 crc32 (B := B) files puffins e m = (e', r) /\ Looked e e' ts content /\
    match r with Ok v => value_ok e ts content m uk v | _ => True end.
Proof.
  intros HW Hpk Hk Hmax. unfold op_value, value_ok. destruct (mu_op m).
  - unfold pre_image. destruct (lookup_row_spec e ts content (mu_pk m) uk HW Hpk Hk Hmax) as (e' & -> & ? & ? & ? & ? & ? & ?).
    assert (Looked e e' ts content) by done. destruct (outcome _) as [row|].
    + eexists _, _. split; [reflexivity|]. split; [done|]. destruct (encode_row row) eqn:E; [|done..].
      by apply decode_encode_row.
    + by eexists _, _.
  - eexists _, _. split; [reflexivity|]. split; [by apply Looked_refl|].
    destruct (mu_row m) as [row|]; cbn; [|done]. destruct (encode_row row) eqn:E; [|done..]. by apply decode_encode_row.
Qed.

Lemma value_ok_op e ts (content : content_t) m uk v :
  Forall FieldValue_wf (mu_pk m) -> encode_user_key (mu_pk m) (eg_schema e) = Ok uk -> value_ok e ts content m uk v ->
  op_ok e {| eo_key := uk; eo_value := v; eo_op := mu_op m |}.
Proof.
  intros Hpk Hk Hv. split; [by exists (mu_pk m)|]. cbn. intros Ho. unfold value_ok in Hv. rewrite Ho in Hv. by eexists.
Qed.

(** ** Encoding a batch *)
Definition mutation_wf (m : Mutation) : Prop := Forall FieldValue_wf (mu_pk m).

Definition encodes_to e ts (content : content_t) (m : Mutation) (op : EncodedOp) : Prop :=
  encode_user_key (mu_pk m) (eg_schema e) = Ok (eo_key op) /\ eo_op op = mu_op m /\
  value_ok e ts content m (eo_key op) (eo_value op).

Lemma encodes_to_looked e e' ts (content : content_t) m op :
  Looked e e' ts content -> encodes_to e' ts content m op -> encodes_to e ts content m op.
Proof.
  intros [L1 L2 L3 L4 L5 L6] (H1 & H2 & H3). destruct (evolved_fields _ _ L1) as (Hs & _).
  unfold encodes_to, value_ok in *. rewrite Hs, L6, L3 in *. done.
Qed.

Lemma encode_ops_spec e ts (content : content_t) ms acc :
  WriterOk e ts content -> visible e <= SEQNUM_MAX -> Forall mutation_wf ms ->
  exists e' r, encode_ops xxh3_64 crc32 (B := B) files puffins e ms acc = (e', r) /\ Looked e e' ts content /\
    match r with
    | Ok ops => exists new, ops = acc ++ new /\ Forall2 (encodes_to e ts content) ms new
    | _ => True
    end.
Proof.
  intros HW Hmax Hms. revert e acc HW Hmax. induction Hms as [|m ms Hm _ IH]; intros e acc HW Hmax; cbn [encode_ops].
  { eexists _, _. split; [reflexivity|]. split; [by apply Looked_refl|]. exists []. by rewrite app_nil_r. }
  destruct (encode_user_key (mu_pk m) (eg_schema e)) as [uk|x|] eqn:Hk.
  2,3: eexists _, _; split; [reflexivity|]; split; [by apply Looked_refl|done].
  destruct (op_value_spec e ts content m uk HW Hm Hk Hmax) as (e1 & r & -> & L & Hv).
  destruct r as [v|x|]; [|by eexists _, _..].
  destruct (IH e1 (acc ++ [{| eo_key := uk; eo_value := v; eo_op := mu_op m |}]) (lk_ok _ _ _ _ L))
    as (e2 & r & E2 & L2 & Hr).
  { by rewrite (lk_visible _ _ _ _ L). }
  exists e2, r. split; [done|]. split; [by eapply Looked_trans|]. destruct r as [ops|x|]; [|done..].
  destruct Hr as (new & -> & HF). eexists. split; [by rewrite <- app_assoc|]. constructor; [done|].
  eapply Forall2_impl; [exact HF|]. intros m' op'. by apply encodes_to_looked.
Qed.

(** ** What mutations write *)
Definition mutation_version (sq : SeqNum) (uk : bytes) (m : Mutation) : VersionOf Row :=
  {| v_key := uk; v_seq := sq; v_op := mu_op m; v_val := live_val (mu_op m) (default Row_default (mu_row m)) |}.

(** The versions a batch writes, with consecutive sequence numbers. *)
Fixpoint mutation_versions (s : TableSchema) (sq : SeqNum) (ms : list Mutation) : list (VersionOf Row) :=
  match ms with
  | [] => []
  | m :: ms =>
      match encode_user_key (mu_pk m) s with
      | Ok uk => mutation_version sq uk m :: mutation_versions s (sq + 1) ms
      | _ => []
      end
  end.

Lemma encoded_versions e ts (content : content_t) ms ops sq :
  Forall2 (encodes_to e ts content) ms ops ->
  map (vmap mem_row) (record_versions sq (map op_record ops)) = mutation_versions (eg_schema e) sq ms.
Proof.
  intros HF. revert sq. induction HF as [|m op ms ops (Hk & Ho & Hv) _ IH]; intros sq; [done|].
  cbn [map record_versions mutation_versions]. rewrite Hk. f_equal; [|apply IH].
  unfold vmap, mutation_version, mem_row. cbn [v_key v_seq v_op v_val op_record user_key rec_op value_bytes value]. rewrite Ho. f_equal.
  unfold value_ok in Hv. destruct (mu_op m); [done|]. by rewrite Hv.
Qed.

Lemma written_mutations e ts (content : content_t) ms ops sq :
  Forall2 (encodes_to e ts content) ms ops -> written_rows sq ops = rev (mutation_versions (eg_schema e) sq ms).
Proof.
  intros HF. unfold written_rows, batch_versions. rewrite map_rev. f_equal. cbn [ops_batch sequence records].
  by eapply encoded_versions.
Qed.

Lemma encodes_to_ok e ts (content : content_t) ms ops :
  Forall mutation_wf ms -> Forall2 (encodes_to e ts content) ms ops -> Forall (op_ok e) ops.
Proof.
  intros Hms HF. induction HF as [|m op ms ops (Hk & Ho & Hv) _ IH]; [constructor|].
  apply Forall_cons in Hms as [Hm Hms]. constructor; [|by apply IH].
  pose proof (value_ok_op e ts content m (eo_key op) (eo_value op) Hm Hk Hv) as H. destruct op; cbn in *. by subst.
Qed.

(** All of a batch is written, or nothing; a sequence number is returned only
    for a batch that was. *)
Definition all_or_nothing e ts e' ts' (content : content_t) (ms : list Mutation) (r : res SeqNum) : Prop :=
  (~ is_ok r /\ visible e' = visible e /\ all e' ts' content = all e ts content) \/
  ((is_ok r -> r = Ok (counter e)) /\ visible e' = counter e + Z.of_nat (length ms) - 1 /\
   all e' ts' content = rev (mutation_versions (eg_schema e) (counter e) ms) ++ all e ts content).

Lemma write_mutations_spec e ts (content : content_t) ms ops :
  WriterOk e ts content -> Forall mutation_wf ms -> ms <> [] -> Forall2 (encodes_to e ts content) ms ops ->
  counter e + Z.of_nat (length ms) <= SEQNUM_MAX ->
  exists e' r ts', write_ops crc32 e ops = (e', r) /\ evolved e e' /\ WriterOk e' ts' content /\
    all_or_nothing e ts e' ts' content ms r.
Proof.
  intros HW Hms Hne HF Hroom. pose proof (Forall2_length _ _ _ HF) as Hl.
  destruct (write_ops_spec e ts content ops HW) as (e' & r & ts' & E & Hev & HW' & _ & Hr).
  - by eapply encodes_to_ok.
  - intros ->. destruct ms; [done|discriminate Hl].
  - by rewrite <- Hl.
  - exists e', r, ts'. split_and!; [done..|]. rewrite <- Hl, (written_mutations e ts content ms ops) in Hr by done. done.
Qed.

Lemma nothing_written e ts (content : content_t) ms r :
  WriterOk e ts content -> ~ is_ok r ->
  exists ts', WriterOk e ts' content /\ evolved e e /\ all_or_nothing e ts e ts' content ms r.
Proof. intros HW Hr. exists ts. split; [done|]. split; [apply evolved_refl|]. by left. Qed.

(** Lookups before the write do not matter. *)
Lemma written_after_lookups e e1 e2 ts ts' (content : content_t) ms r :
  Looked e e1 ts content -> evolved e1 e2 -> all_or_nothing e1 ts e2 ts' content ms r ->
  evolved e e2 /\ all_or_nothing e ts e2 ts' content ms r.
Proof.
  intros [L1 L2 L3 L4 L5 L6] Hev H. split; [by eapply evolved_trans|]. unfold all_or_nothing in *.
  destruct (evolved_fields _ _ L1) as (Hs & _). by rewrite L6, L4, L3, Hs in H.
Qed.

Lemma write_internal_spec e ts (content : content_t) pk row op :
  let m := {| mu_pk := pk; mu_row := row; mu_op := op |} in
  WriterOk e ts content -> Forall FieldValue_wf pk -> counter e < SEQNUM_MAX ->
  match write_internal xxh3_64 crc32 (B := B) files puffins e pk row op with
  | (e', Parked) => e' = e /\ parks e = true
  | (e', Done _ r) => exists ts', WriterOk e' ts' content /\ evolved e e' /\ all_or_nothing e ts e' ts' content [m] r
  end.
Proof.
  intros m HW Hpk Hroom. pose proof (wo_visible _ _ _ HW) as Hvis. unfold write_internal. fold m.
  destruct (eg_closed e); [apply nothing_written; [done|by intros []]|]. destruct (parks e) eqn:Ep; [done|].
  destruct (encode_user_key pk (eg_schema e)) as [uk|x|] eqn:Hk; [|apply nothing_written; [done|by intros []]..].
  destruct (op_value_spec e ts content m uk HW Hpk Hk ltac:(lia)) as (e1 & r & -> & L & Hv).
  destruct r as [v|x|]; cbn [fst snd].
  2,3: exists ts; split; [apply L|]; split; [apply L|]; left; split_and!; [by intros []|by rewrite (lk_visible _ _ _ _ L)|apply L].
  destruct (write_mutations_spec e1 ts content [m] [{| eo_key := uk; eo_value := v; eo_op := op |}]) as (e2 & r & ts' & -> & Hev & HW2 & Hr);
    [apply L|by constructor|done| | |].
  - constructor; [|constructor]. destruct (evolved_fields _ _ (lk_evolved _ _ _ _ L)) as (Hs & _).
    unfold encodes_to, value_ok in *. cbn [eo_key eo_value eo_op mu_pk mu_op m]. rewrite Hs, (lk_visible _ _ _ _ L), (lk_all _ _ _ _ L). done.
  - rewrite (lk_global _ _ _ _ L). cbn. lia.
  - destruct (written_after_lookups _ _ _ _ _ _ _ _ L Hev Hr). by exists ts'.
Qed.

Lemma write_batch_spec e ts (content : content_t) ms :
  WriterOk e ts content -> Forall mutation_wf ms -> ms <> [] -> counter e + Z.of_nat (length ms) <= SEQNUM_MAX ->
  match write_batch xxh3_64 crc32 (B := B) files puffins e ms with
  | (e', Parked) => e' = e /\ parks e = true
  | (e', Done _ r) => exists ts', WriterOk e' ts' content /\ evolved e e' /\ all_or_nothing e ts e' ts' content ms r
  end.
Proof.
  intros HW Hms Hne Hroom. pose proof (wo_visible _ _ _ HW) as Hvis. unfold write_batch.
  destruct ms as [|m0 ms0]; [done|]. set (ms := m0 :: ms0) in *.
  destruct (eg_read_only e); [apply nothing_written; [done|by intros []]|].
  destruct (eg_closed e); [apply nothing_written; [done|by intros []]|].
  destruct (validate_batch _ _); [|apply nothing_written; [done|by intros []]..].
  destruct (parks e) eqn:Ep; [done|].
  destruct (encode_ops_spec e ts content ms [] HW ltac:(lia) Hms) as (e1 & r & -> & L & Hr).
  destruct r as [ops|x|].
  2,3: exists ts; split; [apply L|]; split; [apply L|]; left; split_and!; [by intros []|by rewrite (lk_visible _ _ _ _ L)|apply L].
  destruct Hr as (new & -> & HF). cbn [app].
  destruct (write_mutations_spec e1 ts content ms new) as (e2 & r & ts' & -> & Hev & HW2 & Hr);
    [apply L|done|done| | |].
  - eapply Forall2_impl; [exact HF|]. intros m op (H1 & H2 & H3). destruct (evolved_fields _ _ (lk_evolved _ _ _ _ L)) as (Hs & _).
    unfold encodes_to, value_ok in *. rewrite Hs, (lk_visible _ _ _ _ L), (lk_all _ _ _ _ L). done.
  - by rewrite (lk_global _ _ _ _ L).
  - destruct (written_after_lookups _ _ _ _ _ _ _ _ L Hev Hr). by exists ts'.
Qed.
End writer.

(** ** Properties *)

(** A write that returns is what the next lookup of its key finds. *)
Lemma eng_write_reads (xxh3_64 crc32 : bytes -> Z) {S F M C B : Type}
    `{!Arrow, !ParquetFile F, !FooterCodec, !SchemaJson, !Roaring B, !WalSink S, !FileSystem S}
    `{!SkipMap M, !SkipMapLaws M, !LruCache C, !LruCacheLaws C, !RowSerde, !RowSerdeLaws}
    (files : string -> option F) (puffins : string -> option bytes) (e : Engine S M C) ts content pk uk :
  let sq := GlobalSeq.current (eg_global e) in
  let after e' ts' row := WriterOk xxh3_64 crc32 (B := B) files puffins e' ts' content /\
    (lookup_row xxh3_64 crc32 (B := B) files puffins e' pk).2 = Ok row /\
    forall k r, k <> uk \/ r < sq ->
      newest (all_versions (eview files puffins e') ts' content) k r
      = newest (all_versions (eview files puffins e) ts content) k r in
  WriterOk xxh3_64 crc32 (B := B) files puffins e ts content ->
  Forall FieldValue_wf pk -> encode_user_key pk (eg_schema e) = Ok uk -> sq < SEQNUM_MAX ->
  (forall row e' micros s, eng_put xxh3_64 crc32 (B := B) files puffins e pk row = (e', Done micros (Ok s)) ->
     s = sq /\ exists ts', after e' ts' (Some row)) /\
  (forall e' micros s, eng_delete xxh3_64 crc32 (B := B) files puffins e pk = (e', Done micros (Ok s)) ->
     s = sq /\ exists ts', after e' ts' None).
Proof.
  intros sq after HW Hpk Hk Hroom. pose proof (wo_visible _ _ _ _ _ _ _ HW) as Hvis.
  assert (Hint : forall row op e' micros s,
    write_internal xxh3_64 crc32 (B := B) files puffins e pk row op = (e', Done micros (Ok s)) ->
    s = sq /\ exists ts', after e' ts' (match op with Put => Some (default Row_default row) | Delete => None end)).
  { intros row op e' micros s E.
    pose proof (write_internal_spec xxh3_64 crc32 (B := B) files puffins e ts content pk row op HW Hpk Hroom) as Hw.
    rewrite E in Hw. destruct Hw as (ts' & HW' & Hev & [[[] _]|(Hs & Hv & Hall)]); [by exists s|].
    specialize (Hs ltac:(by eexists)). injection Hs as ->. split; [done|]. exists ts'. split; [done|].
    cbn [mutation_versions mu_pk length rev app] in Hall. rewrite Hk in Hall. cbn [rev app] in Hall.
    destruct (evolved_fields _ _ Hev) as (Hsc & _).
    assert (Hvs : GlobalSeq.counter (eg_visible e') = sq).
    { rewrite Hv. unfold sq, GlobalSeq.current. cbn [length]. lia. }
    assert (Hold : forall x, x ∈ all_versions (eview files puffins e) ts content -> v_seq x < sq).
    { intros x Hx. pose proof (wo_seqs _ _ _ _ _ _ _ HW x Hx). unfold sq, GlobalSeq.current. lia. }
    split.
    - destruct (lookup_row_spec xxh3_64 crc32 (B := B) files puffins e' ts' content pk uk HW' Hpk) as (e2 & -> & _);
        [by rewrite Hsc|rewrite Hvs; lia|]. cbn [snd]. f_equal. rewrite Hvs, Hall. cbn [newest].
      assert (Hvv : Mvcc.visible uk sq (mutation_version sq uk {| mu_pk := pk; mu_row := row; mu_op := op |}) = true).
      { apply visible_spec. split; [done|]. cbn. lia. }
      change (GlobalSeq.counter (eg_global e)) with sq. rewrite Hvv.
      destruct (newest (all_versions (eview files puffins e) ts content) uk sq) as [y|] eqn:Ey.
      + apply newest_elem in Ey as (Hy & _). specialize (Hold y Hy). cbn [mutation_version v_seq].
        destruct (Z.ltb_spec sq (v_seq y)); [lia|]. by destruct op.
      + by destruct op.
    - intros k r Hkr. rewrite Hall. cbn [newest]. fold sq.
      destruct (Mvcc.visible k r _) eqn:Evis; [|done]. apply visible_spec in Evis as [E1 E2]. cbn in E1, E2. change (sq <= r) in E2. destruct Hkr; [congruence|lia]. }
  split.
  - intros row e' micros s. unfold eng_put. destruct (eg_read_only e); [by intros [= _ _]|].
    destruct (Row_validate row (eg_schema e)); [|by intros [= _ _]..]. apply (Hint (Some row) Put).
  - intros e' micros s. unfold eng_delete. destruct (eg_read_only e); [by intros [= _ _]|]. apply (Hint None Delete).
Qed.

(** C8. A write is visible as soon as it returns.  On an engine whose store
    can be read and whose cached rows are current, a put that returns a
    sequence number makes the next lookup of its key return the row, a delete
    that returns makes it return nothing; other keys, and readers at older
    sequence numbers, see what they saw, and the engine is again one on which
    lookups and writes behave so (the row cache has no stale row). *)
Theorem write_read_back (xxh3_64 crc32 : bytes -> Z) {S F M C B : Type}
    `{!Arrow, !ParquetFile F, !FooterCodec, !SchemaJson, !Roaring B, !WalSink S, !FileSystem S}
    `{!SkipMap M, !SkipMapLaws M, !LruCache C, !LruCacheLaws C, !RowSerde, !RowSerdeLaws}
    (files : string -> option F) (puffins : string -> option bytes) (e : Engine S M C) ts content pk uk :
  let sq := GlobalSeq.current (eg_global e) in
  let after e' ts' row := WriterOk xxh3_64 crc32 (B := B) files puffins e' ts' content /\
    (lookup_row xxh3_64 crc32 (B := B) files puffins e' pk).2 = Ok row /\
    forall k r, k <> uk \/ r < sq ->
      newest (all_versions (eview files puffins e') ts' content) k r
      = newest (all_versions (eview files puffins e) ts content) k r in
  WriterOk xxh3_64 crc32 (B := B) files puffins e ts content ->
  Forall FieldValue_wf pk -> encode_user_key pk (eg_schema e) = Ok uk -> sq < SEQNUM_MAX ->
  (forall row e' micros s, eng_put xxh3_64 crc32 (B := B) files puffins e pk row = (e', Done micros (Ok s)) ->
     s = sq /\ exists ts', after e' ts' (Some row)) /\
  (forall e' micros s, eng_delete xxh3_64 crc32 (B := B) files puffins e pk = (e', Done micros (Ok s)) ->
     s = sq /\ exists ts', after e' ts' None).
Proof. eapply eng_write_reads; exact _. Qed.

(** C11. Batches are atomic.  A batch of mutations is written as a whole, under
    consecutive sequence numbers in the order of the batch and at the engine's
    next sequence number, or the store keeps exactly the versions it had; an
    error after the batch was written can only come from the rotation of the
    log, a sequence number is never returned for a batch that was not written,
    and a writer held back by flow control leaves the engine as it was. *)
Theorem batch_atomic (xxh3_64 crc32 : bytes -> Z) {S F M C B : Type}
    `{!Arrow, !ParquetFile F, !FooterCodec, !SchemaJson, !Roaring B, !WalSink S, !FileSystem S}
    `{!SkipMap M, !SkipMapLaws M, !LruCache C, !LruCacheLaws C, !RowSerde, !RowSerdeLaws}
    (files : string -> option F) (puffins : string -> option bytes) (e : Engine S M C) ts content ms :
  let sq := GlobalSeq.current (eg_global e) in
  WriterOk xxh3_64 crc32 (B := B) files puffins e ts content ->
  Forall mutation_wf ms -> ms <> [] -> sq + Z.of_nat (length ms) <= SEQNUM_MAX ->
  match write_batch xxh3_64 crc32 (B := B) files puffins e ms with
  | (e', Parked) => e' = e /\ parks e = true
  | (e', Done _ r) => exists ts', WriterOk xxh3_64 crc32 (B := B) files puffins e' ts' content /\
      let old := all_versions (eview files puffins e) ts content in
      let new := rev (mutation_versions (eg_schema e) sq ms) ++ old in
      match r with
      | Ok s => s = sq /\ all_versions (eview files puffins e') ts' content = new
      | _ => all_versions (eview files puffins e') ts' content ∈ [old; new]
      end
  end.
Proof.
  intros sq HW Hms Hne Hroom.
  pose proof (write_batch_spec xxh3_64 crc32 (B := B) files puffins e ts content ms HW Hms Hne Hroom) as Hw.
  destruct (write_batch _ _ _ _ _ _) as [e' [|micros r]]; [done|]. destruct Hw as (ts' & HW' & _ & Hr). exists ts'.
  split; [done|]. destruct Hr as [(Hno & _ & Hall)|(Hs & _ & Hall)].
  - destruct r as [s|x|]; [by destruct Hno; exists s|rewrite Hall; left..].
  - destruct r as [s|x|]; [|rewrite Hall; right; left..].
    specialize (Hs ltac:(by eexists)). injection Hs as ->. done.
Qed.

Lemma f64_to_u64_le x : abs_le x 191 (-5) -> 0 <= f64_to_u64 x <= 5.
Proof.
  destruct x as [s|s| |s m e]; try done. destruct s; [done|]. cbn [abs_le f64_to_u64]. intros Hx.
  assert (0 <= Z.shiftl (Zpos m) e <= 5); [|unfold u64_max; lia]. split; [by apply Z.shiftl_nonneg|].
  destruct (Z.le_ge_cases 0 e) as [He|He].
  - rewrite Z.shiftl_mul_pow2 by done. specialize (Hx 5 ltac:(lia) ltac:(lia)). rewrite Z.pow_add_r in Hx by lia. lia.
  - specialize (Hx (5 - e) ltac:(lia) ltac:(lia)). replace e with (- - e) at 1 by lia.
    rewrite Z.shiftl_opp_r, Z.shiftr_div_pow2 by lia. apply Z.lt_succ_r, Z.div_lt_upper_bound; [apply pow2_pos; lia|].
    replace (e + (5 - e)) with 5 in Hx by lia. replace (-5 + (5 - e)) with (- e) in Hx by lia.
    pose proof (pow2_pos (- e) ltac:(lia)). lia.
Qed.

(** Each operation of the delay rounds below the bound used for the next. *)
Lemma immutable_delay_le n mx : 0 <= n < mx -> n < 2 ^ 53 -> mx < 2 ^ 64 -> 0 <= immutable_delay n mx <= 5.
Proof.
  intros Hn Hs Hm. unfold immutable_delay. change f64_half with (S754_finite false (2 ^ 52) (-53)).
  destruct (f64_lt _ _) eqn:Elt; [|done]. apply f64_to_u64_le.
  destruct (Z.eq_dec n 0) as [-> |Hn0].
  { change (as_f64 0) with (S754_zero false) in Elt. unfold f64_lt, f64_div, as_f64 in Elt.
    destruct (normalize_int mx) as (m & e & E & _); [lia|]. by rewrite E in Elt. }
  pose proof (ratio_abs_le n mx ltac:(lia) Hs Hm) as Hr.
  pose proof (sub_half_abs_le _ Hr Elt) as Hsub. unfold f64_mul, f64_sub, f64_div, as_f64 in *.
  change (binary_normalize 53 1024 2 0 false) with (S754_finite false (2 ^ 52) (-51)).
  change (binary_normalize 53 1024 5 0 false) with (S754_finite false (5 * 2 ^ 50) (-50)).
  apply (mul_abs_le _ 19 (-4)); [split_and!; done|apply (mul_abs_le _ 9 (-4)); [split_and!; done|done|]|];
    by apply (lt_pow_at _ _ _ _ 60).
Qed.

(** C30. A write is never held back for long.  Below the L0 stop trigger the
    delay for L0 files is at most a millisecond, nothing at the slowdown
    trigger and below, and it grows with the number of files; the delay for
    sealed memtables is at most five milliseconds while fewer of them wait than
    the configured limit, whatever the limit is, as long as they are fewer than
    [2 ^ 53] (so that their number is exact as a double).  At the limit a write
    parks instead, which is not bounded. *)
Theorem write_delay_bounded c l0 l0' :
  0 <= l0_slowdown_trigger c -> l0_stop_trigger c <= 2 ^ 54 ->
  0 <= l0 <= l0' ->
  0 <= l0_delay c l0 <= 1000 /\
  (l0 <= l0_slowdown_trigger c -> l0_delay c l0 = 0) /\
  l0_delay c l0 <= l0_delay c l0' /\
  forall n mx, 0 <= n < mx -> n < 2 ^ 53 -> mx < 2 ^ 64 -> 0 <= immutable_delay n mx <= 5.
Proof.
  intros Hslow Hstop Hl.
  assert (HD : forall l, 0 <= l -> l0_delay c l =
    if (l0_slowdown_trigger c <? l0_stop_trigger c) then
      1000 * Z.min (Z.max 0 (l - l0_slowdown_trigger c)) (l0_stop_trigger c - l0_slowdown_trigger c)
        / (l0_stop_trigger c - l0_slowdown_trigger c)
    else 0).
  { intros l H0. unfold l0_delay. destruct (Z.ltb_spec (l0_slowdown_trigger c) (l0_stop_trigger c)) as [Hr|Hr].
    - destruct (Z.leb_spec (l0_slowdown_trigger c) l); cbn [andb].
      + unfold wrap. rewrite Z.mod_small by lia. do 3 f_equal. lia.
      + rewrite (Z.max_l 0), Z.min_l by lia. by rewrite Z.mul_0_r, Z.div_0_l by lia.
    - by rewrite andb_false_r. }
  rewrite !HD by lia. destruct (Z.ltb_spec (l0_slowdown_trigger c) (l0_stop_trigger c)) as [Hr|Hr].
  - split_and!.
    + apply Z.div_pos; lia.
    + apply Z.div_le_upper_bound; lia.
    + intros H. rewrite Z.max_l, Z.min_l by lia. by rewrite Z.mul_0_r, Z.div_0_l by lia.
    + apply Z.div_le_mono; lia.
    + intros n mx ???. by apply immutable_delay_le.
  - split_and!; [lia..|]. intros n mx ???. by apply immutable_delay_le.
Qed.

(** ** A concrete engine: that of the read path, with an empty log *)
Definition ex_writer : Engine bytes (list (bytes * EntryValue)) ListLru :=
  {| eg_config := default_config; eg_schema := example_schema; eg_global := GlobalSeq.new 21;
     eg_visible := GlobalSeq.new 20; eg_wal := ex_m0; eg_memtable := en_memtable ex_engine;
     eg_version := vs_new (en_version ex_engine);
     eg_catalog := {| cat_current := manifest_empty_with_uuid example_schema "t" 0; cat_next_version := 1 |};
     eg_cache := en_cache ex_engine; eg_compacting := ∅; eg_pending := []; eg_live := ∅;
     eg_read_only := false; eg_closed := false |}.

Lemma ex_writer_ok :
  WriterOk (fun _ => 0) example_sum (B := gset Z) (en_files ex_engine) (en_puffins ex_engine) ex_writer ex_tables ex_content.
Proof.
  split; [exact ex_engine_ok|exact ex_cache_ok|reflexivity| |cbn; lia].
  intros x Hx. apply list_elem_of_In in Hx. vm_compute in Hx.
  repeat (destruct Hx as [<-|Hx]; [vm_compute; discriminate|]). destruct Hx.
Qed.

Lemma ex_pk_wf z : in_i 32 z -> Forall FieldValue_wf (example_pk z [b0]).
Proof. intros Hz. apply Forall_cons. split; [done|]. apply Forall_cons. split; [done|constructor]. Qed.

(** A put and a delete of the key that the memtable and the file hold. *)
Definition ex_put := eng_put (fun _ => 0) example_sum (B := gset Z) (en_files ex_engine) (en_puffins ex_engine) ex_writer
  (example_pk 1 [b0]) (ex_r 21).
Definition ex_delete := eng_delete (fun _ => 0) example_sum (B := gset Z) (en_files ex_engine) (en_puffins ex_engine)
  ex_writer (example_pk 1 [b0]).

Lemma write_read_back_witness :
  let look e := (lookup_row (fun _ => 0) example_sum (B := gset Z) (en_files ex_engine) (en_puffins ex_engine) e (example_pk 1 [b0])).2 in
  ex_put = (ex_put.1, Done 0 (Ok 21)) /\ look ex_put.1 = Ok (Some (ex_r 21)) /\
  ex_delete = (ex_delete.1, Done 0 (Ok 21)) /\ look ex_delete.1 = Ok None.
Proof.
  intros look.
  assert (E1 : ex_put = (ex_put.1, Done 0 (Ok 21))) by (vm_compute; reflexivity).
  assert (E2 : ex_delete = (ex_delete.1, Done 0 (Ok 21))) by (vm_compute; reflexivity).
  destruct (write_read_back (fun _ => 0) example_sum (B := gset Z) (en_files ex_engine) (en_puffins ex_engine) ex_writer
    ex_tables ex_content (example_pk 1 [b0]) (user_key_bytes (ex_k 1 9 Put)) ex_writer_ok (ex_pk_wf 1 ltac:(unfold in_i; lia)))
    as [HP HD]; [vm_compute; reflexivity|vm_compute; reflexivity|].
  destruct (HP _ _ _ _ E1) as (_ & ts1 & _ & H1 & _). destruct (HD _ _ _ E2) as (_ & ts2 & _ & H2 & _).
  exact (conj E1 (conj H1 (conj E2 H2))).
Defined.

(** A put and a delete in one batch. *)
Definition ex_mutations : list Mutation :=
  [{| mu_pk := example_pk 2 [b0]; mu_row := Some (ex_r 22); mu_op := Put |};
   {| mu_pk := example_pk 1 [b0]; mu_row := None; mu_op := Delete |}].

Lemma batch_atomic_witness :
  exists e' ts', write_batch (fun _ => 0) example_sum (B := gset Z) (en_files ex_engine) (en_puffins ex_engine) ex_writer ex_mutations
      = (e', Done 0 (Ok 21)) /\
    all_versions (eview (en_files ex_engine) (en_puffins ex_engine) e') ts' ex_content
      = rev (mutation_versions example_schema 21 ex_mutations) ++ all_versions ex_engine ex_tables ex_content.
Proof.
  set (w := write_batch (fun _ => 0) example_sum (B := gset Z) (en_files ex_engine) (en_puffins ex_engine) ex_writer ex_mutations).
  assert (E : w.2 = Done 0 (Ok 21)) by (vm_compute; reflexivity).
  pose proof (batch_atomic (fun _ => 0) example_sum (B := gset Z) (en_files ex_engine) (en_puffins ex_engine) ex_writer ex_tables ex_content
    ex_mutations ex_writer_ok) as HB. fold w in HB. destruct w as [e' r]. cbn [snd] in E. subst r. cbn beta iota in HB.
  destruct HB as (ts' & _ & _ & Hall).
  - apply Forall_cons. split; [apply ex_pk_wf; unfold in_i; lia|]. apply Forall_cons. split; [apply ex_pk_wf; unfold in_i; lia|constructor].
  - discriminate.
  - vm_compute. discriminate.
  - exists e', ts'. split; [done|]. exact Hall.
Defined.

Lemma write_delay_bounded_witness :
  l0_delay default_config 20 = 0 /\ l0_delay default_config 28 = 500 /\ 0 <= l0_delay default_config 28 <= 1000 /\
  l0_delay default_config 28 <= l0_delay default_config 35 /\
  immutable_delay 3 4 = 2 /\ 0 <= immutable_delay 3 4 <= 5.
Proof.
  destruct (write_delay_bounded default_config 28 35) as (H1 & _ & H2 & H3); [cbn; lia..|].
  split; [reflexivity|]. split; [reflexivity|]. split; [done|]. split; [done|]. split; [reflexivity|]. by apply H3.
Defined.
