(* ===== verification/Gc.v ===== *)
(** * Pinned snapshots and deferred deletion

    The garbage collection of [src/crates/merutable/src/engine/engine.rs]: a
    reader pins the snapshot it reads, a compaction queues the files it made
    obsolete, and a sweep removes those that no pinned reader can reach and
    whose grace period has passed.  Clocks are arguments, in seconds. *)

From S2P Require Import Prelude Disk Sequence Schema Key WalManager Memtable LsmVersion Catalog Picker Cache ReadPath Engine.
Local Open Scope Z_scope.

Section gc.
Context {S M C : Type}.
Implicit Types e : Engine S M C.

Definition with_pins (pins : gmap Z Z) (pending : list PendingDelete) e : Engine S M C :=
  {| eg_config := eg_config e; eg_schema := eg_schema e; eg_global := eg_global e; eg_visible := eg_visible e;
     eg_wal := eg_wal e; eg_memtable := eg_memtable e; eg_version := eg_version e; eg_catalog := eg_catalog e;
     eg_cache := eg_cache e; eg_compacting := eg_compacting e; eg_pending := pending; eg_live := pins;
     eg_read_only := eg_read_only e; eg_closed := eg_closed e |}.

(** [pin_current_snapshot]: the guard's snapshot, and the version it pins. *)
Definition pin_current_snapshot e : Engine S M C * (Z * Version) :=
  let v := vs_current (eg_version e) in
  let id := snapshot_id v in
  (with_pins (<[id := default 0 (eg_live e !! id) + 1]> (eg_live e)) (eg_pending e) e, (id, v)).

(** [Drop for SnapshotPin]. *)
Definition unpin (id : Z) e : Engine S M C :=
  match eg_live e !! id with
  | Some n =>
      let n := sat_sub n 1 in
      with_pins (if n =? 0 then base.delete id (eg_live e) else <[id := n]> (eg_live e)) (eg_pending e) e
  | None => e
  end.

(** The smallest key of the map. *)
Definition min_pinned_snapshot e : option Z :=
  match map fst (map_to_list (eg_live e)) with
  | [] => None
  | k :: ks => Some (foldr Z.min k ks)
  end.

Definition enqueue_for_deletion (now : Z) (paths : list string) (after_snapshot : Z) e : Engine S M C :=
  with_pins (eg_live e)
    (eg_pending e ++ map (fun p => {| pd_path := p; obsoleted_at := now; obsoleted_after_snapshot := after_snapshot |}) paths) e.

Definition still_pinned (min_pinned : option Z) (p : PendingDelete) : bool :=
  match min_pinned with Some m => m <=? obsoleted_after_snapshot p | None => false end.

(** The entries that stay in the queue; a file whose removal fails leaves it. *)
Fixpoint gc_sweep (min_pinned : option Z) (grace now : Z) (pending : list PendingDelete) : io (list PendingDelete) :=
  match pending with
  | [] => mret []
  | p :: pending =>
      if still_pinned min_pinned p then
        rest ← gc_sweep min_pinned grace now pending; mret (p :: rest)
      else if grace <=? now - obsoleted_at p then
        _ ← io_remove (split_path (pd_path p)); gc_sweep min_pinned grace now pending
      else
        rest ← gc_sweep min_pinned grace now pending; mret (p :: rest)
  end.

Definition gc_pending_deletions (now : Z) e : io (Engine S M C) :=
  remaining ← gc_sweep (min_pinned_snapshot e) (gc_grace_period_secs (eg_config e)) now (eg_pending e);
  mret (with_pins (eg_live e) remaining e).
End gc.

(** ** Readers, commits and sweeps *)

(** The files a version names: data files and their deletion vectors. *)
Definition version_paths (v : Version) : list path_t :=
  concat (map (fun f => split_path (path f) :: match dv_path f with Some p => [split_path p] | None => [] end)
    (all_files v)).

Lemma read_remove_other p q d : q <> p -> read_file (remove_path p d) q = read_file d q.
Proof.
  intros Hq. unfold read_file. destruct (remove_inodes p d) as [-> _].
  assert (lookup_path (remove_path p d) q = lookup_path d q) as ->; [|done].
  unfold remove_path. destruct (lookup_path d p); [|done]. rewrite lookup_path_change. cbn [effect].
  destruct p as [p1 p2], q as [q1 q2]; cbn. repeat case_bool_decide; naive_solver.
Qed.

Section protocol.
Context {S M C : Type}.
Implicit Types (e : Engine S M C) (held : list (Z * Version)) (hist : list Version).

(** The disk, the engine, the pins that readers hold, every version that was
    current, and every file queued so far with the snapshot it was queued
    under. *)
Record gc_state : Type := {
  gs_disk : Disk;
  gs_engine : Engine S M C;
  gs_held : list (Z * Version);
  gs_hist : list Version;
  gs_queued : list (path_t * Z);
}.

Definition current_of (s : gc_state) : Version := vs_current (eg_version (gs_engine s)).
Definition pending_paths (s : gc_state) : list path_t := map (fun p => split_path (pd_path p)) (eg_pending (gs_engine s)).

(** Readers pin and unpin; a commit writes its files and installs a version
    made of files of the current one and of new files; a job that read its
    inputs from some earlier version [base], and whose commit dropped them,
    queues them with the snapshot id of [base]; a sweep runs, any of its
    removals failing. *)
Inductive gc_step : gc_state -> gc_state -> Prop :=
  | gc_pin s e' id v :
      pin_current_snapshot (gs_engine s) = (e', (id, v)) ->
      gc_step s {| gs_disk := gs_disk s; gs_engine := e'; gs_held := (id, v) :: gs_held s; gs_hist := gs_hist s;
                   gs_queued := gs_queued s |}
  | gc_unpin s id v h1 h2 :
      gs_held s = h1 ++ (id, v) :: h2 ->
      gc_step s {| gs_disk := gs_disk s; gs_engine := unpin id (gs_engine s); gs_held := h1 ++ h2; gs_hist := gs_hist s;
                   gs_queued := gs_queued s |}
  | gc_commit s d' e' v' :
      (forall q, is_Some (read_file (gs_disk s) q) -> is_Some (read_file d' q)) ->
      (forall q, q ∈ version_paths v' ->
         q ∈ version_paths (current_of s) \/ is_Some (read_file d' q) /\ q ∉ pending_paths s) ->
      vs_current (eg_version e') = v' -> eg_live e' = eg_live (gs_engine s) -> eg_pending e' = eg_pending (gs_engine s) ->
      gc_step s {| gs_disk := d'; gs_engine := e'; gs_held := gs_held s; gs_hist := v' :: gs_hist s;
                   gs_queued := gs_queued s |}
  | gc_enqueue s now paths base :
      base ∈ gs_hist s -> (forall p, p ∈ paths -> split_path p ∈ version_paths base) ->
      (forall p, p ∈ paths -> split_path p ∉ version_paths (current_of s)) ->
      gc_step s {| gs_disk := gs_disk s; gs_engine := enqueue_for_deletion now paths (snapshot_id base) (gs_engine s);
                   gs_held := gs_held s; gs_hist := gs_hist s;
                   gs_queued := map (fun p => (split_path p, snapshot_id base)) paths ++ gs_queued s |}
  | gc_sweep_step s now sched w' e' :
      gc_pending_deletions now (gs_engine s) sched {| w_disk := gs_disk s; w_tick := 0 |} = (w', Val e') ->
      gc_step s {| gs_disk := w_disk w'; gs_engine := e'; gs_held := gs_held s; gs_hist := gs_hist s;
                   gs_queued := gs_queued s |}.

(** The pins counted. *)
Definition pin_count held (id : Z) : nat := length (List.filter (fun h => Z.eqb h.1 id) held).

(** No job queued the file under a snapshot before [id]. *)
Definition not_behind (s : gc_state) (id : Z) (q : path_t) : Prop :=
  forall after, (q, after) ∈ gs_queued s -> id <= after.

Record GcInv (s : gc_state) : Prop := {
  gi_current : current_of s ∈ gs_hist s;
  gi_held id v : (id, v) ∈ gs_held s -> v ∈ gs_hist s /\ id = snapshot_id v;
  gi_live id : eg_live (gs_engine s) !! id =
    match pin_count (gs_held s) id with O => None | n => Some (Z.of_nat n) end;
  gi_pending p : p ∈ eg_pending (gs_engine s) -> (split_path (pd_path p), obsoleted_after_snapshot p) ∈ gs_queued s;
  gi_queued q : q ∈ version_paths (current_of s) -> q ∉ pending_paths s;
  gi_files q : (q ∈ version_paths (current_of s) \/
      exists id v, (id, v) ∈ gs_held s /\ q ∈ version_paths v /\ not_behind s id q) ->
    is_Some (read_file (gs_disk s) q);
}.

Lemma min_pinned_le e id n : eg_live e !! id = Some n -> exists m, min_pinned_snapshot e = Some m /\ m <= id.
Proof.
  intros H%elem_of_map_to_list. unfold min_pinned_snapshot.
  assert (Hin : id ∈ map fst (map_to_list (eg_live e))) by (apply list_elem_of_fmap; by exists (id, n)).
  destruct (map fst (map_to_list (eg_live e))) as [|k ks]; [by apply elem_of_nil in Hin|].
  eexists. split; [reflexivity|]. apply elem_of_cons in Hin as [->|Hin].
  - clear. induction ks as [|x ks IH]; cbn; lia.
  - revert Hin. clear. induction ks as [|x ks IH]; intros Hin; [by apply elem_of_nil in Hin|]. cbn.
    apply elem_of_cons in Hin as [->|Hin]; [lia|]. specialize (IH Hin). lia.
Qed.

(** A sweep removes only queued files that are not pinned. *)
Lemma gc_sweep_spec (K : path_t -> Prop) mp grace now pending :
  (forall p, p ∈ pending -> still_pinned mp p = false -> ~ K (split_path (pd_path p))) ->
  triple (fun d => forall q, K q -> is_Some (read_file d q)) (gc_sweep mp grace now pending)
    (fun rest d => (forall q, K q -> is_Some (read_file d q)) /\ forall p, p ∈ rest -> p ∈ pending) (fun _ => True).
Proof.
  induction pending as [|p pending IH]; intros HK; cbn [gc_sweep].
  { apply triple_ret. done. }
  assert (HK' : forall p', p' ∈ pending -> still_pinned mp p' = false -> ~ K (split_path (pd_path p'))).
  { intros p' Hp'. apply HK. by right. }
  assert (Hkeep : triple (fun d => forall q, K q -> is_Some (read_file d q))
    (rest ← gc_sweep mp grace now pending; mret (p :: rest))
    (fun rest d => (forall q, K q -> is_Some (read_file d q)) /\ forall p', p' ∈ rest -> p' ∈ p :: pending) (fun _ => True)).
  { eapply triple_bind; [by apply IH|]. intros rest. apply triple_ret. intros d [Hd Hr]. split; [done|].
    intros p' [->|Hp']%elem_of_cons; [left|right; by apply Hr]. }
  destruct (still_pinned mp p) eqn:Ep; [done|]. destruct (_ <=? _); [|done].
  eapply triple_bind with (R := fun _ d => forall q, K q -> is_Some (read_file d q)).
  - apply triple_syscall; [done| |done]. intros d Hd. destruct (lookup_path d _); cbn; [|done].
    intros q Hq. rewrite read_remove_other; [by apply Hd|]. intros ->. by apply (HK p ltac:(left) Ep).
  - intros _. eapply triple_conseq; [by apply IH|done| |done]. intros rest d [Hd Hr]. split; [done|]. intros p' Hp'. right. by apply Hr.
Qed.

Lemma pin_count_app h1 h2 id : pin_count (h1 ++ h2) id = (pin_count h1 id + pin_count h2 id)%nat.
Proof. unfold pin_count. by rewrite List.filter_app, length_app. Qed.

Lemma pin_count_cons id v held id' :
  pin_count ((id, v) :: held) id' = ((if decide (id = id') then 1 else 0) + pin_count held id')%nat.
Proof. unfold pin_count. cbn. destruct (Z.eqb_spec id id'); destruct (decide (id = id')); done. Qed.

(** Releasing a pin takes one off its count. *)
Lemma unpin_live e held h1 h2 id v :
  held = h1 ++ (id, v) :: h2 ->
  (forall id', eg_live e !! id' = match pin_count held id' with O => None | n => Some (Z.of_nat n) end) ->
  forall id', eg_live (unpin id e) !! id' = match pin_count (h1 ++ h2) id' with O => None | n => Some (Z.of_nat n) end.
Proof.
  intros -> HL id'. unfold unpin. pose proof (HL id) as Hid. pose proof (HL id') as Hid'.
  rewrite pin_count_app, pin_count_cons in Hid, Hid'. rewrite decide_True in Hid by done. rewrite pin_count_app.
  replace (pin_count h1 id + (1 + pin_count h2 id))%nat with (Datatypes.S (pin_count h1 id + pin_count h2 id)) in Hid by lia.
  rewrite Hid. cbn [with_pins eg_live]. unfold sat_sub.
  destruct (decide (id = id')) as [<-|Hne].
  - destruct (pin_count h1 id + pin_count h2 id)%nat as [|n] eqn:En.
    + destruct (Z.eqb_spec (Z.max (Z.of_nat 1 - 1) 0) 0); [|lia]. by rewrite lookup_delete_eq.
    + destruct (Z.eqb_spec (Z.max (Z.of_nat (Datatypes.S (Datatypes.S n)) - 1) 0) 0); [lia|].
      rewrite lookup_insert_eq. f_equal. lia.
  - rewrite Nat.add_0_l in Hid'. destruct (_ =? 0); [rewrite lookup_delete_ne by done|rewrite lookup_insert_ne by done]; exact Hid'.
Qed.

Lemma unpin_frame id e : unpin id e = with_pins (eg_live (unpin id e)) (eg_pending e) e.
Proof. unfold unpin. destruct (_ !! id); [done|]. by destruct e. Qed.

(** The files of the current version, and those of a pinned one that no job
    queued behind it. *)
Definition needed (s : gc_state) (q : path_t) : Prop :=
  q ∈ version_paths (current_of s) \/
  exists id v, (id, v) ∈ gs_held s /\ q ∈ version_paths v /\ not_behind s id q.

Lemma pinned_needed s p :
  GcInv s -> p ∈ eg_pending (gs_engine s) -> still_pinned (min_pinned_snapshot (gs_engine s)) p = false ->
  ~ needed s (split_path (pd_path p)).
Proof.
  intros [I1 I2 I3 I4 I5 I6] Hp Hn [Hq|(id & v & Hh & Hq & Hb)].
  - apply (I5 _ Hq). apply list_elem_of_fmap. by exists p.
  - destruct (I2 id v Hh) as [Hhist ->]. specialize (Hb _ (I4 p Hp)).
    assert (Hpos : (0 < pin_count (gs_held s) (snapshot_id v))%nat).
    { apply list_elem_of_split in Hh as (h1 & h2 & ->). rewrite pin_count_app, pin_count_cons, decide_True by done. lia. }
    specialize (I3 (snapshot_id v)). destruct (pin_count _ _) as [|n]; [lia|].
    destruct (min_pinned_le _ _ _ I3) as (m & Hm & Hle). unfold still_pinned in Hn. rewrite Hm in Hn.
    destruct (Z.leb_spec m (obsoleted_after_snapshot p)); [done|lia].
Qed.

Lemma gc_keeps_needed s now :
  GcInv s ->
  triple (fun d => forall q, needed s q -> is_Some (read_file d q)) (gc_pending_deletions now (gs_engine s))
    (fun e' d => (forall q, needed s q -> is_Some (read_file d q)) /\
       exists rest, e' = with_pins (eg_live (gs_engine s)) rest (gs_engine s) /\ forall p, p ∈ rest -> p ∈ eg_pending (gs_engine s))
    (fun _ => True).
Proof.
  intros HI. unfold gc_pending_deletions. eapply triple_bind; [apply (gc_sweep_spec (needed s))|].
  - intros p Hp Hn. by apply pinned_needed.
  - intros rest. apply triple_ret. intros d [Hd Hr]. eauto.
Qed.

Local Ltac gc_fields := unfold current_of, pending_paths; cbn [gs_disk gs_engine gs_held gs_hist gs_queued with_pins eg_live eg_pending eg_version enqueue_for_deletion].

Lemma gc_step_inv s s' : GcInv s -> gc_step s s' -> GcInv s'.
Proof.
  intros HI Hs. pose proof HI as [I1 I2 I3 I4 I5 I6].
  destruct Hs as [s e' id v E|s id v h1 h2 E|s d' e' v' Hd Hv Ev El Ep|s now paths base Hb Ha Hc|s now sched w' e' E].
  - injection E as <- <- <-. unfold current_of, pending_paths, not_behind in *. split; gc_fields; try done.
    + intros id v [[= -> ->]|Hh]%elem_of_cons; [done|by apply I2].
    + intros id. rewrite pin_count_cons. destruct (decide _) as [<-|Hne].
      * rewrite lookup_insert_eq, I3. cbn. f_equal. destruct (pin_count _ _); cbn; lia.
      * rewrite lookup_insert_ne by done. apply I3.
    + intros q [Hq|(id & v & [[= -> ->]|Hh]%elem_of_cons & Hq & Hn)]; apply I6; [by left|by left|]. right. eauto.
  - assert (Hsub : forall x, x ∈ h1 ++ h2 -> x ∈ gs_held s) by (intros x; rewrite E; set_solver).
    rewrite unpin_frame. unfold current_of, pending_paths, not_behind in *. split; gc_fields; try done.
    + intros id' v' Hh. by apply I2, Hsub.
    + by apply (unpin_live _ (gs_held s) h1 h2 id v).
    + intros q [Hq|(id' & v' & Hh & Hq & Hn)]; apply I6; [by left|]. right. eauto 6.
  - unfold current_of, pending_paths, not_behind in *. split; gc_fields; rewrite ?Ev, ?El, ?Ep; try done.
    + left.
    + intros id v Hh. destruct (I2 id v Hh). split; [by right|done].
    + intros q Hq. destruct (Hv q Hq) as [Hc|[_ ?]]; [by apply I5|done].
    + intros q [Hq|(id & v & Hh & Hq & Hn)]; [|apply Hd, I6; right; eauto 6].
      destruct (Hv q Hq) as [Hc|[? _]]; [by apply Hd, I6; left|done].
  - unfold current_of, pending_paths, not_behind in *. split; gc_fields; try done.
    + intros p [Hp|Hp]%elem_of_app; apply elem_of_app; [right; by apply I4|left].
      apply list_elem_of_fmap in Hp as (p' & -> & Hp'). apply list_elem_of_fmap. by exists p'.
    + intros q Hq. rewrite map_app, not_elem_of_app. split; [by apply I5|]. rewrite map_map. cbn.
      intros (p & -> & Hp)%list_elem_of_fmap. by apply (Hc p).
    + intros q [Hq|(id & v & Hh & Hq & Hn)]; apply I6; [by left|]. right. exists id, v. split_and!; [done..|].
      intros after Haf. apply Hn, elem_of_app. by right.
  - pose proof (gc_keeps_needed s now HI sched {| w_disk := gs_disk s; w_tick := 0 |} I6) as HT. rewrite E in HT.
    destruct HT as [Hd (rest & -> & Hr)]. unfold current_of, pending_paths, needed, not_behind in *. split; gc_fields; try done.
    + intros p Hp. by apply I4, Hr.
    + intros q Hq (p & -> & Hp)%list_elem_of_fmap. apply (I5 _ Hq). apply list_elem_of_fmap. exists p. split; [done|by apply Hr].
Qed.
End protocol.

(** ** The end of a compaction job

    [src/crates/merutable/src/engine/compaction/job.rs]: the new version is
    installed, the row cache cleared, and the consumed files are queued with
    the snapshot id of the version the job had read them from. *)
Section finish.
Context {S M C : Type} `{!LruCache C}.
Implicit Types e : Engine S M C.

Definition install_version (v : Version) (cat : IcebergCatalog) e : Engine S M C :=
  {| eg_config := eg_config e; eg_schema := eg_schema e; eg_global := eg_global e; eg_visible := eg_visible e;
     eg_wal := eg_wal e; eg_memtable := eg_memtable e; eg_version := vs_install v (eg_version e); eg_catalog := cat;
     eg_cache := eg_cache e; eg_compacting := eg_compacting e; eg_pending := eg_pending e; eg_live := eg_live e;
     eg_read_only := eg_read_only e; eg_closed := eg_closed e |}.

Definition obsolete_paths (fs : list DataFileMeta) : list string :=
  concat (map (fun f => path f :: match dv_path f with Some p => [p] | None => [] end) fs).

Definition finish_compaction (now : Z) (version new_version : Version) (cat : IcebergCatalog)
    (consumed : list DataFileMeta) e : io (Engine S M C) :=
  let e := install_version new_version cat e in
  let e := set_row_cache (cache_clear <$> eg_cache e) e in
  let e := match obsolete_paths consumed with
           | [] => e
           | paths => enqueue_for_deletion now paths (snapshot_id version) e
           end in
  gc_pending_deletions now e.
End finish.

(** ** Properties *)


(** A disk with one data file, and versions 1 and 2 that name it, version 3
    that does not. *)
Definition ex_gc_file : DataFileMeta :=
  {| path := "data/L0/a.parquet"; meta := {| level := 0; seq_min := 1; seq_max := 1; key_min := []; key_max := [];
       num_rows := 1; file_size := 1; fm_dv_path := None; fm_dv_offset := None; fm_dv_length := None; format := None; column_stats := None |};
     dv_path := None; dv_offset := None; dv_length := None |}.
Definition ex_gc_path : path_t := split_path "data/L0/a.parquet".
Definition ex_version (id : Z) (fs : list DataFileMeta) : Version :=
  {| snapshot_id := id; levels := {[ 0 := fs ]}; schema := example_schema |}.
Definition ex_gc_disk : Disk := write_file ex_gc_path [b0] {| inodes := ∅; dirs := ∅; next_ino := 0 |}.
Definition ex_at (v : Version) : Engine bytes (list (bytes * EntryValue)) ListLru := install_version v (eg_catalog ex_writer) ex_writer.

Definition ex_gc0 : gc_state :=
  {| gs_disk := ex_gc_disk; gs_engine := ex_at (ex_version 1 [ex_gc_file]); gs_held := [];
     gs_hist := [ex_version 1 [ex_gc_file]]; gs_queued := [] |}.

(** A reader pins snapshot 1, a compaction commits snapshot 2 without the
    file and queues it, and a sweep runs after the grace period. *)
Definition ex_gc1 : gc_state :=
  {| gs_disk := ex_gc_disk; gs_engine := (pin_current_snapshot (gs_engine ex_gc0)).1;
     gs_held := [(1, ex_version 1 [ex_gc_file])]; gs_hist := gs_hist ex_gc0; gs_queued := [] |}.
Definition ex_gc2 : gc_state :=
  {| gs_disk := ex_gc_disk; gs_engine := install_version (ex_version 2 []) (eg_catalog ex_writer) (gs_engine ex_gc1);
     gs_held := gs_held ex_gc1; gs_hist := ex_version 2 [] :: gs_hist ex_gc1; gs_queued := [] |}.
Definition ex_gc3 : gc_state :=
  {| gs_disk := ex_gc_disk; gs_engine := enqueue_for_deletion 10 ["data/L0/a.parquet"%string] 1 (gs_engine ex_gc2);
     gs_held := gs_held ex_gc1; gs_hist := gs_hist ex_gc2; gs_queued := [(ex_gc_path, 1)] |}.


(** A pinned file can be collected all the same.  When another commit
    lands between the version a compaction reads and its own, a reader may pin
    that commit's snapshot; the job queues its inputs with the older snapshot
    id, so the sweep after the grace period removes a file that the pinned
    version names. *)
Theorem pinned_file_collected :
  let e2 := (pin_current_snapshot (ex_at (ex_version 2 [ex_gc_file]))).1 in
  min_pinned_snapshot e2 = Some 2 /\ ex_gc_path ∈ version_paths (vs_current (eg_version e2)) /\
  match run (finish_compaction 10 (ex_version 1 [ex_gc_file]) (ex_version 3 []) (eg_catalog ex_writer) [ex_gc_file] e2) ex_gc_disk with
  | (d3, Val e3) =>
      min_pinned_snapshot e3 = Some 2 /\ read_file d3 ex_gc_path = Some [b0] /\
      match run (gc_pending_deletions (10 + gc_grace_period_secs default_config) e3) d3 with
      | (d4, Val e4) => min_pinned_snapshot e4 = Some 2 /\ read_file d4 ex_gc_path = None
      | _ => False
      end
  | _ => False
  end.
Proof. split; [reflexivity|]. split; [left|]. vm_compute. repeat split. Qed.
