(* ===== verification/Flush.v ===== *)
(** * Flushing a memtable

    [src/crates/merutable/src/engine/flush.rs]: the oldest sealed memtable
    becomes an L0 data file, a snapshot is committed that adds it and masks
    the rows it supersedes, and the memtable and its log are dropped; with
    [flush] and [close] of [src/crates/merutable/src/engine/engine.rs].

    A program over the disk of [Disk].  The bytes of a data file and what the
    parquet crate sees in them are related by the class [FileBytes].  The reads
    of one deletion-vector resolution are one step, which may fail; fresh
    UUIDs, the clock and the iteration order of a [HashMap] are arguments. *)

From Stdlib Require Import Ascii.
From S2P Require Import Prelude Decimal Disk Sequence Schema Key RowCodec WalBatch WalLog WalManager Mvcc Memtable LsmVersion DeletionVector Manifest ManifestPb Catalog Picker Bloom KvIndex Arrow Codec FileReader FileWriter Cache ReadPath DvResolve Engine Gc.
Local Open Scope Z_scope.

(** A data file as bytes. *)
Class FileBytes (F : Type) := {
  file_bytes : F -> bytes;
  file_of : bytes -> F;
}.
Class FileBytesLaws (F : Type) `{!FileBytes F} := {
  file_of_bytes f : file_of (file_bytes f) = f;
  file_bytes_nonempty f : file_bytes f <> [];
}.

(** Reading without changing anything. *)
Definition io_reads {A} (f : Disk -> res A) : io (res A) := syscall (fun d => (d, f d)) (fun _ d => (d, Err Io)).

(** ** Rows of a memtable *)
Fixpoint set_fields (fs : list (option FieldValue)) (cols : list nat) (vals : list FieldValue)
    : res (list (option FieldValue)) :=
  match cols, vals with
  | i :: cols, v :: vals =>
      if (i <? length fs)%nat then set_fields (<[i := Some v]> fs) cols vals else Panic
  | _, _ => Ok fs
  end.

Section rows.
Context `{!RowSerde}.

(** The row of an entry: the stored one, or the key columns alone. *)
Definition entry_row (s : TableSchema) (ik : InternalKey) (e : MemEntry) : res Row :=
  match e_value (me_entry e) with
  | [] => fs ← set_fields (repeat None (length (columns s))) (primary_key s) (pk_vals ik); Ok (Build_Row fs)
  | v => decode_row v
  end.

Definition flush_row (s : TableSchema) (e : MemEntry) : res (InternalKey * Row) :=
  let wire := mem_ikey (me_user_key e) (me_seq e) (e_op (me_entry e)) in
  ik ← Key.decode wire s;
  row ← entry_row s ik e;
  Ok (ik, row).

Fixpoint flush_rows (s : TableSchema) (es : list MemEntry) : res (list (InternalKey * Row)) :=
  match es with
  | [] => Ok []
  | e :: es => x ← flush_row s e; xs ← flush_rows s es; Ok (x :: xs)
  end.
End rows.

(** The metadata the flush records for the file: the column statistics are the
    writer's. *)
Definition flush_meta (es : list MemEntry) (fmt : FileFormat) (size : Z) (stats : option (list ColumnStats)) : ParquetFileMeta :=
  let smin := fold_left (fun a e => if me_seq e <? a then me_seq e else a) es u64_max in
  {| level := 0; seq_min := if smin =? u64_max then 0 else smin;
     seq_max := fold_left (fun a e => if a <? me_seq e then me_seq e else a) es 0;
     key_min := match head es with Some e => me_user_key e | None => [] end;
     key_max := match last es with Some e => me_user_key e | None => [] end;
     num_rows := Z.of_nat (length es); file_size := size; fm_dv_path := None; fm_dv_offset := None;
     fm_dv_length := None; format := Some fmt; column_stats := stats |}.

(** The user keys of the entries, each once. *)
Fixpoint dedup_keys (prev : option bytes) (es : list MemEntry) : list bytes :=
  match es with
  | [] => []
  | e :: es =>
      if bool_decide (prev = Some (me_user_key e)) then dedup_keys prev es
      else me_user_key e :: dedup_keys (Some (me_user_key e)) es
  end.

(** [data_file_path] of level 0. *)
Definition data_file (file_id : string) : path_t := ("data/L0"%string, String.append file_id ".parquet").

Section flush.
Context (xxh3_64 crc32 : bytes -> Z) {S F M C B J : Type}.
Context `{!Arrow, !ParquetFile F, !FileBytes F, !FooterCodec, !SchemaJson, !Roaring B, !FooterJson J}.
Context `{!Prost, !ManifestJson, !WalSink S, !FileSystem S, !SkipMap M, !LruCache C, !RowSerde}.
Context (dv_iter : gmap string (DeletionVector B) -> list (string * DeletionVector B)).
Implicit Types e : Engine S M C.

(** What readers of the disk find. *)
Definition disk_files (d : Disk) (p : string) : option F := file_of <$> read_file d (split_path p).
Definition disk_puffins (d : Disk) (p : string) : option bytes := read_file d (split_path p).
Definition dview (d : Disk) e : MeruEngine F M C := eview (disk_files d) (disk_puffins d) e.

(** ** The data file *)
Definition flush_file e (es : list MemEntry) (file_id : string) : io (res IcebergDataFile) :=
  rows <-? mret (flush_rows (eg_schema e) es);
  let fmt := file_format_for (eg_config e) 0 in
  out <-? mret (write_sorted_rows xxh3_64 (F := F) rows (eg_schema e) 0 fmt (bloom_bits_per_key (eg_config e)));
  let parquet_bytes := match out.1.1 with Some f => file_bytes f | None => [] end in
  let p := data_file file_id in
  io_create_dir_all p.1 ;?
  io_create_dir_all p.1 ;?
  (match parquet_bytes with
   | [] => mret (Ok tt)
   | _ => io_write p parquet_bytes ;? io_sync p ;? _ ← io_sync_dir p.1; mret (Ok tt)
   end) ;?
  let size := Z.of_nat (length parquet_bytes) in
  mret (Ok {| df_path := join_path p; df_file_size := size; df_num_rows := Z.of_nat (length rows);
              df_meta := flush_meta es fmt size (column_stats out.2) |}).

(** ** The transaction *)
Definition flush_txn e (first last : SeqNum) (f : IcebergDataFile) : SnapshotTransaction B :=
  set_prop "merutable.flush_dv_emission" (if enable_flush_dv_emission (eg_config e) then "true" else "false")
    (set_prop "merutable.last_seq" (show_string last)
      (set_prop "merutable.first_seq" (show_string first)
        (set_prop "merutable.job" "flush" (add_file f txn_new)))).

Definition dv_of (bm : B) : DeletionVector B := fold_left (fun dv pos => mark_deleted pos dv) (rb_iter bm) dv_new.

Definition add_dvs (deltas : gmap string B) (t : SnapshotTransaction B) : SnapshotTransaction B :=
  fold_left (fun t x => add_dv x.1 (dv_of x.2) t) (map_to_list deltas) t.

Definition flush_keys e (es : list MemEntry) : list bytes :=
  if enable_flush_dv_emission (eg_config e) then dedup_keys None es else [].

Definition resolve_step e (keys : list bytes) (t : SnapshotTransaction B) : io (res (SnapshotTransaction B)) :=
  match keys with
  | [] => mret (Ok t)
  | _ =>
      deltas <-? io_reads (fun d => resolve_dv_for_flush crc32 (B := B) (dview d e) (vs_current (eg_version e)) keys);
      mret (Ok (add_dvs deltas t))
  end.

(** After the commit: install, collect logs, drop the memtable. *)
Definition finish_flush (v : Version) (cat : IcebergCatalog) (first last : SeqNum) e : Engine S M C :=
  let e := install_version v cat e in
  let e := set_wal (mark_flushed_seq last (eg_wal e)) e in
  set_memtable (drop_flushed first (eg_memtable e)) e.

Definition flush_entries e (first last : SeqNum) (es : list MemEntry) (file_id uuid : string) (now_ms : Z)
    : io (Engine S M C * res unit) :=
  t ← (f <-? flush_file e es file_id; resolve_step e (flush_keys e es) (flush_txn e first last f));
  match t with
  | Ok t =>
      r ← commit crc32 (J := J) (dv_iter (dvs t)) (eg_catalog e) t (eg_schema e) uuid now_ms;
      match r with
      | (cat, Ok v) => mret (finish_flush v cat first last e, Ok tt)
      | (_, Err x) => mret (e, Err x)
      | (_, Panic) => mret (e, Panic)
      end
  | Err x => mret (e, Err x)
  | Panic => mret (e, Panic)
  end.

Definition run_flush e (file_id uuid : string) (now_ms : Z) : io (Engine S M C * res unit) :=
  match oldest_immutable (eg_memtable e) with
  | None => mret (e, Ok tt)
  | Some imm =>
      match mem_iter SEQNUM_MAX imm with
      | Ok [] => mret (set_memtable (drop_flushed (first_seq imm) (eg_memtable e)) e, Ok tt)
      | Ok es => flush_entries e (first_seq imm) (m_last_seq imm) es file_id uuid now_ms
      | Err x => mret (e, Err x)
      | Panic => mret (e, Panic)
      end
  end.

(** ** Flushing everything

    [fresh] gives the UUIDs and the time of each flush; every flush drops at
    least the oldest sealed memtable, so their number bounds the loop. *)
Fixpoint flush_loop (fuel : nat) (fresh : nat -> string * string * Z) e : io (Engine S M C * res unit) :=
  match oldest_immutable (eg_memtable e), fuel with
  | None, _ => mret (e, Ok tt)
  | Some _, O => mret (e, Panic)
  | Some _, Datatypes.S fuel =>
      let '(file_id, uuid, now_ms) := fresh fuel in
      r ← run_flush e file_id uuid now_ms;
      match r with
      | (e, Ok _) => flush_loop fuel fresh e
      | r => mret r
      end
  end.

Definition flush_all (fresh : nat -> string * string * Z) e : io (Engine S M C * res unit) :=
  flush_loop (length (immutable (eg_memtable e))) fresh e.

Definition eng_flush (fresh : nat -> string * string * Z) e : io (Engine S M C * res unit) :=
  if eg_read_only e then mret (e, Err ReadOnly)
  else if eg_closed e then mret (e, Err Closed)
  else match rotate_logs e with
       | (e, Ok _) => flush_all fresh e
       | r => mret r
       end.

Definition set_closed e : Engine S M C :=
  {| eg_config := eg_config e; eg_schema := eg_schema e; eg_global := eg_global e; eg_visible := eg_visible e;
     eg_wal := eg_wal e; eg_memtable := eg_memtable e; eg_version := eg_version e; eg_catalog := eg_catalog e;
     eg_cache := eg_cache e; eg_compacting := eg_compacting e; eg_pending := eg_pending e; eg_live := eg_live e;
     eg_read_only := eg_read_only e; eg_closed := true |}.

Definition eng_close (fresh : nat -> string * string * Z) (now : Z) e : io (Engine S M C * res unit) :=
  if eg_read_only e then mret (set_closed e, Ok tt)
  else if eg_closed e then mret (e, Ok tt)
  else
    let e := set_closed e in
    let '(e, rotated) := if 0 <? m_size_bytes (active (eg_memtable e)) then rotate_logs e else (e, Ok tt) in
    match rotated with
    | Ok _ =>
        r ← flush_all fresh e;
        match r with
        | (e, Ok _) =>
            match wal_sync (eg_wal e) with
            | (w, Ok _) => e ← gc_pending_deletions now (set_wal w e); mret (e, Ok tt)
            | (w, r) => mret (set_wal w e, r)
            end
        | r => mret r
        end
    | r => mret (e, r)
    end.
End flush.

(** ** A fresh engine, as [open] makes it on an empty directory *)
Definition ex_fresh : Engine bytes (list (bytes * EntryValue)) ListLru :=
  {| eg_config := default_config; eg_schema := example_schema; eg_global := GlobalSeq.new 1;
     eg_visible := GlobalSeq.new 0; eg_wal := ex_m0; eg_memtable := mm_new 1 (memtable_size_bytes default_config) 4;
     eg_version := vs_new (empty_version example_schema);
     eg_catalog := {| cat_current := manifest_empty_with_uuid example_schema "t" 0; cat_next_version := 1 |};
     eg_cache := en_cache ex_engine; eg_compacting := ∅; eg_pending := []; eg_live := ∅;
     eg_read_only := false; eg_closed := false |}.

Definition no_files : string -> option ListFile := fun _ => None.
Definition no_puffins : string -> option bytes := fun _ => None.

Definition ex_write (z : Z) (e : Engine bytes (list (bytes * EntryValue)) ListLru) :=
  eng_put (fun _ => 0) example_crc (B := gset Z) no_files no_puffins e (example_pk z [b0]) (ex_r z).
Definition ex_look (z : Z) (e : Engine bytes (list (bytes * EntryValue)) ListLru) : res (option Row) :=
  (lookup_row (fun _ => 0) example_crc (B := gset Z) no_files no_puffins e (example_pk z [b0])).2.

(** The sequence numbers of what a recovery of the log finds. *)
Definition recovered (e : Engine bytes (list (bytes * EntryValue)) ListLru) : res (list SeqNum) :=
  (fun r => map sequence r.1.1) <$> recover_from_dir example_crc ex_dir (dir (eg_wal e)).

(** Three writes, each followed by the rotation a flush starts with. *)
Definition ex_w1 := (rotate_logs (ex_write 1 ex_fresh).1).1.
Definition ex_w2 := (rotate_logs (ex_write 2 ex_w1).1).1.
Definition ex_w3 := (rotate_logs (ex_write 3 ex_w2).1).1.

(** The end of the flush of the oldest sealed memtable. *)
Definition ex_flushed (v : LsmVersion.Version) (e : Engine bytes (list (bytes * EntryValue)) ListLru) :=
  match oldest_immutable (eg_memtable e) with
  | Some imm => finish_flush v (eg_catalog e) (first_seq imm) (m_last_seq imm) e
  | None => e
  end.

(** A flush can delete the log of a memtable that is not flushed.  A
    rotation gives the new memtable the sequence number after the next one, and
    a memtable's last sequence number starts at its first; one that then
    receives a single write claims a last sequence number one too high, and
    its flush removes the next log too.  Here three writes are acknowledged,
    each in a log and memtable of its own; after the first two memtables are
    flushed, the third write is only in memory, and recovery of the log
    directory finds nothing. *)
Theorem flush_discards_unflushed_log (v1 v2 : LsmVersion.Version) :
  (ex_write 3 ex_w2).2 = Done 0 (Ok 3) /\
  recovered ex_w3 = Ok [1; 2; 3] /\
  let e := ex_flushed v2 (ex_flushed v1 ex_w3) in
  map (fun m => mem_iter SEQNUM_MAX m ≫= (fun es => Ok (map me_seq es))) (immutable (eg_memtable e)) = [Ok [3]] /\
  recovered e = Ok [].
Proof. split; [vm_compute; reflexivity|]. split; [vm_compute; reflexivity|]. split; vm_compute; reflexivity. Qed.

Section drop.
Context (dv_iter : gmap string (DeletionVector (gset Z)) -> list (string * DeletionVector (gset Z))).
Context `{FB : !FileBytes ListFile}.

(** A flush of an empty memtable, before which another writer has written,
    asked for a flush, and rotated. *)
Definition ex_d1 := ex_flushed (empty_version example_schema) (rotate_logs ex_fresh).1.
Definition ex_d2 := (rotate_logs (ex_write 7 (rotate_logs ex_d1).1).1).1.

(** Flushing an empty memtable can drop an unflushed one.  Two rotations
    without a write in between give both memtables the same first sequence
    number, by which a flushed memtable is dropped from the queue: the flush of
    the empty one also drops the other, and a row that was acknowledged and
    readable is gone. *)
Theorem empty_flush_drops_row :
  ex_look 7 ex_d2 = Ok (Some (ex_r 7)) /\
  match run (run_flush (fun _ => 0) example_crc (B := gset Z) (J := unit) dv_iter ex_d2 "a" "t" 0)
          {| inodes := ∅; dirs := ∅; next_ino := 0 |} with
  | (_, Val (e, r)) => r = Ok tt /\ immutable (eg_memtable e) = [] /\ ex_look 7 e = Ok None
  | _ => False
  end.
Proof. split; [vm_compute; reflexivity|]. vm_compute. repeat split. Qed.
End drop.
