(* ===== verification/ChangeFeed.v ===== *)
(** * The change feed

    [scan_memtable_changes], [scan_tail_changes] and
    [scan_tail_changes_with_pre_image] of
    [src/crates/merutable/src/engine/engine.rs], and the polling cursor of
    [src/crates/merutable/src/sql/mod.rs].  Between two calls of the cursor the
    engine may change, so each call takes the engine it finds. *)

From S2P Require Import Prelude Sequence Schema Key RowCodec Mvcc WalBatch Memtable LsmVersion DeletionVector Bloom KvIndex Arrow Codec FileReader Cache ReadPath.
Local Open Scope Z_scope.

Record ChangeTuple : Type := {
  ct_seq : Z;
  ct_op : OpType;
  ct_row : Row;
  ct_pk : bytes;
}.

Inductive ChangeOp : Type := Insert | Update | Deleted.

Definition as_sql_str (op : ChangeOp) : string :=
  match op with Insert => "INSERT" | Update => "UPDATE" | Deleted => "DELETE" end.

Record ChangeRecord : Type := {
  cr_seq : Z;
  cr_op : ChangeOp;
  cr_row : Row;
  cr_pk : bytes;
}.

Inductive CursorInner : Type :=
  | CursorEngine (since_seq : Z) (buffer : list ChangeRecord)
  | CursorBelowRetention (requested low_water : Z).

Record ChangeFeedCursor : Type := {
  cur_inner : CursorInner;
  cur_skip : bool;
}.

Definition from_engine (since : Z) : ChangeFeedCursor :=
  {| cur_inner := CursorEngine since []; cur_skip := false |}.
Definition new_below_retention (requested low_water : Z) : ChangeFeedCursor :=
  {| cur_inner := CursorBelowRetention requested low_water; cur_skip := false |}.
Definition skip_update_discrimination (skip : bool) (c : ChangeFeedCursor) : ChangeFeedCursor :=
  {| cur_inner := cur_inner c; cur_skip := skip |}.
Definition since_seq (c : ChangeFeedCursor) : Z :=
  match cur_inner c with
  | CursorEngine since _ => since
  | CursorBelowRetention requested _ => requested
  end.
Definition buffered_len (c : ChangeFeedCursor) : nat :=
  match cur_inner c with
  | CursorEngine _ buffer => length buffer
  | CursorBelowRetention _ _ => 0
  end.

Definition tuple_leb (a b : ChangeTuple) : bool := ct_seq a <=? ct_seq b.

Section feed.
Context (xxh3_64 crc32 : bytes -> Z) {F M C B : Type}.
Context `{!Arrow, !ParquetFile F, !FooterCodec, !SchemaJson, !Roaring B}.
Context `{!SkipMap M, !LruCache C, !RowSerde}.
Implicit Types en : MeruEngine F M C.

(** ** The engine's scans *)
Definition entry_change_row (e : EntryValue) : res Row :=
  match e_op e with
  | Put => decode_row (e_value e)
  | Delete => match e_value e with [] => Ok Row_default | v => decode_row v end
  end.

Fixpoint mem_changes (since : Z) (es : list MemEntry) : res (list ChangeTuple) :=
  match es with
  | [] => Ok []
  | e :: es =>
      if me_seq e <=? since then mem_changes since es
      else
        row ← entry_change_row (me_entry e);
        rest ← mem_changes since es;
        Ok ({| ct_seq := me_seq e; ct_op := e_op (me_entry e); ct_row := row; ct_pk := me_user_key e |} :: rest)
  end.

Definition scan_memtable_changes en (since : Z) (r : SeqNum) : res (list ChangeTuple) :=
  entries ← snapshot_all_versions r (en_memtable en);
  out ← mem_changes since entries;
  Ok (sort_by tuple_leb out).

Definition file_change_row (op : OpType) (row : Row) : Row :=
  match op with
  | Put => row
  | Delete => match fields row with [] => Row_default | _ => row end
  end.

Fixpoint row_changes (s : TableSchema) (since : Z) (r : SeqNum) (rows : list (InternalKey * Row * Z))
    : res (list ChangeTuple) :=
  match rows with
  | [] => Ok []
  | (ikey, row, _) :: rows =>
      if (seq ikey <=? since) || (r <? seq ikey) then row_changes s since r rows
      else
        pk_bytes ← encode_user_key (pk_vals ikey) s;
        rest ← row_changes s since r rows;
        Ok ({| ct_seq := seq ikey; ct_op := op_type ikey; ct_row := file_change_row (op_type ikey) row;
               ct_pk := pk_bytes |} :: rest)
  end.

Fixpoint l0_changes en (since : Z) (r : SeqNum) (fs : list DataFileMeta) : res (list ChangeTuple) :=
  match fs with
  | [] => Ok []
  | f :: fs =>
      if (seq_max (meta f) <=? since) || (r <? seq_min (meta f)) then l0_changes en since r fs
      else
        '(rd, dv) ← open_file crc32 (B := B) en f;
        rows ← read_physical_rows_with_positions rd dv;
        out ← row_changes (en_schema en) since r rows;
        rest ← l0_changes en since r fs;
        Ok (out ++ rest)
  end.

(** A scan over the version [v] it pinned before. *)
Definition scan_tail_pinned (v : Version) en (since : Z) (r : SeqNum) : res (list ChangeTuple) :=
  out ← scan_memtable_changes en since r;
  rest ← l0_changes en since r (files_at v 0);
  Ok (sort_by tuple_leb (out ++ rest)).

Definition scan_tail_changes en (since : Z) (r : SeqNum) : res (list ChangeTuple) :=
  scan_tail_pinned (en_version en) en since r.

Definition pre_imaged en (t : ChangeTuple) : res ChangeTuple :=
  if match ct_op t with Delete => false | Put => true end then Ok t
  else if ct_seq t =? 0 then Ok t
  else
    pre_image ← point_lookup_at_seq xxh3_64 crc32 (B := B) en (ct_pk t) (ct_seq t - 1);
    Ok match pre_image with
       | Some row => {| ct_seq := ct_seq t; ct_op := ct_op t; ct_row := row; ct_pk := ct_pk t |}
       | None => t
       end.

Fixpoint map_res {X Y} (f : X -> res Y) (xs : list X) : res (list Y) :=
  match xs with
  | [] => Ok []
  | x :: xs => y ← f x; ys ← map_res f xs; Ok (y :: ys)
  end.

Definition scan_tail_changes_with_pre_image en (since : Z) (r : SeqNum) : res (list ChangeTuple) :=
  tuples ← scan_tail_changes en since r;
  map_res (pre_imaged en) tuples.

(** ** The cursor *)
Definition change_op en (skip : bool) (t : ChangeTuple) : res ChangeOp :=
  match ct_op t with
  | Put =>
      if skip then Ok Insert
      else if ct_seq t =? 0 then Ok Insert
      else
        o ← point_lookup_at_seq xxh3_64 crc32 (B := B) en (ct_pk t) (ct_seq t - 1);
        Ok (match o with Some _ => Update | None => Insert end)
  | Delete => Ok Deleted
  end.

(** Filling the buffer; what was pushed before an error stays. *)
Fixpoint fill_buffer en (skip : bool) (raw : list ChangeTuple) : list ChangeRecord * res unit :=
  match raw with
  | [] => ([], Ok tt)
  | t :: raw =>
      match change_op en skip t with
      | Ok op =>
          let '(buffer, r) := fill_buffer en skip raw in
          ({| cr_seq := ct_seq t; cr_op := op; cr_row := ct_row t; cr_pk := ct_pk t |} :: buffer, r)
      | Err e => ([], Err e)
      | Panic => ([], Panic)
      end
  end.

(** Serving up to [max_rows] records from the head of the buffer. *)
Definition serve (max_rows : nat) (since : Z) (buffer : list ChangeRecord) (c : ChangeFeedCursor)
    : ChangeFeedCursor * list ChangeRecord :=
  let drain_n := Nat.min (length buffer) max_rows in
  let out := take drain_n buffer in
  let since' := match last out with Some r => cr_seq r | None => since end in
  ({| cur_inner := CursorEngine since' (drop drain_n buffer); cur_skip := cur_skip c |}, out).

Definition next_batch en (max_rows : nat) (c : ChangeFeedCursor) : ChangeFeedCursor * res (list ChangeRecord) :=
  match cur_inner c with
  | CursorBelowRetention requested low_water => (c, Err (ChangeFeedBelowRetention requested low_water))
  | CursorEngine since [] =>
      let r := read_seq en in
      if r <=? since then (c, Ok [])
      else
        match scan_tail_changes_with_pre_image en since r with
        | Ok raw =>
            match fill_buffer en (cur_skip c) raw with
            | (buffer, Ok _) => let '(c, out) := serve max_rows since buffer c in (c, Ok out)
            | (buffer, Err e) => ({| cur_inner := CursorEngine since buffer; cur_skip := cur_skip c |}, Err e)
            | (buffer, Panic) => ({| cur_inner := CursorEngine since buffer; cur_skip := cur_skip c |}, Panic)
            end
        | Err e => (c, Err e)
        | Panic => (c, Panic)
        end
  | CursorEngine since buffer => let '(c, out) := serve max_rows since buffer c in (c, Ok out)
  end.

(** Polling until an empty batch; [None] when the fuel runs out. *)
Fixpoint drain (fuel : nat) en (max_rows : nat) (c : ChangeFeedCursor) : option (res (list ChangeRecord)) :=
  match fuel with
  | O => None
  | Datatypes.S fuel =>
      match next_batch en max_rows c with
      | (_, Ok []) => Some (Ok [])
      | (c, Ok batch) => (fun r => rest ← r; Ok (batch ++ rest)) <$> drain fuel en max_rows c
      | (_, Err e) => Some (Err e)
      | (_, Panic) => Some Panic
      end
  end.
End feed.

(** ** What the scans return *)
#[global] Instance filter_perm {A} (p : A -> bool) : Proper (Permutation ==> Permutation) (List.filter p).
Proof.
  intros l l'. induction 1 as [|x l l' _ IH|x y l|l1 l2 l3 _ IH1 _ IH2]; [done| | |by rewrite IH1]; cbn [List.filter].
  - destruct (p x); by rewrite IH.
  - destruct (p x), (p y); by repeat constructor.
Qed.

Lemma filter_filter {A} (p q : A -> bool) l : List.filter p (List.filter q l) = List.filter (fun x => p x && q x) l.
Proof.
  induction l as [|x l IH]; [done|]. cbn [List.filter].
  destruct (q x); cbn [List.filter]; rewrite IH; by destruct (p x).
Qed.

Lemma filter_vmap {V W} (g : VersionOf V -> W) (p : forall X, VersionOf X -> bool) (vs : list (VersionOf V)) :
  (forall v, p W (vmap g v) = p V v) -> List.filter (p W) (map (vmap g) vs) = map (vmap g) (List.filter (p V) vs).
Proof.
  intros Hp. induction vs as [|v vs IH]; [done|]. cbn [map List.filter]. rewrite Hp.
  destruct (p V v); cbn [map]; by rewrite IH.
Qed.

(** The version a change tuple reports; rows of tombstones do not matter. *)
Definition change_version (t : ChangeTuple) : VersionOf Row :=
  {| v_key := ct_pk t; v_seq := ct_seq t; v_op := ct_op t; v_val := live_val (ct_op t) (ct_row t) |}.

Definition in_window (since : Z) (r : SeqNum) {V} (v : VersionOf V) : bool := (since <? v_seq v) && (v_seq v <=? r).

Section spec.
Context (xxh3_64 crc32 : bytes -> Z) {F M C B : Type}.
Context `{AR : !Arrow, PF : !ParquetFile F}.
Context `{FC : !FooterCodec, SJ : !SchemaJson, RB : !Roaring B}.
Context `{SM : !SkipMap M, SML : !SkipMapLaws M, LC : !LruCache C, LCL : !LruCacheLaws C, RS : !RowSerde}.
Implicit Types (en : MeruEngine F M C) (f : DataFileMeta).
Local Abbreviation content_t := (DataFileMeta -> list (VersionOf (InternalKey * Row))).
Local Abbreviation key_of en := (encoded_key (en_schema en)).
Local Abbreviation EngineOk := (EngineOk xxh3_64 crc32 (B := B)).

(** What the feed can report: the memtables and the files of level 0. *)
Definition tail_versions en ts (content : content_t) : list (VersionOf Row) :=
  map (vmap mem_row) (a_all ts) ++ map (vmap file_row) (concat (map content (files_at (en_version en) 0))).

(** Pre-images in memtables decode; the metadata of an L0 file bounds its
    sequence numbers, its rows have [u32] positions, and its keys decode to
    values that encode back. *)
Record FeedOk en ts (content : content_t) : Prop := {
  fd_tombstones x : x ∈ a_all ts -> v_op x = Delete -> v_val x = [] \/ is_ok (decode_row (v_val x));
  fd_files f : f ∈ files_at (en_version en) 0 -> forall x, x ∈ content f ->
    seq_min (meta f) <= v_seq x <= seq_max (meta f) /\
    encode_user_key (pk_vals (v_val x).1) (en_schema en) = Ok (v_key x);
  fd_rows f rd (dv : option B) : f ∈ files_at (en_version en) 0 -> open_file crc32 en f = Ok (rd, dv) ->
    (Z.of_nat (length (rows_of rd)) <= 2 ^ 32);
}.

Lemma all_versions_loop_spec en ws r :
  Forall (storable (key_of en)) ws ->
  all_versions_loop (map Memtable.enc ws) r = Ok (map mem_entry_of (List.filter (fun v => v_seq v <=? r) ws)).
Proof.
  induction 1 as [|v ws [[_ Hv] _] _ IH]; [done|]. cbn [map Memtable.enc all_versions_loop List.filter].
  rewrite decode_seq_ikey, Ok_bind by done. rewrite Z.ltb_antisym.
  destruct (v_seq v <=? r); cbn [negb]; [|done]. by rewrite user_key_of_ikey, Ok_bind, IH.
Qed.

Lemma snapshot_all_spec en ms ts r :
  Forall2 (table_holds (key_of en)) ms ts ->
  exists outs, collect (iter_all_versions r) ms = Ok (map (map mem_entry_of) outs) /\
    concat outs ≡ₚ List.filter (fun v => v_seq v <=? r) (a_all ts).
Proof.
  induction 1 as [|m t ms ts [_ (ws & E & P & _ & HF & _)] _ (outs & Eo & Po)]; [by exists []|].
  exists (List.filter (fun v => v_seq v <=? r) ws :: outs). cbn [collect].
  assert (iter_all_versions r m = Ok (map mem_entry_of (List.filter (fun v => v_seq v <=? r) ws))) as ->.
  { unfold iter_all_versions, sl_iter. rewrite E. by apply (all_versions_loop_spec en). }
  rewrite Ok_bind, Eo, Ok_bind. split; [done|].
  unfold a_all in *. cbn [concat map]. by rewrite List.filter_app, Po, P.
Qed.

Lemma entry_change_row_spec en ts (content : content_t) x :
  EngineOk en ts content -> FeedOk en ts content -> x ∈ a_all ts ->
  exists row, entry_change_row (entry_of x) = Ok row /\ live_val (v_op x) row = mem_row x.
Proof.
  intros HE HF Hx. unfold entry_change_row, mem_row. cbn [entry_of e_op e_value].
  destruct (eo_rows _ _ _ _ _ HE x Hx) as [Hp _]. destruct (v_op x) eqn:Eo.
  - destruct (fd_tombstones _ _ _ HF x Hx Eo) as [->|[row Hr]]; [by exists Row_default|].
    destruct (v_val x); [by exists Row_default|]. rewrite Hr. by exists row.
  - destruct (Hp eq_refl) as [row Hr]. rewrite Hr. by exists row.
Qed.

Lemma mem_changes_spec en ts (content : content_t) since vs :
  EngineOk en ts content -> FeedOk en ts content -> (forall x, x ∈ vs -> x ∈ a_all ts) ->
  exists out, mem_changes since (map mem_entry_of vs) = Ok out /\
    map change_version out = map (vmap mem_row) (List.filter (fun v => since <? v_seq v) vs).
Proof.
  intros HE HF. induction vs as [|x vs IH]; intros Hin; [by exists []|].
  destruct IH as (out & Eo & Em); [intros y Hy; apply Hin; by right|].
  cbn [map mem_changes List.filter mem_entry_of me_seq me_entry me_user_key]. rewrite Z.ltb_antisym.
  destruct (v_seq x <=? since); cbn [negb]; [eauto|].
  destruct (entry_change_row_spec en ts content x HE HF) as (row & Er & Hr); [apply Hin; left|].
  change {| me_user_key := v_key x; me_seq := v_seq x; me_entry := entry_of x |} with (mem_entry_of x).
  cbn [me_entry mem_entry_of]. rewrite Er, Ok_bind, Eo, Ok_bind. eexists. split; [done|].
  cbn [map]. rewrite Em. f_equal. unfold change_version, vmap. cbn. by rewrite Hr.
Qed.

Lemma scan_memtable_spec en ts (content : content_t) since r :
  EngineOk en ts content -> FeedOk en ts content ->
  exists out, scan_memtable_changes en since r = Ok out /\
    map change_version out ≡ₚ List.filter (in_window since r) (map (vmap mem_row) (a_all ts)).
Proof.
  intros HE HF. destruct (snapshot_all_spec en _ _ r (eo_mem _ _ _ _ _ HE)) as (outs & Ec & Pc).
  unfold scan_memtable_changes, snapshot_all_versions. rewrite Ec, Ok_bind, Ok_bind, <- concat_map.
  destruct (mem_changes_spec en ts content since (concat outs) HE HF) as (out & -> & Em).
  { intros x. rewrite Pc. intros [Hx _]%list_elem_of_In%filter_In. by apply list_elem_of_In. }
  rewrite Ok_bind. eexists. split; [done|]. rewrite sort_by_perm, Em, Pc.
  by rewrite filter_filter, (filter_vmap _ (fun V => in_window since r)).
Qed.
Lemma physical_rows_spec rows pos (dv : option B) :
  0 <= pos -> pos + Z.of_nat (length rows) <= 2 ^ 32 ->
  exists out, physical_rows rows pos dv = Ok out /\ map (fun x => row_version x.1) out = live_versions rows pos dv.
Proof.
  revert pos. induction rows as [|[ik row] rows IH]; intros pos H0 Hlen; [by exists []|].
  cbn [length] in Hlen. cbn [physical_rows live_versions].
  destruct (Z.ltb_spec u32_max pos) as [Hm|_]; [unfold u32_max in Hm; lia|].
  destruct (IH (pos + 1)) as (out & -> & Eo); [lia..|]. rewrite Ok_bind.
  eexists. split; [done|]. unfold row_deleted. destruct dv as [dv|]; [|cbn; by rewrite Eo].
  replace (pos <=? u32_max) with true by (unfold u32_max; lia). cbn [andb].
  destruct (rb_contains pos dv); cbn; by rewrite Eo.
Qed.

Lemma row_changes_spec s since r (rows : list (InternalKey * Row * Z)) :
  (forall x, x ∈ rows -> encode_user_key (pk_vals x.1.1) s = Ok (user_key_bytes x.1.1)) ->
  exists out, row_changes s since r rows = Ok out /\
    map change_version out
    = map (vmap file_row) (List.filter (in_window since r) (map (fun x => row_version x.1) rows)).
Proof.
  induction rows as [|[[ik row] pos] rows IH]; intros Hpk; [by exists []|].
  destruct IH as (out & Eo & Em); [intros x Hx; apply Hpk; by right|].
  cbn [row_changes map List.filter fst]. unfold in_window at 1. cbn [row_version v_seq fst].
  replace ((since <? seq ik) && (seq ik <=? r)) with (negb ((seq ik <=? since) || (r <? seq ik))) by lia.
  destruct ((seq ik <=? since) || (r <? seq ik)); cbn [negb]; [eauto|].
  pose proof (Hpk (ik, row, pos) ltac:(left)) as Ek. cbn [fst] in Ek. rewrite Ek, Ok_bind, Eo, Ok_bind.
  eexists. split; [done|]. cbn [map]. rewrite Em. f_equal. unfold change_version, vmap, file_row, file_change_row.
  cbn. destruct (op_type ik); done.
Qed.

Lemma l0_changes_spec en ts (content : content_t) since r fs :
  EngineOk en ts content -> FeedOk en ts content -> (forall f, f ∈ fs -> f ∈ files_at (en_version en) 0) ->
  exists out, l0_changes crc32 (B := B) en since r fs = Ok out /\
    map change_version out = List.filter (in_window since r) (map (vmap file_row) (concat (map content fs))).
Proof.
  intros HE HF. induction fs as [|f fs IH]; intros Hin; [by exists []|].
  destruct IH as (rest & Er & Em); [intros g Hg; apply Hin; by right|].
  cbn [l0_changes map concat]. rewrite map_app, List.filter_app, <- Em.
  assert (Hf : f ∈ files_at (en_version en) 0) by (apply Hin; left).
  rewrite (filter_vmap _ (fun V => in_window since r)) by done.
  destruct ((seq_max (meta f) <=? since) || (r <? seq_min (meta f))) eqn:Hout.
  { exists rest. split; [done|]. rewrite filter_all_false; [done|]. intros x Hx.
    destruct (fd_files _ _ _ HF f Hf x Hx) as [Hs _]. unfold in_window. lia. }
  destruct (eo_files _ _ _ _ _ HE 0 f Hf) as [(rd & dv & Ho & Hok & Ec) _].
  rewrite Ho, Ok_bind. unfold read_physical_rows_with_positions.
  rewrite (read_all_Ok xxh3_64 (key_of en)), Ok_bind by done.
  destruct (physical_rows_spec (rows_of rd) 0 dv) as (rows & -> & Erows); [lia|by eapply fd_rows|].
  rewrite Ok_bind. destruct (row_changes_spec (en_schema en) since r rows) as (out & -> & Eo).
  { intros x Hx. eapply (fd_files _ _ _ HF f Hf (row_version x.1)). rewrite Ec, <- Erows.
    apply list_elem_of_In, in_map_iff. exists x. by rewrite <- list_elem_of_In. }
  rewrite Ok_bind, Er, Ok_bind. eexists. split; [done|]. by rewrite map_app, Eo, Erows, Ec.
Qed.

Lemma tuple_leb_total a b : tuple_leb a b = false -> tuple_leb b a = true.
Proof. unfold tuple_leb. lia. Qed.
Lemma tuple_leb_trans a b c : tuple_leb a b = true -> tuple_leb b c = true -> tuple_leb a c = true.
Proof. unfold tuple_leb. lia. Qed.

Lemma sorted_seqs out : StronglySorted Z.le (map ct_seq (sort_by tuple_leb out)).
Proof.
  pose proof (sort_by_sorted tuple_leb tuple_leb_total tuple_leb_trans out) as Hs.
  revert Hs. generalize (sort_by tuple_leb out). induction 1 as [|t l _ IH Ht]; cbn; constructor; [done|].
  apply Forall_forall. intros z Hz. apply list_elem_of_In, in_map_iff in Hz as (u & <- & Hu%list_elem_of_In).
  rewrite Forall_forall in Ht. specialize (Ht u Hu). apply Is_true_true in Ht. unfold tuple_leb in Ht. lia.
Qed.

Lemma scan_tail_spec en ts (content : content_t) since r :
  EngineOk en ts content -> FeedOk en ts content ->
  exists out, scan_tail_changes crc32 (B := B) en since r = Ok out /\
    StronglySorted Z.le (map ct_seq out) /\
    map change_version out ≡ₚ List.filter (in_window since r) (tail_versions en ts content).
Proof.
  intros HE HF. destruct (scan_memtable_spec en ts content since r HE HF) as (mem & Em & Pm).
  destruct (l0_changes_spec en ts content since r (files_at (en_version en) 0) HE HF) as (fls & Ef & Pf); [done|].
  unfold scan_tail_changes, scan_tail_pinned. rewrite Em, Ok_bind, Ef, Ok_bind. eexists. split; [done|]. split.
  - apply sorted_seqs.
  - rewrite sort_by_perm, map_app, Pm, Pf. unfold tail_versions. by rewrite List.filter_app.
Qed.
(** ** The records of the cursor *)

(** The row a reader just below version [v] gets for its key. *)
Definition before (all : list (VersionOf Row)) (v : VersionOf Row) : option Row :=
  outcome (newest all (v_key v) (v_seq v - 1)).

Record reports (all : list (VersionOf Row)) (v : VersionOf Row) (c : ChangeRecord) : Prop := {
  rp_seq : cr_seq c = v_seq v;
  rp_pk : cr_pk c = v_key v;
  rp_op : cr_op c = match v_op v with
                    | Delete => Deleted
                    | Put => match before all v with Some _ => Update | None => Insert end
                    end;
  rp_put : v_op v = Put -> cr_row c = v_val v;
  rp_delete row : v_op v = Delete -> before all v = Some row -> cr_row c = row;
}.

Definition scan_records en (since : Z) (r : SeqNum) : res (list ChangeRecord) :=
  raw ← scan_tail_changes_with_pre_image xxh3_64 crc32 (B := B) en since r;
  let '(buffer, out) := fill_buffer xxh3_64 crc32 (B := B) en false raw in
  _ ← out; Ok buffer.

Lemma tail_key en ts (content : content_t) v :
  EngineOk en ts content -> v ∈ tail_versions en ts content -> key_of en (v_key v).
Proof.
  intros HE [Hv|Hv]%elem_of_app; apply list_elem_of_In, in_map_iff in Hv as (x & <- & Hx).
  - apply list_elem_of_In in Hx. by destruct (mem_storable _ _ en ts content x HE Hx) as [[Hk _] _].
  - apply in_concat in Hx as (l & (f & <- & Hf%list_elem_of_In)%in_map_iff & Hx%list_elem_of_In).
    destruct (eo_files _ _ _ _ _ HE 0 f Hf) as [(rd & dv & _ & Hok & Ec) _]. rewrite Ec in Hx.
    apply live_versions_in in Hx as (y & Hy & ->). pose proof (fo_keys _ _ _ Hok) as HK.
    rewrite Forall_forall in HK. by destruct (HK y Hy) as (Hk & _).
Qed.

Definition record_of (op : ChangeOp) (t : ChangeTuple) : ChangeRecord :=
  {| cr_seq := ct_seq t; cr_op := op; cr_row := ct_row t; cr_pk := ct_pk t |}.

Lemma tuple_reports en ts (content : content_t) t :
  EngineOk en ts content -> 0 < ct_seq t -> key_of en (ct_pk t) ->
  exists t' op, pre_imaged xxh3_64 crc32 (B := B) en t = Ok t' /\
    change_op xxh3_64 crc32 (B := B) en false t' = Ok op /\
    reports (all_versions en ts content) (change_version t) (record_of op t').
Proof.
  intros HE Hs Hk. pose proof (lookup_at_seq_spec _ _ en ts content (ct_pk t) (ct_seq t - 1) HE Hk) as Hl.
  unfold pre_imaged. destruct (Z.eqb_spec (ct_seq t) 0) as [|Hn]; [lia|]. destruct (ct_op t) eqn:Eo.
  - rewrite Hl, Ok_bind. eexists _, Deleted. split; [done|].
    destruct (outcome _) as [row|] eqn:Eb; unfold change_op; cbn [ct_op]; rewrite ?Eo; (split; [done|]);
      (split; unfold before; cbn; rewrite ?Eo; try done); intros row' _; cbn in *; congruence.
  - eexists t, _. split; [done|]. unfold change_op. rewrite Eo.
    destruct (Z.eqb_spec (ct_seq t) 0); [lia|]. rewrite Hl, Ok_bind. split; [done|].
    split; unfold before; cbn; rewrite ?Eo; done.
Qed.

Lemma records_of en ts (content : content_t) ts' :
  EngineOk en ts content -> Forall (fun t => 0 < ct_seq t /\ key_of en (ct_pk t)) ts' ->
  exists raw recs, map_res (pre_imaged xxh3_64 crc32 (B := B) en) ts' = Ok raw /\
    fill_buffer xxh3_64 crc32 (B := B) en false raw = (recs, Ok tt) /\
    Forall2 (reports (all_versions en ts content)) (map change_version ts') recs.
Proof.
  intros HE. induction 1 as [|t ts' [Hs Hk] _ (raw & recs & Er & Ef & HR)]; [by exists [], []|].
  destruct (tuple_reports en ts content t HE Hs Hk) as (t' & op & Ep & Ec & HR').
  exists (t' :: raw), (record_of op t' :: recs). cbn [map_res map fill_buffer].
  rewrite Ep, Ok_bind, Er, Ok_bind, Ec, Ef. split; [done|]. split; [done|]. by constructor.
Qed.

Lemma scan_records_spec en ts (content : content_t) since r :
  EngineOk en ts content -> FeedOk en ts content -> 0 <= since ->
  exists recs vs, scan_records en since r = Ok recs /\
    vs ≡ₚ List.filter (in_window since r) (tail_versions en ts content) /\
    StronglySorted Z.le (map v_seq vs) /\ Forall2 (reports (all_versions en ts content)) vs recs.
Proof.
  intros HE HF H0. destruct (scan_tail_spec en ts content since r HE HF) as (out & Eo & Hs & HP).
  destruct (records_of en ts content out) as (raw & recs & Er & Ef & HR); [done| |].
  { apply Forall_forall. intros t Ht. assert (Hv : change_version t ∈ map change_version out).
    { apply list_elem_of_In, in_map. by apply list_elem_of_In. }
    rewrite HP in Hv. apply list_elem_of_In, filter_In in Hv as [Hv Hw]. split.
    - unfold in_window in Hw. cbn in Hw. lia.
    - apply list_elem_of_In in Hv. by apply (tail_key en ts content (change_version t)). }
  exists recs, (map change_version out). unfold scan_records, scan_tail_changes_with_pre_image.
  rewrite Eo, Ok_bind, Er, Ok_bind, Ef, Ok_bind. split; [done|]. split; [done|]. split; [|done].
  by rewrite map_map.
Qed.
(** ** Draining the cursor *)
Local Abbreviation feed_batch := (next_batch xxh3_64 crc32 (B := B)).
Local Abbreviation feed_drain := (drain xxh3_64 crc32 (B := B)).

Definition cursor_at (since : Z) (buffer : list ChangeRecord) : ChangeFeedCursor :=
  {| cur_inner := CursorEngine since buffer; cur_skip := false |}.

(** A call with an empty buffer serves what one scan finds. *)
Lemma next_batch_scan en n since recs :
  since < read_seq en -> scan_records en since (read_seq en) = Ok recs ->
  feed_batch en n (cursor_at since []) =
    let '(c, out) := serve n since recs (cursor_at since []) in (c, Ok out).
Proof.
  intros Hlt. unfold scan_records, ChangeFeed.next_batch, cursor_at. cbn [cur_inner cur_skip].
  destruct (Z.leb_spec (read_seq en) since); [lia|].
  destruct (scan_tail_changes_with_pre_image _ _ _ _ _) as [raw|e|]; [|done..]. rewrite Ok_bind.
  destruct (fill_buffer _ _ _ _ _) as [buffer [u|e|]]; rewrite ?Ok_bind; [|done..]. by intros [= ->].
Qed.

Lemma next_batch_buffer en n since x bs :
  feed_batch en n (cursor_at since (x :: bs)) =
    let '(c, out) := serve n since (x :: bs) (cursor_at since []) in (c, Ok out).
Proof. done. Qed.

Lemma serve_some n since bs c :
  (0 < n)%nat -> bs <> [] ->
  exists out rest l, out <> [] /\ bs = out ++ rest /\ last out = Some l /\
    serve n since bs c = ({| cur_inner := CursorEngine (cr_seq l) rest; cur_skip := cur_skip c |}, out).
Proof.
  intros Hn Hbs. unfold serve. set (k := Nat.min (length bs) n).
  assert (Hk : take k bs <> []). { destruct bs; [done|]. subst k. destruct n; [lia|]. by cbn. }
  destruct (last (take k bs)) as [l|] eqn:El; [|by apply last_None in El].
  exists (take k bs), (drop k bs), l. by rewrite take_drop.
Qed.

Definition last_change (since : Z) (bs : list ChangeRecord) : Z :=
  match last bs with Some l => cr_seq l | None => since end.

Lemma drain_buffer en ts (content : content_t) n bs : forall since fuel,
  EngineOk en ts content -> FeedOk en ts content -> (0 < n)%nat ->
  0 <= last_change since bs ->
  List.filter (in_window (last_change since bs) (read_seq en)) (tail_versions en ts content) = [] ->
  (length bs < fuel)%nat -> feed_drain fuel en n (cursor_at since bs) = Some (Ok bs).
Proof.
  induction bs as [bs IH] using (induction_ltof1 _ length). unfold ltof in IH.
  intros since fuel HE HF Hn H0 Hw Hfuel. destruct fuel as [|fuel]; [lia|]. cbn [ChangeFeed.drain].
  destruct bs as [|x bs].
  - cbn in H0, Hw. destruct (Z.ltb_spec since (read_seq en)) as [Hlt|Hge].
    + destruct (scan_records_spec en ts content since (read_seq en) HE HF H0) as (recs & vs & Er & Hp & _ & HR).
      rewrite Hw in Hp. apply Permutation_nil_r in Hp as ->. apply Forall2_nil_inv_l in HR as ->.
      by rewrite (next_batch_scan en n since []).
    + unfold ChangeFeed.next_batch, cursor_at. cbn [cur_inner]. by destruct (Z.leb_spec (read_seq en) since); [|lia].
  - rewrite next_batch_buffer.
    destruct (serve_some n since (x :: bs) (cursor_at since []) Hn) as (out & rest & l & Ho & Eb & El & Es); [done|].
    rewrite Es. destruct out as [|y out]; [done|]. cbn [cur_skip cursor_at].
    change {| cur_inner := CursorEngine (cr_seq l) rest; cur_skip := false |} with (cursor_at (cr_seq l) rest).
    assert (Hlast : last_change (cr_seq l) rest = last_change since (x :: bs)).
    { unfold last_change. rewrite Eb, last_app. destruct (last rest) eqn:E; [done|]. by rewrite El. }
    assert (Hlen : length (x :: bs) = (length (y :: out) + length rest)%nat) by by rewrite Eb, length_app.
    rewrite IH; [by rewrite Eb|cbn in *; lia|done|done|done|by rewrite Hlast|by rewrite Hlast|cbn in *; lia].
Qed.

Lemma sorted_last (vs : list (VersionOf Row)) v w :
  StronglySorted Z.le (map v_seq vs) -> last vs = Some w -> v ∈ vs -> v_seq v <= v_seq w.
Proof.
  induction vs as [|x vs IH]; intros Hs Hl Hv; [by apply not_elem_of_nil in Hv|].
  apply StronglySorted_inv in Hs as [Hs Hx]. destruct vs as [|y vs].
  - injection Hl as <-. apply list_elem_of_singleton in Hv as ->. lia.
  - apply elem_of_cons in Hv as [->|Hv]; [|by apply IH].
    rewrite Forall_forall in Hx. apply Hx. apply list_elem_of_In.
    apply (in_map v_seq (y :: vs)), list_elem_of_In. by apply last_Some_elem_of.
Qed.

Lemma drain_spec en ts (content : content_t) since :
  EngineOk en ts content -> FeedOk en ts content -> 0 <= since ->
  exists recs vs,
    (forall n, (0 < n)%nat -> feed_drain (Datatypes.S (length recs)) en n (from_engine since) = Some (Ok recs)) /\
    vs ≡ₚ List.filter (in_window since (read_seq en)) (tail_versions en ts content) /\
    StronglySorted Z.le (map v_seq vs) /\ Forall2 (reports (all_versions en ts content)) vs recs.
Proof.
  intros HE HF H0. change (from_engine since) with (cursor_at since []).
  destruct (Z.ltb_spec since (read_seq en)) as [Hlt|Hge].
  - destruct (scan_records_spec en ts content since (read_seq en) HE HF H0) as (recs & vs & Er & Hp & Hs & HR).
    exists recs, vs. split; [|done]. intros n Hn. destruct recs as [|x bs].
    { cbn [ChangeFeed.drain length]. by rewrite (next_batch_scan en n since []). }
    transitivity (feed_drain (Datatypes.S (length (x :: bs))) en n (cursor_at since (x :: bs))).
    { cbn [ChangeFeed.drain length]. rewrite (next_batch_scan en n since (x :: bs)) by done. done. }
    destruct (last (x :: bs)) as [l|] eqn:El; [|by apply last_None in El].
    assert (exists w, last vs = Some w /\ v_seq w = cr_seq l) as (w & Ew & Hw).
    { clear -HR El. apply last_Some in El as (l' & E). rewrite E in HR.
      apply Forall2_app_inv_r in HR as (a & b & _ & Hb & ->). inversion Hb as [|w ? ? ? Hr Hnil]; subst.
      inversion Hnil; subst. exists w. rewrite last_snoc. split; [done|]. by rewrite (rp_seq _ _ _ Hr). }
    assert (Hin : w ∈ List.filter (in_window since (read_seq en)) (tail_versions en ts content)).
    { rewrite <- Hp. by apply last_Some_elem_of. }
    apply list_elem_of_In, filter_In in Hin as [_ Hin]. unfold in_window in Hin.
    eapply drain_buffer; [done..| | |lia]; unfold last_change; rewrite El; [lia|].
    apply filter_all_false. intros v Hv. destruct (in_window since (read_seq en) v) eqn:Ev.
    + assert (v ∈ vs) as Hvs. { rewrite Hp. apply list_elem_of_In, filter_In. by apply list_elem_of_In in Hv. }
      pose proof (sorted_last vs v w Hs Ew Hvs). unfold in_window. lia.
    + unfold in_window in *. lia.
  - exists [], []. split; [|split; [|split; constructor]].
    + intros n Hn. cbn [ChangeFeed.drain length]. unfold ChangeFeed.next_batch, cursor_at. cbn [cur_inner].
      by destruct (Z.leb_spec (read_seq en) since); [|lia].
    + rewrite filter_all_false; [done|]. intros v _. unfold in_window. lia.
Qed.
End spec.

(** ** Properties *)


Lemma ex_feed_ok : FeedOk example_sum (B := gset Z) ex_engine ex_tables ex_content.
Proof.
  assert (Hat : forall f, f ∈ files_at (en_version ex_engine) 0 -> f = ex_l0).
  { intros f. unfold files_at, ex_engine. cbn [en_version levels]. rewrite lookup_singleton_eq.
    by intros ->%list_elem_of_singleton. }
  split.
  - intros x Hx. apply list_elem_of_singleton in Hx as ->. vm_compute. discriminate.
  - intros f ->%Hat x Hx. apply list_elem_of_In in Hx. vm_compute in Hx.
    repeat (destruct Hx as [<-|Hx]; [split; [vm_compute; split; discriminate|vm_compute; reflexivity]|]). done.
  - intros f rd dv ->%Hat Ho. vm_compute in Ho. injection Ho as <- <-. vm_compute. discriminate.
Qed.


(** The file of level 0 after a compaction moved its rows to level 1, with
    empty memtables. *)
Definition ex_compacted : MeruEngine ListFile (list (bytes * EntryValue)) ListLru :=
  {| en_schema := example_schema; en_memtable := mm_new 10 100 4; en_cache := None;
     en_version := {| snapshot_id := 2; levels := {[ 1 := [ex_file "data/L0/f.parquet" 1 5 9
                        (user_key_bytes (ex_k 1 9 Put)) (user_key_bytes (ex_k 2 7 Delete)) 10] ]};
                      schema := example_schema |};
     en_visible := 9; en_files := en_files ex_engine; en_puffins _ := None |}.

(** Changes that were compacted out of level 0 vanish from the feed.  The
    store holds a put at sequence number 9 and reads it back, but a subscriber
    that resumes from 5 is told that there is nothing new: it gets an empty
    batch, not the error that it is below the feed's retention. *)
Theorem compacted_changes_lost n :
  point_lookup_at_seq (fun _ => 0) example_sum (B := gset Z) ex_compacted (user_key_bytes (ex_k 1 9 Put)) 9
    = Ok (Some (ex_r 9)) /\
  read_seq ex_compacted = 9 /\
  next_batch (fun _ => 0) example_sum (B := gset Z) ex_compacted n (from_engine 5) = (from_engine 5, Ok []).
Proof. split; [vm_compute; reflexivity|]. split; [done|]. by destruct n; vm_compute. Qed.

(** ** A scan that a flush overtakes *)
Definition ex_before_ops : list mm_op :=
  map (fun x => OpApply {| sequence := seq x.1; records := [
         {| rec_op := op_type x.1; user_key := user_key_bytes x.1;
            WalBatch.value := match op_type x.1 with Put => Some (ex_value x.2) | Delete => None end |}] |})
    [(ex_k 1 5 Put, ex_r 5); (ex_k 2 7 Delete, ex_r 0); (ex_k 1 9 Put, ex_r 9)]
  ++ [OpRotate 11] ++ ex_mem_ops.

Definition ex_before : MeruEngine ListFile (list (bytes * EntryValue)) ListLru :=
  {| en_schema := example_schema; en_memtable := (mm_run ex_before_ops (mm_new 1 100 4)).1; en_cache := None;
     en_version := empty_version example_schema; en_visible := 20; en_files := en_files ex_engine;
     en_puffins _ := None |}.

(** The sealed memtable has become the file of level 0. *)
Definition ex_after : MeruEngine ListFile (list (bytes * EntryValue)) ListLru :=
  {| en_schema := example_schema; en_memtable := drop_flushed 1 (en_memtable ex_before); en_cache := None;
     en_version := en_version ex_engine; en_visible := 20; en_files := en_files ex_engine;
     en_puffins _ := None |}.

Definition seqs_of (r : res (list ChangeTuple)) : res (list Z) := map ct_seq <$> r.

(** A flush can hide changes from a running scan.  The scan pins the version
    before it reads the memtables; if a flush installs its version and drops its
    memtable in between, the scan finds the flushed changes in neither.  Before
    and after the flush the feed has four changes; the overtaken scan returns
    the newest only, from which the cursor then resumes. *)
Theorem flush_hides_changes :
  seqs_of (scan_tail_changes example_sum (B := gset Z) ex_before 0 20) = Ok [5; 7; 9; 20] /\
  seqs_of (scan_tail_changes example_sum (B := gset Z) ex_after 0 20) = Ok [5; 7; 9; 20] /\
  seqs_of (scan_tail_pinned example_sum (B := gset Z) (en_version ex_before) ex_after 0 20) = Ok [20].
Proof. split_and!; vm_compute; reflexivity. Qed.
