(* ===== verification/Replica.v ===== *)
(** * Read-only replicas

    [src/crates/merutable/src/replica/mod.rs]: log sources, the in-memory tail
    of operations newer than the base, and the replica that reads the tail
    first and falls back to a read-only base.  The base database is an
    interface ([BaseDb]), and so are log sources ([LogSource], the trait of the
    source).  The replica's clock is an argument of the operations that use it. *)

From S2P Require Import Prelude Disk Sequence Schema Key RowCodec Mvcc WalBatch Memtable LsmVersion DeletionVector Bloom KvIndex Arrow Codec FileReader Cache ReadPath ChangeFeed.
Local Open Scope Z_scope.

Record OpRecord : Type := {
  or_seq : Z;
  or_op : ChangeOp;
  or_row : Row;
  or_pk : bytes;
}.

(** The stream of a source, as the items it yields. *)
Class LogSource (L : Type) := {
  log_stream : L -> Z -> res (list (res OpRecord));
  latest_seq : L -> res Z;
}.

(** ** The placeholder source *)
Record ChangeFeedLogSource : Type := { primary_low_water : Z }.

#[global] Instance ChangeFeedLogSource_source : LogSource ChangeFeedLogSource := {|
  log_stream l since := Err (ChangeFeedBelowRetention since (primary_low_water l));
  latest_seq _ := Err (InvalidArgument "ChangeFeedLogSource::latest_seq: Phase 2 pending") |}.

(** ** The source over a co-located primary

    [ip_engine i] is the primary as the [i]-th call finds it: the one that
    takes the bound, then each poll of the cursor. *)
Record InProcessLogSource (F M C : Type) : Type := {
  ip_engine : nat -> MeruEngine F M C;
  batch_size : nat;
  ip_fuel : nat;
}.
Arguments ip_engine {F M C}.
Arguments batch_size {F M C}.
Arguments ip_fuel {F M C}.

Section in_process.
Context (xxh3_64 crc32 : bytes -> Z) {F M C B : Type}.
Context `{!Arrow, !ParquetFile F, !FooterCodec, !SchemaJson, !Roaring B}.
Context `{!SkipMap M, !LruCache C, !RowSerde}.
Implicit Types src : InProcessLogSource F M C.

Definition in_process_new (engine : nat -> MeruEngine F M C) (fuel : nat) : InProcessLogSource F M C :=
  {| ip_engine := engine; batch_size := 4096; ip_fuel := fuel |}.
Definition with_batch_size (n : nat) src : InProcessLogSource F M C :=
  {| ip_engine := ip_engine src; batch_size := Nat.max n 1; ip_fuel := ip_fuel src |}.

Definition op_record (r : ChangeRecord) : OpRecord :=
  {| or_seq := cr_seq r; or_op := cr_op r; or_row := cr_row r; or_pk := cr_pk r |}.

(** The records up to [upper], and whether one lies above. *)
Fixpoint take_upto (upper : Z) (batch : list ChangeRecord) : list OpRecord * bool :=
  match batch with
  | [] => ([], false)
  | r :: batch =>
      if upper <? cr_seq r then ([], true)
      else let '(out, reached) := take_upto upper batch in (op_record r :: out, reached)
  end.

(** The polling loop; [None] when the fuel runs out. *)
Fixpoint stream_loop (fuel : nat) src (i : nat) (upper : Z) (c : ChangeFeedCursor)
    : option (res (list OpRecord)) :=
  match fuel with
  | O => None
  | Datatypes.S fuel =>
      match next_batch xxh3_64 crc32 (B := B) (ip_engine src i) (batch_size src) c with
      | (_, Ok []) => Some (Ok [])
      | (c, Ok batch) =>
          let '(out, reached_upper) := take_upto upper batch in
          if reached_upper || (upper <=? since_seq c) then Some (Ok out)
          else (fun r => rest ← r; Ok (out ++ rest)) <$> stream_loop fuel src (Datatypes.S i) upper c
      | (_, Err e) => Some (Err e)
      | (_, Panic) => Some Panic
      end
  end.

Definition in_process_stream src (since : Z) : option (res (list OpRecord)) :=
  let upper := read_seq (ip_engine src 0) in
  if upper <=? since then Some (Ok []) else stream_loop (ip_fuel src) src 1 upper (from_engine since).

#[global] Instance InProcessLogSource_source : LogSource (InProcessLogSource F M C) := {|
  log_stream src since := out ← default Panic (in_process_stream src since); Ok (map Ok out);
  latest_seq src := Ok (read_seq (ip_engine src 0)) |}.
End in_process.

(** ** The tail *)
Record TailEntry : Type := { te_seq : Z; te_op : ChangeOp; te_row : Row }.

Record ReplicaTail : Type := {
  index : gmap bytes TailEntry;
  tail_visible : Z;
  ops_applied : Z;
}.

Definition tail_new : ReplicaTail := {| index := ∅; tail_visible := 0; ops_applied := 0 |}.

Definition seed_visible_seq (seq : Z) (t : ReplicaTail) : ReplicaTail :=
  if tail_visible t <? seq then {| index := index t; tail_visible := seq; ops_applied := ops_applied t |} else t.

Definition tail_get (t : ReplicaTail) (pk_bytes : bytes) : option Row :=
  entry ← index t !! pk_bytes;
  match te_op entry with Insert | Update => Some (te_row entry) | Deleted => None end.

Definition tail_apply (pk_bytes : bytes) (r : OpRecord) (t : ReplicaTail) : ReplicaTail :=
  if match index t !! pk_bytes with Some existing => or_seq r <=? te_seq existing | None => false end then t
  else
    {| index := <[pk_bytes := {| te_seq := or_seq r; te_op := or_op r; te_row := or_row r |}]> (index t);
       tail_visible := if tail_visible t <? or_seq r then or_seq r else tail_visible t;
       ops_applied := wrap 64 (ops_applied t + 1) |}.

(** Applying a stream; what was applied before an error stays. *)
Fixpoint apply_stream (items : list (res OpRecord)) (t : ReplicaTail) : ReplicaTail * res unit :=
  match items with
  | [] => (t, Ok tt)
  | Ok r :: items => apply_stream items (tail_apply (or_pk r) r t)
  | Err e :: _ => (t, Err e)
  | Panic :: _ => (t, Panic)
  end.

Definition tail_advance {L} `{!LogSource L} (source : L) (t : ReplicaTail) : ReplicaTail * res unit :=
  match log_stream source (tail_visible t) with
  | Ok items => apply_stream items t
  | Err e => (t, Err e)
  | Panic => (t, Panic)
  end.

(** ** The replica *)

(** What the replica uses of [MeruDB] and [OpenOptions]. *)
Class BaseDb (D O : Type) := {
  db_open : O -> io (res D);
  db_refresh : D -> io (D * res unit);
  db_get : D -> list FieldValue -> D * res (option Row);
  db_read_seq : D -> Z;
  opt_read_only : O -> O;
  opt_schema : O -> TableSchema;
}.

Record ReplicaState (D : Type) : Type := { base : D; tail : ReplicaTail }.
Arguments base {D}.
Arguments tail {D}.

Record ReplicaStats : Type := {
  rs_visible_seq : Z;
  rs_base_seq : Z;
  rs_tail_length : Z;
  rs_rebase_count : Z;
  rs_last_rebase_warmup_millis : Z;
}.

Record Replica (D O L : Type) : Type := {
  rp_state : ReplicaState D;
  log_source : L;
  rp_schema : TableSchema;
  rebase_count : Z;
  last_rebase_warmup_millis : Z;
  rebase_timeout_millis : Z;
  base_opts : O;
}.
Arguments rp_state {D O L}.
Arguments log_source {D O L}.
Arguments rp_schema {D O L}.
Arguments rebase_count {D O L}.
Arguments last_rebase_warmup_millis {D O L}.
Arguments rebase_timeout_millis {D O L}.
Arguments base_opts {D O L}.

Inductive AdvanceOutcome : Type := Advanced | Recovered (new_base_seq : Z).

Section replica.
Context {D O L : Type} `{!BaseDb D O, !LogSource L}.
Implicit Types rp : Replica D O L.

Definition set_state (s : ReplicaState D) rp : Replica D O L :=
  {| rp_state := s; log_source := log_source rp; rp_schema := rp_schema rp; rebase_count := rebase_count rp;
     last_rebase_warmup_millis := last_rebase_warmup_millis rp; rebase_timeout_millis := rebase_timeout_millis rp;
     base_opts := base_opts rp |}.
Definition set_tail (t : ReplicaTail) rp : Replica D O L := set_state {| base := base (rp_state rp); tail := t |} rp.

(** An empty tail anchored at a base. *)
Definition anchored (base_seq : Z) : ReplicaTail :=
  if 0 <? base_seq then seed_visible_seq base_seq tail_new else tail_new.

Definition replica_open (base_options : O) (source : L) : io (res (Replica D O L)) :=
  let base_options := opt_read_only base_options in
  base <-? db_open base_options;
  mret (Ok {| rp_state := {| base := base; tail := anchored (db_read_seq base) |}; log_source := source;
              rp_schema := opt_schema base_options; rebase_count := 0; last_rebase_warmup_millis := 0;
              rebase_timeout_millis := 60000; base_opts := base_options |}).

(** A [Duration] in nanoseconds; [as u64] on its milliseconds. *)
Definition set_rebase_timeout (timeout : option Z) rp : Replica D O L :=
  {| rp_state := rp_state rp; log_source := log_source rp; rp_schema := rp_schema rp;
     rebase_count := rebase_count rp; last_rebase_warmup_millis := last_rebase_warmup_millis rp;
     rebase_timeout_millis := match timeout with Some d => wrap 64 (d / 1000000) | None => 0 end;
     base_opts := base_opts rp |}.
Definition rebase_timeout rp : option Z :=
  if rebase_timeout_millis rp =? 0 then None else Some (rebase_timeout_millis rp * 1000000).

Definition replica_stats rp : ReplicaStats :=
  {| rs_visible_seq := tail_visible (tail (rp_state rp)); rs_base_seq := db_read_seq (base (rp_state rp));
     rs_tail_length := ops_applied (tail (rp_state rp)); rs_rebase_count := rebase_count rp;
     rs_last_rebase_warmup_millis := last_rebase_warmup_millis rp |}.

Definition replica_advance rp : Replica D O L * res unit :=
  let '(t, r) := tail_advance (log_source rp) (tail (rp_state rp)) in (set_tail t rp, r).

Definition replica_get rp (pk_values : list FieldValue) : Replica D O L * res (option Row) :=
  match encode_user_key pk_values (rp_schema rp) with
  | Ok encoded =>
      let st := rp_state rp in
      match index (tail st) !! encoded with
      | Some _ => (rp, Ok (tail_get (tail st) encoded))
      | None => let '(b, r) := db_get (base st) pk_values in (set_state {| base := b; tail := tail st |} rp, r)
      end
  | Err e => (rp, Err e)
  | Panic => (rp, Panic)
  end.

Definition replica_visible rp : Z := tail_visible (tail (rp_state rp)).
Definition base_seq rp : Z := db_read_seq (base (rp_state rp)).

Definition rebase rp : io (Replica D O L * res unit) :=
  r ← db_refresh (base (rp_state rp));
  let '(b, r) := r in
  let rp := set_state {| base := b; tail := tail (rp_state rp) |} rp in
  match r with
  | Ok _ =>
      let '(t, r) := tail_advance (log_source rp) (anchored (db_read_seq b)) in
      mret (set_tail t rp, r)
  | r => mret (rp, r)
  end.

(** Steps 1 to 3 of a hot swap: a warm state beside the one that serves. *)
Definition warm_up rp : io (res (ReplicaState D * Z * Z)) :=
  new_base <-? db_open (base_opts rp);
  let new_base_seq := db_read_seq new_base in
  let '(t, r) := tail_advance (log_source rp) (anchored new_base_seq) in
  match r with
  | Ok _ | Err (ChangeFeedBelowRetention _ _) =>
      mret (Ok ({| base := new_base; tail := t |}, new_base_seq, tail_visible t))
  | Err e => mret (Err e)
  | Panic => mret Panic
  end.

(** [elapsed] is the time the warm-up took, in milliseconds; one that times out
    is abandoned. *)
Definition rebase_hotswap (elapsed : Z) rp : io (Replica D O L * res (Z * Z)) :=
  r ← warm_up rp;
  if (0 <? rebase_timeout_millis rp) && (rebase_timeout_millis rp <? elapsed) then
    mret (rp, Err (InvalidArgument "rebase_hotswap timed out"))
  else
    match r with
    | Ok (state, new_base_seq, new_visible_seq) =>
        mret ({| rp_state := state; log_source := log_source rp; rp_schema := rp_schema rp;
                 rebase_count := wrap 64 (rebase_count rp + 1); last_rebase_warmup_millis := wrap 64 elapsed;
                 rebase_timeout_millis := rebase_timeout_millis rp; base_opts := base_opts rp |},
              Ok (new_base_seq, new_visible_seq))
    | Err e => mret (rp, Err e)
    | Panic => mret (rp, Panic)
    end.

Definition advance_or_recover (elapsed : Z) rp : io (Replica D O L * res AdvanceOutcome) :=
  match replica_advance rp with
  | (rp, Ok _) => mret (rp, Ok Advanced)
  | (rp, Err (ChangeFeedBelowRetention _ _)) =>
      r ← rebase_hotswap elapsed rp;
      match r with
      | (rp, Ok (new_base_seq, _)) => mret (rp, Ok (Recovered new_base_seq))
      | (rp, Err e) => mret (rp, Err e)
      | (rp, Panic) => mret (rp, Panic)
      end
  | (rp, Err e) => mret (rp, Err e)
  | (rp, Panic) => mret (rp, Panic)
  end.

Definition recover_from_log_gap (elapsed : Z) rp : io (Replica D O L * res Z) :=
  r ← rebase_hotswap elapsed rp;
  match r with
  | (rp, Ok (new_base_seq, _)) => mret (rp, Ok new_base_seq)
  | (rp, Err e) => mret (rp, Err e)
  | (rp, Panic) => mret (rp, Panic)
  end.
End replica.

(** ** The polling loop ends *)
Section ends.
Context (xxh3_64 crc32 : bytes -> Z) {F M C B : Type}.
Context `{AR : !Arrow, PF : !ParquetFile F, FC : !FooterCodec, SJ : !SchemaJson, RB : !Roaring B}.
Context `{SM : !SkipMap M, LC : !LruCache C, RS : !RowSerde}.
Implicit Types (en : MeruEngine F M C) (src : InProcessLogSource F M C).
Local Abbreviation feed_batch := (next_batch xxh3_64 crc32 (B := B)).

Lemma mem_changes_above since es out :
  mem_changes since es = Ok out -> Forall (fun t => since < ct_seq t) out.
Proof.
  revert out. induction es as [|e es IH]; intros out; cbn [mem_changes]; [by intros [= <-]|].
  destruct (Z.leb_spec (me_seq e) since) as [_|Hs]; [apply IH|].
  destruct (entry_change_row _) as [row| |]; [|done..]. rewrite Ok_bind.
  destruct (mem_changes since es) as [rest| |]; [|done..]. rewrite Ok_bind. intros [= <-].
  constructor; [done|by apply IH].
Qed.

Lemma row_changes_above s since r rows out :
  row_changes s since r rows = Ok out -> Forall (fun t => since < ct_seq t) out.
Proof.
  revert out. induction rows as [|[[ik row] p] rows IH]; intros out; cbn [row_changes]; [by intros [= <-]|].
  destruct ((seq ik <=? since) || (r <? seq ik)) eqn:E; [apply IH|].
  destruct (encode_user_key _ _) as [k| |]; [|done..]. rewrite Ok_bind.
  destruct (row_changes s since r rows) as [rest| |]; [|done..]. rewrite Ok_bind. intros [= <-].
  constructor; [cbn; lia|by apply IH].
Qed.

Lemma l0_changes_above en since r fs out :
  l0_changes crc32 (B := B) en since r fs = Ok out -> Forall (fun t => since < ct_seq t) out.
Proof.
  revert out. induction fs as [|f fs IH]; intros out; cbn [l0_changes]; [by intros [= <-]|].
  destruct (_ || _); [apply IH|]. destruct (open_file _ _ _) as [[rd dv]| |]; [|done..]. rewrite Ok_bind.
  destruct (read_physical_rows_with_positions _ _) as [rows| |]; [|done..]. rewrite Ok_bind.
  destruct (row_changes _ _ _ _) as [o| |] eqn:Er; [|done..]. rewrite Ok_bind.
  destruct (l0_changes _ _ _ _ _) as [rest| |]; [|done..]. rewrite Ok_bind. intros [= <-].
  apply Forall_app. split; [by eapply row_changes_above|by apply IH].
Qed.

Lemma scan_tail_above en since r out :
  scan_tail_changes crc32 (B := B) en since r = Ok out ->
  StronglySorted Z.le (map ct_seq out) /\ Forall (fun t => since < ct_seq t) out.
Proof.
  unfold scan_tail_changes, scan_tail_pinned, scan_memtable_changes.
  destruct (snapshot_all_versions _ _) as [es| |]; [|done..]. rewrite Ok_bind.
  destruct (mem_changes since es) as [mem| |] eqn:Em; [|done..]. rewrite Ok_bind, Ok_bind.
  destruct (l0_changes _ _ _ _ _) as [l0| |] eqn:El; [|done..]. rewrite Ok_bind. intros [= <-].
  split; [apply sorted_seqs|]. rewrite sort_by_perm, sort_by_perm. apply Forall_app.
  split; [by eapply mem_changes_above|by eapply l0_changes_above].
Qed.

Lemma pre_images_seqs en ts raw :
  map_res (pre_imaged xxh3_64 crc32 (B := B) en) ts = Ok raw -> map ct_seq raw = map ct_seq ts.
Proof.
  revert raw. induction ts as [|t ts IH]; intros raw; cbn [map_res]; [by intros [= <-]|].
  destruct (pre_imaged _ _ en t) as [t'| |] eqn:Et; [|done..]. rewrite Ok_bind.
  destruct (map_res _ _) as [rest| |]; [|done..]. rewrite Ok_bind. intros [= <-]. cbn [map].
  rewrite (IH rest eq_refl). f_equal. revert Et. unfold pre_imaged. destruct (ct_op t); [|by intros [= <-]].
  destruct (ct_seq t =? 0); [by intros [= <-]|]. destruct (point_lookup_at_seq _ _ _ _ _) as [o| |]; [|done..].
  rewrite Ok_bind. intros [= <-]. by destruct o.
Qed.

Lemma fill_buffer_seqs en skip raw recs u :
  fill_buffer xxh3_64 crc32 (B := B) en skip raw = (recs, Ok u) -> map cr_seq recs = map ct_seq raw.
Proof.
  revert recs. induction raw as [|t raw IH]; intros recs; cbn [fill_buffer]; [by intros [= <-]|].
  destruct (change_op _ _ _ _ _) as [op| |]; [|done..]. destruct (fill_buffer _ _ _ _ _) as [b r].
  intros [= <- ->]. cbn [map]. by rewrite (IH b eq_refl).
Qed.

(** A cursor whose buffer is in order and above its resume point. *)
Definition ordered (since : Z) (bs : list ChangeRecord) : Prop :=
  StronglySorted Z.le (map cr_seq bs) /\ Forall (fun r => since <= cr_seq r) bs.

Lemma served_ordered n since bs c c' out :
  ordered since bs -> (0 < n)%nat -> bs <> [] -> serve n since bs c = (c', out) ->
  out <> [] /\ exists rest since', c' = {| cur_inner := CursorEngine since' rest; cur_skip := cur_skip c |} /\
    ordered since' rest /\ since <= since' /\ (length rest < length bs)%nat /\ exists x, x ∈ bs /\ cr_seq x = since'.
Proof.
  intros [Hs Ha] Hn Hbs. destruct (serve_some n since bs c Hn Hbs) as (o & rest & l & Ho & Eb & El & ->).
  intros [= <- <-]. split; [done|]. exists rest, (cr_seq l). split; [done|].
  pose proof (last_Some_elem_of _ _ El) as Hl. subst bs. rewrite map_app in Hs.
  apply Forall_app in Ha as [Ha _]. rewrite Forall_forall in Ha.
  split_and!; [split| | |].
  - by apply StronglySorted_app_1_r in Hs.
  - apply Forall_forall. intros x Hx. eapply (StronglySorted_app_1_elem_of _ _ _ _ _ Hs);
      apply list_elem_of_In, in_map; by apply list_elem_of_In.
  - by apply Ha.
  - rewrite length_app. destruct o; [done|]. cbn. lia.
  - exists l. split; [|done]. apply elem_of_app. by left.
Qed.

(** What one poll with a nonempty result does to the cursor. *)
Lemma polled en n c since bs c' out :
  cur_inner c = CursorEngine since bs -> ordered since bs -> (0 < n)%nat ->
  feed_batch en n c = (c', Ok out) -> out <> [] ->
  exists since' rest, cur_inner c' = CursorEngine since' rest /\ ordered since' rest /\
    (since < since' \/ since = since' /\ (length rest < length bs)%nat).
Proof.
  intros Ec Ho Hn E Hout. unfold ChangeFeed.next_batch in E. rewrite Ec in E. destruct bs as [|x bs].
  - destruct (read_seq en <=? since); [by injection E as <- <-|].
    unfold scan_tail_changes_with_pre_image in E.
    destruct (scan_tail_changes _ _ _ _) as [ts| |] eqn:Et; [|done..]. rewrite Ok_bind in E.
    destruct (map_res _ _) as [raw| |] eqn:Er; [|done..].
    destruct (fill_buffer _ _ _ _ _) as [recs [[]| |]] eqn:Ef; [|done..].
    destruct (serve n since recs c) as [c1 o] eqn:Es. injection E as <- <-.
    apply scan_tail_above in Et as [Hs Ha].
    assert (Em : map cr_seq recs = map ct_seq ts).
    { rewrite (fill_buffer_seqs _ _ _ _ _ Ef). by eapply pre_images_seqs. }
    assert (Ha' : Forall (fun r => since < cr_seq r) recs).
    { apply Forall_forall. intros r Hr. assert (Hm : cr_seq r ∈ map cr_seq recs).
      { apply list_elem_of_In, in_map. by apply list_elem_of_In. }
      rewrite Em in Hm. apply list_elem_of_In, in_map_iff in Hm as (t & <- & Ht%list_elem_of_In).
      rewrite Forall_forall in Ha. by apply Ha. }
    assert (Hrec : recs <> []). { intros ->. by injection Es as <- <-. }
    destruct (served_ordered n since recs c c1 o) as (_ & rest & s' & -> & Ho' & _ & _ & y & Hy & <-); try done.
    { split; [by rewrite Em|]. eapply Forall_impl; [exact Ha'|]. cbn. lia. }
    exists (cr_seq y), rest. split; [done|]. split; [done|]. left. rewrite Forall_forall in Ha'. by apply Ha'.
  - destruct (serve n since (x :: bs) c) as [c1 o] eqn:Es. injection E as <- <-.
    destruct (served_ordered n since (x :: bs) c c1 o) as (_ & rest & s' & -> & Ho' & Hle & Hlen & _); try done.
    exists s', rest. split; [done|]. split; [done|]. destruct (Z.eq_dec since s'); [right; done|left; lia].
Qed.

Lemma stream_loop_fuel src f fuel i upper c :
  stream_loop xxh3_64 crc32 (B := B) fuel {| ip_engine := ip_engine src; batch_size := batch_size src; ip_fuel := f |} i upper c
  = stream_loop xxh3_64 crc32 (B := B) fuel src i upper c.
Proof.
  revert i c. induction fuel as [|fuel IH]; intros i c; [done|]. cbn [stream_loop ip_engine batch_size].
  destruct (feed_batch _ _ _) as [c' [[|x out]| |]]; try done. destruct (take_upto _ _) as [o r].
  destruct (_ || _); [done|]. by rewrite IH.
Qed.

Lemma stream_loop_ends src upper :
  (0 < batch_size src)%nat -> forall (m : nat) (k : nat) c since bs i,
  cur_inner c = CursorEngine since bs -> ordered since bs -> (Z.to_nat (upper - since) <= m)%nat -> length bs = k ->
  exists fuel, forall fuel', (fuel <= fuel')%nat -> stream_loop xxh3_64 crc32 (B := B) fuel' src i upper c <> None.
Proof.
  intros Hb m. induction m as [m IHm] using lt_wf_ind. intros k. induction k as [k IHk] using lt_wf_ind.
  intros c since bs i Ec Ho Hm Hk.
  destruct (feed_batch (ip_engine src i) (batch_size src) c) as [c' r] eqn:En.
  assert (Hdone : forall P, (forall fuel, stream_loop xxh3_64 crc32 (B := B) (Datatypes.S fuel) src i upper c = Some P) ->
    exists fuel, forall fuel', (fuel <= fuel')%nat -> stream_loop xxh3_64 crc32 (B := B) fuel' src i upper c <> None).
  { intros P HP. exists 1%nat. intros [|fuel] Hf; [lia|]. by rewrite HP. }
  destruct r as [[|x out]|e|]; [eapply Hdone; intros fuel; cbn [stream_loop]; by rewrite En| |
    eapply Hdone; intros fuel; cbn [stream_loop]; by rewrite En..].
  destruct (polled _ _ _ _ _ _ _ Ec Ho Hb En) as (s' & rest & Ec' & Ho' & Hdec); [done|].
  destruct (take_upto upper (x :: out)) as [o reached] eqn:Eu.
  destruct (reached || (upper <=? since_seq c')) eqn:Er.
  { eapply Hdone. intros fuel. cbn [stream_loop]. by rewrite En, Eu, Er. }
  assert (exists fuel, forall fuel', (fuel <= fuel')%nat ->
    stream_loop xxh3_64 crc32 (B := B) fuel' src (Datatypes.S i) upper c' <> None) as (fuel & Hf).
  { apply orb_false_iff in Er as [_ Er]. unfold since_seq in Er. rewrite Ec' in Er. apply Z.leb_gt in Er.
    destruct Hdec as [Hlt|[-> Hlen]].
    - eapply (IHm (Z.to_nat (upper - s'))); [lia|done|done|lia|done].
    - eapply (IHk (length rest)); [lia|done|done|done|done]. }
  exists (Datatypes.S fuel). intros [|fuel'] Hle; [lia|]. cbn [stream_loop]. rewrite En, Eu, Er.
  specialize (Hf fuel' ltac:(lia)). by destruct (stream_loop _ _ fuel' _ _ _ _).
Qed.
End ends.

(** ** A tail that has caught up *)

(** The entry of the tail for version [v]. *)
Definition entry_shows (v : VersionOf Row) (e : TailEntry) : Prop :=
  te_seq e = v_seq v /\
  match v_op v with
  | Put => te_op e <> Deleted /\ te_row e = v_val v
  | Delete => te_op e = Deleted
  end.

(** [H] is everything the primary ever committed; the tail, over a base at [b],
    holds the newest version of each key changed above [b] and up to [r]. *)
Record TailOk (H : list (VersionOf Row)) (b r : Z) (t : ReplicaTail) : Prop := {
  to_visible : b <= tail_visible t <= r;
  to_caught_up v : v ∈ H -> v_seq v <= tail_visible t \/ r < v_seq v;
  to_index k : match index t !! k with
               | Some e => exists v, newest H k r = Some v /\ b < v_seq v <= tail_visible t /\ entry_shows v e
               | None => forall v, v ∈ H -> v_key v = k -> v_seq v <= b \/ r < v_seq v
               end;
}.

Lemma shows_get v t k : (exists e, index t !! k = Some e /\ entry_shows v e) ->
  tail_get t k = match v_op v with Put => Some (v_val v) | Delete => None end.
Proof.
  intros (e & He & _ & Hs). unfold tail_get. rewrite He. cbn. destruct (v_op v).
  - by rewrite Hs.
  - destruct Hs as [Ho Hr]. rewrite Hr. by destruct (te_op e).
Qed.

Lemma reports_shows all v c : reports all v c -> entry_shows v
  {| te_seq := or_seq (op_record c); te_op := or_op (op_record c); te_row := or_row (op_record c) |}.
Proof.
  intros [Hs Hp Ho Hput _]. unfold entry_shows. cbn. rewrite Ho. split; [done|]. destruct (v_op v); [done|].
  split; [by destruct (before _ _)|by apply Hput].
Qed.

(** Applying the records of [vs] in ascending order. *)
Lemma apply_ascending all vs recs t :
  Forall2 (reports all) vs recs -> StronglySorted Z.lt (map v_seq vs) ->
  Forall (fun v => tail_visible t < v_seq v) vs ->
  (forall k e, index t !! k = Some e -> te_seq e <= tail_visible t) ->
  exists t', apply_stream (map Ok (map op_record recs)) t = (t', Ok tt) /\
    tail_visible t' = match last vs with Some v => v_seq v | None => tail_visible t end /\
    forall k, match last (List.filter (fun v => bytes_eqb (v_key v) k) vs) with
              | Some v => exists e, index t' !! k = Some e /\ entry_shows v e
              | None => index t' !! k = index t !! k
              end.
Proof.
  intros HR. revert t. induction HR as [|v c vs recs Hv _ IH]; intros t Hs Ha Hidx; [by exists t|].
  apply StronglySorted_inv in Hs as [Hs Hlt]. apply Forall_cons in Ha as [Hva Ha].
  pose proof (reports_shows _ _ _ Hv) as Hshow. destruct Hv as [Esq Epk _ _ _].
  cbn [map apply_stream]. set (t1 := tail_apply (or_pk (op_record c)) (op_record c) t).
  assert (E1 : t1 = {| index := <[v_key v := {| te_seq := or_seq (op_record c); te_op := or_op (op_record c);
                        te_row := or_row (op_record c) |}]> (index t);
                       tail_visible := v_seq v; ops_applied := wrap 64 (ops_applied t + 1) |}).
  { subst t1. unfold tail_apply. cbn [or_pk or_seq or_op or_row op_record]. rewrite Epk, Esq.
    destruct (index t !! v_key v) as [e|] eqn:Ee; [destruct (Z.leb_spec (v_seq v) (te_seq e));
      [specialize (Hidx _ _ Ee); lia|]|]; (destruct (Z.ltb_spec (tail_visible t) (v_seq v)); [done|lia]). }
  destruct (IH t1) as (t' & Et & Evis & Hk).
  - done.
  - rewrite E1. cbn. apply Forall_forall. intros w Hw. rewrite Forall_forall in Hlt. apply Hlt.
    apply list_elem_of_In, in_map. by apply list_elem_of_In.
  - rewrite E1. cbn. intros k e. destruct (decide (k = v_key v)) as [->|Hne].
    + rewrite lookup_insert_eq. intros [= <-]. cbn. lia.
    + rewrite lookup_insert_ne by done. intros He. specialize (Hidx _ _ He). lia.
  - exists t'. split; [done|]. split.
    + rewrite Evis, E1. destruct vs as [|w vs]; [done|]. cbn [last]. by destruct (last (w :: vs)) eqn:E; [|apply last_None in E].
    + intros k. cbn [List.filter]. specialize (Hk k).
      set (l := List.filter (fun w => bytes_eqb (v_key w) k) vs) in *.
      destruct (bytes_eqb (v_key v) k) eqn:Ekey.
      * apply bytes_eqb_spec in Ekey. destruct l as [|w l'] eqn:El.
        -- cbn in *. rewrite E1 in Hk. cbn in Hk. subst k. rewrite lookup_insert_eq in Hk. eauto.
        -- change (last (v :: w :: l')) with (last (w :: l')).
           destruct (last (w :: l')) eqn:E; [done|by apply last_None in E].
      * destruct (last l); [done|]. rewrite Hk, E1. cbn. rewrite lookup_insert_ne; [done|].
        intros E. by rewrite (proj2 (bytes_eqb_spec _ _) E) in Ekey.
Qed.

Section catch_up.
Context (xxh3_64 crc32 : bytes -> Z) {F M C B : Type}.
Context `{AR : !Arrow, PF : !ParquetFile F, FC : !FooterCodec, SJ : !SchemaJson, RB : !Roaring B}.
Context `{SM : !SkipMap M, SML : !SkipMapLaws M, LC : !LruCache C, LCL : !LruCacheLaws C, RS : !RowSerde}.
Implicit Types (en : MeruEngine F M C) (src : InProcessLogSource F M C) (H : list (VersionOf Row)).
Local Abbreviation content_t := (DataFileMeta -> list (VersionOf (InternalKey * Row))).
Local Abbreviation EngineOk := (EngineOk xxh3_64 crc32 (B := B)).
Local Abbreviation FeedOk := (FeedOk crc32 (B := B)).
Local Abbreviation source_loop := (stream_loop xxh3_64 crc32 (B := B)).

Lemma take_upto_all upper rs :
  Forall (fun r => cr_seq r <= upper) rs -> take_upto upper rs = (map op_record rs, false).
Proof.
  induction 1 as [|r rs Hr _ IH]; [done|]. cbn [take_upto map].
  destruct (Z.ltb_spec upper (cr_seq r)); [lia|]. by rewrite IH.
Qed.

Lemma stream_buffer src en ts (content : content_t) bs : forall since i fuel,
  (forall i, ip_engine src i = en) -> (0 < batch_size src)%nat ->
  EngineOk en ts content -> FeedOk en ts content -> 0 <= last_change since bs ->
  StronglySorted Z.lt (map cr_seq bs) -> Forall (fun r => cr_seq r <= read_seq en) bs ->
  List.filter (in_window (last_change since bs) (read_seq en)) (tail_versions en ts content) = [] ->
  (length bs < fuel)%nat ->
  source_loop fuel src i (read_seq en) (cursor_at since bs) = Some (Ok (map op_record bs)).
Proof.
  induction bs as [bs IH] using (induction_ltof1 _ length). unfold ltof in IH.
  intros since i fuel Hen Hn HE HF H0 Hs Hup Hw Hfuel. destruct fuel as [|fuel]; [lia|]. cbn [Replica.stream_loop].
  rewrite Hen. destruct bs as [|x bs].
  - pose proof (drain_buffer xxh3_64 crc32 en ts content (batch_size src) [] since 1 HE HF Hn H0 Hw
      (Nat.lt_0_1)) as Hd.
    cbn [drain] in Hd. revert Hd. destruct (next_batch _ _ en _ _) as [c' [[|y out]|e|]]; try done; by intros [= ->].
  - rewrite next_batch_buffer.
    destruct (serve_some (batch_size src) since (x :: bs) (cursor_at since []) Hn)
      as (out & rest & l & Ho & Eb & El & Es); [done|].
    rewrite Es. destruct out as [|y out]; [done|].
    change {| cur_inner := CursorEngine (cr_seq l) rest; cur_skip := _ |} with (cursor_at (cr_seq l) rest).
    rewrite Eb in Hs, Hup |- *. apply Forall_app in Hup as [Hup Hup']. rewrite map_app in Hs.
    rewrite (take_upto_all _ (y :: out)) by done. cbn [orb since_seq cursor_at cur_inner].
    assert (Hlast : last_change (cr_seq l) rest = last_change since (x :: bs)).
    { unfold last_change. rewrite Eb, last_app. destruct (last rest) eqn:E; [done|]. by rewrite El. }
    assert (Hlen : length (x :: bs) = (length (y :: out) + length rest)%nat) by by rewrite Eb, length_app.
    destruct (Z.leb_spec (read_seq en) (cr_seq l)) as [Hge|Hlt].
    + assert (rest = []) as ->; [|by rewrite app_nil_r]. destruct rest as [|z rest]; [done|].
      apply Forall_cons in Hup' as [Hz _].
      assert (cr_seq l < cr_seq z); [|lia]. eapply (StronglySorted_app_1_elem_of _ _ _ _ _ Hs); [|left].
      apply list_elem_of_In, (in_map cr_seq), list_elem_of_In. by apply last_Some_elem_of.
    + rewrite IH; try done; [by rewrite map_app|cbn in *; lia|by rewrite Hlast|by apply StronglySorted_app_1_r in Hs
        |by rewrite Hlast|cbn in *; lia].
Qed.

Lemma sorted_nodup (l : list Z) : StronglySorted Z.le l -> NoDup l -> StronglySorted Z.lt l.
Proof.
  induction 1 as [|x l _ IH Hx]; intros Hn; [constructor|]. apply NoDup_cons in Hn as [Hnot Hn].
  constructor; [by apply IH|]. apply Forall_forall. intros y Hy. rewrite Forall_forall in Hx. specialize (Hx y Hy).
  assert (x <> y) by (intros ->; done). lia.
Qed.

Lemma map_filter_nodup (p : VersionOf Row -> bool) vs : NoDup (map v_seq vs) -> NoDup (map v_seq (List.filter p vs)).
Proof.
  induction vs as [|v vs IH]; [done|]. cbn [map List.filter]. intros [Hnot Hn]%NoDup_cons.
  destruct (p v); [|by apply IH]. cbn [map]. apply NoDup_cons. split; [|by apply IH].
  intros Hin. apply Hnot. apply list_elem_of_In, in_map_iff in Hin as (w & <- & [Hw _]%filter_In).
  by apply list_elem_of_In, in_map.
Qed.

Lemma reports_seqs all vs recs : Forall2 (reports all) vs recs -> map cr_seq recs = map v_seq vs.
Proof. induction 1 as [|v c vs recs Hv _ IH]; [done|]. cbn [map]. by rewrite IH, (rp_seq _ _ _ Hv). Qed.

Lemma stream_spec src en ts (content : content_t) since :
  (forall i, ip_engine src i = en) -> (0 < batch_size src)%nat ->
  (length (tail_versions en ts content) < ip_fuel src)%nat ->
  EngineOk en ts content -> FeedOk en ts content -> NoDup (map v_seq (tail_versions en ts content)) -> 0 <= since ->
  exists recs vs, in_process_stream xxh3_64 crc32 (B := B) src since = Some (Ok (map op_record recs)) /\
    vs ≡ₚ List.filter (in_window since (read_seq en)) (tail_versions en ts content) /\
    StronglySorted Z.lt (map v_seq vs) /\ Forall2 (reports (all_versions en ts content)) vs recs.
Proof.
  intros Hen Hn Hfuel HE HF Hnd H0. unfold in_process_stream. rewrite Hen.
  destruct (Z.leb_spec (read_seq en) since) as [Hge|Hlt].
  { exists [], []. split; [done|]. split; [|split; constructor]. rewrite filter_all_false; [done|].
    intros v _. unfold in_window. lia. }
  destruct (scan_records_spec xxh3_64 crc32 en ts content since (read_seq en) HE HF H0)
    as (recs & vs & Er & Hp & Hs & HR).
  assert (Hss : StronglySorted Z.lt (map v_seq vs)).
  { apply sorted_nodup; [done|]. rewrite Hp. by apply map_filter_nodup. }
  assert (Hlen : (length recs < ip_fuel src)%nat).
  { rewrite <- (Forall2_length _ _ _ HR), Hp. pose proof (filter_length_le (in_window since (read_seq en))
      (tail_versions en ts content)). lia. }
  exists recs, vs. split; [|done]. change (from_engine since) with (cursor_at since []).
  destruct recs as [|x bs].
  { destruct (ip_fuel src) as [|fuel]; [lia|]. cbn [Replica.stream_loop]. rewrite Hen.
    by rewrite (next_batch_scan xxh3_64 crc32 en _ since []). }
  transitivity (source_loop (ip_fuel src) src 1 (read_seq en) (cursor_at since (x :: bs))).
  { destruct (ip_fuel src) as [|fuel]; [done|]. cbn [Replica.stream_loop]. rewrite Hen.
    rewrite (next_batch_scan xxh3_64 crc32 en _ since (x :: bs)) by done. done. }
  assert (Hwin : forall r, r ∈ x :: bs -> since < cr_seq r <= read_seq en).
  { intros r Hr. apply list_elem_of_In, (in_map cr_seq) in Hr. rewrite (reports_seqs _ _ _ HR) in Hr.
    apply in_map_iff in Hr as (v & <- & Hv%list_elem_of_In). rewrite Hp in Hv.
    apply list_elem_of_In, filter_In in Hv as [_ Hv]. unfold in_window in Hv. lia. }
  destruct (last (x :: bs)) as [l|] eqn:El; [|by apply last_None in El].
  pose proof (Hwin l (last_Some_elem_of _ _ El)) as Hl.
  eapply stream_buffer; try done; unfold last_change; rewrite ?El; [lia|by rewrite (reports_seqs _ _ _ HR)| |].
  - apply Forall_forall. intros r Hr. by apply Hwin.
  - apply filter_all_false. intros v Hv. destruct (in_window since (read_seq en) v) eqn:Ev; [|unfold in_window in *; lia].
    assert (Hvs : v ∈ vs). { rewrite Hp. apply list_elem_of_In, filter_In. by apply list_elem_of_In in Hv. }
    assert (v_seq v <= cr_seq l); [|unfold in_window; lia].
    apply last_Some in El as (l' & E). rewrite E in HR. apply Forall2_app_inv_r in HR as (a & b & _ & Hb & ->).
    inversion Hb as [|w ? ? ? Hw Hnil]; subst. inversion Hnil; subst. rewrite (rp_seq _ _ _ Hw).
    eapply sorted_last; [exact Hs|by rewrite last_snoc|done].
Qed.
(** The primary's feed serves the history [H] above [vis]: it reports committed
    versions only, and the newest one of every key changed since. *)
Record Serves H en ts (content : content_t) (vis : Z) : Prop := {
  sv_engine : EngineOk en ts content;
  sv_feed : FeedOk en ts content;
  sv_unique : unique_seqs H;
  sv_nodup : NoDup (map v_seq (tail_versions en ts content));
  sv_sound v : v ∈ tail_versions en ts content -> vis < v_seq v <= read_seq en -> v ∈ H;
  sv_complete k v : newest H k (read_seq en) = Some v -> vis < v_seq v -> v ∈ tail_versions en ts content;
  sv_reads k : outcome (newest (all_versions en ts content) k (read_seq en)) = outcome (newest H k (read_seq en));
}.

Lemma newest_gap H k b r :
  b <= r -> (forall v, v ∈ H -> v_key v = k -> v_seq v <= b \/ r < v_seq v) -> newest H k r = newest H k b.
Proof.
  intros Hbr. induction H as [|v H IH]; intros Hgap; [done|]. cbn [newest].
  rewrite IH by (intros w Hw; apply Hgap; by right).
  assert (visible k r v = visible k b v) as ->; [|done]. unfold visible.
  destruct (bytes_eqb (v_key v) k) eqn:Ek; [|done]. apply bytes_eqb_spec in Ek. cbn.
  destruct (Hgap v ltac:(left) Ek); lia.
Qed.

(** Versions of [vs] hold the newest version above [vis] of every key. *)
Lemma caught_up H r vis (vs : list (VersionOf Row)) :
  (forall k v, newest H k r = Some v -> vis < v_seq v -> v ∈ vs) ->
  forall w, w ∈ H -> vis < v_seq w <= r ->
  exists u, newest H (v_key w) r = Some u /\ u ∈ vs /\ v_key u = v_key w /\ v_seq w <= v_seq u.
Proof.
  intros Hc w Hw Hr. destruct (newest_above H r w Hw) as (u & Hu & Hk & Hle); [lia|].
  exists u. split; [done|]. split; [|done]. eapply Hc; [exact Hu|lia].
Qed.

Lemma last_filter (vs : list (VersionOf Row)) k v :
  StronglySorted Z.lt (map v_seq vs) -> last (List.filter (fun w => bytes_eqb (v_key w) k) vs) = Some v ->
  v ∈ vs /\ v_key v = k /\ forall u, u ∈ vs -> v_key u = k -> v_seq u <= v_seq v.
Proof.
  intros Hs Hl. pose proof (last_Some_elem_of _ _ Hl) as Hv.
  apply list_elem_of_In, filter_In in Hv as [Hv Hk%bytes_eqb_spec]. apply list_elem_of_In in Hv. split; [done|].
  split; [done|]. intros u Hu Huk.
  assert (Hs' : StronglySorted Z.le (map v_seq (List.filter (fun w => bytes_eqb (v_key w) k) vs))).
  { clear -Hs. induction vs as [|x vs IH]; cbn; [constructor|]. apply StronglySorted_inv in Hs as [Hs Hx].
    destruct (bytes_eqb (v_key x) k); [|by apply IH]. cbn. constructor; [by apply IH|].
    apply Forall_forall. intros z Hz. apply list_elem_of_In, in_map_iff in Hz as (y & <- & [Hy _]%filter_In).
    rewrite Forall_forall in Hx. apply Z.lt_le_incl, Hx. by apply list_elem_of_In, in_map. }
  eapply sorted_last; [exact Hs'|exact Hl|]. apply list_elem_of_In, filter_In. split; [by apply list_elem_of_In|].
  by apply bytes_eqb_spec.
Qed.

Lemma last_filter_none (vs : list (VersionOf Row)) k :
  last (List.filter (fun w => bytes_eqb (v_key w) k) vs) = None -> forall u, u ∈ vs -> v_key u <> k.
Proof.
  intros Hl u Hu Hk. apply last_None in Hl. assert (Hin : u ∈ ([] : list (VersionOf Row))).
  { rewrite <- Hl. apply list_elem_of_In, filter_In. split; [by apply list_elem_of_In|by apply bytes_eqb_spec]. }
  by apply not_elem_of_nil in Hin.
Qed.

Lemma tail_index_step H b r0 r t vs t' k :
  TailOk H b r0 t -> r0 <= r -> unique_seqs H ->
  StronglySorted Z.lt (map v_seq vs) -> (forall v, v ∈ vs -> v ∈ H /\ tail_visible t < v_seq v <= r) ->
  (forall k v, newest H k r = Some v -> tail_visible t < v_seq v -> v ∈ vs) ->
  tail_visible t <= tail_visible t' -> (forall v, v ∈ vs -> v_seq v <= tail_visible t') ->
  match last (List.filter (fun v => bytes_eqb (v_key v) k) vs) with
  | Some v => exists e, index t' !! k = Some e /\ entry_shows v e
  | None => index t' !! k = index t !! k
  end ->
  match index t' !! k with
  | Some e => exists v, newest H k r = Some v /\ b < v_seq v <= tail_visible t' /\ entry_shows v e
  | None => forall v, v ∈ H -> v_key v = k -> v_seq v <= b \/ r < v_seq v
  end.
Proof.
  intros [Hvis Hcu Hidx] Hr Hu Hs Hin Hc Hmono Hmax Hk. pose proof (caught_up H r (tail_visible t) vs Hc) as Hnew.
  destruct (last _) as [v|] eqn:El.
  - destruct Hk as (e & -> & Hshow). destruct (last_filter vs k v Hs El) as (Hv & Hvk & Hlast).
    destruct (Hin v Hv) as [HvH Hvr]. exists v. split; [|split; [specialize (Hmax v Hv); lia|done]].
    apply newest_iff; [done|]. split; [done|]. split; [apply visible_spec; split; [done|lia]|].
    intros w Hw [Hwk Hwr]%visible_spec. destruct (Z.le_gt_cases (v_seq w) (tail_visible t)); [lia|].
    destruct (Hnew w Hw) as (u & _ & Huvs & Huk & Hle); [lia|]. specialize (Hlast u Huvs ltac:(congruence)). lia.
  - pose proof (last_filter_none vs k El) as Hnone. specialize (Hidx k). rewrite Hk.
    assert (Hold : forall w, w ∈ H -> v_key w = k -> v_seq w <= r -> v_seq w <= tail_visible t).
    { intros w Hw Hwk Hwr. destruct (Z.le_gt_cases (v_seq w) (tail_visible t)); [done|].
      destruct (Hnew w Hw) as (u & _ & Huvs & Huk & _); [lia|]. destruct (Hnone u Huvs). congruence. }
    destruct (index t !! k) as [e|].
    + destruct Hidx as (v & Hv & Hbv & Hshow). exists v. split; [|split; [lia|done]].
      apply newest_is_newest in Hv as (HvH & [Hvk Hvr]%visible_spec & Hm). apply newest_iff; [done|].
      split; [done|]. split; [apply visible_spec; split; [done|lia]|]. intros w Hw [Hwk Hwr]%visible_spec.
      specialize (Hold w Hw Hwk Hwr). apply Hm; [done|]. apply visible_spec. split; [done|lia].
    + intros w Hw Hwk. destruct (Z.le_gt_cases (v_seq w) r) as [Hwr|]; [|by right].
      specialize (Hold w Hw Hwk Hwr). destruct (Hidx w Hw Hwk); lia.
Qed.

Lemma tail_advance_spec H b r0 src en ts (content : content_t) t :
  (forall i, ip_engine src i = en) -> (0 < batch_size src)%nat ->
  (length (tail_versions en ts content) < ip_fuel src)%nat -> 0 <= b ->
  TailOk H b r0 t -> r0 <= read_seq en -> Serves H en ts content (tail_visible t) ->
  exists t', tail_advance (LogSource0 := InProcessLogSource_source xxh3_64 crc32 (B := B)) src t = (t', Ok tt) /\
    TailOk H b (read_seq en) t'.
Proof.
  intros Hen Hn Hfuel H0 HT Hr [HE HF Hu Hnd Hsound Hcomp _]. pose proof (to_visible _ _ _ _ HT) as Hvis.
  destruct (stream_spec src en ts content (tail_visible t) Hen Hn Hfuel HE HF Hnd) as (recs & vs & Es & Hp & Hs & HR); [lia|].
  assert (Hin : forall v, v ∈ vs <-> v ∈ tail_versions en ts content /\ tail_visible t < v_seq v <= read_seq en).
  { intros v. rewrite Hp, !list_elem_of_In, filter_In. unfold in_window. by rewrite andb_true_iff, Z.ltb_lt, Z.leb_le. }
  destruct (apply_ascending _ vs recs t HR Hs) as (t' & Et & Evis & Hk).
  { apply Forall_forall. intros v Hv%Hin. lia. }
  { intros k e He. pose proof (to_index _ _ _ _ HT k) as Hi. rewrite He in Hi.
    destruct Hi as (v & _ & Hv & [-> _]). lia. }
  exists t'. split.
  { unfold tail_advance. cbn [log_stream InProcessLogSource_source]. rewrite Es. exact Et. }
  assert (HinH : forall v, v ∈ vs -> v ∈ H /\ tail_visible t < v_seq v <= read_seq en).
  { intros v [Hv Hw]%Hin. split; [by apply Hsound|done]. }
  assert (Hc : forall k v, newest H k (read_seq en) = Some v -> tail_visible t < v_seq v -> v ∈ vs).
  { intros k v Hv Hlt. apply Hin. split; [by eapply Hcomp|]. apply newest_is_newest in Hv as (_ & [_ ?]%visible_spec & _). lia. }
  assert (Hmax : forall v, v ∈ vs -> v_seq v <= tail_visible t').
  { intros v Hv. rewrite Evis. destruct (last vs) as [l|] eqn:El; [|apply last_None in El as ->; by apply not_elem_of_nil in Hv].
    eapply sorted_last; [|exact El|done]. eapply StronglySorted_impl; [|exact Hs]. cbn. lia. }
  assert (Hbound : tail_visible t <= tail_visible t' <= read_seq en).
  { rewrite Evis. destruct (last vs) as [l|] eqn:El; [|lia]. destruct (HinH l (last_Some_elem_of _ _ El)). lia. }
  split.
  - lia.
  - intros v Hv. destruct (Z.le_gt_cases (v_seq v) (read_seq en)) as [Hle|]; [|by right]. left.
    destruct (Z.le_gt_cases (v_seq v) (tail_visible t)); [lia|].
    destruct (caught_up H (read_seq en) (tail_visible t) vs Hc v Hv) as (u & _ & Hu' & _ & Hle'); [lia|].
    specialize (Hmax u Hu'). lia.
  - intros k. apply (tail_index_step H b r0 (read_seq en) t vs t' k HT Hr Hu Hs HinH Hc); [lia|exact Hmax|apply Hk].
Qed.

Lemma tail_read H b r t k :
  TailOk H b r t ->
  outcome (newest H k r) = match index t !! k with Some _ => tail_get t k | None => outcome (newest H k b) end.
Proof.
  intros [Hvis _ Hidx]. specialize (Hidx k). destruct (index t !! k) as [e|] eqn:Ei.
  - destruct Hidx as (v & -> & _ & Hshow). rewrite (shows_get v t k) by eauto. done.
  - rewrite (newest_gap H k b r); [done|lia|done].
Qed.
End catch_up.

Lemma anchored_visible b : tail_visible (anchored b) = Z.max 0 b.
Proof.
  unfold anchored, seed_visible_seq. destruct (Z.ltb_spec 0 b); cbn; [|lia]. destruct (Z.ltb_spec 0 b); cbn; lia.
Qed.

(** The records a log delivers before its stream ends or fails. *)
Fixpoint delivered (items : list (res OpRecord)) : list OpRecord :=
  match items with Ok x :: items => x :: delivered items | _ => [] end.
Definition drained {L} `{!LogSource L} (l : L) (since : Z) : list OpRecord :=
  match log_stream l since with Ok items => delivered items | _ => [] end.

(** The largest sequence number of some records and of [b]. *)
Definition frontier (b : Z) (recs : list OpRecord) : Z := foldr Z.max b (map or_seq recs).

Lemma frontier_max b c recs : frontier (Z.max b c) recs = Z.max b (frontier c recs).
Proof. unfold frontier. induction recs as [|x recs IH]; cbn; [done|]. rewrite IH. lia. Qed.

Lemma frontier_reaches b recs v :
  v <= b \/ (exists x, x ∈ recs /\ v <= or_seq x) -> v <= frontier (Z.max 0 b) recs.
Proof.
  intros [Hb|(x & Hx & Hv)].
  - rewrite Z.max_comm, frontier_max. pose proof (frontier_max b 0 recs). lia.
  - etrans; [exact Hv|]. clear Hv. unfold frontier. induction Hx as [recs|y recs Hx IH]; cbn; lia.
Qed.

(** No entry of the tail is above its frontier. *)
Definition below_frontier (t : ReplicaTail) : Prop := map_Forall (fun _ x => te_seq x <= tail_visible t) (index t).

Lemma tail_apply_frontier k x t : below_frontier t ->
  below_frontier (tail_apply k x t) /\ tail_visible (tail_apply k x t) = Z.max (or_seq x) (tail_visible t).
Proof.
  intros Ht. unfold tail_apply. destruct (index t !! k) as [y|] eqn:E.
  - destruct (Z.leb_spec (or_seq x) (te_seq y)); [split; [done|]; specialize (Ht k y E); cbn in Ht; lia|].
    split; [|cbn; destruct (Z.ltb_spec (tail_visible t) (or_seq x)); lia].
    apply map_Forall_insert_2; [cbn; destruct (Z.ltb_spec (tail_visible t) (or_seq x)); lia|].
    eapply map_Forall_impl; [exact Ht|]. intros ? z Hz. cbn in *. destruct (Z.ltb_spec (tail_visible t) (or_seq x)); lia.
  - split; [|cbn; destruct (Z.ltb_spec (tail_visible t) (or_seq x)); lia].
    apply map_Forall_insert_2; [cbn; destruct (Z.ltb_spec (tail_visible t) (or_seq x)); lia|].
    eapply map_Forall_impl; [exact Ht|]. intros ? z Hz. cbn in *. destruct (Z.ltb_spec (tail_visible t) (or_seq x)); lia.
Qed.

Lemma apply_stream_frontier items t : below_frontier t ->
  tail_visible (apply_stream items t).1 = frontier (tail_visible t) (delivered items).
Proof.
  revert t. induction items as [|[x|e|] items IH]; intros t Ht; cbn [apply_stream delivered]; [done| |done..].
  destruct (tail_apply_frontier (or_pk x) x t Ht) as [Ht' Hv]. rewrite (IH _ Ht'), Hv. apply frontier_max.
Qed.

Lemma tail_advance_frontier {L} `{!LogSource L} (l : L) b :
  tail_visible (tail_advance l (anchored b)).1 = frontier (Z.max 0 b) (drained l (Z.max 0 b)).
Proof.
  assert (Ht : below_frontier (anchored b)).
  { unfold anchored, seed_visible_seq. destruct (0 <? b); cbn; [destruct (0 <? b)|]; apply map_Forall_empty. }
  unfold tail_advance, drained. rewrite <- (anchored_visible b).
  destruct (log_stream l _); cbn [fst delivered]; [|done..]. by apply apply_stream_frontier.
Qed.

Lemma bind_run {A X} (m : io A) (k : A -> io X) sched w :
  (m ≫= k) sched w = match m sched w with (w, Val a) => k a sched w | (w, Stopped) => (w, Stopped) end.
Proof. done. Qed.

Lemma try_run {A X} (m : io (res A)) (k : A -> io (res X)) sched w :
  io_try k m sched w = match m sched w with
                       | (w, Val (Ok a)) => k a sched w
                       | (w, Val (Err e)) => (w, Val (Err e))
                       | (w, Val Panic) => (w, Val Panic)
                       | (w, Stopped) => (w, Stopped)
                       end.
Proof. unfold io_try. rewrite bind_run. by destruct (m sched w) as [w' [[a|e|]|]]. Qed.

(** ** Properties *)

(** C21. A replica that has advanced answers like its primary.  [H] is everything
    the primary committed; the replica's base answers as of sequence number
    [b], its tail holds what changed since, up to [r0], and the primary's feed
    still reports the newest version of each key changed after that.  Then an
    advance succeeds, the tail is caught up with the primary's visible sequence
    number, and a lookup of any key on the replica, in the tail or in the base,
    gives what the same lookup on the primary gives. *)
Theorem replica_matches_primary (xxh3_64 crc32 : bytes -> Z) {F M C B D O : Type}
    `{AR : !Arrow, PF : !ParquetFile F, FC : !FooterCodec, SJ : !SchemaJson, RB : !Roaring B}
    `{SM : !SkipMap M, SML : !SkipMapLaws M, LC : !LruCache C, RS : !RowSerde, DB : !BaseDb D O}
    (rp : Replica D O (InProcessLogSource F M C)) en ts content H b r0 :
  let LS := InProcessLogSource_source xxh3_64 crc32 (B := B) in
  (forall i, ip_engine (log_source rp) i = en) -> (0 < batch_size (log_source rp))%nat ->
  (length (tail_versions en ts content) < ip_fuel (log_source rp))%nat -> rp_schema rp = en_schema en -> 0 <= b ->
  TailOk H b r0 (tail (rp_state rp)) -> r0 <= read_seq en ->
  Serves xxh3_64 crc32 (B := B) H en ts content (replica_visible rp) ->
  (forall pk k, encode_user_key pk (rp_schema rp) = Ok k ->
    (db_get (base (rp_state rp)) pk).2 = Ok (outcome (newest H k b))) ->
  exists rp', replica_advance rp = (rp', Ok tt) /\ TailOk H b (read_seq en) (tail (rp_state rp')) /\
    forall pk k, Forall FieldValue_wf pk -> encode_user_key pk (rp_schema rp) = Ok k ->
      (replica_get rp' pk).2 = point_lookup_at_seq xxh3_64 crc32 (B := B) en k (read_seq en).
Proof.
  intros LS Hen Hn Hfuel Hs H0 HT Hr HS Hbase.
  destruct (tail_advance_spec xxh3_64 crc32 H b r0 (log_source rp) en ts content _ Hen Hn Hfuel H0 HT Hr HS)
    as (t' & Et & HT').
  exists (set_tail t' rp). split; [unfold replica_advance; subst LS; by rewrite Et|]. split; [done|].
  intros pk k Hpk Hk. rewrite (lookup_at_seq_spec _ _ en ts content k) by
    (first [apply (sv_engine _ _ _ _ _ _ _ HS)|exists pk; by rewrite <- Hs]).
  rewrite (sv_reads _ _ _ _ _ _ _ HS). unfold replica_get. cbn [rp_schema set_tail set_state]. rewrite Hk.
  cbn [rp_state set_tail set_state tail base]. rewrite (tail_read H b _ t' k HT').
  destruct (index t' !! k); [done|]. rewrite <- (Hbase pk k Hk). by destruct (db_get _ pk).
Qed.

(** C40. The in-process log source always ends its stream, however the primary
    evolves between two polls of the cursor: there is a number of polls after
    which the loop has returned, with the records or with the error of a poll.  Each poll that returns records moves the
    cursor on, and the loop stops at the sequence number that was visible when
    the stream was opened. *)
Theorem in_process_stream_ends (xxh3_64 crc32 : bytes -> Z) {F M C B : Type}
    `{AR : !Arrow, PF : !ParquetFile F, FC : !FooterCodec, SJ : !SchemaJson, RB : !Roaring B}
    `{SM : !SkipMap M, LC : !LruCache C, RS : !RowSerde}
    (engine : nat -> MeruEngine F M C) (n : nat) (since : Z) :
  exists fuel, forall fuel', (fuel <= fuel')%nat ->
    in_process_stream xxh3_64 crc32 (B := B) (with_batch_size n (in_process_new engine fuel')) since <> None.
Proof.
  set (src fuel := with_batch_size n (in_process_new engine fuel)). set (upper := read_seq (engine 0%nat)).
  destruct (stream_loop_ends xxh3_64 crc32 (B := B) (src O) upper) with (m := Z.to_nat (upper - since)) (k := O)
    (c := from_engine since) (since := since) (bs := @nil ChangeRecord) (i := 1%nat) as (fuel & Hf); try done.
  { cbn. lia. }
  { split; constructor. }
  exists fuel. intros fuel' Hle. unfold in_process_stream. cbn [ip_engine with_batch_size in_process_new ip_fuel].
  fold upper. destruct (upper <=? since); [done|].
  rewrite (stream_loop_fuel xxh3_64 crc32 (src O) fuel'). by apply Hf.
Qed.

(** C22. A hot swap replaces the serving state as a whole or not at all.  Whatever
    the disk does, a rebase that fails, while it opens the new base, while it
    drains the log or because it timed out, leaves the replica as it was.  One
    that succeeds serves the new base, counts itself and returns its sequence
    number with the new visible frontier, which is exactly the larger of the new
    base and of the records the log delivered above it: no delivered record is
    above the frontier, and the frontier is not below the one served before as
    long as the new base or a delivered record reaches that one.  (Otherwise it
    moves back: a log below retention delivers nothing, and the frontier is then
    that of the new base.) *)
Theorem hotswap_all_or_nothing {D O L : Type} `{DB : !BaseDb D O, LS : !LogSource L}
    (rp : Replica D O L) elapsed sched w w' rp' r :
  rebase_hotswap elapsed rp sched w = (w', Val (rp', r)) ->
  match r with
  | Ok (new_base, new_visible) =>
      let recs := drained (log_source rp) (Z.max 0 new_base) in
      base_seq rp' = new_base /\ replica_visible rp' = new_visible /\
      new_base <= new_visible /\ new_visible = frontier (Z.max 0 new_base) recs /\
      (replica_visible rp <= new_base \/ (exists x, x ∈ recs /\ replica_visible rp <= or_seq x) ->
        replica_visible rp <= new_visible) /\
      rebase_count rp' = wrap 64 (rebase_count rp + 1) /\ base_opts rp' = base_opts rp /\ rp_schema rp' = rp_schema rp
  | _ => rp' = rp
  end.
Proof.
  unfold rebase_hotswap, warm_up. rewrite bind_run, try_run.
  destruct (db_open (base_opts rp) sched w) as [w1 [[nb|e|]|]]; cbn.
  - pose proof (tail_advance_frontier (log_source rp) (db_read_seq nb)) as Hv.
    destruct (tail_advance _ _) as [t [[]|e|]]; [|destruct e|]; cbn;
      (destruct (_ && _); cbn; [by intros [= _ <- <-]|]); intros [= _ <- <-]; try done;
      cbn in *; split_and!; try done; rewrite Hv; (apply frontier_reaches; left; lia) || apply frontier_reaches.
  - destruct (_ && _); by intros [= _ <- <-].
  - destruct (_ && _); by intros [= _ <- <-].
  - done.
Qed.

(** A rebase in place forgets what the replica served when the log fails.
    [rebase] refreshes the base and resets the tail before it drains the log; if
    the log source then fails, the replica keeps the empty tail, and every
    lookup is answered by the base alone. *)
Theorem failed_rebase_forgets_tail {D O L : Type} `{DB : !BaseDb D O, LS : !LogSource L}
    (rp : Replica D O L) b e d :
  runs (db_refresh (base (rp_state rp))) d d (b, Ok tt) ->
  log_stream (log_source rp) (Z.max 0 (db_read_seq b)) = Err e ->
  exists rp', run (rebase rp) d = (d, Val (rp', Err e)) /\ replica_visible rp' = Z.max 0 (db_read_seq b) /\
    forall pk k, encode_user_key pk (rp_schema rp) = Ok k -> (replica_get rp' pk).2 = (db_get b pk).2.
Proof.
  intros Hr Hl. rewrite <- anchored_visible in Hl.
  exists (set_tail (anchored (db_read_seq b)) (set_state {| base := b; tail := tail (rp_state rp) |} rp)).
  split; [|split].
  - apply runs_run. eapply runs_bind; [exact Hr|]. cbn [log_source set_state]. unfold tail_advance. rewrite Hl.
    apply runs_ret.
  - unfold replica_visible. cbn. apply anchored_visible.
  - intros pk k Hk. unfold replica_get. cbn [rp_schema set_tail set_state]. rewrite Hk.
    cbn [rp_state set_tail set_state tail base].
    assert (index (anchored (db_read_seq b)) = ∅) as ->.
    { unfold anchored, seed_visible_seq. destruct (0 <? _); [|done]. by destruct (_ <? _). }
    rewrite lookup_empty. by destruct (db_get b pk).
Qed.

(** ** A concrete replica: a base that is a function, over the example primary *)
Record FunDb : Type := { fdb_seq : Z; fdb_get : list FieldValue -> res (option Row) }.

#[global] Instance FunDb_base : BaseDb FunDb FunDb := {|
  db_open d := mret (Ok d); db_refresh d := mret (d, Ok tt); db_get d pk := (d, fdb_get d pk);
  db_read_seq := fdb_seq; opt_read_only d := d; opt_schema _ := example_schema |}.

Definition ex_history : list (VersionOf Row) := all_versions ex_engine ex_tables ex_content.
Definition ex_base : FunDb :=
  {| fdb_seq := 5; fdb_get pk := k ← encode_user_key pk example_schema; Ok (ReadPath.outcome (newest ex_history k 5)) |}.

Definition ex_source_at (fuel : nat) : InProcessLogSource ListFile (list (bytes * EntryValue)) ListLru :=
  in_process_new (fun _ => ex_engine) fuel.
Definition ex_replica : Replica FunDb FunDb (InProcessLogSource ListFile (list (bytes * EntryValue)) ListLru) :=
  {| rp_state := {| base := ex_base; tail := anchored 5 |}; log_source := ex_source_at 9; rp_schema := example_schema;
     rebase_count := 0; last_rebase_warmup_millis := 0; rebase_timeout_millis := 60000; base_opts := ex_base |}.

Lemma ex_history_unique : unique_seqs ex_history.
Proof. unfold unique_seqs. apply (bool_decide_unpack _). vm_compute. exact I. Qed.

Lemma ex_history_tail : ex_history = tail_versions ex_engine ex_tables ex_content.
Proof. vm_compute. reflexivity. Qed.

Lemma ex_serves : Serves (fun _ => 0) example_sum (B := gset Z) ex_history ex_engine ex_tables ex_content 5.
Proof.
  split.
  - exact ex_engine_ok.
  - exact ex_feed_ok.
  - exact ex_history_unique.
  - rewrite <- ex_history_tail. apply (bool_decide_unpack _). vm_compute. exact I.
  - intros v Hv _. by rewrite ex_history_tail.
  - intros k v (Hv & _)%newest_is_newest _. by rewrite <- ex_history_tail.
  - done.
Qed.

Lemma ex_tail_ok : TailOk ex_history 5 5 (anchored 5).
Proof.
  split; [cbn; lia| |].
  - intros v _. cbn. lia.
  - intros k. change (index (anchored 5)) with (∅ : gmap bytes TailEntry). rewrite lookup_empty. intros v _ _. lia.
Qed.

Lemma replica_matches_primary_witness :
  exists rp', replica_advance (LogSource0 := InProcessLogSource_source (fun _ => 0) example_sum (B := gset Z)) ex_replica
    = (rp', Ok tt) /\ (replica_get rp' (example_pk 1 [b0])).2 = Ok (Some (ex_r 20)).
Proof.
  destruct (replica_matches_primary (fun _ => 0) example_sum (B := gset Z) ex_replica ex_engine ex_tables ex_content
    ex_history 5 5) as (rp' & E & _ & Hget).
  - reflexivity.
  - apply Nat.lt_0_succ.
  - vm_compute. lia.
  - reflexivity.
  - lia.
  - exact ex_tail_ok.
  - vm_compute. discriminate.
  - exact ex_serves.
  - intros pk k Hk. cbn [rp_state base ex_replica db_get FunDb_base ex_base fdb_get snd rp_schema] in *. by rewrite Hk, Ok_bind.
  - exists rp'. split; [exact E|]. rewrite (Hget _ (user_key_bytes (ex_k 1 20 Put))); [vm_compute; reflexivity| |].
    + apply Forall_cons. split; [unfold FieldValue_wf, in_i; lia|]. apply Forall_cons. split; [done|constructor].
    + vm_compute. reflexivity.
Defined.

(** The tail held an update at sequence number 20; the base has the row of 5. *)
Definition ex_failing : Replica FunDb FunDb ChangeFeedLogSource :=
  {| rp_state := {| base := ex_base;
                    tail := {| index := {[ user_key_bytes (ex_k 1 20 Put) :=
                                 {| te_seq := 20; te_op := Update; te_row := ex_r 20 |} ]};
                               tail_visible := 20; ops_applied := 1 |} |};
     log_source := {| primary_low_water := 30 |}; rp_schema := example_schema; rebase_count := 0;
     last_rebase_warmup_millis := 0; rebase_timeout_millis := 60000; base_opts := ex_base |}.

Definition ex_disk : Disk := {| inodes := ∅; dirs := ∅; next_ino := 0 |}.

Lemma failed_rebase_forgets_tail_witness :
  (replica_get ex_failing (example_pk 1 [b0])).2 = Ok (Some (ex_r 20)) /\
  exists rp', run (rebase ex_failing) ex_disk = (ex_disk, Val (rp', Err (ChangeFeedBelowRetention 5 30))) /\
    (replica_get rp' (example_pk 1 [b0])).2 = Ok (Some (ex_r 5)).
Proof.
  split; [vm_compute; reflexivity|].
  destruct (failed_rebase_forgets_tail ex_failing ex_base (ChangeFeedBelowRetention 5 30) ex_disk) as (rp' & E & _ & Hget).
  - apply runs_ret.
  - reflexivity.
  - exists rp'. split; [exact E|]. rewrite (Hget _ (user_key_bytes (ex_k 1 20 Put))); vm_compute; reflexivity.
Defined.

(** A swap to the base of sequence number 5, which drains the log up to 20. *)
Definition ex_log : LogSource (InProcessLogSource ListFile (list (bytes * EntryValue)) ListLru) :=
  InProcessLogSource_source (fun _ => 0) example_sum (B := gset Z).

Definition ex_swapped : Replica FunDb FunDb (InProcessLogSource ListFile (list (bytes * EntryValue)) ListLru) :=
  {| rp_state := {| base := ex_base; tail := (tail_advance (LogSource0 := ex_log) (ex_source_at 9) (anchored 5)).1 |};
     log_source := ex_source_at 9; rp_schema := example_schema; rebase_count := 1;
     last_rebase_warmup_millis := 10; rebase_timeout_millis := 60000; base_opts := ex_base |}.

Lemma ex_drained :
  (tail_advance (LogSource0 := ex_log) (ex_source_at 9) (anchored 5)).2 = Ok tt /\
  tail_visible (tail_advance (LogSource0 := ex_log) (ex_source_at 9) (anchored 5)).1 = 20.
Proof. split; vm_compute; reflexivity. Qed.

Lemma ex_swap w :
  rebase_hotswap (LogSource0 := ex_log) 10 ex_replica (fun _ => NoFault) w = (w, Val (ex_swapped, Ok (5, 20))).
Proof.
  destruct ex_drained as [E1 E2]. unfold rebase_hotswap, warm_up, ex_swapped. rewrite bind_run, try_run.
  change (db_open (base_opts ex_replica) (fun _ => NoFault) w) with (w, Val (Ok ex_base)). cbn beta iota zeta.
  change (db_read_seq ex_base) with 5. change (log_source ex_replica) with (ex_source_at 9).
  destruct (tail_advance (ex_source_at 9) (anchored 5)) as [t r]. cbn [fst snd] in *. subst r. cbn. by rewrite E2.
Qed.

(** The other swap takes seventy seconds, over the default timeout. *)
Lemma hotswap_all_or_nothing_witness :
  let w := {| w_disk := ex_disk; w_tick := 0 |} in
  (base_seq ex_swapped = 5 /\ replica_visible ex_swapped = 20 /\ replica_visible ex_replica <= 20) /\
  exists rp', rebase_hotswap 70000 ex_failing (fun _ => NoFault) w
    = (w, Val (rp', Err (InvalidArgument "rebase_hotswap timed out"))) /\ rp' = ex_failing.
Proof.
  intros w. split.
  - pose proof (hotswap_all_or_nothing (LS := ex_log) ex_replica 10 (fun _ => NoFault) w w _ (Ok (5, 20)) (ex_swap w))
      as (Hb & Hv & _ & _ & Hr & _).
    split; [exact Hb|]. split; [exact Hv|]. apply Hr. left. exact (Z.le_refl 5).
  - exists ex_failing. split; [reflexivity|].
    exact (hotswap_all_or_nothing ex_failing 70000 (fun _ => NoFault) w w ex_failing
      (Err (InvalidArgument "rebase_hotswap timed out")) eq_refl).
Defined.
