(* ===== verification/EngineOpen.v ===== *)
(** * Opening an engine

    [MeruEngine::open], [refresh] and [stats] of
    [src/crates/merutable/src/engine/engine.rs] and the statistics of
    [src/crates/merutable/src/engine/stats.rs].  The write-ahead log's directory
    is an argument ([None] if it does not exist); the catalog is read from the
    disk of [Disk]. *)

From S2P Require Import Prelude Disk Sequence Schema Key RowCodec WalBatch WalLog WalManager Mvcc Memtable LsmVersion DeletionVector Manifest ManifestPb Catalog Picker Bloom KvIndex Arrow Codec FileReader Cache ReadPath Engine.
Local Open Scope Z_scope.

(** The files of a version, level by level. *)
Definition version_files (v : Version) : list DataFileMeta := concat (map snd (map_to_list (levels v))).

Definition version_max_seq (v : Version) : Z := foldr Z.max 0 (map (fun f => seq_max (meta f)) (version_files v)).

(** ** Statistics *)
Record DvStats : Type := { dvs_path : string; dvs_offset : Z; dvs_length : Z }.
Record FileStats : Type := {
  fst_path : string;
  fst_file_size : Z;
  fst_num_rows : Z;
  fst_seq_range : Z * Z;
  fst_has_dv : bool;
  fst_dv : option DvStats;
}.
Record LevelStats : Type := {
  lst_level : Z;
  lst_file_count : nat;
  lst_total_bytes : Z;
  lst_total_rows : Z;
  lst_files : list FileStats;
}.
Record MemtableStats : Type := {
  mst_active_size_bytes : Z;
  mst_active_entry_count : Z;
  mst_flush_threshold : Z;
  mst_immutable_count : Z;
}.
Record CacheStats : Type := { cst_capacity : Z; cst_size : nat; cst_hit_count : Z; cst_miss_count : Z }.
Record GcStats : Type := { gst_pending_count : nat; gst_oldest_pending_age_secs : Z }.
Record CompactionStats : Type := { inflight_levels : nat }.
Record EngineStats : Type := {
  est_snapshot_id : Z;
  est_current_seq : Z;
  est_levels : list LevelStats;
  est_memtable : MemtableStats;
  est_cache : CacheStats;
  est_gc : GcStats;
  est_compaction : CompactionStats;
}.

Definition file_stats (f : DataFileMeta) : FileStats :=
  {| fst_path := path f; fst_file_size := file_size (meta f); fst_num_rows := num_rows (meta f);
     fst_seq_range := (seq_min (meta f), seq_max (meta f)); fst_has_dv := bool_decide (is_Some (dv_path f));
     fst_dv := match dv_path f, dv_offset f, dv_length f with
               | Some p, Some o, Some l => Some {| dvs_path := p; dvs_offset := o; dvs_length := l |}
               | _, _, _ => None
               end |}.

Definition level_stats (v : Version) (l : Z) : list LevelStats :=
  match files_at v l with
  | [] => []
  | files =>
      [{| lst_level := l; lst_file_count := length files; lst_total_bytes := level_bytes v l;
          lst_total_rows := wrap 64 (foldr Z.add 0 (map (fun f => num_rows (meta f)) files));
          lst_files := map file_stats files |}]
  end.

Section open.
Context (crc32 : bytes -> Z) {S M C : Type}.
Context `{!Prost, !ManifestJson, !SchemaJson, !WalSink S, !FileSystem S, !SkipMap M, !LruCache C}.
Context (read_dir : gmap string S -> list (string * S)).
Implicit Types e : Engine S M C.

(** ** Opening *)
Fixpoint replay (bs : list WriteBatch) (mm : MemtableManager M) : res (MemtableManager M) :=
  match bs with
  | [] => Ok mm
  | b :: bs => let '(mm, r) := mm_apply_batch b mm in _ ← r; replay bs mm
  end.

(** Recovery is skipped by a reader whose log directory does not exist. *)
Definition recover_logs (read_only : bool) (wal_dir : option (gmap string S)) : res (list WriteBatch * SeqNum * Z) :=
  match read_only, wal_dir with
  | true, None => Ok ([], 0, 0)
  | _, d => recover_from_dir crc32 read_dir (default ∅ d)
  end.

(** The new log, with the older ones registered for collection. *)
Definition open_logs (read_only : bool) (wal_dir : option (gmap string S)) (max_seq : SeqNum) (max_log : Z)
    : res (WalManager S) :=
  let next := wrap 64 (max_log + 1) in
  m ← wal_open (default ∅ wal_dir) next;
  Ok (if read_only then m
      else foldl (fun m x => if x.1 <? next then register_closed_log x.1 max_seq m else m) m
             (wal_files_in_dir read_dir (dir m))).

Definition open_cache (capacity : Z) : res (option (RowCache C)) :=
  if 0 <? capacity then c ← cache_new capacity; Ok (Some c) else Ok None.

Definition engine_open (cfg : EngineConfig) (s : TableSchema) (wal_dir : option (gmap string S)) (uuid : string)
    (now_ms : Z) : io (res (Engine S M C)) :=
  let '(s, valid) := validate s in
  mret valid ;?
  recovered <-? mret (recover_logs (cfg_read_only cfg) wal_dir);
  let '(batches, wal_max_seq, max_log) := recovered in
  cat <-? catalog_open s uuid now_ms;
  let version := to_version (cat_current cat) s in
  let init_seq := wrap 64 (Z.max wal_max_seq (version_max_seq version) + 1) in
  mm <-? mret (replay batches (mm_new init_seq (memtable_size_bytes cfg) (max_immutable_count cfg)));
  w <-? mret (open_logs (cfg_read_only cfg) wal_dir wal_max_seq max_log);
  cache <-? mret (open_cache (row_cache_capacity cfg));
  mret (Ok {| eg_config := cfg; eg_schema := s; eg_global := GlobalSeq.new init_seq;
              eg_visible := GlobalSeq.new (sat_sub init_seq 1); eg_wal := w; eg_memtable := mm;
              eg_version := vs_new version; eg_catalog := cat; eg_cache := cache; eg_compacting := ∅;
              eg_pending := []; eg_live := ∅; eg_read_only := cfg_read_only cfg; eg_closed := false |}).

(** ** Refreshing a reader *)
Fixpoint check_files (fs : list DataFileMeta) : io (res unit) :=
  match fs with
  | [] => mret (Ok tt)
  | f :: fs =>
      there ← io_exists (split_path (path f));
      if negb there then mret (Err (ObjectStore "refresh: referenced data file missing"))
      else
        (match dv_path f with
         | Some p =>
             there ← io_exists (split_path p);
             mret (if (there : bool) then Ok tt else Err (ObjectStore "refresh: referenced puffin file missing"))
         | None => mret (Ok tt)
         end) ;? check_files fs
  end.

Definition set_catalog (cat : IcebergCatalog) e : Engine S M C :=
  {| eg_config := eg_config e; eg_schema := eg_schema e; eg_global := eg_global e; eg_visible := eg_visible e;
     eg_wal := eg_wal e; eg_memtable := eg_memtable e; eg_version := eg_version e; eg_catalog := cat;
     eg_cache := eg_cache e; eg_compacting := eg_compacting e; eg_pending := eg_pending e; eg_live := eg_live e;
     eg_read_only := eg_read_only e; eg_closed := eg_closed e |}.

Definition set_version (v : Version) e : Engine S M C :=
  {| eg_config := eg_config e; eg_schema := eg_schema e; eg_global := eg_global e; eg_visible := eg_visible e;
     eg_wal := eg_wal e; eg_memtable := eg_memtable e; eg_version := vs_install v (eg_version e);
     eg_catalog := eg_catalog e; eg_cache := eg_cache e; eg_compacting := eg_compacting e;
     eg_pending := eg_pending e; eg_live := eg_live e; eg_read_only := eg_read_only e; eg_closed := eg_closed e |}.

(** The steps after the files were found: the frontiers, the version, the
    cache. *)
Definition install_refreshed (v : Version) e : Engine S M C :=
  let new_max_seq := version_max_seq v in
  let e := if 0 <? new_max_seq then
             set_global (GlobalSeq.set_at_least (wrap 64 (new_max_seq + 1)) (eg_global e))
               (set_visible (GlobalSeq.set_at_least new_max_seq (eg_visible e)) e)
           else e in
  let e := set_version v e in
  set_row_cache (cache_clear <$> eg_cache e) e.

Definition eng_refresh e : io (Engine S M C * res unit) :=
  r ← refresh (eg_schema e);
  match r with
  | Ok (cat, v) =>
      let e := set_catalog cat e in
      r ← check_files (version_files v);
      match r with
      | Ok _ => mret (install_refreshed v e, Ok tt)
      | r => mret (e, r)
      end
  | Err x => mret (e, Err x)
  | Panic => mret (e, Panic)
  end.

(** ** Statistics *)

(** When the oldest queued file became obsolete. *)
Definition pending_oldest e : option Z :=
  match map obsoleted_at (eg_pending e) with
  | [] => None
  | t :: ts => Some (foldr Z.min t ts)
  end.

Definition eng_stats (now : Z) e : EngineStats :=
  let v := vs_current (eg_version e) in
  {| est_snapshot_id := snapshot_id v; est_current_seq := GlobalSeq.current (eg_global e);
     est_levels := concat (map (fun l => level_stats v (Z.of_nat l)) (List.seq 0 (Datatypes.S (Z.to_nat (max_level v)))));
     est_memtable := {| mst_active_size_bytes := m_size_bytes (active (eg_memtable e));
                        mst_active_entry_count := sl_entry_count (skiplist (active (eg_memtable e)));
                        mst_flush_threshold := mm_flush_threshold (eg_memtable e);
                        mst_immutable_count := immutable_count (eg_memtable e) |};
     est_cache := match eg_cache e with
                  | Some c => {| cst_capacity := row_cache_capacity (eg_config e); cst_size := lru_len (inner c);
                                 cst_hit_count := hits c; cst_miss_count := misses c |}
                  | None => {| cst_capacity := 0; cst_size := 0; cst_hit_count := 0; cst_miss_count := 0 |}
                  end;
     est_gc := {| gst_pending_count := length (eg_pending e);
                  gst_oldest_pending_age_secs := match pending_oldest e with Some t => now - t | None => 0 end |};
     est_compaction := {| inflight_levels := size (eg_compacting e) |} |}.
End open.

(** ** What an opened engine holds *)

(** The versions of a list of batches. *)
Definition log_versions (bs : list WriteBatch) : list (VersionOf bytes) := concat (map batch_versions bs).

(** Replaying batches into one table. *)
Definition replayed (bs : list WriteBatch) (acc : list (VersionOf bytes)) : list (VersionOf bytes) :=
  foldl (fun vs b => rev (batch_versions b) ++ vs) acc bs.

Lemma elem_replayed bs acc x : x ∈ replayed bs acc <-> x ∈ log_versions bs \/ x ∈ acc.
Proof.
  unfold log_versions. revert acc. induction bs as [|b bs IH]; intros acc; cbn [replayed foldl map concat].
  { split; [by right|]. by intros [?%elem_of_nil|?]. }
  change (foldl _ (rev (batch_versions b) ++ acc) bs) with (replayed bs (rev (batch_versions b) ++ acc)).
  rewrite IH, !elem_of_app, (list_elem_of_In (rev _) x), <- in_rev, <- list_elem_of_In. tauto.
Qed.

Lemma a_run_replay bs t :
  a_run (map OpApply bs) [t] = [{| at_first := at_first t; at_versions := replayed bs (at_versions t) |}].
Proof.
  revert t. induction bs as [|b bs IH]; intros t; cbn [map a_run foldl a_exec a_apply]; [by destruct t|].
  exact (IH {| at_first := at_first t; at_versions := rev (batch_versions b) ++ at_versions t |}).
Qed.

Lemma replay_run {M} `{!SkipMap M} bs (mm mm' : MemtableManager M) :
  mm_run (map OpApply bs) mm = (mm', Ok tt) -> replay bs mm = Ok mm'.
Proof.
  revert mm. induction bs as [|b bs IH]; intros mm; cbn [map mm_run mm_exec replay]; [by intros [= ->]|].
  destruct (mm_apply_batch b mm) as [mm1 [full|x|]]; cbn; [apply IH|done..].
Qed.

Section recovery.
Context (xxh3_64 crc32 : bytes -> Z) {S F M C B : Type}.
Context `{AR : !Arrow, PF : !ParquetFile F, FC : !FooterCodec, SJ : !SchemaJson, RB : !Roaring B}.
Context `{PR : !Prost, MJ : !ManifestJson, WS : !WalSink S, FS : !FileSystem S, RFS : !ReliableFs S}.
Context `{SM : !SkipMap M, SML : !SkipMapLaws M, LC : !LruCache C, LCL : !LruCacheLaws C, RS : !RowSerde}.
Context (read_dir : gmap string S -> list (string * S)).
Context (files : string -> option F) (puffins : string -> option bytes).
Implicit Types (e : Engine S M C) (v : Version).
Local Abbreviation content_t := (DataFileMeta -> list (VersionOf (InternalKey * Row))).
Local Abbreviation view := (eview files puffins).
Local Abbreviation open := (engine_open crc32 (S := S) (M := M) (C := C) read_dir).

(** The files of a version as an engine without memtables reads them. *)
Definition disk_only (s : TableSchema) v : MeruEngine F M C :=
  {| en_schema := s; en_memtable := mm_new 0 0 0; en_cache := None; en_version := v; en_visible := 0;
     en_files := files; en_puffins := puffins |}.

Definition disk_rows v (content : content_t) : list (list (VersionOf Row)) :=
  map (map (vmap file_row)) (disk_layers v content).

(** What recovery needs: batches in ascending order over keys of the table,
    readable files, and a log that is nowhere older than the files. *)
Record Recoverable s v (content : content_t) (bs : list WriteBatch) (mx : Z) : Prop := {
  rc_batches : ops_ok (encoded_key s) 0 (map OpApply bs);
  rc_rows x : x ∈ log_versions bs -> v_op x = Put -> exists row, decode_row (v_val x) = Ok row;
  rc_max x : x ∈ log_versions bs -> v_seq x <= mx;
  rc_files l f : f ∈ files_at v l -> FileState xxh3_64 crc32 (B := B) (disk_only s v) f (content f);
  rc_levels l : 1 <= l -> level_ok (files_at v l) /\
    forall f x, f ∈ files_at v l -> x ∈ content f -> covers (v_key x) f = true;
  rc_seqs L x : L ∈ disk_rows v content -> x ∈ L -> v_seq x <= version_max_seq v;
  rc_shadow : ForallOrdPairs shadows (map (vmap mem_row) (log_versions bs) :: disk_rows v content);
  rc_room : 0 <= mx /\ 0 <= version_max_seq v /\ Z.max mx (version_max_seq v) + 1 < SEQNUM_MAX;
}.

Lemma FileState_view s v e f vs :
  eg_schema e = s -> FileState xxh3_64 crc32 (B := B) (disk_only s v) f vs -> FileState xxh3_64 crc32 (B := B) (view e) f vs.
Proof.
  intros Hs [(rd & dv & Ho & H) Hr]. split; [|exact Hr]. exists rd, dv. unfold open_file, load_dv in *.
  cbn [eview disk_only en_schema en_files en_puffins] in *. by rewrite Hs.
Qed.

Lemma ops_keys s bound bs x :
  ops_ok (encoded_key s) bound (map OpApply bs) -> x ∈ log_versions bs -> encoded_key s (v_key x).
Proof.
  unfold log_versions. revert bound. induction bs as [|b bs IH]; intros bound Hok Hx; [by apply elem_of_nil in Hx|].
  destruct Hok as (_ & _ & HK & Hok). cbn [map concat] in Hx. apply elem_of_app in Hx as [Hx|Hx]; [|by eapply IH].
  apply elem_record_versions in Hx as (i & r & Hi & _ & Hk & _). rewrite Hk. rewrite Forall_forall in HK.
  apply HK. by eapply list_elem_of_lookup_2.
Qed.

(** An engine over one table of replayed batches. *)
Lemma replayed_engine_ok s v (content : content_t) bs mx e first :
  Recoverable s v content bs mx -> eg_schema e = s -> vs_current (eg_version e) = v ->
  Forall2 (table_holds (encoded_key s)) (active (eg_memtable e) :: rev (immutable (eg_memtable e)))
    [{| at_first := first; at_versions := replayed bs [] |}] ->
  EngineOk xxh3_64 crc32 (B := B) (view e) [{| at_first := first; at_versions := replayed bs [] |}] content.
Proof.
  intros [R1 R2 R3 R4 R5 R6 R7 R8] Hs Hv HF.
  assert (Hin : forall x, x ∈ a_all [{| at_first := first; at_versions := replayed bs [] |}] <-> x ∈ log_versions bs).
  { intros x. unfold a_all. cbn [map concat at_versions]. rewrite app_nil_r, elem_replayed, elem_of_nil. tauto. }
  split; cbn [eview en_schema en_memtable en_version]; rewrite ?Hs, ?Hv.
  - done.
  - repeat constructor.
  - intros x Hx%Hin. split; [by apply R2|].
    destruct (ops_keys s 0 bs x R1 Hx) as (pk & Hpk & He). by eapply (decode_pk_total pk).
  - intros l f Hf. by eapply FileState_view, R4.
  - exact R5.
  - inversion R7 as [|? ? Hh Ht]; subst. unfold layers. cbn [eview en_version]. constructor; [|exact Ht].
    rewrite List.Forall_forall in Hh |- *. intros L HL x w Hx Hw Hk.
    apply list_elem_of_fmap in Hx as (x0 & -> & Hx0%Hin).
    destruct (Hh L HL (vmap mem_row x0) w) as [?|(y & Hy & ?)]; [by apply list_elem_of_fmap_2|done|done|by left|].
    right. exists y. split; [|done]. apply list_elem_of_fmap in Hy as (y0 & -> & Hy0).
    apply list_elem_of_fmap_2. by apply Hin.
Qed.
Lemma open_logs_ok ro wal mx lg : exists w, open_logs read_dir ro wal mx lg = Ok w.
Proof.
  unfold open_logs, wal_open. set (p := log_path (wrap 64 (lg + 1))).
  assert (exists f, create p (default ∅ wal !! p) = Ok f) as (f & ->); [|rewrite !Ok_bind; by eexists].
  destruct (default ∅ wal !! p) as [f0|]; [destruct (create_existing p f0) as (f & -> & _)|
    destruct (create_new p) as (f & -> & _)]; by eexists.
Qed.

Lemma open_cache_ok n : exists c, open_cache (C := C) n = Ok c /\
  match c with Some c => forall P, cached P c | None => True end.
Proof.
  unfold open_cache. destruct (Z.ltb_spec 0 n); [|by eexists]. unfold cache_new.
  destruct (Z.eqb_spec n 0) as [|Hn]; [lia|]. eexists. split; [reflexivity|]. cbn. intros P.
  apply (cached_new P n). unfold cache_new. by destruct (Z.eqb_spec n 0).
Qed.

Lemma engine_open_spec cfg s0 s wal bs mx lg uuid now d d' cat (content : content_t) :
  validate s0 = (s, Ok tt) -> recover_logs crc32 read_dir (cfg_read_only cfg) wal = Ok (bs, mx, lg) ->
  runs (catalog_open s uuid now) d d' (Ok cat) ->
  let v := to_version (cat_current cat) s in
  Recoverable s v content bs mx ->
  exists e ts, runs (open cfg s0 wal uuid now) d d' (Ok e) /\
    WriterOk xxh3_64 crc32 (B := B) files puffins e ts content /\ eg_schema e = s /\
    eg_version e = vs_new v /\ eg_read_only e = cfg_read_only cfg /\ eg_closed e = false /\
    GlobalSeq.counter (eg_visible e) = Z.max mx (version_max_seq v) /\ a_all ts = replayed bs [].
Proof.
  intros Hval Hrec Hcat v HR. pose proof HR as [R1 R2 R3 R4 R5 R6 R7 (H1 & H2 & H3)].
  pose proof SEQNUM_MAX_u64 as HM. set (init := Z.max mx (version_max_seq v) + 1) in *.
  assert (Hi : wrap 64 init = init) by (apply Z.mod_small; unfold u64_max in HM; lia).
  destruct (run_sim (encoded_key s) (encoded_key_prefix_free _) (map OpApply bs)
    (mm_new init (memtable_size_bytes cfg) (max_immutable_count cfg) : MemtableManager M) _ 0
    (mm_new_sim (encoded_key s) init _ _ 0) ltac:(lia) R1) as (mm & bound & Em & HF & Hse & _ & _).
  rewrite a_run_replay in HF. cbn [at_first at_versions] in HF.
  destruct (open_logs_ok (cfg_read_only cfg) wal mx lg) as (w & Ew).
  destruct (open_cache_ok (row_cache_capacity cfg)) as (c & Ec & Hc).
  set (e := {| eg_config := cfg; eg_schema := s; eg_global := GlobalSeq.new init;
     eg_visible := GlobalSeq.new (sat_sub init 1); eg_wal := w; eg_memtable := mm; eg_version := vs_new v;
     eg_catalog := cat; eg_cache := c; eg_compacting := ∅; eg_pending := []; eg_live := ∅;
     eg_read_only := cfg_read_only cfg; eg_closed := false |}).
  set (ts := [{| at_first := init; at_versions := replayed bs [] |}]).
  assert (HE : EngineOk xxh3_64 crc32 (B := B) (view e) ts content) by (by eapply replayed_engine_ok).
  assert (Hvis : sat_sub init 1 = init - 1) by (unfold sat_sub; lia).
  exists e, ts. split.
  { unfold engine_open. rewrite Hval. rewrite io_try_ok, Hrec, io_try_ok. eapply runs_try; [exact Hcat|]. fold v.
    fold init. rewrite Hi, (replay_run _ _ _ Em), io_try_ok, Ew, io_try_ok, Ec, io_try_ok. apply runs_ret. }
  split; [|cbn [e eg_schema eg_version eg_read_only eg_closed eg_visible GlobalSeq.counter GlobalSeq.new]; rewrite Hvis;
    split_and!; try done; [unfold init; lia|unfold a_all; cbn; by rewrite app_nil_r]].
  split.
  - exact HE.
  - unfold CacheOk. cbn [eview en_cache e eg_cache]. destruct c as [c|]; [|done]. apply Hc.
  - done.
  - cbn [e eg_visible GlobalSeq.counter GlobalSeq.new]. rewrite Hvis. intros x Hx.
    unfold all_versions in Hx. cbn [layers concat] in Hx. apply elem_of_app in Hx as [Hx|Hx].
    + apply list_elem_of_fmap in Hx as (y & -> & Hy). unfold a_all in Hy. cbn in Hy. rewrite app_nil_r in Hy.
      apply elem_replayed in Hy as [Hy|?%elem_of_nil]; [|done]. specialize (R3 y Hy). cbn. lia.
    + apply elem_of_concat in Hx as (L & HL & Hx). specialize (R6 L x HL Hx). unfold init. lia.
  - cbn [e eg_visible eg_global GlobalSeq.counter GlobalSeq.new]. rewrite Hvis. unfold init. lia.
Qed.
End recovery.
