(* ===== verification/Recovery.v ===== *)
(** * Acknowledged writes survive a reopen

    The write path of [Engine], the log directory of [WalManager] and the open
    of [EngineOpen] together: whatever was written since the last flush is in
    the log, so an engine opened on the directory that a crash left behind
    answers every lookup as the crashed one did. *)

From S2P Require Import Prelude Disk Sequence Schema Key RowCodec WalBatch WalLog WalManager Mvcc Memtable LsmVersion DeletionVector Manifest ManifestPb Catalog Picker Bloom KvIndex Arrow Codec FileReader Cache ReadPath Engine EngineOpen.
Local Open Scope Z_scope.

(** ** Batches and their versions *)
Lemma record_versions_canon sq rs : record_versions sq (map canon_record rs) = record_versions sq rs.
Proof. revert sq. induction rs as [|r rs IH]; intros sq; cbn; [done|]. by rewrite IH. Qed.

Lemma batch_versions_canon b : batch_versions (canon_batch b) = batch_versions b.
Proof. apply record_versions_canon. Qed.

Lemma log_versions_snoc bs b : log_versions (bs ++ [b]) = log_versions bs ++ batch_versions b.
Proof. unfold log_versions. rewrite map_app, concat_app. cbn. by rewrite app_nil_r. Qed.

Lemma version_below_last b x :
  x ∈ batch_versions b -> 0 <= sequence b -> sequence b + Z.of_nat (length (records b)) <= SEQNUM_MAX ->
  v_seq x <= last_seq b.
Proof.
  intros Hx H0 Hmax. pose proof SEQNUM_MAX_u64 as HM. apply record_versions_seqs in Hx. unfold last_seq.
  unfold wrap. rewrite Z.mod_small; [lia|]. unfold u64_max in HM. lia.
Qed.

Section order.
Context (K : bytes -> Prop).

Lemma ops_ok_snoc bound bs b c :
  ops_ok K bound (map OpApply bs) -> bound <= c ->
  (forall b', b' ∈ bs -> sequence b' + Z.of_nat (length (records b')) <= c) -> c <= sequence b ->
  sequence b + Z.of_nat (length (records b)) <= SEQNUM_MAX -> Forall (fun r => K (user_key r)) (records b) ->
  ops_ok K bound (map OpApply (bs ++ [b])).
Proof.
  intros Hok Hb Hbs Hc Hmax HK. revert bound Hok Hb. induction bs as [|b0 bs IH]; intros bound Hok Hb.
  { cbn. split_and!; [lia|done|done|done]. }
  cbn [map app ops_ok] in *. destruct Hok as (H1 & H2 & H3 & H4). split_and!; [done..|].
  apply IH; [|done|apply Hbs; left]. intros b' Hb'. apply Hbs. by right.
Qed.

Lemma ops_ok_batch bound bs b :
  ops_ok K bound (map OpApply bs) -> b ∈ bs -> 0 <= bound ->
  bound <= sequence b /\ sequence b + Z.of_nat (length (records b)) <= SEQNUM_MAX.
Proof.
  intros Hok Hb. revert bound Hok. induction Hb as [b bs|b b0 bs _ IH]; intros bound Hok H0; cbn [map ops_ok] in Hok;
    destruct Hok as (H1 & H2 & _ & H4); [done|]. destruct (IH _ H4); [lia|]. split; [lia|done].
Qed.
End order.

Section logged.
Context (xxh3_64 crc32 : bytes -> Z) (crc_range : forall l, (0 <= crc32 l < 2 ^ 32)).
Context {S F M C B : Type}.
Context `{AR : !Arrow, PF : !ParquetFile F, FC : !FooterCodec, SJ : !SchemaJson, RB : !Roaring B}.
Context `{PR : !Prost, MJ : !ManifestJson, WS : !WalSink S, FS : !FileSystem S, RSK : !ReliableSink S, RFS : !ReliableFs S}.
Context `{SM : !SkipMap M, SML : !SkipMapLaws M, LC : !LruCache C, LCL : !LruCacheLaws C, RS : !RowSerde, RSL : !RowSerdeLaws}.
Context (read_dir : gmap string S -> list (string * S)) (read_dir_perm : forall d, read_dir d ≡ₚ map_to_list d).
Context (files : string -> option F) (puffins : string -> option bytes).
Implicit Types (e : Engine S M C) (a : AWal) (v : Version).
Local Abbreviation content_t := (DataFileMeta -> list (VersionOf (InternalKey * Row))).
Local Abbreviation all e ts content := (all_versions (eview files puffins e) ts content).
Local Abbreviation counter e := (GlobalSeq.counter (eg_global e)).
Local Abbreviation visible e := (GlobalSeq.counter (eg_visible e)).
Local Abbreviation WriterOk := (WriterOk xxh3_64 crc32 (B := B) files puffins).
Local Abbreviation Refines := (WalManager.Refines crc32).
Local Abbreviation current e := (vs_current (eg_version e)).

(** What the log holds, as rows. *)
Definition log_rows a : list (VersionOf Row) := map (vmap mem_row) (log_versions (a_batches a)).

(** The log accounts for everything that is not in a data file, holds nothing
    that the store does not know or has not overtaken, and is nowhere older
    than the data files. *)
Record Logged e ts (content : content_t) a : Prop := {
  lg_refines : Refines (eg_wal e) a;
  lg_order : ops_ok (encoded_key (eg_schema e)) 0 (map OpApply (a_batches a));
  lg_below b : b ∈ a_batches a -> sequence b + Z.of_nat (length (records b)) <= counter e;
  lg_decodes x : x ∈ log_versions (a_batches a) -> v_op x = Put -> exists row, decode_row (v_val x) = Ok row;
  lg_shadow L : L ∈ disk_rows (current e) content -> shadows (log_rows a) L;
  lg_holds x : x ∈ all e ts content -> x ∈ log_rows a \/ exists L, L ∈ disk_rows (current e) content /\ x ∈ L;
  lg_known x : x ∈ log_rows a -> exists y, y ∈ all e ts content /\ v_key y = v_key x /\ (v_seq x < v_seq y \/ x = y);
  lg_consistent : consistent (log_rows a ++ all e ts content);
  lg_meta L x : L ∈ disk_rows (current e) content -> x ∈ L -> v_seq x <= version_max_seq (current e);
  lg_max : 0 <= version_max_seq (current e) <= visible e;
}.

(** ** Writing *)
Lemma write_ops_wal e a ops :
  Refines (eg_wal e) a -> sealed (active (eg_memtable e)) = false -> a_num a + 1 < 2 ^ 64 ->
  batch_wf (ops_batch (counter e) ops) -> counter e + Z.of_nat (length ops) < 2 ^ 64 ->
  exists a', Refines (eg_wal (write_ops crc32 e ops).1) a' /\
    a_batches a' = a_batches a ++ [canon_batch (ops_batch (counter e) ops)] /\
    is_ok (write_ops crc32 e ops).2 /\ a_num a' <= a_num a + 1.
Proof.
  intros HR Hse Hnum Hwf Hroom. unfold write_ops, log_and_apply, GlobalSeq.allocate_n. rewrite fold_ops_batch.
  cbn [set_global with_state eg_wal]. set (b := ops_batch (counter e) ops) in *.
  destruct (append_refines crc32 b (eg_wal e) a HR Hwf) as (w & -> & HR1).
  cbn [set_wal set_global with_state eg_memtable]. unfold mm_apply_batch, apply_batch. rewrite Hse.
  cbn [fst snd finish_write]. set (full := should_flush _).
  assert (Hb1 : a_batches (a_append b a) = a_batches a ++ [canon_batch b]).
  { unfold a_batches. cbn. by rewrite map_app, app_assoc. }
  destruct (full && _).
  - unfold rotate_logs. cbn [set_memtable set_row_cache set_visible set_wal set_global with_state eg_wal].
    destruct (rotate_refines crc32 crc_range w _ HR1 ltac:(cbn; lia)) as (w2 & -> & HR2). cbn [fst snd].
    exists (WalManager.a_rotate (a_append b a)). split; [exact HR2|].
    split; [|split; [by eexists|cbn; lia]].
    rewrite <- Hb1. unfold a_batches. cbn. rewrite map_app, concat_app. cbn. by rewrite !app_nil_r.
  - cbn [fst snd]. exists (a_append b a). split; [exact HR1|]. split; [done|]. split; [by eexists|cbn; lia].
Qed.

Lemma written_log_rows sq ops x :
  x ∈ map (vmap mem_row) (batch_versions (canon_batch (ops_batch sq ops))) <-> x ∈ written_rows sq ops.
Proof.
  rewrite batch_versions_canon. unfold written_rows. rewrite map_rev.
  by rewrite (list_elem_of_In (rev _)), <- in_rev, <- list_elem_of_In.
Qed.

Lemma written_unique sq ops x y :
  x ∈ written_rows sq ops -> y ∈ written_rows sq ops -> v_seq x = v_seq y -> x = y.
Proof.
  unfold written_rows. intros (x0 & -> & Hx)%list_elem_of_fmap (y0 & -> & Hy)%list_elem_of_fmap Hs.
  f_equal. apply list_elem_of_In, in_rev, list_elem_of_In, elem_record_versions in Hx as (i & r & Hi & Hsx & Hkx & Hox & Hvx).
  apply list_elem_of_In, in_rev, list_elem_of_In, elem_record_versions in Hy as (j & q & Hj & Hsy & Hky & Hoy & Hvy).
  cbn in Hs. assert (i = j) as -> by lia. rewrite Hi in Hj. injection Hj as ->.
  destruct x0, y0; cbn in *; congruence.
Qed.

Lemma log_rows_append a a' sq ops :
  a_batches a' = a_batches a ++ [canon_batch (ops_batch sq ops)] ->
  forall x, x ∈ log_rows a' <-> x ∈ log_rows a \/ x ∈ written_rows sq ops.
Proof.
  intros Ha x. unfold log_rows. by rewrite Ha, log_versions_snoc, map_app, elem_of_app, written_log_rows.
Qed.

Lemma write_ops_logged e ts (content : content_t) a ops :
  WriterOk e ts content -> Logged e ts content a -> Forall (op_ok e) ops -> ops <> [] ->
  counter e + Z.of_nat (length ops) <= SEQNUM_MAX -> batch_wf (ops_batch (counter e) ops) -> a_num a + 1 < 2 ^ 64 ->
  exists ts' a', WriterOk (write_ops crc32 e ops).1 ts' content /\ Logged (write_ops crc32 e ops).1 ts' content a' /\
    a_num a' <= a_num a + 1.
Proof.
  intros HW [G1 G2 G3 G4 G5 G6 G7 G8 G9 G10] Hops Hne Hroom Hwf Hnum.
  pose proof (wo_visible _ _ _ _ _ _ _ HW) as Hvis. pose proof SEQNUM_MAX_u64 as HM. unfold u64_max in HM.
  destruct (write_ops_wal e a ops G1 (wo_open _ _ _ _ _ _ _ HW) Hnum Hwf ltac:(lia)) as (a' & HR & Ha & Hok & Hn').
  destruct (write_ops_spec xxh3_64 crc32 files puffins e ts content ops HW Hops Hne Hroom)
    as (e' & r & ts' & E & Hev & HW' & Hc & Hr). rewrite E in HR, Hok |- *. cbn [fst snd] in *.
  destruct Hr as [[[] _]|(_ & Hv & Hall)]; [done|].
  destruct (evolved_fields _ _ Hev) as (Hs & Hver & _).
  pose proof (log_rows_append a a' _ _ Ha) as Hrows.
  assert (Hlt : forall x, x ∈ all e ts content -> v_seq x < counter e).
  { intros x Hx. pose proof (wo_seqs _ _ _ _ _ _ _ HW x Hx). lia. }
  assert (Hlog : forall x, x ∈ log_rows a -> v_seq x < counter e).
  { intros x Hx. destruct (G7 x Hx) as (y & Hy & _ & [?| ->]); [specialize (Hlt y Hy); lia|by apply Hlt]. }
  exists ts', a'. split; [done|]. split; [|done]. split; rewrite ?Hs, ?Hver, ?Ha, ?Hall, ?Hc.
  - done.
  - apply (ops_ok_snoc _ _ _ _ (counter e)); [done|lia|done|cbn; lia| |]; cbn [canon_batch ops_batch sequence records].
    + rewrite !length_map. lia.
    + apply Forall_map, Forall_map. eapply Forall_impl; [exact Hops|]. by intros op [? _].
  - intros b [Hb|Hb]%elem_of_app; [specialize (G3 b Hb); lia|]. apply list_elem_of_singleton in Hb as ->.
    cbn [canon_batch ops_batch sequence records]. rewrite !length_map. lia.
  - intros x. rewrite log_versions_snoc, elem_of_app, batch_versions_canon. intros [Hx|Hx] Ho; [by apply G4|].
    apply elem_record_versions in Hx as (i & r0 & Hi & _ & _ & Ho' & Hval). cbn [ops_batch records] in Hi.
    rewrite list_lookup_fmap in Hi. destruct (ops !! i) as [op|] eqn:Eo; [|done]. injection Hi as <-.
    rewrite Forall_forall in Hops. destruct (Hops op (list_elem_of_lookup_2 _ _ _ Eo)) as [_ Hrow].
    rewrite Hval. apply Hrow. cbn in Ho'. congruence.
  - intros L HL x w [Hx|Hx]%Hrows Hw Hk.
    + destruct (G5 L HL x w Hx Hw Hk) as [?|(y & Hy & ?)]; [by left|]. right. exists y. split; [|done]. apply Hrows. by left.
    + left. apply written_seqs in Hx. assert (v_seq w < counter e); [|lia]. specialize (G9 L w HL Hw). lia.
  - intros x [Hx|Hx]%elem_of_app; [left; apply Hrows; by right|].
    destruct (G6 x Hx) as [?|?]; [left; apply Hrows; by left|by right].
  - intros x [Hx|Hx]%Hrows.
    + destruct (G7 x Hx) as (y & Hy & ?). exists y. split; [apply elem_of_app; by right|done].
    + exists x. split; [apply elem_of_app; by left|]. split; [done|by right].
  - assert (Hsplit : forall x, x ∈ log_rows a' ++ written_rows (counter e) ops ++ all e ts content ->
      x ∈ written_rows (counter e) ops \/ (x ∈ log_rows a ++ all e ts content /\ v_seq x < counter e)).
    { intros x [[Hx|Hx]%Hrows|[Hx|Hx]%elem_of_app]%elem_of_app; [right| by left|by left|right].
      - split; [apply elem_of_app; by left|by apply Hlog].
      - split; [apply elem_of_app; by right|by apply Hlt]. }
    intros x y Hx%Hsplit Hy%Hsplit Hk Hsq.
    destruct Hx as [Hx|[Hx Hxs]], Hy as [Hy|[Hy Hys]]; try (pose proof (written_seqs _ _ _ Hx)); try (pose proof (written_seqs _ _ _ Hy)); try lia.
    + by eapply written_unique.
    + by apply G8.
  - done.
  - lia.
Qed.
Lemma looked_logged e e1 ts (content : content_t) a :
  Looked xxh3_64 crc32 (B := B) files puffins e e1 ts content -> eg_wal e1 = eg_wal e ->
  Logged e ts content a -> Logged e1 ts content a.
Proof.
  intros [L1 L2 L3 L4 L5 L6] Hw [G1 G2 G3 G4 G5 G6 G7 G8 G9 G10]. destruct (evolved_fields _ _ L1) as (Hs & Hver & _).
  split; rewrite ?Hw, ?Hs, ?Hver, ?L6, ?L3, ?L4; done.
Qed.

Lemma op_value_wal e m : eg_wal (op_value xxh3_64 crc32 (B := B) files puffins e m).1 = eg_wal e.
Proof.
  unfold op_value, pre_image, lookup_row. destruct (mu_op m); [|done].
  destruct (point_lookup _ _ _ _) as [en [[row|]|x|]]; done.
Qed.

Lemma encode_ops_wal ms : forall e acc, eg_wal (encode_ops xxh3_64 crc32 (B := B) files puffins e ms acc).1 = eg_wal e.
Proof.
  induction ms as [|m ms IH]; intros e acc; cbn [encode_ops]; [done|].
  destruct (encode_user_key _ _) as [uk|x|]; [|done..]. pose proof (op_value_wal e m) as Hw.
  destruct (op_value _ _ _ _ e m) as [e1 [v|x|]]; cbn [fst] in *; [by rewrite IH|done..].
Qed.

(** Logging operations that lookups on the same engine have encoded. *)
Lemma encoded_logged e e1 ts (content : content_t) a ms ops :
  Looked xxh3_64 crc32 (B := B) files puffins e e1 ts content -> eg_wal e1 = eg_wal e -> Logged e ts content a ->
  Forall mutation_wf ms -> ms <> [] -> Forall2 (encodes_to files puffins e ts content) ms ops ->
  Forall (fun op => Z.of_nat (length (eo_key op)) < 2 ^ 64 /\ Z.of_nat (length (eo_value op)) < 2 ^ 64) ops ->
  Z.of_nat (length ms) < 2 ^ 32 -> counter e + Z.of_nat (length ms) <= SEQNUM_MAX -> a_num a + 1 < 2 ^ 64 ->
  let e' := (write_ops crc32 e1 ops).1 in
  exists ts' a', WriterOk e' ts' content /\ Logged e' ts' content a' /\ a_num a' <= a_num a + 1 /\
    counter e' <= counter e + Z.of_nat (length ms) /\ eg_schema e' = eg_schema e /\ eg_version e' = eg_version e.
Proof.
  intros L Hw1 HG Hms Hne HF Hsz Hlen Hroom Hnum e'. subst e'. pose proof SEQNUM_MAX_u64 as HM. unfold u64_max in HM.
  pose proof (looked_logged e e1 ts content a L Hw1 HG) as HG1. pose proof (lk_ok _ _ _ _ _ _ _ _ L) as HW1.
  destruct (evolved_fields _ _ (lk_evolved _ _ _ _ _ _ _ _ L)) as (Hs1 & Hver1 & _).
  assert (Hc1 : counter e1 = counter e) by by rewrite (lk_global _ _ _ _ _ _ _ _ L).
  pose proof (wo_visible _ _ _ _ _ _ _ HW1) as Hvis.
  assert (Hok : Forall (op_ok e1) ops).
  { clear -HF Hms L Hs1. induction HF as [|m op ms ops (Hk & Ho & Hv) _ IH]; [constructor|]. apply Forall_cons in Hms as [Hm Hms].
    constructor; [|by apply IH]. destruct op as [k v o]. cbn in *. subst o.
    apply (value_ok_op files puffins e1 ts content m k v); [done|by rewrite Hs1|].
    unfold value_ok in *. by rewrite (lk_visible _ _ _ _ _ _ _ _ L), (lk_all _ _ _ _ _ _ _ _ L). }
  assert (Hn : length ops = length ms) by (symmetry; by eapply Forall2_length).
  assert (Hwf : batch_wf (ops_batch (counter e1) ops)).
  { split; [unfold in_u in *; cbn; lia|]. cbn [ops_batch records]. rewrite length_map. split; [lia|].
    apply Forall_fmap. eapply Forall_impl; [exact Hsz|]. intros op [H1 H2]. split; cbn; lia. }
  assert (Hone : ops <> []) by (intros ->; by destruct ms).
  destruct (write_ops_logged e1 ts content a ops HW1 HG1 Hok Hone ltac:(lia) Hwf Hnum) as (ts' & a' & HW' & HG' & Hn').
  destruct (write_ops_spec xxh3_64 crc32 files puffins e1 ts content ops HW1 Hok Hone ltac:(lia))
    as (e2 & r2 & _ & E2 & Hev2 & _ & Hc2 & _). rewrite E2 in HW', HG' |- *. cbn [fst] in *.
  destruct (evolved_fields _ _ Hev2) as (Hs2 & Hver2 & _).
  exists ts', a'. split_and!; [done|done|done|cbn in Hc2; lia|congruence|congruence].
Qed.

(** A mutation whose key and value fit the address space. *)
Definition fits e (m : Mutation) : Prop :=
  Forall FieldValue_wf (mu_pk m) /\
  forall uk (value : bytes), encode_user_key (mu_pk m) (eg_schema e) = Ok uk ->
    (op_value xxh3_64 crc32 (B := B) files puffins e m).2 = Ok value ->
    Z.of_nat (length uk) < 2 ^ 64 /\ Z.of_nat (length value) < 2 ^ 64.

(** A batch whose record count fits the [u32] of the log, of mutations that
    fit the address space. *)
Definition batch_fits e (ms : list Mutation) : Prop :=
  Forall mutation_wf ms /\ Z.of_nat (length ms) < 2 ^ 32 /\
  forall ops, (encode_ops xxh3_64 crc32 (B := B) files puffins e ms []).2 = Ok ops ->
    Forall (fun op => Z.of_nat (length (eo_key op)) < 2 ^ 64 /\ Z.of_nat (length (eo_value op)) < 2 ^ 64) ops.

(** What [n] operations leave of the engine's book-keeping. *)
Definition logged_after e (ts : list ATable) (content : content_t) a (n : nat) e' : Prop :=
  exists ts' a', WriterOk e' ts' content /\ Logged e' ts' content a' /\ a_num a' <= a_num a + Z.of_nat n /\
    counter e' <= counter e + Z.of_nat n /\ eg_schema e' = eg_schema e /\ eg_version e' = eg_version e.

Lemma logged_same e ts (content : content_t) a n : WriterOk e ts content -> Logged e ts content a -> logged_after e ts content a n e.
Proof. intros HW HG. exists ts, a. split_and!; try done; lia. Qed.

Lemma looked_after e e1 ts (content : content_t) a n : Looked xxh3_64 crc32 (B := B) files puffins e e1 ts content ->
  eg_wal e1 = eg_wal e -> Logged e ts content a -> logged_after e ts content a n e1.
Proof.
  intros L Hw HG. destruct (evolved_fields _ _ (lk_evolved _ _ _ _ _ _ _ _ L)) as (Hs & Hver & _).
  exists ts, a. split; [apply L|]. split; [by eapply looked_logged|]. split; [lia|].
  split; [rewrite (lk_global _ _ _ _ _ _ _ _ L); lia|done].
Qed.

Lemma write_internal_logged e ts (content : content_t) a pk row op :
  let m := {| mu_pk := pk; mu_row := row; mu_op := op |} in
  WriterOk e ts content -> Logged e ts content a -> fits e m -> counter e < SEQNUM_MAX -> a_num a + 1 < 2 ^ 64 ->
  logged_after e ts content a 1 (write_internal xxh3_64 crc32 (B := B) files puffins e pk row op).1.
Proof.
  intros m HW HG [Hpk Hfit] Hroom Hnum. pose proof (logged_same e ts content a 1 HW HG) as Hsame.
  pose proof (wo_visible _ _ _ _ _ _ _ HW) as Hvis.
  unfold write_internal. fold m. destruct (eg_closed e); [exact Hsame|]. destruct (parks e); [exact Hsame|].
  destruct (encode_user_key pk (eg_schema e)) as [uk|x|] eqn:Hk; [|exact Hsame..].
  destruct (op_value_spec xxh3_64 crc32 files puffins e ts content m uk HW Hpk Hk ltac:(lia)) as (e1 & r & Eo & L & Hv).
  pose proof (op_value_wal e m) as Hw1. specialize (Hfit uk). rewrite Eo in Hw1, Hfit |- *. cbn [fst snd] in Hw1, Hfit.
  destruct r as [v|x|]; cbn [fst]; [|by eapply looked_after..].
  pose proof (encoded_logged e e1 ts content a [m] [{| eo_key := uk; eo_value := v; eo_op := op |}] L Hw1 HG) as HL.
  cbv zeta in HL. specialize (HL ltac:(by constructor) ltac:(done) ltac:(by repeat constructor)
    ltac:(constructor; [by apply Hfit|constructor]) ltac:(cbn; lia) ltac:(cbn; lia) Hnum).
  destruct (write_ops _ _ _) as [e2 r2]. exact HL.
Qed.

Lemma write_batch_logged e ts (content : content_t) a ms :
  WriterOk e ts content -> Logged e ts content a -> batch_fits e ms ->
  counter e + Z.of_nat (length ms) <= SEQNUM_MAX -> a_num a + Z.of_nat (length ms) < 2 ^ 64 ->
  logged_after e ts content a (length ms) (write_batch xxh3_64 crc32 (B := B) files puffins e ms).1.
Proof.
  intros HW HG (Hms & Hlen & Hfit) Hroom Hnum. pose proof (logged_same e ts content a (length ms) HW HG) as Hsame.
  pose proof (wo_visible _ _ _ _ _ _ _ HW) as Hvis.
  unfold write_batch. destruct ms as [|m0 ms0] eqn:Ems; [exact Hsame|]. rewrite <- Ems in *.
  assert (Hne : ms <> []) by (by rewrite Ems). assert (Hpos : (0 < length ms)%nat) by (rewrite Ems; cbn; lia). clear Ems.
  destruct (eg_read_only e); [exact Hsame|]. destruct (eg_closed e); [exact Hsame|].
  destruct (validate_batch _ _); [|exact Hsame..]. destruct (parks e); [exact Hsame|].
  destruct (encode_ops_spec xxh3_64 crc32 files puffins e ts content ms [] HW ltac:(lia) Hms) as (e1 & r & Eo & L & Hr).
  pose proof (encode_ops_wal ms e []) as Hw1. rewrite Eo in Hw1, Hfit |- *. cbn [fst snd] in Hw1, Hfit.
  destruct r as [ops|x|]; cbn [fst]; [|by eapply looked_after..].
  destruct Hr as (new & Enew & HF). cbn [app] in Enew. subst new.
  destruct (encoded_logged e e1 ts content a ms ops L Hw1 HG Hms Hne HF (Hfit ops eq_refl) Hlen Hroom ltac:(lia))
    as (ts' & a' & H1 & H2 & H3 & H4 & H5 & H6).
  destruct (write_ops _ _ _) as [e2 r2]. exists ts', a'. cbn [fst] in *. split_and!; [done|done|lia|done|done|done].
Qed.

(** Puts, deletes and batches, whatever they answer; the number is that of the
    operations asked for. *)
Inductive write_step e : nat -> Engine S M C -> Prop :=
  | step_put pk row : fits e {| mu_pk := pk; mu_row := Some row; mu_op := Put |} ->
      write_step e 1 (eng_put xxh3_64 crc32 (B := B) files puffins e pk row).1
  | step_delete pk : fits e {| mu_pk := pk; mu_row := None; mu_op := Delete |} ->
      write_step e 1 (eng_delete xxh3_64 crc32 (B := B) files puffins e pk).1
  | step_batch ms : batch_fits e ms ->
      write_step e (length ms) (write_batch xxh3_64 crc32 (B := B) files puffins e ms).1.

Inductive write_steps : nat -> Engine S M C -> Engine S M C -> Prop :=
  | steps_none e : write_steps O e e
  | steps_more k n e e1 e2 : write_step e k e1 -> write_steps n e1 e2 -> write_steps (k + n) e e2.

Lemma write_step_logged k e e' ts (content : content_t) a :
  write_step e k e' -> WriterOk e ts content -> Logged e ts content a ->
  counter e + Z.of_nat k <= SEQNUM_MAX -> a_num a + Z.of_nat k < 2 ^ 64 -> logged_after e ts content a k e'.
Proof.
  intros Hstep HW HG Hc Hn. destruct Hstep as [pk row Hf|pk Hf|ms Hf].
  - pose proof (logged_same e ts content a 1 HW HG) as Hsame.
    unfold eng_put. destruct (eg_read_only e); [exact Hsame|]. destruct (Row_validate row _); [|exact Hsame..].
    apply write_internal_logged; try done; lia.
  - pose proof (logged_same e ts content a 1 HW HG) as Hsame.
    unfold eng_delete. destruct (eg_read_only e); [exact Hsame|]. apply write_internal_logged; try done; lia.
  - by apply write_batch_logged.
Qed.

Lemma write_steps_logged n e e' : write_steps n e e' -> forall ts (content : content_t) a,
  WriterOk e ts content -> Logged e ts content a -> counter e + Z.of_nat n <= SEQNUM_MAX -> a_num a + Z.of_nat n < 2 ^ 64 ->
  logged_after e ts content a n e'.
Proof.
  induction 1 as [e|k n e e1 e2 Hstep _ IH]; intros ts content a HW HG Hc Hn; [by apply logged_same|].
  destruct (write_step_logged k e e1 ts content a Hstep HW HG) as (ts1 & a1 & HW1 & HG1 & Hn1 & Hc1 & Hs1 & Hv1); [lia..|].
  destruct (IH ts1 content a1 HW1 HG1) as (ts2 & a2 & HW2 & HG2 & Hn2 & Hc2 & Hs2 & Hv2); [lia..|].
  exists ts2, a2. split_and!; [done|done|lia|lia|congruence|congruence].
Qed.

(** ** Reopening *)
Lemma newest_dominated (X Y : list (VersionOf Row)) k r r' :
  (forall x, x ∈ X -> x ∈ Y) ->
  (forall y, y ∈ Y -> exists x, x ∈ X /\ v_key x = v_key y /\ (v_seq y < v_seq x \/ y = x)) ->
  consistent Y -> (forall x, x ∈ X -> v_seq x <= r) -> (forall y, y ∈ Y -> v_seq y <= r') ->
  newest Y k r' = newest X k r.
Proof.
  intros Hsub Hdom Hc Hr Hr'. destruct (newest X k r) as [w|] eqn:E.
  - apply newest_is_newest in E as (Hw & [Hk _]%visible_spec & Hmax). apply newest_consistent; [done|].
    split; [by apply Hsub|]. split; [apply visible_spec; split; [done|by apply Hr', Hsub]|].
    intros y Hy [Hky _]%visible_spec. destruct (Hdom y Hy) as (x & Hx & Hkx & Hle).
    assert (v_seq x <= v_seq w). { apply Hmax; [done|]. apply visible_spec. split; [congruence|by apply Hr]. }
    destruct Hle as [?| ->]; lia.
  - apply newest_None. intros y Hy. apply not_true_is_false. intros [Hky _]%visible_spec.
    destruct (Hdom y Hy) as (x & Hx & Hkx & _). pose proof (proj1 (newest_None _ _ _) E x Hx) as Hn.
    apply not_true_iff_false in Hn. apply Hn, visible_spec. split; [congruence|by apply Hr].
Qed.

Lemma max_last_below a c :
  0 <= c < 2 ^ 64 -> (forall b, b ∈ a_batches a -> 0 <= sequence b /\ sequence b + Z.of_nat (length (records b)) <= c) ->
  0 <= max_last (a_batches a) <= c.
Proof.
  intros Hc. induction (a_batches a) as [|b bs IH]; intros Hb; cbn [max_last foldr]; [lia|].
  destruct (Hb b ltac:(left)) as [H0 H1]. assert (last_seq b <= c).
  { unfold last_seq, wrap. rewrite Z.mod_small by lia. lia. }
  assert (0 <= max_last bs <= c) by (apply IH; intros b' Hb'; apply Hb; by right). unfold max_last in *. lia.
Qed.

Lemma disk_in_all e ts (content : content_t) L x :
  L ∈ disk_rows (current e) content -> x ∈ L -> x ∈ all e ts content.
Proof. intros HL Hx. unfold all_versions. cbn [layers concat]. apply elem_of_app. right. apply elem_of_concat. eauto. Qed.

Lemma logged_recoverable e ts (content : content_t) a :
  WriterOk e ts content -> Logged e ts content a -> counter e + 1 < SEQNUM_MAX ->
  Recoverable xxh3_64 crc32 (M := M) (C := C) (B := B) files puffins (eg_schema e) (current e) content (a_batches a) (max_last (a_batches a)).
Proof.
  intros HW [G1 G2 G3 G4 G5 G6 G7 G8 G9 G10] Hroom. pose proof (wo_engine _ _ _ _ _ _ _ HW) as [E1 E2 E3 E4 E5 E6].
  pose proof (wo_visible _ _ _ _ _ _ _ HW) as Hvis. pose proof SEQNUM_MAX_u64 as HM. unfold u64_max in HM.
  assert (Hmax : 0 <= max_last (a_batches a) <= counter e).
  { apply max_last_below; [lia|]. intros b Hb. split; [|by apply G3].
    by destruct (ops_ok_batch _ _ _ _ G2 Hb ltac:(lia)). }
  split.
  - done.
  - done.
  - intros x Hx. unfold log_versions in Hx. apply elem_of_concat in Hx as (l & Hl & Hx).
    apply list_elem_of_fmap in Hl as (b & -> & Hb). pose proof (max_last_ge (a_batches a)) as HF.
    rewrite Forall_forall in HF. specialize (HF b Hb). destruct (ops_ok_batch _ _ _ _ G2 Hb ltac:(lia)).
    pose proof (version_below_last b x Hx ltac:(lia) ltac:(lia)). lia.
  - intros l f Hf. destruct (E4 l f Hf) as [(rd & dv & Ho & H) Hr]. split; [|exact Hr]. exists rd, dv.
    unfold open_file, load_dv in *. done.
  - exact E5.
  - exact G9.
  - inversion E6 as [|? ? _ Ht]; subst. constructor; [|exact Ht]. apply List.Forall_forall. intros L HL.
    apply G5. by apply list_elem_of_In.
  - lia.
Qed.

(** What recovery needs of a version it needs of the same version without the
    statistics of its columns. *)
Lemma disk_layers_without_stats v (content : content_t) : (forall f, content (file_without_stats f) = content f) ->
  disk_layers (without_stats v) content = disk_layers v content.
Proof.
  intros Hc. assert (Hm : forall l, map content (files_at (without_stats v) l) = map content (files_at v l)).
  { intros l. rewrite files_without_stats, map_map. by apply map_ext. }
  unfold disk_layers, lower_levels, level_versions. rewrite max_level_without_stats, Hm. f_equal. apply map_ext. intros l. by rewrite Hm.
Qed.

Lemma max_seq_without_stats v : version_max_seq (without_stats v) = version_max_seq v.
Proof.
  unfold version_max_seq, version_files, without_stats. cbn [levels]. f_equal. rewrite map_to_list_fmap.
  induction (map_to_list (levels v)) as [|[l fs] xs IH]; [done|]. cbn. rewrite !map_app, IH. f_equal. rewrite map_map. by apply map_ext.
Qed.

Lemma recoverable_without_stats s v (content : content_t) bs mx : (forall f, content (file_without_stats f) = content f) ->
  Recoverable xxh3_64 crc32 (M := M) (C := C) (B := B) files puffins s v content bs mx ->
  Recoverable xxh3_64 crc32 (M := M) (C := C) (B := B) files puffins s (without_stats v) content bs mx.
Proof.
  intros Hc [R1 R2 R3 R4 R5 R6 R7 R8]. split; try done.
  - intros l f Hf. rewrite files_without_stats in Hf. apply list_elem_of_fmap in Hf as (g & -> & Hg).
    destruct (R4 l g Hg) as [Ho Hr]. by split; rewrite Hc.
  - intros l Hl. destruct (R5 l Hl) as [Ho Hcov]. rewrite files_without_stats. split; [by apply level_ok_without_stats|].
    intros f x (g & -> & Hg)%list_elem_of_fmap Hx. rewrite Hc in Hx. exact (Hcov g x Hg Hx).
  - intros L x. unfold disk_rows. rewrite disk_layers_without_stats, max_seq_without_stats by done. apply R6.
  - unfold disk_rows. by rewrite disk_layers_without_stats.
  - by rewrite max_seq_without_stats.
Qed.

Lemma reopen_reads e ts (content : content_t) a cfg uuid now d d' cat :
  WriterOk e ts content -> Logged e ts content a -> counter e + 1 < SEQNUM_MAX ->
  validate (eg_schema e) = (eg_schema e, Ok tt) ->
  runs (catalog_open (eg_schema e) uuid now) d d' (Ok cat) -> to_version (cat_current cat) (eg_schema e) = without_stats (current e) ->
  (forall f, content (file_without_stats f) = content f) ->
  exists e' ts', runs (engine_open crc32 (M := M) (C := C) read_dir cfg (eg_schema e) (Some (dir (eg_wal e))) uuid now) d d' (Ok e') /\
    WriterOk e' ts' content /\ eg_schema e' = eg_schema e /\ visible e' <= SEQNUM_MAX /\
    forall k, newest (all e' ts' content) k (visible e') = newest (all e ts content) k (visible e).
Proof.
  intros HW HG Hroom Hval Hcat Hver Hcont. pose proof (logged_recoverable e ts content a HW HG Hroom) as HR.
  assert (Hrec : recover_logs crc32 read_dir (cfg_read_only cfg) (Some (dir (eg_wal e)))
    = Ok (a_batches a, max_last (a_batches a), a_num a)).
  { unfold recover_logs. destruct (cfg_read_only cfg); by apply recover_refines, (lg_refines _ _ _ _ HG). }
  apply recoverable_without_stats in HR; [|done]. rewrite <- Hver in HR.
  destruct (engine_open_spec xxh3_64 crc32 read_dir files puffins cfg (eg_schema e) (eg_schema e) _ _ _ _ uuid now d d' cat
    content Hval Hrec Hcat HR) as (e' & ts' & Hrun & HW' & Hs' & Hv' & _ & _ & Hvis' & Hts).
  exists e', ts'. split; [done|]. split; [done|]. split; [done|].
  split; [pose proof (rc_room _ _ _ _ _ _ _ _ _ HR); lia|]. intros k.
  assert (Hcur : disk_layers (current e') content = disk_layers (current e) content).
  { rewrite Hv'. cbn [vs_new vs_current]. by rewrite Hver, disk_layers_without_stats. }
  assert (Hin : forall x, x ∈ all e' ts' content <-> x ∈ log_rows a \/ exists L, L ∈ disk_rows (current e) content /\ x ∈ L).
  { intros x. unfold all_versions. cbn [layers concat eview en_version]. rewrite Hcur, elem_of_app, elem_of_concat, Hts.
    unfold log_rows. rewrite !list_elem_of_fmap. setoid_rewrite elem_replayed. setoid_rewrite elem_of_nil. split.
    - intros [(y & -> & [Hy|[]])|(L & HL & Hx)]; [left; by exists y|right; by exists L].
    - intros [(y & -> & Hy)|(L & HL & Hx)]; [left; exists y; by split; [|left]|right; by exists L]. }
  apply newest_dominated.
  - intros x Hx. apply Hin. by apply (lg_holds _ _ _ _ HG).
  - intros y [Hy|(L & HL & Hy)]%Hin.
    + by apply (lg_known _ _ _ _ HG).
    + exists y. split; [by eapply disk_in_all|]. split; [done|by right].
  - intros x y Hx%Hin Hy%Hin. apply (lg_consistent _ _ _ _ HG); apply elem_of_app.
    + destruct Hx as [?|(L & HL & Hx)]; [by left|right; by eapply disk_in_all].
    + destruct Hy as [?|(L & HL & Hy)]; [by left|right; by eapply disk_in_all].
  - apply HW.
  - apply HW'.
Qed.
End logged.

(** ** Properties *)


(** ** A new engine on an empty disk *)
Definition ex_schema : TableSchema := (validate example_schema).1.
Definition ex_catalog : IcebergCatalog :=
  {| cat_current := manifest_empty_with_uuid ex_schema "t" 0; cat_next_version := 1 |}.
Definition ex_empty : Disk := {| inodes := ∅; dirs := ∅; next_ino := 0 |}.
Definition ex_new : Engine bytes (list (bytes * EntryValue)) ListLru :=
  {| eg_config := default_config; eg_schema := ex_schema; eg_global := GlobalSeq.new 1; eg_visible := GlobalSeq.new 0;
     eg_wal := ex_m0; eg_memtable := mm_new 1 (memtable_size_bytes default_config) 4;
     eg_version := vs_new (to_version (cat_current ex_catalog) ex_schema); eg_catalog := ex_catalog; eg_cache := None;
     eg_compacting := ∅; eg_pending := []; eg_live := ∅; eg_read_only := false; eg_closed := false |}.

Definition ex_no_files (p : string) : option ListFile := None.
Definition ex_no_puffins (p : string) : option bytes := None.
Definition ex_none (f : DataFileMeta) : list (VersionOf (InternalKey * Row)) := [].

Lemma ex_new_files l : files_at (vs_current (eg_version ex_new)) l = [].
Proof. vm_compute. by destruct l. Qed.

Lemma ex_recoverable :
  Recoverable (fun _ => 0) example_crc (M := list (bytes * EntryValue)) (C := ListLru) (B := gset Z)
    ex_no_files ex_no_puffins ex_schema (vs_current (eg_version ex_new)) ex_none [] 0.
Proof.
  split.
  - exact I.
  - by intros x ?%elem_of_nil.
  - by intros x ?%elem_of_nil.
  - intros l f. rewrite ex_new_files. by intros ?%elem_of_nil.
  - intros l _. rewrite ex_new_files. split; [by split; constructor|]. by intros f x ?%elem_of_nil.
  - by intros L x ?%elem_of_nil.
  - repeat constructor.
  - vm_compute. repeat split; discriminate.
Qed.

Lemma ex_new_ok : WriterOk (fun _ => 0) example_crc (B := gset Z) ex_no_files ex_no_puffins ex_new
  [{| at_first := 1; at_versions := replayed [] [] |}] ex_none.
Proof.
  split.
  - eapply replayed_engine_ok; [exact ex_recoverable|reflexivity|reflexivity|]. constructor; [|constructor].
    split; [reflexivity|]. apply Memtable.Holds_new, _.
  - exact I.
  - reflexivity.
  - by intros x ?%elem_of_nil.
  - cbn. lia.
Qed.

Lemma ex_new_logged : Logged example_crc ex_no_files ex_no_puffins ex_new
  [{| at_first := 1; at_versions := replayed [] [] |}] ex_none (a_init 1).
Proof.
  split.
  - destruct (open_refines example_crc 1 (S := bytes)) as (m & Em & HR); [unfold in_u; lia|].
    assert (m = ex_m0) as ->; [|exact HR]. vm_compute in Em. by injection Em as <-.
  - exact I.
  - by intros b ?%elem_of_nil.
  - by intros x ?%elem_of_nil.
  - by intros L ?%elem_of_nil.
  - by intros x ?%elem_of_nil.
  - by intros x ?%elem_of_nil.
  - by intros x y ?%elem_of_nil.
  - by intros L x ?%elem_of_nil.
  - vm_compute. split; discriminate.
Qed.

Definition ex_written := (eng_put (fun _ => 0) example_crc (B := gset Z) ex_no_files ex_no_puffins ex_new
  (example_pk 1 [b0]) (ex_r 1)).1.

(** After the put, one batch: another row and a tombstone for the first. *)
Definition ex_mutations : list Mutation :=
  [{| mu_pk := example_pk 2 [b0]; mu_row := Some (ex_r 9); mu_op := Put |};
   {| mu_pk := example_pk 1 [b0]; mu_row := None; mu_op := Delete |}].
Definition ex_batched := (write_batch (fun _ => 0) example_crc (B := gset Z) ex_no_files ex_no_puffins ex_written ex_mutations).1.


(** ** A reader that replayed the log and then refreshed *)
Definition read_only_config : EngineConfig :=
  {| memtable_size_bytes := memtable_size_bytes default_config; max_immutable_count := 4; row_cache_capacity := 0;
     level_target_bytes := []; l0_compaction_trigger := 4; l0_slowdown_trigger := 20; l0_stop_trigger := 36;
     bloom_bits_per_key := 10; max_compaction_bytes := 0; max_compaction_input_rows := 0; cfg_read_only := true;
     gc_grace_period_secs := 0; dual_format_max_level := None; enable_flush_dv_emission := false |}.

Definition ex_open_reader (wal_dir : option (gmap string bytes)) : io (res (Engine bytes (list (bytes * EntryValue)) ListLru)) :=
  engine_open example_crc ex_dir read_only_config ex_schema wal_dir "t" 0.

(** The primary flushed newer rows: a file of level 0 and the commit that adds
    it. *)
Definition ex_flushed_file : IcebergDataFile :=
  {| df_path := path ex_l0; df_file_size := 10; df_num_rows := num_rows (meta ex_l0); df_meta := meta ex_l0 |}.
Definition ex_flushed_disk : Disk :=
  write_file (split_path (path ex_l0)) [b0]
    (run (commit example_crc (B := gset Z) (J := unit) [] ex_catalog (add_file ex_flushed_file txn_new) ex_schema "x" 6) ex_empty).1.

Definition ex_read (o : Disk.outcome (res (Engine bytes (list (bytes * EntryValue)) ListLru))) : option (SeqNum * res (option Row)) :=
  match o with
  | Val (Ok e) => Some (GlobalSeq.current (eg_visible e),
      (lookup_row (fun _ => 0) example_crc (B := gset Z) (en_files ex_engine) ex_no_puffins e (example_pk 1 [b0])).2)
  | _ => None
  end.

Definition ex_refreshed (o : Disk.outcome (res (Engine bytes (list (bytes * EntryValue)) ListLru))) :=
  match o with
  | Val (Ok e) => match (run (eng_refresh e) ex_flushed_disk).2 with Val (e, Ok _) => Val (Ok e) | _ => Stopped end
  | _ => Stopped
  end.

(** A reader can serve a row that is older than its own snapshot.  A
    read-only engine opened over the primary's log replays it into a memtable
    that nothing ever drops, and a lookup stops at the memtable.  Here the log
    holds a row of sequence number 1 and the primary has since flushed one of
    sequence number 9: after a refresh the reader reports 9 as visible but still
    returns the row of 1, while a reader opened without the log returns the row
    of 9. *)
Theorem refresh_serves_stale_row :
  let reader := (run (ex_open_reader (Some (dir (eg_wal ex_written)))) ex_empty).2 in
  ex_read reader = Some (1, Ok (Some (ex_r 1))) /\
  ex_read (ex_refreshed reader) = Some (9, Ok (Some (ex_r 1))) /\
  ex_read (run (ex_open_reader None) ex_flushed_disk).2 = Some (9, Ok (Some (ex_r 9))).
Proof. split_and!; vm_compute; reflexivity. Qed.
