(* ===== verification/FlushFile.v ===== *)
(** * The parts of a flush

    Lemmas on what [run_flush] of [src/crates/merutable/src/engine/flush.rs]
    produces: the place of the new file in the version, the names of data files
    and deletion vectors, what a file shows once more of its rows are deleted,
    and the rows of a memtable as the new file gives them back. *)

From Stdlib Require Import Ascii.
From S2P Require Import Prelude Decimal Disk Sequence Schema Key RowCodec WalBatch WalLog WalManager Mvcc Memtable LsmVersion DeletionVector Manifest ManifestPb Catalog Commit CommitRun Picker Bloom KvIndex Arrow Codec FileReader FileWriter Cache ReadPath DvResolve Engine Gc Flush.
Local Open Scope Z_scope.

(** ** Sorting *)
Lemma sort_by_snoc {A} (leb : A -> A -> bool) xs n :
  (forall x, x ∈ xs -> leb x n = false) -> sort_by leb (xs ++ [n]) = n :: sort_by leb xs.
Proof.
  induction xs as [|x xs IH]; intros H; [done|]. cbn. change (foldr (insert_by leb) [] (xs ++ [n])) with (sort_by leb (xs ++ [n])).
  rewrite IH by (intros y Hy; apply H; by right). cbn. by rewrite H by left.
Qed.

(** ** The version after the commit of one new file *)
Section version.
Context {B : Type} `{!Roaring B}.
Implicit Types (t : SnapshotTransaction B) (f : DataFileMeta).

Lemma restamped_meta t locs f :
  path (restamped t locs f) = path f /\ seq_max (meta (restamped t locs f)) = seq_max (meta f) /\
  key_min (meta (restamped t locs f)) = key_min (meta f) /\ key_max (meta (restamped t locs f)) = key_max (meta f) /\
  num_rows (meta (restamped t locs f)) = num_rows (meta f) /\ level (meta (restamped t locs f)) = level (meta f) /\
  seq_min (meta (restamped t locs f)) = seq_min (meta f).
Proof. unfold restamped. by destruct (dvs t !! path f), (locs !! path f). Qed.

Lemma sort_level_restamped t locs l fs :
  sort_level l (map (restamped t locs) fs) = map (restamped t locs) (sort_level l fs).
Proof.
  unfold sort_level. destruct (l =? 0); [|destruct (1 <=? l); [|done]]; apply sort_by_map; intros f g.
  - unfold newest_first. destruct (restamped_meta t locs f) as (_ & -> & _), (restamped_meta t locs g) as (_ & -> & _). done.
  - unfold by_key_min. destruct (restamped_meta t locs f) as (_ & _ & -> & _), (restamped_meta t locs g) as (_ & _ & -> & _). done.
Qed.

(** The new file comes first at level 0; all others keep their places. *)
Lemma flushed_files now uuid m t sid locs m' s (f : IcebergDataFile) :
  Forall Manifest.rows_ok (m_entries m) -> add_ok f -> adds t = [f] -> removes t = [] -> level (df_meta f) = 0 ->
  (forall g, g ∈ files_at (to_version m s) 0 -> seq_max (meta g) < seq_max (df_meta f)) ->
  apply now uuid m t sid locs = Ok m' ->
  forall l, files_at (to_version m' s) l =
    (if l =? 0 then [as_file f] else []) ++ map (restamped t locs) (files_at (to_version m s) l).
Proof.
  intros Hr Hf Ha Hrm Hlv Hnew Hap l.
  destruct (commit_files now uuid m t sid locs m' l Hr) as [E _]; [by rewrite Ha; constructor|done|].
  rewrite Ha, Hrm in E. cbn [List.filter] in E. rewrite Hlv in E.
  assert (Efilter : base.filter (fun g => path g ∉ ([] : list string)) (live_at l (m_entries m)) = live_at l (m_entries m)).
  { apply list_filter_all. intros g _. by apply not_elem_of_nil. }
  rewrite Efilter in E. rewrite files_at_to_version, E.
  destruct (Z.eqb_spec l 0) as [->|Hl].
  - cbn [Z.eqb map app]. unfold sort_level. cbn [Z.eqb]. rewrite sort_by_snoc.
    + cbn. f_equal. rewrite files_at_to_version. apply (sort_level_restamped t locs 0).
    + intros g (h & -> & Hh)%list_elem_of_fmap. unfold newest_first.
      destruct (restamped_meta t locs h) as (_ & -> & _). cbn [meta as_file]. apply Z.leb_gt. apply Hnew. by rewrite (files_at_perm m s).
  - destruct (Z.eqb_spec 0 l); [lia|]. cbn [map app]. rewrite app_nil_r, sort_level_restamped. by rewrite <- (files_at_to_version m s).
Qed.
End version.

Lemma max_level_spec v : 0 <= max_level v /\ (forall l, is_Some (levels v !! l) -> l <= max_level v) /\
  (0 < max_level v -> is_Some (levels v !! max_level v)).
Proof.
  unfold max_level.
  assert (H : forall l, is_Some (levels v !! l) <-> l ∈ map fst (map_to_list (levels v))).
  { intros l. rewrite list_elem_of_In, in_map_iff. split.
    - intros [fs Hl]. exists (l, fs). split; [done|]. by apply list_elem_of_In, elem_of_map_to_list.
    - intros ([l' fs] & <- & Hin%list_elem_of_In%elem_of_map_to_list). by eexists. }
  setoid_rewrite H. clear H. induction (map fst (map_to_list (levels v))) as [|x xs (IH1 & IH2 & IH3)]; cbn [foldr].
  { split; [lia|]. split; [by intros l ?%elem_of_nil|lia]. }
  split; [lia|]. split.
  - intros l [->|Hl]%elem_of_cons; [lia|]. specialize (IH2 l Hl). lia.
  - intros Hpos. destruct (Z.le_gt_cases x (foldr Z.max 0 xs)).
    + rewrite Z.max_r by lia. right. apply IH3. lia.
    + rewrite Z.max_l by lia. left.
Qed.

Lemma elem_all_files v f : f ∈ all_files v <-> exists l, 0 <= l /\ f ∈ files_at v l.
Proof.
  unfold all_files. rewrite list_elem_of_In, in_concat. setoid_rewrite in_map_iff. setoid_rewrite in_seq.
  setoid_rewrite <- list_elem_of_In. destruct (max_level_spec v) as (M0 & M1 & _). split.
  - intros (fs & (n & <- & _) & Hf). exists (Z.of_nat n). split; [lia|done].
  - intros (l & Hl & Hf). exists (files_at v l). split; [|done]. exists (Z.to_nat l). split; [by rewrite Z2Nat.id|].
    assert (l <= max_level v). { apply M1. unfold files_at in Hf. destruct (levels v !! l); [by eexists|by apply elem_of_nil in Hf]. }
    lia.
Qed.

(** ** Paths of data files *)
Definition parquet_path (p : string) : Prop :=
  exists dir id, p = join_path (dir, String.append id ".parquet") /\ id <> ""%string /\ slash ∉ list_ascii_of_string id.

Lemma parquet_no_slash id : slash ∉ list_ascii_of_string id -> slash ∉ list_ascii_of_string (String.append id ".parquet").
Proof. intros H. rewrite append_ascii. rewrite not_elem_of_app. split; [done|]. by apply (bool_decide_unpack _). Qed.

Lemma split_parquet dir id :
  slash ∉ list_ascii_of_string id ->
  split_path (join_path (dir, String.append id ".parquet")) = (dir, String.append id ".parquet").
Proof. intros H. apply split_join. by apply parquet_no_slash. Qed.

Lemma file_stem_parquet id : id <> ""%string -> file_stem (String.append id ".parquet") = id.
Proof.
  intros Hid. unfold file_stem.
  assert (H : forall c, rsplit "."%char (list_ascii_of_string id ++ list_ascii_of_string ".parquet") = Some (list_ascii_of_string id, c) \/ c <> list_ascii_of_string "parquet").
  { intros c. destruct (decide (c = list_ascii_of_string "parquet")) as [->|]; [left|by right].
    change (list_ascii_of_string ".parquet") with ("."%char :: list_ascii_of_string "parquet").
    apply rsplit_app. by apply (bool_decide_unpack _). }
  destruct (H (list_ascii_of_string "parquet")) as [E|]; [|done]. clear H.
  destruct id as [|a id]; [done|]. rewrite append_ascii, E.
  replace (String.eqb (String.append (String a id) ".parquet") "") with false by done. cbn [orb].
  destruct (String.eqb_spec (String.append (String a id) ".parquet") "..") as [E1|_].
  - exfalso. revert E1. change ".."%string with (String.append "." "."). rewrite <- (append_assoc (String a id) ".parque" "t" : _ = String.append (String a id) ".parquet"). by apply suffix_neq.
  - cbn [list_ascii_of_string]. change (a :: list_ascii_of_string id) with (list_ascii_of_string (String a id)).
    apply string_of_list_ascii_of_string.
Qed.

Lemma puffin_of_parquet dir id sid :
  id <> ""%string -> slash ∉ list_ascii_of_string id ->
  puffin_path (join_path (dir, String.append id ".parquet")) sid
  = (dir, String.append id (String.append ".dv-" (String.append (show_string sid) ".puffin"))).
Proof.
  intros Hid Hs. unfold puffin_path. rewrite split_parquet by done. rewrite file_stem_parquet by done.
  destruct (String.eqb_spec (join_path (dir, String.append id ".parquet")) "") as [E|_]; [|done].
  exfalso. unfold join_path in E. cbn in E. destruct (String.eqb dir ""); [by destruct id|].
  by destruct dir.
Qed.

Lemma puffin_inj p q sid : parquet_path p -> parquet_path q -> puffin_path p sid = puffin_path q sid -> p = q.
Proof.
  intros (d1 & i1 & -> & H1 & S1) (d2 & i2 & -> & H2 & S2). rewrite !puffin_of_parquet by done.
  intros [= -> E]. apply append_inj_r in E as ->. done.
Qed.

Lemma ends_parquet dir id : ends (dir : string, String.append id ".parquet").2 "parquet".
Proof. exists (String.append id "."). by rewrite append_assoc. Qed.
#[export] Hint Resolve ends_parquet : paths.

(** Names a commit does not write. *)
Lemma split_path_parquet p q : parquet_path p -> parquet_path q -> split_path p = split_path q -> p = q.
Proof. intros (d1 & i1 & -> & _ & S1) (d2 & i2 & -> & _ & S2). rewrite !split_parquet by done. by intros ->. Qed.

Lemma parquet_not_committed p sid : parquet_path p ->
  (forall f, split_path p <> puffin_path f sid) /\ split_path p <> meta_pb sid /\ ~ GH (split_path p).
Proof.
  intros (dir & id & -> & _ & Hs). rewrite split_parquet by done.
  split; [intros f; solve_paths|]. split; [solve_paths|]. intros [E|E]; revert E; solve_paths.
Qed.

(** ** What the files show *)
Section shown.
Context (crc32 : bytes -> Z) {F M C B : Type}.
Context `{AR : !Arrow, PF : !ParquetFile F, FC : !FooterCodec, SJ : !SchemaJson, RB : !Roaring B, RL : !RoaringLaws B, RS : !RowSerde}.
Implicit Types (en : MeruEngine F M C) (f : DataFileMeta).

Definition shown en f : list (VersionOf (InternalKey * Row)) :=
  match open_file crc32 en f with
  | Ok (rd, dv) => live_versions (B := B) (rows_of rd) 0 dv
  | _ => []
  end.

Lemma open_same en en' f :
  en_schema en' = en_schema en -> en_files en' (path f) = en_files en (path f) ->
  (forall p, dv_path f = Some p -> en_puffins en' p = en_puffins en p) ->
  open_file crc32 (B := B) en' f = open_file crc32 en f.
Proof.
  intros Es Ef Ep. unfold open_file. rewrite Es, Ef.
  destruct (ok_or _ _) as [src|e|]; [|done..]. rewrite !Ok_bind. destruct (FileReader.open _ _) as [rd|e|]; [|done..].
  rewrite !Ok_bind. unfold load_dv. destruct (dv_path f) as [p|]; [|done].
  destruct (dv_offset f), (dv_length f); [|done..]. by rewrite Ep.
Qed.

Lemma elem_live_versions rows (dv : option B) x pos :
  x ∈ live_versions rows pos dv <->
  exists i y, rows !! i = Some y /\ row_deleted dv (pos + Z.of_nat i) = false /\ x = row_version y.
Proof.
  revert pos. induction rows as [|y rows IH]; intros pos.
  { split; [by intros ?%elem_of_nil|]. by intros (i & z & ? & _). }
  cbn [live_versions]. rewrite elem_of_app, IH. split.
  - intros [H|(i & z & Hi & Hd & ->)].
    + destruct (row_deleted dv pos) eqn:E; [by apply elem_of_nil in H|]. apply list_elem_of_singleton in H as ->.
      exists 0%nat, y. cbn. by rewrite Z.add_0_r.
    + exists (S i), z. cbn. split; [done|]. split; [|done]. by replace (pos + Z.of_nat (S i)) with (pos + 1 + Z.of_nat i) by lia.
  - intros ([|i] & z & Hi & Hd & ->); cbn in Hi.
    + injection Hi as ->. left. rewrite Z.add_0_r in Hd. rewrite Hd. by left.
    + right. exists i, z. split; [done|]. split; [|done]. by replace (pos + 1 + Z.of_nat i) with (pos + Z.of_nat (S i)) by lia.
Qed.

Lemma live_versions_none rows pos : live_versions rows pos (None : option B) = map row_version rows.
Proof. revert pos. induction rows as [|x rows IH]; intros pos; [done|]. cbn. by rewrite IH. Qed.

(** Deleting more rows shows fewer. *)
Lemma shown_masked rows (dv dv' : option B) (X : gset Z) :
  Z.of_nat (length rows) <= 2 ^ 32 ->
  (forall p, marked dv' p = marked dv p || bool_decide (p ∈ X)) ->
  (forall x, x ∈ live_versions rows 0 dv' -> x ∈ live_versions rows 0 dv) /\
  (forall x, x ∈ live_versions rows 0 dv -> x ∈ live_versions rows 0 dv' \/
     exists i y, rows !! i = Some y /\ Z.of_nat i ∈ X /\ x = row_version y).
Proof.
  intros Hlen Hm.
  assert (Hd : forall (d : option B) i y, rows !! i = Some y -> row_deleted d (0 + Z.of_nat i) = marked d (Z.of_nat i)).
  { intros d i y Hi%lookup_lt_Some. destruct d as [b|]; [|done]. cbn [row_deleted marked]. rewrite Z.add_0_l. destruct (Z.leb_spec (Z.of_nat i) u32_max); [done|].
    unfold u32_max in *. lia. }
  split; intros x (i & y & Hi & Hx & ->)%elem_live_versions; rewrite (Hd _ i y Hi) in Hx.
  - apply elem_live_versions. exists i, y. split; [done|]. split; [|done]. rewrite (Hd _ i y Hi).
    rewrite Hm in Hx. by apply orb_false_iff in Hx as [Hx _].
  - destruct (bool_decide (Z.of_nat i ∈ X)) eqn:E.
    + right. apply bool_decide_eq_true in E. eauto.
    + left. apply elem_live_versions. exists i, y. split; [done|]. split; [|done]. by rewrite (Hd _ i y Hi), Hm, Hx, E.
Qed.

(** The deletion vector of a live entry, as a reader loads it. *)
Lemma load_dv_stored d en sid (X : string -> gset Z) (ent : ManifestEntry) :
  0 <= sid -> in_i 64 sid -> (forall p, en_puffins en p = disk_puffins d p) ->
  dv_entry crc32 (B := B) d sid X ent ->
  exists dv : option B, load_dv crc32 en (to_data_file_meta ent) = Ok dv /\
    forall p, marked dv p = bool_decide (p ∈ X (me_path ent)).
Proof.
  intros Hs Hi Hp HE. unfold dv_entry in HE. unfold load_dv. cbn [to_data_file_meta dv_path dv_offset dv_length].
  destruct (me_dv_path ent) as [p|], (me_dv_offset ent) as [o|], (me_dv_length ent) as [l|]; try done.
  - destruct HE as (s & -> & Hq & (data & blob & dv & Hd & Ho & Hl & H64 & Hb & Hsl & Hf & HX)).
    rewrite Hp. unfold disk_puffins. rewrite split_puffin by (unfold in_i in *; lia). rewrite (durable_read _ _ _ Hd).
    cbn [ok_or]. rewrite Ok_bind. unfold wrap, u64_max in *. rewrite !Z.mod_small by lia.
    destruct (Z.ltb_spec (2 ^ 64 - 1) (o + l)); [lia|]. destruct (Z.ltb_spec (Z.of_nat (length data)) (o + l)); [lia|].
    replace (o + l - o) with l by lia. rewrite Hsl, Ok_bind, Hf, Ok_bind. exists (Some (bitmap dv)). split; [done|].
    intros x. cbn. by rewrite rb_set_contains, HX.
  - exists None. split; [done|]. intros p. cbn. rewrite HE. symmetry. apply bool_decide_eq_false_2. set_solver.
Qed.
End shown.

(** ** Rows of a memtable as rows of a file *)
Section rows.
Context `{RS : !RowSerde} (s : TableSchema).
Context (Hpk : Forall (fun i => (i < length (columns s))%nat) (primary_key s)).

(** A version the flush can write: a put of a valid row, or a tombstone with or
    without the row it deletes. *)
Definition storable_row (x : VersionOf bytes) : Prop :=
  match v_val x with
  | [] => v_op x = Delete
  | _ => exists row, decode_row (v_val x) = Ok row /\
      match v_op x with Put => Row_validate row s = Ok tt | Delete => row_fits s row end
  end.

Lemma ok_fst {A A'} (a v : A) (k n : A') : Ok (a, k) = Ok (v, n) -> v = a.
Proof. congruence. Qed.

Lemma decode_field_typed bs t v n : decode_field bs t = Ok (v, n) ->
  type_matches v t = true /\ fixed_len_matches v t = true.
Proof.
  intros H. destruct t; unfold decode_field in H; apply bind_Ok in H as (u & Hu & H).
  1: apply bind_Ok in H as (b & _ & H).
  6: destruct u as [w k].
  all: apply ok_fst in H; subst v; split; [exact eq_refl|].
  1-6: exact eq_refl.
  cbn [fixed_len_matches]. unfold ensure_len in Hu. destruct (Z.ltb_spec (Z.of_nat (length bs)) (fixed_len n0)); [done|].
  apply Z.eqb_eq. rewrite length_take. assert (0 <= fixed_len n0) by (unfold fixed_len, wrap; apply Z.mod_pos_bound; lia). lia.
Qed.

(** The key columns alone fit the schema. *)
Lemma set_fields_fit bs pk pos vals pos' fs :
  Forall (fun i => (i < length (columns s))%nat) pk -> length fs = length (columns s) ->
  decode_fields bs (columns s) pk pos = Ok (vals, pos') -> row_fits s (Build_Row fs) ->
  exists fs', set_fields fs pk vals = Ok fs' /\ row_fits s (Build_Row fs').
Proof.
  intros Hi. revert pos vals fs. induction Hi as [|i pk Hi _ IH]; intros pos vals fs Hlen Hd Hfit.
  { by exists fs. }
  cbn [decode_fields] in Hd.
  destruct (index (columns s) i) as [c|?|] eqn:Ec; [|done..]. rewrite Ok_bind in Hd.
  destruct (Nat.ltb _ _); [done|]. destruct (decode_field _ _) as [[v n]|?|] eqn:Ef; [|done..]. rewrite Ok_bind in Hd.
  destruct (decode_fields bs (columns s) pk _) as [[vs p]|?|] eqn:Ed; [|done..]. rewrite Ok_bind in Hd.
  injection Hd as <- <-. cbn [set_fields]. destruct (Nat.ltb_spec i (length fs)); [|lia].
  apply (IH _ _ _ ltac:(by rewrite length_insert) Ed).
  intros j c' v' Hc' Hv'. unfold Row_get in Hv'. cbn [fields] in Hv'. destruct (decide (i = j)) as [<-|Hne].
  - rewrite list_lookup_insert_eq in Hv' by done. cbn in Hv'. injection Hv' as <-.
    assert (c' = c) as ->. { unfold index in Ec. rewrite Hc' in Ec. cbn in Ec. by injection Ec. }
    by apply decode_field_typed in Ef.
  - rewrite list_lookup_insert_ne in Hv' by done. by apply (Hfit j).
Qed.

Lemma flush_row_spec x :
  encoded_key s (v_key x) -> seq_ok x -> storable_row x ->
  exists ik row, flush_row s (mem_entry_of x) = Ok (ik, row) /\ key_wf (encoded_key s) ik /\
    user_key_bytes ik = v_key x /\ seq ik = v_seq x /\ op_type ik = v_op x /\ row_fits s row /\
    (v_op x = Put -> decode_row (v_val x) = Ok row /\ Row_validate row s = Ok tt).
Proof.
  intros HK Hseq Hst. pose proof HK as (pk & W & Hk).
  destruct (decode_pk_total pk s s _ W ltac:(done) eq_refl Hk) as (vals & Hvals).
  unfold flush_row. cbn [mem_entry_of me_user_key me_seq me_entry].
  replace (e_op (entry_of x)) with (v_op x) by done. rewrite mem_ikey_eq by done. unfold ikey.
  rewrite decode_encode_raw by done. rewrite Hvals, !Ok_bind.
  set (ik := {| encoded := _; seq := _; op_type := _; pk_vals := vals |}).
  assert (Huk : user_key_bytes ik = v_key x).
  { unfold user_key_bytes, ik. cbn [encoded]. rewrite length_app, be_split_length.
    replace (length (v_key x) + 8 - 8)%nat with (length (v_key x)) by lia. apply take_app_length. }
  assert (Hwf : key_wf (encoded_key s) ik) by (unfold key_wf; by rewrite Huk).
  assert (Hrow : exists row, entry_row s ik (mem_entry_of x) = Ok row /\ row_fits s row /\
    (v_op x = Put -> decode_row (v_val x) = Ok row /\ Row_validate row s = Ok tt)).
  { unfold entry_row, storable_row in *. cbn [mem_entry_of me_entry]. replace (e_value (entry_of x)) with (v_val x) by done.
    destruct (v_val x) as [|b l] eqn:E.
    - rewrite Hst. unfold decode_pk_fields in Hvals. destruct (decode_fields _ _ _ 0) as [[vs p]|?|] eqn:Ed; [|done..].
      rewrite Ok_bind in Hvals. destruct (negb _); [done|]. injection Hvals as ->.
      destruct (set_fields_fit _ _ _ _ _ (repeat None (length (columns s))) Hpk ltac:(by rewrite repeat_length) Ed) as (fs & Hfs & Hfit).
      { intros i c v _ Hv. unfold Row_get in Hv. cbn in Hv. destruct (repeat None _ !! i) as [o|] eqn:Eo; [|done].
        apply list_elem_of_lookup_2, list_elem_of_In, repeat_spec in Eo. by subst. }
      exists (Build_Row fs). cbn [ik pk_vals]. by rewrite Hfs.
    - destruct Hst as (row & Hd & Hv). exists row. split; [done|]. destruct (v_op x); [by split|].
      split; [by apply validated_fits|done]. }
  destruct Hrow as (row & -> & Hf & Hp). exists ik, row. by rewrite Ok_bind.
Qed.
End rows.

(** The row a version is flushed as. *)
Definition flushed_row `{RS : !RowSerde} (s : TableSchema) (x : VersionOf bytes) : InternalKey * Row :=
  match flush_row s (mem_entry_of x) with
  | Ok r => r
  | _ => ({| encoded := []; seq := 0; op_type := Put; pk_vals := [] |}, {| fields := [] |})
  end.

Lemma flush_rows_map `{RS : !RowSerde} s out rows :
  flush_rows s (map mem_entry_of out) = Ok rows -> rows = map (flushed_row s) out.
Proof.
  revert rows. induction out as [|x out IH]; intros rows H; [by injection H as <-|]. cbn [map flush_rows] in H.
  apply bind_Ok in H as (r & Hr & (rs & Hrs & [= <-])%bind_Ok). cbn [map]. unfold flushed_row at 1. by rewrite Hr, (IH rs).
Qed.

(** *** Rows of files *)
Record stored_version (s : TableSchema) (x : VersionOf (InternalKey * Row)) : Prop := {
  sv_len : 0 < Z.of_nat (length (v_key x)) <= MAX_KEY_LEN - 8;
  sv_fits : row_fits s (v_val x).2;
  sv_valid : v_op x = Put -> Row_validate (v_val x).2 s = Ok tt;
}.

(** A schema whose rows can be written to files. *)
Record storable_schema (s : TableSchema) : Prop := {
  ss_key : Forall (fun i => (i < length (columns s))%nat) (primary_key s);
  ss_columns : Forall column_ok (columns s);
  ss_names : names_ok s;
  ss_json : json_schema s;
  ss_defaults : Forall (fun c => forall v, initial_default c = Some v ->
    type_matches v (col_type c) = true /\ fixed_len_matches v (col_type c) = true) (columns s);
}.

Lemma column_default_fits c : column_ok c ->
  type_matches (column_default (col_type c)) (col_type c) = true /\
  fixed_len_matches (column_default (col_type c)) (col_type c) = true.
Proof.
  unfold column_ok. destruct (col_type c) as [| | | | | |n]; try done. intros Hn. split; [done|]. cbn.
  rewrite repeat_length. apply Z.eqb_eq. rewrite Z2Nat.id; [done|]. unfold fixed_len, wrap. apply Z.mod_pos_bound. lia.
Qed.

Lemma stored_row_fits s fmt row : storable_schema s -> row_fits s row -> row_fits s (stored_row s s fmt row).
Proof.
  intros [_ Hc _ _ Hd] Hf i c v Hi. unfold row_fits in Hf. destruct fmt; unfold stored_row, Row_get; cbn [fields].
  - rewrite drop_all. cbn. rewrite app_nil_r, list_lookup_imap, Hi. cbn. unfold stored_cell.
    destruct (Row_get row i) as [w|] eqn:Ew; [intros [= <-]; by eapply Hf|].
    destruct (nullable c); [done|]. intros [= <-]. apply column_default_fits.
    rewrite Forall_forall in Hc. by eapply Hc, list_elem_of_lookup_2.
  - unfold pad_initial. cbn [fields]. rewrite lookup_app. destruct (fields row !! i) as [f|] eqn:Ef.
    + cbn. intros ->. eapply Hf; [done|]. unfold Row_get. by rewrite Ef.
    + apply lookup_ge_None in Ef. rewrite list_lookup_fmap, lookup_drop, Nat.add_comm, Nat.sub_add, Hi by done.
      cbn. rewrite Forall_forall in Hd. apply Hd. by eapply list_elem_of_lookup_2.
Qed.

Section table.
Context (xxh3_64 : bytes -> Z) (Hxxh : forall l, 0 <= xxh3_64 l < 2 ^ 64) {F : Type}.
Context `{AR : !Arrow, ARL : !ArrowLaws, PF : !ParquetFile F, PFL : !ParquetFileLaws F, FC : !FooterCodec, FCL : !FooterCodecLaws}.
Context `{SJ : !SchemaJson, SJL : !SchemaJsonLaws, RS : !RowSerde, RSL : !RowSerdeLaws}.
Context (Hpost : forall r, is_Some (postcard_to_vec r)).
Context (s : TableSchema) (Hschema : storable_schema s).
Let Hpk := ss_key s Hschema.
Let Hcols := ss_columns s Hschema.
Let Hnames := ss_names s Hschema.

Definition key_bytes (vs : list (VersionOf bytes)) : nat := foldr plus 0%nat (map (fun x => 36 + length (v_key x))%nat vs).

(** A table that fits a file: rows that can be written, short keys, and the
    limits of the filter, of the sparse index and of an Arrow column, whose
    bytes are counted by an [i32]. *)
Record Flushable (bits : Z) (vs : list (VersionOf bytes)) : Prop := {
  fl_rows x : x ∈ vs -> storable_row s x;
  fl_len x : x ∈ vs -> 0 < Z.of_nat (length (v_key x)) <= MAX_KEY_LEN - 8;
  fl_bits : 0 <= bits;
  fl_bloom : Z.max (Z.of_nat (length vs)) 1000 * bits < 2 ^ 40;
  fl_index : Z.of_nat (24 + key_bytes vs) < 2 ^ 32;
  fl_arrow : arrow_fits s Dual (map (flushed_row s) vs);
}.

Definition row_for (x : VersionOf bytes) (y : InternalKey * Row) : Prop :=
  key_wf (encoded_key s) y.1 /\ user_key_bytes y.1 = v_key x /\ seq y.1 = v_seq x /\ op_type y.1 = v_op x /\
  row_fits s y.2 /\ (v_op x = Put -> decode_row (v_val x) = Ok y.2 /\ Row_validate y.2 s = Ok tt).

Lemma flush_rows_spec out :
  (forall x, x ∈ out -> encoded_key s (v_key x) /\ seq_ok x /\ storable_row s x) ->
  exists rows, flush_rows s (map mem_entry_of out) = Ok rows /\ Forall2 row_for out rows.
Proof.
  induction out as [|x out IH]; intros H; [by exists []|].
  destruct (H x ltac:(left)) as (Hk & Hs & Hst). destruct (flush_row_spec s Hpk x Hk Hs Hst) as (ik & row & Hr & HF).
  destruct IH as (rows & Hrows & HF2); [intros y Hy; apply H; by right|].
  exists ((ik, row) :: rows). cbn [map flush_rows]. rewrite Hr, Ok_bind, Hrows, Ok_bind. split; [done|]. by constructor.
Qed.

Lemma sub_key_bytes out vs : out ⊆+ vs -> (length out <= length vs)%nat /\ (key_bytes out <= key_bytes vs)%nat.
Proof.
  intros H. split; [by apply submseteq_length|]. unfold key_bytes.
  induction H as [|x l1 l2 _ IH|x y l|x l1 l2 _ IH|l1 l2 l3 _ IH1 _ IH2]; cbn in *; lia.
Qed.

Lemma encoded_length x y : row_for x y -> length (encoded y.1) = (length (v_key x) + 8)%nat.
Proof. intros ((_ & _ & He) & Hu & _). by rewrite He, length_app, be_split_length, Hu. Qed.

Lemma index_bytes_eq out rows : Forall2 row_for out rows -> index_bytes rows = (24 + key_bytes out)%nat.
Proof.
  unfold index_bytes, key_bytes. induction 1 as [|x y out rows Hxy _ IH]; [done|].
  cbn [map foldr] in *. rewrite (encoded_length x y Hxy). lia.
Qed.

Lemma rows_writable bits vs out rows fmt :
  Flushable bits vs -> out ⊆+ vs -> out <> [] -> StronglySorted bytes_lt (map v_key out) ->
  Forall2 row_for out rows -> flush_rows s (map mem_entry_of out) = Ok rows -> Writable s fmt rows bits.
Proof.
  intros [Hr Hl Hb Hbl Hi Ha] Hsub Hne Hs HF Hfr. destruct (sub_key_bytes _ _ Hsub) as [L1 L2].
  assert (HR : forall y, y ∈ rows -> exists x, x ∈ vs /\ row_for x y).
  { intros y Hy. apply list_elem_of_lookup in Hy as [i Hy]. destruct (Forall2_lookup_r _ _ _ _ _ HF Hy) as (x & Hx & Hxy).
    exists x. split; [|done]. eapply elem_of_submseteq; [by eapply list_elem_of_lookup_2|done]. }
  split.
  - exact (ss_json s Hschema).
  - apply arrow_fits_dual. rewrite (flush_rows_map _ _ _ Hfr).
    eapply arrow_fits_sub; [|exact Ha]. change (flushed_row s <$> out ⊆+ flushed_row s <$> vs). by apply fmap_submseteq.
  - exact Hcols.
  - intros ->. by inversion HF; subst.
  - apply Forall_forall. intros y Hy. destruct (HR y Hy) as (x & _ & (_ & _ & _ & _ & Hf & _)). by split.
  - apply Forall_forall. intros y Hy. by destruct (HR y Hy) as (x & _ & (Hk & _)).
  - clear Hne L1 L2 Hsub Hfr. induction HF as [|x y out rows Hxy HF IH]; [constructor|]. cbn [map] in *.
    apply StronglySorted_inv in Hs as [Hs Hlt]. constructor; [apply IH; [done|intros z Hz; apply HR; by right]|].
    apply Forall_fmap, Forall_forall. intros z Hz. apply list_elem_of_lookup in Hz as [i Hz].
    destruct (Forall2_lookup_r _ _ _ _ _ HF Hz) as (w & Hw & Hwz).
    rewrite Forall_forall in Hlt. specialize (Hlt (v_key w)).
    apply (v_lt_iff (encoded_key s) (encoded_key_prefix_free s)).
    + split; [apply Hxy|]. by destruct Hxy as ((_ & ? & _) & _).
    + split; [apply Hwz|]. by destruct Hwz as ((_ & ? & _) & _).
    + left. cbn. destruct Hxy as (_ & -> & _), Hwz as (_ & -> & _). apply Hlt.
      apply list_elem_of_In, in_map, list_elem_of_In. by eapply list_elem_of_lookup_2.
  - rewrite <- (Forall2_length _ _ _ HF). nia.
  - apply Forall_forall. intros y Hy. destruct (HR y Hy) as (x & Hx & Hxy). rewrite (encoded_length x y Hxy).
    specialize (Hl x Hx). lia.
  - rewrite (index_bytes_eq out rows HF). lia.
Qed.

(** The rows as the reader gets them back. *)
Lemma read_back_shows fmt x y z : row_for x y -> read_back s s fmt y z ->
  vmap file_row (row_version z) = vmap mem_row x.
Proof.
  intros Hxy Hyz. pose proof Hxy as (Hk & Hu & Hs & Ho & _ & Hp).
  destruct (read_back_version s s fmt y z Hk Hyz) as (E1 & E2 & E3). destruct Hyz as [_ Hrow].
  unfold vmap, file_row, mem_row, row_version. cbn [v_key v_seq v_op v_val fst snd].
  assert (Eu : user_key_bytes z.1 = v_key x) by (rewrite <- Hu; unfold user_key_bytes; by rewrite E1).
  rewrite Eu, E2, Hs, E3, Ho. f_equal. destruct (v_op x); [done|]. cbn [live_val].
  destruct (Hp eq_refl) as [-> Hv]. rewrite Hrow, validated_stored by done. rewrite drop_all. cbn.
  rewrite app_nil_r. by destruct y.2.
Qed.

Lemma read_back_stored fmt x y z : row_for x y -> read_back s s fmt y z ->
  0 < Z.of_nat (length (v_key x)) <= MAX_KEY_LEN - 8 -> stored_version s (row_version z).
Proof.
  intros (Hk & Hu & _ & Ho & Hf & Hp) Hyz Hl. destruct (read_back_version s s fmt y z Hk Hyz) as (E1 & _ & E3). destruct Hyz as [_ Hrow].
  assert (Eu : user_key_bytes z.1 = v_key x) by (rewrite <- Hu; unfold user_key_bytes; by rewrite E1).
  split; cbn [row_version v_key v_val v_op]; [by rewrite Eu|rewrite Hrow; by apply stored_row_fits|].
  intros Eo. rewrite E3, Ho in Eo. destruct (Hp Eo) as [_ Hv]. rewrite Hrow, validated_stored by done.
  rewrite drop_all. cbn. rewrite app_nil_r. by destruct y.2.
Qed.

Lemma written_table bits vs out fmt lv :
  Flushable bits vs -> out ⊆+ vs -> out <> [] -> StronglySorted bytes_lt (map v_key out) ->
  (forall x, x ∈ out -> encoded_key s (v_key x) /\ seq_ok x) ->
  exists rows (f : F) bl m rd,
    flush_rows s (map mem_entry_of out) = Ok rows /\
    write_sorted_rows xxh3_64 rows s lv fmt bits = Ok (Some f, bl, m) /\
    length rows = length out /\
    FileReader.open f s = Ok rd /\ FileOk xxh3_64 (encoded_key s) rd /\
    map (fun z => vmap file_row (row_version z)) (rows_of rd) = map (vmap mem_row) out /\
    Forall (fun z => stored_version s (row_version z)) (rows_of rd).
Proof.
  intros HF Hsub Hne Hs Hout.
  destruct (flush_rows_spec out) as (rows & Hrows & HR).
  { intros x Hx. destruct (Hout x Hx). split_and!; [done..|]. apply (fl_rows _ _ HF). by eapply elem_of_submseteq. }
  assert (Hext : extends s s) by (split; [done|]; split; [done|exact Hpk]).
  destruct (write_sorted_rows_spec xxh3_64 Hxxh s s fmt lv rows bits
    (rows_writable bits vs out rows fmt HF Hsub Hne Hs HR Hrows) Hext Hnames) as (f & bl & stats & rd & Hw & Ho & Hok & Hback).
  exists rows, f, bl, (with_stats stats (file_meta_of rows lv fmt (pq_len f))), rd. split; [done|]. split; [exact Hw|]. split; [by rewrite (Forall2_length _ _ _ HR)|].
  split; [done|]. split; [done|]. split.
  2:{ apply Forall_forall. intros z Hz. apply list_elem_of_lookup in Hz as [i Hz].
      destruct (Forall2_lookup_r _ _ _ _ _ Hback Hz) as (y & Hy & Hyz), (Forall2_lookup_r _ _ _ _ _ HR Hy) as (x & Hx & Hxy).
      eapply read_back_stored; [exact Hxy|exact Hyz|]. apply (fl_len _ _ HF). eapply elem_of_submseteq; [|exact Hsub].
      by eapply list_elem_of_lookup_2. }
  clear -HR Hback. revert Hback. generalize (rows_of rd). induction HR as [|x y out rows Hxy _ IH]; intros zs Hz.
  { by inversion Hz. }
  inversion Hz as [|? z ? zs' Hyz Hz']; subst. cbn. f_equal; [by eapply read_back_shows|by apply IH].
Qed.
End table.

(** ** The deletion vectors of the transaction *)
Section dvs.
Context (crc32 : bytes -> Z) {F M C B : Type}.
Context `{AR : !Arrow, PF : !ParquetFile F, FC : !FooterCodec, SJ : !SchemaJson, RB : !Roaring B, RL : !RoaringLaws B, RS : !RowSerde}.

Lemma resolve_files_dom (en : MeruEngine F M C) keys lo hi fs out out' q :
  resolve_files crc32 (B := B) en keys lo hi fs out = Ok out' -> q ∈ dom out' ->
  q ∈ dom out \/ exists f, f ∈ fs /\ path f = q.
Proof.
  revert out. induction fs as [|f fs IH]; intros out H Hq; cbn [resolve_files] in H.
  { injection H as ->. by left. }
  assert (Hstep : forall o, resolve_files crc32 (B := B) en keys lo hi fs o = Ok out' -> dom o ⊆ dom out ∪ {[path f]} ->
            q ∈ dom out \/ exists f', f' ∈ f :: fs /\ path f' = q).
  { intros o Ho Hsub. destruct (IH o Ho Hq) as [Hd|(f' & Hf' & E)]; [|right; exists f'; split; [by right|done]].
    apply Hsub in Hd. apply elem_of_union in Hd as [? | ->%elem_of_singleton]; [by left|right; exists f; split; [left|done]]. }
  destruct (negb _); [by apply (Hstep out); [|set_solver]|]. apply bind_Ok in H as (bm & _ & H).
  apply (Hstep _ H). destruct bm as [bm|]; [|set_solver]. unfold add_positions. destruct (rb_is_empty bm); [set_solver|].
  rewrite dom_insert_L. set_solver.
Qed.

Lemma resolve_dom (en : MeruEngine F M C) v keys out q :
  resolve_dv_for_flush crc32 (B := B) en v keys = Ok out -> q ∈ dom out -> exists f, f ∈ all_files v /\ path f = q.
Proof.
  unfold resolve_dv_for_flush. destruct (head keys), (last keys); intros H Hq; try (injection H as <-; set_solver).
  by destruct (resolve_files_dom _ _ _ _ _ _ _ _ H Hq) as [?|?]; [set_solver|].
Qed.

Lemma dv_of_set (bm : B) : rb_set (bitmap (dv_of bm)) = rb_set bm.
Proof.
  unfold dv_of. assert (H : forall l dv, rb_set (bitmap (fold_left (fun dv pos => mark_deleted pos dv) l dv)) = list_to_set l ∪ rb_set (bitmap (B := B) dv)).
  { induction l as [|p l IH]; intros dv; cbn [fold_left list_to_set]; [set_solver|]. rewrite IH. cbn. rewrite rb_set_insert. set_solver. }
  rewrite H, rb_set_iter. cbn. rewrite rb_set_new. set_solver.
Qed.

Lemma add_dvs_spec (deltas : gmap string B) (t : SnapshotTransaction B) :
  dvs t = ∅ -> adds (add_dvs deltas t) = adds t /\ removes (add_dvs deltas t) = removes t /\
  dvs (add_dvs deltas t) = dv_of <$> deltas.
Proof.
  intros E. unfold add_dvs.
  assert (H : forall l t, NoDup l.*1 -> (forall x, x ∈ l -> dvs t !! x.1 = None) ->
    let t' := fold_left (fun t x => add_dv x.1 (dv_of x.2) t) l t in
    adds t' = adds t /\ removes t' = removes t /\ dvs t' = (dv_of <$> (list_to_map l : gmap string B)) ∪ dvs (B := B) t).
  { induction l as [|[q bm] l IH]; intros t0 Hnd Hno; cbn [fold_left list_to_map fst snd].
    { split_and!; [reflexivity..|]. cbn [list_to_map foldr]. by rewrite fmap_empty, map_empty_union. }
    apply NoDup_cons in Hnd as [Hq Hnd]. destruct (IH (add_dv q (dv_of bm) t0) Hnd) as (I1 & I2 & I3).
    - intros x Hx. cbn [add_dv dvs]. rewrite lookup_insert_ne; [apply Hno; by right|].
      intros ->. apply Hq. apply (list_elem_of_fmap_2 fst l x Hx).
    - split_and!; [done..|]. rewrite I3. cbn [add_dv dvs foldr]. pose proof (Hno (q, bm) ltac:(left)) as Hqn. cbn in Hqn. rewrite Hqn.
      change (list_to_map ((q, bm) :: l) : gmap string B) with (<[q := bm]> (list_to_map l : gmap string B)).
      rewrite fmap_insert, <- insert_union_l, <- insert_union_r; [done|].
      rewrite lookup_fmap, fmap_None. by apply not_elem_of_list_to_map_1. }
  destruct (H (map_to_list deltas) t (NoDup_fst_map_to_list _)) as (H1 & H2 & H3); [intros x _; by rewrite E, lookup_empty|].
  split_and!; [done..|]. by rewrite H3, E, list_to_map_to_list, map_union_empty.
Qed.
End dvs.

Lemma dedup_keys_sorted out : StronglySorted bytes_lt (map v_key out) -> dedup_keys None (map mem_entry_of out) = map v_key out.
Proof.
  assert (H : forall prev, StronglySorted bytes_lt (map v_key out) -> (forall k, prev = Some k -> Forall (bytes_lt k) (map v_key out)) ->
            dedup_keys prev (map mem_entry_of out) = map v_key out).
  { induction out as [|x out IH]; intros prev Hs Hp; [done|]. cbn [map dedup_keys mem_entry_of me_user_key].
    cbn [map] in Hs. apply StronglySorted_inv in Hs as [Hs Hx]. rewrite bool_decide_false.
    - f_equal. apply IH; [done|]. by intros k [= <-].
    - intros ->. specialize (Hp _ eq_refl). cbn in Hp. apply Forall_cons in Hp as [L _]. by apply bytes_lt_irrefl in L. }
  intros Hs. by apply H.
Qed.

(** The metadata of the new file. *)
Lemma fold_max_spec {A} (k : A -> Z) l a :
  let r := fold_left (fun a x => if a <? k x then k x else a) l a in
  a <= r /\ (forall x, x ∈ l -> k x <= r) /\ (r = a \/ exists x, x ∈ l /\ k x = r).
Proof.
  revert a. induction l as [|e l IH]; intros a; cbn [fold_left]; [split_and!; [lia|by intros x ?%elem_of_nil|by left]|].
  destruct (IH (if a <? k e then k e else a)) as (I1 & I2 & I3). destruct (Z.ltb_spec a (k e)).
  - split_and!; [lia| |]; [intros x [->|Hx]%elem_of_cons; [lia|by apply I2]|].
    destruct I3 as [->|(x & Hx & E)]; right; [exists e; split; [left|done]|exists x; split; [by right|done]].
  - split_and!; [lia| |]; [intros x [->|Hx]%elem_of_cons; [lia|by apply I2]|].
    destruct I3 as [->|(x & Hx & E)]; [by left|right; exists x; split; [by right|done]].
Qed.

Lemma fold_min_max {A} (k : A -> Z) l a :
  fold_left (fun a x => if k x <? a then k x else a) l a = - fold_left (fun a x => if a <? - k x then - k x else a) l (- a).
Proof.
  revert a. induction l as [|e l IH]; intros a; cbn [fold_left]; [lia|]. rewrite IH. do 2 f_equal.
  destruct (Z.ltb_spec (k e) a), (Z.ltb_spec (- a) (- k e)); lia.
Qed.

Lemma flush_meta_seq es fmt size stats :
  es <> [] -> (forall x, x ∈ es -> 0 <= me_seq x < u64_max) ->
  let m := flush_meta es fmt size stats in
  (exists x, x ∈ es /\ me_seq x = seq_max m) /\ (exists x, x ∈ es /\ me_seq x = seq_min m) /\
  forall x, x ∈ es -> seq_min m <= me_seq x <= seq_max m.
Proof.
  intros Hne H0. cbn [flush_meta seq_max seq_min]. rewrite fold_min_max.
  destruct (fold_max_spec me_seq es 0) as (_ & H2 & H3), (fold_max_spec (fun x => - me_seq x) es (- u64_max)) as (_ & G2 & G3).
  cbv zeta in *. set (r := fold_left _ es 0) in *. set (r' := fold_left _ es (- u64_max)) in *.
  assert (exists x, x ∈ es) as (x0 & Hx0) by (destruct es as [|x es]; [done|exists x; left]).
  pose proof (H0 x0 Hx0). pose proof (H2 x0 Hx0). pose proof (G2 x0 Hx0). cbn in *.
  destruct (Z.eqb_spec (- r') u64_max); [lia|]. split; [|split].
  - destruct H3 as [->|?]; [exists x0; split; [done|lia]|done].
  - destruct G3 as [E|(x & Hx & E)]; [lia|]. exists x. split; [done|lia].
  - intros x Hx. specialize (H2 x Hx). specialize (G2 x Hx). cbn in G2. lia.
Qed.
