(* ===== verification/StoreInv.v ===== *)
(** * The invariant of the store

    What memtables, manifest, data files and deletion vectors of an engine
    ([src/crates/merutable/src/engine/engine.rs]) have to agree on between
    operations, so that readers find every row: the files are readable and in
    order of age, the version is that of the manifest, the deletion vectors on
    disk are those the manifest names, and nothing that readers need is queued
    for deletion. *)

From Stdlib Require Import Ascii.
From S2P Require Import Prelude Decimal Disk Sequence Schema Key RowCodec WalBatch WalLog WalManager Mvcc Memtable LsmVersion DeletionVector Manifest ManifestPb Catalog Commit CommitRun Compaction Picker Bloom KvIndex Arrow Codec FileReader FileWriter Cache ReadPath DvResolve Engine Gc Flush EngineOpen Recovery FlushFile.
Local Open Scope Z_scope.

(** ** Layers in strict order *)
Definition above {V} (A B : list (VersionOf V)) : Prop :=
  forall v w, v ∈ A -> w ∈ B -> v_key v = v_key w -> v_seq w < v_seq v.

Lemma above_shadows {V} (A B : list (VersionOf V)) : above A B -> shadows A B.
Proof. intros H v w Hv Hw E. left. specialize (H v w Hv Hw E). lia. Qed.

Lemma above_vmap {V W} (f g : VersionOf V -> W) A B : above A B -> above (map (vmap f) A) (map (vmap g) B).
Proof. intros H v w (x & -> & Hx)%list_elem_of_fmap (y & -> & Hy)%list_elem_of_fmap. by apply H. Qed.

Lemma ordpairs_fmap {A A'} (R : A' -> A' -> Prop) (f : A -> A') l :
  ForallOrdPairs (fun x y => R (f x) (f y)) l -> ForallOrdPairs R (map f l).
Proof.
  induction 1 as [|x l Hx _ IH]; [constructor|]. cbn. constructor; [|done]. by apply Forall_fmap.
Qed.

Lemma ordpairs_impl {A} (R R' : A -> A -> Prop) l :
  (forall x y, x ∈ l -> y ∈ l -> R x y -> R' x y) -> ForallOrdPairs R l -> ForallOrdPairs R' l.
Proof.
  intros Hi H. induction H as [|x l Hx _ IH]; [constructor|]. constructor.
  - rewrite Forall_forall in *. intros y Hy. apply Hi; [left|by right|by apply Hx].
  - apply IH. intros y z Hy Hz. apply Hi; by right.
Qed.

Lemma seq_ordpairs n k : ForallOrdPairs Z.lt (map Z.of_nat (List.seq k n)).
Proof.
  revert k. induction n as [|n IH]; intros k; [constructor|]. cbn. constructor; [|apply IH].
  apply Forall_fmap, Forall_forall. intros x Hx. apply list_elem_of_In, in_seq in Hx. cbn. lia.
Qed.

Lemma sorted_keys_nodup (l : list bytes) : StronglySorted bytes_lt l -> NoDup l.
Proof.
  induction 1 as [|x l _ IH Hx]; constructor; [|done].
  intros Hin. rewrite Forall_forall in Hx. by apply (bytes_lt_irrefl x), Hx.
Qed.

(** ** The order of the files *)
Section ordered.
Context (xxh3_64 crc32 : bytes -> Z) {F M C B : Type}.
Context `{AR : !Arrow, PF : !ParquetFile F, FC : !FooterCodec, SJ : !SchemaJson, RB : !Roaring B}.
Context `{SM : !SkipMap M, SML : !SkipMapLaws M, LC : !LruCache C, LCL : !LruCacheLaws C, RS : !RowSerde}.
Implicit Types (en : MeruEngine F M C) (f : DataFileMeta) (ts : list ATable).
Local Abbreviation sh := (shown crc32 (B := B)).

(** Memtables are newer than files, L0 files in order of age, a level newer
    than those below it. *)
Record Ordered en ts : Prop := {
  or_below l f x : f ∈ files_at (en_version en) l -> x ∈ sh en f -> seq_min (meta f) <= v_seq x <= seq_max (meta f);
  or_newer l f x : f ∈ files_at (en_version en) l -> x ∈ a_all ts -> seq_max (meta f) < v_seq x;
  or_l0 : StronglySorted (fun f g => seq_max (meta g) < seq_min (meta f)) (files_at (en_version en) 0);
  or_range f : f ∈ files_at (en_version en) 0 -> seq_min (meta f) <= seq_max (meta f);
  or_deep l l' f f' x y : l < l' -> f ∈ files_at (en_version en) l -> f' ∈ files_at (en_version en) l' ->
    x ∈ sh en f -> y ∈ sh en f' -> v_key x = v_key y -> v_seq y < v_seq x;
  or_levels l f : f ∈ files_at (en_version en) l -> 0 <= l;
  or_rows l f x : f ∈ files_at (en_version en) l -> x ∈ sh en f -> stored_version (en_schema en) x;
  or_consistent : consistent (all_versions en ts (sh en));
}.

Lemma level_elem en l x : x ∈ level_versions (en_version en) (sh en) l <->
  exists f, f ∈ files_at (en_version en) l /\ x ∈ sh en f.
Proof.
  unfold level_versions. rewrite list_elem_of_In, in_concat. setoid_rewrite in_map_iff. setoid_rewrite list_elem_of_In.
  naive_solver.
Qed.

Lemma ordered_layers en ts : Ordered en ts -> ForallOrdPairs above (disk_layers (en_version en) (sh en)).
Proof.
  intros HO. unfold disk_layers. apply ordpairs_app.
  - apply ordpairs_fmap. assert (H : ForallOrdPairs (fun f g => seq_max (meta g) < seq_min (meta f)) (files_at (en_version en) 0)).
    { eapply sorted_ordpairs; [|apply (or_l0 _ _ HO)]. done. }
    eapply ordpairs_impl; [|exact H]. cbn. intros f g Hf Hg Hlt v w Hv Hw _.
    pose proof (or_below _ _ HO 0 f v Hf Hv). pose proof (or_below _ _ HO 0 g w Hg Hw). lia.
  - apply ordpairs_fmap. eapply ordpairs_impl; [|apply seq_ordpairs]. cbn. intros l l' _ _ Hlt v w Hv Hw E.
    apply level_elem in Hv as (f & Hf & Hv), Hw as (g & Hg & Hw). by eapply (or_deep _ _ HO l l' f g).
  - intros A A' (f & -> & Hf)%list_elem_of_fmap (l & -> & Hl)%list_elem_of_fmap v w Hv Hw E.
    apply level_elem in Hw as (g & Hg & Hw). apply list_elem_of_In, in_map_iff in Hl as (n & <- & [Hn _]%in_seq).
    eapply (or_deep _ _ HO 0 (Z.of_nat n) f g); [lia|done..].
Qed.

Lemma disk_layer_elem en A x : A ∈ disk_layers (en_version en) (sh en) -> x ∈ A ->
  exists l f, f ∈ files_at (en_version en) l /\ x ∈ sh en f.
Proof.
  unfold disk_layers. intros [(f & -> & Hf)%list_elem_of_fmap|(l & -> & _)%list_elem_of_fmap]%elem_of_app Hx; [by exists 0, f|].
  apply level_elem in Hx as (f & Hf & Hx). by exists l, f.
Qed.

(** Lookups may stop at the first layer that has the key. *)
Lemma ordered_shadow en ts : Ordered en ts -> ForallOrdPairs shadows (layers en ts (sh en)).
Proof.
  intros HO. unfold layers. constructor.
  - apply Forall_forall. intros A (L & -> & HL)%list_elem_of_fmap. apply above_shadows.
    intros v w (x & -> & Hx)%list_elem_of_fmap (y & -> & Hy)%list_elem_of_fmap _. cbn.
    destruct (disk_layer_elem en L y HL Hy) as (l & f & Hf & Hyf).
    pose proof (or_below _ _ HO l f y Hf Hyf). pose proof (or_newer _ _ HO l f x Hf Hx). lia.
  - apply ordpairs_fmap. eapply ordpairs_impl; [|apply (ordered_layers en ts HO)]. cbn. intros A A' _ _ H.
    by apply above_shadows, above_vmap.
Qed.
End ordered.

(** Commits keep the row ranges of the entries in order. *)
Lemma apply_rows_ok {B : Type} `{!Roaring B} now uuid m (t : SnapshotTransaction B) sid locs m' :
  Forall Manifest.rows_ok (m_entries m) -> Forall add_ok (adds t) -> apply now uuid m t sid locs = Ok m' ->
  Forall Manifest.rows_ok (m_entries m').
Proof.
  rewrite !Forall_forall. intros HR Hadd Hap ent' He'.
  destruct (apply_entries _ _ _ _ _ _ _ _ Hap He') as [(ent & He & _ & Hx)|(h & r & Hh & ->)].
  - specialize (HR ent He). unfold Manifest.rows_ok, rows_of_entry in *.
    assert (Hc : num_rows (me_meta (committed t locs ent)) = num_rows (me_meta ent)).
    { unfold committed. by destruct (dvs t !! me_path ent), (locs !! me_path ent). }
    destruct Hx as [->|[r ->]]; cbn; by rewrite Hc.
  - destruct (Hadd h Hh) as [E H]. unfold Manifest.rows_ok, rows_of_entry. cbn. by rewrite <- E.
Qed.

(** ** Engine and disk *)
Section store.
Context (xxh3_64 crc32 : bytes -> Z) {S F M C B : Type}.
Context `{AR : !Arrow, ARL : !ArrowLaws, PF : !ParquetFile F, PFL : !ParquetFileLaws F, FB : !FileBytes F, FBL : !FileBytesLaws F}.
Context `{FC : !FooterCodec, FCL : !FooterCodecLaws, SJ : !SchemaJson, SJL : !SchemaJsonLaws}.
Context `{RB : !Roaring B, RL : !RoaringLaws B}.
Context `{WS : !WalSink S, FS : !FileSystem S}.
Context `{SM : !SkipMap M, SML : !SkipMapLaws M, LC : !LruCache C, LCL : !LruCacheLaws C, RS : !RowSerde, RSL : !RowSerdeLaws}.
Implicit Types (e : Engine S M C) (d : Disk) (ts : list ATable) (f : DataFileMeta).
Local Abbreviation sh := (shown crc32 (B := B)).
Local Abbreviation view d e := (dview (F := F) d e).
Local Abbreviation current e := (vs_current (eg_version e)).
Local Abbreviation manifest e := (cat_current (eg_catalog e)).
Local Abbreviation next_sid e := (cat_next_version (eg_catalog e)).

(** The names that readers rely on: data files and their deletion vectors. *)
Definition footprint e (p : path_t) : Prop :=
  exists l f, f ∈ files_at (current e) l /\
    (p = split_path (path f) \/ exists q, dv_path f = Some q /\ p = split_path q).

Record StoreOk d e ts : Prop := {
  fk_writer : WriterOk xxh3_64 crc32 (B := B) (disk_files d) (disk_puffins d) e ts (sh (view d e));
  fk_ordered : Ordered crc32 (B := B) (view d e) ts;
  fk_firsts : NoDup (map first_seq (immutable (eg_memtable e)));
  fk_tables : Forall (fun t => Flushable (eg_schema e) (bloom_bits_per_key (eg_config e)) (at_versions t)) (tail ts);
  fk_schema : storable_schema (eg_schema e);
  fk_version : current e = to_version (manifest e) (eg_schema e);
  fk_rows : Forall Manifest.rows_ok (m_entries (manifest e));
  fk_sid : 0 <= next_sid e < 2 ^ 63;
  fk_dvs : exists X, DvState crc32 (B := B) d (manifest e) (next_sid e) X;
  fk_files l f : f ∈ files_at (current e) l -> parquet_path (path f) /\
    exists rd dv, Resolvable xxh3_64 crc32 (B := B) (view d e) f rd dv;
  fk_paths l l' f f' : f ∈ files_at (current e) l -> f' ∈ files_at (current e) l' -> path f = path f' -> f = f' /\ l = l';
  fk_pending p : p ∈ eg_pending e -> ~ footprint e (split_path (pd_path p)) /\
    forall q s, next_sid e <= s < 2 ^ 63 -> split_path (pd_path p) <> puffin_path q s;
  fk_tidy : tidy GH d;
  fk_frontier l f : f ∈ files_at (current e) l -> seq_max (meta f) <= GlobalSeq.counter (eg_visible e);
}.

Lemma elem_entries m s l f : f ∈ files_at (to_version m s) l <->
  exists ent, ent ∈ m_entries m /\ is_live ent = true /\ level (me_meta ent) = l /\ f = to_data_file_meta ent.
Proof.
  rewrite (files_at_perm m s l). unfold live_at. rewrite list_elem_of_In, in_map_iff. setoid_rewrite filter_In.
  setoid_rewrite andb_true_iff. setoid_rewrite Z.eqb_eq. setoid_rewrite list_elem_of_In. naive_solver.
Qed.

(** Where the deletion vector of a file is. *)
Lemma dv_path_puffin d e ts l f q : StoreOk d e ts -> f ∈ files_at (current e) l -> dv_path f = Some q ->
  exists s, 0 <= s < next_sid e /\ q = join_path (puffin_path (path f) s) /\ split_path q = puffin_path (path f) s.
Proof.
  intros HK Hf Hq. destruct (fk_dvs _ _ _ HK) as (X & HX). pose proof (fk_sid _ _ _ HK) as Hsid. rewrite (fk_version _ _ _ HK) in Hf.
  apply elem_entries in Hf as (ent & He & Hl & _ & ->). specialize (HX ent He Hl). unfold dv_entry in HX. cbn in Hq.
  rewrite Hq in HX. destruct (me_dv_offset ent), (me_dv_length ent); try done.
  destruct HX as (s & -> & Hs & _). exists s. split; [done|]. split; [done|]. apply split_puffin; unfold in_i; lia.
Qed.

Lemma footprint_cases d e ts p : StoreOk d e ts -> footprint e p ->
  exists l f, f ∈ files_at (current e) l /\
    (p = split_path (path f) \/ exists s, 0 <= s < next_sid e /\ p = puffin_path (path f) s).
Proof.
  intros HK (l & f & Hf & [->|(q & Hq & ->)]); exists l, f; (split; [done|]); [by left|right].
  destruct (dv_path_puffin d e ts l f q HK Hf Hq) as (s & Hs & _ & ->). by exists s.
Qed.

Lemma footprint_free d e ts : StoreOk d e ts ->
  (forall q, ~ footprint e (puffin_path q (next_sid e))) /\ ~ footprint e (meta_pb (next_sid e)) /\
  ~ footprint e HINT /\ ~ footprint e TMP_HINT.
Proof.
  intros HK. pose proof (fk_sid _ _ _ HK) as Hsid. assert (HP : forall p, footprint e p ->
    (forall q, p <> puffin_path q (next_sid e)) /\ p <> meta_pb (next_sid e) /\ ~ GH p).
  { intros p Hp. destruct (footprint_cases d e ts p HK Hp) as (l & f & Hf & [->|(s & Hs & ->)]).
    - apply parquet_not_committed. by apply (fk_files _ _ _ HK l).
    - split; [intros q' E; apply puffin_path_sid in E; [lia|unfold in_i in *; lia..]|].
      split; [solve_paths|apply puffin_not_GH]. }
  split; [intros q H; by apply (proj1 (HP _ H) q)|]. split; [intros H; by apply (proj1 (proj2 (HP _ H)))|].
  split; intros H; apply (proj2 (proj2 (HP _ H))); unfold GH; tauto.
Qed.

Lemma footprint_read d d' e ts p : StoreOk d e ts -> stays (footprint e) d d' -> footprint e p ->
  read_file d' p = read_file d p.
Proof.
  intros HK [_ HS] Hp. apply HS; [apply (fk_tidy _ _ _ HK)|done|].
  destruct (footprint_cases d e ts p HK Hp) as (l & f & Hf & [->|(s & _ & ->)]); [|apply puffin_not_GH].
  by apply (parquet_not_committed _ 0), (fk_files _ _ _ HK l).
Qed.

Lemma open_stays d d' e ts l f : StoreOk d e ts -> stays (footprint e) d d' -> f ∈ files_at (current e) l ->
  open_file crc32 (B := B) (view d' e) f = open_file crc32 (view d e) f.
Proof.
  intros HK HS Hf. apply open_same; [done| |].
  - cbn. unfold disk_files. rewrite (footprint_read d d' e ts _ HK HS); [done|]. exists l, f. auto.
  - intros p Hp. cbn. unfold disk_puffins. apply (footprint_read d d' e ts _ HK HS). exists l, f. eauto.
Qed.

(** Files that open the same show the same. *)
Lemma same_view d d' e ts :
  (forall l f, f ∈ files_at (current e) l -> open_file crc32 (B := B) (view d' e) f = open_file crc32 (view d e) f) ->
  (forall l f, f ∈ files_at (current e) l -> sh (view d' e) f = sh (view d e) f) /\
  disk_layers (current e) (sh (view d' e)) = disk_layers (current e) (sh (view d e)) /\
  all_versions (view d' e) ts (sh (view d' e)) = all_versions (view d e) ts (sh (view d e)).
Proof.
  intros Ho. assert (Hs : forall l f, f ∈ files_at (current e) l -> sh (view d' e) f = sh (view d e) f).
  { intros l f Hf. unfold shown. by rewrite (Ho l f Hf). }
  assert (Hl : disk_layers (current e) (sh (view d' e)) = disk_layers (current e) (sh (view d e))).
  { unfold disk_layers, level_versions. f_equal.
    - apply map_ext_in. intros f Hf%list_elem_of_In. by eapply Hs.
    - apply map_ext. intros l. f_equal. apply map_ext_in. intros f Hf%list_elem_of_In. by eapply Hs. }
  split; [done|]. split; [done|]. unfold all_versions, layers. cbn [dview eview en_version]. by rewrite Hl.
Qed.

Lemma DvState_stays d d' e ts X : StoreOk d e ts -> stays (footprint e) d d' ->
  DvState crc32 (B := B) d (manifest e) (next_sid e) X -> DvState crc32 (B := B) d' (manifest e) (next_sid e) X.
Proof.
  intros HK HS HX ent He Hl. specialize (HX ent He Hl). unfold dv_entry in *. pose proof (fk_sid _ _ _ HK) as Hsid.
  destruct (me_dv_path ent) as [pe|] eqn:Ep, (me_dv_offset ent), (me_dv_length ent); try done.
  destruct HX as (s & -> & Hs & HX). exists s. split; [done|]. split; [done|].
  eapply stored_dv_keeps; [|apply HS|exact HX]. exists (level (me_meta ent)), (to_data_file_meta ent). split.
  - rewrite (fk_version _ _ _ HK). apply elem_entries. eauto.
  - right. eexists. split; [exact Ep|]. symmetry. apply split_puffin; unfold in_i; lia.
Qed.

Lemma StoreOk_stays d d' e ts : stays (footprint e) d d' -> StoreOk d e ts -> StoreOk d' e ts.
Proof.
  intros HS HK. pose proof (fun l f => open_stays d d' e ts l f HK HS) as Ho. pose proof (DvState_stays d d' e ts) as HDV.
  destruct (same_view d d' e ts Ho) as (Hs & Hl & Ha). pose proof HK as HK0. unfold dview in *.
  destruct HK as [[HE HC Hop Hsq Hv] [O1 O2 O3 O4 O5 O6 O7 O8] Hfirst Htab Hsch Hver Hrows Hsid (X & HX) Hfiles Hpaths Hpend Htidy Hfront].
  split; unfold dview in *; try done.
  - split; [|by rewrite Ha|done|by rewrite Ha|done]. destruct HE as [E1 E2 E3 E4 E5 E6]. split; [done..| | |].
    + intros l f Hf. destruct (E4 l f Hf) as [(rd & dv & Hopen & Hok & Hsh) Hr].
      split; [exists rd, dv; split_and!; [by rewrite (Ho l f Hf)|done|by rewrite (Hs l f Hf)]|].
      intros x. rewrite (Hs l f Hf). apply Hr.
    + intros l H1. destruct (E5 l H1) as [H2 H3]. split; [done|]. intros f x Hf. rewrite (Hs l f Hf). by apply H3.
    + unfold layers in *. cbn [eview en_version] in *. by rewrite Hl.
  - split; [|done|done|done| |done| |by rewrite Ha].
    + intros l f x Hf. rewrite (Hs l f Hf). by apply (O1 l).
    + intros l l' f f' x y Hlt Hf Hf'. rewrite (Hs l f Hf), (Hs l' f' Hf'). by apply (O5 l l' f f').
    + intros l f x Hf. rewrite (Hs l f Hf). by apply (O7 l).
  - exists X. by apply HDV.
  - intros l f Hf. destruct (Hfiles l f Hf) as (Hp & rd & dv & [R1 R2 R3 R4 R5 R6 R7]). split; [done|].
    exists rd, dv. split; try done. by rewrite (Ho l f Hf).
  - apply HS, Htidy.
Qed.

(** Everything a reader can see at the frontier. *)
Definition visible_row d e ts (k : bytes) : option (VersionOf Row) :=
  newest (all_versions (view d e) ts (sh (view d e))) k (GlobalSeq.counter (eg_visible e)).

Lemma visible_row_stays d d' e ts k : StoreOk d e ts -> stays (footprint e) d d' -> visible_row d' e ts k = visible_row d e ts k.
Proof.
  intros HK HS. destruct (same_view d d' e ts (fun l f => open_stays d d' e ts l f HK HS)) as (_ & _ & Ha).
  unfold visible_row. by rewrite Ha.
Qed.

(** A file that can be resolved can be read. *)
Lemma resolvable_state d e f rd dv : Resolvable xxh3_64 crc32 (B := B) (view d e) f rd dv ->
  FileState xxh3_64 crc32 (B := B) (view d e) f (sh (view d e) f).
Proof.
  intros HR. split.
  - exists rd, dv. unfold shown. rewrite (rs_open _ _ _ _ _ _ HR). split; [done|]. split; [apply HR|done].
  - intros x. unfold shown. rewrite (rs_open _ _ _ _ _ _ HR). intros (y & Hy & ->)%live_versions_in.
    destruct (rs_bounds _ _ _ _ _ _ HR y Hy) as (_ & _ & B1 & B2). unfold range_contains. cbn [row_version v_key].
    destruct (negb (bytes_eqb (key_min (meta f)) []) && _) eqn:E1; [rewrite andb_true_iff, bytes_ltb_spec in E1; tauto|].
    destruct (negb (bytes_eqb (key_max (meta f)) []) && _) eqn:E2; [rewrite andb_true_iff, bytes_ltb_spec in E2; tauto|done].
Qed.
End store.
