(* ===== verification/FlushRun.v ===== *)
(** * Flushes keep the table

    [run_flush] of [src/crates/merutable/src/engine/flush.rs] and the loop of
    [MeruEngine::flush] in [src/crates/merutable/src/engine/engine.rs]:
    whatever system call fails, an engine whose flush returns holds the same
    rows as before. *)

From Stdlib Require Import Ascii.
From S2P Require Import Prelude Decimal Disk Sequence Schema Key RowCodec WalBatch WalLog WalManager Mvcc Memtable LsmVersion DeletionVector Manifest ManifestPb Catalog Commit CommitRun Compaction Picker Bloom KvIndex Arrow Codec FileReader FileWriter Cache ReadPath DvResolve Engine Gc Flush EngineOpen Recovery FlushFile StoreInv.
Local Open Scope Z_scope.

(** ** Moving a table from memory to a file *)
Section moved.
Context (xxh3_64 crc32 : bytes -> Z) {F M C B : Type}.
Context `{AR : !Arrow, PF : !ParquetFile F, FC : !FooterCodec, SJ : !SchemaJson, RB : !Roaring B}.
Context `{SM : !SkipMap M, SML : !SkipMapLaws M, LC : !LruCache C, LCL : !LruCacheLaws C, RS : !RowSerde}.
Implicit Types (en : MeruEngine F M C) (f : DataFileMeta) (v : Version).
Local Abbreviation sh := (shown crc32 (B := B)).

(** [en'] is [en] with the versions [out] of its oldest table in the file [nw]
    and, in the other files, versions of keys of [out] deleted. *)
Record Moved en en' (g : DataFileMeta -> DataFileMeta) (nw : list DataFileMeta) (out : list (VersionOf bytes)) : Prop := {
  mv_schema : en_schema en' = en_schema en;
  mv_visible : en_visible en' = en_visible en;
  mv_cache : en_cache en' = en_cache en;
  mv_files l : files_at (en_version en') l = (if l =? 0 then nw else []) ++ map g (files_at (en_version en) l);
  mv_meta f : seq_max (meta (g f)) = seq_max (meta f) /\ seq_min (meta (g f)) = seq_min (meta f) /\
    key_min (meta (g f)) = key_min (meta f) /\ key_max (meta (g f)) = key_max (meta f);
  mv_state l f : f ∈ files_at (en_version en') l -> FileState xxh3_64 crc32 (B := B) en' f (sh en' f);
  mv_sub l f x : f ∈ files_at (en_version en) l -> x ∈ sh en' (g f) -> x ∈ sh en f;
  mv_lost l f x : f ∈ files_at (en_version en) l -> x ∈ sh en f -> x ∈ sh en' (g f) \/ v_key x ∈ map v_key out;
  mv_rows : concat (map (fun n => map (vmap file_row) (sh en' n)) nw) = map (vmap mem_row) out;
  mv_single : (length nw <= 1)%nat;
}.

Context en en' g nw out (ts : list ATable) (t : ATable) (HM : Moved en en' g nw out).
Context (HE : EngineOk xxh3_64 crc32 (B := B) en (ts ++ [t]) (sh en)) (HO : Ordered crc32 (B := B) en (ts ++ [t])).
Context (Hout : forall x, x ∈ out -> x ∈ at_versions t).
Context (Hdom : forall y, y ∈ at_versions t -> exists x, x ∈ out /\ v_key x = v_key y /\ (v_seq y < v_seq x \/ y = x)).
Context (Hmem : Forall2 (table_holds (encoded_key (en_schema en')))
  (active (en_memtable en') :: rev (immutable (en_memtable en'))) ts).

Lemma a_all_snoc : a_all (ts ++ [t]) = a_all ts ++ at_versions t.
Proof. unfold a_all. rewrite map_app, concat_app. cbn. by rewrite app_nil_r. Qed.

(** Versions after the move, by where they are. *)
Lemma moved_elem x : x ∈ all_versions en' ts (sh en') <->
  x ∈ map (vmap mem_row) (a_all ts) \/ x ∈ map (vmap mem_row) out \/
  exists l f, 0 <= l /\ f ∈ files_at (en_version en) l /\ x ∈ map (vmap file_row) (sh en' (g f)).
Proof.
  rewrite elem_of_all. apply Morphisms_Prop.or_iff_morphism.
  - unfold mem_source, a_all. rewrite concat_map, map_map, list_elem_of_In, in_concat. setoid_rewrite in_map_iff.
    setoid_rewrite list_elem_of_In. naive_solver.
  - rewrite <- (mv_rows _ _ _ _ _ HM). unfold file_source. setoid_rewrite elem_all_files.
    setoid_rewrite (mv_files _ _ _ _ _ HM). rewrite (list_elem_of_In (concat _)), in_concat. setoid_rewrite in_map_iff. split.
    + intros (f & (l & Hl & [Hf|Hf]%elem_of_app) & Hx).
      * left. destruct (l =? 0); [|by apply elem_of_nil in Hf]. exists (map (vmap file_row) (sh en' f)).
        split; [|by apply list_elem_of_In]. exists f. split; [done|by apply list_elem_of_In].
      * right. apply list_elem_of_fmap in Hf as (h & -> & Hh). exists l, h. done.
    + intros [(xs & (n & <- & Hn) & Hx)|(l & f & Hl & Hf & Hx)].
      * exists n. split; [|by apply list_elem_of_In]. exists 0. split; [lia|]. cbn. apply elem_of_app. left. by apply list_elem_of_In.
      * exists (g f). split; [|done]. exists l. split; [done|]. apply elem_of_app. right. by apply list_elem_of_fmap_2.
Qed.

Lemma before_elem x : x ∈ all_versions en (ts ++ [t]) (sh en) <->
  x ∈ map (vmap mem_row) (a_all ts) \/ x ∈ map (vmap mem_row) (at_versions t) \/
  exists l f, 0 <= l /\ f ∈ files_at (en_version en) l /\ x ∈ map (vmap file_row) (sh en f).
Proof.
  rewrite elem_of_all. unfold file_source. setoid_rewrite elem_all_files.
  assert (Hm : (exists u, u ∈ ts ++ [t] /\ x ∈ mem_source u) <->
    x ∈ map (vmap mem_row) (a_all ts) \/ x ∈ map (vmap mem_row) (at_versions t)).
  { rewrite <- elem_of_app, <- map_app, <- a_all_snoc. unfold mem_source, a_all.
    rewrite concat_map, map_map, (list_elem_of_In (concat _)), in_concat. setoid_rewrite in_map_iff.
    setoid_rewrite list_elem_of_In. naive_solver. }
  rewrite Hm. naive_solver.
Qed.

Lemma moved_sub x : x ∈ all_versions en' ts (sh en') -> x ∈ all_versions en (ts ++ [t]) (sh en).
Proof.
  rewrite moved_elem, before_elem. intros [H|[H|(l & f & Hl & Hf & Hx)]]; [by left| |].
  - right; left. apply list_elem_of_fmap in H as (y & -> & Hy). by apply list_elem_of_fmap_2, Hout.
  - right; right. exists l, f. split_and!; [done..|]. apply list_elem_of_fmap in Hx as (y & -> & Hy).
    apply list_elem_of_fmap_2. by eapply (mv_sub _ _ _ _ _ HM).
Qed.

Lemma out_newer l f x y : f ∈ files_at (en_version en) l -> x ∈ sh en f -> y ∈ at_versions t -> v_seq x < v_seq y.
Proof.
  intros Hf Hx Hy. pose proof (or_below _ _ _ HO l f x Hf Hx). pose proof (or_newer _ _ _ HO l f y Hf) as H'.
  rewrite a_all_snoc in H'. specialize (H' ltac:(apply elem_of_app; by right)). lia.
Qed.

Lemma moved_dominates y : y ∈ all_versions en (ts ++ [t]) (sh en) ->
  exists x, x ∈ all_versions en' ts (sh en') /\ v_key x = v_key y /\ (v_seq y < v_seq x \/ y = x).
Proof.
  rewrite before_elem. intros [H|[H|(l & f & Hl & Hf & Hx)]].
  - exists y. split_and!; [|done|by right]. apply moved_elem. by left.
  - apply list_elem_of_fmap in H as (w & -> & Hw). destruct (Hdom w Hw) as (x & Hx & Hk & Hs).
    exists (vmap mem_row x). split_and!; [|done|destruct Hs as [? | ->]; [by left|by right]].
    apply moved_elem. right; left. by apply list_elem_of_fmap_2.
  - apply list_elem_of_fmap in Hx as (w & -> & Hw). destruct (mv_lost _ _ _ _ _ HM l f w Hf Hw) as [H|H].
    + exists (vmap file_row w). split_and!; [|done|by right]. apply moved_elem. right; right. exists l, f.
      split_and!; [done..|]. by apply list_elem_of_fmap_2.
    + apply list_elem_of_fmap in H as (x & Hk & Hx). exists (vmap mem_row x). split_and!; [|done|left].
      * apply moved_elem. right; left. by apply list_elem_of_fmap_2.
      * cbn. eapply out_newer; [done..|by apply Hout].
Qed.

(** Readers at the frontier see the same. *)
Lemma moved_newest r k :
  (forall x, x ∈ all_versions en (ts ++ [t]) (sh en) -> v_seq x <= r) ->
  newest (all_versions en' ts (sh en')) k r = newest (all_versions en (ts ++ [t]) (sh en)) k r.
Proof.
  intros Hr. symmetry. apply newest_dominated.
  - apply moved_sub.
  - apply moved_dominates.
  - apply (or_consistent _ _ _ HO).
  - intros x Hx. by apply Hr, moved_sub.
  - done.
Qed.

Lemma moved_new_elem n x : n ∈ nw -> x ∈ sh en' n -> exists y, y ∈ out /\ v_key y = v_key x /\ v_seq y = v_seq x.
Proof.
  intros Hn Hx. assert (Hi : vmap file_row x ∈ map (vmap mem_row) out).
  { rewrite <- (mv_rows _ _ _ _ _ HM). apply list_elem_of_In, in_concat. exists (map (vmap file_row) (sh en' n)).
    split; [by apply (in_map (fun n => map (vmap file_row) (sh en' n))), list_elem_of_In|by apply in_map, list_elem_of_In]. }
  apply list_elem_of_fmap in Hi as (y & E & Hy). exists y. split; [done|].
  split; [by apply (f_equal v_key) in E|by apply (f_equal v_seq) in E].
Qed.

(** The file a version of the new engine comes from. *)
Lemma moved_file_seq l f x : f ∈ files_at (en_version en') l -> x ∈ sh en' f ->
  (l = 0 /\ f ∈ nw /\ exists y, y ∈ out /\ v_key y = v_key x /\ v_seq y = v_seq x) \/
  (exists h, h ∈ files_at (en_version en) l /\ f = g h /\ x ∈ sh en h).
Proof.
  rewrite (mv_files _ _ _ _ _ HM l). intros [Hf|(h & -> & Hh)%list_elem_of_fmap]%elem_of_app Hx.
  - left. destruct (Z.eqb_spec l 0); [|by apply elem_of_nil in Hf]. split; [done|]. split; [done|]. by eapply moved_new_elem.
  - right. exists h. split_and!; [done..|]. by eapply (mv_sub _ _ _ _ _ HM).
Qed.

Lemma newer_snoc : StronglySorted newer ts /\ forall x y, x ∈ a_all ts -> y ∈ at_versions t -> v_seq y < v_seq x.
Proof.
  pose proof (eo_newer _ _ _ _ _ HE) as H. apply StronglySorted_app in H as (Hc & H & _). split; [done|].
  intros x y Hx Hy. unfold a_all in Hx. apply list_elem_of_In, in_concat in Hx as (xs & Hxs & Hx).
  apply in_map_iff in Hxs as (u & <- & Hu). apply list_elem_of_In in Hu, Hx.
  by apply (Hc u t Hu ltac:(left)).
Qed.

Context (Hseqs : forall n, n ∈ nw -> (exists y, y ∈ out /\ v_seq y = seq_max (meta n)) /\
  (exists y, y ∈ out /\ v_seq y = seq_min (meta n)) /\ forall y, y ∈ out -> seq_min (meta n) <= v_seq y <= seq_max (meta n)).
Context (Hstored : forall n x, n ∈ nw -> x ∈ sh en' n -> stored_version (en_schema en') x).

(** Nothing the table holds is as old as a file. *)
Lemma table_newer l f y : f ∈ files_at (en_version en) l -> y ∈ out -> seq_max (meta f) < v_seq y.
Proof.
  intros Hf Hy. apply (or_newer _ _ _ HO l f); [done|]. rewrite a_all_snoc. apply elem_of_app. right. by apply Hout.
Qed.

Lemma moved_l0 : StronglySorted (fun f h => seq_max (meta h) < seq_min (meta f)) (files_at (en_version en') 0).
Proof.
  rewrite (mv_files _ _ _ _ _ HM 0). cbn [Z.eqb].
  assert (Hold : StronglySorted (fun f h => seq_max (meta h) < seq_min (meta f)) (map g (files_at (en_version en) 0))).
  { pose proof (or_l0 _ _ _ HO) as H. induction H as [|f fs _ IH Hf]; [constructor|]. cbn. constructor; [done|].
    apply Forall_fmap. eapply Forall_impl; [exact Hf|]. intros h. cbn.
    destruct (mv_meta _ _ _ _ _ HM f) as (_ & -> & _), (mv_meta _ _ _ _ _ HM h) as (-> & _). done. }
  pose proof (mv_single _ _ _ _ _ HM). destruct nw as [|n [|]]; cbn in *; [done| |lia].
  constructor; [done|]. apply Forall_fmap, Forall_forall. intros h Hh. cbn.
  destruct (Hseqs n ltac:(left)) as (_ & (y & Hy & <-) & _). destruct (mv_meta _ _ _ _ _ HM h) as (-> & _).
  by eapply table_newer.
Qed.

Lemma moved_ordered : Ordered crc32 (B := B) en' ts.
Proof.
  split.
  - intros l f x Hf Hx. destruct (moved_file_seq l f x Hf Hx) as [(_ & Hn & y & Hy & _ & <-)|(h & Hh & -> & Hxh)].
    + by apply (Hseqs f Hn).
    + destruct (mv_meta _ _ _ _ _ HM h) as (-> & -> & _). by eapply (or_below _ _ _ HO).
  - intros l f x Hf Hx. rewrite (mv_files _ _ _ _ _ HM l) in Hf. apply elem_of_app in Hf as [Hf|(h & -> & Hh)%list_elem_of_fmap].
    + destruct (l =? 0); [|by apply elem_of_nil in Hf]. destruct (Hseqs f Hf) as ((y & Hy & <-) & _).
      apply newer_snoc; [done|by apply Hout].
    + destruct (mv_meta _ _ _ _ _ HM h) as (-> & _). apply (or_newer _ _ _ HO l h); [done|]. rewrite a_all_snoc. apply elem_of_app. by left.
  - exact moved_l0.
  - intros f Hf. rewrite (mv_files _ _ _ _ _ HM 0) in Hf. apply elem_of_app in Hf as [Hf|(h & -> & Hh)%list_elem_of_fmap].
    + destruct (Hseqs f Hf) as ((y & Hy & E) & _ & H). specialize (H y Hy). lia.
    + destruct (mv_meta _ _ _ _ _ HM h) as (-> & -> & _). by apply (or_range _ _ _ HO).
  - intros l l' f f' x y Hlt Hf Hf' Hx Hy Ek.
    destruct (moved_file_seq l' f' y Hf' Hy) as [(-> & _)|(h' & Hh' & -> & Hyh)].
    { rewrite (mv_files _ _ _ _ _ HM l) in Hf. destruct (Z.eqb_spec l 0); [lia|].
      apply list_elem_of_fmap in Hf as (h & _ & Hh). pose proof (or_levels _ _ _ HO l h Hh). lia. }
    destruct (moved_file_seq l f x Hf Hx) as [(_ & _ & z & Hz & _ & <-)|(h & Hh & -> & Hxh)].
    + pose proof (or_below _ _ _ HO l' h' y Hh' Hyh). pose proof (table_newer l' h' z Hh' Hz). lia.
    + by eapply (or_deep _ _ _ HO l l' h h').
  - intros l f Hf. rewrite (mv_files _ _ _ _ _ HM l) in Hf. apply elem_of_app in Hf as [Hf|(h & -> & Hh)%list_elem_of_fmap].
    + destruct (Z.eqb_spec l 0) as [->|]; [lia|by apply elem_of_nil in Hf].
    + by eapply (or_levels _ _ _ HO).
  - intros l f x Hf Hx. destruct (moved_file_seq l f x Hf Hx) as [(_ & Hn & _)|(h & Hh & _ & Hxh)]; [by eapply Hstored|].
    rewrite (mv_schema _ _ _ _ _ HM). by eapply (or_rows _ _ _ HO).
  - intros v w Hv Hw. apply (or_consistent _ _ _ HO); by apply moved_sub.
Qed.

Lemma moved_engine_ok : EngineOk xxh3_64 crc32 (B := B) en' ts (sh en').
Proof.
  split.
  - exact Hmem.
  - apply newer_snoc.
  - intros x Hx. rewrite (mv_schema _ _ _ _ _ HM). apply (eo_rows _ _ _ _ _ HE). rewrite a_all_snoc. apply elem_of_app. by left.
  - apply (mv_state _ _ _ _ _ HM).
  - intros l Hl. destruct (eo_levels _ _ _ _ _ HE l Hl) as [[Hr Hs] Hc].
    assert (El : files_at (en_version en') l = map g (files_at (en_version en) l)).
    { rewrite (mv_files _ _ _ _ _ HM l). destruct (Z.eqb_spec l 0); [lia|done]. }
    rewrite El. split.
    + split.
      * apply Forall_fmap. eapply Forall_impl; [exact Hr|]. intros f. unfold range_ok; cbn.
        destruct (mv_meta _ _ _ _ _ HM f) as (_ & _ & -> & ->). done.
      * clear -Hs HM. induction Hs as [|f fs _ IH Hf]; [constructor|]. cbn. constructor; [done|].
        apply Forall_fmap. eapply Forall_impl; [exact Hf|]. intros h. unfold before. cbn.
        destruct (mv_meta _ _ _ _ _ HM f) as (_ & _ & _ & ->), (mv_meta _ _ _ _ _ HM h) as (_ & _ & -> & _). done.
    + intros f x (h & -> & Hh)%list_elem_of_fmap Hx. unfold covers.
      destruct (mv_meta _ _ _ _ _ HM h) as (_ & _ & -> & ->). apply (Hc h); [done|]. by eapply (mv_sub _ _ _ _ _ HM).
  - apply ordered_shadow, moved_ordered.
Qed.

Lemma moved_cache :
  (forall x, x ∈ all_versions en (ts ++ [t]) (sh en) -> v_seq x <= read_seq en) ->
  CacheOk en (all_versions en (ts ++ [t]) (sh en)) -> CacheOk en' (all_versions en' ts (sh en')).
Proof.
  intros Hr. unfold CacheOk. rewrite (mv_cache _ _ _ _ _ HM). destruct (en_cache en) as [c|]; [|done].
  intros Hc. eapply map_Forall_impl; [exact Hc|]. intros k e (x & Hx & H). exists x. split; [|done].
  unfold read_seq in *. rewrite (mv_visible _ _ _ _ _ HM). by rewrite moved_newest.
Qed.
End moved.

(** ** The invariant of an engine that flushes *)
Section flush_run.
Context (xxh3_64 crc32 : bytes -> Z) {S F M C B J : Type}.
Context `{AR : !Arrow, ARL : !ArrowLaws, PF : !ParquetFile F, PFL : !ParquetFileLaws F, FB : !FileBytes F, FBL : !FileBytesLaws F}.
Context `{FC : !FooterCodec, FCL : !FooterCodecLaws, SJ : !SchemaJson, SJL : !SchemaJsonLaws}.
Context `{RB : !Roaring B, RL : !RoaringLaws B, FJ : !FooterJson J, FJL : !FooterJsonLaws J}.
Context `{PR : !Prost, MJ : !ManifestJson, WS : !WalSink S, FS : !FileSystem S}.
Context `{SM : !SkipMap M, SML : !SkipMapLaws M, LC : !LruCache C, LCL : !LruCacheLaws C, RS : !RowSerde, RSL : !RowSerdeLaws}.
Context (dv_iter : gmap string (DeletionVector B) -> list (string * DeletionVector B)).
Implicit Types (e : Engine S M C) (d : Disk) (ts : list ATable) (f : DataFileMeta).
Local Abbreviation sh := (shown crc32 (B := B)).
Local Abbreviation view d e := (dview (F := F) d e).
Local Abbreviation StoreOk := (StoreInv.StoreOk xxh3_64 crc32 (F := F) (B := B)).
Local Abbreviation visible_row := (StoreInv.visible_row crc32 (F := F) (B := B)).
Local Abbreviation current e := (vs_current (eg_version e)).
Local Abbreviation manifest e := (cat_current (eg_catalog e)).
Local Abbreviation next_sid e := (cat_next_version (eg_catalog e)).

(** The oldest queued table is the last of [ts]. *)
Lemma oldest_table d e ts imm : StoreOk d e ts -> oldest_immutable (eg_memtable e) = Some imm ->
  exists ts' t rest, ts = ts' ++ [t] /\ immutable (eg_memtable e) = imm :: rest /\
    table_holds (encoded_key (eg_schema e)) imm t /\ ts' <> [] /\
    immutable (drop_flushed (first_seq imm) (eg_memtable e)) = rest /\
    Forall2 (table_holds (encoded_key (eg_schema e))) (active (eg_memtable e) :: rev rest) ts'.
Proof.
  intros HK Ho. unfold oldest_immutable in Ho. destruct (immutable (eg_memtable e)) as [|i rest] eqn:Ei; [done|].
  injection Ho as ->. pose proof (eo_mem _ _ _ _ _ (wo_engine _ _ _ _ _ _ _ (fk_writer _ _ _ _ _ HK))) as HF.
  cbn [dview eview en_memtable en_schema] in HF. rewrite Ei in HF. cbn [rev] in HF. rewrite app_comm_cons in HF.
  apply Forall2_app_inv_l in HF as (ts' & l & H1 & H2 & ->). inversion H2 as [|? t ? l' Ht H3]; subst. inversion H3; subst.
  exists ts', t, rest. split_and!; [done..| | |done].
  - intros ->. by inversion H1.
  - unfold drop_flushed. cbn [immutable]. rewrite Ei, filter_cons, decide_False by (intros H; by apply H).
    pose proof (fk_firsts _ _ _ _ _ HK) as Hnd. rewrite Ei in Hnd. cbn in Hnd. apply NoDup_cons in Hnd as [Hn _].
    apply list_filter_all. intros m Hm E. apply Hn. rewrite <- E. by apply list_elem_of_fmap_2.
Qed.

(** The newest versions of a table, as the flush iterates them. *)
Lemma iterated_table e imm t es : table_holds (encoded_key (eg_schema e)) imm t -> mem_iter SEQNUM_MAX imm = Ok es ->
  exists out, es = map mem_entry_of out /\ StronglySorted bytes_lt (map v_key out) /\ out ⊆+ at_versions t /\
    (forall x, x ∈ at_versions t -> encoded_key (eg_schema e) (v_key x) /\ seq_ok x) /\
    (forall y, y ∈ at_versions t -> exists x, x ∈ out /\ v_key x = v_key y /\ (v_seq y < v_seq x \/ y = x)).
Proof.
  intros [_ HH] Hit. destruct (Holds_iter (encoded_key (eg_schema e)) (encoded_key_prefix_free _) _ _ SEQNUM_MAX HH) as (out & Hout & Hs & Hn).
  destruct HH as (ws & _ & HP & _ & Hst & Hu). unfold mem_iter, sl_iter in Hit. rewrite Hit in Hout. injection Hout as ->.
  assert (Hv : forall x, x ∈ at_versions t -> encoded_key (eg_schema e) (v_key x) /\ seq_ok x).
  { intros x Hx. rewrite <- HP in Hx. rewrite Forall_forall in Hst. by apply (Hst x Hx). }
  assert (Hin : forall x, x ∈ out -> x ∈ at_versions t) by (intros x Hx; apply Hn, newest_elem in Hx; by apply Hx).
  exists out. split_and!; [done|done| |done|].
  - apply NoDup_submseteq; [|done]. by apply (NoDup_fmap_1 v_key), sorted_keys_nodup.
  - intros y Hy. destruct (newest (at_versions t) (v_key y) SEQNUM_MAX) as [x|] eqn:E.
    + exists x. pose proof (newest_is_newest _ _ _ _ E) as (Hx & [Hk _]%visible_spec & Hmax).
      split; [apply Hn; by rewrite Hk|]. split; [done|]. destruct (Hv y Hy) as [_ [_ Hle]].
      specialize (Hmax y Hy ltac:(by apply visible_spec)). destruct (Z.eq_dec (v_seq y) (v_seq x)) as [E'|]; [right|left; lia].
      eapply (unique_seqs_inj ws); [done|rewrite HP..|done|done]; done.
    + exfalso. pose proof (proj1 (newest_None _ _ _) E y Hy) as Ev. apply not_true_iff_false in Ev. apply Ev, visible_spec.
      split; [done|apply Hv, Hy].
Qed.

Lemma moved_writer d e d' e' ts t g nw out :
  StoreOk d e (ts ++ [t]) -> Moved xxh3_64 crc32 (B := B) (view d e) (view d' e') g nw out ->
  (forall x, x ∈ out -> x ∈ at_versions t) ->
  (forall y, y ∈ at_versions t -> exists x, x ∈ out /\ v_key x = v_key y /\ (v_seq y < v_seq x \/ y = x)) ->
  Forall2 (table_holds (encoded_key (eg_schema e))) (active (eg_memtable e') :: rev (immutable (eg_memtable e'))) ts ->
  (forall n, n ∈ nw -> (exists y, y ∈ out /\ v_seq y = seq_max (meta n)) /\
     (exists y, y ∈ out /\ v_seq y = seq_min (meta n)) /\ forall y, y ∈ out -> seq_min (meta n) <= v_seq y <= seq_max (meta n)) ->
  (forall n x, n ∈ nw -> x ∈ sh (view d' e') n -> stored_version (eg_schema e') x) ->
  eg_schema e' = eg_schema e -> eg_global e' = eg_global e -> eg_visible e' = eg_visible e ->
  sealed (active (eg_memtable e')) = false ->
  WriterOk xxh3_64 crc32 (B := B) (disk_files d') (disk_puffins d') e' ts (sh (view d' e')) /\
  Ordered crc32 (B := B) (view d' e') ts /\
  forall k, visible_row d' e' ts k = visible_row d e (ts ++ [t]) k.
Proof.
  intros HK HM Hout Hdom Hmem Hmax Hst Es Eg Ev Hop.
  pose proof (fk_ordered _ _ _ _ _ HK) as HO. destruct (fk_writer _ _ _ _ _ HK) as [HE HC _ Hsq Hv].
  assert (Hmem' : Forall2 (table_holds (encoded_key (en_schema (view d' e'))))
    (active (en_memtable (view d' e')) :: rev (immutable (en_memtable (view d' e')))) ts) by (cbn; by rewrite Es).
  split; [|split].
  - split.
    + exact (moved_engine_ok xxh3_64 crc32 _ _ _ _ _ _ _ HM HE HO Hout Hmem' Hmax Hst).
    + eapply (moved_cache xxh3_64 crc32); [exact HM|exact HO|exact Hout|exact Hdom| |exact HC]. exact Hsq.
    + done.
    + intros x Hx. rewrite Ev. apply Hsq. by eapply (moved_sub xxh3_64 crc32).
    + by rewrite Ev, Eg.
  - exact (moved_ordered xxh3_64 crc32 _ _ _ _ _ _ _ HM HE HO Hout Hmax Hst).
  - intros k. unfold visible_row. rewrite Ev. eapply (moved_newest xxh3_64 crc32); [exact HM|exact HO|done|done|exact Hsq].
Qed.

(** An empty memtable is dropped. *)
Lemma drop_empty d e ts imm : StoreOk d e ts -> oldest_immutable (eg_memtable e) = Some imm ->
  mem_iter SEQNUM_MAX imm = Ok [] ->
  exists ts', length ts = Datatypes.S (length ts') /\
    let e' := set_memtable (drop_flushed (first_seq imm) (eg_memtable e)) e in
    StoreOk d e' ts' /\ forall k, visible_row d e' ts' k = visible_row d e ts k.
Proof.
  intros HK Himm Hit. destruct (oldest_table d e ts imm HK Himm) as (ts' & t & rest & -> & Ei & Ht & Hne & Hdrop & Hmem).
  destruct (iterated_table e imm t [] Ht Hit) as (out & Eout & _ & Hsub & _ & Hdom).
  destruct out as [|]; [|done]. exists ts'. split; [by rewrite length_app, Nat.add_comm|]. intros e'.
  assert (Hno : forall y, y ∈ at_versions t -> False) by (intros y Hy; by destruct (Hdom y Hy) as (x & ?%elem_of_nil & _)).
  assert (HM : Moved xxh3_64 crc32 (B := B) (view d e) (view d e') id [] []).
  { split; try done.
    - intros l. cbn. destruct (l =? 0); cbn; by rewrite map_id.
    - intros l f Hf. destruct (eo_files _ _ _ _ _ (wo_engine _ _ _ _ _ _ _ (fk_writer _ _ _ _ _ HK)) l f Hf) as [H1 H2]. by split.
    - intros l f x Hf Hx. by left.
    - cbn. lia. }
  assert (Hd' : forall f, sh (view d e') f = sh (view d e) f) by done.
  destruct (moved_writer d e d e' ts' t id [] [] HK HM) as (HW & HOr & Hvis); try done.
  { by intros x ?%elem_of_nil. }
  { unfold e'. cbn [set_memtable with_state eg_memtable]. by rewrite Hdrop. }
  { by intros n ?%elem_of_nil. }
  { by intros n x ?%elem_of_nil. }
  { apply (wo_open _ _ _ _ _ _ _ (fk_writer _ _ _ _ _ HK)). }
  split; [|exact Hvis]. destruct HK as [_ _ Hfirst Htab Hsch Hver Hrows Hsid Hdvs Hfiles Hpaths Hpend Htidy Hfront]. split; try done.
  - unfold e'. cbn [set_memtable with_state eg_memtable]. rewrite Hdrop. rewrite Ei in Hfirst. cbn in Hfirst. by apply NoDup_cons in Hfirst as [_ ?].
  - destruct ts' as [|t0 ts']; [done|]. cbn in Htab. by apply Forall_app in Htab as [? _].
  - intros l f Hf. destruct (Hfiles l f Hf) as (Hp & rd & dv & []). split; [done|]. exists rd, dv. by split.
Qed.

(** *** The data file *)
Definition new_file e (es : list MemEntry) (file_id : string) (fl : F) : IcebergDataFile :=
  let size := Z.of_nat (length (file_bytes fl)) in
  {| df_path := join_path (data_file file_id); df_file_size := size; df_num_rows := Z.of_nat (length es);
     df_meta := flush_meta es (file_format_for (eg_config e) 0) size (footer_stats (eg_schema e) fl) |}.

Lemma flush_file_spec d0 e es file_id rows (fl : F) bl m :
  flush_rows (eg_schema e) es = Ok rows -> length rows = length es ->
  write_sorted_rows xxh3_64 rows (eg_schema e) 0 (file_format_for (eg_config e) 0)
    (bloom_bits_per_key (eg_config e)) = Ok (Some fl, bl, m) ->
  ~ footprint e (data_file file_id) ->
  triple (fun d => stays (footprint e) d0 d) (flush_file xxh3_64 (F := F) e es file_id)
    (fun r d => stays (footprint e) d0 d /\
       match r with
       | Ok df => df = new_file e es file_id fl /\ read_file d (data_file file_id) = Some (file_bytes fl)
       | _ => True
       end) (fun _ => True).
Proof.
  intros Hrows Hlen Hw Hfree. unfold flush_file. rewrite Hrows, io_try_ok, Hw, io_try_ok. cbn [fst]. cbv zeta.
  set (I := fun d => stays (footprint e) d0 d).
  do 2 (apply triple_try with (R := fun _ => I);
    [apply triple_syscall; [done|intros d Hd; exact Hd|intros d junk Hd; by split]|intros _]).
  destruct (file_bytes fl) as [|b bs] eqn:Ef; [by destruct (file_bytes_nonempty fl)|]. rewrite <- Ef.
  apply triple_try with (R := fun _ d => I d /\ read_file d (data_file file_id) = Some (file_bytes fl)).
  2:{ intros _. apply triple_ret. intros d [Hd Hr]. split; [done|]. split; [|done]. unfold new_file. cbn [snd]. by rewrite Hlen, (written_stats xxh3_64 _ _ _ _ _ _ _ _ Hw). }
  apply triple_try with (R := fun _ d => I d /\ read_file d (data_file file_id) = Some (file_bytes fl)).
  { apply triple_syscall; [done| |intros d junk Hd]; cbn [fst snd].
    - intros d Hd. split; [by eapply stays_trans, stays_write|apply read_written].
    - split; [by eapply stays_trans, stays_write|done]. }
  intros _. apply triple_try with (R := fun _ d => I d /\ read_file d (data_file file_id) = Some (file_bytes fl)).
  { apply triple_syscall; [done| |intros d junk [Hd _]; by split]. intros d [Hd Hr].
    destruct (lookup_path d (data_file file_id)); cbn [fst snd]; [|by split].
    split; [eapply stays_trans, stays_sync_file; done|by rewrite read_sync_file]. }
  intros _. apply triple_bind with (R := fun _ d => I d /\ read_file d (data_file file_id) = Some (file_bytes fl)).
  { apply triple_syscall; [done| |done]. intros d [Hd Hr]. cbn [fst snd].
    split; [eapply stays_trans, stays_sync_dir; done|by rewrite read_sync_dir]. }
  intros _. apply triple_ret. by intros d [? ?].
Qed.

(** *** The transaction *)
Definition marks_of (t : SnapshotTransaction B) (q : string) : gset Z :=
  from_option (fun dv => rb_set (bitmap dv)) ∅ (dvs t !! q).

(** What the flush may add to the deletion vectors: positions of rows whose
    keys it writes. *)
Definition sound_txn d e (keys : list bytes) (t : SnapshotTransaction B) : Prop :=
  (forall q, q ∈ dom (dvs t) -> exists l f, f ∈ files_at (current e) l /\ path f = q) /\
  forall l f rd dv p, f ∈ files_at (current e) l -> open_file crc32 (B := B) (view d e) f = Ok (rd, dv) ->
    p ∈ marks_of t (path f) -> superseded rd dv keys p.

Lemma resolve_step_spec e ts keys (t0 : SnapshotTransaction B) (P : Disk -> Prop) :
  dvs t0 = ∅ -> StronglySorted bytes_lt keys ->
  triple (fun d => StoreOk d e ts /\ P d) (resolve_step crc32 (F := F) (B := B) e keys t0)
    (fun r d => StoreOk d e ts /\ P d /\
       match r with
       | Ok t => adds t = adds t0 /\ removes t = removes t0 /\ sound_txn d e keys t
       | _ => True
       end) (fun _ => True).
Proof.
  intros E Hs. assert (H0 : forall d, sound_txn d e keys t0).
  { intros d. unfold sound_txn, marks_of. rewrite E. split; [set_solver|]. intros l f rd dv p _ _. rewrite lookup_empty. set_solver. }
  unfold resolve_step. destruct keys as [|k keys]; [by apply triple_ret; intros d []|]. set (K := k :: keys) in *.
  apply triple_try with (R := fun deltas d => StoreOk d e ts /\ P d /\
    resolve_dv_for_flush crc32 (B := B) (view d e) (current e) K = Ok deltas).
  { apply triple_syscall; [done| |].
    - intros d [HK HP]. cbn [fst snd]. by destruct (resolve_dv_for_flush _ _ _ _).
    - intros d junk [HK HP]. done. }
  intros deltas. apply triple_ret. intros d (HK & HP & Hres). split; [done|]. split; [done|].
  destruct (add_dvs_spec deltas t0 E) as (-> & -> & Hd). split; [done|]. split; [done|].
  destruct (resolve_spec xxh3_64 crc32 (B := B) (view d e) (current e) K Hs) as (out & Hout & Hsound & _).
  { intros f Hf. apply elem_all_files in Hf as (l & _ & Hf). by apply (fk_files _ _ _ _ _ HK l). }
  rewrite Hres in Hout. injection Hout as <-. split.
  - intros q. rewrite Hd, dom_fmap_L. intros Hq. destruct (resolve_dom _ _ _ _ _ _ Hres Hq) as (f & Hf & <-).
    apply elem_all_files in Hf as (l & _ & Hf). eauto.
  - intros l f rd dv p Hf Ho Hp. unfold marks_of in Hp. rewrite Hd, lookup_fmap in Hp.
    destruct (deltas !! path f) as [bm|] eqn:Eb; [|by apply elem_of_empty in Hp]. cbn in Hp. rewrite dv_of_set in Hp.
    destruct (Hsound (path f) p) as (f' & rd' & dv' & Hf' & Hpath & Ho' & Hsup); [unfold marks; by rewrite Eb|].
    apply elem_all_files in Hf' as (l' & _ & Hf'). assert (f' = f) as -> by (by eapply (fk_paths _ _ _ _ _ HK)).
    rewrite Ho in Ho'. by injection Ho' as <- <-.
Qed.

(** *** After the commit *)
Section committed.
Context d0 d1 e e1 ts (t : SnapshotTransaction B) (locs : gmap string DvLocation) (m' : Manifest) (X : string -> gset Z)
  (keys : list bytes) (df : IcebergDataFile) (order : list (string * DeletionVector B)) (uuid : string) (now_ms : Z).
Context (HK : StoreOk d0 e ts) (Hsid : 0 <= next_sid e < 2 ^ 63 - 1).
Context (HX : DvState crc32 (B := B) d0 (manifest e) (next_sid e) X).
Context (Hap : apply now_ms uuid (manifest e) t (next_sid e) locs = Ok m').
Context (Hloc : forall q loc, locs !! q = Some loc -> Commit.loc_ok crc32 (J := J) (manifest e) (next_sid e) X order q loc).
Context (HX1 : DvState crc32 (B := B) d1 m' (next_sid e + 1) (deleted_after t X)).
Context (Hadds : adds t = [df]) (Hrem : removes t = []) (Hadd : add_ok df) (Hlv : level (df_meta df) = 0).
Context (Hfresh : forall l f, f ∈ files_at (current e) l -> path f <> df_path df).
Context (Hsmax : forall l f, f ∈ files_at (current e) l -> seq_max (meta f) < seq_max (df_meta df)).
Context (Hsound : sound_txn d0 e keys t) (HS : stays (footprint e) d0 d1).
Context (Es : eg_schema e1 = eg_schema e) (Ev : current e1 = to_version m' (eg_schema e)).
Local Abbreviation g := (restamped t locs).

Lemma committed_files l : files_at (current e1) l = (if l =? 0 then [as_file df] else []) ++ map g (files_at (current e) l).
Proof.
  rewrite Ev, (fk_version _ _ _ _ _ HK). eapply flushed_files; [apply (fk_rows _ _ _ _ _ HK)|done..| |exact Hap].
  intros h Hh. rewrite <- (fk_version _ _ _ _ _ HK) in Hh. by eapply Hsmax.
Qed.

Lemma committed_coords f : coords_ok f -> coords_ok (g f).
Proof.
  intros Hc. unfold restamped. destruct (dvs t !! path f) as [dv|]; [|done].
  destruct (locs !! path f) as [loc|] eqn:El; [|done]. destruct (Hloc _ _ El) as (new & mdv & enc & _ & _ & He & ->).
  cbn [dv_offset dv_length coords_ok loc_offset loc_length]. unfold coords_ok. cbn [dv_offset dv_length].
  destruct (encode_puffin_bounds crc32 _ _ _ _ _ He) as (-> & Hl & _).
  assert (blob_length enc < 2 ^ 63).
  { unfold encode_puffin in He. destruct (rb_serialize (bitmap mdv)) as [r32|]; [|done].
    set (r64 := le_split 8 1 ++ le_split 4 0 ++ r32) in He. destruct (Z.ltb_spec (2 ^ 32 - 1) (Z.of_nat (length DV_MAGIC + length r64 + 4))) as [|H32]; [done|].
    destruct (footer_to_string _); [|done]. destruct (_ <? _); [done|]. injection He as <-. cbn [blob_length].
    change (length DV_MAGIC) with 4%nat in H32. clearbody r64.
    do 3 (rewrite ?length_app, ?be_split_length; cbn [length]). lia. }
  unfold in_i. lia.
Qed.

(** A file of the old version: the same rows, more of them deleted. *)
Lemma committed_old l f : f ∈ files_at (current e) l -> exists rd dv dv',
  open_file crc32 (B := B) (view d0 e) f = Ok (rd, dv) /\ open_file crc32 (B := B) (view d1 e1) (g f) = Ok (rd, dv') /\
  Resolvable xxh3_64 crc32 (view d1 e1) (g f) rd dv' /\
  (forall p, marked dv' p = marked dv p || bool_decide (p ∈ marks_of t (path f))) /\
  Z.of_nat (length (rows_of rd)) <= 2 ^ 32.
Proof.
  intros Hf. destruct (fk_files _ _ _ _ _ HK l f Hf) as (Hp & rd & dv & [R1 R2 R3 R4 R5 R6 R7]).
  destruct (restamped_meta t locs f) as (Gp & _ & Gmin & Gmax & Gn & _).
  assert (Hg : g f ∈ files_at (current e1) l) by (rewrite committed_files; apply elem_of_app; right; by apply list_elem_of_fmap_2).
  rewrite Ev in Hg. apply elem_entries in Hg as (ent' & He' & Hl' & _ & Eg).
  assert (Hf0 := Hf). rewrite (fk_version _ _ _ _ _ HK) in Hf0. apply elem_entries in Hf0 as (ent & He & Hl & _ & Ef).
  destruct (load_dv_stored crc32 d0 (view d0 e) (next_sid e) X ent ltac:(lia) ltac:(unfold in_i; lia) ltac:(done) (HX ent He Hl)) as (dv0 & L0 & M0).
  destruct (load_dv_stored crc32 d1 (view d1 e1) (next_sid e + 1) (deleted_after t X) ent' ltac:(lia) ltac:(unfold in_i; lia) ltac:(done) (HX1 ent' He' Hl')) as (dv' & L1 & M1).
  rewrite <- Ef in L0. rewrite <- Eg in L1.
  assert (Epath : me_path ent' = path f) by (rewrite <- Gp, Eg; done).
  assert (Epath0 : me_path ent = path f) by (rewrite Ef; done). rewrite Epath in M1. rewrite Epath0 in M0.
  (* the reader *)
  pose proof R1 as Ho. unfold open_file in Ho. cbn [dview eview en_files en_schema] in Ho.
  destruct (ok_or (disk_files d0 (path f)) Io) as [src|?|] eqn:Esrc; [|done..]. rewrite Ok_bind in Ho.
  destruct (FileReader.open src (eg_schema e)) as [rd0|?|] eqn:Erd; [|done..]. rewrite Ok_bind in Ho.
  change (eview (disk_files d0) (disk_puffins d0) e) with (view d0 e) in Ho. rewrite L0, Ok_bind in Ho. injection Ho as <- <-.
  assert (Hopen : open_file crc32 (B := B) (view d1 e1) (g f) = Ok (rd0, dv')).
  { unfold open_file. rewrite Gp. cbn [dview eview en_files en_schema]. rewrite Es.
    assert (disk_files (F := F) d1 (path f) = disk_files d0 (path f)) as ->.
    { unfold disk_files. by rewrite (footprint_read xxh3_64 crc32 d0 d1 e ts _ HK HS) by (exists l, f; auto). }
    rewrite Esrc, Ok_bind, Erd, Ok_bind. change (eview (disk_files d1) (disk_puffins d1) e1) with (view d1 e1). by rewrite L1. }
  assert (HM : forall p, marked dv' p = marked dv0 p || bool_decide (p ∈ marks_of t (path f))).
  { intros p. rewrite M1, M0, <- bool_decide_or. apply bool_decide_ext. rewrite <- elem_of_union.
    assert (deleted_after t X (path f) = X (path f) ∪ marks_of t (path f)) as ->; [|done].
    unfold deleted_after. rewrite Hadds, bool_decide_false; [done|].
    cbn. intros Hin%list_elem_of_singleton. by apply (Hfresh l f). }
  exists rd0, dv0, dv'. split; [done|]. split; [done|]. split; [|split; [done|by rewrite <- R4]].
  split; try done.
  - cbn [dview eview en_schema] in *. by rewrite Es.
  - by apply committed_coords.
  - by rewrite Gn.
  - by rewrite Gn.
  - intros p Hm. rewrite Gn. rewrite HM in Hm. apply orb_true_iff in Hm as [Hm|Hm%bool_decide_eq_true]; [by apply R6|].
    destruct (proj2 Hsound l f rd0 dv0 p Hf R1 Hm) as (H0 & _ & x & Hx & _). apply lookup_lt_Some in Hx. lia.
  - intros x Hx. rewrite Gmin, Gmax. by apply R7.
Qed.

Lemma committed_rows : Forall Manifest.rows_ok (m_entries m').
Proof.
  eapply apply_rows_ok; [apply (fk_rows _ _ _ _ _ HK)| |exact Hap]. rewrite Hadds. by apply Forall_singleton.
Qed.

(** The new file. *)
Context (file_id : string) (fl : F) (rdn : ParquetReader F) (out : list (VersionOf bytes)).
Context (Hid : file_id <> ""%string) (Hslash : slash ∉ list_ascii_of_string file_id).
Context (Edf : df = new_file e (map mem_entry_of out) file_id fl) (Hout : out <> []).
Context (Hread : read_file d1 (data_file file_id) = Some (file_bytes fl)).
Context (Hrdn : FileReader.open fl (eg_schema e) = Ok rdn) (Hok : FileOk xxh3_64 (encoded_key (eg_schema e)) rdn).
Context (Hmap : map (fun z => vmap file_row (row_version z)) (rows_of rdn) = map (vmap mem_row) out).
Context (Hsorted : StronglySorted bytes_lt (map v_key out)) (Hkeys : forall x, x ∈ out -> v_key x <> []).
Context (Hsmall : Z.of_nat (length out) <= 2 ^ 32).

Lemma new_row z : z ∈ rows_of rdn -> exists x, x ∈ out /\ user_key_bytes z.1 = v_key x.
Proof.
  intros Hz. assert (H : vmap file_row (row_version z) ∈ map (vmap mem_row) out).
  { rewrite <- Hmap. apply (list_elem_of_fmap_2 (fun z => vmap file_row (row_version z)) _ _ Hz). }
  apply list_elem_of_fmap in H as (x & E & Hx). exists x. split; [done|]. by apply (f_equal v_key) in E.
Qed.

Lemma new_bounds x : x ∈ out -> ~ bytes_lt (v_key x) (key_min (df_meta df)) /\ ~ bytes_lt (key_max (df_meta df)) (v_key x) /\
  key_min (df_meta df) <> [] /\ key_max (df_meta df) <> [].
Proof.
  intros Hx. rewrite Edf. cbn [new_file df_meta flush_meta key_min key_max].
  assert (Hle : forall i j a b, out !! i = Some a -> out !! j = Some b -> (i <= j)%nat -> ~ bytes_lt (v_key b) (v_key a)).
  { intros i j a b Ha Hb Hij L. destruct (decide (i = j)) as [->|Hne].
    - rewrite Ha in Hb. injection Hb as ->. by apply bytes_lt_irrefl in L.
    - apply (bytes_lt_irrefl (v_key a)). eapply bytes_lt_trans; [|exact L].
      apply (StronglySorted_lookup bytes_lt (map v_key out) i j); [done|lia|..]; by rewrite list_lookup_fmap, ?Ha, ?Hb. }
  apply list_elem_of_lookup in Hx as [i Hi].
  destruct (head (map mem_entry_of out)) as [h|] eqn:Eh; [|by destruct out].
  destruct (last (map mem_entry_of out)) as [z|] eqn:El; [|apply last_None in El; by destruct out].
  assert (exists a, out !! 0%nat = Some a /\ h = mem_entry_of a) as (a & Ha & ->).
  { destruct out as [|a o]; [done|]. cbn in Eh. injection Eh as <-. by exists a. }
  assert (exists b, out !! pred (length out) = Some b /\ z = mem_entry_of b) as (b & Hb & ->).
  { rewrite last_lookup, list_lookup_fmap, length_map in El. destruct (out !! pred (length out)) as [b|]; [|done].
    injection El as <-. by exists b. }
  cbn [mem_entry_of me_user_key]. split; [by apply (Hle 0%nat i); [|done|lia]|].
  split; [apply (Hle i (pred (length out))); [done..|apply lookup_lt_Some in Hi; lia]|].
  split; apply Hkeys; by eapply list_elem_of_lookup_2.
Qed.

Lemma new_open : open_file crc32 (B := B) (view d1 e1) (as_file df) = Ok (rdn, None).
Proof.
  unfold open_file. cbn [as_file path dview eview en_files en_schema]. rewrite Edf. cbn [new_file df_path].
  unfold disk_files. rewrite split_join by (by apply parquet_no_slash). rewrite Hread. cbn [fmap option_fmap option_map ok_or].
  rewrite Ok_bind, file_of_bytes, Es, Hrdn, Ok_bind. done.
Qed.

Lemma new_resolvable : Resolvable xxh3_64 crc32 (view d1 e1) (as_file df) rdn (None : option B).
Proof.
  assert (El : length (rows_of rdn) = length out) by (apply (f_equal length) in Hmap; by rewrite !length_map in Hmap).
  assert (En : num_rows (df_meta df) = Z.of_nat (length out)) by (rewrite Edf; cbn; by rewrite length_map).
  split.
  - exact new_open.
  - cbn [dview eview en_schema]. by rewrite Es.
  - done.
  - cbn [as_file meta]. by rewrite En, El.
  - cbn [as_file meta]. by rewrite En.
  - done.
  - intros z Hz. cbn [as_file meta]. destruct (new_row z Hz) as (x & Hx & ->). destruct (new_bounds x Hx) as (B1 & B2 & B3 & B4). done.
Qed.

Context (Evis : eg_visible e1 = eg_visible e) (Ecache : eg_cache e1 = eg_cache e).
Context (Hflushed : forall k, k ∈ keys -> k ∈ map v_key out).

Lemma committed_moved : Moved xxh3_64 crc32 (B := B) (view d0 e) (view d1 e1) g [as_file df] out.
Proof.
  assert (Hstate : forall l f, f ∈ files_at (current e1) l -> exists rd dv, Resolvable xxh3_64 crc32 (B := B) (view d1 e1) f rd dv).
  { intros l f. rewrite committed_files. intros [Hf|(h & -> & Hh)%list_elem_of_fmap]%elem_of_app.
    - destruct (l =? 0); [|by apply elem_of_nil in Hf]. apply list_elem_of_singleton in Hf as ->. exists rdn, None. exact new_resolvable.
    - destruct (committed_old l h Hh) as (rd & dv & dv' & _ & _ & HR & _). by exists rd, dv'. }
  split.
  - done.
  - cbn. by rewrite Evis.
  - done.
  - exact committed_files.
  - intros f. destruct (restamped_meta t locs f) as (_ & H1 & H2 & H3 & _ & _ & H4). done.
  - intros l f Hf. destruct (Hstate l f Hf) as (rd & dv & HR). by eapply resolvable_state.
  - intros l f x Hf. destruct (committed_old l f Hf) as (rd & dv & dv' & Ho & Ho' & _ & HM & Hlen).
    unfold shown. rewrite Ho, Ho'. by apply (shown_masked _ _ _ _ Hlen HM).
  - intros l f x Hf. destruct (committed_old l f Hf) as (rd & dv & dv' & Ho & Ho' & _ & HM & Hlen).
    unfold shown. rewrite Ho, Ho'. intros Hx. destruct (proj2 (shown_masked _ _ _ _ Hlen HM) x Hx) as [?|(i & y & Hi & Hp & ->)]; [by left|right].
    apply Hflushed. destruct (proj2 Hsound l f rd dv _ Hf Ho Hp) as (_ & _ & z & Hz & Hk). rewrite Nat2Z.id in Hz.
    rewrite Hi in Hz. by injection Hz as <-.
  - cbn [map concat]. rewrite app_nil_r. unfold shown. rewrite new_open, live_versions_none, map_map. exact Hmap.
  - cbn. lia.
Qed.

Lemma committed_paths l l' f f' : f ∈ files_at (current e1) l -> f' ∈ files_at (current e1) l' -> path f = path f' -> f = f' /\ l = l'.
Proof.
  rewrite !committed_files. intros [Hf|(h & -> & Hh)%list_elem_of_fmap]%elem_of_app [Hf'|(h' & -> & Hh')%list_elem_of_fmap]%elem_of_app E.
  - destruct (Z.eqb_spec l 0) as [->|]; [|by apply elem_of_nil in Hf]. destruct (Z.eqb_spec l' 0) as [->|]; [|by apply elem_of_nil in Hf'].
    apply list_elem_of_singleton in Hf as ->. by apply list_elem_of_singleton in Hf' as ->.
  - destruct (l =? 0); [|by apply elem_of_nil in Hf]. apply list_elem_of_singleton in Hf as ->.
    destruct (restamped_meta t locs h') as (Ep & _). rewrite Ep in E. by destruct (Hfresh l' h' Hh').
  - destruct (l' =? 0); [|by apply elem_of_nil in Hf']. apply list_elem_of_singleton in Hf' as ->.
    destruct (restamped_meta t locs h) as (Ep & _). rewrite Ep in E. by destruct (Hfresh l h Hh).
  - destruct (restamped_meta t locs h) as (Ep & _), (restamped_meta t locs h') as (Ep' & _). rewrite Ep, Ep' in E.
    by destruct (fk_paths _ _ _ _ _ HK l l' h h' Hh Hh' E) as [-> ->].
Qed.

(** Nothing queued for deletion is needed again. *)
Lemma committed_pending p : p ∈ eg_pending e -> split_path (pd_path p) <> data_file file_id ->
  ~ footprint e1 (split_path (pd_path p)).
Proof.
  intros Hp Hn (l & f & Hf & Hin). destruct (fk_pending _ _ _ _ _ HK p Hp) as [Hfree Hlater].
  rewrite committed_files in Hf. apply elem_of_app in Hf as [Hf|(h & -> & Hh)%list_elem_of_fmap].
  - destruct (l =? 0); [|by apply elem_of_nil in Hf]. apply list_elem_of_singleton in Hf as ->.
    destruct Hin as [E|(q & Eq & _)]; [|done]. apply Hn. rewrite E, Edf. cbn [as_file path new_file df_path]. by apply split_parquet.
  - destruct Hin as [E|(q & Eq & E)].
    { apply Hfree. exists l, h. destruct (restamped_meta t locs h) as (Ep & _). rewrite Ep in E. auto. }
    unfold restamped in Eq. destruct (dvs t !! path h) as [dv|]; [|apply Hfree; exists l, h; eauto].
    destruct (locs !! path h) as [loc|] eqn:El; [|apply Hfree; exists l, h; eauto].
    destruct (Hloc _ _ El) as (new & mdv & enc & _ & _ & _ & ->). cbn in Eq. injection Eq as <-.
    apply (Hlater (path h) (next_sid e)); [lia|]. rewrite E. apply split_puffin; unfold in_i; lia.
Qed.

Lemma committed_resolvable l f : f ∈ files_at (current e1) l -> parquet_path (path f) /\
  exists rd dv, Resolvable xxh3_64 crc32 (B := B) (view d1 e1) f rd dv.
Proof.
  rewrite committed_files. intros [Hf|(h & -> & Hh)%list_elem_of_fmap]%elem_of_app.
  - destruct (l =? 0); [|by apply elem_of_nil in Hf]. apply list_elem_of_singleton in Hf as ->.
    split; [|exists rdn, None; exact new_resolvable]. cbn [as_file path]. rewrite Edf. cbn [new_file df_path].
    exists "data/L0"%string, file_id. done.
  - destruct (restamped_meta t locs h) as (-> & _). split; [by apply (fk_files _ _ _ _ _ HK l)|].
    destruct (committed_old l h Hh) as (rd & dv & dv' & _ & _ & HR & _). by exists rd, dv'.
Qed.
End committed.

(** *** The whole flush *)
Context (Hcrc : forall l, 0 <= crc32 l < 2 ^ 32) (Hxxh : forall l, 0 <= xxh3_64 l < 2 ^ 64).
Context (Hpost : forall r, is_Some (postcard_to_vec r)) (Hiter : forall m, dv_iter m ≡ₚ map_to_list m).

(** A fresh name for the new file. *)
Definition fresh_id e (file_id : string) : Prop :=
  file_id <> ""%string /\ slash ∉ list_ascii_of_string file_id /\
  (forall l f, f ∈ files_at (current e) l -> path f <> join_path (data_file file_id)) /\
  forall p, p ∈ eg_pending e -> split_path (pd_path p) <> data_file file_id.

Lemma fresh_footprint d e ts file_id : StoreOk d e ts -> fresh_id e file_id -> ~ footprint e (data_file file_id).
Proof.
  intros HK (_ & Hs & Hf & _) Hp. destruct (footprint_cases xxh3_64 crc32 d e ts _ HK Hp) as (l & f & Hin & [E|(s & _ & E)]).
  - apply (Hf l f Hin). destruct (fk_files _ _ _ _ _ HK l f Hin) as ((dir & id & Ep & _ & Hs') & _).
    rewrite Ep, split_parquet in E by done. rewrite Ep. by rewrite <- E.
  - revert E. unfold data_file. solve_paths.
Qed.

(** What the flush hands to the catalog. *)
Record Prepared d e (out : list (VersionOf bytes)) (file_id : string) (fl : F) (t : SnapshotTransaction B) : Prop := {
  pp_adds : adds t = [new_file e (map mem_entry_of out) file_id fl];
  pp_removes : removes t = [];
  pp_sound : exists keys, sound_txn d e keys t /\ forall k, k ∈ keys -> k ∈ map v_key out;
  pp_read : read_file d (data_file file_id) = Some (file_bytes fl);
}.

(** What a flush of the file [file_id] that returns leaves. *)
Record flushed d0 e ts (file_id : string) (r : Engine S M C * res unit) d : Prop := {
  fd_reads : exists ts', StoreOk d r.1 ts' /\ forall k, visible_row d r.1 ts' k = visible_row d0 e ts k;
  fd_queue : match r.2 with
    | Ok _ => immutable (eg_memtable r.1) = tail (immutable (eg_memtable e))
    | _ => r.1 = e
    end;
  fd_names l f : f ∈ files_at (current r.1) l ->
    (exists l' f', f' ∈ files_at (current e) l' /\ path f' = path f) \/ path f = join_path (data_file file_id);
  fd_schema : eg_schema r.1 = eg_schema e;
  fd_visible : eg_visible r.1 = eg_visible e;
  fd_pending : eg_pending r.1 = eg_pending e;
  fd_sid : next_sid e <= next_sid r.1 <= next_sid e + 1;
}.

Lemma unflushed d0 d e ts file_id r : StoreOk d0 e ts ->
  stays (footprint e) d0 d -> match r with Ok _ => False | _ => True end -> flushed d0 e ts file_id (e, r) d.
Proof.
  intros HK HS Hr. split; cbn [fst snd]; try done.
  - exists ts. split; [by eapply StoreOk_stays|]. intros k. by eapply visible_row_stays.
  - by destruct r.
  - intros l f Hf. left. eauto.
  - lia.
Qed.

Lemma prepare_spec d0 e ts out vs file_id rows (fl : F) bl m first last :
  StoreOk d0 e ts -> fresh_id e file_id ->
  StronglySorted bytes_lt (map v_key out) -> out ⊆+ vs ->
  flush_rows (eg_schema e) (map mem_entry_of out) = Ok rows -> length rows = length out ->
  write_sorted_rows xxh3_64 rows (eg_schema e) 0 (file_format_for (eg_config e) 0)
    (bloom_bits_per_key (eg_config e)) = Ok (Some fl, bl, m) ->
  triple (fun d => stays (footprint e) d0 d)
    (f <-? flush_file xxh3_64 (F := F) e (map mem_entry_of out) file_id;
     resolve_step crc32 (F := F) (B := B) e (flush_keys e (map mem_entry_of out)) (flush_txn e first last f))
    (fun r d => stays (footprint e) d0 d /\
       match r with Ok t => Prepared d e out file_id fl t | _ => True end) (fun _ => True).
Proof.
  intros HK Hid Hs Hsub Hrows Hlen Hw.
  apply triple_try with (R := fun df d => df = new_file e (map mem_entry_of out) file_id fl /\
    stays (footprint e) d0 d /\ read_file d (data_file file_id) = Some (file_bytes fl)).
  { eapply triple_conseq; [eapply (flush_file_spec d0 e); [exact Hrows|by rewrite length_map|exact Hw|by eapply fresh_footprint]|done| |done].
    intros [df|x|] d (HS & H); [by destruct H as [-> ?]|done..]. }
  intros df. apply triple_pure. intros ->. set (df := new_file _ _ _ _).
  set (P := fun d => stays (footprint e) d0 d /\ read_file d (data_file file_id) = Some (file_bytes fl)).
  assert (Hk : StronglySorted bytes_lt (flush_keys e (map mem_entry_of out)) /\
    forall k, k ∈ flush_keys e (map mem_entry_of out) -> k ∈ map v_key out).
  { unfold flush_keys. destruct (enable_flush_dv_emission _); [rewrite dedup_keys_sorted by done; done|].
    split; [constructor|by intros k ?%elem_of_nil]. }
  eapply triple_conseq; [apply (resolve_step_spec e ts _ (flush_txn e first last df) P)| | |]; [done|apply Hk| | |done].
  - intros d HP. split; [|exact HP]. eapply StoreOk_stays; [apply HP|done].
  - intros [t|x|] d (HKd & [HS Hr] & Ht); cbn in *; [|done..]. split; [done|]. destruct Ht as (A1 & A2 & A3).
    split; [done|done| |done]. exists (flush_keys e (map mem_entry_of out)). split; [done|apply Hk].
Qed.

(** The deletion vectors of the transaction go to files of their own. *)
Lemma prepared_names d e ts keys (t : SnapshotTransaction B) sid : StoreOk d e ts -> sound_txn d e keys t ->
  NoDup (map (fun x : string * DeletionVector B => puffin_path x.1 sid) (dv_iter (dvs t))).
Proof.
  intros HK Hs. assert (Hn : NoDup (dv_iter (dvs t))) by (rewrite Hiter; apply NoDup_map_to_list).
  assert (Hq : forall q a, (q, a) ∈ dv_iter (dvs t) -> dvs t !! q = Some a /\ parquet_path q).
  { intros q a Hx. rewrite Hiter in Hx. apply elem_of_map_to_list in Hx. split; [done|].
    destruct (proj1 Hs q) as (l & f & Hf & <-); [by apply elem_of_dom; eexists|]. by apply (fk_files _ _ _ _ _ HK l). }
  apply (NoDup_fmap_2_strong (fun x : string * DeletionVector B => puffin_path x.1 sid)); [|exact Hn].
  intros [q a] [q' a'] [Hx Px]%Hq [Hy Py]%Hq E. cbn in E. apply puffin_inj in E; [subst q'; congruence|done..].
Qed.

(** The sequence numbers of the new file are those of its rows. *)
Lemma new_file_seqs e out file_id fl : out <> [] -> (forall x, x ∈ out -> seq_ok x) ->
  let m := df_meta (new_file e (map mem_entry_of out) file_id fl) in
  (exists y, y ∈ out /\ v_seq y = seq_max m) /\ (exists y, y ∈ out /\ v_seq y = seq_min m) /\
  forall x, x ∈ out -> seq_min m <= v_seq x <= seq_max m.
Proof.
  intros Hne Hok m. assert (Hmax : SEQNUM_MAX < u64_max) by (vm_compute; reflexivity).
  destruct (flush_meta_seq (map mem_entry_of out) (file_format_for (eg_config e) 0) (Z.of_nat (length (file_bytes fl))) (footer_stats (eg_schema e) fl)) as (H1 & H2 & H3).
  - by destruct out.
  - intros x (y & -> & Hy)%list_elem_of_fmap. cbn. specialize (Hok y Hy). unfold seq_ok in Hok. lia.
  - split; [|split].
    + destruct H1 as (x & (y & -> & Hy)%list_elem_of_fmap & E). by exists y.
    + destruct H2 as (x & (y & -> & Hy)%list_elem_of_fmap & E). by exists y.
    + intros x Hx. apply (H3 (mem_entry_of x)). by apply list_elem_of_fmap_2.
Qed.

Lemma flushable_count e vs : Flushable (eg_schema e) (bloom_bits_per_key (eg_config e)) vs -> Z.of_nat (length vs) < 2 ^ 32.
Proof.
  intros Hfl. pose proof (fl_index _ _ _ Hfl) as Hix. assert (length vs <= key_bytes vs)%nat; [|lia].
  unfold key_bytes. clear. induction vs as [|y l IH]; cbn in *; lia.
Qed.

Lemma commit_prepared d0 e ts tab out file_id fl rdn t sched w uuid now_ms first last :
  StoreOk d0 e (ts ++ [tab]) -> ts <> [] -> next_sid e < 2 ^ 63 - 1 -> fresh_id e file_id ->
  stays (footprint e) d0 (w_disk w) -> Prepared (w_disk w) e out file_id fl t ->
  out <> [] -> StronglySorted bytes_lt (map v_key out) -> out ⊆+ at_versions tab ->
  (forall y, y ∈ at_versions tab -> exists x, x ∈ out /\ v_key x = v_key y /\ (v_seq y < v_seq x \/ y = x)) ->
  Flushable (eg_schema e) (bloom_bits_per_key (eg_config e)) (at_versions tab) ->
  (forall x, x ∈ at_versions tab -> seq_ok x) ->
  Forall (fun z => stored_version (eg_schema e) (row_version z)) (rows_of rdn) ->
  FileReader.open fl (eg_schema e) = Ok rdn -> FileOk xxh3_64 (encoded_key (eg_schema e)) rdn ->
  map (fun z => vmap file_row (row_version z)) (rows_of rdn) = map (vmap mem_row) out ->
  Forall2 (table_holds (encoded_key (eg_schema e)))
    (active (eg_memtable e) :: rev (immutable (drop_flushed first (eg_memtable e)))) ts ->
  NoDup (map first_seq (immutable (drop_flushed first (eg_memtable e)))) ->
  immutable (drop_flushed first (eg_memtable e)) = tail (immutable (eg_memtable e)) ->
  match commit crc32 (J := J) (dv_iter (dvs t)) (eg_catalog e) t (eg_schema e) uuid now_ms sched w with
  | (w', Val (cat, Ok v)) => flushed d0 e (ts ++ [tab]) file_id (finish_flush v cat first last e, Ok tt) (w_disk w')
  | (w', Val (_, Err x)) => flushed d0 e (ts ++ [tab]) file_id (e, Err x) (w_disk w')
  | (w', Val (_, Panic)) => flushed d0 e (ts ++ [tab]) file_id (e, Panic) (w_disk w')
  | (_, Stopped) => True
  end.
Proof.
  intros HK Hne Hlast Hid HS HP Hout Hs Hsub Hdom Hfl Hpos Hst Hrdn Hok Hmap Hmem Hnd Hdrop.
  set (d := w_disk w) in *. assert (Hsid : 0 <= next_sid e < 2 ^ 63 - 1) by (pose proof (fk_sid _ _ _ _ _ HK); lia).
  assert (HKd : StoreOk d e (ts ++ [tab])) by (by eapply StoreOk_stays).
  destruct HP as [Padds Prem (keys & Psound & Pkeys) Pread]. set (df := new_file _ _ _ _) in Padds.
  destruct (footprint_free xxh3_64 crc32 d e _ HKd) as (Fp & Fm & Fh & Ft).
  destruct Hid as (Hid & Hslash & Hfresh & Hpend). assert (Hpq : parquet_path (join_path (data_file file_id))) by (by exists "data/L0"%string, file_id).
  destruct (parquet_not_committed _ (next_sid e) Hpq) as (Gp & Gm & Gh). unfold data_file in Gp, Gm, Gh. rewrite split_parquet in Gp, Gm, Gh by done.
  (* the frame *)
  set (T := fun p => footprint e p \/ p = data_file file_id).
  pose proof (commit_frame crc32 (J := J) T d (dv_iter (dvs t)) (eg_catalog e) t (eg_schema e) uuid now_ms) as Hframe. cbv zeta in Hframe.
  specialize (Hframe ltac:(intros q [H|H]; [by apply (Fp q)|by apply (Gp q)]) ltac:(intros [H|H]; [done|by apply Gm])
    ltac:(intros [H|H]; [done|apply Gh; by left]) ltac:(intros [H|H]; [done|apply Gh; by right]) sched w (stays_refl T d)).
  (* the catalog *)
  destruct (fk_dvs _ _ _ _ _ HKd) as (X & HX).
  assert (Hlive : forall q, live_path (manifest e) q -> exists l f, f ∈ files_at (current e) l /\ path f = q).
  { intros q (ent & He & Hl & <-). exists (level (me_meta ent)), (to_data_file_meta ent). split; [|done].
    rewrite (fk_version _ _ _ _ _ HKd). apply elem_entries. eauto. }
  pose proof (commit_memory crc32 (J := J) Hcrc (eg_catalog e) t (dv_iter (dvs t)) (eg_schema e) uuid now_ms X Hsid (Hiter _)) as Hmemo.
  cbv zeta in Hmemo. specialize (Hmemo (prepared_names d e _ keys t _ HKd Psound)).
  specialize (Hmemo ltac:(rewrite Padds; intros f ->%list_elem_of_singleton Hl; destruct (Hlive _ Hl) as (l & h & Hh & E); by apply (Hfresh l h Hh))
    sched w (conj (fk_tidy _ _ _ _ _ HKd) HX)).
  destruct (commit _ _ _ _ _ _ _ _ _) as [w' [[cat [v|x|]]|]]; [|apply unflushed; [done| |done]..|done].
  2,3: eapply stays_trans; [exact HS|]; eapply stays_mono; [|exact Hframe]; by left.
  destruct Hmemo as (locs & m' & Hap & Hloc & -> & -> & HX1).
  set (e1 := finish_flush _ _ _ _ _).
  assert (HS1 : stays (footprint e) d (w_disk w')) by (eapply stays_mono; [|exact Hframe]; by left).
  assert (Hread : read_file (w_disk w') (data_file file_id) = Some (file_bytes fl)).
  { rewrite <- Pread. apply (proj2 Hframe); [apply (fk_tidy _ _ _ _ _ HKd)|by right|exact Gh]. }
  destruct (sub_key_bytes _ _ Hsub) as [L1 _].
  pose proof (flushable_count e _ Hfl) as Hcount.
  assert (Hin : forall x, x ∈ out -> x ∈ at_versions tab) by (intros x Hx; by eapply elem_of_submseteq).
  assert (Hkey : forall x, x ∈ out -> v_key x <> []).
  { intros x Hx. pose proof (fl_len _ _ _ Hfl x (Hin x Hx)) as [Hl _]. by destruct (v_key x). }
  pose proof (new_file_seqs e out file_id fl Hout (fun x Hx => Hpos x (Hin x Hx))) as Hseqs. cbv zeta in Hseqs. fold df in Hseqs.
  assert (Hsmax : forall l f, f ∈ files_at (current e) l -> seq_max (meta f) < seq_max (df_meta df)).
  { intros l f Hf. destruct Hseqs as ((y & Hy & <-) & _). apply (or_newer _ _ _ (fk_ordered _ _ _ _ _ HKd) l f); [done|].
    rewrite a_all_snoc. apply elem_of_app. right. by apply Hin. }
  assert (Hadd : add_ok df) by (split; [done|]; unfold df; cbn; rewrite length_map; lia).
  assert (HMv : Moved xxh3_64 crc32 (B := B) (view d e) (view (w_disk w') e1) (restamped t locs) [as_file df] out).
  { eapply (committed_moved d (w_disk w') e e1 (ts ++ [tab]) t locs m' X keys df); try done. lia. }
  destruct (moved_writer d e (w_disk w') e1 ts tab _ _ _ HKd HMv Hin Hdom) as (HW & HO & Hvis); try done.
  { by intros n ->%list_elem_of_singleton. }
  { intros n x ->%list_elem_of_singleton. unfold shown. erewrite (new_open (w_disk w') e e1 df eq_refl file_id fl rdn out) by done.
    rewrite live_versions_none. intros (z & -> & Hz)%list_elem_of_fmap. rewrite Forall_forall in Hst. by apply Hst. }
  { apply (wo_open _ _ _ _ _ _ _ (fk_writer _ _ _ _ _ HKd)). }
  split; [exists ts; cbn [fst snd]; split| | | | | |].
  - split; try done.
    + pose proof (fk_tables _ _ _ _ _ HKd) as Htab. destruct ts as [|t0 ts']; [done|]. cbn in Htab. by apply Forall_app in Htab as [? _].
    + apply (fk_schema _ _ _ _ _ HKd).
    + eapply (committed_rows d e (ts ++ [tab])); done.
    + cbn. lia.
    + by exists (deleted_after t X).
    + intros l f Hf. eapply (committed_resolvable d (w_disk w') e e1 (ts ++ [tab]) t locs m' X keys df); try done. lia.
    + intros l l' f f'. eapply (committed_paths d e e1 (ts ++ [tab]) t locs m' df); done.
    + intros p Hp. split; [|intros q s Hs'; apply (fk_pending _ _ _ _ _ HKd p Hp); cbn in Hs'; lia].
      eapply (committed_pending d e e1 (ts ++ [tab]) t locs m' X df); try done; by apply Hpend.
    + by apply HS1, (fk_tidy _ _ _ _ _ HKd).
    + intros l f Hf. change (f ∈ files_at (en_version (view (w_disk w') e1)) l) in Hf. rewrite (mv_files _ _ _ _ _ _ _ HMv l) in Hf.
      apply elem_of_app in Hf as [Hf|(h & -> & Hh)%list_elem_of_fmap].
      * destruct (l =? 0); [|by apply elem_of_nil in Hf]. apply list_elem_of_singleton in Hf as ->.
        destruct Hseqs as ((y & Hy & E) & _). change (seq_max (meta (as_file df))) with (seq_max (df_meta df)). rewrite <- E.
        change (v_seq y) with (v_seq (vmap mem_row y)). apply (wo_seqs _ _ _ _ _ _ _ (fk_writer _ _ _ _ _ HKd)), elem_mem.
        rewrite a_all_snoc. apply elem_of_app. right. by apply Hin.
      * rewrite (proj1 (mv_meta _ _ _ _ _ _ _ HMv h)). by apply (fk_frontier _ _ _ _ _ HKd l).
  - intros k. rewrite Hvis. by eapply visible_row_stays.
  - exact Hdrop.
  - intros l f. cbn [fst]. rewrite (committed_files d e e1 (ts ++ [tab]) t locs m' df uuid now_ms HKd Hap Padds Prem Hadd eq_refl Hsmax eq_refl l).
    intros [Hf|(h & -> & Hh)%list_elem_of_fmap]%elem_of_app.
    + destruct (l =? 0); [|by apply elem_of_nil in Hf]. apply list_elem_of_singleton in Hf as ->. by right.
    + left. exists l, h. split; [done|]. by destruct (restamped_meta t locs h) as (-> & _).
  - done.
  - done.
  - done.
  - cbn. lia.
Qed.

Lemma run_flush_spec d0 e ts file_id uuid now_ms :
  StoreOk d0 e ts -> next_sid e < 2 ^ 63 - 1 -> fresh_id e file_id ->
  triple (fun d => d = d0) (run_flush xxh3_64 crc32 (F := F) (B := B) (J := J) dv_iter e file_id uuid now_ms)
    (flushed d0 e ts file_id) (fun _ => True).
Proof.
  intros HK Hsid Hid.
  assert (Hun : forall r, match r with Ok _ => False | _ => True end -> flushed d0 e ts file_id (e, r) d0).
  { intros r Hr. apply unflushed; [done|apply stays_refl|done]. }
  unfold run_flush. destruct (oldest_immutable (eg_memtable e)) as [imm|] eqn:Eo.
  2:{ apply triple_ret. intros d ->. split; cbn [fst snd]; [by exists ts| |by left; eauto|done|done|done|lia].
      unfold oldest_immutable in Eo. by destruct (immutable (eg_memtable e)). }
  destruct (oldest_table d0 e ts imm HK Eo) as (ts' & tab & rest & Ets & Ei & Ht & Hne & Hdrop & Hmem).
  assert (Htail : immutable (drop_flushed (first_seq imm) (eg_memtable e)) = tail (immutable (eg_memtable e))) by (by rewrite Hdrop, Ei).
  destruct (mem_iter SEQNUM_MAX imm) as [es|x|] eqn:Eit; [|apply triple_ret; intros d ->; by apply Hun..].
  destruct es as [|e0 es0]; [|set (es := e0 :: es0) in *].
  { apply triple_ret. intros d ->. destruct (drop_empty d0 e ts imm HK Eo Eit) as (ts1 & _ & HK1 & Hv).
    split; cbn [fst snd]; [by exists ts1|exact Htail|by left; eauto|done|done|done|cbn; lia]. }
  destruct (iterated_table e imm tab es Ht Eit) as (out & Eout & Hs & Hsub & Hv & Hdom).
  assert (Hout : out <> []) by (intros ->; done). subst ts.
  assert (Hfl : Flushable (eg_schema e) (bloom_bits_per_key (eg_config e)) (at_versions tab)).
  { pose proof (fk_tables _ _ _ _ _ HK) as Htab. destruct ts' as [|t0 ts']; [done|]. cbn in Htab.
    apply Forall_app in Htab as [_ Htab]. by apply Forall_cons in Htab as [? _]. }
  assert (Hin : forall x, x ∈ out -> x ∈ at_versions tab) by (intros x Hx; by eapply elem_of_submseteq).
  destruct (written_table xxh3_64 Hxxh Hpost (eg_schema e) (fk_schema _ _ _ _ _ HK) _ _ out (file_format_for (eg_config e) 0) 0 Hfl Hsub Hout Hs)
    as (rows & fl & bl & m & rdn & Hrows & Hw & Hlen & Hrdn & Hok & Hmap & Hst); [intros x Hx; by apply Hv, Hin|].
  unfold flush_entries. rewrite Eout. eapply triple_bind.
  { eapply triple_conseq; [eapply (prepare_spec d0 e (ts' ++ [tab]) out _ file_id rows fl bl m);
      [done|done|done|exact Hsub|done|done|exact Hw]|intros d ->; apply stays_refl|intros r d H; exact H|done]. }
  intros [t|x|]; [|apply triple_ret; intros d [HS _]; by apply unflushed..].
  intros sched w [HS HP].
  pose proof (commit_prepared d0 e ts' tab out file_id fl rdn t sched w uuid now_ms (first_seq imm) (m_last_seq imm)
    HK Hne Hsid Hid HS HP Hout Hs Hsub Hdom Hfl) as HC.
  specialize (HC ltac:(intros x Hx; by apply Hv) Hst Hrdn Hok Hmap ltac:(by rewrite Hdrop)
    ltac:(rewrite Htail; pose proof (fk_firsts _ _ _ _ _ HK) as Hnd; rewrite Ei in *; cbn in *; by apply NoDup_cons in Hnd as [_ ?]) Htail).
  unfold mbind, io_bind. destruct (commit _ _ _ _ _ _ _ _ _) as [w' [[cat [v|x|]]|]]; exact HC.
Qed.

(** *** Flushing everything *)

(** The names given to the next [n] files are fresh and distinct. *)
Record fresh_names (n : nat) (fresh : nat -> string * string * Z) e : Prop := {
  fn_fresh i : (i < n)%nat -> fresh_id e (fresh i).1.1;
  fn_distinct i j : (i < n)%nat -> (j < n)%nat -> (fresh i).1.1 = (fresh j).1.1 -> i = j;
}.

Lemma data_file_inj a b : slash ∉ list_ascii_of_string a -> slash ∉ list_ascii_of_string b ->
  join_path (data_file a) = join_path (data_file b) -> a = b.
Proof.
  intros Ha Hb E. apply (f_equal split_path) in E. unfold data_file in E. rewrite !split_parquet in E by done.
  injection E as E. by apply append_inj_r in E.
Qed.

Lemma fresh_names_step n fresh e ts r d0 d : fresh_names (Datatypes.S n) fresh e ->
  flushed d0 e ts (fresh n).1.1 r d -> fresh_names n fresh r.1.
Proof.
  intros [Hf Hd] HF. split; [|intros i j ? ?; apply Hd; lia].
  intros i Hi. destruct (Hf i) as (H1 & H2 & H3 & H4); [lia|]. split; [done|]. split; [done|].
  split; [|by rewrite (fd_pending _ _ _ _ _ _ HF)].
  intros l f Hin E. destruct (fd_names _ _ _ _ _ _ HF l f Hin) as [(l' & f' & Hin' & E')|E'].
  - apply (H3 l' f' Hin'). congruence.
  - destruct (Hf n) as (_ & H2' & _); [lia|]. rewrite E' in E. apply data_file_inj in E; [|done..]. apply Hd in E; lia.
Qed.

(** What the loop leaves: the same rows, and nothing queued when it succeeds. *)
Record drained d0 e ts (r : Engine S M C * res unit) d : Prop := {
  dr_reads : exists ts', StoreOk d r.1 ts' /\ forall k, visible_row d r.1 ts' k = visible_row d0 e ts k;
  dr_queue : r.2 = Ok tt -> immutable (eg_memtable r.1) = [];
  dr_schema : eg_schema r.1 = eg_schema e;
  dr_visible : eg_visible r.1 = eg_visible e;
}.

Lemma flush_loop_spec fuel fresh : forall d0 e ts,
  StoreOk d0 e ts -> fresh_names fuel fresh e -> next_sid e + Z.of_nat fuel < 2 ^ 63 -> (length (immutable (eg_memtable e)) <= fuel)%nat ->
  triple (fun d => d = d0) (flush_loop xxh3_64 crc32 (F := F) (B := B) (J := J) dv_iter fuel fresh e)
    (drained d0 e ts) (fun _ => True).
Proof.
  induction fuel as [|fuel IH]; intros d0 e ts HK Hn Hsid Hlen; cbn [flush_loop];
    unfold oldest_immutable; destruct (immutable (eg_memtable e)) as [|imm q] eqn:Eq; cbn [head].
  1,3: apply triple_ret; intros d ->; split; [by exists ts|done..].
  { cbn in Hlen. lia. }
  destruct (fresh fuel) as [[file_id uuid] now_ms] eqn:Ef.
  assert (Eid : (fresh fuel).1.1 = file_id) by (by rewrite Ef).
  eapply triple_bind.
  { apply (run_flush_spec d0 e ts file_id uuid now_ms HK); [lia|]. rewrite <- Eid. apply (fn_fresh _ _ _ Hn). lia. }
  intros [e1 r] sched w HF. destruct (fd_reads _ _ _ _ _ _ HF) as (ts1 & HK1 & Hv1). cbn [fst] in HK1, Hv1.
  pose proof (fd_queue _ _ _ _ _ _ HF) as Hq. cbn [fst snd] in Hq.
  assert (Hend : forall r', r = r' -> (r' = Ok tt -> False) -> drained d0 e ts (e1, r') (w_disk w)).
  { intros r' <- Hr. split; cbn [fst snd]; [by exists ts1|done| |].
    - apply (fd_schema _ _ _ _ _ _ HF).
    - apply (fd_visible _ _ _ _ _ _ HF). }
  destruct r as [[]|x|]; [|by apply Hend..].
  pose proof (fresh_names_step fuel fresh e ts (e1, Ok tt) d0 (w_disk w)) as Hn1. rewrite Eid in Hn1.
  specialize (IH (w_disk w) e1 ts1 HK1). pose proof (fd_schema _ _ _ _ _ _ HF) as Es. pose proof (fd_sid _ _ _ _ _ _ HF) as Hk.
  cbn [fst] in Es, Hk, Hn1. rewrite Hq, Eq in IH. cbn in Hlen.
  specialize (IH (Hn1 Hn HF) ltac:(lia) ltac:(cbn; lia) sched w eq_refl).
  destruct (flush_loop _ _ _ _ _ _ _ _) as [w' [r'|]]; [|done]. destruct IH as [(ts2 & HK2 & Hv2) H2 H3 H4].
  split; [|done|congruence|].
  - exists ts2. split; [done|]. intros k. by rewrite Hv2.
  - rewrite H4. apply (fd_visible _ _ _ _ _ _ HF).
Qed.

(** *** Rotating first *)

(** Every table fits a file, and no two share their first sequence number. *)
Record Rotatable d e ts : Prop := {
  ro_ok : StoreOk d e ts;
  ro_tables : Forall (fun t => Flushable (eg_schema e) (bloom_bits_per_key (eg_config e)) (at_versions t)) ts;
  ro_firsts : NoDup (map first_seq (immutable (eg_memtable e) ++ [active (eg_memtable e)]));
}.

Lemma rotate_sim d e ts first : StoreOk d e ts ->
  let mm := (mm_rotate first (eg_memtable e)).1 in
  Forall2 (table_holds (encoded_key (eg_schema e))) (active mm :: rev (immutable mm)) (a_rotate first ts).
Proof.
  intros HK. pose proof (fk_writer _ _ _ _ _ HK) as HW.
  destruct (exec_sim (encoded_key (eg_schema e)) (encoded_key_prefix_free _) (OpRotate first) [] (eg_memtable e) ts
    (GlobalSeq.counter (eg_global e))) as (mm' & b' & E & _ & _ & HS); [by eapply writer_sim|pose proof (wo_visible _ _ _ _ _ _ _ HW); lia|done|].
  injection E as <-. apply HS.
Qed.

Lemma rotated_ok d e ts e1 r : Rotatable d e ts -> rotate_logs e = (e1, r) ->
  exists ts1, StoreOk d e1 ts1 /\ (forall k, visible_row d e1 ts1 k = visible_row d e ts k) /\
    eg_schema e1 = eg_schema e /\ eg_version e1 = eg_version e /\ eg_catalog e1 = eg_catalog e /\
    eg_visible e1 = eg_visible e /\ eg_pending e1 = eg_pending e /\
    length (immutable (eg_memtable e1)) = Datatypes.S (length (immutable (eg_memtable e))).
Proof.
  intros [HK Htab Hf] E. destruct (rotate_logs_spec e) as (e' & r' & E' & Hev & Hg & Hv & Hc & Hm).
  rewrite E in E'. injection E' as <- <-. set (first := SeqNum_next _) in Hm. exists (a_rotate first ts).
  pose proof (rotate_sim d e ts first HK) as HF. cbv zeta in HF. rewrite <- Hm in HF.
  destruct e as [cfg sch gl vis wal mm ver cat cache comp pend live ro cl].
  destruct e1 as [cfg1 sch1 gl1 vis1 wal1 mm1 ver1 cat1 cache1 comp1 pend1 live1 ro1 cl1].
  unfold evolved, with_state in Hev. cbn in Hev, Hg, Hv, Hc, Hm, HF, Htab, Hf. injection Hev as -> -> -> -> -> -> -> -> ->.
  subst gl1 vis1 cache1. destruct HK as [[HE HC Hop Hsq Hvis] HO Hnd _ Hsch Hver Hrows Hsid HX Hfiles Hpaths Hpend Htidy Hfront].
  split; [|split_and!; try done; cbn; rewrite Hm; cbn; rewrite length_app; cbn; lia].
  split; try done.
  - split; try done; [|cbn; by rewrite Hm]. destruct HE as [E1 E2 E3 E4 E5 E6].
    split; [exact HF| |exact E3| |exact E5|exact E6].
    + unfold a_rotate. constructor; [done|]. apply Forall_forall. by intros t _ v w ?%elem_of_nil.
    + intros l f Hf'. destruct (E4 l f Hf') as [Ho Hr]. by split.
  - destruct HO as [O1 O2 O3 O4 O5 O6 O7 O8]. by split.
  - cbn. rewrite Hm. cbn. rewrite map_app in *. exact Hf.
  - intros l f Hf'. destruct (Hfiles l f Hf') as (Hp & rd & dv & [R1 R2 R3 R4 R5 R6 R7]). split; [done|]. by exists rd, dv.
Qed.

Lemma eng_flush_spec d0 e ts fresh :
  Rotatable d0 e ts ->
  let n := Datatypes.S (length (immutable (eg_memtable e))) in
  fresh_names n fresh e -> next_sid e + Z.of_nat n < 2 ^ 63 ->
  triple (fun d => d = d0) (eng_flush xxh3_64 crc32 (F := F) (B := B) (J := J) dv_iter fresh e)
    (fun r d => exists ts', StoreOk d r.1 ts' /\ (forall k, visible_row d r.1 ts' k = visible_row d0 e ts k) /\
       (r.2 = Ok tt -> immutable (eg_memtable r.1) = []) /\ eg_schema r.1 = eg_schema e /\ eg_visible r.1 = eg_visible e)
    (fun _ => True).
Proof.
  intros HR n Hn Hsid. unfold eng_flush.
  destruct (eg_read_only e); [apply triple_ret; intros d ->; exists ts; by split_and!; [apply HR|..]|].
  destruct (eg_closed e); [apply triple_ret; intros d ->; exists ts; by split_and!; [apply HR|..]|].
  destruct (rotate_logs e) as [e1 r] eqn:E. destruct (rotated_ok d0 e ts e1 r HR E) as (ts1 & HK1 & Hv1 & Es & Ev & Ec & Evis & Ep & Hl).
  destruct r as [[]|x|]; [|apply triple_ret; intros d ->; exists ts1; by split_and!..].
  unfold flush_all. rewrite Hl. eapply triple_conseq; [apply (flush_loop_spec _ fresh d0 e1 ts1 HK1)|done| |done].
  - destruct Hn as [N1 N2]. split; [|done]. intros i Hi. destruct (N1 i Hi) as (? & ? & N3 & N4). split_and!; [done..| |]; by rewrite ?Ev, ?Ep.
  - by rewrite Ec.
  - by rewrite Hl.
  - intros r d [(ts2 & HK2 & Hv2) H2 H3 H4]. exists ts2. split_and!; [done| |done|congruence|congruence].
    intros k. by rewrite Hv2.
Qed.

(** C9. A flush of memtables that fit does not change what a reader sees,
    whatever system call fails in it.  If [flush] returns, then the engine still
    satisfies the invariant on the disk that is left, every lookup gives the row
    it gave before, and if it returned success no sealed memtable is queued:
    every row that was in memory is read from the new files, and the deletion
    vectors it wrote mask only rows that those files supersede.

    The memtables fit ([Rotatable]) when what each holds can be one file
    ([Flushable]: rows of the schema, which has no floating-point defaults, keys
    below 64 KiB, at most [i32::MAX] bytes per column, the limits of filter and
    index) and no two of them, the active one included, have the same first
    sequence number.  The second condition is not kept by the engine and excludes a loss: a flush that fails
    on an empty memtable leaves it queued, and one more such flush gives the
    active memtable the same number; the next flush that succeeds drops by
    number, the rows put in between with it ([Flush.empty_flush_drops_row]). *)
Theorem flush_preserves_reads d0 e ts fresh sched w w' e' r :
  Rotatable d0 e ts ->
  fresh_names (Datatypes.S (length (immutable (eg_memtable e)))) fresh e ->
  next_sid e + Z.of_nat (Datatypes.S (length (immutable (eg_memtable e)))) < 2 ^ 63 ->
  GlobalSeq.counter (eg_visible e) <= SEQNUM_MAX -> w_disk w = d0 ->
  eng_flush xxh3_64 crc32 (F := F) (B := B) (J := J) dv_iter fresh e sched w = (w', Val (e', r)) ->
  (exists ts', StoreOk (w_disk w') e' ts') /\
  (r = Ok tt -> immutable (eg_memtable e') = []) /\
  forall pk uk, Forall FieldValue_wf pk -> encode_user_key pk (eg_schema e) = Ok uk ->
    (lookup_row xxh3_64 crc32 (B := B) (disk_files (F := F) (w_disk w')) (disk_puffins (w_disk w')) e' pk).2 =
    (lookup_row xxh3_64 crc32 (B := B) (disk_files (F := F) d0) (disk_puffins d0) e pk).2.
Proof.
  intros HR Hn Hsid Hmax Hw E.
  pose proof (eng_flush_spec d0 e ts fresh HR Hn Hsid sched w Hw) as H. rewrite E in H. cbn [fst snd] in H.
  destruct H as (ts' & HK & Hv & Hq & Es & Evis). split; [by exists ts'|]. split; [done|]. intros pk uk Hpk Hk.
  destruct (lookup_row_spec xxh3_64 crc32 _ _ e' ts' _ pk uk (fk_writer _ _ _ _ _ HK) Hpk) as (e3 & -> & _); [by rewrite Es|by rewrite Evis|].
  destruct (lookup_row_spec xxh3_64 crc32 _ _ e ts _ pk uk (fk_writer _ _ _ _ _ (ro_ok _ _ _ HR)) Hpk Hk Hmax) as (e4 & -> & _).
  cbn [snd]. do 2 f_equal. exact (Hv uk).
Qed.

End flush_run.

(** ** An example *)

(** Files of lists written bit by bit. *)
#[global] Instance DataType_countable : Countable DataType.
Proof.
  refine (inj_countable'
    (fun t => match t with
       | DBoolean => inl 0%nat | DInt32 => inl 1%nat | DInt64 => inl 2%nat | DFloat32 => inl 3%nat
       | DFloat64 => inl 4%nat | DBinary => inl 5%nat | DFixedSizeBinary n => inr n end)
    (fun c => match c with
       | inl 0%nat => DBoolean | inl 1%nat => DInt32 | inl 2%nat => DInt64 | inl 3%nat => DFloat32
       | inl 4%nat => DFloat64 | inl _ => DBinary | inr n => DFixedSizeBinary n end) _).
  by intros [].
Defined.

Definition file_parts (f : ListFile) :=
  (lf_kv f, map (fun x => (f_name x, f_type x, f_nullable x)) (lb_fields (lf_batch f)), lb_cols (lf_batch f), lb_rows (lf_batch f)).
Definition parts_file (p : list (string * option string) * list (string * DataType * bool) * list (DataType * list (option FieldValue)) * nat) : option ListFile :=
  let '(kv, fs, cols, n) := p in
  b ← list_batch (map (fun '(a, t, nu) => {| f_name := a; f_type := t; f_nullable := nu |}) fs) cols n;
  Some {| lf_kv := kv; lf_batch := b |}.

Lemma parts_file_parts f : parts_file (file_parts f) = Some f.
Proof.
  destruct f as [kv [fs cols n H]]. unfold parts_file, file_parts. cbn [lf_kv lf_batch lb_fields lb_cols lb_rows].
  rewrite map_map, (map_ext _ id) by (by intros []). rewrite map_id. unfold list_batch.
  destruct (decide _) as [H'|]; [|done]. cbn. by rewrite (proof_irrel H' H).
Qed.

#[export] Instance bits_file : FileBytes ListFile := {
  file_bytes f := Byte.x00 :: bits_of (countable.encode (file_parts f));
  file_of l := default {| lf_kv := []; lf_batch := batch_empty [] |} (countable.decode (of_bits (tail l)) ≫= parts_file);
}.

#[export] Instance bits_file_laws : FileBytesLaws ListFile.
Proof.
  split; [|done]. intros f. cbn [file_of bits_file file_bytes tail]. rewrite of_bits_of, countable.decode_encode. cbn [mbind option_bind].
  by rewrite parts_file_parts.
Qed.

Definition ex_fresh_names (n : nat) : string * string * Z := ("f"%string, "t"%string, 0).
Definition ex_flush : io (Engine bytes (list (bytes * EntryValue)) ListLru * res unit) :=
  eng_flush (fun _ => 0) example_crc (F := ListFile) (B := gset Z) (J := unit) map_to_list ex_fresh_names ex_written.

Definition ex_version : VersionOf bytes :=
  match immutable (eg_memtable ex_written), mem_iter SEQNUM_MAX (active (eg_memtable ex_written)) with
  | [], Ok [x] => {| v_key := me_user_key x; v_seq := me_seq x; v_op := e_op (me_entry x); v_val := e_value (me_entry x) |}
  | _, _ => {| v_key := []; v_seq := 0; v_op := Put; v_val := [] |}
  end.
Definition ex_batch1 : WriteBatch := ops_batch 1 [{| eo_key := v_key ex_version; eo_value := v_val ex_version; eo_op := Put |}].
Definition ex_tables1 : list ATable := [{| at_first := 1; at_versions := rev (batch_versions ex_batch1) ++ [] |}].

Lemma ex_written_files l : files_at (vs_current (eg_version ex_written)) l = [].
Proof. vm_compute. by destruct l. Qed.

Lemma ex_written_pending : eg_pending ex_written = [].
Proof. vm_compute. reflexivity. Qed.

Lemma ex_written_holds : Forall2 (table_holds (encoded_key Recovery.ex_schema))
  (active (eg_memtable ex_written) :: rev (immutable (eg_memtable ex_written))) ex_tables1.
Proof.
  destruct (exec_sim (encoded_key Recovery.ex_schema) (encoded_key_prefix_free _) (OpApply ex_batch1) [] (eg_memtable ex_new)
    [{| at_first := 1; at_versions := [] |}] 1) as (mm & b & E & _ & _ & HS).
  - apply mm_new_sim, _.
  - lia.
  - cbn [ops_ok]. split; [vm_compute; discriminate|]. split; [vm_compute; discriminate|]. split; [|done].
    constructor; [|constructor]. exists (example_pk 1 [b0]). split; [apply ex_pk_wf; unfold in_i; lia|vm_compute; reflexivity].
  - assert (mm = eg_memtable ex_written) as ->; [|exact (proj1 HS)]. vm_compute in E. injection E as <-. vm_compute. reflexivity.
Qed.

Lemma ex_written_seqs x : x ∈ a_all ex_tables1 -> v_seq x = 1 /\ v_op x = Put /\ decode_row (v_val x) = Ok (ex_r 1) /\
  v_key x = user_key_bytes (ex_k 1 9 Put).
Proof.
  assert (E : a_all ex_tables1 = [ex_version]) by (vm_compute; reflexivity). rewrite E.
  intros ->%list_elem_of_singleton. split_and!; vm_compute; reflexivity.
Qed.

Lemma ex_disk_layers content : disk_layers (vs_current (eg_version ex_written)) content = [].
Proof. vm_compute. reflexivity. Qed.

Lemma ex_written_all content :
  all_versions (dview (F := ListFile) ex_empty ex_written) ex_tables1 content = [vmap mem_row ex_version].
Proof. unfold all_versions, layers. cbn [dview eview en_version]. rewrite ex_disk_layers. vm_compute. reflexivity. Qed.

Lemma ex_rotatable : Rotatable (fun _ => 0) example_crc (F := ListFile) (B := gset Z) ex_empty ex_written ex_tables1.
Proof.
  assert (Hfl : Forall (fun t => Flushable (eg_schema ex_written) (bloom_bits_per_key (eg_config ex_written)) (at_versions t)) ex_tables1).
  { constructor; [|constructor]. split.
    - intros x Hx. destruct (ex_written_seqs x) as (_ & Ho & Hd & _); [unfold a_all; cbn; by rewrite app_nil_r in *|].
      unfold storable_row. destruct (v_val x); [vm_compute in Hd; discriminate|]. exists (ex_r 1). rewrite Ho. split; [done|vm_compute; reflexivity].
    - intros x Hx. destruct (ex_written_seqs x) as (_ & _ & _ & ->); [unfold a_all; cbn; by rewrite app_nil_r in *|]. vm_compute. split; [done|discriminate].
    - vm_compute. discriminate.
    - vm_compute. reflexivity.
    - vm_compute. reflexivity.
    - apply arrow_fits_bool. vm_compute. reflexivity. }
  pose proof ex_written_all as Hall.
  split; [|done|vm_compute; repeat constructor; by intros ?%elem_of_nil].
  split.
  - split.
    + split.
      * exact ex_written_holds.
      * repeat constructor.
      * intros x Hx. destruct (ex_written_seqs x Hx) as (_ & _ & Hd & Hk). split; [by eexists|]. rewrite Hk. eexists. vm_compute. reflexivity.
      * intros l f. cbn. rewrite ex_written_files. by intros ?%elem_of_nil.
      * intros l _. cbn. rewrite ex_written_files. split; [by split; constructor|]. by intros f x ?%elem_of_nil.
      * unfold layers. cbn [dview eview en_version]. rewrite ex_disk_layers. repeat constructor.
    + exact I.
    + reflexivity.
    + intros x. rewrite Hall. intros ->%list_elem_of_singleton. vm_compute. discriminate.
    + vm_compute. split; [discriminate|reflexivity].
  - split.
    + intros l f x. cbn. rewrite ex_written_files. by intros ?%elem_of_nil.
    + intros l f x. cbn. rewrite ex_written_files. by intros ?%elem_of_nil.
    + cbn. rewrite ex_written_files. constructor.
    + intros f. cbn. rewrite ex_written_files. by intros ?%elem_of_nil.
    + intros l l' f f' x y _. cbn. rewrite ex_written_files. by intros ?%elem_of_nil.
    + intros l f. cbn. rewrite ex_written_files. by intros ?%elem_of_nil.
    + intros l f x. cbn. rewrite ex_written_files. by intros ?%elem_of_nil.
    + intros v w. rewrite Hall. by intros ->%list_elem_of_singleton ->%list_elem_of_singleton.
  - vm_compute. constructor.
  - constructor.
  - split; [vm_compute; repeat constructor|repeat constructor|apply (bool_decide_unpack _); vm_compute; exact I|vm_compute; repeat constructor|].
    change (eg_schema ex_written) with Recovery.ex_schema. repeat (apply Forall_cons; split; [intros v Hv; discriminate Hv|]); apply Forall_nil; exact I.
  - vm_compute. reflexivity.
  - replace (m_entries _) with (@nil ManifestEntry) by (vm_compute; reflexivity). constructor.
  - vm_compute. split; [discriminate|reflexivity].
  - exists (fun _ => ∅). intros ent Hent. vm_compute in Hent. by apply elem_of_nil in Hent.
  - intros l f. rewrite ex_written_files. by intros ?%elem_of_nil.
  - intros l l' f f'. rewrite ex_written_files. by intros ?%elem_of_nil.
  - intros p. rewrite ex_written_pending. intros []%elem_of_nil.
  - exact ex_disk0_ok.
  - intros l f. rewrite ex_written_files. by intros ?%elem_of_nil.
Qed.

Lemma flush_preserves_reads_witness :
  exists d' e', run ex_flush ex_empty = (d', Val (e', Ok tt)) /\ immutable (eg_memtable e') = [] /\
    (lookup_row (fun _ => 0) example_crc (B := gset Z) (disk_files (F := ListFile) d') (disk_puffins d') e' (example_pk 1 [b0])).2 = Ok (Some (ex_r 1)).
Proof.
  set (w0 := {| w_disk := ex_empty; w_tick := 0 |}).
  assert (Er : match (ex_flush (fun _ => NoFault) w0).2 with Val (_, Ok _) => true | _ => false end = true) by (vm_compute; reflexivity).
  unfold run. fold w0. destruct (ex_flush (fun _ => NoFault) w0) as [w' [[e' [[]|x|]]|]] eqn:E; [|done..]. clear Er.
  exists (w_disk w'), e'. split; [done|].
  destruct (flush_preserves_reads (fun _ => 0) example_crc (F := ListFile) (B := gset Z) (J := unit) map_to_list
    ltac:(exact example_crc_range) ltac:(intros; lia) ltac:(intros r; by eexists) ltac:(done)
    ex_empty ex_written ex_tables1 ex_fresh_names (fun _ => NoFault) w0 w' e' (Ok tt)) as (_ & Hq & Hl).
  - exact ex_rotatable.
  - assert (En : immutable (eg_memtable ex_written) = []) by (vm_compute; reflexivity). rewrite En. split; [|cbn; lia]. intros i _. split; [done|]. split; [apply (bool_decide_unpack _); vm_compute; exact I|]. split; [intros l f; rewrite ex_written_files; intros []%elem_of_nil|]. intros p. rewrite ex_written_pending. intros []%elem_of_nil.
  - vm_compute. reflexivity.
  - vm_compute. discriminate.
  - reflexivity.
  - exact E.
  - split; [by apply Hq|]. rewrite (Hl _ (user_key_bytes (ex_k 1 9 Put))); [vm_compute; reflexivity|apply ex_pk_wf; unfold in_i; lia|vm_compute; reflexivity].
Defined.
