(* ===== verification/CompactionJob.v ===== *)
(** * Compaction jobs and the background workers

    [run_one_compaction_job] and [run_compaction] of
    [src/crates/merutable/src/engine/compaction/job.rs], with [compact] of
    [src/crates/merutable/src/engine/engine.rs]: the reservation of the two
    levels, the reads of the source files, the merge, the output files, the
    commit and the end of the job; and the loops of
    [src/crates/merutable/src/engine/background.rs] that call flushes and
    compactions.

    Programs over the disk of [Disk]; the pure parts of a job are in
    [Compaction], the steps after its commit in [Gc].  The reads of one source
    file are one step, which may fail.  Fresh UUIDs and clocks are arguments. *)

From Stdlib Require Import Ascii.
From S2P Require Import Prelude Decimal Disk Sequence Schema Key RowCodec WalBatch WalLog WalManager Mvcc Memtable LsmVersion DeletionVector Manifest ManifestPb Catalog Compaction Picker Bloom KvIndex Arrow Codec FileReader FileWriter Cache ReadPath Engine Gc Flush.
Local Open Scope Z_scope.

(** [data_file_path]. *)
Definition level_dir (level : Z) : string := String.append "data/L" (show_string level).
Definition level_file (level : Z) (file_id : string) : path_t := (level_dir level, String.append file_id ".parquet").

Section source.
Context (crc32 : bytes -> Z) {F M C B : Type}.
Context `{!Arrow, !ParquetFile F, !FooterCodec, !SchemaJson, !Roaring B}.
Implicit Types en : MeruEngine F M C.

(** A source file and the bitmap of its deletion vector. *)
Definition source_dv en (f : DataFileMeta) : res (option B) :=
  match dv_path f, dv_offset f, dv_length f with
  | Some p, Some o, Some l =>
      puffin ← ok_or (en_puffins en p) Io;
      if (o <? 0) || (l <? 0) then Err (Corruption "DV has negative offset or length")
      else if u64_max <? o + l then Err (Corruption "DV offset+length overflow")
      else if Z.of_nat (length puffin) <? o + l then Err (Corruption "DV blob out of range")
      else
        blob ← slice puffin (Z.to_nat o) (Z.to_nat l);
        dv ← from_puffin_blob crc32 blob;
        Ok (Some (bitmap dv))
  | None, None, None => Ok None
  | _, _, _ => Err (Corruption "inconsistent DV coords")
  end.

Definition open_source_file en (f : DataFileMeta) : res (ParquetReader F * option B) :=
  source ← ok_or (en_files en (path f)) Io;
  rd ← FileReader.open source (en_schema en);
  dv ← source_dv en f;
  Ok (rd, dv).
End source.

Section job.
Context (xxh3_64 crc32 : bytes -> Z) {S F M C B J : Type}.
Context `{!Arrow, !ParquetFile F, !FileBytes F, !FooterCodec, !SchemaJson, !Roaring B, !FooterJson J}.
Context `{!Prost, !ManifestJson, !WalSink S, !FileSystem S, !SkipMap M, !LruCache C, !RowSerde}.
Context (dv_iter : gmap string (DeletionVector B) -> list (string * DeletionVector B)).
Implicit Types e : Engine S M C.

(** ** The reservation of the levels *)
Definition set_compacting (busy : gset Z) e : Engine S M C :=
  {| eg_config := eg_config e; eg_schema := eg_schema e; eg_global := eg_global e; eg_visible := eg_visible e;
     eg_wal := eg_wal e; eg_memtable := eg_memtable e; eg_version := eg_version e; eg_catalog := eg_catalog e;
     eg_cache := eg_cache e; eg_compacting := busy; eg_pending := eg_pending e; eg_live := eg_live e;
     eg_read_only := eg_read_only e; eg_closed := eg_closed e |}.

Definition reserve_next_compaction e : option (CompactionPick * Version * Engine S M C) :=
  pick ← pick_compaction (vs_current (eg_version e)) (eg_config e) (eg_compacting e);
  Some (pick, vs_current (eg_version e),
        set_compacting ({[input_level pick; output_level pick]} ∪ eg_compacting e) e).

(** The drop of the reservation, on every way out of the job. *)
Definition release (pick : CompactionPick) e : Engine S M C :=
  set_compacting (eg_compacting e ∖ {[input_level pick; output_level pick]}) e.

(** ** Reading *)
Definition input_metas (version : Version) (pick : CompactionPick) : list DataFileMeta :=
  List.filter (fun f => bool_decide (path f ∈ input_files pick)) (files_at version (input_level pick)).

Fixpoint read_sources e (file_idx : nat) (fs : list DataFileMeta) : io (res (list FileEntries)) :=
  match fs with
  | [] => mret (Ok [])
  | f :: fs =>
      physical <-? io_reads (fun d =>
        '(rd, dv) ← open_source_file crc32 (B := B) (dview (F := F) d e) f;
        read_physical_rows_with_positions rd dv);
      rest <-? read_sources e (Datatypes.S file_idx) fs;
      mret (Ok ({| Compaction.file_idx := file_idx; entries := physical |} :: rest))
  end.

(** ** Writing *)
Definition write_chunk e (level : Z) (file_id : string) (c : OutputChunk) : io (res IcebergDataFile) :=
  let fmt := file_format_for (eg_config e) level in
  out <-? mret (write_sorted_rows xxh3_64 (F := F) (rows c) (eg_schema e) level fmt (bloom_bits_per_key (eg_config e)));
  let parquet_bytes := match out.1.1 with Some f => file_bytes f | None => [] end in
  match parquet_bytes with
  | [] => mret (Err (Parquet "writer returned empty bytes for non-empty row set"))
  | _ =>
      let p := level_file level file_id in
      io_create_dir_all p.1 ;?
      io_write p parquet_bytes ;?
      io_sync p ;?
      _ ← io_sync_dir p.1;
      mret (Ok (output_file level fmt (join_path p) (Z.of_nat (length parquet_bytes)) (column_stats out.2) c))
  end.

(** [fresh] names the files, counted from the number of chunks left. *)
Fixpoint write_chunks e (level : Z) (fresh : nat -> string) (chunks : list OutputChunk) : io (res (list IcebergDataFile)) :=
  match chunks with
  | [] => mret (Ok [])
  | c :: chunks =>
      match rows c with
      | [] => write_chunks e level fresh chunks
      | _ =>
          f <-? write_chunk e level (fresh (length chunks)) c;
          fs <-? write_chunks e level fresh chunks;
          mret (Ok (f :: fs))
      end
  end.

(** ** One job

    The merge and the output files: the transaction, and the files consumed. *)
Definition build_compaction e (version : Version) (pick : CompactionPick) (inputs : list DataFileMeta)
    (fresh : nat -> string) : io (res (SnapshotTransaction B)) :=
  let overlapping := overlap_output inputs (files_at version (output_level pick)) in
  file_entries <-? read_sources e 0 (inputs ++ overlapping);
  let drop_tombstones := should_drop_tombstones (output_level pick) (length (level_target_bytes (eg_config e))) in
  let chunks := make_chunks (CompactionIterator_new file_entries (GlobalSeq.current (eg_visible e)) drop_tombstones) in
  (match chunks with [] => mret (Ok tt) | _ => io_create_dir_all (level_dir (output_level pick)) end) ;?
  new <-? write_chunks e (output_level pick) fresh chunks;
  mret (Ok (compaction_txn (input_level pick) (output_level pick) inputs overlapping new)).

(** The job between the reservation and its release. *)
Definition compact_reserved e (version : Version) (pick : CompactionPick) (fresh : nat -> string) (uuid : string)
    (now_ms now : Z) : io (Engine S M C * res bool) :=
  let inputs := input_metas version pick in
  match inputs with
  | [] => mret (e, Ok false)
  | _ =>
      t ← build_compaction e version pick inputs fresh;
      match t with
      | Ok t =>
          r ← commit crc32 (J := J) (dv_iter (dvs t)) (eg_catalog e) t (eg_schema e) uuid now_ms;
          match r with
          | (cat, Ok v) =>
              e ← finish_compaction now version v cat
                    (inputs ++ overlap_output inputs (files_at version (output_level pick))) e;
              mret (e, Ok true)
          | (_, Err x) => mret (e, Err x)
          | (_, Panic) => mret (e, Panic)
          end
      | Err x => mret (e, Err x)
      | Panic => mret (e, Panic)
      end
  end.

Definition run_one_compaction_job e (fresh : nat -> string) (uuid : string) (now_ms now : Z)
    : io (Engine S M C * res bool) :=
  match reserve_next_compaction e with
  | None => mret (e, Ok false)
  | Some (pick, version, e) =>
      r ← compact_reserved e version pick fresh uuid now_ms now;
      mret (release pick r.1, r.2)
  end.

(** What a job draws from outside: names for its files, a table UUID, and the
    times of the commit and of the sweep. *)
Record Drawn : Type := { dr_names : nat -> string; dr_uuid : string; dr_now_ms : Z; dr_now : Z }.

Definition MAX_ITERATIONS : nat := 128.

Fixpoint compaction_loop (iterations : nat) (drawn : nat -> Drawn) e : io (Engine S M C * res unit) :=
  match iterations with
  | O => mret (e, Ok tt)
  | Datatypes.S n =>
      let x := drawn n in
      r ← run_one_compaction_job e (dr_names x) (dr_uuid x) (dr_now_ms x) (dr_now x);
      match r with
      | (e, Ok true) => compaction_loop n drawn e
      | (e, Ok false) => mret (e, Ok tt)
      | (e, Err x) => mret (e, Err x)
      | (e, Panic) => mret (e, Panic)
      end
  end.

Definition run_compaction (drawn : nat -> Drawn) e : io (Engine S M C * res unit) :=
  compaction_loop MAX_ITERATIONS drawn e.

Definition eng_compact (drawn : nat -> Drawn) e : io (Engine S M C * res unit) :=
  if eg_read_only e then mret (e, Err ReadOnly)
  else if eg_closed e then mret (e, Err Closed)
  else run_compaction drawn e.

(** ** Background workers

    What a worker finds when it wakes: the shutdown notification, or work to
    look for; and the shutdown flag at each of its tests. *)
Inductive wakeup : Type := ShutdownNotified | Awake.

(** The inner loop of [flush_worker]: attempts until the queue is empty.
    [attempts] bounds how often it tries; a failed flush is tried again unless
    the engine is closed.  A panic ends the worker's task. *)
Fixpoint drain_flushes (attempts : nat) (flag : nat -> bool) (fresh : nat -> string * string * Z) e
    : io (Engine S M C * bool) :=
  match oldest_immutable (eg_memtable e), attempts with
  | None, _ => mret (e, true)
  | Some _, O => mret (e, true)
  | Some _, Datatypes.S n =>
      if flag n then mret (e, true)
      else
        let '(file_id, uuid, now_ms) := fresh n in
        r ← run_flush xxh3_64 crc32 (F := F) (B := B) (J := J) dv_iter e file_id uuid now_ms;
        match r with
        | (e, Ok _) => drain_flushes n flag fresh e
        | (e, Err _) => if eg_closed e then mret (e, true) else drain_flushes n flag fresh e
        | (e, Panic) => mret (e, false)
        end
  end.

(** One turn of the loop of [flush_worker]: whether it goes on. *)
Definition flush_worker_turn (shutdown : bool) (w : wakeup) (attempts : nat) (flag : nat -> bool)
    (fresh : nat -> string * string * Z) e : io (Engine S M C * bool) :=
  if shutdown then mret (e, false)
  else match w with
       | ShutdownNotified => mret (e, false)
       | Awake => drain_flushes attempts flag fresh e
       end.

(** One turn of the loop of [compaction_worker]. *)
Definition compaction_worker_turn (shutdown : bool) (w : wakeup) (shutdown' : bool) (now : Z) (drawn : nat -> Drawn) e
    : io (Engine S M C * bool) :=
  if shutdown then mret (e, false)
  else match w with
       | ShutdownNotified => mret (e, false)
       | Awake =>
           if shutdown' then mret (e, false)
           else
             e ← gc_pending_deletions now e;
             r ← run_compaction drawn e;
             match r with
             | (e, Ok _) => mret (e, true)
             | (e, Err _) => mret (e, negb (eg_closed e))
             | (e, Panic) => mret (e, false)
             end
       end.
End job.
