(* ===== verification/Rewrite.v ===== *)
(** * Rewriting files

    What a compaction ([src/crates/merutable/src/engine/compaction/job.rs])
    does to the files of an engine, seen from a reader: some files of two
    adjacent levels are replaced by new files of the lower one that hold the
    newest of their versions. *)

From S2P Require Import Prelude Decimal Disk Sequence Schema Key RowCodec WalBatch WalLog WalManager Mvcc Memtable LsmVersion DeletionVector Manifest Compaction Bloom KvIndex Arrow Codec FileReader FileWriter Cache ReadPath DvResolve Engine FlushFile StoreInv.
Local Open Scope Z_scope.

(** Old and new agree on what a reader gets for a key when nothing is added,
    and what is lost is older than what is left or hidden by a tombstone. *)
Lemma newest_rewritten (N O : list (VersionOf Row)) k r :
  consistent O -> (forall x, x ∈ N -> x ∈ O) ->
  (forall v, newest O k r = Some v -> v ∈ N \/ (v_op v = Delete /\ forall x, x ∈ N -> v_key x <> k)) ->
  outcome (newest N k r) = outcome (newest O k r).
Proof.
  intros Hc Hsub Hv. assert (Hc' : consistent N) by (intros v w Hx Hy; apply Hc; by apply Hsub).
  destruct (newest O k r) as [v|] eqn:E.
  - destruct (Hv v eq_refl) as [Hin|[Ho Hno]].
    + apply newest_is_newest in E as (_ & Hk & Hmax). f_equal. apply newest_consistent; [done|].
      split; [done|]. split; [done|]. intros w Hw. by apply Hmax, Hsub.
    + cbn. rewrite Ho. destruct (newest N k r) as [w|] eqn:Ew; [|done].
      apply newest_is_newest in Ew as (Hw & [Hk _]%visible_spec & _). by destruct (Hno w Hw).
  - f_equal. apply newest_None. intros w Hw. apply (proj1 (newest_None _ _ _) E). by apply Hsub.
Qed.

(** Files newest first whose ranges are apart are in strict order. *)
Lemma strict_l0 (l l' : list DataFileMeta) :
  StronglySorted (fun f g => seq_max (meta g) < seq_min (meta f)) l ->
  (forall f, f ∈ l -> seq_min (meta f) <= seq_max (meta f)) ->
  StronglySorted (fun f g => seq_max (meta g) <= seq_max (meta f)) l' -> NoDup l' -> (forall f, f ∈ l' -> f ∈ l) ->
  StronglySorted (fun f g => seq_max (meta g) < seq_min (meta f)) l'.
Proof.
  intros Hl Hr Hs. induction Hs as [|f l' _ IH Hf]; intros Hnd Hsub; [constructor|].
  apply NoDup_cons in Hnd as [Hn Hnd]. constructor; [apply IH; [done|]; intros g Hg; apply Hsub; by right|].
  rewrite Forall_forall in *. intros g Hg. assert (Hne : f <> g) by (by intros ->).
  assert (Hf' : f ∈ l) by (apply Hsub; left). assert (Hg' : g ∈ l) by (apply Hsub; by right).
  destruct (sorted_trichotomy _ _ _ _ Hl Hf' Hg' Hne) as [|Hlt]; [done|].
  specialize (Hf g Hg). pose proof (Hr g Hg'). pose proof (Hr f Hf'). lia.
Qed.

Lemma strict_l0_nodup (l : list DataFileMeta) :
  StronglySorted (fun f g => seq_max (meta g) < seq_min (meta f)) l ->
  (forall f, f ∈ l -> seq_min (meta f) <= seq_max (meta f)) -> NoDup l.
Proof.
  induction 1 as [|f l _ IH Hf]; intros Hr; constructor.
  - intros Hin. rewrite Forall_forall in Hf. specialize (Hf f Hin). specialize (Hr f ltac:(left)). lia.
  - apply IH. intros g Hg. apply Hr. by right.
Qed.

Section rewritten.
Context (xxh3_64 crc32 : bytes -> Z) {F M C B : Type}.
Context `{AR : !Arrow, PF : !ParquetFile F, FC : !FooterCodec, SJ : !SchemaJson, RB : !Roaring B}.
Context `{SM : !SkipMap M, SML : !SkipMapLaws M, LC : !LruCache C, LCL : !LruCacheLaws C, RS : !RowSerde}.
Implicit Types (en : MeruEngine F M C) (f h n : DataFileMeta) (ts : list ATable).
Local Abbreviation sh := (shown crc32 (B := B)).

Lemma all_elem en ts x : x ∈ all_versions en ts (sh en) <->
  x ∈ map (vmap mem_row) (a_all ts) \/
  exists l f, 0 <= l /\ f ∈ files_at (en_version en) l /\ x ∈ map (vmap file_row) (sh en f).
Proof.
  rewrite elem_of_all. unfold file_source. setoid_rewrite elem_all_files. apply Morphisms_Prop.or_iff_morphism.
  - unfold mem_source, a_all. rewrite concat_map, map_map, (list_elem_of_In (concat _)), in_concat. setoid_rewrite in_map_iff.
    setoid_rewrite list_elem_of_In. naive_solver.
  - naive_solver.
Qed.

(** ** The files a job takes *)
Section taken.
Context en ts (ins outs : list DataFileMeta) (il lv : Z).

(** Inputs of one level, and what of the next level overlaps them: every
    version left above is newer than those taken, and no file left in the
    lower level has a key of them. *)
Record Taken : Prop := {
  tk_level : 0 <= il /\ lv = il + 1;
  tk_ins f : f ∈ ins -> f ∈ files_at (en_version en) il;
  tk_outs f : f ∈ outs -> f ∈ files_at (en_version en) lv;
  tk_left f h x y : f ∈ files_at (en_version en) il -> path f ∉ map path ins -> h ∈ ins ->
    x ∈ sh en f -> y ∈ sh en h -> v_key x = v_key y -> v_seq y < v_seq x;
  tk_apart f h x y : f ∈ files_at (en_version en) lv -> path f ∉ map path outs -> h ∈ ins ++ outs ->
    x ∈ sh en f -> y ∈ sh en h -> v_key x <> v_key y;
}.

Local Abbreviation gone := (map path (ins ++ outs)).
Context (HT : Taken) (HO : Ordered crc32 (B := B) en ts).

Lemma not_gone p : p ∉ gone -> p ∉ map path ins /\ p ∉ map path outs.
Proof. rewrite map_app, elem_of_app. tauto. Qed.

Lemma taken_level h : h ∈ ins ++ outs -> exists j, il <= j <= lv /\ h ∈ files_at (en_version en) j.
Proof.
  destruct (tk_level HT) as [H0 E]. intros [Hh|Hh]%elem_of_app; [exists il|exists lv]; (split; [lia|]).
  - by apply (tk_ins HT).
  - by apply (tk_outs HT).
Qed.

(** Files left at or above the lower level are newer than those taken. *)
Lemma left_newer l f h x y : f ∈ files_at (en_version en) l -> path f ∉ gone -> l <= lv -> h ∈ ins ++ outs ->
  x ∈ sh en f -> y ∈ sh en h -> v_key x = v_key y -> v_seq y < v_seq x.
Proof.
  intros Hf Hp Hl Hh Hx Hy Ek. destruct (not_gone _ Hp) as [Hpi Hpo], (tk_level HT) as [H0 El].
  destruct (decide (l = lv)) as [->|Hne]; [by destruct (tk_apart HT f h x y Hf Hpo Hh Hx Hy Ek)|].
  apply elem_of_app in Hh as [Hh|Hh].
  - destruct (decide (l = il)) as [->|]; [by apply (tk_left HT f h x y)|].
    apply (or_deep _ _ _ HO l il f h x y); try done; [lia|by apply (tk_ins HT)].
  - apply (or_deep _ _ _ HO l lv f h x y); try done; [lia|by apply (tk_outs HT)].
Qed.

Lemma below_older l f h x y : f ∈ files_at (en_version en) l -> lv < l -> h ∈ ins ++ outs ->
  x ∈ sh en f -> y ∈ sh en h -> v_key x = v_key y -> v_seq x < v_seq y.
Proof.
  intros Hf Hl Hh Hx Hy Ek. destruct (taken_level h Hh) as (j & Hj & Hhj).
  apply (or_deep _ _ _ HO j l h f y x); try done; lia.
Qed.
End taken.

(** ** The files it leaves *)

(** [en'] is [en] with the files [nw] at [lv] in place of those taken. *)
Record Rewritten en en' ts ins outs nw lv (drop : bool) : Prop := {
  rw_schema : en_schema en' = en_schema en;
  rw_visible : en_visible en' = en_visible en;
  rw_memtable : en_memtable en' = en_memtable en;
  rw_cache : en_cache en' = cache_clear <$> en_cache en;
  rw_files l : files_at (en_version en') l ≡ₚ
    base.filter (fun f => path f ∉ map path (ins ++ outs)) (files_at (en_version en) l) ++ (if l =? lv then nw else []);
  rw_l0 : StronglySorted (fun f g => seq_max (meta g) <= seq_max (meta f)) (files_at (en_version en') 0);
  rw_levels l : 1 <= l -> level_ok (files_at (en_version en') l);
  rw_state l f : f ∈ files_at (en_version en') l -> FileState xxh3_64 crc32 (B := B) en' f (sh en' f);
  rw_same l f : f ∈ files_at (en_version en) l -> path f ∉ map path (ins ++ outs) -> sh en' f = sh en f;
  rw_new n x : n ∈ nw -> x ∈ sh en' n -> exists h y, h ∈ ins ++ outs /\ y ∈ sh en h /\ vmap file_row x = vmap file_row y;
  rw_meta n x : n ∈ nw -> x ∈ sh en' n -> seq_min (meta n) <= v_seq x <= seq_max (meta n) /\
    covers (v_key x) n = true /\ stored_version (en_schema en) x;
  rw_max n : n ∈ nw -> exists h y, h ∈ ins ++ outs /\ y ∈ sh en h /\ seq_max (meta n) <= v_seq y;
  rw_kept h y : h ∈ ins ++ outs -> y ∈ sh en h ->
    (exists n x, n ∈ nw /\ x ∈ sh en' n /\ v_key x = v_key y /\ (v_seq y < v_seq x \/ vmap file_row x = vmap file_row y)) \/
    (drop = true /\ (forall n x, n ∈ nw -> x ∈ sh en' n -> v_key x <> v_key y) /\
     exists h' z, h' ∈ ins ++ outs /\ z ∈ sh en h' /\ v_key z = v_key y /\ v_seq y <= v_seq z /\ v_op z = Delete);
}.

Context en en' ts ins outs nw il lv drop (HT : Taken en ins outs il lv) (HR : Rewritten en en' ts ins outs nw lv drop).
Context (HE : EngineOk xxh3_64 crc32 (B := B) en ts (sh en)) (HO : Ordered crc32 (B := B) en ts).
Context (Hbottom : drop = true -> forall l f, f ∈ files_at (en_version en) l -> l <= lv).
Local Abbreviation gone := (map path (ins ++ outs)).

Lemma rewritten_file l f : f ∈ files_at (en_version en') l ->
  (f ∈ files_at (en_version en) l /\ path f ∉ gone /\ sh en' f = sh en f) \/ (l = lv /\ f ∈ nw).
Proof.
  rewrite (rw_files _ _ _ _ _ _ _ _ HR l). intros [[Hp Hf]%list_elem_of_filter|Hf]%elem_of_app; [left|right].
  - split; [done|]. split; [done|]. by eapply (rw_same _ _ _ _ _ _ _ _ HR).
  - destruct (Z.eqb_spec l lv); [done|by apply elem_of_nil in Hf].
Qed.

Lemma rewritten_elem x : x ∈ all_versions en' ts (sh en') ->
  x ∈ map (vmap mem_row) (a_all ts) \/
  (exists l f, 0 <= l /\ f ∈ files_at (en_version en) l /\ path f ∉ gone /\ x ∈ map (vmap file_row) (sh en f)) \/
  exists n, n ∈ nw /\ x ∈ map (vmap file_row) (sh en' n).
Proof.
  rewrite all_elem. intros [H|(l & f & Hl & Hf & Hx)]; [by left|right].
  destruct (rewritten_file l f Hf) as [(Hf' & Hp & Es)|[-> Hn]]; [left|right; by exists f].
  exists l, f. by rewrite <- Es.
Qed.

Lemma rewritten_sub x : x ∈ all_versions en' ts (sh en') -> x ∈ all_versions en ts (sh en).
Proof.
  intros H. apply all_elem. destruct (rewritten_elem x H) as [Hm|[(l & f & Hl & Hf & _ & Hx)|(n & Hn & Hx)]]; [by left|right; by exists l, f|right].
  apply list_elem_of_fmap in Hx as (z & -> & Hz). destruct (rw_new _ _ _ _ _ _ _ _ HR n z Hn Hz) as (h & y & Hh & Hy & ->).
  destruct (taken_level en ins outs il lv HT h Hh) as (j & Hj & Hhj). exists j, h.
  split; [pose proof (tk_level _ _ _ _ _ HT); lia|]. split; [done|]. by apply list_elem_of_fmap_2.
Qed.

Lemma rewritten_new n z : n ∈ nw -> z ∈ sh en' n -> vmap file_row z ∈ all_versions en' ts (sh en').
Proof.
  intros Hn Hz. apply all_elem. right. exists lv, n. split; [pose proof (tk_level _ _ _ _ _ HT); lia|].
  split; [|by apply list_elem_of_fmap_2]. rewrite (rw_files _ _ _ _ _ _ _ _ HR lv), Z.eqb_refl. apply elem_of_app. by right.
Qed.

Lemma rewritten_stays l f x : 0 <= l -> f ∈ files_at (en_version en) l -> path f ∉ gone ->
  x ∈ map (vmap file_row) (sh en f) -> x ∈ all_versions en' ts (sh en').
Proof.
  intros Hl Hf Hp Hx. apply all_elem. right. exists l, f. rewrite (rw_same _ _ _ _ _ _ _ _ HR l f Hf Hp).
  split; [done|]. split; [|done]. rewrite (rw_files _ _ _ _ _ _ _ _ HR l). apply elem_of_app. left. by apply list_elem_of_filter.
Qed.

(** Tombstones are dropped only when nothing else has their key. *)
Lemma dropped_alone h y x :
  drop = true -> h ∈ ins ++ outs -> y ∈ sh en h ->
  (forall w, w ∈ all_versions en ts (sh en) -> v_key w = v_key y -> v_seq w <= v_seq y) ->
  (forall n z, n ∈ nw -> z ∈ sh en' n -> v_key z <> v_key y) ->
  x ∈ all_versions en' ts (sh en') -> v_key x <> v_key y.
Proof.
  intros Hd Hh Hy Hmax Hno Hx Ek. pose proof (Hmax x (rewritten_sub x Hx) Ek) as Hle.
  destruct (taken_level en ins outs il lv HT h Hh) as (j & Hj & Hhj).
  destruct (rewritten_elem x Hx) as [Hm|[(l & f & Hl & Hf & Hp & Hz)|(n & Hn & Hz)]].
  - apply list_elem_of_fmap in Hm as (m & -> & Hm). cbn in *.
    pose proof (or_newer _ _ _ HO j h m Hhj Hm). pose proof (or_below _ _ _ HO j h y Hhj Hy). lia.
  - apply list_elem_of_fmap in Hz as (z & -> & Hz). cbn in *.
    pose proof (left_newer en ts ins outs il lv HT HO l f h z y Hf Hp (Hbottom Hd l f Hf) Hh Hz Hy Ek). lia.
  - apply list_elem_of_fmap in Hz as (z & -> & Hz). by apply (Hno n z).
Qed.

Lemma path_taken l f : f ∈ files_at (en_version en) l -> path f ∈ gone ->
  (forall l l' f f', f ∈ files_at (en_version en) l -> f' ∈ files_at (en_version en) l' -> path f = path f' -> f = f' /\ l = l') ->
  f ∈ ins ++ outs.
Proof.
  intros Hf (h & E & Hh)%list_elem_of_fmap Huniq. destruct (taken_level en ins outs il lv HT h Hh) as (j & _ & Hhj).
  by destruct (Huniq l j f h Hf Hhj E) as [-> _].
Qed.

Context (Huniq : forall l l' f f', f ∈ files_at (en_version en) l -> f' ∈ files_at (en_version en) l' ->
  path f = path f' -> f = f' /\ l = l').

(** Readers get the same rows. *)
Lemma rewritten_outcome r k : (forall x, x ∈ all_versions en ts (sh en) -> v_seq x <= r) ->
  outcome (newest (all_versions en' ts (sh en')) k r) = outcome (newest (all_versions en ts (sh en)) k r).
Proof.
  intros Hr. apply newest_rewritten; [apply (or_consistent _ _ _ HO)|apply rewritten_sub|].
  intros v (Hv & [Hk _]%visible_spec & Hmax)%newest_is_newest.
  assert (Hmax' : forall w, w ∈ all_versions en ts (sh en) -> v_key w = v_key v -> v_seq w <= v_seq v).
  { intros w Hw E. apply Hmax; [done|]. apply visible_spec. split; [congruence|by apply Hr]. }
  pose proof Hv as Hv0. apply all_elem in Hv0 as [Hm|(l & f & Hl & Hf & Hx)].
  { left. apply all_elem. by left. }
  destruct (decide (path f ∈ gone)) as [Hp|Hp]; [|left; by eapply rewritten_stays].
  pose proof (path_taken l f Hf Hp Huniq) as Hh. apply list_elem_of_fmap in Hx as (y & -> & Hy). cbn in Hk.
  assert (Hin : forall h z, h ∈ ins ++ outs -> z ∈ sh en h -> vmap file_row z ∈ all_versions en ts (sh en)).
  { intros h z Hh' Hz. apply all_elem. right. destruct (taken_level en ins outs il lv HT h Hh') as (j & Hj & Hhj). exists j, h.
    split; [pose proof (tk_level _ _ _ _ _ HT); lia|]. split; [done|by apply list_elem_of_fmap_2]. }
  destruct (rw_kept _ _ _ _ _ _ _ _ HR f y Hh Hy) as [(n & x & Hn & Hx & Ek & Hs)|(Hd & Hno & h' & z & Hh' & Hz & Ez & Hle & Ho)].
  - left. destruct Hs as [Hs|<-]; [|by eapply rewritten_new]. pose proof (rewritten_sub _ (rewritten_new n x Hn Hx)) as Hx'.
    specialize (Hmax' _ Hx' Ek). cbn in Hmax'. lia.
  - right. pose proof (Hmax' _ (Hin h' z Hh' Hz) Ez) as Hle'. cbn in Hle'.
    assert (E : vmap file_row z = vmap file_row y).
    { apply (or_consistent _ _ _ HO); [by apply (Hin h')|done|done|]. cbn. lia. }
    assert (v_op y = Delete) by (rewrite <- Ho; by apply (f_equal v_op) in E). split; [done|]. intros x Hx. cbn in Hk. rewrite <- Hk.
    by apply (dropped_alone f y x).
Qed.

Lemma rewritten_ordered : Ordered crc32 (B := B) en' ts.
Proof.
  pose proof (tk_level _ _ _ _ _ HT) as [H0 El]. split.
  - intros l f x Hf Hx. destruct (rewritten_file l f Hf) as [(Hf' & _ & Es)|[-> Hn]].
    + rewrite Es in Hx. by eapply (or_below _ _ _ HO).
    + by apply (rw_meta _ _ _ _ _ _ _ _ HR f x).
  - intros l f x Hf Hx. destruct (rewritten_file l f Hf) as [(Hf' & _)|[-> Hn]]; [by eapply (or_newer _ _ _ HO)|].
    destruct (rw_max _ _ _ _ _ _ _ _ HR f Hn) as (h & y & Hh & Hy & Hle).
    destruct (taken_level en ins outs il lv HT h Hh) as (j & Hj & Hhj).
    pose proof (or_newer _ _ _ HO j h x Hhj Hx). pose proof (or_below _ _ _ HO j h y Hhj Hy). lia.
  - assert (P : files_at (en_version en') 0 ≡ₚ base.filter (fun f => path f ∉ gone) (files_at (en_version en) 0)).
    { rewrite (rw_files _ _ _ _ _ _ _ _ HR 0). destruct (Z.eqb_spec 0 lv); [lia|]. by rewrite app_nil_r. }
    eapply strict_l0; [apply (or_l0 _ _ _ HO)|apply (or_range _ _ _ HO)|apply (rw_l0 _ _ _ _ _ _ _ _ HR)| |].
    + rewrite P. apply NoDup_filter. eapply strict_l0_nodup; [apply (or_l0 _ _ _ HO)|apply (or_range _ _ _ HO)].
    + intros f. rewrite P. by intros [_ ?]%list_elem_of_filter.
  - intros f Hf. destruct (rewritten_file 0 f Hf) as [(Hf' & _)|[E _]]; [by apply (or_range _ _ _ HO)|lia].
  - intros l l' f f' x y Hlt Hf Hf' Hx Hy Ek.
    destruct (rewritten_file l f Hf) as [(Hf1 & Hp1 & Es1)|[-> Hn1]], (rewritten_file l' f' Hf') as [(Hf2 & Hp2 & Es2)|[-> Hn2]].
    + rewrite Es1 in Hx. rewrite Es2 in Hy. by eapply (or_deep _ _ _ HO l l' f f').
    + rewrite Es1 in Hx. destruct (rw_new _ _ _ _ _ _ _ _ HR f' y Hn2 Hy) as (h & z & Hh & Hz & E).
      pose proof (f_equal v_key E) as Ek'. pose proof (f_equal v_seq E) as Eq. cbn in Ek', Eq.
      pose proof (left_newer en ts ins outs il lv HT HO l f h x z Hf1 Hp1 ltac:(lia) Hh Hx Hz ltac:(congruence)). lia.
    + rewrite Es2 in Hy. destruct (rw_new _ _ _ _ _ _ _ _ HR f x Hn1 Hx) as (h & z & Hh & Hz & E).
      pose proof (f_equal v_key E) as Ek'. pose proof (f_equal v_seq E) as Eq. cbn in Ek', Eq.
      pose proof (below_older en ts ins outs il lv HT HO l' f' h y z Hf2 Hlt Hh Hy Hz ltac:(congruence)). lia.
    + lia.
  - intros l f Hf. destruct (rewritten_file l f Hf) as [(Hf' & _)|[-> _]]; [by eapply (or_levels _ _ _ HO)|lia].
  - intros l f x Hf Hx. rewrite (rw_schema _ _ _ _ _ _ _ _ HR). destruct (rewritten_file l f Hf) as [(Hf' & _ & Es)|[-> Hn]].
    + rewrite Es in Hx. by eapply (or_rows _ _ _ HO).
    + by apply (rw_meta _ _ _ _ _ _ _ _ HR f x).
  - intros v w Hv Hw. apply (or_consistent _ _ _ HO); by apply rewritten_sub.
Qed.

Lemma rewritten_engine_ok : EngineOk xxh3_64 crc32 (B := B) en' ts (sh en').
Proof.
  split.
  - rewrite (rw_memtable _ _ _ _ _ _ _ _ HR), (rw_schema _ _ _ _ _ _ _ _ HR). apply (eo_mem _ _ _ _ _ HE).
  - apply (eo_newer _ _ _ _ _ HE).
  - intros x. rewrite (rw_schema _ _ _ _ _ _ _ _ HR). apply (eo_rows _ _ _ _ _ HE).
  - apply (rw_state _ _ _ _ _ _ _ _ HR).
  - intros l Hl. split; [by apply (rw_levels _ _ _ _ _ _ _ _ HR)|]. intros f x Hf Hx.
    destruct (rewritten_file l f Hf) as [(Hf' & _ & Es)|[-> Hn]].
    + rewrite Es in Hx. by apply (eo_levels _ _ _ _ _ HE l Hl).
    + by apply (rw_meta _ _ _ _ _ _ _ _ HR f x).
  - apply ordered_shadow, rewritten_ordered.
Qed.

Lemma rewritten_cache : CacheOk en' (all_versions en' ts (sh en')).
Proof.
  unfold CacheOk. rewrite (rw_cache _ _ _ _ _ _ _ _ HR). destruct (en_cache en); cbn; [apply cached_clear|done].
Qed.
End rewritten.
