(* ===== verification/CompactionFile.v ===== *)
(** * The files a compaction writes

    What the merge of [src/crates/merutable/src/engine/compaction/iterator.rs]
    keeps of the rows of its sources, and that the files
    [src/crates/merutable/src/engine/compaction/job.rs] writes for its chunks
    hold exactly those rows. *)

From Stdlib Require Import Ascii.
From S2P Require Import Prelude Decimal Disk Sequence Schema Key RowCodec WalBatch WalLog WalManager Mvcc Memtable LsmVersion DeletionVector Manifest ManifestPb Catalog Commit CommitRun Compaction Picker Bloom KvIndex Arrow Codec FileReader FileWriter Cache ReadPath DvResolve Engine FlushFile StoreInv ChangeFeed Rewrite CompactionJob.
Local Open Scope Z_scope.

(** ** The merge *)
Section merge.
Context (K : bytes -> Prop) (K_pf : prefix_free K) (oldest : SeqNum) (drop : bool) (fes : list FileEntries).
Context (Hwf : Forall (fun e => key_wf K (ce_ikey e)) (flatten fes)) (Hu : unique_seqs (map version_of (flatten fes))).
Local Abbreviation merged := (CompactionIterator_new fes oldest drop).

(** Of every key the newest version is kept, unless it is a tombstone that may
    be dropped, and then nothing is. *)
Lemma merge_keeps e : e ∈ flatten fes ->
  (exists x, x ∈ merged /\ uk x = uk e /\ (seq (ce_ikey e) < seq (ce_ikey x) \/ x = e)) \/
  (drop = true /\ (forall x, x ∈ merged -> uk x <> uk e) /\
   exists z, z ∈ flatten fes /\ uk z = uk e /\ seq (ce_ikey e) <= seq (ce_ikey z) /\ op_type (ce_ikey z) = Delete).
Proof.
  intros He. destruct (iterator_spec K K_pf oldest drop fes Hwf Hu) as (_ & Hsub & Hn). cbv zeta in Hsub, Hn.
  specialize (Hn (uk e) SEQNUM_MAX). rewrite Forall_forall in Hwf.
  destruct (newest (map version_of (flatten fes)) (uk e) SEQNUM_MAX) as [l|] eqn:El.
  2:{ exfalso. pose proof (proj1 (newest_None _ _ _) El (version_of e) ltac:(by apply list_elem_of_fmap_2)) as Hv.
      apply not_true_iff_false in Hv. apply Hv, visible_spec. split; [done|]. destruct (Hwf e He) as (_ & Hq & _). cbn. lia. }
  pose proof (newest_is_newest _ _ _ _ El) as (Hl & [Hk _]%visible_spec & Hmax).
  apply list_elem_of_fmap in Hl as (z & -> & Hz). cbn in Hk.
  assert (Hle : seq (ce_ikey e) <= seq (ce_ikey z)).
  { specialize (Hmax (version_of e) ltac:(by apply list_elem_of_fmap_2)). cbn in Hmax. apply Hmax, visible_spec.
    split; [done|]. destruct (Hwf e He) as (_ & Hq & _). cbn. lia. }
  cbn [keep] in Hn. unfold survives in Hn at 1. cbn [version_of v_key] in Hn. rewrite Hk, El in Hn. cbn [version_of v_seq v_op] in Hn.
  rewrite Z.eqb_refl in Hn. destruct (drop && _ && _) eqn:Ed; cbn [negb] in Hn.
  - right. apply andb_true_iff in Ed as [[-> Ho%bool_decide_eq_true]%andb_true_iff _]. split; [done|]. split; [|by exists z].
    intros x Hx Ex. pose proof (proj1 (newest_None _ _ _) Hn (version_of x) ltac:(by apply list_elem_of_fmap_2)) as Hv.
    apply not_true_iff_false in Hv. apply Hv, visible_spec. split; [done|]. destruct (Hwf x (Hsub x Hx)) as (_ & Hq & _). cbn. lia.
  - left. apply newest_is_newest in Hn as (Hin & _). apply list_elem_of_fmap in Hin as (x & Ex & Hx).
    assert (x = z) as -> by (by apply (f_equal v_val) in Ex). exists z. split; [done|]. split; [done|].
    destruct (decide (seq (ce_ikey e) = seq (ce_ikey z))) as [Eq|]; [right|left; lia].
    assert (Ev : version_of z = version_of e) by (eapply unique_seqs_inj; [exact Hu|by apply list_elem_of_fmap_2..|done|done]).
    by apply (f_equal v_val) in Ev.
Qed.
End merge.

(** ** The chunks *)

(** The recorded maximum is not above every row. *)
Definition max_attained (c : OutputChunk) : Prop :=
  oc_seq_max c <= 0 \/ exists y, y ∈ rows c /\ oc_seq_max c <= seq y.1.

Lemma push_attained k row est c : max_attained c -> max_attained (push k row est c).
Proof.
  unfold max_attained, push. cbn [rows oc_seq_max]. destruct (Z.ltb_spec (oc_seq_max c) (seq k)).
  - intros _. right. exists (k, row). split; [apply elem_of_app; right; left|done].
  - intros [?|(y & Hy & ?)]; [by left|right; exists y; split; [apply elem_of_app; by left|done]].
Qed.

Lemma chunks_attained es chunks cur : Forall max_attained chunks -> max_attained cur ->
  Forall max_attained (chunk_loop es chunks cur).
Proof.
  revert chunks cur. induction es as [|e es IH]; intros chunks cur Hc Hcur; cbn [chunk_loop].
  - case_bool_decide; [done|]. by apply Forall_app_2, Forall_singleton.
  - destruct (_ && _ && _); apply IH.
    + by apply Forall_app_2, Forall_singleton.
    + apply push_attained. by left.
    + done.
    + by apply push_attained.
Qed.

Lemma make_chunks_attained es c : c ∈ make_chunks es -> max_attained c.
Proof.
  intros Hc. pose proof (chunks_attained es [] empty_chunk ltac:(constructor) ltac:(by left)) as HF.
  rewrite Forall_forall in HF. by apply HF.
Qed.

(** The minimum the manifest records is that of the chunk, or 0. *)
Lemma output_seqs lv fmt p size stats c g :
  chunk_good c g -> g <> [] -> max_attained c -> (forall e, e ∈ g -> 0 <= seq (ce_ikey e)) ->
  let m := df_meta (output_file lv fmt p size stats c) in
  (forall e, e ∈ g -> seq_min m <= seq (ce_ikey e) <= seq_max m) /\
  exists e, e ∈ g /\ seq_max m <= seq (ce_ikey e).
Proof.
  intros (Hr & HF & _) Hne Hm H0 m. rewrite Forall_forall in HF. split.
  - intros e He. destruct (HF e He) as (_ & _ & H1 & H2). specialize (H0 e He). cbn.
    destruct (_ =? _); lia.
  - cbn. destruct Hm as [Hm|(y & Hy & Hle)].
    + destruct g as [|e g]; [done|]. exists e. specialize (H0 e ltac:(left)). split; [left|lia].
    + rewrite Hr in Hy. apply list_elem_of_fmap in Hy as (e & -> & He). by exists e.
Qed.

(** ** The source files *)
Section sources.
Context (xxh3_64 crc32 : bytes -> Z) {F M C B : Type}.
Context `{AR : !Arrow, PF : !ParquetFile F, FC : !FooterCodec, SJ : !SchemaJson, RB : !Roaring B, RL : !RoaringLaws B}.
Context `{SM : !SkipMap M, LC : !LruCache C, RS : !RowSerde}.
Implicit Types (en : MeruEngine F M C) (f : DataFileMeta) (ts : list ATable).
Local Abbreviation sh := (shown crc32 (B := B)).

Lemma source_dv_eq en f : coords_ok f -> source_dv crc32 (B := B) en f = load_dv crc32 en f.
Proof.
  intros Hc. rewrite <- (load_existing_eq crc32 en f Hc). unfold source_dv, load_existing_dv, coords_ok in *.
  destruct (dv_path f) as [p|], (dv_offset f) as [o|], (dv_length f) as [l|]; try done.
  destruct (Z.ltb_spec o 0), (Z.ltb_spec l 0); try lia. cbn [orb]. destruct (ok_or (en_puffins en p) Io) as [puffin|?|]; [|done..].
  rewrite !Ok_bind. replace (o + l - o) with l by lia. done.
Qed.

(** Rows of a source file: those its deletion vector leaves. *)
Definition reads en f (fe : FileEntries) : Prop := map (fun x => row_version x.1) (entries fe) = sh en f.

Lemma source_reads en f rd dv : Resolvable xxh3_64 crc32 (B := B) en f rd dv -> exists rows,
  ('(rd, dv) ← open_source_file crc32 (B := B) en f; read_physical_rows_with_positions rd dv) = Ok rows /\
  map (fun x => row_version x.1) rows = sh en f.
Proof.
  intros HR. pose proof (rs_open _ _ _ _ _ _ HR) as Ho. unfold shown. rewrite Ho.
  unfold open_source_file, open_file in *. rewrite source_dv_eq by apply HR.
  destruct (ok_or _ _) as [src|?|]; [|done..]. rewrite Ok_bind in *. destruct (FileReader.open src _) as [rd0|?|]; [|done..].
  rewrite Ok_bind in *. destruct (load_dv _ _ _) as [dv0|?|]; [|done..]. rewrite Ok_bind in *. injection Ho as -> ->.
  unfold read_physical_rows_with_positions. cbn [mbind res_bind].
  rewrite (read_all_Ok xxh3_64 _ rd (rs_ok _ _ _ _ _ _ HR)), Ok_bind.
  destruct (physical_rows_spec (rows_of rd) 0 dv) as (rows & -> & E); [lia| |by exists rows].
  rewrite Z.add_0_l, <- (rs_rows _ _ _ _ _ _ HR). apply HR.
Qed.

Context en (fs : list DataFileMeta) (fes : list FileEntries) (HF : Forall2 (reads en) fs fes).

Lemma flatten_reads : map (fun e => row_version (ce_ikey e, Compaction.ce_row e)) (flatten fes) = concat (map (sh en) fs).
Proof.
  unfold flatten. induction HF as [|f fe fs' fes' Hf _ IH]; [done|]. cbn [map concat]. rewrite map_app, map_map.
  f_equal; [|apply IH; by inversion HF]. unfold reads in Hf. rewrite <- Hf. apply map_ext. by intros [[k row] p].
Qed.

Lemma flatten_elem e : e ∈ flatten fes -> exists f, f ∈ fs /\ row_version (ce_ikey e, Compaction.ce_row e) ∈ sh en f.
Proof.
  intros He. assert (H : row_version (ce_ikey e, Compaction.ce_row e) ∈ concat (map (sh en) fs)).
  { rewrite <- flatten_reads. by apply (list_elem_of_fmap_2 (fun e => row_version (ce_ikey e, Compaction.ce_row e))). }
  apply elem_of_concat in H as (l & (f & -> & Hf)%list_elem_of_fmap & Hx). by exists f.
Qed.

Lemma elem_flatten f x : f ∈ fs -> x ∈ sh en f -> exists e, e ∈ flatten fes /\ row_version (ce_ikey e, Compaction.ce_row e) = x.
Proof.
  intros Hf Hx. assert (H : x ∈ concat (map (sh en) fs)).
  { apply elem_of_concat. exists (sh en f). split; [by apply list_elem_of_fmap_2|done]. }
  rewrite <- flatten_reads in H. apply list_elem_of_fmap in H as (e & -> & He). by exists e.
Qed.
End sources.

Lemma NoDup_concat_map {A A'} (g : A -> list A') l :
  (forall x, x ∈ l -> NoDup (g x)) ->
  (forall x y z, x ∈ l -> y ∈ l -> x <> y -> z ∈ g x -> z ∉ g y) -> NoDup l -> NoDup (concat (map g l)).
Proof.
  induction l as [|x l IH]; intros Hg Hd Hn; [constructor|]. cbn. apply NoDup_cons in Hn as [Hx Hn]. apply NoDup_app.
  split; [apply Hg; left|]. split.
  - intros z Hz (l' & (y & -> & Hy)%list_elem_of_fmap & Hzy)%elem_of_concat.
    refine (Hd x y z _ _ _ Hz Hzy); [left|by right|by intros ->].
  - apply IH; [intros y Hy; apply Hg; by right| |done]. intros y z w Hy Hz. apply Hd; by right.
Qed.

(** ** Distinct files of a store *)
Section apart.
Context (xxh3_64 crc32 : bytes -> Z) {F M C B : Type}.
Context `{AR : !Arrow, PF : !ParquetFile F, FC : !FooterCodec, SJ : !SchemaJson, RB : !Roaring B, RL : !RoaringLaws B}.
Context `{SM : !SkipMap M, SML : !SkipMapLaws M, LC : !LruCache C, LCL : !LruCacheLaws C, RS : !RowSerde}.
Local Abbreviation sh := (shown crc32 (B := B)).
Context (en : MeruEngine F M C) (ts : list ATable).
Context (HE : EngineOk xxh3_64 crc32 (B := B) en ts (sh en)) (HO : Ordered crc32 (B := B) en ts).
Context (Hres : forall l f, f ∈ files_at (en_version en) l -> exists rd dv, Resolvable xxh3_64 crc32 (B := B) en f rd dv).
Local Abbreviation K := (encoded_key (en_schema en)).

(** The versions a file shows. *)
Lemma shown_wf l f x : f ∈ files_at (en_version en) l -> x ∈ sh en f ->
  exists z, x = row_version z /\ key_wf K z.1 /\ covers (v_key x) f = true.
Proof.
  intros Hf Hx. destruct (Hres l f Hf) as (rd & dv & HR). unfold shown in Hx. rewrite (rs_open _ _ _ _ _ _ HR) in Hx.
  apply live_versions_in in Hx as (z & Hz & ->). exists z. split; [done|].
  pose proof (fo_keys _ _ _ (rs_ok _ _ _ _ _ _ HR)) as Hk. rewrite Forall_forall in Hk. split; [by apply Hk|].
  destruct (rs_bounds _ _ _ _ _ _ HR z Hz) as (_ & _ & B1 & B2). unfold covers.
  apply andb_true_iff. rewrite !bytes_leb_spec. done.
Qed.

Lemma shown_seq_ok l f x : f ∈ files_at (en_version en) l -> x ∈ sh en f -> seq_ok x.
Proof. intros Hf Hx. by destruct (shown_wf l f x Hf Hx) as (z & -> & (_ & Hs & _) & _). Qed.

Lemma shown_in l f x : f ∈ files_at (en_version en) l -> x ∈ sh en f -> vmap file_row x ∈ all_versions en ts (sh en).
Proof.
  intros Hf Hx. apply all_elem. right. exists l, f. split; [by eapply (or_levels _ _ _ HO)|]. split; [done|]. by apply list_elem_of_fmap_2.
Qed.

(** Below L0 no key is in two files of a level. *)
Lemma level_apart l f f' x y : 1 <= l -> f ∈ files_at (en_version en) l -> f' ∈ files_at (en_version en) l -> f <> f' ->
  x ∈ sh en f -> y ∈ sh en f' -> v_key x <> v_key y.
Proof.
  intros Hl Hf Hf' Hne Hx Hy Ek. destruct (eo_levels _ _ _ _ _ HE l Hl) as [[_ Hs] Hc].
  pose proof (Hc f x Hf Hx) as C1. pose proof (Hc f' y Hf' Hy) as C2. rewrite <- Ek in C2.
  unfold covers in C1, C2. apply andb_true_iff in C1 as [A1%bytes_leb_spec A2%bytes_leb_spec], C2 as [B1%bytes_leb_spec B2%bytes_leb_spec].
  destruct (sorted_trichotomy _ _ _ _ Hs Hf Hf' Hne) as [H|H]; unfold before in H.
  - apply A2. by eapply bytes_lt_nlt_trans.
  - apply B2. by eapply bytes_lt_nlt_trans.
Qed.

(** No version is in two files. *)
Lemma files_apart l l' f f' x y : f ∈ files_at (en_version en) l -> f' ∈ files_at (en_version en) l' ->
  l <> l' \/ f <> f' -> x ∈ sh en f -> y ∈ sh en f' -> v_key x = v_key y -> v_seq x <> v_seq y.
Proof.
  intros Hf Hf' Hne Hx Hy Ek. destruct (Z.lt_trichotomy l l') as [Hlt|[<-|Hlt]].
  - pose proof (or_deep _ _ _ HO l l' f f' x y Hlt Hf Hf' Hx Hy Ek). lia.
  - destruct Hne as [|Hne]; [done|]. destruct (decide (l = 0)) as [->|Hl].
    + pose proof (or_below _ _ _ HO 0 f x Hf Hx). pose proof (or_below _ _ _ HO 0 f' y Hf' Hy).
      destruct (sorted_trichotomy _ _ _ _ (or_l0 _ _ _ HO) Hf Hf' Hne); lia.
    + pose proof (or_levels _ _ _ HO l f Hf) as H0. by destruct (level_apart l f f' x y ltac:(lia) Hf Hf' Hne Hx Hy).
  - pose proof (or_deep _ _ _ HO l' l f' f y x Hlt Hf' Hf Hy Hx ltac:(done)). lia.
Qed.

(** No file is listed twice in a level. *)
Lemma files_nodup l : 0 <= l -> NoDup (files_at (en_version en) l).
Proof.
  intros Hl. destruct (decide (l = 0)) as [->|Hne]; [eapply strict_l0_nodup; [apply (or_l0 _ _ _ HO)|apply (or_range _ _ _ HO)]|].
  destruct (eo_levels _ _ _ _ _ HE l ltac:(lia)) as [[Hr Hs] _]. induction Hs as [|f fs _ IH Hf]; constructor.
  - intros Hin. rewrite Forall_forall in Hf. specialize (Hf f Hin). apply Forall_cons in Hr as [Hr _].
    unfold range_ok in Hr. unfold before in Hf. apply bytes_leb_spec in Hr. done.
  - apply IH. by apply Forall_cons in Hr as [_ ?].
Qed.

Local Abbreviation at_seq := (fun x => (v_key x, v_seq x)).

Lemma shown_unique l f : f ∈ files_at (en_version en) l -> NoDup (map at_seq (sh en f)).
Proof.
  intros Hf. assert (Hs : StronglySorted v_lt (sh en f)).
  { destruct (Hres l f Hf) as (rd & dv & HR). unfold shown. rewrite (rs_open _ _ _ _ _ _ HR).
    pose proof (rs_ok _ _ _ _ _ _ HR) as [_ Hk Hs _ _ _ _]. by apply (live_versions_sorted K). }
  assert (Hin : forall x, x ∈ sh en f -> vmap file_row x ∈ all_versions en ts (sh en)) by (intros x; by eapply shown_in).
  revert Hin. induction Hs as [|x xs Hs IH Hx]; intros Hin; [constructor|]. cbn. constructor; [|apply IH; intros y Hy; apply Hin; by right].
  intros (y & E & Hy)%list_elem_of_fmap. injection E as Ek Es.
  assert (Ev : vmap file_row x = vmap file_row y) by (apply (or_consistent _ _ _ HO); [apply Hin; left|apply Hin; by right|done|done]).
  rewrite Forall_forall in Hx. specialize (Hx y Hy). pose proof (f_equal v_op Ev) as Eo. cbn in Eo.
  unfold v_lt, ikey in Hx. rewrite Ek, Es, Eo in Hx. by apply bytes_lt_irrefl in Hx.
Qed.

(** *** The sources of a job *)
Context (fs : list DataFileMeta) (fes : list FileEntries) (HF : Forall2 (reads crc32 (B := B) en) fs fes).
Context (Hfs : forall f, f ∈ fs -> exists l, f ∈ files_at (en_version en) l) (Hnd : NoDup fs).

Lemma flatten_unique : unique_seqs (map version_of (flatten fes)).
Proof.
  unfold unique_seqs. rewrite map_map.
  replace (map _ (flatten fes)) with (map at_seq (concat (map (sh en) fs))); [|by rewrite <- (flatten_reads crc32 en fs fes HF), map_map].
  rewrite concat_map, map_map. apply NoDup_concat_map; [| |done].
  - intros f Hf. destruct (Hfs f Hf) as [l Hl]. by eapply shown_unique.
  - intros f f' z Hf Hf' Hne (x & -> & Hx)%list_elem_of_fmap (y & E & Hy)%list_elem_of_fmap. injection E as Ek Es.
    destruct (Hfs f Hf) as [l Hl], (Hfs f' Hf') as [l' Hl']. by eapply (files_apart l l' f f' x y); eauto.
Qed.

Lemma flatten_in e : e ∈ flatten fes -> exists l f, f ∈ fs /\ f ∈ files_at (en_version en) l /\
  row_version (ce_ikey e, Compaction.ce_row e) ∈ sh en f.
Proof.
  intros He. destruct (flatten_elem crc32 en fs fes HF e He) as (f & Hf & Hx). destruct (Hfs f Hf) as [l Hl]. by exists l, f.
Qed.

Lemma flatten_stored e : e ∈ flatten fes -> key_wf K (ce_ikey e) /\ stored_version (en_schema en) (row_version (ce_ikey e, Compaction.ce_row e)).
Proof.
  intros He. destruct (flatten_in e He) as (l & f & _ & Hl & Hx). split; [|by eapply (or_rows _ _ _ HO)].
  destruct (shown_wf l f _ Hl Hx) as (z & E & Hk & _). apply (f_equal v_val) in E. cbn in E. by rewrite <- E in Hk.
Qed.

Lemma flatten_wf : Forall (fun e => key_wf K (ce_ikey e) /\ uk e <> []) (flatten fes).
Proof.
  apply Forall_forall. intros e He. destruct (flatten_stored e He) as [Hk Hs]. split; [done|].
  destruct (sv_len _ _ Hs) as [Hl _]. cbn in Hl. by destruct (user_key_bytes (ce_ikey e)).
Qed.

Lemma flatten_holds : Forall2 file_holds fs fes.
Proof.
  apply Forall2_same_length_lookup_2; [by eapply Forall2_length|]. intros i f fe Hi Hie.
  pose proof (Forall2_lookup_lr _ _ _ _ _ _ HF Hi Hie) as Hr. apply Forall_forall. intros x Hx.
  destruct (Hfs f ltac:(by eapply list_elem_of_lookup_2)) as [l Hl].
  destruct (shown_wf l f (row_version x.1) Hl) as (_ & _ & _ & Hc); [|exact Hc].
  rewrite <- Hr. by apply (list_elem_of_fmap_2 (fun x => row_version x.1)).
Qed.
End apart.

(** ** One version per key

    With the watermark at the frontier the merge keeps at most the newest
    version of a key. *)
Section frontier.
Context (K : bytes -> Prop) (K_pf : prefix_free K) (oldest : SeqNum) (drop : bool) (fes : list FileEntries).
Context (Hwf : Forall (fun e => key_wf K (ce_ikey e)) (flatten fes)) (Hu : unique_seqs (map version_of (flatten fes))).
Context (Hold : forall e, e ∈ flatten fes -> seq (ce_ikey e) <= oldest).
Local Abbreviation merged := (CompactionIterator_new fes oldest drop).

Lemma merged_newest x e : x ∈ merged -> e ∈ flatten fes -> uk e = uk x -> seq (ce_ikey e) <= seq (ce_ikey x).
Proof.
  intros Hx He Ek. destruct (iterator_spec K K_pf oldest drop fes Hwf Hu) as (_ & Hsub & Hn). cbv zeta in Hsub, Hn.
  specialize (Hn (uk x) (seq (ce_ikey x))). pose proof (Hsub x Hx) as Hxf.
  destruct (newest (map version_of merged) (uk x) (seq (ce_ikey x))) as [v|] eqn:Ev.
  2:{ pose proof (proj1 (newest_None _ _ _) Ev (version_of x) ltac:(by apply list_elem_of_fmap_2)) as Hv.
      apply not_true_iff_false in Hv. destruct Hv. by apply visible_spec. }
  pose proof (newest_is_newest _ _ _ _ Ev) as (Hv & [Hk Hle]%visible_spec & Hmax).
  specialize (Hmax (version_of x) ltac:(by apply list_elem_of_fmap_2) ltac:(by apply visible_spec)). cbn in Hmax.
  assert (v = version_of x) as ->.
  { apply list_elem_of_fmap in Hv as (y & -> & Hy). cbn in *. eapply unique_seqs_inj; [exact Hu|by apply list_elem_of_fmap_2, Hsub|by apply list_elem_of_fmap_2|done|cbn; lia]. }
  destruct (newest (map version_of (flatten fes)) _ _) as [v|]; [|done]. cbn [keep] in Hn.
  destruct (survives _ _ _ _) eqn:Es; [|done]. injection Hn as <-. unfold survives in Es. cbn [version_of v_key] in Es.
  destruct (newest (map version_of (flatten fes)) (uk x) SEQNUM_MAX) as [l|] eqn:El; [|done].
  apply newest_is_newest in El as (Hl & _ & Hmaxl). rewrite Forall_forall in Hwf.
  specialize (Hmaxl (version_of e) ltac:(by apply list_elem_of_fmap_2) ltac:(apply visible_spec; split; [done|by apply Hwf])). cbn in Hmaxl.
  cbn [version_of v_seq] in Es. destruct (Z.eqb_spec (v_seq l) (seq (ce_ikey x))); [lia|]. apply Z.leb_le in Es.
  specialize (Hold e He). lia.
Qed.

Lemma merged_keys : StronglySorted bytes_lt (map (fun e => uk e) merged).
Proof.
  destruct (iterator_spec K K_pf oldest drop fes Hwf Hu) as (Hs & Hsub & _). cbv zeta in Hs, Hsub.
  pose proof merged_newest as Hm. rewrite Forall_forall in Hwf. revert Hs Hsub Hm. generalize merged.
  intros l Hs Hsub Hm. induction l as [|x l IH]; [constructor|]. cbn in *. apply StronglySorted_inv in Hs as [Hs Hx].
  constructor; [apply IH; [done|intros e He; apply Hsub; by right|intros a e Ha; apply Hm; by right]|].
  apply Forall_fmap, Forall_forall. intros y Hy. rewrite Forall_fmap, Forall_forall in Hx. specialize (Hx y Hy).
  assert (Hxf : x ∈ flatten fes) by (apply Hsub; left). assert (Hyf : y ∈ flatten fes) by (apply Hsub; by right).
  apply (v_lt_iff K K_pf) in Hx; [|by apply wf_ok, Hwf..]. destruct Hx as [Hx|(Ek & Hlt)]; [exact Hx|].
  exfalso. cbn in Ek, Hlt. pose proof (Hm x y ltac:(left) Hyf ltac:(done)). pose proof (Hm y x ltac:(by right) Hxf Ek).
  assert (E : version_of x = version_of y) by (eapply unique_seqs_inj; [exact Hu|by apply list_elem_of_fmap_2..|done|cbn; lia]).
  pose proof (f_equal v_op E) as Eo. cbn in Eo. rewrite Eo in Hlt. lia.
Qed.
End frontier.

(** ** The size of a chunk *)
Section chunk_size.
Definition row_weight (x : InternalKey * Row) : Z :=
  estimate_row_bytes x.2 + Z.of_nat (length (user_key_bytes x.1)) + 16.

Definition weight (rows : list (InternalKey * Row)) : Z := foldr (fun x t => row_weight x + t) 0 rows.

Lemma estimate_nonneg row : 0 <= estimate_row_bytes row.
Proof. unfold estimate_row_bytes, wrap. apply Z.mod_pos_bound. lia. Qed.

Lemma row_weight_pos x : Z.of_nat (length (user_key_bytes x.1)) + 16 <= row_weight x.
Proof. unfold row_weight. pose proof (estimate_nonneg x.2). lia. Qed.

(** A row whose estimate fits a file, and that takes in no column of a file
    more than three times its estimate. *)
Definition chunk_row_ok `{!RowSerde} (s : TableSchema) (x : InternalKey * Row) : Prop :=
  row_weight x <= TARGET_OUTPUT_FILE_BYTES /\ Forall (fun g => cell_bytes (g x) <= 3 * row_weight x) (column_getters s Dual).

Lemma chunk_row_ok_bool `{!RowSerde} s x :
  (row_weight x <=? TARGET_OUTPUT_FILE_BYTES) && forallb (fun g => cell_bytes (g x) <=? 3 * row_weight x) (column_getters s Dual) = true ->
  chunk_row_ok s x.
Proof.
  intros [Hw%Z.leb_le Hc]%andb_true_iff. split; [done|]. apply List.Forall_forall. intros g Hg.
  by apply Z.leb_le, (proj1 (forallb_forall _ _) Hc g).
Qed.

Lemma weight_app l k : weight (l ++ k) = weight l + weight k.
Proof. unfold weight. induction l as [|x l IH]; cbn in *; lia. Qed.

Lemma weight_len l : 16 * Z.of_nat (length l) <= weight l.
Proof. unfold weight. induction l as [|x l IH]; cbn in *; [lia|]. pose proof (row_weight_pos x). lia. Qed.

Lemma weight_columns `{!RowSerde} s l g : g ∈ column_getters s Dual -> (forall x, x ∈ l -> chunk_row_ok s x) ->
  cells_bytes (map g l) <= 3 * weight l.
Proof.
  intros Hg. unfold weight, cells_bytes. induction l as [|x l IH]; intros Hl; cbn [map foldr]; [lia|].
  destruct (Hl x ltac:(left)) as [_ HF]. rewrite Forall_forall in HF. specialize (HF g Hg).
  specialize (IH ltac:(intros y Hy; apply Hl; by right)). cbn in HF. lia.
Qed.

(** The estimate of an entry does not wrap. *)
Definition sized (e : CompactionEntry) : Prop := row_weight (ce_ikey e, Compaction.ce_row e) <= entry_estimate e.

Lemma estimate_sized e : row_weight (ce_ikey e, Compaction.ce_row e) <= TARGET_OUTPUT_FILE_BYTES -> sized e.
Proof.
  assert (TARGET_OUTPUT_FILE_BYTES < 2 ^ 64) by (vm_compute; reflexivity). intros Hw. unfold sized, entry_estimate, wrap.
  pose proof (row_weight_pos (ce_ikey e, Compaction.ce_row e)). unfold row_weight in *. cbn [fst snd] in *. rewrite Z.mod_small; lia.
Qed.

Definition chunk_small (c : OutputChunk) : Prop :=
  weight (rows c) <= approx_bytes c /\ ((length (rows c) <= 1)%nat \/ weight (rows c) <= TARGET_OUTPUT_FILE_BYTES).

Lemma chunk_loop_small es chunks cur :
  Forall sized es -> StronglySorted bytes_lt (map (fun e => uk e) es) ->
  (rows cur = [] \/ forall e, e ∈ es -> last_user_key cur <> uk e) ->
  Forall chunk_small chunks -> chunk_small cur -> Forall chunk_small (chunk_loop es chunks cur).
Proof.
  assert (HT : TARGET_OUTPUT_FILE_BYTES < 2 ^ 64 - 1) by (vm_compute; reflexivity).
  assert (Hest : forall e, entry_estimate e <= 2 ^ 64 - 1).
  { intros e. unfold entry_estimate, wrap. pose proof (Z.mod_pos_bound (estimate_row_bytes (Compaction.ce_row e) + Z.of_nat (length (uk e)) + 16) (2 ^ 64) ltac:(lia)). lia. }
  revert chunks cur. induction es as [|e es IH]; intros chunks cur Hz Hs Hcur Hc Hsm; cbn [chunk_loop].
  { case_bool_decide; [done|]. by apply Forall_app_2, Forall_singleton. }
  apply Forall_cons in Hz as [He Hz]. cbn [map] in Hs. apply StronglySorted_inv in Hs as [Hs Hlt].
  rewrite Forall_fmap, Forall_forall in Hlt.
  assert (Hnext : forall cur', last_user_key cur' = uk e -> rows cur' = [] \/ forall x, x ∈ es -> last_user_key cur' <> uk x).
  { intros cur' ->. right. intros x Hx Ex. specialize (Hlt x Hx). cbn in Hlt. rewrite Ex in Hlt. by apply bytes_lt_irrefl in Hlt. }
  unfold sized in He. specialize (Hest e).
  assert (Hone : forall c, rows c = [] -> chunk_small c -> chunk_small (push (ce_ikey e) (Compaction.ce_row e) (entry_estimate e) c)).
  { intros c Er [Hw _]. unfold chunk_small, push, sat_add. cbn [rows approx_bytes]. rewrite Er in *. cbn in *. split; [lia|left; lia]. }
  destruct (negb _ && _ && _) eqn:Esplit.
  - apply IH; [done|done|by apply Hnext|by apply Forall_app_2, Forall_singleton|]. apply Hone; [done|]. split; cbn; [lia|left; lia].
  - apply IH; [done|done|by apply Hnext|done|]. destruct (decide (rows cur = [])) as [Er|Er]; [by apply Hone|].
    destruct Hcur as [|Hcur]; [done|]. rewrite (bool_decide_false (rows cur = [])) in Esplit by done.
    assert (Ek : bytes_eqb (last_user_key cur) (uk e) = false).
    { apply not_true_iff_false. intros H%bytes_eqb_spec. by apply (Hcur e ltac:(left)). }
    rewrite Ek in Esplit. cbn [negb andb] in Esplit. rewrite andb_true_r in Esplit. apply Z.ltb_ge in Esplit.
    destruct Hsm as [Hw _]. unfold chunk_small, push. cbn [rows approx_bytes]. rewrite weight_app. cbn [weight foldr fst].
    unfold sat_add in *. split; [lia|right; lia].
Qed.

Lemma index_weight rows : Forall (fun x => length (encoded x.1) = (length (user_key_bytes x.1) + 8)%nat) rows ->
  4 * Z.of_nat (index_bytes rows) <= 96 + 9 * weight rows.
Proof.
  unfold index_bytes. induction 1 as [|x l Hx _ IH]; cbn [map foldr weight] in *; [lia|]. rewrite Hx. pose proof (row_weight_pos x).
  unfold weight in *. lia.
Qed.
End chunk_size.

(** ** Writing a chunk *)
Section written.
Context (xxh3_64 : bytes -> Z) (Hxxh : forall l, 0 <= xxh3_64 l < 2 ^ 64) {F : Type}.
Context `{AR : !Arrow, ARL : !ArrowLaws, PF : !ParquetFile F, PFL : !ParquetFileLaws F, FC : !FooterCodec, FCL : !FooterCodecLaws}.
Context `{SJ : !SchemaJson, SJL : !SchemaJsonLaws, RS : !RowSerde, RSL : !RowSerdeLaws}.
Context (Hpost : forall r, is_Some (postcard_to_vec r)).
Context (s : TableSchema) (Hschema : storable_schema s).
Local Abbreviation K := (encoded_key s).

(** A row as it is after another round through a file. *)
Definition same_shown (y z : InternalKey * Row) : Prop :=
  vmap file_row (row_version z) = vmap file_row (row_version y) /\ stored_version s (row_version z).

Lemma reread fmt y z : key_wf K y.1 -> stored_version s (row_version y) -> read_back s s fmt y z -> same_shown y z.
Proof.
  intros Hk [Hl Hf Hv] Hyz. destruct (read_back_version s s fmt y z Hk Hyz) as (E1 & E2 & E3). destruct Hyz as [_ Hrow].
  assert (Eu : user_key_bytes z.1 = user_key_bytes y.1) by (unfold user_key_bytes; by rewrite E1).
  cbn [row_version v_key v_val v_op] in Hl, Hf, Hv.
  assert (Er : op_type y.1 = Put -> z.2 = y.2).
  { intros Eo. rewrite Hrow, validated_stored by (by apply Hv). rewrite drop_all. cbn. rewrite app_nil_r. by destruct y.2. }
  split.
  - unfold vmap, file_row, row_version. cbn [v_key v_seq v_op v_val]. rewrite Eu, E2, E3. f_equal.
    destruct (op_type y.1); [done|]. cbn [live_val]. by apply Er.
  - split; cbn [row_version v_key v_val v_op]; [by rewrite Eu|rewrite Hrow; by apply stored_row_fits|].
    rewrite E3. intros Eo. rewrite Er by done. by apply Hv.
Qed.

Context (bits : Z) (Hbits : 0 <= bits <= 2 ^ 14).
Context (c : OutputChunk) (g : list CompactionEntry) (Hc : chunk_good c g) (Hne : g <> []) (Hsmall : chunk_small c).
Context (Hg : forall e, e ∈ g -> key_wf K (ce_ikey e) /\ stored_version s (row_version (ce_ikey e, Compaction.ce_row e))).
Context (Hs : StronglySorted v_lt (map version_of g)).
Context (Hok : forall e, e ∈ g -> chunk_row_ok s (ce_ikey e, Compaction.ce_row e)).

Lemma chunk_row y : y ∈ rows c -> key_wf K y.1 /\ stored_version s (row_version y).
Proof. destruct Hc as (-> & _). intros (e & -> & He)%list_elem_of_fmap. by apply Hg. Qed.

Lemma key_wf_length k : key_wf K k -> length (encoded k) = (length (user_key_bytes k) + 8)%nat.
Proof. intros (_ & _ & ->). by rewrite length_app, be_split_length. Qed.

Lemma chunk_rows_ok y : y ∈ rows c -> chunk_row_ok s y.
Proof. destruct Hc as (-> & _). intros (e & -> & He)%list_elem_of_fmap. by apply Hok. Qed.

Lemma chunk_weight : weight (rows c) <= 2 ^ 29.
Proof.
  change (2 ^ 29) with TARGET_OUTPUT_FILE_BYTES. destruct Hsmall as [_ [Hl|Hl]]; [|done].
  pose proof chunk_rows_ok as Hr. destruct (rows c) as [|y [|]]; [vm_compute; discriminate| |cbn in Hl; lia].
  destruct (Hr y ltac:(left)) as [Hy _]. unfold weight. cbn [foldr]. lia.
Qed.

Lemma chunk_sizes : Z.of_nat (length (rows c)) <= 2 ^ 25 /\ Z.of_nat (index_bytes (rows c)) < 2 ^ 32.
Proof.
  assert (Hi : 4 * Z.of_nat (index_bytes (rows c)) <= 96 + 9 * weight (rows c)).
  { apply index_weight, Forall_forall. intros y Hy. by apply key_wf_length, chunk_row. }
  pose proof (weight_len (rows c)) as Hw. pose proof chunk_weight. lia.
Qed.

Lemma chunk_arrow : arrow_fits s Dual (rows c).
Proof.
  unfold arrow_fits. apply Forall_forall. intros g' Hg'. pose proof (weight_columns s (rows c) g' Hg' chunk_rows_ok).
  pose proof chunk_weight. unfold I32_MAX. lia.
Qed.

Lemma chunk_writable fmt : Writable s fmt (rows c) bits.
Proof.
  pose proof chunk_row as Hr. destruct chunk_sizes as [S1 S2]. split.
  - apply Hschema.
  - apply arrow_fits_dual, chunk_arrow.
  - apply Hschema.
  - destruct Hc as (-> & _). by destruct g.
  - apply Forall_forall. intros y Hy. split; [by apply (sv_fits _ _ (proj2 (Hr y Hy)))|apply Hpost].
  - apply Forall_forall. intros y Hy. by apply Hr.
  - destruct Hc as (-> & _). rewrite map_map. clear -Hs. revert Hs. induction g as [|e l IH]; [constructor|]. cbn.
    intros [H1 H2]%StronglySorted_inv. constructor; [by apply IH|]. rewrite Forall_fmap in H2. rewrite Forall_fmap. exact H2.
  - nia.
  - apply Forall_forall. intros y Hy. destruct (Hr y Hy) as [Hk [Hl _ _]]. rewrite (key_wf_length _ Hk). cbn in Hl. lia.
  - done.
Qed.

Lemma written_chunk lv fmt : exists (f : F) bl m rd,
  write_sorted_rows xxh3_64 (rows c) s lv fmt bits = Ok (Some f, bl, m) /\
  FileReader.open f s = Ok rd /\ FileOk xxh3_64 K rd /\ Forall2 same_shown (rows c) (rows_of rd).
Proof.
  assert (Hext : extends s s) by (split; [done|]; split; [done|apply Hschema]).
  destruct (write_sorted_rows_spec xxh3_64 Hxxh s s fmt lv (rows c) bits (chunk_writable fmt) Hext (ss_names _ Hschema))
    as (f & bl & stats & rd & Hw & Ho & HokF & Hback).
  exists f, bl, (with_stats stats (file_meta_of (rows c) lv fmt (pq_len f))), rd. split_and!; [exact Hw|done..|].
  apply Forall2_same_length_lookup_2; [by eapply Forall2_length|]. intros i y z Hy Hz.
  destruct (chunk_row y ltac:(by eapply list_elem_of_lookup_2)). eapply reread; [done..|]. by eapply Forall2_lookup_lr.
Qed.
End written.
