(* ===== verification/CompactionRun.v ===== *)
(** * Compactions keep the table

    [run_one_compaction_job] of
    [src/crates/merutable/src/engine/compaction/job.rs]: whatever system call
    fails, an engine whose job returns holds the same rows as before. *)

From Stdlib Require Import Ascii.
From S2P Require Import Prelude Decimal Disk Sequence Schema Key RowCodec WalBatch WalLog WalManager Mvcc Memtable LsmVersion DeletionVector Manifest ManifestPb Catalog Commit CommitRun Compaction Picker Bloom KvIndex Arrow Codec FileReader FileWriter Cache ReadPath DvResolve Engine Gc Flush EngineOpen Recovery FlushFile StoreInv FlushRun CompactionJob Rewrite CompactionFile.
Local Open Scope Z_scope.

(** ** The files of a pick *)
Section picked.
Context (xxh3_64 crc32 : bytes -> Z) {F M C B : Type}.
Context `{AR : !Arrow, PF : !ParquetFile F, FC : !FooterCodec, SJ : !SchemaJson, RB : !Roaring B, RL : !RoaringLaws B}.
Context `{SM : !SkipMap M, SML : !SkipMapLaws M, LC : !LruCache C, LCL : !LruCacheLaws C, RS : !RowSerde}.
Local Abbreviation sh := (shown crc32 (B := B)).
Context (en : MeruEngine F M C) (ts : list ATable).
Context (HE : EngineOk xxh3_64 crc32 (B := B) en ts (sh en)) (HO : Ordered crc32 (B := B) en ts).
Context (Hres : forall l f, f ∈ files_at (en_version en) l -> exists rd dv, Resolvable xxh3_64 crc32 (B := B) en f rd dv).
Context (Huniq : forall l l' f f', f ∈ files_at (en_version en) l -> f' ∈ files_at (en_version en) l' ->
  path f = path f' -> f = f' /\ l = l').
Context (c : EngineConfig) (busy : gset Z) (pick : CompactionPick).
Context (Hpick : pick_compaction (en_version en) c busy = Some pick) (Hcfg : Z.of_nat (length (level_target_bytes c)) <= 253).
Local Abbreviation v := (en_version en).
Local Abbreviation il := (input_level pick).
Local Abbreviation lv := (output_level pick).
Local Abbreviation ins := (input_metas v pick).
Local Abbreviation outs := (overlap_output ins (files_at v lv)).

Lemma input_elem f : f ∈ ins <-> f ∈ files_at v il /\ path f ∈ input_files pick.
Proof.
  unfold input_metas. rewrite list_elem_of_In, filter_In, <- list_elem_of_In, bool_decide_eq_true. done.
Qed.

Lemma overlap_elem f : ins <> [] -> f ∈ outs <-> f ∈ files_at v lv /\
  exists umin umax, compute_union_range ins = (Some umin, Some umax) /\ overlaps umin umax f = true.
Proof.
  intros Hne. destruct (union_range_spec ins Hne) as (umin & umax & EU & _). unfold overlap_output. rewrite EU.
  rewrite list_elem_of_In, filter_In, <- list_elem_of_In. split; [intros [? ?]; eauto|].
  intros [? (? & ? & [= <- <-] & ?)]. done.
Qed.

Lemma overlap_in f : f ∈ outs -> f ∈ files_at v lv.
Proof.
  unfold overlap_output. destruct (compute_union_range ins) as [[umin|] [umax|]]; try by intros ?%elem_of_nil.
  rewrite list_elem_of_In, filter_In, <- list_elem_of_In. by intros [? _].
Qed.

Lemma picked_left f h x y : f ∈ files_at v il -> path f ∉ map path ins -> h ∈ ins ->
  x ∈ sh en f -> y ∈ sh en h -> v_key x = v_key y -> v_seq y < v_seq x.
Proof.
  intros Hf Hp Hh Hx Hy Ek. destruct (pick_spec _ _ _ _ Hpick Hcfg) as (Hl & _ & _ & _ & n & Hn).
  assert (Hpn : path f ∉ input_files pick).
  { intros Hin. apply Hp, list_elem_of_fmap_2, input_elem. done. }
  apply input_elem in Hh as [Hh Hph]. assert (Hne : f <> h) by (by intros ->).
  destruct (decide (il = 0)) as [E|].
  - rewrite E in *. assert (Hf' := Hf). rewrite <- candidate_perm, <- (take_drop n (candidate_files v 0)) in Hf'.
    assert (Hft : f ∈ drop n (candidate_files v 0)).
    { apply elem_of_app in Hf' as [Hf'|]; [|done]. destruct Hpn. rewrite Hn. by apply list_elem_of_fmap_2. }
    rewrite Hn in Hph. apply list_elem_of_fmap in Hph as (h' & Eh & Hh').
    assert (h = h') as <-.
    { eapply Huniq; [exact Hh| |exact Eh]. rewrite <- (candidate_perm v 0). by eapply (subseteq_take). }
    pose proof (candidates_split v n h f Hh' Hft) as Hle.
    pose proof (or_below _ _ _ HO 0 f x Hf Hx). pose proof (or_below _ _ _ HO 0 h y Hh Hy).
    pose proof (or_range _ _ _ HO f Hf). destruct (sorted_trichotomy _ _ _ _ (or_l0 _ _ _ HO) Hf Hh Hne); lia.
  - by destruct (level_apart xxh3_64 crc32 en ts HE il f h x y ltac:(lia) Hf Hh Hne Hx Hy).
Qed.

Lemma picked_apart f h x y : ins <> [] -> f ∈ files_at v lv -> path f ∉ map path outs -> h ∈ ins ++ outs ->
  x ∈ sh en f -> y ∈ sh en h -> v_key x <> v_key y.
Proof.
  intros Hne Hf Hp Hh Hx Hy Ek. destruct (pick_spec _ _ _ _ Hpick Hcfg) as (Hl & El & _).
  assert (Hfo : f ∉ outs) by (intros Hfo; by apply Hp, list_elem_of_fmap_2).
  apply elem_of_app in Hh as [Hh|Hh].
  2:{ eapply (level_apart xxh3_64 crc32 en ts HE lv f h x y); try done; [lia|by apply overlap_in|by intros ->]. }
  destruct (union_range_spec ins Hne) as (umin & umax & EU & HU).
  assert (Of : overlaps umin umax f = false).
  { apply not_true_iff_false. intros Ho. apply Hfo, overlap_elem; [done|]. split; [done|]. by exists umin, umax. }
  destruct (eo_levels _ _ _ _ _ HE lv ltac:(lia)) as [Hok Hcov].
  pose proof (Hcov f x Hf Hx) as Hcf. apply input_elem in Hh as Hh'. destruct Hh' as [Hhl _].
  destruct (shown_wf xxh3_64 crc32 en Hres il h y Hhl Hy) as (z & Ez & _ & Hch).
  assert (Hk : v_key y <> []).
  { destruct (sv_len _ _ (or_rows _ _ _ HO il h y Hhl Hy)) as [Hlen _]. by destruct (v_key y). }
  destruct (key_apart ins (files_at v lv) umin umax f h (v_key y) Hok HU Hf Of ltac:(by left) Hch Hk) as [A1 A2].
  rewrite Ek in Hcf. apply andb_true_iff in Hcf as [C1%bytes_leb_spec C2%bytes_leb_spec].
  apply andb_false_iff in Of as [Of|Of]; apply orb_false_iff in Of as [_ Of%bytes_leb_false]; auto.
Qed.

Lemma picked_taken : ins <> [] -> Taken crc32 (B := B) en ins outs il lv.
Proof.
  intros Hne. destruct (pick_spec _ _ _ _ Hpick Hcfg) as (Hl & El & _). split.
  - lia.
  - intros f Hf. by apply input_elem in Hf as [? _].
  - apply overlap_in.
  - apply picked_left.
  - intros f h x y. by apply picked_apart.
Qed.

Lemma picked_nodup : NoDup (ins ++ outs).
Proof.
  destruct (pick_spec _ _ _ _ Hpick Hcfg) as (Hl & El & _). apply NoDup_app. split; [|split].
  - apply NoDup_ListNoDup, List.NoDup_filter, NoDup_ListNoDup. eapply files_nodup; [done..|lia].
  - intros f [Hf _]%input_elem Hfo%overlap_in. destruct (Huniq il lv f f Hf Hfo eq_refl). lia.
  - unfold overlap_output. destruct (compute_union_range ins) as [[umin|] [umax|]]; try constructor.
    apply NoDup_ListNoDup, List.NoDup_filter, NoDup_ListNoDup. eapply files_nodup; [done..|lia].
Qed.
End picked.

(** ** The job on disk *)
Section compaction_run.
Context (xxh3_64 crc32 : bytes -> Z) {S F M C B J : Type}.
Context `{AR : !Arrow, ARL : !ArrowLaws, PF : !ParquetFile F, PFL : !ParquetFileLaws F, FB : !FileBytes F, FBL : !FileBytesLaws F}.
Context `{FC : !FooterCodec, FCL : !FooterCodecLaws, SJ : !SchemaJson, SJL : !SchemaJsonLaws}.
Context `{RB : !Roaring B, RL : !RoaringLaws B, FJ : !FooterJson J, FJL : !FooterJsonLaws J}.
Context `{PR : !Prost, MJ : !ManifestJson, WS : !WalSink S, FS : !FileSystem S}.
Context `{SM : !SkipMap M, SML : !SkipMapLaws M, LC : !LruCache C, LCL : !LruCacheLaws C, RS : !RowSerde, RSL : !RowSerdeLaws}.
Context (dv_iter : gmap string (DeletionVector B) -> list (string * DeletionVector B)).
Implicit Types (e : Engine S M C) (d : Disk) (ts : list ATable) (f : DataFileMeta).
Local Abbreviation sh := (shown crc32 (B := B)).
Local Abbreviation view d e := (dview (F := F) d e).
Local Abbreviation StoreOk := (StoreInv.StoreOk xxh3_64 crc32 (F := F) (B := B)).
Local Abbreviation current e := (vs_current (eg_version e)).
Local Abbreviation manifest e := (cat_current (eg_catalog e)).
Local Abbreviation next_sid e := (cat_next_version (eg_catalog e)).

Lemma store_resolvable d e ts l f : StoreOk d e ts -> f ∈ files_at (en_version (view d e)) l ->
  exists rd dv, Resolvable xxh3_64 crc32 (B := B) (view d e) f rd dv.
Proof. intros HK Hf. by apply (fk_files _ _ _ _ _ HK l). Qed.

Lemma read_sources_spec d0 e ts idx fs : StoreOk d0 e ts ->
  (forall f, f ∈ fs -> exists l, f ∈ files_at (current e) l) ->
  triple (fun d => d = d0) (read_sources crc32 (F := F) (B := B) e idx fs)
    (fun r d => d = d0 /\ match r with Ok fes => Forall2 (reads crc32 (B := B) (view d0 e)) fs fes | _ => True end) (fun _ => True).
Proof.
  intros HK. revert idx. induction fs as [|f fs IH]; intros idx Hfs; cbn [read_sources].
  { apply triple_ret. intros d ->. split; [done|constructor]. }
  destruct (Hfs f ltac:(left)) as [l Hl]. destruct (store_resolvable d0 e ts l f HK Hl) as (rd & dv & HR).
  destruct (source_reads xxh3_64 crc32 (view d0 e) f rd dv HR) as (rows & Hrows & Er).
  apply triple_try with (R := fun x d => d = d0 /\ x = rows).
  { apply triple_syscall; [done| |done]. intros d ->. cbn [fst snd]. by rewrite Hrows. }
  intros x. apply triple_conseq with (P' := fun d => x = rows /\ d = d0)
    (Q' := fun r d => d = d0 /\ match r with Ok fes => Forall2 (reads crc32 (B := B) (view d0 e)) (f :: fs) fes | _ => True end) (C' := fun _ => True);
    [|by intros d []|done|done].
  apply triple_pure. intros ->.
  apply triple_try with (R := fun fes d => d = d0 /\ Forall2 (reads crc32 (B := B) (view d0 e)) fs fes).
  { eapply triple_conseq; [apply IH; intros g Hg; apply Hfs; by right|done| |done]. by intros [fes|?|] d [-> H]. }
  intros fes. apply triple_ret. intros d [-> H]. split; [done|]. by constructor.
Qed.

(** *** The files written *)
Definition chunk_bytes e (lv : Z) (c : OutputChunk) : bytes :=
  match write_sorted_rows xxh3_64 (F := F) (rows c) (eg_schema e) lv (file_format_for (eg_config e) lv) (bloom_bits_per_key (eg_config e)) with
  | Ok (Some f, _, _) => file_bytes f
  | _ => []
  end.

Definition chunk_stats e (lv : Z) (c : OutputChunk) : option (list ColumnStats) :=
  match write_sorted_rows xxh3_64 (F := F) (rows c) (eg_schema e) lv (file_format_for (eg_config e) lv) (bloom_bits_per_key (eg_config e)) with
  | Ok (Some f, _, _) => footer_stats (eg_schema e) f
  | _ => None
  end.

Definition chunk_file e (lv : Z) (id : string) (c : OutputChunk) : IcebergDataFile :=
  output_file lv (file_format_for (eg_config e) lv) (join_path (level_file lv id)) (Z.of_nat (length (chunk_bytes e lv c)))
    (chunk_stats e lv c) c.

Fixpoint chunk_files e (lv : Z) (fresh : nat -> string) (chunks : list OutputChunk) : list IcebergDataFile :=
  match chunks with
  | [] => []
  | c :: cs => chunk_file e lv (fresh (length cs)) c :: chunk_files e lv fresh cs
  end.

(** A chunk that the writer accepts. *)
Definition writes e (lv : Z) (c : OutputChunk) : Prop :=
  rows c <> [] /\ exists fl bl m, write_sorted_rows xxh3_64 (F := F) (rows c) (eg_schema e) lv
    (file_format_for (eg_config e) lv) (bloom_bits_per_key (eg_config e)) = Ok (Some fl, bl, m).

Lemma write_chunk_spec (T : path_t -> Prop) d0 e lv id c : writes e lv c -> ~ T (level_file lv id) ->
  triple (stays T d0) (write_chunk xxh3_64 (F := F) e lv id c)
    (fun r d => stays T d0 d /\ match r with
       | Ok f => f = chunk_file e lv id c /\ read_file d (level_file lv id) = Some (chunk_bytes e lv c)
       | _ => True
       end) (fun _ => True).
Proof.
  intros (Hne & fl & bl & m & Hw) Hfree.
  assert (Eb : chunk_bytes e lv c = file_bytes fl) by (unfold chunk_bytes; by rewrite Hw).
  assert (Est : chunk_stats e lv c = column_stats m) by (unfold chunk_stats; rewrite Hw; by rewrite (written_stats xxh3_64 _ _ _ _ _ _ _ _ Hw)).
  unfold write_chunk, chunk_file. rewrite Est, Hw, io_try_ok, Eb. cbn [fst]. cbv zeta.
  set (I := stays T d0). set (p := level_file lv id) in *.
  destruct (file_bytes fl) as [|b bs] eqn:Ef; [by destruct (file_bytes_nonempty fl)|]. rewrite <- Ef.
  set (W := fun d => I d /\ read_file d p = Some (file_bytes fl)).
  apply triple_try with (R := fun _ => I).
  { apply triple_syscall; [done|intros d Hd; exact Hd|intros d junk Hd; by split]. }
  intros _. apply triple_try with (R := fun _ => W).
  { apply triple_syscall; [done| |intros d junk Hd]; cbn [fst snd].
    - intros d Hd. split; [by eapply stays_trans, stays_write|apply read_written].
    - split; [by eapply stays_trans, stays_write|done]. }
  intros _. apply triple_try with (R := fun _ => W).
  { apply triple_syscall; [done| |intros d junk [Hd _]; by split]. intros d [Hd Hr].
    destruct (lookup_path d p); cbn [fst snd]; [|by split].
    split; [eapply stays_trans, stays_sync_file; done|by rewrite read_sync_file]. }
  intros _. apply triple_bind with (R := fun _ => W).
  { apply triple_syscall; [done| |done]. intros d [Hd Hr]. cbn [fst snd].
    split; [eapply stays_trans, stays_sync_dir; done|by rewrite read_sync_dir]. }
  intros _. apply triple_ret. by intros d [? ?].
Qed.

(** A program started in a known state. *)
Lemma triple_from {A} (P : Disk -> Prop) (m : io A) Q C0 :
  (forall d0, P d0 -> triple (fun d => d = d0) m Q C0) -> triple P m Q C0.
Proof. intros H sched w Hw. by apply (H (w_disk w) Hw sched w). Qed.

Lemma write_chunks_spec (T : path_t -> Prop) d0 e lv fresh cs : tidy GH d0 ->
  (forall c, c ∈ cs -> writes e lv c) ->
  (forall i, (i < length cs)%nat -> ~ T (level_file lv (fresh i)) /\ ~ GH (level_file lv (fresh i))) ->
  (forall i j, (i < length cs)%nat -> (j < length cs)%nat -> level_file lv (fresh i) = level_file lv (fresh j) -> i = j) ->
  triple (stays T d0) (write_chunks xxh3_64 (F := F) e lv fresh cs)
    (fun r d => stays T d0 d /\ match r with
       | Ok fs => fs = chunk_files e lv fresh cs /\
           forall i c, cs !! i = Some c -> read_file d (level_file lv (fresh (length cs - Datatypes.S i)%nat)) = Some (chunk_bytes e lv c)
       | _ => True
       end) (fun _ => True).
Proof.
  revert T d0. induction cs as [|c cs IH]; intros T d0 Ht Hw Hf Hd; cbn [write_chunks].
  { apply triple_ret. intros d H. split; [done|]. split; [done|]. intros i c. by rewrite lookup_nil. }
  destruct (Hw c ltac:(left)) as [Hne _]. destruct (rows c) as [|y ys] eqn:Er; [done|]. clear Hne Er.
  set (n := length cs). set (p := level_file lv (fresh n)).
  apply triple_try with (R := fun x d => (stays T d0 d /\ x = chunk_file e lv (fresh n) c /\ read_file d p = Some (chunk_bytes e lv c))).
  { eapply triple_conseq; [apply (write_chunk_spec T d0 e lv (fresh n) c); [apply Hw; left|apply Hf; cbn; lia]|done| |done].
    intros [f|?|] d [HS H]; [by destruct H|done..]. }
  intros x. apply triple_from. intros d1 (HS1 & -> & Hr1).
  assert (Ht1 : tidy GH d1) by by apply HS1.
  set (T1 := fun q => T q \/ q = p).
  apply triple_try with (R := fun fs d => stays T d0 d /\ read_file d p = Some (chunk_bytes e lv c) /\ fs = chunk_files e lv fresh cs /\
    forall i c, cs !! i = Some c -> read_file d (level_file lv (fresh (length cs - Datatypes.S i)%nat)) = Some (chunk_bytes e lv c)).
  { eapply triple_conseq; [apply (IH T1 d1 Ht1)| | |done].
    - intros c' Hc'. apply Hw. by right.
    - intros i Hi. destruct (Hf i) as [F1 F2]; [cbn; lia|]. split; [|done]. intros [?|E]; [done|].
      apply Hd in E; [lia|cbn; lia|cbn; lia].
    - intros i j Hi Hj. apply Hd; cbn; lia.
    - intros d ->. apply stays_refl.
    - assert (Hst : forall d, stays T1 d1 d -> stays T d0 d /\ read_file d p = Some (chunk_bytes e lv c)).
      { intros d HS. split; [eapply stays_trans; [exact HS1|]; eapply stays_mono; [|exact HS]; by left|].
        rewrite <- Hr1. apply HS; [done|by right|apply (Hf n); cbn; lia]. }
      intros [fs|?|] d [HS H]; destruct (Hst d HS); [by destruct H|done..]. }
  intros fs. apply triple_ret. intros d (HS & Hr & -> & Hrest). split; [done|]. split; [done|].
  intros [|i] c' Hc'; cbn in Hc'; cbn [length]; [injection Hc' as <-|by apply Hrest].
  replace (Datatypes.S (length cs) - 1)%nat with n by (unfold n; lia). exact Hr.
Qed.
Lemma chunk_files_imap e lv fresh cs :
  let name := fun i => (join_path (level_file lv (fresh (length cs - Datatypes.S i)%nat)),
    Z.of_nat (length (from_option (chunk_bytes e lv) [] (cs !! i))), from_option (chunk_stats e lv) None (cs !! i)) in
  chunk_files e lv fresh cs = imap (fun i c => output_file lv (file_format_for (eg_config e) lv) (name i).1.1 (name i).1.2 (name i).2 c) cs.
Proof.
  cbv zeta. induction cs as [|c cs IH]; [done|]. rewrite imap_cons. cbn [chunk_files length].
  replace (Datatypes.S (length cs) - 1)%nat with (length cs) by lia. unfold chunk_file at 1. cbn [lookup list_lookup from_option fst snd].
  rewrite IH. done.
Qed.

Lemma chunk_files_elem e lv fresh cs df : df ∈ chunk_files e lv fresh cs ->
  exists i c, cs !! i = Some c /\ df = chunk_file e lv (fresh (length cs - Datatypes.S i)%nat) c.
Proof.
  rewrite chunk_files_imap. intros (i & c & -> & Hc)%elem_of_lookup_imap. exists i, c. split; [done|].
  unfold chunk_file. cbn [fst snd]. by rewrite Hc.
Qed.

Lemma elem_chunk_files e lv fresh cs i c : cs !! i = Some c ->
  chunk_file e lv (fresh (length cs - Datatypes.S i)%nat) c ∈ chunk_files e lv fresh cs.
Proof.
  intros Hc. rewrite chunk_files_imap. apply elem_of_lookup_imap. exists i, c. split; [|done].
  unfold chunk_file. cbn [fst snd]. by rewrite Hc.
Qed.

(** Fresh names for the new files. *)
Record fresh_ids e (lv : Z) (fresh : nat -> string) : Prop := {
  fi_name i : fresh i <> ""%string /\ slash ∉ list_ascii_of_string (fresh i);
  fi_inj i j : fresh i = fresh j -> i = j;
  fi_free i l f : f ∈ files_at (current e) l -> path f <> join_path (level_file lv (fresh i));
  fi_pending i p : p ∈ eg_pending e -> split_path (pd_path p) <> level_file lv (fresh i);
}.

Lemma split_level_file lv id : slash ∉ list_ascii_of_string id -> split_path (join_path (level_file lv id)) = level_file lv id.
Proof. apply split_parquet. Qed.

Lemma level_file_parquet lv id : id <> ""%string -> slash ∉ list_ascii_of_string id -> parquet_path (join_path (level_file lv id)).
Proof. intros H1 H2. by exists (level_dir lv), id. Qed.

Lemma level_file_inj lv e fresh i j : fresh_ids e lv fresh -> level_file lv (fresh i) = level_file lv (fresh j) -> i = j.
Proof. intros Hf E. injection E as E. apply append_inj_r in E. by apply (fi_inj _ _ _ Hf). Qed.

Lemma fresh_ids_free d e ts lv fresh i : StoreOk d e ts -> fresh_ids e lv fresh ->
  ~ footprint e (level_file lv (fresh i)) /\ ~ GH (level_file lv (fresh i)).
Proof.
  intros HK [Hn _ Hfree _]. destruct (Hn i) as [Hne Hs]. pose proof (level_file_parquet lv _ Hne Hs) as Hp.
  destruct (parquet_not_committed _ 0 Hp) as (Pp & _ & PG). rewrite split_level_file in Pp, PG by done.
  split; [|done]. intros Hfp.
  destruct (footprint_cases xxh3_64 crc32 d e ts _ HK Hfp) as (l & f & Hin & [E|(s & _ & E)]).
  - apply (Hfree i l f Hin). destruct (fk_files _ _ _ _ _ HK l f Hin) as ((dir & id & Ep & _ & Hs') & _).
    rewrite Ep, split_parquet in E by done. rewrite Ep. by rewrite E.
  - destruct (parquet_not_committed _ s Hp) as (Pp' & _). rewrite split_level_file in Pp' by done. by apply (Pp' (path f)).
Qed.
(** *** After the commit *)
Section compacted.
Context (Hxxh : forall l, 0 <= xxh3_64 l < 2 ^ 64) (Hpost : forall r, is_Some (postcard_to_vec r)).
Context d0 d1 e e1 ts (pick : CompactionPick) (fes : list FileEntries) (fresh : nat -> string) (m' : Manifest)
  (uuid : string) (now_ms : Z).
Local Abbreviation v := (current e).
Local Abbreviation il := (input_level pick).
Local Abbreviation lv := (output_level pick).
Local Abbreviation ins := (input_metas v pick).
Local Abbreviation outs := (overlap_output ins (files_at v lv)).
Local Abbreviation drop := (should_drop_tombstones lv (length (level_target_bytes (eg_config e)))).
Local Abbreviation oldest := (GlobalSeq.current (eg_visible e)).
Local Abbreviation merged := (CompactionIterator_new fes oldest drop).
Local Abbreviation chunks := (make_chunks merged).
Local Abbreviation new := (chunk_files e lv fresh chunks).
Local Abbreviation txn := (compaction_txn (B := B) il lv ins outs new).
Local Abbreviation s := (eg_schema e).
Local Abbreviation K := (encoded_key s).

Context (HK : StoreOk d0 e ts) (Hfresh : fresh_ids e lv fresh).
Context (busy : gset Z) (Hpick : pick_compaction v (eg_config e) busy = Some pick).
Context (Hcfg : Z.of_nat (length (level_target_bytes (eg_config e))) <= 253) (Hins : ins <> []).
Context (Hbits : 0 <= bloom_bits_per_key (eg_config e) <= 2 ^ 14).
Context (Hrows : forall l f x, f ∈ files_at v l -> x ∈ sh (view d0 e) f -> chunk_row_ok s (v_val x)).
Context (HF : Forall2 (reads crc32 (B := B) (view d0 e)) (ins ++ outs) fes).

Lemma job_levels_ok : 0 <= il /\ lv = il + 1.
Proof. destruct (pick_spec _ _ _ _ Hpick Hcfg) as (? & ? & _). lia. Qed.

Lemma sources_at f : f ∈ ins ++ outs -> exists l, f ∈ files_at v l.
Proof.
  intros [Hf|Hf]%elem_of_app; [exists il; by apply (input_elem (view d0 e) pick)|exists lv].
  by apply (overlap_in (view d0 e) pick).
Qed.

Local Ltac store := pose proof (wo_engine _ _ _ _ _ _ _ (fk_writer _ _ _ _ _ HK)) as HE; pose proof (fk_ordered _ _ _ _ _ HK) as HO;
  pose proof (fun l f => store_resolvable d0 e ts l f HK) as Hres.

Lemma sources_nodup : NoDup (ins ++ outs).
Proof. store. by apply (picked_nodup xxh3_64 crc32 (view d0 e) ts HE HO (fk_paths _ _ _ _ _ HK) (eg_config e) busy). Qed.

Lemma job_taken : Taken crc32 (B := B) (view d0 e) ins outs il lv.
Proof. store. by apply (picked_taken xxh3_64 crc32 (view d0 e) ts HE HO Hres (fk_paths _ _ _ _ _ HK) (eg_config e) busy). Qed.

Lemma job_unique : unique_seqs (map version_of (flatten fes)).
Proof.
  store. apply (flatten_unique xxh3_64 crc32 (view d0 e) ts HE HO Hres (ins ++ outs) fes HF sources_at sources_nodup).
Qed.

Lemma job_stored x : x ∈ flatten fes -> key_wf K (ce_ikey x) /\ stored_version s (row_version (ce_ikey x, Compaction.ce_row x)).
Proof. store. apply (flatten_stored xxh3_64 crc32 (view d0 e) ts HO Hres (ins ++ outs) fes HF sources_at). Qed.

Lemma job_wf : Forall (fun x => key_wf K (ce_ikey x)) (flatten fes).
Proof. apply Forall_forall. intros x Hx. by apply job_stored. Qed.

Lemma job_frontier x : x ∈ flatten fes -> seq (ce_ikey x) <= oldest.
Proof.
  store. intros Hx. destruct (flatten_in crc32 (view d0 e) (ins ++ outs) fes HF sources_at x Hx) as (l & f & _ & Hf & Hxf).
  pose proof (shown_in crc32 (view d0 e) ts HO l f _ Hf Hxf) as Hin. by apply (wo_seqs _ _ _ _ _ _ _ (fk_writer _ _ _ _ _ HK)) in Hin.
Qed.

Lemma merged_in x : x ∈ merged -> x ∈ flatten fes.
Proof.
  destruct (iterator_spec K (encoded_key_prefix_free _) oldest drop fes job_wf job_unique) as (_ & H & _). apply H.
Qed.

Lemma job_row_ok x : x ∈ flatten fes -> chunk_row_ok s (ce_ikey x, Compaction.ce_row x).
Proof.
  intros Hx. destruct (flatten_in crc32 (view d0 e) (ins ++ outs) fes HF sources_at x Hx) as (l & f & _ & Hf & Hxf).
  exact (Hrows l f _ Hf Hxf).
Qed.

(** The chunks: their groups, their sizes, and that they can be written. *)
Lemma job_chunks : exists groups, Forall2 chunk_good chunks groups /\ Forall (fun g => g <> []) groups /\ concat groups = merged.
Proof.
  destruct (iterator_spec K (encoded_key_prefix_free _) oldest drop fes job_wf job_unique) as (Hs & Hsub & _).
  destruct (merged_ordered K merged (encoded_key_prefix_free _) Hs) as [Ho Hok].
  - apply Forall_forall. intros x Hx. by apply job_stored, Hsub.
  - apply Forall_forall. intros x Hx. destruct (sv_len _ _ (proj2 (job_stored x (Hsub x Hx)))) as [Hl _]. cbn in Hl.
    by destruct (user_key_bytes (ce_ikey x)).
  - destruct (make_chunks_spec _ Ho Hok) as (groups & H1 & H2 & H3 & _). by exists groups.
Qed.

Lemma job_small c : c ∈ chunks -> chunk_small c.
Proof.
  store. intros Hc. assert (HFs : Forall chunk_small chunks); [|rewrite Forall_forall in HFs; by apply HFs].
  apply chunk_loop_small; [| |by left|constructor|split; cbn; [lia|left; lia]].
  - apply Forall_forall. intros x Hx%merged_in. by apply estimate_sized, job_row_ok.
  - apply (merged_keys K (encoded_key_prefix_free _)); [apply job_wf|apply job_unique|apply job_frontier].
Qed.

Lemma job_group c i : chunks !! i = Some c -> exists g, chunk_good c g /\ g <> [] /\ chunk_small c /\ max_attained c /\
  (forall x, x ∈ g -> x ∈ merged) /\ StronglySorted v_lt (map version_of g).
Proof.
  intros Hc. destruct job_chunks as (groups & H1 & H2 & H3).
  destruct (Forall2_lookup_l _ _ _ _ _ H1 Hc) as (g & Hg & Hcg). exists g. rewrite Forall_lookup in H2.
  apply list_elem_of_lookup_2 in Hc. split; [done|]. split; [by eapply H2|]. split; [by apply job_small|].
  split; [by eapply make_chunks_attained|]. split.
  - intros x Hx. rewrite <- H3. apply elem_of_concat. exists g. split; [by eapply list_elem_of_lookup_2|done].
  - destruct (iterator_spec K (encoded_key_prefix_free _) oldest drop fes job_wf job_unique) as (Hs & _). cbv zeta in Hs.
    rewrite <- H3 in Hs. clear -Hs Hg. revert i Hg. induction groups as [|h groups IH]; intros i Hg; [done|].
    cbn in Hs. rewrite map_app in Hs. apply StronglySorted_app in Hs as (_ & Hs1 & Hs2).
    destruct i as [|i]; cbn in Hg; [by injection Hg as ->|by eapply IH].
Qed.

Lemma job_written c i : chunks !! i = Some c -> exists g (fl : F) bl m rd,
  chunk_good c g /\ g <> [] /\ max_attained c /\ (forall x, x ∈ g -> x ∈ merged) /\
  write_sorted_rows xxh3_64 (rows c) s lv (file_format_for (eg_config e) lv) (bloom_bits_per_key (eg_config e)) = Ok (Some fl, bl, m) /\
  chunk_bytes e lv c = file_bytes fl /\
  FileReader.open fl s = Ok rd /\ FileOk xxh3_64 K rd /\ Forall2 (same_shown s) (rows c) (rows_of rd) /\
  Z.of_nat (length (rows c)) <= 2 ^ 32.
Proof.
  intros Hc. destruct (job_group c i Hc) as (g & G1 & G2 & G3 & G4 & G5 & G6).
  assert (Hst : forall x, x ∈ g -> key_wf K (ce_ikey x) /\ stored_version s (row_version (ce_ikey x, Compaction.ce_row x))).
  { intros x Hx. by apply job_stored, merged_in, G5. }
  assert (Hrk : forall x, x ∈ g -> chunk_row_ok s (ce_ikey x, Compaction.ce_row x)) by (intros x Hx; by apply job_row_ok, merged_in, G5).
  destruct (written_chunk xxh3_64 Hxxh (F := F) Hpost s (fk_schema _ _ _ _ _ HK) _ Hbits c g G1 G2 G3 Hst G6 Hrk lv (file_format_for (eg_config e) lv))
    as (fl & bl & m & rd & Hw & Ho & Hok & Hback).
  pose proof (chunk_sizes s c g G1 G3 Hst Hrk) as [Hn _].
  exists g, fl, bl, m, rd. split_and!; try done; [unfold chunk_bytes; by rewrite Hw|lia].
Qed.

Lemma job_writes c : c ∈ chunks -> writes e lv c.
Proof.
  intros [i Hc]%list_elem_of_lookup. destruct (job_written c i Hc) as (g & fl & bl & m & rd & Hcg & Hg & _ & _ & Hw & _).
  split; [destruct Hcg as (-> & _); by destruct g|by exists fl, bl, m].
Qed.

(** The engine after the commit, before the consumed files are queued. *)
Context (HS : stays (footprint e) d0 d1) (Hread : forall i c, chunks !! i = Some c ->
  read_file d1 (level_file lv (fresh (length chunks - Datatypes.S i)%nat)) = Some (chunk_bytes e lv c)).
Context (Hap : apply now_ms uuid (manifest e) txn (next_sid e) ∅ = Ok m').
Context (Es : eg_schema e1 = s) (Ev : current e1 = to_version m' s).

Lemma new_add_ok : Forall add_ok new.
Proof.
  apply Forall_forall. intros df (i & c & Hc & ->)%chunk_files_elem.
  destruct (job_written c i Hc) as (g & fl & bl & m & rd & _ & _ & _ & _ & _ & _ & _ & _ & _ & Hn).
  split; [done|]. cbn. lia.
Qed.

Lemma gone_eq : removed_paths ins (files_at v lv) = map path (ins ++ outs).
Proof. unfold removed_paths. by rewrite map_app. Qed.

Lemma compacted_files :
  level_ok (files_at (current e1) lv) /\
  (forall l, files_at (current e1) l ≡ₚ base.filter (fun f => path f ∉ map path (ins ++ outs)) (files_at v l) ++
    (if l =? lv then map as_file new else [])).
Proof.
  store. pose proof job_levels_ok as Hl. pose proof new_add_ok as Hadd. pose proof (fk_version _ _ _ _ _ HK) as Hver.
  rewrite chunk_files_imap in Hadd, Hap. cbv zeta in Hadd, Hap.
  destruct (job_levels s ins (files_at v lv) fes oldest drop il lv (file_format_for (eg_config e) lv)
    (fun i => (join_path (level_file lv (fresh (length chunks - Datatypes.S i)%nat)),
       Z.of_nat (length (from_option (chunk_bytes e lv) [] (chunks !! i))), from_option (chunk_stats e lv) None (chunks !! i)))
    now_ms uuid (manifest e) (next_sid e) m') as (J1 & J2 & J3 & _); try done.
  - lia.
  - by apply (eo_levels _ _ _ _ _ HE lv ltac:(lia)).
  - rewrite <- Hver. clear. generalize (files_at v lv). intros l. induction l; constructor; done.
  - by apply (flatten_holds xxh3_64 crc32 (view d0 e) Hres (ins ++ outs) fes HF sources_at).
  - apply (flatten_wf xxh3_64 crc32 (view d0 e) ts HO Hres (ins ++ outs) fes HF sources_at).
  - apply job_unique.
  - apply (fk_rows _ _ _ _ _ HK).
  - rewrite Ev. split; [done|]. intros l. rewrite <- gone_eq. destruct (Z.eqb_spec l lv) as [->|Hne].
    + rewrite chunk_files_imap. cbv zeta. rewrite J2, <- Hver. done.
    + rewrite app_nil_r, J3, <- Hver by done. done.
Qed.

Lemma compacted_l0 : StronglySorted (fun f g => seq_max (meta g) <= seq_max (meta f)) (files_at (current e1) 0).
Proof.
  rewrite Ev, files_at_to_version. unfold sort_level. cbn [Z.eqb].
  assert (H : StronglySorted newest_first (sort_by newest_first (live_at 0 (m_entries m')))).
  { apply sort_by_sorted; [apply newest_first_total|apply newest_first_trans]. }
  induction H as [|f l _ IH Hf]; constructor; [done|]. eapply Forall_impl; [exact Hf|].
  intros g Hg%Is_true_true. by apply Z.leb_le.
Qed.

Lemma compacted_levels l : 1 <= l -> level_ok (files_at (current e1) l).
Proof.
  store. intros Hl. destruct compacted_files as [Hok Hf]. destruct (decide (l = lv)) as [->|Hne]; [done|].
  specialize (Hf l). destruct (Z.eqb_spec l lv) as [|_]; [done|]. rewrite app_nil_r in Hf.
  rewrite Ev, files_at_to_version in *. unfold sort_level in *.
  destruct (Z.eqb_spec l 0); [lia|]. destruct (Z.leb_spec 1 l); [|lia].
  destruct (eo_levels _ _ _ _ _ HE l Hl) as [[Hr Hs] _].
  rewrite sort_by_perm in Hf. apply disjoint_sorted.
  - rewrite Hf. apply Forall_forall. intros f [_ Hin]%list_elem_of_filter. rewrite Forall_forall in Hr. by apply Hr.
  - eapply ordpairs_perm; [apply disjoint_sym|symmetry; exact Hf|].
    apply (sorted_ordpairs before); [by left|]. by apply filter_list_sorted.
Qed.

(** A file that stays opens as before. *)
Lemma compacted_open l f : f ∈ files_at v l -> open_file crc32 (B := B) (view d1 e1) f = open_file crc32 (view d0 e) f.
Proof.
  intros Hf. apply open_same; [done| |].
  - cbn. unfold disk_files. rewrite (footprint_read xxh3_64 crc32 d0 d1 e ts _ HK HS); [done|]. exists l, f. auto.
  - intros p Hp. cbn. unfold disk_puffins. apply (footprint_read xxh3_64 crc32 d0 d1 e ts _ HK HS). exists l, f. eauto.
Qed.

(** A new file holds the rows of its group. *)
Lemma compacted_at i c : chunks !! i = Some c -> let n := as_file (chunk_file e lv (fresh (length chunks - Datatypes.S i)%nat) c) in
  exists g rd, chunk_good c g /\ g <> [] /\ max_attained c /\ (forall x, x ∈ g -> x ∈ merged) /\
  Resolvable xxh3_64 crc32 (B := B) (view d1 e1) n rd None /\
  Forall2 (same_shown s) (map (fun x => (ce_ikey x, Compaction.ce_row x)) g) (rows_of rd).
Proof.
  intros Hc n. subst n.
  destruct (job_written c i Hc) as (g & fl & bl & m & rd & G1 & G2 & G3 & G4 & _ & Eb & Ho & Hok & Hback & Hn).
  exists g, rd. do 4 (split; [done|]). pose proof Hback as Hback'. destruct G1 as (Er & GF & Gl). rewrite Er in Hback'. split; [|done].
  assert (El : length (rows_of rd) = length (rows c)) by (symmetry; by eapply Forall2_length).
  split; try done.
  - unfold open_file. cbn [as_file path chunk_file output_file df_path dview eview en_files en_schema]. unfold disk_files.
    rewrite split_level_file by apply (fi_name _ _ _ Hfresh). rewrite (Hread i c Hc), Eb. cbn [fmap option_fmap option_map ok_or].
    rewrite Ok_bind, file_of_bytes, Es, Ho, Ok_bind. done.
  - cbn [dview eview en_schema]. by rewrite Es.
  - cbn. by rewrite El.
  - intros z Hz. apply list_elem_of_lookup in Hz as [j Hz]. destruct (Forall2_lookup_r _ _ _ _ _ Hback' Hz) as (y & Hy & [Ey _]).
    apply list_elem_of_lookup_2, list_elem_of_fmap in Hy as (x & -> & Hx). pose proof (f_equal v_key Ey) as Ek. cbn in Ek.
    rewrite Forall_forall in GF. destruct (GF x Hx) as (B1%bytes_leb_spec & B2%bytes_leb_spec & _).
    assert (Hkey : forall x, x ∈ g -> uk x <> []).
    { intros y Hy. destruct (sv_len _ _ (proj2 (job_stored y (merged_in y (G4 y Hy))))) as [Hl _]. cbn in Hl. by destruct (user_key_bytes (ce_ikey y)). }
    destruct (chunk_bounds c g (conj Er (conj (proj2 (Forall_forall _ _) GF) Gl)) G2) as (_ & (a & Ha & Ea) & (b & Hb & Eb')).
    cbn. rewrite Ek, Ea, Eb'. rewrite Ea in B1. rewrite Eb' in B2. split_and!; [by apply Hkey..|done|done].
Qed.

Lemma compacted_new n : n ∈ map as_file new -> exists i c,
  chunks !! i = Some c /\ n = as_file (chunk_file e lv (fresh (length chunks - Datatypes.S i)%nat) c).
Proof. intros (df & -> & (i & c & Hc & ->)%chunk_files_elem)%list_elem_of_fmap. by exists i, c. Qed.

Lemma new_shown n g rd : Resolvable xxh3_64 crc32 (B := B) (view d1 e1) n rd None ->
  Forall2 (same_shown s) (map (fun x => (ce_ikey x, Compaction.ce_row x)) g) (rows_of rd) ->
  (forall z, z ∈ sh (view d1 e1) n -> exists x, x ∈ g /\ vmap file_row z = vmap file_row (row_version (ce_ikey x, Compaction.ce_row x)) /\ stored_version s z) /\
  (forall x, x ∈ g -> exists z, z ∈ sh (view d1 e1) n /\ vmap file_row z = vmap file_row (row_version (ce_ikey x, Compaction.ce_row x))).
Proof.
  intros HR Hb. unfold shown. rewrite (rs_open _ _ _ _ _ _ HR), live_versions_none. split.
  - intros z (y & -> & Hy)%list_elem_of_fmap. apply list_elem_of_lookup in Hy as [j Hy].
    destruct (Forall2_lookup_r _ _ _ _ _ Hb Hy) as (w & Hw & [E1 E2]).
    apply list_elem_of_lookup_2, list_elem_of_fmap in Hw as (x & -> & Hx). by exists x.
  - intros x Hx. apply (list_elem_of_fmap_2 (fun x => (ce_ikey x, Compaction.ce_row x))) in Hx.
    apply list_elem_of_lookup in Hx as [j Hx]. destruct (Forall2_lookup_l _ _ _ _ _ Hb Hx) as (z & Hz & [E1 _]).
    exists (row_version z). split; [|done]. by apply list_elem_of_fmap_2, (list_elem_of_lookup_2 _ j).
Qed.

Lemma compacted_resolvable l f : f ∈ files_at (current e1) l -> parquet_path (path f) /\
  exists rd dv, Resolvable xxh3_64 crc32 (B := B) (view d1 e1) f rd dv.
Proof.
  destruct compacted_files as [_ Hf]. rewrite Hf. intros [[Hp Hin]%list_elem_of_filter|Hn]%elem_of_app.
  - destruct (fk_files _ _ _ _ _ HK l f Hin) as (Hpq & rd & dv & HR). split; [done|]. exists rd, dv.
    destruct HR as [R1 R2 R3 R4 R5 R6 R7]. split; try done; [by rewrite (compacted_open l f Hin)|cbn; by rewrite Es].
  - destruct (l =? lv); [|by apply elem_of_nil in Hn]. destruct (compacted_new f Hn) as (i & c & Hc & ->).
    destruct (compacted_at i c Hc) as (g & rd & _ & _ & _ & _ & HR & _). split; [|by exists rd, None]. apply level_file_parquet; apply (fi_name _ _ _ Hfresh).
Qed.

Context (Evis : eg_visible e1 = eg_visible e) (Emem : eg_memtable e1 = eg_memtable e).
Context (Ecache : eg_cache e1 = cache_clear <$> eg_cache e).

Lemma compacted_rewritten : Rewritten xxh3_64 crc32 (B := B) (view d0 e) (view d1 e1) ts ins outs (map as_file new) lv drop.
Proof.
  assert (Hel : forall n, n ∈ map as_file new -> exists i c g,
    n = as_file (chunk_file e lv (fresh (length chunks - Datatypes.S i)%nat) c) /\
    chunk_good c g /\ g <> [] /\ max_attained c /\ (forall x, x ∈ g -> x ∈ merged) /\
    (forall z, z ∈ sh (view d1 e1) n -> exists x, x ∈ g /\ vmap file_row z = vmap file_row (row_version (ce_ikey x, Compaction.ce_row x)) /\ stored_version s z)).
  { intros n Hn. destruct (compacted_new n Hn) as (i & c & Hc & ->). destruct (compacted_at i c Hc) as (g & rd & G1 & G2 & G3 & G4 & HR & Hb).
    exists i, c, g. destruct (new_shown _ g rd HR Hb) as [H1 _]. done. }
  assert (Hsrc : forall x, x ∈ flatten fes -> exists h, h ∈ ins ++ outs /\ row_version (ce_ikey x, Compaction.ce_row x) ∈ sh (view d0 e) h).
  { intros x Hx. by apply (flatten_elem crc32 (view d0 e) _ _ HF). }
  assert (Hpos : forall x, x ∈ merged -> 0 <= seq (ce_ikey x)) by (intros x Hx; by apply job_stored, merged_in).
  split.
  - done.
  - cbn. by rewrite Evis.
  - done.
  - done.
  - apply compacted_files.
  - apply compacted_l0.
  - apply compacted_levels.
  - intros l f Hf. destruct (compacted_resolvable l f Hf) as (_ & rd & dv & HR). by eapply resolvable_state.
  - intros l f Hf _. unfold shown. by rewrite (compacted_open l f Hf).
  - intros n x Hn Hx. destruct (Hel n Hn) as (i & c & g & -> & _ & _ & _ & G4 & H1).
    destruct (H1 x Hx) as (y & Hy & Ey & _). destruct (Hsrc y (merged_in y (G4 y Hy))) as (h & Hh & Hin). by exists h, (row_version (ce_ikey y, Compaction.ce_row y)).
  - intros n x Hn Hx. destruct (Hel n Hn) as (i & c & g & -> & G1 & G2 & G3 & G4 & H1).
    destruct (H1 x Hx) as (y & Hy & Ey & Hst). pose proof (f_equal v_key Ey) as Ek. pose proof (f_equal v_seq Ey) as Eq. cbn in Ek, Eq.
    destruct (output_seqs lv (file_format_for (eg_config e) lv) "" 0 None c g G1 G2 G3) as [Hb _]; [intros z Hz; by apply Hpos, G4|].
    split; [specialize (Hb y Hy); cbn in Hb |- *; lia|]. split; [|done].
    destruct G1 as (_ & GF & _). rewrite Forall_forall in GF. destruct (GF y Hy) as (B1 & B2 & _). unfold covers. cbn. rewrite Ek.
    apply andb_true_iff. done.
  - intros n Hn. destruct (Hel n Hn) as (i & c & g & -> & G1 & G2 & G3 & G4 & _).
    destruct (output_seqs lv (file_format_for (eg_config e) lv) "" 0 None c g G1 G2 G3) as [_ (y & Hy & Hle)]; [intros z Hz; by apply Hpos, G4|].
    destruct (Hsrc y (merged_in y (G4 y Hy))) as (h & Hh & Hin). exists h, (row_version (ce_ikey y, Compaction.ce_row y)). done.
  - intros h y Hh Hy. destruct (elem_flatten crc32 (view d0 e) _ _ HF h y Hh Hy) as (x & Hx & <-).
    destruct (merge_keeps K (encoded_key_prefix_free _) oldest drop fes job_wf job_unique x Hx) as [(z & Hz & Ez & Hs)|(Hd & Hno & z & Hz & Ez & Hle & Ho)].
    + left. destruct job_chunks as (groups & H1 & _ & H3). rewrite <- H3 in Hz. apply elem_of_concat in Hz as (g & Hg & Hzg).
      apply list_elem_of_lookup in Hg as [i Hg]. destruct (Forall2_lookup_r _ _ _ _ _ H1 Hg) as (c & Hc & Hcg).
      destruct (compacted_at i c Hc) as (g' & rd & (Er' & _) & _ & _ & _ & HR & Hb). destruct Hcg as (Er & _). rewrite <- Er', Er in Hb.
      destruct (proj2 (new_shown _ g rd HR Hb) z Hzg) as (w & Hw & Ew).
      pose proof (f_equal v_key Ew) as Ek. pose proof (f_equal v_seq Ew) as Eq. cbn in Ek, Eq.
      eexists _, w. split; [by apply list_elem_of_fmap_2, elem_chunk_files|]. split; [exact Hw|]. cbn. rewrite Ek. split; [done|].
      destruct Hs as [Hs | ->]; [left; lia|by right].
    + right. split; [done|]. split.
      * intros n w Hn Hw. destruct (Hel n Hn) as (i & c & g & -> & _ & _ & _ & G4 & H1).
        destruct (H1 w Hw) as (u & Hu & Eu & _). pose proof (f_equal v_key Eu) as Ek. cbn in Ek |- *. rewrite Ek. by apply Hno, G4.
      * destruct (Hsrc z Hz) as (h' & Hh' & Hin). exists h', (row_version (ce_ikey z, Compaction.ce_row z)). done.
Qed.

Context (Ecfg : eg_config e1 = eg_config e) (Eg : eg_global e1 = eg_global e) (Ep : eg_pending e1 = eg_pending e).
Context (Em : manifest e1 = m') (Esid : next_sid e1 = next_sid e + 1) (Hlast : next_sid e < 2 ^ 63 - 1).
Context (HX1 : exists X, DvState crc32 (B := B) d1 m' (next_sid e + 1) X).
Context (Hdeep : forall l f, f ∈ files_at v l -> l <= Z.of_nat (length (level_target_bytes (eg_config e))) + 1).

Lemma job_bottom : drop = true -> forall l f, f ∈ files_at v l -> l <= lv.
Proof. intros Hd%Z.ltb_lt l f Hf. specialize (Hdeep l f Hf). lia. Qed.

Lemma compacted_paths l l' f f' : f ∈ files_at (current e1) l -> f' ∈ files_at (current e1) l' -> path f = path f' -> f = f' /\ l = l'.
Proof.
  destruct compacted_files as [_ Hf]. rewrite !Hf.
  assert (Hnew : forall l n, n ∈ (if l =? lv then map as_file new else []) -> l = lv /\ exists i c, chunks !! i = Some c /\
    n = as_file (chunk_file e lv (fresh (length chunks - Datatypes.S i)%nat) c)).
  { intros j n. destruct (Z.eqb_spec j lv) as [->|]; [|by intros ?%elem_of_nil]. intros Hn. split; [done|by apply compacted_new]. }
  intros [[_ H1]%list_elem_of_filter|H1%Hnew]%elem_of_app [[_ H2]%list_elem_of_filter|H2%Hnew]%elem_of_app E.
  - by apply (fk_paths _ _ _ _ _ HK).
  - destruct H2 as (_ & i & c & _ & ->). by destruct (fi_free _ _ _ Hfresh (length chunks - Datatypes.S i)%nat l f H1).
  - destruct H1 as (_ & i & c & _ & ->). by destruct (fi_free _ _ _ Hfresh (length chunks - Datatypes.S i)%nat l' f' H2).
  - destruct H1 as (-> & i & c & Hc & ->), H2 as (-> & j & c' & Hc' & ->). split; [|done]. cbn in E.
    apply (f_equal split_path) in E. rewrite !split_level_file in E by apply (fi_name _ _ _ Hfresh).
    apply (level_file_inj _ e) in E; [|done]. pose proof (lookup_lt_Some _ _ _ Hc). pose proof (lookup_lt_Some _ _ _ Hc').
    assert (i = j) as <- by lia. congruence.
Qed.

(** What the new version names: what the old one named, or new files. *)
Lemma compacted_footprint p : footprint e1 p -> (exists l f, f ∈ files_at v l /\ path f ∉ map path (ins ++ outs) /\
    (p = split_path (path f) \/ exists q, dv_path f = Some q /\ p = split_path q)) \/ exists i, p = level_file lv (fresh i).
Proof.
  intros (l & f & Hf & Hp). rewrite (proj2 compacted_files l) in Hf. apply elem_of_app in Hf as [[Hg Hf]%list_elem_of_filter|Hf].
  - left. by exists l, f.
  - right. destruct (l =? lv); [|by apply elem_of_nil in Hf]. destruct (compacted_new f Hf) as (i & c & _ & ->).
    destruct Hp as [->|(q & Eq & _)]; [|done]. cbn. rewrite split_level_file by apply (fi_name _ _ _ Hfresh). eauto.
Qed.

Lemma compacted_store : StoreOk d1 e1 ts /\
  forall k, outcome (visible_row crc32 (B := B) d1 e1 ts k) = outcome (visible_row crc32 (B := B) d0 e ts k).
Proof.
  store. pose proof compacted_rewritten as HR. pose proof job_taken as HT. pose proof job_bottom as Hb.
  pose proof (fk_writer _ _ _ _ _ HK) as HW. pose proof (fk_paths _ _ _ _ _ HK) as Hu.
  split; [split|].
  - split.
    + exact (rewritten_engine_ok xxh3_64 crc32 _ _ _ _ _ _ _ _ _ HT HR HE HO).
    + exact (rewritten_cache xxh3_64 crc32 _ _ _ _ _ _ _ _ HR).
    + rewrite Emem. apply HW.
    + intros x Hx. rewrite Evis. apply (wo_seqs _ _ _ _ _ _ _ HW). exact (rewritten_sub xxh3_64 crc32 _ _ _ _ _ _ _ _ _ HT HR x Hx).
    + rewrite Evis, Eg. apply HW.
  - exact (rewritten_ordered xxh3_64 crc32 _ _ _ _ _ _ _ _ _ HT HR HO).
  - rewrite Emem. apply (fk_firsts _ _ _ _ _ HK).
  - rewrite Es, Ecfg. apply (fk_tables _ _ _ _ _ HK).
  - rewrite Es. apply (fk_schema _ _ _ _ _ HK).
  - rewrite Em, Es. exact Ev.
  - rewrite Em. eapply apply_rows_ok; [apply (fk_rows _ _ _ _ _ HK)| |exact Hap].
    destruct (compaction_txn_fields (B := B) il lv ins outs new) as (-> & _). apply new_add_ok.
  - rewrite Esid. pose proof (fk_sid _ _ _ _ _ HK). lia.
  - rewrite Em, Esid. exact HX1.
  - intros l f Hf. by apply (compacted_resolvable l).
  - intros l l' f f'. apply compacted_paths.
  - intros p Hp. rewrite Ep in Hp. destruct (fk_pending _ _ _ _ _ HK p Hp) as [Hfree Hlater]. split.
    + intros [(l & f & Hf & _ & H)|(i & H)]%compacted_footprint; [apply Hfree; by exists l, f|]. by apply (fi_pending _ _ _ Hfresh i p Hp).
    + intros q j Hj. apply Hlater. lia.
  - apply HS, (fk_tidy _ _ _ _ _ HK).
  - intros l f Hf. rewrite Evis. destruct (rewritten_file xxh3_64 crc32 _ _ _ _ _ _ _ _ HR l f Hf) as [[Hf' _]|[_ Hn]]; [by apply (fk_frontier _ _ _ _ _ HK l)|].
    destruct (rw_max _ _ _ _ _ _ _ _ _ _ HR f Hn) as (h & y & Hh & Hy & Hle). destruct (sources_at h Hh) as [j Hj].
    pose proof (or_below _ _ _ HO j h y Hj Hy). pose proof (fk_frontier _ _ _ _ _ HK j h Hj). lia.
  - intros k. unfold visible_row. rewrite Evis.
    exact (rewritten_outcome xxh3_64 crc32 _ _ _ _ _ _ _ _ _ HT HR HO Hb Hu _ k (wo_seqs _ _ _ _ _ _ _ HW)).
Qed.

Lemma compacted_deep l f : f ∈ files_at (current e1) l -> l <= Z.of_nat (length (level_target_bytes (eg_config e1))) + 1.
Proof.
  rewrite Ecfg, (proj2 compacted_files l). intros [[_ Hf]%list_elem_of_filter|Hf]%elem_of_app; [by eapply Hdeep|].
  destruct (Z.eqb_spec l lv) as [->|]; [|by apply elem_of_nil in Hf]. destruct (pick_spec _ _ _ _ Hpick Hcfg) as (? & ? & _). lia.
Qed.

(** The consumed files are not needed any more. *)
Lemma consumed_free p : p ∈ obsolete_paths (ins ++ outs) -> ~ footprint e1 (split_path p) /\
  forall q j, next_sid e1 <= j < 2 ^ 63 -> split_path p <> puffin_path q j.
Proof.
  intros Hp. unfold obsolete_paths in Hp. apply elem_of_concat in Hp as (ps & (h & -> & Hh)%list_elem_of_fmap & Hp).
  destruct (sources_at h Hh) as [j Hj]. destruct (fk_files _ _ _ _ _ HK j h Hj) as (Hpq & _).
  pose proof (fk_sid _ _ _ _ _ HK) as Hsid. assert (Hgone : path h ∈ map path (ins ++ outs)) by by apply list_elem_of_fmap_2.
  assert (Hdv : forall l f q, f ∈ files_at v l -> dv_path f = Some q -> exists k, 0 <= k < next_sid e /\ split_path q = puffin_path (path f) k).
  { intros l f q Hf Hq. destruct (dv_path_puffin xxh3_64 crc32 d0 e ts l f q HK Hf Hq) as (k & Hk & _ & E). eauto. }
  apply elem_of_cons in Hp as [->|Hp].
  - split; [|intros q k _; apply (parquet_not_committed _ k Hpq)]. intros [(l & f & Hf & Hg & [E|(q & Hq & E)])|(i & E)]%compacted_footprint.
    + apply Hg. rewrite <- (split_path_parquet _ _ Hpq (proj1 (fk_files _ _ _ _ _ HK l f Hf)) E). done.
    + destruct (Hdv l f q Hf Hq) as (k & _ & Eq). apply (proj1 (parquet_not_committed _ k Hpq) (path f)). congruence.
    + destruct (fi_name _ _ _ Hfresh i) as [N1 N2]. apply (fi_free _ _ _ Hfresh i j h Hj).
      apply split_path_parquet; [done|by apply level_file_parquet|]. by rewrite split_level_file.
  - destruct (dv_path h) as [q|] eqn:Eq; [|by apply elem_of_nil in Hp]. apply list_elem_of_singleton in Hp as ->.
    destruct (Hdv j h q Hj Eq) as (k & Hk & E). rewrite E. split.
    + intros [(l & f & Hf & Hg & [E'|(q' & Hq' & E')])|(i & E')]%compacted_footprint.
      * destruct (fk_files _ _ _ _ _ HK l f Hf) as (Hpf & _). by apply (proj1 (parquet_not_committed _ k Hpf) (path h)).
      * destruct (Hdv l f q' Hf Hq') as (k' & Hk' & Eq'). rewrite Eq' in E'.
        assert (k = k') as <- by (eapply puffin_path_sid; [..|exact E']; unfold in_i; lia).
        apply puffin_inj in E'; [|done|apply (fk_files _ _ _ _ _ HK l f Hf)]. apply Hg. by rewrite <- E'.
      * destruct (fi_name _ _ _ Hfresh i) as [N1 N2]. pose proof (level_file_parquet lv _ N1 N2) as Hpf.
        destruct (parquet_not_committed _ k Hpf) as (Pf & _). rewrite split_level_file in Pf by done. by apply (Pf (path h)).
    + intros q' k' Hk' E'. rewrite Esid in Hk'. assert (k = k'); [|lia]. eapply puffin_path_sid; [..|exact E']; unfold in_i; lia.
Qed.
End compacted.

(** *** The queue of deferred deletions *)
Lemma store_pins d e ts live pending : StoreOk d e ts ->
  (forall p, p ∈ pending -> ~ footprint e (split_path (pd_path p)) /\
     forall q j, next_sid e <= j < 2 ^ 63 -> split_path (pd_path p) <> puffin_path q j) ->
  StoreOk d (with_pins live pending e) ts.
Proof.
  intros [H1 H2 H3 H4 H5 H6 H7 H8 H9 H10 H11 _ H13 H14] Hp. split; try done. by destruct H1.
Qed.

Lemma gc_sweep_stays (T : path_t -> Prop) d0 mp grace now pending :
  (forall p, p ∈ pending -> ~ T (split_path (pd_path p))) ->
  triple (stays T d0) (gc_sweep mp grace now pending)
    (fun rest d => stays T d0 d /\ forall p, p ∈ rest -> p ∈ pending) (fun _ => True).
Proof.
  induction pending as [|p pending IH]; intros HT; cbn [gc_sweep]; [by apply triple_ret|].
  assert (HT' : forall q, q ∈ pending -> ~ T (split_path (pd_path q))) by (intros q Hq; apply HT; by right).
  assert (Hkeep : triple (stays T d0) (rest ← gc_sweep mp grace now pending; mret (p :: rest))
    (fun rest d => stays T d0 d /\ forall q, q ∈ rest -> q ∈ p :: pending) (fun _ => True)).
  { eapply triple_bind; [by apply IH|]. intros rest. apply triple_ret. intros d [Hd Hr]. split; [done|].
    intros q [->|Hq]%elem_of_cons; [left|right; by apply Hr]. }
  destruct (still_pinned mp p); [done|]. destruct (_ <=? _); [|done].
  eapply triple_bind with (R := fun _ => stays T d0).
  - apply triple_syscall; [done| |done]. intros d Hd. destruct (lookup_path d _); cbn [fst snd]; [|done].
    eapply stays_trans; [exact Hd|]. apply stays_remove, HT. left.
  - intros _. eapply triple_conseq; [by apply IH|done| |done]. intros rest d [Hd Hr]. split; [done|]. intros q Hq. right. by apply Hr.
Qed.

(** A sweep leaves everything a reader needs. *)
Lemma gc_store d0 e ts now : StoreOk d0 e ts ->
  triple (fun d => d = d0) (gc_pending_deletions now e)
    (fun e' d => StoreOk d e' ts /\ stays (footprint e) d0 d /\ exists rest, e' = with_pins (eg_live e) rest e) (fun _ => True).
Proof.
  intros HK. unfold gc_pending_deletions. eapply triple_bind.
  { eapply triple_conseq; [apply (gc_sweep_stays (footprint e) d0)|intros d ->; apply stays_refl|intros r d H; exact H|done].
    intros p Hp. by apply (fk_pending _ _ _ _ _ HK p). }
  intros rest. apply triple_ret. intros d [HS Hr]. split; [|split; [done|by exists rest]].
  apply store_pins; [by eapply StoreOk_stays|]. intros p Hp. by apply (fk_pending _ _ _ _ _ HK p), Hr.
Qed.

(** *** Reservations *)
Lemma store_busy d e ts busy : StoreOk d e ts -> StoreOk d (set_compacting busy e) ts.
Proof.
  intros [H1 H2 H3 H4 H5 H6 H7 H8 H9 H10 H11 H12 H13 H14]. split; try done. by destruct H1.
Qed.

(** *** A whole job *)
Context (Hxxh : forall l, 0 <= xxh3_64 l < 2 ^ 64) (Hpost : forall r, is_Some (postcard_to_vec r)).
Context (Hcrc : forall l, 0 <= crc32 l < 2 ^ 32) (Hiter : forall m, dv_iter m ≡ₚ map_to_list m).

(** A store that compactions can run on: a configuration whose levels and
    filters fit their widths, rows whose estimate fits one output file and whose
    cells take at most three times it (so that no column of an output passes the
    [i32::MAX] bytes of an Arrow array), and no files under the last level that
    compactions write. *)
Record Compactable d e : Prop := {
  cp_levels : Z.of_nat (length (level_target_bytes (eg_config e))) <= 253;
  cp_bits : 0 <= bloom_bits_per_key (eg_config e) <= 2 ^ 14;
  cp_rows l f x : f ∈ files_at (current e) l -> x ∈ sh (view d e) f -> chunk_row_ok (eg_schema e) (v_val x);
  cp_deep l f : f ∈ files_at (current e) l -> l <= Z.of_nat (length (level_target_bytes (eg_config e))) + 1;
}.

Local Abbreviation ins e pick := (input_metas (current e) pick).
Local Abbreviation outs e pick := (overlap_output (ins e pick) (files_at (current e) (output_level pick))).
Local Abbreviation job_chunks_of e pick fes := (make_chunks (CompactionIterator_new fes (GlobalSeq.current (eg_visible e))
  (should_drop_tombstones (output_level pick) (length (level_target_bytes (eg_config e)))))).

(** What the job hands to the catalog. *)
Record Built d0 e (pick : CompactionPick) (fresh : nat -> string) (t : SnapshotTransaction B) (fes : list FileEntries) d : Prop := {
  bu_reads : Forall2 (reads crc32 (B := B) (view d0 e)) (ins e pick ++ outs e pick) fes;
  bu_txn : t = compaction_txn (input_level pick) (output_level pick) (ins e pick) (outs e pick)
    (chunk_files e (output_level pick) fresh (job_chunks_of e pick fes));
  bu_files i c : job_chunks_of e pick fes !! i = Some c ->
    read_file d (level_file (output_level pick) (fresh (length (job_chunks_of e pick fes) - Datatypes.S i)%nat)) =
    Some (chunk_bytes e (output_level pick) c);
}.

Lemma build_spec d0 e ts busy pick fresh : StoreOk d0 e ts -> Compactable d0 e ->
  fresh_ids e (output_level pick) fresh -> pick_compaction (current e) (eg_config e) busy = Some pick ->
  ins e pick <> [] ->
  triple (fun d => d = d0) (build_compaction xxh3_64 crc32 (F := F) (B := B) e (current e) pick (ins e pick) fresh)
    (fun r d => stays (footprint e) d0 d /\ match r with Ok t => exists fes, Built d0 e pick fresh t fes d | _ => True end)
    (fun _ => True).
Proof.
  intros HK [Hcfg Hbits Hrows _] Hf Hpick Hne. unfold build_compaction.
  apply triple_try with (R := fun fes d => d = d0 /\ Forall2 (reads crc32 (B := B) (view d0 e)) (ins e pick ++ outs e pick) fes).
  { eapply triple_conseq; [apply (read_sources_spec d0 e ts 0 _ HK)|done| |done].
    - apply (sources_at d0 e pick).
    - intros [fes|?|] d [-> H]; [done|split; [apply stays_refl|done]..]. }
  intros fes. apply triple_from. intros d1 [-> HF]. cbv zeta. set (cs := make_chunks _).
  apply triple_try with (R := fun _ => stays (footprint e) d0).
  { destruct cs; [apply triple_ret; intros d ->; apply stays_refl|].
    apply triple_syscall; [done|intros d ->; apply stays_refl|intros d junk ->; split; [apply stays_refl|done]]. }
  intros _. apply triple_try with (R := fun fs d => stays (footprint e) d0 d /\ fs = chunk_files e (output_level pick) fresh cs /\
    forall i c, cs !! i = Some c -> read_file d (level_file (output_level pick) (fresh (length cs - Datatypes.S i)%nat)) = Some (chunk_bytes e (output_level pick) c)).
  { eapply triple_conseq; [apply (write_chunks_spec (footprint e) d0 e (output_level pick) fresh cs)|done| |done].
    - apply (fk_tidy _ _ _ _ _ HK).
    - intros c Hc. eapply (job_writes Hxxh Hpost d0 e ts pick fes HK busy Hpick Hcfg Hbits Hrows HF); done.
    - intros i _. by eapply fresh_ids_free.
    - intros i j _ _. by eapply level_file_inj.
    - by intros [fs|?|] d [HS H]. }
  intros fs. apply triple_ret. intros d (HS & -> & Hr). split; [done|]. exists fes. by split.
Qed.

(** What a job that returns leaves. *)
Record job_done d0 e ts (r : Engine S M C * res bool) d : Prop := {
  jd_store : StoreOk d r.1 ts;
  jd_rows k : outcome (visible_row crc32 (B := B) d r.1 ts k) = outcome (visible_row crc32 (B := B) d0 e ts k);
  jd_schema : eg_schema r.1 = eg_schema e;
  jd_visible : eg_visible r.1 = eg_visible e;
  jd_memtable : eg_memtable r.1 = eg_memtable e;
  jd_busy : eg_compacting r.1 = eg_compacting e;
  jd_deep l f : f ∈ files_at (current r.1) l -> l <= Z.of_nat (length (level_target_bytes (eg_config e))) + 1;
}.

Lemma job_aborted d0 e ts r d : StoreOk d0 e ts -> Compactable d0 e -> stays (footprint e) d0 d -> job_done d0 e ts (e, r) d.
Proof.
  intros HK Hc HS. split; cbn [fst]; try done.
  - by eapply StoreOk_stays.
  - intros k. f_equal. by eapply visible_row_stays.
  - apply (cp_deep _ _ Hc).
Qed.

(** The commit of a job: nothing it needs is lost, and no deletion vector
    is written. *)
Lemma job_commit_spec (T : path_t -> Prop) d1 e ts (t : SnapshotTransaction B) uuid now_ms :
  StoreOk d1 e ts -> dvs t = ∅ -> next_sid e < 2 ^ 63 - 1 ->
  (forall q, ~ T (puffin_path q (next_sid e))) -> ~ T (meta_pb (next_sid e)) -> ~ T HINT -> ~ T TMP_HINT ->
  (forall df, df ∈ adds t -> ~ live_path (manifest e) (df_path df)) ->
  triple (fun d => d = d1) (commit crc32 (J := J) (dv_iter (dvs t)) (eg_catalog e) t (eg_schema e) uuid now_ms)
    (fun r d => stays T d1 d /\ match r with
       | (cat', Ok v) => exists m', apply now_ms uuid (manifest e) t (next_sid e) ∅ = Ok m' /\
           cat' = {| cat_current := m'; cat_next_version := next_sid e + 1 |} /\ v = to_version m' (eg_schema e) /\
           exists X, DvState crc32 (B := B) d m' (next_sid e + 1) X
       | (cat', _) => cat' = eg_catalog e
       end) (fun _ => True).
Proof.
  intros HK Ed Hlast T1 T2 T3 T4 Hadds. pose proof (fk_sid _ _ _ _ _ HK) as Hsid. destruct (fk_dvs _ _ _ _ _ HK) as (X & HX).
  assert (Eo : dv_iter (dvs t) = []).
  { pose proof (Hiter (dvs t)) as P. rewrite Ed, map_to_list_empty in *. by apply Permutation_nil. }
  pose proof (commit_frame crc32 (J := J) T d1 (dv_iter (dvs t)) (eg_catalog e) t (eg_schema e) uuid now_ms) as Hframe. cbv zeta in Hframe.
  pose proof (commit_memory crc32 (J := J) Hcrc (eg_catalog e) t (dv_iter (dvs t)) (eg_schema e) uuid now_ms X ltac:(lia) (Hiter _)) as Hmem.
  cbv zeta in Hmem. eapply triple_conseq; [apply triple_and; [exact (Hframe T1 T2 T3 T4)|apply Hmem]| | |done].
  - rewrite Eo. constructor.
  - done.
  - intros d ->. split; [apply stays_refl|]. split; [apply (fk_tidy _ _ _ _ _ HK)|done].
  - intros [cat' [v|?|]] d [HS H]; (split; [exact HS|]); [|done..]. destruct H as (locs & m' & Hap & Hloc & -> & -> & HX').
    assert (locs = ∅) as ->.
    { apply map_eq. intros q. rewrite lookup_empty. destruct (locs !! q) as [loc|] eqn:El; [|done].
      destruct (Hloc _ _ El) as (x & _ & _ & Hin & _). rewrite Eo in Hin. by apply elem_of_nil in Hin. }
    exists m'. split_and!; [done..|]. by eexists.
Qed.

Lemma install_done d0 d2 e ts busy pick fresh t fes d1 m' uuid now_ms now :
  StoreOk d0 e ts -> Compactable d0 e -> fresh_ids e (output_level pick) fresh ->
  pick_compaction (current e) (eg_config e) busy = Some pick -> ins e pick <> [] -> next_sid e < 2 ^ 63 - 1 ->
  Built d0 e pick fresh t fes d1 -> stays (footprint e) d0 d1 ->
  stays (fun p => footprint e p \/ exists i, p = level_file (output_level pick) (fresh i)) d1 d2 ->
  apply now_ms uuid (manifest e) t (next_sid e) ∅ = Ok m' -> (exists X, DvState crc32 (B := B) d2 m' (next_sid e + 1) X) ->
  triple (fun d => d = d2)
    (finish_compaction now (current e) (to_version m' (eg_schema e)) {| cat_current := m'; cat_next_version := next_sid e + 1 |}
       (ins e pick ++ outs e pick) e)
    (fun e' d => job_done d0 e ts (e', Ok true) d) (fun _ => True).
Proof.
  intros HK [Hcfg Hbits Hrows Hdeep] Hf Hpick Hne Hlast [HF -> Hread] HS1 HS2 Hap HX. unfold finish_compaction.
  set (e1 := set_row_cache _ _).
  assert (HS : stays (footprint e) d0 d2).
  { eapply stays_trans; [exact HS1|]. eapply stays_mono; [|exact HS2]. by left. }
  assert (Hread2 : forall i c, job_chunks_of e pick fes !! i = Some c ->
    read_file d2 (level_file (output_level pick) (fresh (length (job_chunks_of e pick fes) - Datatypes.S i)%nat)) = Some (chunk_bytes e (output_level pick) c)).
  { intros i c Hc. rewrite <- (Hread i c Hc). apply HS2; [by apply HS1, (fk_tidy _ _ _ _ _ HK)|right; eauto|]. by eapply fresh_ids_free. }
  destruct (compacted_store Hxxh Hpost d0 d2 e e1 ts pick fes fresh m' uuid now_ms HK Hf busy Hpick Hcfg Hne Hbits Hrows HF HS Hread2
    Hap eq_refl eq_refl eq_refl eq_refl eq_refl eq_refl eq_refl eq_refl eq_refl eq_refl Hlast HX Hdeep) as [HK1 Hout].
  pose proof (compacted_deep Hxxh Hpost d0 e e1 ts pick fes fresh m' uuid now_ms HK busy Hpick Hcfg Hne Hbits Hrows HF
    Hap eq_refl eq_refl Hdeep) as Hdeep1.
  pose proof (consumed_free Hxxh Hpost d0 e e1 ts pick fes fresh m' uuid now_ms HK Hf busy Hpick Hcfg Hne Hbits Hrows HF
    Hap eq_refl eq_refl Hlast) as Hfree.
  set (e2 := match obsolete_paths _ with [] => e1 | _ => _ end).
  assert (E2 : exists pending, e2 = with_pins (eg_live e1) pending e1 /\ StoreOk d2 e2 ts).
  { unfold e2. destruct (obsolete_paths (ins e pick ++ outs e pick)) as [|p ps] eqn:Eo.
    - exists (eg_pending e1). by split; [destruct e1|].
    - eexists. split; [reflexivity|]. apply store_pins; [done|]. intros q [Hq|Hq]%elem_of_app.
      + by apply (fk_pending _ _ _ _ _ HK1).
      + apply list_elem_of_fmap in Hq as (q' & -> & Hq). by apply Hfree. }
  destruct E2 as (pending & -> & HK2).
  eapply triple_conseq; [apply (gc_store d2 _ ts now HK2)|done| |done].
  intros e' d (HK3 & HS3 & rest & ->). split; cbn [fst]; try done.
  intros k. rewrite <- Hout. f_equal. exact (visible_row_stays xxh3_64 crc32 d2 d _ ts k HK2 HS3).
Qed.

Lemma compact_reserved_spec d0 e ts busy pick fresh uuid now_ms now :
  StoreOk d0 e ts -> Compactable d0 e -> fresh_ids e (output_level pick) fresh ->
  pick_compaction (current e) (eg_config e) busy = Some pick -> next_sid e < 2 ^ 63 - 1 ->
  triple (fun d => d = d0) (compact_reserved xxh3_64 crc32 (F := F) (B := B) (J := J) dv_iter e (current e) pick fresh uuid now_ms now)
    (job_done d0 e ts) (fun _ => True).
Proof.
  intros HK Hc Hf Hpick Hlast. unfold compact_reserved. destruct (decide (ins e pick = [])) as [E|Hne].
  { rewrite E. apply triple_ret. intros d ->. apply job_aborted; [done..|apply stays_refl]. }
  assert (Em : forall (a b : io (Engine S M C * res bool)), match ins e pick with [] => a | _ => b end = b) by (intros; by destruct (ins e pick)).
  cbv zeta. rewrite Em. clear Em. eapply triple_bind; [by eapply build_spec|].
  intros [t|x|]; [|apply triple_ret; intros d [HS _]; by apply job_aborted..].
  apply triple_from. intros d1 (HS1 & fes & HB).
  assert (HK1 : StoreOk d1 e ts) by by eapply StoreOk_stays.
  destruct (compaction_txn_fields (B := B) (input_level pick) (output_level pick) (ins e pick) (outs e pick)
    (chunk_files e (output_level pick) fresh (job_chunks_of e pick fes))) as (Ea & _ & Ed). rewrite <- (bu_txn _ _ _ _ _ _ _ HB) in Ea, Ed.
  set (T := fun p => footprint e p \/ exists i, p = level_file (output_level pick) (fresh i)).
  destruct (footprint_free xxh3_64 crc32 d0 e _ HK) as (Fp & Fm & Fh & Ft).
  assert (Hnew : forall i, let q := level_file (output_level pick) (fresh i) in
    (forall p, q <> puffin_path p (next_sid e)) /\ q <> meta_pb (next_sid e) /\ ~ GH q).
  { intros i q. destruct (fi_name _ _ _ Hf i) as [N1 N2]. pose proof (parquet_not_committed _ (next_sid e) (level_file_parquet (output_level pick) _ N1 N2)) as H.
    by rewrite split_level_file in H. }
  eapply triple_bind.
  { apply (job_commit_spec T d1 e ts t uuid now_ms HK1 Ed Hlast).
    - intros q [H|[i H]]; [by apply (Fp q)|]. by apply (proj1 (Hnew i) q).
    - intros [H|[i H]]; [done|]. by apply (proj1 (proj2 (Hnew i))).
    - intros [H|[i H]]; [done|]. apply (proj2 (proj2 (Hnew i))). left. done.
    - intros [H|[i H]]; [done|]. apply (proj2 (proj2 (Hnew i))). right. done.
    - rewrite Ea. intros df (i & c & _ & ->)%chunk_files_elem (ent & He & Hl & Ep). cbn in Ep.
      apply (fi_free _ _ _ Hf (length (job_chunks_of e pick fes) - Datatypes.S i)%nat (level (me_meta ent)) (to_data_file_meta ent)); [|done].
      rewrite (fk_version _ _ _ _ _ HK). apply elem_entries. eauto. }
  intros [cat' [v|x|]]; [|apply triple_ret; intros d [HS _]; apply job_aborted; [done..|]; eapply stays_trans; [exact HS1|];
    eapply stays_mono; [|exact HS]; by left..].
  apply triple_from. intros d2 (HS2 & m' & Hap & -> & -> & HX).
  eapply triple_bind; [by eapply (install_done d0 d2 e ts busy pick fresh t fes d1 m' uuid now_ms now)|].
  intros e'. apply triple_ret. by intros d H.
Qed.

Lemma reserve_busy (busy : gset Z) il lv : il ∉ busy -> lv ∉ busy -> ({[il; lv]} ∪ busy) ∖ {[il; lv]} = busy.
Proof. set_solver. Qed.

(** The names a job may use: fresh at whatever level it writes. *)
Lemma job_spec d0 e ts fresh uuid now_ms now :
  StoreOk d0 e ts -> Compactable d0 e -> (forall lv, fresh_ids e lv fresh) -> next_sid e < 2 ^ 63 - 1 ->
  triple (fun d => d = d0)
    (run_one_compaction_job xxh3_64 crc32 (F := F) (B := B) (J := J) dv_iter e fresh uuid now_ms now)
    (job_done d0 e ts) (fun _ => True).
Proof.
  intros HK Hc Hf Hlast. unfold run_one_compaction_job, reserve_next_compaction.
  destruct (pick_compaction (current e) (eg_config e) (eg_compacting e)) as [pick|] eqn:Hp; cbn [mbind option_bind].
  2:{ apply triple_ret. intros d ->. apply job_aborted; [done..|apply stays_refl]. }
  set (e0 := set_compacting _ e). assert (HK0 : StoreOk d0 e0 ts) by by apply store_busy.
  assert (Hc0 : Compactable d0 e0) by (destruct Hc; by split).
  assert (Hf0 : fresh_ids e0 (output_level pick) fresh) by (destruct (Hf (output_level pick)); by split).
  eapply triple_bind; [exact (compact_reserved_spec d0 e0 ts (eg_compacting e) pick fresh uuid now_ms now HK0 Hc0 Hf0 Hp Hlast)|].
  intros [e1 r]. apply triple_ret. intros d [J1 J2 J3 J4 J5 J6 J7]. cbn [fst] in *.
  destruct (pick_spec _ _ _ _ Hp (cp_levels _ _ Hc)) as (_ & _ & B1 & B2 & _).
  split; cbn [fst]; try done; [by apply store_busy|].
  unfold release, set_compacting. cbn [eg_compacting]. rewrite J6. unfold e0, set_compacting. cbn [eg_compacting]. by apply reserve_busy.
Qed.

(** C10. A compaction job never changes what a reader sees, whatever system
    call fails in it.  If the job returns, with or without success, then the
    engine satisfies the invariant on the disk that is left, its two levels are
    released, and every lookup gives the row it gave before: the newest version
    of each key of the consumed files is in the new ones, unless it is a
    tombstone and nothing older of its key is left.  Tombstones are dropped when
    the output level is below the configured ones, so the store must not have
    files deeper than that; and the rows of the live files must fit the writer's
    limits ([Compactable]: one row within the size of an output file, its cells
    within three times the estimate that cuts the files).  As everywhere that
    metadata are written, the schema has no floating-point defaults. *)
Theorem compaction_preserves_reads d0 e ts fresh uuid now_ms now sched w w' e' r :
  StoreOk d0 e ts -> Compactable d0 e -> (forall lv, fresh_ids e lv fresh) -> next_sid e < 2 ^ 63 - 1 ->
  GlobalSeq.counter (eg_visible e) <= SEQNUM_MAX -> w_disk w = d0 ->
  run_one_compaction_job xxh3_64 crc32 (F := F) (B := B) (J := J) dv_iter e fresh uuid now_ms now sched w = (w', Val (e', r)) ->
  StoreOk (w_disk w') e' ts /\ eg_compacting e' = eg_compacting e /\
  forall pk uk, Forall FieldValue_wf pk -> encode_user_key pk (eg_schema e) = Ok uk ->
    (lookup_row xxh3_64 crc32 (B := B) (disk_files (F := F) (w_disk w')) (disk_puffins (w_disk w')) e' pk).2 =
    (lookup_row xxh3_64 crc32 (B := B) (disk_files (F := F) d0) (disk_puffins d0) e pk).2.
Proof.
  intros HK Hc Hf Hlast Hmax Hw E.
  pose proof (job_spec d0 e ts fresh uuid now_ms now HK Hc Hf Hlast sched w Hw) as H. rewrite E in H.
  destruct H as [J1 J2 J3 J4 J5 J6 J7]. cbn [fst] in *. split; [done|]. split; [done|]. intros pk uk Hpk Hk.
  destruct (lookup_row_spec xxh3_64 crc32 _ _ e' ts _ pk uk (fk_writer _ _ _ _ _ J1) Hpk) as (e3 & -> & _); [by rewrite J3|by rewrite J4|].
  destruct (lookup_row_spec xxh3_64 crc32 _ _ e ts _ pk uk (fk_writer _ _ _ _ _ HK) Hpk Hk Hmax) as (e4 & -> & _).
  cbn [snd]. f_equal. exact (J2 uk).
Qed.
End compaction_run.

(** ** An example *)

(** Options under which one file of L0 is enough to compact, and the same
    engine with other options. *)
Definition with_levels (targets : list Z) : EngineConfig := {|
  memtable_size_bytes := memtable_size_bytes default_config; max_immutable_count := max_immutable_count default_config;
  row_cache_capacity := row_cache_capacity default_config; level_target_bytes := targets;
  l0_compaction_trigger := 1; l0_slowdown_trigger := l0_slowdown_trigger default_config;
  l0_stop_trigger := l0_stop_trigger default_config; bloom_bits_per_key := bloom_bits_per_key default_config;
  max_compaction_bytes := max_compaction_bytes default_config;
  max_compaction_input_rows := max_compaction_input_rows default_config; cfg_read_only := false;
  gc_grace_period_secs := gc_grace_period_secs default_config; dual_format_max_level := dual_format_max_level default_config;
  enable_flush_dv_emission := false |}.
Definition eager_config : EngineConfig := with_levels (level_target_bytes default_config).

Definition with_config {S M C} (cfg : EngineConfig) (e : Engine S M C) : Engine S M C :=
  {| eg_config := cfg; eg_schema := eg_schema e; eg_global := eg_global e; eg_visible := eg_visible e;
     eg_wal := eg_wal e; eg_memtable := eg_memtable e; eg_version := eg_version e; eg_catalog := eg_catalog e;
     eg_cache := eg_cache e; eg_compacting := eg_compacting e; eg_pending := eg_pending e; eg_live := eg_live e;
     eg_read_only := eg_read_only e; eg_closed := eg_closed e |}.

(** The engine of [FlushRun] after its flush, with these options. *)
Definition ex_disk1 : Disk := (run ex_flush ex_empty).1.
Definition ex_engine1 : Engine bytes (list (bytes * EntryValue)) ListLru :=
  match (run ex_flush ex_empty).2 with Val (e, _) => with_config eager_config e | Stopped => ex_written end.

Fixpoint ex_name (i : nat) : string := match i with O => "a"%string | Datatypes.S i => String "a" (ex_name i) end.
Definition ex_job : io (Engine bytes (list (bytes * EntryValue)) ListLru * res bool) :=
  run_one_compaction_job (fun _ => 0) example_crc (F := ListFile) (B := gset Z) (J := unit) map_to_list ex_engine1 ex_name "t" 0 0.

Local Abbreviation ex_ok := (StoreInv.StoreOk (fun _ => 0) example_crc (F := ListFile) (B := gset Z)).

Lemma store_config {S M C} `{!SkipMap M, !SkipMapLaws M, !LruCache C, !LruCacheLaws C} d (e : Engine S M C) ts cfg :
  bloom_bits_per_key cfg = bloom_bits_per_key (eg_config e) -> ex_ok d e ts -> ex_ok d (with_config cfg e) ts.
Proof.
  intros Eb [H1 H2 H3 H4 H5 H6 H7 H8 H9 H10 H11 H12 H13 H14]. split; try done; [by destruct H1|]. cbn [with_config eg_config]. by rewrite Eb.
Qed.

Lemma ex_fresh_written : fresh_names 1 ex_fresh_names ex_written.
Proof.
  split; [|lia]. intros i _. split; [done|]. split; [apply (bool_decide_unpack _); vm_compute; exact I|].
  split; [intros l f; rewrite ex_written_files; intros []%elem_of_nil|intros p; rewrite ex_written_pending; intros []%elem_of_nil].
Qed.

Lemma ex_store1 : exists ts, ex_ok ex_disk1 ex_engine1 ts /\
  forall k, visible_row example_crc (F := ListFile) (B := gset Z) ex_disk1 ex_engine1 ts k =
            visible_row example_crc (F := ListFile) (B := gset Z) ex_empty ex_written ex_tables1 k.
Proof.
  set (w0 := {| w_disk := ex_empty; w_tick := 0 |}).
  assert (Er : match (ex_flush (fun _ => NoFault) w0).2 with Val _ => true | _ => false end = true) by (vm_compute; reflexivity).
  assert (Eb : match (ex_flush (fun _ => NoFault) w0).2 with Val (e, _) => bloom_bits_per_key (eg_config e) =? 10 | _ => false end = true) by (vm_compute; reflexivity).
  assert (En : length (immutable (eg_memtable ex_written)) = 0%nat) by (vm_compute; reflexivity).
  pose proof (eng_flush_spec (fun _ => 0) example_crc (F := ListFile) (B := gset Z) (J := unit) map_to_list
    ltac:(exact example_crc_range) ltac:(intros; lia) ltac:(intros r; by eexists) ltac:(done)
    ex_empty ex_written ex_tables1 ex_fresh_names ex_rotatable) as HF. cbv zeta in HF. rewrite En in HF.
  specialize (HF ex_fresh_written ltac:(vm_compute; reflexivity) (fun _ => NoFault) w0 eq_refl).
  unfold ex_disk1, ex_engine1, run. fold w0. unfold ex_flush in *.
  destruct (eng_flush _ _ _ _ _ _ w0) as [w' [[e' r]|]]; cbn [fst snd] in *; [|done].
  destruct HF as (ts & HK & Hv & _). exists ts. split; [|exact Hv]. apply store_config; [|exact HK]. apply Z.eqb_eq in Eb. rewrite Eb. reflexivity.
Qed.

Lemma ex_files1 ts l f : ex_ok ex_disk1 ex_engine1 ts -> f ∈ files_at (vs_current (eg_version ex_engine1)) l ->
  f ∈ all_files (vs_current (eg_version ex_engine1)).
Proof. intros HK Hf. apply elem_all_files. exists l. split; [|done]. by eapply (or_levels _ _ _ (fk_ordered _ _ _ _ _ HK)). Qed.

Lemma ex_compactable ts : ex_ok ex_disk1 ex_engine1 ts -> Compactable example_crc (F := ListFile) (B := gset Z) ex_disk1 ex_engine1.
Proof.
  intros HK. assert (Ec : eg_config ex_engine1 = eager_config) by (vm_compute; reflexivity). split.
  - rewrite Ec. vm_compute. discriminate.
  - rewrite Ec. vm_compute. split; discriminate.
  - intros l f x Hf%(ex_files1 ts l f HK) Hx.
    apply chunk_row_ok_bool.
    assert (HA : forallb (fun f => forallb (fun x : VersionOf (InternalKey * Row) => (row_weight (v_val x) <=? TARGET_OUTPUT_FILE_BYTES) &&
        forallb (fun g => cell_bytes (g (v_val x)) <=? 3 * row_weight (v_val x)) (column_getters (eg_schema ex_engine1) Dual))
      (shown example_crc (B := gset Z) (dview (F := ListFile) ex_disk1 ex_engine1) f)) (all_files (vs_current (eg_version ex_engine1))) = true).
    { vm_compute. reflexivity. }
    apply list_elem_of_In in Hf, Hx. rewrite forallb_forall in HA. specialize (HA f Hf). rewrite forallb_forall in HA. exact (HA x Hx).
  - intros l f Hf. rewrite Ec, (fk_version _ _ _ _ _ HK) in *. apply elem_entries in Hf as (ent & He & _ & <- & _).
    assert (HA : Forall (fun ent => level (me_meta ent) <= Z.of_nat (length (level_target_bytes eager_config)) + 1) (m_entries (cat_current (eg_catalog ex_engine1)))).
    { apply (bool_decide_unpack _). vm_compute. exact I. }
    rewrite Forall_forall in HA. by apply HA.
Qed.

Lemma ex_name_chars i c : c ∈ list_ascii_of_string (ex_name i) -> c = "a"%char.
Proof. induction i as [|i IH]; cbn; [by intros ->%list_elem_of_singleton|]. intros [->|H]%elem_of_cons; [done|by apply IH]. Qed.

Lemma ex_name_inj i j : ex_name i = ex_name j -> i = j.
Proof. revert j. induction i as [|i IH]; intros [|j] E; [done|by destruct j|by destruct i|]. injection E as E. f_equal. by apply IH. Qed.

Lemma ex_fresh_ids ts lv : ex_ok ex_disk1 ex_engine1 ts -> fresh_ids ex_engine1 lv ex_name.
Proof.
  intros HK. assert (Hs : forall i, slash ∉ list_ascii_of_string (ex_name i)) by (intros i H%ex_name_chars; discriminate H). split.
  - intros i. split; [by destruct i|done].
  - apply ex_name_inj.
  - intros i l f Hf%(ex_files1 ts l f HK) E.
    assert (HA : Forall (fun f => String.get 0 (split_path (path f)).2 = Some "f"%char) (all_files (vs_current (eg_version ex_engine1)))).
    { apply (bool_decide_unpack _). vm_compute. exact I. }
    rewrite Forall_forall in HA. specialize (HA f Hf). rewrite E, split_level_file in HA by done. by destruct i.
  - intros i p. assert (E : eg_pending ex_engine1 = []) by (vm_compute; reflexivity). rewrite E. intros []%elem_of_nil.
Qed.

Lemma compaction_preserves_reads_witness :
  exists d' e', run ex_job ex_disk1 = (d', Val (e', Ok true)) /\ eg_compacting e' = ∅ /\
    (lookup_row (fun _ => 0) example_crc (B := gset Z) (disk_files (F := ListFile) d') (disk_puffins d') e' (example_pk 1 [b0])).2 = Ok (Some (ex_r 1)).
Proof.
  set (w0 := {| w_disk := ex_disk1; w_tick := 0 |}).
  assert (Er : match (ex_job (fun _ => NoFault) w0).2 with Val (_, Ok true) => true | _ => false end = true) by (vm_compute; reflexivity).
  unfold run. fold w0. destruct (ex_job (fun _ => NoFault) w0) as [w' [[e' [[]|x|]]|]] eqn:E; [|done..]. clear Er.
  exists (w_disk w'), e'. split; [done|]. destruct ex_store1 as (ts & HK & _).
  destruct (compaction_preserves_reads (fun _ => 0) example_crc (F := ListFile) (B := gset Z) (J := unit) map_to_list
    ltac:(intros; lia) ltac:(intros r; by eexists) ltac:(exact example_crc_range) ltac:(done)
    ex_disk1 ex_engine1 ts ex_name "t" 0 0 (fun _ => NoFault) w0 w' e' (Ok true)) as (_ & Hb & Hl).
  - exact HK.
  - exact (ex_compactable ts HK).
  - intros lv. exact (ex_fresh_ids ts lv HK).
  - vm_compute. reflexivity.
  - vm_compute. discriminate.
  - reflexivity.
  - exact E.
  - split; [rewrite Hb; vm_compute; reflexivity|].
    rewrite (Hl _ (user_key_bytes (ex_k 1 9 Put))); [vm_compute; reflexivity|apply ex_pk_wf; unfold in_i; lia|vm_compute; reflexivity].
Defined.

(** *** Fewer levels *)

(** What the engine does next, when it succeeds. *)
Definition ex_state : Type := Disk * Engine bytes (list (bytes * EntryValue)) ListLru.
Definition ex_then (m : Engine bytes (list (bytes * EntryValue)) ListLru -> io (Engine bytes (list (bytes * EntryValue)) ListLru * res unit))
    (s : ex_state) : option ex_state :=
  match run (m s.2) s.1 with (d, Val (e, Ok _)) => Some (d, e) | _ => None end.
Definition ex_lookup (z : Z) (s : ex_state) : res (option Row) :=
  (lookup_row (fun _ => 0) example_crc (B := gset Z) (disk_files (F := ListFile) s.1) (disk_puffins s.1) s.2 (example_pk z [b0])).2.
Definition ex_drawn (name : string) (n : nat) : Drawn :=
  {| dr_names := fun i => String.append name (String.append (ex_name n) (String.append "-" (ex_name i)));
     dr_uuid := "t"; dr_now_ms := 0; dr_now := 0 |}.

(** A row is put, flushed and compacted to level 2. *)
Definition ex_deep : option ex_state :=
  s ← ex_then (eng_flush (fun _ => 0) example_crc (F := ListFile) (B := gset Z) (J := unit) map_to_list ex_fresh_names)
        (ex_empty, with_config (with_levels [1]) ex_written);
  ex_then (eng_compact (fun _ => 0) example_crc (F := ListFile) (B := gset Z) (J := unit) map_to_list (ex_drawn "b")) s.

(** With no level targets it is deleted, another row is put, and both are
    flushed. *)
Definition ex_delete_put (s : ex_state) : ex_state :=
  let files := disk_files (F := ListFile) s.1 in
  let puffins := disk_puffins s.1 in
  let '(e, _) := eng_delete (fun _ => 0) example_crc (B := gset Z) files puffins (with_config (with_levels []) s.2) (example_pk 1 [b0]) in
  let '(e, _) := eng_put (fun _ => 0) example_crc (B := gset Z) files puffins e (example_pk 2 [b0]) {| fields := [Some (Int32 2); Some (Bytes [b0]); Some (Bytes [b0])] |} in
  (s.1, e).
Definition ex_deleted : option ex_state :=
  s ← ex_deep;
  ex_then (eng_flush (fun _ => 0) example_crc (F := ListFile) (B := gset Z) (J := unit) map_to_list (fun _ => ("g"%string, "t"%string, 0)))
    (ex_delete_put s).
Definition ex_recompacted : option ex_state :=
  s ← ex_deleted;
  ex_then (eng_compact (fun _ => 0) example_crc (F := ListFile) (B := gset Z) (J := unit) map_to_list (ex_drawn "c")) s.

(** A compaction can bring a deleted row back.  Whether tombstones are
    dropped depends on the number of configured levels alone, not on whether
    deeper levels have files: a store whose row was compacted to level 2, run
    with a shorter [level_target_bytes], loses the tombstone of the row when it
    is compacted to level 1, and the row is read again. *)
Theorem fewer_levels_resurrect :
  (ex_lookup 1 <$> ex_deep) = Some (Ok (Some (ex_r 1))) /\
  (ex_lookup 1 <$> ex_deleted) = Some (Ok None) /\
  (ex_lookup 1 <$> ex_recompacted) = Some (Ok (Some (ex_r 1))).
Proof. split_and!; vm_compute; reflexivity. Qed.
