(* ===== verification/ObjectStore.v ===== *)
(** * Object stores

    [src/crates/merutable/src/store/]: the store interface of
    [traits.rs], the directory-backed store of [local.rs] and the disk cache
    of [cached.rs], over the file system of [Disk].  The S3 client is an
    implementation of the interface the code does not contain; what the
    interface promises is [StoreLaws].  [list], for which directories would
    have to be objects of the disk, is not modelled.

    A [put] of the local store replaces an object atomically and durably.  A
    [put_if_absent] of the same store does not: it creates the name before
    the content. *)

From Stdlib Require Import Ascii.
From S2P Require Import Prelude Decimal Disk ManifestPb Catalog.
Local Open Scope Z_scope.

(** ** The interface *)
Record MeruStore : Type := {
  put : string -> bytes -> io (res unit);
  get : string -> io (res bytes);
  get_range : string -> nat -> nat -> io (res bytes);
  remove : string -> io (res unit);
  has : string -> io (res bool);
  put_if_absent : string -> bytes -> io (res unit);
}.

(** The default body of [put_if_absent]. *)
Definition default_put_if_absent (has : string -> io (res bool)) (put : string -> bytes -> io (res unit))
    (path : string) (data : bytes) : io (res unit) :=
  there <-? has path;
  if (there : bool) then mret (Err (AlreadyExists path)) else put path data.

(** ** System calls of the local store *)

(** [OpenOptions::create_new]: the result of [open] with [O_CREAT | O_EXCL]. *)
Definition io_create_new (p : path_t) : io (res unit) :=
  syscall (fun d => match lookup_path d p with
                    | Some _ => (d, Err (AlreadyExists (join_path p)))
                    | None => (write_file p [] d, Ok tt)
                    end) (fun _ d => (d, Err Io)).

(** [remove_file], with [ErrorKind::NotFound] told apart. *)
Definition io_unlink (p : path_t) : io (res bool) :=
  syscall (fun d => match lookup_path d p with
                    | Some _ => (remove_path p d, Ok true)
                    | None => (d, Ok false)
                    end) (fun _ d => (d, Err Io)).

(** ** [LocalFileStore] *)
Section local.
Context (root : string).

(** [root.join(path)], of a relative path. *)
Definition full_path (path : string) : path_t :=
  let '(dir, file) := split_path path in
  (if String.eqb dir "" then root else String.append root (String.append "/" dir), file).

(** [Path::with_extension] of a path that has a file name. *)
Definition with_extension (ext : string) (p : path_t) : path_t :=
  (p.1, String.append (file_stem p.2) (String.append "." ext)).

(** The process and the value of [TMP_COUNTER] the call takes. *)
Context (pid seq : Z).

Definition tmp_path (full : path_t) : path_t :=
  with_extension (String.append "tmp." (String.append (show_string pid) (String.append "." (show_string seq)))) full.

Definition local_put (path : string) (data : bytes) : io (res unit) :=
  let full := full_path path in
  let tmp := tmp_path full in
  io_create_dir_all full.1 ;?
  io_write tmp data ;?
  io_sync tmp ;?
  io_rename full.1 tmp.2 full.2 ;?
  io_sync_dir full.1.

Definition local_get (path : string) : io (res bytes) :=
  r ← io_read (full_path path);
  mret (match r with Ok b => Ok b | _ => Err (ObjectStore "read") end).

(** [read_exact] fails when the file ends before the range does. *)
Definition local_get_range (path : string) (offset len : nat) : io (res bytes) :=
  r ← io_read (full_path path);
  mret (match r with
        | Ok b =>
            if (len =? 0)%nat || (offset + len <=? length b)%nat then Ok (take len (drop offset b))
            else Err (ObjectStore "read_range")
        | _ => Err (ObjectStore "open")
        end).

Definition local_delete (path : string) : io (res unit) :=
  _ <-? io_unlink (full_path path); mret (Ok tt).

Definition local_exists (path : string) : io (res bool) :=
  there ← io_exists (full_path path); mret (Ok there).

Definition local_put_if_absent (path : string) (data : bytes) : io (res unit) :=
  let full := full_path path in
  io_create_dir_all full.1 ;?
  io_create_new full ;?
  io_write full data ;?
  io_sync full ;?
  io_sync_dir full.1.

Definition LocalFileStore : MeruStore :=
  {| put := local_put; get := local_get; get_range := local_get_range; remove := local_delete;
     has := local_exists; put_if_absent := local_put_if_absent |}.
End local.

(** ** [CachedStore]

    The lru crate is the interface [PathLru]; [blake3] names the cache file of
    an object. *)
Class PathLru (C : Type) := {
  pl_push : string -> path_t -> C -> option (string * path_t) * C;
  pl_put : string -> path_t -> C -> C;
  pl_pop : string -> C -> C;
  pl_promote : string -> C -> C;
}.

Section cached.
Context {C : Type} `{!PathLru C} (blake3 : string -> string) (inner : MeruStore) (cache_dir : string).

Definition cache_path (path : string) : path_t := (cache_dir, blake3 path).

Definition cached_put (path : string) (data : bytes) (lru : C) : io (C * res unit) :=
  r ← put inner path data;
  match r with
  | Ok _ =>
      w ← io_write (cache_path path) data;
      match w with
      | Ok _ => mret (pl_put path (cache_path path) lru, Ok tt)
      | Err e => mret (lru, Err e)
      | Panic => mret (lru, Panic)
      end
  | Err e => mret (lru, Err e)
  | Panic => mret (lru, Panic)
  end.

(** The object has been fetched: keep a copy, and drop the entry it evicts. *)
Definition cache_fetched (path : string) (data : bytes) (lru : C) : io (C * res bytes) :=
  w ← io_write (cache_path path) data;
  match w with
  | Ok _ =>
      let '(evicted, lru) := pl_push path (cache_path path) lru in
      match evicted with
      | Some (_, p) => _ ← io_remove p; mret (lru, Ok data)
      | None => mret (lru, Ok data)
      end
  | Err e => mret (lru, Err e)
  | Panic => mret (lru, Panic)
  end.

Definition cached_get (path : string) (lru : C) : io (C * res bytes) :=
  r ← io_read_opt (cache_path path);
  match r with
  | Ok (Some data) => mret (pl_promote path lru, Ok data)
  | Ok None =>
      r ← get inner path;
      match r with
      | Ok data => cache_fetched path data lru
      | Err e => mret (lru, Err e)
      | Panic => mret (lru, Panic)
      end
  | Err e => mret (lru, Err e)
  | Panic => mret (lru, Panic)
  end.

Definition cached_get_range (path : string) (offset len : nat) (lru : C) : io (C * res bytes) :=
  r ← cached_get path lru;
  mret (match r with
        | (lru, Ok full) =>
            if (length full <? offset + len)%nat then (lru, Err (ObjectStore "range exceeds object size"))
            else (lru, Ok (take len (drop offset full)))
        | r => r
        end).

Definition cached_delete (path : string) (lru : C) : io (C * res unit) :=
  r ← remove inner path;
  match r with
  | Ok _ => _ ← io_remove (cache_path path); mret (pl_pop path lru, Ok tt)
  | r => mret (lru, r)
  end.
End cached.

(** ** What [put] of the local store guarantees *)

(** The content of a path, whatever a crash loses. *)
Definition object_is (d : Disk) (p : path_t) (o : option bytes) : Prop :=
  match o with Some b => durable d p b | None => absent d p end.

(** The path reads as one of the two, now and after a crash. *)
Definition either_object (d : Disk) (p : path_t) (o o' : option bytes) : Prop :=
  (read_file d p = o \/ read_file d p = o') /\
  forall d', crash d d' -> object_is d' p o \/ object_is d' p o'.

Lemma object_read d p o : object_is d p o -> read_file d p = o.
Proof. destruct o; [apply durable_read|apply absent_read]. Qed.

Lemma object_crash d d' p o : crash d d' -> object_is d p o -> object_is d' p o.
Proof.
  intros H. destruct o; cbn.
  - intros [i Hi]. exists i. by eapply pinned_crash.
  - intros Ha. eapply absent_sub; [exact Ha|]. intros; by eapply poss_crash.
Qed.

Lemma object_write d p q o c : q <> p -> object_is d p o -> object_is (write_file q c d) p o.
Proof.
  intros Hq. destruct o; cbn; [|by apply absent_write]. intros [i Hi]. exists i. by apply pinned_write.
Qed.

Lemma object_sync d p q o : object_is d p o -> object_is (sync_file q d) p o.
Proof.
  destruct o; cbn; [intros [i Hi]; exists i; by apply pinned_sync_file|]. intros H.
  eapply absent_sub; [exact H|]. intros r o. by rewrite (poss_dirs d) by apply sync_file_dirs.
Qed.

Lemma object_either d p o o' : object_is d p o -> either_object d p o o'.
Proof. intros H. split; [left; by apply object_read|]. intros d' Hc. left. by eapply object_crash. Qed.

Section atomic.
Context (root : string) (pid seq : Z) (path : string) (data : bytes) (old : option bytes).
Context (q : path_t) (c : bytes).
Let full := full_path root path.
Let tmp := tmp_path pid seq full.
Context (Hne : tmp <> full) (Hq : q <> full) (Hqt : q <> tmp).

(** The two names [put] uses. *)
Definition put_names (p : path_t) : Prop := p = full \/ p = tmp.

Record Before (d : Disk) : Prop := {
  bf_tidy : tidy put_names d;
  bf_old : object_is d full old;
  bf_other : durable d q c;
}.

Definition Staged (d : Disk) : Prop := Before d /\ written d tmp data true.

Lemma tmp_dir : tmp = (full.1, tmp.2).
Proof. done. Qed.

Lemma before_write b d : Before d -> Before (write_file tmp b d).
Proof.
  intros [T O [i K]]. split; [by apply tidy_write|by apply object_write|].
  exists i. apply pinned_write; [by intros E; apply Hqt|done].
Qed.

Lemma before_sync d : Before d -> Before (sync_file tmp d).
Proof.
  intros [T O [i K]]. split; [by apply tidy_sync_file|by apply object_sync|].
  exists i. by apply pinned_sync_file.
Qed.

(** Only the two names may denote the file that was written. *)
Lemma staged_only d i r : Before d -> lookup_path d tmp = Some i -> poss d r (Some i) -> put_names r.
Proof.
  intros [T _ _] Hl Hr. assert (Ht : poss d tmp (Some i)) by (rewrite <- Hl; apply poss_current).
  destruct (tidy_share _ _ T r tmp i Hr Ht) as [->|[? _]]; [by right|done].
Qed.

Lemma rename_eq d i : lookup_path d tmp = Some i ->
  rename_file full.1 tmp.2 full.2 d = change full.1 (Rename tmp.2 full.2 i) d.
Proof. intros E. unfold rename_file. rewrite <- tmp_dir. by rewrite E. Qed.

Lemma names_neq : tmp.2 <> full.2.
Proof. intros E. apply Hne. rewrite tmp_dir, E. by destruct full. Qed.

Lemma full_pair : full = (full.1, full.2).
Proof. by destruct full. Qed.

Lemma renamed_either d : Staged d -> either_object (rename_file full.1 tmp.2 full.2 d) full old (Some data).
Proof.
  intros [HB (i & Hl & Hi)]. rewrite (rename_eq d i Hl). split.
  { right. unfold read_file. rewrite lookup_path_change. cbn [effect]. rewrite !bool_decide_true by done.
    cbn. by rewrite Hi. }
  intros d' [H|(d0 & m & H & S0 & S1 & Ei & En & Ed)]%crash_change.
  { left. eapply object_crash; [exact H|apply HB]. }
  right. exists i. destruct (crash_inodes _ _ H i _ Hi) as ([b s] & Hf & Hs & Hd). cbn in Hs, Hd.
  rewrite Hs, Hd in Hf by done. clear Hs Hd.
  split.
  - intros o. rewrite (poss_settled d' full _ _ S1). cbn. by rewrite lookup_insert_eq.
  - unfold holds. by rewrite Ei, Hf.
  - intros r Hr. destruct (decide (r.1 = full.1)) as [E|E].
    + rewrite (poss_settled d' r _ _ (eq_ind_r (fun x => settled d' x _) S1 E)) in Hr. cbn in Hr.
      destruct (decide (r.2 = full.2)) as [E2|E2]; [by rewrite full_pair, <- E, <- E2; destruct r|].
      rewrite lookup_insert_ne in Hr by done.
      destruct (decide (r.2 = tmp.2)) as [E3|E3]; [by rewrite E3, lookup_delete_eq in Hr|].
      rewrite lookup_delete_ne in Hr by done. exfalso.
      assert (Hp : poss d r (Some i)).
      { eapply poss_crash; [exact H|]. by apply (poss_settled d0 r m); [rewrite E|]. }
      destruct (staged_only d i r HB Hl Hp) as [->| ->]; done.
    + exfalso. apply E.
      assert (Hp : poss d r (Some i)).
      { eapply poss_crash; [exact H|]. by apply (poss_same_dir d0 d'); [apply Ed|]. }
      destruct (staged_only d i r HB Hl Hp) as [->| ->]; done.
  - rewrite En, (crash_next _ _ H). apply (tidy_ino _ _ (bf_tidy _ HB) tmp i). rewrite <- Hl. apply poss_current.
Qed.

Lemma renamed_durable d : Staged d ->
  durable (sync_dir full.1 (rename_file full.1 tmp.2 full.2 d)) full data.
Proof.
  intros [HB (i & Hl & Hi)]. exists i. rewrite (rename_eq d i Hl).
  assert (Hlk : lookup_path (change full.1 (Rename tmp.2 full.2 i) d) full = Some i).
  { rewrite lookup_path_change. cbn [effect]. by rewrite !bool_decide_true. }
  split.
  - intros o. rewrite poss_sync_dir. intros [[_ ->]|[? _]]; [exact Hlk|done].
  - exact Hi.
  - intros r. rewrite poss_sync_dir. intros [[E Hr]|[E Hr]].
    + rewrite lookup_path_change, bool_decide_true in Hr by done. cbn [effect] in Hr.
      case_bool_decide as E1; [by rewrite full_pair, <- E, <- E1; destruct r|].
      case_bool_decide as E2; [done|]. exfalso.
      destruct (staged_only d i r HB Hl) as [->| ->]; [rewrite Hr; apply poss_current|done..].
    + exfalso. apply poss_change in Hr as [Hr|[? _]]; [|done].
      destruct (staged_only d i r HB Hl Hr) as [->| ->]; done.
  - apply (tidy_ino _ _ (bf_tidy _ HB) tmp i). rewrite <- Hl. apply poss_current.
Qed.

Lemma renamed_other d : Before d -> durable (rename_file full.1 tmp.2 full.2 d) q c.
Proof. intros [_ _ [i K]]. exists i. apply pinned_rename; [by rewrite <- tmp_dir|by rewrite <- full_pair|done]. Qed.
End atomic.

(** C33. [LocalFileStore::put] is atomic and durable.  Whatever call of it
    fails and wherever the process stops, the object reads as what it was or
    as the new data, and so it does after a crash; when the call returns [Ok]
    the new data survives every crash; and no other file changes. *)
Theorem local_put_atomic root pid seq path data old q c :
  tmp_path pid seq (full_path root path) <> full_path root path ->
  q <> full_path root path -> q <> tmp_path pid seq (full_path root path) ->
  triple (Before root pid seq path old q c)
    (local_put root pid seq path data)
    (fun r d => durable d q c /\
       match r with
       | Ok _ => durable d (full_path root path) data
       | _ => either_object d (full_path root path) old (Some data)
       end)
    (fun d => either_object d (full_path root path) old (Some data) /\ durable d q c).
Proof.
  intros Hne Hq Hqt. unfold local_put.
  set (B := Before root pid seq path old q c).
  set (S := Staged root pid seq path data old q c).
  assert (HC : forall d, B d -> either_object d (full_path root path) old (Some data) /\ durable d q c).
  { intros d HB. split; [apply object_either|]; apply HB. }
  apply triple_try with (R := fun _ => B).
  { apply triple_syscall; [done..|]. intros d _ HB. by destruct (HC d HB). }
  intros _. apply triple_try with (R := fun _ d => B d /\ written d (tmp_path pid seq (full_path root path)) data false).
  { apply triple_syscall; [done| |].
    - intros d HB. split; [by apply before_write|apply written_write].
    - intros d junk HB. cbn. destruct (HC _ (before_write root pid seq path old q c Hne Hqt junk d HB)). done. }
  intros _. apply triple_try with (R := fun _ => S).
  { apply triple_syscall; [by intros d [HB _]; apply HC| |].
    - intros d [HB HW]. pose proof HW as (i & Hl & _). rewrite Hl. cbn.
      split; [by apply before_sync|by eapply written_sync].
    - intros d _ [HB _]. by destruct (HC d HB). }
  intros _. apply triple_try with (R := fun _ d => exists d0, S d0 /\
    d = rename_file (full_path root path).1 (tmp_path pid seq (full_path root path)).2 (full_path root path).2 d0).
  { apply triple_syscall; [by intros d [HB _]; apply HC| |].
    - intros d HS. pose proof HS as [_ (i & Hl & _)]. rewrite <- (tmp_dir root pid seq path), Hl. cbn. by exists d.
    - intros d _ [HB _]. by destruct (HC d HB). }
  intros _. apply triple_syscall.
  - intros d (d0 & HS & ->). split; [by apply renamed_either with (q := q) (c := c)|].
    by apply renamed_other with (old := old); [..|apply HS].
  - intros d (d0 & HS & ->). cbn. split; [|by eapply renamed_durable].
    destruct (renamed_other root pid seq path old q c Hne Hq Hqt d0 (proj1 HS)) as [i K]. exists i. by apply pinned_sync_dir.
  - intros d _ (d0 & HS & ->). cbn. split; [|by eapply renamed_either].
    by apply renamed_other with (old := old); [..|apply HS].
Qed.

(** ** What the cache serves *)
Section served.
Context {C : Type} `{!PathLru C} (blake3 : string -> string) (inner : MeruStore) (cache_dir : string).
Context (path : string) (data : bytes).
(** The backend, which is remote, holds the object. *)
Context (Hget : forall sched w, get inner path sched w = (w, Val (Ok data))).

(** Without faults, a read through a cache that holds the object or nothing
    returns the object, and leaves a cache that holds it unless the file it
    evicts is its own. *)
Lemma cached_get_object lru d :
  (forall k p, (pl_push path (cache_path blake3 cache_dir path) lru).1 = Some (k, p) ->
     p <> cache_path blake3 cache_dir path) ->
  read_file d (cache_path blake3 cache_dir path) = None \/ read_file d (cache_path blake3 cache_dir path) = Some data ->
  exists d' lru', runs (cached_get blake3 inner cache_dir path lru) d d' (lru', Ok data) /\
    read_file d' (cache_path blake3 cache_dir path) = Some data.
Proof.
  set (cp := cache_path blake3 cache_dir path). intros Hpush [E|E].
  2:{ exists d, (pl_promote path lru). split; [|done].
      eapply runs_bind; [by apply runs_syscall|]. fold cp. rewrite E. apply runs_ret. }
  assert (Hr : read_file (write_file cp data d) cp = Some data).
  { unfold read_file. destruct (written_write cp data d) as (i & -> & Hi). cbn. by rewrite Hi. }
  assert (Hf : exists d' lru', runs (cache_fetched blake3 cache_dir path data lru) d d' (lru', Ok data) /\
                 read_file d' cp = Some data).
  { unfold cache_fetched. fold cp. destruct (pl_push path cp lru) as [[[k p]|] lru'] eqn:Ep.
    - assert (Hp : p <> cp) by (by apply (Hpush k)).
      destruct (lookup_path (write_file cp data d) p) as [i|] eqn:El.
      + exists (remove_path p (write_file cp data d)), lru'. split.
        * eapply runs_bind; [by apply runs_syscall|]. cbn.
          eapply runs_bind; [by apply runs_syscall; rewrite El|apply runs_ret].
        * rewrite <- Hr. unfold read_file, remove_path. rewrite El, lookup_path_change. cbn [effect].
          destruct p as [p1 p2], cp as [c1 c2]. cbn [fst snd]. repeat case_bool_decide; by subst.
      + exists (write_file cp data d), lru'. split; [|done].
        eapply runs_bind; [by apply runs_syscall|]. cbn.
        eapply runs_bind; [by apply runs_syscall; rewrite El|apply runs_ret].
    - exists (write_file cp data d), lru'. split; [|done].
      eapply runs_bind; [by apply runs_syscall|]. apply runs_ret. }
  destruct Hf as (d' & lru' & Hruns & Hd). exists d', lru'. split; [|done].
  eapply runs_bind; [by apply runs_syscall|]. fold cp. rewrite E.
  eapply runs_bind; [by intros n; exists n; rewrite Hget|]. exact Hruns.
Qed.

(** A copy whose writing failed is served by the next read. *)
Lemma cached_get_torn lru junk sched n d :
  read_file d (cache_path blake3 cache_dir path) = None ->
  sched n = NoFault -> sched (S n) = Fails junk -> sched (S (S n)) = NoFault ->
  exists w, cached_get blake3 inner cache_dir path lru sched {| w_disk := d; w_tick := n |} = (w, Val (lru, Err Io)) /\
    (cached_get blake3 inner cache_dir path lru sched w).2 = Val (pl_promote path lru, Ok junk).
Proof.
  intros E H0 H1 H2. unfold cached_get, mbind, io_bind, io_read_opt, syscall. cbn [w_disk w_tick].
  rewrite H0, E, Hget. unfold cache_fetched, mbind, io_bind, io_write, syscall. cbn [w_disk w_tick]. rewrite H1.
  eexists. split; [reflexivity|]. cbn [w_disk w_tick]. rewrite H2.
  destruct (written_write (cache_path blake3 cache_dir path) junk d) as (i & Hl & Hi).
  unfold read_file. rewrite Hl. cbn. by rewrite Hi.
Qed.
End served.

(** ** [put_if_absent] of the local store *)
Section absent.
Context (root : string) (path : string) (data : bytes).
Let full := full_path root path.

(** Without faults it creates the object. *)
Lemma local_pia_creates d : read_file d full = None -> lookup_path d full = None ->
  exists d', runs (local_put_if_absent root path data) d d' (Ok tt) /\ read_file d' full = Some data.
Proof.
  intros _ E. unfold local_put_if_absent.
  assert (Hw : exists i, lookup_path (write_file full [] d) full = Some i).
  { destruct (written_write full [] d) as (i & ? & _). eauto. }
  destruct Hw as [i Hi].
  destruct (written_write full data (write_file full [] d)) as (j & Hj & Hd).
  eexists. split.
  { eapply runs_try; [by apply runs_syscall|]. eapply runs_try; [by apply runs_syscall; unfold full in E; rewrite E|].
    eapply runs_try; [by apply runs_syscall|].
    eapply runs_try; [apply runs_syscall; unfold full in Hj; by rewrite Hj|]. by apply runs_syscall. }
  unfold read_file. rewrite lookup_path_sync_dir.
  destruct (written_sync full data false (write_file full data (write_file full [] d))) as (k & Hk & Hkd).
  { by exists j. }
  unfold full in *. rewrite Hk. cbn. unfold sync_dir, set_dir. cbn. by rewrite Hkd.
Qed.

(** When the write fails it leaves the name with whatever was written. *)
Lemma local_pia_torn junk sched n d : lookup_path d full = None ->
  sched n = NoFault -> sched (S n) = NoFault -> sched (S (S n)) = Fails junk ->
  local_put_if_absent root path data sched {| w_disk := d; w_tick := n |}
  = ({| w_disk := write_file full junk (write_file full [] d); w_tick := S (S (S n)) |}, Val (Err Io)).
Proof.
  intros E H0 H1 H2. unfold local_put_if_absent, io_try, mbind, io_bind, io_create_dir_all, io_create_new, io_write, syscall.
  cbn [w_disk w_tick]. fold full. rewrite H0. cbn [w_disk w_tick]. rewrite H1, E. cbn [w_disk w_tick]. by rewrite H2.
Qed.

(** An object that exists is left alone. *)
Lemma local_pia_exists d i : lookup_path d full = Some i ->
  runs (local_put_if_absent root path data) d d (Err (AlreadyExists (join_path full))).
Proof.
  intros E. unfold local_put_if_absent. eapply runs_try; [by apply runs_syscall|]. fold full.
  eapply runs_bind; [by apply runs_syscall; rewrite E|]. apply runs_ret.
Qed.
End absent.

(** ** Examples *)
Definition ex_store_disk : Disk :=
  {| inodes := {[ 0%nat := {| i_data := [Byte.x31]; i_synced := true |};
                  1%nat := {| i_data := [Byte.x61]; i_synced := true |} ]};
     dirs := {[ "m/metadata"%string :=
       {| dur := {[ "low_water.txt"%string := 0%nat; "v1.manifest.bin"%string := 1%nat ]}; pend := [] |} ]};
     next_ino := 2 |}.

Lemma ex_store_names p o : poss ex_store_disk p o ->
  o = Some 0%nat /\ p = ("m/metadata", "low_water.txt")%string \/
  o = Some 1%nat /\ p = ("m/metadata", "v1.manifest.bin")%string \/
  o = None /\ p <> ("m/metadata", "low_water.txt")%string /\ p <> ("m/metadata", "v1.manifest.bin")%string.
Proof.
  intros (l & Hl & Ho). destruct p as [dn n]. unfold dir_at, ex_store_disk in Hl, Ho. cbn [dirs fst snd] in Hl, Ho.
  destruct (decide (dn = "m/metadata"%string)) as [->|Hd].
  - rewrite lookup_singleton_eq in Hl, Ho. cbn [default pend dur] in Hl, Ho. apply sublist_nil_r in Hl as ->.
    cbn in Ho. destruct (decide (n = "low_water.txt"%string)) as [->|H1]; [by left; rewrite lookup_insert_eq in Ho|].
    rewrite lookup_insert_ne in Ho by done.
    destruct (decide (n = "v1.manifest.bin"%string)) as [->|H2]; [by right; left; rewrite lookup_singleton_eq in Ho|].
    rewrite lookup_singleton_ne in Ho by done. right; right. split; [done|]. split; congruence.
  - rewrite lookup_singleton_ne in Hl, Ho by done. cbn [default pend dur] in Hl, Ho. apply sublist_nil_r in Hl as ->.
    cbn in Ho. right; right. rewrite lookup_empty in Ho. split; [done|]. split; congruence.
Qed.

Lemma ex_store_before :
  Before "m" 7 0 "metadata/low_water.txt" (Some [Byte.x31]) ("m/metadata", "v1.manifest.bin")%string [Byte.x61] ex_store_disk.
Proof.
  split.
  - split.
    + intros p i [[[= ->] _]|[[[= ->] _]|[? _]]]%ex_store_names; [..|done];
        (split; [cbn; lia|vm_compute; by eexists]).
    + intros p q i [[[= ->] ->]|[[[= ->] ->]|[? _]]]%ex_store_names
        [[E ->]|[[E ->]|[? _]]]%ex_store_names; try done; by left.
  - exists 0%nat. split; [|done| |cbn; lia].
    + intros o [[-> _]|[[_ E]|[_ [E _]]]]%ex_store_names; [done|by vm_compute in E|by destruct E].
    + by intros q [[_ ->]|[[[=] _]|[[=] _]]]%ex_store_names.
  - exists 1%nat. split; [|done| |cbn; lia].
    + intros o [[_ E]|[[-> _]|[_ [_ E]]]]%ex_store_names; [by vm_compute in E|done|by destruct E].
    + by intros q [[[=] _]|[[_ ->]|[[=] _]]]%ex_store_names.
Qed.

Lemma local_put_atomic_witness :
  Before "m" 7 0 "metadata/low_water.txt" (Some [Byte.x31]) ("m/metadata", "v1.manifest.bin")%string [Byte.x61] ex_store_disk /\
  forall sched, match local_put "m" 7 0 "metadata/low_water.txt" [Byte.x32] sched {| w_disk := ex_store_disk; w_tick := 0 |} with
  | (w, Stopped) => either_object (w_disk w) ("m/metadata", "low_water.txt")%string (Some [Byte.x31]) (Some [Byte.x32])
  | _ => True
  end.
Proof.
  split; [exact ex_store_before|]. intros sched.
  pose proof (local_put_atomic "m" 7 0 "metadata/low_water.txt" [Byte.x32] (Some [Byte.x31])
    ("m/metadata", "v1.manifest.bin")%string [Byte.x61] ltac:(by vm_compute) ltac:(by vm_compute) ltac:(by vm_compute)
    sched {| w_disk := ex_store_disk; w_tick := 0 |} ex_store_before) as H.
  destruct (local_put _ _ _ _ _ _ _) as [w [r|]]; [done|]. apply H.
Defined.
