(* ===== verification/Mirror.v ===== *)
(** * The mirror

    [src/crates/merutable/src/mirror.rs] and the mirror options of
    [options.rs]: the worker that copies the live files of the current
    snapshot to an object store, then its manifest, then the low-water
    pointer.  The upload tasks run concurrently under a semaphore; the order
    in which the runtime advances them is an argument.  The engine is seen
    through the snapshot id and the manifest the worker reads from it, which
    are arguments too: the two reads are not one step of the engine.  Paths of
    data files are relative to the catalog's base directory, as in
    [Catalog].  The target is any store with the laws [StoreLaws], among them an
    atomic [put_if_absent], as S3 has; [torn_upload_published] shows what happens
    over [LocalFileStore], which lacks it. *)

From Stdlib Require Import Ascii.
From S2P Require Import Prelude Decimal Disk Sequence Schema LsmVersion DeletionVector Manifest ManifestPb Catalog Commit ObjectStore.
Local Open Scope Z_scope.

Definition LOW_WATER_PATH : string := "metadata/low_water.txt".

Definition manifest_path (v : Z) : string :=
  String.append "metadata/v" (String.append (show_string v) ".manifest.bin").

Record MirrorConfig : Type := {
  target : MeruStore;
  max_lag_alert_secs : Z;
  mirror_parallelism : nat;
}.

Definition MirrorConfig_new (t : MeruStore) : MirrorConfig :=
  {| target := t; max_lag_alert_secs := 60; mirror_parallelism := 4 |}.

Definition set_max_lag_alert_secs (secs : Z) (c : MirrorConfig) : MirrorConfig :=
  {| target := target c; max_lag_alert_secs := secs; mirror_parallelism := mirror_parallelism c |}.

Definition set_mirror_parallelism (n : nat) (c : MirrorConfig) : MirrorConfig :=
  {| target := target c; max_lag_alert_secs := max_lag_alert_secs c; mirror_parallelism := Nat.max n 1 |}.

(** ** Upload tasks *)

(** Where a spawned task is: waiting for a permit, about to read the local
    file, about to put it, or joined with its result. *)
Inductive Task : Type :=
  | Waiting (rel_path : string)
  | Reading (rel_path : string)
  | Putting (rel_path : string) (data : bytes)
  | Finished (r : res unit).

Definition spawn_upload (rel_path : string) : Task := Waiting rel_path.

Definition uploaded (r : res unit) : res unit :=
  match r with
  | Ok _ | Err (AlreadyExists _) => Ok tt
  | r => r
  end.

(** A task up to its next [await]. *)
Definition task_step (tgt : MeruStore) (t : Task) : io Task :=
  match t with
  | Waiting p => mret (Reading p)
  | Reading p =>
      r ← io_read (split_path p);
      mret (match r with Ok b => Putting p b | Err e => Finished (Err e) | Panic => Finished Panic end)
  | Putting p b => r ← put_if_absent tgt p b; mret (Finished (uploaded r))
  | Finished r => mret (Finished r)
  end.

Definition holds_permit (t : Task) : bool :=
  match t with Reading _ | Putting _ _ => true | _ => false end.

Definition running (ts : list Task) : nat := length (List.filter holds_permit ts).

Definition enabled (permits : nat) (ts : list Task) (t : Task) : bool :=
  match t with
  | Waiting _ => (running ts <? permits)%nat
  | Reading _ | Putting _ _ => true
  | Finished _ => false
  end.

(** The error [join_next] reports for a task that has finished. *)
Definition task_error (t : Task) : option MeruError :=
  match t with
  | Finished (Err e) => Some e
  | Finished Panic => Some (ObjectStore "mirror upload task panicked")
  | _ => None
  end.

(** The tasks and the first error among those that have finished. *)
Abbreviation join_set := (list Task * option MeruError)%type.

Definition step_at (tgt : MeruStore) (permits : nat) (i : nat) (js : join_set) : io join_set :=
  let '(ts, err) := js in
  match ts !! i with
  | Some t =>
      if enabled permits ts t then
        t' ← task_step tgt t;
        mret (<[i := t']> ts, match err with Some e => Some e | None => task_error t' end)
      else mret (ts, err)
  | None => mret (ts, err)
  end.

(** The tasks advanced in the order [picks]. *)
Fixpoint interleave (tgt : MeruStore) (permits : nat) (picks : list nat) (js : join_set) : io join_set :=
  match picks with
  | [] => mret js
  | i :: picks => js ← step_at tgt permits i js; interleave tgt permits picks js
  end.

Fixpoint find_enabled (permits : nat) (all ts : list Task) : option nat :=
  match ts with
  | [] => None
  | t :: ts => if enabled permits all t then Some 0%nat else S <$> find_enabled permits all ts
  end.

Definition steps_left (t : Task) : nat :=
  match t with Waiting _ => 3 | Reading _ => 2 | Putting _ _ => 1 | Finished _ => 0 end.

Definition work (ts : list Task) : nat := list_sum (map steps_left ts).

(** What is left is run to the end, or to the first error.  [Panic] is the
    result of a join that does not return. *)
Fixpoint drain (tgt : MeruStore) (permits : nat) (fuel : nat) (js : join_set) : io (res unit) :=
  match js.2 with
  | Some e => mret (Err e)
  | None =>
      if (work js.1 =? 0)%nat then mret (Ok tt)
      else
        match fuel, find_enabled permits js.1 js.1 with
        | S fuel, Some i => js ← step_at tgt permits i js; drain tgt permits fuel js
        | _, _ => mret Panic
        end
  end.

Definition join_all (tgt : MeruStore) (permits : nat) (picks : list nat) (ts : list Task) : io (res unit) :=
  js ← interleave tgt permits picks (ts, None); drain tgt permits (work js.1) js.

(** ** One snapshot *)
Section mirror.
Context `{!Prost, !SchemaJson}.

Definition entry_files (e : ManifestEntry) : list string :=
  if String.eqb (me_status e) "deleted" then []
  else me_path e :: match me_dv_path e with Some p => [p] | None => [] end.

Definition upload_paths (m : Manifest) : list string := concat (map entry_files (m_entries m)).

(** [picks] is the schedule of the upload tasks, [m] what
    [engine.current_manifest()] returned. *)
Definition mirror_snapshot (config : MirrorConfig) (picks : list nat) (m : Manifest) (version : Z)
    : io (res unit) :=
  join_all (target config) (Nat.max (mirror_parallelism config) 1) picks (map spawn_upload (upload_paths m)) ;?
  pb_bytes <-? mret (to_protobuf m);
  r ← put_if_absent (target config) (manifest_path version) pb_bytes;
  mret (uploaded r) ;?
  put (target config) LOW_WATER_PATH (hint_bytes version).

(** ** The worker's loop *)
Record MirrorWorker : Type := {
  last_uploaded : Z;
  mirror_seq : Z;
  last_upload_unix_secs : Z;
}.

Definition worker_spawn : MirrorWorker := {| last_uploaded := 0; mirror_seq := 0; last_upload_unix_secs := 0 |}.

Definition mirror_lag_secs (now : Z) (w : MirrorWorker) : option Z :=
  if last_upload_unix_secs w =? 0 then None else Some (Z.max (now - last_upload_unix_secs w) 0).

(** Whether the tick warns about the lag. *)
Definition lag_alert (config : MirrorConfig) (now : Z) (w : MirrorWorker) : bool :=
  (0 <? last_upload_unix_secs w) && (0 <? max_lag_alert_secs config) &&
  (max_lag_alert_secs config <=? Z.max (now - last_upload_unix_secs w) 0).

(** One turn of [mirror_loop]: [current] is the snapshot id the turn
    observes, [m] the manifest it then reads, [now] the clock. *)
Definition mirror_tick (config : MirrorConfig) (picks : list nat) (current : Z) (m : Manifest) (now : Z)
    (w : MirrorWorker) : io MirrorWorker :=
  if (last_uploaded w <? current) && (0 <? current) then
    r ← mirror_snapshot config picks m current;
    mret (match r with
          | Ok _ => {| last_uploaded := current; mirror_seq := current; last_upload_unix_secs := now |}
          | _ => w
          end)
  else mret w.
End mirror.

(** ** What a store promises

    [obj] is the object a path names.  A [put_if_absent] creates the whole
    object or leaves the store as it was, also when it fails or is cut short;
    a [put] replaces the whole object or leaves it. *)
Definition is_data (p : string) : Prop := exists r, p = String.append "data/" r.

Section laws.
Context (wf : Disk -> Prop) (obj : Disk -> string -> option bytes).

(** The other objects and the local data files are not touched. *)
Record apart (p : string) (d0 d : Disk) : Prop := {
  ap_wf : wf d;
  ap_other q : q <> p -> obj d q = obj d0 q;
  ap_local f : is_data f -> read_file d (split_path f) = read_file d0 (split_path f);
}.

Definition created (p : string) (b : bytes) (d0 d : Disk) : Prop :=
  obj d p = obj d0 p \/ (obj d0 p = None /\ obj d p = Some b).

Record StoreLaws (s : MeruStore) : Prop := {
  pia_law p b d0 : wf d0 -> triple (eq d0) (put_if_absent s p b)
    (fun r d => apart p d0 d /\
       match r with
       | Ok _ => obj d0 p = None /\ obj d p = Some b
       | Err (AlreadyExists _) => is_Some (obj d0 p) /\ obj d p = obj d0 p
       | _ => created p b d0 d
       end)
    (fun d => apart p d0 d /\ created p b d0 d);
  put_law p b d0 : wf d0 -> triple (eq d0) (put s p b)
    (fun r d => apart p d0 d /\
       match r with
       | Ok _ => obj d p = Some b
       | _ => obj d p = obj d0 p \/ obj d p = Some b
       end)
    (fun d => apart p d0 d /\ (obj d p = obj d0 p \/ obj d p = Some b));
}.

(** Without faults both complete. *)
Record StoreLive (s : MeruStore) : Prop := {
  pia_live p b d : wf d -> exists d' r, runs (put_if_absent s p b) d d' r /\ uploaded r = Ok tt;
  put_live p b d : wf d -> exists d', runs (put s p b) d d' (Ok tt);
}.

Lemma triple_at {A} (P : Disk -> Prop) (m : io A) Q C :
  (forall d0, P d0 -> triple (eq d0) m Q C) -> triple P m Q C.
Proof. intros H sched w HP. by apply (H _ HP sched w). Qed.
End laws.
Arguments ap_wf {wf obj p d0 d}.
Arguments ap_other {wf obj p d0 d}.
Arguments ap_local {wf obj p d0 d}.

Lemma data_head p : is_data p -> exists r, list_ascii_of_string p = "d"%char :: r.
Proof. intros [r ->]. cbn. eauto. Qed.

Lemma data_not_low_water p : is_data p -> p <> LOW_WATER_PATH.
Proof. intros (r & E)%data_head ->. discriminate. Qed.

Lemma data_not_manifest p v : is_data p -> p <> manifest_path v.
Proof. intros (r & E)%data_head ->. discriminate. Qed.

Lemma low_water_not_manifest v : LOW_WATER_PATH <> manifest_path v.
Proof. discriminate. Qed.

Lemma manifest_path_inj v w : in_i 64 v -> in_i 64 w -> 0 <= v -> 0 <= w -> manifest_path v = manifest_path w -> v = w.
Proof.
  intros Hv Hw ? ? E. unfold manifest_path in E. apply (f_equal list_ascii_of_string) in E.
  rewrite !append_ascii in E. apply app_inv_head in E. apply app_inv_tail in E. apply string_ascii_inj in E.
  by apply show_string_inj.
Qed.

(** ** What a reader of the mirror finds *)
Section complete.
Context `{PR : !Prost, PL : !ProstLaws, SJ : !SchemaJson, SL : !SchemaJsonLaws, MJ : !ManifestJson}.
Context (wf : Disk -> Prop) (obj : Disk -> string -> option bytes).
(** A data file is written once: [content] is what it holds. *)
Context (content : string -> bytes).

(** The messages keep the paths of a manifest. *)
Lemma upload_paths_stored m : upload_paths (stored_manifest m) = upload_paths m.
Proof. unfold upload_paths, stored_manifest. cbn [m_entries]. rewrite map_map. do 2 f_equal. Qed.

(** The manifest stored as [data] decodes, and every file it names is there. *)
Definition served (d : Disk) (data : bytes) : Prop :=
  exists m, decode_manifest data = Ok m /\
    forall f, f ∈ upload_paths m -> is_data f /\ obj d f = Some (content f).

Record Mirrored (d : Disk) : Prop := {
  mi_wf : wf d;
  mi_local f b : is_data f -> read_file d (split_path f) = Some b -> b = content f;
  mi_data f b : is_data f -> obj d f = Some b -> b = content f;
  mi_manifest v data : obj d (manifest_path v) = Some data -> served d data;
  mi_head b : obj d LOW_WATER_PATH = Some b ->
    exists v, b = hint_bytes v /\ is_Some (obj d (manifest_path v));
}.

(** Objects other than the low-water pointer stay as they are. *)
Definition grows (d d' : Disk) : Prop :=
  forall f b, f <> LOW_WATER_PATH -> obj d f = Some b -> obj d' f = Some b.

Lemma grows_trans d1 d2 d3 : grows d1 d2 -> grows d2 d3 -> grows d1 d3.
Proof. unfold grows. eauto. Qed.

(** The mirror is complete, has all it had at [d0], and the local data files
    are those of [d0]. *)
Definition Kept d0 d : Prop :=
  Mirrored d /\ grows d0 d /\
  forall f, is_data f -> read_file d (split_path f) = read_file d0 (split_path f).

Lemma kept_refl d : Mirrored d -> Kept d d.
Proof. intros H. split; [done|]. split; [by intros f b|done]. Qed.

Lemma kept_trans d0 d1 d : Kept d0 d1 -> Kept d1 d -> Kept d0 d.
Proof.
  intros (_ & G & L) (M & G' & L'). split; [done|]. split; [by eapply grows_trans|].
  intros f Hf. by rewrite L', L.
Qed.

(** And the manifests on the mirror are those of [d0]. *)
Definition Uploading d0 d : Prop :=
  Kept d0 d /\ forall v, obj d (manifest_path v) = obj d0 (manifest_path v).

Lemma uploading_refl d : Mirrored d -> Uploading d d.
Proof. intros H. split; [by apply kept_refl|done]. Qed.

Lemma uploading_trans d0 d1 d : Uploading d0 d1 -> Uploading d1 d -> Uploading d0 d.
Proof. intros [K V] [K' V']. split; [by eapply kept_trans|]. intros v. by rewrite V', V. Qed.

Lemma served_grows d d' data : grows d d' -> served d data -> served d' data.
Proof.
  intros H (m & E & Hm). exists m. split; [done|]. intros f [Hf Ho]%Hm.
  split; [done|]. apply H; [by apply data_not_low_water|done].
Qed.

Lemma created_grows p b d0 d : apart wf obj p d0 d -> created obj p b d0 d -> grows d0 d.
Proof.
  intros HA HC f c _ Hf. destruct (decide (f = p)) as [->|Hn]; [|by rewrite (ap_other HA)].
  destruct HC as [->|[E _]]; congruence.
Qed.

(** A data file appears. *)
Lemma mirrored_data p d0 d : is_data p -> Mirrored d0 -> apart wf obj p d0 d ->
  created obj p (content p) d0 d -> Uploading d0 d.
Proof.
  intros Hp [W L D M H] HA HC. assert (G : grows d0 d) by (by eapply created_grows). split.
  2:{ intros v. apply (ap_other HA). intros <-. by eapply data_not_manifest. }
  split; [|split; [done|apply HA]]. split.
  - apply HA.
  - intros f b Hf. rewrite (ap_local HA) by done. by apply L.
  - intros f b Hf. destruct (decide (f = p)) as [->|Hn]; [|rewrite (ap_other HA) by done; by apply D].
    destruct HC as [->|[_ ->]]; [by apply D|congruence].
  - intros v data. rewrite (ap_other HA) by (intros <-; by eapply data_not_manifest).
    intros Hv. eapply served_grows; [exact G|by eapply M].
  - intros b. rewrite (ap_other HA) by (intros <-; by eapply data_not_low_water).
    intros (v & -> & [c Hc])%H. exists v. split; [done|]. exists c. by apply G; [intros E; by apply (low_water_not_manifest v)|].
Qed.

(** A manifest appears, whose files are there. *)
Lemma mirrored_manifest v b d0 d : Mirrored d0 -> served d0 b -> apart wf obj (manifest_path v) d0 d ->
  created obj (manifest_path v) b d0 d -> Kept d0 d.
Proof.
  intros [W L D M H] Hb HA HC. assert (G : grows d0 d) by (by eapply created_grows). split; [|split; [done|apply HA]]. split.
  - apply HA.
  - intros f c Hf. rewrite (ap_local HA) by done. by apply L.
  - intros f c Hf. rewrite (ap_other HA) by (by apply data_not_manifest). by apply D.
  - intros u data Hu. apply (served_grows d0); [exact G|]. destruct (decide (manifest_path u = manifest_path v)) as [E|Hn].
    + rewrite E in Hu. destruct HC as [HC|[_ HC]]; rewrite HC in Hu; [by eapply M|congruence].
    + rewrite (ap_other HA) in Hu by done. by eapply M.
  - intros c. rewrite (ap_other HA) by apply low_water_not_manifest.
    intros (u & -> & [x Hx])%H. exists u. split; [done|]. exists x. by apply G; [intros E; by apply (low_water_not_manifest u)|].
Qed.

(** The low-water pointer moves to a manifest that is there. *)
Lemma mirrored_head v d0 d : Mirrored d0 -> is_Some (obj d0 (manifest_path v)) ->
  apart wf obj LOW_WATER_PATH d0 d ->
  obj d LOW_WATER_PATH = obj d0 LOW_WATER_PATH \/ obj d LOW_WATER_PATH = Some (hint_bytes v) ->
  Kept d0 d.
Proof.
  intros [W L D M H] Hv HA HC.
  assert (G : grows d0 d) by (intros f b Hf; by rewrite (ap_other HA)). split; [|split; [done|apply HA]]. split.
  - apply HA.
  - intros f c Hf. rewrite (ap_local HA) by done. by apply L.
  - intros f c Hf. rewrite (ap_other HA) by (by apply data_not_low_water). by apply D.
  - intros u data. rewrite (ap_other HA) by (intros E; by apply (low_water_not_manifest u)).
    intros Hu. apply (served_grows d0); [exact G|by eapply M].
  - intros b Hb.
    assert (Hm : forall u, obj d (manifest_path u) = obj d0 (manifest_path u)).
    { intros u. apply (ap_other HA). intros E. by apply (low_water_not_manifest u). }
    destruct HC as [HC|HC]; rewrite HC in Hb.
    + destruct (H b Hb) as (u & ? & ?). exists u. by rewrite Hm.
    + injection Hb as <-. exists v. by rewrite Hm.
Qed.
End complete.

(** ** The tasks make progress *)
Lemma work_insert ts i t t' : ts !! i = Some t -> (work (<[i := t']> ts) + steps_left t = work ts + steps_left t')%nat.
Proof.
  revert i. induction ts as [|x ts IH]; intros [|i] E; [done..| |]; cbn in *.
  - injection E as ->. unfold work. cbn [map list_sum foldr]. lia.
  - specialize (IH i E). unfold work in *. cbn [map list_sum foldr]. rewrite <- !Nat.add_assoc. f_equal. exact IH.
Qed.

Lemma find_enabled_some permits all ts i : find_enabled permits all ts = Some i ->
  exists t, ts !! i = Some t /\ enabled permits all t = true.
Proof.
  revert i. induction ts as [|t ts IH]; intros i; cbn; [done|].
  destruct (enabled permits all t) eqn:E; [intros [= <-]; eauto|].
  destruct (find_enabled permits all ts) as [j|]; [|done]. intros [= <-]. cbn. by apply IH.
Qed.

Lemma find_enabled_none permits all ts : find_enabled permits all ts = None ->
  forall t, t ∈ ts -> enabled permits all t = false.
Proof.
  induction ts as [|t ts IH]; cbn; intros E u Hu; [by apply not_elem_of_nil in Hu|].
  destruct (enabled permits all t) eqn:Et; [done|].
  destruct (find_enabled permits all ts); [done|]. apply elem_of_cons in Hu as [->|Hu]; auto.
Qed.

Lemma some_enabled permits ts : (1 <= permits)%nat -> work ts <> 0%nat -> is_Some (find_enabled permits ts ts).
Proof.
  intros Hp Hw. destruct (find_enabled permits ts ts) eqn:E; [by eexists|]. exfalso. apply Hw.
  pose proof (find_enabled_none _ _ _ E) as Hn.
  assert (Hr : running ts = 0%nat).
  { unfold running. rewrite filter_all_false; [done|]. intros t Ht. specialize (Hn t Ht). by destruct t. }
  assert (Hf : forall t, t ∈ ts -> steps_left t = 0%nat).
  { intros t Ht. specialize (Hn t Ht). destruct t; cbn in *; [|done..].
    rewrite Hr in Hn. apply Nat.ltb_ge in Hn. lia. }
  clear -Hf. induction ts as [|t ts IH]; [done|]. unfold work in *. cbn [map list_sum foldr].
  rewrite (Hf t) by set_solver. apply IH. set_solver.
Qed.

Lemma enabled_steps permits ts t : enabled permits ts t = true -> (0 < steps_left t)%nat.
Proof. destruct t; cbn; [lia..|done]. Qed.

(** ** A snapshot is uploaded *)
Section uploads.
Context `{PR : !Prost, PL : !ProstLaws, SJ : !SchemaJson, SL : !SchemaJsonLaws, MJ : !ManifestJson}.
Context (wf : Disk -> Prop) (obj : Disk -> string -> option bytes) (content : string -> bytes).
Context (s : MeruStore) (Hs : StoreLaws wf obj s).
Implicit Types d : Disk.

Definition task_ok d (p : string) (t : Task) : Prop :=
  match t with
  | Waiting q | Reading q => q = p
  | Putting q b => q = p /\ b = content p
  | Finished (Ok _) => obj d p = Some (content p)
  | Finished _ => True
  end.

Lemma task_ok_grows d0 d p t : is_data p -> grows obj d0 d -> task_ok d0 p t -> task_ok d p t.
Proof. intros Hp G. destruct t as [| | |[]]; cbn; auto. intros. apply G; [by apply data_not_low_water|done]. Qed.

Lemma upload_spec p d0 : is_data p -> Mirrored wf obj content d0 ->
  triple (eq d0) (put_if_absent s p (content p))
    (fun r d => Uploading wf obj content d0 d /\ (uploaded r = Ok tt -> obj d p = Some (content p))) (Uploading wf obj content d0).
Proof.
  intros Hp HM. eapply triple_conseq; [apply (pia_law _ _ _ Hs), (mi_wf _ _ _ _ HM)|done|..].
  - intros r d [HA HR].
    assert (HC : created obj p (content p) d0 d).
    { destruct r as [[]|[]|]; try done; [right|left]; apply HR. }
    split; [by apply (mirrored_data _ _ _ _ _ _ Hp HM HA HC)|].
    intros E. destruct r as [[]|[]|]; try done; [apply HR|].
    destruct HR as [[b Hb] HR]. rewrite HR, Hb. f_equal. by apply (mi_data _ _ _ _ HM p).
  - intros d [HA HC]. by apply (mirrored_data _ _ _ _ _ _ Hp HM HA HC).
Qed.

Lemma task_step_spec p t d0 : is_data p -> Mirrored wf obj content d0 -> task_ok d0 p t -> (0 < steps_left t)%nat ->
  triple (eq d0) (task_step s t)
    (fun t' d => Uploading wf obj content d0 d /\ task_ok d p t' /\ (steps_left t' < steps_left t)%nat) (Uploading wf obj content d0).
Proof.
  intros Hp HM Ht Hl. destruct t as [q|q|q b|r]; cbn in *; [| | |lia].
  - apply triple_ret. intros d <-. split; [by apply uploading_refl|]. subst q. cbn. auto.
  - subst q. apply triple_bind with (R := fun r d => d = d0 /\ forall b, r = Ok b -> b = content p).
    { apply triple_read.
      - intros d <-. by apply uploading_refl.
      - intros d b <- Hr. split; [done|]. intros c [= <-]. by apply (mi_local _ _ _ _ HM p).
      - intros d <-. by split. }
    intros r. apply triple_ret. intros d [-> Hb]. split; [by apply uploading_refl|].
    destruct r as [b|e|]; cbn; [|split; [done|lia]..]. split; [by split; [|apply Hb]|lia].
  - destruct Ht as [-> ->]. apply triple_bind with (R := fun r d => Uploading wf obj content d0 d /\ (uploaded r = Ok tt -> obj d p = Some (content p))).
    { by apply upload_spec. }
    intros r. apply triple_ret. intros d [HK Hr]. split; [done|]. cbn. split; [|lia].
    destruct (uploaded r) as [[]|e|]; [by apply Hr|done..].
Qed.

Context (permits : nat) (paths : list string) (Hpaths : Forall is_data paths).

Record JoinOk d (js : join_set) : Prop := {
  jo_mirror : Mirrored wf obj content d;
  jo_tasks : Forall2 (task_ok d) paths js.1;
  jo_err : js.2 = None -> Forall (fun t => task_error t = None) js.1;
}.

Lemma step_at_spec i js d0 : JoinOk d0 js ->
  triple (eq d0) (step_at s permits i js)
    (fun js' d => JoinOk d js' /\ Uploading wf obj content d0 d /\
       (forall t, js.1 !! i = Some t -> enabled permits js.1 t = true -> work js'.1 < work js.1)%nat) (Uploading wf obj content d0).
Proof.
  destruct js as [ts err]. intros [HM HT HE]. cbn [fst snd] in *. unfold step_at.
  assert (Hstay : forall d, d0 = d -> JoinOk d (ts, err) /\ Uploading wf obj content d0 d).
  { intros d <-. split; [by split|by apply uploading_refl]. }
  destruct (ts !! i) as [t|] eqn:Et.
  2:{ apply triple_ret. intros d Hd. destruct (Hstay d Hd). split_and!; [done..|]. by intros t [=]. }
  destruct (enabled permits ts t) eqn:En.
  2:{ apply triple_ret. intros d Hd. destruct (Hstay d Hd). split_and!; [done..|]. intros u [= <-]. congruence. }
  destruct (Forall2_lookup_r _ _ _ i t HT Et) as (p & Hp & Ht).
  assert (Hd : is_data p) by (by eapply Forall_lookup_1).
  apply triple_bind with (R := fun t' d => Uploading wf obj content d0 d /\ task_ok d p t' /\ (steps_left t' < steps_left t)%nat).
  { apply task_step_spec; [done..|]. by eapply enabled_steps. }
  intros t'. apply triple_ret. intros d (HK & Ht' & Hl). pose proof HK as ((HM' & G & _) & _). split_and!.
  - split; cbn [fst snd]; [done| |].
    + rewrite <- (list_insert_id paths i p Hp). apply Forall2_insert; [|done].
      apply (List.Forall2_impl_strong (task_ok d0)); [|done]. intros q u Hqu Hq%list_elem_of_In _.
      eapply task_ok_grows; [|exact G|done]. rewrite Forall_forall in Hpaths. by apply Hpaths.
    + destruct err; [done|]. intros He. apply Forall_insert; [by apply HE|done].
  - done.
  - intros u [= <-] _. cbn [fst]. pose proof (work_insert ts i t t' Et). lia.
Qed.
Lemma interleave_spec picks js d0 : JoinOk d0 js ->
  triple (eq d0) (interleave s permits picks js) (fun js' d => JoinOk d js' /\ Uploading wf obj content d0 d) (Uploading wf obj content d0).
Proof.
  revert js d0. induction picks as [|i picks IH]; intros js d0 HJ; cbn.
  { apply triple_ret. intros d <-. split; [done|by apply uploading_refl, HJ]. }
  eapply triple_bind; [by apply step_at_spec|]. intros js'. apply triple_at.
  intros d1 (HJ1 & HK & _). eapply triple_conseq; [by apply IH|done|..].
  - intros js2 d [? ?]. split; [done|by eapply uploading_trans].
  - intros d ?. by eapply uploading_trans.
Qed.

(** All tasks joined without an error: every file is there. *)
Lemma joined js d : JoinOk d js -> js.2 = None -> work js.1 = 0%nat -> forall f, f ∈ paths -> obj d f = Some (content f).
Proof.
  intros [_ HT HE] Hn Hw f [i Hi]%list_elem_of_lookup_1.
  destruct (Forall2_lookup_l _ _ _ i f HT Hi) as (t & Ht & Hok).
  specialize (HE Hn). pose proof (Forall_lookup_1 _ _ i t HE Ht) as Het.
  assert (Hl : steps_left t = 0%nat).
  { pose proof (work_insert js.1 i t (Finished (Ok tt)) Ht) as E. cbn in E. lia. }
  destruct t as [| | |[[]|e|]]; cbn in *; done.
Qed.

Lemma join_drain_spec fuel js d0 : (1 <= permits)%nat -> (work js.1 <= fuel)%nat -> JoinOk d0 js ->
  triple (eq d0) (drain s permits fuel js)
    (fun r d => Uploading wf obj content d0 d /\
       match r with Ok _ => forall f, f ∈ paths -> obj d f = Some (content f) | Err _ => True | Panic => False end)
    (Uploading wf obj content d0).
Proof.
  intros Hp. revert js d0. induction fuel as [|fuel IH]; intros js d0 Hf HJ.
  all: pose proof (uploading_refl _ _ _ _ (jo_mirror _ _ HJ)) as HK; cbn.
  all: destruct js.2 as [e|] eqn:He; [apply triple_ret; by intros d <-|].
  all: destruct (work js.1 =? 0)%nat eqn:Ew;
         [apply triple_ret; intros d <-; split; [done|by apply (joined js); [..|apply Nat.eqb_eq]]|].
  all: apply Nat.eqb_neq in Ew. { lia. }
  destruct (some_enabled permits js.1 Hp Ew) as [i Hi]. rewrite Hi.
  destruct (find_enabled_some _ _ _ _ Hi) as (t & Ht & Hen).
  eapply triple_bind; [by apply step_at_spec|]. intros js'. apply triple_at.
  intros d1 (HJ1 & HK1 & Hw). specialize (Hw t Ht Hen).
  eapply triple_conseq; [apply IH; [lia|done]|done|..].
  - intros r d [? ?]. split; [by eapply uploading_trans|done].
  - intros d ?. by eapply uploading_trans.
Qed.

Lemma spawned_ok d0 : Mirrored wf obj content d0 -> JoinOk d0 (map spawn_upload paths, None).
Proof.
  intros HM. split; cbn [fst snd]; [done| |].
  - clear Hpaths. induction paths; constructor; done.
  - intros _. clear Hpaths. induction paths; constructor; done.
Qed.

Lemma join_all_spec picks d0 : (1 <= permits)%nat -> Mirrored wf obj content d0 ->
  triple (eq d0) (join_all s permits picks (map spawn_upload paths))
    (fun r d => Uploading wf obj content d0 d /\
       match r with Ok _ => forall f, f ∈ paths -> obj d f = Some (content f) | Err _ => True | Panic => False end)
    (Uploading wf obj content d0).
Proof.
  intros Hp HM. eapply triple_bind; [by apply interleave_spec, spawned_ok|]. intros js. apply triple_at.
  intros d1 [HJ HK]. eapply triple_conseq; [by apply join_drain_spec|done|..].
  - intros r d [? ?]. split; [by eapply uploading_trans|done].
  - intros d ?. by eapply uploading_trans.
Qed.
(** *** Without faults *)
Context (Htotal : forall p b d, wf d -> exists d' r, runs (put_if_absent s p b) d d' r /\ uploaded r = Ok tt).

Definition Present (d : Disk) : Prop := forall f, f ∈ paths -> is_Some (read_file d (split_path f)).

Lemma present_kept d0 d : Uploading wf obj content d0 d -> Present d0 -> Present d.
Proof.
  intros [(_ & _ & L) _] H f Hf. rewrite L; [by apply H|]. rewrite Forall_forall in Hpaths. by apply Hpaths.
Qed.

Lemma task_step_total p t d0 : p ∈ paths -> Mirrored wf obj content d0 -> Present d0 -> task_ok d0 p t ->
  task_error t = None -> total (eq d0) (task_step s t) (fun t' _ => task_error t' = None).
Proof.
  intros Hp HM HP Ht He. destruct t as [q|q|q b|r]; cbn in *.
  - by apply total_ret.
  - subst q. intros d <-. destruct (HP p Hp) as [b Hb]. exists d0, (Putting p b). split; [|done].
    eapply runs_bind; [by apply runs_read|]. apply runs_ret.
  - intros d <-. destruct (Htotal q b d0 (mi_wf _ _ _ _ HM)) as (d' & r & Hr & Hu).
    exists d', (Finished (Ok tt)). split; [|done]. eapply runs_bind; [exact Hr|]. rewrite Hu. apply runs_ret.
  - by apply total_ret.
Qed.

Lemma step_at_total i js d0 : JoinOk d0 js -> js.2 = None -> Present d0 ->
  total (eq d0) (step_at s permits i js) (fun js' _ => js'.2 = None).
Proof.
  destruct js as [ts err]. intros [HM HT HE] Hn HP. cbn [fst snd] in *. subst err. unfold step_at.
  destruct (ts !! i) as [t|] eqn:Et; [|by apply total_ret].
  destruct (enabled permits ts t); [|by apply total_ret].
  destruct (Forall2_lookup_r _ _ _ i t HT Et) as (p & Hp & Ht).
  eapply total_bind; [apply (task_step_total p t); [by eapply list_elem_of_lookup_2|done..|]|].
  { by apply (Forall_lookup_1 _ _ i t (HE eq_refl)). }
  intros t'. apply total_ret. by intros d ->.
Qed.

Lemma total_at {A} (P : Disk -> Prop) (m : io A) Q : (forall d, P d -> total (eq d) m Q) -> total P m Q.
Proof. intros H d HP. by apply (H d HP d). Qed.

(** A run without faults, and what every run keeps. *)
Lemma total_keep {A} d0 (m : io A) Q Q' C : total (eq d0) m Q -> triple (eq d0) m Q' C -> total (eq d0) m (fun a d => Q a d /\ Q' a d).
Proof. intros H H'. eapply total_conseq; [by apply (total_and _ _ _ _ _ _ H H')|by split|done]. Qed.

Lemma interleave_total picks js d0 : JoinOk d0 js -> js.2 = None -> Present d0 ->
  total (eq d0) (interleave s permits picks js) (fun js' _ => js'.2 = None).
Proof.
  revert js d0. induction picks as [|i picks IH]; intros js d0 HJ Hn HP; cbn; [by apply total_ret|].
  eapply total_bind; [eapply total_keep; [by apply step_at_total|by apply step_at_spec]|].
  intros js'. apply total_at. intros d1 (Hn1 & HJ1 & HK & _). apply IH; [done|done|by eapply present_kept].
Qed.

Lemma drain_total fuel js d0 : (1 <= permits)%nat -> (work js.1 <= fuel)%nat -> JoinOk d0 js -> js.2 = None -> Present d0 ->
  total (eq d0) (drain s permits fuel js) (fun r _ => r = Ok tt).
Proof.
  intros Hp. revert js d0. induction fuel as [|fuel IH]; intros js d0 Hf HJ Hn HP; cbn; rewrite Hn.
  all: destruct (work js.1 =? 0)%nat eqn:Ew; [by apply total_ret|].
  all: apply Nat.eqb_neq in Ew. { lia. }
  destruct (some_enabled permits js.1 Hp Ew) as [i Hi]. rewrite Hi.
  destruct (find_enabled_some _ _ _ _ Hi) as (t & Ht & Hen).
  eapply total_bind; [eapply total_keep; [by apply step_at_total|by apply step_at_spec]|].
  intros js'. apply total_at. intros d1 (Hn1 & HJ1 & HK & Hw). specialize (Hw t Ht Hen).
  apply IH; [lia|done|done|by eapply present_kept].
Qed.

Lemma join_all_total picks d0 : (1 <= permits)%nat -> Mirrored wf obj content d0 -> Present d0 ->
  total (eq d0) (join_all s permits picks (map spawn_upload paths)) (fun r _ => r = Ok tt).
Proof.
  intros Hp HM HP. pose proof (spawned_ok d0 HM) as HJ.
  eapply total_bind; [eapply total_keep; [by apply interleave_total|by apply interleave_spec]|].
  intros js. apply total_at. intros d1 (Hn & HJ1 & HK). apply drain_total; [done..|by eapply present_kept].
Qed.
End uploads.

(** ** The worker *)
Section worker.
Context `{PR : !Prost, PL : !ProstLaws, SJ : !SchemaJson, SL : !SchemaJsonLaws, MJ : !ManifestJson}.
Context (wf : Disk -> Prop) (obj : Disk -> string -> option bytes) (content : string -> bytes).
Context (config : MirrorConfig) (Hs : StoreLaws wf obj (target config)).

(** A manifest the engine may hold. *)
Record Mirrorable (m : Manifest) : Prop := {
  mb_wf : manifest_wf m;
  mb_data : Forall is_data (upload_paths m);
  mb_small p : to_pb m = Ok p -> Z.of_nat (length (pb_encode p)) < 2 ^ 32;
}.

(** The manifest of [version] is on the mirror; it is [m] unless one was there. *)
Definition Published (m : Manifest) (version : Z) (d0 d : Disk) : Prop :=
  is_Some (obj d (manifest_path version)) /\
  forall p, to_pb m = Ok p -> obj d0 (manifest_path version) = None -> obj d (manifest_path version) = Some (pb_frame p).

Lemma published_grows m version d0 d1 d : grows obj d1 d -> Published m version d0 d1 -> Published m version d0 d.
Proof.
  intros G [[b Hb] Hp].
  assert (Hg : forall c, obj d1 (manifest_path version) = Some c -> obj d (manifest_path version) = Some c).
  { intros c. apply G. intros E. by apply (low_water_not_manifest version). }
  split; [exists b; by apply Hg|]. intros p Ep Hn. by apply Hg, Hp.
Qed.

Lemma manifest_spec m version p d0 d1 : Mirrorable m -> to_pb m = Ok p -> Uploading wf obj content d0 d1 ->
  (forall f, f ∈ upload_paths m -> obj d1 f = Some (content f)) ->
  triple (eq d1) (put_if_absent (target config) (manifest_path version) (pb_frame p))
    (fun r d => Kept wf obj content d0 d /\ (uploaded r = Ok tt -> Published m version d0 d))
    (Kept wf obj content d0).
Proof.
  intros [Hwf Hdata Hsmall] Ep [HK1 HV] Hall.
  destruct (decode_to_protobuf m p Hwf Ep (Hsmall p Ep)) as (_ & _ & Ed).
  assert (Hserved : served obj content d1 (pb_frame p)).
  { exists (stored_manifest m). split; [done|]. rewrite upload_paths_stored. intros f Hf. split; [|by apply Hall]. rewrite Forall_forall in Hdata. by apply Hdata. }
  eapply triple_conseq; [apply (pia_law _ _ _ Hs), (mi_wf _ _ _ _ (proj1 HK1))|done|..].
  - intros r d [HA HR].
    assert (HC : created obj (manifest_path version) (pb_frame p) d1 d).
    { destruct r as [[]|[]|]; try done; [right|left]; apply HR. }
    pose proof (mirrored_manifest _ _ _ _ _ _ _ (proj1 HK1) Hserved HA HC) as HK.
    split; [by apply (kept_trans _ _ _ _ d1)|]. intros E.
    destruct r as [[]|[]|]; try done; destruct HR as [H1 H2].
    + split; [by rewrite H2|]. intros p' Ep' _. rewrite H2. congruence.
    + split; [by rewrite H2|]. intros p' _ Hn. rewrite <- HV, (eq_None_not_Some (obj d1 _)) in Hn. done.
  - intros d [HA HC]. apply (kept_trans _ _ _ _ d1); [done|]. by apply (mirrored_manifest _ _ _ _ _ _ _ (proj1 HK1) Hserved HA HC).
Qed.

Lemma head_spec m version d0 d1 : Kept wf obj content d0 d1 -> Published m version d0 d1 ->
  triple (eq d1) (put (target config) LOW_WATER_PATH (hint_bytes version))
    (fun r d => Kept wf obj content d0 d /\
       (r = Ok tt -> obj d LOW_WATER_PATH = Some (hint_bytes version) /\ Published m version d0 d))
    (Kept wf obj content d0).
Proof.
  intros HK1 HP. eapply triple_conseq; [apply (put_law _ _ _ Hs), (mi_wf _ _ _ _ (proj1 HK1))|done|..].
  - intros r d [HA HR].
    assert (HC : obj d LOW_WATER_PATH = obj d1 LOW_WATER_PATH \/ obj d LOW_WATER_PATH = Some (hint_bytes version)).
    { destruct r; [by right|done..]. }
    pose proof (mirrored_head _ _ _ _ _ _ (proj1 HK1) (proj1 HP) HA HC) as HK. split; [by apply (kept_trans _ _ _ _ d1)|].
    intros ->. split; [done|]. by apply (published_grows _ _ _ d1); [apply HK|].
  - intros d [HA HC]. apply (kept_trans _ _ _ _ d1); [done|]. by apply (mirrored_head _ _ _ _ _ _ (proj1 HK1) (proj1 HP) HA HC).
Qed.

Lemma mirror_snapshot_spec picks m version d0 : Mirrorable m -> Mirrored wf obj content d0 ->
  triple (eq d0) (mirror_snapshot config picks m version)
    (fun r d => Kept wf obj content d0 d /\
       (r = Ok tt -> obj d LOW_WATER_PATH = Some (hint_bytes version) /\ Published m version d0 d))
    (Kept wf obj content d0).
Proof.
  intros Hm HM. unfold mirror_snapshot.
  apply triple_try with (R := fun _ d => Uploading wf obj content d0 d /\ forall f, f ∈ upload_paths m -> obj d f = Some (content f)).
  { eapply triple_conseq; [apply (join_all_spec wf obj content); [done|apply Hm|lia|done]|done| |by intros d [? _]].
    intros r d [HK Hr]. destruct r; [done|by split; [apply HK|]|done]. }
  intros _. destruct (to_pb m) as [p|e|] eqn:Ep.
  2,3: eapply triple_try with (R := fun _ _ => False);
       [apply triple_ret; intros d [[? _] ?]; unfold to_protobuf; rewrite Ep; cbn; split; [done|discriminate]
       |by intros _ sched w []].
  replace (to_protobuf m) with (Ok (pb_frame p)) by (unfold to_protobuf; by rewrite Ep).
  change (io_try ?k (mret (Ok ?b))) with (k b). cbv beta.
  apply triple_at. intros d1 [HK1 Hall].
  eapply triple_bind; [by apply manifest_spec|].
  intros r. apply triple_try with (R := fun _ d => Kept wf obj content d0 d /\ Published m version d0 d).
  { apply triple_ret. intros d [HK Hr]. destruct (uploaded r) as [[]|e|]; [by auto|by split|by split]. }
  intros _. apply triple_at. intros d2 [HK2 HP]. by apply head_spec.
Qed.

Lemma mirror_snapshot_total picks m version p d0 :
  StoreLive wf (target config) -> Mirrorable m -> to_pb m = Ok p -> Mirrored wf obj content d0 ->
  (forall f, f ∈ upload_paths m -> is_Some (read_file d0 (split_path f))) ->
  total (eq d0) (mirror_snapshot config picks m version) (fun r _ => r = Ok tt).
Proof.
  intros HL [Hwf Hdata Hsmall] Ep HM HP. unfold mirror_snapshot.
  eapply total_try with (R := fun _ d => Uploading wf obj content d0 d).
  { eapply total_conseq; [|done|].
    - eapply total_keep; [apply (join_all_total wf obj content); [done..|apply HL|lia|done|done]|].
      apply (join_all_spec wf obj content); [done|done|lia|done].
    - intros r d (-> & HK & _). by exists tt. }
  intros _. apply total_at. intros d1 [HK1 _].
  replace (to_protobuf m) with (Ok (pb_frame p)) by (unfold to_protobuf; by rewrite Ep).
  change (io_try ?k (mret (Ok ?b))) with (k b). cbv beta.
  intros d <-. destruct (pia_live _ _ HL (manifest_path version) (pb_frame p) d1 (mi_wf _ _ _ _ (proj1 HK1))) as (d2 & r & Hr & Hu).
  assert (W2 : wf d2).
  { destruct (Hr 0%nat) as [n E].
    pose proof (pia_law _ _ _ Hs (manifest_path version) (pb_frame p) d1 (mi_wf _ _ _ _ (proj1 HK1))
      (fun _ => NoFault) {| w_disk := d1; w_tick := 0 |} eq_refl) as H. rewrite E in H. apply H. }
  destruct (put_live _ _ HL LOW_WATER_PATH (hint_bytes version) d2 W2) as (d3 & H3).
  exists d3, (Ok tt). split; [|done]. eapply runs_bind; [exact Hr|]. cbv beta. rewrite Hu. eapply runs_try; [apply runs_ret|done].
Qed.

(** What happens to a mirror: a turn of the worker, under any faults; the
    process stopping within one, and starting again; the engine writing and
    removing local files. *)
Inductive mirror_step : MirrorWorker * Disk -> MirrorWorker * Disk -> Prop :=
  | step_tick sched n n' picks current m now w w' d d' :
      Mirrorable m ->
      mirror_tick config picks current m now w sched {| w_disk := d; w_tick := n |}
        = ({| w_disk := d'; w_tick := n' |}, Val w') ->
      mirror_step (w, d) (w', d')
  | step_stop sched n n' picks current m now w d d' :
      Mirrorable m ->
      mirror_tick config picks current m now w sched {| w_disk := d; w_tick := n |}
        = ({| w_disk := d'; w_tick := n' |}, Stopped) ->
      mirror_step (w, d) (worker_spawn, d')
  | step_engine w d d' :
      wf d' -> (forall p, obj d' p = obj d p) ->
      (forall f b, is_data f -> read_file d' (split_path f) = Some b -> b = content f) ->
      mirror_step (w, d) (w, d').

Record MirrorInv (d0 : Disk) (s : MirrorWorker * Disk) : Prop := {
  mv_mirror : Mirrored wf obj content s.2;
  mv_grows : grows obj d0 s.2;
  mv_seq : 0 < mirror_seq s.1 -> is_Some (obj s.2 (manifest_path (mirror_seq s.1)));
}.

Lemma seq_grows d d' v : grows obj d d' -> is_Some (obj d (manifest_path v)) -> is_Some (obj d' (manifest_path v)).
Proof. intros G [b Hb]. exists b. apply G; [|done]. intros E. by apply (low_water_not_manifest v). Qed.

Lemma mirror_tick_spec picks current m now w d0 : Mirrorable m -> Mirrored wf obj content d0 ->
  triple (eq d0) (mirror_tick config picks current m now w)
    (fun w' d => Kept wf obj content d0 d /\
       (w' = w \/ mirror_seq w' = current /\ is_Some (obj d (manifest_path current))))
    (Kept wf obj content d0).
Proof.
  intros Hm HM. unfold mirror_tick. destruct ((last_uploaded w <? current) && (0 <? current)).
  2:{ apply triple_ret. intros d <-. split; [by apply kept_refl|by left]. }
  eapply triple_bind; [by apply mirror_snapshot_spec|]. intros r. apply triple_ret. intros d [HK Hr].
  split; [done|]. destruct r as [[]|e|]; [right|by left..]. split; [done|]. by apply Hr.
Qed.

Lemma mirror_step_inv d0 s s' : mirror_step s s' -> MirrorInv d0 s -> MirrorInv d0 s'.
Proof.
  intros Hstep [HM HG HV]. destruct Hstep as
    [sched n n' picks current m now w w' d d' Hm E|sched n n' picks current m now w d d' Hm E|w d d' W O L];
    cbn [fst snd] in *.
  - pose proof (mirror_tick_spec picks current m now w d Hm HM sched {| w_disk := d; w_tick := n |} eq_refl) as H.
    rewrite E in H. destruct H as [(HM' & G & _) Hw]. cbn in HM', G, Hw. split; [done|by eapply grows_trans|]. cbn [fst snd].
    intros Hp. destruct Hw as [->|[-> ?]]; [|done]. eapply seq_grows; [exact G|auto].
  - pose proof (mirror_tick_spec picks current m now w d Hm HM sched {| w_disk := d; w_tick := n |} eq_refl) as H.
    rewrite E in H. destruct H as (HM' & G & _). split; [done|by eapply grows_trans|]. cbn. lia.
  - assert (G : grows obj d d') by (intros f b _; by rewrite O).
    split; cbn [fst snd]; [|by eapply grows_trans|rewrite O; auto].
    destruct HM as [W0 L0 D0 M0 H0]. split; [done|exact L|intros f b; rewrite O; apply D0| |].
    + intros v data. rewrite O. intros Hv. apply (served_grows obj content d); [exact G|by eapply M0].
    + intros b. rewrite O. intros (v & -> & Hv)%H0. exists v. by rewrite O.
Qed.
End worker.

(** C31. A mirror whose store creates objects in one step never shows a manifest
    whose files are missing.  What is asked of the store is [StoreLaws]: an
    upload that fails or is cut leaves no object or the whole one.  An object
    store's conditional put promises this; [LocalFileStore::put_if_absent] of
    [store/local.rs], which creates the file and then writes it, does not
    ([torn_upload_published] shows what follows).  Starting from a mirror with
    that property (an empty one, say), after any sequence of turns of the worker, under any schedule of the upload tasks and any
    failures, of crashes and restarts in the middle of a turn, and of changes
    the engine makes to its own files: every manifest on the mirror decodes,
    and every data file and deletion vector it names is there with the
    engine's content; the low-water pointer, when there is one, names such a
    manifest, and so does the worker's [mirror_seq]; and no object but the
    pointer is ever changed or removed. *)
Theorem mirror_never_dangles
    `{PR : !Prost, PL : !ProstLaws, SJ : !SchemaJson, SL : !SchemaJsonLaws, MJ : !ManifestJson}
    wf obj content config d0 w d :
  StoreLaws wf obj (target config) ->
  Mirrored wf obj content d0 ->
  rtc (mirror_step wf obj content config) (worker_spawn, d0) (w, d) ->
  (forall v data, obj d (manifest_path v) = Some data ->
     exists m, decode_manifest data = Ok m /\
       forall f, f ∈ upload_paths m -> obj d f = Some (content f)) /\
  (forall b, obj d LOW_WATER_PATH = Some b ->
     exists v, b = hint_bytes v /\ is_Some (obj d (manifest_path v))) /\
  (0 < mirror_seq w -> is_Some (obj d (manifest_path (mirror_seq w)))) /\
  (forall f b, f <> LOW_WATER_PATH -> obj d0 f = Some b -> obj d f = Some b).
Proof.
  intros Hs HM Hsteps.
  assert (Hinv : MirrorInv wf obj content d0 (w, d)).
  { eapply (rtc_ind_r (fun s => MirrorInv wf obj content d0 s)); [| |exact Hsteps].
    - split; cbn; [done|by intros f b|lia].
    - intros s s' _ Hst IH. by eapply mirror_step_inv. }
  destruct Hinv as [HM' G HV]. split; [|by split; [apply HM'|split; [apply HV|apply G]]].
  intros v data (m & E & Hm)%(mi_manifest _ _ _ _ HM'). exists m. split; [done|]. intros f Hf. by apply Hm.
Qed.

(** C32. A turn of the worker catches up.  When no call fails, every file of
    the manifest is in the catalog directory and the snapshot the turn sees
    is new, then whatever the order in which the upload tasks run and
    whatever the configured parallelism, zero included, the turn ends, with
    a manifest of that snapshot (the engine's as its messages carry it, unless
    one was there), all its files and the low-water pointer on the mirror, and
    [mirror_seq] at it.  ([Mirrorable]: the manifest can be written as protobuf,
    with a schema without floating-point defaults.) *)
Theorem mirror_tick_catches_up
    `{PR : !Prost, PL : !ProstLaws, SJ : !SchemaJson, SL : !SchemaJsonLaws, MJ : !ManifestJson}
    wf obj content config picks current m p now w d :
  StoreLaws wf obj (target config) -> StoreLive wf (target config) ->
  Mirrorable m -> to_pb m = Ok p -> Mirrored wf obj content d ->
  (forall f, f ∈ upload_paths m -> is_Some (read_file d (split_path f))) ->
  last_uploaded w < current -> 0 < current ->
  exists d' w', runs (mirror_tick config picks current m now w) d d' w' /\
    mirror_seq w' = current /\ last_uploaded w' = current /\ mirror_lag_secs now w' = (if now =? 0 then None else Some 0) /\
    obj d' LOW_WATER_PATH = Some (hint_bytes current) /\
    exists data m', obj d' (manifest_path current) = Some data /\ decode_manifest data = Ok m' /\
      (obj d (manifest_path current) = None -> m' = stored_manifest m) /\
      forall f, f ∈ upload_paths m' -> obj d' f = Some (content f).
Proof.
  intros Hs HL Hm Ep HM HP Hlt Hpos. unfold mirror_tick.
  rewrite (proj2 (Z.ltb_lt _ _) Hlt), (proj2 (Z.ltb_lt _ _) Hpos). cbn [andb].
  destruct (total_keep d _ _ _ _
    (mirror_snapshot_total wf obj content config Hs picks m current p d HL Hm Ep HM HP)
    (mirror_snapshot_spec wf obj content config Hs picks m current d Hm HM) d eq_refl)
    as (d' & r & Hr & -> & HK & Hend).
  destruct (Hend eq_refl) as [Hlow [[data Hdata] Hpub]].
  eexists d', _. split; [eapply runs_bind; [exact Hr|apply runs_ret]|]. cbn. split_and!; [done..| |done|].
  { unfold mirror_lag_secs. cbn. rewrite Z.sub_diag. done. }
  destruct (mi_manifest _ _ _ _ (proj1 HK) current data Hdata) as (m' & E & Hm').
  exists data, m'. split_and!; [done..| |].
  - intros Hn. specialize (Hpub p Ep Hn). rewrite Hdata in Hpub. injection Hpub as ->.
    destruct (decode_to_protobuf m p (mb_wf _ Hm) Ep (mb_small _ Hm p Ep)) as (_ & _ & Ed). congruence.
  - intros f Hf. by apply Hm'.
Qed.

(** ** A store that keeps the promises

    Objects under one directory, each operation one step. *)
Section bucket.
Context (root : string).

Definition bucket_store : MeruStore := {|
  put p b := syscall (fun d => (write_file (root, p) b d, Ok tt)) (fun _ d => (d, Err (ObjectStore "put")));
  get p := io_read (root, p);
  get_range p o l := b <-? io_read (root, p); mret (slice b o l);
  remove p := _ <-? io_unlink (root, p); mret (Ok tt);
  has p := there ← io_exists (root, p); mret (Ok there);
  put_if_absent p b :=
    syscall (fun d => match lookup_path d (root, p) with
                      | Some _ => (d, Err (AlreadyExists p))
                      | None => (write_file (root, p) b d, Ok tt)
                      end) (fun _ d => (d, Err (ObjectStore "put")));
|}.

Definition bucket_obj (d : Disk) (p : string) : option bytes := read_file d (root, p).
Definition no_links : Disk -> Prop := tidy (fun _ => False).

Lemma read_write_other x y b d : no_links d -> y <> x -> read_file (write_file x b d) y = read_file d y.
Proof.
  intros T Hn. unfold read_file. rewrite lookup_write_other by done.
  destruct (lookup_path d y) as [j|] eqn:Ej; [|done]. cbn.
  assert (Hy : poss d y (Some j)) by (rewrite <- Ej; apply poss_current).
  destruct (write_file_spec x b d) as (i & _ & -> & [(Ei & _)|(_ & -> & _)]).
  - rewrite lookup_insert_ne; [done|]. intros ->. apply Hn.
    assert (Hx : poss d x (Some j)) by (rewrite <- Ei; apply poss_current).
    by destruct (tidy_share _ _ T y x j Hy Hx) as [?|[]].
  - rewrite lookup_insert_ne; [done|]. destruct (tidy_ino _ _ T y j Hy). lia.
Qed.

Lemma read_write_same x b d : read_file (write_file x b d) x = Some b.
Proof. destruct (written_write x b d) as (i & Hl & Hi). unfold read_file. rewrite Hl. cbn. by rewrite Hi. Qed.

Lemma read_None d x : no_links d -> lookup_path d x = None <-> read_file d x = None.
Proof.
  intros T. unfold read_file. destruct (lookup_path d x) as [i|] eqn:E; [|done]. cbn.
  assert (Hx : poss d x (Some i)) by (rewrite <- E; apply poss_current).
  destruct (tidy_ino _ _ T x i Hx) as [_ [f ->]]. done.
Qed.

Lemma data_dir f : is_data f -> exists r, list_ascii_of_string (split_path f).1 = "d"%char :: r.
Proof.
  intros [r ->]. unfold split_path. change (list_ascii_of_string (String.append "data/" r)) with
    (list_ascii_of_string "data" ++ slash :: list_ascii_of_string r).
  pose proof (rsplit_elem slash (list_ascii_of_string "data" ++ slash :: list_ascii_of_string r)) as H.
  destruct (rsplit _ _) as [[a b]|]; cbn [fst].
  - destruct H as [E _]. rewrite list_ascii_of_string_of_list_ascii. destruct a as [|x a]; cbn in E; [discriminate|].
    injection E as <- _. eauto.
  - exfalso. apply H. rewrite elem_of_app. right. by left.
Qed.

Context (Hroot : forall r, list_ascii_of_string root <> "d"%char :: r).

Lemma data_apart f p : is_data f -> split_path f <> (root, p).
Proof. intros (r & E)%data_dir Hf. rewrite Hf in E. by apply (Hroot r). Qed.

Lemma bucket_apart p b d : no_links d -> apart no_links bucket_obj p d (write_file (root, p) b d).
Proof.
  intros T. split; [by apply tidy_write| |].
  - intros q Hq. apply read_write_other; [done|]. congruence.
  - intros f Hf. apply read_write_other; [done|by apply data_apart].
Qed.

Lemma bucket_laws : StoreLaws no_links bucket_obj bucket_store.
Proof.
  split.
  - intros p b d0 T. apply triple_syscall.
    + intros d <-. split; [by split|by left].
    + intros d <-. destruct (lookup_path d0 (root, p)) as [i|] eqn:E; cbn [fst snd].
      * split; [by split|]. split; [|done]. unfold bucket_obj.
        destruct (read_file d0 (root, p)) eqn:Er; [by eexists|]. apply (read_None _ _ T) in Er. congruence.
      * split; [by apply bucket_apart|]. split; [by apply (read_None d0 (root, p) T)|apply read_write_same].
    + intros d _ <-. cbn. split; [by split|by left].
  - intros p b d0 T. apply triple_syscall.
    + intros d <-. split; [by split|by left].
    + intros d <-. cbn. split; [by apply bucket_apart|apply read_write_same].
    + intros d _ <-. cbn. split; [by split|by left].
Qed.

Lemma bucket_live : StoreLive no_links bucket_store.
Proof.
  split.
  - intros p b d _. destruct (lookup_path d (root, p)) eqn:E; eexists _, _;
      (split; [apply runs_syscall; by rewrite E|done]).
  - intros p b d _. eexists. by apply runs_syscall.
Qed.
End bucket.

(** ** Examples *)
Definition ex_mirror_disk : Disk :=
  write_file ("data", "v")%string [Byte.x03]
    (write_file ("data", "b")%string [Byte.x02] (write_file ("data", "a")%string [Byte.x01] ex_disk0)).

Definition ex_mirror_content (f : string) : bytes := default [] (read_file ex_mirror_disk (split_path f)).

Definition ex_mirror_manifest : Manifest :=
  {| format_version := 3; table_uuid := "u"; last_updated_ms := 5; m_snapshot_id := 7;
     parent_snapshot_id := Some 6; sequence_number := 7; next_row_id := 20; m_first_row_id := 0;
     m_schema := ex_schema;
     m_entries := [ex_entry (ex_file "data/a" 1 1 3 [b0] [bFF] 10) "existing" None;
                   stamp_dv {| loc_path := "data/v"; loc_offset := 4; loc_length := 40 |}
                     (ex_entry (ex_file "data/b" 0 4 5 [b0] [bFF] 10) "added" (Some 0));
                   ex_entry (ex_file "data/gone" 0 4 5 [b0] [bFF] 10) "deleted" (Some 10)];
     properties := ∅ |}.

Definition ex_mirror_config : MirrorConfig :=
  {| target := bucket_store "bucket"; max_lag_alert_secs := 60; mirror_parallelism := 0 |}.

Lemma bucket_not_data : forall r, list_ascii_of_string "bucket" <> "d"%char :: r.
Proof. discriminate. Qed.

Lemma ex_mirror_tidy : no_links ex_mirror_disk.
Proof.
  repeat apply tidy_write.
  assert (N : forall p i, ~ poss ex_disk0 p (Some i)).
  { intros p i (l & Hl & Ho). unfold dir_at, ex_disk0 in *. cbn [dirs] in *. rewrite lookup_empty in *.
    cbn in *. by apply sublist_nil_r in Hl as ->. }
  split; intros p *; [by intros ?%N|by intros ?%N].
Qed.

Lemma ex_mirror_empty p : bucket_obj "bucket" ex_mirror_disk p = None.
Proof. apply read_None; [exact ex_mirror_tidy|]. unfold ex_mirror_disk. by rewrite !lookup_write_other. Qed.

Lemma ex_mirrored : Mirrored no_links (bucket_obj "bucket") ex_mirror_content ex_mirror_disk.
Proof.
  split.
  - exact ex_mirror_tidy.
  - intros f b _ Hf. unfold ex_mirror_content. by rewrite Hf.
  - intros f b _. by rewrite ex_mirror_empty.
  - intros v data. by rewrite ex_mirror_empty.
  - intros b. by rewrite ex_mirror_empty.
Qed.

Lemma ex_mirrorable : Mirrorable ex_mirror_manifest.
Proof.
  split.
  - split; [unfold in_i; cbn; lia|vm_compute; repeat constructor| |split; reflexivity].
    repeat (apply Forall_cons; split;
      [unfold entry_wf, in_u; cbn; split_and!; try lia; try reflexivity; tauto|]). constructor.
  - repeat (apply Forall_cons; split; [by eexists|]). constructor.
  - intros p Hp. vm_compute in Hp. injection Hp as <-. vm_compute. reflexivity.
Qed.

Lemma ex_mirror_present f : f ∈ upload_paths ex_mirror_manifest -> is_Some (read_file ex_mirror_disk (split_path f)).
Proof.
  intros Hf. assert (f = "data/a" \/ f = "data/b" \/ f = "data/v")%string as Hc by set_solver.
  destruct Hc as [->|[->| ->]]; vm_compute; by eexists.
Qed.

(** With no parallelism configured and the tasks advanced out of order. *)
Lemma mirror_tick_catches_up_witness :
  exists d' w', runs (mirror_tick ex_mirror_config [2; 0; 2; 1]%nat 7 ex_mirror_manifest 100 worker_spawn) ex_mirror_disk d' w' /\
    mirror_seq w' = 7 /\ bucket_obj "bucket" d' LOW_WATER_PATH = Some (hint_bytes 7).
Proof.
  destruct (to_pb ex_mirror_manifest) as [p|e|] eqn:Ep; [|exfalso; vm_compute in Ep; discriminate Ep..].
  destruct (mirror_tick_catches_up no_links (bucket_obj "bucket") ex_mirror_content ex_mirror_config [2; 0; 2; 1]%nat 7
    ex_mirror_manifest p 100 worker_spawn ex_mirror_disk) as (d' & w' & Hr & Hs & _ & _ & Hl & _);
    [by apply bucket_laws, bucket_not_data|apply bucket_live|apply ex_mirrorable|exact Ep|apply ex_mirrored
    |apply ex_mirror_present|reflexivity|reflexivity|].
  exists d', w'. done.
Defined.

Lemma mirror_never_dangles_witness :
  exists d w, rtc (mirror_step no_links (bucket_obj "bucket") ex_mirror_content ex_mirror_config)
      (worker_spawn, ex_mirror_disk) (w, d) /\
    0 < mirror_seq w /\ is_Some (bucket_obj "bucket" d (manifest_path (mirror_seq w))).
Proof.
  destruct (mirror_tick ex_mirror_config [2; 0; 2; 1]%nat 7 ex_mirror_manifest 100 worker_spawn (fun _ => NoFault)
    {| w_disk := ex_mirror_disk; w_tick := 0 |}) as [[d n] o] eqn:E.
  assert (Ho : match o with Val w => mirror_seq w | Stopped => 0 end = 7).
  { change o with ((({| w_disk := d; w_tick := n |}, o) : world * outcome MirrorWorker).2). rewrite <- E. vm_compute. reflexivity. }
  destruct o as [w|]; [|discriminate Ho].
  assert (Hsteps : rtc (mirror_step no_links (bucket_obj "bucket") ex_mirror_content ex_mirror_config)
      (worker_spawn, ex_mirror_disk) (w, d)).
  { apply rtc_once. eapply step_tick; [exact ex_mirrorable|exact E]. }
  exists d, w. split; [exact Hsteps|]. split; [rewrite Ho; reflexivity|].
  apply (mirror_never_dangles no_links (bucket_obj "bucket") ex_mirror_content ex_mirror_config ex_mirror_disk w d);
    [by apply bucket_laws, bucket_not_data|exact ex_mirrored|exact Hsteps|rewrite Ho; reflexivity].
Defined.

(** ** Where the local store falls short *)
Definition ex_local_config : MirrorConfig :=
  {| target := LocalFileStore "m" 1 0; max_lag_alert_secs := 60; mirror_parallelism := 1 |}.

Definition fails_with (k : nat) (junk : bytes) (n : nat) : fault := if (n =? k)%nat then Fails junk else NoFault.

(** On a mirror kept in a [LocalFileStore], an upload that fails half way
    is published.  When writing the copy of a data file fails and leaves
    [junk] behind, the turn reports the failure and will be retried; the
    retry finds that the name exists, takes the copy for complete, and
    publishes the manifest and the low-water pointer: a reader of the mirror
    then reads [junk] for the file, from then on. *)
Theorem torn_upload_published (junk : bytes) :
  let turn sched w :=
    mirror_tick ex_local_config [] 7 ex_mirror_manifest 100 worker_spawn sched w in
  let failed := turn (fails_with 3 junk) {| w_disk := ex_mirror_disk; w_tick := 0 |} in
  let retried := turn (fun _ => NoFault) failed.1 in
  let d := w_disk retried.1 in
  failed.2 = Val worker_spawn /\
  retried.2 = Val {| last_uploaded := 7; mirror_seq := 7; last_upload_unix_secs := 100 |} /\
  read_file d (full_path "m" LOW_WATER_PATH) = Some (hint_bytes 7) /\
  to_protobuf ex_mirror_manifest = from_option Ok Panic (read_file d (full_path "m" (manifest_path 7))) /\
  read_file d (split_path "data/a") = Some [Byte.x01] /\
  read_file d (full_path "m" "data/a") = Some junk.
Proof. vm_compute. tauto. Qed.
