(* ===== verification/AwaitMirror.v ===== *)
(** * Waiting for the mirror

    [MeruDB::await_mirror] of [src/crates/merutable/src/db.rs] against the
    worker's loop of [src/crates/merutable/src/mirror.rs] and
    [MeruDB::close]: a caller that waits until the mirror has reached the
    snapshot it saw, the worker that uploads and then notifies, and the
    engine's commits, as one machine whose steps interleave at the [await]s
    and the accesses to shared atomics.  Whether an upload succeeds is left
    open; what it does is [Mirror].  tokio's [Notify] is the interface
    [Notify]; its [notify_one] only makes a turn of the worker happen earlier,
    and turns may happen at any time here. *)

From S2P Require Import Prelude Mirror.
Local Open Scope Z_scope.

(** ** [tokio::sync::Notify]

    [notified] registers a waiter; [notify_waiters] wakes the waiters that
    are registered, and leaves nothing behind for later ones. *)
Class Notify := {
  nstate : Type;
  ticket : Type;
  notified : nstate -> nstate * ticket;
  notify_waiters : nstate -> nstate;
  woken : nstate -> ticket -> bool;
  registered : nstate -> ticket -> Prop;
}.

Class NotifyLaws `{!Notify} := {
  notified_pending n : woken (notified n).1 (notified n).2 = false;
  notified_registered n : registered (notified n).1 (notified n).2;
  waiters_woken n t : registered n t -> woken (notify_waiters n) t = true;
  waiters_stay n t : registered n t -> registered (notify_waiters n) t;
}.

Section await.
Context `{!Notify}.

(** Where the worker is in its loop. *)
Inductive WorkerAt : Type :=
  | LoopTop
  | Uploading (current : Z)
  | SeqStored
  | Exited.

(** Where the caller is in [await_mirror]. *)
Inductive WaiterAt : Type :=
  | Start
  | LockWorker (target : Z)
  | LoadSeq (target : Z)
  | CheckClosed (target : Z)
  | Register (target : Z)
  | Kick (target : Z) (t : ticket)
  | Parked (target : Z) (t : ticket)
  | Returned (target : Z) (r : res Z).

Record Await : Type := {
  aw_snapshot : Z;
  aw_closed : bool;
  aw_shutdown : bool;
  aw_worker : WorkerAt;
  aw_state : MirrorWorker;
  aw_advanced : nstate;
  aw_waiter : WaiterAt;
}.

Definition with_worker (at_ : WorkerAt) (a : Await) : Await :=
  {| aw_snapshot := aw_snapshot a; aw_closed := aw_closed a; aw_shutdown := aw_shutdown a; aw_worker := at_;
     aw_state := aw_state a; aw_advanced := aw_advanced a; aw_waiter := aw_waiter a |}.

Definition with_state (w : MirrorWorker) (a : Await) : Await :=
  {| aw_snapshot := aw_snapshot a; aw_closed := aw_closed a; aw_shutdown := aw_shutdown a; aw_worker := aw_worker a;
     aw_state := w; aw_advanced := aw_advanced a; aw_waiter := aw_waiter a |}.

Definition with_advanced (n : nstate) (a : Await) : Await :=
  {| aw_snapshot := aw_snapshot a; aw_closed := aw_closed a; aw_shutdown := aw_shutdown a; aw_worker := aw_worker a;
     aw_state := aw_state a; aw_advanced := n; aw_waiter := aw_waiter a |}.

Definition with_waiter (w : WaiterAt) (a : Await) : Await :=
  {| aw_snapshot := aw_snapshot a; aw_closed := aw_closed a; aw_shutdown := aw_shutdown a; aw_worker := aw_worker a;
     aw_state := aw_state a; aw_advanced := aw_advanced a; aw_waiter := w |}.

Definition with_engine (snapshot : Z) (closed shutdown : bool) (a : Await) : Await :=
  {| aw_snapshot := snapshot; aw_closed := closed; aw_shutdown := shutdown; aw_worker := aw_worker a;
     aw_state := aw_state a; aw_advanced := aw_advanced a; aw_waiter := aw_waiter a |}.

(** One step of the caller. *)
Definition await_mirror (a : Await) : option Await :=
  match aw_waiter a with
  | Start =>
      let target := aw_snapshot a in
      Some (with_waiter (if target <=? 0 then Returned target (Ok 0) else LockWorker target) a)
  | LockWorker target =>
      Some (with_waiter (if aw_shutdown a then Returned target (Err (InvalidArgument "no mirror configured"))
                         else LoadSeq target) a)
  | LoadSeq target =>
      let current := mirror_seq (aw_state a) in
      Some (with_waiter (if target <=? current then Returned target (Ok current) else CheckClosed target) a)
  | CheckClosed target =>
      Some (with_waiter (if aw_closed a then Returned target (Err Closed) else Register target) a)
  | Register target =>
      let '(n, t) := notified (aw_advanced a) in Some (with_waiter (Kick target t) (with_advanced n a))
  | Kick target t => Some (with_waiter (Parked target t) a)
  | Parked target t => if woken (aw_advanced a) t then Some (with_waiter (LoadSeq target) a) else None
  | Returned _ _ => None
  end.

(** The top of the worker's loop. *)
Definition loop_top (a : Await) : option Await :=
  match aw_worker a with
  | LoopTop =>
      if aw_shutdown a then Some (with_worker Exited a)
      else
        let current := aw_snapshot a in
        if (last_uploaded (aw_state a) <? current) && (0 <? current) then Some (with_worker (Uploading current) a)
        else Some a
  | _ => None
  end.

(** [mirror_snapshot] has returned. *)
Definition upload_returns (ok : bool) (now : Z) (a : Await) : option Await :=
  match aw_worker a with
  | Uploading current =>
      if ok then
        Some (with_worker SeqStored
          (with_state {| last_uploaded := current; mirror_seq := current; last_upload_unix_secs := now |} a))
      else Some (with_worker LoopTop a)
  | _ => None
  end.

Definition notify_advanced (a : Await) : option Await :=
  match aw_worker a with
  | SeqStored => Some (with_worker LoopTop (with_advanced (notify_waiters (aw_advanced a)) a))
  | _ => None
  end.

Inductive Event : Type :=
  | Commits
  | ClosesMirror
  | ClosesEngine
  | WorkerLoops
  | UploadReturns (ok : bool) (now : Z)
  | Notifies
  | CallerSteps.

(** [close] takes the worker and signals it, waits for it to exit, then
    closes the engine. *)
Definition await_step (e : Event) (a : Await) : option Await :=
  match e with
  | Commits => if aw_closed a then None else Some (with_engine (aw_snapshot a + 1) (aw_closed a) (aw_shutdown a) a)
  | ClosesMirror => Some (with_engine (aw_snapshot a) (aw_closed a) true a)
  | ClosesEngine =>
      match aw_worker a with
      | Exited => Some (with_engine (aw_snapshot a) true (aw_shutdown a) a)
      | _ => None
      end
  | WorkerLoops => loop_top a
  | UploadReturns ok now => upload_returns ok now a
  | Notifies => notify_advanced a
  | CallerSteps => await_mirror a
  end.

(** A sequence of events; an event that cannot happen is skipped. *)
Definition await_run (es : list Event) (a : Await) : Await :=
  fold_left (fun a e => default a (await_step e a)) es a.

Definition await_init (snapshot : Z) (n : nstate) : Await :=
  {| aw_snapshot := snapshot; aw_closed := false; aw_shutdown := false; aw_worker := LoopTop;
     aw_state := worker_spawn; aw_advanced := n; aw_waiter := Start |}.
End await.

Section await_proofs.
Context `{!Notify}.

Lemma await_run_cons e es a : await_run (e :: es) a = await_run es (default a (await_step e a)).
Proof. done. Qed.

(** What every step keeps, every run keeps. *)
Lemma await_run_inv (I : Await -> Prop) (P : Event -> Prop) es a :
  (forall e a a', P e -> I a -> await_step e a = Some a' -> I a') ->
  Forall P es -> I a -> I (await_run es a).
Proof.
  intros Hstep HP. revert a. induction HP as [|e es He _ IH]; intros a Ha; [done|].
  rewrite await_run_cons. apply IH. destruct (await_step e a) as [a'|] eqn:E; [by eapply Hstep|done].
Qed.

(** *** What the caller is told *)
Record AwaitInv (a : Await) : Prop := {
  ai_seq : last_uploaded (aw_state a) = mirror_seq (aw_state a);
  ai_up c : aw_worker a = Uploading c -> mirror_seq (aw_state a) < c;
  ai_ret t c : aw_waiter a = Returned t (Ok c) -> t <= 0 /\ c = 0 \/ t <= c <= mirror_seq (aw_state a);
}.

Lemma await_step_inv e a a' : AwaitInv a -> await_step e a = Some a' -> AwaitInv a'.
Proof.
  intros [S U R] E. destruct e as [| | | |ok now| |]; cbn in E.
  - destruct (aw_closed a); [done|]. injection E as <-. by split.
  - injection E as <-. by split.
  - destruct (aw_worker a) eqn:Ew; try done. injection E as <-. split; cbn; [done|by rewrite Ew|done].
  - unfold loop_top in E. destruct (aw_worker a) eqn:Ew; try done. destruct (aw_shutdown a).
    { injection E as <-. by split. }
    destruct ((last_uploaded (aw_state a) <? aw_snapshot a) && (0 <? aw_snapshot a)) eqn:Ec; injection E as <-.
    + split; cbn; [done| |done]. intros c [= <-]. apply andb_true_iff in Ec as [Ec _]. lia.
    + split; [done|by rewrite Ew|done].
  - unfold upload_returns in E. destruct (aw_worker a) as [|c| |] eqn:Ew; try done. specialize (U c eq_refl).
    destruct ok; injection E as <-; [|by split]. split; cbn; [done..|]. intros t x Hx. destruct (R t x Hx); lia.
  - unfold notify_advanced in E. destruct (aw_worker a); try done. injection E as <-. by split.
  - unfold await_mirror in E. destruct (aw_waiter a) as [|t|t|t|t|t k|t k|t r] eqn:Ew; [..|done].
    + injection E as <-. split; cbn; [done..|]. intros t c. destruct (Z.leb_spec (aw_snapshot a) 0); [|done].
      intros [= <- <-]. by left.
    + injection E as <-. split; cbn; [done..|]. intros t' c. by destruct (aw_shutdown a).
    + injection E as <-. split; cbn; [done..|]. intros t' c. destruct (Z.leb_spec t (mirror_seq (aw_state a))); [|done].
      intros [= <- <-]. right. lia.
    + injection E as <-. split; cbn; [done..|]. intros t' c. by destruct (aw_closed a).
    + destruct (notified (aw_advanced a)) as [n k]. injection E as <-. by split.
    + injection E as <-. by split.
    + destruct (woken (aw_advanced a) k); [|done]. injection E as <-. by split.
Qed.

(** *** The lost wake-up *)

(** The caller waits for a notification although the mirror is where it asked. *)
Record Lost (s : Z) (t : ticket) (a : Await) : Prop := {
  lo_waiter : aw_waiter a = Parked s t;
  lo_pending : woken (aw_advanced a) t = false;
  lo_snapshot : aw_snapshot a = s;
  lo_mirrored : last_uploaded (aw_state a) = s /\ mirror_seq (aw_state a) = s;
  lo_worker : aw_worker a = LoopTop \/ aw_worker a = Exited;
}.

Lemma lost_step s t e a a' : e <> Commits -> Lost s t a -> await_step e a = Some a' -> Lost s t a'.
Proof.
  intros He [Hw Hp Hs [Hl Hm] Hk] E. destruct e as [| | | |ok now| |]; cbn in E; [done|..].
  - injection E as <-. by split.
  - destruct Hk as [Hk|Hk]; rewrite Hk in E; [done|]. injection E as <-. split; cbn; auto.
  - unfold loop_top in E. destruct Hk as [Hk|Hk]; rewrite Hk in E; [|done]. destruct (aw_shutdown a).
    { injection E as <-. split; cbn; auto. }
    rewrite Hs, Hl, Z.ltb_irrefl in E. injection E as <-. split; auto.
  - unfold upload_returns in E. by destruct Hk as [Hk|Hk]; rewrite Hk in E.
  - unfold notify_advanced in E. by destruct Hk as [Hk|Hk]; rewrite Hk in E.
  - unfold await_mirror in E. by rewrite Hw, Hp in E.
Qed.
End await_proofs.

(** C34. When [await_mirror] returns [Ok c], the mirror had reached the
    snapshot that was current when it was called: [c] is at least that
    snapshot, and one the worker has uploaded (or there was no snapshot and
    [c] is zero), in every interleaving of the caller, the worker, commits
    and [close]. *)
Theorem await_mirror_returns_mirrored `{NF : !Notify} s n es t c :
  aw_waiter (await_run es (await_init s n)) = Returned t (Ok c) ->
  t <= 0 /\ c = 0 \/ t <= c <= mirror_seq (aw_state (await_run es (await_init s n))).
Proof.
  intros H. apply (ai_ret (await_run es (await_init s n))); [|done].
  apply (await_run_inv AwaitInv (fun _ => True)).
  - intros e a a' _. apply await_step_inv.
  - by apply Forall_forall.
  - by split.
Qed.

(** [await_mirror] can wait for ever for a mirror that is up to date.  If
    the worker uploads the snapshot between the caller's load of [mirror_seq]
    and its registration with [mirror_advanced], the notification is missed:
    the caller then waits with the mirror at the snapshot it asked for, and
    whatever the worker does from then on, without another commit the caller
    is never woken, not even by [close], which its documentation promises to
    end the wait with [Closed]. *)
Theorem await_mirror_lost_wakeup `{NF : !Notify, NL : !NotifyLaws} s n : 0 < s ->
  exists es t, let a := await_run es (await_init s n) in
    aw_waiter a = Parked s t /\ mirror_seq (aw_state a) = s /\ aw_snapshot a = s /\ aw_closed a = false /\
    (forall es', Commits ∉ es' -> aw_waiter (await_run es' a) = Parked s t) /\
    aw_closed (await_run [ClosesMirror; WorkerLoops; ClosesEngine] a) = true.
Proof.
  intros Hs.
  exists [CallerSteps; CallerSteps; CallerSteps; CallerSteps; WorkerLoops; UploadReturns true 0; Notifies; CallerSteps; CallerSteps],
    (notified (notify_waiters n)).2.
  assert (E : exists a, await_run [CallerSteps; CallerSteps; CallerSteps; CallerSteps; WorkerLoops; UploadReturns true 0; Notifies;
      CallerSteps; CallerSteps] (await_init s n) = a /\ Lost s (notified (notify_waiters n)).2 a /\
      aw_closed a = false /\ aw_worker a = LoopTop).
  { eexists. split; [reflexivity|]. cbn. rewrite (proj2 (Z.leb_gt s 0) Hs). cbn. rewrite (proj2 (Z.leb_gt s 0) Hs). cbn.
    rewrite (proj2 (Z.ltb_lt 0 s) Hs). cbn. pose proof (notified_pending (notify_waiters n)) as Hp.
    destruct (notified (notify_waiters n)) as [n' t]. cbn in *. split; [|done]. split; cbn; auto. }
  destruct E as (a & -> & HL & Hc & Hk). destruct HL as [Hw Hp Hn [Hl Hm] Hk'] eqn:HLe. cbn zeta.
  split_and!; [done..| |].
  - intros es' Hno. apply (lo_waiter s), (await_run_inv (Lost s _) (fun e => e <> Commits)); [| |exact HL].
    + intros e b b'. apply lost_step.
    + apply Forall_forall. by intros e He ->.
  - cbn. unfold loop_top. cbn. rewrite Hk. done.
Qed.

(** A caller that has registered is woken by the next upload. *)
Lemma await_mirror_woken `{NF : !Notify, NL : !NotifyLaws} a s t c now :
  aw_waiter a = Parked s t -> registered (aw_advanced a) t -> aw_worker a = Uploading c -> s <= c ->
  aw_waiter (await_run [UploadReturns true now; Notifies; CallerSteps; CallerSteps] a) = Returned s (Ok c).
Proof.
  intros Hw Hr Hk Hle. cbn. unfold upload_returns. rewrite Hk. cbn. unfold await_mirror. cbn. rewrite Hw, waiters_woken by done.
  cbn. by rewrite (proj2 (Z.leb_le s c) Hle).
Qed.

(** ** Examples *)

(** A counter of the calls of [notify_waiters]. *)
#[export] Instance counted_notify : Notify := {
  nstate := nat; ticket := nat;
  notified n := (n, n);
  notify_waiters n := S n;
  woken n t := (t <? n)%nat;
  registered n t := (t <= n)%nat;
}.
#[export] Instance counted_notify_laws : NotifyLaws.
Proof. split; cbn; intros; [by apply Nat.ltb_irrefl|done|apply Nat.leb_le; lia|lia]. Qed.

Definition ex_notify : @nstate counted_notify := 0%nat.

Lemma await_mirror_lost_wakeup_witness :
  exists es t, let a := await_run es (await_init 7 ex_notify) in
    aw_waiter a = Parked 7 t /\ mirror_seq (aw_state a) = 7 /\
    aw_waiter (await_run [ClosesMirror; WorkerLoops; ClosesEngine; CallerSteps] a) = Parked 7 t.
Proof.
  destruct (await_mirror_lost_wakeup 7 ex_notify ltac:(reflexivity)) as (es & t & Hw & Hm & _ & _ & Hp & _).
  exists es, t. split; [exact Hw|]. split; [exact Hm|]. apply Hp. set_solver.
Defined.

Definition ex_await_events : list Event :=
  [CallerSteps; CallerSteps; CallerSteps; CallerSteps; CallerSteps; CallerSteps; WorkerLoops; UploadReturns true 100; Notifies; CallerSteps; CallerSteps].

Lemma await_mirror_returns_mirrored_witness :
  aw_waiter (await_run ex_await_events (await_init 7 ex_notify)) = Returned 7 (Ok 7) /\
  (7 <= 0 /\ 7 = 0 \/ 7 <= 7 <= mirror_seq (aw_state (await_run ex_await_events (await_init 7 ex_notify)))).
Proof.
  split; [reflexivity|]. apply (await_mirror_returns_mirrored 7 ex_notify ex_await_events 7 7). reflexivity.
Defined.
