(* ===== verification/Iceberg.v ===== *)
(** * The Iceberg projection

    [src/crates/merutable/src/iceberg/translate.rs]: the manifest as Iceberg
    v2 [TableMetadata], its schema, sort order, properties and data-file
    entries, as JSON values; and the copy of a data file an export writes,
    [rewrite_parquet_user_columns_only] of
    [src/crates/merutable/src/iceberg/catalog.rs].  A JSON object is the list
    of its members; the [build] of the iceberg crate's schema builder, which
    may refuse a schema, is an argument.  The export itself is in [Export]. *)

From Stdlib Require Import Ascii.
From S2P Require Import Prelude Decimal Sequence Schema Key RowCodec LsmVersion DeletionVector Manifest ManifestPb Catalog Bloom KvIndex Arrow Codec FileReader FileWriter.
Local Open Scope Z_scope.

(** ** JSON values *)
Inductive Json : Type :=
  | JBool (b : bool)
  | JNum (n : Z)
  | JStr (s : string)
  | JArr (l : list Json)
  | JObj (l : list (string * Json)).

(** [Map::insert]. *)
Fixpoint jinsert (k : string) (v : Json) (l : list (string * Json)) : list (string * Json) :=
  match l with
  | [] => [(k, v)]
  | (k', v') :: l => if String.eqb k' k then (k, v) :: l else (k', v') :: jinsert k v l
  end.

Fixpoint jfind (k : string) (l : list (string * Json)) : option Json :=
  match l with
  | [] => None
  | (k', v) :: l => if String.eqb k' k then Some v else jfind k l
  end.

(** ** Schema *)
Definition column_type_to_iceberg (ct : ColumnType) : Json :=
  match ct with
  | CBoolean => JStr "boolean"
  | CInt32 => JStr "int"
  | CInt64 => JStr "long"
  | CFloat => JStr "float"
  | CDouble => JStr "double"
  | CByteArray => JStr "binary"
  | CFixedLenByteArray n => JStr (String.append "fixed[" (String.append (show_string n) "]"))
  end.

(** [(idx + 1) as i32]. *)
Definition position_id (idx : nat) : Z := as_i32 (Z.of_nat (idx + 1)).

Definition iceberg_field (idx : nat) (col : ColumnDef) : Json :=
  JObj [("id", JNum (position_id idx)); ("name", JStr (name col)); ("required", JBool (negb (nullable col)));
        ("type", column_type_to_iceberg (col_type col))]%string.

Definition to_iceberg_schema_v2 (s : TableSchema) (schema_id : Z) : Json :=
  JObj [("type", JStr "struct"); ("schema-id", JNum schema_id);
        ("identifier-field-ids", JArr (map (fun idx => JNum (position_id idx)) (primary_key s)));
        ("fields", JArr (imap iceberg_field (columns s)))]%string.

Definition sort_field (col_idx : nat) : Json :=
  JObj [("transform", JStr "identity"); ("source-id", JNum (position_id col_idx)); ("direction", JStr "asc");
        ("null-order", JStr "nulls-first")]%string.

Definition to_iceberg_sort_order_v2 (s : TableSchema) (order_id : Z) : Json :=
  JObj [("order-id", JNum order_id); ("fields", JArr (map sort_field (primary_key s)))]%string.

(** ** Data files *)
Definition manifest_status_code (status : string) : Z :=
  if String.eqb status "added" then 1 else if String.eqb status "deleted" then 2 else 0.

(** The five maps of per-column statistics. *)
Record StatMaps : Type := {
  column_sizes : list (string * Json);
  value_counts : list (string * Json);
  null_value_counts : list (string * Json);
  lower_bounds : list (string * Json);
  upper_bounds : list (string * Json);
}.

Definition no_stats : StatMaps :=
  {| column_sizes := []; value_counts := []; null_value_counts := []; lower_bounds := []; upper_bounds := [] |}.

Definition insert_bound `{!FooterCodec} (key : string) (b : option bytes) (l : list (string * Json)) : list (string * Json) :=
  match b with Some b => jinsert key (JStr (hex_encode b)) l | None => l end.

Definition insert_stats `{!FooterCodec} (m : StatMaps) (cs : ColumnStats) : StatMaps :=
  let key := show_string (cs_field_id cs) in
  {| column_sizes := jinsert key (JNum (cs_compressed_bytes cs)) (column_sizes m);
     value_counts := jinsert key (JNum (cs_value_count cs)) (value_counts m);
     null_value_counts := jinsert key (JNum (cs_null_count cs)) (null_value_counts m);
     lower_bounds := insert_bound key (cs_lower_bound cs) (lower_bounds m);
     upper_bounds := insert_bound key (cs_upper_bound cs) (upper_bounds m) |}.

(** Files without statistics: the columns that cannot be null are full. *)
Definition insert_counts (num_rows : Z) (m : StatMaps) (ic : nat * ColumnDef) : StatMaps :=
  if nullable ic.2 then m
  else
    let key := show_string (position_id ic.1) in
    {| column_sizes := column_sizes m; value_counts := jinsert key (JNum num_rows) (value_counts m);
       null_value_counts := jinsert key (JNum 0) (null_value_counts m);
       lower_bounds := lower_bounds m; upper_bounds := upper_bounds m |}.

Definition to_iceberg_data_file_v2_with_schema `{!FooterCodec} (e : ManifestEntry) (s : option TableSchema) : Json :=
  let m := me_meta e in
  let stats :=
    match column_stats m, s with
    | Some stats, _ => fold_left insert_stats stats no_stats
    | None, Some s => fold_left (insert_counts (num_rows m)) (imap pair (columns s)) no_stats
    | None, None => no_stats
    end in
  JObj [("status", JNum (manifest_status_code (me_status e)));
        ("data_file", JObj [("content", JNum 0); ("file_path", JStr (me_path e)); ("file_format", JStr "PARQUET");
           ("partition", JObj []); ("record_count", JNum (num_rows m)); ("file_size_in_bytes", JNum (file_size m));
           ("column_sizes", JObj (column_sizes stats)); ("value_counts", JObj (value_counts stats));
           ("null_value_counts", JObj (null_value_counts stats)); ("lower_bounds", JObj (lower_bounds stats));
           ("upper_bounds", JObj (upper_bounds stats)); ("split_offsets", JArr []); ("sort_order_id", JNum 1)])]%string.

Definition to_iceberg_data_file_v2 `{!FooterCodec} (e : ManifestEntry) : Json := to_iceberg_data_file_v2_with_schema e None.

(** ** Summary and properties *)

Definition live_total (f : ParquetFileMeta -> Z) (m : Manifest) : Z :=
  foldr Z.add 0 (map (fun e => f (me_meta e)) (List.filter is_live (m_entries m))).

(** [iter().sum()] on [u64]; the terms are not negative, so it overflows if
    and only if the total does not fit. *)
Definition live_sum (f : ParquetFileMeta -> Z) (m : Manifest) : res Z :=
  let total := live_total f m in if u64_max <? total then Panic else Ok total.

Definition snapshot_summary (m : Manifest) : res Json :=
  total_rows ← live_sum num_rows m;
  total_bytes ← live_sum file_size m;
  Ok (JObj [("operation", JStr "append"); ("total-data-files", JStr (show_string (Z.of_nat (live_file_count m))));
        ("total-records", JStr (show_string total_rows));
        ("total-files-size", JStr (show_string total_bytes))]%string).

Definition dv_paths (m : Manifest) : list string := omap me_dv_path (List.filter is_live (m_entries m)).

(** [pkg_version] is [CARGO_PKG_VERSION]. *)
Definition property_map (pkg_version : string) (m : Manifest) : gmap string string :=
  let props := <["merutable.format-version"%string := show_string (format_version m)]>
                 (<["merutable.translator.version"%string := pkg_version]> (properties m)) in
  match dv_paths m with
  | [] => props
  | ps => <["merutable.deletion-vectors"%string := String.concat "," ps]> props
  end.

Definition all_properties (pkg_version : string) (m : Manifest) : Json :=
  JObj (map (fun kv => (kv.1, JStr kv.2)) (map_to_list (property_map pkg_version m))).

(** ** Table metadata *)

(** [trim_end_matches('/')], from the reversed text. *)
Fixpoint skip_slashes (cs : list ascii) : list ascii :=
  match cs with
  | c :: cs' => if Ascii.eqb c slash then skip_slashes cs' else cs
  | [] => []
  end.

Definition trim_slashes (s : string) : string :=
  string_of_list_ascii (rev (skip_slashes (rev (list_ascii_of_string s)))).

Definition manifest_list_path (m : Manifest) (table_location : string) : string :=
  String.append (trim_slashes table_location)
    (String.append "/metadata/snap-" (String.append (show_string (m_snapshot_id m))
       (String.append "-0-" (String.append (table_uuid m) ".avro")))).

Definition snapshot_json (m : Manifest) (table_location : string) : res (list (string * Json)) :=
  summary ← snapshot_summary m;
  let snapshot :=
    [("snapshot-id", JNum (m_snapshot_id m)); ("timestamp-ms", JNum (last_updated_ms m));
     ("sequence-number", JNum (sequence_number m)); ("summary", summary);
     ("manifest-list", JStr (manifest_list_path m table_location)); ("schema-id", JNum 0)]%string in
  match parent_snapshot_id m with
  | Some parent => Ok (jinsert "parent-snapshot-id" (JNum parent) snapshot)
  | None => Ok snapshot
  end.

Definition to_iceberg_v2_table_metadata (pkg_version : string) (m : Manifest) (table_location : string) : res Json :=
  snapshot ← snapshot_json m table_location;
  Ok (JObj [("format-version", JNum 2); ("table-uuid", JStr (table_uuid m)); ("location", JStr table_location);
        ("last-sequence-number", JNum (sequence_number m)); ("last-updated-ms", JNum (last_updated_ms m));
        ("last-column-id", JNum (as_i32 (Z.of_nat (length (columns (m_schema m)))))); ("current-schema-id", JNum 0);
        ("schemas", JArr [to_iceberg_schema_v2 (m_schema m) 0]); ("default-spec-id", JNum 0);
        ("partition-specs", JArr [JObj [("spec-id", JNum 0); ("fields", JArr [])]]);
        ("last-partition-id", JNum 999); ("default-sort-order-id", JNum 1);
        ("sort-orders", JArr [JObj [("order-id", JNum 0); ("fields", JArr [])];
                              to_iceberg_sort_order_v2 (m_schema m) 1]);
        ("properties", all_properties pkg_version m); ("current-snapshot-id", JNum (m_snapshot_id m));
        ("snapshots", JArr [JObj snapshot]);
        ("snapshot-log", JArr [JObj [("snapshot-id", JNum (m_snapshot_id m)); ("timestamp-ms", JNum (last_updated_ms m))]]);
        ("metadata-log", JArr []);
        ("refs", JObj [("main", JObj [("snapshot-id", JNum (m_snapshot_id m)); ("type", JStr "branch")])])]%string).

(** ** The schema handed to the Avro writers

    The fields as the builder of the iceberg crate is given them: identifier,
    whether required, name and type. *)
Inductive PrimitiveType : Type :=
  | PBoolean | PInt | PLong | PFloat | PDouble | PBinary
  | PFixed (n : Z).

#[global] Instance PrimitiveType_eq_dec : EqDecision PrimitiveType.
Proof. solve_decision. Defined.

Record NestedField : Type := { nf_id : Z; nf_name : string; nf_required : bool; nf_type : PrimitiveType }.

(** [n as u64] of the [i32] length. *)
Definition iceberg_type (ct : ColumnType) : PrimitiveType :=
  match ct with
  | CBoolean => PBoolean | CInt32 => PInt | CInt64 => PLong | CFloat => PFloat | CDouble => PDouble
  | CByteArray => PBinary
  | CFixedLenByteArray n => PFixed (wrap 64 n)
  end.

Record IcebergSchema : Type := { is_id : Z; is_fields : list NestedField; is_identifiers : list Z }.

(** What the builder is given. *)
Definition iceberg_schema (s : TableSchema) : IcebergSchema :=
  {| is_id := 0;
     is_fields := imap (fun i col => {| nf_id := position_id i; nf_name := name col;
                                        nf_required := negb (nullable col); nf_type := iceberg_type (col_type col) |}) (columns s);
     is_identifiers := map position_id (primary_key s) |}.

(** [builder] is [Schema::builder()...build()] on the schema's id, fields and
    identifier fields. *)
Definition to_iceberg_rs_schema (builder : IcebergSchema -> option IcebergSchema) (s : TableSchema) : res IcebergSchema :=
  ok_or (builder (iceberg_schema s)) (Iceberg "iceberg schema build").

(** ** A copy of a data file without the internal columns

    Per user column that the file has: its index in the file and its field
    identifier. *)
Definition export_columns (leaves user_col_names : list string) : list (nat * Z) :=
  omap (fun e => idx ← find_leaf_opt leaves e.2; Some (idx, position_id e.1)) (imap pair user_col_names).

(** The copied columns and the batches of the projected reader. *)
Definition export_reader {F} `{!Arrow, !ParquetFile F} (src : F) (user_col_names : list string)
    : res (list (nat * Z) * list (option RecordBatch)) :=
  file_meta ← ok_or (pq_open src) (Iceberg "parquet reader build");
  let cols := export_columns (pm_leaves file_meta) user_col_names in
  batches ← ok_or (pq_read src None (map fst cols)) (Iceberg "parquet batch reader");
  Ok (cols, batches).

(** The batches the export's writer is given. *)
Definition rewrite_parquet_user_columns_only {F} `{!Arrow, !ParquetFile F} (src : F) (user_col_names : list string)
    : res (list (nat * Z) * list RecordBatch) :=
  '(cols, batches) ← export_reader src user_col_names;
  bs ← mapM (fun b => ok_or b (Iceberg "read batch")) batches;
  Ok (cols, bs).

(** ** What a reader of the metadata sees *)
Definition jget (k : string) (j : Json) : option Json := match j with JObj l => jfind k l | _ => None end.
Definition jnum (k : string) (j : Json) : option Z := match jget k j with Some (JNum n) => Some n | _ => None end.
Definition jstr (k : string) (j : Json) : option string := match jget k j with Some (JStr s) => Some s | _ => None end.
Definition jbool (k : string) (j : Json) : option bool := match jget k j with Some (JBool b) => Some b | _ => None end.
Definition jarr (k : string) (j : Json) : option (list Json) := match jget k j with Some (JArr l) => Some l | _ => None end.
Definition as_num (j : Json) : option Z := match j with JNum n => Some n | _ => None end.

(** The primitive types of the Iceberg specification. *)
Definition parse_type (t : string) : option PrimitiveType :=
  if String.eqb t "boolean" then Some PBoolean
  else if String.eqb t "int" then Some PInt
  else if String.eqb t "long" then Some PLong
  else if String.eqb t "float" then Some PFloat
  else if String.eqb t "double" then Some PDouble
  else if String.eqb t "binary" then Some PBinary
  else
    let cs := list_ascii_of_string t in
    if bool_decide (take 6 cs = list_ascii_of_string "fixed[" /\ last cs = Some "]"%char) then
      PFixed <$> parse_int 64 (take (length cs - 7) (drop 6 cs))
    else None.

Definition parse_field (j : Json) : option NestedField :=
  id ← jnum "id" j; n ← jstr "name" j; req ← jbool "required" j; t ← jstr "type" j; ty ← parse_type t;
  Some {| nf_id := id; nf_name := n; nf_required := req; nf_type := ty |}.

Definition parse_schema (j : Json) : option IcebergSchema :=
  id ← jnum "schema-id" j; fs ← jarr "fields" j; fields ← mapM parse_field fs;
  ids ← jarr "identifier-field-ids" j; identifiers ← mapM as_num ids;
  Some {| is_id := id; is_fields := fields; is_identifiers := identifiers |}.

(** A sort order: its identifier and the columns it sorts by. *)
Definition parse_order (j : Json) : option (Z * list Z) :=
  id ← jnum "order-id" j; fs ← jarr "fields" j; sources ← mapM (jnum "source-id") fs; Some (id, sources).

Record IceSnapshot : Type := {
  sn_id : Z;
  sn_parent : option Z;
  sn_sequence : Z;
  sn_timestamp : Z;
  sn_schema : Z;
  sn_manifest_list : string;
}.

Definition parse_snapshot (j : Json) : option IceSnapshot :=
  id ← jnum "snapshot-id" j; sq ← jnum "sequence-number" j; ts ← jnum "timestamp-ms" j; sch ← jnum "schema-id" j;
  ml ← jstr "manifest-list" j; _ ← jget "summary" j;
  Some {| sn_id := id; sn_parent := jnum "parent-snapshot-id" j; sn_sequence := sq; sn_timestamp := ts; sn_schema := sch;
          sn_manifest_list := ml |}.

Record TableMetadata : Type := {
  tm_uuid : string;
  tm_location : string;
  tm_last_sequence : Z;
  tm_last_updated : Z;
  tm_last_column : Z;
  tm_schema : Z;
  tm_schemas : list IcebergSchema;
  tm_spec : Z;
  tm_specs : list Z;
  tm_order : Z;
  tm_orders : list (Z * list Z);
  tm_snapshot : Z;
  tm_snapshots : list IceSnapshot;
  tm_main : Z;
}.

Definition parse_metadata (j : Json) : option TableMetadata :=
  ver ← jnum "format-version" j;
  if negb (ver =? 2) then None
  else
    uuid ← jstr "table-uuid" j; loc ← jstr "location" j; lsn ← jnum "last-sequence-number" j;
    upd ← jnum "last-updated-ms" j; lc ← jnum "last-column-id" j; sid ← jnum "current-schema-id" j;
    ss ← jarr "schemas" j; schemas ← mapM parse_schema ss; spec ← jnum "default-spec-id" j;
    ps ← jarr "partition-specs" j; specs ← mapM (jnum "spec-id") ps; ord ← jnum "default-sort-order-id" j;
    os ← jarr "sort-orders" j; orders ← mapM parse_order os; cur ← jnum "current-snapshot-id" j;
    sns ← jarr "snapshots" j; snapshots ← mapM parse_snapshot sns; refs ← jget "refs" j;
    main ← jget "main" refs; head ← jnum "snapshot-id" main;
    Some {| tm_uuid := uuid; tm_location := loc; tm_last_sequence := lsn; tm_last_updated := upd; tm_last_column := lc;
            tm_schema := sid; tm_schemas := schemas; tm_spec := spec; tm_specs := specs; tm_order := ord;
            tm_orders := orders; tm_snapshot := cur; tm_snapshots := snapshots; tm_main := head |}.

(** The types an identifier field may have: floating-point numbers are out. *)
Definition identifier_type (t : PrimitiveType) : bool := match t with PFloat | PDouble => false | _ => true end.

(** A schema: distinct identifiers up to the last one, distinct names, and a
    key of required columns none of which is a floating-point number. *)
Record ValidSchema (last_column : Z) (s : IcebergSchema) : Prop := {
  vs_ids : NoDup (map nf_id (is_fields s));
  vs_names : NoDup (map nf_name (is_fields s));
  vs_range : Forall (fun f => 0 < nf_id f <= last_column) (is_fields s);
  vs_key i : i ∈ is_identifiers s -> exists f, f ∈ is_fields s /\ nf_id f = i /\ nf_required f = true /\
    identifier_type (nf_type f) = true;
}.

(** Metadata whose references resolve.  A snapshot may name a parent that is
    not listed, as after an expiry of snapshots. *)
Record ValidMetadata (t : TableMetadata) : Prop := {
  vm_schema : exists s, s ∈ tm_schemas t /\ is_id s = tm_schema t /\ ValidSchema (tm_last_column t) s /\
    forall o src, o ∈ tm_orders t -> src ∈ o.2 -> exists f, f ∈ is_fields s /\ nf_id f = src;
  vm_spec : tm_spec t ∈ tm_specs t;
  vm_order : exists o, o ∈ tm_orders t /\ o.1 = tm_order t;
  vm_unsorted : (0, []) ∈ tm_orders t;
  vm_snapshot : exists sn, sn ∈ tm_snapshots t /\ sn_id sn = tm_snapshot t /\ sn_sequence sn <= tm_last_sequence t /\
    exists s, s ∈ tm_schemas t /\ is_id s = sn_schema sn;
  vm_head : tm_main t = tm_snapshot t;
}.

(** A length that fits the code's [i32]. *)
Definition type_ok (ct : ColumnType) : Prop :=
  match ct with CFixedLenByteArray n => 0 <= n < 2 ^ 31 | _ => True end.

Lemma parse_type_ok ct : type_ok ct ->
  exists t, column_type_to_iceberg ct = JStr t /\ parse_type t = Some (iceberg_type ct).
Proof.
  intros Hok. destruct ct as [| | | | | |n]; try (eexists; split; reflexivity). eexists. split; [reflexivity|].
  cbn in Hok. unfold parse_type. rewrite !(proj2 (String.eqb_neq _ _)) by discriminate.
  rewrite !append_ascii. unfold show_string. rewrite list_ascii_of_string_of_list_ascii.
  rewrite bool_decide_true.
  2:{ split; [done|]. change (list_ascii_of_string "]") with ["]"%char]. by rewrite app_assoc, last_snoc. }
  rewrite drop_app_length', take_app_length'; [|rewrite !length_app; cbn; lia|done].
  rewrite parse_show_int; [|lia|unfold in_i; lia]. cbn. unfold wrap. by rewrite Z.mod_small by lia.
Qed.

Lemma parse_fields_ok (cols : list ColumnDef) (k : nat) :
  Forall (fun c => type_ok (col_type c)) cols ->
  mapM parse_field (imap (fun i => iceberg_field (k + i)) cols)
  = Some (imap (fun i col => {| nf_id := position_id (k + i); nf_name := name col; nf_required := negb (nullable col);
                                nf_type := iceberg_type (col_type col) |}) cols).
Proof.
  intros H. revert k. induction H as [|c cols Hc _ IH]; intros k; [done|]. cbn [imap mapM].
  destruct (parse_type_ok (col_type c) Hc) as (t & Et & Ht).
  assert (E : parse_field (iceberg_field (k + 0) c)
    = Some {| nf_id := position_id (k + 0); nf_name := name c; nf_required := negb (nullable c);
              nf_type := iceberg_type (col_type c) |}).
  { unfold parse_field, iceberg_field, jnum, jstr, jbool, jget. cbn. rewrite Et. cbn. by rewrite Ht. }
  rewrite E. cbn [mbind option_bind].
  rewrite (imap_ext _ (fun i => iceberg_field (S k + i))) by (intros i x _; cbn; by rewrite Nat.add_succ_r).
  rewrite (IH (S k)). cbn. f_equal. f_equal. apply imap_ext. intros i x _. cbn. by rewrite Nat.add_succ_r.
Qed.

Lemma mapM_nums (l : list nat) (f : nat -> Json) (g : nat -> Z) (h : Json -> option Z) :
  (forall i, h (f i) = Some (g i)) -> mapM h (map f l) = Some (map g l).
Proof. intros H. induction l as [|i l IH]; [done|]. cbn. rewrite H. cbn. by rewrite IH. Qed.

Lemma parse_schema_ok s id : Forall (fun c => type_ok (col_type c)) (columns s) ->
  parse_schema (to_iceberg_schema_v2 s id)
  = Some {| is_id := id; is_fields := is_fields (iceberg_schema s);
            is_identifiers := is_identifiers (iceberg_schema s) |}.
Proof.
  intros H. unfold parse_schema, to_iceberg_schema_v2, jnum, jarr, jget. cbn.
  rewrite (parse_fields_ok (columns s) 0 H : mapM parse_field (imap iceberg_field (columns s)) = _). cbn.
  by rewrite (mapM_nums _ _ position_id).
Qed.

Lemma position_id_small i n : (i < n)%nat -> Z.of_nat n < 2 ^ 31 -> position_id i = Z.of_nat i + 1.
Proof.
  intros Hi Hn. unfold position_id, as_i32, wrap. rewrite Z.mod_small by lia.
  unfold to_signed. destruct (Z.ltb_spec (Z.of_nat (i + 1)) (2 ^ (32 - 1))); lia.
Qed.

Lemma field_at s i c : columns s !! i = Some c ->
  {| nf_id := position_id i; nf_name := name c; nf_required := negb (nullable c); nf_type := iceberg_type (col_type c) |}
    ∈ is_fields (iceberg_schema s).
Proof. intros Hc. apply (list_elem_of_lookup_2 _ i). cbn. by rewrite list_lookup_imap, Hc. Qed.

(** What a valid Iceberg schema asks of a table's schema beyond what the engine
    checks. *)
Definition iceberg_compatible (s : TableSchema) : Prop :=
  NoDup (map name (columns s)) /\
  Forall (fun i => forall c, columns s !! i = Some c -> col_type c <> CFloat /\ col_type c <> CDouble) (primary_key s).

Lemma iceberg_names s : map nf_name (is_fields (iceberg_schema s)) = map name (columns s).
Proof.
  cbn [is_fields iceberg_schema]. etransitivity; [apply (fmap_imap _ nf_name)|]. cbn.
  etransitivity; [|apply (imap_const name)]. by apply imap_ext.
Qed.

Lemma identifier_type_spec ct : identifier_type (iceberg_type ct) = true <-> ct <> CFloat /\ ct <> CDouble.
Proof. by destruct ct; cbn; split; try done; intros []. Qed.

Lemma field_ids s i f : Z.of_nat (length (columns s)) < 2 ^ 31 -> is_fields (iceberg_schema s) !! i = Some f ->
  (i < length (columns s))%nat /\ nf_id f = Z.of_nat i + 1.
Proof.
  intros Hlen. cbn. rewrite list_lookup_imap. destruct (columns s !! i) as [c|] eqn:Ec; [|done].
  intros [= <-]. pose proof (lookup_lt_Some _ _ _ Ec). split; [done|]. by eapply position_id_small.
Qed.

Lemma iceberg_schema_valid s : schema_wf s -> Z.of_nat (length (columns s)) < 2 ^ 31 ->
  ValidSchema (as_i32 (Z.of_nat (length (columns s)))) (iceberg_schema s) <-> iceberg_compatible s.
Proof.
  intros (_ & (_ & _ & Hpk) & _) Hlen.
  assert (El : as_i32 (Z.of_nat (length (columns s))) = Z.of_nat (length (columns s))).
  { unfold as_i32, wrap. rewrite Z.mod_small by lia. unfold to_signed.
    destruct (Z.ltb_spec (Z.of_nat (length (columns s))) (2 ^ (32 - 1))); lia. }
  rewrite Forall_forall in Hpk. pose proof (fun i f => field_ids s i f Hlen) as Hat.
  assert (Hpos : forall i c, columns s !! i = Some c -> position_id i = Z.of_nat i + 1).
  { intros i c Hc. pose proof (lookup_lt_Some _ _ _ Hc). by eapply position_id_small. }
  split.
  - intros [_ Hn _ Hk]. rewrite iceberg_names in Hn. split; [done|]. apply Forall_forall. intros i Hi c Hc.
    destruct (Hk (position_id i)) as (f & [j Hf]%list_elem_of_lookup & Hid & _ & Ht).
    { cbn. by apply list_elem_of_fmap_2. }
    destruct (Hat j f Hf) as [_ Hj]. rewrite (Hpos i c Hc) in Hid. assert (j = i) as -> by lia.
    cbn in Hf. rewrite list_lookup_imap, Hc in Hf. injection Hf as <-. by apply identifier_type_spec in Ht.
  - intros [Hn Hc]. rewrite Forall_forall in Hc. split.
    + apply NoDup_alt. intros i j x. rewrite !list_lookup_fmap.
      destruct (is_fields _ !! i) as [f|] eqn:Ef; [|done]. destruct (is_fields _ !! j) as [g|] eqn:Eg; [|done].
      intros [= <-] [= E]. destruct (Hat i f Ef), (Hat j g Eg). lia.
    + by rewrite iceberg_names.
    + apply Forall_lookup. intros i f Hf. destruct (Hat i f Hf). rewrite El. lia.
    + cbn [is_identifiers iceberg_schema]. intros x (i & -> & Hi)%list_elem_of_fmap.
      destruct (Hpk i Hi) as (c & Hci & Hnull).
      eexists. split; [by apply field_at|]. cbn [nf_id nf_required nf_type]. rewrite Hnull. split_and!; [done..|].
      apply identifier_type_spec. by apply (Hc i Hi).
Qed.

Definition summable (m : Manifest) : Prop := live_total num_rows m <= u64_max /\ live_total file_size m <= u64_max.

Lemma summary_ok m : summable m -> exists j, snapshot_summary m = Ok j.
Proof.
  intros [Hr Hb]. unfold snapshot_summary, live_sum.
  rewrite (proj2 (Z.ltb_ge _ _) Hr), (proj2 (Z.ltb_ge _ _) Hb). cbn. by eexists.
Qed.

Lemma parse_snapshot_ok m loc : summable m -> exists l, snapshot_json m loc = Ok l /\
  parse_snapshot (JObj l)
  = Some {| sn_id := m_snapshot_id m; sn_parent := parent_snapshot_id m; sn_sequence := sequence_number m;
            sn_timestamp := last_updated_ms m; sn_schema := 0; sn_manifest_list := manifest_list_path m loc |}.
Proof.
  intros [j Hj]%summary_ok. unfold snapshot_json. rewrite Hj, Ok_bind.
  destruct (parent_snapshot_id m); by eexists.
Qed.

Lemma parse_order_ok s id : parse_order (to_iceberg_sort_order_v2 s id) = Some (id, map position_id (primary_key s)).
Proof. unfold parse_order, to_iceberg_sort_order_v2, jnum, jarr, jget. cbn. by rewrite (mapM_nums _ _ position_id). Qed.

Lemma parse_metadata_ok pkg m loc : Forall (fun c => type_ok (col_type c)) (columns (m_schema m)) -> summable m ->
  exists j, to_iceberg_v2_table_metadata pkg m loc = Ok j /\ parse_metadata j
  = Some {| tm_uuid := table_uuid m; tm_location := loc; tm_last_sequence := sequence_number m;
            tm_last_updated := last_updated_ms m; tm_last_column := as_i32 (Z.of_nat (length (columns (m_schema m))));
            tm_schema := 0; tm_schemas := [iceberg_schema (m_schema m)]; tm_spec := 0; tm_specs := [0]; tm_order := 1;
            tm_orders := [(0, []); (1, map position_id (primary_key (m_schema m)))]; tm_snapshot := m_snapshot_id m;
            tm_snapshots := [{| sn_id := m_snapshot_id m; sn_parent := parent_snapshot_id m; sn_sequence := sequence_number m;
              sn_timestamp := last_updated_ms m; sn_schema := 0; sn_manifest_list := manifest_list_path m loc |}];
            tm_main := m_snapshot_id m |}.
Proof.
  intros H (l & El & Hl)%(parse_snapshot_ok m loc). unfold to_iceberg_v2_table_metadata. rewrite El, Ok_bind.
  eexists. split; [reflexivity|]. unfold parse_metadata.
  assert (Es : mapM parse_schema [to_iceberg_schema_v2 (m_schema m) 0] = Some [iceberg_schema (m_schema m)]).
  { cbn [mapM]. rewrite (parse_schema_ok _ 0 H). done. }
  assert (Eo : mapM parse_order [JObj [("order-id", JNum 0); ("fields", JArr [])]%string; to_iceberg_sort_order_v2 (m_schema m) 1]
    = Some [(0, []); (1, map position_id (primary_key (m_schema m)))]).
  { cbn [mapM]. rewrite parse_order_ok. done. }
  assert (En : mapM parse_snapshot [JObj l] = Some [{| sn_id := m_snapshot_id m;
      sn_parent := parent_snapshot_id m; sn_sequence := sequence_number m; sn_timestamp := last_updated_ms m; sn_schema := 0;
      sn_manifest_list := manifest_list_path m loc |}]).
  { cbn [mapM]. rewrite Hl. done. }
  unfold jnum, jstr, jarr, jget.
  cbn [jfind String.eqb Ascii.eqb Bool.eqb Z.eqb Pos.eqb negb mbind option_bind].
  rewrite Es. cbn [mbind option_bind]. rewrite Eo. cbn [mbind option_bind]. by rewrite En.
Qed.

(** C36. The exported table metadata is well-typed Iceberg v2 metadata.  For
    every manifest of a schema the engine accepts, a reader of the
    specification parses it, and what it parses to is the manifest's identity,
    its lineage and the schema.  It is valid exactly when the column names are
    distinct and no key column is a floating-point number, neither of which the
    engine checks: current schema, partition spec, sort order, snapshot and
    branch resolve; field identifiers are distinct and at most
    [last-column-id]; identifier fields and sort columns are columns of the
    schema, the former required.  Valid metadata carry the schema that the
    Avro manifests are written with, which the builder accepts.  (The
    snapshot's parent is named, but only the current snapshot is listed.)
    Only totals of rows or bytes above 64 bits stop the translation. *)
Theorem exported_metadata_valid builder pkg m loc :
  (forall n s, ValidSchema n s -> builder s = Some s) ->
  schema_wf (m_schema m) -> Forall (fun c => type_ok (col_type c)) (columns (m_schema m)) ->
  Z.of_nat (length (columns (m_schema m))) < 2 ^ 31 -> summable m ->
  exists j t s, to_iceberg_v2_table_metadata pkg m loc = Ok j /\ parse_metadata j = Some t /\
    (ValidMetadata t <-> iceberg_compatible (m_schema m)) /\
    tm_schemas t = [s] /\ (ValidMetadata t -> to_iceberg_rs_schema builder (m_schema m) = Ok s) /\
    tm_uuid t = table_uuid m /\ tm_last_sequence t = sequence_number m /\ tm_snapshot t = m_snapshot_id m /\
    map sn_parent (tm_snapshots t) = [parent_snapshot_id m].
Proof.
  intros Hb Hwf Ht Hlen Hsum. destruct (parse_metadata_ok pkg m loc Ht Hsum) as (j & Hj & Hp).
  eexists j, _, _. split; [exact Hj|]. split; [exact Hp|]. cbn [tm_schemas].
  pose proof (iceberg_schema_valid _ Hwf Hlen) as HV.
  match goal with |- (ValidMetadata ?t <-> _) /\ _ => assert (HM : ValidMetadata t <-> iceberg_compatible (m_schema m)) end.
  { rewrite <- HV. split.
    - intros [(s & Hs & _ & Hval & _) _ _ _ _ _]. cbn in Hs, Hval. by apply list_elem_of_singleton in Hs as ->.
    - intros Hval. split; cbn.
      + exists (iceberg_schema (m_schema m)). split; [by left|]. split; [done|]. split; [exact Hval|].
        intros o src Ho Hsrc. assert (Hin : src ∈ is_identifiers (iceberg_schema (m_schema m))).
        { apply elem_of_cons in Ho as [->|Ho]; [by apply elem_of_nil in Hsrc|]. by apply list_elem_of_singleton in Ho as ->. }
        destruct (vs_key _ _ Hval src Hin) as (f & Hf & Hid & _). by exists f.
      + by left.
      + eexists. split; [right; by left|done].
      + by left.
      + eexists. split; [by left|]. split; [done|]. split; [done|]. eexists. split; [by left|done].
      + done. }
  split; [exact HM|]. split; [reflexivity|]. split; [|done].
  intros Hval. apply HM, HV, Hb in Hval. unfold to_iceberg_rs_schema. by rewrite Hval.
Qed.

Definition ex_ice_schema : TableSchema :=
  {| table_name := "t";
     columns := [ColumnDef_builder "id" CInt64; ColumnDef_builder "h" (CFixedLenByteArray 16);
                 {| name := "v"; col_type := CByteArray; nullable := true; field_id := None; initial_default := None;
                    write_default := None |}];
     primary_key := [0; 1]%nat; schema_id := 0; last_column_id := 0 |}.

Definition ex_ice_manifest : Manifest :=
  {| format_version := 3; table_uuid := "u"; last_updated_ms := 5; m_snapshot_id := 7; parent_snapshot_id := Some 6;
     sequence_number := 7; next_row_id := 0; m_first_row_id := 0; m_schema := ex_ice_schema; m_entries := [];
     properties := ∅ |}.

(** A builder that refuses repeated names and floating-point keys. *)
Definition ex_builder (s : IcebergSchema) : option IcebergSchema :=
  if bool_decide (NoDup (map nf_name (is_fields s)) /\
       Forall (fun i => Exists (fun f => nf_id f = i /\ nf_required f = true /\ identifier_type (nf_type f) = true) (is_fields s)) (is_identifiers s))
  then Some s else None.

Lemma ex_builder_valid n s : ValidSchema n s -> ex_builder s = Some s.
Proof.
  intros [_ Hn _ Hk]. unfold ex_builder. rewrite bool_decide_true; [done|]. split; [done|].
  apply Forall_forall. intros i Hi. destruct (Hk i Hi) as (f & Hf & H). apply Exists_exists. by exists f.
Qed.

Lemma exported_metadata_valid_witness :
  exists j t, to_iceberg_v2_table_metadata "0.0.2" ex_ice_manifest "file:///t/" = Ok j /\ parse_metadata j = Some t /\
    map (map nf_type) (map is_fields (tm_schemas t)) = [[PLong; PFixed 16; PBinary]] /\ ValidMetadata t.
Proof.
  destruct (exported_metadata_valid ex_builder "0.0.2" ex_ice_manifest "file:///t/") as (j & t & s & Hj & Hp & Hv & Hs & Hrs & _).
  - exact ex_builder_valid.
  - apply validate_readonly_Ok. vm_compute. reflexivity.
  - repeat (apply Forall_cons; split; [vm_compute; first [exact I|split; [discriminate|reflexivity]]|]). constructor.
  - vm_compute. reflexivity.
  - split; vm_compute; discriminate.
  - assert (HV : ValidMetadata t).
    { apply Hv. split; [apply (bool_decide_unpack _); vm_compute; exact I|].
      repeat (apply Forall_cons; split; [intros c [= <-]; split; discriminate|]). constructor. }
    exists j, t. split; [exact Hj|]. split; [exact Hp|]. split; [|exact HV].
    specialize (Hrs HV). vm_compute in Hrs. injection Hrs as <-. rewrite Hs. reflexivity.
Defined.

(** ** What an exported file holds *)
Section exported.
Context (xxh3_64 : bytes -> Z) {F : Type}.
Context `{AR : !Arrow, ARL : !ArrowLaws, PF : !ParquetFile F, PFL : !ParquetFileLaws F}.
Context `{RS : !RowSerde, RSL : !RowSerdeLaws, FC : !FooterCodec, SJ : !SchemaJson}.
Implicit Types (s : TableSchema) (rows : list (InternalKey * Row)).

(** The user columns of a row, as stored. *)
Definition user_cells s (r : Row) : list cell := imap (fun i c => stored_cell r i c) (columns s).

(** The columns before the user's. *)
Definition hidden_columns (fmt : FileFormat) : nat := if has_value_blob fmt then 4 else 3.

Lemma omap_imap {A B} (f : nat * A -> option B) (g : nat -> A -> B) (l : list A) (k : nat) :
  (forall i x, l !! i = Some x -> f ((k + i)%nat, x) = Some (g (k + i)%nat x)) ->
  omap f (imap (fun i x => ((k + i)%nat, x)) l) = imap (fun i => g (k + i)%nat) l.
Proof.
  revert k. induction l as [|x l IH]; intros k H; [done|]. cbn [imap omap list_omap].
  rewrite (H 0%nat x eq_refl). f_equal.
  rewrite (imap_ext _ (fun i x => ((S k + i)%nat, x))) by (intros i y _; cbn; by rewrite Nat.add_succ_r).
  etransitivity; [apply (IH (S k))|].
  - intros i y Hy. change (S k + i)%nat with (S (k + i)). rewrite <- Nat.add_succ_r. by apply (H (S i)).
  - apply imap_ext. intros i y _. cbn. by rewrite Nat.add_succ_r.
Qed.

Lemma omap_imap_none {A B} (f : nat * A -> option B) (h : nat -> nat) (l : list A) :
  (forall i x, x ∈ l -> f (i, x) = None) -> omap f (imap (fun i x => (h i, x)) l) = [].
Proof.
  revert h. induction l as [|x l IH]; intros h H; [done|]. cbn [imap omap list_omap]. rewrite H by (by left).
  apply (IH (h ∘ S)). intros i y Hy. apply H. by right.
Qed.

Lemma user_leaf s fmt i c : names_ok s -> columns s !! i = Some c ->
  find_leaf_opt (map f_name (arrow_schema s fmt)) (name c) = Some (hidden_columns fmt + i)%nat.
Proof.
  intros Hn Hc. rewrite find_leaf_index. apply (index_of_unique _ _ (column_field c)); [by apply file_names|].
  assert (H : map column_field (columns s) !! i = Some (column_field c)) by (by rewrite list_lookup_fmap, Hc).
  by destruct fmt.
Qed.

Lemma export_columns_spec s s' fmt : extends s s' -> names_ok s' ->
  export_columns (map f_name (arrow_schema s fmt)) (map name (columns s'))
  = imap (fun i _ => ((hidden_columns fmt + i)%nat, position_id i)) (columns s).
Proof.
  intros Hext Hn'. pose proof (extends_names _ _ Hext Hn') as Hn. destruct Hext as ([extra He] & _ & _).
  unfold export_columns. rewrite He, map_app, imap_app, omap_app.
  assert (E2 : forall h : nat -> nat, omap (fun e : nat * string => idx ← find_leaf_opt (map f_name (arrow_schema s fmt)) e.2; Some (idx, position_id e.1))
    (imap (fun i x => (h i, x)) (map name extra)) = []).
  { intros h. apply omap_imap_none. intros i x Hx. cbn [snd]. rewrite find_leaf_index, index_of_None; [done|].
    rewrite file_names_eq. unfold names_ok in Hn'. rewrite He, map_app in Hn'. intros Hin.
    assert (Hin' : x ∈ hidden_names ++ map name (columns s)).
    { apply elem_of_app in Hin as [Hin|Hin]; apply elem_of_app; [left|by right].
      destruct fmt; cbn [has_value_blob] in Hin; [|done]. unfold hidden_names. set_solver. }
    rewrite app_assoc in Hn'. apply NoDup_app in Hn' as (_ & Hd & _). by apply (Hd x). }
  etransitivity; [apply (f_equal (app _)), (E2 (fun i => length (map name (columns s)) + i)%nat)|]. rewrite app_nil_r.
  rewrite (imap_ext pair (fun i x => ((0 + i)%nat, x))) by done.
  rewrite (omap_imap _ (fun i _ => ((hidden_columns fmt + i)%nat, position_id i)) _ 0).
  - cbn [Nat.add]. apply (imap_fmap (fun i (_ : string) => ((hidden_columns fmt + i)%nat, position_id i)) name).
  - intros i x. rewrite list_lookup_fmap. destruct (columns s !! i) as [c|] eqn:Ec; [|done]. intros [= <-]. cbn [fst snd].
    by rewrite (user_leaf s fmt i c Hn Ec).
Qed.

Lemma select_from_drop {A} (l : list A) pos mask h :
  (forall i, (pos <= i < pos + length l)%nat -> (i ∈ mask <-> (pos + h <= i)%nat)) -> select_from pos mask l = drop h l.
Proof.
  revert pos h. induction l as [|x l IH]; intros pos h H; [by destruct h|]. cbn [select_from].
  destruct h as [|h].
  - rewrite bool_decide_true by (apply H; cbn; lia). cbn. f_equal. rewrite (IH (S pos) 0%nat); [by rewrite drop_0|].
    intros i Hi. rewrite H by (cbn; lia). lia.
  - rewrite bool_decide_false by (intros Hm; apply H in Hm; cbn in *; lia). cbn. apply IH.
    intros i Hi. rewrite H by (cbn; lia). lia.
Qed.

Lemma row_cells_user s fmt x : drop (hidden_columns fmt) (row_cells s fmt x) = user_cells s x.2.
Proof.
  assert (E : map (fun g : InternalKey * Row -> cell => g x) (imap (fun i c x => stored_cell x.2 i c) (columns s)) = user_cells s x.2).
  { unfold user_cells. apply (fmap_imap (fun i c (x : InternalKey * Row) => stored_cell x.2 i c) (fun g : InternalKey * Row -> cell => g x)). }
  unfold row_cells, column_getters. by destruct fmt.
Qed.

Lemma rewrite_spec s s' fmt rows props (b : RecordBatch) (f : F) m :
  extends s s' -> names_ok s' -> Written props b f m ->
  batch_schema b = arrow_schema s fmt -> batch_rows b = map (row_cells s fmt) rows ->
  exists cols batches, rewrite_parquet_user_columns_only f (map name (columns s')) = Ok (cols, batches) /\
    map snd cols = imap (fun i _ => position_id i) (columns s) /\
    concat (map batch_rows batches) = map (fun x => user_cells s x.2) rows.
Proof.
  intros Hext Hn HW Hs Hrows. destruct HW as [Ho Hl _ _ (sizes & _ & _ & Hsum & _ & Hread)].
  unfold rewrite_parquet_user_columns_only, export_reader. rewrite Ho. cbn [ok_or]. rewrite Ok_bind, Hl, Hs, (export_columns_spec s s' fmt Hext Hn).
  set (cols := imap _ (columns s)).
  assert (Hmask : forall i, i ∈ map fst cols <-> (hidden_columns fmt <= i < hidden_columns fmt + length (columns s))%nat).
  { intros i. unfold cols. rewrite list_elem_of_lookup. setoid_rewrite list_lookup_fmap. setoid_rewrite list_lookup_imap. split.
    - intros (j & Hj). destruct (columns s !! j) eqn:Ej; [|done]. apply lookup_lt_Some in Ej. cbn in Hj. injection Hj. lia.
    - intros Hi. exists (i - hidden_columns fmt)%nat. destruct (lookup_lt_is_Some_2 (columns s) (i - hidden_columns fmt)) as [c Hc]; [lia|].
      rewrite Hc. cbn. f_equal. lia. }
  assert (Hlen : length (arrow_schema s fmt) = (hidden_columns fmt + length (columns s))%nat).
  { unfold arrow_schema. rewrite !length_app, length_map. by destruct fmt. }
  destruct (Hread None (map fst cols)) as (bs & Hr & _ & Hc); [done|apply Forall_forall; intros i Hi%Hmask; rewrite Hs; lia|].
  rewrite Hr. cbn [ok_or]. rewrite !Ok_bind.
  exists cols, bs. split; [|split].
  - assert (E : forall bs : list RecordBatch, mapM (fun b => ok_or b (Iceberg "read batch")) (map Some bs) = Ok bs).
    { induction bs0 as [|b0 bs0 IH]; [done|]. cbn. cbn in IH. by rewrite IH. }
    by rewrite E.
  - unfold cols. apply (fmap_imap (fun i (_ : ColumnDef) => ((hidden_columns fmt + i)%nat, position_id i)) snd).
  - rewrite Hc. cbn [selected]. rewrite concat_chunks by (by rewrite length_batch_rows, Hsum).
    rewrite Hrows, map_map. apply map_ext. intros x. unfold select_mask.
    rewrite (select_from_drop _ 0 _ (hidden_columns fmt)); [apply row_cells_user|].
    intros i. rewrite length_row_cells, Hlen, Hmask. lia.
Qed.
End exported.

(** C38. An export copies every stored version of every row, and nothing that
    tells them apart.  The copy of a data file holds one row per row of the
    file, tombstones and overwritten versions included and whatever its
    deletion vector, with the cells of the user's columns alone: the columns
    that hold the operation and the sequence number, which the documented
    read-time projection of external readers needs, are not in it (so rows
    with the same fields are copied to the same row, also when one is a put
    and the other a delete). *)
Theorem export_keeps_every_version (xxh3_64 : bytes -> Z) {F : Type}
    `{!Arrow, !ArrowLaws, !ParquetFile F, !ParquetFileLaws F, !RowSerde, !RowSerdeLaws, !FooterCodec, !SchemaJson}
    s s' fmt lv rows bits (f : F) bloom fm :
  Writable s fmt rows bits -> extends s s' -> names_ok s' ->
  write_sorted_rows xxh3_64 rows s lv fmt bits = Ok (Some f, bloom, fm) ->
  exists cols batches, rewrite_parquet_user_columns_only f (map name (columns s')) = Ok (cols, batches) /\
    map snd cols = imap (fun i _ => position_id i) (columns s) /\
    concat (map batch_rows batches) = map (fun x => user_cells s x.2) rows.
Proof.
  intros HW Hext Hn Hwr. unfold write_sorted_rows in Hwr. destruct rows as [|x rows]; [done|].
  apply bind_Ok in Hwr as (bl & _ & Hwr). apply bind_Ok in Hwr as (kv & _ & Hwr).
  apply bind_Ok in Hwr as (p1 & _ & Hwr). apply bind_Ok in Hwr as (es & _ & Hwr).
  apply bind_Ok in Hwr as (ib & _ & Hwr). apply bind_Ok in Hwr as (p2 & Hp2 & Hwr).
  apply bind_Ok in Hwr as (st & _ & [= <- _ _]).
  edestruct (arrow_write_pass_spec (x :: rows) s lv fmt) as (f & m & b & props & Hf & HWr & _ & Hs & Hrows & _);
    [apply HW|by eapply extends_names|apply HW|done|apply HW|].
  rewrite Hf in Hp2. injection Hp2 as <-. by eapply rewrite_spec.
Qed.

Lemma export_keeps_every_version_witness :
  exists (f : ListFile) cols batches,
    rewrite_parquet_user_columns_only f (map name (columns extended_schema)) = Ok (cols, batches) /\
    length (concat (map batch_rows batches)) = length ex_rows.
Proof.
  assert (Hext : extends example_schema extended_schema).
  { split; [by eexists|]. split; [done|]. apply (bool_decide_eq_true_1 _). vm_compute. reflexivity. }
  assert (Hn : names_ok extended_schema) by (apply (bool_decide_eq_true_1 _); vm_compute; reflexivity).
  destruct (write_sorted_rows_spec example_hash (F := ListFile) example_hash_range example_schema extended_schema Columnar 1
    ex_rows 10 (ex_writable Columnar) Hext Hn) as (f & bloom & stats & rd & Hw & _).
  destruct (export_keeps_every_version example_hash example_schema extended_schema Columnar 1 ex_rows 10 f bloom _
    (ex_writable Columnar) Hext Hn Hw) as (cols & batches & Hr & _ & Hrows).
  exists f, cols, batches. split; [exact Hr|]. by rewrite Hrows, length_map.
Defined.
