(* ===== verification/Export.v ===== *)
(** * Exporting a snapshot

    [export_to_iceberg] of [src/crates/merutable/src/iceberg/catalog.rs], with
    the copies of the data files, the Avro manifests, the table metadata and
    the version hints, system call by system call over the file system of
    [Disk].  The writer of the copies, the Avro encoders and serde_json's
    printer are functions; the canonical form of the target is an argument.
    Paths of the table are relative to its base directory. *)

From Stdlib Require Import Ascii.
From S2P Require Import Prelude Decimal Disk Sequence Schema LsmVersion DeletionVector Manifest ManifestPb Catalog Commit Key CommitRun Arrow FileReader Flush FlushRun Iceberg.
Local Open Scope Z_scope.

(** ** Paths *)

(** [root.join(dir)] of a relative directory. *)
Definition join_dir (root dir : string) : string :=
  if String.eqb dir "" then root
  else if String.eqb root "" then dir else String.append root (String.append "/" dir).

Definition is_absolute (path : string) : bool :=
  match list_ascii_of_string path with c :: _ => Ascii.eqb c slash | [] => false end.

(** [target.join(path)]: an absolute path replaces the target. *)
Definition join_target (target path : string) : path_t :=
  let '(dir, file) := split_path path in
  (if is_absolute path then dir else join_dir target dir, file).

(** The paths an export refuses to copy. *)
Fixpoint contains_dots (cs : list ascii) : bool :=
  match cs with
  | "."%char :: ("."%char :: _) => true
  | _ :: cs => contains_dots cs
  | [] => false
  end.

Definition safe_path (p : string) : bool :=
  negb (contains_dots (list_ascii_of_string p)) &&
  match list_ascii_of_string p with c :: _ => negb (Ascii.eqb c slash) | [] => true end.

(** ** The Avro manifests *)
Record IceManifestEntry : Type := {
  ie_added : bool;
  ie_snapshot_id : Z;
  ie_sequence_number : Z;
  ie_file_sequence_number : Z;
  ie_file_path : string;
  ie_file_size : Z;
  ie_record_count : Z;
}.

Definition avro_entry (m : Manifest) (table_location : string) (exported_sizes : gmap string Z) (e : ManifestEntry)
    : IceManifestEntry :=
  {| ie_added := String.eqb (me_status e) "added"; ie_snapshot_id := m_snapshot_id m;
     ie_sequence_number := sequence_number m; ie_file_sequence_number := sequence_number m;
     ie_file_path := String.append (trim_slashes table_location) (String.append "/" (me_path e));
     ie_file_size := default (file_size (me_meta e)) (exported_sizes !! me_path e);
     ie_record_count := num_rows (me_meta e) |}.

Definition avro_entries (m : Manifest) (table_location : string) (exported_sizes : gmap string Z) : list IceManifestEntry :=
  map (avro_entry m table_location exported_sizes) (List.filter is_live (m_entries m)).

(** ** The metadata *)
Definition jset (k : string) (v : Json) (j : Json) : Json :=
  match j with JObj l => JObj (jinsert k v l) | _ => j end.

(** [metadata\["snapshots"\]\[0\]\["manifest-list"\] = path], if there is such a
    snapshot. *)
Definition set_manifest_list (path : string) (metadata : Json) : Json :=
  match jget "snapshots" metadata with
  | Some (JArr (snap :: snaps)) => jset "snapshots" (JArr (jset "manifest-list" (JStr path) snap :: snaps)) metadata
  | _ => metadata
  end.

Section export.
Context {F : Type} `{AR : !Arrow, PF : !ParquetFile F, FBs : !FileBytes F}.

(** The ZSTD [ArrowWriter] on the projected schema: the file, or what it
    leaves behind when a batch could not be read or written. *)
Context (arrow_zstd : F -> list (nat * Z) -> list RecordBatch -> option bytes) (aborted : bytes).
(** The iceberg crate's schema builder, and its encoders of the manifest and of
    the manifest list. *)
Context (builder : IcebergSchema -> option IcebergSchema).
Context (avro_manifest : IcebergSchema -> Z -> list IceManifestEntry -> option bytes).
Context (avro_manifest_list : Z -> option Z -> Z -> string -> list IceManifestEntry -> option bytes).
Context (to_vec_pretty : Json -> option bytes) (pkg_version : string).

(** *** Data files *)
Definition written_batches (src : F) (cols : list (nat * Z)) (batches : list (option RecordBatch)) : res bytes :=
  bs ← mapM (fun b => ok_or b (Iceberg "read batch")) batches;
  ok_or (arrow_zstd src cols bs) (Iceberg "write batch").

(** [rewrite_parquet_user_columns_only], with the file it writes. *)
Definition rewrite_to (src_bytes : bytes) (user_col_names : list string) (dst : path_t) : io (res Z) :=
  let src := file_of src_bytes in
  reader <-? mret (export_reader src user_col_names);
  io_write dst [] ;?
  match written_batches src reader.1 reader.2 with
  | Ok out =>
      w ← io_write dst out;
      match w with
      | Ok _ => io_reads (fun d => ok_or ((fun b => Z.of_nat (length b)) <$> read_file d dst) Io)
      | _ => mret (Err (Iceberg "write batch"))
      end
  | Err e => _ ← io_write dst aborted; mret (Err e)
  | Panic => mret Panic
  end.

Fixpoint copy_data_files_for_export (target : string) (user_col_names : list string) (exported_sizes : gmap string Z)
    (es : list ManifestEntry) : io (res (gmap string Z)) :=
  match es with
  | [] => mret (Ok exported_sizes)
  | e :: es =>
      if String.eqb (me_status e) "deleted" then copy_data_files_for_export target user_col_names exported_sizes es
      else if negb (safe_path (me_path e)) then mret (Err (Iceberg "unsafe path in manifest entry"))
      else
        let dst := join_target target (me_path e) in
        io_create_dir_all dst.1 ;?
        src_bytes <-? io_read (split_path (me_path e));
        size <-? rewrite_to src_bytes user_col_names dst;
        copy_data_files_for_export target user_col_names (<[me_path e := size]> exported_sizes) es
  end.

(** *** Metadata *)
Definition metadata_dir (target : string) : string := join_dir target "metadata".

Definition avro_manifest_path (target manifest_uuid : string) : path_t :=
  (metadata_dir target, String.append manifest_uuid "-m0.avro").
Definition avro_list_path (target : string) (m : Manifest) : path_t :=
  (metadata_dir target,
   String.append "snap-" (String.append (show_string (m_snapshot_id m)) (String.append "-0-" (String.append (table_uuid m) ".avro")))).
Definition metadata_path (target : string) (m : Manifest) : path_t :=
  (metadata_dir target, String.append "v" (String.append (show_string (m_snapshot_id m)) ".metadata.json")).

(** An Avro writer's output: one file. *)
Definition write_avro (p : path_t) (encoded : option bytes) (msg : string) : io (res unit) :=
  match encoded with
  | None => mret (Err (Iceberg msg))
  | Some b => w ← io_write p b; mret (match w with Ok _ => Ok tt | _ => Err (Iceberg msg) end)
  end.

Definition write_iceberg_avro_manifests (m : Manifest) (target table_location manifest_uuid : string)
    (exported_sizes : gmap string Z) : io (res string) :=
  let entries := avro_entries m table_location exported_sizes in
  let manifest_avro_uri := String.append (trim_slashes table_location)
        (String.append "/metadata/" (String.append manifest_uuid "-m0.avro")) in
  iceberg_schema <-? mret (to_iceberg_rs_schema builder (m_schema m));
  write_avro (avro_manifest_path target manifest_uuid)
    (avro_manifest iceberg_schema (m_snapshot_id m) entries) "manifest Avro write" ;?
  write_avro (avro_list_path target m)
    (avro_manifest_list (m_snapshot_id m) (parent_snapshot_id m) (sequence_number m) manifest_avro_uri entries)
    "manifest-list close" ;?
  mret (Ok (manifest_list_path m table_location)).

Definition write_synced (p : path_t) (b : bytes) : io (res unit) := io_write p b ;? io_sync p.

(** [canonical] is what [canonicalize(target)] returns, or the target. *)
Definition export_to_iceberg (m : Manifest) (target canonical manifest_uuid : string) : io (res path_t) :=
  io_create_dir_all (metadata_dir target) ;?
  let table_location := String.append "file://" canonical in
  exported_sizes <-? copy_data_files_for_export target (map name (columns (m_schema m))) ∅ (m_entries m);
  manifest_list_avro_path <-? write_iceberg_avro_manifests m target table_location manifest_uuid exported_sizes;
  metadata_value <-? mret (to_iceberg_v2_table_metadata pkg_version m table_location);
  json <-? mret (ok_or (to_vec_pretty (set_manifest_list manifest_list_avro_path metadata_value))
                   (Iceberg "iceberg metadata serialize"));
  write_synced (metadata_path target m) json ;?
  write_synced (target, HINT.2) (hint_bytes (m_snapshot_id m)) ;?
  write_synced (metadata_dir target, HINT.2) (hint_bytes (m_snapshot_id m)) ;?
  mret (Ok (metadata_path target m)).
End export.

(** ** Paths below the target *)

(** [target.join(dir)/file] of a relative [dir] without [..], and a [file]
    that is not [..]. *)
Definition confined (target : string) (p : path_t) : Prop :=
  exists dir, contains_dots (list_ascii_of_string dir) = false /\ is_absolute dir = false /\
    p.1 = join_dir target dir /\ p.2 <> ".."%string.

Lemma contains_dots_app a b : contains_dots (a ++ b) = false -> contains_dots a = false /\ contains_dots b = false.
Proof.
  induction a as [|x a IH]; [done|]. cbn [app contains_dots]. intros H.
  assert (contains_dots (a ++ b) = false) as [Ha Hb]%IH.
  { destruct x as [[] [] [] [] [] [] [] []]; cbn in H; try done. destruct (a ++ b) as [|y l]; [done|].
    by destruct y as [[] [] [] [] [] [] [] []]. }
  split; [|done]. destruct x as [[] [] [] [] [] [] [] []]; cbn in H |- *; try done.
  destruct a as [|y a]; [done|]. by destruct y as [[] [] [] [] [] [] [] []].
Qed.

Lemma split_path_spec path :
  (split_path path).1 = ""%string /\ (split_path path).2 = path \/
  list_ascii_of_string path = list_ascii_of_string (split_path path).1 ++ slash :: list_ascii_of_string (split_path path).2.
Proof.
  unfold split_path. pose proof (rsplit_elem slash (list_ascii_of_string path)) as H.
  destruct (rsplit slash _) as [[a b]|]; [right|by left]. cbn [fst snd].
  rewrite !list_ascii_of_string_of_list_ascii. apply H.
Qed.

Lemma safe_path_spec path : safe_path path = true ->
  contains_dots (list_ascii_of_string path) = false /\ is_absolute path = false.
Proof.
  unfold safe_path, is_absolute. destruct (contains_dots _); [done|]. destruct (list_ascii_of_string path) as [|c l]; [done|].
  cbn [negb andb]. by destruct (Ascii.eqb c slash).
Qed.

Lemma join_target_confined target path : safe_path path = true -> confined target (join_target target path).
Proof.
  intros [Hd Ha]%safe_path_spec. unfold join_target. pose proof (split_path_spec path) as Hs.
  destruct (split_path path) as [dir file] eqn:E. rewrite Ha. cbn [fst snd] in Hs. exists dir.
  destruct Hs as [[-> ->]|Hs].
  - split_and!; [done..|]. cbn [snd]. by intros ->.
  - rewrite Hs in Hd. apply contains_dots_app in Hd as [Hdir Hfile]. split_and!; [done| |done|].
    + unfold is_absolute in *. rewrite Hs in Ha. destruct (list_ascii_of_string dir); [done|exact Ha].
    + cbn [snd]. by intros ->.
Qed.

Lemma metadata_confined target f : f <> ".."%string -> confined target (metadata_dir target, f).
Proof. intros Hf. exists "metadata"%string. by split_and!. Qed.

Lemma join_dir_inj root a b : root <> ""%string -> join_dir root a = join_dir root b -> a = b.
Proof.
  intros Hr. unfold join_dir. destruct (String.eqb_spec root ""); [done|].
  destruct (String.eqb_spec a ""), (String.eqb_spec b ""); subst; try done; intros E;
    apply (f_equal list_ascii_of_string) in E; rewrite ?append_ascii in E; cbn in E.
  - by rewrite <- (app_nil_r (list_ascii_of_string root)) in E at 1; apply app_inv_head in E.
  - by rewrite <- (app_nil_r (list_ascii_of_string root)) in E; rewrite <- app_assoc in E; apply app_inv_head in E.
  - apply app_inv_head in E. injection E as E. apply (f_equal string_of_list_ascii) in E.
    by rewrite !string_of_list_ascii_of_string in E.
Qed.

(** ** What an export keeps and what it has written *)
Section holds.
Context (T : path_t -> Prop) (d0 : Disk).

(** Files written so far, with their contents, and whether they are synced. *)
Abbreviation facts := (list (path_t * (bytes * bool))).

Definition fact_at (d : Disk) (k : path_t * (bytes * bool)) : Prop := written d k.1 k.2.1 k.2.2 /\ ~ GH k.1.

Record Holds (K : facts) (d : Disk) : Prop := {
  h_stays : stays T d0 d;
  h_tidy : tidy GH d;
  h_facts : Forall (fact_at d) K;
}.

Lemma holds_weaken K K' d : (forall k, k ∈ K' -> k ∈ K) -> Holds K d -> Holds K' d.
Proof.
  intros HK [Hs Ht Hf]. split; [done..|]. apply Forall_forall. intros k Hk. rewrite Forall_forall in Hf. auto.
Qed.

Lemma written_inode d p q b s : tidy GH d -> written d q b s -> ~ GH q -> p <> q ->
  exists i, lookup_path d q = Some i /\ inodes d !! i = Some {| i_data := b; i_synced := s |} /\
    lookup_path d p <> Some i /\ (i < next_ino d)%nat.
Proof.
  intros [Hino Hsh] (i & Hl & Hi) Hq Hpq. exists i. split_and!; [done..| |].
  - intros Hp. destruct (Hsh p q i) as [|[? ?]]; [rewrite <- Hp; apply poss_current|rewrite <- Hl; apply poss_current|done..].
  - destruct (Hino q i) as [? _]; [rewrite <- Hl; apply poss_current|done].
Qed.

Lemma written_write_other d p q b s c : tidy GH d -> written d q b s -> ~ GH q -> p <> q -> written (write_file p c d) q b s.
Proof.
  intros Ht Hw Hg Hpq. destruct (written_inode d p q b s Ht Hw Hg Hpq) as (i & Hl & Hi & Hp & Hlt).
  exists i. split; [by rewrite lookup_write_other|].
  destruct (write_file_spec p c d) as (j & _ & -> & [(Hj & _)|(_ & -> & _)]); rewrite lookup_insert_ne; [done| |done|lia].
  intros ->. done.
Qed.

Lemma written_sync_other d p q b s : tidy GH d -> written d q b s -> ~ GH q -> p <> q -> written (sync_file p d) q b s.
Proof.
  intros Ht Hw Hg Hpq. destruct (written_inode d p q b s Ht Hw Hg Hpq) as (i & Hl & Hi & Hp & _).
  exists i. split; [rewrite (lookup_path_dirs d) by apply sync_file_dirs; done|].
  by rewrite sync_file_inodes, bool_decide_false.
Qed.

Lemma holds_write K p b d : ~ T p -> Holds K d ->
  (forall k, k ∈ K -> k.1 <> p) -> ~ GH p -> Holds ((p, (b, false)) :: K) (write_file p b d).
Proof.
  intros Hp [Hs Ht Hf] Hd Hg. split; [by eapply stays_trans, stays_write|by apply tidy_write|]. constructor.
  - split; [apply written_write|done].
  - rewrite Forall_forall in Hf |- *. intros k Hk. destruct (Hf k Hk) as [Hw Hgk]. split; [|done].
    apply written_write_other; [done..|]. intros E. by apply (Hd k Hk).
Qed.

Lemma holds_sync K p b s d : Holds ((p, (b, s)) :: K) d -> (forall k, k ∈ K -> k.1 <> p) ->
  Holds ((p, (b, true)) :: K) (sync_file p d).
Proof.
  intros [Hs Ht Hf] Hd. apply Forall_cons in Hf as [[Hw Hg] Hf]. split;
    [by eapply stays_trans, stays_sync_file|by apply tidy_sync_file|]. constructor.
  - split; [by eapply written_sync|done].
  - rewrite Forall_forall in Hf |- *. intros k Hk. destruct (Hf k Hk) as [Hw' Hgk]. split; [|done].
    apply written_sync_other; [done..|]. intros E. by apply (Hd k Hk).
Qed.

(** The facts about other files. *)
Definition drop_path (p : path_t) (K : facts) : facts := List.filter (fun k => negb (bool_decide (k.1 = p))) K.

Lemma elem_drop_path p K k : k ∈ drop_path p K <-> k ∈ K /\ k.1 <> p.
Proof.
  unfold drop_path. rewrite !list_elem_of_In, filter_In, negb_true_iff, bool_decide_eq_false. done.
Qed.

Local Abbreviation Stay := (stays T d0).

Lemma triple_write K p b : ~ T p -> ~ GH p ->
  triple (Holds K) (io_write p b)
    (fun r d => Stay d /\ match r with Ok _ => Holds ((p, (b, false)) :: drop_path p K) d | _ => True end) Stay.
Proof.
  intros Hp Hg. apply triple_syscall; cbn [fst snd].
  - by intros d [? _ _].
  - intros d HK. assert (Holds ((p, (b, false)) :: drop_path p K) (write_file p b d)) as H.
    { apply holds_write; [done| |by intros k [_ ?]%elem_drop_path|done].
      eapply holds_weaken; [|exact HK]. by intros k [? _]%elem_drop_path. }
    split; [apply H|done].
  - intros d junk [Hs _ _]. split; [by eapply stays_trans, stays_write|done].
Qed.

Lemma triple_sync K p b s : (forall k, k ∈ K -> k.1 <> p) ->
  triple (Holds ((p, (b, s)) :: K)) (io_sync p)
    (fun r d => Stay d /\ match r with Ok _ => Holds ((p, (b, true)) :: K) d | _ => True end) Stay.
Proof.
  intros Hd. apply triple_syscall; cbn [fst snd].
  - by intros d [? _ _].
  - intros d HK. pose proof (holds_sync K p b s d HK Hd) as H. destruct (lookup_path d p) eqn:E; cbn [fst snd].
    + split; [apply H|done].
    + split; [apply HK|done].
  - intros d _ HK. split; [apply HK|done].
Qed.

Lemma triple_write_synced K p b : ~ T p -> ~ GH p -> 
  triple (Holds K) (write_synced p b)
    (fun r d => Stay d /\ match r with Ok _ => Holds ((p, (b, true)) :: drop_path p K) d | _ => True end) Stay.
Proof.
  intros Hp Hg. eapply triple_try with (R := fun _ => Holds ((p, (b, false)) :: drop_path p K)).
  - eapply triple_conseq; [by apply (triple_write K p b)|done| |done]. intros [u|e|] d [Hs H]; [exact H|by split..].
  - intros _. apply triple_sync. by intros k [_ ?]%elem_drop_path.
Qed.

(** Programs that change nothing here. *)
Lemma triple_create_dir K dn :
  triple (Holds K) (io_create_dir_all dn)
    (fun r d => Stay d /\ match r with Ok _ => Holds K d | _ => True end) Stay.
Proof.
  apply triple_syscall; cbn [fst snd]; [by intros d [? _ _]| |]; intros d; [|intros _]; intros HK; (split; [apply HK|done]).
Qed.
End holds.

(** ** The names an export writes *)
Lemma join_dir_nonempty target dir : target <> ""%string -> join_dir target dir <> ""%string.
Proof.
  intros Ht. unfold join_dir. destruct (String.eqb_spec dir ""); [done|]. destruct (String.eqb_spec target ""); [done|].
  intros E. by destruct target.
Qed.

Lemma below_not_GH target dir f : target <> ""%string -> ~ GH (join_dir target dir, f).
Proof. intros Ht [E|E]; injection E as E _; by eapply join_dir_nonempty. Qed.

Lemma metadata_not_GH target f : target <> ""%string -> ~ GH (metadata_dir target, f).
Proof. apply below_not_GH. Qed.

Lemma root_not_GH target f : target <> ""%string -> ~ GH (target, f).
Proof. intros Ht [E|E]; by injection E as E _. Qed.

Lemma root_not_metadata target (f g : string) : target <> ""%string -> (target, f) <> (metadata_dir target, g).
Proof. intros Ht E. injection E as E _. by apply (join_dir_inj target "" "metadata") in E. Qed.

Lemma ends_avro_manifest target u : ends (avro_manifest_path target u).2 ".avro".
Proof. exists (String.append u "-m0"). cbn [avro_manifest_path snd]. by rewrite append_assoc. Qed.
Lemma ends_avro_list target m : ends (avro_list_path target m).2 ".avro".
Proof.
  exists (String.append "snap-" (String.append (show_string (m_snapshot_id m)) (String.append "-0-" (table_uuid m)))).
  cbn [avro_list_path snd]. by rewrite !append_assoc.
Qed.
Lemma ends_metadata target m : ends (metadata_path target m).2 ".json".
Proof.
  exists (String.append "v" (String.append (show_string (m_snapshot_id m)) ".metadata")). cbn [metadata_path snd].
  by rewrite !append_assoc.
Qed.
Lemma ends_hint_text dir : ends ((dir, HINT.2) : path_t).2 ".text".
Proof. by exists "version-hint"%string. Qed.
#[export] Hint Resolve ends_avro_manifest ends_avro_list ends_metadata ends_hint_text : paths.

(** A UUID starts with a hexadecimal digit; the manifest list's name does not. *)
Definition uuid_like (u : string) : Prop :=
  exists c, String.get 0 u = Some c /\ c <> "s"%char /\ c <> "."%char.

Lemma manifest_not_list target target' m u : uuid_like u -> avro_manifest_path target u <> avro_list_path target' m.
Proof. intros (c & Hc & Hs & _) [= _ E]. destruct u as [|c' u]; [done|]. injection Hc as ->. by injection E as ->. Qed.

(** The data files of a table are below [data]. *)
Definition data_entry (e : ManifestEntry) : Prop := exists dir, (split_path (me_path e)).1 = String.append "data" dir.

Lemma join_target_dir target path : is_absolute path = false ->
  join_target target path = (join_dir target (split_path path).1, (split_path path).2).
Proof. intros Ha. unfold join_target. destruct (split_path path). by rewrite Ha. Qed.

Lemma join_target_inj target p q : target <> ""%string -> is_absolute p = false -> is_absolute q = false ->
  join_target target p = join_target target q -> split_path p = split_path q.
Proof.
  intros Ht Hp Hq. rewrite !join_target_dir by done. intros [= E1 E2]. apply join_dir_inj in E1; [|done].
  by destruct (split_path p), (split_path q); cbn in *; subst.
Qed.

Lemma data_not_metadata target e f : target <> ""%string -> is_absolute (me_path e) = false -> data_entry e ->
  join_target target (me_path e) <> (metadata_dir target, f) /\ join_target target (me_path e) <> (target, f).
Proof.
  intros Ht Ha [dir Hd]. rewrite join_target_dir, Hd by done.
  split; intros [= E _]; [apply (join_dir_inj target _ "metadata") in E|apply (join_dir_inj target _ "") in E]; done.
Qed.

Lemma join_target_not_GH target p : target <> ""%string -> is_absolute p = false -> ~ GH (join_target target p).
Proof. intros. rewrite join_target_dir by done. by apply below_not_GH. Qed.

(** ** What an export writes *)
Section spec.
Context {F : Type} `{AR : !Arrow, PF : !ParquetFile F, FBs : !FileBytes F}.
Context (arrow_zstd : F -> list (nat * Z) -> list RecordBatch -> option bytes) (aborted : bytes).
Context (builder : IcebergSchema -> option IcebergSchema).
Context (avro_manifest : IcebergSchema -> Z -> list IceManifestEntry -> option bytes).
Context (avro_manifest_list : Z -> option Z -> Z -> string -> list IceManifestEntry -> option bytes).
Context (to_vec_pretty : Json -> option bytes) (pkg_version : string).
Context (target : string) (d0 : Disk).

Definition outside (p : path_t) : Prop := ~ confined target p.

(** *** Whatever fails, only files below the target change *)
Local Abbreviation Stay := (stays outside d0).

Lemma stay_write p b : confined target p -> invariant Stay (io_write p b).
Proof. intros Hp. apply inv_write. by intros H. Qed.

Lemma stay_rewrite src names dst : confined target dst -> invariant Stay (rewrite_to arrow_zstd aborted src names dst).
Proof.
  intros Hd. unfold rewrite_to. apply invariant_try; [apply invariant_ret|]. intros reader.
  apply invariant_try; [by apply stay_write|]. intros _.
  destruct (written_batches _ _ _ _) as [out|e|]; [| |apply invariant_ret].
  - apply invariant_bind; [by apply stay_write|]. intros [u|e|]; [by apply invariant_syscall|apply invariant_ret..].
  - apply invariant_bind; [by apply stay_write|]. intros _. apply invariant_ret.
Qed.

Lemma stay_copy names sizes es : invariant Stay (copy_data_files_for_export arrow_zstd aborted target names sizes es).
Proof.
  revert sizes. induction es as [|e es IH]; intros sizes; [apply invariant_ret|]. cbn [copy_data_files_for_export].
  destruct (String.eqb _ _); [apply IH|]. destruct (safe_path (me_path e)) eqn:Es; [|apply invariant_ret]. cbn [negb].
  apply invariant_try; [apply inv_create_dir|]. intros _. apply invariant_try; [apply inv_read|]. intros src.
  apply invariant_try; [by apply stay_rewrite, join_target_confined|]. intros size. apply IH.
Qed.

Lemma stay_avro p encoded msg : confined target p -> invariant Stay (write_avro p encoded msg).
Proof.
  intros Hp. destruct encoded as [b|]; [|apply invariant_ret]. cbn.
  apply invariant_bind; [by apply stay_write|]. intros w. apply invariant_ret.
Qed.

Lemma stay_write_synced p b : confined target p -> invariant Stay (write_synced p b).
Proof. intros Hp. apply invariant_try; [by apply stay_write|]. intros _. apply inv_sync. Qed.

Lemma export_stays m canonical uuid : uuid_like uuid ->
  invariant Stay (export_to_iceberg arrow_zstd aborted builder avro_manifest avro_manifest_list to_vec_pretty pkg_version m target canonical uuid).
Proof.
  intros (c & Hc & _ & Hdot). unfold export_to_iceberg. apply invariant_try; [apply inv_create_dir|]. intros _.
  apply invariant_try; [apply stay_copy|]. intros sizes. apply invariant_try.
  { unfold write_iceberg_avro_manifests. apply invariant_try; [apply invariant_ret|]. intros isch.
    apply invariant_try; [apply stay_avro, metadata_confined|].
    { destruct uuid as [|c' u]; [done|]. injection Hc as ->. by intros [= ->]. }
    intros _. apply invariant_try; [by apply stay_avro, metadata_confined|]. intros _. apply invariant_ret. }
  intros list. apply invariant_try; [apply invariant_ret|]. intros metadata. apply invariant_try; [apply invariant_ret|].
  intros json. apply invariant_try; [by apply stay_write_synced, metadata_confined|]. intros _.
  apply invariant_try; [apply stay_write_synced; by exists ""%string|]. intros _.
  apply invariant_try; [by apply stay_write_synced, metadata_confined|]. intros _. apply invariant_ret.
Qed.

(** *** What is there when it returns *)
Context (Htarget : target <> ""%string) (Htidy : tidy GH d0).

(** The copy of a data file. *)
Definition exported (names : list string) (src_bytes : bytes) : res bytes :=
  reader ← export_reader (file_of src_bytes) names; written_batches arrow_zstd (file_of src_bytes) reader.1 reader.2.

Definition exported_at (names : list string) (e : ManifestEntry) : res bytes :=
  src ← ok_or (read_file d0 (split_path (me_path e))) Io; exported names src.

Definition copy_of (names : list string) (e : ManifestEntry) : bytes :=
  match exported_at names e with Ok b => b | _ => [] end.

Definition copy_fact (names : list string) (e : ManifestEntry) : path_t * (bytes * bool) :=
  (join_target target (me_path e), (copy_of names e, false)).

(** The entries that have been copied, and the sizes of their copies. *)
Definition copied (names : list string) (sizes : gmap string Z) (es : list ManifestEntry) : Prop :=
  forall e, e ∈ es -> is_absolute (me_path e) = false /\ exported_at names e = Ok (copy_of names e) /\
    sizes !! me_path e = Some (Z.of_nat (length (copy_of names e))).

Local Abbreviation Holds := (Holds outside d0).


(** [Q] holds if the program returns [Ok]. *)
Definition good {A} (Q : A -> Disk -> Prop) (r : res A) (d : Disk) : Prop := match r with Ok a => Q a d | _ => True end.
Local Abbreviation spec P m Q := (triple P m (good Q) (fun _ => True)).

Lemma spec_try {A B} P (m : io (res A)) (k : A -> io (res B)) R Q :
  spec P m R -> (forall a, spec (R a) (k a) Q) -> spec P (io_try k m) Q.
Proof. intros Hm Hk. apply triple_try with (R := R); [|done]. eapply triple_conseq; [exact Hm|done| |done]. by intros [a|e|] d. Qed.

Lemma spec_pure {A} P (r : res A) Q : (forall a d, r = Ok a -> P d -> Q a d) -> spec P (mret r) Q.
Proof. intros H. apply triple_ret. intros d Hd. destruct r; [|done..]. by apply H. Qed.

Lemma spec_err {A} P e Q : spec P (mret (@Err A e) : io (res A)) Q.
Proof. by apply triple_ret. Qed.

Lemma spec_read p P (Q : bytes -> Disk -> Prop) :
  (forall d b, P d -> read_file d p = Some b -> Q b d) -> spec P (io_read p) Q.
Proof. intros H. apply triple_read; [done|intros d b HP Hr; by apply H|done]. Qed.

Lemma spec_write K p b : confined target p -> ~ GH p ->
  spec (Holds K) (io_write p b) (fun _ => Holds ((p, (b, false)) :: drop_path p K)).
Proof.
  intros Hp Hg. eapply triple_conseq; [apply (triple_write outside d0 K p b); [by intros H|done]|done| |done]. by intros [u|e|] d [_ H].
Qed.

Lemma spec_rewrite K src names dst : confined target dst -> ~ GH dst ->
  spec (Holds K) (rewrite_to arrow_zstd aborted src names dst) (fun size d =>
    exists out, exported names src = Ok out /\ size = Z.of_nat (length out) /\
      Holds ((dst, (out, false)) :: drop_path dst K) d).
Proof.
  intros Hd Hg. unfold rewrite_to, exported.
  eapply spec_try with (R := fun reader d => export_reader (file_of src) names = Ok reader /\ Holds K d).
  { apply spec_pure. by intros reader d -> HK. }
  intros reader. apply triple_pure. intros ->. rewrite Ok_bind.
  eapply spec_try with (R := fun _ => Holds (drop_path dst K)).
  { eapply triple_conseq; [by apply (spec_write K dst [])|done| |done]. intros [u|e|] d H; [|done..].
    eapply holds_weaken; [|exact H]. intros k Hk. by right. }
  intros _. destruct (written_batches _ _ _ _) as [out|e|] eqn:Ew.
  - eapply triple_bind; [by apply (spec_write (drop_path dst K) dst out)|]. intros [u|e|]; [|apply spec_err..].
    cbn [good]. apply triple_syscall; [done| |done]. cbn [fst snd]. intros d H.
    pose proof (h_facts _ _ _ _ H) as [[(i & Hl & Hi) _] _]%Forall_cons. cbn in Hl, Hi.
    unfold read_file. rewrite Hl. cbn. rewrite Hi. cbn. exists out. split_and!; [done..|].
    eapply holds_weaken; [|exact H]. intros k' [->|Hk]%elem_of_cons; [left|right].
    apply elem_drop_path. split; [done|]. by apply elem_drop_path in Hk as [_ ?].
  - apply triple_bind with (R := fun _ _ => True); [by apply triple_any|]. intros _. apply spec_err.
  - by apply triple_ret.
Qed.

(** The sources are outside the target. *)
Definition source_ok (e : ManifestEntry) : Prop := outside (split_path (me_path e)) /\ ~ GH (split_path (me_path e)).

Lemma copied_next names sizes ds e out : copied names sizes ds -> is_absolute (me_path e) = false ->
  exported_at names e = Ok out -> copied names (<[me_path e := Z.of_nat (length out)]> sizes) (e :: ds).
Proof.
  intros Hds Ha He e' Hin. destruct (decide (me_path e' = me_path e)) as [E|Hne].
  - assert (E' : exported_at names e' = Ok out) by (unfold exported_at in *; by rewrite E).
    unfold copy_of. rewrite E', E, lookup_insert_eq. by split_and!.
  - apply elem_of_cons in Hin as [->|Hin]; [done|]. rewrite lookup_insert_ne by done. by apply Hds.
Qed.

Lemma holds_next names ds e out d K : (forall k, k ∈ K <-> k ∈ map (copy_fact names) ds) ->
  (forall e', e' ∈ ds -> is_absolute (me_path e') = false) -> is_absolute (me_path e) = false ->
  exported_at names e = Ok out -> Holds ((join_target target (me_path e), (out, false)) :: drop_path (join_target target (me_path e)) K) d ->
  Holds (map (copy_fact names) (e :: ds)) d.
Proof.
  intros HK Hds Ha He. apply holds_weaken. cbn [map]. unfold copy_fact at 1, copy_of at 1. rewrite He.
  intros k [->|Hk]%elem_of_cons; [by left|]. destruct (decide (k.1 = join_target target (me_path e))) as [E|Hne].
  - apply list_elem_of_In, in_map_iff in Hk as (e' & <- & Hin%list_elem_of_In). apply elem_of_cons. left. unfold copy_fact in E |- *. cbn [fst] in E.
    rewrite E. f_equal. f_equal. pose proof (join_target_inj _ _ _ Htarget (Hds e' Hin) Ha E) as Es.
    unfold copy_of, exported_at in *. by rewrite Es, He.
  - right. apply elem_drop_path. split; [by apply HK|done].
Qed.

Lemma spec_copy names es : forall ds sizes,
  Forall source_ok (List.filter is_live es) -> copied names sizes ds ->
  spec (Holds (map (copy_fact names) ds)) (copy_data_files_for_export arrow_zstd aborted target names sizes es)
    (fun sizes' d => exists ds', (forall e, e ∈ ds' <-> e ∈ ds \/ e ∈ List.filter is_live es) /\
      copied names sizes' ds' /\ Holds (map (copy_fact names) ds') d).
Proof.
  induction es as [|e es IH]; intros ds sizes Hsrc Hds; cbn [copy_data_files_for_export].
  { apply spec_pure. intros sizes' d [= <-] HK. exists ds. split_and!; [|done..].
    intros e. cbn. rewrite elem_of_nil. tauto. }
  cbn [List.filter] in Hsrc |- *.
  assert (El : is_live e = negb (String.eqb (me_status e) "deleted")) by done. rewrite El in *.
  destruct (String.eqb (me_status e) "deleted"); cbn [negb] in Hsrc |- *; [by apply IH|].
  apply Forall_cons in Hsrc as [[Hout Hgh] Hsrc].
  destruct (safe_path (me_path e)) eqn:Es; cbn [negb]; [|apply spec_err]. destruct (safe_path_spec _ Es) as [_ Ha].
  set (K := map (copy_fact names) ds). eapply spec_try with (R := fun _ => Holds K).
  { eapply triple_conseq; [apply (triple_create_dir outside d0 K)|done| |done]. by intros [u|?|] d [_ H]. }
  intros _. eapply spec_try with (R := fun src d => read_file d0 (split_path (me_path e)) = Some src /\ Holds K d).
  { apply spec_read. intros d b HK Hr. split; [|done]. rewrite <- Hr. symmetry. apply (h_stays _ _ _ _ HK); [|done..].
    exact Htidy. }
  intros src. apply triple_pure. intros Hsrc0.
  eapply spec_try; [apply spec_rewrite; [by apply join_target_confined|by apply join_target_not_GH]|].
  intros size. apply triple_exists. intros out. apply triple_pure. intros Hexp. apply triple_pure. intros ->.
  assert (He : exported_at names e = Ok out) by (unfold exported_at; by rewrite Hsrc0).
  eapply triple_conseq; [apply (IH (e :: ds) (<[me_path e := Z.of_nat (length out)]> sizes) Hsrc); by apply copied_next| | |done].
  - intros d. apply holds_next; [done|intros e' Hin; by apply Hds|done|done].
  - intros [sizes'|?|] d; [|done..]. intros (ds' & Hin & Hrest). exists ds'. split; [|exact Hrest].
    intros e'. rewrite Hin, !elem_of_cons. tauto.
Qed.

Lemma spec_fact K p b s : (forall k, k ∈ K -> k.1 <> p) ->
  forall d, Holds ((p, (b, s)) :: drop_path p K) d -> Holds ((p, (b, s)) :: K) d.
Proof.
  intros HK d. apply holds_weaken. intros k [->|Hk]%elem_of_cons; [by left|right]. apply elem_drop_path. split; [done|by apply HK].
Qed.

Lemma spec_avro K p encoded msg : confined target p -> ~ GH p -> (forall k, k ∈ K -> k.1 <> p) ->
  spec (Holds K) (write_avro p encoded msg) (fun _ d => exists b, encoded = Some b /\ Holds ((p, (b, false)) :: K) d).
Proof.
  intros Hp Hg HK. destruct encoded as [b|]; [|apply spec_err]. cbn [write_avro].
  eapply triple_bind; [by apply (spec_write K p b)|]. intros [u|e|]; apply triple_ret; intros d H; [|done..].
  exists b. split; [done|]. by apply spec_fact.
Qed.

Lemma spec_synced K p b : confined target p -> ~ GH p -> (forall k, k ∈ K -> k.1 <> p) ->
  spec (Holds K) (write_synced p b) (fun _ => Holds ((p, (b, true)) :: K)).
Proof.
  intros Hp Hg HK. eapply triple_conseq; [apply (triple_write_synced outside d0 K p b); [by intros H|done]|done| |done].
  intros [u|e|] d [_ H]; [|done..]. by apply spec_fact.
Qed.

(** *** What refers to what

    The file [file] of the directory [dir] below the target, and the URI that
    names it below the table's location. *)
Definition names_file (location uri : string) (p : path_t) : Prop :=
  exists dir file, p = (join_dir target dir, file) /\ dir <> ""%string /\
    uri = String.append (trim_slashes location) (String.append "/" (String.append dir (String.append "/" file))).

(** The manifest list that a metadata file names. *)
Definition metadata_manifest_list (metadata : Json) : option string :=
  snaps ← jarr "snapshots" metadata; snap ← head snaps; jstr "manifest-list" snap.

(** The Avro entry of a live file: its identity, and the name, the size and the
    contents of its copy. *)
Record entry_for (m : Manifest) (location : string) (d : Disk) (e : ManifestEntry) (ie : IceManifestEntry) : Prop := {
  en_added : ie_added ie = String.eqb (me_status e) "added";
  en_snapshot : ie_snapshot_id ie = m_snapshot_id m;
  en_sequence : ie_sequence_number ie = sequence_number m /\ ie_file_sequence_number ie = sequence_number m;
  en_rows : ie_record_count ie = num_rows (me_meta e);
  en_name : names_file location (ie_file_path ie) (join_target target (me_path e));
  en_copy : exists src copy, read_file d0 (split_path (me_path e)) = Some src /\
    exported (map name (columns (m_schema m))) src = Ok copy /\
    written d (join_target target (me_path e)) copy false /\ ie_file_size ie = Z.of_nat (length copy);
}.

(** The files of the export of [m], from the metadata to the copies. *)
Record ExportFiles (m : Manifest) (canonical uuid : string) (schema : IcebergSchema) (entries : list IceManifestEntry)
    (manifest_uri list_uri : string) (metadata : Json) (json manifest manifests : bytes) (d : Disk) : Prop := {
  ef_metadata : exists translated, to_iceberg_v2_table_metadata pkg_version m (String.append "file://" canonical) = Ok translated /\
    metadata = set_manifest_list list_uri translated;
  ef_json : to_vec_pretty metadata = Some json;
  ef_metadata_file : written d (metadata_path target m) json true;
  ef_hint_file : written d (target, HINT.2) (hint_bytes (m_snapshot_id m)) true;
  ef_metadata_hint_file : written d (metadata_dir target, HINT.2) (hint_bytes (m_snapshot_id m)) true;
  ef_list_named : metadata_manifest_list metadata = Some list_uri /\
    names_file (String.append "file://" canonical) list_uri (avro_list_path target m);
  ef_manifests : avro_manifest_list (m_snapshot_id m) (parent_snapshot_id m) (sequence_number m) manifest_uri entries = Some manifests;
  ef_manifests_file : written d (avro_list_path target m) manifests false;
  ef_manifest_named : names_file (String.append "file://" canonical) manifest_uri (avro_manifest_path target uuid);
  ef_schema : to_iceberg_rs_schema builder (m_schema m) = Ok schema;
  ef_manifest : avro_manifest schema (m_snapshot_id m) entries = Some manifest;
  ef_manifest_file : written d (avro_manifest_path target uuid) manifest false;
  ef_entries : Forall2 (entry_for m (String.append "file://" canonical) d) (List.filter is_live (m_entries m)) entries;
}.

Lemma manifest_list_named m location : names_file location (manifest_list_path m location) (avro_list_path target m).
Proof.
  eexists "metadata"%string, _. split; [reflexivity|]. split; [done|]. unfold manifest_list_path.
  reflexivity.
Qed.

Lemma manifest_named location uuid :
  names_file location (String.append (trim_slashes location) (String.append "/metadata/" (String.append uuid "-m0.avro")))
    (avro_manifest_path target uuid).
Proof. by eexists "metadata"%string, _. Qed.

Lemma set_manifest_list_named path m location j : to_iceberg_v2_table_metadata pkg_version m location = Ok j ->
  metadata_manifest_list (set_manifest_list path j) = Some path.
Proof.
  unfold to_iceberg_v2_table_metadata. intros (l & Hl & [= <-])%bind_Ok.
  assert (Hj : forall l, jfind "manifest-list" (jinsert "manifest-list" (JStr path) l) = Some (JStr path)).
  { clear. induction l as [|[k v] l IH]; [done|]. cbn. destruct (String.eqb k "manifest-list") eqn:E; cbn; [done|]. by rewrite E. }
  unfold metadata_manifest_list, set_manifest_list, jarr, jstr, jget.
  cbn [jfind jset jinsert String.eqb Ascii.eqb Bool.eqb head mbind option_bind]. by rewrite Hj.
Qed.

Lemma entry_named m location sizes e : data_entry e -> is_absolute (me_path e) = false ->
  names_file location (ie_file_path (avro_entry m location sizes e)) (join_target target (me_path e)).
Proof.
  intros [dir Hd] Ha. rewrite join_target_dir by done. exists (split_path (me_path e)).1, (split_path (me_path e)).2.
  split; [done|]. split; [by rewrite Hd|]. cbn [ie_file_path avro_entry]. do 2 f_equal.
  destruct (split_path_spec (me_path e)) as [[E _]|E]; [by rewrite E in Hd|].
  apply (f_equal string_of_list_ascii) in E. rewrite string_of_list_ascii_of_string in E. rewrite E at 1.
  rewrite <- (string_of_list_ascii_of_string (String.append (split_path (me_path e)).1 _)). by rewrite !append_ascii.
Qed.

Lemma copies_elsewhere names sizes ds f : copied names sizes ds -> (forall e, e ∈ ds -> data_entry e) ->
  forall k, k ∈ map (copy_fact names) ds -> k.1 <> (metadata_dir target, f) /\ k.1 <> (target, f).
Proof.
  intros Hc Hd k Hk. apply list_elem_of_In, in_map_iff in Hk as (e & <- & Hin%list_elem_of_In). cbn [copy_fact fst].
  apply data_not_metadata; [done|by apply Hc|by apply Hd].
Qed.

Lemma copies_files names sizes ds d e : copied names sizes ds -> e ∈ ds ->
  Forall (fact_at d) (map (copy_fact names) ds) -> exists src copy,
    read_file d0 (split_path (me_path e)) = Some src /\ exported names src = Ok copy /\
    written d (join_target target (me_path e)) copy false /\ sizes !! me_path e = Some (Z.of_nat (length copy)).
Proof.
  intros Hc Hin Hf. destruct (Hc e Hin) as (_ & He & Hs). unfold exported_at in He.
  destruct (read_file d0 _) as [src|]; [|done]. exists src, (copy_of names e). split_and!; [done|exact He| |done].
  rewrite Forall_forall in Hf. destruct (Hf (copy_fact names e)) as [Hw _]; [|exact Hw].
  apply list_elem_of_In, in_map. by apply list_elem_of_In.
Qed.

Lemma spec_export m canonical uuid : uuid_like uuid ->
  Forall source_ok (List.filter is_live (m_entries m)) -> Forall data_entry (List.filter is_live (m_entries m)) ->
  spec (Holds []) (export_to_iceberg arrow_zstd aborted builder avro_manifest avro_manifest_list to_vec_pretty pkg_version m target canonical uuid)
    (fun out d => out = metadata_path target m /\
      exists schema entries manifest_uri list_uri metadata json manifest manifests,
        ExportFiles m canonical uuid schema entries manifest_uri list_uri metadata json manifest manifests d).
Proof.
  intros Hu Hsrc Hdata. unfold export_to_iceberg. set (names := map name (columns (m_schema m))).
  eapply spec_try with (R := fun _ => Holds []).
  { eapply triple_conseq; [apply (triple_create_dir outside d0 [])|done| |done]. by intros [u|?|] d [_ H]. }
  intros _. eapply spec_try; [apply (spec_copy names (m_entries m) [] ∅ Hsrc)|].
  { intros e He. by apply not_elem_of_nil in He. }
  intros sizes. apply triple_exists. intros ds. apply triple_pure. intros Hin. apply triple_pure. intros Hc.
  assert (Hds : forall e, e ∈ ds -> data_entry e).
  { intros e He%Hin. rewrite Forall_forall in Hdata. apply Hdata. destruct He as [He|He]; [by apply not_elem_of_nil in He|done]. }
  pose proof (fun f => copies_elsewhere names sizes ds f Hc Hds) as Hk. set (K := map (copy_fact names) ds) in *.
  set (loc := String.append "file://" canonical). set (entries := avro_entries m loc sizes).
  (* manifests *)
  eapply spec_try with (R := fun list d => list = manifest_list_path m loc /\ exists schema manifest manifests,
    to_iceberg_rs_schema builder (m_schema m) = Ok schema /\
    avro_manifest schema (m_snapshot_id m) entries = Some manifest /\
    avro_manifest_list (m_snapshot_id m) (parent_snapshot_id m) (sequence_number m)
      (String.append (trim_slashes loc) (String.append "/metadata/" (String.append uuid "-m0.avro"))) entries = Some manifests /\
    Holds ((avro_list_path target m, (manifests, false)) :: (avro_manifest_path target uuid, (manifest, false)) :: K) d).
  { unfold write_iceberg_avro_manifests. fold entries.
    eapply spec_try with (R := fun schema d => to_iceberg_rs_schema builder (m_schema m) = Ok schema /\ Holds K d); [by apply spec_pure|].
    intros schema. apply triple_pure. intros Hschema. eapply spec_try.
    { apply (spec_avro K).
      - destruct Hu as (c & Ec & _ & Hdot). apply metadata_confined. destruct uuid; [done|]. injection Ec as ->. by intros [= ->].
      - by apply metadata_not_GH.
      - intros k H. by apply Hk. }
    intros u; cbn beta; clear u. apply triple_exists. intros manifest. apply triple_pure. intros Hm. eapply spec_try.
    { apply (spec_avro ((avro_manifest_path target uuid, (manifest, false)) :: K)).
      - by apply metadata_confined.
      - by apply metadata_not_GH.
      - intros k [->|H]%elem_of_cons; [by apply manifest_not_list|by apply Hk]. }
    intros u; cbn beta; clear u. apply triple_exists. intros manifests. apply triple_pure. intros Hl.
    apply spec_pure. intros list d E H. injection E as E. split; [by symmetry|]. by exists schema, manifest, manifests. }
  intros list. apply triple_pure. intros Elist. rewrite Elist. clear Elist list. apply triple_exists. intros schema. apply triple_exists. intros manifest. apply triple_exists. intros manifests.
  apply triple_pure. intros Hschema. apply triple_pure. intros Hm. apply triple_pure. intros Hl.
  set (K2 := (avro_list_path target m, (manifests, false)) :: (avro_manifest_path target uuid, (manifest, false)) :: K).
  assert (HK2 : forall p, ends p.2 ".json" \/ ends p.2 ".text" -> (p.1 = metadata_dir target \/ p.1 = target) ->
    forall k, k ∈ K2 -> k.1 <> p).
  { intros [dir f] He Hdir k [->|[->|H]%elem_of_cons]%elem_of_cons; cbn [fst] in Hdir |- *.
    - destruct He; solve_paths.
    - destruct He; solve_paths.
    - destruct (Hk f k H), Hdir as [->| ->]; done. }
  eapply spec_try with (R := fun metadata d => to_iceberg_v2_table_metadata pkg_version m loc = Ok metadata /\ Holds K2 d).
  { apply spec_pure. by intros. }
  intros metadata. apply triple_pure. intros Hmeta.
  eapply spec_try with (R := fun json d => to_vec_pretty (set_manifest_list (manifest_list_path m loc) metadata) = Some json /\ Holds K2 d).
  { apply spec_pure. intros json d E H. by destruct (to_vec_pretty _); [injection E as <-|]. }
  intros json. apply triple_pure. intros Hjson.
  eapply spec_try; [apply (spec_synced K2); [by apply metadata_confined|by apply metadata_not_GH|]|].
  { apply HK2; [left; eauto with paths|by left]. }
  intros u; cbn beta; clear u. eapply spec_try; [apply spec_synced; [by exists ""%string|by apply root_not_GH|]|].
  { intros k [->|H]%elem_of_cons; [solve_paths|]. revert k H. apply HK2; [right; eauto with paths|by right]. }
  intros u; cbn beta; clear u. eapply spec_try; [apply spec_synced; [by apply metadata_confined|by apply metadata_not_GH|]|].
  { intros k [->|[->|H]%elem_of_cons]%elem_of_cons; [by apply root_not_metadata|solve_paths|].
    revert k H. apply HK2; [right; eauto with paths|by left]. }
  intros u; cbn beta; clear u. apply spec_pure. intros out d [= <-] HF. split; [done|].
  eexists schema, entries, _, _, _, json, manifest, manifests.
  pose proof (h_facts _ _ _ _ HF) as Hf.
  apply Forall_cons in Hf as [[Hw3 _] Hf]. apply Forall_cons in Hf as [[Hw2 _] Hf]. apply Forall_cons in Hf as [[Hw1 _] Hf].
  apply Forall_cons in Hf as [[Hw0 _] Hf]. apply Forall_cons in Hf as [[Hw _] Hf].
  split; try done.
  - by exists metadata.
  - split; [by eapply set_manifest_list_named|apply manifest_list_named].
  - apply manifest_named.
  - unfold entries, avro_entries. apply Forall2_fmap_r, Forall_Forall2_diag, Forall_forall. intros e He.
    assert (Heds : e ∈ ds) by (apply Hin; by right).
    destruct (copies_files names sizes ds d e Hc Heds Hf) as (src & copy & C1 & C2 & C3 & C4).
    split; try done.
    + apply entry_named; [by apply Hds|by apply (Hc e Heds)].
    + exists src, copy. split_and!; [done..|]. cbn. by rewrite C4.
Qed.
End spec.

(** ** Properties *)

(** C37. An export touches nothing but its target, and is complete when it
    returns.  Whatever system call fails and wherever the process stops, only
    files at a relative path without [..] below the target change.  If the
    export returns, the metadata file and both version hints are written and
    synced; the metadata name the manifest list, the manifest list is encoded
    with the name of the manifest and the manifest with the schema the builder
    accepted, each name being the URI, below the table's location, of the file
    that was written; and the entries of the manifest are those of the live
    files, in order, each with the URI of its copy, the length of the copy as
    its size, and the row count of the manifest, the copy holding its source
    restricted to the user's columns. *)
Theorem export_self_contained {F : Type} `{AR : !Arrow, PF : !ParquetFile F, FBs : !FileBytes F}
    (arrow_zstd : F -> list (nat * Z) -> list RecordBatch -> option bytes) aborted builder
    avro_manifest avro_manifest_list to_vec_pretty pkg_version target canonical uuid m d0 :
  target <> ""%string -> tidy GH d0 -> uuid_like uuid ->
  let export := export_to_iceberg arrow_zstd aborted builder avro_manifest avro_manifest_list to_vec_pretty pkg_version m
                  target canonical uuid in
  triple (fun d => d = d0) export (fun _ => stays (outside target) d0) (stays (outside target) d0) /\
  (Forall (source_ok target) (List.filter is_live (m_entries m)) -> Forall data_entry (List.filter is_live (m_entries m)) ->
   triple (fun d => d = d0) export
     (fun r d => match r with
                 | Ok out => out = metadata_path target m /\ exists schema entries manifest_uri list_uri metadata json manifest manifests,
                     ExportFiles arrow_zstd builder avro_manifest avro_manifest_list to_vec_pretty pkg_version target d0
                       m canonical uuid schema entries manifest_uri list_uri metadata json manifest manifests d
                 | _ => True
                 end) (fun _ => True)).
Proof.
  intros Ht Htidy Hu export. split.
  - eapply triple_conseq; [by apply (export_stays arrow_zstd aborted builder avro_manifest avro_manifest_list to_vec_pretty pkg_version target d0 m canonical uuid)| |done|done].
    intros d ->. apply stays_refl.
  - intros Hsrc Hdata. eapply triple_conseq;
      [by apply (spec_export arrow_zstd aborted builder avro_manifest avro_manifest_list to_vec_pretty pkg_version target d0 Ht Htidy m canonical uuid)| | |done].
    + intros d ->. split; [apply stays_refl|done|constructor].
    + by intros [out|e|] d.
Qed.

(** A table of one data file, exported below [out]. *)
Definition ex_entry : ManifestEntry :=
  {| me_path := "data/L0/f.parquet"; me_meta := meta (ex_file "data/L0/f.parquet" 0 5 9 [] [] 10); me_dv_path := None;
     me_dv_offset := None; me_dv_length := None; me_status := "added"; me_first_row_id := Some 0 |}.

Definition ex_exported (snapshot : Z) : Manifest :=
  {| format_version := 3; table_uuid := "c0ffee"; last_updated_ms := 5; m_snapshot_id := snapshot; parent_snapshot_id := None;
     sequence_number := snapshot; next_row_id := 3; m_first_row_id := 0; m_schema := example_schema; m_entries := [ex_entry];
     properties := ∅ |}.

(** Two rows of a hidden and a user column. *)
Definition ex_stored : ListFile :=
  {| lf_kv := []; lf_batch := {|
       lb_fields := [{| f_name := "o"; f_type := DInt32; f_nullable := false |};
                     {| f_name := "a"; f_type := DInt32; f_nullable := true |}];
       lb_cols := [(DInt32, [Some (Int32 1); Some (Int32 0)]); (DInt32, [Some (Int32 7); None])]; lb_rows := 2;
       lb_shape := eq_refl |} |}.

Definition ex_table : Disk :=
  write_file ("data/L0", "f.parquet")%string (file_bytes ex_stored) {| inodes := ∅; dirs := ∅; next_ino := 0 |}.

(** A writer whose file has a byte per row, and encoders with a byte per
    entry. *)
Definition ex_export (snapshot : Z) : io (res path_t) :=
  export_to_iceberg (F := ListFile) (fun _ _ bs => Some (map (fun _ => Byte.x01) (concat (map batch_rows bs)))) [] ex_builder
    (fun _ _ es => Some (map (fun _ => Byte.x02) es)) (fun _ _ _ _ es => Some (map (fun _ => Byte.x03) es))
    (fun _ => Some [Byte.x7b; Byte.x7d]) "0.0.2" (ex_exported snapshot) "out" "/srv/out" "a1b2".

Definition ex_copy : path_t := ("out/data/L0", "f.parquet")%string.
Definition ex_exported_disk : Disk := (run (ex_export 1) ex_table).1.

Lemma ex_table_tidy : tidy GH ex_table.
Proof. apply tidy_write, ex_disk0_ok. Qed.

Lemma ex_uuid : uuid_like "a1b2".
Proof. by exists "a"%char. Qed.

Lemma ex_source_ok : source_ok "out" ex_entry.
Proof.
  split; [|by intros [E|E]]. intros (dir & _ & _ & E & _). change ("data/L0"%string = join_dir "out" dir) in E.
  unfold join_dir in E. by destruct (String.eqb dir "").
Qed.

Lemma export_self_contained_witness :
  exists d, run (ex_export 1) ex_table = (d, Val (Ok (metadata_path "out" (ex_exported 1)))) /\
    stays (outside "out") ex_table d /\ read_file d (metadata_path "out" (ex_exported 1)) = Some [Byte.x7b; Byte.x7d] /\
    exists copy, written d ex_copy copy false /\ length copy = 2%nat.
Proof.
  assert (E : (run (ex_export 1) ex_table).2 = Val (Ok (metadata_path "out" (ex_exported 1)))) by (vm_compute; reflexivity).
  destruct (export_self_contained (F := ListFile) (fun _ _ bs => Some (map (fun _ => Byte.x01) (concat (map batch_rows bs)))) [] ex_builder
    (fun _ _ es => Some (map (fun _ => Byte.x02) es)) (fun _ _ _ _ es => Some (map (fun _ => Byte.x03) es))
    (fun _ => Some [Byte.x7b; Byte.x7d]) "0.0.2" "out" "/srv/out" "a1b2" (ex_exported 1) ex_table) as [Hs Hc];
    [discriminate|exact ex_table_tidy|exact ex_uuid|].
  specialize (Hs (fun _ => NoFault) {| w_disk := ex_table; w_tick := 0 |} eq_refl).
  specialize (Hc ltac:(constructor; [exact ex_source_ok|constructor])
    ltac:(constructor; [exists "/L0"%string; reflexivity|constructor]) (fun _ => NoFault) {| w_disk := ex_table; w_tick := 0 |} eq_refl).
  unfold run in *. fold (ex_export 1) in *. destruct (ex_export 1 _ _) as [w [r|]]; [|discriminate E].
  cbn [fst snd] in *. injection E as ->. cbn in Hs, Hc.
  exists (w_disk w). split; [done|]. split; [exact Hs|].
  destruct Hc as (_ & schema & entries & muri & luri & metadata & json & ml & mls & [_ Hj Hmf _ _ [_ Hl] _ _ _ _ _ _ HE]).
  injection Hj as <-. split.
  - destruct Hmf as (i & Hli & Hi). unfold read_file. by rewrite Hli; cbn; rewrite Hi.
  - inversion HE as [|? ie ? ? [_ _ _ _ _ (src & copy & Hr & Hx & Hw & Hsz)] _]; subst.
    exists copy. split; [exact Hw|].
    assert (Hsrc : read_file ex_table (split_path (me_path ex_entry)) = Some (file_bytes ex_stored)) by (apply read_written).
    rewrite Hsrc in Hr. injection Hr as <-. vm_compute in Hx. injection Hx as <-. reflexivity.
Defined.

(** An export into the directory of an earlier one overwrites its files in
    place.  Metadata and hint of the first export stay when the second is
    stopped, but the copy of the data file they name is empty. *)
Theorem reexport_tears_earlier_export :
  let '(w, o) := ex_export 2 (fun n => if (n =? 4)%nat then Stops else NoFault) {| w_disk := ex_exported_disk; w_tick := 0 |} in
  o = Stopped /\
  read_file ex_exported_disk ex_copy = Some [Byte.x01; Byte.x01] /\ read_file (w_disk w) ex_copy = Some [] /\
  read_file (w_disk w) (metadata_path "out" (ex_exported 1)) = read_file ex_exported_disk (metadata_path "out" (ex_exported 1)) /\
  read_file (w_disk w) ("out"%string, HINT.2) = Some (hint_bytes 1).
Proof. vm_compute. repeat split. Qed.

(** All names survive, and nothing of what was not synced. *)
Definition lose_unsynced (d : Disk) : Disk :=
  {| inodes := (fun f => {| i_data := if i_synced f then i_data f else []; i_synced := true |}) <$> inodes d;
     dirs := (fun x => {| dur := apply_dents (pend x) (dur x); pend := [] |}) <$> dirs d;
     next_ino := next_ino d |}.

Lemma lose_unsynced_crash d : map_Forall (fun i _ => (i < next_ino d)%nat) (inodes d) -> crash d (lose_unsynced d).
Proof.
  intros Hd. split.
  - intros dn. exists (pend (dir_at d dn)). split; [done|]. unfold dir_at at 1. cbn [lose_unsynced dirs]. rewrite lookup_fmap.
    unfold dir_at. by destruct (dirs d !! dn).
  - intros i f Hf. cbn [lose_unsynced inodes]. rewrite lookup_fmap, Hf. eexists. split; [done|]. split; [done|].
    cbn. by intros ->.
  - done.
  - intros i Hi. cbn [lose_unsynced inodes]. rewrite lookup_fmap. destruct (inodes d !! i) as [f|] eqn:E; [|done].
    apply Hd in E. lia.
Qed.

(** Nor does a copy survive a loss of power: it is never synced, while the
    metadata and the hints are. *)
Theorem exported_copy_not_durable :
  exists d, crash ex_exported_disk d /\ read_file d ex_copy = Some [] /\
    read_file d (metadata_path "out" (ex_exported 1)) = Some [Byte.x7b; Byte.x7d] /\
    read_file d ("out"%string, HINT.2) = Some (hint_bytes 1).
Proof.
  exists (lose_unsynced ex_exported_disk). split; [|vm_compute; repeat split].
  apply lose_unsynced_crash. apply (bool_decide_eq_true_1 _). vm_compute. reflexivity.
Qed.
