(* ===== verification/Sql.v ===== *)
(** * The SQL adapter of the change feed

    [src/crates/merutable/src/sql/datafusion_provider.rs] and [arrow.rs]: the
    table provider that drains a change-feed cursor into one record batch, the
    lower bounds it takes from filters on [seq], and the batch it builds.
    DataFusion's expressions are the terms the provider looks at; the arrays,
    the batch and the in-memory plan are the class [FeedArrow]. *)

From S2P Require Import Prelude Sequence Schema Key RowCodec Mvcc WalBatch Memtable LsmVersion DeletionVector Bloom KvIndex Arrow Codec FileReader Cache ReadPath ChangeFeed.
Local Open Scope Z_scope.

(** ** Expressions *)
Inductive ScalarValue : Type :=
  | UInt64 (v : option Z)
  | UInt32 (v : option Z)
  | SvInt64 (v : option Z)
  | SvInt32 (v : option Z)
  | OtherValue (id : nat).

Inductive Operator : Type := OpEq | OpNotEq | OpLt | OpLtEq | OpGt | OpGtEq | OtherOperator (id : nat).

(** A column has the table it belongs to, if it is qualified, and its name. *)
Inductive Expr : Type :=
  | Column (relation : option string) (name : string)
  | Literal (v : ScalarValue)
  | BinaryExpr (l : Expr) (op : Operator) (r : Expr)
  | OtherExpr (id : nat).

#[global] Instance Operator_eq_dec : EqDecision Operator.
Proof. solve_decision. Defined.

Definition integer_of (v : ScalarValue) : option Z :=
  match v with UInt64 o | UInt32 o | SvInt64 o | SvInt32 o => o | OtherValue _ => None end.

Definition extract_seq_lower_bound (expr : Expr) : option Z :=
  match expr with
  | BinaryExpr l op r =>
      '(c, v, op) ← match l, r, op with
                    | Column _ c, Literal v, op => Some (c, v, op)
                    | Literal v, Column _ c, OpLt => Some (c, v, OpGt)
                    | Literal v, Column _ c, OpLtEq => Some (c, v, OpGtEq)
                    | _, _, _ => None
                    end;
      if negb (bool_decide (c = "seq"%string)) then None
      else
        n ← integer_of v;
        if n <? 0 then None
        else
          match op with
          | OpGt => Some n
          | OpGtEq => if n =? 0 then Some 0 else Some (n - 1)
          | _ => None
          end
  | _ => None
  end.

(** The value of a comparison of [seq] with an integer, in either order, on a
    row of that sequence number: what SQL makes of it. *)
Definition compares (op : Operator) (a b : Z) : option bool :=
  match op with
  | OpEq => Some (a =? b)
  | OpNotEq => Some (negb (a =? b))
  | OpLt => Some (a <? b)
  | OpLtEq => Some (a <=? b)
  | OpGt => Some (b <? a)
  | OpGtEq => Some (b <=? a)
  | OtherOperator _ => None
  end.

Definition seq_predicate (e : Expr) (s : Z) : option bool :=
  match e with
  | BinaryExpr (Column _ c) op (Literal v) =>
      if bool_decide (c = "seq"%string) then n ← integer_of v; compares op s n else None
  | BinaryExpr (Literal v) op (Column _ c) =>
      if bool_decide (c = "seq"%string) then n ← integer_of v; compares op n s else None
  | _ => None
  end.

Inductive TableProviderFilterPushDown : Type := Exact | Inexact.

(** The rows that DataFusion counts on the provider to leave out. *)
Definition keeps (f : Expr) (d : TableProviderFilterPushDown) (s : Z) : bool :=
  match d with Exact => bool_decide (seq_predicate f s = Some true) | Inexact => true end.

(** ** Arrays and batches *)
Inductive FeedType : Type := DUInt64 | DUtf8 | DNative (t : DataType).
Inductive FeedCell : Type := CNull | CU64 (v : Z) | CStr (s : string) | CValue (v : FieldValue).
Record FeedField : Type := { ff_name : string; ff_type : FeedType; ff_nullable : bool }.

#[global] Instance FeedType_eq_dec : EqDecision FeedType.
Proof. solve_decision. Defined.
#[global] Instance FeedCell_eq_dec : EqDecision FeedCell.
Proof. solve_decision. Defined.
#[global] Instance FeedField_eq_dec : EqDecision FeedField.
Proof. solve_decision. Defined.

(** Cells an array of that type can hold. *)
Definition feed_cell_of (t : FeedType) (c : FeedCell) : Prop :=
  match t, c with
  | _, CNull => True
  | DUInt64, CU64 _ | DUtf8, CStr _ => True
  | DNative t, CValue v => native t v
  | _, _ => False
  end.

(** The bytes an array of cells stores, which a 32-bit offset has to count. *)
Definition feed_cell_bytes (c : FeedCell) : Z :=
  match c with CStr s => Z.of_nat (String.length s) | CValue (Bytes b) => Z.of_nat (length b) | _ => 0 end.

Definition feed_bytes (l : list FeedCell) : Z := foldr (fun c t => feed_cell_bytes c + t) 0 l.

(** The columns of a projection, in its order; all of them without one. *)
Definition project (p : option (list nat)) (row : list FeedCell) : list FeedCell :=
  match p with Some idxs => omap (fun i => row !! i) idxs | None => row end.

Definition projection_ok (p : option (list nat)) (n : nat) : Prop :=
  match p with Some idxs => Forall (fun i => (i < n)%nat) idxs | None => True end.

#[global] Instance projection_ok_dec p n : Decision (projection_ok p n).
Proof. destruct p; apply _. Defined.

(** [fa_from] is [XArray::from], which panics when the offsets of the values
    pass [i32::MAX]; [mem_exec] is [MemoryExec::try_new] on one
    partition of one batch; [collect_plan] runs the plan and has its rows. *)
Class FeedArrow := {
  FeedArray : Type;
  FeedBatch : Type;
  ExecutionPlan : Type;
  fa_from : FeedType -> list FeedCell -> res FeedArray;
  fb_try_new : list FeedField -> list FeedArray -> option FeedBatch;
  mem_exec : FeedBatch -> list FeedField -> option (list nat) -> option ExecutionPlan;
  collect_plan : ExecutionPlan -> list (list FeedCell);
}.

Class FeedArrowLaws `{!FeedArrow} := {
  fa_type : FeedArray -> FeedType;
  fa_cells : FeedArray -> list FeedCell;
  fb_fields : FeedBatch -> list FeedField;
  fb_rows : FeedBatch -> list (list FeedCell);
  fa_from_spec t l : Forall (feed_cell_of t) l -> feed_bytes l <= I32_MAX ->
    exists a, fa_from t l = Ok a /\ fa_type a = t /\ fa_cells a = l;
  fb_try_new_spec fs cols rows :
    fs <> [] ->
    Forall2 (fun f a => fa_type a = ff_type f /\ (ff_nullable f = false -> CNull ∉ fa_cells a)) fs cols ->
    (forall j a, cols !! j = Some a -> Forall2 (fun row c => row !! j = Some c) rows (fa_cells a)) ->
    Forall (fun row => length row = length fs) rows ->
    exists b, fb_try_new fs cols = Some b /\ fb_fields b = fs /\ fb_rows b = rows;
  mem_exec_spec b p :
    projection_ok p (length (fb_fields b)) ->
    exists plan, mem_exec b (fb_fields b) p = Some plan /\ collect_plan plan = map (project p) (fb_rows b);
}.

(** ** The batch of the change feed *)
Definition feed_column_type (t : ColumnType) : DataType :=
  match t with
  | CBoolean => DBoolean
  | CInt32 => DInt32
  | CInt64 => DInt64
  | CFloat => DFloat32
  | CDouble => DFloat64
  | CByteArray | CFixedLenByteArray _ => DBinary
  end.

Definition change_feed_schema (table : TableSchema) : list FeedField :=
  [ {| ff_name := "seq"; ff_type := DUInt64; ff_nullable := false |};
    {| ff_name := "op"; ff_type := DUtf8; ff_nullable := false |};
    {| ff_name := "pk_bytes"; ff_type := DNative DBinary; ff_nullable := false |} ]
  ++ map (fun col => {| ff_name := name col; ff_type := DNative (feed_column_type (col_type col));
                        ff_nullable := true |}) (columns table).

Definition field_at (r : ChangeRecord) (col_idx : nat) : option FieldValue := fields (cr_row r) !! col_idx ≫= id.

(** A value of another type than the column's becomes null. *)
Definition user_cell (t : ColumnType) (v : option FieldValue) : FeedCell :=
  match t, v with
  | CBoolean, Some (Boolean b) => CValue (Boolean b)
  | CInt32, Some (Int32 z) => CValue (Int32 z)
  | CInt64, Some (Int64 z) => CValue (Int64 z)
  | CFloat, Some (Float z) => CValue (Float z)
  | CDouble, Some (Double z) => CValue (Double z)
  | (CByteArray | CFixedLenByteArray _), Some (Bytes b) => CValue (Bytes b)
  | _, _ => CNull
  end.

(** The row of a record: its sequence number, operation, key and columns. *)
Definition record_row (table : TableSchema) (r : ChangeRecord) : list FeedCell :=
  [CU64 (cr_seq r); CStr (as_sql_str (cr_op r)); CValue (Bytes (cr_pk r))]
  ++ imap (fun i col => user_cell (col_type col) (field_at r i)) (columns table).

Section batch.
Context `{!FeedArrow}.

Definition build_user_column (t : ColumnType) (records : list ChangeRecord) (col_idx : nat) : res FeedArray :=
  fa_from (DNative (feed_column_type t)) (map (fun r => user_cell t (field_at r col_idx)) records).

Fixpoint user_columns (records : list ChangeRecord) (col_idx : nat) (cols : list ColumnDef) : res (list FeedArray) :=
  match cols with
  | [] => Ok []
  | col :: cols =>
      a ← build_user_column (col_type col) records col_idx;
      rest ← user_columns records (Datatypes.S col_idx) cols;
      Ok (a :: rest)
  end.

Definition records_to_record_batch (records : list ChangeRecord) (table : TableSchema) : res FeedBatch :=
  seqs ← fa_from DUInt64 (map (fun r => CU64 (cr_seq r)) records);
  ops ← fa_from DUtf8 (map (fun r => CStr (as_sql_str (cr_op r))) records);
  pks ← fa_from (DNative DBinary) (map (fun r => CValue (Bytes (cr_pk r))) records);
  user ← user_columns records 0 (columns table);
  ok_or (fb_try_new (change_feed_schema table) ([seqs; ops; pks] ++ user))
    (InvalidArgument "change-feed RecordBatch assembly failed").
End batch.

(** ** The table provider *)
Inductive DataFusionError : Type := DrainFailed (e : MeruError) | AssemblyFailed (e : MeruError) | PlanFailed.

Inductive DFResult (A : Type) : Type :=
  | DfOk (a : A)
  | DfErr (e : DataFusionError)
  | DfPanic.
Arguments DfOk {A} _.
Arguments DfErr {A} _.
Arguments DfPanic {A}.

#[global] Instance DFResult_ret : MRet DFResult := fun _ a => DfOk a.
#[global] Instance DFResult_bind : MBind DFResult := fun _ _ f m =>
  match m with DfOk a => f a | DfErr e => DfErr e | DfPanic => DfPanic end.

(** [map_err]. *)
Definition or_df {A} (wrap : MeruError -> DataFusionError) (r : res A) : DFResult A :=
  match r with Ok a => DfOk a | Err e => DfErr (wrap e) | Panic => DfPanic end.

Record ChangeFeedTableProvider : Type := {
  cfp_table_schema : TableSchema;
  cfp_since_seq : Z;
  cfp_arrow_schema : list FeedField;
}.

Definition provider_new (table_schema : TableSchema) (since_seq : Z) : ChangeFeedTableProvider :=
  {| cfp_table_schema := table_schema; cfp_since_seq := since_seq;
     cfp_arrow_schema := change_feed_schema table_schema |}.

Definition provider_schema (p : ChangeFeedTableProvider) : list FeedField := cfp_arrow_schema p.

Definition supports_filters_pushdown (filters : list Expr) : list TableProviderFilterPushDown :=
  map (fun f => match extract_seq_lower_bound f with Some _ => Exact | None => Inexact end) filters.

Definition effective_since (since : Z) (filters : list Expr) : Z :=
  fold_left (fun since f => match extract_seq_lower_bound f with
                            | Some lb => if since <? lb then lb else since
                            | None => since
                            end) filters since.

(** [usize::MAX]. *)
Definition usize_max : nat := Z.to_nat u64_max.

Lemma usize_max_ge n : Z.of_nat n <= u64_max -> (n <= usize_max)%nat.
Proof. unfold usize_max. lia. Qed.
#[global] Opaque usize_max.


Section provider.
Context (xxh3_64 crc32 : bytes -> Z) {F M C B : Type}.
Context `{!Arrow, !ParquetFile F, !FooterCodec, !SchemaJson, !Roaring B}.
Context `{!SkipMap M, !LruCache C, !RowSerde, !FeedArrow}.

Definition provider_scan (en : MeruEngine F M C) (p : ChangeFeedTableProvider) (projection : option (list nat))
    (filters : list Expr) : DFResult ExecutionPlan :=
  let cursor := from_engine (effective_since (cfp_since_seq p) filters) in
  records ← or_df DrainFailed (next_batch xxh3_64 crc32 (B := B) en usize_max cursor).2;
  batch ← or_df AssemblyFailed (records_to_record_batch records (cfp_table_schema p));
  match mem_exec batch (cfp_arrow_schema p) projection with
  | Some exec => DfOk exec
  | None => DfErr PlanFailed
  end.
End provider.

(** ** The bound of a filter *)
Lemma extract_bound_range e lb : extract_seq_lower_bound e = Some lb -> 0 <= lb.
Proof.
  destruct e as [| |l op r|]; try done. cbn. destruct (match l with Column _ _ => _ | _ => _ end) as [[[c v] op']|]; [|done].
  cbn. destruct (negb _); [done|]. destruct (integer_of v) as [n|]; [|done]. cbn.
  destruct (Z.ltb_spec n 0); [done|]. destruct op'; try done; [intros [= <-]; lia|].
  destruct (Z.eqb_spec n 0); intros [= <-]; lia.
Qed.

(** A filter with a lower bound is the comparison with that bound. *)
Lemma extract_bound_spec e lb s :
  extract_seq_lower_bound e = Some lb -> 0 < s -> seq_predicate e s = Some (lb <? s).
Proof.
  intros He Hs. destruct e as [| |l op r|]; try done. cbn in He |- *.
  destruct l as [rel c|v| |]; try done; destruct r as [rel' c'|v'| |]; try (by destruct op).
  - cbn in He. destruct (bool_decide _); [|done]. cbn in He. destruct (integer_of v') as [n|]; [|done]. cbn in He |- *.
    destruct (Z.ltb_spec n 0); [done|]. destruct op; try done; cbn.
    + by injection He as <-.
    + destruct (Z.eqb_spec n 0); injection He as <-; f_equal; lia.
  - destruct op; try done; cbn in He; (destruct (bool_decide _); [|done]); cbn in He;
      (destruct (integer_of v) as [n|]; [|done]); cbn in He |- *; (destruct (Z.ltb_spec n 0); [done|]).
    + by injection He as <-.
    + destruct (Z.eqb_spec n 0); injection He as <-; f_equal; lia.
Qed.

(** The records above the effective watermark are those that every pushed
    filter keeps. *)
Definition kept (filters : list Expr) (s : Z) : bool :=
  forallb (fun x : Expr * TableProviderFilterPushDown => keeps x.1 x.2 s)
    (zip filters (supports_filters_pushdown filters)).

Lemma effective_since_spec filters since s :
  0 < s -> (effective_since since filters <? s) = (since <? s) && kept filters s.
Proof.
  intros Hs. revert since. induction filters as [|f filters IH]; intros since; [cbn; by rewrite andb_true_r|].
  unfold effective_since, kept in *. cbn [fold_left supports_filters_pushdown map zip zip_with forallb fst snd]. rewrite IH.
  destruct (extract_seq_lower_bound f) as [lb|] eqn:E; [|done].
  unfold keeps. rewrite (extract_bound_spec f lb s E Hs), andb_assoc. f_equal.
  destruct (Z.ltb_spec since lb), (Z.ltb_spec lb s); rewrite ?bool_decide_true, ?bool_decide_false by congruence; lia.
Qed.

Lemma effective_since_le filters since : since <= effective_since since filters.
Proof.
  revert since. induction filters as [|f filters IH]; intros since; [done|].
  unfold effective_since in *. cbn [fold_left]. etransitivity; [|apply IH].
  destruct (extract_seq_lower_bound f) as [lb|]; [|done]. destruct (Z.ltb_spec since lb); lia.
Qed.

(** ** Sorting and filtering *)
Section filter_sort.
Context {A : Type} (leb : A -> A -> bool) (p : A -> bool).
Context (leb_total : forall x y, leb x y = false -> leb y x = true).
Context (leb_trans : forall x y z, leb x y = true -> leb y z = true -> leb x z = true).

Lemma insert_by_least x l : Forall (fun y => leb x y) l -> insert_by leb x l = x :: l.
Proof. destruct 1 as [|y l Hy _]; [done|]. cbn. apply Is_true_true in Hy. by rewrite Hy. Qed.

Lemma filter_insert_by x l :
  StronglySorted leb l ->
  List.filter p (insert_by leb x l) = if p x then insert_by leb x (List.filter p l) else List.filter p l.
Proof.
  induction 1 as [|y l Hs IH Hy]; [cbn; by destruct (p x)|]. cbn [insert_by]. destruct (leb x y) eqn:E.
  - cbn [List.filter]. destruct (p x); [|done]. symmetry. change (if p y then _ else _) with (List.filter p (y :: l)).
    apply insert_by_least. apply List.Forall_forall. intros z [Hz _]%filter_In.
    destruct Hz as [->|Hz]; [by apply Is_true_true|]. apply Is_true_true.
    apply (leb_trans x y z E). rewrite List.Forall_forall in Hy. apply Is_true_true, (Hy z Hz).
  - cbn [List.filter]. rewrite IH. destruct (p y), (p x); cbn [insert_by]; by rewrite ?E.
Qed.

Lemma filter_sort_by l : List.filter p (sort_by leb l) = sort_by leb (List.filter p l).
Proof.
  induction l as [|x l IH]; [done|]. cbn [sort_by foldr List.filter]. fold (sort_by leb l).
  rewrite filter_insert_by by by apply sort_by_sorted. rewrite IH. by destruct (p x).
Qed.
End filter_sort.

(** ** The feed above a later watermark *)
Definition above (since : Z) (t : ChangeTuple) : bool := since <? ct_seq t.
Definition record_above (since : Z) (c : ChangeRecord) : bool := since <? cr_seq c.

Lemma sort_tuples_filter since l :
  List.filter (above since) (sort_by tuple_leb l) = sort_by tuple_leb (List.filter (above since) l).
Proof. apply filter_sort_by; [exact tuple_leb_total|exact tuple_leb_trans]. Qed.

Lemma mem_changes_resume `{RS : !RowSerde} since since' es out :
  since <= since' -> mem_changes since es = Ok out -> mem_changes since' es = Ok (List.filter (above since') out).
Proof.
  intros Hle. revert out. induction es as [|e es IH]; intros out; [by intros [= <-]|]. cbn [mem_changes].
  destruct (Z.leb_spec (me_seq e) since) as [H|H].
  { intros Ho. replace (me_seq e <=? since') with true by lia. by apply IH. }
  destruct (entry_change_row (me_entry e)) as [row| |]; [|done..]. rewrite Ok_bind.
  destruct (mem_changes since es) as [rest| |]; [|done..]. rewrite Ok_bind. intros [= <-].
  cbn [List.filter]. unfold above at 1. cbn [ct_seq]. specialize (IH rest eq_refl).
  destruct (Z.leb_spec (me_seq e) since') as [H'|H'].
  - by replace (since' <? me_seq e) with false by lia.
  - replace (since' <? me_seq e) with true by lia. by rewrite Ok_bind, IH.
Qed.

Lemma row_changes_resume s since since' r rows out :
  since <= since' -> row_changes s since r rows = Ok out ->
  row_changes s since' r rows = Ok (List.filter (above since') out).
Proof.
  intros Hle. revert out. induction rows as [|[[ik row] pos] rows IH]; intros out; [by intros [= <-]|]. cbn [row_changes].
  destruct (Z.leb_spec (seq ik) since) as [H|H]; cbn [orb].
  { intros Ho. replace (seq ik <=? since') with true by lia. by apply IH. }
  destruct (Z.ltb_spec r (seq ik)) as [Hr|Hr].
  { intros Ho. rewrite orb_true_r. by apply IH. }
  destruct (encode_user_key _ _) as [pk| |]; [|done..]. rewrite Ok_bind.
  destruct (row_changes s since r rows) as [rest| |]; [|done..]. rewrite Ok_bind. intros [= <-].
  cbn [List.filter]. unfold above at 1. cbn [ct_seq]. specialize (IH rest eq_refl). rewrite orb_false_r.
  destruct (Z.leb_spec (seq ik) since') as [H'|H'].
  - by replace (since' <? seq ik) with false by lia.
  - replace (since' <? seq ik) with true by lia. by rewrite Ok_bind, IH.
Qed.

Lemma map_res_filter {X Y} (f : X -> res Y) (p : X -> bool) (q : Y -> bool) xs ys :
  (forall x y, f x = Ok y -> q y = p x) -> map_res f xs = Ok ys ->
  map_res f (List.filter p xs) = Ok (List.filter q ys).
Proof.
  intros Hf. revert ys. induction xs as [|x xs IH]; intros ys; [by intros [= <-]|]. cbn [map_res List.filter].
  destruct (f x) as [y| |] eqn:E; [|done..]. rewrite Ok_bind.
  destruct (map_res f xs) as [ys'| |]; [|done..]. rewrite Ok_bind. intros [= <-]. specialize (IH ys' eq_refl).
  cbn [List.filter]. rewrite (Hf x y E). destruct (p x); [|done]. cbn [map_res]. by rewrite E, Ok_bind, IH.
Qed.

Section above.
Context (xxh3_64 crc32 : bytes -> Z) {F M C B : Type}.
Context `{AR : !Arrow, PF : !ParquetFile F}.
Context `{FC : !FooterCodec, SJ : !SchemaJson, RB : !Roaring B}.
Context `{SM : !SkipMap M, SML : !SkipMapLaws M, LC : !LruCache C, LCL : !LruCacheLaws C, RS : !RowSerde}.
Implicit Types (en : MeruEngine F M C) (f : DataFileMeta).
Local Abbreviation content_t := (DataFileMeta -> list (VersionOf (InternalKey * Row))).
Local Abbreviation EngineOk := (EngineOk xxh3_64 crc32 (B := B)).
Local Abbreviation FeedOk := (FeedOk crc32 (B := B)).

Lemma pre_imaged_resume since en t t' :
  pre_imaged xxh3_64 crc32 (B := B) en t = Ok t' -> above since t' = above since t.
Proof.
  unfold pre_imaged. destruct (match ct_op t with Delete => false | Put => true end); [by intros [= <-]|].
  destruct (ct_seq t =? 0); [by intros [= <-]|].
  destruct (point_lookup_at_seq _ _ _ _ _) as [[row|]| |]; try done; by intros [= <-].
Qed.

Lemma fill_buffer_resume since en skip raw recs :
  fill_buffer xxh3_64 crc32 (B := B) en skip raw = (recs, Ok tt) ->
  fill_buffer xxh3_64 crc32 (B := B) en skip (List.filter (above since) raw)
    = (List.filter (record_above since) recs, Ok tt).
Proof.
  revert recs. induction raw as [|t raw IH]; intros recs; [by intros [= <-]|]. cbn [fill_buffer List.filter].
  destruct (change_op _ _ _ _ _) as [op| |] eqn:Eo; [|done..].
  destruct (fill_buffer _ _ _ _ _) as [rest o]. intros [= <- ->]. specialize (IH rest eq_refl).
  cbn [List.filter]. change (record_above since _) with (above since t).
  destruct (above since t); [|done]. cbn [fill_buffer]. by rewrite Eo, IH.
Qed.

Lemma scan_memtable_resume en since since' r out :
  since <= since' -> scan_memtable_changes en since r = Ok out ->
  scan_memtable_changes en since' r = Ok (List.filter (above since') out).
Proof.
  intros Hle. unfold scan_memtable_changes. destruct (snapshot_all_versions _ _) as [es| |]; [|done..]. rewrite !Ok_bind.
  destruct (mem_changes since es) as [mem| |] eqn:Em; [|done..]. rewrite Ok_bind. intros [= <-].
  by rewrite (mem_changes_resume since since' es mem Hle Em), Ok_bind, sort_tuples_filter.
Qed.

(** A file whose sequence numbers end below the watermark adds nothing. *)
Lemma file_changes_below en ts (content : content_t) f since since' r rest out :
  EngineOk en ts content -> FeedOk en ts content -> f ∈ files_at (en_version en) 0 ->
  seq_max (meta f) <= since' -> l0_changes crc32 (B := B) en since r [f] = Ok (out ++ rest) ->
  List.filter (above since') out = [].
Proof.
  intros HE HF Hf Hmax Ho.
  destruct (l0_changes_spec xxh3_64 crc32 en ts content since r [f] HE HF) as (out' & Eo & Em).
  { by intros g ->%list_elem_of_singleton. }
  rewrite Ho in Eo. injection Eo as <-. apply filter_all_false. intros t Ht.
  assert (Hv : change_version t ∈ map change_version (out ++ rest)).
  { apply list_elem_of_In, in_map, in_app_iff. left. by apply list_elem_of_In. }
  rewrite Em in Hv. apply list_elem_of_In, filter_In in Hv as [Hv _]. cbn [map concat] in Hv. rewrite app_nil_r in Hv.
  apply in_map_iff in Hv as (x & Ex & Hx%list_elem_of_In).
  destruct (fd_files _ _ _ _ HF f Hf x Hx) as [Hs _].
  assert (ct_seq t = v_seq x) as E by (change (v_seq (change_version t) = v_seq x); by rewrite <- Ex).
  unfold above. lia.
Qed.

Lemma l0_changes_resume en ts (content : content_t) since since' r fs out :
  EngineOk en ts content -> FeedOk en ts content -> (forall f, f ∈ fs -> f ∈ files_at (en_version en) 0) ->
  since <= since' -> l0_changes crc32 (B := B) en since r fs = Ok out ->
  l0_changes crc32 (B := B) en since' r fs = Ok (List.filter (above since') out).
Proof.
  intros HE HF Hin Hle. revert out Hin. induction fs as [|f fs IH]; intros out Hin; [by intros [= <-]|].
  cbn [l0_changes]. assert (Hfs : forall g, g ∈ fs -> g ∈ files_at (en_version en) 0) by (intros g Hg; apply Hin; by right).
  destruct (Z.leb_spec (seq_max (meta f)) since) as [H|H]; cbn [orb].
  { intros Ho. replace (seq_max (meta f) <=? since') with true by lia. by apply IH. }
  destruct (Z.ltb_spec r (seq_min (meta f))) as [Hr|Hr].
  { intros Ho. rewrite orb_true_r. by apply IH. }
  pose proof (file_changes_below en ts content f since since' r [] ) as Hb. cbn [l0_changes] in Hb.
  replace (seq_max (meta f) <=? since) with false in Hb by lia.
  replace (r <? seq_min (meta f)) with false in Hb by lia. cbn [orb] in Hb. rewrite orb_false_r.
  destruct (open_file _ _ _) as [[rd dv]| |]; [|done..]. rewrite !Ok_bind in *.
  destruct (read_physical_rows_with_positions _ _) as [rows| |]; [|done..]. rewrite !Ok_bind in *.
  destruct (row_changes _ since _ _) as [here| |] eqn:Eh; [|done..]. rewrite !Ok_bind in *.
  destruct (l0_changes _ _ since _ fs) as [rest| |]; [|done..]. rewrite Ok_bind. intros [= <-].
  rewrite List.filter_app, (IH rest Hfs eq_refl).
  destruct (Z.leb_spec (seq_max (meta f)) since') as [H'|H'].
  - rewrite (Hb here HE HF); [done|apply Hin; left|done|done].
  - by rewrite (row_changes_resume _ since since' r rows here Hle Eh), !Ok_bind.
Qed.

(** A scan from a later watermark finds the records of the earlier scan that
    lie above it, in the same order. *)
Lemma scan_records_resume en ts (content : content_t) since since' r recs :
  EngineOk en ts content -> FeedOk en ts content -> since <= since' ->
  scan_records xxh3_64 crc32 (B := B) en since r = Ok recs ->
  scan_records xxh3_64 crc32 (B := B) en since' r = Ok (List.filter (record_above since') recs).
Proof.
  intros HE HF Hle. unfold scan_records, scan_tail_changes_with_pre_image, scan_tail_changes, scan_tail_pinned.
  destruct (scan_memtable_changes en since r) as [mem| |] eqn:Em; [|done..]. rewrite Ok_bind.
  destruct (l0_changes _ _ since _ _) as [fls| |] eqn:Ef; [|done..]. rewrite !Ok_bind.
  rewrite (scan_memtable_resume en since since' r mem Hle Em), Ok_bind.
  rewrite (l0_changes_resume en ts content since since' r _ fls HE HF) by done. rewrite !Ok_bind.
  rewrite <- List.filter_app, <- sort_tuples_filter.
  destruct (map_res _ (sort_by tuple_leb _)) as [raw| |] eqn:Er; [|done..]. rewrite Ok_bind.
  rewrite (map_res_filter _ _ _ _ raw (fun t t' => pre_imaged_resume since' en t t') Er), Ok_bind.
  destruct (fill_buffer _ _ _ _ raw) as [buf o] eqn:Eb. destruct o as [[]| |]; [|done..]. rewrite Ok_bind. intros [= <-].
  by rewrite (fill_buffer_resume since' en false raw buf Eb), Ok_bind.
Qed.
End above.

(** ** The batch holds the records *)
Section batch_spec.
Context `{!FeedArrow, !FeedArrowLaws}.

(** No column of the records passes what an array can hold. *)
Definition feed_fits (table : TableSchema) (records : list ChangeRecord) : Prop :=
  forall j, feed_bytes (omap (fun r => record_row table r !! j) records) <= I32_MAX.

Lemma user_cell_of t v : feed_cell_of (DNative (feed_column_type t)) (user_cell t v).
Proof. by destruct t, v as [[]|]. Qed.

(** A column of the batch: its field, its type and the cell of each record. *)
Definition column_of (table : TableSchema) (records : list ChangeRecord) (f : FeedField) (j : nat) (a : FeedArray) : Prop :=
  fa_type a = ff_type f /\ (ff_nullable f = false -> CNull ∉ fa_cells a) /\
  Forall2 (fun row c => row !! j = Some c) (map (record_row table) records) (fa_cells a).

Lemma column_of_map table records f j t g :
  feed_fits table records -> ff_type f = t -> (forall r, feed_cell_of t (g r)) -> (ff_nullable f = false -> forall r, g r <> CNull) ->
  (forall r, record_row table r !! j = Some (g r)) -> exists a, fa_from t (map g records) = Ok a /\ column_of table records f j a.
Proof.
  intros Hfit <- Ht Hn Hr. destruct (fa_from_spec (ff_type f) (map g records)) as (a & Ea & E1 & E2).
  - apply List.Forall_forall. intros c (x & <- & _)%in_map_iff. apply Ht.
  - replace (map g records) with (omap (fun r => record_row table r !! j) records); [apply Hfit|].
    clear -Hr. induction records as [|r records IH]; [done|]. cbn [omap list_omap map]. rewrite Hr. by f_equal.
  - exists a. split; [done|]. unfold column_of. rewrite E1, E2. split_and!; [done| |].
    + intros Hnull Hin. apply list_elem_of_In, in_map_iff in Hin as (r & E & _). by apply (Hn Hnull r).
    + clear -Hr. induction records as [|r records IH]; [constructor|]. cbn [map]. constructor; [apply Hr|apply IH].
Qed.

Lemma feed_columns_spec table records cols k :
  feed_fits table records -> drop k (columns table) = cols ->
  exists user, user_columns records k cols = Ok user /\ length user = length cols /\
    forall i a, user !! i = Some a -> exists f, change_feed_schema table !! (3 + (k + i))%nat = Some f /\
      column_of table records f (3 + (k + i))%nat a.
Proof.
  intros Hfit. revert k. induction cols as [|col cols IH]; intros k Hd; [by exists []|].
  assert (Hk : columns table !! k = Some col) by (by rewrite <- (Nat.add_0_r k), <- lookup_drop, Hd).
  assert (Hd' : drop (Datatypes.S k) (columns table) = cols) by (by rewrite <- Nat.add_1_r, <- drop_drop, Hd).
  destruct (IH (Datatypes.S k) Hd') as (user & Hu & Hl & Hc). cbn [user_columns]. unfold build_user_column.
  set (f := {| ff_name := name col; ff_type := DNative (feed_column_type (col_type col)); ff_nullable := true |}).
  destruct (column_of_map table records f (3 + k)%nat (ff_type f) (fun r => user_cell (col_type col) (field_at r k)) Hfit eq_refl)
    as (a & Ea & Hcol); [intros r; apply user_cell_of|done| |].
  { intros r. unfold record_row. cbn. apply list_lookup_imap_Some. by exists col. }
  exists (a :: user). cbn [f ff_type] in Ea. rewrite Ea, Ok_bind, Hu, Ok_bind. split; [done|]. split; [cbn; by rewrite Hl|].
  intros [|i] x Hx; cbn in Hx.
  - injection Hx as <-. rewrite Nat.add_0_r. exists f. split; [|done]. unfold change_feed_schema. cbn.
    apply list_lookup_fmap_Some. by exists col.
  - replace (3 + (k + Datatypes.S i))%nat with (3 + (Datatypes.S k + i))%nat by lia. by apply Hc.
Qed.

Lemma length_record_row table r : length (record_row table r) = length (change_feed_schema table).
Proof. unfold record_row, change_feed_schema. by rewrite !length_app, length_imap, length_map. Qed.

Lemma feed_fits_bool table records :
  forallb (fun j => feed_bytes (omap (fun r => record_row table r !! j) records) <=? I32_MAX)
    (List.seq 0 (length (change_feed_schema table))) = true -> feed_fits table records.
Proof.
  intros Hall j. destruct (Nat.lt_ge_cases j (length (change_feed_schema table))) as [Hj|Hj].
  - apply Z.leb_le, (proj1 (forallb_forall _ _) Hall j). apply in_seq. lia.
  - replace (omap _ records) with (@nil FeedCell); [vm_compute; discriminate|]. clear -Hj.
    induction records as [|r records IH]; [done|]. cbn [omap list_omap]. rewrite (proj2 (lookup_ge_None (record_row table r) j)); [exact IH|].
    by rewrite length_record_row.
Qed.

Lemma records_to_record_batch_spec records table :
  feed_fits table records ->
  exists b, records_to_record_batch records table = Ok b /\ fb_fields b = change_feed_schema table /\
    fb_rows b = map (record_row table) records.
Proof.
  intros Hfit. unfold records_to_record_batch.
  destruct (column_of_map table records {| ff_name := "seq"; ff_type := DUInt64; ff_nullable := false |} 0 DUInt64
    (fun r => CU64 (cr_seq r)) Hfit) as (seqs & Es & Cs); [done..|].
  destruct (column_of_map table records {| ff_name := "op"; ff_type := DUtf8; ff_nullable := false |} 1 DUtf8
    (fun r => CStr (as_sql_str (cr_op r))) Hfit) as (ops & Eo & Co); [done..|].
  destruct (column_of_map table records {| ff_name := "pk_bytes"; ff_type := DNative DBinary; ff_nullable := false |} 2 (DNative DBinary)
    (fun r => CValue (Bytes (cr_pk r))) Hfit) as (pks & Ep & Cp); [done..|].
  destruct (feed_columns_spec table records (columns table) 0 Hfit eq_refl) as (user & Eu & Hl & Cu).
  rewrite Es, Ok_bind, Eo, Ok_bind, Ep, Ok_bind, Eu, Ok_bind.
  set (cols := [seqs; ops; pks] ++ user).
  assert (Hcol : forall j a, cols !! j = Some a -> exists f, change_feed_schema table !! j = Some f /\ column_of table records f j a).
  { intros [|[|[|j]]] a Ha; cbn in Ha; [injection Ha as <-; eexists; by split..|]. by apply (Cu j). }
  assert (Hlen : length (change_feed_schema table) = length cols).
  { unfold change_feed_schema, cols. by rewrite !length_app, length_map, Hl. }
  destruct (fb_try_new_spec (change_feed_schema table) cols (map (record_row table) records))
    as (b & -> & Hf & Hr); [done| | | |by exists b].
  - apply Forall2_same_length_lookup. split; [done|]. intros j f a Hf Ha.
    destruct (Hcol j a Ha) as (f' & Hf' & ? & ? & _). by simplify_eq.
  - intros j a Ha. by destruct (Hcol j a Ha) as (f & _ & _ & _ & ?).
  - apply List.Forall_forall. intros row (r & <- & _)%in_map_iff. apply length_record_row.
Qed.
End batch_spec.

(** ** Batches as lists of columns *)
Definition feed_shape (fs : list FeedField) (cols : list (FeedType * list FeedCell)) (n : nat) : Prop :=
  Forall2 (fun f a => a.1 = ff_type f /\ length a.2 = n /\ (ff_nullable f = false -> CNull ∉ a.2)) fs cols.

#[global] Instance feed_shape_dec fs cols n : Decision (feed_shape fs cols n).
Proof. unfold feed_shape. apply _. Defined.

Record ListFeedBatch : Type := {
  lfb_fields : list FeedField;
  lfb_cols : list (FeedType * list FeedCell);
  lfb_num_rows : nat;
}.

Definition list_feed_rows (b : ListFeedBatch) : list (list FeedCell) :=
  map (fun i => omap (fun a : FeedType * list FeedCell => a.2 !! i) (lfb_cols b)) (List.seq 0 (lfb_num_rows b)).

#[export] Instance list_feed : FeedArrow := {
  FeedArray := FeedType * list FeedCell;
  FeedBatch := ListFeedBatch;
  ExecutionPlan := list (list FeedCell);
  fa_from t l := if feed_bytes l <=? I32_MAX then Ok (t, l) else Panic;
  fb_try_new fs cols :=
    match cols with
    | [] => None
    | a :: _ => if decide (feed_shape fs cols (length a.2))
                then Some {| lfb_fields := fs; lfb_cols := cols; lfb_num_rows := length a.2 |} else None
    end;
  mem_exec b fs p :=
    if decide (fs = lfb_fields b /\ projection_ok p (length fs))
    then Some (map (project p) (list_feed_rows b)) else None;
  collect_plan plan := plan;
}.

Lemma list_feed_row cols (row : list FeedCell) (i : nat) :
  length row = length cols ->
  (forall j (a : FeedType * list FeedCell), cols !! j = Some a -> a.2 !! i = row !! j) ->
  omap (fun a : FeedType * list FeedCell => a.2 !! i) cols = row.
Proof.
  revert row. induction cols as [|a cols IH]; intros [|c row] Hl Hc; try done. cbn.
  pose proof (Hc 0%nat a eq_refl) as E. cbn in E. rewrite E. f_equal. apply IH; [by injection Hl|].
  intros j b Hb. by apply (Hc (Datatypes.S j) b).
Qed.

#[export] Instance list_feed_laws : FeedArrowLaws.
Proof.
  refine {| fa_type := fst; fa_cells := snd; fb_fields := lfb_fields; fb_rows := list_feed_rows |}.
  - intros t l _ Hl. exists (t, l). cbn [fa_from list_feed]. by rewrite (proj2 (Z.leb_le _ _) Hl).
  - intros fs cols rows Hne HF HC HR. destruct HF as [|f a fs cols Ha HF]; [done|]. cbn [fb_try_new list_feed].
    assert (Hlen : forall j (x : FeedType * list FeedCell), (a :: cols) !! j = Some x -> length x.2 = length rows).
    { intros j x Hx. symmetry. by eapply Forall2_length, (HC j x). }
    assert (Hn : length a.2 = length rows) by by apply (Hlen 0%nat). rewrite Hn, decide_True.
    2:{ constructor; [by destruct Ha|]. apply Forall2_same_length_lookup. split; [by eapply Forall2_length|].
        intros i f' x Hf Hx. destruct (Forall2_lookup_lr _ _ _ _ _ _ HF Hf Hx). split_and!; [done| |done].
        by apply (Hlen (Datatypes.S i)). }
    eexists. split; [done|]. split; [done|]. unfold list_feed_rows. cbn [lfb_cols lfb_num_rows].
    apply list_eq. intros i. rewrite list_lookup_fmap. destruct (rows !! i) as [row|] eqn:Er.
    + rewrite lookup_seq_lt by by eapply lookup_lt_Some. cbn [fmap option_fmap option_map]. f_equal. apply (list_feed_row (a :: cols)).
      * rewrite Forall_forall in HR. rewrite (HR row) by by eapply list_elem_of_lookup_2. cbn. f_equal. by eapply Forall2_length.
      * intros j x Hx. destruct (Forall2_lookup_l _ _ _ _ _ (HC j x Hx) Er) as (c & E1 & E2). exact (eq_trans E1 (eq_sym E2)).
    + rewrite lookup_seq_ge; [done|]. by apply lookup_ge_None.
  - intros b p Hp. cbn [mem_exec list_feed]. rewrite decide_True by done. by eexists.
Defined.

(** ** The plan of a scan *)
Section scan_spec.
Context (xxh3_64 crc32 : bytes -> Z) {F M C B : Type}.
Context `{AR : !Arrow, PF : !ParquetFile F}.
Context `{FC : !FooterCodec, SJ : !SchemaJson, RB : !Roaring B}.
Context `{SM : !SkipMap M, SML : !SkipMapLaws M, LC : !LruCache C, LCL : !LruCacheLaws C, RS : !RowSerde}.
Context `{FA : !FeedArrow, FAL : !FeedArrowLaws}.
Implicit Types (en : MeruEngine F M C).
Local Abbreviation content_t := (DataFileMeta -> list (VersionOf (InternalKey * Row))).
Local Abbreviation EngineOk := (EngineOk xxh3_64 crc32 (B := B)).
Local Abbreviation FeedOk := (FeedOk crc32 (B := B)).

(** One batch that is large enough drains the cursor. *)
Lemma next_batch_all en n since recs :
  scan_records xxh3_64 crc32 (B := B) en since (read_seq en) = Ok recs ->
  (read_seq en <= since -> recs = []) -> (length recs <= n)%nat ->
  (next_batch xxh3_64 crc32 (B := B) en n (from_engine since)).2 = Ok recs.
Proof.
  intros Hr Hnil Hn. change (from_engine since) with (cursor_at since []).
  destruct (Z.ltb_spec since (read_seq en)) as [Hlt|Hge].
  - rewrite (next_batch_scan xxh3_64 crc32 en n since recs Hlt Hr). unfold serve.
    by rewrite Nat.min_l, firstn_all by done.
  - rewrite Hnil by done. unfold next_batch, cursor_at. cbn [cur_inner]. by destruct (Z.leb_spec (read_seq en) since); [|lia].
Qed.

Lemma filter_kept filters since s : 0 < s -> since < s ->
  (effective_since since filters <? s) = kept filters s.
Proof. intros Hs Hlt. rewrite effective_since_spec by done. by destruct (Z.ltb_spec since s); [|lia]. Qed.

Lemma scan_spec en ts (content : content_t) p projection filters recs vs :
  EngineOk en ts content -> FeedOk en ts content -> 0 <= cfp_since_seq p ->
  cfp_arrow_schema p = change_feed_schema (cfp_table_schema p) ->
  projection_ok projection (length (cfp_arrow_schema p)) ->
  (length (tail_versions en ts content) <= usize_max)%nat ->
  scan_records xxh3_64 crc32 (B := B) en (cfp_since_seq p) (read_seq en) = Ok recs ->
  vs ≡ₚ List.filter (in_window (cfp_since_seq p) (read_seq en)) (tail_versions en ts content) ->
  Forall2 (reports (all_versions en ts content)) vs recs ->
  feed_fits (cfp_table_schema p) (List.filter (fun r => kept filters (cr_seq r)) recs) ->
  exists plan, provider_scan xxh3_64 crc32 (B := B) en p projection filters = DfOk plan /\
    collect_plan plan = map (fun r => project projection (record_row (cfp_table_schema p) r))
                          (List.filter (fun r => kept filters (cr_seq r)) recs).
Proof.
  intros HE HF H0 Hs Hp Hmax Hr HP HR Hfit. set (since := cfp_since_seq p) in *.
  assert (Hseq : forall r, r ∈ recs -> since < cr_seq r <= read_seq en).
  { intros r Hin. destruct (list_elem_of_lookup_1 _ _ Hin) as [i Hi].
    destruct (Forall2_lookup_r _ _ _ _ _ HR Hi) as (v & Hv%list_elem_of_lookup_2 & Hrep).
    rewrite HP in Hv. apply list_elem_of_In, filter_In in Hv as [_ Hw]. unfold in_window in Hw.
    rewrite (rp_seq _ _ _ Hrep). lia. }
  assert (Hkept : List.filter (record_above (effective_since since filters)) recs
                  = List.filter (fun r => kept filters (cr_seq r)) recs).
  { apply filter_ext_in. intros r Hin%list_elem_of_In. destruct (Hseq r Hin). apply filter_kept; lia. }
  assert (Hlen : (length recs <= usize_max)%nat).
  { rewrite <- (Forall2_length _ _ _ HR), HP. pose proof (filter_length_le (in_window since (read_seq en)) (tail_versions en ts content)). lia. }
  pose proof (scan_records_resume xxh3_64 crc32 en ts content since _ _ recs HE HF (effective_since_le filters since) Hr) as Ha.
  unfold provider_scan. fold since. rewrite (next_batch_all en usize_max _ _ Ha).
  - cbn [or_df mbind DFResult_bind].
    rewrite Hkept.
    destruct (records_to_record_batch_spec _ (cfp_table_schema p) Hfit) as (b & -> & Hf & Hrows). cbn [or_df mbind DFResult_bind]. rewrite Hs, <- Hf in *.
    destruct (mem_exec_spec b projection Hp) as (plan & -> & Hc). exists plan. split; [done|].
    by rewrite Hc, Hrows, map_map.
  - intros Hge. apply filter_all_false. intros r Hin. destruct (Hseq r Hin). unfold record_above. lia.
  - etransitivity; [apply filter_length_le|done].
Qed.
End scan_spec.

(** ** Properties *)


Definition ex_filters : list Expr :=
  let column_seq := Column None "seq" in
  [BinaryExpr column_seq OpGtEq (Literal (SvInt64 (Some 6)));
   BinaryExpr (Literal (UInt64 (Some 7))) OpLt column_seq;
   BinaryExpr column_seq OpNotEq (Literal (SvInt32 (Some 20)))].

Example ex_pushdown : supports_filters_pushdown ex_filters = [Exact; Exact; Inexact] /\ effective_since 0 ex_filters = 7.
Proof. split; reflexivity. Qed.

