(* ===== verification/Refinement.v ===== *)
(** * The engine as a map

    What the engine of [src/crates/merutable/src/engine/engine.rs] and
    [engine/write_path.rs] promises its caller: a map from encoded primary keys
    to rows.  A run is a sequence of lookups, scans, writes, flushes and compactions,
    each of which may fail; the theorem relates every run of the engine on its
    disk to one of the map. *)

From Stdlib Require Import Ascii.
From S2P Require Import Prelude Decimal Disk Sequence Schema Key RowCodec WalBatch WalLog WalManager Mvcc Memtable LsmVersion DeletionVector Manifest ManifestPb Catalog Commit CommitRun Compaction Picker Bloom KvIndex Arrow Codec FileReader FileWriter Cache ReadPath DvResolve Engine Gc Flush EngineOpen Recovery FlushFile StoreInv FlushRun CompactionJob Rewrite CompactionFile CompactionRun.
Local Open Scope Z_scope.

(** ** The specification *)
Inductive Event : Type :=
  | Gets (pk : list FieldValue) (r : res (option Row))
  | Scans (start_pk end_pk : option (list FieldValue)) (r : res (list (InternalKey * Row)))
  | Writes (ms : list Mutation) (w : written)
  | Flushes (r : res unit)
  | Compacts (r : res bool).

Definition apply_mutation (uk : bytes) (mu : Mutation) (m : gmap bytes Row) : gmap bytes Row :=
  match mu_op mu with
  | Put => <[uk := default Row_default (mu_row mu)]> m
  | Delete => base.delete uk m
  end.

Fixpoint apply_mutations (s : TableSchema) (ms : list Mutation) (m : gmap bytes Row) : gmap bytes Row :=
  match ms with
  | [] => m
  | mu :: ms =>
      match encode_user_key (mu_pk mu) s with
      | Ok uk => apply_mutations s ms (apply_mutation uk mu m)
      | _ => m
      end
  end.

Definition acknowledged (w : written) : Prop := match w with Done _ (Ok _) => True | _ => False end.

Definition bound_key (s : TableSchema) (pk : option (list FieldValue)) : res (option bytes) :=
  match pk with
  | None => Ok None
  | Some pk => uk ← encode_user_key pk s; Ok (Some uk)
  end.

(** The rows of the map between two bounds, in the order of their keys. *)
Record map_scan (m : gmap bytes Row) (sb eb : option bytes) (out : list (InternalKey * Row)) : Prop := {
  ms_sorted : StronglySorted bytes_lt (map (fun x => user_key_bytes x.1) out);
  ms_rows k row : (k, row) ∈ map (fun x => (user_key_bytes x.1, x.2)) out <-> in_bounds sb eb k = true /\ m !! k = Some row;
}.

(** A write that is acknowledged happens as a whole; one that is not has
    happened as a whole or not at all.  A key that cannot be encoded is an
    error.  Flushes and compactions are not seen. *)
Inductive map_step (s : TableSchema) : gmap bytes Row -> Event -> gmap bytes Row -> Prop :=
  | map_get m pk uk : encode_user_key pk s = Ok uk -> map_step s m (Gets pk (Ok (m !! uk))) m
  | map_get_bad m pk r : ~ is_ok (encode_user_key pk s) -> ~ is_ok r -> map_step s m (Gets pk r) m
  | map_range m start_pk end_pk sb eb out :
      bound_key s start_pk = Ok sb -> bound_key s end_pk = Ok eb -> map_scan m sb eb out ->
      map_step s m (Scans start_pk end_pk (Ok out)) m
  | map_range_bad m start_pk end_pk r :
      ~ (is_ok (bound_key s start_pk) /\ is_ok (bound_key s end_pk)) -> ~ is_ok r -> map_step s m (Scans start_pk end_pk r) m
  | map_write m ms w : map_step s m (Writes ms w) (apply_mutations s ms m)
  | map_refuse m ms w : ~ acknowledged w -> map_step s m (Writes ms w) m
  | map_flush m r : map_step s m (Flushes r) m
  | map_compact m r : map_step s m (Compacts r) m.

Inductive map_run (s : TableSchema) : gmap bytes Row -> list Event -> gmap bytes Row -> Prop :=
  | map_done m : map_run s m [] m
  | map_next m ev m' evs m'' : map_step s m ev m' -> map_run s m' evs m'' -> map_run s m (ev :: evs) m''.

(** What mutations do to the newest versions. *)
Lemma outcome_cons v (vs : list (VersionOf Row)) k r :
  v_seq v <= r -> (forall w, w ∈ vs -> v_seq w < v_seq v) ->
  outcome (newest (v :: vs) k r) =
  if decide (v_key v = k) then match v_op v with Put => Some (v_val v) | Delete => None end else outcome (newest vs k r).
Proof.
  intros Hr Hold. cbn [newest]. destruct (decide (v_key v = k)) as [E|Hne].
  - rewrite (proj2 (visible_spec k r v)) by done. destruct (newest vs k r) as [w|] eqn:Ew; [|by unfold outcome; cbn; destruct (v_op v)].
    apply newest_elem in Ew as (Hw & _). specialize (Hold w Hw).
    destruct (Z.ltb_spec (v_seq v) (v_seq w)); [lia|]. unfold outcome. cbn. by destruct (v_op v).
  - destruct (Mvcc.visible k r v) eqn:E; [|done]. by apply visible_spec in E as [? _].
Qed.

Lemma mutations_newest s ms : forall sq (m : gmap bytes Row) vs r,
  (forall k, m !! k = outcome (newest vs k r)) -> (forall v, v ∈ vs -> v_seq v < sq) -> sq + Z.of_nat (length ms) - 1 <= r ->
  forall k, apply_mutations s ms m !! k = outcome (newest (rev (mutation_versions s sq ms) ++ vs) k r).
Proof.
  induction ms as [|mu ms IH]; intros sq m vs r Hm Hold Hr k; cbn [apply_mutations mutation_versions]; [done|].
  destruct (encode_user_key (mu_pk mu) s) as [uk|x|]; [|done..]. cbn [rev]. rewrite <- app_assoc. cbn [app length] in *. apply IH.
  - intros k'. rewrite outcome_cons by (cbn; first [lia|by intros w Hw; apply Hold]). cbn [mutation_version v_key v_op v_val].
    unfold apply_mutation. destruct (decide (uk = k')) as [->|Hne].
    + destruct (mu_op mu); [by rewrite lookup_delete_eq|by rewrite lookup_insert_eq].
    + destruct (mu_op mu); [by rewrite lookup_delete_ne|by rewrite lookup_insert_ne].
  - intros v [->|Hv]%elem_of_cons; [cbn; lia|]. specialize (Hold v Hv). lia.
  - lia.
Qed.

Lemma mutation_versions_seqs s ms : forall sq,
  Forall (fun v => sq <= v_seq v < sq + Z.of_nat (length ms)) (mutation_versions s sq ms) /\
  consistent (mutation_versions s sq ms).
Proof.
  induction ms as [|mu ms IH]; intros sq; cbn [mutation_versions length]; [split; [constructor|by intros v w ?%elem_of_nil]|].
  destruct (encode_user_key _ _) as [uk|x|]; [|split; [constructor|by intros v w ?%elem_of_nil]..].
  destruct (IH (sq + 1)) as [Hs Hc]. rewrite Forall_forall in Hs. split.
  - constructor; [cbn; lia|]. apply Forall_forall. intros v Hv. specialize (Hs v Hv). lia.
  - intros v w [->|Hv]%elem_of_cons [->|Hw]%elem_of_cons Hk Hq; [done| | |by apply Hc].
    + specialize (Hs w Hw). cbn in Hq. lia.
    + specialize (Hs v Hv). cbn in Hq. lia.
Qed.

(** ** What a memtable holds *)

(** The user key, the operation and the value of an entry; its sequence number
    is in the key. *)
Definition entry_version (kv : bytes * EntryValue) : VersionOf bytes :=
  {| v_key := match user_key_of kv.1 with Ok k => k | _ => [] end;
     v_seq := match decode_seq_from_key kv.1 with Ok sq => sq | _ => 0 end;
     v_op := e_op kv.2; v_val := e_value kv.2 |}.

Definition table_versions {M} `{!SkipMap M} (t : Memtable M) : list (VersionOf bytes) :=
  map entry_version (sm_iter (sl_map (skiplist t))).

Lemma table_versions_perm {M} `{!SkipMap M, !SkipMapLaws M} s (t : Memtable M) a :
  table_holds (encoded_key s) t a -> table_versions t ≡ₚ at_versions a.
Proof.
  intros (_ & ws & E & HP & _ & Hst & _). unfold table_versions. rewrite E, map_map, <- HP.
  rewrite (map_ext_in _ id), map_id; [done|]. intros v Hv%list_elem_of_In. rewrite Forall_forall in Hst. destruct (Hst v Hv) as [[_ Hs] _].
  unfold entry_version, Memtable.enc. cbn [fst snd]. rewrite decode_seq_ikey, user_key_of_ikey by done.
  by destruct v.
Qed.

Lemma key_bytes_perm vs ws : vs ≡ₚ ws -> key_bytes vs = key_bytes ws.
Proof. unfold key_bytes. induction 1; cbn in *; lia. Qed.

Lemma Flushable_perm `{!RowSerde} s bits vs ws : vs ≡ₚ ws -> Flushable s bits vs -> Flushable s bits ws.
Proof.
  intros HP [F1 F2 F3 F4 F5 F6]. split; [intros x Hx; apply F1; by rewrite HP|intros x Hx; apply F2; by rewrite HP|done| | |].
  - by rewrite <- HP.
  - by rewrite <- (key_bytes_perm _ _ HP).
  - eapply arrow_fits_sub; [|exact F6]. change (flushed_row s <$> ws ⊆+ flushed_row s <$> vs). by rewrite HP.
Qed.

(** ** The engine and the map *)
Section refinement.
Context (xxh3_64 crc32 : bytes -> Z) {S F M C B J : Type}.
Context `{AR : !Arrow, ARL : !ArrowLaws, PF : !ParquetFile F, PFL : !ParquetFileLaws F, FB : !FileBytes F, FBL : !FileBytesLaws F}.
Context `{FC : !FooterCodec, FCL : !FooterCodecLaws, SJ : !SchemaJson, SJL : !SchemaJsonLaws}.
Context `{RB : !Roaring B, RL : !RoaringLaws B, FJ : !FooterJson J, FJL : !FooterJsonLaws J}.
Context `{PR : !Prost, MJ : !ManifestJson, WS : !WalSink S, FS : !FileSystem S}.
Context `{SM : !SkipMap M, SML : !SkipMapLaws M, LC : !LruCache C, LCL : !LruCacheLaws C, RS : !RowSerde, RSL : !RowSerdeLaws}.
Context (dv_iter : gmap string (DeletionVector B) -> list (string * DeletionVector B)).
Implicit Types (e : Engine S M C) (d : Disk) (ts : list ATable) (f : DataFileMeta).
Local Abbreviation sh := (shown crc32 (B := B)).
Local Abbreviation view d e := (dview (F := F) d e).
Local Abbreviation StoreOk := (StoreInv.StoreOk xxh3_64 crc32 (F := F) (B := B)).
Local Abbreviation WriterOk d e ts := (Engine.WriterOk xxh3_64 crc32 (B := B) (disk_files d) (disk_puffins d) e ts).
Local Abbreviation all d e ts := (all_versions (view d e) ts (sh (view d e))).
Local Abbreviation current e := (vs_current (eg_version e)).
Local Abbreviation next_sid e := (cat_next_version (eg_catalog e)).
Local Abbreviation counter e := (GlobalSeq.counter (eg_global e)).
Local Abbreviation visible e := (GlobalSeq.counter (eg_visible e)).

(** Memtables that a flush can write: rows that fit the schema, short keys,
    sizes within the file format, and no two tables with the same first
    sequence number. *)
Record Fits e : Prop := {
  fi_tables : Forall (fun t => Flushable (eg_schema e) (bloom_bits_per_key (eg_config e)) (table_versions t))
                (active (eg_memtable e) :: rev (immutable (eg_memtable e)));
  fi_firsts : NoDup (map first_seq (immutable (eg_memtable e) ++ [active (eg_memtable e)]));
}.

Lemma fits_tables e ts :
  Forall2 (table_holds (encoded_key (eg_schema e))) (active (eg_memtable e) :: rev (immutable (eg_memtable e))) ts -> Fits e ->
  Forall (fun t => Flushable (eg_schema e) (bloom_bits_per_key (eg_config e)) (at_versions t)) ts.
Proof.
  intros HF [HT _]. induction HF as [|t a l l' Ha _ IH]; [constructor|]. apply Forall_cons in HT as [Ht HT].
  constructor; [|by apply IH]. eapply Flushable_perm; [|exact Ht]. by eapply table_versions_perm.
Qed.

Lemma fits_rotatable d e ts : StoreOk d e ts -> Fits e -> Rotatable xxh3_64 crc32 (F := F) (B := B) d e ts.
Proof.
  intros HK HF. split; [done| |apply HF]. apply fits_tables; [|done].
  apply (eo_mem _ _ _ _ _ (wo_engine _ _ _ _ _ _ _ (fk_writer _ _ _ _ _ HK))).
Qed.

(** What the memtables hold after a write: new versions, all above the
    frontier, and what they held. *)
Lemma written_mem d e ts e' ts' ms r x :
  WriterOk d e ts (sh (view d e)) -> evolved e e' -> all_or_nothing (F := F) (disk_files d) (disk_puffins d) e ts e' ts' (sh (view d e)) ms r ->
  x ∈ a_all ts' -> visible e < v_seq x \/ exists y, y ∈ a_all ts /\ v_seq y = v_seq x.
Proof.
  intros HW Hev Hr Hx. destruct (evolved_fields _ _ Hev) as (_ & Ever & _). pose proof (wo_visible _ _ _ _ _ _ _ HW) as Hvis.
  assert (Hin : vmap mem_row x ∈ map (vmap mem_row) (a_all ts')) by by apply list_elem_of_fmap_2.
  destruct Hr as [(_ & _ & Hall)|(_ & _ & Hall)]; rewrite !all_split, Ever in Hall; [|rewrite app_assoc in Hall]; apply app_inv_tail in Hall; rewrite Hall in Hin.
  - apply list_elem_of_fmap in Hin as (y & E & Hy). right. exists y. split; [done|]. by injection E.
  - apply elem_of_app in Hin as [Hin|Hin].
    + left. apply list_elem_of_In, in_rev, list_elem_of_In in Hin. destruct (mutation_versions_seqs (eg_schema e) ms (counter e)) as [Hs _].
      rewrite Forall_forall in Hs. specialize (Hs _ Hin). cbn in Hs. lia.
    + apply list_elem_of_fmap in Hin as (y & E & Hy). right. exists y. split; [done|]. by injection E.
Qed.

Lemma written_visible d e ts e' ts' ms r :
  WriterOk d e ts (sh (view d e)) -> ms <> [] -> all_or_nothing (F := F) (disk_files d) (disk_puffins d) e ts e' ts' (sh (view d e)) ms r ->
  visible e <= visible e' <= Z.max (visible e) (counter e + Z.of_nat (length ms) - 1).
Proof.
  intros HW Hne Hr. pose proof (wo_visible _ _ _ _ _ _ _ HW) as Hvis. destruct ms as [|mu ms]; [done|]. cbn [length] in *.
  destruct Hr as [(_ & -> & _)|(_ & -> & _)]; cbn [length]; lia.
Qed.

Lemma written_consistent d e ts e' ts' ms r :
  WriterOk d e ts (sh (view d e)) -> consistent (all d e ts) ->
  all_or_nothing (F := F) (disk_files d) (disk_puffins d) e ts e' ts' (sh (view d e)) ms r ->
  consistent (all_versions (view d e') ts' (sh (view d e))).
Proof.
  intros HW HC [(_ & _ & Hall)|(_ & _ & Hall)]; unfold dview in *; rewrite Hall; [done|].
  destruct (mutation_versions_seqs (eg_schema e) ms (counter e)) as [Hs Hc]. rewrite Forall_forall in Hs.
  pose proof (wo_visible _ _ _ _ _ _ _ HW) as Hvis. pose proof (wo_seqs _ _ _ _ _ _ _ HW) as Hold.
  assert (Hrev : forall v, v ∈ rev (mutation_versions (eg_schema e) (counter e) ms) -> v ∈ mutation_versions (eg_schema e) (counter e) ms).
  { intros v Hv. by apply list_elem_of_In, in_rev, list_elem_of_In in Hv. }
  intros v w [Hv%Hrev|Hv]%elem_of_app [Hw%Hrev|Hw]%elem_of_app Hk Hq.
  - by apply Hc.
  - specialize (Hs v Hv). specialize (Hold w Hw). lia.
  - specialize (Hs w Hw). specialize (Hold v Hv). lia.
  - by apply HC.
Qed.

(** Writes keep the invariant of the store. *)
Lemma written_store d e ts e' ts' ms r :
  StoreOk d e ts -> WriterOk d e' ts' (sh (view d e)) -> evolved e e' -> Fits e' -> ms <> [] ->
  all_or_nothing (F := F) (disk_files d) (disk_puffins d) e ts e' ts' (sh (view d e)) ms r ->
  StoreOk d e' ts'.
Proof.
  intros HK HW' Hev HFits Hne Hr. pose proof (fk_writer _ _ _ _ _ HK) as HW.
  pose proof (fun x => written_mem d e ts e' ts' ms r x HW Hev Hr) as Hmem.
  pose proof (written_visible d e ts e' ts' ms r HW Hne Hr) as [Hvis _].
  pose proof (written_consistent d e ts e' ts' ms r HW (or_consistent _ _ _ (fk_ordered _ _ _ _ _ HK)) Hr) as Hcons.
  pose proof (fits_tables e' ts' (eo_mem _ _ _ _ _ (wo_engine _ _ _ _ _ _ _ HW')) HFits) as Htab.
  clear Hr HW. destruct e as [cfg sch gl vis wal mm ver cat cache comp pend live ro cl].
  destruct e' as [cfg1 sch1 gl1 vis1 wal1 mm1 ver1 cat1 cache1 comp1 pend1 live1 ro1 cl1].
  unfold evolved, with_state in Hev. cbn in Hev, Hvis, Hmem, Htab. injection Hev as -> -> -> -> -> -> -> -> ->.
  destruct HK as [_ [O1 O2 O3 O4 O5 O6 O7 _] Hnd _ Hsch Hver Hrows Hsid HX Hfiles Hpaths Hpend Htidy Hfront].
  split; try done.
  - split; try done. intros l f x Hf Hx. cbn in *. destruct (Hmem x Hx) as [Hx'|(y & Hy & <-)]; [|by eapply O2].
    specialize (Hfront l f Hf). lia.
  - pose proof (fi_firsts _ HFits) as H. rewrite map_app in H. by apply NoDup_app in H as [? _].
  - destruct ts' as [|t ts']; [done|]. by apply Forall_cons in Htab as [_ ?].
  - intros l f Hf. destruct (Hfiles l f Hf) as (Hp & rd & dv & [R1 R2 R3 R4 R5 R6 R7]). split; [done|]. by exists rd, dv.
  - intros l f Hf. specialize (Hfront l f Hf). cbn in *. lia.
Qed.

(** ** Runs of the engine *)
Definition state : Type := Disk * Engine S M C.

(** The writes a caller can make, with the mutations they ask for. *)
Inductive eng_write d e : list Mutation -> Engine S M C * written -> Prop :=
  | write_put pk row :
      eng_write d e [{| mu_pk := pk; mu_row := Some row; mu_op := Put |}]
        (eng_put xxh3_64 crc32 (B := B) (disk_files d) (disk_puffins d) e pk row)
  | write_delete pk :
      eng_write d e [{| mu_pk := pk; mu_row := None; mu_op := Delete |}]
        (eng_delete xxh3_64 crc32 (B := B) (disk_files d) (disk_puffins d) e pk)
  | write_many ms : eng_write d e ms (write_batch xxh3_64 crc32 (B := B) (disk_files d) (disk_puffins d) e ms).

(** One call that returns, under any failing system calls.  Names of new files
    are fresh, and counters do not run out. *)
Inductive eng_step : state -> Event -> state -> Prop :=
  | step_get d e pk e' r :
      Forall FieldValue_wf pk ->
      lookup_row xxh3_64 crc32 (B := B) (disk_files d) (disk_puffins d) e pk = (e', r) ->
      eng_step (d, e) (Gets pk r) (d, e')
  | step_scan d e start_pk end_pk r :
      range_scan crc32 (B := B) (eview (disk_files d) (disk_puffins d) e) start_pk end_pk = r ->
      eng_step (d, e) (Scans start_pk end_pk r) (d, e)
  | step_write d e ms e' w :
      Forall mutation_wf ms -> counter e + Z.of_nat (length ms) <= SEQNUM_MAX ->
      eng_write d e ms (e', w) ->
      eng_step (d, e) (Writes ms w) (d, e')
  | step_flush e fresh sched w w' e' r :
      fresh_names (Datatypes.S (length (immutable (eg_memtable e)))) fresh e ->
      next_sid e + Z.of_nat (Datatypes.S (length (immutable (eg_memtable e)))) < 2 ^ 63 ->
      eng_flush xxh3_64 crc32 (F := F) (B := B) (J := J) dv_iter fresh e sched w = (w', Val (e', r)) ->
      eng_step (w_disk w, e) (Flushes r) (w_disk w', e')
  | step_compact e fresh uuid now_ms now sched w w' e' r :
      Compactable crc32 (F := F) (B := B) (w_disk w) e -> (forall lv, fresh_ids e lv fresh) -> next_sid e < 2 ^ 63 - 1 ->
      run_one_compaction_job xxh3_64 crc32 (F := F) (B := B) (J := J) dv_iter e fresh uuid now_ms now sched w = (w', Val (e', r)) ->
      eng_step (w_disk w, e) (Compacts r) (w_disk w', e').

(** Runs in which the memtables stay within what a flush can write. *)
Inductive eng_run : state -> list Event -> state -> Prop :=
  | run_done s : eng_run s [] s
  | run_next s ev s' evs s'' : eng_step s ev s' -> Fits s'.2 -> eng_run s' evs s'' -> eng_run s (ev :: evs) s''.

(** The engine stands for the map. *)
Record stands_for (s : state) (m : gmap bytes Row) : Prop := {
  sf_store : exists ts, StoreOk s.1 s.2 ts /\
    forall k, m !! k = outcome (visible_row crc32 (F := F) (B := B) s.1 s.2 ts k);
  sf_room : visible s.2 <= SEQNUM_MAX;
}.

Lemma write_spec d e ts ms e' w :
  WriterOk d e ts (sh (view d e)) -> Forall mutation_wf ms -> ms <> [] -> counter e + Z.of_nat (length ms) <= SEQNUM_MAX ->
  eng_write d e ms (e', w) ->
  (e' = e /\ ~ acknowledged w) \/
  exists micros r ts', w = Done micros r /\ WriterOk d e' ts' (sh (view d e)) /\ evolved e e' /\
    all_or_nothing (F := F) (disk_files d) (disk_puffins d) e ts e' ts' (sh (view d e)) ms r.
Proof.
  intros HW Hms Hne Hroom Hw.
  assert (Hint : forall pk row op, ms = [{| mu_pk := pk; mu_row := row; mu_op := op |}] ->
    write_internal xxh3_64 crc32 (B := B) (disk_files d) (disk_puffins d) e pk row op = (e', w) ->
    (e' = e /\ ~ acknowledged w) \/
    exists micros r ts', w = Done micros r /\ WriterOk d e' ts' (sh (view d e)) /\ evolved e e' /\
      all_or_nothing (F := F) (disk_files d) (disk_puffins d) e ts e' ts' (sh (view d e)) ms r).
  { intros pk row op -> E. apply Forall_cons in Hms as [Hpk _].
    pose proof (write_internal_spec xxh3_64 crc32 (B := B) (disk_files d) (disk_puffins d) e ts _ pk row op HW Hpk ltac:(cbn in Hroom; lia)) as H.
    rewrite E in H. destruct w as [|micros r]; [left; destruct H as [-> _]; by split; [|intros Hf; cbn in Hf]|right]. destruct H as (ts' & H). by exists micros, r, ts'. }
  inversion Hw as [pk row Ems E|pk Ems E|ms' Ems E]; subst.
  - unfold eng_put in E. destruct (eg_read_only e); [injection E as <- <-; left; split; [done|by intros Hf; cbn in Hf]|].
    destruct (Row_validate row (eg_schema e)); [|injection E as <- <-; left; split; [done|by intros Hf; cbn in Hf]..]. by eapply Hint.
  - unfold eng_delete in E. destruct (eg_read_only e); [injection E as <- <-; left; split; [done|by intros Hf; cbn in Hf]|]. by eapply Hint.
  - pose proof (write_batch_spec xxh3_64 crc32 (B := B) (disk_files d) (disk_puffins d) e ts _ ms HW Hms Hne Hroom) as H.
    rewrite E in H. destruct w as [|micros r]; [left; destruct H as [-> _]; by split; [|intros Hf; cbn in Hf]|right]. destruct H as (ts' & H). by exists micros, r, ts'.
Qed.

Lemma evolved_shown d e e' : evolved e e' -> sh (view d e') = sh (view d e).
Proof. intros ->. reflexivity. Qed.

(** A lookup of a key that cannot be encoded is an error. *)
Lemma lookup_bad_key d e pk e' r :
  ~ is_ok (encode_user_key pk (eg_schema e)) ->
  lookup_row xxh3_64 crc32 (B := B) (disk_files (F := F) d) (disk_puffins d) e pk = (e', r) -> e' = e /\ ~ is_ok r.
Proof.
  unfold lookup_row, point_lookup, encode, encode_user_key. cbn [eview en_schema]. intros Hbad.
  destruct (encode_pk_fields pk (eg_schema e)) as [b|x|]; [by destruct Hbad; exists b| |]; cbn [mbind res_bind];
    intros [= <- <-]; (split; [by destruct e|by intros []]).
Qed.

Context (Hxxh : forall l, 0 <= xxh3_64 l < 2 ^ 64) (Hpost : forall r, is_Some (postcard_to_vec r)).
Context (Hcrc : forall l, 0 <= crc32 l < 2 ^ 32) (Hiter : forall m, dv_iter m ≡ₚ map_to_list m).

Lemma get_refines d e pk e' r m :
  stands_for (d, e) m -> Forall FieldValue_wf pk -> Fits e' ->
  lookup_row xxh3_64 crc32 (B := B) (disk_files (F := F) d) (disk_puffins d) e pk = (e', r) ->
  map_step (eg_schema e) m (Gets pk r) m /\ stands_for (d, e') m /\ eg_schema e' = eg_schema e.
Proof.
  intros [(ts & HK & Hm) Hroom] Hpk HF E. cbn [fst snd] in *.
  destruct (encode_user_key pk (eg_schema e)) as [uk|x|] eqn:Hk.
  2,3: destruct (lookup_bad_key d e pk e' r) as [-> Hr]; [rewrite Hk; by intros []|exact E|];
    split; [apply map_get_bad; [rewrite Hk; by intros []|exact Hr]|]; (split; [split; [by exists ts|exact Hroom]|done]).
  destruct (lookup_row_spec xxh3_64 crc32 (B := B) (disk_files d) (disk_puffins d) e ts _ pk uk (fk_writer _ _ _ _ _ HK) Hpk Hk Hroom)
    as (e1 & E1 & Hev & _ & Hv & _ & HW & Hall).
  rewrite E in E1. injection E1 as <- ->. destruct (evolved_fields _ _ Hev) as (Hs & _). split; [|split; [|done]].
  - change (newest _ uk _) with (visible_row crc32 (F := F) (B := B) d e ts uk). rewrite <- Hm. by apply map_get.
  - split; cbn [fst snd]; [|by rewrite Hv]. exists ts. split.
    + eapply (written_store d e ts e' ts [{| mu_pk := pk; mu_row := None; mu_op := Delete |}] Panic); [done..|].
      left. split; [by intros []|]. split; [by rewrite Hv|exact Hall].
    + intros k. rewrite Hm. unfold visible_row. rewrite (evolved_shown d e e' Hev), Hv. f_equal. f_equal. symmetry. exact Hall.
Qed.

Lemma bound_encoded d e pk : visible e <= SEQNUM_MAX -> encode_bound (view d e) pk = bound_key (eg_schema e) pk.
Proof.
  intros Hvis. destruct pk as [pk|]; [|done]. cbn [encode_bound bound_key].
  change (read_seq (view d e)) with (visible e). change (en_schema (view d e)) with (eg_schema e).
  destruct (encode pk (visible e) Put (eg_schema e)) as [ik|x|] eqn:E.
  - apply encode_inv in E as (b & Hb & _ & _ & _ & _ & _ & Hu). unfold encode_user_key. rewrite Hb. cbn [mbind res_bind]. by rewrite Hu.
  - revert E. unfold encode, encode_tag, encode_user_key. rewrite (proj2 (Z.ltb_ge _ _) Hvis).
    destruct (encode_pk_fields pk (eg_schema e)); [done|by intros [= ->]|done].
  - revert E. unfold encode, encode_tag, encode_user_key. rewrite (proj2 (Z.ltb_ge _ _) Hvis).
    destruct (encode_pk_fields pk (eg_schema e)); done.
Qed.

Lemma scan_refines d e start_pk end_pk m :
  stands_for (d, e) m ->
  map_step (eg_schema e) m (Scans start_pk end_pk (range_scan crc32 (B := B) (eview (disk_files d) (disk_puffins d) e) start_pk end_pk)) m.
Proof.
  intros [(ts & HK & Hm) Hvis]. cbn [fst snd] in *.
  pose proof (bound_encoded d e start_pk Hvis) as Es. pose proof (bound_encoded d e end_pk Hvis) as Ee. unfold dview in Es, Ee.
  assert (Hbad : ~ (is_ok (bound_key (eg_schema e) start_pk) /\ is_ok (bound_key (eg_schema e) end_pk)) ->
    ~ is_ok (range_scan crc32 (B := B) (eview (disk_files (F := F) d) (disk_puffins d) e) start_pk end_pk)).
  { intros Hno [out Hout]. apply Hno. unfold range_scan, range_scan_pinned in Hout.
    apply bind_Ok in Hout as (sb & Hsb & Hout). apply bind_Ok in Hout as (eb & Heb & _). rewrite <- Es, <- Ee. split; by eexists. }
  destruct (bound_key (eg_schema e) start_pk) as [sb|x|] eqn:Esb.
  2,3: apply map_range_bad; [rewrite Esb; by intros [[] _]|apply Hbad; by intros [[] _]].
  destruct (bound_key (eg_schema e) end_pk) as [eb|x|] eqn:Eeb.
  2,3: apply map_range_bad; [rewrite Eeb; by intros [_ []]|apply Hbad; by intros [_ []]].
  destruct (range_scan_spec xxh3_64 crc32 (view d e) ts (sh (view d e)) start_pk end_pk sb eb
    (wo_engine _ _ _ _ _ _ _ (fk_writer _ _ _ _ _ HK)) (or_consistent _ _ _ (fk_ordered _ _ _ _ _ HK)) Es Ee) as (out & Hout & Hs & Hr).
  unfold dview in Hout. rewrite Hout. apply (map_range _ m start_pk end_pk sb eb); [done..|]. split; [done|].
  intros k row. rewrite Hr, Hm. done.
Qed.

Lemma write_refines d e ms e' w m :
  stands_for (d, e) m -> Forall mutation_wf ms -> counter e + Z.of_nat (length ms) <= SEQNUM_MAX -> Fits e' ->
  eng_write d e ms (e', w) ->
  exists m', map_step (eg_schema e) m (Writes ms w) m' /\ stands_for (d, e') m' /\ eg_schema e' = eg_schema e.
Proof.
  intros HS Hms Hroom HF Hw. destruct ms as [|mu ms].
  { assert (e' = e) as -> by (inversion Hw; subst; by simplify_eq/=).
    exists m. split; [|done]. apply (map_write _ m []). }
  set (l := mu :: ms) in *. pose proof HS as [(ts & HK & Hm) Hvis]. cbn [fst snd] in *.
  pose proof (fk_writer _ _ _ _ _ HK) as HW.
  destruct (write_spec d e ts l e' w HW Hms ltac:(done) Hroom Hw) as [[-> Hna]|(micros & r & ts' & -> & HW' & Hev & Hr)].
  { exists m. split; [by apply map_refuse|done]. }
  destruct (evolved_fields _ _ Hev) as (Hs & _).
  pose proof (written_store d e ts e' ts' l r HK HW' Hev HF ltac:(done) Hr) as HK'.
  pose proof (written_visible d e ts e' ts' l r HW ltac:(done) Hr) as Hv'.
  destruct Hr as [(Hno & Hv & Hall)|(_ & Hv & Hall)].
  - exists m. split; [apply map_refuse; intros Ha; apply Hno; destruct r as [sq|x|]; [by exists sq|destruct Ha..]|]. split; [|done].
    split; cbn [fst snd]; [|by rewrite Hv]. exists ts'. split; [done|]. intros k. rewrite Hm. unfold visible_row.
    rewrite (evolved_shown d e e' Hev), Hv. f_equal. f_equal. symmetry. exact Hall.
  - exists (apply_mutations (eg_schema e) l m). split; [apply map_write|]. split; [|done].
    split; cbn [fst snd]; [|lia]. exists ts'. split; [done|]. intros k. unfold visible_row.
    rewrite (evolved_shown d e e' Hev).
    transitivity (outcome (newest (rev (mutation_versions (eg_schema e) (counter e) l) ++ all d e ts) k (visible e')));
      [|f_equal; f_equal; symmetry; exact Hall]. apply mutations_newest.
    + intros k'. rewrite Hm. unfold visible_row. f_equal. symmetry. apply newest_same_frontier; [apply (wo_seqs _ _ _ _ _ _ _ HW)|lia].
    + intros x Hx. pose proof (wo_seqs _ _ _ _ _ _ _ HW x Hx). pose proof (wo_visible _ _ _ _ _ _ _ HW). lia.
    + lia.
Qed.

Lemma step_refines s ev s' m :
  stands_for s m -> Fits s.2 -> eng_step s ev s' -> Fits s'.2 ->
  exists m', map_step (eg_schema s.2) m ev m' /\ stands_for s' m' /\ eg_schema s'.2 = eg_schema s.2.
Proof.
  intros HS HF Hst HF'. destruct Hst as [d e pk e' r Hpk E|d e start_pk end_pk r <-|d e ms e' w Hms Hroom Hw|e fresh sched w w' e' r Hn Hsid E|e fresh uuid now_ms now sched w w' e' r Hc Hf Hsid E].
  - exists m. by apply get_refines.
  - exists m. split; [by apply scan_refines|done].
  - by apply write_refines.
  - exists m. split; [constructor|]. destruct HS as [(ts & HK & Hm) Hvis]. cbn [fst snd] in *.
    pose proof (eng_flush_spec xxh3_64 crc32 (J := J) dv_iter Hcrc Hxxh Hpost Hiter (w_disk w) e ts fresh (fits_rotatable _ _ _ HK HF) Hn Hsid sched w eq_refl) as H.
    rewrite E in H. cbn [fst snd] in H. destruct H as (ts' & HK' & Hv & _ & Hs & Hvi). split; [|done].
    split; cbn [fst snd]; [|by rewrite Hvi]. exists ts'. split; [done|]. intros k. by rewrite Hv.
  - exists m. split; [constructor|]. destruct HS as [(ts & HK & Hm) Hvis]. cbn [fst snd] in *.
    pose proof (job_spec xxh3_64 crc32 (J := J) dv_iter Hxxh Hpost Hcrc Hiter (w_disk w) e ts fresh uuid now_ms now HK Hc Hf Hsid sched w eq_refl) as H.
    rewrite E in H. destruct H as [J1 J2 J3 J4 _ _ _]. cbn [fst] in *. split; [|done].
    split; cbn [fst snd]; [|by rewrite J4]. exists ts. split; [done|]. intros k. by rewrite J2.
Qed.

(** C1. The engine is a map.  Take any sequence of lookups, scans, puts,
    deletes, batches, flushes and compaction jobs that return, whatever system calls
    fail in them, from a state that stands for a map.  Then there is a run of
    the map with the same answers: every lookup, at any point, returns the row
    of the last write of its key, a scan exactly the rows of its range in
    the order of their keys; a delete removes its row, a batch
    happens as a whole, a write that returned an error happened as a whole or
    not at all, and flushes and compactions change nothing; and the state
    reached stands for the map reached, so the run can go on.

    The runs are those in which, after every call, each memtable holds what one
    file can ([Flushable]: rows of the schema, which has no floating-point
    defaults, short keys, at most [i32::MAX] bytes per column and the limits of
    filter and index) and no two memtables have the same first sequence number
    ([Fits]); in which new files get fresh names and counters do not run out; and
    in which compaction jobs start on stores whose rows fit an output file
    ([Compactable]).  The second condition excludes a loss of rows: after two flushes that fail on an empty memtable,
    two memtables share their number, and the next flush drops both, with the
    row of a put in between ([Flush.empty_flush_drops_row]). *)
Theorem engine_refines_map s m evs s' :
  stands_for s m -> Fits s.2 -> eng_run s evs s' ->
  exists m', map_run (eg_schema s.2) m evs m' /\ stands_for s' m'.
Proof.
  intros HS HF Hrun. revert m HS HF. induction Hrun as [s|s ev s1 evs s' Hst HF1 _ IH]; intros m HS HF.
  - exists m. split; [constructor|done].
  - destruct (step_refines s ev s1 m HS HF Hst HF1) as (m1 & Hm1 & HS1 & Es). destruct (IH m1 HS1 HF1) as (m' & Hm' & HS').
    exists m'. split; [|done]. rewrite Es in Hm'. by econstructor.
Qed.
End refinement.

(** ** An example

    On the engine of [CompactionRun], which holds one row in a file: a
    compaction job, a lookup, a put of another row, a lookup of that. *)
Lemma fits_lists {S M C} `{!SkipMap M, !RowSerde} (e : Engine S M C) ls :
  map table_versions (active (eg_memtable e) :: rev (immutable (eg_memtable e))) = ls ->
  Forall (Flushable (eg_schema e) (bloom_bits_per_key (eg_config e))) ls ->
  NoDup (map first_seq (immutable (eg_memtable e) ++ [active (eg_memtable e)])) -> Fits e.
Proof. intros E Hl Hn. split; [|done]. rewrite <- E in Hl. by rewrite Forall_map in Hl. Qed.

Lemma ex_flushable_nil s : Flushable s 10 [].
Proof. split; [by intros x ?%elem_of_nil|by intros x ?%elem_of_nil|done|done|done|apply arrow_fits_nil]. Qed.

Definition ex_row2 : Row := {| fields := [Some (Int32 2); Some (Bytes [b0]); Some (Bytes [b0])] |}.
Definition ex_s1 : ex_state :=
  let x := run ex_job ex_disk1 in (x.1, match x.2 with Val r => r.1 | Stopped => ex_engine1 end).
Definition ex_get (z : Z) (s : ex_state) :=
  lookup_row (fun _ => 0) example_crc (B := gset Z) (disk_files (F := ListFile) s.1) (disk_puffins s.1) s.2 (example_pk z [b0]).
Definition ex_put2 :=
  eng_put (fun _ => 0) example_crc (B := gset Z) (disk_files (F := ListFile) ex_s1.1) (disk_puffins ex_s1.1) (ex_get 1 ex_s1).1 (example_pk 2 [b0]) ex_row2.
Definition ex_s2 : ex_state := (ex_s1.1, ex_put2.1).
Definition ex_s3 : ex_state := (ex_s2.1, (ex_get 2 ex_s2).1).
Definition ex_events : list Event :=
  [Compacts (Ok true); Gets (example_pk 1 [b0]) (Ok (Some (ex_r 1)));
   Writes [{| mu_pk := example_pk 2 [b0]; mu_row := Some ex_row2; mu_op := Put |}] (Done 0 (Ok 2));
   Gets (example_pk 2 [b0]) (Ok (Some ex_row2))].

Definition ex_version2 : VersionOf bytes :=
  match map table_versions [active (eg_memtable ex_put2.1)] with
  | [[x]] => x
  | _ => {| v_key := []; v_seq := 0; v_op := Put; v_val := [] |}
  end.

Lemma ex_fits_empty (e : Engine bytes (list (bytes * EntryValue)) ListLru) :
  map table_versions (active (eg_memtable e) :: rev (immutable (eg_memtable e))) = [[]] ->
  length (immutable (eg_memtable e)) = 0%nat -> bloom_bits_per_key (eg_config e) = 10 -> Fits e.
Proof.
  intros E Hl Hb. eapply fits_lists; [exact E|rewrite Hb; constructor; [apply ex_flushable_nil|constructor]|].
  destruct (immutable (eg_memtable e)); [cbn; apply NoDup_singleton|done].
Qed.

Lemma ex_flushable2 : Flushable Recovery.ex_schema 10 [ex_version2].
Proof.
  assert (H : decode_row (v_val ex_version2) = Ok ex_row2 /\ v_val ex_version2 <> [] /\ v_op ex_version2 = Put /\ length (v_key ex_version2) = 8%nat).
  { vm_compute. split_and!; [reflexivity|discriminate|reflexivity|reflexivity]. }
  assert (Ha : arrow_fits Recovery.ex_schema Dual (map (flushed_row Recovery.ex_schema) [ex_version2])).
  { apply arrow_fits_bool. vm_compute. reflexivity. }
  revert H Ha. generalize ex_version2 as x. intros x (Hd & Hne & Ho & Hl) Ha.
  split; [| |done|done|unfold key_bytes; cbn; rewrite Hl; vm_compute; reflexivity|exact Ha]; intros y ->%list_elem_of_singleton.
  - unfold storable_row. destruct (v_val x); [done|]. exists ex_row2. rewrite Ho. split; [exact Hd|]. vm_compute. reflexivity.
  - rewrite Hl. vm_compute. split; [reflexivity|discriminate].
Qed.

Lemma ex_fits_one (e : Engine bytes (list (bytes * EntryValue)) ListLru) :
  map table_versions (active (eg_memtable e) :: rev (immutable (eg_memtable e))) = [[ex_version2]] ->
  length (immutable (eg_memtable e)) = 0%nat -> bloom_bits_per_key (eg_config e) = 10 -> eg_schema e = Recovery.ex_schema -> Fits e.
Proof.
  intros E Hl Hb Hs. eapply fits_lists; [exact E|rewrite Hb, Hs; constructor; [apply ex_flushable2|constructor]|].
  destruct (immutable (eg_memtable e)); [cbn; apply NoDup_singleton|done].
Qed.

Definition ex_map : gmap bytes Row := {[ v_key ex_version := ex_r 1 ]}.

Lemma ex_stands : stands_for (fun _ => 0) example_crc (F := ListFile) (B := gset Z) (ex_disk1, ex_engine1) ex_map.
Proof.
  split; [|vm_compute; discriminate]. destruct ex_store1 as (ts & HK & Hv). exists ts. split; [exact HK|].
  intros k. cbn [fst snd]. rewrite Hv. unfold visible_row. rewrite ex_written_all.
  assert (E1 : v_key (vmap mem_row ex_version) = v_key ex_version) by done.
  assert (E2 : v_op (vmap mem_row ex_version) = Put) by (vm_compute; reflexivity).
  assert (E3 : v_val (vmap mem_row ex_version) = ex_r 1) by (vm_compute; reflexivity).
  assert (E4 : v_seq (vmap mem_row ex_version) <= GlobalSeq.counter (eg_visible ex_written)) by (vm_compute; discriminate).
  unfold ex_map. revert E1 E2 E3 E4. generalize (vmap mem_row ex_version) as v. generalize (v_key ex_version) as key.
  generalize (GlobalSeq.counter (eg_visible ex_written)) as sq. intros sq key v E1 E2 E3 E4.
  rewrite (outcome_cons v [] k sq E4) by (by intros w ?%elem_of_nil). rewrite E1, E2, E3.
  destruct (decide (key = k)) as [<-|Hne]; [by rewrite lookup_singleton_eq|by rewrite lookup_singleton_ne].
Qed.

Local Abbreviation ex_step := (eng_step (fun _ => 0) example_crc (F := ListFile) (B := gset Z) (J := unit) map_to_list).

Lemma ex_step_get z r s : in_i 32 z -> (ex_get z s).2 = r -> ex_step s (Gets (example_pk z [b0]) r) (s.1, (ex_get z s).1).
Proof. intros Hz <-. destruct s as [d e]. apply step_get; [by apply ex_pk_wf|]. apply surjective_pairing. Qed.

Lemma engine_refines_map_witness :
  exists m', map_run (eg_schema ex_engine1) ex_map ex_events m' /\
    stands_for (fun _ => 0) example_crc (F := ListFile) (B := gset Z) ex_s3 m'.
Proof.
  pose proof (engine_refines_map (fun _ => 0) example_crc (F := ListFile) (B := gset Z) (J := unit) map_to_list
    ltac:(intros; lia) ltac:(intros r; by eexists) ltac:(exact example_crc_range) ltac:(done)) as Href.
  set (w0 := {| w_disk := ex_disk1; w_tick := 0 |}).
  assert (Ejob : exists w', ex_job (fun _ => NoFault) w0 = (w', Val (ex_s1.2, Ok true)) /\ w_disk w' = ex_s1.1).
  { assert (Er : match (ex_job (fun _ => NoFault) w0).2 with Val (_, Ok true) => true | _ => false end = true) by (vm_compute; reflexivity).
    unfold ex_s1, run. fold w0. destruct (ex_job (fun _ => NoFault) w0) as [w' [[e' [[]|x|]]|]]; [|done..]. by exists w'. }
  destruct Ejob as (w' & Ejob & Ed).
  apply (Href (ex_disk1, ex_engine1) ex_map ex_events ex_s3).
  - exact ex_stands.
  - apply ex_fits_empty; vm_compute; reflexivity.
  - apply run_next with (s' := (w_disk w', ex_s1.2)).
    + destruct ex_store1 as (ts & HK & _). apply (step_compact _ _ _ _ ex_name "t" 0 0 (fun _ => NoFault) w0); [exact (ex_compactable ts HK)| |vm_compute; reflexivity|exact Ejob].
      intros lv. exact (ex_fresh_ids ts lv HK).
    + apply ex_fits_empty; vm_compute; reflexivity.
    + rewrite Ed, <- surjective_pairing. apply run_next with (s' := (ex_s1.1, (ex_get 1 ex_s1).1)).
      * refine (ex_step_get 1 _ ex_s1 _ _); [unfold in_i; lia|vm_compute; reflexivity].
      * apply ex_fits_empty; vm_compute; reflexivity.
      * apply run_next with (s' := ex_s2).
        -- apply step_write; [constructor; [apply ex_pk_wf; unfold in_i; lia|constructor]|vm_compute; discriminate|].
           assert (E : ex_put2.2 = Done 0 (Ok 2)) by (vm_compute; reflexivity).
           rewrite <- E, <- surjective_pairing. apply write_put.
        -- apply ex_fits_one; vm_compute; reflexivity.
        -- apply run_next with (s' := ex_s3); [| |constructor].
           ++ refine (ex_step_get 2 _ ex_s2 _ _); [unfold in_i; lia|vm_compute; reflexivity].
           ++ apply ex_fits_one; vm_compute; reflexivity.
Defined.
