(* ===== verification/Db.v ===== *)
(** * The database facade

    [MeruDB] of [src/crates/merutable/src/db.rs] and [OpenOptions] of
    [src/crates/merutable/src/options.rs]: the options become the engine's
    configuration, rows shorter than the schema are padded with defaults before
    a write, and [add_column] commits an evolved schema.  Reads, flushes,
    refreshes and shutdown call the engine.

    [BackgroundWorkers] is the number of tasks of each kind; the turns of those
    tasks are in [CompactionJob].  Joining the tasks at shutdown is their last
    turn, and not a step here.  The mirror's worker is a [MirrorWorker] beside
    its configuration; its turns are in [Mirror], and [await_mirror], which
    runs concurrently with them, is in [AwaitMirror]. *)

From Stdlib Require Import Ascii.
From S2P Require Import Prelude Decimal Disk Sequence Schema Key RowCodec WalBatch WalLog WalManager Mvcc Memtable LsmVersion DeletionVector Manifest ManifestPb Catalog Commit Compaction Picker Bloom KvIndex Arrow Codec FileReader FileWriter Cache ReadPath DvResolve Engine Gc Flush EngineOpen Recovery CompactionJob ObjectStore Mirror.
Local Open Scope Z_scope.

(** ** Options *)
Record OpenOptions : Type := {
  o_schema : TableSchema;
  o_memtable_size_mb : Z;
  o_max_immutable_count : Z;
  o_row_cache_capacity : Z;
  o_level_target_bytes : list Z;
  o_l0_compaction_trigger : Z;
  o_l0_slowdown_trigger : Z;
  o_l0_stop_trigger : Z;
  o_bloom_bits_per_key : Z;
  o_max_compaction_bytes : Z;
  o_max_compaction_input_rows : Z;
  o_flush_parallelism : nat;
  o_compaction_parallelism : nat;
  o_gc_grace_period_secs : Z;
  o_read_only : bool;
  o_dual_format_max_level : option Z;
  o_mirror : option MirrorConfig;
  o_enable_flush_dv_emission : bool;
}.

(** The parallelism of [EngineConfig::default]. *)
Definition default_flush_parallelism : nat := 1.
Definition default_compaction_parallelism : nat := 2.

Definition options_new (s : TableSchema) : OpenOptions :=
  let ec := default_config in
  {| o_schema := s; o_memtable_size_mb := memtable_size_bytes ec / (1024 * 1024);
     o_max_immutable_count := max_immutable_count ec; o_row_cache_capacity := row_cache_capacity ec;
     o_level_target_bytes := level_target_bytes ec; o_l0_compaction_trigger := l0_compaction_trigger ec;
     o_l0_slowdown_trigger := l0_slowdown_trigger ec; o_l0_stop_trigger := l0_stop_trigger ec;
     o_bloom_bits_per_key := bloom_bits_per_key ec; o_max_compaction_bytes := max_compaction_bytes ec;
     o_max_compaction_input_rows := max_compaction_input_rows ec;
     o_flush_parallelism := default_flush_parallelism; o_compaction_parallelism := default_compaction_parallelism;
     o_gc_grace_period_secs := gc_grace_period_secs ec; o_read_only := cfg_read_only ec;
     o_dual_format_max_level := dual_format_max_level ec; o_mirror := None;
     o_enable_flush_dv_emission := enable_flush_dv_emission ec |}.

(** The builder methods, one constructor each. *)
Inductive Setting : Type :=
  | SetMirror (cfg : MirrorConfig)
  | SetDualFormat (max : option Z)
  | SetFlushDv (on : bool)
  | SetMemtableSizeMb (mb : Z)
  | SetMaxImmutable (n : Z)
  | SetRowCache (capacity : Z)
  | SetLevelTargets (targets : list Z)
  | SetL0Compaction (n : Z)
  | SetL0Slowdown (n : Z)
  | SetL0Stop (n : Z)
  | SetBloomBits (bits : Z)
  | SetCompactionRows (rows : Z)
  | SetCompactionBytes (bytes : Z)
  | SetFlushParallelism (n : nat)
  | SetCompactionParallelism (n : nat)
  | SetGcGrace (secs : Z)
  | SetReadOnly (enabled : bool).

Definition set_option (x : Setting) (o : OpenOptions) : OpenOptions :=
  match o with
  | Build_OpenOptions s mb imm cache targets l0 slow stop bits cb cr fp cp gc ro dual mir dv =>
      match x with
      | SetMirror c => Build_OpenOptions s mb imm cache targets l0 slow stop bits cb cr fp cp gc ro dual (Some c) dv
      | SetDualFormat n => Build_OpenOptions s mb imm cache targets l0 slow stop bits cb cr fp cp gc ro n mir dv
      | SetFlushDv b => Build_OpenOptions s mb imm cache targets l0 slow stop bits cb cr fp cp gc ro dual mir b
      | SetMemtableSizeMb n => Build_OpenOptions s n imm cache targets l0 slow stop bits cb cr fp cp gc ro dual mir dv
      | SetMaxImmutable n => Build_OpenOptions s mb n cache targets l0 slow stop bits cb cr fp cp gc ro dual mir dv
      | SetRowCache n => Build_OpenOptions s mb imm n targets l0 slow stop bits cb cr fp cp gc ro dual mir dv
      | SetLevelTargets l => Build_OpenOptions s mb imm cache l l0 slow stop bits cb cr fp cp gc ro dual mir dv
      | SetL0Compaction n => Build_OpenOptions s mb imm cache targets n slow stop bits cb cr fp cp gc ro dual mir dv
      | SetL0Slowdown n => Build_OpenOptions s mb imm cache targets l0 n stop bits cb cr fp cp gc ro dual mir dv
      | SetL0Stop n => Build_OpenOptions s mb imm cache targets l0 slow n bits cb cr fp cp gc ro dual mir dv
      | SetBloomBits n => Build_OpenOptions s mb imm cache targets l0 slow stop n cb cr fp cp gc ro dual mir dv
      | SetCompactionRows n => Build_OpenOptions s mb imm cache targets l0 slow stop bits cb n fp cp gc ro dual mir dv
      | SetCompactionBytes n => Build_OpenOptions s mb imm cache targets l0 slow stop bits n cr fp cp gc ro dual mir dv
      | SetFlushParallelism n => Build_OpenOptions s mb imm cache targets l0 slow stop bits cb cr n cp gc ro dual mir dv
      | SetCompactionParallelism n => Build_OpenOptions s mb imm cache targets l0 slow stop bits cb cr fp n gc ro dual mir dv
      | SetGcGrace n => Build_OpenOptions s mb imm cache targets l0 slow stop bits cb cr fp cp n ro dual mir dv
      | SetReadOnly b => Build_OpenOptions s mb imm cache targets l0 slow stop bits cb cr fp cp gc b dual mir dv
      end
  end.

(** The engine's configuration: the size in bytes is a [usize]. *)
Definition engine_config (o : OpenOptions) : res EngineConfig :=
  let size := o_memtable_size_mb o * 1024 * 1024 in
  if u64_max <? size then Panic
  else Ok {| memtable_size_bytes := size; max_immutable_count := o_max_immutable_count o;
     row_cache_capacity := o_row_cache_capacity o; level_target_bytes := o_level_target_bytes o;
     l0_compaction_trigger := o_l0_compaction_trigger o; l0_slowdown_trigger := o_l0_slowdown_trigger o;
     l0_stop_trigger := o_l0_stop_trigger o; bloom_bits_per_key := o_bloom_bits_per_key o;
     max_compaction_bytes := o_max_compaction_bytes o; max_compaction_input_rows := o_max_compaction_input_rows o;
     cfg_read_only := o_read_only o; gc_grace_period_secs := o_gc_grace_period_secs o;
     dual_format_max_level := o_dual_format_max_level o; enable_flush_dv_emission := o_enable_flush_dv_emission o |}.

(** ** The database *)
Record BackgroundWorkers : Type := { flush_handles : nat; compaction_handles : nat }.

Record MeruDB (S M C : Type) : Type := {
  db_engine : Engine S M C;
  db_background : option BackgroundWorkers;
  db_mirror_worker : option (MirrorConfig * MirrorWorker);
}.
Arguments db_engine {S M C} _.
Arguments db_background {S M C} _.
Arguments db_mirror_worker {S M C} _.

Section db.
Context (xxh3_64 crc32 : bytes -> Z) {S F M C B J : Type}.
Context `{!Arrow, !ParquetFile F, !FileBytes F, !FooterCodec, !SchemaJson, !Roaring B, !FooterJson J}.
Context `{!Prost, !ManifestJson, !WalSink S, !FileSystem S, !SkipMap M, !LruCache C, !RowSerde}.
Context (dv_iter : gmap string (DeletionVector B) -> list (string * DeletionVector B)).
Context (read_dir : gmap string S -> list (string * S)).
Implicit Types (db : MeruDB S M C) (e : Engine S M C).

Definition with_engine db e : MeruDB S M C :=
  {| db_engine := e; db_background := db_background db; db_mirror_worker := db_mirror_worker db |}.

Definition db_open (o : OpenOptions) (wal_dir : option (gmap string S)) (uuid : string) (now_ms : Z)
    : io (res (MeruDB S M C)) :=
  config <-? mret (engine_config o);
  e <-? engine_open crc32 read_dir config (o_schema o) wal_dir uuid now_ms;
  mret (Ok {| db_engine := e;
    db_background := if o_read_only o then None
                     else Some {| flush_handles := o_flush_parallelism o; compaction_handles := o_compaction_parallelism o |};
    db_mirror_worker := if o_read_only o then None else (fun cfg => (cfg, worker_spawn)) <$> o_mirror o |}).

Definition db_open_read_only (o : OpenOptions) (wal_dir : option (gmap string S)) (uuid : string) (now_ms : Z)
    : io (res (MeruDB S M C)) :=
  db_open (set_option (SetReadOnly true) o) wal_dir uuid now_ms.

Definition db_mirror_seq db : option Z := (fun w => mirror_seq w.2) <$> db_mirror_worker db.

Definition db_mirror_lag_secs (now : Z) db : option Z := w ← db_mirror_worker db; mirror_lag_secs now w.2.

(** A turn of the mirror's worker: the snapshot id is that of the installed
    version, the manifest the one the catalog committed last. *)
Definition db_mirror_turn (picks : list nat) (now : Z) db : io (MeruDB S M C) :=
  match db_mirror_worker db with
  | Some (cfg, w) =>
      w ← mirror_tick cfg picks (snapshot_id (vs_current (eg_version (db_engine db)))) (cat_current (eg_catalog (db_engine db))) now w;
      mret {| db_engine := db_engine db; db_background := db_background db; db_mirror_worker := Some (cfg, w) |}
  | None => mret db
  end.

(** A row with its missing columns filled, and its primary key. *)
Definition prepare_row (s : TableSchema) (row : Row) : res (list FieldValue * Row) :=
  let '(row, r) := pad_with_defaults row s in
  _ ← r;
  pk ← pk_values row (primary_key s);
  Ok (pk, row).

Fixpoint prepare_rows (s : TableSchema) (rows : list Row) : res (list Mutation) :=
  match rows with
  | [] => Ok []
  | row :: rows =>
      '(pk, row) ← prepare_row s row;
      ms ← prepare_rows s rows;
      Ok ({| mu_pk := pk; mu_row := Some row; mu_op := Put |} :: ms)
  end.

(** Writes and reads see the files of a disk. *)
Section with_disk.
Context (files : string -> option F) (puffins : string -> option bytes).

Definition db_put db (row : Row) : MeruDB S M C * written :=
  match prepare_row (eg_schema (db_engine db)) row with
  | Ok (pk, row) =>
      let '(e, w) := eng_put xxh3_64 crc32 (B := B) files puffins (db_engine db) pk row in (with_engine db e, w)
  | Err x => (db, Done 0 (Err x))
  | Panic => (db, Done 0 Panic)
  end.

Definition db_put_batch db (rows : list Row) : MeruDB S M C * written :=
  match prepare_rows (eg_schema (db_engine db)) rows with
  | Ok ms =>
      let '(e, w) := write_batch xxh3_64 crc32 (B := B) files puffins (db_engine db) ms in (with_engine db e, w)
  | Err x => (db, Done 0 (Err x))
  | Panic => (db, Done 0 Panic)
  end.

Definition db_delete db (pk : list FieldValue) : MeruDB S M C * written :=
  let '(e, w) := eng_delete xxh3_64 crc32 (B := B) files puffins (db_engine db) pk in (with_engine db e, w).

Definition db_get db (pk : list FieldValue) : MeruDB S M C * res (option Row) :=
  let '(e, r) := lookup_row xxh3_64 crc32 (B := B) files puffins (db_engine db) pk in (with_engine db e, r).

Definition db_scan db (start_pk end_pk : option (list FieldValue)) : res (list (InternalKey * Row)) :=
  range_scan crc32 (B := B) (eview files puffins (db_engine db)) start_pk end_pk.
End with_disk.

(** ** Schema evolution *)
Definition db_add_column db (col : ColumnDef) (uuid : string) (now_ms : Z) : io (MeruDB S M C * res TableSchema) :=
  let e := db_engine db in
  let current := eg_schema e in
  if existsb (fun c => String.eqb (name c) (name col)) (columns current) then
    mret (db, Err (SchemaMismatch "add_column: column already exists"))
  else if negb (back_fillable col) then
    mret (db, Err (SchemaMismatch "add_column: new column is NOT NULL and has no default"))
  else
    let '(evolved, valid) := validate
      {| table_name := table_name current; columns := columns current ++ [col]; primary_key := primary_key current;
         schema_id := schema_id current; last_column_id := last_column_id current |} in
    match valid with
    | Ok _ =>
        r ← commit crc32 (J := J) (dv_iter (dvs (txn_new (B := B)))) (eg_catalog e) txn_new evolved uuid now_ms;
        match r with
        | (cat, Ok _) => mret (with_engine db (set_catalog cat e), Ok evolved)
        | (_, Err x) => mret (db, Err x)
        | (_, Panic) => mret (db, Panic)
        end
    | Err x => mret (db, Err x)
    | Panic => mret (db, Panic)
    end.

(** ** Maintenance *)
Definition on_engine {A} (m : Engine S M C -> io (Engine S M C * A)) db : io (MeruDB S M C * A) :=
  '(e, a) ← m (db_engine db); mret (with_engine db e, a).

Definition db_flush (fresh : nat -> string * string * Z) db : io (MeruDB S M C * res unit) :=
  on_engine (eng_flush xxh3_64 crc32 (F := F) (B := B) (J := J) dv_iter fresh) db.

Definition db_compact (drawn : nat -> Drawn) db : io (MeruDB S M C * res unit) :=
  on_engine (eng_compact xxh3_64 crc32 (F := F) (B := B) (J := J) dv_iter drawn) db.

Definition db_refresh db : io (MeruDB S M C * res unit) := on_engine eng_refresh db.

Definition db_close (fresh : nat -> string * string * Z) (now : Z) db : io (MeruDB S M C * res unit) :=
  on_engine (eng_close xxh3_64 crc32 (F := F) (B := B) (J := J) dv_iter fresh now)
    {| db_engine := db_engine db; db_background := None; db_mirror_worker := None |}.
End db.

(** The default options give the default configuration. *)
Lemma default_options s : engine_config (options_new s) = Ok default_config.
Proof. vm_compute. reflexivity. Qed.

(** ** Padded rows *)
Lemma pad_fields r s r' : pad_with_defaults r s = (r', Ok tt) ->
  fields r' = fields r ++ map default_fill (drop (length (fields r)) (columns s)).
Proof.
  unfold pad_with_defaults. destruct (Nat.leb_spec (length (columns s)) (length (fields r))).
  - intros [= <-]. rewrite drop_ge by done. by rewrite app_nil_r.
  - destruct (pad_loop _ _) as [fs o] eqn:E. intros [= <- ->]. by apply pad_loop_Ok in E.
Qed.

Lemma pk_values_wf row pks pk : Forall (fun f => forall v, f = Some v -> FieldValue_wf v) (fields row) ->
  pk_values row pks = Ok pk -> Forall FieldValue_wf pk.
Proof.
  intros Hrow. revert pk. induction pks as [|i pks IH]; intros pk; cbn [pk_values]; [intros [= <-]; constructor|].
  destruct (Row_get row i) as [v|] eqn:Ev; [|done]. cbn [ok_or mbind res_bind].
  destruct (pk_values row pks) as [vs|x|]; [|done..]. intros [= <-]. constructor; [|by apply IH].
  unfold Row_get in Ev. destruct (fields row !! i) as [f|] eqn:Ef; [|done]. cbn in Ev. subst f.
  rewrite Forall_forall in Hrow. apply (Hrow (Some v)); [by eapply list_elem_of_lookup_2|done].
Qed.

Lemma normalize_names s : map name (columns (normalize_field_ids s)) = map name (columns s).
Proof.
  unfold normalize_field_ids. destruct (forallb has_field_id (columns s)); [done|]. generalize (sat_add 32 (last_column_id s) 1).
  assert (H : forall cols next, map name (assign_field_ids next cols).1 = map name cols).
  { induction cols as [|c cols IH]; intros next; cbn; [done|].
    destruct (has_field_id c); [specialize (IH next)|specialize (IH (sat_add 32 next 1))];
      destruct (assign_field_ids _ cols); cbn in *; by rewrite IH. }
  intros z. specialize (H (columns s) z). by destruct (assign_field_ids z (columns s)).
Qed.

Section facade.
Context (xxh3_64 crc32 : bytes -> Z) {S F M C B J : Type}.
Context `{AR : !Arrow, PF : !ParquetFile F, FB : !FileBytes F, FC : !FooterCodec, SJ : !SchemaJson, RB : !Roaring B, FJ : !FooterJson J}.
Context `{PR : !Prost, MJ : !ManifestJson, WS : !WalSink S, FS : !FileSystem S}.
Context `{SM : !SkipMap M, SML : !SkipMapLaws M, LC : !LruCache C, LCL : !LruCacheLaws C, RS : !RowSerde, RSL : !RowSerdeLaws}.
Context (dv_iter : gmap string (DeletionVector B) -> list (string * DeletionVector B)).
Context (files : string -> option F) (puffins : string -> option bytes).
Implicit Types (db : MeruDB S M C) (e : Engine S M C).

(** A put that returns encoded its key. *)
Lemma eng_put_key e pk row e' micros sq :
  eng_put xxh3_64 crc32 (B := B) files puffins e pk row = (e', Done micros (Ok sq)) ->
  Row_validate row (eg_schema e) = Ok tt /\ exists uk, encode_user_key pk (eg_schema e) = Ok uk.
Proof.
  unfold eng_put. destruct (eg_read_only e); [by intros [= _ _]|].
  destruct (Row_validate row (eg_schema e)) as [[]|x|]; [|by intros [= _ _]..]. unfold write_internal.
  destruct (eg_closed e); [by intros [= _ _]|]. destruct (parks e); [by intros [= _]|].
  destruct (encode_user_key pk (eg_schema e)) as [uk|x|]; [by eauto|by intros [= _ _]..].
Qed.

(** C29. A row shorter than the schema is stored with its missing columns
    filled.  If [put] of the facade returns, then the columns the row lacks
    were given their write default, else their initial default, else null; the
    filled row fits the schema, it is stored under the key of its primary-key
    columns at the engine's next sequence number, and [get] of that key
    returns it. *)
Theorem short_row_put_reads_back db ts content row db' micros sq :
  let e := db_engine db in
  let padded := {| fields := fields row ++ map default_fill (drop (length (fields row)) (columns (eg_schema e))) |} in
  WriterOk xxh3_64 crc32 (B := B) files puffins e ts content ->
  Forall (fun f => forall v, f = Some v -> FieldValue_wf v) (fields padded) ->
  GlobalSeq.current (eg_global e) < SEQNUM_MAX ->
  db_put xxh3_64 crc32 (B := B) files puffins db row = (db', Done micros (Ok sq)) ->
  sq = GlobalSeq.current (eg_global e) /\ Row_validate padded (eg_schema e) = Ok tt /\
  exists pk, pk_values padded (primary_key (eg_schema e)) = Ok pk /\
    (db_get xxh3_64 crc32 (B := B) files puffins db' pk).2 = Ok (Some padded).
Proof.
  intros e padded HW Hwf Hroom. unfold db_put, prepare_row. fold e.
  destruct (pad_with_defaults row (eg_schema e)) as [row' [[]|x|]] eqn:Ep; [|by intros [= _ _]..].
  assert (row' = padded) as ->.
  { apply pad_fields in Ep. destruct row' as [fs]. cbn in Ep. unfold padded. by rewrite Ep. }
  cbn [mbind res_bind]. destruct (pk_values padded (primary_key (eg_schema e))) as [pk|x|] eqn:Ek; [|by intros [= _ _]..].
  cbn [mbind res_bind]. destruct (eng_put _ _ _ _ _ _ _) as [e' w] eqn:Eput. intros [= <- ->].
  destruct (eng_put_key _ _ _ _ _ _ Eput) as (Hv & uk & Huk).
  destruct (eng_write_reads xxh3_64 crc32 (B := B) files puffins e ts content pk uk HW (pk_values_wf _ _ _ Hwf Ek) Huk Hroom) as [Hput _].
  destruct (Hput padded e' micros sq Eput) as (-> & ts' & _ & Hget & _). split; [done|]. split; [done|].
  exists pk. split; [done|]. unfold db_get. cbn [with_engine db_engine]. by destruct (lookup_row _ _ _ _ _ _).
Qed.

(** ** The schema of a commit *)
Lemma commit_schema order cat (t : SnapshotTransaction B) s uuid now_ms :
  triple (fun _ => True) (commit crc32 (J := J) order cat t s uuid now_ms)
    (fun r _ => match r.2 with Ok _ => m_schema (cat_current r.1) = m_schema (cat_current cat) /\ cat_next_version r.1 = cat_next_version cat + 1 | _ => True end)
    (fun _ => True).
Proof.
  assert (Hany : forall A (m : io A), triple (fun _ => True) m (fun _ _ => True) (fun _ => True)).
  { intros A m sched w _. by destruct (m sched w) as [w' [a|]]. }
  unfold commit. eapply triple_bind; [apply Hany|].
  intros [[locs pending]|x|]; [|by apply triple_ret..].
  eapply triple_bind with (R := fun r _ => match r with Ok m => m_schema m = m_schema (cat_current cat) | _ => True end).
  - destruct (apply _ _ _ _ _ _) as [m|x|] eqn:E; [|by apply triple_ret..]. rewrite io_try_ok.
    destruct (apply_Ok _ _ _ _ _ _ _ E) as (_ & _ & _ & _ & _ & _ & _ & _ & _ & _ & _ & _ & Hm).
    eapply triple_bind; [apply Hany|]. by intros [[]|x|]; apply triple_ret.
  - intros [m|x|]; cbn beta iota.
    + destruct (2 ^ 63 - 1 <=? _); by apply triple_ret.
    + eapply triple_bind; [apply Hany|]. intros a. by apply triple_ret.
    + by apply triple_ret.
Qed.

(** C39. [add_column] does not persist the column it adds.  Whatever the state
    of the database, closed or read-only included, a call that returns a schema
    returns one with the new column at the end, and has published a snapshot;
    but the manifest of that snapshot, which the next open compares its schema
    with, still has the schema without the column. *)
Theorem add_column_not_persisted db col uuid now_ms sched w w' db' evolved :
  db_add_column crc32 (B := B) (J := J) dv_iter db col uuid now_ms sched w = (w', Val (db', Ok evolved)) ->
  map name (columns evolved) = map name (columns (eg_schema (db_engine db))) ++ [name col] /\
  cat_next_version (eg_catalog (db_engine db')) = cat_next_version (eg_catalog (db_engine db)) + 1 /\
  m_schema (cat_current (eg_catalog (db_engine db'))) = m_schema (cat_current (eg_catalog (db_engine db))).
Proof.
  unfold db_add_column. destruct (existsb _ _); [by intros [= _ _]|]. destruct (negb _); [by intros [= _ _]|].
  destruct (validate _) as [s' [[]|x|]] eqn:Ev; [|by intros [= _ _]..].
  unfold mbind at 1, io_bind at 1. set (cat := eg_catalog (db_engine db)).
  pose proof (commit_schema (dv_iter (dvs (txn_new (B := B)))) cat txn_new s' uuid now_ms sched w I) as Hs.
  destruct (commit _ _ _ _ _ _ _ _ _) as [w1 [[cat' [v|x|]]|]]; [|by intros [= _ _]..]. intros [= _ <- <-].
  destruct Hs as [Hs Hn]. split; [|done]. unfold validate in Ev. injection Ev as <- _.
  rewrite normalize_names. cbn [columns]. by rewrite map_app.
Qed.
End facade.

(** ** Examples *)
Definition ex_db : MeruDB bytes (list (bytes * EntryValue)) ListLru :=
  {| db_engine := ex_new; db_background := None; db_mirror_worker := None |}.

(** The last column of the example table may be left out. *)
Definition ex_short : Row := {| fields := [Some (Int32 1); Some (Bytes [b0])] |}.

Lemma short_row_put_reads_back_witness :
  let after := db_put (fun _ => 0) example_crc (B := gset Z) ex_no_files ex_no_puffins ex_db ex_short in
  after.2 = Done 0 (Ok 1) /\
  (db_get (fun _ => 0) example_crc (B := gset Z) ex_no_files ex_no_puffins after.1 (example_pk 1 [b0])).2
    = Ok (Some {| fields := fields ex_short ++ [None] |}).
Proof.
  intros after. assert (E : after = (after.1, Done 0 (Ok 1))) by (vm_compute; reflexivity).
  destruct (short_row_put_reads_back (fun _ => 0) example_crc (B := gset Z) ex_no_files ex_no_puffins ex_db
    [{| at_first := 1; at_versions := replayed [] [] |}] ex_none ex_short after.1 0 1) as (_ & _ & pk & Hpk & Hget).
  - exact ex_new_ok.
  - apply Forall_cons. split; [intros v [= <-]; cbn; unfold in_i; lia|]. apply Forall_cons. split; [by intros v [= <-]|].
    apply Forall_cons. split; [done|constructor].
  - vm_compute. reflexivity.
  - exact E.
  - split; [by rewrite E|]. vm_compute in Hpk. injection Hpk as <-. exact Hget.
Defined.

Definition ex_note : ColumnDef :=
  {| name := "note"; col_type := CInt64; nullable := true; field_id := None; initial_default := None; write_default := None |}.

(** A database that is closed and read-only. *)
Definition ex_closed_db : MeruDB bytes (list (bytes * EntryValue)) ListLru :=
  let e := set_closed ex_new in
  with_engine ex_db {| eg_config := eg_config e; eg_schema := eg_schema e; eg_global := eg_global e;
    eg_visible := eg_visible e; eg_wal := eg_wal e; eg_memtable := eg_memtable e; eg_version := eg_version e;
    eg_catalog := eg_catalog e; eg_cache := eg_cache e; eg_compacting := eg_compacting e; eg_pending := eg_pending e;
    eg_live := eg_live e; eg_read_only := true; eg_closed := true |}.

Lemma add_column_not_persisted_witness :
  exists d db' evolved,
    run (db_add_column example_crc (B := gset Z) (J := unit) map_to_list ex_closed_db ex_note "t" 7) ex_empty
      = (d, Val (db', Ok evolved)) /\
    map name (columns evolved) = map name (columns Recovery.ex_schema) ++ ["note"%string] /\
    m_schema (cat_current (eg_catalog (db_engine db'))) = Recovery.ex_schema.
Proof.
  set (m := db_add_column example_crc (B := gset Z) (J := unit) map_to_list ex_closed_db ex_note "t" 7).
  set (w0 := {| w_disk := ex_empty; w_tick := 0 |}).
  assert (Er : match (m (fun _ => NoFault) w0).2 with Val (_, Ok _) => true | _ => false end = true) by (vm_compute; reflexivity).
  unfold run. fold w0. destruct (m (fun _ => NoFault) w0) as [w' [[db' [s'|x|]]|]] eqn:E; [|done..]. clear Er.
  exists (w_disk w'), db', s'. split; [done|].
  destruct (add_column_not_persisted example_crc (B := gset Z) (J := unit) map_to_list ex_closed_db ex_note "t" 7
    (fun _ => NoFault) w0 w' db' s' E) as (Hn & _ & Hs).
  split; [exact Hn|exact Hs].
Defined.
